(* ===== verification/_CoqProject ===== *)
-Q . S2P
Prelude.v
Position.v
Hash.v
MerkleSpec.v
InMemoryAccumulator.v
AccumulatorSound.v
AccumulatorProof.v
AccumulatorProofFacts.v
MerkleAccumulator.v
MerkleAccumulatorFacts.v
MerkleAppend.v
RangeProof.v
LightClient.v
ToyHash.v
PositionTheorems.v
AccumulatorTheorems.v
SparseMerkleProof.v
SparseSpec.v
SparseFacts.v
SparseClash.v
SparseTheorems.v
NibblePath.v
NibblePathFacts.v
NibbleTheorems.v
ByteCodec.v
JellyfishNode.v
JellyfishNodeFacts.v
JellyfishHash.v
JellyfishCodec.v
JellyfishSpec.v
JellyfishTree.v
JellyfishRead.v
JellyfishRuns.v
JellyfishBatch.v
JellyfishUpdate.v
JellyfishInsert.v
JellyfishCommit.v
JellyfishHistory.v
JellyfishTruncate.v
JellyfishTheorems.v
JellyfishStored.v
JellyfishIterator.v
JellyfishIterate.v
JellyfishIteratorTheorems.v
JellyfishRestore.v
JellyfishRestoreFacts.v
JellyfishRestoreAdd.v
JellyfishRestoreVerify.v
JellyfishRestoreSound.v
JellyfishRestoreChunks.v
JellyfishRestoreFinish.v
JellyfishRestoreRun.v
JellyfishRestoreTheorems.v
StateMerkleDb.v
StateMerklePruner.v
StateMerklePrunerFacts.v
StateMerklePrunerProgress.v
StateMerklePrunerTheorems.v
StateMerkleCommit.v
StateMerkleCommitFacts.v
StateMerkleCommitTheorems.v
StateMerkleSnapshot.v
LedgerMetadata.v
LedgerMetadataFacts.v
LedgerMetadataTheorems.v
StateRestore.v
StateRestoreFacts.v
StateSync.v
StateSyncFacts.v
StateSyncTheorems.v
StateMerkleTruncation.v
StateMerkleTruncationFacts.v
StateMerkleTruncationTheorems.v
SnapshotCommitter.v
SnapshotFacts.v
SnapshotTheorems.v
NodeRestart.v
NodeRestartTheorems.v
MessageQueue.v
MessageQueueTheorems.v
