(* ===== verification/Prelude.v ===== *)
(** * Authenticated storage of the Aptos node: a verification library

    The repository holds, among a web application and Move contracts, a copy of the
    sources of the Aptos node ([src/aptos-core]).  This library is about the part of the
    node that makes its data verifiable: the Merkle accumulator over the transactions, the
    sparse ("Jellyfish") Merkle tree over the state, the database that keeps the versions
    of that tree and prunes them, and the proofs that a client checks against a trusted
    root hash.  The per-key message queue of the node's channels is modelled as well.

    ** The parts of the program and the files that model them

    Paths are under [src/aptos-core].  A file named after a component holds its data and
    operations, [...Facts] and the other files of the group its lemmas, [...Theorems] its
    properties with their witnesses.

    - Positions of the accumulator ([types/src/proof/position/mod.rs]): [Position],
      [PositionTheorems].  A [Position] is a 64-bit word; every navigation function is the
      bit manipulation of the source, its specification the pair (level, index).
    - Hashes and Merkle nodes ([types/src/proof/mod.rs]): [Hash].  [aptos_crypto] is not in
      the repository, so hash values and hashers are the classes [HashValueOps],
      [HashValueBits], [CryptoHasher], [LeafHasher] and [HashValueKeys] with their laws;
      [ToyHash] is a concrete instance for the witnesses.  No theorem assumes that hashes
      do not collide, nor that no hash is the placeholder of an empty tree: the theorems
      that need it exhibit the collision, or the placeholder, instead.
    - In-memory accumulator ([types/src/proof/accumulator/mod.rs]): [InMemoryAccumulator],
      [AccumulatorSound]; reference tree in [MerkleSpec].
    - Accumulator proofs and the summary of a light client
      ([types/src/proof/definition.rs], [types/src/proof/mod.rs]): [AccumulatorProof],
      [AccumulatorProofFacts], [RangeProof], [LightClient].
    - Persistent accumulator ([storage/accumulator/src/lib.rs]): [MerkleAccumulator],
      [MerkleAccumulatorFacts], [MerkleAppend].  The storage is a reader of frozen nodes.
      [AccumulatorTheorems] holds the properties of all the accumulator files.
    - Sparse Merkle proofs ([types/src/proof/definition.rs]): [SparseMerkleProof], the
      reference tree [SparseSpec], [SparseFacts], [SparseClash] (what a root hash
      determines), [SparseTheorems].
    - Nibbles and nibble paths ([types/src/nibble]): [NibblePath], [NibblePathFacts],
      [NibbleTheorems].
    - Nodes of the Jellyfish Merkle tree ([storage/jellyfish-merkle/src/node_type/mod.rs]):
      [ByteCodec] (the byteorder interface and variable-length integers), [JellyfishNode],
      [JellyfishNodeFacts], [JellyfishHash], [JellyfishCodec].
    - The tree ([storage/jellyfish-merkle/src/lib.rs]): [JellyfishTree]; what a stored tree
      represents is [JellyfishSpec]; [JellyfishRead] is about reads, [JellyfishRuns],
      [JellyfishBatch], [JellyfishUpdate], [JellyfishInsert] and [JellyfishCommit] about
      updates, [JellyfishHistory] about the versions over time, [JellyfishTruncate] about
      going back to an earlier one, [JellyfishStored] about the form of what is stored;
      [JellyfishTheorems] holds the properties.  Storage is a [TreeReader]; [sees] states
      what a reader must find.
    - The iterator ([storage/jellyfish-merkle/src/iterator/mod.rs]): [JellyfishIterator],
      [JellyfishIterate], [JellyfishIteratorTheorems].
    - The restore of a tree from chunks of leaves
      ([storage/jellyfish-merkle/src/restore/mod.rs]): [JellyfishRestore];
      [JellyfishRestoreFacts] and [JellyfishRestoreAdd] are about the nodes on the way to
      the last leaf, [JellyfishRestoreVerify] and [JellyfishRestoreSound] about the proofs,
      [JellyfishRestoreChunks], [JellyfishRestoreFinish] and [JellyfishRestoreRun] about
      chunks, the end and whole runs; [JellyfishRestoreTheorems].  The storage is a
      [TreeStore] with [TreeStoreLaws].
    - The restore of the state, tree and values
      ([storage/aptosdb/src/state_restore/mod.rs]), and the chunks that a node serves
      ([state_store/mod.rs]): [StateRestore], [StateRestoreFacts] (the values, both
      together, the serving side).
    - The state sync of a new node ([state-sync/state-sync-driver/src]: [bootstrapper.rs],
      [storage_synchronizer.rs], [metadata_storage.rs]): [StateSync], [StateSyncFacts] (the
      receiver, and rounds with a serving node), [StateSyncTheorems].  The rest
      of the node is the class [SyncNode], the databases are [StateValueWriter] and
      [MetadataDb] with their laws.
    - The database of the state tree ([storage/aptosdb/src/state_merkle_db.rs],
      [schema/stale_node_index], [schema/db_metadata]): [StateMerkleDb] (the databases and
      the byte format of the index), [StateMerkleCommit] (merklizing a batch and committing it),
      [StateMerkleCommitFacts], [StateMerkleCommitTheorems], [StateMerkleSnapshot] (the
      search for the last snapshot).  RocksDB behind [schemadb] is the class [SchemaDb]
      with its documented behaviour in [SchemaDbLaws]: reads see what was written, iterators
      follow the byte order, a batch is written as a whole or not at all; any operation may
      fail.
    - The pruner ([storage/aptosdb/src/pruner]): [StateMerklePruner],
      [StateMerklePrunerFacts] (safety), [StateMerklePrunerProgress] (termination),
      [StateMerklePrunerTheorems].
    - Ledger infos, epochs and usage ([storage/aptosdb/src/ledger_db/ledger_metadata_db.rs],
      [types/src/state_store/state_storage_usage.rs]): [LedgerMetadata],
      [LedgerMetadataFacts], [LedgerMetadataTheorems]; the database behind is the class
      [LedgerDb] with [LedgerDbLaws].
    - The threads that persist snapshots of the state
      ([storage/aptosdb/src/state_store/state_snapshot_committer.rs],
      [state_merkle_batch_committer.rs]) and the check before a read
      ([db/include/aptosdb_internal.rs]): [SnapshotCommitter], [SnapshotFacts],
      [SnapshotTheorems].  A snapshot in memory is the class [StateSnapshot], and
      [snapshot_delta] is what the threads rely on.
    - The truncation of the state tree, when its databases are opened after a crash and when
      the node starts behind the tree ([storage/aptosdb/src/utils/truncation_helper.rs],
      [state_merkle_db.rs], [state_store/mod.rs]): [StateMerkleTruncation],
      [StateMerkleTruncationFacts], [StateMerkleTruncationTheorems].
    - The start of the node ([db/include/aptosdb_internal.rs], [state_store/mod.rs]):
      [NodeRestart], [NodeRestartTheorems].
    - Message queues ([crates/channel/src/message_queues.rs]): [MessageQueue],
      [MessageQueueTheorems].

    How they interact: the accumulator proofs use positions and Merkle nodes; the tree uses
    nodes, nibble paths and the sparse proofs and reads through a [TreeReader]; the
    database is such a reader ([smdb_reader], [smdb_sees]), calls the tree to merklize, and
    writes its batches; the pruner deletes what the batches list as stale.  The committer
    asks the ledger for the end of the previous epoch, by which a stale node goes to the
    index of one of the two pruners, commits, and moves the targets of both; a read is let
    through by the first readable versions of the two managers and the ends of epochs.

    ** Conventions

    A Rust function that can fail returns an [outcome]: a value, an error, or a panic; a
    failed assertion, an index out of range and an arithmetic overflow are panics, as with
    overflow checks on.  Machine words are [Z] with their width written out.  Functions
    that only read are pure; a function that writes to a database is a [prog], a program
    that keeps what it has written when it returns early.  Hash maps
    are [gmap]s, ordered maps sorted association lists.

    ** What the theorems show

    - Positions: the bijection between in-order and post-order numbers, the laws of
      navigation, and where the arithmetic overflows at level 63.
    - Accumulator: appending (to memory, through storage, by subtrees) refines appending to
      a list of leaves with the reference root; the proofs generated from storage verify;
      what a verifier accepts is true of the list, or a collision is exhibited; a summary
      that is extended stays a prefix; the range verification ends, and where it panics.
    - Sparse proofs: sound and complete against the reference sparse tree.
    - Nodes: byte formats round-trip and node keys sort as their bytes; the hash of a node
      over its 16-bit bitmaps is that of the binary tree over its leaves; what is stored of
      a version that is kept is well formed and decodes from its bytes.
    - Tree: putting a batch gives a tree of the updated leaves with the reference root, can
      always be done, and over any interleaving of puts and deletions of stale nodes every
      version that is kept stays readable with verifying proofs; iteration yields the leaves
      in order from a key or an index on.
    - Restore: the leaves received are those of the tree with the expected root hash up to
      the last one, or hashes clash; the end writes their tree; the chunks of a tree are all
      accepted, or a hash of its nodes is the placeholder; but the leaves of a rejected chunk stay and are written.
    - State sync: a serving and a new node end with the same root hash, whatever the sizes
      of the chunks, of at least one key, and the resets of the stream, after as many rounds
      with something new as there are keys (or a hash is the placeholder); what a sync without errors writes is the
      expected state up to the last key received, and all of it if the last chunk had a new
      key; but a chunk with known keys only can end it early, with a part of the state.
    - Database: a commit adds the next version whatever the order in which the threads
      write the shards; when it fails on the way the versions before it stay readable and
      the last snapshot is the one before it, since the root is written last; a crash
      between its writes leaves, once the databases are opened again, the versions from
      before the commit or all of the new one; in sharded databases with an earlier commit
      nothing else, otherwise also nodes of the new version without its root.  At the start the tree goes back to the last
      version that is not after the progress of the ledger.
    - Ledger: the epoch of a version is the number of epochs that ended before it; usage is
      read back.
    - Node: over any sequence of snapshot commits, ends of epochs and runs of both pruners
      ([node_run]), what the check before a read lets through is readable; the versions of
      both windows are let through; a good snapshot is committed, one with another root
      hash is refused before anything is written.  After a restart with one pruner ahead of
      the other, a pruned version can be let through.
    - Pruner: any run, also a failing one, keeps the versions from its target on; on working
      databases it ends and deletes exactly the entries up to the target, under a proviso
      without which entries of a shard are passed over and stay for good, through later
      commits, runs of the pruners and restarts ([NodeRestartTheorems]); what the manager of the epoch
      snapshots saves is not what it reads at the next start.
    - Queue: it refines a list of keys with their messages, and is fair.

    ** Bounds and fuel

    Loops that are not structural take fuel; running out of it is a panic of its own, and
    the functional theorems show results, hence that it is not reached.  Word loops take
    64 or 65 rounds (one per bit); [get_hash] of an accumulator node 65 levels; the halving
    of an internal node's 16 children 5 levels; tree updates 64 nibble levels, reads 65
    nodes on a path (the bound of the source); an iterator at most one round per level
    left; the pruning of a shard 2 rounds, since the second finds nothing; the pruner
    [prune_fuel], three rounds per version between progress and target; the recovery of a
    restore 64 levels of a path, the halving of its children 4; the search for a
    snapshot one round per version, since the version decreases.  The bounds on numbers of
    leaves ([< 2^64], for the accumulator [< 2^63]) are those of the counters.

    ** Not modelled

    The caches of the state database and its checkpoints; of the state sync, the sync of
    transactions and of epochs, the data streams, and the writes to the ledger at the end.
    The recovery of a restore from what an earlier run of the process has stored is
    modelled ([recover_partial_nodes]), but there is no
    theorem about it.  Nor modelled are the truncation of the ledger and of the key-value
    database; the replay of the ledger at the start; the scratchpad
    (the in-memory tree over the uncommitted state), so that the difference of two snapshots is an interface.  The two threads of
    the committer run one after the other on each snapshot; the second one's work on a
    snapshot overlapping with the first one's on the next needs the caches.  The
    configuration is such that epoch snapshots are kept at least as long as the others
    ([windows_ordered]).  Of the ledger database only the metadata is
    modelled; its other tables, the key-value database and their pruners, the network,
    execution, mempool, indexers and tools are not; nor are the web application and the
    contracts, which are not Rust.  Hash functions, bcs, byteorder, itertools and RocksDB
    are not in the repository and are parameters. *)
From stdpp Require Import base list numbers strings option.
From Stdlib Require Import ZArith Lia Bool.

#[global] Open Scope Z_scope.

(** ** Outcomes of Rust code

    A Rust function either returns a value, returns an [anyhow]/[AptosDbError]
    error through [Result], or panics ([assert!], [expect], [unreachable!],
    arithmetic overflow with overflow checks on, shift by too many bits,
    out-of-range indexing). *)
Inductive outcome (A : Type) : Type :=
| Ok (a : A)
| Err (e : string)
| Panic (e : string).
Arguments Ok {A} a.
Arguments Err {A} e.
Arguments Panic {A} e.

#[export] Instance outcome_ret : MRet outcome := @Ok.
#[export] Instance outcome_bind : MBind outcome := fun A B f m =>
  match m with
  | Ok a => f a
  | Err e => Err e
  | Panic e => Panic e
  end.
#[export] Instance outcome_fmap : FMap outcome := fun A B f m =>
  match m with
  | Ok a => Ok (f a)
  | Err e => Err e
  | Panic e => Panic e
  end.

(** [ensure!(b, msg)]: return an error unless [b]. *)
Definition ensure (b : bool) (msg : string) : outcome unit :=
  if b then Ok tt else Err msg.

(** [assert!(b)]: panic unless [b]. *)
Definition assert (b : bool) (msg : string) : outcome unit :=
  if b then Ok tt else Panic msg.

(** [Option::expect] / [unwrap]. *)
Definition expect {A} (o : option A) (msg : string) : outcome A :=
  match o with Some a => Ok a | None => Panic msg end.

(** [Option::ok_or_else]. *)
Definition ok_or {A} (o : option A) (msg : string) : outcome A :=
  match o with Some a => Ok a | None => Err msg end.

Definition is_ok {A} (o : outcome A) : bool :=
  match o with Ok _ => true | _ => false end.

(** Reduce the monad's own operations, nothing else. *)
Ltac osimpl :=
  cbn [mbind outcome_bind mret outcome_ret fmap outcome_fmap fst snd].
Tactic Notation "osimpl" "in" hyp(H) :=
  cbn [mbind outcome_bind mret outcome_ret fmap outcome_fmap fst snd] in H.

Lemma bind_Ok {A B} (f : A -> outcome B) (m : outcome A) (b : B) :
  (m ≫= f) = Ok b <-> exists a, m = Ok a /\ f a = Ok b.
Proof. destruct m; cbn; naive_solver. Qed.

Lemma obind_Ok {A B} (f : A -> outcome B) (a : A) : (Ok a ≫= f) = f a.
Proof. reflexivity. Qed.

Lemma ensure_Ok b msg u : ensure b msg = Ok u <-> b = true.
Proof. destruct b, u; cbn; naive_solver. Qed.

Lemma assert_Ok b msg u : assert b msg = Ok u <-> b = true.
Proof. destruct b, u; cbn; naive_solver. Qed.

Lemma ensure_true b msg : b = true -> ensure b msg = Ok tt.
Proof. by intros ->. Qed.

Lemma assert_true b msg : b = true -> assert b msg = Ok tt.
Proof. by intros ->. Qed.

Lemma expect_Ok {A} (o : option A) msg a : expect o msg = Ok a <-> o = Some a.
Proof. destruct o; cbn; naive_solver. Qed.

Lemma ok_or_Ok {A} (o : option A) msg a : ok_or o msg = Ok a <-> o = Some a.
Proof. destruct o; cbn; naive_solver. Qed.

(** ** Powers of two, indexed by [nat] levels *)
Definition pow2 (n : nat) : Z := 2 ^ Z.of_nat n.

Lemma pow2_0 : pow2 0 = 1.
Proof. reflexivity. Qed.

Lemma pow2_S n : pow2 (S n) = 2 * pow2 n.
Proof. unfold pow2. rewrite Nat2Z.inj_succ, Z.pow_succ_r; lia. Qed.

Lemma pow2_pos n : 0 < pow2 n.
Proof. unfold pow2. lia. Qed.

Lemma pow2_add m n : pow2 (m + n) = pow2 m * pow2 n.
Proof. unfold pow2. rewrite Nat2Z.inj_add, Z.pow_add_r; lia. Qed.

Lemma pow2_mono m n : (m <= n)%nat -> pow2 m <= pow2 n.
Proof. intros. unfold pow2. apply Z.pow_le_mono_r; lia. Qed.

Lemma pow2_lt_mono m n : (m < n)%nat -> pow2 m < pow2 n.
Proof. intros. unfold pow2. apply Z.pow_lt_mono_r; lia. Qed.

Lemma pow2_lt_inv m n : pow2 m < pow2 n -> (m < n)%nat.
Proof.
  intros. destruct (le_lt_dec n m) as [Hle|]; [|done].
  apply pow2_mono in Hle. lia.
Qed.

(** ** Unsigned machine integers *)
Definition U64 : Z := 2 ^ 64.
Definition u64_max : Z := U64 - 1.

(** [x] fits an unsigned integer of [w] bits. *)
Definition u64_ok (x : Z) : Prop := 0 <= x < U64.

(** Arithmetic with overflow checks. *)
Definition add64 (x y : Z) : outcome Z :=
  if x + y <? U64 then Ok (x + y) else Panic "attempt to add with overflow".
Definition sub64 (x y : Z) : outcome Z :=
  if y <=? x then Ok (x - y) else Panic "attempt to subtract with overflow".
Definition mul64 (x y : Z) : outcome Z :=
  if x * y <? U64 then Ok (x * y) else Panic "attempt to multiply with overflow".

(** Bitwise complement, and left shift: bits shifted out of the word are
    dropped; only a shift amount of 64 or more panics. *)
Definition not64 (x : Z) : Z := Z.lxor x (Z.ones 64).
Definition shl64_wrap (x n : Z) : Z := Z.land (Z.shiftl x n) (Z.ones 64).
Definition shl64 (x n : Z) : outcome Z :=
  if n <? 64 then Ok (shl64_wrap x n)
  else Panic "attempt to shift left with overflow".
Definition shr64 (x n : Z) : outcome Z :=
  if n <? 64 then Ok (Z.shiftr x n)
  else Panic "attempt to shift right with overflow".

Lemma add64_Ok x y : x + y < U64 -> add64 x y = Ok (x + y).
Proof. intros. unfold add64. by rewrite (proj2 (Z.ltb_lt _ _)). Qed.

Lemma sub64_Ok x y : y <= x -> sub64 x y = Ok (x - y).
Proof. intros. unfold sub64. by rewrite (proj2 (Z.leb_le _ _)). Qed.

Lemma shl64_Ok x n : n < 64 -> shl64 x n = Ok (shl64_wrap x n).
Proof. intros. unfold shl64. by rewrite (proj2 (Z.ltb_lt _ _)). Qed.

Lemma shr64_Ok x n : n < 64 -> shr64 x n = Ok (Z.shiftr x n).
Proof. intros. unfold shr64. by rewrite (proj2 (Z.ltb_lt _ _)). Qed.

Fixpoint pos_trailing_zeros (p : positive) : Z :=
  match p with
  | xO q => 1 + pos_trailing_zeros q
  | _ => 0
  end.

(** [trailing_zeros], [leading_zeros] and [count_ones] of a [w]-bit word. *)
Definition trailing_zeros (w x : Z) : Z :=
  match x with Zpos p => pos_trailing_zeros p | _ => w end.
Definition leading_zeros (w x : Z) : Z :=
  if x =? 0 then w else w - 1 - Z.log2 x.

Fixpoint pos_count_ones (p : positive) : Z :=
  match p with
  | xH => 1
  | xO q => pos_count_ones q
  | xI q => 1 + pos_count_ones q
  end.
Definition count_ones (x : Z) : Z :=
  match x with Zpos p => pos_count_ones p | _ => 0 end.

(** ** Bits *)
Lemma u64_pow2 : U64 = pow2 64.
Proof. reflexivity. Qed.

Lemma pow2_ones n : pow2 n - 1 = Z.ones (Z.of_nat n).
Proof. unfold pow2. rewrite Z.ones_equiv. lia. Qed.

Lemma testbit_pow2 n i : Z.testbit (pow2 n) i = bool_decide (i = Z.of_nat n).
Proof.
  unfold pow2. rewrite Z.pow2_bits_eqb by lia.
  case_bool_decide; [subst; apply Z.eqb_refl|apply Z.eqb_neq; lia].
Qed.

Lemma testbit_ones n i : 0 <= i ->
  Z.testbit (Z.ones (Z.of_nat n)) i = bool_decide (i < Z.of_nat n).
Proof.
  intros. case_bool_decide; [apply Z.ones_spec_low|apply Z.ones_spec_high]; lia.
Qed.

(** The bits of a number cut at bit [n]. *)
Lemma testbit_block n k r i : 0 <= i -> 0 <= r < pow2 n ->
  Z.testbit (k * pow2 n + r) i =
  if bool_decide (i < Z.of_nat n) then Z.testbit r i
  else Z.testbit k (i - Z.of_nat n).
Proof.
  unfold pow2. intros Hi Hr. case_bool_decide as Hn.
  - rewrite <- (Z.mod_pow2_bits_low _ (Z.of_nat n)) by lia.
    rewrite Z.add_comm, Z.mod_add, Z.mod_small by lia. done.
  - replace i with ((i - Z.of_nat n) + Z.of_nat n) at 1 by lia.
    rewrite <- Z.div_pow2_bits by lia.
    rewrite Z.div_add_l, Z.div_small, Z.add_0_r by lia. done.
Qed.

Lemma testbit_half k i : 0 <= i -> Z.testbit (k / 2) i = Z.testbit k (i + 1).
Proof. intros. rewrite <- (Z.div_pow2_bits k 1) by lia. done. Qed.

Lemma testbit_double k i : 0 < i -> Z.testbit (2 * k) i = Z.testbit k (i - 1).
Proof.
  intros. replace i with (Z.succ (i - 1)) at 1 by lia.
  by rewrite Z.testbit_even_succ by lia.
Qed.

Lemma testbit_succ_double k i : 0 < i -> Z.testbit (2 * k + 1) i = Z.testbit k (i - 1).
Proof.
  intros. replace i with (Z.succ (i - 1)) at 1 by lia.
  by rewrite Z.testbit_odd_succ by lia.
Qed.

Lemma testbit_high n x i : 0 <= x < pow2 n -> Z.of_nat n <= i -> Z.testbit x i = false.
Proof.
  intros. replace x with (0 * pow2 n + x) by lia. rewrite testbit_block by lia.
  rewrite bool_decide_false by lia. apply Z.testbit_0_l.
Qed.

Lemma testbit_not64 x i : 0 <= i ->
  Z.testbit (not64 x) i = xorb (Z.testbit x i) (bool_decide (i < 64)).
Proof.
  intros. unfold not64. rewrite Z.lxor_spec.
  by rewrite (testbit_ones 64) by lia.
Qed.

Lemma testbit_shl64 x n i : 0 <= n -> 0 <= i ->
  Z.testbit (shl64_wrap x n) i = Z.testbit x (i - n) && bool_decide (i < 64).
Proof.
  intros. unfold shl64_wrap. rewrite Z.land_spec, Z.shiftl_spec by lia.
  by rewrite (testbit_ones 64) by lia.
Qed.

Lemma not64_sub x : 0 <= x < U64 -> not64 x = u64_max - x.
Proof.
  intros. unfold not64. unfold u64_max. rewrite u64_pow2 in *.
  apply Z.bits_inj'. intros i Hi. rewrite Z.lxor_spec, (testbit_ones 64) by lia.
  replace (pow2 64 - 1 - x) with (Z.lnot x + pow2 64) by (unfold Z.lnot; lia).
  case_bool_decide.
  - rewrite <- (Z.mod_pow2_bits_low (Z.lnot x + _) 64) by lia.
    unfold pow2. rewrite <- (Z.mul_1_l (2 ^ Z.of_nat 64)), Z.mod_add by lia.
    rewrite Z.mod_pow2_bits_low, Z.lnot_spec by lia. by destruct (Z.testbit x i).
  - rewrite !(testbit_high 64) by (unfold Z.lnot; lia). done.
Qed.

Lemma land_pow2_eq0 x n : (Z.land x (pow2 n) =? 0) = negb (Z.testbit x (Z.of_nat n)).
Proof.
  apply eq_true_iff_eq. rewrite Z.eqb_eq, negb_true_iff. split; intros H.
  - apply (f_equal (fun z => Z.testbit z (Z.of_nat n))) in H. simpl in H.
    rewrite Z.land_spec, testbit_pow2, bool_decide_true, andb_true_r, Z.testbit_0_l in H by done.
    done.
  - apply Z.bits_inj'. intros i Hi. rewrite Z.land_spec, testbit_pow2, Z.testbit_0_l.
    case_bool_decide; [subst; by rewrite H|by rewrite andb_false_r].
Qed.

Lemma shiftr_pow2 x n : Z.shiftr x (Z.of_nat n) = x / pow2 n.
Proof. unfold pow2. apply Z.shiftr_div_pow2. lia. Qed.

Lemma shiftr_1 x : Z.shiftr x 1 = x / 2.
Proof. apply (shiftr_pow2 x 1). Qed.

Lemma land_1_odd x : (Z.land x 1 =? 0) = negb (Z.odd x).
Proof. rewrite <- Z.bit0_odd. apply (land_pow2_eq0 x 0). Qed.

Lemma shl64_small x n : 0 <= x -> x * pow2 n < U64 -> shl64_wrap x (Z.of_nat n) = x * pow2 n.
Proof.
  intros. unfold shl64_wrap. rewrite Z.land_ones, Z.shiftl_mul_pow2 by lia.
  apply Z.mod_small. unfold pow2, U64 in *. lia.
Qed.

Lemma shl64_pow2 l : (S l < 64)%nat -> shl64_wrap (pow2 l) 1 = pow2 (S l).
Proof.
  intros Hl. change 1 with (Z.of_nat 1). pose proof (pow2_pos l).
  pose proof (pow2_lt_mono (S l) 64 Hl). rewrite pow2_S in *.
  rewrite shl64_small; change (pow2 1) with 2; rewrite ?u64_pow2; lia.
Qed.

(** ** Counting bits *)
Lemma trailing_zeros_odd w m : 0 <= m -> trailing_zeros w (2 * m + 1) = 0.
Proof. destruct m; try lia; done. Qed.

Lemma trailing_zeros_double w x : 0 < x -> trailing_zeros w (2 * x) = 1 + trailing_zeros w x.
Proof. destruct x; try lia; done. Qed.

Lemma trailing_zeros_spec w l m : 0 <= m ->
  trailing_zeros w ((2 * m + 1) * pow2 l) = Z.of_nat l.
Proof.
  intros Hm. induction l as [|l IH].
  - rewrite pow2_0, Z.mul_1_r. by apply trailing_zeros_odd.
  - rewrite pow2_S. replace ((2 * m + 1) * (2 * pow2 l)) with (2 * ((2 * m + 1) * pow2 l)) by lia.
    pose proof (pow2_pos l). rewrite trailing_zeros_double by nia. rewrite IH. lia.
Qed.

(** Every positive number is an odd number times a power of two. *)
Lemma odd_part x : 0 < x -> exists l m, 0 <= m /\ x = (2 * m + 1) * pow2 l.
Proof.
  destruct x as [|p|p]; try lia. intros _. induction p as [p _|p IH|].
  - exists 0%nat, (Zpos p). rewrite pow2_0. lia.
  - destruct IH as (l & m & Hm & E). exists (S l), m. rewrite pow2_S. lia.
  - exists 0%nat, 0. rewrite pow2_0. lia.
Qed.

Lemma count_ones_double x : count_ones (2 * x) = count_ones x.
Proof. by destruct x. Qed.

Lemma count_ones_succ_double x : 0 <= x -> count_ones (2 * x + 1) = 1 + count_ones x.
Proof. destruct x; try lia; done. Qed.

Lemma count_ones_mul_pow2 x n : count_ones (x * pow2 n) = count_ones x.
Proof.
  induction n as [|n IH]; [by rewrite pow2_0, Z.mul_1_r|].
  rewrite pow2_S. replace (x * (2 * pow2 n)) with (2 * (x * pow2 n)) by lia.
  by rewrite count_ones_double.
Qed.

Lemma count_ones_bounds x : 0 <= x -> 0 <= count_ones x <= x.
Proof.
  destruct x as [|p|p]; try lia; [done|]. intros _.
  induction p as [p IH|p IH|]; cbn [count_ones pos_count_ones] in *; lia.
Qed.

Lemma count_ones_add_pow2 n x : 0 <= x < pow2 n -> count_ones (pow2 n + x) = 1 + count_ones x.
Proof.
  revert x. induction n as [|n IH]; intros x Hx.
  - rewrite pow2_0 in *. replace x with 0 by lia. done.
  - rewrite pow2_S in *. destruct (Z.Even_or_Odd x) as [[y ->]|[y ->]].
    + replace (2 * pow2 n + 2 * y) with (2 * (pow2 n + y)) by lia.
      rewrite !count_ones_double. apply IH. lia.
    + replace (2 * pow2 n + (2 * y + 1)) with (2 * (pow2 n + y) + 1) by lia.
      rewrite !count_ones_succ_double by lia. rewrite IH by lia. lia.
Qed.

Lemma log2_block n k : 0 <= k < pow2 n -> Z.log2 (pow2 n + k) = Z.of_nat n.
Proof. unfold pow2. intros. apply Z.log2_unique; [lia|]. rewrite Z.pow_succ_r; lia. Qed.

(** Every positive number is its top bit and a remainder. *)
Lemma top_bit x : 0 < x -> exists n r, 0 <= r < pow2 n /\ x = pow2 n + r.
Proof.
  intros Hx. exists (Z.to_nat (Z.log2 x)), (x - 2 ^ Z.log2 x).
  pose proof (Z.log2_spec x Hx). pose proof (Z.log2_nonneg x).
  unfold pow2. rewrite Z2Nat.id by done. rewrite Z.pow_succ_r in H by done. lia.
Qed.

(** ** Vectors *)

(** [Vec::pop]: the last element and the rest. *)
Definition vec_pop {A} (v : list A) : option (A * list A) :=
  match rev v with
  | [] => None
  | x :: r => Some (x, rev r)
  end.

Lemma vec_pop_snoc {A} (v : list A) x : vec_pop (v ++ [x]) = Some (x, v).
Proof. unfold vec_pop. rewrite rev_app_distr. cbn. by rewrite rev_involutive. Qed.

(** [Result::expect]: an error becomes a panic. *)
Definition expect_res {A} (o : outcome A) (msg : string) : outcome A :=
  match o with Err _ => Panic msg | o => o end.

Lemma vec_pop_Some {A} (v r : list A) x : vec_pop v = Some (x, r) -> v = r ++ [x].
Proof.
  unfold vec_pop. destruct (rev v) as [|y l] eqn:E; [done|]. intros [= -> <-].
  rewrite <- (rev_involutive v), E. done.
Qed.

(** ** Filters that keep all or nothing *)
Lemma filter_all {A} (P : A -> Prop) `{!forall x, Decision (P x)} (l : list A) : Forall P l -> filter P l = l.
Proof. induction 1 as [|x l Hx _ IH]; [done|]. by rewrite filter_cons, decide_True, IH. Qed.

Lemma filter_none {A} (P : A -> Prop) `{!forall x, Decision (P x)} (l : list A) :
  Forall (fun x => ~ P x) l -> filter P l = [].
Proof. induction 1 as [|x l Hx _ IH]; [done|]. by rewrite filter_cons, decide_False, IH. Qed.

(** ** Programs with a state

    A Rust function that changes a database behind a shared reference keeps what it has
    written when it returns early with an error. *)
Definition prog (S A : Type) : Type := S -> S * outcome A.

Definition pret {S A} (a : A) : prog S A := fun s => (s, Ok a).

Definition pbind {S A B} (m : prog S A) (f : A -> prog S B) : prog S B := fun s =>
  match m s with
  | (s, Ok a) => f a s
  | (s, Err e) => (s, Err e)
  | (s, Panic e) => (s, Panic e)
  end.

Declare Scope prog_scope.
Delimit Scope prog_scope with prog.
Bind Scope prog_scope with prog.
Notation "x <~ m ; k" := (pbind m (fun x => k))
  (at level 20, m at level 100, k at level 200, only parsing) : prog_scope.
#[global] Open Scope prog_scope.

(** A computation that only reads the state. *)
Definition reading {S A} (f : S -> outcome A) : prog S A := fun s => (s, f s).

(** [expect] on the result of a program. *)
Definition pexpect {S A} (m : prog S A) (msg : string) : prog S A := fun s =>
  let '(s, r) := m s in (s, expect_res r msg).

Lemma pbind_Ok {S A B} (f : A -> prog S B) (m : prog S A) s s' a :
  m s = (s', Ok a) -> pbind m f s = f a s'.
Proof. intros E. unfold pbind. by rewrite E. Qed.

Lemma pbind_inv {S A B} (f : A -> prog S B) (m : prog S A) s s' r : pbind m f s = (s', r) ->
  (exists s1 a, m s = (s1, Ok a) /\ f a s1 = (s', r)) \/
  (exists e, m s = (s', Err e) /\ r = Err e) \/ (exists e, m s = (s', Panic e) /\ r = Panic e).
Proof.
  unfold pbind. destruct (m s) as [s1 [a|e|e]]; intros E; [left; by exists s1, a|right..];
    injection E as -> <-; [left|right]; by exists e.
Qed.
