(* ===== verification/Position.v ===== *)
(** * Positions in the Merkle accumulator

    Model of [types/src/proof/position/mod.rs]: nodes of a (conceptually
    infinite) binary tree numbered by in-order traversal, all navigation by bit
    manipulation of a [u64].  The specification side is the pair (level, index
    within the level); [mkpos l k] is the in-order number of the [k]-th node
    from the left at level [l]. *)
From stdpp Require Import base list numbers strings option.
From Stdlib Require Import ZArith Lia Bool.
From S2P Require Import Prelude.

(** [struct Position(u64)], a newtype over the in-order index. *)
Abbreviation Position := Z (only parsing).
Abbreviation LeafCount := Z (only parsing).

Definition MAX_ACCUMULATOR_PROOF_DEPTH : Z := 63.
Definition MAX_ACCUMULATOR_LEAVES : LeafCount := 2 ^ 63.

Inductive NodeDirection := DLeft | DRight.

(** ** Bit helpers *)
Definition smear_ones_for_u64 (v : Z) : Z :=
  let n := v in
  let n := Z.lor n (Z.shiftr n 1) in
  let n := Z.lor n (Z.shiftr n 2) in
  let n := Z.lor n (Z.shiftr n 4) in
  let n := Z.lor n (Z.shiftr n 8) in
  let n := Z.lor n (Z.shiftr n 16) in
  let n := Z.lor n (Z.shiftr n 32) in
  n.

Definition turn_off_right_most_n_bits (v n : Z) : outcome Z :=
  x ← shr64 v n; shl64 x n.

Definition isolate_rightmost_zero_bit (v : Z) : Z :=
  Z.land (not64 v) ((v + 1) mod U64).

(** ** Navigation *)
Definition level (p : Position) : Z := trailing_zeros 64 (not64 p).

Definition is_leaf (p : Position) : bool := Z.land p 1 =? 0.

Definition pos_counting_from_left (p : Position) : outcome Z :=
  shr64 p (level p + 1).

Definition from_level_and_pos (level pos : Z) : outcome Position :=
  _ ← assert (level <? 64) "level < 64";
  one ← shl64 1 level;
  _ ← assert (0 <? one) "1u64 << level > 0";
  level_one_bits ← sub64 one 1;
  shifted_pos ← (if level =? 63 then Ok 0 else shl64 pos (level + 1));
  Ok (Z.lor shifted_pos level_one_bits).

Definition from_inorder_index (index : Z) : Position := index.
Definition to_inorder_index (p : Position) : Z := p.

Definition position_invariant (p : Position) : outcome unit :=
  assert (p <? u64_max - 1) "self.0 < u64::max_value() - 1".

Definition parent (p : Position) : outcome Position :=
  _ ← position_invariant p;
  Ok (Z.land (Z.lor p (isolate_rightmost_zero_bit p))
             (not64 (shl64_wrap (isolate_rightmost_zero_bit p) 1))).

Definition child (p : Position) (dir : NodeDirection) : outcome Position :=
  _ ← assert (negb (is_leaf p)) "!self.is_leaf()";
  _ ← position_invariant p;
  let direction_bit :=
    match dir with
    | DLeft => 0
    | DRight => isolate_rightmost_zero_bit p
    end in
  Ok (Z.land (Z.lor p direction_bit)
             (not64 (Z.shiftr (isolate_rightmost_zero_bit p) 1))).

Definition left_child (p : Position) : outcome Position :=
  _ ← assert (negb (is_leaf p)) "!self.is_leaf()"; child p DLeft.

Definition right_child (p : Position) : outcome Position :=
  _ ← assert (negb (is_leaf p)) "!self.is_leaf()"; child p DRight.

Definition is_left_child (p : Position) : outcome bool :=
  _ ← position_invariant p;
  Ok (Z.land p (shl64_wrap (isolate_rightmost_zero_bit p) 1) =? 0).

Definition is_right_child (p : Position) : outcome bool :=
  b ← is_left_child p; Ok (negb b).

Definition from_leaf_index (leaf_index : Z) : outcome Position :=
  from_level_and_pos 0 leaf_index.

Definition sibling (p : Position) : outcome Position :=
  _ ← position_invariant p;
  Ok (Z.lxor p (shl64_wrap (isolate_rightmost_zero_bit p) 1)).

Definition root_from_leaf_index (leaf_index : Z) : outcome Position :=
  leaf ← from_leaf_index leaf_index;
  Ok (Z.shiftr (smear_ones_for_u64 leaf) 1).

Definition root_from_leaf_count (leaf_count : LeafCount) : outcome Position :=
  _ ← assert (0 <? leaf_count) "leaf_count > 0";
  i ← sub64 leaf_count 1;
  root_from_leaf_index i.

Definition root_level_from_leaf_count (leaf_count : LeafCount) : outcome Z :=
  _ ← assert (0 <? leaf_count) "leaf_count > 0";
  index ← sub64 leaf_count 1;
  Ok (MAX_ACCUMULATOR_PROOF_DEPTH + 1 - leading_zeros 64 index).

Definition right_most_child (p : Position) : outcome Position :=
  let level := level p in
  w ← shl64 1 level;
  s ← add64 p w;
  sub64 s 1.

Definition left_most_child (p : Position) : outcome Position :=
  turn_off_right_most_n_bits p (level p).

(** ** Freezability *)
Definition is_freezable (p : Position) (leaf_index : Z) : outcome bool :=
  leaf ← from_leaf_index leaf_index;
  right_most_child ← right_most_child p;
  Ok (right_most_child <=? leaf).

Definition is_placeholder (p : Position) (leaf_index : Z) : outcome bool :=
  leaf ← from_leaf_index leaf_index;
  if p <=? leaf then Ok false
  else
    l ← left_most_child p;
    if l <=? leaf then Ok false else Ok true.

(** ** Iterators

    An iterator is its state and a [next]; [collect] drives it to exhaustion
    with fuel, [take_next] is [.take(n)] on an iterator that never ends. *)
Definition AncestorSiblingIterator_next (position : Position)
  : outcome (Position * Position) :=
  current_sibling_position ← sibling position;
  position' ← parent position;
  Ok (current_sibling_position, position').

Definition AncestorIterator_next (position : Position)
  : outcome (Position * Position) :=
  position' ← parent position;
  Ok (position, position').

Fixpoint take_next (next : Position -> outcome (Position * Position))
    (n : nat) (s : Position) : outcome (list Position) :=
  match n with
  | O => Ok []
  | S n =>
      x ← next s;
      rest ← take_next next n (snd x);
      Ok (fst x :: rest)
  end.

Fixpoint collect {St} (next : St -> outcome (option (Position * St)))
    (fuel : nat) (s : St) : outcome (list Position) :=
  match fuel with
  | O => Panic "out of fuel"
  | S fuel =>
      r ← next s;
      match r with
      | None => Ok []
      | Some (p, s') => rest ← collect next fuel s'; Ok (p :: rest)
      end
  end.

Record FrozenSubTreeIterator := mkFSTI { bitmap : Z; seen_leaves : Z }.

Definition FrozenSubTreeIterator_new (num_leaves : LeafCount) :=
  mkFSTI num_leaves 0.

Definition FrozenSubTreeIterator_next (it : FrozenSubTreeIterator)
  : outcome (option (Position * FrozenSubTreeIterator)) :=
  lim ← sub64 u64_max (bitmap it);
  _ ← assert (seen_leaves it <? lim) "seen_leaves < u64::max_value() - bitmap";
  if bitmap it =? 0 then Ok None
  else
    let root_offset := Z.shiftr (smear_ones_for_u64 (bitmap it)) 1 in
    _ ← assert (root_offset <? bitmap it) "root_offset < self.bitmap";
    num_leaves ← add64 root_offset 1;
    leftmost_leaf ← from_leaf_index (seen_leaves it);
    root ← add64 (to_inorder_index leftmost_leaf) root_offset;
    let bitmap' := Z.land (bitmap it) (not64 num_leaves) in
    seen' ← add64 (seen_leaves it) num_leaves;
    Ok (Some (from_inorder_index root, mkFSTI bitmap' seen')).

Record FrozenSubtreeSiblingIterator := mkFSSI
  { current_num_leaves : LeafCount; remaining_new_leaves : LeafCount }.

Definition FrozenSubtreeSiblingIterator_new (current_num_leaves new_num_leaves : LeafCount)
  : outcome FrozenSubtreeSiblingIterator :=
  _ ← assert (new_num_leaves <=? MAX_ACCUMULATOR_LEAVES)
        "An accumulator can have at most 2^63 leaves.";
  _ ← assert (current_num_leaves <=? new_num_leaves)
        "Number of leaves needs to be increasing";
  d ← sub64 new_num_leaves current_num_leaves;
  Ok (mkFSSI current_num_leaves d).

Definition next_new_leaf_batch (it : FrozenSubtreeSiblingIterator) : outcome LeafCount :=
  let zeros := leading_zeros 64 (remaining_new_leaves it) in
  sh ← sub64 MAX_ACCUMULATOR_PROOF_DEPTH zeros;
  shl64 1 sh.

Definition FrozenSubtreeSiblingIterator_next (it : FrozenSubtreeSiblingIterator)
  : outcome (option (Position * FrozenSubtreeSiblingIterator)) :=
  if remaining_new_leaves it =? 0 then Ok None
  else
    next_subtree_leaves ←
      (if 0 <? current_num_leaves it then
         rightmost_frozen_subtree_leaves ←
           shl64 1 (trailing_zeros 64 (current_num_leaves it));
         if rightmost_frozen_subtree_leaves <=? remaining_new_leaves it
         then Ok rightmost_frozen_subtree_leaves
         else next_new_leaf_batch it
       else next_new_leaf_batch it);
    let first_leaf_index := current_num_leaves it in
    s ← add64 first_leaf_index next_subtree_leaves;
    last_leaf_index ← sub64 s 1;
    cur' ← add64 (current_num_leaves it) next_subtree_leaves;
    rem' ← sub64 (remaining_new_leaves it) next_subtree_leaves;
    root ← add64 first_leaf_index last_leaf_index;
    Ok (Some (from_inorder_index root, mkFSSI cur' rem')).

(** ** Post-order numbering *)
Definition children_of_node (node : Z) : outcome Z :=
  sub64 (shl64_wrap (isolate_rightmost_zero_bit node) 1) 2.

Definition nodes_to_left_of (node : Z) : outcome Z :=
  ones_up_to_level ← sub64 (isolate_rightmost_zero_bit node) 1;
  let unset_level_zeros := Z.lxor node ones_up_to_level in
  sub64 unset_level_zeros (count_ones unset_level_zeros).

Definition inorder_to_postorder (node : Z) : outcome Z :=
  children ← children_of_node node;
  left_nodes ← nodes_to_left_of node;
  add64 children left_nodes.

(** One iteration of the loop of [postorder_to_inorder], [i] being the loop
    variable; the state is [(node, full_binary_size, bitmap)]. *)
Definition postorder_step (i : Z) (st : Z * Z * Z) : Z * Z * Z :=
  let '(node, full_binary_size, bitmap) := st in
  let '(node, bitmap) :=
    if full_binary_size <=? node
    then (node - full_binary_size, Z.lor bitmap (shl64_wrap 1 i))
    else (node, bitmap) in
  (node, Z.shiftr full_binary_size 1, bitmap).

(** [for i in (0..n).rev()]. *)
Fixpoint postorder_loop (n : nat) (st : Z * Z * Z) : Z * Z * Z :=
  match n with
  | O => st
  | S n => postorder_loop n (postorder_step (Z.of_nat n) st)
  end.

Definition postorder_to_inorder (node : Z) : outcome Z :=
  let '(node, _, bitmap) := postorder_loop 64 (node, u64_max, 0) in
  let level := node mod 2 ^ 32 in
  pos ← shr64 bitmap level;
  p ← from_level_and_pos level pos;
  Ok (to_inorder_index p).

Definition from_postorder_index (index : Z) : outcome Position :=
  _ ← ensure (index <? u64_max) "node index is invalid (equal to 2^64 - 1)";
  postorder_to_inorder index.

Definition to_postorder_index (p : Position) : outcome Z :=
  inorder_to_postorder (to_inorder_index p).

(** ** Specification: nodes as (level, index in the level) *)
Definition mkpos (l : nat) (k : Z) : Position := k * pow2 (S l) + (pow2 l - 1).

(** The index of the sibling of the [k]-th node of a level. *)
Definition sib (k : Z) : Z := if Z.even k then k + 1 else k - 1.

(** Post-order number of the [k]-th node of level [l]: the nodes of all the
    perfect trees to its left, then its own descendants. *)
Definition postnum (l : nat) (k : Z) : Z := (k + 1) * pow2 (S l) - 2 - count_ones k.

Lemma mkpos_alt l k : mkpos l k = (2 * k + 1) * pow2 l - 1.
Proof. unfold mkpos. rewrite pow2_S. lia. Qed.

Lemma mkpos_nonneg l k : 0 <= k -> 0 <= mkpos l k.
Proof. intros. rewrite mkpos_alt. pose proof (pow2_pos l). nia. Qed.

(** Every in-order index is a node. *)
Lemma mkpos_surj p : 0 <= p -> exists l k, 0 <= k /\ p = mkpos l k.
Proof.
  intros Hp. destruct (odd_part (p + 1)) as (l & m & Hm & E); [lia|].
  exists l, m. rewrite mkpos_alt. lia.
Qed.

Lemma mkpos_inj l k l' k' : 0 <= k -> 0 <= k' -> mkpos l k = mkpos l' k' -> l = l' /\ k = k'.
Proof.
  intros ?? E. rewrite !mkpos_alt in E.
  assert (Hl : l = l').
  { apply Nat2Z.inj. rewrite <- (trailing_zeros_spec 64 l k), <- (trailing_zeros_spec 64 l' k') by done.
    f_equal. lia. }
  subst l'. split; [done|]. pose proof (pow2_pos l). nia.
Qed.

(** In a 64-bit word only levels up to 63 occur. *)
Lemma mkpos_level_lt l k : 0 <= k -> mkpos l k < u64_max -> (l < 64)%nat.
Proof.
  intros Hk H. apply pow2_lt_inv. rewrite mkpos_alt in H. unfold u64_max in H.
  rewrite u64_pow2 in H. pose proof (pow2_pos l). nia.
Qed.

Lemma mkpos_testbit l k i : 0 <= i ->
  Z.testbit (mkpos l k) i =
  if bool_decide (i < Z.of_nat l) then true
  else if bool_decide (i = Z.of_nat l) then false
  else Z.testbit k (i - Z.of_nat l - 1).
Proof.
  intros Hi. unfold mkpos. pose proof (pow2_pos l).
  rewrite testbit_block by (rewrite ?pow2_S; lia).
  rewrite pow2_ones, testbit_ones by done.
  repeat case_bool_decide; try lia; try done. f_equal. lia.
Qed.

Lemma mkpos_succ_testbit l k i : 0 <= i ->
  Z.testbit (mkpos l k + 1) i =
  if bool_decide (i < Z.of_nat l) then false
  else if bool_decide (i = Z.of_nat l) then true
  else Z.testbit k (i - Z.of_nat l - 1).
Proof.
  intros Hi. unfold mkpos. pose proof (pow2_pos l).
  replace (k * pow2 (S l) + (pow2 l - 1) + 1) with (k * pow2 (S l) + pow2 l) by lia.
  rewrite testbit_block by (rewrite ?pow2_S; lia). rewrite testbit_pow2.
  repeat case_bool_decide; try lia; try done. f_equal. lia.
Qed.

(** Bitwise equality of 64-bit positions: compare bit by bit. *)
Ltac pos_bits :=
  apply Z.bits_inj'; intros i Hi;
  rewrite ?Z.land_spec, ?Z.lor_spec, ?Z.lxor_spec, ?testbit_not64, ?mkpos_testbit,
    ?testbit_shl64, ?Z.shiftr_spec, ?mkpos_succ_testbit, ?testbit_pow2 by lia;
  repeat case_bool_decide; try lia; cbn [xorb andb orb negb];
  rewrite ?andb_true_r, ?andb_false_r, ?orb_false_r, ?orb_true_r, ?xorb_false_r.

(** The index has no bit beyond what the word can hold. *)
Lemma mkpos_index_high l k i : 0 <= k -> mkpos l k < U64 -> 64 <= i -> Z.of_nat l < i ->
  Z.testbit k (i - Z.of_nat l - 1) = false.
Proof.
  intros Hk H Hi Hl.
  assert (Hhi : Z.testbit (mkpos l k) i = false).
  { pose proof (mkpos_nonneg l k Hk). apply (testbit_high 64); rewrite u64_pow2 in *; lia. }
  rewrite mkpos_testbit in Hhi by lia. by rewrite !bool_decide_false in Hhi by lia.
Qed.

Lemma isolate_mkpos l k : 0 <= k -> mkpos l k < u64_max ->
  isolate_rightmost_zero_bit (mkpos l k) = pow2 l.
Proof.
  intros Hk H. pose proof (mkpos_level_lt l k Hk H). pose proof (mkpos_nonneg l k Hk).
  unfold isolate_rightmost_zero_bit. unfold u64_max in H.
  rewrite Z.mod_small by lia.
  pos_bits; try done; [by destruct (Z.testbit k _)|].
  by rewrite mkpos_index_high by lia.
Qed.

Lemma level_mkpos l k : 0 <= k -> mkpos l k < u64_max -> level (mkpos l k) = Z.of_nat l.
Proof.
  intros Hk H. pose proof (mkpos_level_lt l k Hk H). pose proof (mkpos_nonneg l k Hk).
  unfold level. rewrite not64_sub by (unfold u64_max in H; lia).
  unfold u64_max in *. rewrite mkpos_alt in *. rewrite u64_pow2 in *.
  assert (E : pow2 64 = 2 * pow2 (63 - l) * pow2 l).
  { rewrite <- pow2_S, <- pow2_add. f_equal. lia. }
  replace (pow2 64 - 1 - ((2 * k + 1) * pow2 l - 1))
    with ((2 * (pow2 (63 - l) - k - 1) + 1) * pow2 l) by lia.
  apply trailing_zeros_spec. pose proof (pow2_pos l). nia.
Qed.

Lemma is_leaf_mkpos l k : is_leaf (mkpos l k) = (l =? 0)%nat.
Proof.
  unfold is_leaf. rewrite <- pow2_0. rewrite land_pow2_eq0, mkpos_testbit by lia.
  destruct l; [done|]. by rewrite bool_decide_true by lia.
Qed.

Lemma invariant_Ok p : p < u64_max - 1 -> position_invariant p = Ok tt.
Proof. intros. apply assert_true. lia. Qed.

Lemma parent_mkpos l k : 0 <= k -> mkpos l k < u64_max - 1 ->
  parent (mkpos l k) = Ok (mkpos (S l) (k / 2)).
Proof.
  intros Hk H. unfold parent. rewrite invariant_Ok by done. osimpl.
  rewrite isolate_mkpos by lia. pose proof (mkpos_level_lt l k Hk ltac:(lia)).
  unfold u64_max in H. f_equal. pos_bits; try done; rewrite testbit_half by lia.
  - f_equal. lia.
  - replace (i - Z.of_nat (S l) - 1 + 1) with (i - Z.of_nat l - 1) by lia.
    by rewrite mkpos_index_high by lia.
Qed.

Lemma child_mkpos l k d : 0 <= k -> mkpos (S l) k < u64_max - 1 ->
  child (mkpos (S l) k) d =
  Ok (mkpos l (match d with DLeft => 2 * k | DRight => 2 * k + 1 end)).
Proof.
  intros Hk H. unfold child. rewrite is_leaf_mkpos.
  rewrite invariant_Ok by done. cbn. rewrite isolate_mkpos by lia.
  f_equal. pose proof (mkpos_level_lt (S l) k Hk ltac:(lia)).
  unfold u64_max in H.
  assert (Hhi : forall i, 64 <= i -> Z.testbit k (i - Z.of_nat l - 1 - 1) = false).
  { intros i Hi. replace (i - Z.of_nat l - 1 - 1) with (i - Z.of_nat (S l) - 1) by lia.
    apply mkpos_index_high; lia. }
  destruct d; pos_bits; try done; rewrite ?Z.testbit_0_l, ?orb_false_r.
  all: lazymatch goal with
       | E : ?i = Z.of_nat (S _) |- _ => subst i; replace (_ - _ - 1) with 0 by lia
       | _ => rewrite ?testbit_double, ?testbit_succ_double by lia
       end.
  all: try (rewrite Hhi; lia).
  all: try by (f_equal; lia).
  - by rewrite Z.testbit_even_0.
  - by rewrite Z.testbit_odd_0.
Qed.

Lemma left_child_mkpos l k : 0 <= k -> mkpos (S l) k < u64_max - 1 ->
  left_child (mkpos (S l) k) = Ok (mkpos l (2 * k)).
Proof.
  intros. unfold left_child. rewrite is_leaf_mkpos. cbn. by rewrite child_mkpos.
Qed.

Lemma right_child_mkpos l k : 0 <= k -> mkpos (S l) k < u64_max - 1 ->
  right_child (mkpos (S l) k) = Ok (mkpos l (2 * k + 1)).
Proof.
  intros. unfold right_child. rewrite is_leaf_mkpos. cbn. by rewrite child_mkpos.
Qed.

Lemma sib_lxor k : sib k = Z.lxor k 1.
Proof.
  apply Z.bits_inj'. intros i Hi. unfold sib. rewrite Z.lxor_spec.
  replace 1 with (pow2 0) at 3 by done. rewrite testbit_pow2.
  destruct (Z.Even_or_Odd k) as [[j ->]|[j ->]].
  - rewrite Z.even_mul. cbn [Z.even orb]. case_bool_decide; [subst i|].
    + by rewrite Z.testbit_odd_0, Z.testbit_even_0.
    + by rewrite testbit_succ_double, testbit_double, xorb_false_r by lia.
  - rewrite Z.even_add, Z.even_mul. cbn [Z.even orb eqb].
    replace (2 * j + 1 - 1) with (2 * j) by lia. case_bool_decide; [subst i|].
    + by rewrite Z.testbit_odd_0, Z.testbit_even_0.
    + by rewrite testbit_succ_double, testbit_double, xorb_false_r by lia.
Qed.

Lemma sibling_mkpos l k : 0 <= k -> mkpos l k < u64_max - 1 -> (l < 63)%nat ->
  sibling (mkpos l k) = Ok (mkpos l (sib k)).
Proof.
  intros Hk H Hl. unfold sibling. rewrite invariant_Ok by done. cbn.
  rewrite isolate_mkpos by lia. unfold u64_max in H. f_equal. rewrite sib_lxor.
  assert (H1 : forall j, Z.testbit 1 j = bool_decide (j = 0)) by apply (testbit_pow2 0).
  pos_bits; try done; rewrite Z.lxor_spec, H1; case_bool_decide; try lia;
    by rewrite ?xorb_true_r, ?xorb_false_r.
Qed.

Lemma is_left_child_mkpos l k : 0 <= k -> mkpos l k < u64_max - 1 ->
  is_left_child (mkpos l k) = Ok (Z.even k).
Proof.
  intros Hk H. unfold is_left_child. rewrite invariant_Ok by done. cbn.
  rewrite isolate_mkpos by lia. unfold u64_max in H. f_equal.
  destruct (decide (l = 63%nat)) as [->|Hl].
  - assert (k = 0) as ->.
    { rewrite mkpos_alt in H. change (pow2 63) with 9223372036854775808 in H.
      unfold U64 in H. lia. }
    done.
  - pose proof (mkpos_level_lt l k Hk ltac:(unfold u64_max; lia)).
    rewrite shl64_pow2, land_pow2_eq0, mkpos_testbit by lia.
    rewrite !bool_decide_false by lia.
    replace (Z.of_nat (S l) - Z.of_nat l - 1) with 0 by lia.
    by rewrite Z.bit0_odd, Z.negb_odd.
Qed.

Lemma is_right_child_mkpos l k : 0 <= k -> mkpos l k < u64_max - 1 ->
  is_right_child (mkpos l k) = Ok (Z.odd k).
Proof.
  intros. unfold is_right_child. rewrite is_left_child_mkpos by done. cbn.
  by rewrite Z.negb_even.
Qed.

(** ** Construction from level and index *)
Lemma lor_block l k : 0 <= k -> Z.lor (k * pow2 (S l)) (pow2 l - 1) = mkpos l k.
Proof.
  intros. apply Z.bits_inj'. intros i Hi. pose proof (pow2_pos (S l)).
  rewrite Z.lor_spec, pow2_ones, testbit_ones, mkpos_testbit by done.
  rewrite <- (Z.add_0_r (k * _)), testbit_block, Z.testbit_0_l by lia.
  repeat case_bool_decide; try lia; rewrite ?orb_true_r, ?orb_false_r; try done.
  f_equal. lia.
Qed.

Lemma from_level_and_pos_mkpos l k : 0 <= k -> mkpos l k < u64_max ->
  from_level_and_pos (Z.of_nat l) k = Ok (mkpos l k).
Proof.
  intros Hk H. pose proof (mkpos_level_lt l k Hk H) as Hl.
  pose proof (pow2_lt_mono l 64 Hl). pose proof (pow2_pos l). unfold u64_max in H.
  unfold from_level_and_pos, shl64.
  rewrite assert_true by lia. osimpl.
  destruct (Z.ltb_spec (Z.of_nat l) 64); [|lia]. osimpl.
  rewrite shl64_small by (rewrite ?u64_pow2; lia). rewrite Z.mul_1_l.
  rewrite assert_true by lia. osimpl. unfold sub64.
  destruct (Z.leb_spec 1 (pow2 l)); [|lia]. osimpl.
  destruct (Z.eqb_spec (Z.of_nat l) 63) as [E|E].
  - replace l with 63%nat in * by lia. rewrite mkpos_alt in H. rewrite u64_pow2 in H.
    rewrite (pow2_S 63) in H. replace k with 0 by nia. done.
  - destruct (Z.ltb_spec (Z.of_nat l + 1) 64); [|lia].
    replace (Z.of_nat l + 1) with (Z.of_nat (S l)) by lia. unfold mkpos in H.
    rewrite shl64_small by lia. cbn. by rewrite lor_block.
Qed.

(** Every position is built from its own level and index. *)
Lemma from_leaf_index_mkpos i : 0 <= i < 2 ^ 63 -> from_leaf_index i = Ok (mkpos 0 i).
Proof.
  intros. unfold from_leaf_index. change 0 with (Z.of_nat 0) at 1.
  apply from_level_and_pos_mkpos; [lia|]. rewrite mkpos_alt, pow2_0.
  unfold u64_max, U64. lia.
Qed.

(** Beyond 63 bits, the leaf index silently wraps. *)
Lemma from_leaf_index_wrap i : 0 <= i < U64 ->
  from_leaf_index i = Ok (2 * (i mod 2 ^ 63)).
Proof.
  intros. change (from_leaf_index i) with (@Ok Z (Z.lor (shl64_wrap i 1) 0)). f_equal.
  rewrite Z.lor_0_r. unfold shl64_wrap. rewrite Z.land_ones, Z.shiftl_mul_pow2 by lia.
  change (2 ^ 64) with (2 ^ 63 * 2). rewrite Z.mul_mod_distr_r by lia. lia.
Qed.

(** ** The leaves below a node *)
Lemma mkpos_width l k : 0 <= k -> mkpos l k < u64_max -> (k + 1) * pow2 (S l) <= U64.
Proof.
  intros Hk H. pose proof (mkpos_level_lt l k Hk H). rewrite mkpos_alt in H.
  unfold u64_max in H. rewrite pow2_S.
  assert (E : U64 = 2 * pow2 (63 - l) * pow2 l).
  { rewrite u64_pow2, <- pow2_S, <- pow2_add. f_equal. lia. }
  rewrite E in *. pose proof (pow2_pos l). assert (k + 1 <= pow2 (63 - l)) by nia. nia.
Qed.

Lemma right_most_child_mkpos l k : 0 <= k -> mkpos l k < u64_max ->
  right_most_child (mkpos l k) = Ok (mkpos 0 ((k + 1) * pow2 l - 1)).
Proof.
  intros Hk H. pose proof (mkpos_width l k Hk H) as Hw.
  pose proof (mkpos_level_lt l k Hk H) as Hl. pose proof (pow2_pos l).
  unfold right_most_child. rewrite level_mkpos by done. unfold shl64.
  destruct (Z.ltb_spec (Z.of_nat l) 64); [|lia]. osimpl.
  rewrite shl64_small by (rewrite ?u64_pow2; pose proof (pow2_lt_mono l 64 Hl); lia).
  unfold add64. rewrite !mkpos_alt, pow2_S in *.
  destruct (Z.ltb_spec ((2 * k + 1) * pow2 l - 1 + 1 * pow2 l) U64); [|lia].
  osimpl. unfold sub64.
  destruct (Z.leb_spec 1 ((2 * k + 1) * pow2 l - 1 + 1 * pow2 l)); [|nia].
  f_equal. rewrite pow2_0. lia.
Qed.

Lemma left_most_child_mkpos l k : 0 <= k -> mkpos l k < u64_max ->
  left_most_child (mkpos l k) = Ok (mkpos 0 (k * pow2 l)).
Proof.
  intros Hk H. pose proof (mkpos_level_lt l k Hk H) as Hl. pose proof (pow2_pos l).
  unfold left_most_child, turn_off_right_most_n_bits, shr64, shl64.
  rewrite level_mkpos by done.
  destruct (Z.ltb_spec (Z.of_nat l) 64); [|lia]. osimpl.
  rewrite shiftr_pow2. unfold u64_max in H. rewrite mkpos_alt in *.
  replace ((2 * k + 1) * pow2 l - 1) with (2 * k * pow2 l + (pow2 l - 1)) in * by lia.
  rewrite Z.div_add_l, Z.div_small, Z.add_0_r by lia.
  rewrite shl64_small by nia. f_equal. rewrite mkpos_alt, pow2_0. lia.
Qed.

Lemma is_freezable_mkpos l k i : 0 <= k -> mkpos l k < u64_max -> 0 <= i < 2 ^ 63 ->
  is_freezable (mkpos l k) i = Ok ((k + 1) * pow2 l <=? i + 1).
Proof.
  intros. unfold is_freezable. rewrite from_leaf_index_mkpos by done. cbn.
  rewrite right_most_child_mkpos by done. cbn. f_equal. rewrite !mkpos_alt, pow2_0.
  apply eq_true_iff_eq. rewrite !Z.leb_le. lia.
Qed.

Lemma is_placeholder_mkpos l k i : 0 <= k -> mkpos l k < u64_max -> 0 <= i < 2 ^ 63 ->
  is_placeholder (mkpos l k) i = Ok (i + 1 <=? k * pow2 l).
Proof.
  intros. unfold is_placeholder. rewrite from_leaf_index_mkpos by done. cbn.
  pose proof (pow2_pos l).
  destruct (Z.leb_spec (mkpos l k) (mkpos 0 i)) as [Hle|_].
  - f_equal. symmetry. apply Z.leb_gt. rewrite !mkpos_alt, pow2_0 in Hle. nia.
  - rewrite left_most_child_mkpos by done. cbn. rewrite !mkpos_alt, pow2_0.
    destruct (Z.leb_spec ((2 * (k * pow2 l) + 1) * 1 - 1) ((2 * i + 1) * 1 - 1));
      f_equal; symmetry; [apply Z.leb_gt|apply Z.leb_le]; lia.
Qed.

(** ** Smearing: bit [i] of the smeared word is set iff some bit of the window
    [i, i + m) of the original is. *)
Definition window (v m n : Z) : Prop :=
  forall i, 0 <= i ->
    Z.testbit n i = true <-> exists j, i <= j < i + m /\ Z.testbit v j = true.

Lemma window_1 v : window v 1 v.
Proof.
  intros i Hi. split; [intros; exists i; split; [lia|done]|].
  intros (j & Hj & Hb). by replace i with j by lia.
Qed.

Lemma window_double v m n : 0 < m -> window v m n -> window v (m + m) (Z.lor n (Z.shiftr n m)).
Proof.
  intros Hm Hw i Hi. rewrite Z.lor_spec, orb_true_iff, Z.shiftr_spec by done.
  rewrite (Hw i), (Hw (i + m)) by lia. split.
  - intros [(j & Hj & Hb)|(j & Hj & Hb)]; exists j; split; by try lia.
  - intros (j & Hj & Hb). destruct (Z.lt_ge_cases j (i + m)); [left|right];
      exists j; split; by try lia.
Qed.

Lemma smear_spec n r : (n < 64)%nat -> 0 <= r < pow2 n ->
  smear_ones_for_u64 (pow2 n + r) = pow2 (S n) - 1.
Proof.
  intros Hn Hr.
  assert (Hw : window (pow2 n + r) 64 (smear_ones_for_u64 (pow2 n + r))).
  { unfold smear_ones_for_u64.
    apply (window_double _ 32), (window_double _ 16), (window_double _ 8),
      (window_double _ 4), (window_double _ 2), (window_double _ 1), window_1; lia. }
  apply Z.bits_inj'. intros i Hi. rewrite pow2_ones, testbit_ones by done.
  apply eq_true_iff_eq. rewrite (Hw i), bool_decide_eq_true by done.
  split.
  - intros (j & Hj & Hb). apply Z.nle_gt. intros Hle.
    rewrite (testbit_high (S n)) in Hb; [done|rewrite pow2_S; lia|lia].
  - intros Hlt. exists (Z.of_nat n). split; [lia|].
    rewrite <- (Z.mul_1_l (pow2 n)), testbit_block, bool_decide_false by lia.
    by rewrite Z.sub_diag.
Qed.

Lemma smear_half n r : (n < 64)%nat -> 0 <= r < pow2 n ->
  Z.shiftr (smear_ones_for_u64 (pow2 n + r)) 1 = pow2 n - 1.
Proof.
  intros Hn Hr. rewrite smear_spec by done. rewrite (shiftr_pow2 _ 1), pow2_S.
  change (pow2 1) with 2. Z.to_euclidean_division_equations. lia.
Qed.

(** ** Roots *)
Definition rootl (n : Z) : nat := Z.to_nat (Z.log2_up n).

Lemma rootl_1 : rootl 1 = 0%nat.
Proof. reflexivity. Qed.

(** For more than one leaf, the root level is the bit length of the last leaf
    index. *)
Lemma rootl_block n r : 0 <= r < pow2 n -> rootl (pow2 n + r + 1) = S n.
Proof.
  intros. unfold rootl. rewrite Z.log2_up_eqn by lia.
  replace (Z.pred (pow2 n + r + 1)) with (pow2 n + r) by lia. rewrite log2_block by done. lia.
Qed.

Lemma rootl_cover n : 0 < n -> n <= pow2 (rootl n).
Proof.
  intros. unfold rootl, pow2. pose proof (Z.log2_up_nonneg n).
  rewrite Z2Nat.id by done.
  destruct (Z.eq_dec n 1) as [->|]; [done|]. apply Z.log2_up_spec. lia.
Qed.

Lemma rootl_min n l : 0 < n -> n <= pow2 l -> (rootl n <= l)%nat.
Proof.
  intros Hn Hl. unfold rootl, pow2 in *.
  apply Z.log2_up_le_mono in Hl. rewrite Z.log2_up_pow2 in Hl by lia. lia.
Qed.

Lemma rootl_tight n : 1 < n -> pow2 (rootl n) < 2 * n.
Proof.
  intros. destruct (Z.log2_up_spec n) as [Hlo _]; [lia|].
  unfold rootl, pow2. pose proof (Z.log2_up_pos n ltac:(lia)). rewrite Z2Nat.id by lia.
  replace (Z.log2_up n) with (Z.succ (Z.pred (Z.log2_up n))) by lia.
  rewrite Z.pow_succ_r by lia. lia.
Qed.

Lemma rootl_le_63 n : 0 < n <= 2 ^ 63 -> (rootl n <= 63)%nat.
Proof. intros. apply rootl_min; [lia|]. unfold pow2. cbn. lia. Qed.

Lemma root_level_spec n : 0 < n <= 2 ^ 63 ->
  root_level_from_leaf_count n = Ok (Z.of_nat (rootl n)).
Proof.
  intros Hn. unfold root_level_from_leaf_count. rewrite assert_true by lia. osimpl.
  rewrite sub64_Ok by lia. osimpl. f_equal.
  unfold leading_zeros, MAX_ACCUMULATOR_PROOF_DEPTH.
  destruct (Z.eqb_spec (n - 1) 0) as [E|E].
  - replace n with 1 by lia. done.
  - destruct (top_bit (n - 1)) as (m & r & Hr & E'); [lia|].
    replace n with (pow2 m + r + 1) by lia. rewrite rootl_block by done.
    replace (pow2 m + r + 1 - 1) with (pow2 m + r) by lia. rewrite log2_block by done. lia.
Qed.

Lemma root_from_leaf_count_spec n : 0 < n <= 2 ^ 63 ->
  root_from_leaf_count n = Ok (mkpos (rootl n) 0).
Proof.
  intros Hn. unfold root_from_leaf_count. rewrite assert_true by lia. osimpl.
  rewrite sub64_Ok by lia. osimpl.
  unfold root_from_leaf_index. rewrite from_leaf_index_mkpos by lia. osimpl. f_equal.
  destruct (Z.eq_dec n 1) as [->|E]; [done|].
  destruct (top_bit (n - 1)) as (m & r & Hr & E'); [lia|].
  replace n with (pow2 m + r + 1) by lia. rewrite rootl_block by done.
  rewrite mkpos_alt, pow2_0.
  replace ((2 * (pow2 m + r + 1 - 1) + 1) * 1 - 1) with (pow2 (S m) + 2 * r) by (rewrite pow2_S; lia).
  rewrite smear_half.
  - rewrite mkpos_alt. lia.
  - assert (m < 63)%nat; [|lia]. apply pow2_lt_inv. change (pow2 63) with (2 ^ 63). lia.
  - rewrite pow2_S. lia.
Qed.

(** ** Post-order numbering *)
Lemma lor_pow2_add n x : 0 <= x < pow2 n -> Z.lor (pow2 n) x = pow2 n + x.
Proof.
  intros. apply Z.bits_inj'. intros i Hi. rewrite Z.lor_spec, testbit_pow2.
  rewrite <- (Z.mul_1_l (pow2 n)), testbit_block by done.
  assert (H1 : forall j, Z.testbit 1 j = bool_decide (j = 0)) by apply (testbit_pow2 0).
  rewrite H1. repeat case_bool_decide; try lia; try done; cbn; try by rewrite (testbit_high n) by lia.
Qed.

Lemma lxor_level_ones l k : 0 <= k -> Z.lxor (mkpos l k) (pow2 l - 1) = k * pow2 (S l).
Proof.
  intros. apply Z.bits_inj'. intros i Hi. pose proof (pow2_pos (S l)).
  rewrite Z.lxor_spec, pow2_ones, testbit_ones, mkpos_testbit by done.
  rewrite <- (Z.add_0_r (k * _)), testbit_block, Z.testbit_0_l by lia.
  repeat case_bool_decide; try lia; rewrite ?xorb_false_r; try done. f_equal. lia.
Qed.

Lemma inorder_to_postorder_mkpos l k : 0 <= k -> mkpos l k < u64_max -> (l < 63)%nat ->
  inorder_to_postorder (mkpos l k) = Ok (postnum l k).
Proof.
  intros Hk H Hl. pose proof (mkpos_width l k Hk H) as Hw. pose proof (pow2_pos l).
  pose proof (count_ones_bounds k Hk). rewrite pow2_S in Hw.
  unfold inorder_to_postorder, children_of_node, nodes_to_left_of.
  rewrite isolate_mkpos, shl64_pow2, pow2_S by (done || lia).
  rewrite (sub64_Ok (2 * _)) by lia. osimpl.
  rewrite (sub64_Ok (pow2 l)) by lia. osimpl.
  rewrite lxor_level_ones, count_ones_mul_pow2, pow2_S by done.
  rewrite sub64_Ok by nia. osimpl. unfold postnum. rewrite pow2_S.
  rewrite add64_Ok by nia. f_equal. lia.
Qed.

Lemma postorder_step_take n node bm : (n < 64)%nat -> pow2 (S n) - 1 <= node ->
  postorder_step (Z.of_nat n) (node, pow2 (S n) - 1, bm) =
  (node - (pow2 (S n) - 1), pow2 n - 1, Z.lor bm (pow2 n)).
Proof.
  intros Hn Hle. unfold postorder_step. rewrite (proj2 (Z.leb_le _ _)) by done.
  pose proof (pow2_lt_mono n 64 Hn). pose proof (pow2_pos n).
  rewrite shl64_small by (rewrite ?u64_pow2; lia). rewrite Z.mul_1_l.
  rewrite (shiftr_pow2 _ 1). change (pow2 1) with 2. rewrite pow2_S.
  repeat f_equal. Z.to_euclidean_division_equations. lia.
Qed.

Lemma postorder_step_skip n node bm : node < pow2 (S n) - 1 ->
  postorder_step (Z.of_nat n) (node, pow2 (S n) - 1, bm) = (node, pow2 n - 1, bm).
Proof.
  intros Hle. unfold postorder_step. rewrite (proj2 (Z.leb_gt _ _)) by done.
  pose proof (pow2_pos n). rewrite (shiftr_pow2 _ 1). change (pow2 1) with 2. rewrite pow2_S.
  repeat f_equal. Z.to_euclidean_division_equations. lia.
Qed.

(** Below the level of the node, every bit is taken. *)
Lemma postorder_loop_tail n : forall l bm, (n <= l)%nat -> (n <= 64)%nat ->
  fst (fst (postorder_loop n (Z.of_nat l + pow2 (S n) - 2 - Z.of_nat n, pow2 n - 1, bm)))
    = Z.of_nat l /\
  snd (postorder_loop n (Z.of_nat l + pow2 (S n) - 2 - Z.of_nat n, pow2 n - 1, bm))
    = Z.lor bm (pow2 n - 1).
Proof.
  induction n as [|n IH]; intros l bm Hn H64.
  - cbn. change (pow2 1) with 2. rewrite pow2_0, Z.lor_0_r. lia.
  - cbn [postorder_loop]. pose proof (pow2_pos n).
    rewrite postorder_step_take by (rewrite ?pow2_S; lia).
    replace (Z.of_nat l + pow2 (S (S n)) - 2 - Z.of_nat (S n) - (pow2 (S n) - 1))
      with (Z.of_nat l + pow2 (S n) - 2 - Z.of_nat n) by (rewrite !pow2_S; lia).
    destruct (IH l (Z.lor bm (pow2 n))) as [-> ->]; [lia..|]. split; [done|].
    rewrite <- Z.lor_assoc, lor_pow2_add by lia. f_equal. rewrite pow2_S. lia.
Qed.

(** Above it, exactly the bits of the index are. *)
Lemma postorder_loop_head m : forall l k bm, (m + l <= 64)%nat -> 0 <= k < pow2 m ->
  let r := postorder_loop (m + l)
             ((k + 1) * pow2 (S l) - 2 - count_ones k, pow2 (m + l) - 1, bm) in
  fst (fst r) = Z.of_nat l /\ snd r = Z.lor bm (Z.lor (k * pow2 l) (pow2 l - 1)).
Proof.
  induction m as [|m IH]; intros l k bm H64 Hk r; subst r.
  - rewrite pow2_0 in Hk. replace k with 0 by lia. cbn [Nat.add].
    replace ((0 + 1) * pow2 (S l) - 2 - count_ones 0)
      with (Z.of_nat l + pow2 (S l) - 2 - Z.of_nat l) by (cbn; lia).
    apply postorder_loop_tail; lia.
  - cbn [Nat.add postorder_loop]. pose proof (pow2_pos l). rewrite pow2_S in Hk.
    destruct (Z.lt_ge_cases k (pow2 m)) as [Hlt|Hge].
    + pose proof (count_ones_bounds k ltac:(lia)).
      rewrite postorder_step_skip; [apply IH; lia|].
      rewrite !pow2_S, pow2_add. nia.
    + assert (E : k = pow2 m + (k - pow2 m)) by lia. set (k' := k - pow2 m) in *.
      rewrite E, count_ones_add_pow2 by lia. pose proof (count_ones_bounds k' ltac:(lia)).
      rewrite postorder_step_take; [|lia|rewrite !pow2_S, pow2_add; nia].
      replace ((pow2 m + k' + 1) * pow2 (S l) - 2 - (1 + count_ones k') - (pow2 (S (m + l)) - 1))
        with ((k' + 1) * pow2 (S l) - 2 - count_ones k') by (rewrite !pow2_S, pow2_add; lia).
      destruct (IH l k' (Z.lor bm (pow2 (m + l)))) as [-> ->]; [lia..|]. split; [done|].
      rewrite <- Z.lor_assoc. f_equal. rewrite Z.lor_assoc. f_equal.
      rewrite lor_pow2_add by (rewrite pow2_add; nia). rewrite pow2_add. lia.
Qed.

Lemma postorder_to_inorder_mkpos l k : 0 <= k -> mkpos l k < u64_max ->
  postorder_to_inorder (postnum l k) = Ok (mkpos l k).
Proof.
  intros Hk H. pose proof (mkpos_level_lt l k Hk H) as Hl.
  pose proof (mkpos_width l k Hk H) as Hw. pose proof (pow2_pos l).
  unfold postorder_to_inorder, postnum.
  change u64_max with (pow2 64 - 1). replace 64%nat with ((64 - l) + l)%nat at 1 2 by lia.
  assert (Hk' : k < pow2 (64 - l)).
  { rewrite u64_pow2 in Hw. replace 64%nat with ((64 - l) + l)%nat in Hw by lia.
    rewrite pow2_add, pow2_S in Hw. nia. }
  destruct (postorder_loop_head (64 - l) l k 0) as [E1 E2]; [lia..|].
  destruct (postorder_loop _ _) as [[node f] bm]. cbn [fst snd] in E1, E2. subst node bm.
  rewrite Z.lor_0_l, Z.mod_small by lia. rewrite shr64_Ok by lia. osimpl.
  rewrite shiftr_pow2.
  assert (E : Z.lor (k * pow2 l) (pow2 l - 1) / pow2 l = k).
  { apply Z.bits_inj'. intros i Hi. rewrite <- shiftr_pow2, Z.shiftr_spec, Z.lor_spec by done.
    rewrite pow2_ones, testbit_ones by lia. rewrite <- (Z.add_0_r (k * _)), testbit_block by lia.
    rewrite !bool_decide_false, orb_false_r by lia. f_equal. lia. }
  rewrite E, from_level_and_pos_mkpos by done. done.
Qed.

(** A perfect tree of [n] levels has a node for each of its post-order numbers. *)
Lemma postnum_surj n : forall j, 0 <= j < pow2 n - 1 ->
  exists l k, (l < n)%nat /\ 0 <= k < pow2 (n - 1 - l) /\ j = postnum l k.
Proof.
  induction n as [|n IH]; intros j Hj; [rewrite pow2_0 in Hj; lia|].
  rewrite pow2_S in Hj. pose proof (pow2_pos n).
  destruct (Z.lt_trichotomy j (2 * pow2 n - 2)) as [Hlt|[->|]]; [|exists n, 0|lia].
  - destruct (Z.lt_ge_cases j (pow2 n - 1)) as [Hl|Hr].
    + destruct (IH j) as (l & k & Hln & Hk & ->); [lia|]. exists l, k. split; [lia|].
      split; [|done]. pose proof (pow2_mono (n - 1 - l) (S n - 1 - l) ltac:(lia)). lia.
    + destruct (IH (j - (pow2 n - 1))) as (l & k & Hln & Hk & E); [lia|].
      assert (E2 : pow2 (S n - 1 - l) = 2 * pow2 (n - 1 - l))
        by (rewrite <- pow2_S; f_equal; lia).
      exists l, (pow2 (n - 1 - l) + k). split; [lia|]. split; [lia|].
      unfold postnum in *. rewrite count_ones_add_pow2 by done.
      assert (pow2 n = pow2 (n - 1 - l) * pow2 (S l))
        by (rewrite <- pow2_add; f_equal; lia).
      nia.
  - split; [lia|]. rewrite Nat.sub_succ, Nat.sub_0_r, Nat.sub_diag, pow2_0.
    unfold postnum. rewrite pow2_S. cbn. lia.
Qed.

(** ** Frozen subtrees

    [frozen_range lo c n] are the roots of the full subtrees of an accumulator
    of [n] leaves at levels [lo + c - 1] down to [lo]: one per 1-bit of [n]. *)
Definition frozen_at (n : Z) (t : nat) : list (nat * Z) :=
  if Z.testbit n (Z.of_nat t) then [(t, n / pow2 t - 1)] else [].

Fixpoint frozen_range (lo c : nat) (n : Z) : list (nat * Z) :=
  match c with
  | O => []
  | S c => frozen_at n (lo + c) ++ frozen_range lo c n
  end.

Definition node_pos (x : nat * Z) : Position := mkpos (fst x) (snd x).

Lemma frozen_range_snoc lo c n :
  frozen_range lo (S c) n = frozen_range (S lo) c n ++ frozen_at n lo.
Proof.
  induction c as [|c IH].
  - cbn. by rewrite Nat.add_0_r, app_nil_r.
  - change (frozen_range lo (S (S c)) n)
      with (frozen_at n (lo + S c) ++ frozen_range lo (S c) n).
    rewrite IH, app_assoc. f_equal. cbn. f_equal. f_equal. lia.
Qed.

Lemma frozen_range_app lo c1 c2 n :
  frozen_range lo (c1 + c2) n = frozen_range (lo + c1) c2 n ++ frozen_range lo c1 n.
Proof.
  revert lo. induction c1 as [|c1 IH]; intros lo.
  - by rewrite Nat.add_0_r, app_nil_r.
  - cbn [Nat.add]. rewrite frozen_range_snoc, IH, (frozen_range_snoc lo c1), app_assoc.
    by rewrite Nat.add_succ_r.
Qed.

(** Only the bits from [lo] up matter. *)
Lemma frozen_range_ext lo c n n' : n / pow2 lo = n' / pow2 lo ->
  frozen_range lo c n = frozen_range lo c n'.
Proof.
  intros E. induction c as [|c IH]; [done|]. cbn. rewrite IH. f_equal. unfold frozen_at.
  assert (Ed : n / pow2 (lo + c) = n' / pow2 (lo + c)).
  { rewrite pow2_add, <- !Z.div_div by (pose proof (pow2_pos lo); pose proof (pow2_pos c); lia).
    by rewrite E. }
  assert (Eb : Z.testbit n (Z.of_nat (lo + c)) = Z.testbit n' (Z.of_nat (lo + c))).
  { rewrite !Z.testbit_odd, !shiftr_pow2. by rewrite Ed. }
  by rewrite Eb, Ed.
Qed.

Lemma frozen_range_zero lo c n : 0 <= n < pow2 lo -> frozen_range lo c n = [].
Proof.
  intros Hn. rewrite (frozen_range_ext lo c n 0).
  - induction c as [|c IH]; [done|]. cbn. rewrite IH. unfold frozen_at. by rewrite Z.testbit_0_l.
  - by rewrite Z.div_small, Zdiv_0_l.
Qed.

(** The nodes of [frozen_range] are the roots of full subtrees: their leaves all
    exist. *)
Lemma frozen_range_In lo c n l k : 0 <= n -> (l, k) ∈ frozen_range lo c n ->
  (lo <= l < lo + c)%nat /\ Z.testbit n (Z.of_nat l) = true /\
  0 <= k /\ (k + 1) * pow2 l <= n.
Proof.
  intros Hn. induction c as [|c IH]; cbn; [by intros ?%not_elem_of_nil|].
  rewrite elem_of_app. intros [H|H]; [|destruct (IH H) as (? & ? & ? & ?); split_and!; by try lia].
  unfold frozen_at in H. destruct (Z.testbit n (Z.of_nat (lo + c))) eqn:Eb; [|by apply not_elem_of_nil in H].
  apply list_elem_of_singleton in H. injection H as -> ->. pose proof (pow2_pos (lo + c)).
  assert (n / pow2 (lo + c) <> 0).
  { intros E. rewrite Z.testbit_odd, shiftr_pow2, E in Eb. done. }
  pose proof (Z.div_pos n (pow2 (lo + c)) Hn ltac:(lia)).
  split_and!; try done; try lia.
  pose proof (Z.mul_div_le n (pow2 (lo + c)) ltac:(lia)). nia.
Qed.

(** *** [FrozenSubTreeIterator] yields exactly these roots *)
Lemma FrozenSubTreeIterator_next_spec b seen r' n :
  (b < 64)%nat -> n = pow2 b + seen + r' -> 0 <= r' < pow2 b -> 0 <= seen ->
  seen mod pow2 (S b) = 0 -> n < 2 ^ 63 ->
  FrozenSubTreeIterator_next (mkFSTI (pow2 b + r') seen) =
  Ok (Some (mkpos b (n / pow2 b - 1), mkFSTI r' (seen + pow2 b))).
Proof.
  intros Hb -> Hr Hs Hm Hn. unfold FrozenSubTreeIterator_next. cbn [bitmap seen_leaves].
  pose proof (pow2_pos b). assert (HU : U64 = 2 * 2 ^ 63) by done.
  rewrite sub64_Ok by (unfold u64_max; lia). osimpl.
  rewrite (assert_true (seen <? _)) by (unfold u64_max; lia). osimpl. rewrite (proj2 (Z.eqb_neq _ _)) by lia. rewrite smear_half by done.
  rewrite assert_true by lia. osimpl. rewrite add64_Ok by lia. osimpl.
  rewrite from_leaf_index_mkpos by lia. osimpl.
  unfold to_inorder_index. rewrite mkpos_alt, pow2_0.
  rewrite add64_Ok by lia. osimpl. rewrite add64_Ok by lia. osimpl.
  apply Z.mod_divide in Hm as [q Hm]; [|rewrite pow2_S; lia].
  rewrite pow2_S in Hm. unfold from_inorder_index. do 2 f_equal. f_equal; [|f_equal].
  - rewrite mkpos_alt. subst seen.
    replace (pow2 b + q * (2 * pow2 b) + r') with ((2 * q + 1) * pow2 b + r') by lia.
    rewrite Z.div_add_l, (Z.div_small r'), Z.add_0_r by lia. lia.
  - replace (pow2 b - 1 + 1) with (pow2 b) by lia.
    rewrite <- (lor_pow2_add b r') by done.
    apply Z.bits_inj'. intros i Hi. rewrite Z.land_spec, Z.lor_spec, testbit_not64, !testbit_pow2 by done.
    repeat case_bool_decide; subst; try lia; cbn; rewrite ?andb_true_r, ?andb_false_r; try done.
    + symmetry. apply (testbit_high b); lia.
    + symmetry. apply (testbit_high b); lia.
  - lia.
Qed.

Lemma FrozenSubTreeIterator_collect b : forall fuel seen r,
  (b <= 64)%nat -> (b < fuel)%nat -> 0 <= r < pow2 b -> 0 <= seen ->
  seen mod pow2 b = 0 -> seen + r < 2 ^ 63 ->
  collect FrozenSubTreeIterator_next fuel (mkFSTI r seen) =
  Ok (map node_pos (frozen_range 0 b (seen + r))).
Proof.
  induction b as [|b IH]; intros fuel seen r H64 Hf Hr Hs Hm Hn.
  - rewrite pow2_0 in Hr. replace r with 0 in * by lia. destruct fuel as [|fuel]; [lia|].
    cbn [collect]. unfold FrozenSubTreeIterator_next. cbn [bitmap seen_leaves].
    rewrite sub64_Ok by (unfold u64_max, U64; lia). osimpl.
    rewrite (assert_true (seen <? _)) by (unfold u64_max, U64; lia). done.
  - pose proof (pow2_pos b). rewrite pow2_S in Hr.
    assert (Hm' : seen mod pow2 b = 0).
    { rewrite pow2_S in Hm. apply Z.mod_divide; [lia|]. apply Z.mod_divide in Hm; [|lia].
      etrans; [|exact Hm]. by exists 2. }
    cbn [frozen_range Nat.add]. unfold frozen_at.
    assert (Eb : Z.testbit (seen + r) (Z.of_nat b) = bool_decide (pow2 b <= r)).
    { apply Z.mod_divide in Hm as [q Hq]; [|rewrite pow2_S; lia]. subst seen.
      rewrite testbit_block by (rewrite ?pow2_S; lia). rewrite bool_decide_true by lia.
      case_bool_decide; [|apply (testbit_high b); lia].
      replace r with (1 * pow2 b + (r - pow2 b)) by lia. rewrite testbit_block by lia.
      rewrite bool_decide_false by lia. by rewrite Z.sub_diag. }
    rewrite Eb. case_bool_decide.
    + destruct fuel as [|fuel]; [lia|]. cbn [collect].
      replace r with (pow2 b + (r - pow2 b)) at 1 by lia.
      rewrite (FrozenSubTreeIterator_next_spec b seen (r - pow2 b) (seen + r)) by lia. osimpl.
      rewrite IH; try lia.
      * replace (seen + pow2 b + (r - pow2 b)) with (seen + r) by lia. done.
      * rewrite <- Z.add_mod_idemp_l, Hm' by lia. rewrite Z.add_0_l. apply Z.mod_same. lia.
    + apply IH; lia.
Qed.

Lemma FrozenSubTreeIterator_spec n : 0 <= n < 2 ^ 63 ->
  collect FrozenSubTreeIterator_next 65 (FrozenSubTreeIterator_new n) =
  Ok (map node_pos (frozen_range 0 64 n)).
Proof.
  intros. apply (FrozenSubTreeIterator_collect 64 65 0 n); try lia.
  - change (pow2 64) with (2 ^ 64). lia.
  - done.
Qed.

(** *** [FrozenSubtreeSiblingIterator]

    The subtrees that extend an accumulator of [cur] leaves by [rem] leaves:
    first subtrees as large as the rightmost full one (each completes it), then,
    once fewer leaves are left than that, the full subtrees of the remainder. *)
Inductive sib_path : Z -> Z -> list (nat * Z) -> Prop :=
| sib_grow l a rem rest :
    0 <= a -> pow2 l <= rem ->
    sib_path ((2 * a + 1) * pow2 l + pow2 l) (rem - pow2 l) rest ->
    sib_path ((2 * a + 1) * pow2 l) rem ((l, 2 * a + 1) :: rest)
| sib_tail t cur rem :
    (t <= 64)%nat -> 0 <= cur -> cur mod pow2 t = 0 -> 0 <= rem < pow2 t ->
    sib_path cur rem (frozen_range 0 t (cur + rem)).

Lemma next_new_leaf_batch_spec cur b r : (b < 64)%nat -> 0 <= r < pow2 b ->
  next_new_leaf_batch (mkFSSI cur (pow2 b + r)) = Ok (pow2 b).
Proof.
  intros Hb Hr. unfold next_new_leaf_batch, leading_zeros, MAX_ACCUMULATOR_PROOF_DEPTH.
  cbn [remaining_new_leaves]. rewrite (proj2 (Z.eqb_neq _ _)) by lia.
  rewrite log2_block, sub64_Ok by lia. osimpl.
  replace (63 - (64 - 1 - Z.of_nat b)) with (Z.of_nat b) by lia. rewrite shl64_Ok by lia.
  pose proof (pow2_lt_mono b 64 Hb).
  rewrite shl64_small by (rewrite ?u64_pow2; lia). by rewrite Z.mul_1_l.
Qed.

(** Emitting a subtree of [pow2 l] leaves. *)
Lemma FrozenSubtreeSiblingIterator_emit l cur rem :
  (l < 64)%nat -> 0 <= cur -> cur mod pow2 l = 0 -> pow2 l <= rem -> cur + rem <= 2 ^ 63 ->
  (if 0 <? cur then
     s ← shl64 1 (trailing_zeros 64 cur);
     if s <=? rem then Ok s else next_new_leaf_batch (mkFSSI cur rem)
   else next_new_leaf_batch (mkFSSI cur rem)) = Ok (pow2 l) ->
  FrozenSubtreeSiblingIterator_next (mkFSSI cur rem) =
  Ok (Some (mkpos l (cur / pow2 l), mkFSSI (cur + pow2 l) (rem - pow2 l))).
Proof.
  intros Hl Hc Hm Hle Hb E. unfold FrozenSubtreeSiblingIterator_next.
  cbn [remaining_new_leaves current_num_leaves]. pose proof (pow2_pos l).
  assert (HU : U64 = 2 * 2 ^ 63) by done.
  rewrite (proj2 (Z.eqb_neq _ _)) by lia. rewrite E. osimpl.
  rewrite !add64_Ok by lia. osimpl. rewrite !sub64_Ok by lia. osimpl.
  rewrite !add64_Ok by lia. osimpl. unfold from_inorder_index. do 4 f_equal.
  rewrite mkpos_alt. apply Z.mod_divide in Hm as [q ->]; [|lia].
  rewrite Z.div_mul by lia. lia.
Qed.

(** A multiple of [pow2 l] has at least [l] trailing zeros. *)
Lemma trailing_zeros_ge l x : 0 < x -> x mod pow2 l = 0 ->
  exists l' m, (l <= l')%nat /\ 0 <= m /\ x = (2 * m + 1) * pow2 l'.
Proof.
  intros Hx Hm. pose proof (pow2_pos l). apply Z.mod_divide in Hm as [q ->]; [|lia].
  destruct (odd_part q) as (l' & m & Hm & ->); [nia|].
  exists (l' + l)%nat, m. rewrite pow2_add. split_and!; lia.
Qed.

Lemma odd_level_lt l a : 0 <= a -> (2 * a + 1) * pow2 l <= 2 ^ 63 -> (l < 64)%nat.
Proof.
  intros. pose proof (pow2_pos l). apply pow2_lt_inv.
  change (pow2 64) with (2 * 2 ^ 63). nia.
Qed.

(** When fewer leaves remain than the rightmost full subtree has, the next
    subtree is the largest that fits. *)
Lemma sibling_size_tail b cur rem :
  (b < 64)%nat -> 0 <= cur <= 2 ^ 63 -> cur mod pow2 (S b) = 0 -> pow2 b <= rem < 2 * pow2 b ->
  (if 0 <? cur then
     s ← shl64 1 (trailing_zeros 64 cur);
     if s <=? rem then Ok s else next_new_leaf_batch (mkFSSI cur rem)
   else next_new_leaf_batch (mkFSSI cur rem)) = Ok (pow2 b).
Proof.
  intros Hb Hc Hm Hr.
  assert (En : next_new_leaf_batch (mkFSSI cur rem) = Ok (pow2 b)).
  { replace rem with (pow2 b + (rem - pow2 b)) by lia. apply next_new_leaf_batch_spec; lia. }
  rewrite En. destruct (Z.ltb_spec 0 cur) as [Hpos|_]; [|done].
  destruct (trailing_zeros_ge (S b) cur Hpos Hm) as (l & m & Hl & Hm2 & E).
  rewrite E, trailing_zeros_spec by done. pose proof (pow2_mono (S b) l Hl) as Hmono.
  assert (Hl64 : (l < 64)%nat).
  { apply (odd_level_lt l m); lia. }
  pose proof (pow2_lt_mono l 64 Hl64). rewrite pow2_S in Hmono.
  rewrite shl64_Ok by lia. osimpl. rewrite shl64_small by (rewrite ?u64_pow2; lia).
  by rewrite (proj2 (Z.leb_gt _ _)) by lia.
Qed.

Lemma sibling_collect_tail b : forall fuel cur rem,
  (b <= 64)%nat -> (b < fuel)%nat -> 0 <= cur -> cur mod pow2 b = 0 ->
  0 <= rem < pow2 b -> cur + rem <= 2 ^ 63 ->
  collect FrozenSubtreeSiblingIterator_next fuel (mkFSSI cur rem) =
  Ok (map node_pos (frozen_range 0 b (cur + rem))).
Proof.
  induction b as [|b IH]; intros fuel cur rem H64 Hf Hc Hm Hr Hb.
  - rewrite pow2_0 in Hr. replace rem with 0 by lia. by destruct fuel; [lia|].
  - pose proof (pow2_pos b). rewrite pow2_S in *.
    apply Z.mod_divide in Hm as [q Hq]; [|lia].
    assert (Hm' : cur mod pow2 b = 0).
    { apply Z.mod_divide; [lia|]. exists (2 * q). lia. }
    cbn [frozen_range Nat.add]. unfold frozen_at.
    replace (cur + rem) with (q * pow2 (S b) + rem) at 1 by (rewrite pow2_S; lia).
    rewrite testbit_block, bool_decide_true by (rewrite ?pow2_S; lia).
    destruct (Z.lt_ge_cases rem (pow2 b)) as [Hlt|Hge].
    { rewrite (testbit_high b) by lia. apply IH; lia. }
    replace rem with (1 * pow2 b + (rem - pow2 b)) at 2 by lia.
    rewrite testbit_block, bool_decide_false, Z.sub_diag by lia.
    change (Z.testbit 1 0) with true.
    destruct fuel as [|fuel]; [lia|]. cbn [collect].
    rewrite (FrozenSubtreeSiblingIterator_emit b); try lia;
      [|apply sibling_size_tail; try lia; rewrite pow2_S; apply Z.mod_divide; [lia|by exists q]].
    osimpl. rewrite IH; try lia.
    + osimpl. replace (cur + pow2 b + (rem - pow2 b)) with (cur + rem) by lia.
      f_equal. cbn [Z.odd map app]. f_equal. unfold node_pos. cbn [fst snd]. f_equal.
      replace (cur + rem) with ((2 * q + 1) * pow2 b + (rem - pow2 b)) by lia.
      rewrite Z.div_add_l, (Z.div_small (rem - _)) by lia.
      rewrite Hq. replace (q * (2 * pow2 b)) with (2 * q * pow2 b) by lia.
      rewrite Z.div_mul by lia. lia.
    + apply Z.mod_divide; [lia|]. exists (2 * q + 1). lia.
Qed.

Lemma sibling_collect_grow d : forall fuel l a rem,
  (64 - l <= d)%nat -> (d + 65 < fuel)%nat -> 0 <= a -> 0 <= rem ->
  (2 * a + 1) * pow2 l + rem <= 2 ^ 63 ->
  exists nodes, sib_path ((2 * a + 1) * pow2 l) rem nodes /\
    collect FrozenSubtreeSiblingIterator_next fuel (mkFSSI ((2 * a + 1) * pow2 l) rem) =
    Ok (map node_pos nodes).
Proof.
  induction d as [|d IH]; intros fuel l a rem Hd Hf Ha Hr Hb;
    pose proof (pow2_pos l); pose proof (odd_level_lt l a Ha ltac:(lia)) as Hl; [lia|].
  set (cur := (2 * a + 1) * pow2 l) in *. assert (0 < cur) by (subst cur; nia).
  assert (Hm : cur mod pow2 l = 0) by (apply Z.mod_divide; [lia|by eexists]).
  destruct (Z.lt_ge_cases rem (pow2 l)) as [Hlt|Hge].
  { exists (frozen_range 0 l (cur + rem)). split; [apply sib_tail; lia|].
    apply sibling_collect_tail; lia. }
  destruct fuel as [|fuel]; [lia|]. cbn [collect].
  rewrite (FrozenSubtreeSiblingIterator_emit l); try lia; [|].
  - osimpl. assert (Hcur : (cur + pow2 l) mod pow2 (S l) = 0).
    { rewrite pow2_S. apply Z.mod_divide; [lia|]. exists (a + 1). lia. }
    destruct (trailing_zeros_ge (S l) (cur + pow2 l)) as (l' & m & Hl' & Hm' & E); [lia|done|].
    destruct (IH fuel l' m (rem - pow2 l)) as (nodes & Hp & Hc); [lia..|].
    rewrite <- E in Hp, Hc. rewrite Hc. osimpl.
    exists ((l, 2 * a + 1) :: nodes). split; [by apply sib_grow|].
    cbn [map]. unfold node_pos at 2. cbn [fst snd]. subst cur. by rewrite Z.div_mul by lia.
  - rewrite (proj2 (Z.ltb_lt _ _)) by lia. subst cur. rewrite trailing_zeros_spec by done.
    rewrite shl64_Ok by lia. osimpl. pose proof (pow2_lt_mono l 64 Hl).
    rewrite shl64_small by (rewrite ?u64_pow2; lia).
    by rewrite Z.mul_1_l, (proj2 (Z.leb_le _ _)) by lia.
Qed.

Lemma sibling_collect_spec cur rem fuel : (130 < fuel)%nat -> 0 <= cur -> 0 <= rem ->
  cur + rem <= 2 ^ 63 ->
  exists nodes, sib_path cur rem nodes /\
    collect FrozenSubtreeSiblingIterator_next fuel (mkFSSI cur rem) = Ok (map node_pos nodes).
Proof.
  intros Hf Hc Hr Hb. destruct (Z.eq_dec cur 0) as [->|].
  - exists (frozen_range 0 64 (0 + rem)). change (pow2 64) with (2 * 2 ^ 63).
    split; [apply sib_tail; change (pow2 64) with (2 * 2 ^ 63); try done; lia|].
    apply sibling_collect_tail; change (pow2 64) with (2 * 2 ^ 63); try done; lia.
  - destruct (odd_part cur) as (l & a & Ha & ->); [lia|].
    apply (sibling_collect_grow 64); lia.
Qed.

(** Every subtree of the path starts on its own boundary and ends within the
    bigger accumulator: it is full there. *)
Lemma sib_path_frozen cur rem nodes : sib_path cur rem nodes -> 0 <= rem ->
  forall l k, (l, k) ∈ nodes -> 0 <= k /\ (k + 1) * pow2 l <= cur + rem.
Proof.
  induction 1 as [l a rem rest Ha Hle _ IH|t cur rem Ht Hc Hm Hr]; intros Hrem l' k' Hin.
  - apply elem_of_cons in Hin as [[= -> ->]|Hin]; [split; lia|].
    destruct (IH ltac:(lia) l' k' Hin) as [? ?]. lia.
  - destruct (frozen_range_In 0 t (cur + rem) l' k') as (_ & _ & ? & ?); [lia|done|]. done.
Qed.

(** There is one full subtree per 1-bit. *)
Lemma frozen_range_length lo c n : 0 <= n ->
  Z.of_nat (length (frozen_range lo c n)) = count_ones ((n / pow2 lo) mod pow2 c).
Proof.
  intros Hn. pose proof (pow2_pos lo). induction c as [|c IH].
  - cbn. by rewrite pow2_0, Z.mod_1_r.
  - cbn [frozen_range]. rewrite length_app, Nat2Z.inj_add, IH. unfold frozen_at.
    pose proof (pow2_pos c). set (m := n / pow2 lo) in *.
    replace (Z.testbit n (Z.of_nat (lo + c))) with (Z.odd (m / pow2 c)).
    2: { rewrite Z.testbit_odd, shiftr_pow2, pow2_add. subst m. by rewrite Z.div_div by lia. }
    assert (E : m mod pow2 (S c) = m mod pow2 c + pow2 c * ((m / pow2 c) mod 2)).
    { rewrite pow2_S, (Z.mul_comm 2). apply Z.rem_mul_r; lia. }
    rewrite E, Zmod_odd. pose proof (Z.mod_pos_bound m (pow2 c)).
    destruct (Z.odd (m / pow2 c)).
    + rewrite Z.mul_1_r, Z.add_comm, (Z.add_comm (m mod _)), count_ones_add_pow2 by lia.
      cbn. lia.
    + by rewrite Z.mul_0_r, Z.add_0_r.
Qed.

Lemma frozen_length n : 0 <= n < U64 ->
  Z.of_nat (length (frozen_range 0 64 n)) = count_ones n.
Proof.
  intros. rewrite frozen_range_length, pow2_0, Z.div_1_r by lia.
  by rewrite Z.mod_small by (rewrite <- u64_pow2; lia).
Qed.

(** No 1-bit in a range, no subtree. *)
Lemma frozen_range_nil lo c n :
  (forall i, (lo <= i < lo + c)%nat -> Z.testbit n (Z.of_nat i) = false) ->
  frozen_range lo c n = [].
Proof.
  induction c as [|c IH]; intros Hb; [done|]. cbn. unfold frozen_at.
  rewrite Hb by lia. apply IH. intros. apply Hb. lia.
Qed.

Lemma testbit_scaled x l i : 0 <= i ->
  Z.testbit (x * pow2 l) i = if bool_decide (i < Z.of_nat l) then false
                             else Z.testbit x (i - Z.of_nat l).
Proof.
  intros. pose proof (pow2_pos l). rewrite <- (Z.add_0_r (x * _)), testbit_block by lia.
  case_bool_decide; [apply Z.testbit_0_l|done].
Qed.

(** The bits of [mkpos d e] scaled to level [l]: ones from [l], then a zero. *)
Lemma scaled_ones l d e :
  (forall i, (i < d)%nat -> Z.testbit (mkpos d e * pow2 l) (Z.of_nat (l + i)) = true) /\
  Z.testbit (mkpos d e * pow2 l) (Z.of_nat (l + d)) = false.
Proof.
  split; [intros i Hi|]; rewrite testbit_scaled, bool_decide_false, mkpos_testbit by lia.
  - by rewrite bool_decide_true by lia.
  - by rewrite bool_decide_false, bool_decide_true by lia.
Qed.

Lemma count_ones_ones d : count_ones (pow2 d - 1) = Z.of_nat d.
Proof.
  induction d as [|d IH]; [done|]. pose proof (pow2_pos d).
  replace (pow2 (S d) - 1) with (2 * (pow2 d - 1) + 1) by (rewrite pow2_S; lia).
  rewrite count_ones_succ_double by lia. lia.
Qed.

Lemma frozen_ones_length l d e : 0 <= e ->
  length (frozen_range l d (mkpos d e * pow2 l)) = d.
Proof.
  intros He. pose proof (pow2_pos l). pose proof (pow2_pos d). pose proof (mkpos_nonneg d e He).
  apply Nat2Z.inj. rewrite frozen_range_length, Z.div_mul by nia.
  unfold mkpos. rewrite pow2_S. replace (e * (2 * pow2 d)) with (2 * e * pow2 d) by lia.
  rewrite Z.add_comm, Z.mod_add, Z.mod_small by lia. apply count_ones_ones.
Qed.

(** Adding a subtree of the size of the rightmost full one: [d] subtrees merge
    with it, all the larger ones stay.  With [l = 0] this is appending a leaf. *)
Lemma frozen_carry l d e : (l + d < 64)%nat -> 0 <= e ->
  let n := mkpos d e * pow2 l in
  frozen_range 0 64 n =
    frozen_range (S (l + d)) (63 - l - d) n ++ frozen_range l d n /\
  frozen_range 0 64 (n + pow2 l) =
    frozen_range (S (l + d)) (63 - l - d) n ++ [((l + d)%nat, n / pow2 (l + d))].
Proof.
  intros Hd He n. pose proof (pow2_pos l). pose proof (pow2_pos d).
  assert (En : n + pow2 l = (2 * e + 1) * pow2 (l + d)).
  { unfold n. rewrite mkpos_alt, pow2_add. lia. }
  assert (En0 : n = 2 * e * pow2 (l + d) + (pow2 (l + d) - pow2 l)) by (rewrite pow2_add in *; lia).
  assert (Hlow : forall i, (i < l)%nat -> Z.testbit n (Z.of_nat i) = false).
  { intros i Hi. unfold n. rewrite testbit_scaled by lia. by rewrite bool_decide_true by lia. }
  assert (Hbit : Z.testbit n (Z.of_nat (l + d)) = false).
  { unfold n. rewrite testbit_scaled, bool_decide_false, mkpos_testbit by lia.
    by rewrite bool_decide_false, bool_decide_true by lia. }
  assert (Ediv : (n + pow2 l) / pow2 (S (l + d)) = n / pow2 (S (l + d))).
  { rewrite En, En0, pow2_S, pow2_add.
    replace ((2 * e + 1) * (pow2 l * pow2 d)) with (e * (2 * (pow2 l * pow2 d)) + pow2 l * pow2 d) by lia.
    replace (2 * e * (pow2 l * pow2 d) + (pow2 l * pow2 d - pow2 l))
      with (e * (2 * (pow2 l * pow2 d)) + (pow2 l * pow2 d - pow2 l)) by lia.
    rewrite !Z.div_add_l, !Z.div_small by nia. done. }
  split.
  - replace 64%nat with (l + (d + S (63 - l - d)))%nat by lia.
    rewrite !frozen_range_app, Nat.add_0_l, frozen_range_snoc. unfold frozen_at.
    rewrite Hbit, app_nil_r, (frozen_range_nil 0 l), app_nil_r; [done|].
    intros. apply Hlow. lia.
  - replace 64%nat with ((l + d) + S (63 - l - d))%nat by lia.
    rewrite frozen_range_app, Nat.add_0_l, frozen_range_snoc. unfold frozen_at.
    rewrite En at 2. rewrite testbit_scaled, bool_decide_false, Z.sub_diag, Z.testbit_odd_0 by lia.
    rewrite (frozen_range_nil 0 (l + d)), app_nil_r.
    + rewrite (frozen_range_ext (S (l + d)) _ _ n) by done. do 3 f_equal.
      rewrite En, Z.div_mul by (rewrite pow2_add; nia). rewrite En0.
      rewrite Z.div_add_l, Z.div_small by (rewrite pow2_add; nia). lia.
    + intros i Hi. rewrite En, testbit_scaled by lia. by rewrite bool_decide_true by lia.
Qed.

Lemma frozen_succ t a : (t < 64)%nat -> 0 <= a ->
  frozen_range 0 64 (mkpos t a) =
    frozen_range (S t) (63 - t) (mkpos t a) ++ frozen_range 0 t (mkpos t a) /\
  frozen_range 0 64 (mkpos t a + 1) =
    frozen_range (S t) (63 - t) (mkpos t a) ++ [(t, mkpos t a / pow2 t)].
Proof.
  intros Ht Ha. destruct (frozen_carry 0 t a) as [E1 E2]; [lia..|].
  rewrite pow2_0, Z.mul_1_r, Nat.add_0_l, Nat.sub_0_r in *. done.
Qed.

(** Root level of a count that is not a power of two, and of one that is. *)
Lemma rootl_between b n : pow2 b < n <= pow2 (S b) -> rootl n = S b.
Proof.
  intros. rewrite pow2_S in *. replace n with (pow2 b + (n - pow2 b - 1) + 1) by lia.
  apply rootl_block. lia.
Qed.

Lemma rootl_pow2 t : rootl (pow2 t) = t.
Proof.
  destruct t as [|t]; [done|]. apply rootl_between. rewrite pow2_S. pose proof (pow2_pos t). lia.
Qed.

(** The full subtrees below level [b] cover the leaves after the last multiple
    of [pow2 b]. *)
Lemma frozen_range_cover b n i : 0 <= n -> (n / pow2 b) * pow2 b <= i < n ->
  exists l k, (l, k) ∈ frozen_range 0 b n /\ k * pow2 l <= i < (k + 1) * pow2 l.
Proof.
  intros Hn. induction b as [|b IH]; intros Hi.
  - rewrite pow2_0, Z.div_1_r in Hi. lia.
  - pose proof (pow2_pos b). cbn [frozen_range Nat.add]. unfold frozen_at.
    rewrite Z.testbit_odd, shiftr_pow2. rewrite pow2_S in Hi.
    replace (n / (2 * pow2 b)) with (n / pow2 b / 2) in Hi
      by (rewrite Z.div_div by lia; f_equal; lia).
    pose proof (Zmod_odd (n / pow2 b)) as Ho. pose proof (Z.div_mod (n / pow2 b) 2 ltac:(lia)).
    destruct (Z.lt_ge_cases i (n / pow2 b * pow2 b)) as [Hlt|Hge].
    + destruct (Z.odd (n / pow2 b)); [|nia]. exists b, (n / pow2 b - 1).
      split; [cbn; by left|]. nia.
    + destruct IH as (l & k & Hin & Hk); [lia|]. exists l, k. split; [|done].
      apply elem_of_app. by right.
Qed.

Lemma frozen_cover n i : 0 <= i < n -> n < U64 ->
  exists l k, (l, k) ∈ frozen_range 0 64 n /\ k * pow2 l <= i < (k + 1) * pow2 l.
Proof.
  intros. apply frozen_range_cover; [lia|]. rewrite u64_pow2 in *.
  rewrite Z.div_small; lia.
Qed.

(** ** Bounds of positions *)
Lemma mkpos_bound l k : 0 <= k -> (k + 1) * pow2 l <= 2 ^ 63 -> mkpos l k < u64_max.
Proof. intros Hk Hb. rewrite mkpos_alt. unfold u64_max, U64. pose proof (pow2_pos l). lia. Qed.

Lemma mkpos_bound_inv l k : 0 <= k -> (k + 1) * pow2 l <= 2 ^ 63 ->
  (l = 0%nat -> k + 1 < 2 ^ 63) -> mkpos l k < u64_max - 1.
Proof.
  intros Hk Hb Hl. rewrite mkpos_alt. unfold u64_max, U64. destruct l as [|l].
  - rewrite pow2_0. lia.
  - rewrite pow2_S in *. pose proof (pow2_pos l). lia.
Qed.

Lemma half_fits l k : 0 <= k -> (k + 1) * pow2 l <= 2 ^ 63 -> (l < 63)%nat ->
  (k / 2 + 1) * pow2 (S l) <= 2 ^ 63.
Proof.
  intros Hk Hb Hl. assert (E : 2 ^ 63 = pow2 (62 - l) * pow2 (S l)).
  { rewrite <- pow2_add. replace (62 - l + S l)%nat with 63%nat by lia. done. }
  rewrite E in *. rewrite !pow2_S in *. pose proof (pow2_pos l).
  apply Z.mul_le_mono_nonneg_r; [lia|].
  assert (k + 1 <= pow2 (62 - l) * 2) by nia.
  pose proof (Z.mul_div_le k 2 ltac:(lia)). lia.
Qed.

Lemma sib_fits l k : 0 <= k -> (k + 1) * pow2 l <= 2 ^ 63 -> (l < 63)%nat ->
  0 <= sib k /\ (sib k + 1) * pow2 l <= 2 ^ 63.
Proof.
  intros Hk Hb Hl. assert (E : 2 ^ 63 = 2 * pow2 (62 - l) * pow2 l).
  { rewrite <- pow2_S, <- pow2_add. replace (S (62 - l) + l)%nat with 63%nat by lia. done. }
  rewrite E in *. pose proof (pow2_pos l).
  assert (k + 1 <= 2 * pow2 (62 - l)) by nia. unfold sib.
  destruct (Z.even k) eqn:Ev.
  - apply Z.even_spec in Ev as [j ->]. split; [lia|]. apply Z.mul_le_mono_nonneg_r; lia.
  - assert (k <> 0) by (intros ->; done). split; [lia|]. apply Z.mul_le_mono_nonneg_r; lia.
Qed.

Lemma odd_div_testbit i j : Z.odd (i / pow2 j) = Z.testbit i (Z.of_nat j).
Proof. by rewrite Z.testbit_odd, shiftr_pow2. Qed.

(** The leaf block that holds index [i] at level [j] fits the widest tree. *)
Lemma ancestor_fits i j : 0 <= i -> i + 1 < 2 ^ 63 -> (j <= 63)%nat ->
  0 <= i / pow2 j /\ (i / pow2 j + 1) * pow2 j <= 2 ^ 63 /\ mkpos j (i / pow2 j) < u64_max - 1.
Proof.
  intros Hi Hb Hj. pose proof (pow2_pos j). assert (Hd : 0 <= i / pow2 j) by (apply Z.div_pos; lia).
  assert (E : 2 ^ 63 = pow2 (63 - j) * pow2 j).
  { rewrite <- pow2_add. replace (63 - j + j)%nat with 63%nat by lia. done. }
  assert (Hlt : i / pow2 j < pow2 (63 - j)) by (apply Z.div_lt_upper_bound; lia).
  assert (Hf : (i / pow2 j + 1) * pow2 j <= 2 ^ 63) by (rewrite E; apply Z.mul_le_mono_nonneg_r; lia).
  split_and!; try done. apply mkpos_bound_inv; try done. intros ->. rewrite pow2_0, Z.div_1_r in *. lia.
Qed.

Lemma pos_counting_from_left_mkpos l k : 0 <= k -> mkpos l k < u64_max -> (l < 63)%nat ->
  pos_counting_from_left (mkpos l k) = Ok k.
Proof.
  intros Hk Hp Hl. unfold pos_counting_from_left. rewrite level_mkpos, shr64_Ok by (done || lia).
  f_equal. replace (Z.of_nat l + 1) with (Z.of_nat (S l)) by lia. rewrite shiftr_pow2. unfold mkpos.
  pose proof (pow2_pos (S l)). pose proof (pow2_pos l).
  rewrite Z.div_add_l, Z.div_small by (rewrite ?pow2_S in *; lia). lia.
Qed.
