(* ===== verification/Hash.v ===== *)
(** * Hashes

    [aptos_crypto] is not part of the repository, so a hash value and the
    hashers are an interface: the operations the code calls, and, in
    [HashValueLaws], what their documentation promises.  The Merkle tree nodes
    of [types/src/proof/mod.rs] are defined on top of the interface. *)
From stdpp Require Import base list numbers strings option.
From Stdlib Require Import ZArith Lia Bool.
From S2P Require Import Prelude.

(** [HashValue]: 32 bytes, with a placeholder for empty accumulator positions
    and one for empty sparse subtrees. *)
Class HashValueOps (HV : Type) := {
  hv_eq_dec :: EqDecision HV;
  hv_bytes : HV -> list Z;
  ACCUMULATOR_PLACEHOLDER_HASH : HV;
  SPARSE_MERKLE_PLACEHOLDER_HASH : HV;
}.

(** [CryptoHasher]: a seeded incremental hasher. *)
Class CryptoHasher (HV : Type) := {
  hasher_state : Type;
  hasher_default : hasher_state;
  hasher_update : hasher_state -> list Z -> hasher_state;
  hasher_finish : hasher_state -> HV;
}.

(** The bit-level view of a hash value the sparse trees use: [iter_bits],
    [common_prefix_bits_len], [from_slice]. *)
Class HashValueBits (HV : Type) := {
  iter_bits : HV -> list bool;
  common_prefix_bits_len : HV -> HV -> Z;
  from_slice : list Z -> option HV;
}.

(** [HashValue::LENGTH], [LENGTH_IN_BITS] and [LENGTH_IN_NIBBLES]. *)
Definition HASH_LENGTH : Z := 32.
Definition LENGTH_IN_BITS : Z := 256.
Definition LENGTH_IN_NIBBLES : Z := 64.

(** The bits of a byte, most significant first, and of a string of bytes. *)
Definition byte_bits (b : Z) : list bool :=
  map (fun i => Z.testbit b (7 - Z.of_nat i)) (seq 0 8).
Definition bytes_bits (bs : list Z) : list bool := flat_map byte_bits bs.

Definition byte_ok (b : Z) : Prop := 0 <= b < 256.

(** The length of the common prefix of two lists. *)
Fixpoint common_prefix_len {A} `{EqDecision A} (xs ys : list A) : nat :=
  match xs, ys with
  | x :: xs, y :: ys => if decide (x = y) then S (common_prefix_len xs ys) else 0
  | _, _ => 0
  end.

(** What the documentation of [HashValue] promises. *)
Class HashValueLaws (HV : Type) `{HashValueOps HV} `{HashValueBits HV} : Prop := {
  hv_bytes_length h : length (hv_bytes h) = 32%nat;
  hv_bytes_ok h : Forall byte_ok (hv_bytes h);
  hv_bytes_inj a b : hv_bytes a = hv_bytes b -> a = b;
  iter_bits_spec h : iter_bits h = bytes_bits (hv_bytes h);
  common_prefix_bits_len_spec a b :
    common_prefix_bits_len a b = Z.of_nat (common_prefix_len (iter_bits a) (iter_bits b));
  from_slice_spec bs h : from_slice bs = Some h <-> hv_bytes h = bs;
}.

Section MerkleTreeInternalNode.
Context {HV : Type} `{HashValueOps HV} `{CryptoHasher HV}.

Record MerkleTreeInternalNode := mkMerkleTreeInternalNode
  { left_child_hash : HV; right_child_hash : HV }.

Definition MerkleTreeInternalNode_hash (n : MerkleTreeInternalNode) : HV :=
  let state := hasher_default in
  let state := hasher_update state (hv_bytes (left_child_hash n)) in
  let state := hasher_update state (hv_bytes (right_child_hash n)) in
  hasher_finish state.

(** [MerkleTreeInternalNode::new(left, right).hash()]. *)
Definition hash_node (left right : HV) : HV :=
  MerkleTreeInternalNode_hash (mkMerkleTreeInternalNode left right).

(** Two different pairs of children, one hashed by [p], one by [q], with the
    same parent: a collision a caller can exhibit. *)
Definition collision (p q : HV * HV -> Prop) : Prop :=
  exists x y, p x /\ q y /\ x <> y /\
    hash_node (fst x) (snd x) = hash_node (fst y) (snd y).

(** Equal parents have equal children, or are a collision. *)
Lemma hash_node_agree (p q : HV * HV -> Prop) a b c d :
  hash_node a b = hash_node c d -> p (a, b) -> q (c, d) ->
  (a = c /\ b = d) \/ collision p q.
Proof.
  intros E Hp Hq. destruct (decide (a = c)), (decide (b = d)); [by left|right..];
    exists (a, b), (c, d); naive_solver.
Qed.

Lemma collision_mono (p q p' q' : HV * HV -> Prop) :
  (forall x, p x -> p' x) -> (forall x, q x -> q' x) -> collision p q -> collision p' q'.
Proof. unfold collision. naive_solver. Qed.
End MerkleTreeInternalNode.
Arguments MerkleTreeInternalNode : clear implicits.
