(* ===== verification/MerkleSpec.v ===== *)
(** * The reference Merkle accumulator

    The tree every accumulator component is compared with: the leaves of a list
    padded with placeholders to the next power of two, where an empty subtree of
    any height hashes to the placeholder.  [node_hash L l k] is the hash of the
    [k]-th node of level [l]. *)
From stdpp Require Import base list numbers strings option.
From Stdlib Require Import ZArith Lia Bool.
From S2P Require Import Prelude Position Hash.

Section Spec.
Context {HV : Type} `{HashValueOps HV} `{CryptoHasher HV}.
Implicit Types (L : list HV) (l : nat) (k n : Z).

Definition zlen (L : list HV) : Z := Z.of_nat (length L).

Fixpoint node_hash L l k : HV :=
  if zlen L <=? k * pow2 l then ACCUMULATOR_PLACEHOLDER_HASH
  else match l with
       | O => default ACCUMULATOR_PLACEHOLDER_HASH (L !! Z.to_nat k)
       | S l => hash_node (node_hash L l (2 * k)) (node_hash L l (2 * k + 1))
       end.

Definition spec_root L : HV := node_hash L (rootl (zlen L)) 0.

(** Hashes at a list of nodes, and at the roots of the full subtrees. *)
Definition hashes_at L (nodes : list (nat * Z)) : list HV :=
  map (fun x => node_hash L (fst x) (snd x)) nodes.
Definition frozen_hashes L : list HV := hashes_at L (frozen_range 0 64 (zlen L)).

(** The pairs of children the reference tree hashes. *)
Definition tree_pair L (x : HV * HV) : Prop :=
  exists l k, 0 <= k /\ k * pow2 (S l) < zlen L /\
    x = (node_hash L l (2 * k), node_hash L l (2 * k + 1)).

Lemma hashes_at_cat L a b : hashes_at L (a ++ b) = hashes_at L a ++ hashes_at L b.
Proof. apply map_app. Qed.

Lemma hashes_at_length L nodes : length (hashes_at L nodes) = length nodes.
Proof. apply length_map. Qed.

Lemma zlen_app L L' : zlen (L ++ L') = zlen L + zlen L'.
Proof. unfold zlen. rewrite length_app. lia. Qed.

Lemma zlen_nonneg L : 0 <= zlen L.
Proof. unfold zlen. lia. Qed.

Lemma node_hash_placeholder L l k : zlen L <= k * pow2 l ->
  node_hash L l k = ACCUMULATOR_PLACEHOLDER_HASH.
Proof. intros Hle. destruct l; cbn [node_hash]; by rewrite (proj2 (Z.leb_le _ _)). Qed.

Lemma node_hash_S L l k : k * pow2 (S l) < zlen L ->
  node_hash L (S l) k = hash_node (node_hash L l (2 * k)) (node_hash L l (2 * k + 1)).
Proof. intros Hlt. cbn [node_hash]. by rewrite (proj2 (Z.leb_gt _ _)). Qed.

Lemma node_hash_0 L k h : 0 <= k -> L !! Z.to_nat k = Some h -> node_hash L 0 k = h.
Proof.
  intros Hk Hl. cbn [node_hash]. pose proof (lookup_lt_Some _ _ _ Hl).
  rewrite pow2_0, (proj2 (Z.leb_gt _ _)) by (unfold zlen; lia). by rewrite Hl.
Qed.

(** A parent from its children, whichever side is asked for. *)
Lemma node_hash_even L l k : 0 <= k -> Z.even k = true -> k * pow2 l < zlen L ->
  node_hash L (S l) (k / 2) = hash_node (node_hash L l k) (node_hash L l (k + 1)).
Proof.
  intros Hk He Hlt. apply Z.even_spec in He as [j ->].
  rewrite (Z.mul_comm 2 j), Z.div_mul, Z.mul_comm by lia. apply node_hash_S.
  rewrite pow2_S. lia.
Qed.

Lemma node_hash_odd L l k : 0 <= k -> Z.odd k = true -> (k - 1) * pow2 l < zlen L ->
  node_hash L (S l) (k / 2) = hash_node (node_hash L l (k - 1)) (node_hash L l k).
Proof.
  intros Hk Ho Hlt. apply Z.odd_spec in Ho as [j ->].
  replace ((2 * j + 1) / 2) with j by (Z.to_euclidean_division_equations; lia).
  replace (2 * j + 1 - 1) with (2 * j) in * by lia. apply node_hash_S. rewrite pow2_S. lia.
Qed.

(** Hashes of full subtrees are stable under appending leaves. *)
Lemma node_hash_app L L' l k : 0 <= k -> (k + 1) * pow2 l <= zlen L ->
  node_hash (L ++ L') l k = node_hash L l k.
Proof.
  revert k. induction l as [|l IH]; intros k Hk Hle; pose proof (zlen_nonneg L').
  - rewrite pow2_0 in Hle. destruct (lookup_lt_is_Some_2 L (Z.to_nat k)) as [h Hh];
      [unfold zlen in *; lia|].
    rewrite (node_hash_0 L k h), (node_hash_0 (L ++ L') k h); try done.
    by apply lookup_app_l_Some.
  - rewrite pow2_S in Hle. pose proof (pow2_pos l).
    rewrite !node_hash_S by (rewrite ?zlen_app, pow2_S; nia).
    by rewrite !IH by nia.
Qed.

Lemma hashes_at_app L L' nodes :
  (forall l k, (l, k) ∈ nodes -> 0 <= k /\ (k + 1) * pow2 l <= zlen L) ->
  hashes_at (L ++ L') nodes = hashes_at L nodes.
Proof.
  intros Hf. apply map_ext_in. intros [l k] Hin. apply list_elem_of_In in Hin.
  destruct (Hf l k Hin). by apply node_hash_app.
Qed.

(** Any level that covers all leaves has the root as first node once padded:
    the root itself is at the least such level. *)
Lemma spec_root_nil : spec_root [] = ACCUMULATOR_PLACEHOLDER_HASH.
Proof. reflexivity. Qed.

(** One more leaf at index [zlen L]. *)
Lemma node_hash_snoc L h : node_hash (L ++ [h]) 0 (zlen L) = h.
Proof.
  apply node_hash_0; [apply zlen_nonneg|]. unfold zlen. rewrite Nat2Z.id.
  by apply list_lookup_middle.
Qed.

(** *** Binding

    A node determines the leaves below it, unless two different pairs of
    children that the trees hash have the same hash. *)
Lemma tree_pair_S L l k : 0 <= k -> k * pow2 (S l) < zlen L ->
  tree_pair L (node_hash L l (2 * k), node_hash L l (2 * k + 1)).
Proof. intros. by exists l, k. Qed.

Lemma node_hash_binding L L' l k :
  0 <= k -> (k + 1) * pow2 l <= zlen L -> (k + 1) * pow2 l <= zlen L' ->
  node_hash L l k = node_hash L' l k ->
  (forall i, k * pow2 l <= i < (k + 1) * pow2 l -> L !! Z.to_nat i = L' !! Z.to_nat i) \/
  collision (tree_pair L) (tree_pair L').
Proof.
  revert k. induction l as [|l IH]; intros k Hk HL HL' E.
  - rewrite pow2_0 in *. left. intros i Hi. replace i with k by lia.
    destruct (lookup_lt_is_Some_2 L (Z.to_nat k)) as [h Hh]; [unfold zlen in *; lia|].
    destruct (lookup_lt_is_Some_2 L' (Z.to_nat k)) as [h' Hh']; [unfold zlen in *; lia|].
    rewrite (node_hash_0 L k h), (node_hash_0 L' k h') in E by done. congruence.
  - pose proof (pow2_pos l). rewrite pow2_S in *. rewrite !node_hash_S in E by (rewrite pow2_S; nia).
    destruct (hash_node_agree _ _ _ _ _ _ E
                (tree_pair_S L l k Hk ltac:(rewrite pow2_S; nia))
                (tree_pair_S L' l k Hk ltac:(rewrite pow2_S; nia))) as [[El Er]|]; [|by right].
    destruct (IH (2 * k)) as [Hl|]; [nia..|done| |by right].
    destruct (IH (2 * k + 1)) as [Hr|]; [nia..|done| |by right].
    left. intros i Hi. destruct (Z.lt_ge_cases i ((2 * k + 1) * pow2 l)); [apply Hl|apply Hr]; nia.
Qed.

(** The roots of the full subtrees determine all the leaves. *)
Lemma frozen_binding L L' : zlen L <= zlen L' -> zlen L < U64 ->
  frozen_hashes L = hashes_at L' (frozen_range 0 64 (zlen L)) ->
  L `prefix_of` L' \/ collision (tree_pair L) (tree_pair L').
Proof.
  intros Hle HU E.
  assert (Hall : forall nodes, hashes_at L nodes = hashes_at L' nodes ->
    (forall l k, (l, k) ∈ nodes -> 0 <= k /\ (k + 1) * pow2 l <= zlen L) ->
    (forall l k i, (l, k) ∈ nodes -> k * pow2 l <= i < (k + 1) * pow2 l ->
      L !! Z.to_nat i = L' !! Z.to_nat i) \/ collision (tree_pair L) (tree_pair L')).
  { induction nodes as [|[l0 k0] nodes IH]; intros Eh Hn.
    - left. intros l k i Hin%not_elem_of_nil. done.
    - injection Eh as Eh0 Eh. destruct (Hn l0 k0) as [Hk Hb]; [by left|].
      destruct (node_hash_binding L L' l0 k0) as [Hl|]; [done|done|lia|done| |by right].
      destruct IH as [Hr|]; [done|intros; apply Hn; by right| |by right].
      left. intros l k i [[= -> ->]|Hin]%elem_of_cons Hi; [by apply Hl|by apply (Hr l k)]. }
  destruct (Hall (frozen_range 0 64 (zlen L))) as [Hi|]; [done| | |by right].
  { intros l k Hin. pose proof (zlen_nonneg L).
    by destruct (frozen_range_In 0 64 (zlen L) l k) as (_ & _ & ? & ?). }
  left. exists (drop (length L) L'). apply list_eq. intros i.
  destruct (decide (i < length L)%nat) as [Hlt|Hge].
  - rewrite lookup_app_l by done.
    destruct (frozen_cover (zlen L) (Z.of_nat i)) as (l & k & Hin & Hk);
      [unfold zlen; lia|done|].
    specialize (Hi l k (Z.of_nat i) Hin Hk). rewrite Nat2Z.id in Hi. done.
  - rewrite lookup_app_r, lookup_drop by lia. f_equal. lia.
Qed.
End Spec.
