(* ===== verification/InMemoryAccumulator.v ===== *)
(** * The in-memory Merkle accumulator

    Model of [types/src/proof/accumulator/mod.rs]: an accumulator that keeps
    only the roots of its full subtrees. *)
From stdpp Require Import base list numbers strings option.
From Stdlib Require Import ZArith Lia Bool.
From S2P Require Import Prelude Position Hash MerkleSpec.

Section Accumulator.
Context {HV : Type} `{HashValueOps HV} `{CryptoHasher HV}.

(** [struct InMemoryAccumulator<H>]. *)
Record InMemoryAccumulator := mkInMemoryAccumulator
  { frozen_subtree_roots : list HV; num_leaves : LeafCount; root_hash : HV }.

(** The [while bitmap > 0] loop of [compute_root_hash]; a word has 64 bits, so
    the loop runs at most 64 times. *)
Fixpoint compute_root_loop (fuel : nat) (bitmap : Z) (current_hash : HV)
    (frozen_subtree_iter : list HV) : outcome HV :=
  if 0 <? bitmap then
    match fuel with
    | O => Panic "out of fuel"
    | S fuel =>
        if negb (Z.land bitmap 1 =? 0) then
          match frozen_subtree_iter with
          | [] => Panic "This frozen subtree should exist."
          | root :: iter =>
              compute_root_loop fuel (Z.shiftr bitmap 1) (hash_node root current_hash) iter
          end
        else
          compute_root_loop fuel (Z.shiftr bitmap 1)
            (hash_node current_hash ACCUMULATOR_PLACEHOLDER_HASH) frozen_subtree_iter
    end
  else Ok current_hash.

Definition compute_root_hash (frozen_subtree_roots : list HV) (num_leaves : LeafCount)
  : outcome HV :=
  match frozen_subtree_roots with
  | [] => Ok ACCUMULATOR_PLACEHOLDER_HASH
  | [root] => Ok root
  | _ =>
      bitmap ← shr64 num_leaves (trailing_zeros 64 num_leaves);
      compute_root_loop 64 bitmap ACCUMULATOR_PLACEHOLDER_HASH (rev frozen_subtree_roots)
  end.

Definition new (frozen_subtree_roots : list HV) (num_leaves : LeafCount)
  : outcome InMemoryAccumulator :=
  _ ← ensure (Z.of_nat (length frozen_subtree_roots) =? count_ones num_leaves)
        "The number of frozen subtrees does not match the number of leaves.";
  root_hash ← compute_root_hash frozen_subtree_roots num_leaves;
  Ok (mkInMemoryAccumulator frozen_subtree_roots num_leaves root_hash).

Definition new_empty_with_root_hash (root_hash : HV) : InMemoryAccumulator :=
  mkInMemoryAccumulator [] 0 root_hash.

Definition new_empty : InMemoryAccumulator :=
  new_empty_with_root_hash ACCUMULATOR_PLACEHOLDER_HASH.

(** One iteration of the merge loop of [append_one]. *)
Definition merge_last_two (roots : list HV) : outcome (list HV) :=
  right ← expect (vec_pop roots) "Invalid accumulator.";
  left ← expect (vec_pop (snd right)) "Invalid accumulator.";
  Ok (snd left ++ [hash_node (fst left) (fst right)]).

Fixpoint merge_loop (n : nat) (roots : list HV) : outcome (list HV) :=
  match n with
  | O => Ok roots
  | S n => roots ← merge_last_two roots; merge_loop n roots
  end.

Definition append_one (frozen_subtree_roots : list HV) (num_existing_leaves : LeafCount)
    (leaf : HV) : outcome (list HV) :=
  let frozen_subtree_roots := frozen_subtree_roots ++ [leaf] in
  let num_trailing_ones := trailing_zeros 64 (not64 num_existing_leaves) in
  merge_loop (Z.to_nat num_trailing_ones) frozen_subtree_roots.

Fixpoint append_loop (leaves : list HV) (roots : list HV) (num_leaves : LeafCount)
  : outcome (list HV * LeafCount) :=
  match leaves with
  | [] => Ok (roots, num_leaves)
  | leaf :: leaves =>
      roots ← append_one roots num_leaves leaf;
      num_leaves ← add64 num_leaves 1;
      append_loop leaves roots num_leaves
  end.

Definition append (self : InMemoryAccumulator) (leaves : list HV)
  : outcome InMemoryAccumulator :=
  r ← append_loop leaves (frozen_subtree_roots self) (num_leaves self);
  expect_res (new (fst r) (snd r))
    "Appending leaves to a valid accumulator should create another valid accumulator.".

Definition default_accumulator : outcome InMemoryAccumulator :=
  expect_res (new [] 0) "Constructing empty accumulator should work.".

Definition from_leaves (leaves : list HV) : outcome InMemoryAccumulator :=
  acc ← default_accumulator; append acc leaves.

(** The inner [while current_num_leaves & mask != 0] of [append_subtrees]:
    combine the new subtree with the full subtrees it completes.  The mask is
    a single bit that is shifted out after at most 64 iterations. *)
Fixpoint carry_loop (fuel : nat) (current_num_leaves mask : Z) (current_hash : HV)
    (roots : list HV) : outcome (Z * HV * list HV) :=
  if negb (Z.land current_num_leaves mask =? 0) then
    match fuel with
    | O => Panic "out of fuel"
    | S fuel =>
        left ← expect (vec_pop roots) "This frozen subtree must exist.";
        carry_loop fuel current_num_leaves (shl64_wrap mask 1)
          (hash_node (fst left) current_hash) (snd left)
    end
  else Ok (mask, current_hash, roots).

(** The outer [while remaining_new_leaves >= rightmost_frozen_subtree_size];
    every iteration takes one subtree from the iterator. *)
Fixpoint append_subtrees_loop (subtree_iter : list HV) (roots : list HV)
    (current_num_leaves remaining_new_leaves size : Z)
  : outcome (list HV * list HV * Z * Z) :=
  if size <=? remaining_new_leaves then
    match subtree_iter with
    | [] => Err "Too few subtrees."
    | current_hash :: subtree_iter =>
        c ← carry_loop 64 current_num_leaves size current_hash roots;
        let '(mask, current_hash, roots) := c in
        let roots := roots ++ [current_hash] in
        current ← add64 current_num_leaves size;
        remaining ← sub64 remaining_new_leaves size;
        append_subtrees_loop subtree_iter roots current remaining mask
    end
  else Ok (subtree_iter, roots, current_num_leaves, remaining_new_leaves).

Definition append_subtrees (self : InMemoryAccumulator) (subtrees : list HV)
    (num_new_leaves : LeafCount) : outcome InMemoryAccumulator :=
  room ← sub64 MAX_ACCUMULATOR_LEAVES (num_leaves self);
  _ ← ensure (num_new_leaves <=? room) "Too many new leaves.";
  if num_leaves self =? 0 then new subtrees num_new_leaves
  else
    size ← shl64 1 (trailing_zeros 64 (num_leaves self));
    r ← append_subtrees_loop subtrees (frozen_subtree_roots self) (num_leaves self)
          num_new_leaves size;
    let '(subtree_iter, roots, current_num_leaves, remaining_new_leaves) := r in
    current_num_leaves ← add64 current_num_leaves remaining_new_leaves;
    new (roots ++ subtree_iter) current_num_leaves.

Definition version (self : InMemoryAccumulator) : Z :=
  if num_leaves self =? 0 then 0 else num_leaves self - 1.

Definition is_empty (self : InMemoryAccumulator) : bool := num_leaves self =? 0.

(** [impl PartialEq]. *)
Definition accumulator_eqb (self other : InMemoryAccumulator) : bool :=
  (num_leaves self =? num_leaves other) &&
  bool_decide (root_hash self = root_hash other) &&
  bool_decide (frozen_subtree_roots self = frozen_subtree_roots other).
End Accumulator.
Arguments InMemoryAccumulator : clear implicits.

(** ** Correctness against the reference tree *)
Section Correct.
Context {HV : Type} `{HashValueOps HV} `{CryptoHasher HV}.
Implicit Types (L : list HV) (acc : InMemoryAccumulator HV).

(** The accumulator that holds exactly the leaves [L]. *)
Definition acc_of L : InMemoryAccumulator HV :=
  mkInMemoryAccumulator (frozen_hashes L) (zlen L) (spec_root L).

(** *** [compute_root_hash] *)
Lemma compute_root_loop_spec L c : forall fuel l,
  let n := zlen L in let m := n / pow2 l in
  (c <= fuel)%nat -> m < pow2 c -> (c = 0%nat \/ pow2 (c - 1) <= m) ->
  (Z.odd m = true \/ m * pow2 l < n) ->
  compute_root_loop fuel m (node_hash L l m) (rev (hashes_at L (frozen_range l c n))) =
  Ok (node_hash L (l + c) 0).
Proof.
  induction c as [|c IH]; intros fuel l n m Hf Hm Hlo Hodd; pose proof (pow2_pos l);
    pose proof (zlen_nonneg L); assert (Hm0 : 0 <= m) by (apply Z.div_pos; lia).
  - rewrite pow2_0 in Hm. replace m with 0 by lia. destruct fuel; cbn; by rewrite Nat.add_0_r.
  - destruct fuel as [|fuel]; [lia|]. destruct Hlo as [|Hlo]; [done|].
    rewrite Nat.sub_succ, Nat.sub_0_r in Hlo. rewrite pow2_S in Hm. pose proof (pow2_pos c).
    assert (Hmn : m * pow2 l <= n < (m + 1) * pow2 l).
    { subst m. pose proof (Z.mul_div_le n (pow2 l) ltac:(lia)).
      pose proof (Z.mul_succ_div_gt n (pow2 l) ltac:(lia)). lia. }
    assert (Hdiv : n / pow2 (S l) = m / 2).
    { subst m. rewrite pow2_S, Z.mul_comm, Z.div_div; lia. }
    assert (Hhalf : m / 2 < pow2 c /\ (c = 0%nat \/ pow2 (c - 1) <= m / 2)).
    { split; [Z.to_euclidean_division_equations; lia|]. destruct c as [|c]; [by left|right].
      rewrite Nat.sub_succ, Nat.sub_0_r. rewrite pow2_S in *.
      Z.to_euclidean_division_equations. lia. }
    cbn [compute_root_loop]. rewrite (proj2 (Z.ltb_lt 0 m)) by lia.
    rewrite shiftr_1, land_1_odd, negb_involutive.
    specialize (IH fuel (S l)). cbn zeta in IH. fold n in IH. rewrite Hdiv in IH.
    rewrite Nat.add_succ_comm in IH. unfold hashes_at in *.
    rewrite frozen_range_snoc, map_app, rev_app_distr. unfold frozen_at.
    rewrite Z.testbit_odd, shiftr_pow2. fold m. destruct (Z.odd m) eqn:Eo.
    + cbn [map rev app fst snd]. rewrite <- node_hash_odd by (lia || done || (fold n; nia)).
      apply IH; [lia|tauto..|]. right. rewrite pow2_S. apply Z.odd_spec in Eo as [q Eq].
      replace (m / 2) with q by (Z.to_euclidean_division_equations; lia). nia.
    + destruct Hodd as [|Hlt]; [done|]. cbn [map rev app].
      assert (He : Z.even m = true) by (by rewrite <- Z.negb_odd, Eo).
      rewrite <- (node_hash_placeholder L l (m + 1)) by (fold n; lia).
      rewrite <- node_hash_even by (lia || done).
      apply IH; [lia|tauto..|]. right. rewrite pow2_S. apply Z.even_spec in He as [q Eq].
      replace (m / 2) with q by (Z.to_euclidean_division_equations; lia). nia.
Qed.

Lemma frozen_hashes_length L : zlen L < U64 ->
  Z.of_nat (length (frozen_hashes L)) = count_ones (zlen L).
Proof.
  intros. unfold frozen_hashes, hashes_at. rewrite length_map. apply frozen_length.
  pose proof (zlen_nonneg L). lia.
Qed.

(** The full subtrees of [(2 * q + 1) * pow2 t] leaves start at level [t]. *)
Lemma frozen_odd_part t q b : 0 <= q -> (t + b <= 64)%nat ->
  (2 * q + 1) * pow2 t < pow2 (t + b) ->
  frozen_range 0 64 ((2 * q + 1) * pow2 t) = frozen_range t b ((2 * q + 1) * pow2 t).
Proof.
  intros Hq Hb Hlt. pose proof (pow2_pos t).
  replace 64%nat with (t + (b + (64 - t - b)))%nat by lia.
  rewrite !frozen_range_app, !Nat.add_0_l.
  rewrite (frozen_range_zero (t + b)) by nia.
  rewrite (frozen_range_nil 0 t), app_nil_r; [done|].
  intros i Hi. replace ((2 * q + 1) * pow2 t) with ((2 * q + 1) * pow2 t + 0) by lia.
  rewrite testbit_block, bool_decide_true by lia. apply Z.testbit_0_l.
Qed.

(** With at least two full subtrees the root is computed by the loop. *)
Lemma compute_root_hash_long roots n t : (2 <= length roots)%nat -> (t < 64)%nat ->
  trailing_zeros 64 n = Z.of_nat t ->
  compute_root_hash roots n =
  compute_root_loop 64 (n / pow2 t) ACCUMULATOR_PLACEHOLDER_HASH (rev roots).
Proof.
  intros Hl Ht E. destruct roots as [|x [|y rest]]; [cbn in Hl; lia..|].
  unfold compute_root_hash. rewrite E, shr64_Ok by lia. osimpl. by rewrite shiftr_pow2.
Qed.

Lemma compute_root_hash_spec L : zlen L < U64 ->
  compute_root_hash (frozen_hashes L) (zlen L) = Ok (spec_root L).
Proof.
  intros HU. pose proof (frozen_hashes_length L HU) as Hlen. pose proof (zlen_nonneg L).
  destruct (Z.eq_dec (zlen L) 0) as [E0|E0].
  { unfold spec_root. rewrite E0 in *. destruct (frozen_hashes L); [|cbn in Hlen; lia].
    rewrite node_hash_placeholder by (rewrite E0; done). done. }
  destruct (odd_part (zlen L)) as (t & q & Hq & En); [lia|].
  destruct (top_bit (2 * q + 1)) as (b & r & Hr & Eb); [lia|].
  assert (Hb : (t + S b <= 64)%nat).
  { assert (t + b < 64)%nat; [|lia]. apply pow2_lt_inv. rewrite <- u64_pow2, pow2_add.
    rewrite En, Eb in HU. pose proof (pow2_pos t). nia. }
  assert (Hlt : (2 * q + 1) * pow2 t < pow2 (t + S b)).
  { rewrite pow2_add, pow2_S. pose proof (pow2_pos t). nia. }
  pose proof (frozen_odd_part t q (S b) Hq Hb Hlt) as Ef. rewrite <- En in Ef.
  pose proof (pow2_pos t).
  assert (Ediv : zlen L / pow2 t = 2 * q + 1) by (rewrite En, Z.div_mul; lia).
  destruct (Z.eq_dec q 0) as [->|Hq0].
  - (* a power of two: one full subtree, the root *)
    assert (b = 0%nat) as -> by (destruct b; [done|rewrite pow2_S in *; pose proof (pow2_pos b); lia]).
    unfold frozen_hashes, spec_root. rewrite Ef. cbn. rewrite Nat.add_0_r. unfold frozen_at.
    rewrite Z.testbit_odd, shiftr_pow2, Ediv. cbn.
    assert (En' : zlen L = pow2 t) by lia. by rewrite En', rootl_pow2.
  - assert (Hc : 2 <= count_ones (zlen L)).
    { rewrite En, count_ones_mul_pow2, count_ones_succ_double by done.
      destruct q as [|p|]; try lia. cbn. assert (1 <= pos_count_ones p); [|lia].
      clear. induction p; cbn; lia. }
    assert (Etz : trailing_zeros 64 (zlen L) = Z.of_nat t)
      by (rewrite En; by apply trailing_zeros_spec).
    rewrite (compute_root_hash_long _ _ t) by (lia || done).
    rewrite <- (node_hash_placeholder L t (zlen L / pow2 t)) at 1 by lia.
    unfold frozen_hashes. rewrite Ef, compute_root_loop_spec.
    + unfold spec_root. rewrite Nat.add_succ_r, (rootl_between (t + b)); [done|].
      assert (0 < r) by (destruct b; [rewrite pow2_0 in *|rewrite pow2_S in *]; lia).
      rewrite pow2_S, pow2_add, En, Eb. nia.
    + lia.
    + rewrite Ediv, pow2_S. lia.
    + right. rewrite Nat.sub_succ, Nat.sub_0_r. lia.
    + left. by rewrite Ediv, Z.add_comm, Z.odd_add_mul_2.
Qed.

Lemma new_spec L : zlen L < U64 -> new (frozen_hashes L) (zlen L) = Ok (acc_of L).
Proof.
  intros HU. unfold new. rewrite frozen_hashes_length by done.
  rewrite ensure_true by (apply Z.eqb_refl). osimpl.
  by rewrite compute_root_hash_spec.
Qed.

(** *** [append_one] and [append] *)
Lemma merge_loop_spec L n d : forall base j,
  0 <= n < zlen L -> (forall i, (i < d)%nat -> Z.testbit n (Z.of_nat (j + i)) = true) ->
  merge_loop d (base ++ hashes_at L (frozen_range j d n) ++ [node_hash L j (n / pow2 j)]) =
  Ok (base ++ [node_hash L (j + d) (n / pow2 (j + d))]).
Proof.
  induction d as [|d IH]; intros base j Hn Hb.
  - cbn. by rewrite Nat.add_0_r.
  - pose proof (pow2_pos j). cbn [merge_loop]. rewrite frozen_range_snoc. unfold frozen_at.
    assert (Hj : Z.testbit n (Z.of_nat j) = true) by (rewrite <- (Nat.add_0_r j); apply Hb; lia).
    rewrite Hj, hashes_at_cat.
    change (hashes_at L [(j, n / pow2 j - 1)]) with [node_hash L j (n / pow2 j - 1)].
    set (m := n / pow2 j) in *. unfold merge_last_two.
    rewrite <- !app_assoc, !app_assoc, vec_pop_snoc. cbn [expect]. osimpl.
    rewrite vec_pop_snoc. cbn [expect]. osimpl.
    assert (Hm : 0 <= m) by (apply Z.div_pos; lia).
    assert (Hmn : m * pow2 j <= n).
    { subst m. pose proof (Z.mul_div_le n (pow2 j) ltac:(lia)). lia. }
    rewrite <- node_hash_odd; [|lia| |nia].
    2: { rewrite Z.testbit_odd, shiftr_pow2 in Hj. done. }
    assert (Em : m / 2 = n / pow2 (S j)).
    { subst m. rewrite pow2_S, Z.mul_comm, Z.div_div; lia. }
    rewrite Em, <- app_assoc. rewrite (IH base (S j)); [by rewrite Nat.add_succ_comm|done|].
    intros i Hi. rewrite Nat.add_succ_comm. apply Hb. lia.
Qed.

Lemma append_one_spec L leaf : zlen L < u64_max ->
  append_one (frozen_hashes L) (zlen L) leaf = Ok (frozen_hashes (L ++ [leaf])).
Proof.
  intros HU. pose proof (zlen_nonneg L) as Hn0.
  assert (Hf : frozen_hashes L = hashes_at (L ++ [leaf]) (frozen_range 0 64 (zlen L))).
  { unfold frozen_hashes. symmetry. apply hashes_at_app. intros l k Hin.
    destruct (frozen_range_In 0 64 (zlen L) l k) as (_ & _ & ? & ?); done. }
  rewrite Hf. unfold frozen_hashes. rewrite zlen_app. change (zlen [leaf]) with 1.
  unfold append_one. rewrite <- (node_hash_snoc L leaf) at 2. set (L' := L ++ [leaf]) in *.
  assert (Hn : 0 <= zlen L < zlen L') by (unfold L'; rewrite zlen_app; change (zlen [leaf]) with 1; lia).
  clear Hf. clearbody L'. destruct (mkpos_surj (zlen L)) as (t & a & Ha & En); [lia|].
  rewrite En in *. pose proof (mkpos_level_lt t a Ha HU) as Ht.
  destruct (frozen_succ t a Ht Ha) as [-> ->].
  fold (level (mkpos t a)). rewrite level_mkpos, Nat2Z.id by done.
  replace (node_hash L' 0 (mkpos t a)) with (node_hash L' 0 (mkpos t a / pow2 0))
    by (by rewrite pow2_0, Z.div_1_r).
  rewrite !hashes_at_cat, <- app_assoc. rewrite merge_loop_spec; [done|lia|].
  intros i Hi. rewrite mkpos_testbit by lia. by rewrite bool_decide_true by lia.
Qed.

Lemma append_loop_spec leaves : forall L, zlen L + zlen leaves < U64 ->
  append_loop leaves (frozen_hashes L) (zlen L) =
  Ok (frozen_hashes (L ++ leaves), zlen (L ++ leaves)).
Proof.
  induction leaves as [|leaf leaves IH]; intros L HU.
  - by rewrite app_nil_r.
  - change (zlen (leaf :: leaves)) with (zlen ([leaf] ++ leaves)) in HU.
    rewrite zlen_app in HU. change (zlen [leaf]) with 1 in HU.
    pose proof (zlen_nonneg leaves). cbn [append_loop].
    rewrite append_one_spec by (unfold u64_max; lia). osimpl.
    rewrite add64_Ok by lia. osimpl.
    change (leaf :: leaves) with ([leaf] ++ leaves).
    rewrite app_assoc. rewrite <- (IH (L ++ [leaf])).
    + rewrite zlen_app. done.
    + rewrite zlen_app. change (zlen [leaf]) with 1. lia.
Qed.

Lemma append_spec L leaves : zlen L + zlen leaves < U64 ->
  append (acc_of L) leaves = Ok (acc_of (L ++ leaves)).
Proof.
  intros HU. unfold append. cbn [frozen_subtree_roots num_leaves acc_of].
  rewrite append_loop_spec by done. osimpl. rewrite new_spec; [done|].
  by rewrite zlen_app.
Qed.

(** *** [append_subtrees] *)
Lemma carry_loop_spec L n d : forall fuel base j,
  (d <= fuel)%nat -> (j + d < 64)%nat -> 0 <= n < zlen L ->
  (forall i, (i < d)%nat -> Z.testbit n (Z.of_nat (j + i)) = true) ->
  Z.testbit n (Z.of_nat (j + d)) = false ->
  carry_loop fuel n (pow2 j) (node_hash L j (n / pow2 j))
    (base ++ hashes_at L (frozen_range j d n)) =
  Ok (pow2 (j + d), node_hash L (j + d) (n / pow2 (j + d)), base).
Proof.
  induction d as [|d IH]; intros fuel base j Hf Hj Hn Hb Hc.
  - rewrite Nat.add_0_r in *. cbn. rewrite app_nil_r.
    destruct fuel; cbn [carry_loop]; by rewrite land_pow2_eq0, Hc.
  - destruct fuel as [|fuel]; [lia|]. pose proof (pow2_pos j). cbn [carry_loop].
    assert (Hj0 : Z.testbit n (Z.of_nat j) = true) by (rewrite <- (Nat.add_0_r j); apply Hb; lia).
    rewrite land_pow2_eq0, Hj0. cbn [negb].
    rewrite frozen_range_snoc. unfold frozen_at. rewrite Hj0, hashes_at_cat.
    change (hashes_at L [(j, n / pow2 j - 1)]) with [node_hash L j (n / pow2 j - 1)].
    rewrite app_assoc, vec_pop_snoc. cbn [expect]. osimpl. set (m := n / pow2 j) in *.
    assert (Hm : 0 <= m) by (apply Z.div_pos; lia).
    assert (Hmn : m * pow2 j <= n) by (pose proof (Z.mul_div_le n (pow2 j) ltac:(lia)); lia).
    rewrite <- node_hash_odd; [|lia| |nia].
    2: { rewrite Z.testbit_odd, shiftr_pow2 in Hj0. done. }
    assert (Em : m / 2 = n / pow2 (S j)).
    { subst m. rewrite pow2_S, Z.mul_comm, Z.div_div; lia. }
    rewrite Em, shl64_pow2 by lia. rewrite IH; [by rewrite Nat.add_succ_comm|lia|lia|done|..].
    + intros i Hi. rewrite Nat.add_succ_comm. apply Hb. lia.
    + by rewrite Nat.add_succ_comm.
Qed.

(** An odd number ends in at least one 1-bit and then a 0-bit. *)
Lemma odd_trailing_ones a : 0 <= a -> exists d e, (0 < d)%nat /\ 0 <= e /\ 2 * a + 1 = mkpos d e.
Proof.
  intros Ha. destruct (mkpos_surj a Ha) as (d & e & He & ->). exists (S d), e.
  split_and!; [lia|done|]. rewrite !mkpos_alt, pow2_S. lia.
Qed.

(** One iteration of the outer loop: the new subtree completes the rightmost
    full subtree. *)
Lemma carry_step L l a :
  0 <= a -> (2 * a + 1) * pow2 l + pow2 l <= 2 ^ 63 ->
  (2 * a + 1) * pow2 l < zlen L ->
  exists l' a', 0 <= a' /\ (2 * a + 1) * pow2 l + pow2 l = (2 * a' + 1) * pow2 l' /\
    exists h roots,
      carry_loop 64 ((2 * a + 1) * pow2 l) (pow2 l) (node_hash L l (2 * a + 1))
        (hashes_at L (frozen_range 0 64 ((2 * a + 1) * pow2 l))) = Ok (pow2 l', h, roots) /\
      roots ++ [h] = hashes_at L (frozen_range 0 64 ((2 * a + 1) * pow2 l + pow2 l)).
Proof.
  intros Ha Hle Hlt. destruct (odd_trailing_ones a Ha) as (d & e & Hd & He & E).
  pose proof (pow2_pos l). rewrite E in *.
  assert (EN : mkpos d e * pow2 l + pow2 l = (2 * e + 1) * pow2 (l + d))
    by (rewrite mkpos_alt, pow2_add; lia).
  assert (Hld : (l + d < 64)%nat) by (apply (odd_level_lt (l + d) e); lia).
  destruct (frozen_carry l d e Hld He) as [E1 E2].
  exists (l + d)%nat, e. split_and!; [done..|]. rewrite E1, E2, !hashes_at_cat.
  set (n := mkpos d e * pow2 l) in *.
  exists (node_hash L (l + d) (n / pow2 (l + d))),
    (hashes_at L (frozen_range (S (l + d)) (63 - l - d) n)). split; [|done].
  replace (mkpos d e) with (n / pow2 l) by (unfold n; rewrite Z.div_mul; lia).
  apply carry_loop_spec; try lia; apply scaled_ones.
Qed.

Lemma append_subtrees_loop_spec L cur rem nodes : sib_path cur rem nodes ->
  forall l a, cur = (2 * a + 1) * pow2 l -> 0 <= a -> 0 <= rem ->
  zlen L = cur + rem -> cur + rem <= 2 ^ 63 ->
  exists iter roots cur' rem',
    append_subtrees_loop (hashes_at L nodes) (hashes_at L (frozen_range 0 64 cur)) cur rem (pow2 l)
    = Ok (iter, roots, cur', rem') /\
    roots ++ iter = frozen_hashes L /\ cur' + rem' = zlen L.
Proof.
  induction 1 as [l0 a0 rem rest Ha0 Hle _ IH|t cur rem Ht Hc Hm Hr];
    intros l a E Ha Hrem HL Hb.
  - destruct (mkpos_inj l0 a0 l a) as [-> ->]; [done..|rewrite !mkpos_alt; lia|].
    pose proof (pow2_pos l). cbn [append_subtrees_loop hashes_at map fst snd].
    rewrite (proj2 (Z.leb_le _ _)) by done.
    destruct (carry_step L l a) as (l' & a' & Ha' & EN & h & roots & -> & Er); [nia..|].
    osimpl. rewrite add64_Ok by (unfold U64; lia). osimpl. rewrite sub64_Ok by lia. osimpl.
    rewrite Er. apply (IH l' a'); lia.
  - assert (Htl : (t <= l)%nat).
    { subst cur. destruct (le_lt_dec t l) as [|Hlt]; [done|]. exfalso.
      apply Z.mod_divide in Hm as [q Hq]; [|pose proof (pow2_pos t); lia].
      replace t with (S (t - S l) + l)%nat in Hq by lia. rewrite pow2_add, pow2_S in Hq.
      pose proof (pow2_pos l). assert (2 * a + 1 = q * (2 * pow2 (t - S l))) by nia. lia. }
    pose proof (pow2_mono t l Htl).
    assert (El : forall iter roots, append_subtrees_loop iter roots cur rem (pow2 l)
                 = Ok (iter, roots, cur, rem)).
    { intros iter roots. destruct iter; cbn; by rewrite (proj2 (Z.leb_gt _ _)) by lia. }
    rewrite El. do 4 eexists. split; [done|]. split; [|lia].
    unfold frozen_hashes. rewrite HL, <- hashes_at_cat. f_equal.
    replace 64%nat with (t + (64 - t))%nat by lia. rewrite !frozen_range_app, !Nat.add_0_l.
    f_equal. pose proof (pow2_pos t). apply Z.mod_divide in Hm as [q ->]; [|lia].
    rewrite (frozen_range_nil 0 t (q * _)), app_nil_r.
    + apply frozen_range_ext. rewrite Z.div_mul, Z.div_add_l, Z.div_small; lia.
    + intros i Hi. rewrite testbit_scaled by lia. by rewrite bool_decide_true by lia.
Qed.

Lemma append_subtrees_spec L M nodes :
  sib_path (zlen L) (zlen M) nodes -> zlen L + zlen M <= 2 ^ 63 ->
  append_subtrees (acc_of L) (hashes_at (L ++ M) nodes) (zlen M) = Ok (acc_of (L ++ M)).
Proof.
  intros Hp Hb. pose proof (zlen_nonneg L). pose proof (zlen_nonneg M).
  assert (HU : zlen (L ++ M) < U64) by (rewrite zlen_app; unfold U64; lia).
  unfold append_subtrees, MAX_ACCUMULATOR_LEAVES. cbn [num_leaves frozen_subtree_roots acc_of].
  rewrite sub64_Ok by lia. osimpl. rewrite ensure_true by lia. osimpl.
  destruct (Z.eqb_spec (zlen L) 0) as [E0|E0].
  - rewrite <- new_spec by done. rewrite zlen_app, E0, Z.add_0_l. f_equal.
    unfold frozen_hashes. rewrite zlen_app, E0 in *. f_equal. rewrite Z.add_0_l.
    inversion Hp as [l a rem rest Ha Hle Hr|t cur rem Ht Hc Hm Hr]; subst.
    { pose proof (pow2_pos l). nia. }
    rewrite Z.add_0_l. replace 64%nat with (t + (64 - t))%nat by lia.
    rewrite frozen_range_app, Nat.add_0_l, (frozen_range_zero t) by done. done.
  - destruct (odd_part (zlen L)) as (l & a & Ha & En); [lia|].
    assert (Hl : (l < 64)%nat) by (apply (odd_level_lt l a); lia).
    assert (Etz : trailing_zeros 64 (zlen L) = Z.of_nat l)
      by (rewrite En; by apply trailing_zeros_spec).
    rewrite Etz, shl64_Ok by lia. osimpl. pose proof (pow2_lt_mono l 64 Hl).
    rewrite shl64_small, Z.mul_1_l by (rewrite ?u64_pow2; lia).
    destruct (append_subtrees_loop_spec (L ++ M) (zlen L) (zlen M) nodes Hp l a)
      as (iter & roots & cur' & rem' & El & Er & Ec); [by rewrite ?zlen_app..|].
    assert (Ef : frozen_hashes L = hashes_at (L ++ M) (frozen_range 0 64 (zlen L))).
    { unfold frozen_hashes. symmetry. apply hashes_at_app. intros l' k Hin.
      by destruct (frozen_range_In 0 64 (zlen L) l' k) as (_ & _ & ? & ?). }
    rewrite Ef, El. osimpl. rewrite add64_Ok by lia. osimpl.
    rewrite Er, Ec. by apply new_spec.
Qed.
End Correct.
