(* ===== verification/AccumulatorSound.v ===== *)
(** * What an in-memory accumulator binds

    The converse of the correctness of [InMemoryAccumulator.v]: the root hash
    that [new] computes determines the roots of the full subtrees, and a
    successful [append_subtrees] whose root is that of a bigger tree shows that
    the bigger tree extends the smaller one, or exhibits two different pairs of
    children with the same hash.  The pairs a computation hashes are collected by
    the [*_pairs] functions, which follow it step by step. *)
From stdpp Require Import base list numbers strings option.
From Stdlib Require Import ZArith Lia Bool.
From S2P Require Import Prelude Position Hash MerkleSpec InMemoryAccumulator.

Section Sound.
Context {HV : Type} `{HashValueOps HV} `{CryptoHasher HV}.
Implicit Types (L : list HV).

Fixpoint compute_root_pairs (fuel : nat) (bitmap : Z) (current_hash : HV)
    (iter : list HV) : list (HV * HV) :=
  if 0 <? bitmap then
    match fuel with
    | O => []
    | S fuel =>
        if Z.odd bitmap then
          match iter with
          | [] => []
          | root :: iter =>
              (root, current_hash) ::
              compute_root_pairs fuel (bitmap / 2) (hash_node root current_hash) iter
          end
        else
          (current_hash, ACCUMULATOR_PLACEHOLDER_HASH) ::
          compute_root_pairs fuel (bitmap / 2)
            (hash_node current_hash ACCUMULATOR_PLACEHOLDER_HASH) iter
    end
  else [].

Definition new_pairs (roots : list HV) (num_leaves : Z) : list (HV * HV) :=
  compute_root_pairs 64 (Z.shiftr num_leaves (trailing_zeros 64 num_leaves))
    ACCUMULATOR_PLACEHOLDER_HASH (rev roots).

Fixpoint carry_pairs (fuel : nat) (n mask : Z) (h : HV) (roots : list HV)
  : list (HV * HV) :=
  if negb (Z.land n mask =? 0) then
    match fuel with
    | O => []
    | S fuel =>
        match vec_pop roots with
        | None => []
        | Some (x, roots) =>
            (x, h) :: carry_pairs fuel n (shl64_wrap mask 1) (hash_node x h) roots
        end
    end
  else [].

Fixpoint append_subtrees_loop_pairs (iter roots : list HV) (cur rem size : Z)
  : list (HV * HV) :=
  if size <=? rem then
    match iter with
    | [] => []
    | h :: iter =>
        carry_pairs 64 cur size h roots ++
        match carry_loop 64 cur size h roots with
        | Ok (mask, h, roots) =>
            append_subtrees_loop_pairs iter (roots ++ [h]) (cur + size) (rem - size) mask
        | _ => []
        end
    end
  else new_pairs (roots ++ iter) (cur + rem).

(** The pairs hashed by [append_subtrees]. *)
Definition append_subtrees_pairs (self : InMemoryAccumulator HV) (subtrees : list HV)
    (num_new_leaves : Z) : list (HV * HV) :=
  if num_leaves self =? 0 then new_pairs subtrees num_new_leaves
  else append_subtrees_loop_pairs subtrees (frozen_subtree_roots self) (num_leaves self)
         num_new_leaves (shl64_wrap 1 (trailing_zeros 64 (num_leaves self))).

Definition in_list (ps : list (HV * HV)) (x : HV * HV) : Prop := x ∈ ps.

Lemma collision_sub ps qs (q : HV * HV -> Prop) :
  ps ⊆ qs -> collision (in_list ps) q -> collision (in_list qs) q.
Proof. intros Hs. apply collision_mono; [|done]. intros x. apply Hs. Qed.

Lemma hash_node_agree_list (q : HV * HV -> Prop) a b c d :
  hash_node a b = hash_node c d -> q (c, d) ->
  (a = c /\ b = d) \/ forall ps, collision (in_list ((a, b) :: ps)) q.
Proof.
  intros E Hq. destruct (hash_node_agree (fun x => x = (a, b)) q a b c d) as [|Hc]; try done;
    [by left|right]. intros ps. eapply collision_mono; [|done|exact Hc]. intros x ->. by left.
Qed.

(** The parent of node [m] of level [l] is a pair of the tree, on either side. *)
Lemma parent_pair L l m : 0 <= m -> (Z.odd m = true \/ m * pow2 l < zlen L) ->
  m * pow2 l <= zlen L ->
  tree_pair L (if Z.odd m then (node_hash L l (m - 1), node_hash L l m)
               else (node_hash L l m, node_hash L l (m + 1))) /\
  node_hash L (S l) (m / 2) =
    if Z.odd m then hash_node (node_hash L l (m - 1)) (node_hash L l m)
    else hash_node (node_hash L l m) (node_hash L l (m + 1)).
Proof.
  intros Hm Hlt Hle. pose proof (pow2_pos l). destruct (Z.odd m) eqn:Eo.
  - split; [|apply node_hash_odd; [done..|nia]]. apply Z.odd_spec in Eo as [q ->].
    replace (2 * q + 1 - 1) with (2 * q) by lia. apply tree_pair_S; [lia|].
    rewrite pow2_S. nia.
  - assert (He : Z.even m = true) by (by rewrite <- Z.negb_odd, Eo).
    destruct Hlt as [|Hlt]; [done|]. split; [|by apply node_hash_even].
    apply Z.even_spec in He as [q ->]. apply tree_pair_S; [lia|]. rewrite pow2_S. nia.
Qed.

Lemma div_step n l : 0 <= n ->
  (n / pow2 l) * pow2 l <= n < (n / pow2 l + 1) * pow2 l /\
  n / pow2 (S l) = n / pow2 l / 2 /\ 0 <= n / pow2 l.
Proof.
  intros Hn. pose proof (pow2_pos l).
  pose proof (Z.mul_div_le n (pow2 l) ltac:(lia)).
  pose proof (Z.mul_succ_div_gt n (pow2 l) ltac:(lia)).
  split_and!; try lia.
  - rewrite pow2_S, Z.mul_comm, Z.div_div; lia.
  - apply Z.div_pos; lia.
Qed.

Lemma compute_root_loop_sound L c : forall fuel l h iter,
  let n := zlen L in let m := n / pow2 l in
  m < pow2 c -> (c = 0%nat \/ pow2 (c - 1) <= m) ->
  (Z.odd m = true \/ m * pow2 l < n) ->
  length iter = length (frozen_range l c n) ->
  compute_root_loop fuel m h iter = Ok (node_hash L (l + c) 0) ->
  (h = node_hash L l m /\ iter = rev (hashes_at L (frozen_range l c n))) \/
  collision (in_list (compute_root_pairs fuel m h iter)) (tree_pair L).
Proof.
  induction c as [|c IH]; intros fuel l h iter n m Hm Hlo Hodd Hlen Hok;
    destruct (div_step n l (zlen_nonneg L)) as (Hmn & Hdiv & Hm0); fold m in Hmn, Hdiv, Hm0.
  - rewrite pow2_0 in Hm. replace m with 0 in * by lia. rewrite Nat.add_0_r in Hok.
    destruct iter; [|done]. left. destruct fuel; by injection Hok as ->.
  - destruct Hlo as [|Hlo]; [done|]. rewrite Nat.sub_succ, Nat.sub_0_r in Hlo.
    rewrite pow2_S in Hm. pose proof (pow2_pos c). pose proof (pow2_pos l).
    assert (Hhalf : m / 2 < pow2 c /\ (c = 0%nat \/ pow2 (c - 1) <= m / 2)).
    { split; [Z.to_euclidean_division_equations; lia|]. destruct c as [|c]; [by left|right].
      rewrite Nat.sub_succ, Nat.sub_0_r. rewrite pow2_S in *.
      Z.to_euclidean_division_equations. lia. }
    assert (Hodd' : m / 2 * pow2 (S l) < n).
    { rewrite pow2_S. destruct Hodd as [[q Eq]%Z.odd_spec|Hlt];
        Z.to_euclidean_division_equations; nia. }
    destruct (parent_pair L l m Hm0 Hodd ltac:(fold n; lia)) as [Htp Enode].
    destruct fuel as [|fuel]; [cbn in Hok; rewrite (proj2 (Z.ltb_lt 0 m)) in Hok by lia; done|].
    cbn [compute_root_loop compute_root_pairs] in *.
    rewrite (proj2 (Z.ltb_lt 0 m)) in * by lia.
    rewrite shiftr_1, land_1_odd, negb_involutive in Hok.
    specialize (IH fuel (S l)). cbn zeta in IH. fold n in IH. rewrite Hdiv in IH.
    rewrite Nat.add_succ_comm in IH. rewrite frozen_range_snoc, hashes_at_cat, rev_app_distr in *.
    unfold frozen_at in *. rewrite Z.testbit_odd, shiftr_pow2 in *. fold m in Hlen |- *.
    rewrite length_app in Hlen. destruct (Z.odd m).
    + destruct iter as [|root iter]; [done|]. cbn [length] in Hlen.
      destruct (IH (hash_node root h) iter) as [[Eh ->]|Hc]; [tauto..|by right|lia|done| |].
      * rewrite Enode in Eh.
        destruct (hash_node_agree_list _ _ _ _ _ Eh Htp) as [[-> ->]|Hc];
          [by left|right; apply Hc].
      * right. eapply collision_sub; [|exact Hc]. intros ? ?. by right.
    + cbn [length] in Hlen. rewrite Nat.add_0_r in Hlen.
      destruct (IH (hash_node h ACCUMULATOR_PLACEHOLDER_HASH) iter)
        as [[Eh ->]|Hc]; [tauto..|by right|lia|done| |].
      * rewrite Enode in Eh.
        destruct (hash_node_agree_list _ _ _ _ _ Eh Htp) as [[-> _]|Hc];
          [by left|right; apply Hc].
      * right. eapply collision_sub; [|exact Hc]. intros ? ?. by right.
Qed.

Lemma compute_root_hash_sound L roots : zlen L < U64 ->
  Z.of_nat (length roots) = count_ones (zlen L) ->
  compute_root_hash roots (zlen L) = Ok (spec_root L) ->
  roots = frozen_hashes L \/
  collision (in_list (new_pairs roots (zlen L))) (tree_pair L).
Proof.
  intros HU Hlen Hok. pose proof (frozen_hashes_length L HU) as Hfl. pose proof (zlen_nonneg L).
  destruct (Z.eq_dec (zlen L) 0) as [E0|E0].
  { rewrite E0 in *. change (count_ones 0) with 0 in *.
    destruct roots, (frozen_hashes L); [by left|cbn [length] in *; lia..]. }
  destruct (odd_part (zlen L)) as (t & q & Hq & En); [lia|].
  destruct (top_bit (2 * q + 1)) as (b & r & Hr & Eb); [lia|]. pose proof (pow2_pos t).
  assert (Hb : (t + S b <= 64)%nat).
  { assert (t + b < 64)%nat; [|lia]. apply pow2_lt_inv. rewrite <- u64_pow2, pow2_add.
    rewrite En, Eb in HU. nia. }
  assert (Hlt : (2 * q + 1) * pow2 t < pow2 (t + S b)) by (rewrite pow2_add, pow2_S; nia).
  pose proof (frozen_odd_part t q (S b) Hq Hb Hlt) as Ef. rewrite <- En in Ef.
  assert (Ediv : zlen L / pow2 t = 2 * q + 1) by (rewrite En, Z.div_mul; lia).
  destruct roots as [|x [|y rest]].
  - cbn in Hlen. destruct (frozen_hashes L); [by left|cbn in Hfl; lia].
  - injection Hok as ->. left. cbn [length] in Hlen.
    destruct (frozen_hashes L) as [|z [|]] eqn:Ez; cbn [length] in Hfl; try lia.
    pose proof (compute_root_hash_spec L HU) as Hs. rewrite Ez in Hs. by injection Hs as ->.
  - set (roots := x :: y :: rest) in *.
    assert (Hl2 : (2 <= length roots)%nat) by (unfold roots; cbn [length]; lia).
    assert (Etz : trailing_zeros 64 (zlen L) = Z.of_nat t)
      by (rewrite En; by apply trailing_zeros_spec).
    rewrite (compute_root_hash_long _ _ t) in Hok by (lia || done).
    unfold new_pairs. rewrite Etz, shiftr_pow2. clearbody roots.
    assert (Hq0 : 0 < q).
    { destruct (Z.eq_dec q 0) as [->|]; [|lia]. rewrite En, count_ones_mul_pow2 in Hlen.
      change (count_ones (2 * 0 + 1)) with 1 in Hlen. lia. }
    assert (Er : spec_root L = node_hash L (t + S b) 0).
    { unfold spec_root. rewrite Nat.add_succ_r, (rootl_between (t + b)); [done|].
      assert (0 < r) by (destruct b; [rewrite pow2_0 in *|rewrite pow2_S in *]; lia).
      rewrite pow2_S, pow2_add, En, Eb. nia. }
    rewrite Er in Hok. apply compute_root_loop_sound in Hok.
    + destruct Hok as [[_ E]|]; [left|by right].
      rewrite <- (rev_involutive roots), E, rev_involutive. unfold frozen_hashes. by rewrite Ef.
    + rewrite Ediv, pow2_S. lia.
    + right. rewrite Nat.sub_succ, Nat.sub_0_r. lia.
    + left. by rewrite Ediv, Z.add_comm, Z.odd_add_mul_2.
    + rewrite length_rev, <- Ef. apply Nat2Z.inj. by rewrite Hlen, frozen_length.
Qed.

Lemma carry_loop_sound L n d : forall fuel j h roots mask' h' roots',
  (j + d < 64)%nat -> 0 <= n < zlen L ->
  (forall i, (i < d)%nat -> Z.testbit n (Z.of_nat (j + i)) = true) ->
  Z.testbit n (Z.of_nat (j + d)) = false ->
  carry_loop fuel n (pow2 j) h roots = Ok (mask', h', roots') ->
  mask' = pow2 (j + d) /\ length roots = (length roots' + d)%nat /\
  (h' = node_hash L (j + d) (n / pow2 (j + d)) ->
   (h = node_hash L j (n / pow2 j) /\ roots = roots' ++ hashes_at L (frozen_range j d n)) \/
   collision (in_list (carry_pairs fuel n (pow2 j) h roots)) (tree_pair L)).
Proof.
  induction d as [|d IH]; intros fuel j h roots mask' h' roots' Hj Hn Hb Hc Hok.
  - rewrite Nat.add_0_r in *.
    assert (E : carry_loop fuel n (pow2 j) h roots = Ok (pow2 j, h, roots)).
    { destruct fuel; cbn [carry_loop]; by rewrite land_pow2_eq0, Hc. }
    rewrite E in Hok. injection Hok as <- <- <-. split_and!; [done|lia|].
    intros ->. left. cbn. by rewrite app_nil_r.
  - destruct (div_step n j) as (Hmn & Hdiv & Hm0); [lia|]. pose proof (pow2_pos j).
    assert (Hj0 : Z.testbit n (Z.of_nat j) = true) by (rewrite <- (Nat.add_0_r j); apply Hb; lia).
    destruct fuel as [|fuel]; [cbn in Hok; by rewrite land_pow2_eq0, Hj0 in Hok|].
    cbn [carry_loop carry_pairs] in *. rewrite land_pow2_eq0, Hj0 in *. cbn [negb] in *.
    destruct (vec_pop roots) as [[x rest]|] eqn:Ep; [|done]. apply vec_pop_Some in Ep as ->.
    cbn [expect] in Hok. osimpl in Hok. rewrite shl64_pow2 in * by lia.
    destruct (IH fuel (S j) (hash_node x h) rest mask' h' roots') as (-> & Hl & Hs);
      [lia|done|intros; rewrite Nat.add_succ_comm; apply Hb; lia|by rewrite Nat.add_succ_comm|done|].
    rewrite Nat.add_succ_comm in *. split_and!; [done|rewrite length_app; cbn [length]; lia|].
    intros Eh. rewrite frozen_range_snoc, hashes_at_cat. unfold frozen_at. rewrite Hj0.
    assert (Ho : Z.odd (n / pow2 j) = true) by (by rewrite Z.testbit_odd, shiftr_pow2 in Hj0).
    destruct (parent_pair L j (n / pow2 j)) as [Htp En]; [done|by left|lia|].
    rewrite Ho in *. rewrite Hdiv in Hs. destruct (Hs Eh) as [[E1 ->]|Hc'].
    + rewrite En in E1. destruct (hash_node_agree_list _ _ _ _ _ E1 Htp) as [[-> ->]|Hc'];
        [left|right; apply Hc'].
      split; [done|]. by rewrite app_assoc.
    + right. eapply collision_sub; [|exact Hc']. intros ? ?. by right.
Qed.

(** When fewer leaves are left than the rightmost full subtree has, the larger
    subtrees of the result are those of the original. *)
Lemma frozen_split l a rem : 0 <= a -> (l <= 64)%nat -> 0 <= rem < pow2 l ->
  frozen_range 0 64 ((2 * a + 1) * pow2 l + rem) =
  frozen_range 0 64 ((2 * a + 1) * pow2 l) ++
  frozen_range 0 l ((2 * a + 1) * pow2 l + rem).
Proof.
  intros Ha Hl Hr. replace 64%nat with (l + (64 - l))%nat by lia.
  rewrite !frozen_range_app, !Nat.add_0_l. f_equal.
  rewrite (frozen_range_nil 0 l ((2 * a + 1) * _)), app_nil_r.
  - apply frozen_range_ext. rewrite Z.div_mul, Z.div_add_l, Z.div_small; lia.
  - intros i Hi. rewrite testbit_scaled by lia. by rewrite bool_decide_true by lia.
Qed.

Lemma append_subtrees_loop_sound L : forall iter roots cur rem l a iter' roots' cur' rem',
  cur = (2 * a + 1) * pow2 l -> 0 <= a -> 0 <= rem -> zlen L = cur + rem -> cur + rem <= 2 ^ 63 ->
  length roots = length (frozen_range 0 64 cur) ->
  append_subtrees_loop iter roots cur rem (pow2 l) = Ok (iter', roots', cur', rem') ->
  cur' + rem' = zlen L /\
  new_pairs (roots' ++ iter') (zlen L) ⊆ append_subtrees_loop_pairs iter roots cur rem (pow2 l) /\
  (roots' ++ iter' = frozen_hashes L ->
   roots = hashes_at L (frozen_range 0 64 cur) \/
   collision (in_list (append_subtrees_loop_pairs iter roots cur rem (pow2 l))) (tree_pair L)).
Proof.
  induction iter as [|h iter IH]; intros roots cur rem l a iter' roots' cur' rem'
    Ec Ha Hrem HL Hb Hlen Hok.
  all: assert (Hl64 : (l < 64)%nat) by (apply (odd_level_lt l a); lia).
  all: destruct (Z.leb_spec (pow2 l) rem) as [Hle|Hgt].
  1: { cbn in Hok. by rewrite (proj2 (Z.leb_le _ _)) in Hok. }
  1, 3: cbn [append_subtrees_loop append_subtrees_loop_pairs] in *;
    rewrite (proj2 (Z.leb_gt _ _)) in * by done; injection Hok as <- <- <- <-;
    split_and!; [done|by rewrite HL|]; intros E; left; unfold frozen_hashes in E;
    rewrite HL, Ec, frozen_split, hashes_at_cat, <- Ec in E by lia;
    apply app_inj_1 in E as [-> _]; [done|unfold hashes_at; by rewrite length_map].
  destruct (odd_trailing_ones a Ha) as (d & e & Hd & He & E). pose proof (pow2_pos l).
  rewrite E in Ec.
  assert (EN : cur + pow2 l = (2 * e + 1) * pow2 (l + d))
    by (subst cur; rewrite mkpos_alt, pow2_add; lia).
  assert (Hld : (l + d < 64)%nat) by (apply (odd_level_lt (l + d) e); lia).
  destruct (frozen_carry l d e Hld He) as [E1 E2]. rewrite <- Ec in E1, E2.
  cbn [append_subtrees_loop append_subtrees_loop_pairs] in *.
  rewrite (proj2 (Z.leb_le _ _)) in * by done.
  destruct (carry_loop 64 cur (pow2 l) h roots) as [[[mask h'] roots1]| |] eqn:Ecl; try done.
  osimpl in Hok. rewrite add64_Ok in Hok by (unfold U64; lia). osimpl in Hok.
  rewrite sub64_Ok in Hok by done. osimpl in Hok.
  pose proof (mkpos_nonneg d e He).
  destruct (carry_loop_sound L cur d 64 l h roots mask h' roots1) as (-> & Hl1 & Hs);
    [done|nia|rewrite Ec; apply scaled_ones..|done|].
  assert (Hr1 : length (roots1 ++ [h']) = length (frozen_range 0 64 (cur + pow2 l))).
  { rewrite E2, length_app. rewrite E1, length_app in Hlen. cbn [length].
    rewrite length_app. cbn [length]. rewrite Ec, frozen_ones_length, <- Ec in Hlen by done. lia. }
  destruct (IH (roots1 ++ [h']) (cur + pow2 l) (rem - pow2 l) (l + d)%nat e
              iter' roots' cur' rem') as (Hcr & Hsub & Hsound); try done; try lia.
  split_and!; [done|intros x Hx; apply elem_of_app; right; by apply Hsub|].
  intros Ef. destruct (Hsound Ef) as [Er|Hc].
  - rewrite E2, hashes_at_cat in Er. apply app_inj_2 in Er as [-> [= Eh]]; [|done].
    destruct (Hs Eh) as [[_ ->]|Hc]; [left|right].
    + by rewrite E1, hashes_at_cat.
    + eapply collision_sub; [|exact Hc]. intros ? ?. apply elem_of_app. by left.
  - right. eapply collision_sub; [|exact Hc]. intros ? ?. apply elem_of_app. by right.
Qed.

Lemma new_root roots n acc : new roots n = Ok acc ->
  Z.of_nat (length roots) = count_ones n /\ num_leaves acc = n /\
  frozen_subtree_roots acc = roots /\ compute_root_hash roots n = Ok (root_hash acc).
Proof.
  unfold new. rewrite bind_Ok. intros ([] & Hlen & Hok). apply ensure_Ok, Z.eqb_eq in Hlen.
  destruct (compute_root_hash roots n) eqn:E; try done. by injection Hok as <-.
Qed.

(** An accumulator with the root of a tree over [L] is the one of [L]. *)
Lemma new_binding L roots acc : zlen L < U64 -> new roots (zlen L) = Ok acc ->
  root_hash acc = spec_root L ->
  (roots = frozen_hashes L /\ acc = acc_of L) \/
  collision (in_list (new_pairs roots (zlen L))) (tree_pair L).
Proof.
  intros HU Hok Hroot. destruct (new_root _ _ _ Hok) as (Hlen & En & Er & Hr).
  rewrite Hroot in Hr. destruct (compute_root_hash_sound L roots) as [Ef|Hc]; [done..| |by right].
  left. split; [done|]. destruct acc. cbn in *. by subst.
Qed.

(** If the accumulator obtained by appending subtrees has the root of a tree
    over [L'], then [L'] extends the leaves of the original accumulator, and the
    new accumulator is the one of [L']. *)
Lemma append_subtrees_binding L L' subtrees m acc :
  append_subtrees (acc_of L) subtrees m = Ok acc -> 0 <= m ->
  zlen L' = zlen L + m -> root_hash acc = spec_root L' ->
  (L `prefix_of` L' /\ acc = acc_of L') \/
  collision (in_list (append_subtrees_pairs (acc_of L) subtrees m)) (tree_pair L') \/
  collision (tree_pair L) (tree_pair L').
Proof.
  intros Hok Hm HL' Hroot. pose proof (zlen_nonneg L) as Hn.
  unfold append_subtrees, append_subtrees_pairs, MAX_ACCUMULATOR_LEAVES in *.
  cbn [num_leaves frozen_subtree_roots acc_of] in *.
  apply bind_Ok in Hok as (room & Hroom & Hok). apply bind_Ok in Hok as ([] & He & Hok).
  apply ensure_Ok in He. unfold sub64 in Hroom.
  destruct (Z.leb_spec (zlen L) (2 ^ 63)); [|done]. injection Hroom as <-.
  destruct (Z.eqb_spec (zlen L) 0) as [E0|E0].
  { rewrite E0, Z.add_0_l in HL'. rewrite <- HL' in Hok |- *.
    destruct (new_binding L' subtrees acc) as [[_ ->]|]; [unfold U64; lia|done|done| |by right; left].
    left. destruct L; [by split; [apply prefix_nil|]|unfold zlen in E0; cbn in E0; lia]. }
  destruct (odd_part (zlen L)) as (l & a & Ha & En); [lia|].
  assert (Hl : (l < 64)%nat) by (apply (odd_level_lt l a); lia).
  assert (Etz : trailing_zeros 64 (zlen L) = Z.of_nat l)
    by (rewrite En; by apply trailing_zeros_spec).
  rewrite Etz, shl64_Ok in Hok by lia. osimpl in Hok. rewrite Etz.
  pose proof (pow2_lt_mono l 64 Hl).
  rewrite shl64_small, Z.mul_1_l in * by (rewrite ?u64_pow2; lia).
  apply bind_Ok in Hok as ([[[iter roots] cur'] rem'] & El & Hok).
  assert (HU : U64 = 2 * 2 ^ 63) by done.
  destruct (append_subtrees_loop_sound L' subtrees (frozen_hashes L) (zlen L) m l a
              iter roots cur' rem') as (Ecr & Hsub & Hs); [done|done|done|lia|lia| |done|].
  { unfold frozen_hashes, hashes_at. by rewrite length_map. }
  rewrite add64_Ok in Hok by lia. osimpl in Hok. rewrite Ecr in Hok.
  destruct (new_binding L' (roots ++ iter) acc) as [[Ef ->]|Hc]; [lia|done|done| |].
  - destruct (Hs Ef) as [Efr|Hc]; [|by right; left].
    destruct (frozen_binding L L') as [|]; [lia|lia|done|by left|by right; right].
  - right; left. by eapply collision_sub.
Qed.
End Sound.
