(* ===== verification/AccumulatorProof.v ===== *)
(** * Accumulator proofs

    Model of the accumulator half of [types/src/proof/definition.rs] and of
    [verify_transaction_info] of [types/src/proof/mod.rs]: inclusion proofs, range
    proofs, consistency and extension proofs, and the accumulator summary a light
    client keeps. *)
From stdpp Require Import base list numbers strings option.
From Stdlib Require Import ZArith Lia Bool.
From S2P Require Import Prelude Position Hash MerkleSpec InMemoryAccumulator.

(** [CryptoHash]: values with a hash. *)
Class CryptoHash (T HV : Type) := crypto_hash : T -> HV.

(** [BlockInfo] and [LedgerInfo] of [types/src/block_info.rs] and
    [types/src/ledger_info.rs]. *)
Record BlockInfo (HV EpochState : Type) := mkBlockInfo {
  bi_epoch : Z;
  bi_round : Z;
  bi_id : HV;
  bi_executed_state_id : HV;
  bi_version : Z;
  bi_timestamp_usecs : Z;
  bi_next_epoch_state : option EpochState;
}.
Arguments mkBlockInfo {HV EpochState}.
Arguments bi_executed_state_id {HV EpochState}.
Arguments bi_version {HV EpochState}.

Record LedgerInfo (HV EpochState : Type) := mkLedgerInfo {
  li_commit_info : BlockInfo HV EpochState;
  li_consensus_data_hash : HV;
}.
Arguments mkLedgerInfo {HV EpochState}.
Arguments li_commit_info {HV EpochState}.

Section Definitions.
Context {HV EpochState TransactionInfo : Type}.
Context `{HashValueOps HV} `{CryptoHasher HV} `{CryptoHash TransactionInfo HV}.

Definition LedgerInfo_version (li : LedgerInfo HV EpochState) : Z :=
  bi_version (li_commit_info li).
Definition transaction_accumulator_hash (li : LedgerInfo HV EpochState) : HV :=
  bi_executed_state_id (li_commit_info li).

(** ** [AccumulatorProof] *)
Record AccumulatorProof := mkAccumulatorProof { siblings : list HV }.

(** The closure folded over the siblings. *)
Definition accumulator_fold_step (st : HV * Z) (sibling_hash : HV) : HV * Z :=
  let '(hash, index) := st in
  (if index mod 2 =? 0 then hash_node hash sibling_hash
   else hash_node sibling_hash hash, index / 2).

Definition AccumulatorProof_verify (self : AccumulatorProof)
    (expected_root_hash element_hash : HV) (element_index : Z) : outcome unit :=
  _ ← ensure (Z.of_nat (length (siblings self)) <=? MAX_ACCUMULATOR_PROOF_DEPTH)
        "Accumulator proof has more than 63 siblings.";
  let actual_root_hash :=
    fst (fold_left accumulator_fold_step (siblings self) (element_hash, element_index)) in
  _ ← ensure (bool_decide (actual_root_hash = expected_root_hash))
        "AccumulatorProof: Root hashes do not match.";
  Ok tt.

Definition verify_transaction_info (ledger_info : LedgerInfo HV EpochState)
    (transaction_version : Z) (transaction_info : TransactionInfo)
    (proof : AccumulatorProof) : outcome unit :=
  _ ← ensure (transaction_version <=? LedgerInfo_version ledger_info)
        "Transaction version is newer than LedgerInfo version.";
  let transaction_info_hash := crypto_hash transaction_info in
  _ ← AccumulatorProof_verify proof (transaction_accumulator_hash ledger_info)
        transaction_info_hash transaction_version;
  Ok tt.

Record TransactionInfoWithProof := mkTransactionInfoWithProof {
  ledger_info_to_transaction_info_proof : AccumulatorProof;
  transaction_info : TransactionInfo;
}.

Definition TransactionInfoWithProof_verify (self : TransactionInfoWithProof)
    (ledger_info : LedgerInfo HV EpochState) (transaction_version : Z) : outcome unit :=
  _ ← verify_transaction_info ledger_info transaction_version (transaction_info self)
        (ledger_info_to_transaction_info_proof self);
  Ok tt.

(** ** [AccumulatorRangeProof] *)
Record AccumulatorRangeProof := mkAccumulatorRangeProof
  { left_siblings : list HV; right_siblings : list HV }.

Definition AccumulatorRangeProof_new_empty : AccumulatorRangeProof :=
  mkAccumulatorRangeProof [] [].

(** [chunks_exact(2)]: the parents of consecutive pairs and the remainder. *)
Fixpoint pair_up (children : list HV) : list HV * list HV :=
  match children with
  | x :: y :: rest =>
      let '(parents, remainder) := pair_up rest in (hash_node x y :: parents, remainder)
  | rest => ([], rest)
  end.

(** The body of the [while] loop: one level of the tree.  The state is
    [(first_pos, current_hashes, left_sibling_iter, right_sibling_iter)]. *)
Definition range_level (first_pos : Position) (current_hashes left_iter right_iter : list HV)
  : outcome (Position * list HV * list HV * list HV) :=
  is_right ← is_right_child first_pos;
  s ← (if (is_right : bool) then
         left_hash ← ok_or (head left_iter)
           "First child is a right child, but missing sibling on the left.";
         right_hash ← expect (head current_hashes) "The first leaf must exist.";
         Ok ([hash_node left_hash right_hash], tail current_hashes, tail left_iter)
       else Ok ([], current_hashes, left_iter));
  let '(parent_hashes, children, left_iter) := s in
  let '(parents, remainder) := pair_up children in
  let parent_hashes := parent_hashes ++ parents in
  r ← match remainder with
      | [] => Ok (parent_hashes, right_iter)
      | left_hash :: _ =>
          right_hash ← ok_or (head right_iter)
            "Last child is a left child, but missing sibling on the right.";
          Ok (parent_hashes ++ [hash_node left_hash right_hash], tail right_iter)
      end;
  let '(parent_hashes, right_iter) := r in
  first_pos ← parent first_pos;
  Ok (first_pos, parent_hashes, left_iter, right_iter).

Definition range_continue (current_hashes left_iter right_iter : list HV) : bool :=
  (1 <? Z.of_nat (length current_hashes)) ||
  negb (bool_decide (left_iter = [])) || negb (bool_decide (right_iter = [])).

(** The [while] loop: an iteration either shortens the list of hashes or
    consumes siblings, so the number of hashes and siblings is enough fuel. *)
Fixpoint range_loop (fuel : nat) (first_pos : Position)
    (current_hashes left_iter right_iter : list HV) : outcome (list HV) :=
  if range_continue current_hashes left_iter right_iter then
    match fuel with
    | O => Panic "out of fuel"
    | S fuel =>
        st ← range_level first_pos current_hashes left_iter right_iter;
        let '(first_pos, current_hashes, left_iter, right_iter) := st in
        range_loop fuel first_pos current_hashes left_iter right_iter
    end
  else Ok current_hashes.

Definition AccumulatorRangeProof_verify (self : AccumulatorRangeProof)
    (expected_root_hash : HV) (first_leaf_index : option Z) (leaf_hashes : list HV)
  : outcome unit :=
  match first_leaf_index with
  | None =>
      _ ← ensure (bool_decide (leaf_hashes = []))
            "first_leaf_index indicated empty list while leaf_hashes is not empty.";
      ensure (bool_decide (left_siblings self = []) && bool_decide (right_siblings self = []))
        "No siblings are needed."
  | Some first_leaf_index =>
      _ ← ensure (Z.of_nat (length (left_siblings self)) <=? MAX_ACCUMULATOR_PROOF_DEPTH)
            "Proof has more than 63 left siblings.";
      _ ← ensure (Z.of_nat (length (right_siblings self)) <=? MAX_ACCUMULATOR_PROOF_DEPTH)
            "Proof has more than 63 right siblings.";
      _ ← ensure (negb (bool_decide (leaf_hashes = [])))
            "leaf_hashes is empty while first_leaf_index indicated non-empty list.";
      first_pos ← from_leaf_index first_leaf_index;
      current_hashes ←
        range_loop (length leaf_hashes + length (left_siblings self)
                    + length (right_siblings self))
          first_pos leaf_hashes (left_siblings self) (right_siblings self);
      root ← expect (head current_hashes) "index out of bounds";
      ensure (bool_decide (root = expected_root_hash))
        "AccumulatorRangeProof: Root hashes do not match."
  end.

(** ** [TransactionInfoListWithProof] *)
Record TransactionInfoListWithProof := mkTransactionInfoListWithProof {
  ledger_info_to_transaction_infos_proof : AccumulatorRangeProof;
  transaction_infos : list TransactionInfo;
}.

Definition TransactionInfoListWithProof_verify (self : TransactionInfoListWithProof)
    (ledger_info : LedgerInfo HV EpochState) (first_version : option Z) : outcome unit :=
  let txn_info_hashes := map crypto_hash (transaction_infos self) in
  AccumulatorRangeProof_verify (ledger_info_to_transaction_infos_proof self)
    (transaction_accumulator_hash ledger_info) first_version txn_info_hashes.

Definition verify_extends_ledger (self : TransactionInfoListWithProof)
    (num_txns_in_ledger : LeafCount) (expected_root : HV) (first_version : option Z)
  : outcome Z :=
  match first_version with
  | Some first_version =>
      _ ← ensure (first_version <=? num_txns_in_ledger) "Transaction list too new.";
      num_overlap_txns ← sub64 num_txns_in_ledger first_version;
      if Z.of_nat (length (transaction_infos self)) <? num_overlap_txns then
        Ok (Z.of_nat (length (transaction_infos self)))
      else
        let overlap_txn_infos := take (Z.to_nat num_overlap_txns) (transaction_infos self) in
        let frozen_subtree_roots_from_proof :=
          rev (left_siblings (ledger_info_to_transaction_infos_proof self)) in
        acc ← new frozen_subtree_roots_from_proof first_version;
        accu_from_proof ← append acc (map crypto_hash overlap_txn_infos);
        _ ← ensure (bool_decide (root_hash accu_from_proof = expected_root))
              "Fork happens because the current synced_trees doesn't match the txn list provided.";
        Ok num_overlap_txns
  | None =>
      _ ← ensure (bool_decide (length (transaction_infos self) = 0%nat))
            "Condition failed: `self.transaction_infos.is_empty()`";
      Ok 0
  end.

(** ** [AccumulatorConsistencyProof] and [TransactionAccumulatorSummary] *)
Record AccumulatorConsistencyProof := mkAccumulatorConsistencyProof { subtrees : list HV }.

(** The newtype over a non-empty accumulator. *)
Record TransactionAccumulatorSummary := mkTransactionAccumulatorSummary
  { summary_accumulator : InMemoryAccumulator HV }.

Definition summary_new (accumulator : InMemoryAccumulator HV)
  : outcome TransactionAccumulatorSummary :=
  _ ← ensure (negb (is_empty accumulator))
        "empty accumulator: we can't verify consistency proofs from an empty accumulator";
  Ok (mkTransactionAccumulatorSummary accumulator).

Definition summary_version (self : TransactionAccumulatorSummary) : Z :=
  version (summary_accumulator self).

Definition summary_root_hash (self : TransactionAccumulatorSummary) : HV :=
  root_hash (summary_accumulator self).

Definition verify_consistency (self : TransactionAccumulatorSummary)
    (ledger_info : LedgerInfo HV EpochState) : outcome unit :=
  _ ← ensure (LedgerInfo_version ledger_info =? summary_version self)
        "ledger info and accumulator must be at the same version";
  _ ← ensure (bool_decide (transaction_accumulator_hash ledger_info = summary_root_hash self))
        "ledger info root hash and accumulator root hash must match";
  Ok tt.

Definition try_from_genesis_proof (genesis_proof : AccumulatorConsistencyProof)
    (target_version : Z) : outcome TransactionAccumulatorSummary :=
  let num_txns := Z.min (target_version + 1) u64_max in
  acc ← new (subtrees genesis_proof) num_txns;
  Ok (mkTransactionAccumulatorSummary acc).

Definition try_extend_with_proof (self : TransactionAccumulatorSummary)
    (consistency_proof : AccumulatorConsistencyProof)
    (target_li : LedgerInfo HV EpochState) : outcome TransactionAccumulatorSummary :=
  _ ← ensure (version (summary_accumulator self) <=? LedgerInfo_version target_li)
        "target ledger info version must be newer than our current accumulator summary version";
  num_new_txns ← sub64 (LedgerInfo_version target_li) (version (summary_accumulator self));
  acc ← append_subtrees (summary_accumulator self) (subtrees consistency_proof) num_new_txns;
  let new_accumulator := mkTransactionAccumulatorSummary acc in
  _ ← verify_consistency new_accumulator target_li;
  Ok new_accumulator.

(** ** [AccumulatorExtensionProof] *)
Record AccumulatorExtensionProof := mkAccumulatorExtensionProof {
  ext_frozen_subtree_roots : list HV;
  ext_num_leaves : LeafCount;
  ext_leaves : list HV;
}.

Definition AccumulatorExtensionProof_verify (self : AccumulatorExtensionProof)
    (original_root : HV) : outcome (InMemoryAccumulator HV) :=
  original_tree ← new (ext_frozen_subtree_roots self) (ext_num_leaves self);
  _ ← ensure (bool_decide (root_hash original_tree = original_root))
        "AccumulatorExtensionProof: Root hashes do not match.";
  append original_tree (ext_leaves self).
End Definitions.
Arguments AccumulatorProof : clear implicits.
Arguments AccumulatorRangeProof : clear implicits.
Arguments AccumulatorConsistencyProof : clear implicits.
Arguments TransactionAccumulatorSummary : clear implicits.
Arguments AccumulatorExtensionProof : clear implicits.
Arguments TransactionInfoListWithProof : clear implicits.
Arguments TransactionInfoWithProof : clear implicits.
