(* ===== verification/AccumulatorProofFacts.v ===== *)
(** * Inclusion proofs: completeness and soundness

    [AccumulatorProof_verify] accepts the siblings of a leaf of the reference
    tree, and what it accepts is a leaf of that tree or exhibits a collision of
    the node hash among the pairs the verifier itself hashes. *)
From stdpp Require Import base list numbers strings option sets.
From Stdlib Require Import ZArith Lia Bool.
From S2P Require Import Prelude Position Hash MerkleSpec InMemoryAccumulator AccumulatorSound AccumulatorProof.

(** The siblings of the [d] ancestors-or-self of node [k] of level [l]. *)
Fixpoint sib_nodes (d l : nat) (k : Z) : list (nat * Z) :=
  match d with
  | O => []
  | S d => (l, sib k) :: sib_nodes d (S l) (k / 2)
  end.

Lemma sib_nodes_length d : forall l k, length (sib_nodes d l k) = d.
Proof. induction d; intros; cbn; congruence. Qed.

Lemma half_block l k n : 0 <= k -> k * pow2 l < n -> k / 2 * pow2 (S l) < n.
Proof.
  intros Hk Hlt. rewrite pow2_S. pose proof (pow2_pos l).
  pose proof (Z.mul_div_le k 2 ltac:(lia)). nia.
Qed.

Lemma div_pow2_S k d : k / pow2 (S d) = k / 2 / pow2 d.
Proof. rewrite pow2_S. pose proof (pow2_pos d). rewrite Z.div_div; lia. Qed.

Section Inclusion.
Context {HV : Type} `{HashValueOps HV} `{CryptoHasher HV}.
Implicit Types (L : list HV).

(** The children pair the fold hashes at index [k], and the pairs of a whole fold. *)
Definition fold_pair (h : HV) (k : Z) (s : HV) : HV * HV :=
  if k mod 2 =? 0 then (h, s) else (s, h).

Fixpoint fold_pairs (h : HV) (k : Z) (sibs : list HV) : list (HV * HV) :=
  match sibs with
  | [] => []
  | s :: sibs =>
      let x := fold_pair h k s in
      x :: fold_pairs (hash_node (fst x) (snd x)) (k / 2) sibs
  end.

Lemma fold_step_pair h k s :
  accumulator_fold_step (h, k) s =
  (hash_node (fst (fold_pair h k s)) (snd (fold_pair h k s)), k / 2).
Proof. unfold accumulator_fold_step, fold_pair. by destruct (k mod 2 =? 0). Qed.

(** The parent of an existing node from the node and its sibling. *)
Lemma fold_pair_parent L l k : 0 <= k -> k * pow2 l < zlen L ->
  let x := fold_pair (node_hash L l k) k (node_hash L l (sib k)) in
  tree_pair L x /\ node_hash L (S l) (k / 2) = hash_node (fst x) (snd x).
Proof.
  intros Hk Hlt x.
  destruct (parent_pair L l k Hk (or_intror Hlt) ltac:(lia)) as [Hp Hh].
  subst x. unfold fold_pair, sib. rewrite Zmod_odd, <- Z.negb_odd.
  destruct (Z.odd k); cbn [negb Z.eqb fst snd]; done.
Qed.

Lemma fold_complete L d : forall l k, 0 <= k -> k * pow2 l < zlen L ->
  fold_left accumulator_fold_step (hashes_at L (sib_nodes d l k)) (node_hash L l k, k) =
  (node_hash L (l + d) (k / pow2 d), k / pow2 d).
Proof.
  induction d as [|d IH]; intros l k Hk Hlt.
  - cbn. by rewrite Nat.add_0_r, pow2_0, Z.div_1_r.
  - cbn [sib_nodes hashes_at map fold_left fst snd]. rewrite fold_step_pair.
    destruct (fold_pair_parent L l k Hk Hlt) as [_ <-].
    rewrite <- Nat.add_succ_comm, div_pow2_S. apply IH; [by apply Z.div_pos|by apply half_block].
Qed.

Lemma fold_sound L : forall sibs l k h, 0 <= k -> k * pow2 l < zlen L ->
  fst (fold_left accumulator_fold_step sibs (h, k)) =
    node_hash L (l + length sibs) (k / pow2 (length sibs)) ->
  (h = node_hash L l k /\ sibs = hashes_at L (sib_nodes (length sibs) l k)) \/
  collision (in_list (fold_pairs h k sibs)) (tree_pair L).
Proof.
  induction sibs as [|s sibs IH]; intros l k h Hk Hlt E.
  - cbn in E. rewrite Nat.add_0_r, pow2_0, Z.div_1_r in E. by left.
  - cbn [length] in *. cbn [fold_left fold_pairs] in *. rewrite fold_step_pair in E.
    rewrite <- Nat.add_succ_comm, div_pow2_S in E.
    apply IH in E as [[Eh Es]|Hc];
      [|right; eapply collision_sub; [|exact Hc]; by apply list_subseteq_cons
       |by apply Z.div_pos|by apply half_block].
    destruct (fold_pair_parent L l k Hk Hlt) as [Hp Hpar]. rewrite Hpar in Eh.
    destruct (fold_pair (node_hash L l k) k (node_hash L l (sib k))) as [c d] eqn:Ec.
    destruct (fold_pair h k s) as [a b] eqn:Ea. cbn [fst snd] in *.
    destruct (hash_node_agree_list (tree_pair L) a b c d Eh Hp) as [[-> ->]|Hc];
      [left|right; apply Hc].
    cbn [sib_nodes hashes_at map fst snd]. unfold fold_pair in Ea, Ec.
    destruct (k mod 2 =? 0); simplify_eq; (split; [done|]); by f_equal.
Qed.

(** The fold looks at the index only modulo the number of leaves a proof of
    that length can address. *)
Lemma fold_index_mod : forall (sibs : list HV) h k,
  fst (fold_left accumulator_fold_step sibs (h, k)) =
  fst (fold_left accumulator_fold_step sibs (h, k mod pow2 (length sibs))).
Proof.
  induction sibs as [|s sibs IH]; intros h k; [done|]. cbn [fold_left length].
  pose proof (pow2_pos (length sibs)). rewrite pow2_S.
  assert (E2 : (k mod (2 * pow2 (length sibs))) mod 2 = k mod 2)
    by (rewrite Z.rem_mul_r by lia; rewrite Z.mul_comm, Z.mod_add, Z.mod_mod; lia).
  assert (Ed : (k mod (2 * pow2 (length sibs))) / 2 = (k / 2) mod pow2 (length sibs)).
  { rewrite Z.rem_mul_r by lia. rewrite Z.mul_comm, Z.div_add by lia.
    rewrite (Z.div_small (k mod 2)); [lia|]. apply Z.mod_pos_bound. lia. }
  rewrite !fold_step_pair. unfold fold_pair. rewrite E2, Ed. apply IH.
Qed.

(** *** [AccumulatorProof::verify] *)
Lemma AccumulatorProof_verify_iff sibs root h i :
  AccumulatorProof_verify (mkAccumulatorProof sibs) root h i = Ok tt <->
  (length sibs <= 63)%nat /\
  fst (fold_left accumulator_fold_step sibs (h, i)) = root.
Proof.
  unfold AccumulatorProof_verify, MAX_ACCUMULATOR_PROOF_DEPTH. cbn [siblings].
  rewrite bind_Ok. split.
  - intros ([] & Hl & Hr). apply ensure_Ok in Hl.
    apply bind_Ok in Hr as ([] & Hr & _). apply ensure_Ok, bool_decide_eq_true in Hr.
    split; [lia|done].
  - intros [Hl <-]. exists tt. rewrite !ensure_true; [done| |lia].
    by apply bool_decide_eq_true.
Qed.

(** The proof of leaf [i] of the tree over [L]. *)
Definition spec_proof L (i : Z) : AccumulatorProof HV :=
  mkAccumulatorProof (hashes_at L (sib_nodes (rootl (zlen L)) 0 i)).

Lemma spec_proof_ok L i h : zlen L <= 2 ^ 63 -> 0 <= i -> L !! Z.to_nat i = Some h ->
  AccumulatorProof_verify (spec_proof L i) (spec_root L) h i = Ok tt.
Proof.
  intros Hn Hi Hl. pose proof (lookup_lt_Some _ _ _ Hl).
  assert (Hlt : i < zlen L) by (unfold zlen; lia).
  apply AccumulatorProof_verify_iff. unfold hashes_at. rewrite length_map, sib_nodes_length.
  split; [apply rootl_le_63; lia|].
  rewrite <- (node_hash_0 L i h Hi Hl). unfold hashes_at.
  change (map _ ?x) with (hashes_at L x). rewrite fold_complete by (rewrite ?pow2_0; lia).
  cbn [fst]. rewrite Z.div_small; [done|].
  pose proof (rootl_cover (zlen L)). lia.
Qed.

Lemma AccumulatorProof_sound_gen L sibs h i :
  0 <= i < zlen L -> length sibs = rootl (zlen L) ->
  AccumulatorProof_verify (mkAccumulatorProof sibs) (spec_root L) h i = Ok tt ->
  (L !! Z.to_nat i = Some h /\ mkAccumulatorProof sibs = spec_proof L i) \/
  collision (in_list (fold_pairs h i sibs)) (tree_pair L).
Proof.
  intros Hi Hlen Hv. apply AccumulatorProof_verify_iff in Hv as [_ E].
  destruct (lookup_lt_is_Some_2 L (Z.to_nat i)) as [g Hg]; [unfold zlen in *; lia|].
  destruct (fold_sound L sibs 0 i h) as [[-> Es]|Hc]; [lia|rewrite pow2_0; lia| | |by right].
  - rewrite E. unfold spec_root. rewrite Hlen, Nat.add_0_l.
    f_equal. rewrite Z.div_small; [done|]. pose proof (rootl_cover (zlen L)). lia.
  - left. rewrite (node_hash_0 L i g) by (done || lia). split; [done|].
    unfold spec_proof. rewrite <- Hlen. by rewrite <- Es.
Qed.

(** *** Soundness for proofs of any length

    A proof that is too short shows an inner node as a leaf, one that is too
    long hashes something to a leaf or to the placeholder.  Either needs the leaf
    hashes and the node hashes to meet. *)

(** A pair of [p] hashes to a leaf of [L] or to the placeholder. *)
Definition meets_leaf (p : HV * HV -> Prop) L : Prop :=
  exists x, p x /\ (hash_node (fst x) (snd x) ∈ L \/
                   hash_node (fst x) (snd x) = ACCUMULATOR_PLACEHOLDER_HASH).

(** [h] is the hash of an inner node of the tree, or the placeholder. *)
Definition inner_hash L (h : HV) : Prop :=
  h = ACCUMULATOR_PLACEHOLDER_HASH \/ exists x, tree_pair L x /\ h = hash_node (fst x) (snd x).

(** A hashed pair that equals a node of the tree: the node has the pair as its
    children, or something went wrong. *)
Lemma hashed_node_cases L (p : HV * HV -> Prop) a b l k : 0 <= k -> p (a, b) ->
  hash_node a b = node_hash L l k ->
  (exists l', l = S l' /\ a = node_hash L l' (2 * k) /\ b = node_hash L l' (2 * k + 1)) \/
  collision p (tree_pair L) \/ meets_leaf p L.
Proof.
  intros Hk Hp E. destruct (Z.lt_ge_cases (k * pow2 l) (zlen L)) as [Hlt|Hge].
  2:{ right; right. exists (a, b). rewrite node_hash_placeholder in E by lia. by eauto. }
  destruct l as [|l].
  - rewrite pow2_0 in Hlt. destruct (lookup_lt_is_Some_2 L (Z.to_nat k)) as [h Hh];
      [unfold zlen in *; lia|].
    right; right. exists (a, b). split; [done|left]. cbn [fst snd].
    rewrite E, (node_hash_0 L k h) by done. by eapply list_elem_of_lookup_2.
  - rewrite node_hash_S in E by done.
    destruct (hash_node_agree p (tree_pair L) _ _ _ _ E Hp) as [[-> ->]|]; [|by eauto..].
    by apply tree_pair_S.
Qed.

Lemma fold_pairs_snoc : forall sibs h i s,
  let '(h', i') := fold_left accumulator_fold_step sibs (h, i) in
  fold_pairs h i (sibs ++ [s]) = fold_pairs h i sibs ++ [fold_pair h' i' s] /\
  i' = i / pow2 (length sibs).
Proof.
  induction sibs as [|x sibs IH]; intros h i s.
  - cbn. by rewrite pow2_0, Z.div_1_r.
  - cbn [fold_left app fold_pairs]. rewrite fold_step_pair.
    set (h1 := hash_node _ _). specialize (IH h1 (i / 2) s).
    destruct (fold_left _ _ _) as [h' i']. destruct IH as [-> ->]. split; [done|].
    cbn [length]. by rewrite div_pow2_S.
Qed.

Lemma fold_descend L h i : 0 <= i -> forall sibs l k, 0 <= k ->
  fst (fold_left accumulator_fold_step sibs (h, i)) = node_hash L l k ->
  ((length sibs <= l)%nat /\
   h = node_hash L (l - length sibs) (k * pow2 (length sibs) + i mod pow2 (length sibs))) \/
  collision (in_list (fold_pairs h i sibs)) (tree_pair L) \/
  meets_leaf (in_list (fold_pairs h i sibs)) L.
Proof.
  intros Hi sibs. induction sibs as [|s sibs IH] using rev_ind; intros l k Hk E.
  - cbn in E |- *. left. split; [lia|]. rewrite Nat.sub_0_r, pow2_0, Z.mul_1_r, Z.mod_1_r, Z.add_0_r.
    done.
  - rewrite fold_left_app in E. cbn [fold_left] in E.
    pose proof (fold_pairs_snoc sibs h i s) as Hps.
    destruct (fold_left accumulator_fold_step sibs (h, i)) as [h' i'] eqn:Ef.
    destruct Hps as [-> Ei']. rewrite fold_step_pair in E. cbn [fst] in E, IH.
    destruct (hashed_node_cases L (in_list (fold_pairs h i sibs ++ [fold_pair h' i' s]))
                (fst (fold_pair h' i' s)) (snd (fold_pair h' i' s)) l k Hk) as [(l' & -> & Ea & Eb)|];
      [rewrite <- surjective_pairing; unfold in_list; set_solver|done| |by right].
    assert (Eh' : h' = node_hash L l' (2 * k + i' mod 2)).
    { unfold fold_pair in Ea, Eb. pose proof (Z.mod_pos_bound i' 2 ltac:(lia)).
      destruct (Z.eqb_spec (i' mod 2) 0) as [E2|E2]; cbn [fst snd] in *.
      - by rewrite E2, Z.add_0_r.
      - replace (i' mod 2) with 1 by lia. done. }
    pose proof (Z.mod_pos_bound i' 2 ltac:(lia)).
    destruct (IH l' (2 * k + i' mod 2)) as [[Hl Eh]|[Hc|Hm]]; [lia|done|left|right; left|right; right].
    + rewrite length_app. cbn [length]. rewrite Nat.add_1_r. split; [lia|]. rewrite Eh. f_equal.
      pose proof (pow2_pos (length sibs)).
      pose proof (Z.rem_mul_r i (pow2 (length sibs)) 2 ltac:(lia) ltac:(lia)) as Em.
      rewrite <- Ei' in Em. rewrite pow2_S, (Z.mul_comm 2 (pow2 _)). lia.
    + eapply collision_sub; [|exact Hc]. set_solver.
    + destruct Hm as (x & Hx & ?). exists x. split; [|done]. unfold in_list in *. set_solver.
Qed.

Lemma AccumulatorProof_sound_any L sibs h i :
  0 <= i < zlen L -> AccumulatorProof_verify (mkAccumulatorProof sibs) (spec_root L) h i = Ok tt ->
  L !! Z.to_nat i = Some h \/ inner_hash L h \/
  collision (in_list (fold_pairs h i sibs)) (tree_pair L) \/
  meets_leaf (in_list (fold_pairs h i sibs)) L.
Proof.
  intros Hi Hv. apply AccumulatorProof_verify_iff in Hv as [_ E].
  apply fold_descend in E as [[Hl Eh]|]; [|by eauto|lia..].
  rewrite Z.mul_0_l, Z.add_0_l in Eh. set (d := length sibs) in *.
  destruct (rootl (zlen L) - d)%nat as [|e] eqn:Ed.
  - left. rewrite Z.mod_small in Eh.
    + destruct (lookup_lt_is_Some_2 L (Z.to_nat i)) as [g Hg]; [unfold zlen in *; lia|].
      by rewrite (node_hash_0 L i g) in Eh by (done || lia); subst.
    + pose proof (rootl_cover (zlen L)). replace d with (rootl (zlen L)) by lia. lia.
  - right; left. pose proof (pow2_pos d). pose proof (Z.mod_pos_bound i (pow2 d) ltac:(lia)).
    destruct (Z.lt_ge_cases (i mod pow2 d * pow2 (S e)) (zlen L)).
    + right. eexists. split; [apply (tree_pair_S L e (i mod pow2 d)); lia|].
      by rewrite Eh, node_hash_S by done.
    + left. by rewrite Eh, node_hash_placeholder by lia.
Qed.
End Inclusion.
