(* ===== verification/MerkleAccumulator.v ===== *)
(** * The persistent Merkle accumulator

    Model of [storage/accumulator/src/lib.rs]: the accumulator over a storage of
    frozen nodes that is read through [HashReader].  [append] computes the new
    root and the nodes to freeze; the proof generators read frozen nodes and
    compute the others. *)
From stdpp Require Import base list numbers strings option.
From Stdlib Require Import ZArith Lia Bool.
From S2P Require Import Prelude Position Hash MerkleSpec InMemoryAccumulator AccumulatorProof.

(** [trait HashReader]. *)
Class HashReader (R HV : Type) := reader_get : R -> Position -> outcome HV.

Module MerkleAccumulatorView.
Section View.
Context {R HV : Type} `{HashValueOps HV} `{CryptoHasher HV} `{HashReader R HV}.

(** [MerkleAccumulatorView { reader, num_leaves }] is passed as two arguments;
    [Node] is a position with its hash. *)
Definition Node : Type := Position * HV.

Definition usize_max : Z := u64_max.

Definition max_to_freeze (num_new_leaves root_level : Z) : outcome Z :=
  _ ← assert (root_level <=? MAX_ACCUMULATOR_PROOF_DEPTH)
        "root_level as usize <= MAX_ACCUMULATOR_PROOF_DEPTH";
  _ ← assert (num_new_leaves <? usize_max / 2) "num_new_leaves < (usize::max_value() / 2)";
  d ← mul64 num_new_leaves 2;
  lim ← sub64 usize_max root_level;
  _ ← assert (d <=? lim) "num_new_leaves * 2 <= usize::max_value() - root_level as usize";
  add64 d root_level.

Definition hash_internal_node (left right : HV) : HV := hash_node left right.

Definition rightmost_leaf_index (num_leaves : LeafCount) : outcome Z := sub64 num_leaves 1.

(** [get_hash] descends one level per call and a position has at most 64
    levels. *)
Fixpoint get_hash_fuel (fuel : nat) (reader : R) (num_leaves : LeafCount)
    (position : Position) : outcome HV :=
  match fuel with
  | O => Panic "out of fuel"
  | S fuel =>
      idx ← rightmost_leaf_index num_leaves;
      placeholder ← is_placeholder position idx;
      if (placeholder : bool) then Ok ACCUMULATOR_PLACEHOLDER_HASH
      else
        freezable ← is_freezable position idx;
        if (freezable : bool) then reader_get reader position
        else
          left_position ← left_child position;
          left_hash ← get_hash_fuel fuel reader num_leaves left_position;
          right_position ← right_child position;
          right_hash ← get_hash_fuel fuel reader num_leaves right_position;
          Ok (hash_internal_node left_hash right_hash)
  end.

Definition get_hash (reader : R) (num_leaves : LeafCount) (position : Position) : outcome HV :=
  get_hash_fuel 65 reader num_leaves position.

Definition get_hashes (reader : R) (num_leaves : LeafCount) (positions : list Position)
  : outcome (list HV) := mapM (get_hash reader num_leaves) positions.

Definition get_root_hash (reader : R) (num_leaves : LeafCount) : outcome HV :=
  root ← root_from_leaf_count num_leaves; get_hash reader num_leaves root.

(** The hash of the left sibling of [pos]: a node made in this call, or one
    that storage already has. *)
Definition combine_left (reader : R) (pos : Position) (hash : HV) (left_siblings : list Node)
  : outcome (HV * list Node) :=
  sibling ← sibling pos;
  match vec_pop left_siblings with
  | Some ((x, left_hash), left_siblings) =>
      _ ← assert (x =? sibling) "assertion `left == right` failed";
      Ok (hash_internal_node left_hash hash, left_siblings)
  | None =>
      left_hash ← reader_get reader sibling;
      Ok (hash_internal_node left_hash hash, left_siblings)
  end.

(** [while pos.is_right_child()]: freeze the parents a new leaf completes.  A
    position has at most 64 ancestors. *)
Fixpoint freeze_loop (fuel : nat) (reader : R) (pos : Position) (hash : HV)
    (to_freeze left_siblings : list Node)
  : outcome (Position * HV * list Node * list Node) :=
  is_right ← is_right_child pos;
  if (is_right : bool) then
    match fuel with
    | O => Panic "out of fuel"
    | S fuel =>
        c ← combine_left reader pos hash left_siblings;
        let '(hash, left_siblings) := c in
        pos ← parent pos;
        freeze_loop fuel reader pos hash (to_freeze ++ [(pos, hash)]) left_siblings
    end
  else Ok (pos, hash, to_freeze, left_siblings).

(** The loop over the new leaves, from leaf index [index]. *)
Fixpoint append_leaves (reader : R) (num_leaves leaf_offset : Z) (new_leaves : list HV)
    (to_freeze left_siblings : list Node) : outcome (list Node * list Node) :=
  match new_leaves with
  | [] => Ok (to_freeze, left_siblings)
  | leaf :: new_leaves =>
      index ← add64 num_leaves leaf_offset;
      leaf_pos ← from_leaf_index index;
      r ← freeze_loop 64 reader leaf_pos leaf (to_freeze ++ [(leaf_pos, leaf)]) left_siblings;
      let '(pos, hash, to_freeze, left_siblings) := r in
      append_leaves reader num_leaves (leaf_offset + 1) new_leaves to_freeze
        (left_siblings ++ [(pos, hash)])
  end.

(** [for _ in pos.level()..root_level]: walk up to the root. *)
Fixpoint root_loop (n : nat) (reader : R) (pos : Position) (hash : HV)
    (left_siblings : list Node) : outcome (HV * list Node) :=
  match n with
  | O => Ok (hash, left_siblings)
  | S n =>
      is_left ← is_left_child pos;
      c ← (if (is_left : bool)
           then Ok (hash_internal_node hash ACCUMULATOR_PLACEHOLDER_HASH, left_siblings)
           else combine_left reader pos hash left_siblings);
      let '(hash, left_siblings) := c in
      pos ← parent pos;
      root_loop n reader pos hash left_siblings
  end.

Definition append (reader : R) (num_leaves : LeafCount) (new_leaves : list HV)
  : outcome (HV * list Node) :=
  match new_leaves with
  | [] =>
      if num_leaves =? 0 then Ok (ACCUMULATOR_PLACEHOLDER_HASH, [])
      else
        root ← root_from_leaf_count num_leaves;
        root_hash ← get_hash reader num_leaves root;
        Ok (root_hash, [])
  | _ =>
      let num_new_leaves := Z.of_nat (length new_leaves) in
      last_new_leaf_count ← add64 num_leaves num_new_leaves;
      root_level ← root_level_from_leaf_count last_new_leaf_count;
      _ ← max_to_freeze num_new_leaves root_level;
      r ← append_leaves reader num_leaves 0 new_leaves [] [];
      let '(to_freeze, left_siblings) := r in
      top ← expect (vec_pop left_siblings) "Must have at least one node";
      let '((pos, hash), left_siblings) := top in
      w ← root_loop (Z.to_nat (root_level - level pos)) reader pos hash left_siblings;
      let '(hash, left_siblings) := w in
      _ ← assert (match left_siblings with [] => true | _ => false end)
            "left_siblings.is_empty()";
      Ok (hash, to_freeze)
  end.

(** [Iterator::filter] with a predicate that may panic. *)
Fixpoint filter_positions (f : Position -> outcome bool) (ps : list Position)
  : outcome (list Position) :=
  match ps with
  | [] => Ok []
  | p :: ps =>
      b ← f p;
      rest ← filter_positions f ps;
      Ok (if (b : bool) then p :: rest else rest)
  end.

Definition get_sibling_positions (num_leaves : LeafCount) (leaf_index : Z)
    (filter : Position -> outcome bool) : outcome (list Position) :=
  root_pos ← root_from_leaf_count num_leaves;
  leaf_pos ← from_leaf_index leaf_index;
  ps ← take_next AncestorSiblingIterator_next (Z.to_nat (level root_pos)) leaf_pos;
  filter_positions filter ps.

Definition get_siblings (reader : R) (num_leaves : LeafCount) (leaf_index : Z)
    (filter : Position -> outcome bool) : outcome (list HV) :=
  ps ← get_sibling_positions num_leaves leaf_index filter;
  get_hashes reader num_leaves ps.

Definition get_proof (reader : R) (num_leaves : LeafCount) (leaf_index : Z)
  : outcome (AccumulatorProof HV) :=
  _ ← ensure (leaf_index <? num_leaves) "invalid leaf_index";
  siblings ← get_siblings reader num_leaves leaf_index (fun _ => Ok true);
  Ok (mkAccumulatorProof siblings).

(** The sibling iterator ends after at most 129 subtrees. *)
Definition get_consistency_proof (reader : R) (num_leaves sub_acc_leaves : LeafCount)
  : outcome (AccumulatorConsistencyProof HV) :=
  _ ← ensure (sub_acc_leaves <=? num_leaves)
        "Can't get accumulator consistency proof for a version newer than the local version.";
  it ← FrozenSubtreeSiblingIterator_new sub_acc_leaves num_leaves;
  ps ← collect FrozenSubtreeSiblingIterator_next 131 it;
  subtrees ← mapM (reader_get reader) ps;
  Ok (mkAccumulatorConsistencyProof subtrees).

Definition get_range_proof_positions (num_leaves : LeafCount) (first_leaf_index : option Z)
    (num_range_leaves : LeafCount) : outcome (list Position * list Position) :=
  match first_leaf_index with
  | None =>
      _ ← ensure (num_range_leaves =? 0)
            "num_leaves is not zero while first_leaf_index is None.";
      Ok ([], [])
  | Some first_leaf_index =>
      _ ← ensure (0 <? num_range_leaves)
            "num_leaves is zero while first_leaf_index is not None.";
      let sum := first_leaf_index + (num_range_leaves - 1) in
      last_leaf_index ← ok_or (if sum <? U64 then Some sum else None)
        "Requesting too many leaves.";
      _ ← ensure (last_leaf_index <? num_leaves) "Invalid last_leaf_index";
      left_siblings ← get_sibling_positions num_leaves first_leaf_index is_left_child;
      right_siblings ← get_sibling_positions num_leaves last_leaf_index is_right_child;
      Ok (left_siblings, right_siblings)
  end.

Definition get_range_proof (reader : R) (num_leaves : LeafCount)
    (first_leaf_index : option Z) (num_range_leaves : LeafCount)
  : outcome (AccumulatorRangeProof HV) :=
  ps ← get_range_proof_positions num_leaves first_leaf_index num_range_leaves;
  left_hashes ← get_hashes reader num_leaves (fst ps);
  right_hashes ← get_hashes reader num_leaves (snd ps);
  Ok (mkAccumulatorRangeProof left_hashes right_hashes).

Definition get_frozen_subtree_hashes (reader : R) (num_leaves : LeafCount)
  : outcome (list HV) :=
  ps ← collect FrozenSubTreeIterator_next 65 (FrozenSubTreeIterator_new num_leaves);
  mapM (reader_get reader) ps.
End View.
End MerkleAccumulatorView.
