(* ===== verification/MerkleAccumulatorFacts.v ===== *)
(** * The persistent accumulator against the reference tree

    A reader is correct for [L] when it returns the hash of every full subtree of
    the tree over [L].  Under that contract the roots, proofs and appends
    computed from storage are those of the reference tree, and writing the nodes
    [append] returns re-establishes the contract for the longer list. *)
From stdpp Require Import base list numbers strings option.
From Stdlib Require Import ZArith Lia Bool.
From S2P Require Import Prelude Position Hash MerkleSpec InMemoryAccumulator AccumulatorSound AccumulatorProof AccumulatorProofFacts MerkleAccumulator.
Import MerkleAccumulatorView.

(** The sibling iterator from a node, for as long as there is a level above. *)
Lemma take_siblings d : forall l k, 0 <= k -> (k + 1) * pow2 l <= 2 ^ 63 ->
  (l = 0%nat -> k + 1 < 2 ^ 63) -> (l + d <= 63)%nat ->
  take_next AncestorSiblingIterator_next d (mkpos l k) = Ok (map node_pos (sib_nodes d l k)).
Proof.
  induction d as [|d IH]; intros l k Hk Hb Hl Hd; [done|].
  pose proof (mkpos_bound_inv l k Hk Hb Hl). pose proof (half_fits l k Hk Hb ltac:(lia)).
  assert (E : AncestorSiblingIterator_next (mkpos l k) =
              Ok (mkpos l (sib k), mkpos (S l) (k / 2))).
  { unfold AncestorSiblingIterator_next. by rewrite sibling_mkpos, parent_mkpos by (done || lia). }
  cbn [take_next]. rewrite E. osimpl.
  rewrite IH by (done || lia || (apply Z.div_pos; lia)). done.
Qed.

Section Facts.
Context {R HV : Type} `{HashValueOps HV} `{CryptoHasher HV} `{HashReader R HV}.
Implicit Types (L M : list HV) (reader : R).

Definition reader_ok reader L : Prop :=
  forall l k, 0 <= k -> (k + 1) * pow2 l <= zlen L ->
    reader_get reader (mkpos l k) = Ok (node_hash L l k).

(** ** [get_hash] *)
Lemma get_hash_fuel_spec reader L : reader_ok reader L -> 0 < zlen L <= 2 ^ 63 ->
  forall fuel l k, 0 <= k -> mkpos l k < u64_max -> (l < fuel)%nat ->
    get_hash_fuel fuel reader (zlen L) (mkpos l k) = Ok (node_hash L l k).
Proof.
  intros Hrd Hn fuel. induction fuel as [|fuel IH]; intros l k Hk Hp Hf; [lia|].
  cbn [get_hash_fuel]. unfold rightmost_leaf_index. rewrite sub64_Ok by lia. osimpl.
  rewrite is_placeholder_mkpos by lia. osimpl.
  replace (zlen L - 1 + 1) with (zlen L) by lia.
  destruct (Z.leb_spec (zlen L) (k * pow2 l)).
  { by rewrite node_hash_placeholder. }
  rewrite is_freezable_mkpos by lia. osimpl. replace (zlen L - 1 + 1) with (zlen L) by lia.
  destruct (Z.leb_spec ((k + 1) * pow2 l) (zlen L)); [by apply Hrd|].
  destruct l as [|l]; [rewrite pow2_0 in *; lia|].
  assert (Hodd : mkpos (S l) k < u64_max - 1).
  { rewrite mkpos_alt, pow2_S in *. unfold u64_max, U64 in *. lia. }
  pose proof (pow2_pos l). rewrite left_child_mkpos, right_child_mkpos by done. osimpl.
  rewrite !IH; [osimpl; by rewrite node_hash_S|..]; try lia.
  all: pose proof (mkpos_width _ _ Hk Hp); rewrite mkpos_alt, !pow2_S in *; unfold u64_max; nia.
Qed.

Lemma get_hash_spec reader L l k : reader_ok reader L -> 0 < zlen L <= 2 ^ 63 ->
  0 <= k -> mkpos l k < u64_max -> get_hash reader (zlen L) (mkpos l k) = Ok (node_hash L l k).
Proof.
  intros Hrd Hn Hk Hp. apply get_hash_fuel_spec; try done.
  pose proof (mkpos_level_lt l k Hk Hp). lia.
Qed.

Lemma get_hashes_spec reader L nodes : reader_ok reader L -> 0 < zlen L <= 2 ^ 63 ->
  (forall l k, (l, k) ∈ nodes -> 0 <= k /\ mkpos l k < u64_max) ->
  get_hashes reader (zlen L) (map node_pos nodes) = Ok (hashes_at L nodes).
Proof.
  intros Hrd Hn. induction nodes as [|[l k] nodes IH]; intros Hf; [done|].
  destruct (Hf l k) as [Hk Hp]; [by left|].
  unfold get_hashes in *. cbn [map mapM]. change (node_pos (l, k)) with (mkpos l k).
  rewrite get_hash_spec by done. osimpl. rewrite IH; [done|]. intros; apply Hf; by right.
Qed.

Lemma get_root_hash_spec reader L : reader_ok reader L -> 0 < zlen L <= 2 ^ 63 ->
  get_root_hash reader (zlen L) = Ok (spec_root L).
Proof.
  intros Hrd Hn. unfold get_root_hash. rewrite root_from_leaf_count_spec by done. osimpl.
  apply get_hash_spec; try done. rewrite mkpos_alt.
  pose proof (pow2_mono _ _ (rootl_le_63 (zlen L) Hn)). change (pow2 63) with (2 ^ 63) in *.
  unfold u64_max, U64. lia.
Qed.

(** ** Proof generation *)
Lemma sib_nodes_fit d : forall l k, 0 <= k -> (k + 1) * pow2 l <= 2 ^ 63 ->
  (l + d <= 63)%nat -> forall l' k', (l', k') ∈ sib_nodes d l k ->
  0 <= k' /\ mkpos l' k' < u64_max.
Proof.
  induction d as [|d IH]; intros l k Hk Hb Hd l' k' Hin; [by apply not_elem_of_nil in Hin|].
  apply elem_of_cons in Hin as [[= -> ->]|Hin].
  - destruct (sib_fits l k Hk Hb ltac:(lia)). split; [done|]. by apply mkpos_bound.
  - apply (IH (S l) (k / 2)); [by apply Z.div_pos|by apply half_fits; [..|lia]|lia|done].
Qed.

Lemma filter_positions_true ps : filter_positions (fun _ => Ok true) ps = Ok ps.
Proof. induction ps as [|p ps IH]; [done|]. cbn. by rewrite IH. Qed.

Lemma take_siblings_root n i : 0 <= i < n -> n <= 2 ^ 63 -> i + 1 < 2 ^ 63 ->
  take_next AncestorSiblingIterator_next (Z.to_nat (level (mkpos (rootl n) 0))) (mkpos 0 i) =
  Ok (map node_pos (sib_nodes (rootl n) 0 i)).
Proof.
  intros Hi Hn Hlast. pose proof (rootl_le_63 n ltac:(lia)) as Hr.
  pose proof (pow2_mono _ _ Hr). change (pow2 63) with (2 ^ 63) in *.
  rewrite level_mkpos, Nat2Z.id by (try lia; rewrite mkpos_alt; unfold u64_max, U64; lia).
  apply take_siblings; rewrite ?pow2_0; lia.
Qed.

Lemma get_proof_spec reader L i : reader_ok reader L -> zlen L <= 2 ^ 63 ->
  0 <= i < zlen L -> i + 1 < 2 ^ 63 ->
  get_proof reader (zlen L) i = Ok (spec_proof L i).
Proof.
  intros Hrd Hn Hi Hlast. pose proof (rootl_le_63 (zlen L) ltac:(lia)).
  unfold get_proof, get_siblings, get_sibling_positions.
  rewrite ensure_true by lia. osimpl. rewrite root_from_leaf_count_spec by lia. osimpl.
  rewrite from_leaf_index_mkpos by lia. osimpl. rewrite take_siblings_root by lia. osimpl.
  rewrite filter_positions_true. osimpl. rewrite get_hashes_spec; [done|done|lia|].
  apply sib_nodes_fit; rewrite ?pow2_0; lia.
Qed.

(** ** Consistency proofs *)
Lemma mapM_reader reader L nodes : reader_ok reader L ->
  (forall l k, (l, k) ∈ nodes -> 0 <= k /\ (k + 1) * pow2 l <= zlen L) ->
  mapM (reader_get reader) (map node_pos nodes) = Ok (hashes_at L nodes).
Proof.
  intros Hrd. induction nodes as [|[l k] nodes IH]; intros Hf; [done|].
  destruct (Hf l k) as [Hk Hp]; [by left|].
  cbn [map mapM]. change (node_pos (l, k)) with (mkpos l k). rewrite Hrd by done. osimpl.
  rewrite IH; [done|]. intros; apply Hf; by right.
Qed.

Lemma get_consistency_proof_spec reader L n : reader_ok reader L -> zlen L <= 2 ^ 63 ->
  0 <= n <= zlen L ->
  exists nodes, sib_path n (zlen L - n) nodes /\
    get_consistency_proof reader (zlen L) n =
    Ok (mkAccumulatorConsistencyProof (hashes_at L nodes)).
Proof.
  intros Hrd HL Hn.
  destruct (sibling_collect_spec n (zlen L - n) 131) as (nodes & Hp & Hc); try lia.
  exists nodes. split; [done|]. unfold get_consistency_proof, FrozenSubtreeSiblingIterator_new.
  unfold MAX_ACCUMULATOR_LEAVES. rewrite ensure_true by lia. osimpl.
  rewrite !assert_true by lia. osimpl. rewrite sub64_Ok by lia. osimpl.
  rewrite Hc. osimpl. rewrite (mapM_reader reader L); [done|done|].
  intros l k Hin. destruct (sib_path_frozen _ _ _ Hp ltac:(lia) l k Hin). lia.
Qed.

Lemma get_frozen_subtree_hashes_spec reader L : reader_ok reader L -> zlen L < 2 ^ 63 ->
  get_frozen_subtree_hashes reader (zlen L) = Ok (frozen_hashes L).
Proof.
  intros Hrd HL. pose proof (zlen_nonneg L). unfold get_frozen_subtree_hashes.
  rewrite FrozenSubTreeIterator_spec by lia. osimpl. apply mapM_reader; [done|].
  intros l k Hin. by destruct (frozen_range_In 0 64 (zlen L) l k) as (_ & _ & ? & ?).
Qed.
End Facts.
