(* ===== verification/MerkleAppend.v ===== *)
(** * Appending to the persistent accumulator

    [append] freezes exactly the subtrees that the new leaves complete, in
    post-order and with consecutive post-order numbers, and returns the root of
    the longer list.  Storing those nodes keeps the reader correct, so any number
    of batches can be appended one after the other. *)
From stdpp Require Import base list numbers strings option gmap list_numbers.
From Stdlib Require Import ZArith Lia Bool.
From S2P Require Import Prelude Position Hash MerkleSpec InMemoryAccumulator AccumulatorSound AccumulatorProof AccumulatorProofFacts MerkleAccumulator MerkleAccumulatorFacts.
Import MerkleAccumulatorView.

(** ** The nodes that new leaves complete *)

(** Leaf [i] and the ancestors whose last leaf it is. *)
Definition leaf_chain (t : nat) (i : Z) : list (nat * Z) :=
  map (fun j => (j, i / pow2 j)) (seq 0 (S t)).

Fixpoint new_nodes (n : Z) (m : nat) : list (nat * Z) :=
  match m with
  | O => []
  | S m => leaf_chain (Z.to_nat (level n)) n ++ new_nodes (n + 1) m
  end.

(** The frozen nodes that end after leaf [n]. *)
Definition ends_after (n : Z) (x : nat * Z) : Prop := n < (snd x + 1) * pow2 (fst x).
#[export] Instance ends_after_dec n x : Decision (ends_after n x).
Proof. unfold ends_after. apply _. Defined.
Definition newf (n : Z) (nodes : list (nat * Z)) : list (nat * Z) :=
  filter (ends_after n) nodes.

Lemma newf_app n a b : newf n (a ++ b) = newf n a ++ newf n b.
Proof. apply filter_app. Qed.

Lemma newf_none n nodes :
  (forall l k, (l, k) ∈ nodes -> (k + 1) * pow2 l <= n) -> newf n nodes = [].
Proof.
  intros Hn. unfold newf. induction nodes as [|[l k] nodes IH]; [done|].
  rewrite filter_cons_False.
  - apply IH. intros; apply Hn; by right.
  - unfold ends_after. cbn [fst snd]. specialize (Hn l k (list_elem_of_here _ _)). lia.
Qed.

Lemma newf_single n l k : n < (k + 1) * pow2 l -> newf n [(l, k)] = [(l, k)].
Proof. intros. unfold newf. by rewrite filter_cons_True. Qed.

(** Dividing one less than a multiple. *)
Lemma pred_div_pow2 c l d : 0 < c -> (c * pow2 (l + d) - 1) / pow2 l = c * pow2 d - 1.
Proof.
  intros Hc. pose proof (pow2_pos l). pose proof (pow2_pos d). rewrite pow2_add.
  replace (c * (pow2 l * pow2 d) - 1) with ((c * pow2 d - 1) * pow2 l + (pow2 l - 1)) by lia.
  rewrite Z.div_add_l, Z.div_small; lia.
Qed.

Lemma leaf_chain_elem t a l k : 0 <= a ->
  (l, k) ∈ leaf_chain t (mkpos t a) <-> 0 <= k /\ (k + 1) * pow2 l = mkpos t a + 1.
Proof.
  intros Ha. unfold leaf_chain. rewrite list_elem_of_In, in_map_iff. rewrite mkpos_alt.
  pose proof (pow2_pos l). pose proof (pow2_pos t). split.
  - intros (j & [= -> <-] & Hin). apply in_seq in Hin.
    destruct (Nat.le_exists_sub l t) as (d & -> & _); [lia|]. rewrite (Nat.add_comm d l) in *.
    rewrite pred_div_pow2 by lia. pose proof (pow2_pos d). rewrite pow2_add. split; [nia|lia].
  - intros [Hk E]. destruct (odd_part (k + 1)) as (e & b & Hb & Ek); [lia|].
    rewrite Ek in E. replace ((2 * a + 1) * pow2 t - 1 + 1) with ((2 * a + 1) * pow2 t) in E by lia.
    assert (Ee : (e + l)%nat = t /\ b = a).
    { apply (mkpos_inj (e + l) b t a); try lia. rewrite !mkpos_alt, pow2_add. lia. }
    destruct Ee as [<- ->]. exists l. split; [|apply in_seq; lia]. f_equal.
    rewrite (Nat.add_comm e l), pred_div_pow2 by lia. lia.
Qed.

Lemma level_index n : 0 <= n < u64_max ->
  exists t a, 0 <= a /\ n = mkpos t a /\ (t < 64)%nat /\ Z.to_nat (level n) = t.
Proof.
  intros Hn. destruct (mkpos_surj n) as (t & a & Ha & ->); [lia|]. exists t, a.
  rewrite level_mkpos, Nat2Z.id by (done || lia). split_and!; try done.
  by apply (mkpos_level_lt t a); [|lia].
Qed.

(** [new_nodes] are the subtrees that are full with [n + m] leaves and were not
    full with [n]. *)
Lemma new_nodes_elem m : forall n l k, 0 <= n -> n + Z.of_nat m < u64_max -> 0 <= k ->
  (l, k) ∈ new_nodes n m <-> n < (k + 1) * pow2 l <= n + Z.of_nat m.
Proof.
  induction m as [|m IH]; intros n l k Hn Hm Hk.
  - cbn. rewrite elem_of_nil. lia.
  - cbn [new_nodes]. rewrite elem_of_app, IH by lia.
    destruct (level_index n) as (t & a & Ha & En & _ & ->); [lia|].
    rewrite En at 1. rewrite leaf_chain_elem by done. rewrite <- En. lia.
Qed.

Lemma new_nodes_nonneg m : forall n l k, 0 <= n -> (l, k) ∈ new_nodes n m -> 0 <= k.
Proof.
  induction m as [|m IH]; cbn [new_nodes]; intros n l k Hn Hi; [by apply not_elem_of_nil in Hi|].
  apply elem_of_app in Hi as [Hi|Hi]; [|by apply (IH (n + 1)) in Hi; [|lia]].
  unfold leaf_chain in Hi. apply list_elem_of_In, in_map_iff in Hi as (j & [= _ <-] & _).
  apply Z.div_pos; [done|apply pow2_pos].
Qed.

(** ** Post-order numbers *)
Lemma count_ones_mkpos t a : 0 <= a -> count_ones (mkpos t a) = count_ones a + Z.of_nat t.
Proof.
  intros Ha. rewrite mkpos_alt. induction t as [|t IH].
  - rewrite pow2_0. replace ((2 * a + 1) * 1 - 1) with (2 * a) by lia.
    rewrite count_ones_double. lia.
  - rewrite pow2_S. replace ((2 * a + 1) * (2 * pow2 t) - 1)
      with (2 * ((2 * a + 1) * pow2 t - 1) + 1) by lia.
    pose proof (pow2_pos t). rewrite count_ones_succ_double by nia. lia.
Qed.

Definition node_postnum (x : nat * Z) : Z := postnum (fst x) (snd x).

(** The number of frozen nodes of an accumulator of [n] leaves. *)
Definition num_frozen (n : Z) : Z := 2 * n - count_ones n.

Lemma num_frozen_succ t a : 0 <= a ->
  num_frozen (mkpos t a + 1) = num_frozen (mkpos t a) + Z.of_nat (S t).
Proof.
  intros Ha. unfold num_frozen. rewrite count_ones_mkpos by done.
  replace (mkpos t a + 1) with ((2 * a + 1) * pow2 t) by (rewrite mkpos_alt; lia).
  rewrite count_ones_mul_pow2, count_ones_succ_double by done. rewrite mkpos_alt. lia.
Qed.

Lemma leaf_chain_postnum t a : 0 <= a ->
  map node_postnum (leaf_chain t (mkpos t a)) = seqZ (num_frozen (mkpos t a)) (Z.of_nat (S t)).
Proof.
  intros Ha. unfold leaf_chain, seqZ. rewrite map_map, Nat2Z.id.
  apply map_ext_in. intros j Hj%in_seq. unfold node_postnum, postnum. cbn [fst snd].
  unfold num_frozen. rewrite count_ones_mkpos by done.
  destruct (Nat.le_exists_sub j t) as (d & -> & _); [lia|]. rewrite (Nat.add_comm d j) in *.
  assert (E : mkpos (j + d) a / pow2 j = mkpos d a).
  { rewrite !mkpos_alt. by rewrite pred_div_pow2 by lia. }
  rewrite E, count_ones_mkpos by done. rewrite !mkpos_alt, pow2_S, pow2_add. lia.
Qed.

Lemma num_frozen_mono m : forall n, 0 <= n -> n + Z.of_nat m < u64_max ->
  num_frozen n <= num_frozen (n + Z.of_nat m).
Proof.
  induction m as [|m IH]; intros n Hn Hm; [rewrite Z.add_0_r; lia|].
  destruct (level_index n) as (t & a & Ha & En & _ & _); [lia|].
  pose proof (num_frozen_succ t a Ha) as E. rewrite <- En in E.
  specialize (IH (n + 1) ltac:(lia) ltac:(lia)).
  replace (n + Z.of_nat (S m)) with (n + 1 + Z.of_nat m) by lia. lia.
Qed.

Lemma new_nodes_postnum m : forall n, 0 <= n -> n + Z.of_nat m < u64_max ->
  map node_postnum (new_nodes n m) =
  seqZ (num_frozen n) (num_frozen (n + Z.of_nat m) - num_frozen n).
Proof.
  induction m as [|m IH]; intros n Hn Hm.
  - rewrite Z.add_0_r, Z.sub_diag. done.
  - cbn [new_nodes]. rewrite map_app, IH by lia.
    destruct (level_index n) as (t & a & Ha & En & _ & ->); [lia|].
    rewrite En at 1. rewrite leaf_chain_postnum by done. rewrite <- En.
    pose proof (num_frozen_succ t a Ha) as Es. rewrite <- En in Es. rewrite Es.
    pose proof (num_frozen_mono m (n + 1) ltac:(lia) ltac:(lia)).
    rewrite <- seqZ_app by lia. f_equal.
    replace (n + 1 + Z.of_nat m) with (n + Z.of_nat (S m)) by lia. lia.
Qed.

(** ** [append] *)
Section Append.
Context {R HV : Type} `{HashValueOps HV} `{CryptoHasher HV} `{HashReader R HV}.
Implicit Types (L M : list HV) (reader : R).

(** A node of the tree over [L] as [append] returns it. *)
Definition tree_node L (x : nat * Z) : @Node HV := (node_pos x, node_hash L (fst x) (snd x)).

(** Invariant of the loops for leaf [i] at level [j]: the pending left siblings
    are the new full subtrees to the left of the path, from level [j] up. *)
Definition pending L (n i : Z) (j : nat) : list (@Node HV) :=
  map (tree_node L) (newf n (frozen_range j (64 - j) i)).

Lemma pending_even L n i j : (j < 64)%nat -> Z.odd (i / pow2 j) = false ->
  pending L n i j = pending L n i (S j).
Proof.
  intros Hj Ho. rewrite odd_div_testbit in Ho. unfold pending.
  replace (64 - j)%nat with (S (64 - S j)) by lia. rewrite frozen_range_snoc.
  unfold frozen_at. by rewrite Ho, app_nil_r.
Qed.

(** The nodes of the range above level [j] end where the level-[j] one starts. *)
Lemma frozen_above_end i j c l k : 0 <= i -> Z.testbit i (Z.of_nat j) = true ->
  (l, k) ∈ frozen_range (S j) c i -> (k + 1) * pow2 l <= (i / pow2 j - 1) * pow2 j.
Proof.
  intros Hi Hb Hin. pose proof (pow2_pos j). pose proof (pow2_pos (S j)).
  rewrite <- odd_div_testbit in Hb. apply Z.odd_spec in Hb as [q Eq].
  assert (Edq : i / pow2 (S j) = q).
  { destruct (div_step i j Hi) as (_ & -> & _). rewrite Eq.
    Z.to_euclidean_division_equations; lia. }
  assert (Hq : 0 <= q) by (rewrite <- Edq; apply Z.div_pos; lia).
  rewrite Eq. rewrite (frozen_range_ext (S j) c i (q * pow2 (S j))) in Hin.
  - apply frozen_range_In in Hin as (_ & _ & _ & Hle); [|nia]. rewrite pow2_S in Hle. lia.
  - by rewrite Z.div_mul by lia.
Qed.

Lemma combine_left_spec reader L M i j :
  reader_ok reader L -> zlen (L ++ M) < 2 ^ 63 -> zlen L <= i < zlen (L ++ M) -> (j < 63)%nat ->
  Z.odd (i / pow2 j) = true ->
  combine_left reader (mkpos j (i / pow2 j)) (node_hash (L ++ M) j (i / pow2 j))
    (pending (L ++ M) (zlen L) i j) =
  Ok (node_hash (L ++ M) (S j) (i / pow2 (S j)), pending (L ++ M) (zlen L) i (S j)).
Proof.
  intros Hrd HN Hi Hj Ho. pose proof (zlen_nonneg L).
  destruct (ancestor_fits i j) as (Hk & Hf & Hp); [lia..|].
  destruct (div_step i j) as (Hdm & Ed & _); [lia|].
  unfold combine_left. rewrite sibling_mkpos by (done || lia). osimpl.
  assert (Es : sib (i / pow2 j) = i / pow2 j - 1) by (unfold sib; by rewrite <- Z.negb_odd, Ho).
  assert (Hh : hash_internal_node (node_hash (L ++ M) j (i / pow2 j - 1))
                 (node_hash (L ++ M) j (i / pow2 j)) = node_hash (L ++ M) (S j) (i / pow2 (S j))).
  { rewrite Ed. symmetry. apply node_hash_odd; [done..|]. pose proof (pow2_pos j). lia. }
  rewrite Es. unfold pending. replace (64 - j)%nat with (S (64 - S j)) by lia.
  rewrite frozen_range_snoc. unfold frozen_at. rewrite <- odd_div_testbit, Ho.
  rewrite newf_app, map_app. pose proof Ho as Hb. rewrite odd_div_testbit in Hb.
  destruct (Z.lt_ge_cases (zlen L) (i / pow2 j * pow2 j)) as [Hnew|Hold].
  - rewrite newf_single by lia. cbn [map]. rewrite vec_pop_snoc.
    change (tree_node (L ++ M) (j, i / pow2 j - 1))
      with (mkpos j (i / pow2 j - 1), node_hash (L ++ M) j (i / pow2 j - 1)).
    osimpl. rewrite Z.eqb_refl. cbn [assert]. osimpl. by rewrite Hh.
  - rewrite !newf_none; cycle 1.
    { intros l k [[= -> ->]|Hin]%elem_of_cons; [lia|by apply not_elem_of_nil in Hin]. }
    { intros l k Hin. apply frozen_above_end in Hin; [|lia|done]. pose proof (pow2_pos j). lia. }
    cbn [map app vec_pop rev].
    assert (i / pow2 j <> 0) by (intros E; by rewrite E in Ho).
    rewrite Hrd by lia. osimpl. rewrite <- Hh.
    by rewrite (node_hash_app L M j (i / pow2 j - 1)) by lia.
Qed.

Lemma freeze_loop_spec reader L M i t a : reader_ok reader L -> zlen (L ++ M) < 2 ^ 63 ->
  zlen L <= i < zlen (L ++ M) -> i = mkpos t a -> 0 <= a -> (t <= 62)%nat ->
  forall d fuel j fr, (j + d = t)%nat -> (d < fuel)%nat ->
    freeze_loop fuel reader (mkpos j (i / pow2 j)) (node_hash (L ++ M) j (i / pow2 j)) fr
      (pending (L ++ M) (zlen L) i j) =
    Ok (mkpos t (i / pow2 t), node_hash (L ++ M) t (i / pow2 t),
        fr ++ map (tree_node (L ++ M)) (map (fun j => (j, i / pow2 j)) (seq (S j) d)),
        pending (L ++ M) (zlen L) i (S t)).
Proof.
  intros Hrd HN Hi Et Ha Ht. pose proof (zlen_nonneg L).
  induction d as [|d IH]; intros fuel j fr Hj Hf; (destruct fuel as [|fuel]; [lia|]);
    destruct (ancestor_fits i j) as (Hk & Hfit & Hp); try lia; cbn [freeze_loop];
    rewrite is_right_child_mkpos by done; osimpl; rewrite odd_div_testbit.
  - replace (Z.testbit i (Z.of_nat j)) with false.
    + replace t with j in * by lia. rewrite app_nil_r, pending_even; [done|lia|].
      rewrite odd_div_testbit, Et, mkpos_testbit by lia.
      by rewrite bool_decide_false, bool_decide_true by lia.
    + rewrite Et, mkpos_testbit by lia. by rewrite bool_decide_false, bool_decide_true by lia.
  - assert (Hb : Z.testbit i (Z.of_nat j) = true).
    { rewrite Et, mkpos_testbit by lia. by rewrite bool_decide_true by lia. }
    rewrite Hb. rewrite (combine_left_spec reader) by (done || lia || by rewrite odd_div_testbit).
    osimpl. rewrite parent_mkpos by done. osimpl.
    destruct (div_step i j) as (_ & <- & _); [lia|]. rewrite IH by lia.
    rewrite <- app_assoc. done.
Qed.

(** After the leaf, the pending nodes are those of one more leaf. *)
Lemma pending_snoc L n t a : (t < 64)%nat -> 0 <= a -> n <= mkpos t a ->
  pending L n (mkpos t a) (S t) ++ [tree_node L (t, mkpos t a / pow2 t)] =
  pending L n (mkpos t a + 1) 0.
Proof.
  intros Ht Ha Hn. unfold pending. replace (64 - S t)%nat with (63 - t)%nat by lia.
  rewrite Nat.sub_0_r. destruct (frozen_succ t a Ht Ha) as [_ ->].
  rewrite newf_app, map_app, newf_single; [done|].
  rewrite mkpos_alt in *. change ((2 * a + 1) * pow2 t) with ((2 * a + 1) * pow2 t).
  pose proof (pred_div_pow2 (2 * a + 1) t 0 ltac:(lia)) as E.
  rewrite Nat.add_0_r, pow2_0 in E. rewrite E. lia.
Qed.

Lemma append_leaves_spec reader L M : reader_ok reader L -> zlen (L ++ M) < 2 ^ 63 ->
  forall M2 M1 fr, M = M1 ++ M2 ->
    append_leaves reader (zlen L) (zlen M1) M2 fr
      (pending (L ++ M) (zlen L) (zlen L + zlen M1) 0) =
    Ok (fr ++ map (tree_node (L ++ M)) (new_nodes (zlen L + zlen M1) (length M2)),
        pending (L ++ M) (zlen L) (zlen (L ++ M)) 0).
Proof.
  intros Hrd HN. induction M2 as [|h M2 IH]; intros M1 fr EM.
  - rewrite app_nil_r in EM. subst M1. cbn [append_leaves new_nodes length map].
    by rewrite app_nil_r, zlen_app.
  - cbn [append_leaves length new_nodes]. pose proof (zlen_nonneg L). pose proof (zlen_nonneg M1).
    assert (Hlen : zlen L + zlen M1 < zlen (L ++ M)).
    { subst M. rewrite !zlen_app. unfold zlen. cbn [length]. lia. }
    rewrite add64_Ok by (unfold U64; lia). osimpl.
    set (i := zlen L + zlen M1) in *. rewrite from_leaf_index_mkpos by lia. osimpl.
    destruct (level_index i) as (t & a & Ha & En & Ht & ->); [unfold u64_max, U64; lia|].
    assert (Ht62 : (t <= 62)%nat).
    { assert (t < 63)%nat; [|lia]. apply pow2_lt_inv. change (pow2 63) with (2 ^ 63).
      rewrite mkpos_alt in En. pose proof (pow2_pos t). nia. }
    assert (Hh : node_hash (L ++ M) 0 i = h).
    { apply node_hash_0; [lia|]. subst M i. unfold zlen.
      rewrite lookup_app_r, lookup_app_r by lia.
      replace (Z.to_nat _ - length L - length M1)%nat with 0%nat by lia. done. }
    pose proof (freeze_loop_spec reader L M i t a Hrd HN ltac:(lia) En Ha Ht62
                  t 64 0 (fr ++ [(mkpos 0 i, h)]) eq_refl ltac:(lia)) as Hfl.
    rewrite pow2_0, Z.div_1_r, Hh in Hfl. rewrite Hfl. osimpl.
    change (mkpos t (i / pow2 t), node_hash (L ++ M) t (i / pow2 t))
      with (tree_node (L ++ M) (t, i / pow2 t)).
    pose proof (pending_snoc (L ++ M) (zlen L) t a Ht Ha ltac:(lia)) as Hps.
    rewrite <- En in Hps. unfold Node in *. rewrite Hps.
    specialize (IH (M1 ++ [h])). rewrite zlen_app in IH. change (zlen [h]) with 1 in IH.
    rewrite Z.add_assoc in IH. fold i in IH. rewrite IH by (by rewrite <- app_assoc).
    f_equal. f_equal. rewrite map_app, <- !app_assoc. f_equal.
    unfold leaf_chain. cbn [seq map app]. rewrite pow2_0, Z.div_1_r.
    change (tree_node (L ++ M) (0%nat, i)) with (mkpos 0 i, node_hash (L ++ M) 0 i).
    by rewrite Hh.
Qed.

Lemma root_loop_spec reader L M i : reader_ok reader L -> zlen (L ++ M) < 2 ^ 63 ->
  zlen L <= i -> i + 1 = zlen (L ++ M) ->
  forall c j, (j + c <= 63)%nat ->
    root_loop c reader (mkpos j (i / pow2 j)) (node_hash (L ++ M) j (i / pow2 j))
      (pending (L ++ M) (zlen L) i j) =
    Ok (node_hash (L ++ M) (j + c) (i / pow2 (j + c)), pending (L ++ M) (zlen L) i (j + c)).
Proof.
  intros Hrd HN Hi EN. pose proof (zlen_nonneg L).
  induction c as [|c IH]; intros j Hj; [by rewrite Nat.add_0_r|].
  destruct (ancestor_fits i j) as (Hk & Hfit & Hp); [lia..|]. cbn [root_loop].
  rewrite is_left_child_mkpos by done. osimpl.
  destruct (div_step i j) as (Hdm & Ed & _); [lia|].
  assert (Hstep : (if Z.even (i / pow2 j)
      then Ok (hash_internal_node (node_hash (L ++ M) j (i / pow2 j)) ACCUMULATOR_PLACEHOLDER_HASH,
               pending (L ++ M) (zlen L) i j)
      else combine_left reader (mkpos j (i / pow2 j)) (node_hash (L ++ M) j (i / pow2 j))
             (pending (L ++ M) (zlen L) i j)) =
    Ok (node_hash (L ++ M) (S j) (i / pow2 (S j)), pending (L ++ M) (zlen L) i (S j))).
  { destruct (Z.even (i / pow2 j)) eqn:Ev.
    - rewrite pending_even by (try lia; by rewrite <- Z.negb_even, Ev).
      rewrite Ed, (node_hash_even _ _ _ Hk Ev) by lia.
      by rewrite (node_hash_placeholder (L ++ M) j (i / pow2 j + 1)) by lia.
    - apply combine_left_spec; try done; try lia. by rewrite <- Z.negb_even, Ev. }
  rewrite Hstep. osimpl. rewrite parent_mkpos by done. osimpl. rewrite <- Ed, IH by lia.
  by rewrite Nat.add_succ_comm.
Qed.

Lemma max_to_freeze_Ok n l : 0 <= n <= 2 ^ 63 - 32 -> (l <= 63)%nat ->
  max_to_freeze n (Z.of_nat l) = Ok (n * 2 + Z.of_nat l).
Proof.
  intros Hn Hl. unfold max_to_freeze, MAX_ACCUMULATOR_PROOF_DEPTH, usize_max, u64_max, mul64, U64.
  change ((2 ^ 64 - 1) / 2) with (2 ^ 63 - 1). rewrite assert_true by lia. osimpl.
  rewrite assert_true by lia. osimpl. rewrite (proj2 (Z.ltb_lt (n * 2) _)) by lia. osimpl.
  rewrite sub64_Ok by lia. osimpl. rewrite assert_true by lia. osimpl.
  apply add64_Ok. unfold U64. lia.
Qed.

(** The result of [append] on a batch of at least one leaf. *)
Lemma append_nonempty reader L M : reader_ok reader L -> M <> [] ->
  zlen L + zlen M <= 2 ^ 63 - 32 ->
  append reader (zlen L) M =
  Ok (spec_root (L ++ M), map (tree_node (L ++ M)) (new_nodes (zlen L) (length M))).
Proof.
  intros Hrd HM HN. pose proof (zlen_nonneg L). pose proof (zlen_nonneg M).
  assert (EN : zlen (L ++ M) = zlen L + zlen M) by apply zlen_app.
  assert (HM0 : 0 < zlen M) by (destruct M; [done|unfold zlen; cbn [length]; lia]).
  pose proof (rootl_le_63 (zlen (L ++ M)) ltac:(lia)) as Hr.
  pose proof (append_leaves_spec reader L M Hrd ltac:(lia) M [] [] eq_refl) as Hal.
  change (zlen []) with 0 in Hal. rewrite Z.add_0_r in Hal.
  replace (pending (L ++ M) (zlen L) (zlen L) 0) with (@nil (@Node HV)) in Hal.
  2:{ unfold pending. rewrite newf_none; [done|]. intros l k Hin.
      by apply frozen_range_In in Hin as (_ & _ & _ & ?). }
  destruct M as [|h M']; [done|]. unfold append.
  change (Z.of_nat (length (h :: M'))) with (zlen (h :: M')). set (M := h :: M') in *.
  rewrite add64_Ok by (unfold U64; lia). osimpl.
  rewrite <- EN, root_level_spec by lia. osimpl. rewrite max_to_freeze_Ok by lia. osimpl.
  rewrite Hal. osimpl. cbn [app].
  destruct (level_index (zlen (L ++ M) - 1)) as (t & a & Ha & Et & Ht & _);
    [unfold u64_max, U64; lia|].
  pose proof (pending_snoc (L ++ M) (zlen L) t a Ht Ha ltac:(lia)) as Hps.
  rewrite <- Et in Hps. replace (zlen (L ++ M) - 1 + 1) with (zlen (L ++ M)) in Hps by lia.
  rewrite <- Hps, vec_pop_snoc. cbn [expect]. set (i := zlen (L ++ M) - 1) in *.
  change (tree_node (L ++ M) (t, i / pow2 t))
    with (mkpos t (i / pow2 t), node_hash (L ++ M) t (i / pow2 t)). osimpl.
  assert (Htr : (t <= rootl (zlen (L ++ M)))%nat).
  { destruct (le_lt_dec t (rootl (zlen (L ++ M)))) as [|Hlt]; [done|].
    apply pow2_lt_mono in Hlt. pose proof (rootl_cover (zlen (L ++ M)) ltac:(lia)).
    rewrite mkpos_alt in Et. pose proof (pow2_pos t). nia. }
  destruct (ancestor_fits i t) as (Hq & _ & Hp); [lia..|].
  rewrite level_mkpos by (done || lia).
  replace (Z.to_nat _) with (rootl (zlen (L ++ M)) - t)%nat by lia.
  rewrite <- pending_even; [|lia|].
  2:{ rewrite odd_div_testbit, Et, mkpos_testbit by lia.
      by rewrite bool_decide_false, bool_decide_true by lia. }
  rewrite (root_loop_spec reader L M i) by (done || lia). osimpl.
  replace (t + (rootl (zlen (L ++ M)) - t))%nat with (rootl (zlen (L ++ M))) by lia.
  pose proof (rootl_cover (zlen (L ++ M)) ltac:(lia)).
  unfold pending. rewrite frozen_range_zero by lia. cbn [newf map]. osimpl.
  unfold spec_root. rewrite Z.div_small by lia. done.
Qed.

Lemma append_nil reader L : reader_ok reader L -> zlen L <= 2 ^ 63 ->
  append reader (zlen L) [] = Ok (spec_root L, []).
Proof.
  intros Hrd HN. pose proof (zlen_nonneg L). cbn [append].
  destruct (Z.eqb_spec (zlen L) 0) as [E|E].
  - destruct L; [by rewrite spec_root_nil|unfold zlen in E; cbn in E; lia].
  - assert (Hn : 0 < zlen L <= 2 ^ 63) by lia.
    pose proof (get_root_hash_spec reader L Hrd Hn) as Hg. unfold get_root_hash in Hg.
    rewrite root_from_leaf_count_spec in * by exact Hn. rewrite obind_Ok in Hg.
    by rewrite obind_Ok, Hg, obind_Ok.
Qed.

Lemma append_spec_all reader L M : reader_ok reader L -> zlen L + zlen M <= 2 ^ 63 - 32 ->
  append reader (zlen L) M =
  Ok (spec_root (L ++ M), map (tree_node (L ++ M)) (new_nodes (zlen L) (length M))).
Proof.
  intros Hrd HN. pose proof (zlen_nonneg M). destruct M as [|h M].
  - rewrite app_nil_r, append_nil; [reflexivity|done|lia].
  - by apply append_nonempty.
Qed.
End Append.

(** ** Storing what [append] returns *)
Section Store.
Context {R HV : Type} `{HashValueOps HV} `{CryptoHasher HV} `{HashReader R HV}.
Implicit Types (L M : list HV) (reader : R).

(** [reader'] is storage [reader] after the nodes were written. *)
Definition stored reader (nodes : list (@Node HV)) (reader' : R) : Prop :=
  (forall p h, (p, h) ∈ nodes -> reader_get reader' p = Ok h) /\
  (forall p, p ∉ map fst nodes -> reader_get reader' p = reader_get reader p).

Lemma append_stored reader reader' L M root nodes :
  reader_ok reader L -> zlen L + zlen M <= 2 ^ 63 - 32 ->
  append reader (zlen L) M = Ok (root, nodes) -> stored reader nodes reader' ->
  reader_ok reader' (L ++ M).
Proof.
  intros Hrd HN Hap [Hin Hout]. rewrite append_spec_all in Hap by done.
  injection Hap as <- <-. intros l k Hk Hle. rewrite zlen_app in Hle.
  pose proof (zlen_nonneg L). pose proof (zlen_nonneg M).
  assert (Hm : zlen L + Z.of_nat (length M) < u64_max) by (unfold zlen, u64_max, U64 in *; lia).
  destruct (Z.lt_ge_cases (zlen L) ((k + 1) * pow2 l)) as [Hnew|Hold].
  - apply Hin, list_elem_of_In, in_map_iff. exists (l, k). split; [done|].
    by apply list_elem_of_In, new_nodes_elem.
  - rewrite node_hash_app by lia. rewrite Hout; [by apply Hrd|].
    rewrite map_map, list_elem_of_In, in_map_iff. intros ([l' k'] & E & Hi).
    apply list_elem_of_In in Hi. cbn [tree_node fst] in E. unfold node_pos in E. cbn [fst snd] in E.
    pose proof (new_nodes_nonneg _ _ _ _ (zlen_nonneg L) Hi) as Hk'.
    destruct (mkpos_inj l' k' l k Hk' Hk E) as [-> ->]. apply new_nodes_elem in Hi; lia.
Qed.
End Store.

(** A store that keeps the nodes in a finite map. *)
Section MapStore.
Context {HV : Type} `{HashValueOps HV} `{CryptoHasher HV}.

#[export] Instance map_reader : HashReader (gmap Z HV) HV := fun s p =>
  match s !! p with Some h => Ok h | None => Err "position not found" end.

Definition store_nodes (s : gmap Z HV) (nodes : list (Z * HV)) : gmap Z HV :=
  foldl (fun s x => <[fst x := snd x]> s) s nodes.

(** Batches appended one after the other, each to the store the previous ones
    left; the root after the last one. *)
Fixpoint append_batches (s : gmap Z HV) (num_leaves : Z) (batches : list (list HV))
  : outcome (gmap Z HV * Z * HV) :=
  match batches with
  | [] => root ← append s num_leaves []; Ok (s, num_leaves, fst root)
  | b :: batches =>
      r ← append s num_leaves b;
      append_batches (store_nodes s (snd r)) (num_leaves + zlen b) batches
  end.

Lemma store_nodes_out nodes : forall (s : gmap Z HV) p, p ∉ map fst nodes ->
  store_nodes s nodes !! p = s !! p.
Proof.
  induction nodes as [|[q h] nodes IH]; intros s p Hp; [done|]. cbn in Hp.
  apply not_elem_of_cons in Hp as [Hne Hp]. cbn. unfold store_nodes in IH. rewrite IH by done.
  by rewrite lookup_insert_ne.
Qed.

Lemma store_nodes_in nodes : forall (s : gmap Z HV) p h, NoDup (map fst nodes) ->
  (p, h) ∈ nodes -> store_nodes s nodes !! p = Some h.
Proof.
  induction nodes as [|[q g] nodes IH]; intros s p h Hnd Hin; [by apply not_elem_of_nil in Hin|].
  cbn in Hnd. apply NoDup_cons in Hnd as [Hq Hnd].
  apply elem_of_cons in Hin as [[= -> ->]|Hin]; [|by apply IH].
  change (store_nodes s ((q, g) :: nodes)) with (store_nodes (<[q:=g]> s) nodes).
  rewrite store_nodes_out by done. by rewrite lookup_insert_eq.
Qed.

(** The returned nodes have different positions: their post-order numbers are
    different. *)
Lemma new_nodes_NoDup (L : list HV) n m : 0 <= n -> n + Z.of_nat m < 2 ^ 63 ->
  NoDup (map fst (map (tree_node L) (new_nodes n m))).
Proof.
  intros Hn Hm. rewrite map_map. change (map (fun x => fst (tree_node L x)) (new_nodes n m))
    with (map node_pos (new_nodes n m)).
  assert (Hnd : NoDup (map node_postnum (new_nodes n m))).
  { rewrite new_nodes_postnum by (unfold u64_max, U64; lia). apply NoDup_seqZ. }
  apply NoDup_fmap_1 in Hnd. change (map node_pos ?x) with (node_pos <$> x).
  apply NoDup_fmap_2_strong; [|done].
  intros [l k] [l' k'] Hi Hi' E. unfold node_pos in E. cbn [fst snd] in E.
  destruct (mkpos_inj l k l' k') as [-> ->]; eauto using new_nodes_nonneg.
Qed.

Lemma store_nodes_stored (s : gmap Z HV) nodes : NoDup (map fst nodes) ->
  stored s nodes (store_nodes s nodes).
Proof.
  intros Hnd. split.
  - intros p h Hin. unfold reader_get, map_reader. by rewrite (store_nodes_in nodes s p h).
  - intros p Hp. unfold reader_get, map_reader. by rewrite store_nodes_out.
Qed.

Lemma append_batches_spec batches : forall s (L : list HV), reader_ok s L ->
  zlen L + zlen (concat batches) <= 2 ^ 63 - 32 ->
  exists s', append_batches s (zlen L) batches =
    Ok (s', zlen (L ++ concat batches), spec_root (L ++ concat batches)) /\
    reader_ok s' (L ++ concat batches).
Proof.
  induction batches as [|b batches IH]; intros s L Hrd HN.
  - exists s. cbn [concat append_batches] in *. rewrite app_nil_r. change (zlen []) with 0 in HN.
    rewrite append_nil by (done || lia). done.
  - cbn [concat] in HN. rewrite zlen_app in HN. cbn [append_batches concat].
    pose proof (zlen_nonneg (concat batches)). pose proof (zlen_nonneg L). pose proof (zlen_nonneg b).
    assert (Hap := append_spec_all s L b Hrd ltac:(lia)). rewrite Hap. osimpl.
    rewrite app_assoc, <- zlen_app. apply IH; [|rewrite zlen_app; lia].
    eapply append_stored; [exact Hrd| |exact Hap|]; [lia|].
    apply store_nodes_stored, new_nodes_NoDup; unfold zlen in *; lia.
Qed.
End MapStore.
