(* ===== verification/RangeProof.v ===== *)
(** * Range proofs: termination, completeness and soundness

    The verification loop of [AccumulatorRangeProof::verify] works on a row of
    consecutive nodes of one level; each iteration completes the row to whole
    pairs with a left and a right sibling and hashes the pairs. *)
From stdpp Require Import base list numbers strings option sets.
From Stdlib Require Import ZArith Lia Bool.
From S2P Require Import Prelude Position Hash MerkleSpec InMemoryAccumulator AccumulatorSound AccumulatorProof AccumulatorProofFacts.

(** Induction two elements at a time. *)
Lemma list_pair_ind {A} (P : list A -> Prop) :
  P [] -> (forall x, P [x]) -> (forall x y l, P l -> P (x :: y :: l)) -> forall l, P l.
Proof.
  intros H0 H1 H2 l. enough (P l /\ forall x, P (x :: l)) by tauto.
  induction l as [|y l [IH1 IH2]]; split; auto.
Qed.

Section Rows.
Context {HV : Type} `{HashValueOps HV} `{CryptoHasher HV}.
Implicit Types (L : list HV) (cur left right : list HV).

(** ** Pairs *)
Fixpoint chunk (l : list HV) : list (HV * HV) :=
  match l with
  | x :: y :: l => (x, y) :: chunk l
  | _ => []
  end.

Definition hash_pair (x : HV * HV) : HV := hash_node (fst x) (snd x).

Definition flat (ps : list (HV * HV)) : list HV := flat_map (fun x => [fst x; snd x]) ps.

Lemma flat_chunk l : Nat.even (length l) = true -> flat (chunk l) = l.
Proof.
  induction l as [|x|x y l IH] using list_pair_ind; intros He; [done..|].
  cbn [chunk flat flat_map fst snd app]. f_equal. f_equal. by apply IH.
Qed.

Lemma pair_up_even l : Nat.even (length l) = true -> pair_up l = (map hash_pair (chunk l), []).
Proof.
  induction l as [|x|x y l IH] using list_pair_ind; intros He; [done..|].
  cbn [pair_up chunk map]. by rewrite IH by done.
Qed.

Lemma pair_up_odd l x : Nat.even (length l) = true ->
  pair_up (l ++ [x]) = (map hash_pair (chunk l), [x]).
Proof.
  induction l as [|y|y z l IH] using list_pair_ind; intros He; [done..|].
  cbn [app pair_up chunk map]. by rewrite IH by done.
Qed.

Lemma chunk_app l m : Nat.even (length l) = true -> chunk (l ++ m) = chunk l ++ chunk m.
Proof.
  induction l as [|y|y z l IH] using list_pair_ind; intros He; [done..|].
  cbn [app chunk]. by rewrite IH by done.
Qed.

Lemma chunk_length l : Nat.even (length l) = true -> (2 * length (chunk l) = length l)%nat.
Proof.
  induction l as [|y|y z l IH] using list_pair_ind; intros He; [done..|].
  cbn [length chunk]. specialize (IH He). lia.
Qed.

(** ** One level *)

(** The row with the siblings that complete it. *)
Definition level_row (odd_first : bool) cur left right : list HV :=
  let row := (if odd_first then take 1 left else []) ++ cur in
  row ++ (if Nat.even (length row) then [] else take 1 right).

Lemma range_level_inv p cur left right p' cur' left' right' : cur <> [] ->
  range_level p cur left right = Ok (p', cur', left', right') ->
  exists b, is_right_child p = Ok b /\ parent p = Ok p' /\
    left = (if b then take 1 left else []) ++ left' /\
    length (if b then take 1 left else []) = (if b then 1 else 0)%nat /\
    (length right' <= length right)%nat /\
    (length cur + length left + length right =
     length (level_row b cur left right) + length left' + length right')%nat /\
    Nat.even (length (level_row b cur left right)) = true /\
    cur' = map hash_pair (chunk (level_row b cur left right)).
Proof.
  intros Hne. unfold range_level. rewrite bind_Ok. intros (b & Hb & Hr). exists b.
  apply bind_Ok in Hr as ([[pre ch] li] & Hs & Hr).
  assert (Hpre : map hash_pair (chunk (if b then take 1 left ++ take 1 cur else [])) = pre /\
    ch = (if b then drop 1 cur else cur) /\ left = (if b then take 1 left else []) ++ li /\
    length (if b then take 1 left else []) = (if b then 1 else 0)%nat).
  { destruct b; [|by injection Hs as <- <- <-]. destruct left as [|x left]; [done|].
    destruct cur as [|y cur]; [done|]. by injection Hs as <- <- <-. }
  destruct Hpre as (<- & -> & Eleft & Hlen).
  set (ch := if b then drop 1 cur else cur) in *.
  assert (Erow : (if b then take 1 left else []) ++ cur =
                 (if b then take 1 left ++ take 1 cur else []) ++ ch).
  { subst ch. destruct b; [|done]. by rewrite <- app_assoc, take_drop. }
  assert (Hev : Nat.even (length (if b then take 1 left ++ take 1 cur else [])) = true).
  { destruct b; [|done]. rewrite length_app, Hlen. by destruct cur. }
  assert (Hll : length left = (length (if b then take 1 left else []) + length li)%nat)
    by (rewrite Eleft at 1; apply length_app).
  unfold level_row. rewrite Erow, !length_app, Nat.even_add, Hev.
  pose proof (f_equal length Erow) as Elen. rewrite !length_app in Elen.
  destruct (Nat.even (length ch)) eqn:Ech.
  - rewrite pair_up_even in Hr by done. osimpl in Hr.
    apply bind_Ok in Hr as (p1 & Hp & Hr). injection Hr as <- <- <- <-. cbn [Bool.eqb].
    rewrite !app_nil_r, chunk_app, map_app by done. cbn [length].
    rewrite Nat.add_0_r, Nat.even_add, Hev, Ech. split_and!; done || lia.
  - destruct (exists_last (l := ch)) as (ch0 & x & Ex); [by intros ->|].
    rewrite Ex in *. rewrite length_app, Nat.add_1_r, Nat.even_succ, <- Nat.negb_even in Ech.
    apply negb_false_iff in Ech. rewrite pair_up_odd in Hr by done.
    apply bind_Ok in Hr as ([ph ri] & Hs2 & Hr). destruct right as [|y right]; [done|].
    injection Hs2 as <- <-. apply bind_Ok in Hr as (p1 & Hp & Hr). injection Hr as <- <- <- <-.
    cbn [Bool.eqb take tail]. rewrite <- !app_assoc. cbn [app].
    rewrite !chunk_app, !map_app, !length_app by done. cbn [chunk map length].
    rewrite !length_app in Elen. cbn [length] in Elen.
    rewrite !Nat.even_add, Hev, Ech. rewrite take_0. split_and!; done || (cbn [length]; lia).
Qed.

Lemma range_level_ok p p' b cur pre left post right : cur <> [] ->
  is_right_child p = Ok b -> parent p = Ok p' -> length pre = (if b then 1 else 0)%nat ->
  (length post <= 1)%nat -> Nat.even (length (pre ++ cur ++ post)) = true ->
  range_level p cur (pre ++ left) (post ++ right) =
  Ok (p', map hash_pair (chunk (pre ++ cur ++ post)), left, right).
Proof.
  intros Hne Hb Hp Hpre Hpost Hev. unfold range_level. rewrite Hb. osimpl.
  assert (Hs : exists pr ch, pre ++ cur = pr ++ ch /\ Nat.even (length pr) = true /\
    (if b then
         left_hash ← ok_or (head (pre ++ left))
           "First child is a right child, but missing sibling on the left.";
         right_hash ← expect (head cur) "The first leaf must exist.";
         Ok ([hash_node left_hash right_hash], tail cur, tail (pre ++ left))
       else Ok ([], cur, pre ++ left)) = Ok (map hash_pair (chunk pr), ch, left)).
  { destruct b.
    - destruct pre as [|x [|? ?]]; try done. destruct cur as [|y cur]; [done|].
      by exists [x; y], cur.
    - destruct pre; [|done]. by exists [], cur. }
  destruct Hs as (pr & ch & E & Hpr & ->). osimpl.
  rewrite app_assoc, E, <- app_assoc. rewrite app_assoc, E, <- app_assoc in Hev.
  rewrite chunk_app, map_app by done. rewrite !length_app, !Nat.even_add, Hpr in Hev.
  destruct post as [|y [|? ?]]; [| |cbn [length] in Hpost; lia].
  - rewrite app_nil_r. rewrite pair_up_even by (by destruct (Nat.even (length ch))).
    osimpl. by rewrite Hp.
  - destruct (exists_last (l := ch)) as (ch0 & x & Ex); [by intros ->|]. subst ch.
    rewrite length_app, Nat.even_add in Hev. cbn [length Nat.even] in Hev.
    assert (He0 : Nat.even (length ch0) = true) by (by destruct (Nat.even (length ch0))).
    rewrite pair_up_odd by done. osimpl. cbn [ok_or head app tail]. osimpl. rewrite Hp. osimpl.
    rewrite <- !app_assoc. cbn [app]. by rewrite (chunk_app ch0), map_app by done.
Qed.

(** ** Termination *)
Lemma range_level_measure p cur left right p' cur' left' right' : cur <> [] ->
  range_level p cur left right = Ok (p', cur', left', right') ->
  cur' <> [] /\
  (length cur' + length left' + length right' < length cur + length left + length right)%nat.
Proof.
  intros Hne Hl. apply range_level_inv in Hl as (b & _ & _ & _ & _ & _ & Hsum & Hev & ->); [|done].
  pose proof (chunk_length _ Hev) as Hc. rewrite length_map.
  assert (0 < length (level_row b cur left right))%nat.
  { unfold level_row. rewrite !length_app. destruct cur; [done|]. cbn [length]. lia. }
  split; [|lia]. intros E. apply (f_equal length) in E. rewrite length_map in E. cbn in E. lia.
Qed.

Lemma range_level_fuel p cur left right :
  range_level p cur left right <> Panic "out of fuel".
Proof.
  unfold range_level, is_right_child, is_left_child, parent, position_invariant, assert.
  destruct (p <? u64_max - 1); [|done]. osimpl. destruct (negb _); osimpl.
  - destruct left as [|x left]; [done|]. destruct cur as [|y cur]; [done|]. cbn. osimpl.
    destruct (pair_up cur) as [ps [|z rest]]; [done|]. by destruct right.
  - destruct (pair_up cur) as [ps [|z rest]]; [done|]. by destruct right.
Qed.

(** The loop always ends: as many iterations as there are hashes are enough. *)
Lemma range_loop_fuel : forall fuel p cur left right, cur <> [] ->
  (length cur + length left + length right <= fuel)%nat ->
  range_loop fuel p cur left right <> Panic "out of fuel".
Proof.
  induction fuel as [|fuel IH]; intros p cur left right Hne Hf.
  - destruct cur; [done|cbn in Hf; lia].
  - cbn [range_loop]. destruct (range_continue cur left right); [|done].
    destruct (range_level p cur left right) as [[[[p' cur'] left'] right']|e|e] eqn:E; [|by osimpl|].
    + osimpl. apply range_level_measure in E as [Hne' Hlt]; [|done]. apply IH; [done|lia].
    + pose proof (range_level_fuel p cur left right) as Hn. rewrite E in Hn. osimpl. congruence.
Qed.

(** ** Rows of the reference tree *)
Fixpoint row L (l : nat) (k : Z) (m : nat) : list HV :=
  match m with
  | O => []
  | S m => node_hash L l k :: row L l (k + 1) m
  end.

Lemma row_length L l m : forall k, length (row L l k m) = m.
Proof. induction m; intros; cbn; congruence. Qed.

Lemma row_app L l m n : forall k, row L l k (m + n) = row L l k m ++ row L l (k + Z.of_nat m) n.
Proof.
  induction m as [|m IH]; intros k.
  - by rewrite Z.add_0_r.
  - cbn [Nat.add row app]. rewrite IH. do 3 f_equal. lia.
Qed.

Lemma row_lookup L l m : forall k j h, row L l k m !! j = Some h ->
  h = node_hash L l (k + Z.of_nat j).
Proof.
  induction m as [|m IH]; intros k j h Hj; [done|]. destruct j as [|j]; cbn in Hj.
  - injection Hj as <-. by rewrite Z.add_0_r.
  - apply IH in Hj. subst. f_equal. lia.
Qed.

(** The parents of a complete row. *)
Lemma row_parents L l m : forall k,
  (k + Z.of_nat m - 1) * pow2 (S l) < zlen L -> 0 <= k ->
  map hash_pair (chunk (row L l (2 * k) (2 * m))) = row L (S l) k m.
Proof.
  induction m as [|m IH]; intros k Hb Hk; [done|].
  replace (2 * S m)%nat with (S (S (2 * m))) by lia. cbn [row chunk map].
  pose proof (pow2_pos (S l)).
  replace (2 * k + 1 + 1) with (2 * (k + 1)) by lia. rewrite IH by lia. f_equal.
  unfold hash_pair. cbn [fst snd]. symmetry. apply node_hash_S. nia.
Qed.
End Rows.

(** ** Completeness *)

(** The siblings on the left of a path and on the right of a path. *)
Fixpoint left_nodes (d l : nat) (k : Z) : list (nat * Z) :=
  match d with
  | O => []
  | S d => (if Z.odd k then [(l, k - 1)] else []) ++ left_nodes d (S l) (k / 2)
  end.
Fixpoint right_nodes (d l : nat) (k : Z) : list (nat * Z) :=
  match d with
  | O => []
  | S d => (if Z.even k then [(l, k + 1)] else []) ++ right_nodes d (S l) (k / 2)
  end.

Lemma half_cases k : (Z.odd k = true /\ Z.even k = false /\ k = 2 * (k / 2) + 1) \/
                     (Z.odd k = false /\ Z.even k = true /\ k = 2 * (k / 2)).
Proof.
  rewrite <- Z.negb_odd. destruct (Z.odd k) eqn:Eo; [left|right]; split_and!; try done.
  - apply Z.odd_spec in Eo as [j ->]. Z.to_euclidean_division_equations; lia.
  - rewrite <- Z.negb_even, negb_false_iff in Eo. apply Z.even_spec in Eo as [j ->].
    Z.to_euclidean_division_equations; lia.
Qed.

Section RangeComplete.
Context {HV : Type} `{HashValueOps HV} `{CryptoHasher HV}.
Implicit Types (L : list HV).

Definition opt_node L (b : bool) (l : nat) (k : Z) : list HV :=
  if b then [node_hash L l k] else [].

(** A row from [a] to [b] and its two siblings is the row of whole pairs. *)
Lemma complete_row L l a b : 0 <= a <= b ->
  opt_node L (Z.odd a) l (a - 1) ++ row L l a (Z.to_nat (b - a + 1)) ++
    opt_node L (Z.even b) l (b + 1) =
  row L l (2 * (a / 2)) (2 * Z.to_nat (b / 2 - a / 2 + 1)).
Proof.
  intros Hab. set (m := Z.to_nat (b - a + 1)).
  assert (Hpost : row L l a m ++ opt_node L (Z.even b) l (b + 1) =
                  row L l a (m + (if Z.even b then 1 else 0))).
  { rewrite row_app. destruct (Z.even b); [|done]. cbn. do 3 f_equal. lia. }
  assert (Hpre : forall n, opt_node L (Z.odd a) l (a - 1) ++ row L l a n =
                  row L l (2 * (a / 2)) ((if Z.odd a then 1 else 0) + n)).
  { intros n. destruct (half_cases a) as [(-> & _ & Ea)|(-> & _ & Ea)].
    - cbn [opt_node app Nat.add row]. do 2 f_equal; lia.
    - cbn [opt_node app Nat.add]. by rewrite <- Ea. }
  rewrite Hpost, Hpre. f_equal.
  destruct (half_cases a) as [(-> & _ & Ea)|(-> & _ & Ea)],
    (half_cases b) as [(_ & -> & Eb)|(_ & -> & Eb)]; lia.
Qed.

Lemma hashes_left_S L d l k :
  hashes_at L (left_nodes (S d) l k) =
  opt_node L (Z.odd k) l (k - 1) ++ hashes_at L (left_nodes d (S l) (k / 2)).
Proof. cbn [left_nodes]. rewrite hashes_at_cat. by destruct (Z.odd k). Qed.

Lemma hashes_right_S L d l k :
  hashes_at L (right_nodes (S d) l k) =
  opt_node L (Z.even k) l (k + 1) ++ hashes_at L (right_nodes d (S l) (k / 2)).
Proof. cbn [right_nodes]. rewrite hashes_at_cat. by destruct (Z.even k). Qed.

Lemma range_level_row L l a b left right :
  0 <= a <= b -> b * pow2 l < zlen L -> mkpos l a < u64_max - 1 ->
  range_level (mkpos l a) (row L l a (Z.to_nat (b - a + 1)))
    (opt_node L (Z.odd a) l (a - 1) ++ left) (opt_node L (Z.even b) l (b + 1) ++ right) =
  Ok (mkpos (S l) (a / 2), row L (S l) (a / 2) (Z.to_nat (b / 2 - a / 2 + 1)), left, right).
Proof.
  intros Hab Hb Hp.
  rewrite (range_level_ok _ (mkpos (S l) (a / 2)) (Z.odd a)); rewrite ?complete_row by done.
  - assert (Hle : a / 2 <= b / 2) by (apply Z.div_le_mono; lia).
    rewrite row_parents; [done| |apply Z.div_pos; lia].
    rewrite Z2Nat.id by lia. apply half_block in Hb; lia.
  - destruct (Z.to_nat (b - a + 1)) eqn:E; [lia|done].
  - by apply is_right_child_mkpos; [lia|].
  - by apply parent_mkpos; [lia|].
  - by destruct (Z.odd a).
  - destruct (Z.even b); cbn; lia.
  - rewrite row_length. apply Nat.even_spec. by eexists.
Qed.

(** The measure of an honest proof: a level per hash beyond the first. *)
Lemma range_nodes_measure d : forall l a b, 0 <= a <= b ->
  Z.of_nat d < (b - a + 1) + Z.of_nat (length (left_nodes d l a)) +
               Z.of_nat (length (right_nodes d l b)).
Proof.
  induction d as [|d IH]; intros l a b Hab; [cbn; lia|].
  assert (Hle : 0 <= a / 2 <= b / 2) by (split; [apply Z.div_pos|apply Z.div_le_mono]; lia).
  specialize (IH (S l) (a / 2) (b / 2) Hle). cbn [left_nodes right_nodes]. rewrite !length_app.
  destruct (half_cases a) as [(-> & _ & Ea)|(-> & _ & Ea)],
    (half_cases b) as [(_ & -> & Eb)|(_ & -> & Eb)]; cbn [length]; lia.
Qed.

Lemma range_loop_complete L f e : zlen L <= 2 ^ 63 -> 0 <= f <= e -> e < zlen L ->
  f + 1 < 2 ^ 63 -> forall c j fuel, (j + c = rootl (zlen L))%nat -> (c <= fuel)%nat ->
  let a := f / pow2 j in let b := e / pow2 j in
  range_loop fuel (mkpos j a) (row L j a (Z.to_nat (b - a + 1)))
    (hashes_at L (left_nodes c j a)) (hashes_at L (right_nodes c j b)) = Ok [spec_root L].
Proof.
  intros HL Hfe He Hlast. pose proof (rootl_le_63 (zlen L) ltac:(lia)) as Hr.
  induction c as [|c IH]; intros j fuel Hj Hf a b.
  - assert (E : pow2 j = pow2 (rootl (zlen L))) by (f_equal; lia).
    pose proof (rootl_cover (zlen L) ltac:(lia)).
    assert (a = 0 /\ b = 0) as [-> ->]
      by (split; apply Z.div_small; lia).
    unfold spec_root. replace (rootl (zlen L)) with j by lia. by destruct fuel.
  - destruct fuel as [|fuel]; [lia|]. pose proof (pow2_pos j).
    assert (Hab : 0 <= a <= b) by (split; [apply Z.div_pos|apply Z.div_le_mono]; lia).
    assert (Hb : b * pow2 j < zlen L) by (pose proof (Z.mul_div_le e (pow2 j)); lia).
    destruct (ancestor_fits f j) as (_ & _ & Hp); [lia..|]. fold a in Hp.
    rewrite hashes_left_S, hashes_right_S. cbn [range_loop].
    replace (range_continue _ _ _) with true.
    2:{ symmetry. unfold range_continue. rewrite row_length.
        destruct (Z.ltb_spec 1 (Z.of_nat (Z.to_nat (b - a + 1)))); [done|].
        replace b with a by lia. destruct (half_cases a) as [(-> & -> & _)|(-> & -> & _)]; [done|].
        cbn [opt_node app]. rewrite (bool_decide_false (_ :: _ = [])) by done.
        by rewrite orb_true_r. }
    rewrite range_level_row by done. osimpl.
    unfold a, b. destruct (div_step f j) as (_ & <- & _); [lia|].
    destruct (div_step e j) as (_ & <- & _); [lia|]. apply IH; lia.
Qed.
End RangeComplete.

(** ** Soundness *)
Section RangeSound.
Context {HV : Type} `{HashValueOps HV} `{CryptoHasher HV}.
Implicit Types (L : list HV) (cur left right : list HV).

(** The pairs the verifier hashes. *)
Fixpoint range_pairs (fuel : nat) (p : Position) cur left right : list (HV * HV) :=
  if range_continue cur left right then
    match fuel with
    | O => []
    | S fuel =>
        let odd_first := match is_right_child p with Ok b => b | _ => false end in
        chunk (level_row odd_first cur left right) ++
        match range_level p cur left right with
        | Ok (p', cur', left', right') => range_pairs fuel p' cur' left' right'
        | _ => []
        end
    end
  else [].

Definition range_bad L (p : HV * HV -> Prop) : Prop :=
  collision p (tree_pair L) \/ meets_leaf p L.

Lemma range_bad_mono L (p q : HV * HV -> Prop) :
  (forall x, p x -> q x) -> range_bad L p -> range_bad L q.
Proof.
  intros Hpq [Hc|(x & Hx & Hm)]; [left|right; exists x; by eauto].
  by eapply collision_mono; [exact Hpq| |exact Hc].
Qed.

(** Pairs whose hashes are a row of the tree are the children of that row. *)
Lemma row_children L (p : HV * HV -> Prop) l ps : forall k, 0 <= k ->
  (forall x, x ∈ ps -> p x) -> ps <> [] -> map hash_pair ps = row L l k (length ps) ->
  (exists l', l = S l' /\ flat ps = row L l' (2 * k) (2 * length ps)) \/ range_bad L p.
Proof.
  induction ps as [|[a b] ps IH]; intros k Hk Hp Hne E; [done|]. cbn [length] in *.
  cbn [map row length] in E. unfold hash_pair in E at 1. cbn [fst snd] in E.
  injection E as E0 E.
  destruct (hashed_node_cases L p a b l k Hk) as [(l' & -> & -> & ->)|];
    [apply Hp; by left|done| |by right].
  destruct ps as [|q ps]; [left; exists l'; by cbn|].
  destruct (IH (k + 1)) as [(l2 & [= <-] & Ef)|]; [lia| |done|done| |by right].
  { intros x Hx. apply Hp. by right. }
  left. exists l'. split; [done|]. replace (2 * S (length (q :: ps)))%nat
    with (S (S (2 * length (q :: ps)))) by lia.
  cbn [flat flat_map row app fst snd]. f_equal. f_equal.
  replace (2 * k + 1 + 1) with (2 * (k + 1)) by lia. exact Ef.
Qed.

Lemma is_right_child_Ok p b : is_right_child p = Ok b -> p < u64_max - 1.
Proof.
  unfold is_right_child, is_left_child, position_invariant, assert.
  destruct (Z.ltb_spec p (u64_max - 1)); [done|by osimpl].
Qed.

(** One level down: the row is the row of children. *)
Lemma range_level_sound L p l j a cur left right p' cur' left' right' k :
  cur <> [] -> 0 <= a -> 0 <= k ->
  range_level (mkpos j a) cur left right = Ok (p', cur', left', right') ->
  cur' = row L l k (length cur') ->
  let odd_first := match is_right_child (mkpos j a) with Ok b => b | _ => false end in
  (forall x, x ∈ chunk (level_row odd_first cur left right) -> p x) ->
  p' = mkpos (S j) (a / 2) /\
  ((exists l', l = S l' /\ cur = row L l' (2 * k + a mod 2) (length cur)) \/ range_bad L p).
Proof.
  intros Hne Ha Hk Hl Ecur odd_first Hp. destruct (range_level_measure _ _ _ _ _ _ _ _ Hne Hl) as [Hne' _].
  apply range_level_inv in Hl as (b & Hb & Hpar & Eleft & Hpre & _ & _ & Hev & Ec); [|done].
  pose proof (is_right_child_Ok _ _ Hb) as Hlt. rewrite parent_mkpos in Hpar by done.
  injection Hpar as <-. split; [done|]. subst odd_first. rewrite Hb in Hp.
  rewrite is_right_child_mkpos in Hb by done. injection Hb as <-.
  set (full := level_row (Z.odd a) cur left right) in *.
  rewrite Ec, length_map in Ecur.
  destruct (row_children L p l (chunk full) k Hk Hp) as [(l' & -> & Ef)|]; [|done| |by right].
  { intros E. rewrite Ec, E in Hne'. done. }
  left. exists l'. split; [done|]. rewrite flat_chunk in Ef by done.
  assert (Efull : full = (if Z.odd a then take 1 left else []) ++ cur ++
    (if Nat.even (length ((if Z.odd a then take 1 left else []) ++ cur)) then [] else take 1 right))
    by (unfold full, level_row; by rewrite <- app_assoc).
  rewrite Efull in Ef at 1.
  apply (f_equal (fun r => take (length cur) (drop (if Z.odd a then 1 else 0) r))) in Ef.
  rewrite drop_app_length', take_app_length in Ef by done. rewrite Ef at 1.
  assert (Hsz : (2 * length (chunk full) = (if Z.odd a then 1 else 0) + (length cur +
           (2 * length (chunk full) - (if Z.odd a then 1 else 0) - length cur)))%nat).
  { pose proof (chunk_length full Hev) as Hc. apply (f_equal length) in Efull.
    rewrite length_app, Hpre, length_app in Efull. lia. }
  rewrite Hsz, row_app, row_app.
  rewrite drop_app_length', take_app_length' by (by rewrite row_length).
  f_equal. rewrite Zmod_odd. destruct (Z.odd a); lia.
Qed.

Lemma range_loop_sound L r : forall fuel j a cur left right final,
  cur <> [] -> 0 <= a -> range_loop fuel (mkpos j a) cur left right = Ok final ->
  head final = Some (node_hash L r 0) ->
  (exists c, (c <= r)%nat /\ cur = row L (r - c) (a mod pow2 c) (length cur)) \/
  range_bad L (in_list (range_pairs fuel (mkpos j a) cur left right)).
Proof.
  induction fuel as [|fuel IH]; intros j a cur left right final Hne Ha Hl Hroot;
    cbn [range_loop range_pairs] in *; destruct (range_continue cur left right) eqn:Ec; [done| | |].
  1, 3: injection Hl as <-; left; exists 0%nat; unfold range_continue in Ec;
    (destruct cur as [|h [|h2 cur]]; [done| |]); [|exfalso; clear -Ec;
      destruct (Z.ltb_spec 1 (Z.of_nat (length (h :: h2 :: cur)))); [done|cbn [length] in *; lia]];
    cbn in Hroot; injection Hroot as ->; rewrite pow2_0, Z.mod_1_r, Nat.sub_0_r; (split; [lia|done]).
  destruct (range_level (mkpos j a) cur left right) as [[[[p' cur'] left'] right']|e|e] eqn:El;
    [|done..]. osimpl in Hl.
  destruct (range_level_measure _ _ _ _ _ _ _ _ Hne El) as [Hne' _].
  set (q := in_list (chunk _ ++ _)).
  assert (Hp' : p' = mkpos (S j) (a / 2)).
  { apply range_level_inv in El as (b & Hb & Hpar & _); [|done].
    apply is_right_child_Ok in Hb. rewrite parent_mkpos in Hpar by done. by injection Hpar. }
  rewrite Hp' in Hl.
  apply IH in Hl as [(c & Hc & Erow)|Hbad]; [| |done|by apply Z.div_pos|done].
  2:{ right. eapply range_bad_mono; [|exact Hbad]. intros x Hx. unfold q, in_list in *.
      rewrite Hp'. set_solver. }
  pose proof (pow2_pos c). pose proof (Z.mod_pos_bound (a / 2) (pow2 c) ltac:(lia)).
  destruct (range_level_sound L q (r - c) j a cur left right p' cur' left' right'
              (a / 2 mod pow2 c) Hne Ha ltac:(lia) El Erow) as [_ [(l' & El' & Ecur)|]];
    [intros x Hx; unfold q, in_list; set_solver| |by right].
  left. exists (S c). split; [lia|]. rewrite Ecur at 1. f_equal; [lia|].
  rewrite pow2_S, Z.rem_mul_r by lia. lia.
Qed.

(** *** [AccumulatorRangeProof::verify] *)
Definition verify_pairs (proof : AccumulatorRangeProof HV) (first : Z) (leaves : list HV)
  : list (HV * HV) :=
  range_pairs (length leaves + length (left_siblings proof) + length (right_siblings proof))
    (mkpos 0 first) leaves (left_siblings proof) (right_siblings proof).

Lemma range_verify_Some proof root f leaves : 0 <= f < 2 ^ 63 ->
  AccumulatorRangeProof_verify proof root (Some f) leaves = Ok tt ->
  leaves <> [] /\ exists final,
    range_loop (length leaves + length (left_siblings proof) + length (right_siblings proof))
      (mkpos 0 f) leaves (left_siblings proof) (right_siblings proof) = Ok final /\
    head final = Some root.
Proof.
  intros Hf. unfold AccumulatorRangeProof_verify. rewrite !bind_Ok.
  intros ([] & _ & Hv). apply bind_Ok in Hv as ([] & _ & Hv).
  apply bind_Ok in Hv as ([] & Hne & Hv). apply ensure_Ok, negb_true_iff, bool_decide_eq_false in Hne.
  rewrite from_leaf_index_mkpos in Hv by done. rewrite obind_Ok in Hv.
  apply bind_Ok in Hv as (final & Hl & Hv). apply bind_Ok in Hv as (h & Hh & Hv).
  apply expect_Ok in Hh. apply ensure_Ok, bool_decide_eq_true in Hv as ->. by eauto.
Qed.

Lemma range_verify_sound L proof f leaves : 0 <= f < zlen L -> zlen L <= 2 ^ 63 ->
  AccumulatorRangeProof_verify proof (spec_root L) (Some f) leaves = Ok tt ->
  (forall j h, leaves !! j = Some h ->
     L !! (Z.to_nat f + j)%nat = Some h \/ inner_hash L h) \/
  range_bad L (in_list (verify_pairs proof f leaves)).
Proof.
  intros Hf HL Hv. apply range_verify_Some in Hv as (Hne & final & Hl & Hr); [|lia].
  destruct (range_loop_sound L (rootl (zlen L)) _ _ _ _ _ _ _ Hne (proj1 Hf) Hl Hr)
    as [(c & Hc & Erow)|]; [left|by right].
  intros j h Hj. rewrite Erow in Hj. apply row_lookup in Hj.
  pose proof (pow2_pos c). pose proof (Z.mod_pos_bound f (pow2 c) ltac:(lia)).
  set (k := f mod pow2 c + Z.of_nat j) in *.
  destruct (Z.lt_ge_cases (k * pow2 (rootl (zlen L) - c)) (zlen L)) as [Hlt|Hge].
  2:{ right; left. subst h. by apply node_hash_placeholder. }
  destruct (rootl (zlen L) - c)%nat as [|l] eqn:El.
  - left. pose proof (rootl_cover (zlen L) ltac:(lia)).
    assert (Ek : k = f + Z.of_nat j).
    { subst k. rewrite Z.mod_small; [done|]. replace c with (rootl (zlen L)) by lia. lia. }
    rewrite pow2_0 in Hlt.
    destruct (lookup_lt_is_Some_2 L (Z.to_nat k)) as [g Hg]; [unfold zlen in *; lia|].
    rewrite (node_hash_0 L k g) in Hj by (done || lia). subst h.
    replace (Z.to_nat f + j)%nat with (Z.to_nat k) by lia. done.
  - right; right. eexists. split; [apply (tree_pair_S L l k); lia|].
    subst h. by apply node_hash_S.
Qed.

Lemma range_verify_complete L f m leaves :
  zlen L <= 2 ^ 63 -> 0 <= f -> f + 1 < 2 ^ 63 -> (0 < m)%nat ->
  leaves = take m (drop (Z.to_nat f) L) -> length leaves = m ->
  AccumulatorRangeProof_verify
    (mkAccumulatorRangeProof
       (hashes_at L (left_nodes (rootl (zlen L)) 0 f))
       (hashes_at L (right_nodes (rootl (zlen L)) 0 (f + Z.of_nat m - 1))))
    (spec_root L) (Some f) leaves = Ok tt.
Proof.
  intros HL Hf Hlast Hm Elv Hlen.
  assert (He : f + Z.of_nat m <= zlen L).
  { rewrite Elv, length_take, length_drop in Hlen. unfold zlen. lia. }
  assert (Hlo : forall d l k, (length (left_nodes d l k) <= d)%nat /\
                              (length (right_nodes d l k) <= d)%nat).
  { induction d as [|d IH]; intros l k; [done|]. cbn [left_nodes right_nodes]. rewrite !length_app.
    specialize (IH (S l) (k / 2)). destruct (Z.odd k), (Z.even k); cbn [length]; lia. }
  pose proof (rootl_le_63 (zlen L) ltac:(lia)) as Hr. set (r := rootl (zlen L)) in *.
  set (e := f + Z.of_nat m - 1). destruct (Hlo r 0%nat f) as [Hl1 _], (Hlo r 0%nat e) as [_ Hl2].
  assert (Erow : leaves = row L 0 f (Z.to_nat (e - f + 1))).
  { apply list_eq_same_length with (length leaves); [rewrite row_length; lia|done|].
    intros i x y _ Hx Hy. apply row_lookup in Hy. subst y. rewrite Elv in Hx.
    apply lookup_take_Some in Hx as [Hx _]. rewrite lookup_drop in Hx.
    symmetry. apply node_hash_0; [lia|]. by rewrite Z2Nat.inj_add, Nat2Z.id by lia. }
  pose proof (range_loop_complete L f e HL ltac:(lia) ltac:(lia) Hlast r 0
    (length leaves + length (left_nodes r 0 f) + length (right_nodes r 0 e))) as Hloop.
  cbv zeta in Hloop. rewrite pow2_0, !Z.div_1_r, <- Erow in Hloop.
  pose proof (range_nodes_measure r 0 f e ltac:(lia)).
  unfold AccumulatorRangeProof_verify, MAX_ACCUMULATOR_PROOF_DEPTH. cbn [left_siblings right_siblings].
  rewrite !hashes_at_length. do 2 rewrite (ensure_true (_ <=? 63)), obind_Ok by lia.
  rewrite (ensure_true (negb _)), obind_Ok
    by (apply negb_true_iff, bool_decide_eq_false; intros ->; cbn in Hlen; lia).
  rewrite from_leaf_index_mkpos by lia. rewrite obind_Ok, Hloop by lia.
  rewrite obind_Ok. cbn [head expect]. rewrite obind_Ok.
  apply ensure_true. by apply bool_decide_eq_true.
Qed.
End RangeSound.
