(* ===== verification/LightClient.v ===== *)
(** * Server and client of accumulator proofs

    What a node that stores the transaction accumulator sends, and what a client
    that keeps a summary does with it: range proofs, consistency proofs,
    extension proofs and the check that a list of transactions extends the
    ledger. *)
From stdpp Require Import base list numbers strings option sets.
From Stdlib Require Import ZArith Lia Bool.
From S2P Require Import Prelude Position Hash MerkleSpec InMemoryAccumulator AccumulatorSound AccumulatorProof AccumulatorProofFacts MerkleAccumulator MerkleAccumulatorFacts RangeProof.
Import MerkleAccumulatorView.

(** ** The positions of a range proof *)
Lemma sib_even k : Z.even (sib k) = Z.odd k.
Proof.
  unfold sib. destruct (half_cases k) as [(-> & -> & E)|(-> & -> & E)]; rewrite E.
  - replace (2 * (k / 2) + 1 - 1) with (2 * (k / 2)) by lia. by rewrite Z.even_mul.
  - rewrite Z.even_add, Z.even_mul. done.
Qed.

Lemma sib_nodes_split d : forall l k, 0 <= k -> (k + 1) * pow2 l <= 2 ^ 63 ->
  (l = 0%nat -> sib k + 1 < 2 ^ 63) -> (l + d <= 63)%nat ->
  filter_positions is_left_child (map node_pos (sib_nodes d l k)) =
    Ok (map node_pos (left_nodes d l k)) /\
  filter_positions is_right_child (map node_pos (sib_nodes d l k)) =
    Ok (map node_pos (right_nodes d l k)).
Proof.
  induction d as [|d IH]; intros l k Hk Hb Hl Hd; [done|].
  destruct (sib_fits l k Hk Hb ltac:(lia)) as [Hs Hsb].
  pose proof (mkpos_bound_inv l (sib k) Hs Hsb Hl) as Hp.
  destruct (IH (S l) (k / 2)) as [Il Ir]; [by apply Z.div_pos|by apply half_fits; [..|lia]|done|lia|].
  cbn [sib_nodes map filter_positions]. change (node_pos (l, sib k)) with (mkpos l (sib k)).
  rewrite is_left_child_mkpos, is_right_child_mkpos by done. rewrite Il, Ir, !obind_Ok.
  rewrite <- Z.negb_even, !sib_even. cbn [left_nodes right_nodes]. rewrite !map_app. unfold sib.
  destruct (half_cases k) as [(-> & -> & E)|(-> & -> & E)]; done.
Qed.

Lemma left_nodes_sib d : forall l k l' k', (l', k') ∈ left_nodes d l k -> (l', k') ∈ sib_nodes d l k.
Proof.
  induction d as [|d IH]; intros l k l' k' Hin; [done|]. cbn [left_nodes sib_nodes] in *.
  apply elem_of_app in Hin as [Hin|Hin]; [|right; by apply IH]. unfold sib.
  destruct (half_cases k) as [(Ho & Ev & E)|(Ho & Ev & E)]; rewrite Ho in Hin; rewrite Ev;
    [|by apply not_elem_of_nil in Hin].
  apply list_elem_of_singleton in Hin as ->. by left.
Qed.

Lemma right_nodes_sib d : forall l k l' k', (l', k') ∈ right_nodes d l k -> (l', k') ∈ sib_nodes d l k.
Proof.
  induction d as [|d IH]; intros l k l' k' Hin; [done|]. cbn [right_nodes sib_nodes] in *.
  apply elem_of_app in Hin as [Hin|Hin]; [|right; by apply IH]. unfold sib.
  destruct (half_cases k) as [(Ho & Ev & E)|(Ho & Ev & E)]; rewrite Ev in Hin |- *;
    [by apply not_elem_of_nil in Hin|].
  apply list_elem_of_singleton in Hin as ->. by left.
Qed.

(** The left siblings of leaf [k] are the full subtrees of [k] leaves, bottom
    up. *)
Lemma left_nodes_frozen d : forall l n, 0 <= n ->
  left_nodes d l (n / pow2 l) = rev (frozen_range l d n).
Proof.
  induction d as [|d IH]; intros l n Hn; [done|]. cbn [left_nodes].
  rewrite frozen_range_snoc, rev_app_distr. destruct (div_step n l Hn) as (_ & <- & _).
  rewrite IH by done. f_equal. unfold frozen_at. rewrite odd_div_testbit.
  by destruct (Z.testbit n (Z.of_nat l)).
Qed.

Section Server.
Context {R HV : Type} `{HashValueOps HV} `{CryptoHasher HV} `{HashReader R HV}.
Implicit Types (L : list HV) (reader : R).

Lemma get_sibling_positions_split n i : 0 <= i < n -> n <= 2 ^ 63 - 2 ->
  get_sibling_positions n i is_left_child = Ok (map node_pos (left_nodes (rootl n) 0 i)) /\
  get_sibling_positions n i is_right_child = Ok (map node_pos (right_nodes (rootl n) 0 i)).
Proof.
  intros Hi Hn. unfold get_sibling_positions. pose proof (rootl_le_63 n ltac:(lia)).
  rewrite root_from_leaf_count_spec, !obind_Ok by lia.
  rewrite from_leaf_index_mkpos, !obind_Ok by lia.
  rewrite take_siblings_root, !obind_Ok by lia.
  apply sib_nodes_split; rewrite ?pow2_0; try lia. intros _. unfold sib. destruct (Z.even i); lia.
Qed.

Lemma get_range_proof_spec reader L f m : reader_ok reader L -> zlen L <= 2 ^ 63 - 2 ->
  0 <= f -> 0 < m -> f + m <= zlen L ->
  get_range_proof reader (zlen L) (Some f) m =
  Ok (mkAccumulatorRangeProof
        (hashes_at L (left_nodes (rootl (zlen L)) 0 f))
        (hashes_at L (right_nodes (rootl (zlen L)) 0 (f + m - 1)))).
Proof.
  intros Hrd HL Hf Hm Hfm. unfold get_range_proof, get_range_proof_positions.
  pose proof (rootl_le_63 (zlen L) ltac:(lia)).
  rewrite ensure_true, obind_Ok by lia.
  replace (f + (m - 1)) with (f + m - 1) by lia.
  rewrite (proj2 (Z.ltb_lt (f + m - 1) U64)) by (unfold U64; lia). cbn [ok_or].
  rewrite obind_Ok, ensure_true, obind_Ok by lia.
  destruct (get_sibling_positions_split (zlen L) f) as [-> _]; [lia..|]. rewrite obind_Ok.
  destruct (get_sibling_positions_split (zlen L) (f + m - 1)) as [_ ->]; [lia..|].
  rewrite !obind_Ok. cbn [fst snd].
  rewrite (get_hashes_spec reader L (left_nodes _ _ _)); [rewrite obind_Ok|done|lia|].
  2:{ intros l k Hin%left_nodes_sib. eapply sib_nodes_fit; [..|exact Hin]; rewrite ?pow2_0; lia. }
  rewrite get_hashes_spec; [done|done|lia|].
  intros l k Hin%right_nodes_sib. eapply sib_nodes_fit; [..|exact Hin]; rewrite ?pow2_0; lia.
Qed.
End Server.

Section Client.
Context {HV EpochState : Type} `{HashValueOps HV} `{CryptoHasher HV}.
Implicit Types (L M : list HV) (li : LedgerInfo HV EpochState).

(** The ledger info that commits to the transactions [L]. *)
Definition commits li L : Prop :=
  LedgerInfo_version li = zlen L - 1 /\ transaction_accumulator_hash li = spec_root L.

(** The summary of the transactions [L]. *)
Definition summary_of L : TransactionAccumulatorSummary HV :=
  mkTransactionAccumulatorSummary (acc_of L).

Lemma version_acc_of L : 0 < zlen L -> version (acc_of L) = zlen L - 1.
Proof. intros Hn. unfold version. cbn [num_leaves acc_of]. by rewrite (proj2 (Z.eqb_neq _ _)) by lia. Qed.

Lemma verify_consistency_iff s li :
  verify_consistency s li = Ok tt <->
  LedgerInfo_version li = version (summary_accumulator s) /\
  transaction_accumulator_hash li = root_hash (summary_accumulator s).
Proof.
  unfold verify_consistency, summary_version, summary_root_hash. rewrite bind_Ok. split.
  - intros ([] & Hv%ensure_Ok & Hr). apply bind_Ok in Hr as ([] & Hr%ensure_Ok & _).
    apply bool_decide_eq_true in Hr. split; [lia|done].
  - intros [Hv Hr]. exists tt. rewrite !ensure_true; [done|by apply bool_decide_eq_true|lia].
Qed.

(** *** Extending a summary with an honest proof *)
Lemma try_extend_honest L M li nodes : 0 < zlen L -> zlen L + zlen M <= 2 ^ 63 ->
  sib_path (zlen L) (zlen M) nodes -> commits li (L ++ M) ->
  try_extend_with_proof (summary_of L)
    (mkAccumulatorConsistencyProof (hashes_at (L ++ M) nodes)) li = Ok (summary_of (L ++ M)).
Proof.
  intros HL HN Hp [Hv Hr]. rewrite zlen_app in Hv. pose proof (zlen_nonneg M).
  unfold try_extend_with_proof. cbn [summary_accumulator summary_of subtrees].
  rewrite version_acc_of by done. rewrite ensure_true, obind_Ok by lia.
  rewrite sub64_Ok, obind_Ok by lia.
  replace (LedgerInfo_version li - (zlen L - 1)) with (zlen M) by lia.
  rewrite append_subtrees_spec, obind_Ok by done.
  change (mkTransactionAccumulatorSummary (acc_of (L ++ M))) with (summary_of (L ++ M)).
  rewrite (proj2 (verify_consistency_iff (summary_of (L ++ M)) li)); [done|].
  cbn [summary_accumulator summary_of]. rewrite version_acc_of by (rewrite zlen_app; lia).
  by rewrite zlen_app.
Qed.

(** *** Security of extending a summary *)
Lemma try_extend_binding L L' proof li s : 0 < zlen L -> commits li L' ->
  try_extend_with_proof (summary_of L) proof li = Ok s ->
  (L `prefix_of` L' /\ s = summary_of L') \/
  collision (in_list (append_subtrees_pairs (acc_of L) (subtrees proof) (zlen L' - zlen L)))
    (tree_pair L') \/
  collision (tree_pair L) (tree_pair L').
Proof.
  intros HL [Hv Hr] Hx. unfold try_extend_with_proof in Hx.
  cbn [summary_accumulator summary_of] in Hx. rewrite version_acc_of in Hx by done.
  apply bind_Ok in Hx as ([] & He%ensure_Ok & Hx). rewrite sub64_Ok, obind_Ok in Hx by lia.
  replace (LedgerInfo_version li - (zlen L - 1)) with (zlen L' - zlen L) in Hx by lia.
  apply bind_Ok in Hx as (acc & Ha & Hx). apply bind_Ok in Hx as ([] & Hc & Hx).
  injection Hx as <-. apply verify_consistency_iff in Hc as [_ Hroot].
  cbn [summary_accumulator] in Hroot. rewrite Hr in Hroot.
  destruct (append_subtrees_binding L L' (subtrees proof) (zlen L' - zlen L) acc)
    as [[Hp ->]|]; [done|lia|lia|done|by left|by right].
Qed.

(** *** Starting a summary *)
Lemma try_from_genesis_spec L : zlen L < U64 - 1 -> 0 < zlen L ->
  try_from_genesis_proof (mkAccumulatorConsistencyProof (frozen_hashes L)) (zlen L - 1) =
  Ok (summary_of L).
Proof.
  intros HU HL. unfold try_from_genesis_proof, u64_max. cbn [subtrees].
  replace (Z.min (zlen L - 1 + 1) (U64 - 1)) with (zlen L) by lia. by rewrite new_spec by lia.
Qed.

(** *** Extension proofs *)
Lemma extension_honest L M : zlen L + zlen M < U64 ->
  AccumulatorExtensionProof_verify
    (mkAccumulatorExtensionProof (frozen_hashes L) (zlen L) M) (spec_root L) =
  Ok (acc_of (L ++ M)).
Proof.
  intros HU. pose proof (zlen_nonneg M). unfold AccumulatorExtensionProof_verify.
  cbn [ext_frozen_subtree_roots ext_num_leaves ext_leaves].
  rewrite new_spec, obind_Ok by lia. cbn [root_hash acc_of].
  rewrite ensure_true, obind_Ok by (by apply bool_decide_eq_true). by apply append_spec.
Qed.

Lemma extension_binding L roots M acc : zlen L + zlen M < U64 ->
  AccumulatorExtensionProof_verify (mkAccumulatorExtensionProof roots (zlen L) M) (spec_root L) =
    Ok acc ->
  acc = acc_of (L ++ M) \/ collision (in_list (new_pairs roots (zlen L))) (tree_pair L).
Proof.
  intros HU. pose proof (zlen_nonneg M). unfold AccumulatorExtensionProof_verify.
  cbn [ext_frozen_subtree_roots ext_num_leaves ext_leaves]. rewrite bind_Ok.
  intros (t & Ht & Hx). apply bind_Ok in Hx as ([] & He%ensure_Ok & Hx).
  apply bool_decide_eq_true in He.
  destruct (new_binding L roots t) as [[_ ->]|]; [lia|done|done| |by right].
  left. rewrite append_spec in Hx by done. congruence.
Qed.
End Client.

(** ** Transaction lists that extend the ledger *)
Section Ledger.
Context {HV EpochState TransactionInfo : Type}.
Context `{HashValueOps HV} `{CryptoHasher HV} `{CryptoHash TransactionInfo HV}.
Implicit Types (T : list TransactionInfo).

Definition txn_hashes T : list HV := map crypto_hash T.

Lemma zlen_txn_hashes T : zlen (txn_hashes T) = Z.of_nat (length T).
Proof. unfold zlen, txn_hashes. by rewrite length_map. Qed.

(** The list of [m] transactions from version [f] of the ledger [T], with its
    range proof. *)
Definition txn_list_of T (f m : Z) : TransactionInfoListWithProof HV TransactionInfo :=
  mkTransactionInfoListWithProof
    (mkAccumulatorRangeProof
       (hashes_at (txn_hashes T) (left_nodes (rootl (zlen (txn_hashes T))) 0 f))
       (hashes_at (txn_hashes T) (right_nodes (rootl (zlen (txn_hashes T))) 0 (f + m - 1))))
    (take (Z.to_nat m) (drop (Z.to_nat f) T)).

(** Its left siblings are the accumulator of the first [f] transactions. *)
Lemma left_siblings_frozen (L : list HV) f : 0 <= f < zlen L -> zlen L <= 2 ^ 63 ->
  rev (hashes_at L (left_nodes (rootl (zlen L)) 0 f)) = frozen_hashes (take (Z.to_nat f) L).
Proof.
  intros Hf HL. unfold hashes_at. rewrite <- map_rev.
  pose proof (left_nodes_frozen (rootl (zlen L)) 0 f (proj1 Hf)) as E.
  rewrite pow2_0, Z.div_1_r in E. rewrite E, rev_involutive.
  assert (Ht : zlen (take (Z.to_nat f) L) = f).
  { unfold zlen in *. rewrite length_take. lia. }
  unfold frozen_hashes. rewrite Ht. pose proof (rootl_le_63 (zlen L) ltac:(lia)).
  pose proof (rootl_cover (zlen L) ltac:(lia)).
  replace 64%nat with (rootl (zlen L) + (64 - rootl (zlen L)))%nat by lia.
  rewrite frozen_range_app, (frozen_range_zero (0 + _)), app_nil_l by (rewrite ?Nat.add_0_l; lia).
  rewrite <- (hashes_at_app (take (Z.to_nat f) L) (drop (Z.to_nat f) L)); [by rewrite take_drop|].
  intros l k Hin. rewrite Ht. by apply frozen_range_In in Hin as (_ & _ & ? & ?); [|lia].
Qed.

Lemma extends_ledger_honest T f m n : Z.of_nat (length T) <= 2 ^ 63 ->
  0 <= f <= n -> n <= f + m -> 0 < m -> f + m <= Z.of_nat (length T) ->
  verify_extends_ledger (txn_list_of T f m) n
    (spec_root (txn_hashes (take (Z.to_nat n) T))) (Some f) = Ok (n - f).
Proof.
  intros HT Hfn Hn Hm Hfm. unfold verify_extends_ledger.
  rewrite ensure_true, obind_Ok by lia. rewrite sub64_Ok, obind_Ok by lia.
  cbn [transaction_infos ledger_info_to_transaction_infos_proof left_siblings txn_list_of].
  assert (Hlen : length (take (Z.to_nat m) (drop (Z.to_nat f) T)) = Z.to_nat m).
  { rewrite length_take, length_drop. lia. }
  rewrite Hlen, (proj2 (Z.ltb_ge _ _)) by lia.
  pose proof (zlen_txn_hashes T) as HzT. set (L := txn_hashes T) in *.
  rewrite left_siblings_frozen by lia.
  assert (Ht : zlen (take (Z.to_nat f) L) = f).
  { unfold zlen in *. rewrite length_take. lia. }
  rewrite <- Ht at 2. rewrite new_spec, obind_Ok by (rewrite Ht; unfold U64; lia).
  rewrite take_take. replace (Z.to_nat (n - f) `min` Z.to_nat m)%nat with (Z.to_nat (n - f)) by lia.
  assert (Es : take (Z.to_nat f) L ++ map crypto_hash (take (Z.to_nat (n - f)) (drop (Z.to_nat f) T))
               = txn_hashes (take (Z.to_nat n) T)).
  { unfold L, txn_hashes. rewrite firstn_map, <- map_app. f_equal.
    replace (Z.to_nat n) with (Z.to_nat f + Z.to_nat (n - f))%nat by lia.
    apply take_take_drop. }
  rewrite append_spec, obind_Ok.
  - rewrite Es. cbn [root_hash acc_of]. by rewrite ensure_true by (by apply bool_decide_eq_true).
  - rewrite Ht. unfold zlen. rewrite length_map, length_take. unfold U64. lia.
Qed.
End Ledger.
