(* ===== verification/ToyHash.v ===== *)
(** * A concrete hash

    32-byte strings with a checksum for a hash function: an instance of the hash
    interface at which the theorems are evaluated on concrete inputs. *)
From stdpp Require Import base list numbers strings option.
From Stdlib Require Import ZArith Lia Bool.
From Stdlib Require Import Eqdep_dec.
From S2P Require Import Prelude Hash AccumulatorProof.

Definition bytes32_ok (l : list Z) : bool :=
  (length l =? 32)%nat && forallb (fun b => (0 <=? b) && (b <? 256)) l.

Record bytes32 := mkBytes32 { b32 : list Z; b32_ok : bytes32_ok b32 = true }.

Lemma b32_inj x y : b32 x = b32 y -> x = y.
Proof.
  destruct x as [x Hx], y as [y Hy]. cbn. intros <-. f_equal. apply UIP_dec, bool_dec.
Qed.

#[export] Instance bytes32_eq_dec : EqDecision bytes32.
Proof.
  intros x y. destruct (decide (b32 x = b32 y)) as [E|E]; [left|right].
  - by apply b32_inj.
  - congruence.
Defined.

(** The 32 bytes of a number, most significant first. *)
Definition num_bytes (z : Z) : list Z :=
  map (fun i => Z.land (Z.shiftr z (8 * (31 - Z.of_nat i))) 255) (seq 0 32).

Lemma num_bytes_ok z : bytes32_ok (num_bytes z) = true.
Proof.
  unfold bytes32_ok, num_bytes. rewrite length_map, length_seq. cbn [Nat.eqb andb].
  apply forallb_forall. intros b Hb. apply in_map_iff in Hb as (i & <- & _).
  change 255 with (Z.ones 8). rewrite Z.land_ones by lia.
  pose proof (Z.mod_pos_bound (Z.shiftr z (8 * (31 - Z.of_nat i))) (2 ^ 8) ltac:(lia)).
  apply andb_true_iff. split; [apply Z.leb_le|apply Z.ltb_lt]; lia.
Qed.

Definition of_num (z : Z) : bytes32 := mkBytes32 (num_bytes z) (num_bytes_ok z).

Definition checksum (seed : Z) (bs : list Z) : Z :=
  fold_left (fun z b => Z.land (z * 257 + b + 1) (Z.ones 256)) bs seed.

#[export] Instance toy_ops : HashValueOps bytes32 := {|
  hv_eq_dec := bytes32_eq_dec;
  hv_bytes := b32;
  ACCUMULATOR_PLACEHOLDER_HASH := of_num 1;
  SPARSE_MERKLE_PLACEHOLDER_HASH := of_num 2;
|}.

Definition toy_hasher_with (seed : Z) : CryptoHasher bytes32 := {|
  hasher_state := list Z;
  hasher_default := [];
  hasher_update := fun s bs => s ++ bs;
  hasher_finish := fun s => of_num (checksum seed s);
|}.

(** The hasher of inner nodes. *)
#[export] Instance toy_hasher : CryptoHasher bytes32 := toy_hasher_with 7.

(** Values are hashed to themselves. *)
#[export] Instance toy_crypto_hash : CryptoHash bytes32 bytes32 := fun h => h.

Definition slice32 (bs : list Z) : option bytes32 :=
  match decide (bytes32_ok bs = true) with
  | left H => Some (mkBytes32 bs H)
  | right _ => None
  end.

#[export] Instance toy_bits : HashValueBits bytes32 := {|
  iter_bits := fun h => bytes_bits (b32 h);
  common_prefix_bits_len := fun a b =>
    Z.of_nat (common_prefix_len (bytes_bits (b32 a)) (bytes_bits (b32 b)));
  from_slice := slice32;
|}.

#[export] Instance toy_laws : HashValueLaws bytes32.
Proof.
  split; cbn.
  - intros [l Hl]. cbn. apply andb_true_iff in Hl as [Hl _]. by apply Nat.eqb_eq.
  - intros [l Hl]. cbn. apply andb_true_iff in Hl as [_ Hl]. apply Forall_forall. intros b Hb.
    rewrite forallb_forall in Hl. apply Hl, andb_true_iff in Hb as [??].
    split; [by apply Z.leb_le|by apply Z.ltb_lt].
  - apply b32_inj.
  - done.
  - done.
  - intros bs [l Hl]. unfold slice32. cbn. destruct (decide (bytes32_ok bs = true)) as [E|E].
    + split; [by intros [= ->]|]. intros ->. f_equal. by apply b32_inj.
    + split; [done|]. intros ->. done.
Qed.

(** A handful of leaves. *)
Definition toy_leaves (n : nat) : list bytes32 := map (fun i => of_num (Z.of_nat i + 100)) (seq 0 n).
