(* ===== verification/PositionTheorems.v ===== *)
(** * Positions: the properties of the navigation and numbering functions *)
From stdpp Require Import base list numbers strings option list_numbers.
From Stdlib Require Import ZArith Lia Bool.
From S2P Require Import Prelude Position.

(** ** Post-order *)
Lemma position_level p : 0 <= p < u64_max -> p <> 2 ^ 63 - 1 ->
  exists l k, 0 <= k /\ p = mkpos l k /\ (l < 63)%nat.
Proof.
  intros Hp Hne. destruct (mkpos_surj p) as (l & k & Hk & ->); [lia|]. exists l, k.
  split_and!; try done. pose proof (mkpos_level_lt l k Hk ltac:(lia)).
  destruct (decide (l = 63%nat)) as [->|]; [|lia]. exfalso.
  pose proof (mkpos_width 63 k Hk ltac:(lia)) as Hw. change (pow2 64) with U64 in Hw.
  assert (k = 0) as -> by (unfold U64 in Hw; lia). by apply Hne.
Qed.

Lemma postnum_bound l k : 0 <= k -> mkpos l k < u64_max -> (l < 63)%nat ->
  0 <= postnum l k < u64_max - 1.
Proof.
  intros Hk Hp Hl. pose proof (mkpos_width l k Hk Hp) as Hw. unfold postnum.
  pose proof (count_ones_bounds k Hk). pose proof (pow2_pos l). rewrite pow2_S in *.
  split; [nia|]. unfold u64_max. destruct (Z.eq_dec k 0) as [->|].
  - pose proof (pow2_mono l 62 ltac:(lia)). change (pow2 62) with (2 ^ 62) in *.
    change (count_ones 0) with 0. unfold U64. lia.
  - assert (0 < count_ones k); [|lia]. destruct k as [|q|q]; try lia. cbn [count_ones].
    clear. induction q; cbn [pos_count_ones]; lia.
Qed.

(** C34: converting an in-order position to its post-order number and back gives
    the position, for every position of the tree except the one at level 63. *)
Theorem to_from_postorder p : 0 <= p < u64_max -> p <> 2 ^ 63 - 1 ->
  exists i, to_postorder_index p = Ok i /\ 0 <= i < u64_max /\ from_postorder_index i = Ok p.
Proof.
  intros Hp Hne. destruct (position_level p Hp Hne) as (l & k & Hk & -> & Hl).
  pose proof (postnum_bound l k Hk ltac:(lia) Hl) as Hb. exists (postnum l k). split_and!; try lia.
  - apply inorder_to_postorder_mkpos; lia.
  - unfold from_postorder_index. rewrite ensure_true, obind_Ok by lia.
    apply postorder_to_inorder_mkpos; lia.
Qed.

Lemma to_from_postorder_witness :
  exists i, to_postorder_index 11 = Ok i /\ 0 <= i < u64_max /\ from_postorder_index i = Ok 11.
Proof. apply (to_from_postorder 11); [split; [lia|reflexivity]|discriminate]. Defined.

(** Every number below 2^64 - 2 is the post-order number of exactly the
    position [from_postorder_index] returns for it. *)
Theorem from_to_postorder i : 0 <= i < 2 ^ 64 - 2 ->
  exists p, from_postorder_index i = Ok p /\ 0 <= p < u64_max /\ to_postorder_index p = Ok i.
Proof.
  intros Hi. destruct (postnum_surj 64 i) as (l & k & Hl & Hk & ->);
    [change (pow2 64) with (2 ^ 64); lia|].
  assert (Hp : mkpos l k < u64_max).
  { rewrite mkpos_alt. unfold u64_max. rewrite u64_pow2.
    assert (E : pow2 64 = 2 * pow2 (64 - 1 - l) * pow2 l).
    { rewrite <- pow2_S, <- pow2_add. f_equal. lia. }
    rewrite E. pose proof (pow2_pos l). nia. }
  assert (Hl63 : (l < 63)%nat).
  { destruct (decide (l = 63%nat)) as [->|]; [|lia]. exfalso. change (pow2 (64 - 1 - 63)) with 1 in Hk.
    replace k with 0 in Hi by lia. change (postnum 63 0) with (2 ^ 64 - 2) in Hi. lia. }
  exists (mkpos l k). pose proof (mkpos_nonneg l k (proj1 Hk)). split_and!; try lia.
  - unfold from_postorder_index. rewrite ensure_true, obind_Ok by (unfold u64_max, U64; lia).
    apply postorder_to_inorder_mkpos; lia.
  - apply inorder_to_postorder_mkpos; lia.
Qed.

Lemma from_to_postorder_witness :
  exists p, from_postorder_index 17 = Ok p /\ 0 <= p < u64_max /\ to_postorder_index p = Ok 17.
Proof. apply (from_to_postorder 17). split; [lia|reflexivity]. Defined.

(** The numbering is a post-order: the right child of an inner node is
    numbered just before it and the left child just before the whole right
    subtree, of [2^level - 1] nodes. *)
Theorem postorder_children p : 0 <= p < u64_max -> p <> 2 ^ 63 - 1 -> is_leaf p = false ->
  exists l r i, left_child p = Ok l /\ right_child p = Ok r /\ to_postorder_index p = Ok i /\
    to_postorder_index r = Ok (i - 1) /\ to_postorder_index l = Ok (i - 2 ^ level p).
Proof.
  intros Hp Hne Hlf. destruct (position_level p Hp Hne) as (l & k & Hk & -> & Hl).
  rewrite is_leaf_mkpos in Hlf. destruct l as [|l]; [done|].
  assert (Hodd : mkpos (S l) k < u64_max - 1).
  { rewrite mkpos_alt, pow2_S in *. unfold u64_max, U64 in *. lia. }
  pose proof (mkpos_width _ _ Hk (proj2 Hp)) as Hw. pose proof (pow2_pos l).
  exists (mkpos l (2 * k)), (mkpos l (2 * k + 1)), (postnum (S l) k).
  rewrite left_child_mkpos, right_child_mkpos, level_mkpos by (done || lia).
  split_and!; try done; unfold to_postorder_index, to_inorder_index;
    rewrite inorder_to_postorder_mkpos; try lia; try done.
  - f_equal. unfold postnum. rewrite count_ones_succ_double, (pow2_S (S l)) by done. lia.
  - rewrite mkpos_alt, !pow2_S in *. unfold u64_max. nia.
  - f_equal. unfold postnum. rewrite count_ones_double, (pow2_S (S l)).
    change (2 ^ Z.of_nat (S l)) with (pow2 (S l)). lia.
  - rewrite mkpos_alt, !pow2_S in *. unfold u64_max. nia.
Qed.

Lemma postorder_children_witness :
  exists l r i, left_child 7 = Ok l /\ right_child 7 = Ok r /\ to_postorder_index 7 = Ok i /\
    to_postorder_index r = Ok (i - 1) /\ to_postorder_index l = Ok (i - 2 ^ level 7).
Proof. apply (postorder_children 7); [split; [lia|reflexivity]|discriminate|reflexivity]. Defined.

(** Parents, children and siblings agree: both children of a node have it as
    parent, they are each other's sibling, and exactly the left one is a left
    child.  The only inner node left out besides the top one is the parent of
    the last leaf, whose position the code's invariant excludes. *)
Theorem navigation_laws p : 0 <= p < u64_max - 2 -> p <> 2 ^ 63 - 1 -> is_leaf p = false ->
  exists l r, left_child p = Ok l /\ right_child p = Ok r /\
    parent l = Ok p /\ parent r = Ok p /\ sibling l = Ok r /\ sibling r = Ok l /\
    is_left_child l = Ok true /\ is_right_child l = Ok false /\
    is_left_child r = Ok false /\ is_right_child r = Ok true /\
    level l = level p - 1 /\ level r = level p - 1.
Proof.
  intros Hp Hne Hlf. destruct (position_level p ltac:(lia) Hne) as (l & k & Hk & -> & Hl).
  rewrite is_leaf_mkpos in Hlf. destruct l as [|l]; [done|].
  pose proof (mkpos_width (S l) k Hk ltac:(lia)) as Hw. pose proof (pow2_pos l).
  assert (Hc : mkpos l (2 * k) < u64_max - 1 /\ mkpos l (2 * k + 1) < u64_max - 1).
  { rewrite !mkpos_alt, !pow2_S in *. unfold u64_max, U64 in *. destruct l as [|l].
    - rewrite pow2_0 in *. lia.
    - rewrite !pow2_S in *. pose proof (pow2_pos l). nia. }
  destruct Hc as [Hc0 Hc1]. exists (mkpos l (2 * k)), (mkpos l (2 * k + 1)).
  rewrite left_child_mkpos, right_child_mkpos by lia. rewrite !parent_mkpos by lia.
  rewrite !sibling_mkpos by lia. rewrite !is_left_child_mkpos, !is_right_child_mkpos by lia.
  rewrite !level_mkpos by lia.
  assert (E0 : Z.even (2 * k) = true) by (by rewrite Z.even_mul).
  assert (E1 : Z.even (2 * k + 1) = false) by (by rewrite Z.even_add, E0).
  unfold sib. rewrite <- !Z.negb_even, E0, E1. replace (2 * k + 1 - 1) with (2 * k) by lia.
  replace (2 * k / 2) with k by (Z.to_euclidean_division_equations; lia).
  replace ((2 * k + 1) / 2) with k by (Z.to_euclidean_division_equations; lia).
  split_and!; done || lia.
Qed.

Lemma navigation_laws_witness :
  exists l r, left_child 11 = Ok l /\ right_child 11 = Ok r /\
    parent l = Ok 11 /\ parent r = Ok 11 /\ sibling l = Ok r /\ sibling r = Ok l /\
    is_left_child l = Ok true /\ is_right_child l = Ok false /\
    is_left_child r = Ok false /\ is_right_child r = Ok true /\
    level l = level 11 - 1 /\ level r = level 11 - 1.
Proof. apply (navigation_laws 11); [split; [lia|reflexivity]|discriminate|reflexivity]. Defined.

(** At level 63 the two conversions disagree: the last post-order number maps
    to the root of the widest tree, whose own conversion overflows. *)
Theorem postorder_top_overflow :
  from_postorder_index (2 ^ 64 - 2) = Ok (2 ^ 63 - 1) /\
  to_postorder_index (2 ^ 63 - 1) = Panic "attempt to subtract with overflow".
Proof. split; vm_compute; reflexivity. Qed.

(** ** Roots and leaves below a node *)

(** The root of [n] leaves is the least node of the left edge with all of them
    below it: the leaves below it are the first [2^level], at least [n] and less
    than [2 n]. *)
Theorem root_is_least n : 0 < n <= MAX_ACCUMULATOR_LEAVES ->
  exists root, root_from_leaf_count n = Ok root /\
    root_level_from_leaf_count n = Ok (level root) /\
    left_most_child root = from_leaf_index 0 /\
    right_most_child root = Ok (2 * (2 ^ level root - 1)) /\
    n <= 2 ^ level root /\ (1 < n -> 2 ^ level root < 2 * n).
Proof.
  unfold MAX_ACCUMULATOR_LEAVES. intros Hn. pose proof (rootl_le_63 n Hn) as Hr.
  assert (Hp : mkpos (rootl n) 0 < u64_max).
  { rewrite mkpos_alt. pose proof (pow2_mono _ _ Hr). change (pow2 63) with (2 ^ 63) in *.
    unfold u64_max, U64. lia. }
  exists (mkpos (rootl n) 0). rewrite root_from_leaf_count_spec, root_level_spec by done.
  rewrite level_mkpos, left_most_child_mkpos, right_most_child_mkpos by (done || lia).
  rewrite from_leaf_index_mkpos by lia. change (2 ^ Z.of_nat (rootl n)) with (pow2 (rootl n)).
  split_and!; try done.
  - rewrite mkpos_alt, pow2_0. f_equal. lia.
  - apply rootl_cover; lia.
  - apply rootl_tight.
Qed.

Lemma root_is_least_witness : exists root, root_from_leaf_count 5 = Ok root /\
    root_level_from_leaf_count 5 = Ok (level root) /\
    left_most_child root = from_leaf_index 0 /\
    right_most_child root = Ok (2 * (2 ^ level root - 1)) /\
    5 <= 2 ^ level root /\ (1 < 5 -> 2 ^ level root < 2 * 5).
Proof. apply (root_is_least 5). unfold MAX_ACCUMULATOR_LEAVES. lia. Defined.

(** A node is freezable at leaf index [i] when the last leaf below it is at
    most [i], and a placeholder when the first one is beyond [i]; the leaves are
    those [left_most_child] and [right_most_child] return. *)
Theorem freezable_placeholder p i : 0 <= p < u64_max -> 0 <= i < 2 ^ 63 ->
  exists a b, left_most_child p = from_leaf_index a /\ right_most_child p = from_leaf_index b /\
    0 <= a <= b /\ b - a + 1 = 2 ^ level p /\
    is_freezable p i = Ok (b <=? i) /\ is_placeholder p i = Ok (i <? a).
Proof.
  intros Hp Hi. destruct (mkpos_surj p) as (l & k & Hk & ->); [lia|].
  pose proof (mkpos_width l k Hk (proj2 Hp)) as Hw. pose proof (pow2_pos l).
  exists (k * pow2 l), ((k + 1) * pow2 l - 1).
  rewrite left_most_child_mkpos, right_most_child_mkpos, level_mkpos by (done || lia).
  rewrite is_freezable_mkpos, is_placeholder_mkpos by (done || lia).
  rewrite pow2_S in Hw. assert (HU : U64 = 2 * 2 ^ 63) by done.
  rewrite !from_leaf_index_mkpos by nia. change (2 ^ Z.of_nat l) with (pow2 l).
  split_and!; try done; try nia; f_equal; apply eq_true_iff_eq;
    rewrite ?Z.leb_le, ?Z.ltb_lt; lia.
Qed.

Lemma freezable_placeholder_witness :
  exists a b, left_most_child 5 = from_leaf_index a /\ right_most_child 5 = from_leaf_index b /\
    0 <= a <= b /\ b - a + 1 = 2 ^ level 5 /\
    is_freezable 5 2 = Ok (b <=? 2) /\ is_placeholder 5 2 = Ok (2 <? a).
Proof. apply (freezable_placeholder 5 2); split; lia || reflexivity. Defined.

(** ** Frozen subtrees *)
Definition node_leaves (x : nat * Z) : list Z := seqZ (snd x * pow2 (fst x)) (pow2 (fst x)).

Lemma frozen_range_leaves c : forall lo n, 0 <= n -> n / pow2 (lo + c) = 0 -> n mod pow2 lo = 0 ->
  flat_map node_leaves (frozen_range lo c n) = seqZ 0 n.
Proof.
  assert (Hgen : forall c lo n, 0 <= n ->
    flat_map node_leaves (frozen_range lo c n) =
    seqZ (n / pow2 (lo + c) * pow2 (lo + c)) (n / pow2 lo * pow2 lo - n / pow2 (lo + c) * pow2 (lo + c))).
  { clear. induction c as [|c IH]; intros lo n Hn.
    - rewrite Nat.add_0_r, Z.sub_diag. done.
    - cbn [frozen_range]. rewrite flat_map_app, IH by done. rewrite Nat.add_succ_r.
      set (t := (lo + c)%nat). pose proof (pow2_pos t). pose proof (pow2_pos lo).
      assert (Ed : n / pow2 (S t) = n / pow2 t / 2) by (rewrite pow2_S, Z.mul_comm, Z.div_div; lia).
      assert (Hmono : n / pow2 t * pow2 t <= n / pow2 lo * pow2 lo).
      { subst t. rewrite pow2_add. pose proof (pow2_pos c).
        rewrite <- Z.div_div by lia. set (q := n / pow2 lo).
        pose proof (Z.mul_div_le q (pow2 c) ltac:(lia)). nia. }
      pose proof (Z.div_pos n (pow2 t) Hn ltac:(lia)). unfold frozen_at.
      rewrite Z.testbit_odd, shiftr_pow2. rewrite Ed, pow2_S.
      destruct (Z.odd (n / pow2 t)) eqn:Eo.
      + apply Z.odd_spec in Eo as [q Eq].
        replace (n / pow2 t / 2) with q by (rewrite Eq; Z.to_euclidean_division_equations; lia).
        cbn [flat_map app]. unfold node_leaves. cbn [fst snd]. rewrite app_nil_r.
        replace (q * (2 * pow2 t)) with ((n / pow2 t - 1) * pow2 t) by (rewrite Eq; lia).
        replace (n / pow2 lo * pow2 lo - (n / pow2 t - 1) * pow2 t)
          with (pow2 t + (n / pow2 lo * pow2 lo - n / pow2 t * pow2 t)) by lia.
        rewrite seqZ_app by lia. do 2 f_equal. lia.
      + rewrite <- Z.negb_even, negb_false_iff in Eo. apply Z.even_spec in Eo as [q Eq].
        replace (n / pow2 t / 2) with q by (rewrite Eq; Z.to_euclidean_division_equations; lia).
        rewrite app_nil_l. f_equal; rewrite Eq; lia. }
  intros lo n Hn H0 Hm. rewrite Hgen, H0 by done. f_equal.
  pose proof (pow2_pos lo). pose proof (Z.div_mod n (pow2 lo) ltac:(lia)). lia.
Qed.

(** The iterator over the frozen subtrees of [n] leaves ends, yields one
    subtree per 1-bit of [n], and the leaves below the subtrees it yields, in
    order, are the leaves 0 to [n - 1]. *)
Theorem frozen_subtrees_partition n : 0 <= n < MAX_ACCUMULATOR_LEAVES ->
  exists nodes, collect FrozenSubTreeIterator_next 65 (FrozenSubTreeIterator_new n) =
      Ok (map node_pos nodes) /\
    Z.of_nat (length nodes) = count_ones n /\ flat_map node_leaves nodes = seqZ 0 n.
Proof.
  unfold MAX_ACCUMULATOR_LEAVES. intros Hn. exists (frozen_range 0 64 n). split_and!.
  - by apply FrozenSubTreeIterator_spec.
  - apply frozen_length. unfold U64. lia.
  - apply frozen_range_leaves; [lia| |].
    + apply Z.div_small. change (pow2 (0 + 64)) with (2 ^ 64). lia.
    + rewrite pow2_0. apply Z.mod_1_r.
Qed.

Lemma frozen_subtrees_partition_witness :
  exists nodes, collect FrozenSubTreeIterator_next 65 (FrozenSubTreeIterator_new 11) =
      Ok (map node_pos nodes) /\
    Z.of_nat (length nodes) = count_ones 11 /\ flat_map node_leaves nodes = seqZ 0 11.
Proof. apply (frozen_subtrees_partition 11). unfold MAX_ACCUMULATOR_LEAVES. lia. Defined.
