(* ===== verification/AccumulatorTheorems.v ===== *)
(** * Accumulators: the properties of the in-memory and the persistent
    accumulator, and of the proofs between a server and a client *)
From stdpp Require Import base list numbers strings option sets gmap list_numbers.
From Stdlib Require Import ZArith Lia Bool.
From S2P Require Import Prelude Position Hash MerkleSpec InMemoryAccumulator AccumulatorSound AccumulatorProof AccumulatorProofFacts MerkleAccumulator MerkleAccumulatorFacts MerkleAppend RangeProof LightClient ToyHash.

(** A reader that computes the frozen nodes of a list of leaves: the storage the
    concrete instances below read. *)
Section ListReader.
Context {HV : Type} `{HashValueOps HV} `{CryptoHasher HV}.

Record list_reader := mkListReader { stored_leaves : list HV }.

#[export] Instance list_reader_get : HashReader list_reader HV := fun r p =>
  k ← pos_counting_from_left p;
  Ok (node_hash (stored_leaves r) (Z.to_nat (level p)) k).

Lemma list_reader_ok L : zlen L < 2 ^ 63 -> reader_ok (mkListReader L) L.
Proof.
  intros HL l k Hk Hle. pose proof (mkpos_bound l k Hk ltac:(lia)) as Hp.
  assert (Hl : (l < 63)%nat).
  { apply pow2_lt_inv. change (pow2 63) with (2 ^ 63). pose proof (pow2_pos l). nia. }
  unfold reader_get, list_reader_get.
  rewrite pos_counting_from_left_mkpos, obind_Ok, level_mkpos, Nat2Z.id by (done || lia). done.
Qed.
End ListReader.

(** ** The in-memory accumulator *)
Section InMemory.
Context {HV : Type} `{HashValueOps HV} `{CryptoHasher HV}.
Implicit Types (L M : list HV).

(** C24: appending leaves to the accumulator of [L] gives the accumulator of the
    longer list: its root is the root of the reference Merkle tree, its frozen
    roots are those of the full subtrees. *)
Theorem append_refines L M : zlen L + zlen M < U64 ->
  append (acc_of L) M = Ok (acc_of (L ++ M)).
Proof. apply append_spec. Qed.

(** Building an accumulator from leaves gives the root of the reference
    tree over them. *)
Theorem from_leaves_root L : zlen L < U64 ->
  exists acc, from_leaves L = Ok acc /\ root_hash acc = spec_root L /\ num_leaves acc = zlen L /\
    frozen_subtree_roots acc = frozen_hashes L.
Proof.
  intros HU. exists (acc_of L). split_and!; try done. unfold from_leaves.
  assert (E : default_accumulator = Ok (acc_of (@nil HV))) by done. rewrite E, obind_Ok.
  by apply (append_spec []).
Qed.

(** C25: appending the subtrees the sibling iterator names is the same as
    appending the leaves below them one by one. *)
Theorem append_subtrees_equiv L M : zlen L + zlen M <= MAX_ACCUMULATOR_LEAVES ->
  exists it nodes, FrozenSubtreeSiblingIterator_new (zlen L) (zlen L + zlen M) = Ok it /\
    collect FrozenSubtreeSiblingIterator_next 131 it = Ok (map node_pos nodes) /\
    append_subtrees (acc_of L) (hashes_at (L ++ M) nodes) (zlen M) = append (acc_of L) M.
Proof.
  unfold MAX_ACCUMULATOR_LEAVES. intros HN. pose proof (zlen_nonneg L). pose proof (zlen_nonneg M).
  destruct (sibling_collect_spec (zlen L) (zlen M) 131) as (nodes & Hp & Hc); try lia.
  exists (mkFSSI (zlen L) (zlen M)), nodes. split_and!; try done.
  - unfold FrozenSubtreeSiblingIterator_new, MAX_ACCUMULATOR_LEAVES.
    rewrite assert_true, obind_Ok by lia. rewrite assert_true, obind_Ok by lia.
    rewrite sub64_Ok, obind_Ok by lia. do 2 f_equal. lia.
  - rewrite append_subtrees_spec by done. symmetry. apply append_spec. unfold U64. lia.
Qed.
End InMemory.

Lemma append_refines_witness :
  append (acc_of (toy_leaves 3)) (toy_leaves 2) = Ok (acc_of (toy_leaves 3 ++ toy_leaves 2)).
Proof. apply append_refines. reflexivity. Defined.

Lemma from_leaves_root_witness : exists acc, from_leaves (toy_leaves 5) = Ok acc /\
  root_hash acc = spec_root (toy_leaves 5) /\ num_leaves acc = zlen (toy_leaves 5) /\
  frozen_subtree_roots acc = frozen_hashes (toy_leaves 5).
Proof. apply from_leaves_root. reflexivity. Defined.

Lemma append_subtrees_equiv_witness :
  exists it nodes, FrozenSubtreeSiblingIterator_new (zlen (toy_leaves 3))
      (zlen (toy_leaves 3) + zlen (toy_leaves 4)) = Ok it /\
    collect FrozenSubtreeSiblingIterator_next 131 it = Ok (map node_pos nodes) /\
    append_subtrees (acc_of (toy_leaves 3)) (hashes_at (toy_leaves 3 ++ toy_leaves 4) nodes)
      (zlen (toy_leaves 4)) = append (acc_of (toy_leaves 3)) (toy_leaves 4).
Proof. apply append_subtrees_equiv. discriminate. Defined.

(** ** The persistent accumulator *)
Import MerkleAccumulatorView.

Section Persistent.
Context {R HV : Type} `{HashValueOps HV} `{CryptoHasher HV} `{HashReader R HV}.
Implicit Types (L M : list HV) (reader : R).

(** C23: appending leaves to a stored accumulator returns the root of the longer
    list, and the nodes to freeze: a node is returned, with its hash, exactly
    when the new leaves complete it, and the post-order numbers of the returned
    nodes are consecutive from the number of nodes already stored. *)
Theorem persistent_append reader L M : reader_ok reader L -> zlen L + zlen M <= 2 ^ 63 - 32 ->
  exists nodes, append reader (zlen L) M = Ok (spec_root (L ++ M), nodes) /\
    (forall l k, 0 <= k ->
      (mkpos l k, node_hash (L ++ M) l k) ∈ nodes <->
      zlen L < (k + 1) * pow2 l <= zlen L + zlen M) /\
    mapM (fun x => to_postorder_index (fst x)) nodes =
      Ok (seqZ (num_frozen (zlen L)) (num_frozen (zlen L + zlen M) - num_frozen (zlen L))).
Proof.
  intros Hrd HN. exists (map (tree_node (L ++ M)) (new_nodes (zlen L) (length M))).
  pose proof (zlen_nonneg L). pose proof (zlen_nonneg M).
  assert (Hb : zlen L + Z.of_nat (length M) < u64_max) by (unfold zlen, u64_max, U64 in *; lia).
  split; [by apply append_spec_all|]. split.
  - intros l k Hk. rewrite list_elem_of_In, in_map_iff. split.
    + intros ([l' k'] & E & Hin). apply list_elem_of_In in Hin.
      pose proof (new_nodes_nonneg _ _ _ _ (zlen_nonneg L) Hin) as Hk'.
      injection E as E _. destruct (mkpos_inj l' k' l k Hk' Hk E) as [-> ->].
      by apply new_nodes_elem in Hin.
    + intros Hin. exists (l, k). split; [done|]. apply list_elem_of_In. by apply new_nodes_elem.
  - change (zlen M) with (Z.of_nat (length M)). rewrite <- new_nodes_postnum by done.
    assert (Hall : forall l k, (l, k) ∈ new_nodes (zlen L) (length M) ->
              0 <= k /\ (k + 1) * pow2 l < 2 ^ 63).
    { intros l k Hin. pose proof (new_nodes_nonneg _ _ _ _ (zlen_nonneg L) Hin) as Hk.
      apply new_nodes_elem in Hin; [|done..]. unfold zlen in *. lia. }
    induction (new_nodes (zlen L) (length M)) as [|[l k] nodes IH]; [done|].
    destruct (Hall l k) as [Hk Hlt]; [by left|]. cbn [map mapM].
    assert (Hl : (l < 63)%nat).
    { apply pow2_lt_inv. change (pow2 63) with (2 ^ 63). pose proof (pow2_pos l). nia. }
    change (fst (tree_node (L ++ M) (l, k))) with (mkpos l k).
    unfold to_postorder_index, to_inorder_index in *.
    rewrite inorder_to_postorder_mkpos, obind_Ok by (try done; apply mkpos_bound; lia).
    rewrite IH, obind_Ok; [done|]. intros; apply Hall; by right.
Qed.

(** Any number of batches appended one after the other, each reading the
    nodes stored by the earlier ones, gives the root of the concatenation. *)
Theorem persistent_batches (batches : list (list HV)) :
  zlen (concat batches) <= 2 ^ 63 - 32 ->
  exists s, append_batches (∅ : gmap Z HV) 0 batches =
    Ok (s, zlen (concat batches), spec_root (concat batches)) /\ reader_ok s (concat batches).
Proof.
  intros HN. destruct (append_batches_spec batches (∅ : gmap Z HV) []) as (s & Hs & Hok).
  - intros l k Hk Hle. change (zlen []) with 0 in Hle. pose proof (pow2_pos l). nia.
  - done.
  - by exists s.
Qed.

(** A stored accumulator and the in-memory one agree: the root and the frozen
    roots read from storage are those of the in-memory accumulator, so one can
    be rebuilt from the other. *)
Theorem persistent_root reader L : reader_ok reader L -> 0 < zlen L < MAX_ACCUMULATOR_LEAVES ->
  get_root_hash reader (zlen L) = Ok (spec_root L) /\
  exists roots, get_frozen_subtree_hashes reader (zlen L) = Ok roots /\
    new roots (zlen L) = Ok (acc_of L).
Proof.
  unfold MAX_ACCUMULATOR_LEAVES. intros Hrd HL. split; [apply get_root_hash_spec; [done|lia]|].
  exists (frozen_hashes L). split; [apply get_frozen_subtree_hashes_spec; [done|lia]|].
  apply new_spec. unfold U64. lia.
Qed.

(** The proof storage produces for a leaf verifies against the root. *)
Theorem get_proof_verifies reader L i h : reader_ok reader L -> zlen L < MAX_ACCUMULATOR_LEAVES ->
  0 <= i -> L !! Z.to_nat i = Some h ->
  exists proof, get_proof reader (zlen L) i = Ok proof /\
    AccumulatorProof_verify proof (spec_root L) h i = Ok tt.
Proof.
  unfold MAX_ACCUMULATOR_LEAVES. intros Hrd HL Hi Hh. pose proof (lookup_lt_Some _ _ _ Hh).
  exists (spec_proof L i). split; [|by apply spec_proof_ok; [lia|..]].
  apply get_proof_spec; try done; unfold zlen in *; lia.
Qed.

(** The range proof storage produces for consecutive leaves verifies. *)
Theorem get_range_proof_verifies reader L f m : reader_ok reader L ->
  zlen L <= MAX_ACCUMULATOR_LEAVES - 2 -> 0 <= f -> 0 < m -> f + m <= zlen L ->
  exists proof, get_range_proof reader (zlen L) (Some f) m = Ok proof /\
    AccumulatorRangeProof_verify proof (spec_root L) (Some f)
      (take (Z.to_nat m) (drop (Z.to_nat f) L)) = Ok tt.
Proof.
  unfold MAX_ACCUMULATOR_LEAVES. intros Hrd HL Hf Hm Hfm. eexists.
  split; [by apply get_range_proof_spec|].
  pose proof (range_verify_complete L f (Z.to_nat m) _ ltac:(lia) Hf ltac:(lia) ltac:(lia) eq_refl) as Hc.
  rewrite Z2Nat.id in Hc by lia. apply Hc. rewrite length_take, length_drop. unfold zlen in *. lia.
Qed.

(** C31: a client that keeps the summary of [L] extends it to [L ++ M] with the
    consistency proof storage produces. *)
Theorem consistency_extends {EpochState} reader L M (li : LedgerInfo HV EpochState) :
  reader_ok reader (L ++ M) -> L <> [] -> zlen (L ++ M) <= MAX_ACCUMULATOR_LEAVES ->
  commits li (L ++ M) ->
  exists proof, get_consistency_proof reader (zlen (L ++ M)) (zlen L) = Ok proof /\
    try_extend_with_proof (summary_of L) proof li = Ok (summary_of (L ++ M)).
Proof.
  unfold MAX_ACCUMULATOR_LEAVES. intros Hrd HL HN Hc. pose proof (zlen_nonneg L). pose proof (zlen_nonneg M).
  destruct (get_consistency_proof_spec reader (L ++ M) (zlen L)) as (nodes & Hp & Hg);
    [done..|rewrite zlen_app in *; lia|].
  eexists. split; [exact Hg|]. rewrite zlen_app in *.
  replace (zlen L + zlen M - zlen L) with (zlen M) in Hp by lia.
  apply try_extend_honest; try done. destruct L; [done|unfold zlen; cbn [length]; lia].
Qed.
End Persistent.

(** Asking for a proof of a leaf that is not there is an error, and so is a
    range that is empty, reaches past the end or overflows the index. *)
Theorem proof_request_errors {R HV} `{HashValueOps HV} `{CryptoHasher HV} `{HashReader R HV}
    (reader : R) n i f m : n <= i -> 0 <= f -> 0 <= m -> n < f + m \/ m = 0 -> n <= u64_max ->
  (exists e, get_proof reader n i = Err e) /\ (exists e, get_range_proof reader n (Some f) m = Err e).
Proof.
  intros Hi Hf Hm Hfm Hn. split.
  - eexists. unfold get_proof, ensure. by rewrite (proj2 (Z.ltb_ge _ _)) by lia.
  - unfold get_range_proof, get_range_proof_positions, ensure.
    destruct (Z.ltb_spec 0 m); [|by eexists]. rewrite obind_Ok.
    destruct (Z.ltb_spec (f + (m - 1)) U64); [|by eexists]. cbn [ok_or]. rewrite obind_Ok.
    rewrite (proj2 (Z.ltb_ge _ _)) by lia. by eexists.
Qed.

Definition toy_reader (n : nat) : list_reader := mkListReader (toy_leaves n).

Definition toy_ledger_info (n : nat) : LedgerInfo bytes32 unit :=
  mkLedgerInfo (mkBlockInfo 0 0 (of_num 0) (spec_root (toy_leaves n)) (Z.of_nat n - 1) 0 None)
    (of_num 0).

Lemma persistent_append_witness :
  exists nodes, append (toy_reader 3) (zlen (toy_leaves 3)) (toy_leaves 4) =
      Ok (spec_root (toy_leaves 3 ++ toy_leaves 4), nodes) /\
    (forall l k, 0 <= k ->
      (mkpos l k, node_hash (toy_leaves 3 ++ toy_leaves 4) l k) ∈ nodes <->
      zlen (toy_leaves 3) < (k + 1) * pow2 l <= zlen (toy_leaves 3) + zlen (toy_leaves 4)) /\
    mapM (fun x => to_postorder_index (fst x)) nodes =
      Ok (seqZ (num_frozen (zlen (toy_leaves 3)))
            (num_frozen (zlen (toy_leaves 3) + zlen (toy_leaves 4)) - num_frozen (zlen (toy_leaves 3)))).
Proof. apply persistent_append; [by apply list_reader_ok|discriminate]. Defined.

Lemma persistent_batches_witness :
  exists s, append_batches (∅ : gmap Z bytes32) 0 [toy_leaves 3; []; toy_leaves 4] =
    Ok (s, zlen (concat [toy_leaves 3; []; toy_leaves 4]),
        spec_root (concat [toy_leaves 3; []; toy_leaves 4])) /\
    reader_ok s (concat [toy_leaves 3; []; toy_leaves 4]).
Proof. apply persistent_batches. discriminate. Defined.

Lemma persistent_root_witness :
  get_root_hash (toy_reader 5) (zlen (toy_leaves 5)) = Ok (spec_root (toy_leaves 5)) /\
  exists roots, get_frozen_subtree_hashes (toy_reader 5) (zlen (toy_leaves 5)) = Ok roots /\
    new roots (zlen (toy_leaves 5)) = Ok (acc_of (toy_leaves 5)).
Proof. apply persistent_root; [by apply list_reader_ok|by split]. Defined.

Lemma get_proof_verifies_witness :
  exists proof, get_proof (toy_reader 5) (zlen (toy_leaves 5)) 4 = Ok proof /\
    AccumulatorProof_verify proof (spec_root (toy_leaves 5)) (of_num 104) 4 = Ok tt.
Proof. apply get_proof_verifies; [by apply list_reader_ok|done|done|reflexivity]. Defined.

Lemma get_range_proof_verifies_witness :
  exists proof, get_range_proof (toy_reader 7) (zlen (toy_leaves 7)) (Some 2) 3 = Ok proof /\
    AccumulatorRangeProof_verify proof (spec_root (toy_leaves 7)) (Some 2)
      (take (Z.to_nat 3) (drop (Z.to_nat 2) (toy_leaves 7))) = Ok tt.
Proof. apply get_range_proof_verifies; [by apply list_reader_ok|discriminate|lia|lia|discriminate]. Defined.

Lemma consistency_extends_witness :
  exists proof, get_consistency_proof (toy_reader 7) (zlen (toy_leaves 3 ++ drop 3 (toy_leaves 7)))
      (zlen (toy_leaves 3)) = Ok proof /\
    try_extend_with_proof (summary_of (toy_leaves 3)) proof (toy_ledger_info 7) =
      Ok (summary_of (toy_leaves 3 ++ drop 3 (toy_leaves 7))).
Proof.
  apply consistency_extends; [apply (list_reader_ok (toy_leaves 7)); reflexivity|done|discriminate|].
  split; reflexivity.
Defined.

Lemma proof_request_errors_witness :
  (exists e, get_proof (toy_reader 3) 3 3 = Err e) /\
  (exists e, get_range_proof (toy_reader 3) 3 (Some 2) 2 = Err e).
Proof. apply proof_request_errors; unfold u64_max, U64; lia. Defined.

(** ** Soundness of proofs *)
Section Soundness.
Context {HV EpochState TransactionInfo : Type}.
Context `{HashValueOps HV} `{CryptoHasher HV} `{CryptoHash TransactionInfo HV}.
Implicit Types (L M : list HV).

(** C15: an inclusion proof accepted against the root of [L], of whatever length,
    shows the leaf of [L] at that index, or the accepted hash is the hash of an
    inner node, or a pair of hashes the verifier computed on is a collision
    with the tree or hashes to one of its leaves. *)
Theorem inclusion_sound L sibs h i :
  0 <= i < zlen L ->
  AccumulatorProof_verify (mkAccumulatorProof sibs) (spec_root L) h i = Ok tt ->
  L !! Z.to_nat i = Some h \/ inner_hash L h \/
  collision (in_list (fold_pairs h i sibs)) (tree_pair L) \/
  meets_leaf (in_list (fold_pairs h i sibs)) L.
Proof. apply AccumulatorProof_sound_any. Qed.

(** Among proofs of the right length the accepted proof is unique: it is
    the one of the tree, or it exhibits a collision. *)
Theorem inclusion_unique L sibs h i :
  0 <= i < zlen L -> length sibs = rootl (zlen L) ->
  AccumulatorProof_verify (mkAccumulatorProof sibs) (spec_root L) h i = Ok tt ->
  (L !! Z.to_nat i = Some h /\ mkAccumulatorProof sibs = spec_proof L i) \/
  collision (in_list (fold_pairs h i sibs)) (tree_pair L).
Proof. apply AccumulatorProof_sound_gen. Qed.

(** Verification depends on the index only modulo two to the number of
    siblings: a proof is accepted for an index exactly when it is accepted for
    the index cut to that many bits. *)
Theorem inclusion_index_mod sibs root h i :
  AccumulatorProof_verify (mkAccumulatorProof sibs) root h i =
  AccumulatorProof_verify (mkAccumulatorProof sibs) root h (i mod pow2 (length sibs)).
Proof. unfold AccumulatorProof_verify. cbn [siblings]. by rewrite fold_index_mod. Qed.

(** C22: every leaf hash of an accepted range proof is the leaf of [L] at its
    index, or is the placeholder or the hash of an inner node, unless a pair
    the verifier hashed is a collision with the tree or hashes to a leaf. *)
Theorem range_sound L proof f leaves : 0 <= f < zlen L -> zlen L <= MAX_ACCUMULATOR_LEAVES ->
  AccumulatorRangeProof_verify proof (spec_root L) (Some f) leaves = Ok tt ->
  (forall j h, leaves !! j = Some h ->
     L !! (Z.to_nat f + j)%nat = Some h \/ inner_hash L h) \/
  collision (in_list (verify_pairs proof f leaves)) (tree_pair L) \/
  meets_leaf (in_list (verify_pairs proof f leaves)) L.
Proof. apply range_verify_sound. Qed.

(** C38: the loop of the range verification ends for every input: the number of
    hashes is a bound on its iterations. *)
Theorem range_terminates (proof : AccumulatorRangeProof HV) root first leaves :
  AccumulatorRangeProof_verify proof root first leaves <> Panic "out of fuel".
Proof.
  unfold AccumulatorRangeProof_verify, ensure. destruct first as [f|].
  - destruct (Z.of_nat (length (left_siblings proof)) <=? _); [rewrite obind_Ok|osimpl; congruence].
    destruct (Z.of_nat (length (right_siblings proof)) <=? _); [rewrite obind_Ok|osimpl; congruence].
    destruct (decide (leaves = [])) as [->|Hne]; [cbn; congruence|].
    rewrite bool_decide_false by done. cbn [negb]. rewrite obind_Ok.
    assert (Hfl : exists p, from_leaf_index f = Ok p) by (eexists; reflexivity).
    destruct Hfl as [p ->]. rewrite obind_Ok.
    pose proof (range_loop_fuel _ p leaves (left_siblings proof) (right_siblings proof) Hne
                  (Nat.le_refl _)) as Hl.
    destruct (range_loop _ p leaves _ _) as [[|h t]|e|e]; osimpl; try congruence;
      cbn [head expect]; osimpl; [congruence|]. destruct (bool_decide _); congruence.
  - destruct (bool_decide (leaves = [])); osimpl; [|congruence]. destruct (_ && _); congruence.
Qed.

(** C16: a client that extends its summary to a ledger info that commits to
    [L'] holds the summary of [L'] and [L'] extends what it had, unless the
    hashes it computed, or those of the two trees, are a collision. *)
Theorem consistency_sound L L' proof (li : LedgerInfo HV EpochState) s :
  L <> [] -> commits li L' -> try_extend_with_proof (summary_of L) proof li = Ok s ->
  (L `prefix_of` L' /\ s = summary_of L') \/
  collision (in_list (append_subtrees_pairs (acc_of L) (subtrees proof) (zlen L' - zlen L)))
    (tree_pair L') \/
  collision (tree_pair L) (tree_pair L').
Proof.
  intros HL. apply try_extend_binding. destruct L; [done|unfold zlen; cbn [length]; lia].
Qed.

(** An extension proof for the root of [L] gives the accumulator of
    [L ++ M]; a proof accepted for that root gives no other accumulator unless
    it exhibits a collision. *)
Theorem extension_correct L M roots : zlen L + zlen M < U64 ->
  AccumulatorExtensionProof_verify
    (mkAccumulatorExtensionProof (frozen_hashes L) (zlen L) M) (spec_root L) = Ok (acc_of (L ++ M)) /\
  (forall acc, AccumulatorExtensionProof_verify (mkAccumulatorExtensionProof roots (zlen L) M)
                 (spec_root L) = Ok acc ->
     acc = acc_of (L ++ M) \/ collision (in_list (new_pairs roots (zlen L))) (tree_pair L)).
Proof.
  intros HU. split; [by apply extension_honest|]. intros acc. by apply extension_binding.
Qed.

(** A list of transactions of the ledger [T] that starts within the first
    [n] ones and reaches past them is accepted as an extension of the ledger of
    those [n], with the number of transactions they share. *)
Theorem extends_ledger_accepts (T : list TransactionInfo) f m n :
  Z.of_nat (length T) <= MAX_ACCUMULATOR_LEAVES ->
  0 <= f <= n -> n <= f + m -> 0 < m -> f + m <= Z.of_nat (length T) ->
  verify_extends_ledger (txn_list_of T f m) n
    (spec_root (txn_hashes (take (Z.to_nat n) T))) (Some f) = Ok (n - f).
Proof. apply extends_ledger_honest. Qed.

(** A transaction info with the proof of its version verifies against the
    ledger info of the ledger; a newer version than the ledger's is refused. *)
Theorem transaction_info_verifies (T : list TransactionInfo) (li : LedgerInfo HV EpochState) v t :
  commits li (txn_hashes T) -> Z.of_nat (length T) <= MAX_ACCUMULATOR_LEAVES ->
  0 <= v -> T !! Z.to_nat v = Some t ->
  TransactionInfoWithProof_verify
    (mkTransactionInfoWithProof (spec_proof (txn_hashes T) v) t) li v = Ok tt /\
  (forall proof w, LedgerInfo_version li < w ->
     exists e, TransactionInfoWithProof_verify (mkTransactionInfoWithProof proof t) li w = Err e).
Proof.
  unfold MAX_ACCUMULATOR_LEAVES. intros [Hv Hr] HT Hv0 Ht.
  pose proof (lookup_lt_Some _ _ _ Ht). rewrite zlen_txn_hashes in Hv. split.
  - unfold TransactionInfoWithProof_verify, verify_transaction_info.
    cbn [transaction_info ledger_info_to_transaction_info_proof].
    rewrite ensure_true, obind_Ok, Hr by lia. rewrite spec_proof_ok; [done|..].
    + by rewrite zlen_txn_hashes.
    + done.
    + unfold txn_hashes. rewrite list_lookup_fmap, Ht. done.
  - intros proof w Hw. eexists. unfold TransactionInfoWithProof_verify, verify_transaction_info, ensure.
    by rewrite (proj2 (Z.leb_gt _ _)) by lia.
Qed.
End Soundness.

(** On an ill-formed proof the range verification panics instead of returning
    an error: a single sibling for the leaf index 2^63 - 1 runs into the position
    invariant. *)
Theorem range_verify_panics {HV} `{HashValueOps HV} `{CryptoHasher HV} (h s root : HV) :
  AccumulatorRangeProof_verify (mkAccumulatorRangeProof [s] []) root (Some (2 ^ 63 - 1)) [h] =
  Panic "self.0 < u64::max_value() - 1".
Proof. reflexivity. Qed.

(** *** Instances *)
Definition toy_sibs (n : nat) (i : Z) : list bytes32 := siblings (spec_proof (toy_leaves n) i).

Lemma inclusion_sound_witness :
  toy_leaves 5 !! Z.to_nat 3 = Some (of_num 103) \/ inner_hash (toy_leaves 5) (of_num 103) \/
  collision (in_list (fold_pairs (of_num 103) 3 (toy_sibs 5 3))) (tree_pair (toy_leaves 5)) \/
  meets_leaf (in_list (fold_pairs (of_num 103) 3 (toy_sibs 5 3))) (toy_leaves 5).
Proof. apply inclusion_sound; [by split|vm_compute; reflexivity]. Defined.

Lemma inclusion_unique_witness :
  (toy_leaves 5 !! Z.to_nat 3 = Some (of_num 103) /\
   mkAccumulatorProof (toy_sibs 5 3) = spec_proof (toy_leaves 5) 3) \/
  collision (in_list (fold_pairs (of_num 103) 3 (toy_sibs 5 3))) (tree_pair (toy_leaves 5)).
Proof. apply inclusion_unique; [by split|reflexivity|vm_compute; reflexivity]. Defined.

Definition toy_range_proof : AccumulatorRangeProof bytes32 :=
  mkAccumulatorRangeProof (hashes_at (toy_leaves 7) (left_nodes 3 0 2))
    (hashes_at (toy_leaves 7) (right_nodes 3 0 4)).

Lemma range_sound_witness :
  let leaves := [of_num 102; of_num 103; of_num 104] in
  (forall j h, leaves !! j = Some h ->
     toy_leaves 7 !! (Z.to_nat 2 + j)%nat = Some h \/ inner_hash (toy_leaves 7) h) \/
  collision (in_list (verify_pairs toy_range_proof 2 leaves)) (tree_pair (toy_leaves 7)) \/
  meets_leaf (in_list (verify_pairs toy_range_proof 2 leaves)) (toy_leaves 7).
Proof. apply range_sound; [by split|discriminate|vm_compute; reflexivity]. Defined.

Lemma consistency_sound_witness :
  let proof := mkAccumulatorConsistencyProof [of_num 103] in
  let s := summary_of (toy_leaves 4) in
  (toy_leaves 3 `prefix_of` toy_leaves 4 /\ s = summary_of (toy_leaves 4)) \/
  collision (in_list (append_subtrees_pairs (acc_of (toy_leaves 3)) (subtrees proof)
                        (zlen (toy_leaves 4) - zlen (toy_leaves 3)))) (tree_pair (toy_leaves 4)) \/
  collision (tree_pair (toy_leaves 3)) (tree_pair (toy_leaves 4)).
Proof.
  apply (consistency_sound (toy_leaves 3) (toy_leaves 4) (mkAccumulatorConsistencyProof [of_num 103])
           (toy_ledger_info 4)); [done|by split|vm_compute; reflexivity].
Defined.

Lemma extension_correct_witness :
  AccumulatorExtensionProof_verify
    (mkAccumulatorExtensionProof (frozen_hashes (toy_leaves 3)) (zlen (toy_leaves 3)) (toy_leaves 2))
    (spec_root (toy_leaves 3)) = Ok (acc_of (toy_leaves 3 ++ toy_leaves 2)) /\
  (forall acc, AccumulatorExtensionProof_verify
      (mkAccumulatorExtensionProof [] (zlen (toy_leaves 3)) (toy_leaves 2))
      (spec_root (toy_leaves 3)) = Ok acc ->
     acc = acc_of (toy_leaves 3 ++ toy_leaves 2) \/
     collision (in_list (new_pairs [] (zlen (toy_leaves 3)))) (tree_pair (toy_leaves 3))).
Proof. apply extension_correct. reflexivity. Defined.

Lemma extends_ledger_accepts_witness :
  verify_extends_ledger (txn_list_of (toy_leaves 7) 2 4) 5
    (spec_root (txn_hashes (take (Z.to_nat 5) (toy_leaves 7)))) (Some 2) = Ok (5 - 2).
Proof. apply extends_ledger_accepts; cbn; unfold MAX_ACCUMULATOR_LEAVES; lia. Defined.

Lemma transaction_info_verifies_witness :
  TransactionInfoWithProof_verify
    (mkTransactionInfoWithProof (spec_proof (txn_hashes (toy_leaves 5)) 3) (of_num 103))
    (toy_ledger_info 5) 3 = Ok tt /\
  (forall proof w, LedgerInfo_version (toy_ledger_info 5) < w ->
     exists e, TransactionInfoWithProof_verify (mkTransactionInfoWithProof proof (of_num 103))
                 (toy_ledger_info 5) w = Err e).
Proof.
  apply transaction_info_verifies; [by split|cbn; unfold MAX_ACCUMULATOR_LEAVES; lia|lia|reflexivity].
Defined.
