(* ===== verification/SparseMerkleProof.v ===== *)
(** * Sparse Merkle proofs

    Model of the sparse half of [types/src/proof/definition.rs] and of
    [SparseMerkleLeafNode] of [types/src/proof/mod.rs]: proofs that a key has a
    value, or has none, in a sparse Merkle tree, and the proof of everything to
    the left of a known leaf. *)
From stdpp Require Import base list numbers strings option sets.
From Stdlib Require Import ZArith Lia Bool.
From S2P Require Import Prelude Hash AccumulatorProof.

(** The hasher of leaf nodes, [SparseMerkleLeafNodeHasher]. *)
Class LeafHasher (HV : Type) := leaf_hasher : CryptoHasher HV.

Section SparseDefinitions.
Context {HV : Type} `{HashValueOps HV} `{HashValueBits HV} `{CryptoHasher HV} `{LeafHasher HV}.

Record SparseMerkleLeafNode := mkSparseMerkleLeafNode { leaf_key : HV; leaf_value_hash : HV }.

Definition SparseMerkleLeafNode_hash (leaf : SparseMerkleLeafNode) : HV :=
  let state := @hasher_default HV leaf_hasher in
  let state := hasher_update state (hv_bytes (leaf_key leaf)) in
  let state := hasher_update state (hv_bytes (leaf_value_hash leaf)) in
  hasher_finish state.

(** ** [NodeInProof] and the proof types *)
Inductive NodeInProof :=
| NodeInProof_Leaf (leaf : SparseMerkleLeafNode)
| NodeInProof_Other (hash : HV).

Definition NodeInProof_hash (n : NodeInProof) : HV :=
  match n with
  | NodeInProof_Leaf leaf => SparseMerkleLeafNode_hash leaf
  | NodeInProof_Other hash => hash
  end.

Record SparseMerkleProof := mkSparseMerkleProof {
  smp_leaf : option SparseMerkleLeafNode;
  smp_siblings : list HV;
}.

Record SparseMerkleProofExt := mkSparseMerkleProofExt {
  smpe_leaf : option SparseMerkleLeafNode;
  smpe_siblings : list NodeInProof;
  smpe_root_depth : Z;
}.

Definition SparseMerkleProofExt_new (leaf : option SparseMerkleLeafNode)
    (siblings : list NodeInProof) : SparseMerkleProofExt :=
  mkSparseMerkleProofExt leaf siblings 0.

Definition SparseMerkleProofExt_new_empty : SparseMerkleProofExt :=
  SparseMerkleProofExt_new None [].

Definition new_partial (leaf : option SparseMerkleLeafNode) (siblings : list NodeInProof)
    (root_depth : Z) : SparseMerkleProofExt :=
  mkSparseMerkleProofExt leaf siblings root_depth.

Definition root_depth (self : SparseMerkleProofExt) : Z := smpe_root_depth self.

Definition bottom_depth (self : SparseMerkleProofExt) : outcome Z :=
  add64 (smpe_root_depth self) (Z.of_nat (length (smpe_siblings self))).

Definition sibling_at_depth (self : SparseMerkleProofExt) (depth : Z) : outcome NodeInProof :=
  bottom ← bottom_depth self;
  _ ← ensure ((root_depth self <? depth) && (depth <=? bottom)) "Proof does not cover depth";
  i ← sub64 depth (root_depth self);
  i ← sub64 i 1;
  expect (smpe_siblings self !! Z.to_nat i) "index out of bounds".

(** [From<SparseMerkleProofExt> for SparseMerkleProof]. *)
Definition proof_from_ext (proof_ext : SparseMerkleProofExt) : SparseMerkleProof :=
  mkSparseMerkleProof (smpe_leaf proof_ext) (map NodeInProof_hash (smpe_siblings proof_ext)).

(** ** Verification *)

(** The closure folded over the siblings and the bits. *)
Definition sparse_fold_step (hash : HV) (x : HV * bool) : HV :=
  let '(sibling_hash, bit) := x in
  if (bit : bool) then hash_node sibling_hash hash else hash_node hash sibling_hash.

(** The checks on the key and the value, by the shape of the proof. *)
Definition verify_leaf (self : SparseMerkleProof) (element_key : HV) (element_hash : option HV)
    (root_depth : Z) : outcome unit :=
  match element_hash, smp_leaf self with
  | Some hash, Some leaf =>
      _ ← ensure (bool_decide (element_key = leaf_key leaf)) "Keys do not match.";
      ensure (bool_decide (hash = leaf_value_hash leaf)) "Value hashes do not match."
  | Some _, None => Err "Expected inclusion proof. Found non-inclusion proof."
  | None, Some leaf =>
      _ ← ensure (negb (bool_decide (element_key = leaf_key leaf)))
            "Expected non-inclusion proof, but key exists in proof.";
      ensure (root_depth + Z.of_nat (length (smp_siblings self))
              <=? common_prefix_bits_len element_key (leaf_key leaf))
        "Key would not have ended up in the subtree where the provided key in proof is the only existing key."
  | None, None => Ok tt
  end.

Definition verify_by_hash_partial (self : SparseMerkleProof) (expected_root_hash element_key : HV)
    (element_hash : option HV) (root_depth : Z) : outcome unit :=
  depth ← add64 (Z.of_nat (length (smp_siblings self))) root_depth;
  _ ← ensure (depth <=? LENGTH_IN_BITS) "Sparse Merkle Tree proof has more than 256 siblings.";
  _ ← verify_leaf self element_key element_hash root_depth;
  let current_hash :=
    match smp_leaf self with
    | None => SPARSE_MERKLE_PLACEHOLDER_HASH
    | Some leaf => SparseMerkleLeafNode_hash leaf
    end in
  s ← sub64 LENGTH_IN_BITS (Z.of_nat (length (smp_siblings self)));
  skip ← sub64 s root_depth;
  let actual_root_hash :=
    fold_left sparse_fold_step
      (combine (rev (smp_siblings self)) (drop (Z.to_nat skip) (rev (iter_bits element_key))))
      current_hash in
  ensure (bool_decide (actual_root_hash = expected_root_hash))
    "SparseMerkleProof: Root hashes do not match.".

Definition verify_by_hash (self : SparseMerkleProof) (expected_root_hash element_key : HV)
    (element_hash : option HV) : outcome unit :=
  verify_by_hash_partial self expected_root_hash element_key element_hash 0.

Definition SparseMerkleProof_verify {V} `{CryptoHash V HV} (self : SparseMerkleProof)
    (expected_root_hash element_key : HV) (element_value : option V) : outcome unit :=
  verify_by_hash self expected_root_hash element_key (option_map crypto_hash element_value).

Definition SparseMerkleProofExt_verify_by_hash (self : SparseMerkleProofExt)
    (expected_root_hash element_key : HV) (element_hash : option HV) : outcome unit :=
  verify_by_hash_partial (proof_from_ext self) expected_root_hash element_key element_hash
    (root_depth self).

Definition SparseMerkleProofExt_verify {V} `{CryptoHash V HV} (self : SparseMerkleProofExt)
    (expected_root_hash element_key : HV) (element_value : option V) : outcome unit :=
  SparseMerkleProofExt_verify_by_hash self expected_root_hash element_key
    (option_map crypto_hash element_value).

(** ** [SparseMerkleRangeProof] *)
Record SparseMerkleRangeProof := mkSparseMerkleRangeProof { srp_right_siblings : list HV }.

(** The loop over the bits of the key of the rightmost known leaf. *)
Fixpoint sparse_range_loop (bits : list bool) (current_hash : HV) (left_iter right_iter : list HV)
  : outcome HV :=
  match bits with
  | [] => Ok current_hash
  | true :: bits =>
      left_hash ← ok_or (head left_iter) "Missing left sibling.";
      sparse_range_loop bits (hash_node left_hash current_hash) (tail left_iter) right_iter
  | false :: bits =>
      right_hash ← ok_or (head right_iter) "Missing right sibling.";
      sparse_range_loop bits (hash_node current_hash right_hash) left_iter (tail right_iter)
  end.

Definition SparseMerkleRangeProof_verify (self : SparseMerkleRangeProof)
    (expected_root_hash : HV) (rightmost_known_leaf : SparseMerkleLeafNode)
    (left_siblings : list HV) : outcome unit :=
  num_siblings ← add64 (Z.of_nat (length left_siblings))
                   (Z.of_nat (length (srp_right_siblings self)));
  skip ← sub64 LENGTH_IN_BITS num_siblings;
  current_hash ←
    sparse_range_loop
      (drop (Z.to_nat skip) (rev (iter_bits (leaf_key rightmost_known_leaf))))
      (SparseMerkleLeafNode_hash rightmost_known_leaf) left_siblings (srp_right_siblings self);
  ensure (bool_decide (current_hash = expected_root_hash))
    "SparseMerkleRangeProof: Root hashes do not match.".
End SparseDefinitions.
Arguments SparseMerkleLeafNode : clear implicits.
Arguments NodeInProof : clear implicits.
Arguments SparseMerkleProof : clear implicits.
Arguments SparseMerkleProofExt : clear implicits.
Arguments SparseMerkleRangeProof : clear implicits.
