(* ===== verification/SparseSpec.v ===== *)
(** * The reference sparse Merkle tree

    The tree over a list of leaves: empty subtrees are the placeholder, a subtree
    with one leaf is that leaf, any other splits by the next bit of the key.
    Verification of a proof is compared with it. *)
From stdpp Require Import base list numbers strings option sets.
From Stdlib Require Import ZArith Lia Bool.
From S2P Require Import Prelude Hash AccumulatorProof SparseMerkleProof.

Section SparseTree.
Context {HV : Type} `{HashValueOps HV} `{HashValueBits HV} `{CryptoHasher HV} `{LeafHasher HV}.
Implicit Types (kvs : list (SparseMerkleLeafNode HV)) (x : SparseMerkleLeafNode HV) (key : HV).

Definition key_bit key (d : nat) : bool := nth d (iter_bits key) false.

(** The leaves whose bit at depth [d] is [b]. *)
Definition side (d : nat) (b : bool) kvs : list (SparseMerkleLeafNode HV) :=
  filter (fun x => key_bit (leaf_key x) d = b) kvs.

(** [fuel] is the number of bits left; 256 bits separate any two keys. *)
Fixpoint smt (fuel d : nat) kvs : HV :=
  match kvs with
  | [] => SPARSE_MERKLE_PLACEHOLDER_HASH
  | [x] => SparseMerkleLeafNode_hash x
  | _ =>
      match fuel with
      | O => SPARSE_MERKLE_PLACEHOLDER_HASH
      | S fuel => hash_node (smt fuel (S d) (side d false kvs)) (smt fuel (S d) (side d true kvs))
      end
  end.

Definition smt_root kvs : HV := smt 256 0 kvs.

(** The pairs of children the tree hashes. *)
Fixpoint smt_pairs (fuel d : nat) kvs : list (HV * HV) :=
  match kvs with
  | [] | [_] => []
  | _ =>
      match fuel with
      | O => []
      | S fuel =>
          (smt fuel (S d) (side d false kvs), smt fuel (S d) (side d true kvs)) ::
          smt_pairs fuel (S d) (side d false kvs) ++ smt_pairs fuel (S d) (side d true kvs)
      end
  end.

(** The leaves below the node [n] levels down the path of [key]. *)
Fixpoint path (d n : nat) key kvs : list (SparseMerkleLeafNode HV) :=
  match n with
  | O => kvs
  | S n => path (S d) n key (side d (key_bit key d) kvs)
  end.

(** The proof of [key], top sibling first. *)
Fixpoint smt_prove (fuel d : nat) key kvs : option (SparseMerkleLeafNode HV) * list HV :=
  match kvs with
  | [] => (None, [])
  | [x] => (Some x, [])
  | _ =>
      match fuel with
      | O => (None, [])
      | S fuel =>
          let b := key_bit key d in
          let '(leaf, sibs) := smt_prove fuel (S d) key (side d b kvs) in
          (leaf, smt fuel (S d) (side d (negb b) kvs) :: sibs)
      end
  end.

Definition sparse_proof_of kvs key : SparseMerkleProof HV :=
  mkSparseMerkleProof (fst (smt_prove 256 0 key kvs)) (snd (smt_prove 256 0 key kvs)).

(** The value of a key. *)
Definition value_of kvs key : option HV :=
  match filter (fun x => leaf_key x = key) kvs with
  | [] => None
  | x :: _ => Some (leaf_value_hash x)
  end.

Lemma smt_nil fuel d : smt fuel d [] = SPARSE_MERKLE_PLACEHOLDER_HASH.
Proof. by destruct fuel. Qed.

Lemma smt_one fuel d x : smt fuel d [x] = SparseMerkleLeafNode_hash x.
Proof. by destruct fuel. Qed.

(** ** Climbing from the bottom, as a recursion from the top *)
Definition sparse_pair key (d : nat) (h s : HV) : HV * HV :=
  if key_bit key d then (s, h) else (h, s).

Fixpoint climb (d : nat) key (sibs : list HV) (h : HV) : HV :=
  match sibs with
  | [] => h
  | s :: sibs =>
      let x := sparse_pair key d (climb (S d) key sibs h) s in hash_node (fst x) (snd x)
  end.

(** The pairs the verifier hashes. *)
Fixpoint climb_pairs (d : nat) key (sibs : list HV) (h : HV) : list (HV * HV) :=
  match sibs with
  | [] => []
  | s :: sibs => sparse_pair key d (climb (S d) key sibs h) s :: climb_pairs (S d) key sibs h
  end.

Lemma climb_app key : forall sibs d s h,
  climb d key (sibs ++ [s]) h =
  climb d key sibs (sparse_fold_step h (s, key_bit key (d + length sibs))).
Proof.
  induction sibs as [|x sibs IH]; intros d s h; cbn [app climb length].
  - rewrite Nat.add_0_r. unfold sparse_pair, sparse_fold_step. by destruct (key_bit key d).
  - rewrite IH. by rewrite Nat.add_succ_comm.
Qed.

(** The fold over the zipped iterators is the climb. *)
Lemma fold_climb key d : forall sibs h,
  (d + length sibs <= length (iter_bits key))%nat ->
  fold_left sparse_fold_step
    (combine (rev sibs) (drop (length (iter_bits key) - length sibs - d) (rev (iter_bits key)))) h =
  climb d key sibs h.
Proof.
  intros sibs. induction sibs as [|s sibs IH] using rev_ind; intros h Hl; [done|].
  rewrite climb_app, rev_app_distr. cbn [rev app]. rewrite length_app in *. cbn [length] in *.
  set (n := length (iter_bits key)) in *.
  assert (Hlt : (n - (length sibs + 1) - d < length (rev (iter_bits key)))%nat)
    by (rewrite length_rev; subst n; lia).
  destruct (lookup_lt_is_Some_2 _ _ Hlt) as [b Hb].
  rewrite (drop_S _ b) by done. cbn [combine fold_left].
  replace (S (n - (length sibs + 1) - d)) with (n - length sibs - d)%nat by lia.
  rewrite IH by lia. f_equal. f_equal. f_equal.
  unfold key_bit.
  assert (Hn : nth (n - (length sibs + 1) - d) (rev (iter_bits key)) false = b).
  { rewrite nth_lookup, Hb. done. }
  rewrite rev_nth in Hn by lia. rewrite <- Hn. f_equal. subst n. lia.
Qed.

(** ** Soundness *)

(** What a dishonest proof has to exhibit: [ps] are the pairs and [l] the leaf that
    the verifier hashed. *)
Inductive smt_bad (fuel d : nat) kvs (ps : list (HV * HV)) (l : option (SparseMerkleLeafNode HV)) : Prop :=
| bad_inner p q : p ∈ ps -> q ∈ smt_pairs fuel d kvs -> p <> q ->
    hash_node (fst p) (snd p) = hash_node (fst q) (snd q) -> smt_bad fuel d kvs ps l
| bad_inner_leaf p y : p ∈ ps -> y ∈ kvs ->
    hash_node (fst p) (snd p) = SparseMerkleLeafNode_hash y -> smt_bad fuel d kvs ps l
| bad_inner_empty p : p ∈ ps ->
    hash_node (fst p) (snd p) = SPARSE_MERKLE_PLACEHOLDER_HASH -> smt_bad fuel d kvs ps l
| bad_leaf x y : l = Some x -> y ∈ kvs -> x <> y ->
    SparseMerkleLeafNode_hash x = SparseMerkleLeafNode_hash y -> smt_bad fuel d kvs ps l
| bad_leaf_inner x q : l = Some x -> q ∈ smt_pairs fuel d kvs ->
    SparseMerkleLeafNode_hash x = hash_node (fst q) (snd q) -> smt_bad fuel d kvs ps l
| bad_leaf_empty x : l = Some x ->
    SparseMerkleLeafNode_hash x = SPARSE_MERKLE_PLACEHOLDER_HASH -> smt_bad fuel d kvs ps l
| bad_empty_leaf y : y ∈ kvs ->
    SparseMerkleLeafNode_hash y = SPARSE_MERKLE_PLACEHOLDER_HASH -> smt_bad fuel d kvs ps l
| bad_empty_inner q : q ∈ smt_pairs fuel d kvs ->
    hash_node (fst q) (snd q) = SPARSE_MERKLE_PLACEHOLDER_HASH -> smt_bad fuel d kvs ps l.

Lemma side_subset d b kvs : side d b kvs ⊆ kvs.
Proof. intros x Hx. by apply list_elem_of_filter in Hx as [_ ?]. Qed.

Lemma smt_bad_side fuel d b x1 x2 rest ps ps' l :
  let kvs := x1 :: x2 :: rest in ps ⊆ ps' ->
  smt_bad fuel (S d) (side d b kvs) ps l -> smt_bad (S fuel) d kvs ps' l.
Proof.
  intros kvs Hps Hb.
  assert (Hpair : forall y : HV * HV, y ∈ smt_pairs fuel (S d) (side d b kvs) -> y ∈ smt_pairs (S fuel) d kvs).
  { intros y Hy. subst kvs. cbn [smt_pairs]. right. apply elem_of_app. destruct b; [by right|by left]. }
  pose proof (side_subset d b kvs) as Hs.
  destruct Hb; [eapply bad_inner|eapply bad_inner_leaf|eapply bad_inner_empty|eapply bad_leaf
    |eapply bad_leaf_inner|eapply bad_leaf_empty|eapply bad_empty_leaf|eapply bad_empty_inner]; eauto.
Qed.

Lemma climb_sound key l : forall sibs fuel d kvs h, (length sibs <= fuel)%nat ->
  climb d key sibs h = smt fuel d kvs ->
  h = smt (fuel - length sibs) (d + length sibs) (path d (length sibs) key kvs) \/
  smt_bad fuel d kvs (climb_pairs d key sibs h) l.
Proof.
  induction sibs as [|s sibs IH]; intros fuel d kvs h Hf E.
  - left. cbn [length path climb] in *. by rewrite Nat.sub_0_r, Nat.add_0_r.
  - cbn [length climb climb_pairs] in *. destruct fuel as [|fuel]; [lia|].
    set (x := sparse_pair key d (climb (S d) key sibs h) s) in *.
    destruct kvs as [|x1 [|x2 rest]].
    + right. eapply bad_inner_empty; [by left|]. exact E.
    + right. eapply bad_inner_leaf; [by left|by left|]. exact E.
    + set (kvs := x1 :: x2 :: rest) in *.
      change (smt (S fuel) d kvs) with
        (hash_node (smt fuel (S d) (side d false kvs)) (smt fuel (S d) (side d true kvs))) in E.
      set (y := (smt fuel (S d) (side d false kvs), smt fuel (S d) (side d true kvs))).
      destruct (decide (x = y)) as [Exy|Hne].
      2:{ right. eapply (bad_inner _ _ _ _ _ x y); [by left|by left|done|exact E]. }
      assert (Ec : climb (S d) key sibs h = smt fuel (S d) (side d (key_bit key d) kvs)).
      { subst x y. unfold sparse_pair in Exy. destruct (key_bit key d); by injection Exy as ? ?. }
      apply IH in Ec as [Eh|Hb]; [left|right|lia].
      * cbn [path Nat.sub]. by rewrite <- Nat.add_succ_comm.
      * eapply smt_bad_side; [|exact Hb]. by apply list_subseteq_cons.
Qed.

Lemma path_subset key n : forall d kvs, path d n key kvs ⊆ kvs.
Proof.
  induction n as [|n IH]; intros d kvs; cbn [path]; [done|].
  etrans; [apply IH|apply side_subset].
Qed.

(** The path of a key keeps every leaf with that key. *)
Lemma path_keeps key n : forall d kvs x, x ∈ kvs -> leaf_key x = key -> x ∈ path d n key kvs.
Proof.
  induction n as [|n IH]; intros d kvs x Hx Hk; cbn [path]; [done|].
  apply IH; [|done]. apply list_elem_of_filter. by rewrite Hk.
Qed.

Lemma path_pairs key n : forall fuel d kvs y, (n <= fuel)%nat ->
  (2 <= length (path d n key kvs))%nat ->
  y ∈ smt_pairs (fuel - n) (d + n) (path d n key kvs) -> y ∈ smt_pairs fuel d kvs.
Proof.
  induction n as [|n IH]; intros fuel d kvs y Hf Hl Hy; cbn [path] in *.
  - by rewrite Nat.sub_0_r, Nat.add_0_r in Hy.
  - destruct fuel as [|fuel]; [lia|]. cbn [Nat.sub] in Hy. rewrite <- Nat.add_succ_comm in Hy.
    apply IH in Hy; [|lia|done].
    destruct kvs as [|x1 [|x2 rest]].
    + assert (E : forall m d', path d' m key [] = []) by (clear; induction m; intros; [done|cbn; eauto]).
      change (side d (key_bit key d) []) with (@nil (SparseMerkleLeafNode HV)) in Hl.
      rewrite E in Hl. cbn in Hl. lia.
    + assert (E : forall m d' zs, (length zs <= 1)%nat -> (length (path d' m key zs) <= 1)%nat).
      { clear. induction m as [|m IH]; intros d' zs Hz; [done|]. cbn [path]. apply IH.
        etrans; [apply length_filter|done]. }
      specialize (E n (S d) (side d (key_bit key d) [x1])). cbn [side] in E.
      assert (length (side d (key_bit key d) [x1]) <= 1)%nat by apply (length_filter _ [x1]).
      lia.
    + cbn [smt_pairs]. right. apply elem_of_app. destruct (key_bit key d); [by right|by left].
Qed.
End SparseTree.
