(* ===== verification/SparseFacts.v ===== *)
(** * Sparse Merkle proofs: soundness and completeness *)
From stdpp Require Import base list numbers strings option sets.
From Stdlib Require Import ZArith Lia Bool.
From S2P Require Import Prelude Hash AccumulatorProof SparseMerkleProof SparseSpec.

(** ** Bits of bytes *)
Lemma byte_bits_inj a b : byte_ok a -> byte_ok b -> byte_bits a = byte_bits b -> a = b.
Proof.
  unfold byte_ok. intros Ha Hb E. apply Z.bits_inj'. intros i Hi.
  destruct (Z.lt_ge_cases i 8) as [Hlt|Hge].
  - apply (f_equal (nth (Z.to_nat (7 - i)) ))  in E.
    apply (f_equal (fun f => f false)) in E. unfold byte_bits in E.
    rewrite !(nth_indep _ _ (Z.testbit 0 (7 - Z.of_nat 0))) in E by (rewrite length_map, length_seq; lia).
    assert (G : forall z, nth (Z.to_nat (7 - i)) (map (fun k => Z.testbit z (7 - Z.of_nat k)) (seq 0 8))
                   (Z.testbit 0 (7 - Z.of_nat 0)) = Z.testbit z i).
    { intros z. assert (Hc : i = 0 \/ i = 1 \/ i = 2 \/ i = 3 \/ i = 4 \/ i = 5 \/ i = 6 \/ i = 7) by lia.
      by repeat (destruct Hc as [->|Hc]; [done|]); subst. }
    by rewrite !G in E.
  - rewrite !(testbit_high 8) by (change (pow2 8) with 256; lia). done.
Qed.

Lemma bytes_bits_length bs : length (bytes_bits bs) = (8 * length bs)%nat.
Proof.
  induction bs as [|b bs IH]; [done|]. cbn [bytes_bits flat_map]. rewrite length_app.
  unfold bytes_bits in IH. rewrite IH. unfold byte_bits. rewrite length_map, length_seq. cbn. lia.
Qed.

Lemma bytes_bits_inj : forall a b, Forall byte_ok a -> Forall byte_ok b ->
  bytes_bits a = bytes_bits b -> a = b.
Proof.
  induction a as [|x a IH]; intros [|y b] Ha Hb E; [done| | |].
  - apply (f_equal length) in E. rewrite !bytes_bits_length in E. cbn in E. lia.
  - apply (f_equal length) in E. rewrite !bytes_bits_length in E. cbn in E. lia.
  - apply Forall_cons in Ha as [Hx Ha], Hb as [Hy Hb]. cbn [bytes_bits flat_map] in E.
    apply app_inj_1 in E as [E1 E2]; [|by unfold byte_bits; rewrite !length_map].
    f_equal; [by apply byte_bits_inj|by apply IH].
Qed.

Section SparseFacts.
Context {HV : Type} `{HashValueOps HV} `{HashValueBits HV} `{CryptoHasher HV} `{LeafHasher HV}.
Context `{!HashValueLaws HV}.
Implicit Types (kvs : list (SparseMerkleLeafNode HV)) (x : SparseMerkleLeafNode HV) (key : HV).

Lemma iter_bits_length key : length (iter_bits key) = 256%nat.
Proof. by rewrite iter_bits_spec, bytes_bits_length, hv_bytes_length. Qed.

Lemma iter_bits_inj a b : iter_bits a = iter_bits b -> a = b.
Proof.
  rewrite !iter_bits_spec. intros E. apply hv_bytes_inj, bytes_bits_inj; [apply hv_bytes_ok..|done].
Qed.

(** Two keys that agree on the bits below [n]. *)
Definition agree (n : nat) (a b : HV) : Prop := forall i, (i < n)%nat -> key_bit a i = key_bit b i.

Lemma agree_all a b : agree 256 a b -> a = b.
Proof.
  intros Ha. apply iter_bits_inj. apply (nth_ext _ _ false false).
  - by rewrite !iter_bits_length.
  - intros n Hn. rewrite iter_bits_length in Hn. by apply Ha.
Qed.

Lemma common_prefix_len_ge {A} `{EqDecision A} (d : A) : forall n (xs ys : list A),
  (n <= length xs)%nat -> (n <= length ys)%nat ->
  (forall i, (i < n)%nat -> nth i xs d = nth i ys d) -> (n <= common_prefix_len xs ys)%nat.
Proof.
  induction n as [|n IH]; intros xs ys Hx Hy Hn; [lia|].
  destruct xs as [|x xs], ys as [|y ys]; cbn in Hx, Hy; [lia..|]. cbn.
  destruct (decide (x = y)) as [->|Hne]; [|by destruct Hne; apply (Hn 0%nat); lia].
  enough (n <= common_prefix_len xs ys)%nat by lia.
  apply IH; [lia..|]. intros i Hi. apply (Hn (S i)). lia.
Qed.

Lemma agree_common_prefix n a b : (n <= 256)%nat -> agree n a b ->
  Z.of_nat n <= common_prefix_bits_len a b.
Proof.
  intros Hn Ha. rewrite common_prefix_bits_len_spec. apply inj_le.
  apply (common_prefix_len_ge false); rewrite ?iter_bits_length; done.
Qed.

(** The leaves of a subtree at depth [d]: different keys, with the bits of [key]
    above. *)
Definition under (d : nat) key kvs : Prop :=
  NoDup (map leaf_key kvs) /\ forall x, x ∈ kvs -> agree d (leaf_key x) key.

Lemma under_side d key kvs : under d key kvs -> under (S d) key (side d (key_bit key d) kvs).
Proof.
  intros [Hnd Ha]. split.
  - unfold side. change (map leaf_key ?l) with (leaf_key <$> l) in *.
    eapply sublist_NoDup; [exact Hnd|]. apply fmap_sublist, sublist_filter || apply sublist_fmap, sublist_filter.
  - intros x Hx. apply list_elem_of_filter in Hx as [Hb Hx]. intros i Hi.
    destruct (decide (i = d)) as [->|]; [done|]. apply (Ha x Hx). lia.
Qed.

Lemma under_path key n : forall d kvs, under d key kvs -> under (d + n) key (path d n key kvs).
Proof.
  induction n as [|n IH]; intros d kvs Hu; cbn [path]; [by rewrite Nat.add_0_r|].
  rewrite <- Nat.add_succ_comm. apply IH. by apply under_side.
Qed.

Lemma under_256 key kvs : under 256 key kvs -> (length kvs <= 1)%nat.
Proof.
  intros [Hnd Ha]. destruct kvs as [|x [|y kvs]]; cbn; try lia. exfalso.
  apply NoDup_cons in Hnd as [Hin _]. apply Hin. cbn.
  rewrite (agree_all _ _ (Ha x ltac:(left))), (agree_all _ _ (Ha y ltac:(right; left))). left.
Qed.

(** ** [verify_by_hash_partial] as a climb *)
Definition start_hash (leaf : option (SparseMerkleLeafNode HV)) : HV :=
  match leaf with
  | None => SPARSE_MERKLE_PLACEHOLDER_HASH
  | Some leaf => SparseMerkleLeafNode_hash leaf
  end.

Lemma verify_partial_iff leaf sibs root key eh r :
  verify_by_hash_partial (mkSparseMerkleProof leaf sibs) root key eh (Z.of_nat r) = Ok tt <->
  (r + length sibs <= 256)%nat /\
  verify_leaf (mkSparseMerkleProof leaf sibs) key eh (Z.of_nat r) = Ok tt /\
  climb r key sibs (start_hash leaf) = root.
Proof.
  unfold verify_by_hash_partial, LENGTH_IN_BITS. cbn [smp_siblings smp_leaf].
  destruct (Z.le_gt_cases (Z.of_nat (length sibs) + Z.of_nat r) 256) as [Hle|Hgt].
  - rewrite add64_Ok, obind_Ok by (unfold U64; lia). rewrite ensure_true, obind_Ok by lia.
    rewrite sub64_Ok, obind_Ok by lia. rewrite sub64_Ok, obind_Ok by lia.
    rewrite bind_Ok. split.
    + intros ([] & Hv & Hr). apply ensure_Ok, bool_decide_eq_true in Hr. split; [lia|]. split; [done|].
      rewrite <- fold_climb by (rewrite iter_bits_length; lia). rewrite <- Hr.
      do 3 f_equal. rewrite iter_bits_length. lia.
    + intros (_ & Hv & Hr). exists tt. split; [done|]. apply ensure_true, bool_decide_eq_true.
      rewrite <- fold_climb in Hr by (rewrite iter_bits_length; lia). rewrite <- Hr.
      do 3 f_equal. rewrite iter_bits_length. lia.
  - split; [|lia]. rewrite !bind_Ok. intros (dp & Hd & He). unfold add64 in Hd.
    destruct (_ <? U64); [|done]. injection Hd as <-.
    apply bind_Ok in He as ([] & He & _). apply ensure_Ok in He. lia.
Qed.

(** ** Soundness *)
Lemma path_bad key n fuel d kvs ps l : (n <= fuel)%nat ->
  (2 <= length (path d n key kvs))%nat ->
  smt_bad (fuel - n) (d + n) (path d n key kvs) ps l -> smt_bad fuel d kvs ps l.
Proof.
  intros Hf Hl Hb. pose proof (path_subset key n d kvs) as Hs.
  assert (Hp : forall y : HV * HV, y ∈ smt_pairs (fuel - n) (d + n) (path d n key kvs) ->
    y ∈ smt_pairs fuel d kvs) by (intros y; by apply path_pairs).
  destruct Hb; [eapply bad_inner|eapply bad_inner_leaf|eapply bad_inner_empty|eapply bad_leaf
    |eapply bad_leaf_inner|eapply bad_leaf_empty|eapply bad_empty_leaf|eapply bad_empty_inner]; eauto.
Qed.

(** The bottom of the path, by the leaf of the proof. *)
Lemma bottom_cases key leaf ps fuel d kvs n : (n <= fuel)%nat -> (d + fuel = 256)%nat ->
  under d key kvs ->
  start_hash leaf = smt (fuel - n) (d + n) (path d n key kvs) ->
  path d n key kvs = option_list leaf \/ smt_bad fuel d kvs ps leaf.
Proof.
  intros Hn Hd Hu E. pose proof (path_subset key n d kvs) as Hs.
  destruct (path d n key kvs) as [|x1 [|x2 rest]] eqn:Ep.
  - rewrite smt_nil in E. destruct leaf as [x|]; [right|by left]. by eapply bad_leaf_empty.
  - rewrite smt_one in E. destruct leaf as [x|]; [|right; eapply bad_empty_leaf; [apply Hs; by left|]; by symmetry].
    destruct (decide (leaf_key x = leaf_key x1 /\ leaf_value_hash x = leaf_value_hash x1)) as [[E1 E2]|Hne].
    + left. destruct x, x1. cbn in *. by subst.
    + right. eapply (bad_leaf _ _ _ _ _ x x1); [done|apply Hs; by left| |exact E]. intros ->. by apply Hne.
  - right. destruct (fuel - n)%nat as [|f] eqn:Ef.
    { pose proof (under_path key n d kvs Hu) as Hup. rewrite Ep in Hup.
      replace (d + n)%nat with 256%nat in Hup by lia. apply under_256 in Hup. cbn in Hup. lia. }
    apply (path_bad key n); [done|rewrite Ep; cbn; lia|]. rewrite Ep, Ef.
    set (q := (smt f (S (d + n)) (side (d + n) false (x1 :: x2 :: rest)),
               smt f (S (d + n)) (side (d + n) true (x1 :: x2 :: rest)))).
    assert (Hq : q ∈ smt_pairs (S f) (d + n) (x1 :: x2 :: rest)) by (by left).
    destruct leaf as [x|].
    + eapply bad_leaf_inner; [done|exact Hq|exact E].
    + eapply bad_empty_inner; [exact Hq|]. by symmetry.
Qed.

Lemma path_filter key n : forall d kvs,
  filter (fun x => leaf_key x = key) (path d n key kvs) = filter (fun x => leaf_key x = key) kvs.
Proof.
  induction n as [|n IH]; intros d kvs; [done|]. cbn [path]. rewrite IH. unfold side.
  apply list_filter_filter_l. by intros x ->.
Qed.

(** The value of the key, read off the bottom of its path. *)
Lemma value_of_path key d n kvs leaf : path d n key kvs = option_list leaf ->
  value_of kvs key =
  match leaf with
  | Some x => if decide (leaf_key x = key) then Some (leaf_value_hash x) else None
  | None => None
  end.
Proof.
  intros Ep. unfold value_of. rewrite <- (path_filter key n d kvs), Ep.
  destruct leaf as [x|]; [|done]. change (option_list (Some x)) with [x]. rewrite filter_cons.
  by destruct (decide (leaf_key x = key)).
Qed.

Lemma verify_partial_sound leaf sibs key eh r kvs : under r key kvs ->
  verify_by_hash_partial (mkSparseMerkleProof leaf sibs) (smt (256 - r) r kvs) key eh (Z.of_nat r) = Ok tt ->
  value_of kvs key = eh \/ smt_bad (256 - r) r kvs (climb_pairs r key sibs (start_hash leaf)) leaf.
Proof.
  intros Hu Hv. apply verify_partial_iff in Hv as (Hl & Hleaf & Hc).
  apply (climb_sound key leaf) in Hc as [Eh|]; [|by right|lia].
  apply (bottom_cases key leaf (climb_pairs r key sibs (start_hash leaf))) in Eh as [Ep|];
    [|by right|lia..|done]. left. rewrite (value_of_path key r _ kvs leaf Ep).
  unfold verify_leaf in Hleaf. cbn [smp_leaf] in Hleaf.
  destruct eh as [h|], leaf as [x|]; try done.
  - apply bind_Ok in Hleaf as ([] & Hk%ensure_Ok & Hh%ensure_Ok).
    apply bool_decide_eq_true in Hk, Hh. subst. by rewrite decide_True.
  - apply bind_Ok in Hleaf as ([] & Hk%ensure_Ok & _).
    apply negb_true_iff, bool_decide_eq_false in Hk. by rewrite decide_False.
Qed.

(** ** Completeness *)
Lemma smt_prove_spec key : forall fuel d kvs leaf sibs, (d + fuel = 256)%nat -> under d key kvs ->
  smt_prove fuel d key kvs = (leaf, sibs) ->
  (length sibs <= fuel)%nat /\ path d (length sibs) key kvs = option_list leaf /\
  climb d key sibs (start_hash leaf) = smt fuel d kvs.
Proof.
  induction fuel as [|fuel IH]; intros d kvs leaf sibs Hd Hu E.
  - rewrite Nat.add_0_r in Hd. subst d. apply under_256 in Hu.
    destruct kvs as [|x1 [|x2 rest]]; cbn in Hu; [..|lia]; by injection E as <- <-.
  - destruct kvs as [|x1 [|x2 rest]]; [injection E as <- <-..|];
      [split_and!; [cbn; lia|done|done]..|]. set (kvs := x1 :: x2 :: rest) in *.
    change (smt_prove (S fuel) d key kvs) with
      (let '(leaf, sibs) := smt_prove fuel (S d) key (side d (key_bit key d) kvs) in
       (leaf, smt fuel (S d) (side d (negb (key_bit key d)) kvs) :: sibs)) in E.
    destruct (smt_prove fuel (S d) key (side d (key_bit key d) kvs)) as [leaf' sibs'] eqn:Es.
    injection E as <- <-.
    destruct (IH (S d) _ _ _ ltac:(lia) (under_side d key kvs Hu) Es) as (Hl & Hp & Hc).
    split_and!; [cbn [length]; lia|done|]. cbn [climb]. rewrite Hc.
    change (smt (S fuel) d kvs) with
      (hash_node (smt fuel (S d) (side d false kvs)) (smt fuel (S d) (side d true kvs))).
    unfold sparse_pair. by destruct (key_bit key d).
Qed.

Lemma verify_partial_complete key r kvs : (r <= 256)%nat -> under r key kvs ->
  let p := smt_prove (256 - r) r key kvs in
  verify_by_hash_partial (mkSparseMerkleProof (fst p) (snd p)) (smt (256 - r) r kvs) key
    (value_of kvs key) (Z.of_nat r) = Ok tt.
Proof.
  intros Hr Hu p. destruct p as [leaf sibs] eqn:E. cbn [fst snd].
  destruct (smt_prove_spec key (256 - r) r kvs leaf sibs ltac:(lia) Hu E) as (Hl & Hp & Hc).
  apply verify_partial_iff. split_and!; [lia| |done].
  rewrite (value_of_path key r _ kvs leaf Hp). unfold verify_leaf. cbn [smp_leaf smp_siblings].
  destruct leaf as [x|]; [|done].
  destruct (decide (leaf_key x = key)) as [<-|Hne].
  - by rewrite !ensure_true by (by apply bool_decide_eq_true).
  - rewrite (ensure_true (negb _)), obind_Ok
      by (apply negb_true_iff, bool_decide_eq_false; congruence).
    apply ensure_true, Z.leb_le.
    pose proof (under_path key (length sibs) r kvs Hu) as [_ Ha]. rewrite Hp in Ha.
    specialize (Ha x ltac:(left)). rewrite <- Nat2Z.inj_add.
    apply agree_common_prefix; [lia|]. intros i Hi. symmetry. by apply Ha.
Qed.

(** ** The proof of everything to the left of a leaf

    The loop takes its siblings from two lists; put together they are the siblings
    of an inclusion proof. *)
Fixpoint merge_siblings (bits : list bool) (ls rs : list HV) : list HV :=
  match bits, ls, rs with
  | true :: bits, s :: ls, _ => s :: merge_siblings bits ls rs
  | false :: bits, _, s :: rs => s :: merge_siblings bits ls rs
  | _, _, _ => []
  end.

Lemma sparse_range_loop_fold : forall bits h left right h',
  sparse_range_loop bits h left right = Ok h' ->
  length (merge_siblings bits left right) = length bits /\
  fold_left sparse_fold_step (combine (merge_siblings bits left right) bits) h = h'.
Proof.
  induction bits as [|b bits IH]; intros h left right h' Hl; [by injection Hl as <-|].
  destruct b; cbn [sparse_range_loop] in Hl; apply bind_Ok in Hl as (s & Hs & Hl).
  - destruct left as [|s' left]; [done|]. injection Hs as ->. apply IH in Hl as [Hlen Hf]. cbn in *. by rewrite Hlen.
  - destruct right as [|s' right]; [done|]. injection Hs as ->. apply IH in Hl as [Hlen Hf]. cbn in *. by rewrite Hlen.
Qed.

(** The siblings, from the top, of a proof of everything up to [key]. *)
Definition range_siblings key (left right : list HV) : list HV :=
  rev (merge_siblings (rev (take (length left + length right) (iter_bits key))) left right).

Lemma range_verify_climb proof root leaf left :
  SparseMerkleRangeProof_verify proof root leaf left = Ok tt ->
  let sibs := range_siblings (leaf_key leaf) left (srp_right_siblings proof) in
  (length sibs = length left + length (srp_right_siblings proof))%nat /\ (length sibs <= 256)%nat /\
  climb 0 (leaf_key leaf) sibs (SparseMerkleLeafNode_hash leaf) = root.
Proof.
  unfold SparseMerkleRangeProof_verify, LENGTH_IN_BITS. rewrite bind_Ok. intros (n & Hn & Hv).
  apply bind_Ok in Hv as (skip & Hs & Hv). apply bind_Ok in Hv as (h & Hl & Hv).
  apply ensure_Ok, bool_decide_eq_true in Hv. subst h. set (key := leaf_key leaf) in *.
  set (l := (length left + length (srp_right_siblings proof))%nat).
  assert (Hsk : skip = 256 - Z.of_nat l /\ (l <= 256)%nat).
  { unfold add64 in Hn. destruct (_ <? U64); [|done]. injection Hn as <-. unfold sub64 in Hs.
    destruct (Z.leb_spec (Z.of_nat (length left) + Z.of_nat (length (srp_right_siblings proof))) 256);
      [|done]. injection Hs as <-. lia. }
  destruct Hsk as [-> Hl256]. replace (Z.to_nat (256 - Z.of_nat l)) with (256 - l)%nat in Hl by lia.
  assert (Ed : drop (256 - l) (rev (iter_bits key)) = rev (take l (iter_bits key))).
  { rewrite skipn_rev, iter_bits_length. do 2 f_equal. lia. }
  rewrite Ed in Hl. apply sparse_range_loop_fold in Hl as [Hlen Hf]. cbn zeta. unfold range_siblings. fold l.
  rewrite length_rev, length_take, iter_bits_length in Hlen. rewrite length_rev. split_and!; [lia|lia|].
  rewrite <- fold_climb by (rewrite length_rev, iter_bits_length; lia).
  rewrite rev_involutive, length_rev, iter_bits_length, Hlen.
  replace (256 - l `min` 256 - 0)%nat with (256 - l)%nat by lia. by rewrite Ed.
Qed.

Lemma range_verify_inclusion proof root leaf left :
  SparseMerkleRangeProof_verify proof root leaf left = Ok tt ->
  verify_by_hash (mkSparseMerkleProof (Some leaf) (range_siblings (leaf_key leaf) left (srp_right_siblings proof)))
    root (leaf_key leaf) (Some (leaf_value_hash leaf)) = Ok tt.
Proof.
  intros Hv. apply range_verify_climb in Hv as (_ & Hlen & Hc). unfold verify_by_hash.
  change 0 with (Z.of_nat 0). apply verify_partial_iff. split_and!; [lia| |done].
  unfold verify_leaf. cbn [smp_leaf]. by rewrite !ensure_true by (by apply bool_decide_eq_true).
Qed.

(** ** Proofs from the root *)
Lemma under_root key kvs : NoDup (map leaf_key kvs) -> under 0 key kvs.
Proof. intros Hnd. split; [done|]. intros x _ i Hi. lia. Qed.

Lemma verify_root_sound leaf sibs key eh kvs : NoDup (map leaf_key kvs) ->
  verify_by_hash (mkSparseMerkleProof leaf sibs) (smt_root kvs) key eh = Ok tt ->
  value_of kvs key = eh \/ smt_bad 256 0 kvs (climb_pairs 0 key sibs (start_hash leaf)) leaf.
Proof.
  intros Hnd. pose proof (verify_partial_sound leaf sibs key eh 0 kvs (under_root key kvs Hnd)) as Hv.
  change (256 - 0)%nat with 256%nat in Hv. exact Hv.
Qed.

Lemma verify_root_complete key kvs : NoDup (map leaf_key kvs) ->
  verify_by_hash (sparse_proof_of kvs key) (smt_root kvs) key (value_of kvs key) = Ok tt.
Proof.
  intros Hnd. pose proof (verify_partial_complete key 0 kvs ltac:(lia) (under_root key kvs Hnd)) as Hv.
  change (256 - 0)%nat with 256%nat in Hv. exact Hv.
Qed.
End SparseFacts.
