(* ===== verification/SparseClash.v ===== *)
(** * Clashes of hashes

    Two lists of leaves with the same root hash are the same list, unless two different
    things that are hashed on the way have the same hash; and an accepted path determines
    its siblings. *)
From stdpp Require Import base list numbers strings option sets.
From Stdlib Require Import ZArith Lia Bool.
From S2P Require Import Prelude Hash AccumulatorProof SparseMerkleProof SparseSpec SparseFacts.

Section Clash.
Context {HV : Type} `{HashValueOps HV} `{HashValueBits HV} `{CryptoHasher HV} `{LeafHasher HV} `{!HashValueLaws HV}.
Implicit Types (kvs A B : list (SparseMerkleLeafNode HV)) (x y : SparseMerkleLeafNode HV) (key : HV).

(** What a hash in a sparse Merkle tree is the hash of. *)
Inductive hashed :=
| Hashed_Nothing
| Hashed_Leaf (x : SparseMerkleLeafNode HV)
| Hashed_Inner (left_ right_ : HV).
Implicit Types (hs : list hashed).

#[global] Instance hashed_eq_dec : EqDecision hashed.
Proof. assert (EqDecision (SparseMerkleLeafNode HV)) by solve_decision. solve_decision. Defined.

Definition hash_of (h : hashed) : HV :=
  match h with
  | Hashed_Nothing => SPARSE_MERKLE_PLACEHOLDER_HASH
  | Hashed_Leaf x => SparseMerkleLeafNode_hash x
  | Hashed_Inner l r => hash_node l r
  end.

(** Two different things have the same hash. *)
Definition clash hs : Prop := exists a b, a ∈ hs /\ b ∈ hs /\ a <> b /\ hash_of a = hash_of b.

#[global] Instance clash_dec hs : Decision (clash hs).
Proof.
  refine (cast_if (decide (Exists (fun a => Exists (fun b => a <> b /\ hash_of a = hash_of b) hs) hs))).
  - apply Exists_exists in e as (a & Ha & e). apply Exists_exists in e as (b & Hb & He). by exists a, b.
  - intros (a & b & Ha & Hb & He). apply n. apply Exists_exists. exists a. split; [done|]. apply Exists_exists. by exists b.
Defined.

(** What the tree over [kvs] hashes. *)
Definition things (fuel d : nat) kvs : list hashed :=
  Hashed_Nothing :: map Hashed_Leaf kvs ++ map (fun p => Hashed_Inner (fst p) (snd p)) (smt_pairs fuel d kvs).

Definition root_thing (fuel d : nat) kvs : hashed :=
  match kvs with
  | [] => Hashed_Nothing
  | [x] => Hashed_Leaf x
  | _ =>
      match fuel with
      | O => Hashed_Nothing
      | S fuel => Hashed_Inner (smt fuel (S d) (side d false kvs)) (smt fuel (S d) (side d true kvs))
      end
  end.

Lemma clash_mono hs hs' : hs ⊆ hs' -> clash hs -> clash hs'.
Proof. intros Hs (a & b & Ha & Hb & Hc). exists a, b. split_and!; [by apply Hs..|apply Hc|apply Hc]. Qed.

Lemma smt_thing fuel d kvs : smt fuel d kvs = hash_of (root_thing fuel d kvs).
Proof. destruct kvs as [|x [|y kvs]]; by destruct fuel. Qed.

Lemma root_thing_in fuel d kvs : root_thing fuel d kvs ∈ things fuel d kvs.
Proof.
  unfold things. destruct kvs as [|x [|y kvs]]; [left|right; left|]. destruct fuel as [|fuel]; [left|]. right. apply elem_of_app. right.
  cbn [smt_pairs map]. left.
Qed.

Lemma things_leaf fuel d kvs x : x ∈ kvs -> Hashed_Leaf x ∈ things fuel d kvs.
Proof. intros Hx. right. apply elem_of_app. left. by apply (list_elem_of_fmap_2 Hashed_Leaf). Qed.

Lemma things_side fuel d b kvs : (2 <= length kvs)%nat -> things fuel (S d) (side d b kvs) ⊆ things (S fuel) d kvs.
Proof.
  intros Hl h Hh. destruct kvs as [|x [|y kvs]]; [cbn in Hl; lia..|]. set (l := x :: y :: kvs) in *.
  apply elem_of_cons in Hh as [->|Hh]; [left|]. right. apply elem_of_app in Hh as [Hh|Hh]; apply elem_of_app.
  - left. apply list_elem_of_fmap in Hh as (z & -> & Hz). apply (list_elem_of_fmap_2 Hashed_Leaf). by apply side_subset in Hz.
  - right. apply list_elem_of_fmap in Hh as (z & -> & Hz). apply (list_elem_of_fmap_2 (fun p => Hashed_Inner (fst p) (snd p))).
    cbn [smt_pairs l]. right. apply elem_of_app. destruct b; [by right|by left].
Qed.

(** Keys that agree on the first [d] bits. *)
Definition alike (d : nat) kvs : Prop := NoDup (map leaf_key kvs) /\ forall x y, x ∈ kvs -> y ∈ kvs -> agree d (leaf_key x) (leaf_key y).

Lemma alike_side d b kvs : alike d kvs -> alike (S d) (side d b kvs).
Proof.
  intros [Hnd Ha]. split; [eapply sublist_NoDup; [exact Hnd|]; apply fmap_sublist, sublist_filter|].
  intros x y Hx Hy i Hi. apply list_elem_of_filter in Hx as [Ex Hx], Hy as [Ey Hy]. destruct (decide (i = d)) as [->|]; [congruence|]. apply (Ha x y); [done..|lia].
Qed.

Lemma alike_256 kvs : alike 256 kvs -> (length kvs <= 1)%nat.
Proof.
  intros [Hnd Ha]. destruct kvs as [|x kvs]; [cbn; lia|]. apply (under_256 (leaf_key x)). split; [done|]. intros y Hy. apply Ha; [done|left].
Qed.

Lemma sides_perm d kvs : kvs ≡ₚ side d false kvs ++ side d true kvs.
Proof.
  induction kvs as [|x kvs IH]; [done|]. unfold side in *. rewrite !filter_cons. destruct (key_bit (leaf_key x) d).
  - rewrite decide_False, decide_True by done. rewrite IH at 1. apply Permutation_middle.
  - rewrite decide_True, decide_False by done. cbn. by rewrite <- IH.
Qed.

Lemma smt_root_thing fuel d A B : smt fuel d A = smt fuel d B ->
  root_thing fuel d A = root_thing fuel d B \/ clash (things fuel d A ++ things fuel d B).
Proof.
  intros E. rewrite !smt_thing in E. destruct (decide (root_thing fuel d A = root_thing fuel d B)) as [|Hne]; [by left|right].
  exists (root_thing fuel d A), (root_thing fuel d B). split_and!; [apply elem_of_app; left; apply root_thing_in|apply elem_of_app; right; apply root_thing_in|done|done].
Qed.

Lemma smt_inj : forall fuel d A B, (d + fuel = 256)%nat -> alike d A -> alike d B -> smt fuel d A = smt fuel d B ->
  A ≡ₚ B \/ clash (things fuel d A ++ things fuel d B).
Proof.
  induction fuel as [|fuel IH]; intros d A B Hd HA HB E; (destruct (smt_root_thing _ d A B E) as [Er|]; [|by right]).
  - rewrite Nat.add_0_r in Hd. subst d. apply alike_256 in HA, HB. destruct A as [|x [|x' A]], B as [|y [|y' B]]; try (cbn in HA, HB; lia); try done; left; [done|]. by injection Er as ->.
  - destruct A as [|x [|x' A]], B as [|y [|y' B]]; try done; [by left|left; by injection Er as ->|].
    set (A' := x :: x' :: A) in *. set (B' := y :: y' :: B) in *.
    change (Hashed_Inner (smt fuel (S d) (side d false A')) (smt fuel (S d) (side d true A')) =
      Hashed_Inner (smt fuel (S d) (side d false B')) (smt fuel (S d) (side d true B'))) in Er. injection Er as E0 E1.
    assert (Hsub : forall b, things fuel (S d) (side d b A') ++ things fuel (S d) (side d b B') ⊆ things (S fuel) d A' ++ things (S fuel) d B').
    { intros b h Hh. apply elem_of_app in Hh as [Hh|Hh]; apply elem_of_app; [left|right]; (eapply things_side; [cbn; lia|exact Hh]). }
    destruct (IH (S d) (side d false A') (side d false B')) as [P0|Hc]; [lia|by apply alike_side..|done| |right; exact (clash_mono _ _ (Hsub false) Hc)].
    destruct (IH (S d) (side d true A') (side d true B')) as [P1|Hc]; [lia|by apply alike_side..|done| |right; exact (clash_mono _ _ (Hsub true) Hc)].
    left. by rewrite (sides_perm d A'), (sides_perm d B'), P0, P1.
Qed.

(** ** A path and its siblings *)

(** The leaves below the sibling at depth [d + i] of the path of [key]. *)
Definition beside (d : nat) key (i : nat) kvs : list (SparseMerkleLeafNode HV) :=
  side (d + i) (negb (key_bit key (d + i))) (path d i key kvs).

Lemma climb_determines key x : forall sibs fuel d kvs, (length sibs <= fuel)%nat ->
  climb d key sibs (SparseMerkleLeafNode_hash x) = smt fuel d kvs ->
  ((forall i s, sibs !! i = Some s -> s = smt (fuel - S i) (d + S i) (beside d key i kvs)) /\
   SparseMerkleLeafNode_hash x = smt (fuel - length sibs) (d + length sibs) (path d (length sibs) key kvs)) \/
  clash (things fuel d kvs ++ Hashed_Leaf x :: map (fun p => Hashed_Inner (fst p) (snd p)) (climb_pairs d key sibs (SparseMerkleLeafNode_hash x))).
Proof.
  induction sibs as [|s sibs IH]; intros fuel d kvs Hf E.
  - left. split; [by intros i s Hi|]. cbn [length path climb] in *. by rewrite Nat.sub_0_r, Nat.add_0_r.
  - cbn [length] in *. destruct fuel as [|fuel]; [lia|]. set (h := SparseMerkleLeafNode_hash x) in *. set (p := sparse_pair key d (climb (S d) key sibs h) s).
    assert (Ep : climb d key (s :: sibs) h = hash_of (Hashed_Inner (fst p) (snd p))) by done. rewrite Ep, smt_thing in E.
    destruct (decide (Hashed_Inner (fst p) (snd p) = root_thing (S fuel) d kvs)) as [Er|Hne].
    2:{ right. exists (Hashed_Inner (fst p) (snd p)), (root_thing (S fuel) d kvs). split_and!; [|apply elem_of_app; left; apply root_thing_in|done|done].
        apply elem_of_app. right. right. cbn [climb_pairs map]. left. }
    destruct kvs as [|x1 [|x2 rest]]; [done..|]. set (l := x1 :: x2 :: rest) in *.
    change (root_thing (S fuel) d l) with (Hashed_Inner (smt fuel (S d) (side d false l)) (smt fuel (S d) (side d true l))) in Er.
    injection Er as E1 E2.
    assert (Ec : climb (S d) key sibs h = smt fuel (S d) (side d (key_bit key d) l) /\ s = smt fuel (S d) (side d (negb (key_bit key d)) l)).
    { subst p. unfold sparse_pair in E1, E2. destruct (key_bit key d); cbn [fst snd negb] in *; done. }
    destruct Ec as [Ec Es]. destruct (IH fuel (S d) (side d (key_bit key d) l) ltac:(lia) Ec) as [[Hs Hx]|Hc].
    + left. split.
      * intros [|i] s' Hi; cbn in Hi; [injection Hi as <-|].
        -- unfold beside. rewrite Nat.add_0_r, Nat.add_1_r. cbn [path Nat.sub]. by rewrite Nat.sub_0_r.
        -- rewrite (Hs i s' Hi). unfold beside. cbn [path Nat.sub]. by rewrite !Nat.add_succ_comm.
      * cbn [path Nat.sub]. rewrite Hx. by rewrite Nat.add_succ_comm.
    + right. eapply clash_mono; [|exact Hc]. intros a Ha. apply elem_of_app in Ha as [Ha|Ha]; apply elem_of_app.
      * left. eapply things_side; [cbn; lia|exact Ha].
      * right. apply elem_of_cons in Ha as [->|Ha]; [left|]. right. cbn [climb_pairs map]. by right.
Qed.
End Clash.
Arguments hashed : clear implicits.
