(* ===== verification/SparseTheorems.v ===== *)
(** * Sparse Merkle proofs: the properties *)
From stdpp Require Import base list numbers strings option sets.
From Stdlib Require Import ZArith Lia Bool.
From S2P Require Import Prelude Hash AccumulatorProof SparseMerkleProof SparseSpec SparseFacts ToyHash.

Section SparseTheorems.
Context {HV : Type} `{HashValueOps HV} `{HashValueBits HV} `{CryptoHasher HV} `{LeafHasher HV}.
Context `{!HashValueLaws HV}.
Implicit Types (kvs : list (SparseMerkleLeafNode HV)) (key : HV).

(** C17: a proof accepted against the root of the sparse tree of [kvs] gives the
    value the tree has for the key, present or absent, unless the hashes the
    verifier computed clash with those of the tree. *)
Theorem sparse_sound kvs key leaf sibs value : NoDup (map leaf_key kvs) ->
  verify_by_hash (mkSparseMerkleProof leaf sibs) (smt_root kvs) key value = Ok tt ->
  value_of kvs key = value \/
  smt_bad 256 0 kvs (climb_pairs 0 key sibs (start_hash leaf)) leaf.
Proof. apply verify_root_sound. Qed.

(** For every key, present or absent, the proof read off the tree verifies
    with the value the tree has for the key. *)
Theorem sparse_complete kvs key : NoDup (map leaf_key kvs) ->
  verify_by_hash (sparse_proof_of kvs key) (smt_root kvs) key (value_of kvs key) = Ok tt.
Proof. apply verify_root_complete. Qed.

(** A partial proof, with the siblings below a subtree root at depth [r] given
    as leaves or as hashes, verifies against the hash of that subtree. *)
Theorem partial_proof_complete kvs key (r : nat) siblings : (r <= 256)%nat -> under r key kvs ->
  map NodeInProof_hash siblings = snd (smt_prove (256 - r) r key kvs) ->
  SparseMerkleProofExt_verify_by_hash
    (new_partial (fst (smt_prove (256 - r) r key kvs)) siblings (Z.of_nat r))
    (smt (256 - r) r kvs) key (value_of kvs key) = Ok tt.
Proof.
  intros Hr Hu Es. unfold SparseMerkleProofExt_verify_by_hash, proof_from_ext, new_partial.
  cbn [smpe_leaf smpe_siblings]. rewrite Es. by apply verify_partial_complete.
Qed.

(** An accepted proof of everything up to a leaf shows that the leaf is in the
    tree with its value, unless the hashes clash. *)
Theorem sparse_range_sound kvs proof leaf left : NoDup (map leaf_key kvs) ->
  SparseMerkleRangeProof_verify proof (smt_root kvs) leaf left = Ok tt ->
  let sibs := range_siblings (leaf_key leaf) left (srp_right_siblings proof) in
  value_of kvs (leaf_key leaf) = Some (leaf_value_hash leaf) \/
  smt_bad 256 0 kvs
    (climb_pairs 0 (leaf_key leaf) sibs (SparseMerkleLeafNode_hash leaf)) (Some leaf).
Proof. intros Hnd Hv. apply range_verify_inclusion in Hv. by apply verify_root_sound in Hv. Qed.

(** C40: a range proof with more than 256 siblings panics: the number of bits to
    skip underflows before any check. *)
Theorem sparse_range_panics proof root leaf (left : list HV) :
  256 < Z.of_nat (length left) + Z.of_nat (length (srp_right_siblings proof)) < U64 ->
  SparseMerkleRangeProof_verify proof root leaf left = Panic "attempt to subtract with overflow".
Proof.
  intros Hn. unfold SparseMerkleRangeProof_verify, LENGTH_IN_BITS.
  rewrite add64_Ok, obind_Ok by lia. unfold sub64. by rewrite (proj2 (Z.leb_gt _ _)) by lia.
Qed.
End SparseTheorems.

(** *** Instances *)
#[export] Instance toy_leaf_hasher : LeafHasher bytes32 := toy_hasher_with 11.

Definition toy_key (n : Z) : bytes32 := of_num (n * 2 ^ 248).

Definition toy_kvs : list (SparseMerkleLeafNode bytes32) :=
  [mkSparseMerkleLeafNode (toy_key 1) (of_num 5); mkSparseMerkleLeafNode (toy_key 3) (of_num 6);
   mkSparseMerkleLeafNode (toy_key 200) (of_num 7)].

Lemma toy_kvs_NoDup : NoDup (map leaf_key toy_kvs).
Proof. apply (bool_decide_unpack _). vm_compute. done. Qed.

Lemma sparse_sound_witness :
  let p := sparse_proof_of toy_kvs (toy_key 2) in
  value_of toy_kvs (toy_key 2) = None \/
  smt_bad 256 0 toy_kvs
    (climb_pairs 0 (toy_key 2) (smp_siblings p) (start_hash (smp_leaf p))) (smp_leaf p).
Proof. apply (sparse_sound toy_kvs); [apply toy_kvs_NoDup|vm_compute; reflexivity]. Defined.

Lemma sparse_complete_witness :
  verify_by_hash (sparse_proof_of toy_kvs (toy_key 3)) (smt_root toy_kvs) (toy_key 3)
    (value_of toy_kvs (toy_key 3)) = Ok tt.
Proof. apply sparse_complete, toy_kvs_NoDup. Defined.

Lemma partial_proof_complete_witness :
  SparseMerkleProofExt_verify_by_hash
    (new_partial (fst (smt_prove (256 - 0) 0 (toy_key 3) toy_kvs))
       (map NodeInProof_Other (snd (smt_prove (256 - 0) 0 (toy_key 3) toy_kvs))) (Z.of_nat 0))
    (smt (256 - 0) 0 toy_kvs) (toy_key 3) (value_of toy_kvs (toy_key 3)) = Ok tt.
Proof.
  apply partial_proof_complete; [lia|split; [apply toy_kvs_NoDup|intros x _ i Hi; lia]|].
  rewrite map_map. apply map_id.
Defined.

(** The rightmost leaf of the three: its only left siblings are near the root. *)
Lemma sparse_range_sound_witness :
  let leaf := mkSparseMerkleLeafNode (toy_key 200) (of_num 7) in
  let left := smp_siblings (sparse_proof_of toy_kvs (toy_key 200)) in
  let sibs := range_siblings (leaf_key leaf) left [] in
  value_of toy_kvs (leaf_key leaf) = Some (leaf_value_hash leaf) \/
    smt_bad 256 0 toy_kvs
      (climb_pairs 0 (leaf_key leaf) sibs (SparseMerkleLeafNode_hash leaf)) (Some leaf).
Proof.
  apply (sparse_range_sound toy_kvs (mkSparseMerkleRangeProof [])
           (mkSparseMerkleLeafNode (toy_key 200) (of_num 7))
           (smp_siblings (sparse_proof_of toy_kvs (toy_key 200))));
    [apply toy_kvs_NoDup|vm_compute; reflexivity].
Defined.

Lemma sparse_range_panics_witness :
  SparseMerkleRangeProof_verify (mkSparseMerkleRangeProof (toy_leaves 200)) (of_num 0)
    (mkSparseMerkleLeafNode (toy_key 200) (of_num 7)) (toy_leaves 100) =
  Panic "attempt to subtract with overflow".
Proof. apply sparse_range_panics. unfold toy_leaves. cbn [srp_right_siblings].
  rewrite !length_map, !length_seq. unfold U64. lia. Defined.
