(* ===== verification/NibblePath.v ===== *)
(** * Nibbles and nibble paths

    Model of [types/src/nibble/mod.rs] and [types/src/nibble/nibble_path/mod.rs]:
    paths in the Jellyfish Merkle tree, packed two nibbles to a byte, and the
    iterators over their nibbles and bits.  The packed form refines a list of
    nibbles. *)
From stdpp Require Import base list numbers strings option.
From Stdlib Require Import ZArith Lia Bool.
From S2P Require Import Prelude Hash.

(** ** [Nibble] *)
Definition ROOT_NIBBLE_HEIGHT : Z := HASH_LENGTH * 2.

(** [Nibble(u8)] *)
Abbreviation Nibble := Z (only parsing).

Definition nibble_from_u8 (nibble : Z) : outcome Nibble :=
  _ ← assert (nibble <? 16) "Nibble out of range";
  Ok nibble.

(** [usize::expect_nibble]: the cast keeps the low byte and checks nothing. *)
Definition expect_nibble (n : Z) : Nibble := n mod 256.

(** ** [NibblePath] *)
Record NibblePath := mkNibblePath { np_num_nibbles : Z; np_bytes : list Z }.

#[export] Instance NibblePath_eq_dec : EqDecision NibblePath.
Proof. solve_decision. Defined.

Definition blen (bs : list Z) : Z := Z.of_nat (length bs).

Definition new_even (bytes : list Z) : outcome NibblePath :=
  _ ← assert (blen bytes <=? ROOT_NIBBLE_HEIGHT / 2) "bytes.len() <= ROOT_NIBBLE_HEIGHT / 2";
  Ok (mkNibblePath (blen bytes * 2) bytes).

Definition new_odd (bytes : list Z) : outcome NibblePath :=
  _ ← assert (blen bytes <=? ROOT_NIBBLE_HEIGHT / 2) "bytes.len() <= ROOT_NIBBLE_HEIGHT / 2";
  last ← expect (list.last bytes) "Should have odd number of nibbles.";
  _ ← assert (Z.land last 15 =? 0) "Last nibble must be 0.";
  Ok (mkNibblePath (blen bytes * 2 - 1) bytes).

(** [&bytes[..n]]: panics when the slice is too short. *)
Definition slice_to (bytes : list Z) (n : Z) : outcome (list Z) :=
  if n <=? blen bytes then Ok (take (Z.to_nat n) bytes)
  else Panic "range end index out of range for slice".

Definition new_from_byte_array (bytes : list Z) (num_nibbles : Z) : outcome NibblePath :=
  _ ← assert (num_nibbles <=? ROOT_NIBBLE_HEIGHT) "num_nibbles <= ROOT_NIBBLE_HEIGHT";
  if num_nibbles mod 2 =? 1 then
    let num_bytes := (num_nibbles + 1) / 2 in
    _ ← assert (num_bytes <=? blen bytes) "bytes.len() >= num_bytes";
    nibble_bytes ← slice_to bytes num_bytes;
    last_byte ← expect (bytes !! Z.to_nat (num_bytes - 1)) "index out of bounds";
    let last_byte_padded := Z.land last_byte 240 in
    new_odd (<[Z.to_nat (num_bytes - 1) := last_byte_padded]> nibble_bytes)
  else
    _ ← assert (num_nibbles / 2 <=? blen bytes) "bytes.len() >= num_nibbles / 2";
    nibble_bytes ← slice_to bytes (num_nibbles / 2);
    new_even nibble_bytes.

Definition push (self : NibblePath) (nibble : Nibble) : outcome NibblePath :=
  _ ← assert (np_num_nibbles self <? ROOT_NIBBLE_HEIGHT) "ROOT_NIBBLE_HEIGHT > self.num_nibbles";
  bytes ←
    (if np_num_nibbles self mod 2 =? 0 then
       Ok (np_bytes self ++ [Z.land (Z.shiftl nibble 4) 255])
     else
       let i := Z.to_nat (np_num_nibbles self / 2) in
       b ← expect (np_bytes self !! i) "index out of bounds";
       Ok (<[i := Z.lor b nibble]> (np_bytes self)));
  Ok (mkNibblePath (np_num_nibbles self + 1) bytes).

(** The popped nibble and the path that is left. *)
Definition pop (self : NibblePath) : outcome (option Nibble * NibblePath) :=
  r ←
    (if np_num_nibbles self mod 2 =? 0 then
       match vec_pop (np_bytes self) with
       | None => Ok (None, np_bytes self)
       | Some (last_byte, init) =>
           nibble ← nibble_from_u8 (Z.land last_byte 15);
           Ok (Some nibble, init ++ [Z.land last_byte 240])
       end
     else
       match vec_pop (np_bytes self) with
       | None => Ok (None, np_bytes self)
       | Some (byte, init) =>
           nibble ← nibble_from_u8 (Z.shiftr byte 4);
           Ok (Some nibble, init)
       end);
  let '(poped_nibble, bytes) := r in
  match poped_nibble with
  | Some _ =>
      n ← sub64 (np_num_nibbles self) 1;
      Ok (poped_nibble, mkNibblePath n bytes)
  | None => Ok (poped_nibble, mkNibblePath (np_num_nibbles self) bytes)
  end.

Definition NibblePath_last (self : NibblePath) : outcome (option Nibble) :=
  let last_byte_option := list.last (np_bytes self) in
  if np_num_nibbles self mod 2 =? 0 then
    match last_byte_option with
    | None => Ok None
    | Some last_byte => n ← nibble_from_u8 (Z.land last_byte 15); Ok (Some n)
    end
  else
    last_byte ← expect last_byte_option "Last byte must exist if num_nibbles is odd.";
    n ← nibble_from_u8 (Z.shiftr last_byte 4);
    Ok (Some n).

Definition get_bit (self : NibblePath) (i : Z) : outcome bool :=
  _ ← assert (i <? np_num_nibbles self * 4) "i < self.num_nibbles * 4";
  let pos := i / 8 in
  let bit := 7 - i mod 8 in
  b ← expect (np_bytes self !! Z.to_nat pos) "index out of bounds";
  Ok (negb (Z.land (Z.shiftr b bit) 1 =? 0)).

Definition get_nibble (self : NibblePath) (i : Z) : outcome Nibble :=
  _ ← assert (i <? np_num_nibbles self) "i < self.num_nibbles";
  b ← expect (np_bytes self !! Z.to_nat (i / 2)) "index out of bounds";
  nibble_from_u8 (Z.land (Z.shiftr b (if i mod 2 =? 1 then 0 else 4)) 15).

Definition NibblePath_is_empty (self : NibblePath) : bool := np_num_nibbles self =? 0.

Definition truncate (self : NibblePath) (len : Z) : outcome NibblePath :=
  _ ← assert (len <=? np_num_nibbles self) "len <= self.num_nibbles";
  let bytes := take (Z.to_nat ((len + 1) / 2)) (np_bytes self) in
  if negb (len mod 2 =? 0) then
    r ← expect (vec_pop bytes) "must exist.";
    let '(last_byte, init) := r in
    Ok (mkNibblePath len (init ++ [Z.land last_byte 240]))
  else Ok (mkNibblePath len bytes).

Definition get_shard_id (self : NibblePath) : outcome (option Z) :=
  if 0 <? np_num_nibbles self then n ← get_nibble self 0; Ok (Some n) else Ok None.

(** [FromIterator<Nibble>]. *)
Fixpoint push_all (self : NibblePath) (nibbles : list Nibble) : outcome NibblePath :=
  match nibbles with
  | [] => Ok self
  | n :: nibbles => p ← push self n; push_all p nibbles
  end.

Definition from_iter (nibbles : list Nibble) : outcome NibblePath :=
  p ← new_even []; push_all p nibbles.

(** ** Iterators *)

(** [trait Peekable: Iterator]: an iterator is its state, [peek] and [next]. *)
Class Peekable (I T : Type) := {
  peek : I -> outcome (option T);
  next : I -> outcome (option T * I);
}.

Record BitIterator := mkBitIterator { bi_path : NibblePath; bi_start : Z; bi_end : Z }.

Definition BitIterator_peek (it : BitIterator) : outcome (option bool) :=
  if bi_start it <? bi_end it then b ← get_bit (bi_path it) (bi_start it); Ok (Some b) else Ok None.

Definition BitIterator_next (it : BitIterator) : outcome (option bool * BitIterator) :=
  if bi_start it <? bi_end it then
    b ← get_bit (bi_path it) (bi_start it);
    Ok (Some b, mkBitIterator (bi_path it) (bi_start it + 1) (bi_end it))
  else Ok (None, it).

Definition BitIterator_next_back (it : BitIterator) : outcome (option bool * BitIterator) :=
  if bi_start it <? bi_end it then
    b ← get_bit (bi_path it) (bi_end it - 1);
    Ok (Some b, mkBitIterator (bi_path it) (bi_start it) (bi_end it - 1))
  else Ok (None, it).

#[export] Instance BitIterator_peekable : Peekable BitIterator bool :=
  {| peek := BitIterator_peek; next := BitIterator_next |}.

Record NibbleIterator := mkNibbleIterator
  { ni_path : NibblePath; ni_pos_start : Z; ni_pos_end : Z; ni_start : Z }.

Definition NibbleIterator_new (nibble_path : NibblePath) (start end_ : Z) : outcome NibbleIterator :=
  _ ← assert (start <=? end_) "start <= end";
  _ ← assert (start <=? ROOT_NIBBLE_HEIGHT) "start <= ROOT_NIBBLE_HEIGHT";
  _ ← assert (end_ <=? ROOT_NIBBLE_HEIGHT) "end <= ROOT_NIBBLE_HEIGHT";
  Ok (mkNibbleIterator nibble_path start end_ start).

Definition NibbleIterator_next (it : NibbleIterator) : outcome (option Nibble * NibbleIterator) :=
  if ni_pos_start it <? ni_pos_end it then
    n ← get_nibble (ni_path it) (ni_pos_start it);
    Ok (Some n, mkNibbleIterator (ni_path it) (ni_pos_start it + 1) (ni_pos_end it) (ni_start it))
  else Ok (None, it).

Definition NibbleIterator_peek (it : NibbleIterator) : outcome (option Nibble) :=
  if ni_pos_start it <? ni_pos_end it then
    n ← get_nibble (ni_path it) (ni_pos_start it); Ok (Some n)
  else Ok None.

#[export] Instance NibbleIterator_peekable : Peekable NibbleIterator Z :=
  {| peek := NibbleIterator_peek; next := NibbleIterator_next |}.

Definition nibbles (self : NibblePath) : outcome NibbleIterator :=
  NibbleIterator_new self 0 (np_num_nibbles self).

Definition NibblePath_bits (self : NibblePath) : BitIterator :=
  mkBitIterator self 0 (np_num_nibbles self * 4).

Definition visited_nibbles (it : NibbleIterator) : outcome NibbleIterator :=
  NibbleIterator_new (ni_path it) (ni_start it) (ni_pos_start it).

Definition remaining_nibbles (it : NibbleIterator) : outcome NibbleIterator :=
  NibbleIterator_new (ni_path it) (ni_pos_start it) (ni_pos_end it).

Definition NibbleIterator_bits (it : NibbleIterator) : BitIterator :=
  mkBitIterator (ni_path it) (ni_pos_start it * 4) (ni_pos_end it * 4).

(** Drive an iterator to its end; [fuel] bounds the number of items. *)
Fixpoint drain {I T} `{Peekable I T} (fuel : nat) (it : I) : outcome (list T) :=
  r ← next it;
  match r with
  | (None, _) => Ok []
  | (Some x, it) =>
      match fuel with
      | O => Panic "out of fuel"
      | S fuel => rest ← drain fuel it; Ok (x :: rest)
      end
  end.

(** A nibble iterator covers at most [ROOT_NIBBLE_HEIGHT] nibbles. *)
Definition collect_nibbles (it : NibbleIterator) : outcome (list Nibble) := drain 64 it.

Definition get_nibble_path (it : NibbleIterator) : outcome NibblePath :=
  v ← visited_nibbles it;
  r ← remaining_nibbles it;
  vs ← collect_nibbles v;
  rs ← collect_nibbles r;
  from_iter (vs ++ rs).

Definition NibbleIterator_num_nibbles (it : NibbleIterator) : outcome Z :=
  _ ← assert (ni_start it <=? ni_pos_end it) "self.start <= self.pos.end";
  sub64 (ni_pos_end it) (ni_start it).

Definition is_finished (it : NibbleIterator) : outcome bool :=
  p ← NibbleIterator_peek it;
  Ok (match p with None => true | Some _ => false end).

(** [skip_common_prefix]: the count and the two advanced iterators. *)
Fixpoint skip_common_prefix {I1 I2 T} `{EqDecision T} `{Peekable I1 T} `{Peekable I2 T}
    (fuel : nat) (x : I1) (y : I2) (count : Z) : outcome (Z * I1 * I2) :=
  x_peek ← peek x;
  y_peek ← peek y;
  match x_peek, y_peek with
  | Some a, Some b =>
      if bool_decide (a = b) then
        match fuel with
        | O => Panic "out of fuel"
        | S fuel =>
            x' ← next x;
            y' ← next y;
            skip_common_prefix fuel (snd x') (snd y') (count + 1)
        end
      else Ok (count, x, y)
  | _, _ => Ok (count, x, y)
  end.

(** ** Paths as lists of nibbles *)
Definition nibble_ok (n : Z) : Prop := 0 <= n < 16.

Fixpoint pack_bytes (l : list Z) : list Z :=
  match l with
  | [] => []
  | [n] => [16 * n]
  | h :: lo :: l => (16 * h + lo) :: pack_bytes l
  end.

(** The path that holds the nibbles [l]. *)
Definition pack (l : list Z) : NibblePath := mkNibblePath (Z.of_nat (length l)) (pack_bytes l).

(** The two nibbles of each byte. *)
Definition byte_nibbles (b : Z) : list Z := [b / 16; b mod 16].
Definition bytes_nibbles (bs : list Z) : list Z := flat_map byte_nibbles bs.

(** The nibbles of a path. *)
Definition unpack (p : NibblePath) : list Z :=
  take (Z.to_nat (np_num_nibbles p)) (bytes_nibbles (np_bytes p)).

(** The invariant the comments of the struct state. *)
Definition path_ok (p : NibblePath) : Prop :=
  0 <= np_num_nibbles p <= ROOT_NIBBLE_HEIGHT /\ Forall byte_ok (np_bytes p) /\
  blen (np_bytes p) = (np_num_nibbles p + 1) / 2 /\
  (Z.odd (np_num_nibbles p) = true -> exists b, list.last (np_bytes p) = Some b /\ b mod 16 = 0).
