(* ===== verification/NibblePathFacts.v ===== *)
(** * Nibble paths refine lists of nibbles

    Every operation on a packed path is the corresponding list operation. *)
From stdpp Require Import base list numbers strings option list_numbers.
From Stdlib Require Import ZArith Lia Bool.
From S2P Require Import Prelude Hash NibblePath.

Lemma list_two_ind {A} (P : list A -> Prop) :
  P [] -> (forall x, P [x]) -> (forall x y l, P l -> P (x :: y :: l)) -> forall l, P l.
Proof.
  intros H0 H1 H2 l. enough (P l /\ forall x, P (x :: l)) by tauto.
  induction l as [|y l [IH1 IH2]]; split; auto.
Qed.

(** ** The nibbles of a byte *)
Definition byte_check (h lo : Z) : bool :=
  (Z.land (16 * h + lo) 15 =? lo) && (Z.shiftr (16 * h + lo) 4 =? h) &&
  (Z.land (16 * h + lo) 240 =? 16 * h) && (Z.lor (16 * h) lo =? 16 * h + lo) &&
  (Z.land (Z.shiftl h 4) 255 =? 16 * h) && (Z.land (Z.shiftr (16 * h + lo) 4) 15 =? h) &&
  (Z.land (Z.shiftr (16 * h + lo) 0) 15 =? lo).

Lemma byte_facts h lo : nibble_ok h -> nibble_ok lo ->
  Z.land (16 * h + lo) 15 = lo /\ Z.shiftr (16 * h + lo) 4 = h /\
  Z.land (16 * h + lo) 240 = 16 * h /\ Z.lor (16 * h) lo = 16 * h + lo /\
  Z.land (Z.shiftl h 4) 255 = 16 * h /\ Z.land (Z.shiftr (16 * h + lo) 4) 15 = h /\
  Z.land (Z.shiftr (16 * h + lo) 0) 15 = lo.
Proof.
  intros Hh Hl.
  assert (Hall : forallb (fun h => forallb (byte_check h) (seqZ 0 16)) (seqZ 0 16) = true)
    by (vm_compute; reflexivity).
  rewrite forallb_forall in Hall. specialize (Hall h). rewrite <- list_elem_of_In, elem_of_seqZ in Hall.
  specialize (Hall ltac:(unfold nibble_ok in *; lia)). rewrite forallb_forall in Hall.
  specialize (Hall lo). rewrite <- list_elem_of_In, elem_of_seqZ in Hall.
  specialize (Hall ltac:(unfold nibble_ok in *; lia)). unfold byte_check in Hall.
  rewrite !andb_true_iff, !Z.eqb_eq in Hall. tauto.
Qed.

Lemma byte_split b : byte_ok b -> exists h lo, nibble_ok h /\ nibble_ok lo /\ b = 16 * h + lo.
Proof.
  unfold byte_ok, nibble_ok. intros Hb. exists (b / 16), (b mod 16).
  Z.to_euclidean_division_equations; lia.
Qed.

Lemma byte_nibbles_split h lo : nibble_ok lo -> byte_nibbles (16 * h + lo) = [h; lo].
Proof. unfold nibble_ok, byte_nibbles. intros. f_equal; [|f_equal]; Z.to_euclidean_division_equations; lia. Qed.

(** ** Packing *)
Lemma pack_bytes_app l m : Nat.even (length l) = true ->
  pack_bytes (l ++ m) = pack_bytes l ++ pack_bytes m.
Proof.
  induction l as [|x|x y l IH] using list_two_ind; intros He; [done..|].
  cbn [app pack_bytes]. by rewrite IH.
Qed.

Lemma pack_bytes_length l : Z.of_nat (length (pack_bytes l)) = (Z.of_nat (length l) + 1) / 2.
Proof.
  induction l as [|x|x y l IH] using list_two_ind; [done..|].
  cbn [pack_bytes length]. rewrite !Nat2Z.inj_succ, IH. Z.to_euclidean_division_equations; lia.
Qed.

Lemma pack_bytes_even_length l : Nat.even (length l) = true ->
  (2 * length (pack_bytes l) = length l)%nat.
Proof.
  induction l as [|x|x y l IH] using list_two_ind; intros He; [done..|].
  cbn [pack_bytes length]. specialize (IH He). lia.
Qed.

Lemma pack_bytes_ok l : Forall nibble_ok l -> Forall byte_ok (pack_bytes l).
Proof.
  induction l as [|x|x y l IH] using list_two_ind; intros Hf; [constructor|..].
  - apply Forall_cons in Hf as [Hx _]. repeat constructor; unfold nibble_ok in *; lia.
  - apply Forall_cons in Hf as [Hx Hf], Hf as [Hy Hf]. cbn [pack_bytes].
    constructor; [unfold nibble_ok, byte_ok in *; lia|by apply IH].
Qed.

(** Every list of nibbles is an even one, or an even one and a nibble more. *)
Lemma parity_cases (l : list Z) :
  (Nat.even (length l) = true /\ Z.of_nat (length l) mod 2 = 0 /\
   (l = [] \/ exists l0 a b, l = l0 ++ [a; b] /\ Nat.even (length l0) = true)) \/
  (exists l0 n, l = l0 ++ [n] /\ Nat.even (length l0) = true /\ Z.of_nat (length l) mod 2 = 1).
Proof.
  induction l as [|x|x y l IH] using list_two_ind; [left; by auto|right; by exists [], x|].
  destruct IH as [(He & Hm & Hc)|(l0 & n & -> & He & Hm)]; [left|right].
  - split; [done|]. split; [cbn [length]; Z.to_euclidean_division_equations; lia|]. right.
    destruct Hc as [->|(l0 & a & b & -> & He0)]; [by exists [], x, y|].
    by exists (x :: y :: l0), a, b.
  - exists (x :: y :: l0), n. split_and!; [done..|].
    cbn [length app] in *. Z.to_euclidean_division_equations; lia.
Qed.

Lemma unpack_bytes l : Forall nibble_ok l ->
  bytes_nibbles (pack_bytes l) = l ++ (if Nat.even (length l) then [] else [0]).
Proof.
  induction l as [|x|x y l IH] using list_two_ind; intros Hf; [done|..].
  - cbn. unfold byte_nibbles. f_equal; [|f_equal]; Z.to_euclidean_division_equations; lia.
  - apply Forall_cons in Hf as [Hx Hf], Hf as [Hy Hf]. cbn [pack_bytes bytes_nibbles flat_map].
    rewrite byte_nibbles_split by done. cbn [app length Nat.even]. do 2 f_equal. by apply IH.
Qed.

Lemma unpack_pack l : Forall nibble_ok l -> unpack (pack l) = l.
Proof.
  intros Hf. unfold unpack, pack. cbn [np_num_nibbles np_bytes].
  rewrite unpack_bytes, Nat2Z.id by done. by rewrite take_app_length.
Qed.

Lemma pack_path_ok l : Forall nibble_ok l -> (length l <= 64)%nat -> path_ok (pack l).
Proof.
  intros Hf Hl. unfold path_ok, pack, ROOT_NIBBLE_HEIGHT, HASH_LENGTH. cbn [np_num_nibbles np_bytes].
  split_and!; [lia|lia|by apply pack_bytes_ok|apply pack_bytes_length|].
  intros Ho. destruct (parity_cases l) as [(He & Hm & _)|(l0 & n & -> & He & Hm)].
  - rewrite Zmod_odd, Ho in Hm. done.
  - exists (16 * n). rewrite pack_bytes_app by done. cbn [pack_bytes]. rewrite last_snoc.
    split; [done|]. rewrite Z.mul_comm. apply Z.mod_mul. lia.
Qed.

Lemma bytes_nibbles_length bs : length (bytes_nibbles bs) = (2 * length bs)%nat.
Proof.
  induction bs as [|b bs IH]; [done|]. unfold bytes_nibbles in *.
  cbn [flat_map byte_nibbles app length]. lia.
Qed.

Lemma bytes_nibbles_ok bs : Forall byte_ok bs -> Forall nibble_ok (bytes_nibbles bs).
Proof.
  induction 1 as [|b bs Hb _ IH]; [constructor|]. cbn. unfold byte_ok, nibble_ok in *.
  repeat constructor; try done; Z.to_euclidean_division_equations; lia.
Qed.

Lemma pack_bytes_nibbles bs : Forall byte_ok bs -> pack_bytes (bytes_nibbles bs) = bs.
Proof.
  induction 1 as [|b bs Hb _ IH]; [done|]. cbn. f_equal; [|done].
  Z.to_euclidean_division_equations; lia.
Qed.

(** The nibbles of the bytes without the last half. *)
Lemma pack_bytes_odd bs b : Forall byte_ok (bs ++ [b]) ->
  pack_bytes (take (2 * length (bs ++ [b]) - 1) (bytes_nibbles (bs ++ [b]))) =
  bs ++ [Z.land b 240].
Proof.
  intros Hf. apply Forall_app in Hf as [Hbs Hb]. rewrite Forall_singleton in Hb.
  destruct (byte_split b Hb) as (h & lo & Hh & Hlo & ->).
  destruct (byte_facts h lo Hh Hlo) as (_ & _ & -> & _).
  unfold bytes_nibbles. rewrite flat_map_app, length_app. cbn [flat_map length].
  fold (bytes_nibbles bs). rewrite app_nil_r, byte_nibbles_split by done.
  replace (2 * (length bs + 1) - 1)%nat with (length (bytes_nibbles bs) + 1)%nat
    by (rewrite bytes_nibbles_length; lia).
  rewrite take_app_add. cbn [take]. rewrite pack_bytes_app, pack_bytes_nibbles; [done|done|].
  rewrite bytes_nibbles_length. apply Nat.even_mul.
Qed.

Lemma pack_unpack p : path_ok p -> pack (unpack p) = p.
Proof.
  destruct p as [n bs]. unfold path_ok, unpack, pack, blen. cbn [np_num_nibbles np_bytes].
  intros (Hn & Hb & Hl & Ho).
  assert (Hlen : length (take (Z.to_nat n) (bytes_nibbles bs)) = Z.to_nat n).
  { rewrite length_take, bytes_nibbles_length. Z.to_euclidean_division_equations; lia. }
  rewrite Hlen, Z2Nat.id by lia. f_equal. destruct (Z.odd n) eqn:En.
  - destruct (Ho eq_refl) as (b & Hlast & Hb0). apply last_Some in Hlast as [bs0 ->].
    replace (Z.to_nat n) with (2 * length (bs0 ++ [b]) - 1)%nat.
    + rewrite pack_bytes_odd by done. do 2 f_equal. apply Forall_app in Hb as [_ Hb].
      rewrite Forall_singleton in Hb. destruct (byte_split b Hb) as (h & lo & Hh & Hlo & ->).
      destruct (byte_facts h lo Hh Hlo) as (_ & _ & -> & _).
      unfold nibble_ok in *. Z.to_euclidean_division_equations; lia.
    + pose proof (Zmod_odd n) as Em. rewrite En in Em. Z.to_euclidean_division_equations; lia.
  - rewrite take_ge; [by apply pack_bytes_nibbles|]. rewrite bytes_nibbles_length.
    pose proof (Zmod_odd n) as Em. rewrite En in Em. Z.to_euclidean_division_equations; lia.
Qed.

(** ** Operations *)
Lemma np_num_pack l : np_num_nibbles (pack l) = Z.of_nat (length l).
Proof. reflexivity. Qed.

Lemma np_bytes_pack l : np_bytes (pack l) = pack_bytes l.
Proof. reflexivity. Qed.

Lemma root_nibble_height : ROOT_NIBBLE_HEIGHT = 64.
Proof. reflexivity. Qed.

Lemma nibble_from_u8_Ok n : nibble_ok n -> nibble_from_u8 n = Ok n.
Proof. unfold nibble_ok. intros. unfold nibble_from_u8. by rewrite assert_true by lia. Qed.

Lemma push_pack l n : Forall nibble_ok l -> nibble_ok n -> (length l < 64)%nat ->
  push (pack l) n = Ok (pack (l ++ [n])).
Proof.
  intros Hf Hn Hl. unfold push. rewrite root_nibble_height, np_num_pack, np_bytes_pack. rewrite assert_true, obind_Ok by lia.
  assert (Elen : Z.of_nat (length l) + 1 = Z.of_nat (length (l ++ [n])))
    by (rewrite length_app; cbn [length]; lia).
  destruct (parity_cases l) as [(He & -> & _)|(l0 & a & -> & He & Hm)].
  - cbn [Z.eqb]. rewrite obind_Ok, Elen. unfold pack. rewrite pack_bytes_app by done.
    by destruct (byte_facts n 0 Hn ltac:(done)) as (_ & _ & _ & _ & -> & _).
  - rewrite Hm. cbn [Z.eqb]. apply Forall_app in Hf as [Hf0 Ha]. rewrite Forall_singleton in Ha.
    assert (Ei : Z.to_nat (Z.of_nat (length (l0 ++ [a])) / 2) = length (pack_bytes l0)).
    { pose proof (pack_bytes_even_length l0 He). rewrite length_app. cbn [length].
      Z.to_euclidean_division_equations; lia. }
    rewrite Ei, (pack_bytes_app l0 [a]) by done. cbn [pack_bytes].
    rewrite list_lookup_middle by done. cbn [expect]. rewrite !obind_Ok.
    rewrite insert_app_r_alt, Nat.sub_diag by lia. cbn [insert list_insert].
    destruct (byte_facts a n Ha Hn) as (_ & _ & _ & -> & _).
    rewrite Elen. unfold pack. rewrite <- app_assoc, pack_bytes_app by done. done.
Qed.

Lemma push_all_pack m : forall l, Forall nibble_ok (l ++ m) -> (length (l ++ m) <= 64)%nat ->
  push_all (pack l) m = Ok (pack (l ++ m)).
Proof.
  induction m as [|n m IH]; intros l Hf Hl; [by rewrite app_nil_r|]. cbn [push_all].
  pose proof Hf as Hf'. apply Forall_app in Hf' as [Hl0 Hn]. apply Forall_cons in Hn as [Hn _].
  rewrite length_app in Hl. cbn [length] in Hl.
  rewrite push_pack, obind_Ok by (done || lia).
  replace (l ++ n :: m) with ((l ++ [n]) ++ m) in * by (by rewrite <- app_assoc).
  apply IH; [done|]. rewrite !length_app. cbn [length]. lia.
Qed.

Lemma from_iter_pack l : Forall nibble_ok l -> (length l <= 64)%nat -> from_iter l = Ok (pack l).
Proof. intros Hf Hl. unfold from_iter. by apply (push_all_pack l []). Qed.

Lemma pop_pack_snoc l n : Forall nibble_ok (l ++ [n]) -> pop (pack (l ++ [n])) = Ok (Some n, pack l).
Proof.
  intros Hf. pose proof Hf as Hf0. apply Forall_app in Hf0 as [Hl Hn]. rewrite Forall_singleton in Hn.
  unfold pop. rewrite np_num_pack, np_bytes_pack.
  assert (Hsub : sub64 (Z.of_nat (length (l ++ [n]))) 1 = Ok (Z.of_nat (length l))).
  { rewrite length_app. cbn [length]. rewrite sub64_Ok by lia. f_equal. lia. }
  destruct (parity_cases (l ++ [n])) as [(He & Hm & Hc)|(l0 & a & E & He & Hm)]; rewrite Hm; cbn [Z.eqb].
  - destruct Hc as [Hnil|(l0 & a & b & E & He0)]; [by destruct l|].
    replace (l0 ++ [a; b]) with ((l0 ++ [a]) ++ [b]) in E by (by rewrite <- app_assoc).
    apply app_inj_2 in E as [-> [= ->]]; [|done]. apply Forall_app in Hl as [Hl0 Ha].
    rewrite Forall_singleton in Ha.
    replace (pack_bytes ((l0 ++ [a]) ++ [b])) with (pack_bytes l0 ++ [16 * a + b])
      by (rewrite <- app_assoc; by rewrite pack_bytes_app by done).
    rewrite vec_pop_snoc. destruct (byte_facts a b Ha Hn) as (-> & _ & -> & _).
    rewrite nibble_from_u8_Ok, !obind_Ok, Hsub, obind_Ok by done. unfold pack.
    by rewrite (pack_bytes_app l0 [a]) by done.
  - apply app_inj_2 in E as [-> [= ->]]; [|done].
    rewrite (pack_bytes_app l0 [a]) by done. cbn [pack_bytes]. rewrite vec_pop_snoc.
    destruct (byte_facts a 0 Hn ltac:(done)) as (_ & Hs & _). rewrite Z.add_0_r in Hs. rewrite Hs.
    by rewrite nibble_from_u8_Ok, !obind_Ok, Hsub, obind_Ok by done.
Qed.

Lemma pop_pack_nil : pop (pack []) = Ok (None, pack []).
Proof. reflexivity. Qed.

(** The byte that holds nibble [i]. *)
Lemma pack_bytes_lookup l : Forall nibble_ok l -> forall i n, l !! i = Some n ->
  exists h lo, pack_bytes l !! (i / 2)%nat = Some (16 * h + lo) /\ nibble_ok h /\ nibble_ok lo /\
    n = (if (i mod 2 =? 1)%nat then lo else h).
Proof.
  induction l as [|x|x y l IH] using list_two_ind; intros Hf i n Hi; [done|..].
  - apply Forall_cons in Hf as [Hx _]. destruct i as [|[|i]]; [|done..]. injection Hi as <-.
    exists x, 0. rewrite Z.add_0_r. done.
  - apply Forall_cons in Hf as [Hx Hf], Hf as [Hy Hf]. destruct i as [|[|i]].
    + injection Hi as <-. by exists x, y.
    + injection Hi as <-. by exists x, y.
    + cbn in Hi. destruct (IH Hf i n Hi) as (h & lo & Hb & Hh & Hlo & E). exists h, lo.
      replace (S (S i) / 2)%nat with (S (i / 2))
        by (replace (S (S i)) with (1 * 2 + i)%nat by lia; by rewrite Nat.div_add_l by lia).
      split; [done|]. split_and!; [done..|].
      by replace (S (S i) mod 2)%nat with (i mod 2)%nat
        by (replace (S (S i)) with (i + 1 * 2)%nat by lia; by rewrite Nat.Div0.mod_add).
Qed.

Lemma get_nibble_pack l i n : Forall nibble_ok l -> l !! i = Some n ->
  get_nibble (pack l) (Z.of_nat i) = Ok n.
Proof.
  intros Hf Hi. pose proof (lookup_lt_Some _ _ _ Hi). unfold get_nibble, pack.
  cbn [np_num_nibbles np_bytes]. rewrite assert_true, obind_Ok by lia.
  destruct (pack_bytes_lookup l Hf i n Hi) as (h & lo & Hb & Hh & Hlo & E).
  replace (Z.to_nat (Z.of_nat i / 2)) with (i / 2)%nat
    by (change 2 with (Z.of_nat 2); rewrite <- Nat2Z.inj_div; by rewrite Nat2Z.id).
  rewrite Hb. cbn [expect]. rewrite obind_Ok.
  assert (Em : (Z.of_nat i mod 2 =? 1) = (i mod 2 =? 1)%nat).
  { change 2 with (Z.of_nat 2). rewrite <- Nat2Z.inj_mod. apply eq_true_iff_eq.
    rewrite Z.eqb_eq, Nat.eqb_eq. lia. }
  rewrite Em. destruct (byte_facts h lo Hh Hlo) as (_ & _ & _ & _ & _ & E1 & E2).
  destruct (i mod 2 =? 1)%nat; rewrite ?E1, ?E2; subst n; by apply nibble_from_u8_Ok.
Qed.

Lemma get_nibble_panics l i : (length l <= i)%nat ->
  get_nibble (pack l) (Z.of_nat i) = Panic "i < self.num_nibbles".
Proof.
  intros Hi. unfold get_nibble, pack, assert. cbn [np_num_nibbles].
  by rewrite (proj2 (Z.ltb_ge _ _)) by lia.
Qed.

Lemma last_pack l : Forall nibble_ok l -> NibblePath_last (pack l) = Ok (list.last l).
Proof.
  intros Hf. unfold NibblePath_last, pack. cbn [np_num_nibbles np_bytes].
  destruct (parity_cases l) as [(He & -> & Hc)|(l0 & a & -> & He & ->)]; cbn [Z.eqb].
  - destruct Hc as [->|(l0 & a & b & -> & He0)]; [done|].
    rewrite pack_bytes_app by done. cbn [pack_bytes]. rewrite last_snoc.
    apply Forall_app in Hf as [_ Hf]. apply Forall_cons in Hf as [Ha Hb].
    rewrite Forall_singleton in Hb. destruct (byte_facts a b Ha Hb) as (-> & _).
    rewrite nibble_from_u8_Ok, obind_Ok by done.
    replace (l0 ++ [a; b]) with ((l0 ++ [a]) ++ [b]) by (by rewrite <- app_assoc). by rewrite last_snoc.
  - rewrite pack_bytes_app by done. cbn [pack_bytes]. rewrite !last_snoc. cbn [expect]. rewrite obind_Ok.
    apply Forall_app in Hf as [_ Ha]. rewrite Forall_singleton in Ha.
    destruct (byte_facts a 0 Ha ltac:(done)) as (_ & Hs & _). rewrite Z.add_0_r in Hs.
    by rewrite Hs, nibble_from_u8_Ok, obind_Ok by done.
Qed.

Lemma pack_bytes_take l : forall n, Nat.even n = true -> pack_bytes (take n l) = take (n / 2) (pack_bytes l).
Proof.
  induction l as [|x|x y l IH] using list_two_ind; intros n Hn.
  - rewrite take_nil. symmetry. apply take_nil.
  - destruct n as [|[|n]]; [done..|].
    replace (S (S n) / 2)%nat with (S (n / 2))
      by (replace (S (S n)) with (1 * 2 + n)%nat by lia; by rewrite Nat.div_add_l by lia).
    by rewrite !take_ge by (cbn; lia).
  - destruct n as [|[|n]]; [done..|]. cbn [take pack_bytes].
    replace (S (S n) / 2)%nat with (S (n / 2))
      by (replace (S (S n)) with (1 * 2 + n)%nat by lia; by rewrite Nat.div_add_l by lia).
    cbn [take]. by rewrite IH.
Qed.

Lemma truncate_pack l n : Forall nibble_ok l -> (n <= length l)%nat ->
  truncate (pack l) (Z.of_nat n) = Ok (pack (take n l)).
Proof.
  intros Hf Hn. unfold truncate. rewrite np_num_pack, np_bytes_pack.
  rewrite assert_true, obind_Ok by lia.
  assert (Elen : Z.of_nat (length (take n l)) = Z.of_nat n) by (rewrite length_take; lia).
  destruct (Nat.even n) eqn:En.
  - apply Nat.even_spec in En as [k ->].
    replace (Z.of_nat (2 * k) mod 2) with 0 by (Z.to_euclidean_division_equations; lia). cbn [Z.eqb negb].
    replace (Z.to_nat ((Z.of_nat (2 * k) + 1) / 2)) with (2 * k / 2)%nat
      by (rewrite (Nat.mul_comm 2), Nat.div_mul by lia; Z.to_euclidean_division_equations; lia).
    rewrite <- pack_bytes_take by (rewrite Nat.even_mul; done). unfold pack. by rewrite Elen.
  - destruct n as [|m]; [done|]. rewrite Nat.even_succ, <- Nat.negb_even, negb_false_iff in En.
    apply Nat.even_spec in En as [k ->].
    replace (Z.of_nat (S (2 * k)) mod 2) with 1 by (Z.to_euclidean_division_equations; lia). cbn [Z.eqb negb].
    replace (Z.to_nat ((Z.of_nat (S (2 * k)) + 1) / 2)) with (S k)
      by (Z.to_euclidean_division_equations; lia).
    destruct (lookup_lt_is_Some_2 l (2 * k)) as [x Hx]; [lia|].
    destruct (pack_bytes_lookup l Hf (2 * k) x Hx) as (h & lo & Hb & Hh & Hlo & E).
    replace (2 * k / 2)%nat with k in Hb by (rewrite Nat.mul_comm, Nat.div_mul; lia).
    replace (2 * k mod 2)%nat with 0%nat in E by (rewrite Nat.mul_comm, Nat.Div0.mod_mul; lia).
    cbn [Nat.eqb] in E. subst x.
    rewrite (take_S_r _ _ _ Hb), vec_pop_snoc. cbn [expect]. rewrite obind_Ok.
    destruct (byte_facts h lo Hh Hlo) as (_ & _ & -> & _).
    unfold pack. rewrite Elen, (take_S_r _ _ _ Hx). rewrite pack_bytes_app.
    + rewrite pack_bytes_take by (rewrite Nat.even_mul; done).
      replace (2 * k / 2)%nat with k by (rewrite Nat.mul_comm, Nat.div_mul; lia). done.
    + rewrite length_take_le by lia. by rewrite Nat.even_mul.
Qed.

Lemma new_from_byte_array_pack bs n : Forall byte_ok bs -> (n <= 64)%nat -> (n <= 2 * length bs)%nat ->
  new_from_byte_array bs (Z.of_nat n) = Ok (pack (take n (bytes_nibbles bs))).
Proof.
  intros Hf Hn Hl. unfold new_from_byte_array. rewrite root_nibble_height.
  rewrite (assert_true (_ <=? 64)), obind_Ok by lia. unfold blen, slice_to.
  assert (Elen : Z.of_nat (length (take n (bytes_nibbles bs))) = Z.of_nat n)
    by (rewrite length_take, bytes_nibbles_length; lia).
  pose proof (pack_bytes_nibbles bs Hf) as Ep.
  destruct (Nat.even n) eqn:En.
  - apply Nat.even_spec in En as [k ->].
    replace (Z.of_nat (2 * k) mod 2) with 0 by (Z.to_euclidean_division_equations; lia). cbn [Z.eqb].
    replace (Z.of_nat (2 * k) / 2) with (Z.of_nat k) by (Z.to_euclidean_division_equations; lia).
    rewrite assert_true, obind_Ok by lia. unfold blen.
    rewrite (proj2 (Z.leb_le _ _)), obind_Ok, Nat2Z.id by lia.
    unfold new_even. rewrite root_nibble_height. change (64 / 2) with 32.
    assert (El : blen (take k bs) = Z.of_nat k) by (unfold blen; rewrite length_take; lia).
    rewrite El, assert_true, obind_Ok by lia. f_equal. unfold pack. rewrite Elen. f_equal; [lia|].
    rewrite pack_bytes_take, Ep by (rewrite Nat.even_mul; done).
    by replace (2 * k / 2)%nat with k by (rewrite Nat.mul_comm, Nat.div_mul; lia).
  - destruct n as [|m]; [done|]. rewrite Nat.even_succ, <- Nat.negb_even, negb_false_iff in En.
    apply Nat.even_spec in En as [k ->].
    replace (Z.of_nat (S (2 * k)) mod 2) with 1 by (Z.to_euclidean_division_equations; lia). rewrite Z.eqb_refl; cbn iota.
    replace ((Z.of_nat (S (2 * k)) + 1) / 2) with (Z.of_nat (S k)) by (Z.to_euclidean_division_equations; lia).
    rewrite assert_true, obind_Ok by (apply Z.leb_le; lia). unfold blen.
    rewrite (proj2 (Z.leb_le _ _)), obind_Ok by lia.
    replace (Z.to_nat (Z.of_nat (S k) - 1)) with k by lia. rewrite Nat2Z.id.
    destruct (lookup_lt_is_Some_2 bs k) as [b Hb]; [lia|]. rewrite Hb. cbn [expect]. rewrite obind_Ok.
    rewrite (take_S_r _ _ _ Hb).
    assert (Lk : length (take k bs) = k) by (rewrite length_take; lia).
    rewrite insert_app_r_alt by lia. rewrite Lk, Nat.sub_diag. cbn [insert list_insert].
    pose proof Hb as Hbyte. eapply Forall_lookup_1 in Hbyte; [|exact Hf].
    destruct (byte_split b Hbyte) as (h & lo & Hh & Hlo & ->).
    destruct (byte_facts h lo Hh Hlo) as (_ & _ & -> & _).
    unfold new_odd. rewrite root_nibble_height. change (64 / 2) with 32.
    unfold blen. rewrite length_app, Lk. cbn [length].
    rewrite assert_true, obind_Ok by (apply Z.leb_le; lia). rewrite last_snoc. cbn [expect]. rewrite obind_Ok.
    destruct (byte_facts h 0 Hh ltac:(done)) as (E0 & _). rewrite Z.add_0_r in E0.
    rewrite E0. cbn [Z.eqb assert]. rewrite obind_Ok. f_equal. unfold pack. rewrite Elen.
    f_equal; [lia|].
    assert (Hx : bytes_nibbles bs !! (2 * k)%nat = Some h).
    { clear -Hb Hlo. revert k Hb. induction bs as [|c bs IH]; intros k Hb; [done|].
      destruct k as [|k]; cbn in Hb.
      - injection Hb as ->. unfold bytes_nibbles. cbn [flat_map].
        by rewrite byte_nibbles_split by done.
      - replace (2 * S k)%nat with (S (S (2 * k))) by lia. cbn. by apply IH. }
    rewrite (take_S_r _ _ _ Hx), pack_bytes_app.
    + rewrite pack_bytes_take, Ep by (rewrite Nat.even_mul; done).
      replace (2 * k / 2)%nat with k by (rewrite Nat.mul_comm, Nat.div_mul; lia). done.
    + rewrite length_take_le by (rewrite bytes_nibbles_length; lia). by rewrite Nat.even_mul.
Qed.

(** ** Bits *)

(** The bits of a nibble, most significant first. *)
Definition nibble_bits (n : Z) : list bool := map (fun r => Z.testbit n (3 - Z.of_nat r)) (seq 0 4).
Definition nibbles_bits (l : list Z) : list bool := flat_map nibble_bits l.

Lemma nibbles_bits_length l : length (nibbles_bits l) = (4 * length l)%nat.
Proof. induction l as [|n l IH]; [done|]. unfold nibbles_bits in *. cbn [flat_map length app nibble_bits map seq]. lia. Qed.

Lemma nibbles_bits_lookup l : forall j r n, (r < 4)%nat -> l !! j = Some n ->
  nibbles_bits l !! (4 * j + r)%nat = Some (Z.testbit n (3 - Z.of_nat r)).
Proof.
  induction l as [|m l IH]; intros j r n Hr Hj; [done|].
  change (nibbles_bits (m :: l)) with (nibble_bits m ++ nibbles_bits l).
  destruct j as [|j]; cbn in Hj.
  - injection Hj as ->. rewrite Nat.mul_0_r, Nat.add_0_l.
    destruct r as [|[|[|[|r]]]]; [done..|lia].
  - rewrite lookup_app_r by (cbn; lia). replace (4 * S j + r - length (nibble_bits m))%nat
      with (4 * j + r)%nat by (cbn; lia). by apply IH.
Qed.

Lemma get_bit_pack l i : Forall nibble_ok l -> (i < 4 * length l)%nat ->
  exists b, nibbles_bits l !! i = Some b /\ get_bit (pack l) (Z.of_nat i) = Ok b.
Proof.
  intros Hf Hi. set (j := (i / 4)%nat). set (r := (i mod 4)%nat).
  assert (Ei : i = (4 * j + r)%nat) by (apply Nat.div_mod; lia).
  assert (Hr : (r < 4)%nat) by (apply Nat.mod_upper_bound; lia).
  clearbody j r. subst i. destruct (lookup_lt_is_Some_2 l j) as [n Hn]; [lia|].
  exists (Z.testbit n (3 - Z.of_nat r)). split; [by apply nibbles_bits_lookup|].
  destruct (pack_bytes_lookup l Hf j n Hn) as (h & lo & Hb & Hh & Hlo & E).
  unfold get_bit. rewrite np_num_pack, np_bytes_pack. rewrite assert_true, obind_Ok by (apply Z.ltb_lt; lia).
  assert (Epos : Z.to_nat (Z.of_nat (4 * j + r) / 8) = (j / 2)%nat).
  { pose proof (Nat.div_mod j 2 ltac:(lia)). pose proof (Nat.mod_upper_bound j 2 ltac:(lia)).
    Z.to_euclidean_division_equations; lia. }
  rewrite Epos, Hb. cbn [expect]. rewrite obind_Ok, land_1_odd, negb_involutive. f_equal.
  assert (Em : ((j mod 2)%nat = 1%nat /\ Z.of_nat (4 * j + r) mod 8 = 4 + Z.of_nat r) \/
               ((j mod 2)%nat = 0%nat /\ Z.of_nat (4 * j + r) mod 8 = Z.of_nat r)).
  { pose proof (Nat.div_mod j 2 ltac:(lia)). pose proof (Nat.mod_upper_bound j 2 ltac:(lia)).
    Z.to_euclidean_division_equations; lia. }
  rewrite <- Z.testbit_odd. rewrite (Z.mul_comm 16 h). change 16 with (pow2 4).
  assert (Hlo' : 0 <= lo < pow2 4) by (unfold nibble_ok in Hlo; change (pow2 4) with 16; lia).
  destruct Em as [[Ej Em]|[Ej Em]]; rewrite Em; rewrite Ej in E; cbn [Nat.eqb] in E; subst n.
  - rewrite testbit_block, bool_decide_true by (done || lia). f_equal. lia.
  - rewrite testbit_block, bool_decide_false by (done || lia). f_equal. lia.
Qed.

(** ** Iterators *)
Lemma drain_range {I T} `{Peekable I T} (it : nat -> I) (l : list T) e :
  (e <= length l)%nat ->
  (forall s x, (s < e)%nat -> l !! s = Some x -> next (it s) = Ok (Some x, it (S s))) ->
  (exists it', next (it e) = Ok (None, it')) ->
  forall k s fuel, (s + k = e)%nat -> (k <= fuel)%nat -> drain fuel (it s) = Ok (take k (drop s l)).
Proof.
  intros He Hnext Hend. induction k as [|k IH]; intros s fuel Hs Hf.
  - rewrite Nat.add_0_r in Hs. subst s. destruct Hend as [it' Hend].
    destruct fuel; cbn [drain]; rewrite Hend, obind_Ok; done.
  - destruct fuel as [|fuel]; [lia|]. destruct (lookup_lt_is_Some_2 l s) as [x Hx]; [lia|].
    cbn [drain]. rewrite (Hnext s x) by (done || lia). rewrite obind_Ok.
    rewrite (IH (S s)) by lia. rewrite obind_Ok. by rewrite (drop_S _ _ _ Hx).
Qed.

(** The nibble iterator over [l] between [s] and [e]. *)
Definition nib_it (l : list Z) (start e s : nat) : NibbleIterator :=
  mkNibbleIterator (pack l) (Z.of_nat s) (Z.of_nat e) (Z.of_nat start).

Lemma nib_it_next l start e s x : Forall nibble_ok l -> (s < e)%nat -> l !! s = Some x ->
  NibbleIterator_peek (nib_it l start e s) = Ok (Some x) /\
  NibbleIterator_next (nib_it l start e s) = Ok (Some x, nib_it l start e (S s)).
Proof.
  intros Hf Hs Hx. unfold NibbleIterator_peek, NibbleIterator_next, nib_it.
  cbn [ni_pos_start ni_pos_end ni_path ni_start]. rewrite (proj2 (Z.ltb_lt _ _)) by lia.
  rewrite (get_nibble_pack l s x) by done. rewrite !obind_Ok.
  by replace (Z.of_nat s + 1) with (Z.of_nat (S s)) by lia.
Qed.

Lemma nib_it_end l start e s : (e <= s)%nat ->
  NibbleIterator_peek (nib_it l start e s) = Ok None /\
  NibbleIterator_next (nib_it l start e s) = Ok (None, nib_it l start e s).
Proof.
  intros Hs. unfold NibbleIterator_peek, NibbleIterator_next, nib_it.
  cbn [ni_pos_start ni_pos_end ni_path ni_start]. by rewrite (proj2 (Z.ltb_ge _ _)) by lia.
Qed.

Lemma collect_nib_it l start e s : Forall nibble_ok l -> (s <= e)%nat -> (e <= length l)%nat ->
  (e <= 64)%nat -> collect_nibbles (nib_it l start e s) = Ok (take (e - s) (drop s l)).
Proof.
  intros Hf Hs He H64. unfold collect_nibbles.
  apply (drain_range (nib_it l start e) l e); try lia.
  - intros s' x Hs' Hx. by apply nib_it_next.
  - eexists. apply nib_it_end. lia.
Qed.

Lemma get_nibble_path_it l start e s : Forall nibble_ok l -> (start <= s <= e)%nat ->
  (e <= length l)%nat -> (length l <= 64)%nat ->
  get_nibble_path (nib_it l start e s) = Ok (pack (take (e - start) (drop start l))).
Proof.
  intros Hf Hs He H64. unfold get_nibble_path, visited_nibbles, remaining_nibbles, NibbleIterator_new.
  cbn [nib_it ni_pos_start ni_pos_end ni_path ni_start]. rewrite root_nibble_height.
  rewrite !assert_true, !obind_Ok by lia.
  change (mkNibbleIterator (pack l) (Z.of_nat start) (Z.of_nat s) (Z.of_nat start))
    with (nib_it l start s start).
  change (mkNibbleIterator (pack l) (Z.of_nat s) (Z.of_nat e) (Z.of_nat s)) with (nib_it l s e s).
  rewrite !collect_nib_it by (done || lia). rewrite !obind_Ok.
  assert (E : take (s - start) (drop start l) ++ take (e - s) (drop s l) =
              take (e - start) (drop start l)).
  { replace (e - start)%nat with ((s - start) + (e - s))%nat by lia.
    rewrite <- take_take_drop, drop_drop. do 3 f_equal. lia. }
  rewrite E. apply from_iter_pack.
  - apply Forall_take, Forall_drop, Hf.
  - rewrite length_take, length_drop. lia.
Qed.

(** The bit iterator over [l] from bit [s] to bit [e]. *)
Definition bit_it (l : list Z) (e s : nat) : BitIterator :=
  mkBitIterator (pack l) (Z.of_nat s) (Z.of_nat e).

Lemma drain_bit_it l e s fuel : Forall nibble_ok l -> (s <= e)%nat -> (e <= 4 * length l)%nat ->
  (e - s <= fuel)%nat -> drain fuel (bit_it l e s) = Ok (take (e - s) (drop s (nibbles_bits l))).
Proof.
  intros Hf Hs He Hfu. apply (drain_range (bit_it l e) (nibbles_bits l) e); try lia.
  - by rewrite nibbles_bits_length.
  - intros s' x Hs' Hx. cbn [next BitIterator_peekable]. unfold BitIterator_next, bit_it.
    cbn [bi_start bi_end bi_path]. rewrite (proj2 (Z.ltb_lt _ _)) by lia.
    destruct (get_bit_pack l s' Hf ltac:(lia)) as (b & Hb & ->). rewrite obind_Ok.
    replace b with x by congruence. by replace (Z.of_nat s' + 1) with (Z.of_nat (S s')) by lia.
  - eexists. cbn [next BitIterator_peekable]. unfold BitIterator_next, bit_it.
    cbn [bi_start bi_end]. by rewrite (proj2 (Z.ltb_ge _ _)) by lia.
Qed.

(** ** [skip_common_prefix] *)
Lemma skip_common_prefix_it l1 l2 a1 e1 a2 e2 : Forall nibble_ok l1 -> Forall nibble_ok l2 ->
  (e1 <= length l1)%nat -> (e2 <= length l2)%nat ->
  forall fuel s1 s2 count, (s1 <= e1)%nat -> (s2 <= e2)%nat -> (e1 - s1 <= fuel)%nat ->
  let n := common_prefix_len (take (e1 - s1) (drop s1 l1)) (take (e2 - s2) (drop s2 l2)) in
  skip_common_prefix fuel (nib_it l1 a1 e1 s1) (nib_it l2 a2 e2 s2) count =
  Ok (count + Z.of_nat n, nib_it l1 a1 e1 (s1 + n), nib_it l2 a2 e2 (s2 + n)).
Proof.
  intros Hf1 Hf2 He1 He2. induction fuel as [|fuel IH]; intros s1 s2 count Hs1 Hs2 Hfu n;
    cbn [skip_common_prefix]; cbn [peek NibbleIterator_peekable].
  - subst n. replace s1 with e1 by lia. destruct (nib_it_end l1 a1 e1 e1) as [-> _]; [lia|].
    rewrite obind_Ok. rewrite Nat.sub_diag. cbn [take common_prefix_len].
    rewrite !Nat.add_0_r, Z.add_0_r.
    destruct (decide (s2 < e2)%nat) as [Hlt|].
    + destruct (lookup_lt_is_Some_2 l2 s2) as [y Hy]; [lia|].
      by destruct (nib_it_next l2 a2 e2 s2 y Hf2 Hlt Hy) as [-> _].
    + by destruct (nib_it_end l2 a2 e2 s2) as [-> _]; [lia|].
  - destruct (decide (s1 < e1)%nat) as [Hlt1|].
    2:{ subst n. replace s1 with e1 by lia. destruct (nib_it_end l1 a1 e1 e1) as [-> _]; [lia|].
        rewrite obind_Ok. rewrite Nat.sub_diag. cbn [take common_prefix_len].
        rewrite !Nat.add_0_r, Z.add_0_r.
        destruct (decide (s2 < e2)%nat) as [Hlt|].
        + destruct (lookup_lt_is_Some_2 l2 s2) as [y Hy]; [lia|].
          by destruct (nib_it_next l2 a2 e2 s2 y Hf2 Hlt Hy) as [-> _].
        + by destruct (nib_it_end l2 a2 e2 s2) as [-> _]; [lia|]. }
    destruct (lookup_lt_is_Some_2 l1 s1) as [x Hx]; [lia|].
    destruct (nib_it_next l1 a1 e1 s1 x Hf1 Hlt1 Hx) as [-> Hn1]. rewrite obind_Ok.
    destruct (decide (s2 < e2)%nat) as [Hlt2|].
    2:{ subst n. replace s2 with e2 by lia. destruct (nib_it_end l2 a2 e2 e2) as [-> _]; [lia|].
        rewrite obind_Ok. rewrite Nat.sub_diag. cbn [take].
        assert (E : forall xs : list Z, common_prefix_len xs [] = 0%nat) by (by intros []).
        rewrite E, !Nat.add_0_r, Z.add_0_r. done. }
    destruct (lookup_lt_is_Some_2 l2 s2) as [y Hy]; [lia|].
    destruct (nib_it_next l2 a2 e2 s2 y Hf2 Hlt2 Hy) as [-> Hn2]. rewrite obind_Ok.
    assert (En : n = (if decide (x = y) then
        S (common_prefix_len (take (e1 - S s1) (drop (S s1) l1)) (take (e2 - S s2) (drop (S s2) l2)))
        else 0)%nat).
    { subst n. rewrite (drop_S _ _ _ Hx), (drop_S _ _ _ Hy).
      replace (e1 - s1)%nat with (S (e1 - S s1)) by lia.
      replace (e2 - s2)%nat with (S (e2 - S s2)) by lia. done. }
    rewrite En. case_bool_decide as Exy.
    + rewrite decide_True by done. cbn [next NibbleIterator_peekable]. rewrite Hn1, Hn2, !obind_Ok.
      cbn [snd]. rewrite IH by lia. f_equal. f_equal; [f_equal|]; [lia|f_equal; lia..].
    + rewrite decide_False by done. by rewrite Z.add_0_r, !Nat.add_0_r.
Qed.
