(* ===== verification/NibbleTheorems.v ===== *)
(** * Nibble paths: the properties *)
From stdpp Require Import base list numbers strings option.
From Stdlib Require Import ZArith Lia Bool.
From S2P Require Import Prelude Hash NibblePath NibblePathFacts.

(** A well-formed path is the packed form of its nibbles. *)
Lemma path_ok_pack p : path_ok p ->
  exists l, p = pack l /\ Forall nibble_ok l /\ (length l <= 64)%nat /\ unpack p = l.
Proof.
  intros Hp. exists (unpack p). pose proof Hp as (Hn & Hb & _).
  rewrite pack_unpack by done. split_and!; [done| | |done].
  - unfold unpack. by apply Forall_take, bytes_nibbles_ok.
  - unfold unpack. rewrite length_take. rewrite root_nibble_height in Hn. lia.
Qed.

(** On a well-formed path [push], [pop], [truncate], [last], [get_nibble] and
    [get_bit] are the operations of lists of nibbles; the path stays well formed:
    the padding nibble of an odd path is zero again after every operation. *)
Theorem nibble_path_refines p : path_ok p ->
  let l := unpack p in
  (forall n, nibble_ok n -> np_num_nibbles p < ROOT_NIBBLE_HEIGHT ->
     exists p', push p n = Ok p' /\ path_ok p' /\ unpack p' = l ++ [n]) /\
  (exists p', pop p = Ok (list.last l, p') /\ path_ok p' /\ unpack p' = take (length l - 1) l) /\
  (forall len, 0 <= len <= np_num_nibbles p ->
     exists p', truncate p len = Ok p' /\ path_ok p' /\ unpack p' = take (Z.to_nat len) l) /\
  NibblePath_last p = Ok (list.last l) /\
  (forall i n, l !! i = Some n -> get_nibble p (Z.of_nat i) = Ok n) /\
  (forall i b, nibbles_bits l !! i = Some b -> get_bit p (Z.of_nat i) = Ok b).
Proof.
  intros Hp. destruct (path_ok_pack p Hp) as (l & -> & Hf & Hl & ->). cbv zeta.
  rewrite np_num_pack, root_nibble_height.
  split_and!.
  - intros n Hn Hlt. exists (pack (l ++ [n])).
    assert (Forall nibble_ok (l ++ [n])) by (apply Forall_app; split; [done|by rewrite Forall_singleton]).
    split_and!; [by apply push_pack; try lia|apply pack_path_ok; [done|]|by apply unpack_pack].
    rewrite length_app. cbn. lia.
  - destruct l as [|n l _] using rev_ind; [exists (pack []); split_and!; [done|by apply pack_path_ok; [|cbn;lia]|done]|].
    exists (pack l). pose proof Hf as Hf'. apply Forall_app in Hf' as [Hl' _].
    rewrite last_snoc, length_app in *. cbn [length] in *. rewrite Nat.add_sub, take_app_length.
    split_and!; [by apply pop_pack_snoc|apply pack_path_ok; [done|lia]|by apply unpack_pack].
  - intros len Hlen. exists (pack (take (Z.to_nat len) l)).
    rewrite <- (truncate_pack l (Z.to_nat len)) by (done || lia). rewrite Z2Nat.id by lia.
    assert (Forall nibble_ok (take (Z.to_nat len) l)) by (by apply Forall_take).
    split_and!; [done|apply pack_path_ok; [done|]|by apply unpack_pack].
    rewrite length_take. lia.
  - by apply last_pack.
  - intros i n Hi. by apply get_nibble_pack.
  - intros i b Hb. pose proof (lookup_lt_Some _ _ _ Hb) as Hi. rewrite nibbles_bits_length in Hi.
    destruct (get_bit_pack l i Hf Hi) as (b' & Hb' & ->). congruence.
Qed.

(** Paths built from bytes or from an iterator hold the given nibbles, and a
    nibble iterator advanced to any point still rebuilds the whole path, yields
    exactly the nibbles that remain, and the bits of those. *)
Theorem nibble_path_builds l s : Forall nibble_ok l -> (length l <= 64)%nat -> (s <= length l)%nat ->
  let it := mkNibbleIterator (pack l) (Z.of_nat s) (Z.of_nat (length l)) 0 in
  from_iter l = Ok (pack l) /\ path_ok (pack l) /\ unpack (pack l) = l /\
  new_from_byte_array (pack_bytes l) (Z.of_nat (length l)) = Ok (pack l) /\
  get_nibble_path it = Ok (pack l) /\
  collect_nibbles it = Ok (drop s l) /\
  drain 256 (NibbleIterator_bits it) = Ok (drop (4 * s) (nibbles_bits l)).
Proof.
  intros Hf Hl Hs it. split_and!.
  - by apply from_iter_pack.
  - by apply pack_path_ok.
  - by apply unpack_pack.
  - rewrite new_from_byte_array_pack; [|by apply pack_bytes_ok|lia|].
    + by rewrite unpack_bytes, take_app_length.
    + pose proof (pack_bytes_length l). Z.to_euclidean_division_equations; lia.
  - unfold it. change (mkNibbleIterator _ _ _ _) with (nib_it l 0 (length l) s).
    rewrite get_nibble_path_it by (done || lia). by rewrite Nat.sub_0_r, drop_0, take_ge.
  - unfold it. change (mkNibbleIterator _ _ _ _) with (nib_it l 0 (length l) s).
    rewrite collect_nib_it by (done || lia). by rewrite take_ge by (rewrite length_drop; lia).
  - assert (E : NibbleIterator_bits it = bit_it l (4 * length l) (4 * s)).
    { unfold it, NibbleIterator_bits, bit_it. cbn [ni_path ni_pos_start ni_pos_end]. f_equal; lia. }
    rewrite E, drain_bit_it by (done || lia).
    rewrite take_ge by (rewrite length_drop, nibbles_bits_length; lia). done.
Qed.

(** [skip_common_prefix] ends within 64 steps on any two nibble iterators,
    returns the length of the common prefix of what they have left, and advances
    both by that number. *)
Theorem skip_common_prefix_correct l m i j : Forall nibble_ok l -> Forall nibble_ok m ->
  (i <= length l <= 64)%nat -> (j <= length m <= 64)%nat ->
  let it p (k : nat) := mkNibbleIterator (pack p) (Z.of_nat k) (Z.of_nat (length p)) 0 in
  let n := common_prefix_len (drop i l) (drop j m) in
  skip_common_prefix 64 (it l i) (it m j) 0 = Ok (Z.of_nat n, it l (i + n)%nat, it m (j + n)%nat).
Proof.
  intros Hl Hm Hi Hj it n.
  pose proof (skip_common_prefix_it l m 0 (length l) 0 (length m) Hl Hm ltac:(lia) ltac:(lia)
    64 i j 0 ltac:(lia) ltac:(lia) ltac:(lia)) as E. cbv zeta in E.
  rewrite !take_ge in E by (rewrite length_drop; lia). exact E.
Qed.

(** *** Instances *)
Lemma nibble_path_refines_witness :
  let p := mkNibblePath 3 [18; 48] in
  exists p', push p 15 = Ok p' /\ path_ok p' /\ unpack p' = unpack p ++ [15].
Proof.
  assert (Hp : path_ok (mkNibblePath 3 [18; 48])).
  { unfold path_ok, byte_ok. cbn [np_num_nibbles np_bytes]. rewrite root_nibble_height.
    split_and!; try lia; [repeat constructor; lia|reflexivity|]. intros _. by exists 48. }
  apply (nibble_path_refines _ Hp); [unfold nibble_ok; lia|cbn; rewrite root_nibble_height; lia].
Defined.

Lemma nibble_path_builds_witness : from_iter [1; 2; 3] = Ok (pack [1; 2; 3]).
Proof.
  apply (nibble_path_builds [1; 2; 3] 1); [repeat constructor; unfold nibble_ok; lia|cbn; lia..].
Defined.

Lemma skip_common_prefix_correct_witness :
  skip_common_prefix 64 (mkNibbleIterator (pack [1; 2; 3]) (Z.of_nat 0) (Z.of_nat 3) 0)
    (mkNibbleIterator (pack [9; 1; 2; 4]) (Z.of_nat 1) (Z.of_nat 4) 0) 0 =
  Ok (Z.of_nat 2, mkNibbleIterator (pack [1; 2; 3]) (Z.of_nat 2) (Z.of_nat 3) 0,
      mkNibbleIterator (pack [9; 1; 2; 4]) (Z.of_nat 3) (Z.of_nat 4) 0).
Proof.
  apply (skip_common_prefix_correct [1; 2; 3] [9; 1; 2; 4] 0 1);
    [repeat constructor; unfold nibble_ok; lia..|cbn; lia|cbn; lia].
Defined.
