(* ===== verification/ByteCodec.v ===== *)
(** * Bytes on disk

    The interface of [byteorder] the encoders use, with fixed-width integers in
    either byte order as its specification (a cursor is the list of bytes that are
    left), and the variable-length integers of
    [storage/jellyfish-merkle/src/node_type/mod.rs]. *)
From stdpp Require Import base list numbers strings option.
From Stdlib Require Import ZArith Lia Bool.
From S2P Require Import Prelude Hash.

(** The [n] bytes of an integer, least or most significant first. *)
Fixpoint le_bytes (n : nat) (x : Z) : list Z :=
  match n with
  | O => []
  | S n => x mod 256 :: le_bytes n (x / 256)
  end.
Definition be_bytes (n : nat) (x : Z) : list Z := rev (le_bytes n x).

Fixpoint le_value (bs : list Z) : Z :=
  match bs with
  | [] => 0
  | b :: bs => b + 256 * le_value bs
  end.
Definition be_value (bs : list Z) : Z := le_value (rev bs).

(** [Read::read_exact] of [n] bytes from a cursor. *)
Definition read_exact (n : nat) (reader : list Z) : outcome (list Z * list Z) :=
  if (n <=? length reader)%nat then Ok (take n reader, drop n reader)
  else Err "failed to fill whole buffer".

(** [WriteBytesExt] and [ReadBytesExt]. *)
Class ByteOrder := {
  write_u8 : Z -> list Z;
  write_u16_le : Z -> list Z;
  write_u64_be : Z -> list Z;
  read_u8 : list Z -> outcome (Z * list Z);
  read_u16_le : list Z -> outcome (Z * list Z);
  read_u64_be : list Z -> outcome (Z * list Z);
}.

(** What the documentation of [byteorder] says. *)
Class ByteOrderLaws `{ByteOrder} : Prop := {
  write_u8_spec x : byte_ok x -> write_u8 x = [x];
  write_u16_le_spec x : 0 <= x < 65536 -> write_u16_le x = le_bytes 2 x;
  write_u64_be_spec x : u64_ok x -> write_u64_be x = be_bytes 8 x;
  read_u8_spec reader : read_u8 reader =
    match reader with [] => Err "failed to fill whole buffer" | b :: r => Ok (b, r) end;
  read_u16_le_spec reader :
    read_u16_le reader = (r ← read_exact 2 reader; Ok (le_value (fst r), snd r));
  read_u64_be_spec reader :
    read_u64_be reader = (r ← read_exact 8 reader; Ok (be_value (fst r), snd r));
}.

(** The interface can be implemented. *)
Definition ref_byteorder : ByteOrder := {|
  write_u8 := fun x => [x];
  write_u16_le := le_bytes 2;
  write_u64_be := be_bytes 8;
  read_u8 := fun reader =>
    match reader with [] => Err "failed to fill whole buffer" | b :: r => Ok (b, r) end;
  read_u16_le := fun reader => r ← read_exact 2 reader; Ok (le_value (fst r), snd r);
  read_u64_be := fun reader => r ← read_exact 8 reader; Ok (be_value (fst r), snd r);
|}.

Lemma ref_byteorder_laws : @ByteOrderLaws ref_byteorder.
Proof. by split. Qed.

(** ** Variable-length integers *)

(** The loop of at most [i] seven-bit groups; the byte after them is raw. *)
Fixpoint serialize_varint_loop (i : nat) (num : Z) (binary : list Z) : outcome (list Z) :=
  match i with
  | O =>
      _ ← assert (negb (num =? 0)) "assertion failed: num != 0";
      _ ← assert (num <=? 255) "assertion failed: num <= 0xFF";
      Ok (binary ++ [num mod 256])
  | S i =>
      let low_bits := Z.land (num mod 256) 127 in
      let num := Z.shiftr num 7 in
      let more := if num =? 0 then 0 else 128 in
      let binary := binary ++ [Z.lor low_bits more] in
      if more =? 0 then Ok binary else serialize_varint_loop i num binary
  end.

Definition serialize_u64_varint (num : Z) (binary : list Z) : outcome (list Z) :=
  serialize_varint_loop 8 num binary.

Section Varint.
Context `{ByteOrder}.

(** [k] groups are left, [8 - k] were read. *)
Fixpoint deserialize_varint_loop (k : nat) (num : Z) (reader : list Z) : outcome (Z * list Z) :=
  match k with
  | O =>
      r ← read_u8 reader;
      let '(byte, reader) := r in
      Ok (Z.lor num (shl64_wrap byte 56), reader)
  | S k' =>
      r ← read_u8 reader;
      let '(byte, reader) := r in
      let i := 8 - Z.of_nat k in
      let num := Z.lor num (shl64_wrap (Z.land byte 127) (i * 7)) in
      if Z.land byte 128 =? 0 then Ok (num, reader) else deserialize_varint_loop k' num reader
  end.

Definition deserialize_u64_varint (reader : list Z) : outcome (Z * list Z) :=
  deserialize_varint_loop 8 0 reader.
End Varint.

(** ** Fixed-width integers *)
Lemma le_bytes_length n : forall x, length (le_bytes n x) = n.
Proof. induction n as [|n IH]; intros x; cbn; [done|]. by rewrite IH. Qed.

Lemma be_bytes_length n x : length (be_bytes n x) = n.
Proof. unfold be_bytes. by rewrite length_rev, le_bytes_length. Qed.

Lemma le_bytes_ok n : forall x, Forall byte_ok (le_bytes n x).
Proof.
  induction n as [|n IH]; intros x; cbn; constructor; [|done].
  unfold byte_ok. by apply Z.mod_pos_bound.
Qed.

Lemma be_bytes_ok n x : Forall byte_ok (be_bytes n x).
Proof. apply Forall_rev, le_bytes_ok. Qed.

Lemma pow256_S n : 256 ^ Z.of_nat (S n) = 256 * 256 ^ Z.of_nat n.
Proof. rewrite Nat2Z.inj_succ, Z.pow_succ_r; lia. Qed.

Lemma le_value_bytes n : forall x, 0 <= x < 256 ^ Z.of_nat n -> le_value (le_bytes n x) = x.
Proof.
  induction n as [|n IH]; intros x Hx; [cbn in *; lia|]. rewrite pow256_S in Hx.
  cbn [le_bytes le_value]. rewrite IH by (Z.to_euclidean_division_equations; lia).
  pose proof (Z.div_mod x 256 ltac:(lia)). lia.
Qed.

Lemma le_bytes_value bs : Forall byte_ok bs -> le_bytes (length bs) (le_value bs) = bs.
Proof.
  induction 1 as [|b bs Hb _ IH]; [done|]. unfold byte_ok in Hb. cbn [le_value length le_bytes].
  replace ((b + 256 * le_value bs) mod 256) with b
    by (rewrite Z.mul_comm, Z.mod_add, Z.mod_small by lia; lia).
  replace ((b + 256 * le_value bs) / 256) with (le_value bs)
    by (rewrite Z.mul_comm, Z.div_add, Z.div_small by lia; lia).
  by rewrite IH.
Qed.

Lemma le_value_bounds bs : Forall byte_ok bs -> 0 <= le_value bs < 256 ^ Z.of_nat (length bs).
Proof.
  induction 1 as [|b bs Hb _ IH]; [cbn; lia|]. unfold byte_ok in Hb.
  cbn [le_value length]. rewrite pow256_S. lia.
Qed.

Lemma be_value_bytes n x : 0 <= x < 256 ^ Z.of_nat n -> be_value (be_bytes n x) = x.
Proof. intros Hx. unfold be_value, be_bytes. rewrite rev_involutive. by apply le_value_bytes. Qed.

Lemma be_bytes_value bs : Forall byte_ok bs -> be_bytes (length bs) (be_value bs) = bs.
Proof.
  intros Hb. unfold be_value, be_bytes. rewrite <- (length_rev bs), le_bytes_value.
  - apply rev_involutive.
  - by apply Forall_rev.
Qed.

Lemma be_value_bounds bs : Forall byte_ok bs -> 0 <= be_value bs < 256 ^ Z.of_nat (length bs).
Proof.
  intros Hb. unfold be_value. rewrite <- (length_rev bs). by apply le_value_bounds, Forall_rev.
Qed.

Lemma read_exact_app n bs rest : length bs = n -> read_exact n (bs ++ rest) = Ok (bs, rest).
Proof.
  intros <-. unfold read_exact. rewrite length_app, (proj2 (Nat.leb_le _ _)) by lia.
  by rewrite take_app_length, drop_app_length.
Qed.

Lemma read_exact_inv n reader bs rest : read_exact n reader = Ok (bs, rest) ->
  reader = bs ++ rest /\ length bs = n.
Proof.
  unfold read_exact. destruct (n <=? length reader)%nat eqn:E; [|done]. intros [= <- <-].
  apply Nat.leb_le in E. by rewrite take_drop, length_take_le.
Qed.

Section ByteOrderFacts.
Context `{ByteOrderLaws}.

Lemma read_u8_cons b reader : read_u8 (b :: reader) = Ok (b, reader).
Proof. by rewrite read_u8_spec. Qed.

Lemma read_u64_be_bytes x rest : u64_ok x -> read_u64_be (be_bytes 8 x ++ rest) = Ok (x, rest).
Proof.
  intros Hx. rewrite read_u64_be_spec, read_exact_app, obind_Ok by apply be_bytes_length.
  cbn [fst snd]. rewrite be_value_bytes by exact Hx. done.
Qed.

Lemma read_u16_le_bytes x rest : 0 <= x < 65536 -> read_u16_le (le_bytes 2 x ++ rest) = Ok (x, rest).
Proof.
  intros Hx. rewrite read_u16_le_spec, read_exact_app, obind_Ok by apply le_bytes_length.
  cbn [fst snd]. rewrite le_value_bytes by exact Hx. done.
Qed.
End ByteOrderFacts.

(** ** The varint is a code *)

(** A group of seven bits and its continuation bit. *)
Lemma varint_group_bits num c : 0 <= num -> c = 0 \/ c = 128 ->
  let b := Z.lor (Z.land (num mod 256) 127) c in
  byte_ok b /\ Z.land b 127 = num mod 128 /\ Z.land b 128 = c.
Proof.
  intros Hn Hc. change 127 with (Z.ones 7). rewrite !Z.land_ones by lia.
  change (2 ^ 7) with 128.
  assert (E : num mod 256 mod 128 = num mod 128)
    by (apply Z.mod_mod_divide; by exists 2).
  rewrite E. assert (Hm : 0 <= num mod 128 < 128) by (apply Z.mod_pos_bound; lia).
  generalize dependent (num mod 128). intros m _ Hm.
  assert (Hall : forallb (fun m => forallb (fun c =>
     (0 <=? Z.lor m c) && (Z.lor m c <? 256) && (Z.lor m c mod 128 =? m) && (Z.land (Z.lor m c) 128 =? c))
     [0; 128]) (seqZ 0 128) = true) by (vm_compute; reflexivity).
  rewrite forallb_forall in Hall.
  assert (Hin : In m (seqZ 0 128)) by (apply list_elem_of_In, elem_of_seqZ; lia).
  specialize (Hall m Hin). rewrite forallb_forall in Hall.
  specialize (Hall c ltac:(cbn; destruct Hc as [->| ->]; tauto)).
  rewrite !andb_true_iff, Z.leb_le, Z.ltb_lt, !Z.eqb_eq in Hall. unfold byte_ok.
  cbv zeta. naive_solver.
Qed.

(** What is written depends on what was there only as a prefix. *)
Lemma serialize_varint_prefix i : forall num binary,
  serialize_varint_loop i num binary = (bs ← serialize_varint_loop i num []; Ok (binary ++ bs)).
Proof.
  induction i as [|i IH]; intros num binary; cbn [serialize_varint_loop].
  - unfold assert. destruct (negb (num =? 0)), (num <=? 255); done.
  - destruct (Z.shiftr num 7 =? 0); cbn [Z.eqb]; [done|].
    rewrite IH, (IH _ ([] ++ _)). destruct (serialize_varint_loop i _ []); [|done..].
    rewrite !obind_Ok. by rewrite app_nil_l, <- app_assoc.
Qed.

(** A word written above the bits of another. *)
Lemma lor_disjoint_shift a b s : 0 <= a < 2 ^ s -> 0 <= s -> Z.lor a (b * 2 ^ s) = a + b * 2 ^ s.
Proof.
  intros Ha Hs. assert (E : Z.land a (b * 2 ^ s) = 0).
  { apply Z.bits_inj'. intros i Hi. rewrite Z.land_spec, Z.testbit_0_l.
    destruct (Z.lt_ge_cases i s) as [Hlt|Hge].
    - by rewrite Z.mul_pow2_bits_low, andb_false_r by lia.
    - rewrite (testbit_high (Z.to_nat s) a), andb_false_l; [done|unfold pow2|];
        rewrite Z2Nat.id; lia. }
  by rewrite Z.add_nocarry_lxor, Z.lxor_lor.
Qed.

Section VarintRoundtrip.
Context `{ByteOrderLaws}.

(** The groups of [num], then the raw byte: [k] groups left, [acc] holds the bits
    of those before. *)
Lemma varint_loop_roundtrip k : forall num acc rest, (k <= 8)%nat -> 0 < num \/ k = 8%nat ->
  0 <= num < 2 ^ (64 - 7 * (8 - Z.of_nat k)) -> 0 <= acc < 2 ^ (7 * (8 - Z.of_nat k)) ->
  exists bs, serialize_varint_loop k num [] = Ok bs /\ Forall byte_ok bs /\
    deserialize_varint_loop k acc (bs ++ rest) = Ok (acc + num * 2 ^ (7 * (8 - Z.of_nat k)), rest).
Proof.
  induction k as [|k IH]; intros num acc rest Hk Hz Hnum Hacc.
  - cbn [serialize_varint_loop]. destruct Hz as [Hz|]; [|done].
    change (64 - 7 * (8 - Z.of_nat 0)) with 8 in Hnum. change (7 * (8 - Z.of_nat 0)) with 56 in *.
    rewrite !assert_true, !obind_Ok by lia. rewrite Z.mod_small by lia.
    exists [num]. split; [done|]. split; [repeat constructor; lia|].
    cbn [app deserialize_varint_loop]. rewrite read_u8_cons, obind_Ok.
    change 56 with (Z.of_nat 56). rewrite shl64_small by (unfold pow2, U64; lia).
    unfold pow2. by rewrite lor_disjoint_shift by lia.
  - cbn [serialize_varint_loop]. set (s := 7 * (8 - Z.of_nat (S k))) in *.
    assert (Hs : 0 <= s <= 49) by lia.
    replace (7 * (8 - Z.of_nat k)) with (s + 7) in IH by lia.
    assert (Hsplit : num = num mod 128 + 128 * (num / 128)) by (pose proof (Z.div_mod num 128); lia).
    assert (Hm : 0 <= num mod 128 < 128) by (apply Z.mod_pos_bound; lia).
    rewrite Z.shiftr_div_pow2 by lia. change (2 ^ 7) with 128.
    assert (Hp7 : 2 ^ (s + 7) = 2 ^ s * 128) by (rewrite Z.pow_add_r; lia).
    assert (Hps : 0 < 2 ^ s) by lia.
    assert (Hp64 : 2 ^ (64 - s) * 2 ^ s = U64) by (rewrite <- Z.pow_add_r by lia; unfold U64; f_equal; lia).
    assert (Hp57 : 2 ^ (64 - (s + 7)) * 128 = 2 ^ (64 - s))
      by (change 128 with (2 ^ 7); rewrite <- Z.pow_add_r by lia; f_equal; lia).
    assert (Hstep : forall c, c = 0 \/ c = 128 ->
      let b := Z.lor (Z.land (num mod 256) 127) c in
      byte_ok b /\ Z.land b 128 = c /\
      Z.lor acc (shl64_wrap (Z.land b 127) ((8 - Z.of_nat (S k)) * 7)) = acc + num mod 128 * 2 ^ s).
    { intros c Hc b. destruct (varint_group_bits num c ltac:(lia) Hc) as (Hb & E127 & E128).
      fold b in Hb, E127, E128. split_and!; [done|done|]. rewrite E127.
      replace ((8 - Z.of_nat (S k)) * 7) with (Z.of_nat (Z.to_nat s)) by lia.
      rewrite shl64_small; [|lia|unfold pow2; rewrite Z2Nat.id by lia; nia].
      unfold pow2. rewrite Z2Nat.id by lia. apply lor_disjoint_shift; lia. }
    destruct (num / 128 =? 0) eqn:E.
    + apply Z.eqb_eq in E. cbn [Z.eqb app]. destruct (Hstep 0 ltac:(auto)) as (Hb & E128 & El).
      eexists. split; [done|]. split; [by repeat constructor; apply Hb|].
      cbn [app deserialize_varint_loop]. rewrite read_u8_cons, obind_Ok, E128, El. cbn [Z.eqb].
      do 2 f_equal. lia.
    + apply Z.eqb_neq in E. cbn [Z.eqb app]. destruct (Hstep 128 ltac:(auto)) as (Hb & E128 & El).
      assert (0 <= num / 128) by (apply Z.div_pos; lia).
      destruct (IH (num / 128) (acc + num mod 128 * 2 ^ s) rest) as (bs & Hser & Hok & Hde);
        [lia|lia|split; [lia|]|nia|].
      { apply Z.div_lt_upper_bound; lia. }
      rewrite serialize_varint_prefix, Hser, obind_Ok. eexists. split; [done|].
      split; [constructor; [apply Hb|done]|].
      cbn [app deserialize_varint_loop]. rewrite read_u8_cons, obind_Ok, E128, El. cbn [Z.eqb].
      rewrite Hde. do 2 f_equal. rewrite Hp7. lia.
Qed.

Lemma varint_roundtrip num binary rest : u64_ok num ->
  exists bs, serialize_u64_varint num binary = Ok (binary ++ bs) /\ Forall byte_ok bs /\
    deserialize_u64_varint (bs ++ rest) = Ok (num, rest).
Proof.
  intros Hn. destruct (varint_loop_roundtrip 8 num 0 rest) as (bs & Hs & Hok & Hd);
    [lia|by right|exact Hn|cbn; lia|].
  exists bs. unfold serialize_u64_varint, deserialize_u64_varint.
  rewrite serialize_varint_prefix, Hs, obind_Ok, Hd. split_and!; [done|done|].
  do 2 f_equal. cbn. lia.
Qed.
End VarintRoundtrip.
