(* ===== verification/JellyfishNode.v ===== *)
(** * Nodes of the Jellyfish Merkle tree

    Model of [storage/jellyfish-merkle/src/node_type/mod.rs] and, because the two
    modules use each other, of [TreeReader] and [get_hash] of
    [storage/jellyfish-merkle/src/lib.rs]: node keys, the 16-way internal nodes with
    their bitmaps, leaves, and their byte formats. *)
From stdpp Require Import base list numbers strings option pretty countable gmap.
From Stdlib Require Import ZArith Lia Bool.
From S2P Require Import Prelude Hash SparseMerkleProof NibblePath ByteCodec.

Abbreviation Version := Z (only parsing).

(** ** [NodeKey] *)
Record NodeKey := mkNodeKey { nk_version : Version; nk_nibble_path : NibblePath }.

#[export] Instance NodeKey_eq_dec : EqDecision NodeKey.
Proof. solve_decision. Defined.

#[export] Instance NibblePath_countable : Countable NibblePath.
Proof.
  apply (inj_countable' (fun p => (np_num_nibbles p, np_bytes p)) (fun x => mkNibblePath x.1 x.2)).
  by intros [].
Defined.

#[export] Instance NodeKey_countable : Countable NodeKey.
Proof.
  apply (inj_countable' (fun k => (nk_version k, nk_nibble_path k)) (fun x => mkNodeKey x.1 x.2)).
  by intros [].
Defined.

Definition new_empty_path (version : Version) : outcome NodeKey :=
  p ← new_even []; Ok (mkNodeKey version p).

Definition gen_child_node_key (self : NodeKey) (version : Version) (n : Nibble) : outcome NodeKey :=
  node_nibble_path ← push (nk_nibble_path self) n;
  Ok (mkNodeKey version node_nibble_path).

Definition gen_parent_node_key (self : NodeKey) : outcome NodeKey :=
  r ← pop (nk_nibble_path self);
  let '(poped, node_nibble_path) := r in
  _ ← assert (match poped with Some _ => true | None => false end) "Current node key is root.";
  Ok (mkNodeKey (nk_version self) node_nibble_path).

Definition set_version (self : NodeKey) (version : Version) : NodeKey :=
  mkNodeKey version (nk_nibble_path self).

Definition NodeKey_encode `{ByteOrder} (self : NodeKey) : list Z :=
  write_u64_be (nk_version self) ++ write_u8 (np_num_nibbles (nk_nibble_path self) mod 256) ++
  np_bytes (nk_nibble_path self).

Definition NodeKey_decode `{ByteOrder} (val : list Z) : outcome NodeKey :=
  r ← read_u64_be val;
  let '(version, reader) := r in
  r ← read_u8 reader;
  let '(num_nibbles, nibble_bytes) := r in
  _ ← ensure (num_nibbles <=? ROOT_NIBBLE_HEIGHT) "Invalid number of nibbles";
  _ ← ensure ((num_nibbles + 1) / 2 =? blen nibble_bytes)
        "encoded num_nibbles mismatches nibble path bytes";
  nibble_path ←
    (if num_nibbles mod 2 =? 0 then new_even nibble_bytes
     else
       last ← expect (list.last nibble_bytes) "called Option::unwrap() on a None value";
       let padding := Z.land last 15 in
       _ ← ensure (padding =? 0) "Padding nibble expected to be 0";
       new_odd nibble_bytes);
  Ok (mkNodeKey version nibble_path).

Definition NodeKey_get_shard_id (self : NodeKey) : outcome (option Z) :=
  get_shard_id (nk_nibble_path self).

(** [#[derive(Ord)]]: by version, then by the number of nibbles, then by the bytes. *)
Fixpoint lex_compare (xs ys : list Z) : comparison :=
  match xs, ys with
  | [], [] => Eq
  | [], _ => Lt
  | _, [] => Gt
  | x :: xs, y :: ys => match x ?= y with Eq => lex_compare xs ys | c => c end
  end.

Definition NibblePath_compare (a b : NibblePath) : comparison :=
  match np_num_nibbles a ?= np_num_nibbles b with
  | Eq => lex_compare (np_bytes a) (np_bytes b)
  | c => c
  end.

Definition NodeKey_compare (a b : NodeKey) : comparison :=
  match nk_version a ?= nk_version b with
  | Eq => NibblePath_compare (nk_nibble_path a) (nk_nibble_path b)
  | c => c
  end.

(** ** [NodeType], [Child] and [Children] *)
Inductive NodeType :=
| NodeType_Leaf
| NodeType_Null
| NodeType_Internal (leaf_count : Z).

#[export] Instance NodeType_eq_dec : EqDecision NodeType.
Proof. solve_decision. Defined.

(** 16-bit left shift of one. *)
Definition bit16 (i : Z) : outcome Z :=
  if i <? 16 then Ok (Z.shiftl 1 i) else Panic "attempt to shift left with overflow".

(** [slice::binary_search_by]: [size], [left] and [right] of the loop. *)
Fixpoint binary_search_loop {A} (fuel : nat) (cmp : A -> comparison) (l : list A)
    (left right : nat) : outcome (option nat) :=
  if (left <? right)%nat then
    match fuel with
    | O => Panic "out of fuel"
    | S fuel =>
        let mid := (left + (right - left) / 2)%nat in
        x ← expect (l !! mid) "index out of bounds";
        match cmp x with
        | Eq => Ok (Some mid)
        | Lt => binary_search_loop fuel cmp l (mid + 1) right
        | Gt => binary_search_loop fuel cmp l left mid
        end
    end
  else Ok None.

Definition binary_search_by_key {A} (l : list A) (b : Z) (f : A -> Z) : outcome (option nat) :=
  binary_search_loop (length l) (fun x => f x ?= b) l 0 (length l).

Section Nodes.
Context {HV : Type} `{HashValueOps HV} `{HashValueBits HV} `{CryptoHasher HV} `{LeafHasher HV}.
Context {K : Type}.

Record Child := mkChild { child_hash : HV; child_version : Version; child_node_type : NodeType }.

Definition Child_is_leaf (self : Child) : bool :=
  match child_node_type self with NodeType_Leaf => true | _ => false end.

Definition Child_leaf_count (self : Child) : outcome Z :=
  match child_node_type self with
  | NodeType_Leaf => Ok 1
  | NodeType_Internal leaf_count => Ok leaf_count
  | NodeType_Null => Panic "Child cannot be Null"
  end.

(** [Children(Arc<[(Nibble, Child)]>)]. *)
Abbreviation Children := (list (Z * Child)) (only parsing).

Definition from_sorted (children : list (Z * Child)) : Children := children.

Definition Children_get (self : Children) (nibble : Nibble) : outcome (option Child) :=
  r ← binary_search_by_key self nibble fst;
  match r with
  | Some idx => x ← expect (self !! idx) "index out of bounds"; Ok (Some (snd x))
  | None => Ok None
  end.

Definition Children_is_empty (self : Children) : bool :=
  match self with [] => true | _ => false end.

(** ** [InternalNode] *)
Record InternalNode := mkInternalNode { in_children : Children; in_leaf_count : Z }.

(** [sum] of the leaf counts. *)
Fixpoint sum_leaf_counts (acc : Z) (children : list (Z * Child)) : outcome Z :=
  match children with
  | [] => Ok acc
  | (_, child) :: children =>
      n ← Child_leaf_count child;
      acc ← add64 acc n;
      sum_leaf_counts acc children
  end.

Definition new_impl (children : Children) : outcome InternalNode :=
  _ ← ensure (negb (Children_is_empty children)) "Children must not be empty";
  leaf_count ← sum_leaf_counts 0 children;
  Ok (mkInternalNode children leaf_count).

Definition InternalNode_new (children : Children) : outcome InternalNode :=
  expect_res (new_impl children) "Input children are logical.".

Definition InternalNode_node_type (self : InternalNode) : NodeType :=
  NodeType_Internal (in_leaf_count self).

Definition children_sorted (self : InternalNode) : list (Z * Child) := in_children self.

Definition InternalNode_child (self : InternalNode) (n : Nibble) : outcome (option Child) :=
  Children_get (in_children self) n.

Fixpoint bitmaps_loop (existence_bitmap leaf_bitmap : Z) (children : list (Z * Child))
  : outcome (Z * Z) :=
  match children with
  | [] => Ok (existence_bitmap, leaf_bitmap)
  | (i, child) :: children =>
      bit ← bit16 i;
      bitmaps_loop (Z.lor existence_bitmap bit)
        (if Child_is_leaf child then Z.lor leaf_bitmap bit else leaf_bitmap) children
  end.

Definition generate_bitmaps (self : InternalNode) : outcome (Z * Z) :=
  r ← bitmaps_loop 0 0 (in_children self);
  let '(existence_bitmap, leaf_bitmap) := r in
  _ ← assert (Z.lor existence_bitmap leaf_bitmap =? existence_bitmap)
        "assertion failed: existence_bitmap | leaf_bitmap == existence_bitmap";
  Ok (existence_bitmap, leaf_bitmap).

Definition range_bitmaps (start width : Z) (bitmaps : Z * Z) : outcome (Z * Z) :=
  _ ← assert ((start <? 16) && (count_ones width =? 1) && (start mod width =? 0))
        "assertion failed: start < 16 && width.count_ones() == 1 && start % width == 0";
  _ ← assert ((width <=? 16) && (start + width <=? 16))
        "assertion failed: width <= 16 && (start + width) <= 16";
  let mask := Z.shiftl (Z.shiftl 1 width - 1) start mod 65536 in
  Ok (Z.land (fst bitmaps) mask, Z.land (snd bitmaps) mask).

(** Whether a range is a single leaf, or a single slot. *)
Definition only_one_child (width range_existence_bitmap range_leaf_bitmap : Z) : bool :=
  (width =? 1) || ((count_ones range_existence_bitmap =? 1) && negb (range_leaf_bitmap =? 0)).

(** The child the range consists of, and its index. *)
Definition only_child_of (self : InternalNode) (range_existence_bitmap : Z) : outcome (Z * Child) :=
  only_child_index ← nibble_from_u8 (trailing_zeros 16 range_existence_bitmap);
  c ← InternalNode_child self only_child_index;
  c ← expect c "Corrupted internal node";
  Ok (only_child_index, c).

(** [fuel] halvings of the width are left: a width of 16 halves four times. *)
Fixpoint merkle_hash (fuel : nat) (self : InternalNode) (start width : Z) (bitmaps : Z * Z)
  : outcome HV :=
  r ← range_bitmaps start width bitmaps;
  let '(range_existence_bitmap, range_leaf_bitmap) := r in
  if range_existence_bitmap =? 0 then Ok SPARSE_MERKLE_PLACEHOLDER_HASH
  else if only_one_child width range_existence_bitmap range_leaf_bitmap then
    only_child ← only_child_of self range_existence_bitmap;
    Ok (child_hash (snd only_child))
  else
    match fuel with
    | O => Panic "out of fuel"
    | S fuel =>
        left_child ← merkle_hash fuel self start (width / 2)
                       (range_existence_bitmap, range_leaf_bitmap);
        right_child ← merkle_hash fuel self (start + width / 2) (width / 2)
                        (range_existence_bitmap, range_leaf_bitmap);
        Ok (hash_node left_child right_child)
    end.

Definition InternalNode_hash (self : InternalNode) : outcome HV :=
  bitmaps ← generate_bitmaps self;
  merkle_hash 4 self 0 16 bitmaps.

(** *** The byte format of an internal node *)
Fixpoint serialize_children (children : list (Z * Child)) (binary : list Z) : outcome (list Z) :=
  match children with
  | [] => Ok binary
  | (_, child) :: children =>
      binary ← serialize_u64_varint (child_version child) binary;
      let binary := binary ++ hv_bytes (child_hash child) in
      binary ←
        (match child_node_type child with
         | NodeType_Leaf => Ok binary
         | NodeType_Internal leaf_count => serialize_u64_varint leaf_count binary
         | NodeType_Null => Panic "Child cannot be Null"
         end);
      serialize_children children binary
  end.

Definition serialize `{ByteOrder} (self : InternalNode) (binary : list Z) : outcome (list Z) :=
  r ← generate_bitmaps self;
  let '(existence_bitmap, leaf_bitmap) := r in
  let binary := binary ++ write_u16_le existence_bitmap in
  let binary := binary ++ write_u16_le leaf_bitmap in
  serialize_children (in_children self) binary.

Inductive NodeDecodeError :=
| EmptyInput
| UnknownTag (unknown_tag : Z)
| NoChildren
| ExtraLeaves (existing leaves : Z).

(** The [#[error]] messages. *)
Definition decode_error_msg (e : NodeDecodeError) : string :=
  match e with
  | EmptyInput => "Missing tag due to empty input"
  | UnknownTag t => "lead tag byte is unknown: " +:+ pretty t
  | NoChildren => "No children found in internal node"
  | ExtraLeaves x l =>
      "Non-existent leaf bits set, existing: " +:+ pretty x +:+ ", leaves: " +:+ pretty l
  end.

(** The loop that reads [n] children. *)
Fixpoint deserialize_children `{ByteOrder} (n : nat) (existence_bitmap leaf_bitmap : Z) (reader : list Z)
    (children : list (Z * Child)) : outcome (Z * list (Z * Child)) :=
  match n with
  | O => Ok (existence_bitmap, children)
  | S n =>
      let next_child := trailing_zeros 16 existence_bitmap in
      r ← deserialize_u64_varint reader;
      let '(version, reader) := r in
      _ ← ensure (HASH_LENGTH <=? blen reader) "not enough bytes left";
      hash ← ok_or (from_slice (take (Z.to_nat HASH_LENGTH) reader)) "HashValueParseError";
      let reader := drop (Z.to_nat HASH_LENGTH) reader in
      child_bit ← bit16 next_child;
      r ← (if negb (Z.land leaf_bitmap child_bit =? 0) then Ok (NodeType_Leaf, reader)
           else
             r ← deserialize_u64_varint reader;
             let '(leaf_count, reader) := r in
             Ok (NodeType_Internal leaf_count, reader));
      let '(node_type, reader) := r in
      nibble ← nibble_from_u8 next_child;
      deserialize_children n (Z.land existence_bitmap (Z.lxor child_bit 65535)) leaf_bitmap reader
        (children ++ [(nibble, mkChild hash version node_type)])
  end.

Definition deserialize `{ByteOrder} (data : list Z) : outcome InternalNode :=
  r ← read_u16_le data;
  let '(existence_bitmap, reader) := r in
  r ← read_u16_le reader;
  let '(leaf_bitmap, reader) := r in
  if existence_bitmap =? 0 then Err (decode_error_msg NoChildren)
  else if negb (Z.land existence_bitmap leaf_bitmap =? leaf_bitmap) then
    Err (decode_error_msg (ExtraLeaves existence_bitmap leaf_bitmap))
  else
    r ← deserialize_children (Z.to_nat (count_ones existence_bitmap)) existence_bitmap leaf_bitmap
          reader [];
    let '(existence_bitmap, children) := r in
    _ ← assert (existence_bitmap =? 0) "assertion failed: existence_bitmap == 0";
    new_impl (from_sorted children).

(** ** [LeafNode] and [Node] *)
Record LeafNode := mkLeafNode
  { account_key : HV; value_hash : HV; value_index : K * Version }.

(** [From<LeafNode<K>> for SparseMerkleLeafNode]. *)
Definition sparse_leaf_from (leaf_node : LeafNode) : SparseMerkleLeafNode HV :=
  mkSparseMerkleLeafNode (account_key leaf_node) (value_hash leaf_node).

Definition LeafNode_hash (self : LeafNode) : HV :=
  SparseMerkleLeafNode_hash (mkSparseMerkleLeafNode (account_key self) (value_hash self)).

(** [NodeTag], and [NodeTag::from_u8] of [num_derive]. *)
Inductive NodeTag := NodeTag_Leaf | NodeTag_Internal | NodeTag_Null.

Definition tag_to_u8 (t : NodeTag) : Z :=
  match t with NodeTag_Leaf => 1 | NodeTag_Internal => 2 | NodeTag_Null => 3 end.

Definition tag_from_u8 (z : Z) : option NodeTag :=
  if z =? 1 then Some NodeTag_Leaf else if z =? 2 then Some NodeTag_Internal
  else if z =? 3 then Some NodeTag_Null else None.

Inductive Node :=
| Node_Internal (node : InternalNode)
| Node_Leaf (leaf : LeafNode)
| Node_Null.

Definition new_leaf (account_key value_hash : HV) (value_index : K * Version) : Node :=
  Node_Leaf (mkLeafNode account_key value_hash value_index).

Definition Node_is_leaf (self : Node) : bool :=
  match self with Node_Leaf _ => true | _ => false end.

Definition Node_node_type (self : Node) : NodeType :=
  match self with
  | Node_Leaf _ => NodeType_Leaf
  | Node_Internal n => InternalNode_node_type n
  | Node_Null => NodeType_Null
  end.

Definition Node_leaf_count (self : Node) : Z :=
  match self with
  | Node_Leaf _ => 1
  | Node_Internal internal_node => in_leaf_count internal_node
  | Node_Null => 0
  end.

Definition Node_hash (self : Node) : outcome HV :=
  match self with
  | Node_Internal internal_node => InternalNode_hash internal_node
  | Node_Leaf leaf_node => Ok (LeafNode_hash leaf_node)
  | Node_Null => Ok SPARSE_MERKLE_PLACEHOLDER_HASH
  end.

(** [bcs::to_bytes] and [bcs::from_bytes] of leaves: [bcs] is not part of the
    repository. *)
Class LeafBcs := {
  bcs_to_bytes : LeafNode -> outcome (list Z);
  bcs_from_bytes : list Z -> outcome LeafNode;
}.

Definition Node_encode `{ByteOrder} `{LeafBcs} (self : Node) : outcome (list Z) :=
  match self with
  | Node_Internal internal_node => serialize internal_node [tag_to_u8 NodeTag_Internal]
  | Node_Leaf leaf_node =>
      bytes ← bcs_to_bytes leaf_node;
      Ok ([tag_to_u8 NodeTag_Leaf] ++ bytes)
  | Node_Null => Ok [tag_to_u8 NodeTag_Null]
  end.

Definition Node_decode `{ByteOrder} `{LeafBcs} (val : list Z) : outcome Node :=
  match val with
  | [] => Err (decode_error_msg EmptyInput)
  | tag :: rest =>
      match tag_from_u8 tag with
      | Some NodeTag_Internal => n ← deserialize rest; Ok (Node_Internal n)
      | Some NodeTag_Leaf => l ← bcs_from_bytes rest; Ok (Node_Leaf l)
      | Some NodeTag_Null => Ok Node_Null
      | None => Err (decode_error_msg (UnknownTag tag))
      end
  end.

(** ** [TreeReader] and the hash cache ([lib.rs]) *)
Record TreeReader := mkTreeReader {
  get_node_option : NodeKey -> string -> outcome (option Node);
  get_rightmost_leaf : Version -> outcome (option (NodeKey * LeafNode));
}.

Definition get_node_with_tag (self : TreeReader) (node_key : NodeKey) (tag : string) : outcome Node :=
  o ← get_node_option self node_key tag;
  ok_or o "Missing node".

Definition get_node (self : TreeReader) (node_key : NodeKey) : outcome Node :=
  get_node_with_tag self node_key "unknown".

(** [&Option<&HashMap<NibblePath, HashValue>>] *)
Abbreviation HashCache := (option (gmap NibblePath HV)) (only parsing).

(** [get_hash] of [lib.rs]. *)
Definition node_get_hash (node_key : NodeKey) (node : Node) (hash_cache : HashCache) : outcome HV :=
  match hash_cache with
  | Some cache => expect (cache !! nk_nibble_path node_key) "can not be found in hash cache"
  | None => Node_hash node
  end.

Definition Child_for_node (parent_key : NodeKey) (child_index : Nibble) (child_node : Node)
    (hash_cache : HashCache) (version : Version) : outcome Child :=
  key ← gen_child_node_key parent_key version child_index;
  hash ← node_get_hash key child_node hash_cache;
  Ok (mkChild hash version (Node_node_type child_node)).

(** ** Siblings for a proof *)
Definition gen_node_in_proof (self : InternalNode) (start width : Z) (bitmaps : Z * Z)
    (tree_reader : TreeReader) (node_key : NodeKey) : outcome (NodeInProof HV) :=
  r ← range_bitmaps start width bitmaps;
  let '(range_existence_bitmap, range_leaf_bitmap) := r in
  if range_existence_bitmap =? 0 then Ok (NodeInProof_Other SPARSE_MERKLE_PLACEHOLDER_HASH)
  else if only_one_child width range_existence_bitmap range_leaf_bitmap then
    r ← only_child_of self range_existence_bitmap;
    let '(only_child_index, only_child) := r in
    match child_node_type only_child with
    | NodeType_Leaf =>
        only_child_node_key ← gen_child_node_key node_key (child_version only_child) only_child_index;
        n ← get_node_with_tag tree_reader only_child_node_key "get_proof";
        match n with
        | Node_Internal _ =>
            Panic "Corrupted internal node: in-memory leaf child is internal node on disk"
        | Node_Leaf leaf_node => Ok (NodeInProof_Leaf (sparse_leaf_from leaf_node))
        | Node_Null => Panic "Child cannot be Null"
        end
    | _ => Ok (NodeInProof_Other (child_hash only_child))
    end
  else
    left_child ← merkle_hash 3 self start (width / 2) (range_existence_bitmap, range_leaf_bitmap);
    right_child ← merkle_hash 3 self (start + width / 2) (width / 2)
                    (range_existence_bitmap, range_leaf_bitmap);
    Ok (NodeInProof_Other (hash_node left_child right_child)).

(** [height] is at most 3: the shift of [0xFF] drops bits above the byte. *)
Definition get_child_and_sibling_half_start (n : Nibble) (height : Z) : Z * Z :=
  let child_half_start := Z.land (Z.land (Z.shiftl 255 height) 255) n in
  let sibling_half_start := Z.lxor child_half_start (Z.shiftl 1 height) in
  (child_half_start, sibling_half_start).

(** The loop over the heights [hs]. *)
Fixpoint child_with_siblings_loop (hs : list Z) (self : InternalNode) (node_key : NodeKey)
    (n : Nibble) (reader : option TreeReader) (out_siblings : list (NodeInProof HV))
    (root_depth target_depth : Z) (bitmaps : Z * Z)
  : outcome (option NodeKey * list (NodeInProof HV)) :=
  match hs with
  | [] => Panic "Impossible to get here without returning even at the lowest level."
  | h :: hs =>
      let width := Z.shiftl 1 h in
      let '(child_half_start, sibling_half_start) := get_child_and_sibling_half_start n h in
      let depth := root_depth + 3 - h in
      out_siblings ←
        (if target_depth <=? depth then
           match reader with
           | Some reader =>
               s ← gen_node_in_proof self sibling_half_start width bitmaps reader node_key;
               Ok (out_siblings ++ [s])
           | None =>
               s ← merkle_hash 4 self sibling_half_start width bitmaps;
               Ok (out_siblings ++ [NodeInProof_Other s])
           end
         else Ok out_siblings);
      r ← range_bitmaps child_half_start width bitmaps;
      let '(range_existence_bitmap, range_leaf_bitmap) := r in
      if range_existence_bitmap =? 0 then Ok (None, out_siblings)
      else if only_one_child width range_existence_bitmap range_leaf_bitmap then
        r ← only_child_of self range_existence_bitmap;
        let '(only_child_index, only_child) := r in
        key ← gen_child_node_key node_key (child_version only_child) only_child_index;
        Ok (Some key, out_siblings)
      else
        child_with_siblings_loop hs self node_key n reader out_siblings root_depth target_depth bitmaps
  end.

Definition get_child_with_siblings (self : InternalNode) (node_key : NodeKey) (n : Nibble)
    (reader : option TreeReader) (out_siblings : list (NodeInProof HV))
    (root_depth target_depth : Z) : outcome (option NodeKey * list (NodeInProof HV)) :=
  _ ← assert (1 <? in_leaf_count self) "assertion failed: self.leaf_count > 1";
  bitmaps ← generate_bitmaps self;
  child_with_siblings_loop [3; 2; 1; 0] self node_key n reader out_siblings root_depth target_depth
    bitmaps.
End Nodes.
Arguments Child : clear implicits.
Arguments InternalNode : clear implicits.
Arguments LeafNode : clear implicits.
Arguments Node : clear implicits.
Arguments TreeReader : clear implicits.
Arguments LeafBcs : clear implicits.
