(* ===== verification/JellyfishNodeFacts.v ===== *)
(** * Facts about nodes: keys, children, bitmaps *)
From stdpp Require Import base list numbers strings option gmap sorting.
From Stdlib Require Import ZArith Lia Bool Sorted.
From S2P Require Import Prelude Hash SparseMerkleProof NibblePath NibblePathFacts ByteCodec JellyfishNode.

(** ** Node keys *)
Section NodeKeys.
Context `{ByteOrderLaws}.

Definition key_ok (k : NodeKey) : Prop := u64_ok (nk_version k) /\ path_ok (nk_nibble_path k).

Lemma NodeKey_encode_bytes k : key_ok k ->
  NodeKey_encode k = be_bytes 8 (nk_version k) ++ np_num_nibbles (nk_nibble_path k) ::
    np_bytes (nk_nibble_path k).
Proof.
  intros [Hv (Hn & _)]. rewrite root_nibble_height in Hn. unfold NodeKey_encode.
  rewrite Z.mod_small by lia. rewrite write_u64_be_spec, write_u8_spec; [done| |done].
  unfold byte_ok. lia.
Qed.

Lemma NodeKey_decode_encode k : key_ok k -> NodeKey_decode (NodeKey_encode k) = Ok k.
Proof.
  intros Hk. rewrite NodeKey_encode_bytes by done. destruct k as [v [n bs]].
  destruct Hk as (Hv & Hn & Hb & Hl & Hp). cbn [nk_version nk_nibble_path np_num_nibbles np_bytes] in *.
  rewrite root_nibble_height in Hn. unfold NodeKey_decode.
  rewrite read_u64_be_bytes, obind_Ok by done. rewrite read_u8_cons, obind_Ok.
  rewrite root_nibble_height, (ensure_true (_ <=? 64)), obind_Ok by lia.
  rewrite (ensure_true (_ =? _)), obind_Ok by (rewrite Hl; apply Z.eqb_refl).
  assert (Hlen : blen bs <= 32) by (rewrite Hl; Z.to_euclidean_division_equations; lia).
  rewrite Zmod_odd in *. destruct (Z.odd n) eqn:En; cbn [Z.eqb].
  - destruct (Hp eq_refl) as (b & Hb1 & Hb2). rewrite Hb1. cbn [expect]. rewrite obind_Ok.
    change 15 with (Z.ones 4). rewrite Z.land_ones by lia. change (2 ^ 4) with 16.
    rewrite Hb2. cbn [Z.eqb ensure]. rewrite obind_Ok. unfold new_odd.
    rewrite root_nibble_height, assert_true, obind_Ok by (apply Z.leb_le; change (64 / 2) with 32; lia). rewrite Hb1. cbn [expect].
    rewrite obind_Ok. change 15 with (Z.ones 4). rewrite Z.land_ones by lia. change (2 ^ 4) with 16.
    rewrite Hb2. cbn [Z.eqb assert]. rewrite !obind_Ok. repeat f_equal.
    apply Z.odd_spec in En as [m ->].
    Z.to_euclidean_division_equations; lia.
  - unfold new_even. rewrite root_nibble_height, assert_true, obind_Ok by (apply Z.leb_le; change (64 / 2) with 32; lia).
    rewrite obind_Ok. repeat f_equal. rewrite <- Z.negb_even in En. apply negb_false_iff in En.
    apply Z.even_spec in En as [m ->]. rewrite Hl. Z.to_euclidean_division_equations; lia.
Qed.

(** Only the encodings of well-formed keys decode. *)
Lemma NodeKey_encode_decode val k : Forall byte_ok val -> NodeKey_decode val = Ok k ->
  key_ok k /\ NodeKey_encode k = val.
Proof.
  intros Hval. unfold NodeKey_decode. rewrite read_u64_be_spec.
  destruct (read_exact 8 val) as [[bs rest]| |] eqn:Er; [|done..]. rewrite !obind_Ok.
  apply read_exact_inv in Er as [-> Hlen]. cbn [fst snd].
  apply Forall_app in Hval as [Hbs Hrest]. rewrite read_u8_spec.
  destruct rest as [|n nb]; [done|]. rewrite obind_Ok. apply Forall_cons in Hrest as [Hn Hnb].
  rewrite root_nibble_height. intros Hd. apply bind_Ok in Hd as ([] & Hd1 & Hd).
  apply ensure_Ok, Z.leb_le in Hd1. apply bind_Ok in Hd as ([] & Hd2 & Hd).
  apply ensure_Ok, Z.eqb_eq in Hd2. apply bind_Ok in Hd as (p & Hp & [= <-]).
  unfold byte_ok in Hn.
  assert (Hv : u64_ok (be_value bs)).
  { pose proof (be_value_bounds bs Hbs) as Hv. rewrite Hlen in Hv. exact Hv. }
  enough (Hpath : path_ok p /\ p = mkNibblePath n nb).
  { destruct Hpath as [Hpath ->]. assert (Hk : key_ok (mkNodeKey (be_value bs) (mkNibblePath n nb))) by done.
    split; [done|]. rewrite NodeKey_encode_bytes by done.
    cbn [nk_version nk_nibble_path np_num_nibbles np_bytes]. by rewrite <- Hlen, be_bytes_value. }
  assert (Heq : p = mkNibblePath n nb /\ (Z.odd n = true -> exists b, list.last nb = Some b /\ b mod 16 = 0)).
  { rewrite Zmod_odd in Hp. destruct (Z.odd n) eqn:En; cbn [Z.eqb] in Hp.
    - apply bind_Ok in Hp as (b & Hb & Hp). apply expect_Ok in Hb.
      apply bind_Ok in Hp as ([] & Hpad & Hp). apply ensure_Ok, Z.eqb_eq in Hpad.
      change 15 with (Z.ones 4) in Hpad. rewrite Z.land_ones in Hpad by lia.
      unfold new_odd in Hp. apply bind_Ok in Hp as ([] & _ & Hp). apply bind_Ok in Hp as (b' & _ & Hp).
      apply bind_Ok in Hp as ([] & _ & [= <-]). split; [|intros _; by exists b].
      f_equal. apply Z.odd_spec in En as [m ->].
      Z.to_euclidean_division_equations; lia.
    - unfold new_even in Hp. apply bind_Ok in Hp as ([] & _ & [= <-]). split; [|done].
      f_equal. rewrite <- Z.negb_even in En. apply negb_false_iff, Z.even_spec in En as [m ->].
      Z.to_euclidean_division_equations; lia. }
  destruct Heq as [-> Hpad]. split; [|done]. unfold path_ok.
  cbn [np_num_nibbles np_bytes]. rewrite root_nibble_height. split_and!; [lia|lia|done|done|done].
Qed.

(** ** The order of the encodings *)
Lemma lex_compare_app_same xs ys zs : lex_compare (xs ++ ys) (xs ++ zs) = lex_compare ys zs.
Proof. induction xs as [|x xs IH]; [done|]. cbn. by rewrite Z.compare_refl. Qed.

Lemma lex_compare_be xs ys : length xs = length ys -> Forall byte_ok xs -> Forall byte_ok ys ->
  forall zs ws, lex_compare (xs ++ zs) (ys ++ ws) =
  match be_value xs ?= be_value ys with Eq => lex_compare zs ws | c => c end.
Proof.
  assert (Hcons : forall b bs, be_value (b :: bs) = b * 256 ^ Z.of_nat (length bs) + be_value bs).
  { intros b bs. unfold be_value. cbn [rev]. rewrite <- (length_rev bs). clear.
    induction (rev bs) as [|c l IH]; cbn [app le_value length]; [change (Z.of_nat 0) with 0; lia|].
    rewrite IH, pow256_S. lia. }
  revert ys. induction xs as [|x xs IH]; intros [|y ys] Hl Hx Hy zs ws; try done.
  apply Forall_cons in Hx as [Hx Hxs], Hy as [Hy Hys]. cbn in Hl. injection Hl as Hl.
  cbn [app lex_compare]. rewrite !Hcons, Hl.
  pose proof (be_value_bounds xs Hxs) as Bx. pose proof (be_value_bounds ys Hys) as By.
  rewrite Hl in Bx. set (p := 256 ^ Z.of_nat (length ys)) in *.
  destruct (x ?= y) eqn:E.
  - apply Z.compare_eq in E. subst y. rewrite IH by done. by rewrite Zcompare_plus_compat.
  - change (x < y) in E. assert (Hlt : x * p + be_value xs < y * p + be_value ys) by nia.
    by rewrite Hlt.
  - apply Z.compare_gt_iff in E. assert (Hlt : y * p + be_value ys < x * p + be_value xs) by nia.
    apply Z.compare_gt_iff in Hlt. by rewrite Hlt.
Qed.

Lemma NodeKey_encode_order a b : key_ok a -> key_ok b ->
  lex_compare (NodeKey_encode a) (NodeKey_encode b) = NodeKey_compare a b.
Proof.
  intros Ha Hb. rewrite !NodeKey_encode_bytes by done. destruct Ha as [Va Pa], Hb as [Vb Pb].
  rewrite lex_compare_be by (rewrite ?be_bytes_length; done || apply be_bytes_ok).
  rewrite !be_value_bytes by done. unfold NodeKey_compare. done.
Qed.
End NodeKeys.

(** ** Lookup in sorted children *)
Definition sorted_by {A} (f : A -> Z) (l : list A) : Prop := StronglySorted Z.lt (map f l).

Lemma sorted_by_cons {A} (f : A -> Z) x l :
  sorted_by f (x :: l) <-> sorted_by f l /\ Forall (fun y => f x < f y) l.
Proof.
  unfold sorted_by. cbn. split.
  - intros Hs. apply StronglySorted_inv in Hs as [Hs Hf]. split; [done|]. by rewrite Forall_map in Hf.
  - intros [Hs Hf]. constructor; [done|]. by rewrite Forall_map.
Qed.

Lemma sorted_by_lookup {A} (f : A -> Z) l : sorted_by f l ->
  forall i j x y, l !! i = Some x -> l !! j = Some y -> (i < j)%nat -> f x < f y.
Proof.
  induction l as [|z l IH]; intros Hs i j x y Hi Hj Hij; [done|].
  apply sorted_by_cons in Hs as [Hs Hf]. destruct j as [|j]; [lia|]. cbn in Hj.
  destruct i as [|i]; cbn in Hi.
  - injection Hi as ->. rewrite Forall_lookup in Hf. by apply (Hf j).
  - apply (IH Hs i j x y Hi Hj). lia.
Qed.

Lemma sorted_by_filter {A} (f : A -> Z) (P : A -> Prop) `{!forall x, Decision (P x)} l :
  sorted_by f l -> sorted_by f (filter P l).
Proof.
  induction l as [|x l IH]; intros Hs; [done|]. apply sorted_by_cons in Hs as [Hs Hf].
  rewrite filter_cons. destruct (decide (P x)); [|by apply IH].
  apply sorted_by_cons. split; [by apply IH|]. rewrite Forall_forall in *.
  intros y Hy. apply list_elem_of_filter in Hy as [_ Hy]. by apply Hf.
Qed.

Lemma binary_search_spec {A} (f : A -> Z) (l : list A) b : sorted_by f l ->
  exists r, binary_search_by_key l b f = Ok r /\
    match r with
    | Some i => exists x, l !! i = Some x /\ f x = b
    | None => Forall (fun x => f x <> b) l
    end.
Proof.
  intros Hs.
  assert (G : forall fuel lo hi, (hi - lo <= fuel)%nat -> (hi <= length l)%nat ->
    (forall i x, l !! i = Some x -> f x = b -> (lo <= i < hi)%nat) ->
    exists r, binary_search_loop fuel (fun x => f x ?= b) l lo hi = Ok r /\
    match r with
    | Some i => exists x, l !! i = Some x /\ f x = b
    | None => Forall (fun x => f x <> b) l
    end).
  { induction fuel as [|fuel IH]; intros lo hi Hf Hhi Hin; cbn [binary_search_loop];
      destruct (lo <? hi)%nat eqn:E; [apply Nat.ltb_lt in E|apply Nat.ltb_ge in E|idtac|apply Nat.ltb_ge in E].
    - lia.
    - exists None. split; [done|]. apply Forall_lookup. intros i x Hx Hb. specialize (Hin i x Hx Hb). lia.
    - set (mid := (lo + (hi - lo) / 2)%nat). apply Nat.ltb_lt in E.
      assert (Hmid : (lo <= mid < hi)%nat).
      { unfold mid. pose proof (Nat.div_lt (hi - lo) 2 ltac:(lia) ltac:(lia)). lia. }
      destruct (lookup_lt_is_Some_2 l mid) as [x Hx]; [lia|]. rewrite Hx. cbn [expect]. rewrite obind_Ok.
      destruct (f x ?= b) eqn:Ec.
      + apply Z.compare_eq in Ec. exists (Some mid). eauto.
      + change (f x < b) in Ec. apply IH; [lia|lia|]. intros i y Hy Hb. specialize (Hin i y Hy Hb).
        destruct (le_lt_dec i mid) as [Hle|]; [|lia]. exfalso.
        destruct (decide (i = mid)) as [->|]; [rewrite Hx in Hy; injection Hy as ->; lia|].
        pose proof (sorted_by_lookup f l Hs i mid y x Hy Hx ltac:(lia)). lia.
      + apply Z.compare_gt_iff in Ec. apply IH; [lia|lia|]. intros i y Hy Hb. specialize (Hin i y Hy Hb).
        destruct (le_lt_dec mid i) as [Hle|]; [|lia]. exfalso.
        destruct (decide (i = mid)) as [->|]; [rewrite Hx in Hy; injection Hy as ->; lia|].
        pose proof (sorted_by_lookup f l Hs mid i x y Hx Hy ltac:(lia)). lia.
    - exists None. split; [done|]. apply Forall_lookup. intros i x Hx Hb. specialize (Hin i x Hx Hb). lia. }
  apply G; [lia|lia|]. intros i x Hx _. apply lookup_lt_Some in Hx. lia.
Qed.

(** The child with index [n], by a plain search. *)
Fixpoint assoc {A} (n : Z) (l : list (Z * A)) : option A :=
  match l with
  | [] => None
  | (i, a) :: l => if i =? n then Some a else assoc n l
  end.

Lemma assoc_elem_of {A} n (l : list (Z * A)) a : assoc n l = Some a -> (n, a) ∈ l.
Proof.
  induction l as [|[i c] l IH]; [done|]. cbn. destruct (i =? n) eqn:E.
  - apply Z.eqb_eq in E. intros [= ->]. subst. left.
  - intros Ha. right. by apply IH.
Qed.

Lemma assoc_sorted {A} n (l : list (Z * A)) a : sorted_by fst l -> (n, a) ∈ l -> assoc n l = Some a.
Proof.
  induction l as [|[i c] l IH]; intros Hs Hin; [by apply not_elem_of_nil in Hin|].
  apply sorted_by_cons in Hs as [Hs Hf]. cbn. apply elem_of_cons in Hin as [[= -> ->]|Hin].
  - by rewrite Z.eqb_refl.
  - rewrite Forall_forall in Hf. specialize (Hf (n, a) Hin). cbn in Hf.
    rewrite (proj2 (Z.eqb_neq _ _)) by lia. by apply IH.
Qed.

Lemma assoc_None {A} n (l : list (Z * A)) : assoc n l = None <-> Forall (fun x => fst x <> n) l.
Proof.
  induction l as [|[i c] l IH]; [done|]. cbn. rewrite Forall_cons. cbn.
  destruct (i =? n) eqn:E; [apply Z.eqb_eq in E|apply Z.eqb_neq in E]; naive_solver.
Qed.

Section ChildrenFacts.
Context {HV : Type}.
Implicit Types (children : list (Z * Child HV)) (c : Child HV).

Lemma Children_get_assoc children n : sorted_by fst children ->
  Children_get children n = Ok (assoc n children).
Proof.
  intros Hs. unfold Children_get.
  destruct (binary_search_spec fst children n Hs) as (r & -> & Hr). rewrite obind_Ok.
  destruct r as [i|].
  - destruct Hr as ([j c] & Hi & Hj). cbn in Hj. subst j. rewrite Hi. cbn [expect]. rewrite obind_Ok.
    cbn [snd]. f_equal. symmetry. apply assoc_sorted; [done|]. by eapply list_elem_of_lookup_2.
  - f_equal. symmetry. by apply assoc_None.
Qed.
End ChildrenFacts.
