(* ===== verification/JellyfishHash.v ===== *)
(** * The hash of an internal node

    The 16-bit bitmaps of an internal node are the sets of its children and of its
    leaf children; with them [merkle_hash] and [get_child_with_siblings] compute on
    the four-level binary tree over the list of children. *)
From stdpp Require Import base list numbers strings option gmap sorting.
From Stdlib Require Import ZArith Lia Bool Sorted.
From S2P Require Import Prelude Hash SparseMerkleProof NibblePath NibblePathFacts ByteCodec JellyfishNode JellyfishNodeFacts.

(** ** Sets of indices as words *)
Definition bitmap (l : list Z) : Z := foldr (fun i m => Z.lor (2 ^ i) m) 0 l.

Lemma testbit_bitmap l j : Forall (fun i => 0 <= i) l -> 0 <= j ->
  Z.testbit (bitmap l) j = bool_decide (j ∈ l).
Proof.
  intros Hf Hj. induction Hf as [|i l Hi _ IH]; cbn [bitmap foldr].
  - rewrite Z.testbit_0_l, bool_decide_false; [done|]. apply not_elem_of_nil.
  - fold (bitmap l). rewrite Z.lor_spec, IH, Z.pow2_bits_eqb by done.
    apply eq_true_iff_eq. rewrite orb_true_iff, Z.eqb_eq, !bool_decide_eq_true, elem_of_cons. naive_solver.
Qed.

Lemma bitmap_ext l m : Forall (fun i => 0 <= i) l -> Forall (fun i => 0 <= i) m ->
  (forall j, j ∈ l <-> j ∈ m) -> bitmap l = bitmap m.
Proof.
  intros Hl Hm E. apply Z.bits_inj'. intros j Hj. rewrite !testbit_bitmap by done.
  apply bool_decide_ext, E.
Qed.

Lemma bitmap_nonneg l : Forall (fun i => 0 <= i) l -> 0 <= bitmap l.
Proof.
  induction 1 as [|i l Hi _ IH]; [done|]. cbn [bitmap foldr]. fold (bitmap l).
  apply Z.lor_nonneg. split; [lia|done].
Qed.

Lemma bitmap_lor l m : bitmap (l ++ m) = Z.lor (bitmap l) (bitmap m).
Proof.
  induction l as [|i l IH]; [done|]. cbn [app bitmap foldr]. fold (bitmap l) (bitmap (l ++ m)).
  by rewrite IH, Z.lor_assoc.
Qed.

(** The least index of a sorted list, and the rest. *)
Lemma bitmap_sorted_cons i l : 0 <= i -> StronglySorted Z.lt (i :: l) ->
  exists q, 0 <= q /\ bitmap l = q * 2 ^ (i + 1) /\ bitmap (i :: l) = (2 * q + 1) * 2 ^ i.
Proof.
  intros Hi Hs. apply StronglySorted_inv in Hs as [Hs Hf].
  assert (H0 : Forall (fun j => 0 <= j) l) by (eapply Forall_impl; [exact Hf|cbn; lia]).
  pose proof (bitmap_nonneg l H0) as Hn.
  assert (E : bitmap l = (bitmap l / 2 ^ (i + 1)) * 2 ^ (i + 1)).
  { apply Z.bits_inj'. intros j Hj. rewrite <- Z.shiftr_div_pow2 by lia.
    rewrite Z.mul_pow2_bits by lia. rewrite testbit_bitmap by done.
    destruct (Z.lt_ge_cases j (i + 1)).
    - rewrite Z.testbit_neg_r by lia. apply bool_decide_false. intros Hin.
      rewrite Forall_forall in Hf. apply Hf in Hin. lia.
    - rewrite Z.shiftr_spec by lia. rewrite Z.sub_add, testbit_bitmap by done. done. }
  exists (bitmap l / 2 ^ (i + 1)). split; [apply Z.div_pos; lia|]. split; [done|].
  cbn [bitmap foldr]. fold (bitmap l). rewrite E at 1.
  assert (2 ^ (i + 1) = 2 * 2 ^ i) by (rewrite Z.pow_add_r by lia; lia).
  rewrite lor_disjoint_shift by lia.
  rewrite Z.pow_add_r by lia. lia.
Qed.

Lemma trailing_zeros_bitmap w i l : 0 <= i -> StronglySorted Z.lt (i :: l) ->
  trailing_zeros w (bitmap (i :: l)) = i.
Proof.
  intros Hi Hs. destruct (bitmap_sorted_cons i l Hi Hs) as (q & Hq & _ & ->).
  replace (2 ^ i) with (pow2 (Z.to_nat i)) by (unfold pow2; rewrite Z2Nat.id; lia).
  rewrite trailing_zeros_spec by done. lia.
Qed.

Lemma count_ones_bitmap l : Forall (fun i => 0 <= i) l -> StronglySorted Z.lt l ->
  count_ones (bitmap l) = Z.of_nat (length l).
Proof.
  induction l as [|i l IH]; intros Hf Hs; [done|]. apply Forall_cons in Hf as [Hi Hf].
  destruct (bitmap_sorted_cons i l Hi Hs) as (q & Hq & El & ->).
  apply StronglySorted_inv in Hs as [Hs _]. specialize (IH Hf Hs). rewrite El in IH.
  replace (2 ^ (i + 1)) with (pow2 (Z.to_nat (i + 1))) in IH by (unfold pow2; rewrite Z2Nat.id; lia).
  replace (2 ^ i) with (pow2 (Z.to_nat i)) by (unfold pow2; rewrite Z2Nat.id; lia).
  rewrite count_ones_mul_pow2 in *. rewrite count_ones_succ_double by done. cbn [length]. lia.
Qed.

Lemma bitmap_eq0 l : Forall (fun i => 0 <= i) l -> (bitmap l =? 0) = bool_decide (l = []).
Proof.
  intros Hf. destruct l as [|i l]; [done|]. rewrite bool_decide_false by done. apply Z.eqb_neq.
  intros E. apply Forall_cons in Hf as [Hi Hf].
  assert (Hb : Z.testbit (bitmap (i :: l)) i = true).
  { rewrite testbit_bitmap by (by constructor || done). apply bool_decide_true. left. }
  by rewrite E, Z.testbit_0_l in Hb.
Qed.

Lemma bitmap_bound l n : 0 <= n -> Forall (fun i => 0 <= i < n) l -> 0 <= bitmap l < 2 ^ n.
Proof.
  intros Hn Hf. assert (H0 : Forall (fun i => 0 <= i) l) by (eapply Forall_impl; [exact Hf|cbn; lia]).
  assert (E : bitmap l = Z.land (bitmap l) (Z.ones n)).
  { apply Z.bits_inj'. intros j Hj. rewrite Z.land_spec, testbit_bitmap by done.
    destruct (Z.lt_ge_cases j n).
    - by rewrite Z.ones_spec_low, andb_true_r by lia.
    - rewrite Z.ones_spec_high, andb_false_r by lia. apply bool_decide_false. intros Hin.
      rewrite Forall_forall in Hf. apply Hf in Hin. lia. }
  rewrite E, Z.land_ones by done. apply Z.mod_pos_bound. lia.
Qed.

(** The mask of an aligned range cuts the set to the range. *)
Lemma range_bitmaps_bitmap s (k : nat) l m : (k <= 4)%nat -> 0 <= s -> s mod 2 ^ Z.of_nat k = 0 ->
  s + 2 ^ Z.of_nat k <= 16 -> Forall (fun i => 0 <= i) l -> Forall (fun i => 0 <= i) m ->
  range_bitmaps s (2 ^ Z.of_nat k) (bitmap l, bitmap m) =
  Ok (bitmap (filter (fun i => s <= i < s + 2 ^ Z.of_nat k) l),
      bitmap (filter (fun i => s <= i < s + 2 ^ Z.of_nat k) m)).
Proof.
  intros Hk Hs Hmod Hb Hl Hm. unfold range_bitmaps.
  assert (Hc : count_ones (2 ^ Z.of_nat k) = 1).
  { rewrite <- (Z.mul_1_l (2 ^ _)). change (2 ^ Z.of_nat k) with (pow2 k). by rewrite count_ones_mul_pow2. }
  set (w := 2 ^ Z.of_nat k) in *. assert (Hw : 0 < w) by (subst w; lia).
  rewrite Hc, Hmod. rewrite (proj2 (Z.ltb_lt s 16)) by lia. cbn [Z.eqb andb].
  rewrite (proj2 (Z.leb_le w 16)), (proj2 (Z.leb_le (s + w) 16)) by lia. cbn [andb assert].
  rewrite !obind_Ok. cbn [fst snd].
  assert (Hmask : forall l, Forall (fun i => 0 <= i) l ->
    Z.land (bitmap l) (Z.shiftl (Z.shiftl 1 w - 1) s mod 65536) =
    bitmap (filter (fun i => s <= i < s + w) l)).
  { clear -Hs Hb Hw. intros l Hl. rewrite Z.shiftl_1_l.
    replace (2 ^ w - 1) with (Z.ones w) by (rewrite Z.ones_equiv; lia).
    apply Z.bits_inj'. intros j Hj. rewrite Z.land_spec, !testbit_bitmap;
      [|apply Forall_forall; intros i Hi; apply list_elem_of_filter in Hi as [? _]; lia|done..].
    assert (Ef : bool_decide (j ∈ filter (fun i => s <= i < s + w) l) =
                 bool_decide (j ∈ l) && bool_decide (s <= j < s + w)).
    { rewrite <- bool_decide_and. apply bool_decide_ext. rewrite list_elem_of_filter. tauto. }
    rewrite Ef. f_equal. change 65536 with (2 ^ 16).
    destruct (Z.lt_ge_cases j 16) as [Hlt|Hge].
    - rewrite Z.mod_pow2_bits_low, Z.shiftl_spec by lia. destruct (Z.lt_ge_cases j s).
      + rewrite Z.testbit_neg_r by lia. symmetry. apply bool_decide_false. lia.
      + destruct (Z.lt_ge_cases j (s + w)).
        * rewrite Z.ones_spec_low by lia. symmetry. apply bool_decide_true. lia.
        * rewrite Z.ones_spec_high by lia. symmetry. apply bool_decide_false. lia.
    - rewrite Z.mod_pow2_bits_high by lia. symmetry. apply bool_decide_false. lia. }
  by rewrite !Hmask.
Qed.

(** ** Children of a node *)
Definition idx {A} (cs : list (Z * A)) : list Z := map fst cs.

Lemma idx_filter {A} (P : Z * A -> Prop) (Q : Z -> Prop) `{!forall x, Decision (P x)}
    `{!forall i, Decision (Q i)} (cs : list (Z * A)) : (forall x, P x <-> Q (fst x)) ->
  idx (filter P cs) = filter Q (idx cs).
Proof.
  intros E. induction cs as [|x cs IH]; [done|]. unfold idx in *. cbn [map]. rewrite !filter_cons.
  specialize (E x). destruct (decide (P x)), (decide (Q (fst x))); cbn [map]; rewrite ?IH; tauto.
Qed.

Section NodeHash.
Context {HV : Type} `{HashValueOps HV} `{HashValueBits HV} `{CryptoHasher HV} `{LeafHasher HV}.
Implicit Types (cs : list (Z * Child HV)) (c : Child HV) (node : InternalNode HV).

Definition children_ok cs : Prop := sorted_by fst cs /\ Forall (fun x => nibble_ok (fst x)) cs.

Definition leaves_of cs : list (Z * Child HV) := filter (fun x => Child_is_leaf (snd x) = true) cs.

Definition bitmaps_of cs : Z * Z := (bitmap (idx cs), bitmap (idx (leaves_of cs))).

Lemma idx_nonneg cs : Forall (fun x => nibble_ok (fst x)) cs -> Forall (fun i => 0 <= i) (idx cs).
Proof. intros Hf. apply Forall_map. eapply Forall_impl; [exact Hf|]. unfold nibble_ok. cbn. lia. Qed.

Lemma filter_nibble_ok (P : Z * Child HV -> Prop) `{!forall x, Decision (P x)} cs :
  Forall (fun x => nibble_ok (fst x)) cs -> Forall (fun x => nibble_ok (fst x)) (filter P cs).
Proof.
  rewrite !Forall_forall. intros Hf x Hx. apply list_elem_of_filter in Hx as [_ Hx]. by apply Hf.
Qed.

Lemma children_ok_filter (P : Z * Child HV -> Prop) `{!forall x, Decision (P x)} cs :
  children_ok cs -> children_ok (filter P cs).
Proof. intros [Hs Hf]. split; [by apply sorted_by_filter|by apply filter_nibble_ok]. Qed.

Lemma bitmaps_loop_spec cs : Forall (fun x => nibble_ok (fst x)) cs -> forall e f,
  bitmaps_loop e f cs = Ok (Z.lor e (fst (bitmaps_of cs)), Z.lor f (snd (bitmaps_of cs))).
Proof.
  induction 1 as [|[i c] cs Hi _ IH]; intros e f; cbn [bitmaps_loop].
  - cbn. by rewrite !Z.lor_0_r.
  - unfold nibble_ok in Hi. cbn in Hi. unfold bit16. rewrite (proj2 (Z.ltb_lt i 16)) by lia.
    rewrite obind_Ok, IH, Z.shiftl_1_l. unfold bitmaps_of, leaves_of. rewrite filter_cons.
    cbn [fst snd]. change (bitmap (idx ((i, c) :: cs))) with (Z.lor (2 ^ i) (bitmap (idx cs))).
    rewrite Z.lor_assoc. set (ls := filter _ cs).
    destruct (Child_is_leaf c); [rewrite decide_True by done|rewrite decide_False by done]; [|done].
    change (bitmap (idx ((i, c) :: ls))) with (Z.lor (2 ^ i) (bitmap (idx ls))).
    by rewrite Z.lor_assoc.
Qed.

Lemma generate_bitmaps_spec node : Forall (fun x => nibble_ok (fst x)) (in_children node) ->
  generate_bitmaps node = Ok (bitmaps_of (in_children node)).
Proof.
  intros Hf. unfold generate_bitmaps. rewrite bitmaps_loop_spec, obind_Ok by done.
  rewrite !Z.lor_0_l. rewrite assert_true, obind_Ok; [done|]. apply Z.eqb_eq.
  unfold bitmaps_of. cbn [fst snd]. rewrite <- bitmap_lor. apply bitmap_ext.
  - apply Forall_app. split; apply idx_nonneg; [done|by apply filter_nibble_ok].
  - by apply idx_nonneg.
  - intros j. rewrite elem_of_app. split; [|by left]. intros [?|Hj]; [done|].
    unfold idx in *. apply list_elem_of_fmap in Hj as (x & -> & Hx). apply list_elem_of_filter in Hx as [_ Hx].
    by apply (list_elem_of_fmap_2 fst).
Qed.

(** The children with an index in [s, s + 2^k). *)
Definition rng (s : Z) (k : nat) cs : list (Z * Child HV) :=
  filter (fun x => s <= fst x < s + 2 ^ Z.of_nat k) cs.

Lemma idx_rng s k cs : idx (rng s k cs) = filter (fun i => s <= i < s + 2 ^ Z.of_nat k) (idx cs).
Proof. by apply idx_filter. Qed.

Lemma leaves_of_rng s k cs : leaves_of (rng s k cs) = rng s k (leaves_of cs).
Proof.
  unfold leaves_of, rng. rewrite !list_filter_filter. apply list_filter_iff. intros x. tauto.
Qed.

Definition aligned (s : Z) (k : nat) : Prop :=
  (k <= 4)%nat /\ 0 <= s /\ s mod 2 ^ Z.of_nat k = 0 /\ s + 2 ^ Z.of_nat k <= 16.

Lemma range_bitmaps_spec s k cs : aligned s k -> Forall (fun x => nibble_ok (fst x)) cs ->
  range_bitmaps s (2 ^ Z.of_nat k) (bitmaps_of cs) = Ok (bitmaps_of (rng s k cs)).
Proof.
  intros (Hk & Hs & Hm & Hb) Hf. unfold bitmaps_of.
  rewrite range_bitmaps_bitmap by (done || apply idx_nonneg; done || by apply filter_nibble_ok).
  by rewrite leaves_of_rng, !idx_rng.
Qed.

(** The rule that replaces a subtree by its only leaf. *)
Definition single_leaf cs : bool :=
  match cs with [(_, c)] => Child_is_leaf c | _ => false end.

Lemma only_one_child_spec k cs : children_ok cs ->
  only_one_child (2 ^ Z.of_nat k) (fst (bitmaps_of cs)) (snd (bitmaps_of cs)) =
  (k =? 0)%nat || single_leaf cs.
Proof.
  intros [Hs Hf]. unfold only_one_child, bitmaps_of. cbn [fst snd]. f_equal.
  - destruct k as [|k]; [done|]. apply Z.eqb_neq. rewrite Nat2Z.inj_succ, Z.pow_succ_r by lia. lia.
  - rewrite count_ones_bitmap by (by apply idx_nonneg || exact Hs).
    rewrite bitmap_eq0 by (by apply idx_nonneg, filter_nibble_ok).
    unfold idx. rewrite length_map. destruct cs as [|[i c] [|y cs]]; cbn [length single_leaf].
    + done.
    + unfold leaves_of. rewrite filter_cons. cbn [snd].
      destruct (Child_is_leaf c); [rewrite decide_True by done|rewrite decide_False by done]; done.
    + rewrite (proj2 (Z.eqb_neq _ _)) by lia. done.
Qed.

Lemma only_child_spec node i c cs : children_ok ((i, c) :: cs) -> children_ok (in_children node) ->
  (i, c) ∈ in_children node -> only_child_of node (fst (bitmaps_of ((i, c) :: cs))) = Ok (i, c).
Proof.
  intros [Hs Hf] [Hsn Hfn] Hin. unfold only_child_of, bitmaps_of. cbn [fst idx map].
  apply Forall_cons in Hf as [Hi _]. cbn in Hi.
  rewrite trailing_zeros_bitmap; [|unfold nibble_ok in Hi; lia|exact Hs].
  rewrite nibble_from_u8_Ok, obind_Ok by done. unfold InternalNode_child.
  rewrite Children_get_assoc, obind_Ok by done. by rewrite (assoc_sorted i _ c).
Qed.

(** ** The four-level tree over the children *)

(** The half of a subtree of height [S k] on one side. *)
Definition half (k : nat) (b : bool) cs : list (Z * Child HV) :=
  filter (fun x => Z.testbit (fst x) (Z.of_nat k) = b) cs.

Fixpoint rhash (k : nat) cs : HV :=
  match cs with
  | [] => SPARSE_MERKLE_PLACEHOLDER_HASH
  | (_, c) :: _ =>
      if single_leaf cs then child_hash c
      else
        match k with
        | O => child_hash c
        | S k => hash_node (rhash k (half k false cs)) (rhash k (half k true cs))
        end
  end.

Lemma aligned_half s k b : aligned s (S k) -> aligned (s + if b : bool then 2 ^ Z.of_nat k else 0) k.
Proof.
  unfold aligned. rewrite Nat2Z.inj_succ, Z.pow_succ_r by lia. intros (Hk & Hs & Hm & Hb).
  assert (0 < 2 ^ Z.of_nat k) by lia.
  assert (Hm' : s mod 2 ^ Z.of_nat k = 0).
  { apply Z.mod_divide in Hm as [q ->]; [|lia]. apply Z.mod_divide; [lia|]. exists (q * 2). lia. }
  destruct b; split_and!; try lia.
  - rewrite <- Zplus_mod_idemp_r, Z.mod_same, Z.add_0_r by lia. done.
  - by rewrite Z.add_0_r.
Qed.

(** The halves of an aligned range are told apart by a bit. *)
Lemma testbit_range s k i : aligned s (S k) -> s <= i < s + 2 ^ Z.of_nat (S k) ->
  Z.testbit i (Z.of_nat k) = negb (i <? s + 2 ^ Z.of_nat k).
Proof.
  intros (Hk & Hs & Hm & Hb) Hi. rewrite Nat2Z.inj_succ, Z.pow_succ_r in * by lia.
  assert (Hp : 0 < 2 ^ Z.of_nat k) by lia.
  apply Z.mod_divide in Hm as [q ->]; [|lia].
  apply eq_true_iff_eq. rewrite negb_true_iff, Z.ltb_ge.
  rewrite Z.testbit_true by lia.
  set (p := 2 ^ Z.of_nat k) in *. destruct (Z.lt_ge_cases i (q * (2 * p) + p)) as [Hlt|Hge].
  - replace (i / p) with (q * 2) by (apply Z.div_unique_pos with (i - 2 * q * p); lia).
    rewrite Z.mod_mul by lia. lia.
  - replace (i / p) with (1 + q * 2) by (apply Z.div_unique_pos with (i - (2 * q + 1) * p); lia).
    rewrite Z.mod_add by lia. change (1 mod 2) with 1. lia.
Qed.

Lemma rng_half s k b cs : aligned s (S k) ->
  rng (s + if b : bool then 2 ^ Z.of_nat k else 0) k (rng s (S k) cs) = half k b (rng s (S k) cs).
Proof.
  intros Ha. unfold rng, half. rewrite !list_filter_filter. apply list_filter_iff. intros [i c]. cbn [fst].
  split; intros [Hx1 Hx2]; (split; [|done]).
  - rewrite (testbit_range s k i) by done. destruct b.
    + rewrite (proj2 (Z.ltb_ge _ _)) by lia. done.
    + rewrite (proj2 (Z.ltb_lt _ _)) by lia. done.
  - rewrite (testbit_range s k i) in Hx1 by done. rewrite Nat2Z.inj_succ, Z.pow_succ_r in Hx2 by lia.
    destruct b; [apply negb_true_iff, Z.ltb_ge in Hx1|apply negb_false_iff, Z.ltb_lt in Hx1]; lia.
Qed.

Lemma rng_rng s k cs : rng s k (rng s k cs) = rng s k cs.
Proof. unfold rng. rewrite list_filter_filter. apply list_filter_iff. tauto. Qed.

(** The three cases of a range: empty, replaced by a child, or split. *)
Lemma range_empty cs : children_ok cs -> (fst (bitmaps_of cs) =? 0) = bool_decide (cs = []).
Proof.
  intros Hcs. unfold bitmaps_of. cbn [fst]. rewrite bitmap_eq0 by (apply idx_nonneg, Hcs).
  apply bool_decide_ext. by destruct cs.
Qed.

Lemma rng_sub s k cs : rng s k cs ⊆ cs.
Proof. intros x Hx. by apply list_elem_of_filter in Hx as [_ ?]. Qed.

(** [merkle_hash] on the bitmaps of [cs], a part of the children of [node]. *)
Lemma merkle_hash_spec node : children_ok (in_children node) -> forall k fuel s cs,
  (k <= fuel)%nat -> aligned s k -> children_ok cs -> cs ⊆ in_children node ->
  merkle_hash fuel node s (2 ^ Z.of_nat k) (bitmaps_of cs) = Ok (rhash k (rng s k cs)).
Proof.
  intros Hn k. induction k as [|k IH]; intros fuel s cs Hk Ha Hcs Hsub.
  - assert (Hr : children_ok (rng s 0 cs)) by (by apply children_ok_filter).
    pose proof (rng_sub s 0 cs) as Hrs.
    destruct fuel; cbn [merkle_hash]; rewrite range_bitmaps_spec, obind_Ok by (done || apply Hcs);
      rewrite (surjective_pairing (bitmaps_of (rng s 0 cs))), range_empty, only_one_child_spec by done;
      cbn [Nat.eqb orb];
      (destruct (rng s 0 cs) as [|[i c] r]; [done|]);
      rewrite bool_decide_false by done; rewrite only_child_spec, obind_Ok by (done || set_solver);
      cbn [rhash snd]; by destruct (single_leaf _).
  - destruct fuel as [|fuel]; [lia|]. cbn [merkle_hash].
    rewrite range_bitmaps_spec, obind_Ok by (done || apply Hcs).
    assert (Hr : children_ok (rng s (S k) cs)) by (by apply children_ok_filter).
    pose proof (rng_sub s (S k) cs) as Hrs.
    rewrite (surjective_pairing (bitmaps_of (rng s (S k) cs))), range_empty, only_one_child_spec by done.
    cbn [Nat.eqb orb]. rewrite <- surjective_pairing.
    assert (Hhalf : forall b : bool, merkle_hash fuel node (s + if b then 2 ^ Z.of_nat k else 0)
      (2 ^ Z.of_nat k) (bitmaps_of (rng s (S k) cs)) = Ok (rhash k (half k b (rng s (S k) cs)))).
    { intros b. rewrite IH; [by rewrite rng_half|lia|by apply aligned_half|done|set_solver]. }
    replace (2 ^ Z.of_nat (S k) / 2) with (2 ^ Z.of_nat k)
      by (rewrite Nat2Z.inj_succ, Z.pow_succ_r, Z.mul_comm, Z.div_mul by lia; done).
    pose proof (Hhalf false) as Hl. rewrite Z.add_0_r in Hl. rewrite Hl, (Hhalf true).
    destruct (rng s (S k) cs) as [|[i c] r] eqn:Er; [done|]. rewrite bool_decide_false by done.
    cbn [rhash]. destruct (single_leaf _); [|done].
    by rewrite only_child_spec, obind_Ok by (done || set_solver).
Qed.

Lemma rng_all cs : Forall (fun x => nibble_ok (fst x)) cs -> rng 0 4 cs = cs.
Proof.
  induction 1 as [|[i c] cs Hi _ IH]; [done|]. unfold rng in *. rewrite filter_cons, IH.
  unfold nibble_ok in Hi. cbn [fst] in *. by rewrite decide_True by (change (2 ^ Z.of_nat 4) with 16; lia).
Qed.

Lemma aligned_top : aligned 0 4.
Proof. unfold aligned. change (2 ^ Z.of_nat 4) with 16. split_and!; done || lia. Qed.

Lemma InternalNode_hash_spec node : children_ok (in_children node) ->
  InternalNode_hash node = Ok (rhash 4 (in_children node)).
Proof.
  intros Hn. unfold InternalNode_hash. rewrite generate_bitmaps_spec, obind_Ok by apply Hn.
  change 16 with (2 ^ Z.of_nat 4).
  rewrite merkle_hash_spec; [|done|lia|apply aligned_top|done|done]. by rewrite rng_all by apply Hn.
Qed.

(** ** Siblings *)

(** The start of the subtree of height [k] above nibble [n]. *)
Definition start_of (n : Z) (k : nat) : Z := n / 2 ^ Z.of_nat k * 2 ^ Z.of_nat k.

Lemma aligned_start n k : nibble_ok n -> (k <= 4)%nat -> aligned (start_of n k) k.
Proof.
  intros Hn Hk. unfold aligned, start_of, nibble_ok in *. set (p := 2 ^ Z.of_nat k).
  assert (Hp : 0 < p <= 16).
  { subst p. split; [lia|]. change 16 with (2 ^ 4). apply Z.pow_le_mono_r; lia. }
  assert (Hd : (p | 16)).
  { exists (2 ^ (4 - Z.of_nat k)). subst p. rewrite <- Z.pow_add_r by lia. by replace (4 - Z.of_nat k + Z.of_nat k) with 4 by lia. }
  split_and!; [done|pose proof (Z.div_pos n p); nia|apply Z.mod_mul; lia|].
  destruct Hd as [q Hq]. assert (n / p < q) by (apply Z.div_lt_upper_bound; lia). nia.
Qed.

Lemma half_starts n (k : nat) : nibble_ok n -> (k <= 3)%nat ->
  let b := Z.testbit n (Z.of_nat k) in
  get_child_and_sibling_half_start n (Z.of_nat k) =
  (start_of n k, start_of n (S k) + if b then 0 else 2 ^ Z.of_nat k) /\
  start_of n k = start_of n (S k) + if b then 2 ^ Z.of_nat k else 0.
Proof.
  intros Hn Hk.
  assert (Hall : forallb (fun n => forallb (fun k =>
    let b := Z.testbit n (Z.of_nat k) in
    bool_decide (get_child_and_sibling_half_start n (Z.of_nat k) =
      (start_of n k, start_of n (S k) + if b then 0 else 2 ^ Z.of_nat k)) &&
    (start_of n k =? start_of n (S k) + if b then 2 ^ Z.of_nat k else 0)) (seq 0 4)) (seqZ 0 16) = true)
    by (vm_compute; reflexivity).
  rewrite forallb_forall in Hall. specialize (Hall n). rewrite forallb_forall in Hall.
  assert (Hin : In n (seqZ 0 16)) by (apply list_elem_of_In, elem_of_seqZ; unfold nibble_ok in Hn; lia).
  specialize (Hall Hin k ltac:(apply in_seq; lia)). cbv zeta in *.
  apply andb_true_iff in Hall as [E1 E2]. apply bool_decide_eq_true in E1. apply Z.eqb_eq in E2. done.
Qed.

(** The siblings on the way to nibble [n], each with its height, and the child where
    the way ends. *)
Fixpoint rpath (k : nat) (n : Z) cs : list (nat * list (Z * Child HV)) * option (Z * Child HV) :=
  match k with
  | O => ([], None)
  | S k =>
      let b := Z.testbit n (Z.of_nat k) in
      let sib := half k (negb b) cs in
      match half k b cs with
      | [] => ([(k, sib)], None)
      | x :: rest =>
          if (k =? 0)%nat || single_leaf (x :: rest) then ([(k, sib)], Some x)
          else let '(sibs, r) := rpath k n (x :: rest) in ((k, sib) :: sibs, r)
      end
  end.

Context {K : Type}.

(** The leaf children of a node are in storage, with their hashes. *)
Definition leaves_stored (reader : TreeReader HV K) (node_key : NodeKey) cs : Prop :=
  forall i c, (i, c) ∈ cs -> Child_is_leaf c = true ->
  exists key leaf, gen_child_node_key node_key (child_version c) i = Ok key /\
    get_node_with_tag reader key "get_proof" = Ok (Node_Leaf leaf) /\ LeafNode_hash leaf = child_hash c.

Lemma gen_node_in_proof_spec node reader node_key : children_ok (in_children node) ->
  leaves_stored reader node_key (in_children node) -> forall k s,
  (k <= 4)%nat -> aligned s k ->
  exists np, gen_node_in_proof node s (2 ^ Z.of_nat k) (bitmaps_of (in_children node)) reader node_key = Ok np /\
    NodeInProof_hash np = rhash k (rng s k (in_children node)).
Proof.
  intros Hn Hl k s Hk Ha. unfold gen_node_in_proof.
  rewrite range_bitmaps_spec, obind_Ok by (done || apply Hn).
  assert (Hr : children_ok (rng s k (in_children node))) by (by apply children_ok_filter).
  pose proof (rng_sub s k (in_children node)) as Hrs. set (r := rng s k (in_children node)) in *.
  rewrite (surjective_pairing (bitmaps_of r)), range_empty, only_one_child_spec by done.
  rewrite <- surjective_pairing.
  destruct (decide (r = [])) as [->|Hne]; [rewrite bool_decide_true by done; eexists; by split; [|destruct k]|].
  rewrite bool_decide_false by done.
  destruct ((k =? 0)%nat || single_leaf r) eqn:E.
  - destruct r as [|[i c] r'] eqn:Er; [done|].
    assert (Hin : (i, c) ∈ in_children node) by (apply Hrs; left).
    rewrite only_child_spec, obind_Ok by done.
    assert (Eh : rhash k ((i, c) :: r') = child_hash c).
    { destruct k; cbn [rhash]; [by destruct (single_leaf _)|]. cbn [Nat.eqb orb] in E. by rewrite E. }
    rewrite Eh. destruct (child_node_type c) eqn:Et.
    + destruct (Hl i c Hin) as (key & leaf & -> & Hg & Hh); [unfold Child_is_leaf; by rewrite Et|].
      rewrite obind_Ok, Hg, obind_Ok. eexists. split; [done|]. cbn [NodeInProof_hash]. by rewrite <- Hh.
    + eexists. by split.
    + eexists. by split.
  - apply orb_false_iff in E as [E0 E1]. destruct k as [|k]; [done|].
    assert (Hhalf : forall b : bool, merkle_hash 3 node (s + if b then 2 ^ Z.of_nat k else 0)
      (2 ^ Z.of_nat k) (bitmaps_of r) = Ok (rhash k (half k b r))).
    { intros b. rewrite merkle_hash_spec; [by subst r; rewrite rng_half|done|lia|by apply aligned_half|done|done]. }
    replace (2 ^ Z.of_nat (S k) / 2) with (2 ^ Z.of_nat k)
      by (rewrite Nat2Z.inj_succ, Z.pow_succ_r, Z.mul_comm, Z.div_mul by lia; done).
    pose proof (Hhalf false) as Hlh. rewrite Z.add_0_r in Hlh. rewrite Hlh, obind_Ok, (Hhalf true), obind_Ok.
    eexists. split; [done|]. cbn [NodeInProof_hash]. destruct r as [|[i c] r']; [done|].
    cbn [rhash]. by rewrite E1.
Qed.

(** The key of a child below the node with path [p]. *)
Definition child_key (p : list Z) (x : Z * Child HV) : NodeKey :=
  mkNodeKey (child_version (snd x)) (pack (p ++ [fst x])).

Lemma gen_child_node_key_pack v p w i : Forall nibble_ok p -> (length p < 64)%nat -> nibble_ok i ->
  gen_child_node_key (mkNodeKey v (pack p)) w i = Ok (mkNodeKey w (pack (p ++ [i]))).
Proof.
  intros Hp Hl Hi. unfold gen_child_node_key. cbn [nk_nibble_path].
  by rewrite push_pack, obind_Ok by done.
Qed.

Definition reader_stored (reader : option (TreeReader HV K)) (node_key : NodeKey) cs : Prop :=
  match reader with Some r => leaves_stored r node_key cs | None => True end.

(** The sibling at one height. *)
Lemma sibling_step node reader node_key k s : children_ok (in_children node) ->
  reader_stored reader node_key (in_children node) -> (k <= 4)%nat -> aligned s k ->
  exists np,
    match reader with
    | Some reader => gen_node_in_proof node s (2 ^ Z.of_nat k) (bitmaps_of (in_children node)) reader node_key
    | None => h ← merkle_hash 4 node s (2 ^ Z.of_nat k) (bitmaps_of (in_children node)); Ok (NodeInProof_Other h)
    end = Ok np /\ NodeInProof_hash np = rhash k (rng s k (in_children node)).
Proof.
  intros Hn Hr Hk Ha. destruct reader as [reader|]; [by apply gen_node_in_proof_spec|].
  rewrite merkle_hash_spec, obind_Ok by done. eexists. by split.
Qed.

Lemma child_with_siblings_loop_spec node reader v p n target : children_ok (in_children node) ->
  reader_stored reader (mkNodeKey v (pack p)) (in_children node) ->
  Forall nibble_ok p -> (length p < 64)%nat -> nibble_ok n ->
  forall k root_depth out, (1 <= k <= 4)%nat ->
  let cur := rng (start_of n k) k (in_children node) in
  exists nps,
    child_with_siblings_loop (map Z.of_nat (rev (seq 0 k))) node (mkNodeKey v (pack p)) n reader out
      root_depth target (bitmaps_of (in_children node)) =
    Ok (option_map (child_key p) (snd (rpath k n cur)), out ++ nps) /\
    map NodeInProof_hash nps =
    drop (Z.to_nat (target - (root_depth + 4 - Z.of_nat k)))
      (map (fun x => rhash (fst x) (snd x)) (fst (rpath k n cur))).
Proof.
  intros Hn Hr Hp Hlen Hnib. induction k as [|k IH]; intros root_depth out Hk cur; [lia|].
  rewrite seq_S, rev_app_distr. cbn [rev app map Nat.add child_with_siblings_loop].
  destruct (half_starts n k Hnib ltac:(lia)) as [Ehs Est]. cbv zeta in Ehs, Est.
  rewrite Ehs. set (b := Z.testbit n (Z.of_nat k)) in *.
  pose proof (aligned_start n (S k) Hnib ltac:(lia)) as Ha.
  assert (Hpath : rng (start_of n k) k (in_children node) = half k b cur).
  { unfold cur. rewrite <- (rng_half _ k b) by done. rewrite <- Est.
    rewrite Est at 1. unfold rng. rewrite list_filter_filter. apply list_filter_iff.
    intros [i c]. cbn [fst]. rewrite Est, Nat2Z.inj_succ, Z.pow_succ_r by lia. destruct b; lia. }
  assert (Hsib : rng (start_of n (S k) + if b then 0 else 2 ^ Z.of_nat k) k (in_children node) =
                 half k (negb b) cur).
  { unfold cur. rewrite <- (rng_half _ k (negb b)) by done. unfold rng. rewrite list_filter_filter.
    apply list_filter_iff. intros [i c]. cbn [fst]. rewrite Nat2Z.inj_succ, Z.pow_succ_r by lia.
    destruct b; cbn [negb]; lia. }
  rewrite Z.shiftl_1_l.
  destruct (sibling_step node reader (mkNodeKey v (pack p)) k
    (start_of n (S k) + if b then 0 else 2 ^ Z.of_nat k) Hn Hr ltac:(lia)) as (np & Hnp & Enp).
  { pose proof (aligned_half (start_of n (S k)) k (negb b) Ha) as Hah. by destruct b. }
  rewrite Hsib in Enp.
  set (out' := if target <=? root_depth + 3 - Z.of_nat k then out ++ [np] else out).
  match goal with |- context [mbind ?f ?m] => assert (Em : m = Ok out') end.
  { unfold out'. destruct (target <=? _); [|done]. destruct reader as [reader|].
    - by rewrite Hnp, obind_Ok.
    - apply bind_Ok in Hnp as (h & -> & [= <-]). by rewrite obind_Ok. }
  rewrite Em, obind_Ok. clear Em.
  rewrite range_bitmaps_spec, obind_Ok by ((apply aligned_start; [done|lia]) || apply Hn).
  rewrite Hpath. assert (Hc : children_ok (half k b cur)) by (by apply children_ok_filter, children_ok_filter).
  rewrite (surjective_pairing (bitmaps_of _)), range_empty, only_one_child_spec by done.
  cbn [rpath]. fold b. set (sib := half k (negb b) cur) in *.
  assert (Hout : exists nps, out' = out ++ nps /\
    forall l, map NodeInProof_hash nps ++ drop (Z.to_nat (target - (root_depth + 4 - Z.of_nat k))) l =
    drop (Z.to_nat (target - (root_depth + 4 - Z.of_nat (S k)))) (rhash k sib :: l)).
  { unfold out'. destruct (target <=? root_depth + 3 - Z.of_nat k) eqn:Et.
    - apply Z.leb_le in Et. exists [np]. split; [done|]. intros l. cbn [map]. rewrite Enp.
      by replace (Z.to_nat (target - (root_depth + 4 - Z.of_nat (S k)))) with 0%nat by lia;
        replace (Z.to_nat (target - (root_depth + 4 - Z.of_nat k))) with 0%nat by lia.
    - apply Z.leb_gt in Et. exists []. rewrite app_nil_r. split; [done|]. intros l. cbn [map app].
      by replace (Z.to_nat (target - (root_depth + 4 - Z.of_nat (S k))))
        with (S (Z.to_nat (target - (root_depth + 4 - Z.of_nat k)))) by lia. }
  destruct Hout as (nps & -> & Hnps). pose proof (Hnps []) as Hnil. rewrite drop_nil, app_nil_r in Hnil.
  destruct (half k b cur) as [|[i c] rest] eqn:Eh.
  - exists nps. done.
  - rewrite bool_decide_false by done.
    assert (Hin : (i, c) ∈ in_children node).
    { assert (Hx : (i, c) ∈ half k b cur) by (rewrite Eh; left).
      apply list_elem_of_filter in Hx as [_ Hx]. by apply rng_sub in Hx. }
    assert (Hi : nibble_ok i) by (destruct Hn as [_ Hf]; rewrite Forall_forall in Hf; by apply (Hf (i, c))).
    destruct ((k =? 0)%nat || single_leaf ((i, c) :: rest)) eqn:Es.
    + rewrite only_child_spec, obind_Ok by done. rewrite gen_child_node_key_pack, obind_Ok by done.
      exists nps. done.
    + destruct k as [|k]; [done|].
      destruct (IH root_depth (out ++ nps) ltac:(lia)) as (nps' & Hloop & Hmap).
      rewrite Hpath in Hloop, Hmap. rewrite Hloop. exists (nps ++ nps'). rewrite <- app_assoc.
      destruct (rpath (S k) n ((i, c) :: rest)) as [sibs r]. cbn [fst snd map] in *.
      split; [done|]. by rewrite map_app, Hmap, Hnps.
Qed.

Lemma get_child_with_siblings_spec node reader v p n target root_depth out :
  children_ok (in_children node) -> 1 < in_leaf_count node ->
  reader_stored reader (mkNodeKey v (pack p)) (in_children node) ->
  Forall nibble_ok p -> (length p < 64)%nat -> nibble_ok n ->
  exists nps,
    get_child_with_siblings node (mkNodeKey v (pack p)) n reader out root_depth target =
    Ok (option_map (child_key p) (snd (rpath 4 n (in_children node))), out ++ nps) /\
    map NodeInProof_hash nps =
    drop (Z.to_nat (target - root_depth))
      (map (fun x => rhash (fst x) (snd x)) (fst (rpath 4 n (in_children node)))).
Proof.
  intros Hn Hc Hr Hp Hl Hi. unfold get_child_with_siblings.
  rewrite assert_true, obind_Ok by lia. rewrite generate_bitmaps_spec, obind_Ok by apply Hn.
  destruct (child_with_siblings_loop_spec node reader v p n target Hn Hr Hp Hl Hi 4 root_depth out
    ltac:(lia)) as (nps & Hloop & Hmap).
  assert (E0 : start_of n 4 = 0).
  { unfold start_of. change (2 ^ Z.of_nat 4) with 16. unfold nibble_ok in Hi. by rewrite Z.div_small. }
  rewrite E0, rng_all in Hloop, Hmap by apply Hn. exists nps. split; [exact Hloop|].
  rewrite Hmap. f_equal. f_equal. change (Z.of_nat 4) with 4. lia.
Qed.
End NodeHash.
