(* ===== verification/JellyfishCodec.v ===== *)
(** * Nodes on disk

    The byte formats of internal nodes and nodes decode to what was encoded. *)
From stdpp Require Import base list numbers strings option gmap sorting.
From Stdlib Require Import ZArith Lia Bool Sorted.
From S2P Require Import Prelude Hash SparseMerkleProof NibblePath NibblePathFacts ByteCodec JellyfishNode JellyfishNodeFacts JellyfishHash.

Section NodeCodec.
Context {HV : Type} `{HashValueOps HV} `{HashValueBits HV} `{!HashValueLaws HV} `{CryptoHasher HV}
  `{LeafHasher HV} `{ByteOrderLaws} {K : Type}.
Implicit Types (cs : list (Z * Child HV)) (c : Child HV) (node : InternalNode HV).

(** What a child of a stored node satisfies: fields fit their types, and it is not
    [Null]. *)
Definition child_ok c : Prop :=
  u64_ok (child_version c) /\
  match child_node_type c with
  | NodeType_Leaf => True
  | NodeType_Internal n => u64_ok n
  | NodeType_Null => False
  end.

Definition node_ok node : Prop :=
  children_ok (in_children node) /\ in_children node <> [] /\
  Forall (fun x => child_ok (snd x)) (in_children node) /\
  sum_leaf_counts 0 (in_children node) = Ok (in_leaf_count node).

Lemma varint_code x : u64_ok x ->
  exists bs, (forall b, serialize_u64_varint x b = Ok (b ++ bs)) /\
    forall rest, deserialize_u64_varint (bs ++ rest) = Ok (x, rest).
Proof.
  intros Hx. destruct (varint_roundtrip x [] [] Hx) as (bs & Hs & _ & _). exists bs. split.
  - intros b. unfold serialize_u64_varint in *. rewrite serialize_varint_prefix, Hs. done.
  - intros rest. destruct (varint_roundtrip x [] rest Hx) as (bs' & Hs' & _ & Hd).
    rewrite Hs in Hs'. injection Hs' as ->. done.
Qed.

(** Clearing the least bit of a bitmap. *)
Lemma bitmap_clear i l : nibble_ok i -> Forall nibble_ok l -> StronglySorted Z.lt (i :: l) ->
  Z.land (bitmap (i :: l)) (Z.lxor (Z.shiftl 1 i) 65535) = bitmap l.
Proof.
  intros Hi Hl Hs. unfold nibble_ok in Hi. rewrite Z.shiftl_1_l.
  assert (Hl0 : Forall (fun i => 0 <= i) l) by (eapply Forall_impl; [exact Hl|unfold nibble_ok; lia]).
  apply StronglySorted_inv in Hs as [_ Hlt]. rewrite Forall_forall in Hlt, Hl.
  apply Z.bits_inj'. intros j Hj. rewrite Z.land_spec, Z.lxor_spec, Z.pow2_bits_eqb by lia.
  assert (Hil0 : Forall (fun i => 0 <= i) (i :: l)) by (constructor; [lia|done]).
  rewrite !testbit_bitmap by done. change 65535 with (Z.ones 16).
  destruct (decide (j ∈ l)) as [Hin|Hin].
  - pose proof (Hlt j Hin). pose proof (Hl j Hin) as Hjn. unfold nibble_ok in Hjn.
    rewrite !bool_decide_true by (done || by right). rewrite Z.ones_spec_low by lia.
    by rewrite (proj2 (Z.eqb_neq _ _)) by lia.
  - rewrite (bool_decide_false (j ∈ l)) by done. destruct (decide (j = i)) as [->|Hne].
    + rewrite Z.eqb_refl, Z.ones_spec_low by lia. by rewrite andb_false_r.
    + rewrite bool_decide_false; [done|]. rewrite elem_of_cons. tauto.
Qed.

Lemma children_roundtrip L : forall cs, children_ok cs -> Forall (fun x => child_ok (snd x)) cs ->
  (forall i c, (i, c) ∈ cs -> Z.testbit L i = Child_is_leaf c) ->
  exists bs, (forall b, serialize_children cs b = Ok (b ++ bs)) /\
    forall rest acc, deserialize_children (length cs) (bitmap (idx cs)) L (bs ++ rest) acc = Ok (0, acc ++ cs).
Proof.
  induction cs as [|[i c] cs IH]; intros Hcs Hok HL.
  - exists []. split; intros; cbn; by rewrite app_nil_r.
  - pose proof Hcs as [Hs Hf]. pose proof Hs as Hs0. apply sorted_by_cons in Hs as [Hs Hlt].
    apply Forall_cons in Hf as [Hi Hf], Hok as [[Hv Ht] Hok]. cbn [fst snd] in *.
    destruct IH as (bs & Hser & Hde); [done|done|intros j d Hj; apply HL; by right|].
    destruct (varint_code _ Hv) as (vs & Hvs & Hvd).
    assert (Hty : exists ls,
      (forall b, match child_node_type c with
       | NodeType_Leaf => Ok b
       | NodeType_Internal leaf_count => serialize_u64_varint leaf_count b
       | NodeType_Null => Panic "Child cannot be Null"
       end = Ok (b ++ ls)) /\
      forall rest, (if negb (Z.land L (Z.shiftl 1 i) =? 0) then Ok (NodeType_Leaf, ls ++ rest)
           else r ← deserialize_u64_varint (ls ++ rest);
                let '(leaf_count, reader) := r in Ok (NodeType_Internal leaf_count, reader)) =
      Ok (child_node_type c, rest)).
    { assert (El : negb (Z.land L (Z.shiftl 1 i) =? 0) = Child_is_leaf c).
      { rewrite Z.shiftl_1_l. unfold nibble_ok in Hi.
        replace (2 ^ i) with (pow2 (Z.to_nat i)) by (unfold pow2; by rewrite Z2Nat.id by lia).
        rewrite land_pow2_eq0, Z2Nat.id, negb_involutive by lia. apply HL. left. }
      rewrite El. unfold Child_is_leaf. destruct (child_node_type c) as [| |n]; [|done|].
      - exists []. split; intros; by rewrite ?app_nil_r.
      - destruct (varint_code n Ht) as (ls & Hls & Hld). exists ls. split; [done|].
        intros rest. by rewrite Hld, obind_Ok. }
    destruct Hty as (ls & Hls & Hld).
    exists (vs ++ hv_bytes (child_hash c) ++ ls ++ bs). split.
    + intros b. cbn [serialize_children]. rewrite Hvs, obind_Ok, Hls, obind_Ok, Hser.
      by rewrite <- !app_assoc.
    + intros rest acc. cbn [length deserialize_children]. cbn [idx map fst].
      rewrite trailing_zeros_bitmap; [|unfold nibble_ok in Hi; lia|exact Hs0].
      rewrite <- !app_assoc, Hvd, obind_Ok. unfold HASH_LENGTH.
      pose proof (hv_bytes_length (child_hash c)) as Hhl.
      rewrite ensure_true, obind_Ok by (apply Z.leb_le; unfold blen; rewrite length_app; lia).
      rewrite take_app_length' by done. rewrite drop_app_length' by done.
      rewrite (proj2 (from_slice_spec _ _) eq_refl). cbn [ok_or]. rewrite obind_Ok.
      unfold bit16. rewrite (proj2 (Z.ltb_lt i 16)), obind_Ok by (unfold nibble_ok in Hi; lia).
      rewrite Hld, obind_Ok, nibble_from_u8_Ok, obind_Ok by done.
      rewrite bitmap_clear; [|done|by apply Forall_map|exact Hs0].
      fold (idx cs). rewrite Hde. rewrite <- app_assoc. cbn [app]. by destruct c.
Qed.

Lemma bitmaps_leaf_bits cs : children_ok cs -> forall i c, (i, c) ∈ cs ->
  Z.testbit (snd (bitmaps_of cs)) i = Child_is_leaf c.
Proof.
  intros [Hs Hf] i c Hin. cbn [bitmaps_of snd].
  assert (Hi : nibble_ok i) by (rewrite Forall_forall in Hf; by apply (Hf (i, c))).
  rewrite testbit_bitmap; [|by apply idx_nonneg, filter_nibble_ok|unfold nibble_ok in Hi; lia].
  apply eq_true_iff_eq. rewrite bool_decide_eq_true. unfold idx. split.
  - intros Hx. apply list_elem_of_fmap in Hx as ([j d] & -> & Hx).
    apply list_elem_of_filter in Hx as [Hl Hx]. cbn [fst snd] in *.
    apply (assoc_sorted _ _ _ Hs) in Hx, Hin. congruence.
  - intros Hl. apply (list_elem_of_fmap_2 fst _ (i, c)). by apply list_elem_of_filter.
Qed.

Lemma bitmaps_u16 cs : children_ok cs ->
  0 <= fst (bitmaps_of cs) < 65536 /\ 0 <= snd (bitmaps_of cs) < 65536.
Proof.
  intros [_ Hf]. change 65536 with (2 ^ 16). split; (apply bitmap_bound; [lia|]); apply Forall_map.
  - eapply Forall_impl; [exact Hf|]. done.
  - eapply Forall_impl; [by apply filter_nibble_ok|]. done.
Qed.

(** Bytes after the node are not looked at. *)
Lemma serialize_roundtrip node binary : node_ok node ->
  exists bs, serialize node binary = Ok (binary ++ bs) /\
    forall rest, deserialize (bs ++ rest) = Ok node.
Proof.
  intros (Hc & Hne & Hok & Hsum). destruct node as [cs n]. cbn [in_children in_leaf_count] in *.
  destruct (children_roundtrip _ cs Hc Hok (bitmaps_leaf_bits cs Hc)) as (bs & Hser & Hde).
  destruct (bitmaps_u16 cs Hc) as [He Hl].
  exists (le_bytes 2 (fst (bitmaps_of cs)) ++ le_bytes 2 (snd (bitmaps_of cs)) ++ bs). split.
  - unfold serialize. rewrite generate_bitmaps_spec, obind_Ok by apply Hc. cbn [in_children].
    rewrite (surjective_pairing (bitmaps_of cs)), !write_u16_le_spec by done.
    by rewrite Hser, <- !app_assoc.
  - intros rest. unfold deserialize. rewrite <- !app_assoc, read_u16_le_bytes, obind_Ok by done.
    rewrite read_u16_le_bytes, obind_Ok by done. rewrite range_empty, bool_decide_false by done.
    rewrite (proj2 (Z.eqb_eq _ _)).
    + cbn [negb]. unfold bitmaps_of in Hde |- *. cbn [fst snd] in *.
      rewrite count_ones_bitmap by ((by apply idx_nonneg, Hc) || apply Hc).
      unfold idx at 1. rewrite length_map, Nat2Z.id, Hde, obind_Ok. cbn [Z.eqb assert app].
      rewrite obind_Ok. unfold new_impl, from_sorted. destruct cs; [done|].
      by rewrite Hsum.
    + apply Z.bits_inj'. intros j Hj. rewrite Z.land_spec. cbn [bitmaps_of fst snd].
      rewrite !testbit_bitmap by (done || by apply idx_nonneg, Hc || by apply idx_nonneg, filter_nibble_ok, Hc).
      apply eq_true_iff_eq. rewrite andb_true_iff, !bool_decide_eq_true. unfold idx. split; [tauto|].
      intros Hx. split; [|done]. apply list_elem_of_fmap in Hx as (x & -> & Hx).
      apply list_elem_of_filter in Hx as [_ Hx]. by apply (list_elem_of_fmap_2 fst).
Qed.

(** A leaf survives [bcs]. *)
Class LeafBcsLaws `{LeafBcs HV K} : Prop := bcs_roundtrip l :
  exists bs, bcs_to_bytes l = Ok bs /\ bcs_from_bytes bs = Ok l.

Lemma Node_roundtrip `{LeafBcsLaws} (n : Node HV K) :
  match n with Node_Internal i => node_ok i | _ => True end ->
  exists bs, Node_encode n = Ok bs /\ Node_decode bs = Ok n.
Proof.
  intros Hn. destruct n as [i|l|]; cbn [Node_encode].
  - destruct (serialize_roundtrip i [tag_to_u8 NodeTag_Internal] Hn) as (bs & -> & Hd).
    eexists. split; [done|]. cbn [app Node_decode tag_to_u8 tag_from_u8 Z.eqb Pos.eqb].
    specialize (Hd []). rewrite app_nil_r in Hd. by rewrite Hd.
  - destruct (bcs_roundtrip l) as (bs & -> & Hd). eexists. split; [done|].
    cbn [app Node_decode tag_to_u8 tag_from_u8 Z.eqb Pos.eqb]. by rewrite Hd.
  - eexists. split; [done|]. done.
Qed.
End NodeCodec.
