(* ===== verification/JellyfishSpec.v ===== *)
(** * What a stored tree holds

    A tree in storage represents a set of leaves: every node is the leaf it stands
    for, or an internal node with one child for every nibble that occurs in the keys
    of its leaves.  The hash of a node is the root of the reference sparse Merkle
    tree over its leaves. *)
From stdpp Require Import base list numbers strings option gmap sorting.
From Stdlib Require Import ZArith Lia Bool Sorted.
From S2P Require Import Prelude Hash SparseMerkleProof SparseSpec SparseFacts NibblePath NibblePathFacts ByteCodec JellyfishNode JellyfishNodeFacts JellyfishHash.

(** ** Keys as nibbles and bits *)
Lemma byte_bits_nibbles b : byte_ok b -> byte_bits b = nibble_bits (b / 16) ++ nibble_bits (b mod 16).
Proof.
  intros Hb.
  assert (Hall : forallb (fun b => bool_decide (byte_bits b = nibble_bits (b / 16) ++ nibble_bits (b mod 16)))
    (seqZ 0 256) = true) by (vm_compute; reflexivity).
  rewrite forallb_forall in Hall. eapply bool_decide_eq_true, Hall.
  apply list_elem_of_In, elem_of_seqZ. unfold byte_ok in Hb. lia.
Qed.

Lemma bytes_bits_nibbles bs : Forall byte_ok bs -> bytes_bits bs = nibbles_bits (bytes_nibbles bs).
Proof.
  induction 1 as [|b bs Hb _ IH]; [done|].
  change (bytes_bits (b :: bs)) with (byte_bits b ++ bytes_bits bs). rewrite IH, byte_bits_nibbles by done.
  change (bytes_nibbles (b :: bs)) with (b / 16 :: b mod 16 :: bytes_nibbles bs).
  change (nibbles_bits (b / 16 :: b mod 16 :: bytes_nibbles bs))
    with (nibble_bits (b / 16) ++ nibble_bits (b mod 16) ++ nibbles_bits (bytes_nibbles bs)).
  by rewrite app_assoc.
Qed.

Section Spec.
Context {HV : Type} `{HashValueOps HV} `{HashValueBits HV} `{!HashValueLaws HV} `{CryptoHasher HV}
  `{LeafHasher HV} {K : Type}.
Implicit Types (cs : list (Z * Child HV)) (c : Child HV) (lvs : list (LeafNode HV K))
  (x : LeafNode HV K) (key : HV) (p : list Z).

Definition key_nibbles key : list Z := bytes_nibbles (hv_bytes key).

(** Nibble [d] of a key. *)
Definition nib key (d : nat) : Z := nth d (key_nibbles key) 0.

Lemma key_nibbles_length key : length (key_nibbles key) = 64%nat.
Proof. unfold key_nibbles. by rewrite bytes_nibbles_length, hv_bytes_length. Qed.

Lemma key_nibbles_ok key : Forall nibble_ok (key_nibbles key).
Proof. apply bytes_nibbles_ok, hv_bytes_ok. Qed.

Lemma nib_lookup key d : (d < 64)%nat -> key_nibbles key !! d = Some (nib key d).
Proof.
  intros Hd. unfold nib. rewrite nth_lookup.
  destruct (lookup_lt_is_Some_2 (key_nibbles key) d) as [n ->]; [|done]. by rewrite key_nibbles_length.
Qed.

Lemma nib_ok key d : (d < 64)%nat -> nibble_ok (nib key d).
Proof.
  intros Hd. pose proof (key_nibbles_ok key) as Hf. rewrite Forall_lookup in Hf.
  apply (Hf d). by apply nib_lookup.
Qed.

Lemma key_bit_nib key d (k : nat) : (d < 64)%nat -> (k <= 3)%nat ->
  key_bit key (4 * d + 3 - k) = Z.testbit (nib key d) (Z.of_nat k).
Proof.
  intros Hd Hk. unfold key_bit. rewrite iter_bits_spec, bytes_bits_nibbles by apply hv_bytes_ok.
  rewrite nth_lookup. fold (key_nibbles key).
  replace (4 * d + 3 - k)%nat with (4 * d + (3 - k))%nat by lia.
  rewrite (nibbles_bits_lookup _ d (3 - k) (nib key d)) by (lia || by apply nib_lookup).
  cbn. f_equal. lia.
Qed.

(** ** The leaves of a subtree *)
Definition sl lvs : list (SparseMerkleLeafNode HV) := map sparse_leaf_from lvs.

(** The hash of the subtree at nibble depth [d]. *)
Definition hash_at (d : nat) lvs : HV := smt (256 - 4 * d) (4 * d) (sl lvs).

(** The leaves whose nibble at depth [d] is [i]. *)
Definition group (d : nat) (i : Z) lvs : list (LeafNode HV K) :=
  filter (fun x => nib (account_key x) d = i) lvs.

(** The leaves below a node with path [p]: different keys that start with [p]. *)
Definition placed p lvs : Prop :=
  NoDup (map account_key lvs) /\ Forall (fun x => take (length p) (key_nibbles (account_key x)) = p) lvs.

Definition store := NodeKey -> option (Node HV K).

(** The children [cs] of a node at nibble depth [d] stand for the leaves [lvs]. *)
Definition stand_for (d : nat) cs lvs : Prop :=
  children_ok cs /\
  (forall i, nibble_ok i -> (exists c, (i, c) ∈ cs) <-> group d i lvs <> []) /\
  (forall i c, (i, c) ∈ cs -> child_hash c = hash_at (S d) (group d i lvs)) /\
  (forall i c, (i, c) ∈ cs -> Child_is_leaf c = true <-> length (group d i lvs) = 1%nat).

Inductive represents (s : store) : list Z -> list (LeafNode HV K) -> Node HV K -> Prop :=
| rep_leaf p x : represents s p [x] (Node_Leaf x)
| rep_internal p lvs cs (sub : Z -> Node HV K) :
    (length p < 64)%nat -> (2 <= length lvs)%nat \/ (p = [] /\ lvs <> []) ->
    stand_for (length p) cs lvs ->
    (forall i c, (i, c) ∈ cs -> s (child_key p (i, c)) = Some (sub i)) ->
    (forall i c, (i, c) ∈ cs -> represents s (p ++ [i]) (group (length p) i lvs) (sub i)) ->
    (forall i c, (i, c) ∈ cs -> child_node_type c = Node_node_type (sub i)) ->
    represents s p lvs (Node_Internal (mkInternalNode cs (Z.of_nat (length lvs)))).

(** ** The hash of a represented node *)

(** Indices that agree above bit [k]. *)
Definition agree_above (k : nat) cs : Prop :=
  forall i c j d, (i, c) ∈ cs -> (j, d) ∈ cs -> i / 2 ^ Z.of_nat k = j / 2 ^ Z.of_nat k.

Lemma agree_above_half k b cs : agree_above (S k) cs -> agree_above k (half k b cs).
Proof.
  intros Ha i c j d Hi Hj. apply list_elem_of_filter in Hi as [Bi Hi], Hj as [Bj Hj]. cbn [fst] in *.
  specialize (Ha i c j d Hi Hj). rewrite Nat2Z.inj_succ, Z.pow_succ_r in Ha by lia.
  rewrite (Z.mul_comm 2), <- !Z.div_div in Ha by lia.
  assert (E : forall z, z / 2 ^ Z.of_nat k =
    2 * (z / 2 ^ Z.of_nat k / 2) + Z.b2z (Z.testbit z (Z.of_nat k))).
  { intros z. rewrite Z.testbit_spec' by lia. apply Z.div_mod. lia. }
  rewrite (E i), (E j), Ha, Bi, Bj. done.
Qed.

Lemma agree_above_0 cs : children_ok cs -> agree_above 0 cs -> (length cs <= 1)%nat.
Proof.
  intros [Hs _] Ha. destruct cs as [|[i c] [|[j d] cs]]; cbn; try lia. exfalso.
  apply sorted_by_cons in Hs as [_ Hf]. apply Forall_cons in Hf as [Hlt _]. cbn in Hlt.
  specialize (Ha i c j d ltac:(left) ltac:(right; left)). change (2 ^ Z.of_nat 0) with 1 in Ha.
  rewrite !Z.div_1_r in Ha. lia.
Qed.

Lemma agree_above_4 cs : children_ok cs -> agree_above 4 cs.
Proof.
  intros [_ Hf] i c j d Hi Hj. rewrite Forall_forall in Hf. apply Hf in Hi, Hj.
  unfold nibble_ok in Hi, Hj. cbn [fst] in *. change (2 ^ Z.of_nat 4) with 16. by rewrite !Z.div_small by lia.
Qed.

(** The leaves on one side of the next bit. *)
Definition lhalf (d k : nat) (b : bool) lvs : list (LeafNode HV K) :=
  filter (fun x => Z.testbit (nib (account_key x) d) (Z.of_nat k) = b) lvs.

Lemma group_lhalf d k b i lvs :
  group d i (lhalf d k b lvs) = if decide (Z.testbit i (Z.of_nat k) = b) then group d i lvs else [].
Proof.
  unfold group, lhalf. rewrite list_filter_filter. destruct (decide _) as [E|E].
  - apply list_filter_iff. intros x. split; [tauto|]. intros Hx. by rewrite Hx.
  - induction lvs as [|x lvs IH]; [done|]. rewrite filter_cons, IH. rewrite decide_False; [done|].
    intros [Hi Hb]. apply E. by rewrite <- Hi.
Qed.

Lemma stand_for_half d k b cs lvs : stand_for d cs lvs -> stand_for d (half k b cs) (lhalf d k b lvs).
Proof.
  intros (Hc & Hg & Hh & Hl). split; [by apply children_ok_filter|].
  assert (Hin : forall i c, (i, c) ∈ half k b cs <-> Z.testbit i (Z.of_nat k) = b /\ (i, c) ∈ cs).
  { intros i c. unfold half. by rewrite list_elem_of_filter. }
  split_and!.
  - intros i Hi. rewrite group_lhalf. specialize (Hg i Hi). destruct (decide _) as [E|E]; naive_solver.
  - intros i c Hx. apply Hin in Hx as [E Hx]. rewrite group_lhalf, decide_True by done. by apply Hh.
  - intros i c Hx. apply Hin in Hx as [E Hx]. rewrite group_lhalf, decide_True by done. by apply Hl.
Qed.

Lemma side_sl d k b lvs : (d < 64)%nat -> (k <= 3)%nat ->
  side (4 * d + 3 - k) b (sl lvs) = sl (lhalf d k b lvs).
Proof.
  intros Hd Hk. unfold side, sl, lhalf. induction lvs as [|x lvs IH]; [done|].
  cbn [map]. rewrite !filter_cons, IH. cbn [sparse_leaf_from leaf_key].
  rewrite key_bit_nib by done. repeat case_decide; done.
Qed.

Lemma group_self d i lvs : Forall (fun x => nib (account_key x) d = i) lvs -> group d i lvs = lvs.
Proof.
  induction 1 as [|x lvs Hx _ IH]; [done|]. unfold group in *. by rewrite filter_cons, decide_True, IH.
Qed.

(** With one child, all leaves are below it; with no child, there are none. *)
Lemma stand_for_nil d lvs : (d < 64)%nat -> stand_for d [] lvs -> lvs = [].
Proof.
  intros Hd (_ & Hg & _). destruct lvs as [|x lvs]; [done|]. exfalso.
  destruct (proj2 (Hg (nib (account_key x) d) (nib_ok _ d Hd))) as [c Hc]; [|by apply not_elem_of_nil in Hc].
  unfold group. rewrite filter_cons, decide_True by done. done.
Qed.

Lemma stand_for_one d i c lvs : (d < 64)%nat -> stand_for d [(i, c)] lvs -> group d i lvs = lvs.
Proof.
  intros Hd (_ & Hg & _). apply group_self, Forall_forall. intros x Hx.
  destruct (proj2 (Hg (nib (account_key x) d) (nib_ok _ d Hd))) as [c' Hc].
  - intros Hn. assert (Hin : x ∈ group d (nib (account_key x) d) lvs) by (by apply list_elem_of_filter).
    rewrite Hn in Hin. by apply not_elem_of_nil in Hin.
  - apply list_elem_of_singleton in Hc. by injection Hc.
Qed.

Lemma group_sub d i lvs : group d i lvs ⊆ lvs.
Proof. intros x Hx. by apply list_elem_of_filter in Hx as [_ ?]. Qed.

Lemma stand_for_many d cs lvs : (d < 64)%nat -> stand_for d cs lvs -> cs <> [] ->
  single_leaf cs = false -> (2 <= length lvs)%nat.
Proof.
  intros Hd Hst Hne Hsl. pose proof Hst as (Hc & Hg & _ & Hl).
  destruct cs as [|[i c] [|[j e] cs]]; [done|..].
  - rewrite <- (stand_for_one d i c lvs) by done. cbn in Hsl.
    assert (Hi : nibble_ok i) by (destruct Hc as [_ Hf]; by apply Forall_cons in Hf as [? _]).
    pose proof (proj1 (Hg i Hi) ltac:(exists c; left)) as Hgn.
    assert (Hn1 : length (group d i lvs) <> 1%nat).
    { intros E. apply (Hl i c ltac:(left)) in E. congruence. }
    destruct (group d i lvs) as [|a [|a' l]]; cbn in *; [done|done|lia].
  - destruct Hc as [Hs Hf]. apply sorted_by_cons in Hs as [_ Hlt]. apply Forall_cons in Hlt as [Hlt _].
    apply Forall_cons in Hf as [Hi Hf], Hf as [Hj _]. cbn in Hlt, Hi, Hj.
    assert (Hx : exists x, x ∈ group d i lvs).
    { pose proof (proj1 (Hg i Hi) ltac:(exists c; left)). destruct (group d i lvs) as [|x l]; [done|]. exists x. left. }
    assert (Hy : exists y, y ∈ group d j lvs).
    { pose proof (proj1 (Hg j Hj) ltac:(exists e; right; left)). destruct (group d j lvs) as [|x l]; [done|]. exists x. left. }
    destruct Hx as [x Hx], Hy as [y Hy]. apply list_elem_of_filter in Hx as [Ex Hx], Hy as [Ey Hy].
    destruct lvs as [|u [|v l]]; cbn; [by apply not_elem_of_nil in Hx| |lia].
    apply list_elem_of_singleton in Hx, Hy. subst. lia.
Qed.

Lemma sl_length lvs : length (sl lvs) = length lvs.
Proof. unfold sl. by rewrite length_map. Qed.

Lemma rhash_smt d : (d < 64)%nat -> forall k cs lvs, (k <= 4)%nat -> stand_for d cs lvs -> agree_above k cs ->
  rhash k cs = smt (256 - (4 * d + 4 - k)) (4 * d + 4 - k) (sl lvs).
Proof.
  intros Hd. induction k as [|k IH]; intros cs lvs Hk Hst Ha; destruct cs as [|[i c] cs'] eqn:Ecs.
  - rewrite (stand_for_nil d lvs) by done. cbn [rhash sl map]. by rewrite smt_nil.
  - pose proof Hst as (Hc & _ & Hh & _). apply agree_above_0 in Ha; [|done]. destruct cs'; [|cbn in Ha; lia].
    assert (E : rhash 0 [(i, c)] = child_hash c) by (cbn [rhash]; by destruct (single_leaf _)).
    rewrite E, (Hh i c) by left. rewrite (stand_for_one d i c lvs) by done. unfold hash_at.
    f_equal; lia.
  - rewrite (stand_for_nil d lvs) by done. cbn [rhash sl map]. by rewrite smt_nil.
  - cbn [rhash]. destruct (single_leaf ((i, c) :: cs')) eqn:Esl.
    + destruct cs' as [|y l]; [|done]. pose proof Hst as (_ & _ & Hh & Hl).
      pose proof (stand_for_one d i c lvs Hd Hst) as Eg.
      pose proof (proj1 (Hl i c ltac:(left)) Esl) as H1'. rewrite (Hh i c) by left. rewrite Eg in *.
      destruct lvs as [|x [|]]; [done| |done]. unfold hash_at. cbn [sl map]. by rewrite !smt_one.
    + pose proof (stand_for_many d _ lvs Hd Hst ltac:(done) Esl) as H2'.
      replace (256 - (4 * d + 4 - S k))%nat with (S (256 - (4 * d + 4 - k))) by lia.
      rewrite !(IH _ _ ltac:(lia) (stand_for_half d k _ _ lvs Hst) (agree_above_half k _ _ Ha)).
      replace (4 * d + 4 - S k)%nat with (4 * d + 3 - k)%nat by lia.
      replace (4 * d + 4 - k)%nat with (S (4 * d + 3 - k)) by lia.
      rewrite <- !side_sl by lia. rewrite <- sl_length in H2'.
      destruct (sl lvs) as [|u [|w l]]; [cbn in H2'; lia|cbn in H2'; lia|]. done.
Qed.

(** The hash of a node is the reference hash of its leaves. *)
Lemma represents_hash s p lvs n : represents s p lvs n -> Node_hash n = Ok (hash_at (length p) lvs).
Proof.
  intros Hr. destruct Hr as [p x|p lvs cs sub Hp Hl Hst _ _ _]; cbn [Node_hash].
  - unfold hash_at. cbn [sl map]. rewrite smt_one. done.
  - pose proof Hst as (Hc & _). rewrite InternalNode_hash_spec by done. cbn [in_children].
    rewrite (rhash_smt (length p) Hp 4 cs lvs) by (done || by apply agree_above_4).
    unfold hash_at. do 2 f_equal; lia.
Qed.

Lemma represents_nonempty s p lvs n : represents s p lvs n -> lvs <> [].
Proof. intros [|? ? ? ? ? [Hl|[_ Hl]]]; [done| |done]. intros ->. cbn in Hl. lia. Qed.
End Spec.
