(* ===== verification/JellyfishTree.v ===== *)
(** * The Jellyfish Merkle tree

    Model of [storage/jellyfish-merkle/src/lib.rs]: updating a versioned tree in
    storage by a batch of writes and deletions, shard by shard, and reading values
    with their proofs. *)
From stdpp Require Import base list numbers strings option gmap.
From Stdlib Require Import ZArith Lia Bool.
From S2P Require Import Prelude Hash SparseMerkleProof NibblePath ByteCodec JellyfishNode.

Definition MAX_PARALLELIZABLE_DEPTH : Z := 2.
Definition MIN_LEAF_DEPTH : Z := 1.

(** [HashValue::nibble] and the order of [HashValue]s. *)
Class HashValueKeys (HV : Type) := {
  nibble : HV -> Z -> Z;
  hv_cmp : HV -> HV -> comparison;
}.

(** [nibble] counts from the front; hash values are ordered as their bytes. *)
Class HashValueKeysLaws (HV : Type) `{HashValueOps HV} `{HashValueKeys HV} : Prop := {
  nibble_spec h i : 0 <= i < 64 -> bytes_nibbles (hv_bytes h) !! Z.to_nat i = Some (nibble h i);
  hv_cmp_spec a b : hv_cmp a b = lex_compare (hv_bytes a) (hv_bytes b);
}.

(** [itertools]: [EitherOrBoth] and [merge_join_by]. *)
Inductive EitherOrBoth (A B : Type) :=
| EB_Left (a : A)
| EB_Right (b : B)
| EB_Both (a : A) (b : B).
Arguments EB_Left {A B} a.
Arguments EB_Right {A B} b.
Arguments EB_Both {A B} a b.

Class Itertools := {
  merge_join_by : forall {A B : Type}, (A -> B -> comparison) -> list A -> list B -> list (EitherOrBoth A B);
}.

(** What the documentation of [merge_join_by] says: the smaller head goes first,
    equal heads are paired. *)
Class ItertoolsLaws `{Itertools} : Prop := {
  merge_join_nil_l A B (cmp : A -> B -> comparison) ys :
    merge_join_by cmp [] ys = map EB_Right ys;
  merge_join_nil_r A B (cmp : A -> B -> comparison) xs :
    merge_join_by cmp xs [] = map EB_Left xs;
  merge_join_cons A B (cmp : A -> B -> comparison) x xs y ys :
    merge_join_by cmp (x :: xs) (y :: ys) =
    match cmp x y with
    | Lt => EB_Left x :: merge_join_by cmp xs (y :: ys)
    | Eq => EB_Both x y :: merge_join_by cmp xs ys
    | Gt => EB_Right y :: merge_join_by cmp (x :: xs) ys
    end;
}.

Section Tree.
Context {HV : Type} `{HashValueOps HV} `{HashValueBits HV} `{CryptoHasher HV} `{LeafHasher HV}
  `{HashValueKeys HV} `{Itertools}.
Context {K : Type}.
Implicit Types (node_key : NodeKey) (version : Version).

(** A key, and its new value hash and state key, or a deletion. *)
Abbreviation Update := (HV * option (HV * K))%type (only parsing).

(** [NibbleExt for HashValue] *)
Definition hv_get_nibble (self : HV) (index : Z) : outcome Nibble :=
  b ← expect (hv_bytes self !! Z.to_nat (index / 2)) "index out of bounds";
  nibble_from_u8 (if index mod 2 =? 0 then Z.shiftr b 4 else Z.land b 15).

Definition common_prefix_nibbles_len (self other : HV) : Z := common_prefix_bits_len self other / 4.

(** ** [TreeUpdateBatch] *)
Record StaleNodeIndex := mkStaleNodeIndex { stale_since_version : Version; stale_node_key : NodeKey }.

Record TreeUpdateBatch := mkTreeUpdateBatch {
  node_batch : list (list (NodeKey * Node HV K));
  stale_node_index_batch : list (list StaleNodeIndex);
}.

Definition TreeUpdateBatch_new : TreeUpdateBatch := mkTreeUpdateBatch [[]] [[]].

Definition TreeUpdateBatch_combine (self other : TreeUpdateBatch) : TreeUpdateBatch :=
  mkTreeUpdateBatch (node_batch self ++ node_batch other)
    (stale_node_index_batch self ++ stale_node_index_batch other).

(** [v[0].push(x)] *)
Definition push_at_0 {A} (v : list (list A)) (x : A) : outcome (list (list A)) :=
  match v with
  | [] => Panic "index out of bounds"
  | v0 :: rest => Ok ((v0 ++ [x]) :: rest)
  end.

Definition put_node (self : TreeUpdateBatch) node_key (node : Node HV K) : outcome TreeUpdateBatch :=
  b ← push_at_0 (node_batch self) (node_key, node);
  Ok (mkTreeUpdateBatch b (stale_node_index_batch self)).

Definition put_stale_node (self : TreeUpdateBatch) node_key (stale_since_version : Version)
  : outcome TreeUpdateBatch :=
  b ← push_at_0 (stale_node_index_batch self) (mkStaleNodeIndex stale_since_version node_key);
  Ok (mkTreeUpdateBatch (node_batch self) b).

(** ** [NibbleRangeIterator] *)
Record NibbleRangeIterator (V : Type) := mkNibbleRangeIterator
  { sorted_kvs : list (HV * V); nibble_idx : Z; nri_pos : Z }.
Arguments mkNibbleRangeIterator {V}.
Arguments sorted_kvs {V}.
Arguments nibble_idx {V}.
Arguments nri_pos {V}.

Definition NibbleRangeIterator_new {V} (sorted_kvs : list (HV * V)) (nibble_idx : Z)
  : outcome (NibbleRangeIterator V) :=
  _ ← assert (nibble_idx <? ROOT_NIBBLE_HEIGHT) "assertion failed: nibble_idx < ROOT_NIBBLE_HEIGHT";
  Ok (mkNibbleRangeIterator sorted_kvs nibble_idx 0).

(** The binary search for the last index of [cur_nibble]. *)
Fixpoint range_search {V} (fuel : nat) (kvs : list (HV * V)) (nibble_idx cur_nibble i j : Z)
  : outcome Z :=
  if i <? j then
    match fuel with
    | O => Panic "out of fuel"
    | S fuel =>
        let mid := j - (j - i) / 2 in
        kv ← expect (kvs !! Z.to_nat mid) "index out of bounds";
        if cur_nibble <? nibble (fst kv) nibble_idx
        then range_search fuel kvs nibble_idx cur_nibble i (mid - 1)
        else range_search fuel kvs nibble_idx cur_nibble mid j
    end
  else Ok i.

Definition NibbleRangeIterator_next {V} (self : NibbleRangeIterator V)
  : outcome (option (Z * Z) * NibbleRangeIterator V) :=
  let left := nri_pos self in
  let len := Z.of_nat (length (sorted_kvs self)) in
  if nri_pos self <? len then
    kv ← expect (sorted_kvs self !! Z.to_nat left) "index out of bounds";
    let cur_nibble := nibble (fst kv) (nibble_idx self) in
    i ← range_search (length (sorted_kvs self)) (sorted_kvs self) (nibble_idx self) cur_nibble
          left (len - 1);
    Ok (Some (left, i), mkNibbleRangeIterator (sorted_kvs self) (nibble_idx self) (i + 1))
  else Ok (None, self).

(** The items of the iterator; each covers at least one pair, so the number of pairs
    bounds their number. *)
Fixpoint collect_ranges {V} (fuel : nat) (it : NibbleRangeIterator V) : outcome (list (Z * Z)) :=
  r ← NibbleRangeIterator_next it;
  match r with
  | (None, _) => Ok []
  | (Some x, it) =>
      match fuel with
      | O => Panic "out of fuel"
      | S fuel => rest ← collect_ranges fuel it; Ok (x :: rest)
      end
  end.

Definition nibble_ranges {V} (kvs : list (HV * V)) (depth : Z) : outcome (list (Z * Z)) :=
  it ← NibbleRangeIterator_new kvs depth;
  collect_ranges (length kvs) it.

(** [&kvs[left..=right]] *)
Definition slice_inclusive {A} (l : list A) (left_ right_ : Z) : outcome (list A) :=
  if right_ <? Z.of_nat (length l)
  then Ok (take (Z.to_nat (right_ + 1 - left_)) (drop (Z.to_nat left_) l))
  else Panic "range end index out of range for slice".

(** ** Building the subtree of new leaves *)

(** The closure that turns the new child nodes into children and puts them in the
    batch. *)
Fixpoint make_children node_key version (hash_cache : option (gmap NibblePath HV))
    (children : list (Z * Node HV K)) (batch : TreeUpdateBatch)
  : outcome (list (Z * Child HV) * TreeUpdateBatch) :=
  match children with
  | [] => Ok ([], batch)
  | (child_index, new_child_node) :: children =>
      new_child_node_key ← gen_child_node_key node_key version child_index;
      hash ← node_get_hash new_child_node_key new_child_node hash_cache;
      batch ← put_node batch new_child_node_key new_child_node;
      r ← make_children node_key version hash_cache children batch;
      let '(rest, batch) := r in
      Ok ((child_index, mkChild hash version (Node_node_type new_child_node)) :: rest, batch)
  end.

(** The end of both functions below: no child, a single leaf, or an internal node. *)
Definition node_of_children node_key version (depth : Z) (hash_cache : option (gmap NibblePath HV))
    (children : list (Z * Node HV K)) (batch : TreeUpdateBatch)
  : outcome (option (Node HV K) * TreeUpdateBatch) :=
  match children with
  | [] => Ok (None, batch)
  | _ =>
      match children with
      | [(_, child)] =>
          if Node_is_leaf child && (MIN_LEAF_DEPTH <=? depth) then Ok (Some child, batch)
          else
            r ← make_children node_key version hash_cache children batch;
            let '(children, batch) := r in
            new_internal_node ← InternalNode_new (from_sorted children);
            Ok (Some (Node_Internal new_internal_node), batch)
      | _ =>
          r ← make_children node_key version hash_cache children batch;
          let '(children, batch) := r in
          new_internal_node ← InternalNode_new (from_sorted children);
          Ok (Some (Node_Internal new_internal_node), batch)
      end
  end.

(** What [f] does to the child that a range [left..=right] falls into. *)
Definition update_range
    (f : Z -> list Update -> TreeUpdateBatch -> outcome (option (Node HV K) * TreeUpdateBatch))
    (kvs : list Update) (depth left_ right_ : Z) (batch : TreeUpdateBatch)
  : outcome ((Z * option (Node HV K)) * TreeUpdateBatch) :=
  kv ← expect (kvs !! Z.to_nat left_) "index out of bounds";
  child_index ← hv_get_nibble (fst kv) depth;
  sub ← slice_inclusive kvs left_ right_;
  r ← f child_index sub batch;
  Ok ((child_index, fst r), snd r).

(** The loop over the ranges: every child index that was visited, with its new node
    if it has one. *)
Fixpoint update_ranges
    (f : Z -> list Update -> TreeUpdateBatch -> outcome (option (Node HV K) * TreeUpdateBatch))
    (kvs : list Update) (depth : Z) (ranges : list (Z * Z)) (batch : TreeUpdateBatch)
  : outcome (list (Z * option (Node HV K)) * TreeUpdateBatch) :=
  match ranges with
  | [] => Ok ([], batch)
  | (left_, right_) :: ranges =>
      r ← update_range f kvs depth left_ right_ batch;
      let '(child, batch) := r in
      r ← update_ranges f kvs depth ranges batch;
      let '(children, batch) := r in
      Ok (child :: children, batch)
  end.

(** The same loop with a batch of its own for every range, for [par_iter], whose
    results are collected in order. *)
Fixpoint update_ranges_par
    (f : Z -> list Update -> TreeUpdateBatch -> outcome (option (Node HV K) * TreeUpdateBatch))
    (kvs : list Update) (depth : Z) (ranges : list (Z * Z))
  : outcome (list ((Z * option (Node HV K)) * TreeUpdateBatch)) :=
  match ranges with
  | [] => Ok []
  | (left_, right_) :: ranges =>
      r ← update_range f kvs depth left_ right_ TreeUpdateBatch_new;
      rest ← update_ranges_par f kvs depth ranges;
      Ok (r :: rest)
  end.

(** The children that were pushed: those that have a node. *)
Definition pushed (children : list (Z * option (Node HV K))) : list (Z * Node HV K) :=
  omap (fun x => node ← snd x; Some (fst x, node)) children.

(** [fuel] levels are left; [NibbleRangeIterator_new] panics at depth 64. *)
Fixpoint batch_update_subtree (fuel : nat) node_key version (kvs : list Update) (depth : Z)
    (hash_cache : option (gmap NibblePath HV)) (batch : TreeUpdateBatch)
  : outcome (option (Node HV K) * TreeUpdateBatch) :=
  let split :=
    ranges ← nibble_ranges kvs depth;
    match fuel with
    | O => Panic "out of fuel"
    | S fuel =>
        r ← update_ranges
              (fun child_index sub batch =>
                 child_node_key ← gen_child_node_key node_key version child_index;
                 batch_update_subtree fuel child_node_key version sub (depth + 1) hash_cache batch)
              kvs depth ranges batch;
        let '(children, batch) := r in
        node_of_children node_key version depth hash_cache (pushed children) batch
    end in
  match kvs with
  | [(key, Some (value_hash, state_key))] =>
      if MIN_LEAF_DEPTH <=? depth
      then Ok (Some (new_leaf key value_hash (state_key, version)), batch)
      else split
  | [(key, None)] => Ok (None, batch)
  | _ => split
  end.

(** [children.sort_by_key(|(n, _)| *n)]: a stable sort. *)
Fixpoint insert_by_key {A} (x : Z * A) (l : list (Z * A)) : list (Z * A) :=
  match l with
  | [] => [x]
  | y :: l => if fst x <? fst y then x :: y :: l else y :: insert_by_key x l
  end.
Definition sort_by_key {A} (l : list (Z * A)) : list (Z * A) :=
  fold_left (fun acc x => insert_by_key x acc) l [].

Fixpoint batch_update_subtree_with_existing_leaf (fuel : nat) node_key version
    (existing_leaf_node : LeafNode HV K) (kvs : list Update) (depth : Z)
    (hash_cache : option (gmap NibblePath HV)) (batch : TreeUpdateBatch)
  : outcome (option (Node HV K) * TreeUpdateBatch) :=
  let existing_leaf_key := account_key existing_leaf_node in
  let split :=
    existing_leaf_bucket ← hv_get_nibble existing_leaf_key depth;
    ranges ← nibble_ranges kvs depth;
    match fuel with
    | O => Panic "out of fuel"
    | S fuel =>
        r ← update_ranges
              (fun child_index sub batch =>
                 child_node_key ← gen_child_node_key node_key version child_index;
                 if existing_leaf_bucket =? child_index
                 then batch_update_subtree_with_existing_leaf fuel child_node_key version
                        existing_leaf_node sub (depth + 1) hash_cache batch
                 else batch_update_subtree fuel child_node_key version sub (depth + 1) hash_cache
                        batch)
              kvs depth ranges batch;
        let '(visited, batch) := r in
        let isolated_existing_leaf :=
          negb (existsb (fun x => existing_leaf_bucket =? fst x) visited) in
        let children :=
          if isolated_existing_leaf
          then sort_by_key (pushed visited ++ [(existing_leaf_bucket, Node_Leaf existing_leaf_node)])
          else pushed visited in
        node_of_children node_key version depth hash_cache children batch
    end in
  match kvs with
  | [(key, value)] =>
      if bool_decide (key = existing_leaf_key) then
        match value with
        | Some (value_hash, state_key) =>
            Ok (Some (new_leaf key value_hash (state_key, version)), batch)
        | None => Ok (None, batch)
        end
      else split
  | _ => split
  end.

(** ** Updating the tree in storage *)

(** The recursive call of [insert_at_child]: an existing child is updated in place,
    a new one is built from the updates; [f] is [batch_insert_at] one level down. *)
Definition insert_at_child
    (f : NodeKey -> list Update -> TreeUpdateBatch -> outcome (option (Node HV K) * TreeUpdateBatch))
    node_key (internal_node : InternalNode HV) version (depth : Z)
    (hash_cache : option (gmap NibblePath HV)) (child_index : Z) (sub : list Update)
    (batch : TreeUpdateBatch) : outcome (option (Node HV K) * TreeUpdateBatch) :=
  child ← InternalNode_child internal_node child_index;
  match child with
  | Some child =>
      key ← gen_child_node_key node_key (child_version child) child_index;
      f key sub batch
  | None =>
      key ← gen_child_node_key node_key version child_index;
      batch_update_subtree 64 key version sub (depth + 1) hash_cache batch
  end.

Abbreviation OldOrNew := (EitherOrBoth (Z * Child HV) (Z * option (Node HV K))) (only parsing).

(** [filter(|old_or_new| !matches!(...))] *)
Definition not_deleted (x : OldOrNew) : bool :=
  match x with
  | EB_Right (_, None) | EB_Both _ (_, None) => false
  | _ => true
  end.

(** The children of the new internal node; new nodes go to the batch. *)
Fixpoint rebuild_children node_key version (hash_cache : option (gmap NibblePath HV))
    (children : list OldOrNew) (batch : TreeUpdateBatch)
  : outcome (list (Z * Child HV) * TreeUpdateBatch) :=
  match children with
  | [] => Ok ([], batch)
  | EB_Left (nibble, old_child) :: children =>
      r ← rebuild_children node_key version hash_cache children batch;
      let '(rest, batch) := r in
      Ok ((nibble, old_child) :: rest, batch)
  | EB_Right (nibble, new_node) :: children
  | EB_Both _ (nibble, new_node) :: children =>
      new_node ← expect new_node "Deletion already filtered out.";
      child_key ← gen_child_node_key node_key version nibble;
      batch ← put_node batch child_key new_node;
      child ← Child_for_node node_key nibble new_node hash_cache version;
      r ← rebuild_children node_key version hash_cache children batch;
      let '(rest, batch) := r in
      Ok ((nibble, child) :: rest, batch)
  end.

(** The only child that is left, when it is a leaf to be pushed up one level. *)
Definition push_up_leaf (reader : TreeReader HV K) node_key version (children : list OldOrNew)
    (batch : TreeUpdateBatch) : outcome (option (Node HV K) * TreeUpdateBatch) :=
  match children with
  | [EB_Left (nibble, old_child)] =>
      if Child_is_leaf old_child then
        child_key ← gen_child_node_key node_key (child_version old_child) nibble;
        node ← get_node_with_tag reader child_key "commit";
        batch ← put_stale_node batch child_key version;
        Ok (Some node, batch)
      else Ok (None, batch)
  | [EB_Right (_, new_node)] | [EB_Both _ (_, new_node)] =>
      new_node ← expect new_node "Deletion already filtered out.";
      Ok (if Node_is_leaf new_node then Some new_node else None, batch)
  | _ => Ok (None, batch)
  end.

(** An internal node with the updates merged in. *)
Definition merge_children (reader : TreeReader HV K) node_key version
    (hash_cache : option (gmap NibblePath HV)) (internal_node : InternalNode HV)
    (new_child_nodes_or_deletes : list (Z * option (Node HV K))) (batch : TreeUpdateBatch)
  : outcome (option (Node HV K) * TreeUpdateBatch) :=
  let children :=
    List.filter not_deleted
      (merge_join_by (fun x y => fst x ?= fst y) (children_sorted internal_node)
         new_child_nodes_or_deletes) in
  match children with
  | [] => Ok (None, batch)
  | _ =>
      r ← push_up_leaf reader node_key version children batch;
      let '(leaf, batch) := r in
      match leaf with
      | Some node => Ok (Some node, batch)
      | None =>
          r ← rebuild_children node_key version hash_cache children batch;
          let '(children, batch) := r in
          new_internal_node ← InternalNode_new (from_sorted children);
          Ok (Some (Node_Internal new_internal_node), batch)
      end
  end.

Fixpoint batch_insert_at (fuel : nat) (reader : TreeReader HV K) node_key version
    (kvs : list Update) (depth : Z) (hash_cache : option (gmap NibblePath HV))
    (batch : TreeUpdateBatch) : outcome (option (Node HV K) * TreeUpdateBatch) :=
  node_opt ← get_node_option reader node_key "commit";
  batch ← match node_opt with
          | Some _ => put_stale_node batch node_key version
          | None => Ok batch
          end;
  match kvs with
  | [] => Ok (node_opt, batch)
  | _ =>
      match node_opt with
      | Some (Node_Internal internal_node) =>
          ranges ← nibble_ranges kvs depth;
          match fuel with
          | O => Panic "out of fuel"
          | S fuel =>
              let at_child :=
                insert_at_child
                  (fun key sub batch =>
                     batch_insert_at fuel reader key version sub (depth + 1) hash_cache batch)
                  node_key internal_node version depth hash_cache in
              r ← (if depth <=? MAX_PARALLELIZABLE_DEPTH then
                     rs ← update_ranges_par at_child kvs depth ranges;
                     Ok (map fst rs, foldl TreeUpdateBatch_combine batch (map snd rs))
                   else update_ranges at_child kvs depth ranges batch);
              let '(new_child_nodes_or_deletes, batch) := r in
              merge_children reader node_key version hash_cache internal_node
                new_child_nodes_or_deletes batch
          end
      | Some (Node_Leaf leaf_node) =>
          batch_update_subtree_with_existing_leaf 64 node_key version leaf_node kvs depth hash_cache
            batch
      | None =>
          _ ← ensure (depth <=? MIN_LEAF_DEPTH) "Null node can only exist at top levels.";
          batch_update_subtree 64 node_key version kvs depth hash_cache batch
      | Some Node_Null => Panic "internal error: entered unreachable code"
      end
  end.

(** [BTreeMap]: sorted by key, the last value of a key wins. *)
Fixpoint btree_insert {V} (k : HV) (v : V) (m : list (HV * V)) : list (HV * V) :=
  match m with
  | [] => [(k, v)]
  | (k', v') :: m' =>
      match hv_cmp k k' with
      | Lt => (k, v) :: m
      | Eq => (k', v) :: m'
      | Gt => (k', v') :: btree_insert k v m'
      end
  end.

Definition btree_of {V} (kvs : list (HV * V)) : list (HV * V) :=
  fold_left (fun m kv => btree_insert (fst kv) (snd kv) m) kvs [].

(** [value_set.into_iter().map(|kv| { assert!(..); kv })] *)
Fixpoint assert_shard (shard_id : Z) (value_set : list Update) : outcome unit :=
  match value_set with
  | [] => Ok tt
  | kv :: value_set =>
      _ ← assert (nibble (fst kv) 0 =? shard_id) "assertion failed: kv.0.nibble(0) == shard_id";
      assert_shard shard_id value_set
  end.

Definition batch_put_value_set_for_shard (reader : TreeReader HV K) (shard_id : Z)
    (value_set : list Update) (node_hashes : option (gmap NibblePath HV))
    (persisted_version : option Version) version : outcome (Node HV K * TreeUpdateBatch) :=
  _ ← assert_shard shard_id value_set;
  let deduped_and_sorted_kvs := btree_of value_set in
  shard_root_nibble_path ← new_odd [Z.land (Z.shiftl shard_id 4) 255];
  let shard_root_node_key := mkNodeKey version shard_root_nibble_path in
  let shard_batch := TreeUpdateBatch_new in
  r ← (match persisted_version with
       | Some persisted_version =>
           batch_insert_at 64 reader (mkNodeKey persisted_version shard_root_nibble_path) version
             deduped_and_sorted_kvs 1 node_hashes shard_batch
       | None =>
           batch_update_subtree 64 shard_root_node_key version deduped_and_sorted_kvs 1 node_hashes
             shard_batch
       end);
  let '(shard_root_node_opt, shard_batch) := r in
  match shard_root_node_opt with
  | Some shard_root_node =>
      shard_batch ← put_node shard_batch shard_root_node_key shard_root_node;
      Ok (shard_root_node, shard_batch)
  | None => Ok (Node_Null, shard_batch)
  end.

(** The [filter_map] over the enumerated shard roots. *)
Fixpoint shard_children (i : Z) (shard_root_nodes : list (Node HV K)) version
  : outcome (list (Z * Child HV)) :=
  match shard_root_nodes with
  | [] => Ok []
  | shard_root_node :: shard_root_nodes =>
      match Node_node_type shard_root_node with
      | NodeType_Null => shard_children (i + 1) shard_root_nodes version
      | node_type =>
          index ← nibble_from_u8 (i mod 256);
          hash ← Node_hash shard_root_node;
          rest ← shard_children (i + 1) shard_root_nodes version;
          Ok ((index, mkChild hash version node_type) :: rest)
      end
  end.

Definition put_top_levels_nodes (shard_root_nodes : list (Node HV K))
    (persisted_version : option Version) version : outcome (HV * TreeUpdateBatch) :=
  _ ← ensure (Z.of_nat (length shard_root_nodes) =? 16) "sharded root nodes must be 16";
  children ← shard_children 0 shard_root_nodes version;
  root_node ← (if Children_is_empty children then Ok Node_Null
               else n ← InternalNode_new children; Ok (Node_Internal n));
  root_hash ← Node_hash root_node;
  let tree_update_batch := TreeUpdateBatch_new in
  tree_update_batch ←
    (match persisted_version with
     | Some persisted_version =>
         k ← new_empty_path persisted_version;
         put_stale_node tree_update_batch k version
     | None => Ok tree_update_batch
     end);
  k ← new_empty_path version;
  tree_update_batch ← put_node tree_update_batch k root_node;
  Ok (root_hash, tree_update_batch).

Definition get_shard_persisted_versions (reader : TreeReader HV K)
    (root_persisted_version : option Version) : outcome (list (option Version)) :=
  match root_persisted_version with
  | None => Ok (replicate 16 None)
  | Some root_persisted_version =>
      root_node_key ← new_empty_path root_persisted_version;
      root_node ← get_node_with_tag reader root_node_key "commit";
      match root_node with
      | Node_Internal root_node =>
          mapM (fun shard_id =>
                  nibble ← nibble_from_u8 shard_id;
                  c ← InternalNode_child root_node nibble;
                  Ok (option_map child_version c))
            (seqZ 0 16)
      | _ => Panic "Assume the db doesn't have exactly 1 state."
      end
  end.

(** [put_value_set_test]: the 16 shards, then the top level. *)
Fixpoint put_shards (reader : TreeReader HV K) (value_set : list Update) version (shards : list Z)
    (tree_update_batch : TreeUpdateBatch) : outcome (list (Node HV K) * TreeUpdateBatch) :=
  match shards with
  | [] => Ok ([], tree_update_batch)
  | shard_id :: shards =>
      r ← batch_put_value_set_for_shard reader shard_id
            (List.filter (fun kv => nibble (fst kv) 0 =? shard_id) value_set) None
            (if 1 <=? version then Some (version - 1) else None) version;
      let '(shard_root_node, shard_batch) := r in
      r ← put_shards reader value_set version shards
            (TreeUpdateBatch_combine tree_update_batch shard_batch);
      let '(shard_root_nodes, tree_update_batch) := r in
      Ok (shard_root_node :: shard_root_nodes, tree_update_batch)
  end.

Definition put_value_set_test (reader : TreeReader HV K) (value_set : list Update) version
  : outcome (HV * TreeUpdateBatch) :=
  r ← put_shards reader value_set version (seqZ 0 16) TreeUpdateBatch_new;
  let '(shard_root_nodes, tree_update_batch) := r in
  r ← put_top_levels_nodes shard_root_nodes (if 1 <=? version then Some (version - 1) else None)
        version;
  let '(root_hash, top_levels_batch) := r in
  Ok (root_hash, TreeUpdateBatch_combine tree_update_batch top_levels_batch).

(** ** Reading *)

(** The loop of [get_with_proof_ext], [n] rounds left of the 65. *)
Fixpoint get_with_proof_loop (n : nat) (reader : TreeReader HV K) (key : HV)
    (target_root_depth : Z) (next_node_key : NodeKey) (nibble_iter : NibbleIterator)
    (out_siblings : list (NodeInProof HV))
  : outcome (option (HV * (K * Version)) * SparseMerkleProofExt HV) :=
  match n with
  | O => Err "Jellyfish Merkle tree has cyclic graph inside."
  | S n' =>
      let nibble_depth := 65 - Z.of_nat n in
      next_node ←
        (match get_node_with_tag reader next_node_key "get_proof" with
         | Err e => Err (if nibble_depth =? 0 then "MissingRootError" else e)
         | o => o
         end);
      match next_node with
      | Node_Internal internal_node =>
          if in_leaf_count internal_node =? 1 then
            only_child ← expect (head (children_sorted internal_node))
                           "called Option::unwrap() on a None value";
            next_node_key ← gen_child_node_key next_node_key (child_version (snd only_child))
                              (fst only_child);
            get_with_proof_loop n' reader key target_root_depth next_node_key nibble_iter out_siblings
          else
            r ← NibbleIterator_next nibble_iter;
            let '(queried_child_index, nibble_iter) := r in
            queried_child_index ← ok_or queried_child_index "ran out of nibbles";
            r ← get_child_with_siblings internal_node next_node_key queried_child_index
                  (Some reader) out_siblings (nibble_depth * 4) target_root_depth;
            let '(child_node_key, out_siblings) := r in
            match child_node_key with
            | Some node_key =>
                get_with_proof_loop n' reader key target_root_depth node_key nibble_iter out_siblings
            | None => Ok (None, new_partial None out_siblings target_root_depth)
            end
      | Node_Leaf leaf_node =>
          Ok (if bool_decide (account_key leaf_node = key)
              then Some (value_hash leaf_node, value_index leaf_node) else None,
              new_partial (Some (sparse_leaf_from leaf_node)) out_siblings target_root_depth)
      | Node_Null => Ok (None, SparseMerkleProofExt_new None [])
      end
  end.

Definition get_with_proof_ext (reader : TreeReader HV K) (key : HV) version (target_root_depth : Z)
  : outcome (option (HV * (K * Version)) * SparseMerkleProofExt HV) :=
  next_node_key ← new_empty_path version;
  nibble_path ← new_even (hv_bytes key);
  nibble_iter ← nibbles nibble_path;
  get_with_proof_loop 65 reader key target_root_depth next_node_key nibble_iter [].

Definition get_with_proof (reader : TreeReader HV K) (key : HV) version
  : outcome (option (HV * (K * Version)) * SparseMerkleProof HV) :=
  r ← get_with_proof_ext reader key version 0;
  Ok (fst r, proof_from_ext (snd r)).

(** The siblings on the right, from the bottom up. *)
Definition right_siblings (siblings : list HV) (bits : list bool) : list HV :=
  rev (omap (fun x : HV * bool => if snd x then None else Some (fst x)) (combine siblings bits)).

Definition jmt_get_range_proof (reader : TreeReader HV K) (rightmost_key_to_prove : HV) version
  : outcome (SparseMerkleRangeProof HV) :=
  r ← get_with_proof reader rightmost_key_to_prove version;
  let '(account, proof) := r in
  _ ← ensure (match account with Some _ => true | None => false end)
        "rightmost_key_to_prove must exist.";
  Ok (mkSparseMerkleRangeProof
        (right_siblings (smp_siblings proof) (iter_bits rightmost_key_to_prove))).

Definition get_root_node_option (reader : TreeReader HV K) version : outcome (option (Node HV K)) :=
  root_node_key ← new_empty_path version;
  get_node_option reader root_node_key "get_root".

Definition get_root_node (reader : TreeReader HV K) version : outcome (Node HV K) :=
  o ← get_root_node_option reader version;
  ok_or o "Root node not found".

Definition jmt_get_root_hash (reader : TreeReader HV K) version : outcome HV :=
  n ← get_root_node reader version; Node_hash n.

Definition get_root_hash_option (reader : TreeReader HV K) version : outcome (option HV) :=
  o ← get_root_node_option reader version;
  match o with
  | Some n => h ← Node_hash n; Ok (Some h)
  | None => Ok None
  end.

Definition get_leaf_count (reader : TreeReader HV K) version : outcome Z :=
  n ← get_root_node reader version; Ok (Node_leaf_count n).

(** Children first, then the node itself; keys are at most 64 nibbles long. *)
Fixpoint get_all_nodes_referenced_impl (fuel : nat) (reader : TreeReader HV K) (key : NodeKey)
    (out_keys : list NodeKey) : outcome (list NodeKey) :=
  n ← get_node reader key;
  out_keys ←
    (match n with
     | Node_Internal internal_node =>
         match fuel with
         | O => Panic "out of fuel"
         | S fuel =>
             foldl (fun acc (x : Z * Child HV) =>
                      out_keys ← acc;
                      child_key ← gen_child_node_key key (child_version (snd x)) (fst x);
                      get_all_nodes_referenced_impl fuel reader child_key out_keys)
               (Ok out_keys) (children_sorted internal_node)
         end
     | Node_Leaf _ | Node_Null => Ok out_keys
     end);
  Ok (out_keys ++ [key]).

Definition get_all_nodes_referenced (reader : TreeReader HV K) version : outcome (list NodeKey) :=
  k ← new_empty_path version;
  get_all_nodes_referenced_impl 64 reader k [].
End Tree.
Arguments TreeUpdateBatch : clear implicits.
Arguments NibbleRangeIterator : clear implicits.
Arguments mkNibbleRangeIterator {HV V}.
Arguments sorted_kvs {HV V}.
Arguments nibble_idx {HV V}.
Arguments nri_pos {HV V}.
