(* ===== verification/JellyfishRead.v ===== *)
(** * Reading from a stored tree

    [get_with_proof] on a tree that represents a set of leaves returns the value of
    the key and the proof of the reference sparse Merkle tree. *)
From stdpp Require Import base list numbers strings option gmap sorting.
From Stdlib Require Import ZArith Lia Bool Sorted.
From S2P Require Import Prelude Hash SparseMerkleProof SparseSpec SparseFacts NibblePath NibblePathFacts ByteCodec JellyfishNode JellyfishNodeFacts JellyfishHash JellyfishSpec JellyfishTree.

Section Reading.
Context {HV : Type} `{HashValueOps HV} `{HashValueBits HV} `{!HashValueLaws HV} `{CryptoHasher HV}
  `{LeafHasher HV} {K : Type}.
Implicit Types (cs : list (Z * Child HV)) (c : Child HV) (lvs : list (LeafNode HV K))
  (x : LeafNode HV K) (key : HV) (p : list Z).

(** The hashes of the siblings [rpath] lists. *)
Definition rhashes (sibs : list (nat * list (Z * Child HV))) : list HV :=
  map (fun y => rhash (fst y) (snd y)) sibs.

(** A proof continued below a child. *)
Definition prove_below (d : nat) key (hs : list HV) lvs : option (SparseMerkleLeafNode HV) * list HV :=
  let '(lf, s) := smt_prove (256 - 4 * d) (4 * d) key (sl lvs) in (lf, hs ++ s).

Lemma smt_prove_one fuel d key (y : SparseMerkleLeafNode HV) : smt_prove fuel d key [y] = (Some y, []).
Proof. by destruct fuel. Qed.

Lemma smt_prove_split f d key (l : list (SparseMerkleLeafNode HV)) : (2 <= length l)%nat ->
  smt_prove (S f) d key l =
  let b := key_bit key d in
  let '(leaf, sibs) := smt_prove f (S d) key (side d b l) in
  (leaf, smt f (S d) (side d (negb b) l) :: sibs).
Proof. intros Hl. destruct l as [|u [|v l]]; cbn in Hl; [lia|lia|done]. Qed.

(** Indices that agree with [n] above bit [k]. *)
Definition near (n : Z) (k : nat) cs : Prop :=
  forall i c, (i, c) ∈ cs -> i / 2 ^ Z.of_nat k = n / 2 ^ Z.of_nat k.

Lemma near_agree n k cs : near n k cs -> agree_above k cs.
Proof. intros Hn i c j e Hi Hj. by rewrite (Hn i c Hi), (Hn j e Hj). Qed.

Lemma near_half n k cs : near n (S k) cs -> near n k (half k (Z.testbit n (Z.of_nat k)) cs).
Proof.
  intros Hn i c Hi. apply list_elem_of_filter in Hi as [Bi Hi]. cbn [fst] in Bi.
  specialize (Hn i c Hi). rewrite Nat2Z.inj_succ, Z.pow_succ_r in Hn by lia.
  rewrite (Z.mul_comm 2), <- !Z.div_div in Hn by lia.
  assert (E : forall z, z / 2 ^ Z.of_nat k =
    2 * (z / 2 ^ Z.of_nat k / 2) + Z.b2z (Z.testbit z (Z.of_nat k))).
  { intros z. rewrite Z.testbit_spec' by lia. apply Z.div_mod. lia. }
  rewrite (E i), (E n), Hn, Bi. done.
Qed.

(** The end of the way inside a node: a slot, or the only leaf of a subtree. *)
Lemma rpath_stop d key k i c rest lvs : (d < 64)%nat -> (k <= 3)%nat ->
  stand_for d ((i, c) :: rest) lvs -> near (nib key d) k ((i, c) :: rest) ->
  (k =? 0)%nat || single_leaf ((i, c) :: rest) = true ->
  group d i lvs = lvs /\ ((i = nib key d /\ k = 0%nat) \/ length lvs = 1%nat) /\
  smt_prove (256 - (4 * d + 4 - k)) (4 * d + 4 - k) key (sl lvs) =
  smt_prove (256 - 4 * S d) (4 * S d) key (sl lvs).
Proof.
  intros Hd Hk Hst Hn Es.
  assert (rest = []) as ->.
  { destruct k as [|k]; [|by destruct rest]. apply near_agree in Hn.
    pose proof (agree_above_0 _ (proj1 Hst) Hn) as Hl. destruct rest; [done|cbn in Hl; lia]. }
  pose proof (stand_for_one d i c lvs Hd Hst) as Eg. split; [done|]. destruct k as [|k].
  - split; [left; split; [|done]|by replace (4 * d + 4 - 0)%nat with (4 * S d)%nat by lia].
    specialize (Hn i c ltac:(left)). change (2 ^ Z.of_nat 0) with 1 in Hn. by rewrite !Z.div_1_r in Hn.
  - cbn [Nat.eqb orb single_leaf] in Es. pose proof Hst as (_ & _ & _ & Hl).
    apply (Hl i c ltac:(left)) in Es. rewrite Eg in Es. split; [by right|].
    destruct lvs as [|x [|]]; [done| |done]. cbn [sl map]. by rewrite !smt_prove_one.
Qed.

Lemma rpath_prove d key : (d < 64)%nat -> forall k cs lvs, (1 <= k <= 4)%nat -> stand_for d cs lvs ->
  near (nib key d) k cs -> (2 <= length lvs)%nat ->
  let r := rpath k (nib key d) cs in
  smt_prove (256 - (4 * d + 4 - k)) (4 * d + 4 - k) key (sl lvs) =
  match snd r with
  | None => (None, rhashes (fst r))
  | Some (i, _) => prove_below (S d) key (rhashes (fst r)) (group d i lvs)
  end /\
  match snd r with
  | None => True
  | Some (i, c) => (i, c) ∈ cs /\
      ((i = nib key d /\ length (fst r) = k) \/ length (group d i lvs) = 1%nat)
  end.
Proof.
  intros Hd. induction k as [|k IH]; intros cs lvs Hk Hst Hn Hmany; [lia|]. cbv zeta.
  replace (256 - (4 * d + 4 - S k))%nat with (S (256 - (4 * d + 4 - k))) by lia.
  rewrite smt_prove_split by (by rewrite sl_length).
  replace (4 * d + 4 - S k)%nat with (4 * d + 3 - k)%nat by lia. rewrite key_bit_nib by lia.
  cbn [rpath]. set (b := Z.testbit (nib key d) (Z.of_nat k)). cbv zeta.
  rewrite !side_sl by lia. replace (S (4 * d + 3 - k)) with (4 * d + 4 - k)%nat by lia.
  pose proof (stand_for_half d k b cs lvs Hst) as Hp. pose proof (near_half _ k cs Hn) as Hpn. fold b in Hpn.
  rewrite <- (rhash_smt d Hd k (half k (negb b) cs)) by
    (lia || by apply stand_for_half || by apply agree_above_half, (near_agree (nib key d))).
  assert (Hin : forall i c, (i, c) ∈ half k b cs -> (i, c) ∈ cs /\
    group d i (lhalf d k b lvs) = group d i lvs).
  { intros i c Hx. apply list_elem_of_filter in Hx as [Eb Hx]. split; [done|].
    by rewrite group_lhalf, decide_True. }
  destruct (half k b cs) as [|[i c] rest] eqn:Eh.
  - rewrite (stand_for_nil d (lhalf d k b lvs)) by done. cbn [fst snd].
    destruct (256 - (4 * d + 4 - k))%nat; done.
  - destruct ((k =? 0)%nat || single_leaf ((i, c) :: rest)) eqn:Es; cbn [fst snd].
    + destruct (Hin i c ltac:(left)) as [Hic Eg].
      destruct (rpath_stop d key k i c rest _ Hd ltac:(lia) Hp Hpn Es) as (Eo & Hor & Epr).
      rewrite Eg in Eo. unfold prove_below. rewrite Eo, Epr.
      split; [by destruct (smt_prove (256 - 4 * S d) _ key _)|]. split; [done|].
      destruct Hor as [[-> ->]|Hor]; [by left|by right].
    + apply orb_false_iff in Es as [Ek Es]. destruct k as [|k]; [done|].
      destruct (IH _ _ ltac:(lia) Hp Hpn) as [IH1 IH2].
      { eapply stand_for_many; [exact Hd|exact Hp|done|done]. }
      rewrite IH1. destruct (rpath (S k) (nib key d) ((i, c) :: rest)) as [sibs [[j e]|]]; cbn [fst snd] in *.
      * destruct IH2 as [Hje Hor]. destruct (Hin j e Hje) as [Hje' Ej]. unfold prove_below in *.
        rewrite Ej in *. split; [by destruct (smt_prove (256 - 4 * S d) _ key _)|]. split; [done|].
        destruct Hor as [[-> Hlen]|Hor]; [left; cbn [length]; lia|by right].
      * done.
Qed.

(** ** The walk down the tree *)

(** The reader finds the nodes of the store. *)
Definition reads (reader : TreeReader HV K) (s : store) : Prop :=
  forall k tag n, s k = Some n -> get_node_option reader k tag = Ok (Some n).

Lemma reads_node reader s k tag n : reads reader s -> s k = Some n -> get_node_with_tag reader k tag = Ok n.
Proof. intros Hr E. unfold get_node_with_tag. by rewrite (Hr _ _ _ E). Qed.

(** What an internal node and its children satisfy. *)
Lemma represents_child s p lvs cs n i c : represents s p lvs (Node_Internal (mkInternalNode cs n)) ->
  (i, c) ∈ cs -> exists sub, s (child_key p (i, c)) = Some sub /\
    represents s (p ++ [i]) (group (length p) i lvs) sub /\ child_node_type c = Node_node_type sub /\
    nibble_ok i.
Proof.
  intros Hr Hin. inversion Hr as [|p' lvs' cs' sub Hp Hl Hst Hs Hsub Ht]; subst. exists (sub i).
  destruct Hst as ([_ Hf] & _). rewrite Forall_forall in Hf. specialize (Hf (i, c) Hin).
  split_and!; [by eapply Hs|by eapply Hsub|by eapply Ht|done..].
Qed.

Lemma represents_internal s p lvs cs n : represents s p lvs (Node_Internal (mkInternalNode cs n)) ->
  (length p < 64)%nat /\ stand_for (length p) cs lvs /\ n = Z.of_nat (length lvs) /\
  ((2 <= length lvs)%nat \/ (p = [] /\ lvs <> [])).
Proof. intros Hr. inversion Hr; subst. done. Qed.

(** Below the root, a single leaf is stored as such. *)
Lemma represents_single s p i x n : represents s (p ++ [i]) [x] n -> n = Node_Leaf x.
Proof.
  intros Hr. inversion Hr as [|p' lvs' cs' sub Hp Hl]; subst; [done|].
  destruct Hl as [Hl|[Hl _]]; [cbn in Hl; lia|by destruct p].
Qed.

Lemma represents_leaves_stored reader s v p lvs cs n : reads reader s -> Forall nibble_ok p ->
  represents s p lvs (Node_Internal (mkInternalNode cs n)) ->
  leaves_stored reader (mkNodeKey v (pack p)) cs.
Proof.
  intros Hrd Hp Hr i c Hin Hl. destruct (represents_internal _ _ _ _ _ Hr) as (Hlen & Hst & _).
  destruct (represents_child _ _ _ _ _ _ _ Hr Hin) as (sub & Hs & Hsub & Ht & Hi).
  pose proof Hst as (_ & _ & Hh & Hlf). pose proof (proj1 (Hlf i c Hin) Hl) as E1.
  destruct (group (length p) i lvs) as [|x [|]] eqn:Eg; [done| |done].
  apply represents_single in Hsub as ->. exists (child_key p (i, c)), x.
  rewrite gen_child_node_key_pack by done. split; [done|]. split; [by eapply reads_node|].
  rewrite (Hh i c Hin), Eg. unfold hash_at. cbn [sl map]. by rewrite smt_one.
Qed.

(** The leaf a walk ends at, as a value. *)
Definition found key (o : option (LeafNode HV K)) : option (HV * (K * Version)) :=
  x ← o; if bool_decide (account_key x = key) then Some (value_hash x, value_index x) else None.

Definition end_leaf (o : option (LeafNode HV K)) : option (SparseMerkleLeafNode HV) :=
  option_map sparse_leaf_from o.

Lemma get_with_proof_leaf n reader s key target nk it out x : reads reader s -> s nk = Some (Node_Leaf x) ->
  get_with_proof_loop (S n) reader key target nk it out =
  Ok (found key (Some x), new_partial (end_leaf (Some x)) out target).
Proof. intros Hr Hs. cbn [get_with_proof_loop]. by rewrite (reads_node _ _ _ _ _ Hr Hs), obind_Ok. Qed.

Lemma get_with_proof_null n reader s key target nk it out : reads reader s -> s nk = Some Node_Null ->
  get_with_proof_loop (S n) reader key target nk it out = Ok (None, SparseMerkleProofExt_new None []).
Proof. intros Hr Hs. cbn [get_with_proof_loop]. by rewrite (reads_node _ _ _ _ _ Hr Hs), obind_Ok. Qed.

Lemma drop_below {A} (r : Z) (d m : nat) (l s : list A) : Z.of_nat m = Z.of_nat d + 4 ->
  length l = 4%nat \/ s = [] ->
  drop (Z.to_nat (r - Z.of_nat d)) l ++ drop (Z.to_nat (r - Z.of_nat m)) s =
  drop (Z.to_nat (r - Z.of_nat d)) (l ++ s).
Proof.
  intros Hm [Hl| ->]; [|by rewrite drop_nil, !app_nil_r]. rewrite drop_app, Hl. do 2 f_equal. lia.
Qed.

Lemma near_top n cs : nibble_ok n -> children_ok cs -> near n 4 cs.
Proof.
  intros Hn [_ Hf] i c Hi. rewrite Forall_forall in Hf. apply Hf in Hi. unfold nibble_ok in *.
  cbn [fst] in Hi. change (2 ^ Z.of_nat 4) with 16. by rewrite !Z.div_small by lia.
Qed.

(** What a walk from the node at path [p] returns: the proof of the reference tree
    below it, cut to the depths the caller asked for. *)
Definition walk_result key (target : Z) p lvs (out : list (NodeInProof HV))
    (r : outcome (option (HV * (K * Version)) * SparseMerkleProofExt HV)) : Prop :=
  exists leaf nps,
    r = Ok (found key leaf, new_partial (end_leaf leaf) (out ++ nps) target) /\
    end_leaf leaf = fst (smt_prove (256 - 4 * length p) (4 * length p) key (sl lvs)) /\
    map NodeInProof_hash nps =
    drop (Z.to_nat (target - Z.of_nat (4 * length p)))
      (snd (smt_prove (256 - 4 * length p) (4 * length p) key (sl lvs))) /\
    (forall x, leaf = Some x -> x ∈ lvs).

Lemma walk_leaf key target p x out :
  walk_result key target p [x] out (Ok (found key (Some x), new_partial (end_leaf (Some x)) out target)).
Proof.
  exists (Some x), []. rewrite app_nil_r. cbn [sl map]. rewrite smt_prove_one. cbn [fst snd].
  rewrite drop_nil. split_and!; [done..|]. intros y [= <-]. left.
Qed.

(** A walk below a child continues a walk. *)
Lemma walk_below key target p i lvs nps sibs out r :
  smt_prove (256 - 4 * length p) (4 * length p) key (sl lvs) =
    prove_below (S (length p)) key (rhashes sibs) (group (length p) i lvs) ->
  map NodeInProof_hash nps = drop (Z.to_nat (target - Z.of_nat (4 * length p))) (rhashes sibs) ->
  length sibs = 4%nat \/ length (group (length p) i lvs) = 1%nat ->
  walk_result key target (p ++ [i]) (group (length p) i lvs) (out ++ nps) r ->
  walk_result key target p lvs out r.
Proof.
  intros Epr Enp Hlen (leaf & nps' & -> & El & Em & Hx). exists leaf, (nps ++ nps').
  rewrite app_assoc, Epr. unfold prove_below. rewrite length_app in El, Em. cbn [length] in El, Em.
  rewrite Nat.add_1_r in El, Em.
  assert (Hs : length (rhashes sibs) = 4%nat \/
    snd (smt_prove (256 - 4 * S (length p)) (4 * S (length p)) key (sl (group (length p) i lvs))) = []).
  { destruct Hlen as [Hl|Hl]; [left; unfold rhashes; by rewrite length_map|right].
    destruct (group (length p) i lvs) as [|x [|]]; [done| |done]. cbn [sl map]. by rewrite smt_prove_one. }
  destruct (smt_prove (256 - 4 * S (length p)) _ key _) as [lf s]. cbn [fst snd] in *.
  split_and!; [done|done| |].
  - rewrite map_app, Enp, Em. apply drop_below; [lia|done].
  - intros x E. eapply group_sub, Hx, E.
Qed.

Lemma get_with_proof_walk reader s key target : reads reader s ->
  forall n v p lvs node out, (length p + n = 65)%nat -> (length p <= 64)%nat -> Forall nibble_ok p ->
  s (mkNodeKey v (pack p)) = Some node -> represents s p lvs node ->
  walk_result key target p lvs out
    (get_with_proof_loop n reader key target (mkNodeKey v (pack p))
      (nib_it (key_nibbles key) 0 64 (length p)) out).
Proof.
  intros Hrd. induction n as [|n IH]; intros v p lvs node out Hn Hlen Hp Hs Hr; [lia|].
  destruct node as [[cs m]|x|]; [| |inversion Hr].
  2:{ rewrite (get_with_proof_leaf _ _ _ _ _ _ _ _ _ Hrd Hs). inversion Hr; subst. apply walk_leaf. }
  destruct (represents_internal _ _ _ _ _ Hr) as (Hd & Hst & -> & Hmany).
  cbn [get_with_proof_loop]. rewrite (reads_node _ _ _ _ _ Hrd Hs), obind_Ok. cbn [in_leaf_count].
  destruct (Z.of_nat (length lvs) =? 1) eqn:E1; [apply Z.eqb_eq in E1|apply Z.eqb_neq in E1].
  - destruct Hmany as [Hm|[-> _]]; [lia|]. destruct lvs as [|x [|]]; [done| |cbn in E1; lia].
    destruct cs as [|[i c] cs]; [by apply stand_for_nil in Hst|]. cbn [children_sorted in_children head expect].
    rewrite obind_Ok. cbn [fst snd].
    destruct (represents_child _ _ _ _ _ i c Hr ltac:(left)) as (sub & Hsub & Hrep & _ & Hi).
    assert (Eg : group 0 i [x] = [x]).
    { pose proof (represents_nonempty _ _ _ _ Hrep) as Hne. unfold group in *. cbn [length] in Hne.
      rewrite filter_cons in Hne |- *. by destruct (decide _). }
    cbn [length] in Hrep. rewrite Eg in Hrep. apply (represents_single s []) in Hrep as ->.
    rewrite gen_child_node_key_pack, obind_Ok by done. destruct n as [|n]; [cbn in Hn; lia|].
    rewrite (get_with_proof_leaf _ _ _ _ _ _ _ _ _ Hrd Hsub). apply (walk_leaf key target []).
  - assert (H2l : (2 <= length lvs)%nat).
    { destruct Hmany as [Hm|[_ Hm]]; [done|]. destruct lvs as [|? [|]]; cbn in *; [done|lia|lia]. }
    destruct (nib_it_next (key_nibbles key) 0 64 (length p) (nib key (length p)) (key_nibbles_ok key) Hd
      (nib_lookup key _ Hd)) as [_ ->]. rewrite obind_Ok. cbn [ok_or]. rewrite obind_Ok.
    pose proof (nib_ok key _ Hd) as Hnib. pose proof Hst as (Hc & _).
    replace ((65 - Z.of_nat (S n)) * 4) with (Z.of_nat (4 * length p)) by lia.
    destruct (get_child_with_siblings_spec (mkInternalNode cs (Z.of_nat (length lvs))) (Some reader) v p
      (nib key (length p)) target (Z.of_nat (4 * length p)) out) as (nps & -> & Enps);
      [done|cbn; lia|by eapply represents_leaves_stored|done|done|done|].
    cbn [in_children] in *. rewrite obind_Ok.
    destruct (rpath_prove (length p) key Hd 4 cs lvs ltac:(lia) Hst (near_top _ _ Hnib Hc) H2l) as [Epr Hend].
    replace (4 * length p + 4 - 4)%nat with (4 * length p)%nat in Epr by lia.
    destruct (rpath 4 (nib key (length p)) cs) as [sibs [[i c]|]]; cbn [fst snd option_map] in *.
    + destruct Hend as [Hic Hor].
      destruct (represents_child _ _ _ _ _ i c Hr Hic) as (sub & Hsub & Hrep & _ & Hi).
      apply (walk_below _ _ p i lvs nps sibs); [done|done|destruct Hor as [[_ ?]|?]; auto|].
      destruct Hor as [[-> _]|Hone].
      * replace (S (length p)) with (length (p ++ [nib key (length p)])) by (rewrite length_app; cbn; lia).
        eapply IH; [rewrite length_app; cbn; lia|rewrite length_app; cbn; lia| |exact Hsub|exact Hrep].
        apply Forall_app. split; [done|by rewrite Forall_singleton].
      * destruct (group (length p) i lvs) as [|x [|]]; [done| |done].
        apply represents_single in Hrep as ->. destruct n as [|n]; [lia|].
        rewrite (get_with_proof_leaf _ _ _ _ _ _ _ _ _ Hrd Hsub). apply walk_leaf.
    + exists None, nps. rewrite Epr. cbn [fst snd end_leaf option_map]. split_and!; done.
Qed.

(** ** Whole trees *)

(** The tree at version [v] holds [lvs]. *)
Definition tree_at (s : store) (v : Version) lvs : Prop :=
  NoDup (map account_key lvs) /\
  exists node, s (mkNodeKey v (pack [])) = Some node /\
    ((lvs = [] /\ node = Node_Null) \/ represents s [] lvs node).

(** The value of a key, with the place it is stored at. *)
Definition value_at lvs key : option (HV * (K * Version)) :=
  match filter (fun x => account_key x = key) lvs with
  | [] => None
  | x :: _ => Some (value_hash x, value_index x)
  end.

Lemma sl_keys lvs : map leaf_key (sl lvs) = map account_key lvs.
Proof. unfold sl. rewrite map_map. done. Qed.

Lemma filter_sl key lvs :
  filter (fun y => leaf_key y = key) (sl lvs) = sl (filter (fun x => account_key x = key) lvs).
Proof.
  unfold sl. induction lvs as [|x lvs IH]; [done|]. cbn [map]. rewrite !filter_cons, IH.
  cbn [sparse_leaf_from leaf_key]. by repeat case_decide.
Qed.

Lemma value_of_at lvs key : value_of (sl lvs) key = option_map fst (value_at lvs key).
Proof.
  unfold value_of, value_at. rewrite filter_sl. by destruct (filter _ lvs) as [|x l].
Qed.

Lemma found_value_at lvs key leaf sibs : NoDup (map account_key lvs) ->
  smt_prove 256 0 key (sl lvs) = (end_leaf leaf, sibs) -> (forall x, leaf = Some x -> x ∈ lvs) ->
  found key leaf = value_at lvs key.
Proof.
  intros Hnd Epr Hx.
  assert (Hu : under 0 key (sl lvs)) by (apply under_root; by rewrite sl_keys).
  destruct (smt_prove_spec key 256 0 (sl lvs) (end_leaf leaf) sibs eq_refl Hu Epr) as (_ & Hpath & _).
  pose proof (path_filter key (length sibs) 0 (sl lvs)) as Hf. rewrite Hpath, filter_sl in Hf.
  unfold value_at. destruct leaf as [x|].
  - change (option_list (end_leaf (Some x))) with [sparse_leaf_from x] in Hf. cbn [found mbind option_bind]. rewrite filter_cons in Hf. cbn [sparse_leaf_from leaf_key] in Hf.
    destruct (decide (account_key x = key)) as [E|E].
    + rewrite bool_decide_true by done. specialize (Hx x eq_refl).
      destruct (filter (fun x => account_key x = key) lvs) as [|y l] eqn:Ef; [done|].
      assert (Hy : y ∈ filter (fun x => account_key x = key) lvs) by (rewrite Ef; left).
      apply list_elem_of_filter in Hy as [Ey Hy].
      destruct (proj1 (list_elem_of_lookup lvs x) Hx) as [a Ha].
      destruct (proj1 (list_elem_of_lookup lvs y) Hy) as [b Hb].
      assert (a = b) as ->; [|congruence].
      eapply (NoDup_lookup (map account_key lvs)); [done|..]; change (map account_key lvs) with (account_key <$> lvs);
        rewrite list_lookup_fmap; [by rewrite Ha; cbn; rewrite E|by rewrite Hb; cbn; rewrite Ey].
    + rewrite bool_decide_false by done. by destruct (filter _ lvs).
  - by destruct (filter _ lvs).
Qed.

Lemma new_empty_path_pack v : new_empty_path v = Ok (mkNodeKey v (pack [])).
Proof. reflexivity. Qed.

Lemma key_path key : new_even (hv_bytes key) = Ok (pack (key_nibbles key)).
Proof.
  unfold new_even, blen. rewrite root_nibble_height, hv_bytes_length, assert_true, obind_Ok by done.
  unfold pack, key_nibbles. by rewrite pack_bytes_nibbles, bytes_nibbles_length, hv_bytes_length by apply hv_bytes_ok.
Qed.

Lemma get_with_proof_ext_spec reader s v lvs key r : reads reader s -> tree_at s v lvs -> 0 <= r ->
  lvs <> [] \/ r = 0 ->
  exists nps,
    get_with_proof_ext reader key v r =
    Ok (value_at lvs key, new_partial (fst (smt_prove 256 0 key (sl lvs))) nps r) /\
    map NodeInProof_hash nps = drop (Z.to_nat r) (snd (smt_prove 256 0 key (sl lvs))).
Proof.
  intros Hrd (Hnd & node & Hs & Hnode) Hr Hor. unfold get_with_proof_ext.
  rewrite new_empty_path_pack, obind_Ok, key_path, obind_Ok. unfold nibbles.
  assert (Eit : NibbleIterator_new (pack (key_nibbles key)) 0 (np_num_nibbles (pack (key_nibbles key))) =
    Ok (nib_it (key_nibbles key) 0 64 0)).
  { rewrite np_num_pack, key_nibbles_length. reflexivity. }
  rewrite Eit, obind_Ok. destruct Hnode as [[-> ->]|Hrep].
  - destruct Hor as [| ->]; [done|]. exists [].
    by rewrite (get_with_proof_null 64 _ _ _ _ _ _ _ Hrd Hs).
  - destruct (get_with_proof_walk reader s key r Hrd 65 v [] lvs node [] eq_refl ltac:(cbn; lia)
      ltac:(constructor) Hs Hrep) as (leaf & nps & Eloop & El & Em & Hx).
    cbn [length] in Eloop, El, Em. rewrite Eloop. change (4 * 0)%nat with 0%nat in *.
    change (256 - 0)%nat with 256%nat in *.
    replace (r - Z.of_nat 0) with r in Em by lia. exists nps. cbn [app]. rewrite <- El. split; [|done].
    do 2 f_equal. eapply (found_value_at lvs key leaf _ Hnd); [|done].
    rewrite El. apply surjective_pairing.
Qed.

Lemma get_with_proof_spec reader s v lvs key : reads reader s -> tree_at s v lvs ->
  get_with_proof reader key v = Ok (value_at lvs key, sparse_proof_of (sl lvs) key).
Proof.
  intros Hrd Ht. unfold get_with_proof.
  destruct (get_with_proof_ext_spec reader s v lvs key 0 Hrd Ht ltac:(lia) ltac:(auto)) as (nps & -> & Em).
  rewrite obind_Ok. cbn [fst snd]. unfold proof_from_ext, new_partial. cbn [smpe_leaf smpe_siblings].
  rewrite Em, drop_0. done.
Qed.

Lemma hash_at_root lvs : hash_at 0 lvs = smt_root (sl lvs).
Proof. unfold hash_at, smt_root. generalize (sl lvs). intros l. by change (256 - 4 * 0)%nat with 256%nat. Qed.

Lemma jmt_root_hash_spec reader s v lvs : reads reader s -> tree_at s v lvs ->
  jmt_get_root_hash reader v = Ok (smt_root (sl lvs)).
Proof.
  intros Hrd (Hnd & node & Hs & Hnode). unfold jmt_get_root_hash, get_root_node, get_root_node_option.
  rewrite new_empty_path_pack, obind_Ok, (Hrd _ _ _ Hs). cbn [ok_or]. rewrite !obind_Ok. cbn [ok_or]. rewrite obind_Ok.
  destruct Hnode as [[-> ->]|Hrep]; [done|]. apply represents_hash in Hrep. cbn [length] in Hrep.
  rewrite hash_at_root in Hrep. exact Hrep.
Qed.

Lemma get_leaf_count_spec reader s v lvs : reads reader s -> tree_at s v lvs ->
  get_leaf_count reader v = Ok (Z.of_nat (length lvs)).
Proof.
  intros Hrd (Hnd & node & Hs & Hnode). unfold get_leaf_count, get_root_node, get_root_node_option.
  rewrite new_empty_path_pack, obind_Ok, (Hrd _ _ _ Hs), !obind_Ok. cbn [ok_or]. rewrite obind_Ok.
  destruct Hnode as [[-> ->]|Hrep]; [done|]. by inversion Hrep.
Qed.

(** ** Range proofs *)

(** The siblings a verifier of a range computes itself: those on the left. *)
Definition left_siblings (siblings : list HV) (bits : list bool) : list HV :=
  rev (omap (fun y : HV * bool => if snd y then Some (fst y) else None) (combine siblings bits)).

Lemma omap_rev {A B} (f : A -> option B) (l : list A) : omap f (rev l) = rev (omap f l).
Proof.
  induction l as [|a l IH]; [done|]. cbn [rev omap list_omap]. rewrite omap_app, IH. cbn.
  destruct (f a); cbn [rev]; [done|by rewrite app_nil_r].
Qed.

Lemma combine_snoc {A B} (a : A) (b : B) : forall l m, length l = length m ->
  combine (l ++ [a]) (m ++ [b]) = combine l m ++ [(a, b)].
Proof.
  induction l as [|x l IH]; intros [|y m] Hl; try done. cbn in *. injection Hl as Hl. by rewrite IH.
Qed.

Lemma combine_rev {A B} : forall (l : list A) (m : list B), length l = length m ->
  combine (rev l) (rev m) = rev (combine l m).
Proof.
  induction l as [|a l IH]; intros [|b m] Hl; try done. cbn in Hl. injection Hl as Hl.
  cbn [rev combine]. rewrite combine_snoc by (by rewrite !length_rev). by rewrite IH.
Qed.

Lemma sparse_range_loop_complete : forall (zs : list (HV * bool)) h,
  sparse_range_loop (map snd zs) h
    (omap (fun y : HV * bool => if snd y then Some (fst y) else None) zs)
    (omap (fun y : HV * bool => if snd y then None else Some (fst y)) zs) =
  Ok (fold_left sparse_fold_step zs h).
Proof.
  induction zs as [|[s b] zs IH]; intros h; [done|]. destruct b; cbn; rewrite IH; done.
Qed.

Lemma snd_combine {A B} : forall (l : list A) (m : list B), length l = length m -> map snd (combine l m) = m.
Proof. induction l as [|a l IH]; intros [|b m] Hl; try done. cbn in *. injection Hl as Hl. by rewrite IH. Qed.

Lemma omap_split_length (zs : list (HV * bool)) :
  (length (omap (fun y : HV * bool => if snd y then Some (fst y) else None) zs) +
   length (omap (fun y : HV * bool => if snd y then None else Some (fst y)) zs) = length zs)%nat.
Proof. induction zs as [|[s []] zs IH]; cbn; [done|lia|lia]. Qed.

Lemma sparse_range_verify_complete (kvs : list (SparseMerkleLeafNode HV)) (leaf : SparseMerkleLeafNode HV) :
  NoDup (map leaf_key kvs) -> leaf ∈ kvs ->
  let key := leaf_key leaf in
  let sibs := smp_siblings (sparse_proof_of kvs key) in
  SparseMerkleRangeProof_verify (mkSparseMerkleRangeProof (right_siblings sibs (iter_bits key)))
    (smt_root kvs) leaf (left_siblings sibs (iter_bits key)) = Ok tt.
Proof.
  intros Hnd Hin key sibs. subst sibs. unfold sparse_proof_of. cbn [smp_siblings].
  destruct (smt_prove 256 0 key kvs) as [lf sibs] eqn:Epr. cbn [snd].
  destruct (smt_prove_spec key 256 0 kvs lf sibs eq_refl (under_root key kvs Hnd) Epr) as (Hlen & Hpath & Hclimb).
  assert (Elf : lf = Some leaf).
  { pose proof (path_filter key (length sibs) 0 kvs) as Hf. rewrite Hpath in Hf.
    assert (Hl : leaf ∈ filter (fun y => leaf_key y = key) kvs) by (by apply list_elem_of_filter).
    rewrite <- Hf in Hl. apply list_elem_of_filter in Hl as [_ Hl]. destruct lf as [y|]; cbn in Hl.
    - apply list_elem_of_singleton in Hl. by subst.
    - by apply not_elem_of_nil in Hl. }
  subst lf. pose proof (iter_bits_length key) as Hb.
  set (bits := take (length sibs) (iter_bits key)).
  assert (Hbits : length bits = length sibs) by (unfold bits; rewrite length_take; lia).
  set (zs := combine (rev sibs) (rev bits)).
  assert (Ez : rev (combine sibs (iter_bits key)) = zs).
  { unfold zs. rewrite combine_rev by done. f_equal. unfold bits. apply combine_firstn_l. }
  unfold SparseMerkleRangeProof_verify, right_siblings, left_siblings. cbn [srp_right_siblings].
  rewrite <- !omap_rev, Ez.
  pose proof (omap_split_length zs) as Hsplit.
  assert (Hzs : length zs = length sibs) by (unfold zs; rewrite length_combine, !length_rev; lia).
  rewrite add64_Ok, obind_Ok by (unfold U64; lia). rewrite sub64_Ok, obind_Ok by (unfold LENGTH_IN_BITS; lia).
  fold key.
  replace (drop _ (rev (iter_bits key))) with (map snd zs).
  - rewrite sparse_range_loop_complete, obind_Ok. rewrite ensure_true; [done|]. apply bool_decide_true.
    rewrite <- (fold_climb key 0 sibs) in Hclimb by lia. rewrite Hb in Hclimb.
    unfold zs. cbn [start_hash] in Hclimb. unfold smt_root. rewrite <- Hclimb. f_equal. f_equal.
    unfold bits. rewrite skipn_rev, Hb. do 2 f_equal. lia.
  - unfold zs at 1. rewrite snd_combine by (by rewrite !length_rev). unfold bits at 1.
    rewrite skipn_rev, Hb. do 2 f_equal. unfold LENGTH_IN_BITS. lia.
Qed.
End Reading.
