(* ===== verification/JellyfishRuns.v ===== *)
(** * Ranges of equal nibbles

    [NibbleRangeIterator] cuts a sorted batch of updates, whose keys agree before
    depth [d], into its runs of equal nibbles at depth [d]. *)
From stdpp Require Import base list numbers strings option gmap sorting.
From Stdlib Require Import ZArith Lia Bool Sorted.
From S2P Require Import Prelude Hash SparseMerkleProof NibblePath NibblePathFacts ByteCodec JellyfishNode JellyfishNodeFacts JellyfishSpec JellyfishTree.

Lemma StronglySorted_lookup {A} (R : A -> A -> Prop) (l : list A) : StronglySorted R l ->
  forall i j x y, l !! i = Some x -> l !! j = Some y -> (i < j)%nat -> R x y.
Proof.
  induction 1 as [|z l _ IH Hf]; intros i j x y Hi Hj Hij; [done|].
  destruct j as [|j]; [lia|]. destruct i as [|i]; cbn in Hi, Hj.
  - injection Hi as ->. rewrite Forall_lookup in Hf. by apply (Hf j).
  - apply (IH i j); done || lia.
Qed.

Section Runs.
Context {HV : Type} `{HashValueOps HV} `{HashValueBits HV} `{!HashValueLaws HV}
  `{HashValueKeys HV} `{!HashValueKeysLaws HV}.
Context {V : Type}.
Implicit Types (kvs : list (HV * V)) (kv : HV * V).

Lemma nibble_nib key d : (d < 64)%nat -> nibble key (Z.of_nat d) = nib key d.
Proof.
  intros Hd. pose proof (nibble_spec key (Z.of_nat d) ltac:(lia)) as E. rewrite Nat2Z.id in E.
  pose proof (nib_lookup key d Hd) as E'. unfold key_nibbles in E'. congruence.
Qed.

Lemma hv_get_nibble_nib key d : (d < 64)%nat -> hv_get_nibble key (Z.of_nat d) = Ok (nib key d).
Proof.
  intros Hd. unfold hv_get_nibble.
  pose proof (get_nibble_pack (key_nibbles key) d (nib key d) (key_nibbles_ok key) (nib_lookup key d Hd)) as E.
  pose proof (nib_ok key d Hd) as Hn.
  pose proof (pack_bytes_lookup (key_nibbles key) (key_nibbles_ok key) d (nib key d) (nib_lookup key d Hd))
    as (h & lo & Hb & Hh & Hlo & En).
  assert (Epk : pack_bytes (key_nibbles key) = hv_bytes key) by (apply pack_bytes_nibbles, hv_bytes_ok).
  rewrite Epk in Hb.
  replace (Z.to_nat (Z.of_nat d / 2)) with (d / 2)%nat
    by (change 2 with (Z.of_nat 2); rewrite <- Nat2Z.inj_div; by rewrite Nat2Z.id).
  rewrite Hb. cbn [expect]. rewrite obind_Ok.
  destruct (byte_facts h lo Hh Hlo) as (E1 & E2 & _). rewrite E1, E2.
  assert (Em : (Z.of_nat d mod 2 =? 0) = negb (d mod 2 =? 1)%nat).
  { change 2 with (Z.of_nat 2). rewrite <- Nat2Z.inj_mod.
    pose proof (Nat.mod_upper_bound d 2 ltac:(lia)). destruct (d mod 2)%nat as [|[|]]; [done|done|lia]. }
  rewrite Em, En. destruct (d mod 2 =? 1)%nat; cbn [negb]; by apply nibble_from_u8_Ok.
Qed.

(** ** Runs *)
Fixpoint runs (d : nat) kvs : list (Z * list (HV * V)) :=
  match kvs with
  | [] => []
  | kv :: rest =>
      match runs d rest with
      | [] => [(nib (fst kv) d, [kv])]
      | (i, g) :: rs =>
          if nib (fst kv) d =? i then (i, kv :: g) :: rs else (nib (fst kv) d, [kv]) :: (i, g) :: rs
      end
  end.

(** Nibbles at depth [d] do not decrease. *)
Definition nib_sorted (d : nat) kvs : Prop :=
  StronglySorted (fun a b => nib (fst a) d <= nib (fst b) d) kvs.

Lemma nib_sorted_cons d kv kvs : nib_sorted d (kv :: kvs) <->
  nib_sorted d kvs /\ Forall (fun b => nib (fst kv) d <= nib (fst b) d) kvs.
Proof.
  unfold nib_sorted. split; [intros Hs; by apply StronglySorted_inv in Hs|].
  intros [Hs Hf]. by constructor.
Qed.

(** A run in front: [g] has nibble [i], everything after it has a larger one. *)
Lemma runs_app d i g rest : g <> [] -> Forall (fun kv => nib (fst kv) d = i) g ->
  Forall (fun kv => nib (fst kv) d <> i) rest -> runs d (g ++ rest) = (i, g) :: runs d rest.
Proof.
  intros Hne Hg Hr. induction g as [|kv g IH]; [done|]. apply Forall_cons in Hg as [Hi Hg].
  cbn [app runs]. destruct g as [|kv' g].
  - cbn [app]. rewrite Hi. destruct (runs d rest) as [|[j g] rs] eqn:E; [done|].
    rewrite (proj2 (Z.eqb_neq i j)); [done|]. intros ->.
    destruct rest as [|kv'' rest]; [done|]. apply Forall_cons in Hr as [Hr _]. cbn [runs] in E.
    destruct (runs d rest) as [|[a b] l]; [congruence|].
    destruct (nib (fst kv'') d =? a) eqn:Ea; [apply Z.eqb_eq in Ea|]; congruence.
  - rewrite IH by done. by rewrite Hi, Z.eqb_refl.
Qed.

(** ** The binary search *)
Lemma range_search_spec d kvs cur : (d < 64)%nat -> nib_sorted d kvs -> forall fuel i j,
  0 <= i <= j -> j < Z.of_nat (length kvs) -> j - i <= Z.of_nat fuel ->
  (exists kv, kvs !! Z.to_nat i = Some kv /\ nib (fst kv) d <= cur) ->
  (forall m kv, j < Z.of_nat m -> kvs !! m = Some kv -> cur < nib (fst kv) d) ->
  exists r, range_search fuel kvs (Z.of_nat d) cur i j = Ok r /\ i <= r <= j /\
    (exists kv, kvs !! Z.to_nat r = Some kv /\ nib (fst kv) d <= cur) /\
    (forall m kv, r < Z.of_nat m -> kvs !! m = Some kv -> cur < nib (fst kv) d).
Proof.
  intros Hd Hs. induction fuel as [|fuel IH]; intros i j Hij Hj Hf Hi Habove; cbn [range_search].
  - assert (i = j) as -> by lia. rewrite Z.ltb_irrefl. exists j. split_and!; [done|lia|lia|done|done].
  - destruct (i <? j) eqn:E; [apply Z.ltb_lt in E|apply Z.ltb_ge in E].
    + set (mid := j - (j - i) / 2). assert (Hmid : i < mid <= j).
      { subst mid. Z.to_euclidean_division_equations; lia. }
      destruct (lookup_lt_is_Some_2 kvs (Z.to_nat mid)) as [kv Hkv]; [lia|].
      rewrite Hkv. cbn [expect]. rewrite obind_Ok, nibble_nib by done.
      destruct (cur <? nib (fst kv) d) eqn:Ec; [apply Z.ltb_lt in Ec|apply Z.ltb_ge in Ec].
      * destruct (IH i (mid - 1)) as (r & -> & Hr & H1' & H2'); [lia|lia|lia|done| |].
        { intros m kv' Hm Hkv'. destruct (Z.eq_dec (Z.of_nat m) mid) as [Em|Em].
          - replace m with (Z.to_nat mid) in Hkv' by lia. congruence.
          - assert (Hle : nib (fst kv) d <= nib (fst kv') d); [|lia].
            apply (StronglySorted_lookup _ _ Hs (Z.to_nat mid) m); done || lia. }
        exists r. split_and!; [done|lia|lia|done|done].
      * destruct (IH mid j) as (r & -> & Hr & H1' & H2'); [lia|lia|lia|by exists kv|done|].
        exists r. split_and!; [done|lia|lia|done|done].
    + assert (i = j) as -> by lia. exists j. split_and!; [done|lia|lia|done|done].
Qed.

(** ** The iterator *)

(** A range of [kvs] that is the run [(i, g)]. *)
Definition range_is (d : nat) kvs (x : Z * Z) (run : Z * list (HV * V)) : Prop :=
  (exists kv, kvs !! Z.to_nat (fst x) = Some kv /\ nib (fst kv) d = fst run) /\
  slice_inclusive kvs (fst x) (snd x) = Ok (snd run).

Lemma next_run d kvs pre kv rest : (d < 64)%nat -> nib_sorted d kvs -> kvs = pre ++ kv :: rest ->
  exists r g rest',
    NibbleRangeIterator_next (mkNibbleRangeIterator kvs (Z.of_nat d) (Z.of_nat (length pre))) =
    Ok (Some (Z.of_nat (length pre), r),
        mkNibbleRangeIterator kvs (Z.of_nat d) (Z.of_nat (length (pre ++ g)))) /\
    kv :: rest = g ++ rest' /\ g <> [] /\
    range_is d kvs (Z.of_nat (length pre), r) (nib (fst kv) d, g) /\
    runs d (kv :: rest) = (nib (fst kv) d, g) :: runs d rest'.
Proof.
  intros Hd Hs E. set (cur := nib (fst kv) d).
  assert (Hkv : kvs !! length pre = Some kv).
  { subst kvs. rewrite lookup_app_r, Nat.sub_diag by lia. done. }
  assert (Hlen : length kvs = (length pre + S (length rest))%nat) by (subst kvs; rewrite length_app; done).
  destruct (range_search_spec d kvs cur Hd Hs (length kvs) (Z.of_nat (length pre))
    (Z.of_nat (length kvs) - 1)) as (r & Hr & Hb & (kvr & Hkvr & Hle) & Habove); [lia|lia|lia| | |].
  { exists kv. rewrite Nat2Z.id. done. }
  { intros m kv' Hm Hkv'. apply lookup_lt_Some in Hkv'. lia. }
  set (n := Z.to_nat (r + 1 - Z.of_nat (length pre))).
  exists r, (take n (kv :: rest)), (drop n (kv :: rest)).
  assert (Hn : (1 <= n <= S (length rest))%nat) by (subst n; lia).
  assert (Hidx : forall m y, (kv :: rest) !! m = Some y -> kvs !! (length pre + m)%nat = Some y).
  { intros m y Hy. subst kvs. rewrite lookup_app_r by lia. by replace (length pre + m - length pre)%nat with m by lia. }
  split_and!.
  - unfold NibbleRangeIterator_next. cbn [nri_pos sorted_kvs nibble_idx].
    rewrite (proj2 (Z.ltb_lt _ _)) by lia. rewrite Nat2Z.id, Hkv. cbn [expect]. rewrite obind_Ok.
    rewrite nibble_nib by done. fold cur. rewrite Hr, obind_Ok. do 3 f_equal.
    rewrite length_app, length_take. cbn [length]. lia.
  - by rewrite take_drop.
  - destruct n; [lia|done].
  - split; cbn [fst snd].
    + exists kv. by rewrite Nat2Z.id.
    + unfold slice_inclusive. rewrite (proj2 (Z.ltb_lt _ _)) by lia. fold n. rewrite Nat2Z.id.
      subst kvs. by rewrite drop_app_length.
  - rewrite <- (take_drop n (kv :: rest)) at 1. apply runs_app.
    + destruct n; [lia|done].
    + apply Forall_lookup. intros m y Hy. apply lookup_take_Some in Hy as [Hy Hm]. apply Hidx in Hy.
      fold cur. destruct m as [|m]; [rewrite Nat.add_0_r in Hy; by assert (y = kv) as -> by congruence|].
      assert (cur <= nib (fst y) d).
      { apply (StronglySorted_lookup _ _ Hs (length pre) (length pre + S m) kv y Hkv Hy). lia. }
      destruct (decide (length pre + S m = Z.to_nat r)%nat) as [Em|Em]; [rewrite Em in Hy; assert (y = kvr) by congruence; subst; lia|].
      assert (nib (fst y) d <= nib (fst kvr) d); [|lia].
      apply (StronglySorted_lookup _ _ Hs (length pre + S m) (Z.to_nat r) y kvr Hy Hkvr). lia.
    + apply Forall_lookup. intros m y Hy. rewrite lookup_drop in Hy. apply Hidx in Hy.
      apply Habove in Hy; [fold cur; lia|lia].
Qed.

Lemma collect_runs d kvs : (d < 64)%nat -> nib_sorted d kvs -> forall fuel pre rest,
  kvs = pre ++ rest -> (length rest <= fuel)%nat ->
  exists ranges,
    collect_ranges fuel (mkNibbleRangeIterator kvs (Z.of_nat d) (Z.of_nat (length pre))) = Ok ranges /\
    Forall2 (range_is d kvs) ranges (runs d rest).
Proof.
  intros Hd Hs. induction fuel as [|fuel IH]; intros pre rest E Hf.
  - destruct rest; [|cbn in Hf; lia]. exists []. rewrite app_nil_r in E. subst kvs. split; [|constructor].
    cbn [collect_ranges]. unfold NibbleRangeIterator_next. cbn [nri_pos sorted_kvs].
    by rewrite Z.ltb_irrefl.
  - destruct rest as [|kv rest].
    + exists []. rewrite app_nil_r in E. subst kvs. split; [|constructor].
      cbn [collect_ranges]. unfold NibbleRangeIterator_next. cbn [nri_pos sorted_kvs].
      by rewrite Z.ltb_irrefl.
    + destruct (next_run d kvs pre kv rest Hd Hs E) as (r & g & rest' & Hn & Eg & Hne & Hrange & ->).
      cbn [collect_ranges]. rewrite Hn, obind_Ok.
      destruct (IH (pre ++ g) rest') as (ranges & -> & Hranges).
      * rewrite <- app_assoc, <- Eg. done.
      * apply (f_equal length) in Eg. rewrite length_app in Eg. cbn in Eg, Hf. destruct g; [done|cbn in Eg; lia].
      * rewrite obind_Ok. eexists. split; [done|]. by constructor.
Qed.

Lemma nibble_ranges_spec d kvs : (d < 64)%nat -> nib_sorted d kvs ->
  exists ranges, nibble_ranges kvs (Z.of_nat d) = Ok ranges /\ Forall2 (range_is d kvs) ranges (runs d kvs).
Proof.
  intros Hd Hs. unfold nibble_ranges, NibbleRangeIterator_new. rewrite root_nibble_height, assert_true by lia.
  rewrite !obind_Ok. apply (collect_runs d kvs Hd Hs (length kvs) [] kvs); [done|lia].
Qed.

(** ** The runs are a partition *)
Lemma runs_concat d kvs : concat (map snd (runs d kvs)) = kvs.
Proof.
  induction kvs as [|kv kvs IH]; [done|]. cbn [runs]. destruct (runs d kvs) as [|[i g] rs].
  - cbn in IH. by subst.
  - destruct (nib (fst kv) d =? i); cbn in *; by rewrite IH.
Qed.

Lemma runs_head d kv kvs : exists g rs, runs d (kv :: kvs) = (nib (fst kv) d, g) :: rs.
Proof.
  cbn [runs]. destruct (runs d kvs) as [|[i g] rs]; [eauto|].
  destruct (nib (fst kv) d =? i) eqn:E; [apply Z.eqb_eq in E as <-|]; eauto.
Qed.

Lemma runs_sorted d kvs : nib_sorted d kvs -> sorted_by fst (runs d kvs).
Proof.
  induction kvs as [|kv kvs IH]; intros Hs; [constructor|]. apply nib_sorted_cons in Hs as [Hs Hf].
  specialize (IH Hs). cbn [runs]. destruct (runs d kvs) as [|[i g] rs] eqn:E.
  - apply sorted_by_cons. split; [constructor|constructor].
  - destruct (nib (fst kv) d =? i) eqn:Ei; [apply Z.eqb_eq in Ei|apply Z.eqb_neq in Ei].
    + apply sorted_by_cons in IH as [IH1 IH2]. apply sorted_by_cons. done.
    + pose proof IH as IH'. apply sorted_by_cons in IH' as [IH1 IH2]. apply sorted_by_cons. split; [done|].
      assert (Hlt : nib (fst kv) d < i).
      { destruct kvs as [|kv' kvs]; [done|]. destruct (runs_head d kv' kvs) as (g' & rs' & E').
        rewrite E in E'. injection E' as -> _ _. apply Forall_cons in Hf as [Hle _]. lia. }
      constructor; [done|]. eapply Forall_impl; [exact IH2|]. cbn. intros y Hy. lia.
Qed.

Lemma runs_nib d kvs : Forall (fun run => snd run <> [] /\ Forall (fun kv => nib (fst kv) d = fst run) (snd run))
  (runs d kvs).
Proof.
  induction kvs as [|kv kvs IH]; [constructor|]. cbn [runs]. destruct (runs d kvs) as [|[i g] rs].
  - by repeat constructor.
  - destruct (nib (fst kv) d =? i) eqn:E.
    + apply Z.eqb_eq in E. apply Forall_cons in IH as [[_ IHg] IH]. constructor; [|done].
      cbn [fst snd] in *. split; [done|]. by constructor.
    + constructor; [|done]. split; [done|]. by repeat constructor.
Qed.

Lemma filter_concat_run d i g (rs : list (Z * list (HV * V))) : sorted_by fst rs ->
  Forall (fun run => snd run <> [] /\ Forall (fun kv => nib (fst kv) d = fst run) (snd run)) rs ->
  (i, g) ∈ rs -> filter (fun kv => nib (fst kv) d = i) (concat (map snd rs)) = g.
Proof.
  induction rs as [|[j h] rs IH]; intros Hs Hf Hin; [by apply not_elem_of_nil in Hin|].
  apply sorted_by_cons in Hs as [Hs Hlt]. apply Forall_cons in Hf as [[_ Hh] Hf]. cbn [map concat fst snd] in *.
  rewrite filter_app. apply elem_of_cons in Hin as [[= <- <-]|Hin].
  - rewrite filter_all by done. rewrite filter_none, app_nil_r; [done|].
    apply Forall_forall. intros kv Hkv E. apply list_elem_of_In, in_concat in Hkv as (l & Hl & Hkv).
    apply list_elem_of_In, list_elem_of_fmap in Hl as ([j' h'] & -> & Hl).
    rewrite Forall_forall in Hf, Hlt. destruct (Hf _ Hl) as [_ Hf']. specialize (Hlt _ Hl).
    rewrite Forall_forall in Hf'. apply list_elem_of_In, Hf' in Hkv. cbn [fst snd] in *. lia.
  - rewrite (filter_none _ h), IH; [done|done|done|done|]. rewrite Forall_forall in Hlt.
    specialize (Hlt _ Hin). cbn [fst] in Hlt. eapply Forall_impl; [exact Hh|]. cbn. intros kv Hkv. lia.
Qed.

(** A run is everything with its nibble. *)
Lemma runs_elem d kvs i g : nib_sorted d kvs -> (i, g) ∈ runs d kvs ->
  g <> [] /\ g = filter (fun kv => nib (fst kv) d = i) kvs.
Proof.
  intros Hs Hin. pose proof (runs_nib d kvs) as Hf. split.
  - rewrite Forall_forall in Hf. by apply (Hf _ Hin).
  - rewrite <- (runs_concat d kvs) at 1. symmetry.
    by apply filter_concat_run; [apply runs_sorted|..].
Qed.

Lemma runs_cover d kvs kv : kv ∈ kvs -> exists g, (nib (fst kv) d, g) ∈ runs d kvs.
Proof.
  intros Hin. rewrite <- (runs_concat d kvs) in Hin.
  apply list_elem_of_In, in_concat in Hin as (l & Hl & Hkv).
  apply list_elem_of_In, list_elem_of_fmap in Hl as ([i g] & -> & Hl). exists g.
  pose proof (runs_nib d kvs) as Hf. rewrite Forall_forall in Hf. destruct (Hf _ Hl) as [_ Hg].
  rewrite Forall_forall in Hg. cbn [fst snd] in *. by rewrite (Hg kv) by (by apply list_elem_of_In).
Qed.

(** ** Keys in order *)

(** The order of keys: at the first nibble where they differ. *)
Definition klt (a b : HV) : Prop :=
  exists m, (m < 64)%nat /\ (forall i, (i < m)%nat -> nib a i = nib b i) /\ nib a m < nib b m.

Definition keys_sorted kvs : Prop := StronglySorted (fun a b => klt (fst a) (fst b)) kvs.

(** Keys that start with [p]. *)
Definition starts (p : list Z) (key : HV) : Prop := take (length p) (key_nibbles key) = p.

#[global] Instance starts_dec p key : Decision (starts p key).
Proof. unfold starts. apply _. Defined.

Lemma starts_nib p a b i : starts p a -> starts p b -> (i < length p)%nat -> nib a i = nib b i.
Proof.
  intros Ha Hb Hi. unfold nib. rewrite !nth_lookup.
  rewrite <- (lookup_take_lt (key_nibbles a) (length p) i), <- (lookup_take_lt (key_nibbles b) (length p) i) by done.
  by rewrite Ha, Hb.
Qed.

Lemma keys_nib_sorted p kvs : keys_sorted kvs -> Forall (fun kv => starts p (fst kv)) kvs ->
  nib_sorted (length p) kvs.
Proof.
  unfold keys_sorted, nib_sorted. induction 1 as [|a kvs Hs IH Hf]; intros Hp; [constructor|].
  apply Forall_cons in Hp as [Ha Hp]. constructor; [by apply IH|].
  rewrite Forall_forall in *. intros b Hb. destruct (Hf b Hb) as (m & Hm & Heq & Hlt).
  destruct (decide (length p < m)%nat) as [Hd|Hd]; [rewrite Heq by done; lia|].
  destruct (decide (m = length p)) as [->|]; [lia|].
  rewrite (starts_nib p (fst a) (fst b) m) in Hlt; [lia|done|by apply Hp|lia].
Qed.

Lemma klt_irrefl a : ~ klt a a.
Proof. intros (m & _ & _ & Hlt). lia. Qed.
End Runs.
