(* ===== verification/JellyfishBatch.v ===== *)
(** * The effect of a batch

    What an update does to a set of leaves, what it adds to a batch, and when a new
    node with the nodes of the batch represents the updated set. *)
From stdpp Require Import base list numbers strings option gmap sorting.
From Stdlib Require Import ZArith Lia Bool Sorted.
From S2P Require Import Prelude Hash SparseMerkleProof SparseSpec NibblePath NibblePathFacts ByteCodec JellyfishNode JellyfishNodeFacts JellyfishHash JellyfishSpec JellyfishTree JellyfishRead JellyfishRuns.

Section Batches.
Context {HV : Type} `{HashValueOps HV} `{HashValueBits HV} `{!HashValueLaws HV} `{CryptoHasher HV}
  `{LeafHasher HV} {K : Type}.
Implicit Types (cs : list (Z * Child HV)) (c : Child HV) (lvs L : list (LeafNode HV K))
  (x : LeafNode HV K) (key : HV) (p : list Z) (version : Z) (n : Node HV K)
  (b : TreeUpdateBatch HV K) (new : list (NodeKey * Node HV K)) (st : list StaleNodeIndex)
  (s : @store HV K) (ups : list (HV * option (HV * K))).

(** ** Updating a set of leaves *)

(** The leaves that a batch of updates writes. *)
Definition ins version ups : list (LeafNode HV K) :=
  omap (fun kv => v ← snd kv; Some (mkLeafNode (fst kv) (fst v) (snd v, version))) ups.

(** The leaves after a batch of updates: overwritten and deleted ones go, new ones
    come. *)
Definition apply_updates version lvs ups : list (LeafNode HV K) :=
  filter (fun x => account_key x ∉ map fst ups) lvs ++ ins version ups.

Definition run_of (d : nat) (i : Z) ups : list (HV * option (HV * K)) :=
  filter (fun kv => nib (fst kv) d = i) ups.

Lemma ins_write version k v ups :
  ins version ((k, Some v) :: ups) = mkLeafNode k (fst v) (snd v, version) :: ins version ups.
Proof. reflexivity. Qed.

Lemma ins_delete version k ups : ins version ((k, None) :: ups) = ins version ups.
Proof. reflexivity. Qed.

Lemma group_ins version d i ups : group d i (ins version ups) = ins version (run_of d i ups).
Proof.
  unfold group, run_of. induction ups as [|[k [v|]] ups IH]; [done|..]; rewrite (filter_cons _ (k, _)); cbn [fst].
  - rewrite ins_write, filter_cons, IH. cbn [account_key]. by case_decide.
  - rewrite ins_delete, IH. by case_decide.
Qed.

Lemma group_apply version d i lvs ups :
  group d i (apply_updates version lvs ups) = apply_updates version (group d i lvs) (run_of d i ups).
Proof.
  unfold apply_updates. rewrite <- group_ins. unfold group at 1. rewrite filter_app. f_equal.
  unfold group. rewrite !list_filter_filter. apply list_filter_iff. intros x.
  assert (E : nib (account_key x) d = i ->
    account_key x ∉ map fst (run_of d i ups) <-> account_key x ∉ map fst ups).
  { intros Ei. apply not_iff_compat. unfold run_of. rewrite !list_elem_of_fmap. split.
    - intros (kv & E & Hkv). apply list_elem_of_filter in Hkv as [_ Hkv]. eauto.
    - intros (kv & E & Hkv). exists kv. split; [done|]. apply list_elem_of_filter. by rewrite <- E. }
  tauto.
Qed.

Lemma apply_nil version lvs : apply_updates version lvs [] = lvs.
Proof.
  unfold apply_updates. cbn [map ins omap list_omap]. rewrite app_nil_r. apply filter_all.
  apply Forall_forall. intros x _. apply not_elem_of_nil.
Qed.

Lemma ins_keys version ups x : x ∈ ins version ups -> account_key x ∈ map fst ups.
Proof.
  unfold ins. rewrite list_elem_of_omap. intros ([k [v|]] & Hin & E); [|done].
  injection E as <-. cbn. by apply (list_elem_of_fmap_2 fst _ (k, Some v)).
Qed.

Lemma ins_NoDup version ups : NoDup (map fst ups) -> NoDup (map account_key (ins version ups)).
Proof.
  induction ups as [|[k [v|]] ups IH]; intros Hnd; [constructor| |]; apply NoDup_cons in Hnd as [Hk Hnd].
  - cbn. apply NoDup_cons. split; [|by apply IH]. intros Hin. apply Hk. cbn.
    apply list_elem_of_fmap in Hin as (x & -> & Hx). by apply ins_keys in Hx.
  - by apply IH.
Qed.

Lemma apply_NoDup version lvs ups : NoDup (map account_key lvs) -> NoDup (map fst ups) ->
  NoDup (map account_key (apply_updates version lvs ups)).
Proof.
  intros Hl Hu. unfold apply_updates. rewrite map_app. apply NoDup_app. split_and!.
  - change (map account_key ?l) with (account_key <$> l) in *.
    eapply sublist_NoDup; [exact Hl|]. apply sublist_fmap, sublist_filter || apply fmap_sublist, sublist_filter.
  - intros k Hk Hk'. apply list_elem_of_fmap in Hk as (x & -> & Hx), Hk' as (y & E & Hy).
    apply list_elem_of_filter in Hx as [Hx _]. apply Hx. rewrite E. by eapply ins_keys.
  - by apply ins_NoDup.
Qed.

Lemma apply_placed version p lvs ups : placed p lvs -> NoDup (map fst ups) ->
  Forall (fun kv => starts p (fst kv)) ups -> placed p (apply_updates version lvs ups).
Proof.
  intros [Hl Hp] Hu Hs. split; [by apply apply_NoDup|]. apply Forall_forall. intros x Hx.
  rewrite Forall_forall in Hp. rewrite Forall_forall in Hs. apply elem_of_app in Hx as [Hx|Hx].
  - apply list_elem_of_filter in Hx as [_ Hx]. by apply Hp.
  - apply ins_keys, list_elem_of_fmap in Hx as (kv & -> & Hkv). by apply Hs.
Qed.

Lemma group_placed p i lvs : (length p < 64)%nat -> placed p lvs -> placed (p ++ [i]) (group (length p) i lvs).
Proof.
  intros Hlen [Hnd Hp]. split.
  - unfold group. change (map account_key ?l) with (account_key <$> l) in *.
    eapply sublist_NoDup; [exact Hnd|]. apply sublist_fmap, sublist_filter || apply fmap_sublist, sublist_filter.
  - apply Forall_forall. intros x Hx. apply list_elem_of_filter in Hx as [Hi Hx].
    rewrite Forall_forall in Hp. specialize (Hp x Hx). rewrite length_app. cbn [length].
    rewrite Nat.add_1_r, (take_S_r _ _ (nib (account_key x) (length p))) by (by apply nib_lookup).
    by rewrite Hp, Hi.
Qed.

(** ** What is added to a batch *)
Definition nodes_of b : list (NodeKey * Node HV K) := concat (node_batch b).
Definition stale_of b : list StaleNodeIndex := concat (stale_node_index_batch b).
Definition usable b : Prop := node_batch b <> [] /\ stale_node_index_batch b <> [].

Definition adds b b' new st : Prop :=
  usable b' /\ nodes_of b' ≡ₚ nodes_of b ++ new /\ stale_of b' ≡ₚ stale_of b ++ st.

Lemma adds_refl b : usable b -> adds b b [] [].
Proof. intros Hb. split; [done|]. by rewrite !app_nil_r. Qed.

Lemma adds_trans b b' b'' new st new' st' : adds b b' new st -> adds b' b'' new' st' ->
  adds b b'' (new ++ new') (st ++ st').
Proof.
  intros (_ & Hn & Hs) (Hu & Hn' & Hs'). split; [done|]. by rewrite Hn', Hs', Hn, Hs, !app_assoc.
Qed.

Lemma adds_perm b b' new new' st st' : adds b b' new st -> new ≡ₚ new' -> st ≡ₚ st' -> adds b b' new' st'.
Proof. intros (Hu & Hn & Hs) E E'. split; [done|]. by rewrite Hn, Hs, E, E'. Qed.

Lemma push_at_0_adds {A} (v : list (list A)) a : v <> [] ->
  exists v', push_at_0 v a = Ok v' /\ v' <> [] /\ concat v' ≡ₚ concat v ++ [a].
Proof.
  destruct v as [|v0 rest]; [done|]. intros _. eexists. split; [done|]. split; [done|]. cbn [concat].
  rewrite <- !app_assoc. apply Permutation_app_head. apply Permutation_app_comm.
Qed.

Lemma put_node_adds b k n : usable b -> exists b', put_node b k n = Ok b' /\ adds b b' [(k, n)] [].
Proof.
  intros [Hn Hs]. unfold put_node. destruct (push_at_0_adds _ (k, n) Hn) as (v' & -> & Hv & Hc).
  rewrite obind_Ok. eexists. split; [done|]. unfold adds, usable, nodes_of, stale_of.
  cbn [node_batch stale_node_index_batch]. by rewrite app_nil_r.
Qed.

Lemma put_stale_adds b k v : usable b ->
  exists b', put_stale_node b k v = Ok b' /\ adds b b' [] [mkStaleNodeIndex v k].
Proof.
  intros [Hn Hs]. unfold put_stale_node.
  destruct (push_at_0_adds _ (mkStaleNodeIndex v k) Hs) as (v' & -> & Hv & Hc).
  rewrite obind_Ok. eexists. split; [done|]. unfold adds, usable, nodes_of, stale_of.
  cbn [node_batch stale_node_index_batch]. by rewrite app_nil_r.
Qed.

Lemma usable_new : usable TreeUpdateBatch_new.
Proof. by split. Qed.

(** A batch of its own, combined later. *)
Lemma combine_adds b b' new st : usable b -> adds TreeUpdateBatch_new b' new st ->
  adds b (TreeUpdateBatch_combine b b') new st.
Proof.
  intros [Hn Hs] (_ & En & Es). unfold adds, usable, nodes_of, stale_of in *. cbn in En, Es.
  cbn [TreeUpdateBatch_combine node_batch stale_node_index_batch]. rewrite !concat_app, En, Es.
  split; [|done]. split; by destruct (node_batch b), (stale_node_index_batch b).
Qed.

(** ** New nodes over an old store *)

(** A key of a new node strictly below path [p]. *)
Definition below version p (k : NodeKey) : Prop :=
  nk_version k = version /\ exists q, q <> [] /\ Forall nibble_ok (p ++ q) /\
    (length (p ++ q) <= 64)%nat /\ nk_nibble_path k = pack (p ++ q).

Definition new_ok version p new : Prop :=
  NoDup (map fst new) /\ forall k n, (k, n) ∈ new -> below version p k.

Definition extends s0 s : Prop := forall k n, s0 k = Some n -> s k = Some n.
Definition holds s new : Prop := forall k n, (k, n) ∈ new -> s k = Some n.

(** The old nodes have other versions. *)
Definition fresh version s0 : Prop := forall k n, s0 k = Some n -> nk_version k <> version.

(** Keys at path [p] and below it. *)
Definition at_below p (k : NodeKey) : Prop := exists q, unpack (nk_nibble_path k) = p ++ q.

(** [s] still has the nodes of [s0] below [p], except those in [st]. *)
Definition keeps p s0 st s : Prop :=
  forall k n, s0 k = Some n -> at_below p k -> k ∉ map stale_node_key st -> s k = Some n.

(** [o], with the nodes [new] and the old ones below [p] that are not in [st], is the
    subtree of [L] at path [p]. *)
Definition updated version s0 p L (o : option (Node HV K)) new st : Prop :=
  new_ok version p new /\ Forall (fun e => at_below p (stale_node_key e)) st /\
  match o with
  | None => L = []
  | Some n => forall s, keeps p s0 st s -> holds s new -> represents s p L n
  end.

Lemma extends_keeps p s0 st s : extends s0 s -> keeps p s0 st s.
Proof. intros He k n Hk _ _. by apply He. Qed.

Lemma at_below_child p i k : at_below (p ++ [i]) k -> at_below p k.
Proof. intros [q E]. exists (i :: q). by rewrite E, <- app_assoc. Qed.

Lemma at_below_inj p i j k : at_below (p ++ [i]) k -> at_below (p ++ [j]) k -> i = j.
Proof. intros [q E] [q' E']. rewrite E, <- !app_assoc in E'. apply app_inv_head in E'. by injection E'. Qed.

Lemma at_below_pack v p : Forall nibble_ok p -> at_below p (mkNodeKey v (pack p)).
Proof. intros Hp. exists []. cbn [nk_nibble_path]. by rewrite unpack_pack, app_nil_r. Qed.

(** A subtree depends on the nodes strictly below its path. *)
Lemma represents_local s s' p L n : represents s p L n -> Forall nibble_ok p ->
  (forall k m, s k = Some m -> (exists q, q <> [] /\ unpack (nk_nibble_path k) = p ++ q) -> s' k = Some m) ->
  represents s' p L n.
Proof.
  intros Hr. induction Hr as [p x|p lvs cs sub Hp Hl Hst Hs _ IH Ht]; intros Hn Hag; [constructor|].
  assert (Hi : forall i c, (i, c) ∈ cs -> Forall nibble_ok (p ++ [i])).
  { intros i c Hi. destruct Hst as ([_ Hc] & _). rewrite Forall_forall in Hc. apply Forall_app. split; [done|].
    rewrite Forall_singleton. by apply (Hc (i, c)). }
  apply (rep_internal _ _ _ _ sub); try done.
  - intros i c Hic. apply Hag; [by apply Hs|]. exists [i]. split; [done|].
    cbn [child_key nk_nibble_path fst]. apply unpack_pack. by eapply Hi.
  - intros i c Hic. apply (IH i c Hic); [by eapply Hi|]. intros k m Hk (q & Hq & E). apply Hag; [done|].
    exists (i :: q). split; [done|]. by rewrite E, <- app_assoc.
Qed.

Definition overlay s0 new : store := fun k =>
  match (list_to_map new : gmap NodeKey (Node HV K)) !! k with Some n => Some n | None => s0 k end.

Lemma overlay_holds s0 new : NoDup (map fst new) -> holds (overlay s0 new) new.
Proof.
  intros Hnd k n Hin. unfold overlay. by rewrite (elem_of_list_to_map_1 _ k n Hnd Hin).
Qed.

Lemma overlay_extends version s0 new : fresh version s0 ->
  (forall k n, (k, n) ∈ new -> nk_version k = version) -> extends s0 (overlay s0 new).
Proof.
  intros Hf Hv k n Hk. unfold overlay.
  destruct ((list_to_map new : gmap NodeKey (Node HV K)) !! k) as [m|] eqn:E; [|done].
  apply elem_of_list_to_map_2, Hv in E. by destruct (Hf k n Hk).
Qed.

Lemma updated_represents version s0 p L n new st : fresh version s0 ->
  updated version s0 p L (Some n) new st -> exists s, represents s p L n.
Proof.
  intros Hf ([Hnd Hb] & _ & Hr). exists (overlay s0 new). apply Hr; [|by apply overlay_holds].
  apply extends_keeps, (overlay_extends version); [done|]. intros k m Hk. by apply Hb in Hk as [? _].
Qed.

Lemma represents_mono s s' : extends s s' -> forall p L n, represents s p L n -> represents s' p L n.
Proof.
  intros He p L n Hr. induction Hr as [p x|p lvs cs sub Hp Hl Hst Hs _ IH Ht]; [constructor|].
  apply (rep_internal _ _ _ _ sub); try done. intros i c Hi. by apply He, (Hs i c).
Qed.

(** The type of a node tells the number of its leaves. *)
Lemma represents_type s p L n : represents s p L n ->
  match Node_node_type n with
  | NodeType_Leaf => length L = 1%nat
  | NodeType_Internal m => m = Z.of_nat (length L) /\ (p <> [] -> (2 <= length L)%nat)
  | NodeType_Null => False
  end.
Proof.
  intros Hr. destruct Hr as [|p lvs cs sub Hp Hl]; [done|]. cbn. split; [done|].
  destruct Hl as [|[-> _]]; done.
Qed.

Lemma child_leaf_count s p L n h v : represents s p L n ->
  Child_leaf_count (mkChild (HV := HV) h v (Node_node_type n)) = Ok (Z.of_nat (length L)).
Proof.
  intros Hr. apply represents_type in Hr. unfold Child_leaf_count. cbn [child_node_type].
  destruct (Node_node_type n); [by rewrite Hr|done|by destruct Hr as [-> _]].
Qed.

Lemma child_is_leaf s p i L n h v : represents s (p ++ [i]) L n ->
  Child_is_leaf (mkChild (HV := HV) h v (Node_node_type n)) = true <-> length L = 1%nat.
Proof.
  intros Hr. apply represents_type in Hr. unfold Child_is_leaf. cbn [child_node_type].
  destruct (Node_node_type n) as [| |m]; [done|done|]. destruct Hr as [_ Hr].
  specialize (Hr ltac:(by destruct p)). split; [done|lia].
Qed.

(** ** Sums of leaf counts *)
Lemma group_disjoint_length d (ix : list Z) L : NoDup ix ->
  foldr (fun i a => (length (group d i L) + a)%nat) 0%nat ix =
  length (filter (fun x => nib (account_key x) d ∈ ix) L).
Proof.
  induction ix as [|i ix IH]; intros Hnd; cbn [foldr].
  - rewrite filter_none; [done|]. apply Forall_forall. intros x _. apply not_elem_of_nil.
  - apply NoDup_cons in Hnd as [Hi Hnd]. rewrite IH by done. clear IH. unfold group.
    induction L as [|x L IH]; [done|]. rewrite !filter_cons.
    destruct (decide (nib (account_key x) d ∈ i :: ix)) as [Hin|Hin];
      repeat case_decide; cbn [length]; try lia.
    + subst. done.
    + apply elem_of_cons in Hin. tauto.
    + exfalso. apply Hin. subst. left.
    + exfalso. apply Hin. subst. left.
    + exfalso. apply Hin. by right.
Qed.

Lemma sorted_NoDup cs : sorted_by fst cs -> NoDup (idx cs).
Proof.
  induction cs as [|y cs IH]; intros Hs; [constructor|]. apply sorted_by_cons in Hs as [Hs Hf].
  apply NoDup_cons. split; [|by apply IH]. intros Hin. apply list_elem_of_fmap in Hin as (z & E & Hz).
  rewrite Forall_forall in Hf. apply Hf in Hz. lia.
Qed.

Lemma sum_leaf_counts_spec d cs L : (d < 64)%nat -> stand_for d cs L -> Z.of_nat (length L) < U64 ->
  (forall i c, (i, c) ∈ cs -> Child_leaf_count c = Ok (Z.of_nat (length (group d i L)))) ->
  sum_leaf_counts 0 cs = Ok (Z.of_nat (length L)).
Proof.
  intros Hd Hst Hb Hc. pose proof Hst as ([Hs Hf] & Hg & _).
  assert (Hall : filter (fun x => nib (account_key x) d ∈ idx cs) L = L).
  { apply filter_all, Forall_forall. intros x Hx.
    destruct (proj2 (Hg (nib (account_key x) d) (nib_ok _ d Hd))) as [c Hin].
    - intros E. assert (Hx' : x ∈ group d (nib (account_key x) d) L) by (by apply list_elem_of_filter).
      rewrite E in Hx'. by apply not_elem_of_nil in Hx'.
    - by apply (list_elem_of_fmap_2 fst _ (nib (account_key x) d, c)). }
  pose proof (group_disjoint_length d (idx cs) L (sorted_NoDup cs Hs)) as Hsum. rewrite Hall in Hsum.
  rewrite <- Hsum in *. clear Hsum Hall Hg Hs Hf Hst.
  assert (G : forall acc, 0 <= acc -> acc + Z.of_nat (foldr (fun i a => (length (group d i L) + a)%nat) 0%nat (idx cs)) < U64 ->
    sum_leaf_counts acc cs =
    Ok (acc + Z.of_nat (foldr (fun i a => (length (group d i L) + a)%nat) 0%nat (idx cs)))).
  { clear Hb. induction cs as [|[i c] cs IH]; intros acc Ha Hb; cbn [sum_leaf_counts idx map foldr fst] in *.
    - f_equal. lia.
    - rewrite (Hc i c) by left. rewrite obind_Ok, add64_Ok, obind_Ok by lia.
      fold (idx cs) in *. rewrite IH; [f_equal; lia| |lia|lia]. intros j e Hj. apply Hc. by right. }
  rewrite G; [f_equal; lia|lia|lia].
Qed.

(** ** Assembling an internal node

    Children that were visited, each with its new node if it has one, and old
    children that stay. *)
Record cres := mkCres {
  cr_index : Z;
  cr_node : option (Node HV K);
  cr_new : list (NodeKey * Node HV K);
  cr_stale : list StaleNodeIndex;
}.
Implicit Types (r : cres) (rs : list cres).

Definition ents rs : list (Z * Node HV K) := omap (fun r => n ← cr_node r; Some (cr_index r, n)) rs.

Definition new_child version p L (i : Z) n : Child HV :=
  mkChild (hash_at (S (length p)) (group (length p) i L)) version (Node_node_type n).

Definition child_node_key version p (i : Z) : NodeKey := mkNodeKey version (pack (p ++ [i])).

(** The nodes below the children, and the children themselves. *)
Definition all_new version p rs : list (NodeKey * Node HV K) :=
  concat (map cr_new rs) ++ map (fun y => (child_node_key version p (fst y), snd y)) (ents rs).

Lemma ents_elem rs i n : (i, n) ∈ ents rs <-> exists r, r ∈ rs /\ cr_index r = i /\ cr_node r = Some n.
Proof.
  unfold ents. rewrite list_elem_of_omap. split.
  - intros (r & Hr & E). destruct (cr_node r) as [m|] eqn:Em; [|done]. injection E as <- <-. eauto.
  - intros (r & Hr & <- & E). exists r. by rewrite E.
Qed.

Lemma ents_cons r rs : ents (r :: rs) =
  match cr_node r with Some n => (cr_index r, n) :: ents rs | None => ents rs end.
Proof. unfold ents. cbn. by destruct (cr_node r). Qed.

Lemma ents_sorted rs : sorted_by cr_index rs -> sorted_by fst (ents rs).
Proof.
  induction rs as [|r rs IH]; intros Hs; [constructor|]. apply sorted_by_cons in Hs as [Hs Hf].
  rewrite ents_cons. destruct (cr_node r) as [n|]; [|by apply IH]. apply sorted_by_cons. split; [by apply IH|].
  apply Forall_forall. intros [i m] Hi. apply ents_elem in Hi as (r' & Hr' & <- & _).
  rewrite Forall_forall in Hf. by apply Hf.
Qed.

(** Where a key below a child branches off. *)
Lemma below_child version p i k : below version (p ++ [i]) k ->
  below version p k /\ unpack (nk_nibble_path k) !! length p = Some i /\
  (S (length p) < length (unpack (nk_nibble_path k)))%nat.
Proof.
  intros (Hv & q & Hq & Hn & Hl & E). rewrite <- app_assoc in *. cbn [app] in *.
  rewrite E, unpack_pack by done. split_and!.
  - split; [done|]. exists (i :: q). done.
  - by rewrite lookup_app_r, Nat.sub_diag by lia.
  - rewrite length_app. destruct q; [done|]. cbn [length]. lia.
Qed.

Lemma child_below version p i : Forall nibble_ok p -> (length p < 64)%nat -> nibble_ok i ->
  below version p (child_node_key version p i) /\
  unpack (nk_nibble_path (child_node_key version p i)) = p ++ [i].
Proof.
  intros Hp Hl Hi. assert (Hn : Forall nibble_ok (p ++ [i])) by (apply Forall_app; split; [done|by rewrite Forall_singleton]).
  split; [|by apply unpack_pack]. split; [done|]. exists [i]. rewrite length_app. cbn. split_and!; [done|done|lia|done].
Qed.

Lemma all_news_ok version p rs : sorted_by cr_index rs ->
  (forall r, r ∈ rs -> new_ok version (p ++ [cr_index r]) (cr_new r)) ->
  NoDup (map fst (concat (map cr_new rs))) /\
  forall k n, (k, n) ∈ concat (map cr_new rs) -> exists r, r ∈ rs /\ below version (p ++ [cr_index r]) k.
Proof.
  induction rs as [|r rs IH]; intros Hs Hok.
  - split; [constructor|]. intros k n Hk. by apply not_elem_of_nil in Hk.
  - apply sorted_by_cons in Hs as [Hs Hf].
    destruct IH as [IH1 IH2]; [done|intros r' Hr'; apply Hok; by right|].
    destruct (Hok r ltac:(left)) as [Hnd Hb]. cbn [map concat]. split.
    + rewrite map_app. apply NoDup_app. split_and!; [done| |done].
      intros k Hk Hk'. apply list_elem_of_fmap in Hk as ([k1 n1] & -> & Hk), Hk' as ([k2 n2] & E & Hk').
      cbn [fst] in *. subst k2. apply Hb, below_child in Hk as (_ & T1 & _).
      apply IH2 in Hk' as (r' & Hr' & Hb'). apply below_child in Hb' as (_ & T2 & _).
      rewrite Forall_forall in Hf. apply Hf in Hr'. rewrite T1 in T2. injection T2 as T2. lia.
    + intros k n Hk. apply elem_of_app in Hk as [Hk|Hk].
      * exists r. split; [left|by eapply Hb].
      * destruct (IH2 k n Hk) as (r' & Hr' & Hb'). exists r'. split; [by right|done].
Qed.

Section Assemble.
Variables (version : Z) (s0 : @store HV K) (p : list Z) (L : list (LeafNode HV K)).
Let d := length p.
Variables (rs : list cres) (old : list (Z * Child HV)) (cs : list (Z * Child HV)).

Record assembly : Prop := {
  as_fresh : fresh version s0;
  as_path : Forall nibble_ok p;
  as_len : (d < 64)%nat;
  as_sorted : sorted_by cr_index rs;
  as_nibbles : Forall (fun r => nibble_ok (cr_index r)) rs;
  as_updated : forall r, r ∈ rs ->
    updated version s0 (p ++ [cr_index r]) (group d (cr_index r) L) (cr_node r) (cr_new r) (cr_stale r);
  as_old : forall i c, (i, c) ∈ old -> (i ∉ map cr_index rs) /\ nibble_ok i /\
    (exists sub, s0 (child_key p (i, c)) = Some sub /\ represents s0 (p ++ [i]) (group d i L) sub /\
      child_node_type c = Node_node_type sub /\ child_hash c = hash_at (S d) (group d i L));
  as_old_sorted : sorted_by fst old;
  as_cover : forall i, nibble_ok i -> group d i L <> [] ->
    i ∈ map cr_index rs \/ (exists c, (i, c) ∈ old);
  as_cs : sorted_by fst cs;
  as_elem : forall i c, (i, c) ∈ cs <->
    (i, c) ∈ old \/ (exists n, (i, n) ∈ ents rs /\ c = new_child version p L i n);
}.

Hypothesis A : assembly.

Definition sub_node (i : Z) : Node HV K :=
  match assoc i (ents rs) with
  | Some n => n
  | None =>
      match assoc i old with
      | Some c => default Node_Null (s0 (child_key p (i, c)))
      | None => Node_Null
      end
  end.

Lemma sub_node_new i n : (i, n) ∈ ents rs -> sub_node i = n.
Proof.
  intros Hi. unfold sub_node. by rewrite (assoc_sorted i _ n (ents_sorted rs (as_sorted A)) Hi).
Qed.

Lemma sub_node_old i c sub : (i, c) ∈ old -> s0 (child_key p (i, c)) = Some sub -> sub_node i = sub.
Proof.
  intros Hi Hs. unfold sub_node. destruct (assoc i (ents rs)) as [n|] eqn:E.
  - apply assoc_elem_of, ents_elem in E as (r & Hr & <- & _). destruct (as_old A _ _ Hi) as [Hn _].
    destruct Hn. by apply (list_elem_of_fmap_2 cr_index).
  - rewrite (assoc_sorted i old c (as_old_sorted A) Hi), Hs. done.
Qed.

Lemma result_unique r r' : r ∈ rs -> r' ∈ rs -> cr_index r = cr_index r' -> r = r'.
Proof.
  pose proof (as_sorted A) as Hs. revert Hs. generalize rs. clear A. intros l.
  induction l as [|a l IH]; intros Hs Hr Hr' E; [by apply not_elem_of_nil in Hr|].
  apply sorted_by_cons in Hs as [Hs Hf]. rewrite Forall_forall in Hf.
  apply elem_of_cons in Hr as [->|Hr], Hr' as [->|Hr']; [done|apply Hf in Hr'; lia|apply Hf in Hr; lia|by apply IH].
Qed.

Definition all_stale : list StaleNodeIndex := concat (map cr_stale rs).

Lemma all_stale_elem e : e ∈ all_stale <-> exists r, r ∈ rs /\ e ∈ cr_stale r.
Proof.
  unfold all_stale. rewrite list_elem_of_In, in_concat. split.
  - intros (l & Hl & He). apply list_elem_of_In, list_elem_of_fmap in Hl as (r & -> & Hr).
    exists r. split; [done|by apply list_elem_of_In].
  - intros (r & Hr & He). exists (cr_stale r). split; [by apply list_elem_of_In, list_elem_of_fmap_2|].
    by apply list_elem_of_In.
Qed.

(** A stale key below a child comes from the result of that child. *)
Lemma all_stale_child i k : at_below (p ++ [i]) k -> k ∈ map stale_node_key all_stale ->
  exists r, r ∈ rs /\ cr_index r = i /\ k ∈ map stale_node_key (cr_stale r).
Proof.
  intros Hk Hin. apply list_elem_of_fmap in Hin as (e & -> & He). apply all_stale_elem in He as (r & Hr & He).
  exists r. split_and!; [done| |by apply list_elem_of_fmap_2].
  destruct (as_updated A r Hr) as (_ & Hf & _). rewrite Forall_forall in Hf.
  symmetry. by eapply at_below_inj; [|apply Hf].
Qed.

Lemma all_stale_below : Forall (fun e => at_below p (stale_node_key e)) all_stale.
Proof.
  apply Forall_forall. intros e He. apply all_stale_elem in He as (r & Hr & He).
  destruct (as_updated A r Hr) as (_ & Hf & _). rewrite Forall_forall in Hf. by eapply at_below_child, Hf.
Qed.

(** Every child represents its group, in any store with the new nodes and the old
    ones that are not stale. *)
Lemma child_represents s i c : keeps p s0 all_stale s -> holds s (all_new version p rs) -> (i, c) ∈ cs ->
  s (child_key p (i, c)) = Some (sub_node i) /\
  represents s (p ++ [i]) (group d i L) (sub_node i) /\
  child_node_type c = Node_node_type (sub_node i) /\
  child_hash c = hash_at (S d) (group d i L) /\ nibble_ok i.
Proof.
  intros He Hh Hi. apply (as_elem A) in Hi as [Hi|(n & Hi & ->)].
  - destruct (as_old A _ _ Hi) as (_ & Hn & sub & Hs & Hr & Ht & Hc).
    rewrite (sub_node_old i c sub) by done.
    assert (Hni : Forall nibble_ok (p ++ [i]))
      by (apply Forall_app; split; [apply (as_path A)|by rewrite Forall_singleton]).
    assert (Hkeep : forall k m, s0 k = Some m -> at_below (p ++ [i]) k -> s k = Some m).
    { intros k m Hk Hb. apply He; [done|by eapply at_below_child|]. intros Hin.
      destruct (all_stale_child i k Hb Hin) as (r & Hr' & <- & _). destruct (as_old A _ _ Hi) as [Hnot _].
      apply Hnot. by apply (list_elem_of_fmap_2 cr_index). }
    split_and!; [apply Hkeep; [done|by apply at_below_pack]| |done|done|apply Hn..].
    apply (represents_local s0); [done|done|]. intros k m Hk (q & _ & E). apply Hkeep; [done|by exists q].
  - rewrite (sub_node_new i n) by done. pose proof Hi as Hi'. apply ents_elem in Hi' as (r & Hr & <- & En).
    assert (Hn : nibble_ok (cr_index r)) by (pose proof (as_nibbles A) as Hf; rewrite Forall_forall in Hf; by apply Hf).
    split_and!; [| |done|done|apply Hn..].
    + apply Hh. unfold all_new. apply elem_of_app. right.
      apply (list_elem_of_fmap_2 (fun y => (child_node_key version p (fst y), snd y)) _ (cr_index r, n) Hi).
    + destruct (as_updated A r Hr) as (_ & _ & Hu). rewrite En in Hu. apply Hu.
      { intros k m Hk Hb Hns. apply He; [done|by eapply at_below_child|]. intros Hin.
        destruct (all_stale_child _ _ Hb Hin) as (r' & Hr' & Ei & Hk').
        by rewrite (result_unique r' r Hr' Hr Ei) in Hk'. }
      intros k m Hk. apply Hh. unfold all_new. apply elem_of_app. left.
      apply list_elem_of_In, in_concat. exists (cr_new r). split; [|by apply list_elem_of_In].
      by apply list_elem_of_In, list_elem_of_fmap_2.
Qed.

Lemma all_new_ok : new_ok version p (all_new version p rs).
Proof.
  destruct (all_news_ok version p rs (as_sorted A)) as [Hnd Hb].
  { intros r Hr. apply (as_updated A r Hr). }
  assert (Hchild : forall i n, (i, n) ∈ ents rs -> nibble_ok i).
  { intros i n Hi. apply ents_elem in Hi as (r & Hr & <- & _).
    pose proof (as_nibbles A) as Hf. rewrite Forall_forall in Hf. by apply Hf. }
  unfold all_new. split.
  - rewrite map_app, map_map. cbn [fst]. apply NoDup_app. split_and!; [done| |].
    + intros k Hk Hk'. apply list_elem_of_fmap in Hk as ([k1 n1] & -> & Hk), Hk' as ([i n] & E & Hi).
      cbn [fst] in *. subst k1. apply Hb in Hk as (r & _ & Hbl). apply below_child in Hbl as (_ & _ & Hlen).
      destruct (child_below version p i (as_path A) (as_len A) (Hchild i n Hi)) as [_ Eu].
      rewrite Eu, length_app in Hlen. cbn in Hlen. lia.
    + pose proof (ents_sorted rs (as_sorted A)) as Hs. revert Hs Hchild. generalize (ents rs). intros es.
      induction es as [|[i n] es IH]; intros Hs Hchild; [constructor|]. apply sorted_by_cons in Hs as [Hs Hf].
      cbn [map fst]. apply NoDup_cons. split; [|apply IH; [done|intros j m Hj; eapply Hchild; by right]].
      intros Hin. apply list_elem_of_fmap in Hin as ([j m] & E & Hj). cbn [fst] in E.
      apply (f_equal (fun k => unpack (nk_nibble_path k))) in E.
      rewrite (proj2 (child_below version p i (as_path A) (as_len A) (Hchild i n ltac:(left)))) in E.
      rewrite (proj2 (child_below version p j (as_path A) (as_len A) (Hchild j m ltac:(by right)))) in E.
      apply app_inv_head in E. injection E as ->. rewrite Forall_forall in Hf. apply Hf in Hj. cbn in Hj. lia.
  - intros k n Hk. apply elem_of_app in Hk as [Hk|Hk].
    + apply Hb in Hk as (r & _ & Hbl). by apply below_child in Hbl as [? _].
    + apply list_elem_of_fmap in Hk as ([i m] & [= -> ->] & Hi). cbn [fst].
      apply (child_below version p i (as_path A) (as_len A) (Hchild i m Hi)).
Qed.

Lemma assembly_store : exists s, keeps p s0 all_stale s /\ holds s (all_new version p rs).
Proof.
  destruct all_new_ok as [Hnd Hb]. exists (overlay s0 (all_new version p rs)). split.
  - apply extends_keeps, (overlay_extends version); [apply (as_fresh A)|]. intros k n Hk. by apply Hb in Hk as [? _].
  - by apply overlay_holds.
Qed.

Lemma assembly_stand_for : stand_for d cs L.
Proof.
  destruct assembly_store as (s & He & Hh). split_and!.
  - split; [apply (as_cs A)|]. apply Forall_forall. intros [i c] Hi.
    by destruct (child_represents s i c He Hh Hi) as (_ & _ & _ & _ & Hn).
  - intros i Hn. split.
    + intros [c Hi]. destruct (child_represents s i c He Hh Hi) as (_ & Hr & _).
      by apply represents_nonempty in Hr.
    + intros Hg. destruct (as_cover A i Hn Hg) as [Hi|[c Hi]].
      * apply list_elem_of_fmap in Hi as (r & -> & Hr). destruct (as_updated A r Hr) as (_ & _ & Hu).
        destruct (cr_node r) as [n|] eqn:En; [|done].
        exists (new_child version p L (cr_index r) n). apply (as_elem A). right. exists n.
        split; [|done]. apply ents_elem. eauto.
      * exists c. apply (as_elem A). by left.
  - intros i c Hi. by destruct (child_represents s i c He Hh Hi) as (_ & _ & _ & Hc & _).
  - intros i c Hi. destruct (child_represents s i c He Hh Hi) as (_ & Hr & Ht & _).
    destruct c as [h v ty]. cbn [child_node_type] in Ht. subst ty. by apply (child_is_leaf s p i).
Qed.

Lemma assembly_sum : Z.of_nat (length L) < U64 -> sum_leaf_counts 0 cs = Ok (Z.of_nat (length L)).
Proof.
  intros Hb. destruct assembly_store as (s & He & Hh).
  apply (sum_leaf_counts_spec d cs L (as_len A) assembly_stand_for Hb). intros i c Hi.
  destruct (child_represents s i c He Hh Hi) as (_ & Hr & Ht & _).
  destruct c as [h v ty]. cbn [child_node_type] in Ht. subst ty. by eapply child_leaf_count.
Qed.

(** The three outcomes: nothing, one leaf, an internal node. *)
Lemma assembly_empty : cs = [] -> L = [].
Proof.
  intros E. pose proof assembly_stand_for as Hst. rewrite E in Hst.
  by apply (stand_for_nil d L (as_len A)).
Qed.

Lemma assembly_leaf i c : cs = [(i, c)] -> Child_is_leaf c = true ->
  group d i L = L /\ exists x, L = [x] /\ sub_node i = Node_Leaf x.
Proof.
  intros E Hl. pose proof assembly_stand_for as Hst. rewrite E in Hst.
  pose proof (stand_for_one d i c L (as_len A) Hst) as Eg. split; [done|].
  pose proof Hst as (_ & _ & _ & Hlf). pose proof (proj1 (Hlf i c ltac:(left)) Hl) as H1'. rewrite Eg in H1'.
  destruct assembly_store as (s & He & Hh).
  destruct (child_represents s i c He Hh ltac:(rewrite E; left)) as (_ & Hr & _). rewrite Eg in Hr.
  destruct L as [|x [|]]; [done| |done]. exists x. split; [done|]. by apply represents_single in Hr.
Qed.

Lemma assembly_internal : cs <> [] -> single_leaf cs = false \/ p = [] -> Z.of_nat (length L) < U64 ->
  exists node, InternalNode_new (from_sorted cs) = Ok node /\
    updated version s0 p L (Some (Node_Internal node)) (all_new version p rs) all_stale.
Proof.
  intros Hne Hsl Hb. unfold InternalNode_new, new_impl, from_sorted.
  destruct cs as [|y l] eqn:Ecs; [done|]. rewrite <- Ecs in *. cbn [Children_is_empty negb ensure].
  assert (Hem : Children_is_empty cs = false) by (by rewrite Ecs). rewrite Hem. cbn [negb ensure].
  rewrite obind_Ok, assembly_sum, obind_Ok by done. cbn [expect_res]. eexists. split; [done|].
  split_and!; [apply all_new_ok|apply all_stale_below|]. intros s He Hh. apply (rep_internal _ _ _ _ sub_node).
  - apply (as_len A).
  - destruct Hsl as [Hsl|Hp0].
    + left. eapply stand_for_many; [apply (as_len A)|apply assembly_stand_for|done|done].
    + right. split; [done|]. intros E. destruct assembly_store as (s' & He' & Hh').
      assert (Hy : y ∈ cs) by (rewrite Ecs; left). destruct y as [i c].
      destruct (child_represents s' i c He' Hh' Hy) as (_ & Hr & _). apply represents_nonempty in Hr.
      by rewrite E in Hr.
  - apply assembly_stand_for.
  - intros i c Hi. by destruct (child_represents s i c He Hh Hi) as (? & _).
  - intros i c Hi. by destruct (child_represents s i c He Hh Hi) as (_ & ? & _).
  - intros i c Hi. by destruct (child_represents s i c He Hh Hi) as (_ & _ & ? & _).
Qed.
End Assemble.
End Batches.
