(* ===== verification/JellyfishUpdate.v ===== *)
(** * Batch updates are updates of the set of leaves

    Building a subtree from new leaves, adding leaves next to an existing one, and
    updating a stored subtree give a subtree that represents the updated leaves. *)
From stdpp Require Import base list numbers strings option gmap sorting.
From Stdlib Require Import ZArith Lia Bool Sorted.
From S2P Require Import Prelude Hash SparseMerkleProof SparseSpec SparseFacts NibblePath NibblePathFacts ByteCodec JellyfishNode JellyfishNodeFacts JellyfishHash JellyfishSpec JellyfishTree JellyfishRead JellyfishRuns JellyfishBatch.

Section Updates.
Context {HV : Type} `{HashValueOps HV} `{HashValueBits HV} `{!HashValueLaws HV} `{CryptoHasher HV}
  `{LeafHasher HV} `{HashValueKeys HV} `{!HashValueKeysLaws HV} {K : Type}.
Implicit Types (cs : list (Z * Child HV)) (c : Child HV) (lvs L : list (LeafNode HV K))
  (x : LeafNode HV K) (key : HV) (p : list Z) (version : Z) (n : Node HV K)
  (b : TreeUpdateBatch HV K) (new : list (NodeKey * Node HV K)) (st : list StaleNodeIndex)
  (s : @store HV K) (ups : list (HV * option (HV * K))) (cache : option (gmap NibblePath HV)).

(** ** The hash cache *)

(** The leaves whose key starts with a path. *)
Definition under p lvs : list (LeafNode HV K) := filter (fun x => starts p (account_key x)) lvs.

(** The update writes the node at [p ++ [i]]: below [p] there are several leaves after
    it, and a key below the node is updated, or below [p] there was at most one leaf
    before. *)
Definition writes version lvs ups p i : Prop :=
  (2 <= length (under p (apply_updates version lvs ups)))%nat /\
  ((exists kv, kv ∈ ups /\ starts (p ++ [i]) (fst kv)) \/ (length (under p lvs) <= 1)%nat).

(** The cache, if there is one, has the hash of every node below [p] that the update
    writes. *)
Definition cache_ok version cache p lvs ups : Prop :=
  match cache with
  | None => True
  | Some m => forall q i, Forall nibble_ok q -> nibble_ok i -> (length (p ++ q ++ [i]) <= 64)%nat ->
      writes version lvs ups (p ++ q) i ->
      let L := under ((p ++ q) ++ [i]) (apply_updates version lvs ups) in
      L <> [] -> m !! pack ((p ++ q) ++ [i]) = Some (hash_at (S (length (p ++ q))) L)
  end.

Lemma starts_snoc p i key : (length p < 64)%nat -> starts (p ++ [i]) key <-> starts p key /\ nib key (length p) = i.
Proof.
  intros Hl. unfold starts. rewrite length_app. cbn [length].
  rewrite Nat.add_1_r, (take_S_r _ _ (nib key (length p))) by (by apply nib_lookup).
  split; [intros E; by apply app_inj_tail in E|]. by intros [-> ->].
Qed.

Lemma starts_app p q key : starts (p ++ q) key -> starts p key.
Proof.
  unfold starts. intros E. apply (f_equal (take (length p))) in E.
  rewrite take_take, take_app_length, length_app in E. by rewrite Nat.min_l in E by lia.
Qed.

Lemma under_group p i q lvs : (length p < 64)%nat -> under (p ++ i :: q) (group (length p) i lvs) = under (p ++ i :: q) lvs.
Proof.
  intros Hl. unfold under, group. rewrite list_filter_filter. apply list_filter_iff. intros x. split; [tauto|].
  intros Hs. split; [done|]. change (p ++ i :: q) with (p ++ [i] ++ q) in Hs. rewrite app_assoc in Hs.
  apply starts_app, starts_snoc in Hs; [tauto|done].
Qed.

Lemma under_placed p lvs : placed p lvs -> under p lvs = lvs.
Proof.
  intros [_ Hp]. unfold under. induction Hp as [|x lvs Hx _ IH]; [done|]. rewrite filter_cons, IH. by rewrite decide_True.
Qed.

Lemma under_child p i lvs : (length p < 64)%nat -> placed p lvs -> under (p ++ [i]) lvs = group (length p) i lvs.
Proof.
  intros Hl [_ Hp]. unfold under, group. induction Hp as [|x lvs Hx _ IH]; [done|]. rewrite !filter_cons, IH.
  pose proof (starts_snoc p i (account_key x) Hl) as Hs. unfold starts at 2 in Hs. repeat case_decide; tauto.
Qed.

Lemma cache_ok_child version cache p i lvs ups : (length p < 64)%nat -> nibble_ok i -> cache_ok version cache p lvs ups ->
  cache_ok version cache (p ++ [i]) (group (length p) i lvs) (run_of (length p) i ups).
Proof.
  intros Hl Hi Hc. destruct cache as [m|]; [|done]. intros q j Hq Hj Hlen Hw. cbv zeta.
  rewrite <- group_apply in *. unfold writes in Hw. rewrite <- group_apply in Hw.
  replace ((p ++ [i]) ++ q) with (p ++ i :: q) in * by (by rewrite <- app_assoc).
  rewrite !under_group in Hw by done.
  replace ((p ++ i :: q) ++ [j]) with (p ++ i :: (q ++ [j])) in * by (by rewrite <- app_assoc).
  rewrite under_group by done. intros Hne.
  specialize (Hc (i :: q) j ltac:(by constructor) Hj). cbv zeta in Hc.
  replace ((p ++ i :: q) ++ [j]) with (p ++ i :: (q ++ [j])) in Hc by (by rewrite <- app_assoc).
  apply Hc; [|split; [by destruct Hw|]|done].
  - rewrite <- app_assoc in Hlen. exact Hlen.
  - destruct Hw as [_ [(kv & Hkv & Hs)|Hle]]; [left|by right]. exists kv. apply list_elem_of_filter in Hkv as [_ Hkv].
    replace ((p ++ i :: q) ++ [j]) with (p ++ i :: (q ++ [j])) by (by rewrite <- app_assoc). done.
Qed.

(** The hash of the child [i] of a node at [p] is found. *)
Definition cached cache p L i : Prop := forall n v,
  Node_hash n = Ok (hash_at (S (length p)) (group (length p) i L)) ->
  node_get_hash (mkNodeKey v (pack (p ++ [i]))) n cache = Ok (hash_at (S (length p)) (group (length p) i L)).

Lemma cache_cached version cache p lvs ups i : let L := apply_updates version lvs ups in
  (length p < 64)%nat -> nibble_ok i -> placed p L -> cache_ok version cache p lvs ups -> (2 <= length L)%nat ->
  (exists kv, kv ∈ ups /\ starts (p ++ [i]) (fst kv)) \/ (length lvs <= 1)%nat -> group (length p) i L <> [] -> cached cache p L i.
Proof.
  intros L Hl Hi Hpl Hc H2' Hor Hne n v Hh. destruct cache as [m|]; [|done]. cbn [node_get_hash nk_nibble_path].
  specialize (Hc [] i ltac:(constructor) Hi). cbv zeta in Hc. cbn [app] in Hc. rewrite app_nil_r in Hc.
  fold L in Hc. rewrite (under_child p i L Hl Hpl) in Hc.
  rewrite Hc; [done| | |done].
  - rewrite length_app. cbn [length]. lia.
  - split; [by rewrite under_placed|]. destruct Hor as [Hor|Hle]; [by left|right].
    pose proof (length_filter (fun x => starts p (account_key x)) lvs). unfold under. lia.
Qed.

(** ** New children *)
Definition new_children version p L (es : list (Z * Node HV K)) : list (Z * Child HV) :=
  map (fun y => (fst y, new_child version p L (fst y) (snd y))) es.
Definition child_nodes version p (es : list (Z * Node HV K)) : list (NodeKey * Node HV K) :=
  map (fun y => (child_node_key version p (fst y), snd y)) es.

Lemma make_children_spec version cache v p L : forall es b, Forall nibble_ok p -> (length p < 64)%nat ->
  usable b -> Forall (fun y => nibble_ok (fst y)) es ->
  (forall i n, (i, n) ∈ es -> node_get_hash (child_node_key version p i) n cache =
     Ok (hash_at (S (length p)) (group (length p) i L))) ->
  exists b', make_children (mkNodeKey v (pack p)) version cache es b = Ok (new_children version p L es, b') /\
    adds b b' (child_nodes version p es) [].
Proof.
  induction es as [|[i n] es IH]; intros b Hp Hl Hb Hn Hh.
  - exists b. split; [done|]. by apply adds_refl.
  - apply Forall_cons in Hn as [Hi Hn]. cbn [make_children fst] in *.
    rewrite gen_child_node_key_pack, obind_Ok by done.
    pose proof (Hh i n ltac:(left)) as Ehash. unfold child_node_key in Ehash. rewrite Ehash, obind_Ok.
    destruct (put_node_adds b (child_node_key version p i) n Hb) as (b1 & Hput & Ha1).
    unfold child_node_key in Hput. rewrite Hput, obind_Ok.
    destruct (IH b1 Hp Hl) as (b' & -> & Ha'); [by destruct Ha1|done|intros j m Hj; apply Hh; by right|].
    rewrite obind_Ok. exists b'. split; [done|]. by apply (adds_trans b b1 b' [_] [] _ []).
Qed.

Lemma new_child_is_leaf version p L i n : Child_is_leaf (new_child version p L i n) = Node_is_leaf n.
Proof. by destruct n. Qed.

Lemma idx_new_children version p L es : map fst (new_children version p L es) = map fst es.
Proof. unfold new_children. rewrite map_map. done. Qed.

(** The new children of [ents rs] assemble when there are no old ones. *)
Definition fresh_results version s0 p L (rs : list cres) : Prop :=
  fresh version s0 /\ Forall nibble_ok p /\ (length p < 64)%nat /\
  sorted_by cr_index rs /\ Forall (fun r => nibble_ok (cr_index r)) rs /\
  (forall r, r ∈ rs -> updated version s0 (p ++ [cr_index r]) (group (length p) (cr_index r) L) (cr_node r) (cr_new r) (cr_stale r)).

Lemma fresh_assembly version s0 p L rs : fresh_results version s0 p L rs ->
  (forall i, nibble_ok i -> group (length p) i L <> [] -> i ∈ map cr_index rs) ->
  assembly version s0 p L rs [] (new_children version p L (ents rs)).
Proof.
  intros (Hf & Hp & Hl & Hs & Hn & Hu) Hcov. split; try done.
  - intros i c Hi. by apply not_elem_of_nil in Hi.
  - constructor.
  - intros i Hi Hg. left. by apply Hcov.
  - unfold sorted_by. rewrite idx_new_children. by apply ents_sorted.
  - intros i c. unfold new_children. rewrite list_elem_of_fmap. split.
    + intros ([j n] & [= -> ->] & Hj). right. by exists n.
    + intros [Hi|(n & Hi & ->)]; [by apply not_elem_of_nil in Hi|]. by exists (i, n).
Qed.

Lemma result_hash version s0 p L rs old cs i n : assembly version s0 p L rs old cs -> (i, n) ∈ ents rs ->
  nibble_ok i /\ group (length p) i L <> [] /\
  Node_hash n = Ok (hash_at (S (length p)) (group (length p) i L)).
Proof.
  intros A Hi. apply ents_elem in Hi as (r & Hr & <- & En).
  pose proof (as_updated _ _ _ _ _ _ _ A r Hr) as Hu. rewrite En in Hu.
  destruct (updated_represents _ _ _ _ _ _ _ (as_fresh _ _ _ _ _ _ _ A) Hu) as (s & Hrep).
  split; [|split; [by apply represents_nonempty in Hrep|]].
  - pose proof (as_nibbles _ _ _ _ _ _ _ A) as Hf. rewrite Forall_forall in Hf. by apply Hf.
  - apply represents_hash in Hrep. rewrite length_app in Hrep. cbn [length] in Hrep. by rewrite Nat.add_1_r in Hrep.
Qed.

Lemma node_of_children_spec version cache s0 v p L rs b :
  (1 <= length p)%nat -> Z.of_nat (length L) < U64 ->
  ((2 <= length L)%nat -> forall i, nibble_ok i -> group (length p) i L <> [] -> cached cache p L i) -> usable b ->
  assembly version s0 p L rs [] (new_children version p L (ents rs)) ->
  exists o b' new,
    node_of_children (mkNodeKey v (pack p)) version (Z.of_nat (length p)) cache (ents rs) b = Ok (o, b') /\
    adds b b' new [] /\ updated version s0 p L o (concat (map cr_new rs) ++ new) (concat (map cr_stale rs)).
Proof.
  intros H1l Hb Hc Hu A. unfold node_of_children.
  destruct (all_news_ok version p rs (as_sorted _ _ _ _ _ _ _ A)) as [Hnd Hbel].
  { intros r Hr. apply (as_updated _ _ _ _ _ _ _ A r Hr). }
  assert (Hnews : new_ok version p (concat (map cr_new rs) ++ [])).
  { rewrite app_nil_r. split; [done|]. intros k n Hk. apply Hbel in Hk as (r & _ & Hk).
    by apply below_child in Hk as [? _]. }
  assert (Hmk : single_leaf (new_children version p L (ents rs)) = false -> ents rs <> [] ->
    exists o b' new,
      (r ← make_children (mkNodeKey v (pack p)) version cache (ents rs) b;
       let '(children, batch) := r in
       new_internal_node ← InternalNode_new (from_sorted children);
       Ok (Some (Node_Internal new_internal_node), batch)) = Ok (o, b') /\
      adds b b' new [] /\ updated version s0 p L o (concat (map cr_new rs) ++ new) (concat (map cr_stale rs))).
  { intros Hsl Hne.
    assert (Hmany : (2 <= length L)%nat).
    { eapply stand_for_many; [apply (as_len _ _ _ _ _ _ _ A)|apply (assembly_stand_for _ _ _ _ _ _ _ A)| |done]. by destruct (ents rs). }
    destruct (make_children_spec version cache v p L (ents rs) b) as (b' & -> & Ha);
      [apply (as_path _ _ _ _ _ _ _ A)|apply (as_len _ _ _ _ _ _ _ A)|done| | |].
    - apply Forall_forall. intros [i n] Hi. by apply (result_hash _ _ _ _ _ _ _ i n A).
    - intros i n Hi. destruct (result_hash _ _ _ _ _ _ _ i n A Hi) as (Hi' & Hg & Hh).
      by apply Hc.
    - rewrite obind_Ok.
      destruct (assembly_internal version s0 p L rs [] (new_children version p L (ents rs)) A) as (node & -> & Hup);
        [by destruct (ents rs)|by left|done|].
      rewrite obind_Ok. eexists _, b', _. split; [done|]. split; [exact Ha|exact Hup]. }
  destruct (ents rs) as [|[i n] es] eqn:Ee; [|destruct es as [|y es]].
  - exists None, b, []. split; [done|]. split; [by apply adds_refl|].
    split_and!; [done|by apply (all_stale_below _ _ _ _ _ _ _ A)|]. by apply (assembly_empty _ _ _ _ _ _ _ A).
  - change (MIN_LEAF_DEPTH <=? Z.of_nat (length p)) with (1 <=? Z.of_nat (length p)).
    rewrite (proj2 (Z.leb_le 1 _)), andb_true_r by lia.
    destruct (Node_is_leaf n) eqn:El.
    + destruct (assembly_leaf _ _ _ _ _ _ _ A i (new_child version p L i n)) as (_ & x & EL & Esub);
        [done|by rewrite new_child_is_leaf|].
      rewrite (sub_node_new _ _ _ _ _ _ _ A i n) in Esub by (rewrite Ee; left). subst n.
      exists (Some (Node_Leaf x)), b, []. split; [done|]. split; [by apply adds_refl|].
      split_and!; [done|by apply (all_stale_below _ _ _ _ _ _ _ A)|]. intros s _ _. rewrite EL. constructor.
    + apply Hmk; [|done]. cbn [new_children map single_leaf fst snd]. by rewrite new_child_is_leaf.
  - apply Hmk; done.
Qed.

(** ** The loop over the runs *)
Definition visited (rs : list cres) : list (Z * option (Node HV K)) :=
  map (fun r => (cr_index r, cr_node r)) rs.

Lemma pushed_visited rs : pushed (visited rs) = ents rs.
Proof.
  induction rs as [|r rs IH]; [done|]. rewrite ents_cons, <- IH. unfold pushed, visited. cbn.
  by destruct (cr_node r).
Qed.

Section Loop.
Variables (f : Z -> list (HV * option (HV * K)) -> TreeUpdateBatch HV K ->
               outcome (option (Node HV K) * TreeUpdateBatch HV K)).
Variables (kvs : list (HV * option (HV * K))) (d : nat).
Variable Q : Z -> list (HV * option (HV * K)) -> option (Node HV K) -> list (NodeKey * Node HV K) ->
             list StaleNodeIndex -> Prop.

(** What one call of [f] on a run does. *)
Definition run_spec (run : Z * list (HV * option (HV * K))) : Prop :=
  forall b, usable b -> exists o b' new st,
    f (fst run) (snd run) b = Ok (o, b') /\ adds b b' new st /\ Q (fst run) (snd run) o new st.

Definition result_of (run : Z * list (HV * option (HV * K))) (r : cres) : Prop :=
  cr_index r = fst run /\ Q (fst run) (snd run) (cr_node r) (cr_new r) (cr_stale r).

Lemma update_range_spec rg run b : (d < 64)%nat -> range_is d kvs rg run -> run_spec run -> usable b ->
  exists r b', update_range f kvs (Z.of_nat d) (fst rg) (snd rg) b = Ok ((cr_index r, cr_node r), b') /\
    adds b b' (cr_new r) (cr_stale r) /\ result_of run r.
Proof.
  intros Hd [(kv & Hkv & Hn) Hs] Hf Hb. unfold update_range. rewrite Hkv. cbn [expect].
  rewrite obind_Ok, hv_get_nibble_nib, obind_Ok by done. rewrite Hs, obind_Ok, Hn.
  destruct (Hf b Hb) as (o & b' & new & st & -> & Ha & HQ). rewrite obind_Ok. cbn [fst snd].
  exists (mkCres (fst run) o new st), b'. done.
Qed.

Lemma update_ranges_spec ranges rns : (d < 64)%nat -> Forall2 (range_is d kvs) ranges rns ->
  Forall run_spec rns -> forall b, usable b ->
  exists rs b', update_ranges f kvs (Z.of_nat d) ranges b = Ok (visited rs, b') /\
    adds b b' (concat (map cr_new rs)) (concat (map cr_stale rs)) /\ Forall2 result_of rns rs.
Proof.
  intros Hd Hr. induction Hr as [|[l r] run ranges rns Hx _ IH]; intros Hf b Hb.
  - exists [], b. split; [done|]. split; [by apply adds_refl|constructor].
  - apply Forall_cons in Hf as [Hf1 Hf]. cbn [update_ranges].
    destruct (update_range_spec (l, r) run b Hd Hx Hf1 Hb) as (res & b1 & E & Ha & HQ).
    cbn [fst snd] in E. rewrite E, obind_Ok.
    destruct (IH Hf b1) as (rs & b' & -> & Ha' & HQs); [by destruct Ha|].
    rewrite obind_Ok. exists (res :: rs), b'. split; [done|]. split; [by eapply adds_trans|by constructor].
Qed.

Lemma update_ranges_par_spec ranges rns : (d < 64)%nat -> Forall2 (range_is d kvs) ranges rns ->
  Forall run_spec rns ->
  exists rs l, update_ranges_par f kvs (Z.of_nat d) ranges = Ok l /\ map fst l = visited rs /\
    (forall b, usable b -> adds b (foldl TreeUpdateBatch_combine b (map snd l))
       (concat (map cr_new rs)) (concat (map cr_stale rs))) /\ Forall2 result_of rns rs.
Proof.
  intros Hd Hr. induction Hr as [|[l r] run ranges rns Hx _ IH]; intros Hf.
  - exists [], []. split; [done|]. split; [done|]. split; [apply adds_refl|constructor].
  - apply Forall_cons in Hf as [Hf1 Hf]. cbn [update_ranges_par].
    destruct (update_range_spec (l, r) run TreeUpdateBatch_new Hd Hx Hf1 usable_new) as (res & b1 & E & Ha & HQ).
    cbn [fst snd] in E. rewrite E, obind_Ok. destruct (IH Hf) as (rs & l' & -> & Ev & Hadds & HQs).
    rewrite obind_Ok. exists (res :: rs), (((cr_index res, cr_node res), b1) :: l'). split; [done|].
    split; [by cbn; rewrite Ev|]. split; [|by constructor]. intros b Hb. cbn [map snd foldl concat].
    pose proof (combine_adds b b1 _ _ Hb Ha) as Hc. eapply adds_trans; [exact Hc|]. apply Hadds. by destruct Hc.
Qed.
End Loop.

(** ** Properties of runs of updates *)
Definition ups_ok p ups : Prop := keys_sorted ups /\ Forall (fun kv => starts p (fst kv)) ups.

Lemma ups_NoDup ups : keys_sorted ups -> NoDup (map fst ups).
Proof.
  unfold keys_sorted. induction 1 as [|a ups _ IH Hf]; [constructor|]. cbn [map]. apply NoDup_cons.
  split; [|done]. intros Hin. apply list_elem_of_fmap in Hin as (kv & E & Hkv).
  rewrite Forall_forall in Hf. apply Hf in Hkv. rewrite E in Hkv. by apply klt_irrefl in Hkv.
Qed.

Lemma ups_run_ok p ups i : (length p < 64)%nat -> ups_ok p ups ->
  ups_ok (p ++ [i]) (run_of (length p) i ups).
Proof.
  intros Hl [Hs Hp]. split.
  - unfold keys_sorted, run_of in *. clear Hp. induction Hs as [|a l _ IH Hf]; [constructor|].
    rewrite filter_cons. case_decide; [|done]. constructor; [done|]. rewrite Forall_forall in *.
    intros y Hy. apply list_elem_of_filter in Hy as [_ Hy]. by apply Hf.
  - apply Forall_forall. intros kv Hkv. apply list_elem_of_filter in Hkv as [Hi Hkv].
    rewrite Forall_forall in Hp. apply starts_snoc; [done|]. split; [by apply Hp|done].
Qed.

(** Two keys below a path of 64 nibbles are equal. *)
Lemma starts_64 p (k1 k2 : HV) : (64 <= length p)%nat -> starts p k1 -> starts p k2 -> k1 = k2.
Proof.
  intros Hl Ha Hb. unfold starts in *. rewrite take_ge in Ha, Hb by (rewrite key_nibbles_length; done).
  apply hv_bytes_inj. rewrite <- (pack_bytes_nibbles (hv_bytes k1)), <- (pack_bytes_nibbles (hv_bytes k2)) by apply hv_bytes_ok.
  unfold key_nibbles in *. congruence.
Qed.

Lemma ups_two_len p u w ups : ups_ok p (u :: w :: ups) -> (length p < 64)%nat.
Proof.
  intros [Hs Hp]. destruct (decide (length p < 64)%nat) as [|Hl]; [done|]. exfalso.
  apply Forall_cons in Hp as [Ha Hp], Hp as [Hb _].
  assert (E : fst u = fst w) by (by apply (starts_64 p); [lia|..]).
  apply StronglySorted_inv in Hs as [_ Hf]. apply Forall_cons in Hf as [Hlt _].
  rewrite E in Hlt. by apply klt_irrefl in Hlt.
Qed.

(** The results of the runs of [ups], in order. *)
Lemma results_facts p ups (Q : Z -> list (HV * option (HV * K)) -> option (Node HV K) ->
    list (NodeKey * Node HV K) -> list StaleNodeIndex -> Prop) rs : (length p < 64)%nat -> ups_ok p ups ->
  Forall2 (result_of Q) (runs (length p) ups) rs ->
  map cr_index rs = map fst (runs (length p) ups) /\ sorted_by cr_index rs /\
  Forall (fun r => nibble_ok (cr_index r)) rs /\
  (forall r, r ∈ rs -> run_of (length p) (cr_index r) ups <> [] /\
     Q (cr_index r) (run_of (length p) (cr_index r) ups) (cr_node r) (cr_new r) (cr_stale r)) /\
  (forall i, run_of (length p) i ups <> [] -> i ∈ map cr_index rs).
Proof.
  intros Hl [Hs Hp] HQ. pose proof (keys_nib_sorted p ups Hs Hp) as Hns.
  assert (Eidx : map cr_index rs = map fst (runs (length p) ups)).
  { clear -HQ. induction HQ as [|run r rns rs [E _] _ IH]; [done|]. cbn. by rewrite E, IH. }
  assert (Hall : forall r, r ∈ rs -> exists g, (cr_index r, g) ∈ runs (length p) ups /\
    Q (cr_index r) g (cr_node r) (cr_new r) (cr_stale r)).
  { intros r Hr. apply list_elem_of_lookup in Hr as [j Hj].
    destruct (Forall2_lookup_r _ _ _ _ _ HQ Hj) as ([i g] & Hrun & E & Hq). cbn [fst snd] in *. subst i.
    exists g. split; [by eapply list_elem_of_lookup_2|done]. }
  split_and!; [done| | | |].
  - unfold sorted_by. rewrite Eidx. by apply runs_sorted.
  - apply Forall_forall. intros r Hr. destruct (Hall r Hr) as (g & Hg & _).
    destruct (runs_elem _ _ _ _ Hns Hg) as [Hne Eg]. destruct g as [|kv g]; [done|].
    assert (Hkv : kv ∈ filter (fun kv => nib (fst kv) (length p) = cr_index r) ups) by (rewrite <- Eg; left).
    apply list_elem_of_filter in Hkv as [<- _]. by apply nib_ok.
  - intros r Hr. destruct (Hall r Hr) as (g & Hg & Hq). destruct (runs_elem _ _ _ _ Hns Hg) as [Hne Eg].
    unfold run_of. rewrite <- Eg. done.
  - intros i Hne. rewrite Eidx. destruct (run_of (length p) i ups) as [|kv l] eqn:E; [done|].
    assert (Hkv : kv ∈ run_of (length p) i ups) by (rewrite E; left).
    apply list_elem_of_filter in Hkv as [Hi Hkv]. destruct (runs_cover (length p) ups kv Hkv) as [g Hg].
    rewrite Hi in Hg. by apply (list_elem_of_fmap_2 fst _ (i, g)).
Qed.

(** ** [batch_update_subtree] *)
Lemma new_ok_nil version p : @new_ok HV K version p [].
Proof. split; [constructor|]. intros k n Hk. by apply not_elem_of_nil in Hk. Qed.

Lemma updated_leaf version s0 p x : updated version s0 p [x] (Some (Node_Leaf x)) [] [].
Proof. split_and!; [apply new_ok_nil|constructor|]. intros s _ _. constructor. Qed.

Lemma updated_none version s0 p : updated version s0 p [] None [] [].
Proof. split_and!; [apply new_ok_nil|constructor|done]. Qed.

Lemma ins_placed version p ups : ups_ok p ups -> placed p (ins version ups).
Proof.
  intros [Hs Hp]. pose proof (apply_placed version p [] ups) as Ha. unfold apply_updates in Ha. cbn in Ha.
  apply Ha; [split; constructor|by apply ups_NoDup|done].
Qed.

Lemma ins_length version ups : (length (ins version ups) <= length ups)%nat.
Proof.
  induction ups as [|[k [v|]] ups IH]; [done|..]; [rewrite ins_write|rewrite ins_delete]; cbn [length]; lia.
Qed.

Lemma run_length d i ups : (length (run_of d i ups) <= length ups)%nat.
Proof. apply length_filter. Qed.

Lemma nibbles_snoc p i : Forall nibble_ok p -> nibble_ok i -> Forall nibble_ok (p ++ [i]).
Proof. intros Hp Hi. apply Forall_app. split; [done|]. by rewrite Forall_singleton. Qed.

(** A function that updates the subtree at [p] to the leaves [L], and marks only
    [good] nodes as stale. *)
Definition updates_to version s0 p L (f : TreeUpdateBatch HV K -> outcome (option (Node HV K) * TreeUpdateBatch HV K))
  (good : StaleNodeIndex -> Prop) : Prop :=
  forall b, usable b -> exists o b' new st,
    f b = Ok (o, b') /\ adds b b' new st /\ updated version s0 p L o new st /\ Forall good st.

Definition no_stale (e : StaleNodeIndex) : Prop := False.

(** The results of visiting all runs of [ups]. *)
Definition visits version s0 p L ups good (rs : list cres) : Prop :=
  sorted_by cr_index rs /\ Forall (fun r => nibble_ok (cr_index r)) rs /\
  (forall r, r ∈ rs -> updated version s0 (p ++ [cr_index r]) (group (length p) (cr_index r) L) (cr_node r) (cr_new r) (cr_stale r)) /\
  Forall good (concat (map cr_stale rs)) /\
  (forall i, i ∈ map cr_index rs <-> run_of (length p) i ups <> []).

Section Visit.
Variables (version : Z) (s0 : @store HV K) (p : list Z) (L : list (LeafNode HV K))
  (ups : list (HV * option (HV * K))) (good : StaleNodeIndex -> Prop)
  (f : Z -> list (HV * option (HV * K)) -> TreeUpdateBatch HV K ->
       outcome (option (Node HV K) * TreeUpdateBatch HV K)).
Hypothesis Hl : (length p < 64)%nat.
Hypothesis Hups : ups_ok p ups.
Hypothesis Hf : forall i, nibble_ok i -> run_of (length p) i ups <> [] ->
  updates_to version s0 (p ++ [i]) (group (length p) i L) (f i (run_of (length p) i ups)) good.

Let Q (i : Z) (g : list (HV * option (HV * K))) o new st : Prop :=
  updated version s0 (p ++ [i]) (group (length p) i L) o new st /\ Forall good st.

Lemma visit_run_spec : Forall (run_spec f Q) (runs (length p) ups).
Proof.
  pose proof (keys_nib_sorted p ups (proj1 Hups) (proj2 Hups)) as Hns.
  apply Forall_forall. intros [i g] Hg b0 Hb0. cbn [fst snd].
  destruct (runs_elem _ _ _ _ Hns Hg) as [Hne Eg]. fold (run_of (length p) i ups) in Eg. subst g.
  assert (Hi : nibble_ok i).
  { destruct (run_of (length p) i ups) as [|kv l] eqn:E; [done|].
    assert (Hkv : kv ∈ run_of (length p) i ups) by (rewrite E; left).
    apply list_elem_of_filter in Hkv as [<- _]. by apply nib_ok. }
  destruct (Hf i Hi Hne b0 Hb0) as (o & b' & new & st & E & Ha & Hup & Hst).
  exists o, b', new, st. done.
Qed.

Lemma visit_results rs : Forall2 (result_of Q) (runs (length p) ups) rs -> visits version s0 p L ups good rs.
Proof.
  intros HQ. destruct (results_facts p ups Q rs Hl Hups HQ) as (Eidx & Hsort & Hnib & Hres & Hcov).
  split_and!; [done|done| | |].
  - intros r Hr. by destruct (Hres r Hr) as [_ [? _]].
  - clear -Hres. induction rs as [|r rs IH]; [constructor|]. cbn [map concat]. apply Forall_app. split.
    + by destruct (Hres r ltac:(left)) as [_ [_ ?]].
    + apply IH. intros r' Hr'. apply Hres. by right.
  - intros i. split; [|by apply Hcov]. intros Hi. apply list_elem_of_fmap in Hi as (r & -> & Hr). by apply Hres.
Qed.

Lemma visit_seq b : usable b -> exists ranges rs b1,
  nibble_ranges ups (Z.of_nat (length p)) = Ok ranges /\
  update_ranges f ups (Z.of_nat (length p)) ranges b = Ok (visited rs, b1) /\
  adds b b1 (concat (map cr_new rs)) (concat (map cr_stale rs)) /\ visits version s0 p L ups good rs.
Proof.
  intros Hb. pose proof (keys_nib_sorted p ups (proj1 Hups) (proj2 Hups)) as Hns.
  destruct (nibble_ranges_spec (length p) ups Hl Hns) as (ranges & E & Hranges).
  destruct (update_ranges_spec f ups (length p) Q ranges _ Hl Hranges visit_run_spec b Hb) as (rs & b1 & E' & Ha & HQ).
  exists ranges, rs, b1. split_and!; try done. by apply visit_results.
Qed.

Lemma visit_par b : usable b -> exists ranges rs l,
  nibble_ranges ups (Z.of_nat (length p)) = Ok ranges /\
  update_ranges_par f ups (Z.of_nat (length p)) ranges = Ok l /\ map fst l = visited rs /\
  adds b (foldl TreeUpdateBatch_combine b (map snd l)) (concat (map cr_new rs)) (concat (map cr_stale rs)) /\
  visits version s0 p L ups good rs.
Proof.
  intros Hb. pose proof (keys_nib_sorted p ups (proj1 Hups) (proj2 Hups)) as Hns.
  destruct (nibble_ranges_spec (length p) ups Hl Hns) as (ranges & E & Hranges).
  destruct (update_ranges_par_spec f ups (length p) Q ranges _ Hl Hranges visit_run_spec) as (rs & l & E' & Ev & Ha & HQ).
  exists ranges, rs, l. split_and!; try done; [by apply Ha|by apply visit_results].
Qed.
End Visit.

Lemma visits_fresh version s0 p L ups good rs : Forall nibble_ok p -> (length p < 64)%nat -> fresh version s0 ->
  visits version s0 p L ups good rs -> fresh_results version s0 p L rs.
Proof. by intros Hp Hl Hf (Hs & Hn & Hu & _). Qed.

(** Visiting the runs and assembling the children, when no old child stays. *)
Lemma subtree_step version cache s0 v p L ups f : (1 <= length p)%nat -> (length p < 64)%nat ->
  Forall nibble_ok p -> fresh version s0 -> ups_ok p ups -> Z.of_nat (length L) < U64 ->
  ((2 <= length L)%nat -> forall i, nibble_ok i -> group (length p) i L <> [] -> cached cache p L i) ->
  (forall i, nibble_ok i -> group (length p) i L <> [] -> run_of (length p) i ups <> []) ->
  (forall i, nibble_ok i -> run_of (length p) i ups <> [] ->
     updates_to version s0 (p ++ [i]) (group (length p) i L) (f i (run_of (length p) i ups)) no_stale) ->
  updates_to version s0 p L (fun b =>
    ranges ← nibble_ranges ups (Z.of_nat (length p));
    r ← update_ranges f ups (Z.of_nat (length p)) ranges b;
    let '(children, batch) := r in
    node_of_children (mkNodeKey v (pack p)) version (Z.of_nat (length p)) cache (pushed children) batch)
    no_stale.
Proof.
  intros H1l Hl Hp Hfr Hups Hb Hc Hcov Hf b Hu.
  destruct (visit_seq version s0 p L ups no_stale f Hl Hups Hf b Hu) as (ranges & rs & b1 & -> & E & Ha1 & Hv).
  rewrite obind_Ok, E, obind_Ok, pushed_visited. pose proof Hv as (_ & _ & _ & Hst & Hidx).
  assert (A : assembly version s0 p L rs [] (new_children version p L (ents rs))).
  { apply fresh_assembly; [by eapply visits_fresh|]. intros i Hi Hg. by apply Hidx, Hcov. }
  destruct (node_of_children_spec version cache s0 v p L rs b1) as (o & b' & new & -> & Ha & Hup);
    [done|done|done|by destruct Ha1|done|].
  exists o, b', (concat (map cr_new rs) ++ new), (concat (map cr_stale rs) ++ []).
  split_and!; [done|by eapply adds_trans|by rewrite app_nil_r|by rewrite app_nil_r].
Qed.

Lemma bus_spec version cache s0 : fresh version s0 -> forall fuel p v ups,
  (1 <= length p <= 64)%nat -> (64 <= length p + fuel)%nat -> Forall nibble_ok p -> ups_ok p ups -> ups <> [] ->
  Z.of_nat (length ups) < U64 -> cache_ok version cache p [] ups ->
  updates_to version s0 p (ins version ups)
    (batch_update_subtree fuel (mkNodeKey v (pack p)) version ups (Z.of_nat (length p)) cache) no_stale.
Proof.
  intros Hfr. induction fuel as [|fuel IH]; intros p v ups Hl Hfu Hp Hups Hne Hb Hc b Hu.
  - (* at the bottom there is one key *)
    destruct ups as [|[k [w|]] [|u2 ups]]; [done|..]; try (apply ups_two_len in Hups; lia); cbn [batch_update_subtree].
    + rewrite (proj2 (Z.leb_le _ _)) by (unfold MIN_LEAF_DEPTH; lia). destruct w as [vh sk].
      eexists _, b, [], []. split_and!; [done|by apply adds_refl|apply updated_leaf|done].
    + eexists _, b, [], []. split_and!; [done|by apply adds_refl|apply updated_none|done].
  - assert (Hsplit : forall u1 u2 l, ups = u1 :: u2 :: l ->
      updates_to version s0 p (ins version ups) (fun b =>
        ranges ← nibble_ranges ups (Z.of_nat (length p));
        r ← update_ranges (fun child_index sub batch =>
                 child_node_key ← gen_child_node_key (mkNodeKey v (pack p)) version child_index;
                 batch_update_subtree fuel child_node_key version sub (Z.of_nat (length p) + 1) cache batch)
              ups (Z.of_nat (length p)) ranges b;
        let '(children, batch) := r in
        node_of_children (mkNodeKey v (pack p)) version (Z.of_nat (length p)) cache (pushed children) batch)
        no_stale).
    { intros u1 u2 l E. assert (Hlt : (length p < 64)%nat) by (rewrite E in Hups; by apply ups_two_len in Hups).
      pose proof (ins_length version ups).
      apply subtree_step; try done; [lia|lia| | |].
      - intros H2l i Hi Hg. apply (cache_cached version cache p [] ups i Hlt Hi (ins_placed _ _ _ Hups) Hc H2l); [right; cbn; lia|done].
      - intros i _. rewrite group_ins. intros Hg E0. by rewrite E0 in Hg.
      - intros i Hi Hrne b0 Hb0. rewrite gen_child_node_key_pack, obind_Ok by done. rewrite group_ins.
        pose proof (run_length (length p) i ups).
        replace (Z.of_nat (length p) + 1) with (Z.of_nat (length (p ++ [i]))) by (rewrite length_app; cbn; lia).
        apply IH; [rewrite length_app; cbn; lia|rewrite length_app; cbn; lia|by apply nibbles_snoc|by apply ups_run_ok
          |done|lia| |done]. by apply (cache_ok_child version cache p i []). }
    destruct ups as [|[k w] [|u2 ups]]; [done| |].
    + destruct w as [[vh sk]|]; cbn [batch_update_subtree].
      * rewrite (proj2 (Z.leb_le _ _)) by (unfold MIN_LEAF_DEPTH; lia).
        eexists _, b, [], []. split_and!; [done|by apply adds_refl|apply updated_leaf|done].
      * eexists _, b, [], []. split_and!; [done|by apply adds_refl|apply updated_none|done].
    + destruct (Hsplit (k, w) u2 ups eq_refl b Hu) as (o & b' & new & st & E & Hrest).
      exists o, b', new, st. split; [|done]. rewrite <- E. cbn [batch_update_subtree]. by destruct w as [[vh sk]|].
Qed.

(** ** [batch_update_subtree_with_existing_leaf] *)
Lemma insert_by_key_end {A} (y : Z * A) l : Forall (fun z => fst z < fst y) l -> insert_by_key y l = l ++ [y].
Proof.
  induction 1 as [|z l Hz _ IH]; [done|]. cbn. by rewrite (proj2 (Z.ltb_ge _ _)), IH by lia.
Qed.

Lemma sort_by_key_snoc {A} (l : list (Z * A)) y : sort_by_key (l ++ [y]) = insert_by_key y (sort_by_key l).
Proof. unfold sort_by_key. by rewrite fold_left_app. Qed.

Lemma sort_by_key_sorted {A} (l : list (Z * A)) : sorted_by fst l -> sort_by_key l = l.
Proof.
  induction l as [|y l IH] using rev_ind; intros Hs; [done|]. rewrite sort_by_key_snoc.
  unfold sorted_by in Hs. rewrite map_app in Hs. apply StronglySorted_app in Hs as (Hlt & Hs & _).
  rewrite IH by done. apply insert_by_key_end, Forall_forall. intros z Hz.
  apply Hlt; [by apply list_elem_of_fmap_2|by left].
Qed.

(** A result in its place among the others. *)
Fixpoint insert_res (r : cres) (rs : list (@cres HV K)) : list cres :=
  match rs with
  | [] => [r]
  | r' :: rs => if cr_index r <? cr_index r' then r :: r' :: rs else r' :: insert_res r rs
  end.

Lemma insert_res_perm r rs : insert_res r rs ≡ₚ r :: rs.
Proof.
  induction rs as [|r' rs IH]; [done|]. cbn. destruct (_ <? _); [done|]. rewrite IH. apply Permutation_swap.
Qed.

Lemma insert_res_sorted r rs : sorted_by cr_index rs -> cr_index r ∉ map cr_index rs ->
  sorted_by cr_index (insert_res r rs).
Proof.
  induction rs as [|r' rs IH]; intros Hs Hn; [by repeat constructor|].
  pose proof Hs as Hs'. apply sorted_by_cons in Hs' as [Hs' Hf]. cbn [map] in Hn.
  apply not_elem_of_cons in Hn as [Hne Hn]. cbn [insert_res].
  destruct (_ <? _) eqn:E; [apply Z.ltb_lt in E|apply Z.ltb_ge in E]; apply sorted_by_cons.
  - split; [done|]. constructor; [done|]. eapply Forall_impl; [exact Hf|]. cbn. lia.
  - split; [by apply IH|]. rewrite Forall_forall in *. intros y Hy. rewrite insert_res_perm in Hy.
    apply elem_of_cons in Hy as [->|Hy]; [lia|by apply Hf].
Qed.

Lemma insert_res_ents r rs n : sorted_by cr_index rs -> cr_node r = Some n ->
  ents (insert_res r rs) = insert_by_key (cr_index r, n) (ents rs).
Proof.
  intros Hs Hn. induction rs as [|r' rs IH].
  - cbn [insert_res]. rewrite ents_cons, Hn. done.
  - pose proof (ents_sorted (r' :: rs) Hs) as Hes. pose proof Hs as Hs'.
    apply sorted_by_cons in Hs' as [Hs' Hf]. cbn [insert_res].
    destruct (_ <? _) eqn:E; [apply Z.ltb_lt in E|apply Z.ltb_ge in E].
    + rewrite (ents_cons r), Hn. destruct (ents (r' :: rs)) as [|[j m] l] eqn:Ee; [done|]. cbn [insert_by_key fst].
      assert (Hj : (j, m) ∈ ents (r' :: rs)) by (rewrite Ee; left). apply ents_elem in Hj as (r'' & Hr'' & <- & _).
      rewrite (proj2 (Z.ltb_lt _ _)); [done|]. apply elem_of_cons in Hr'' as [->|Hr'']; [done|].
      rewrite Forall_forall in Hf. apply Hf in Hr''. lia.
    + rewrite !ents_cons, IH by done. destruct (cr_node r'); [|done]. cbn [insert_by_key fst].
      by rewrite (proj2 (Z.ltb_ge _ _)) by lia.
Qed.

Lemma insert_res_concat {A} (g : cres -> list A) r rs : g r = [] ->
  concat (map g (insert_res r rs)) = concat (map g rs).
Proof.
  intros Hr. induction rs as [|r' rs IH]; cbn [insert_res map concat]; [by rewrite Hr|].
  destruct (_ <? _); cbn [map concat]; [by rewrite Hr|by rewrite IH].
Qed.

Lemma apply_one_group version d i x ups :
  group d i (apply_updates version [x] ups) =
  if decide (nib (account_key x) d = i) then apply_updates version [x] (run_of d i ups)
  else ins version (run_of d i ups).
Proof. rewrite group_apply. unfold group. rewrite filter_cons. by case_decide. Qed.

(** The results with the existing leaf in its place among the children. *)
Lemma existing_results version s0 p x ups rs : Forall nibble_ok p -> (length p < 64)%nat -> fresh version s0 ->
  let L := apply_updates version [x] ups in
  let bucket := nib (account_key x) (length p) in
  visits version s0 p L ups no_stale rs ->
  exists rs',
    (if negb (existsb (fun y => bucket =? fst y) (visited rs))
     then sort_by_key (ents rs ++ [(bucket, Node_Leaf x)]) else ents rs) = ents rs' /\
    concat (map cr_new rs') = concat (map cr_new rs) /\ concat (map cr_stale rs') = concat (map cr_stale rs) /\
    assembly version s0 p L rs' [] (new_children version p L (ents rs')).
Proof.
  intros Hp Hl Hfr L bucket Hv. pose proof Hv as (Hsort & Hnib & Hres & _ & Hidx).
  assert (Hcov : forall i, nibble_ok i -> group (length p) i L <> [] -> i = bucket \/ i ∈ map cr_index rs).
  { intros i Hi Hg. unfold L in Hg. rewrite apply_one_group in Hg. case_decide as E; [by left|right].
    apply Hidx. intros E0. by rewrite E0 in Hg. }
  assert (Hex : existsb (fun y => bucket =? fst y) (visited rs) = true <-> bucket ∈ map cr_index rs).
  { rewrite existsb_exists. split.
    - intros ([j o] & Hj & E). apply Z.eqb_eq in E. cbn [fst] in E. subst j.
      apply list_elem_of_In, list_elem_of_fmap in Hj as (r & [= -> _] & Hr). by apply list_elem_of_fmap_2.
    - intros Hin. apply list_elem_of_fmap in Hin as (r & E & Hr). exists (cr_index r, cr_node r).
      split; [|cbn; lia]. apply list_elem_of_In. by apply (list_elem_of_fmap_2 (fun r => (cr_index r, cr_node r))). }
  destruct (existsb (fun y => bucket =? fst y) (visited rs)) eqn:Eb; cbn [negb].
  - exists rs. split; [done|]. do 2 (split; [done|]). apply fresh_assembly; [by eapply visits_fresh|].
    intros i Hi Hg. destruct (Hcov i Hi Hg) as [->|]; [by apply Hex|done].
  - assert (Hnot : bucket ∉ map cr_index rs) by (intros Hin; by apply Hex in Hin).
    set (rx := mkCres bucket (Some (Node_Leaf x)) [] []).
    exists (insert_res rx rs). split; [|do 2 (split; [by apply insert_res_concat|])].
    + rewrite sort_by_key_snoc, sort_by_key_sorted by (by apply ents_sorted).
      by rewrite (insert_res_ents rx rs (Node_Leaf x)).
    + apply fresh_assembly.
      * split_and!; try done; [by apply insert_res_sorted| |].
        -- rewrite insert_res_perm. constructor; [by apply nib_ok|done].
        -- intros r Hr. rewrite insert_res_perm in Hr. apply elem_of_cons in Hr as [->|Hr]; [|by apply Hres].
           cbn [rx cr_index cr_node cr_new]. unfold L. rewrite apply_one_group, decide_True by done.
           assert (E0 : run_of (length p) bucket ups = []).
           { destruct (run_of (length p) bucket ups) eqn:E0; [done|]. destruct Hnot. apply Hidx. by rewrite E0. }
           rewrite E0, apply_nil. apply updated_leaf.
      * intros i Hi Hg. rewrite insert_res_perm. cbn [map rx cr_index]. apply elem_of_cons.
        destruct (Hcov i Hi Hg); auto.
Qed.

Lemma apply_length version lvs ups : (length (apply_updates version lvs ups) <= length lvs + length ups)%nat.
Proof.
  unfold apply_updates. rewrite length_app. pose proof (ins_length version ups).
  pose proof (length_filter (fun y => account_key y ∉ map fst ups) lvs). lia.
Qed.

(** Visiting the runs next to an existing leaf. *)
Lemma existing_step version cache s0 v p x ups f : (1 <= length p)%nat -> (length p < 64)%nat ->
  Forall nibble_ok p -> fresh version s0 -> ups_ok p ups -> starts p (account_key x) ->
  Z.of_nat (S (length ups)) < U64 ->
  let L := apply_updates version [x] ups in
  let bucket := nib (account_key x) (length p) in
  cache_ok version cache p [x] ups ->
  (forall i, nibble_ok i -> run_of (length p) i ups <> [] ->
     updates_to version s0 (p ++ [i]) (group (length p) i L) (f i (run_of (length p) i ups)) no_stale) ->
  updates_to version s0 p L (fun b =>
    ranges ← nibble_ranges ups (Z.of_nat (length p));
    r ← update_ranges f ups (Z.of_nat (length p)) ranges b;
    let '(vis, batch) := r in
    let isolated_existing_leaf := negb (existsb (fun y => bucket =? fst y) vis) in
    let children := if isolated_existing_leaf then sort_by_key (pushed vis ++ [(bucket, Node_Leaf x)])
                    else pushed vis in
    node_of_children (mkNodeKey v (pack p)) version (Z.of_nat (length p)) cache children batch)
    no_stale.
Proof.
  intros H1l Hl Hp Hfr Hups Hx Hb L bucket Hc Hf b Hu.
  destruct (visit_seq version s0 p L ups no_stale f Hl Hups Hf b Hu) as (ranges & rs & b1 & -> & E & Ha1 & Hv).
  rewrite obind_Ok, E, obind_Ok, pushed_visited. cbv zeta.
  destruct (existing_results version s0 p x ups rs Hp Hl Hfr Hv) as (rs' & Ech & Enew & Estale & A).
  fold bucket in Ech. rewrite Ech.
  assert (Hpl : placed p L).
  { apply apply_placed; [|by apply ups_NoDup, Hups|apply Hups].
    split; [repeat constructor; apply not_elem_of_nil|by repeat constructor]. }
  destruct (node_of_children_spec version cache s0 v p L rs' b1) as (o & b' & new & -> & Ha & Hup);
    [done| | |by destruct Ha1|done|].
  2:{ intros H2l i Hi Hg. apply (cache_cached version cache p [x] ups i); try done. right. done. }
  - pose proof (apply_length version [x] ups). cbn [length] in *. unfold L. lia.
  - exists o, b', (concat (map cr_new rs) ++ new), (concat (map cr_stale rs) ++ []). rewrite Enew, Estale in Hup.
    pose proof Hv as (_ & _ & _ & Hst & _).
    split_and!; [done|by eapply adds_trans|by rewrite app_nil_r|by rewrite app_nil_r].
Qed.

Lemma apply_same version x v : apply_updates version [x] [(account_key x, v)] = ins version [(account_key x, v)].
Proof.
  unfold apply_updates. rewrite filter_cons, decide_False; [done|]. cbn [map fst]. intros Hn. apply Hn. left.
Qed.

Lemma existing_spec version cache s0 : fresh version s0 -> forall fuel p v x ups,
  (1 <= length p <= 64)%nat -> (64 <= length p + fuel)%nat -> Forall nibble_ok p -> ups_ok p ups -> ups <> [] ->
  starts p (account_key x) -> Z.of_nat (S (length ups)) < U64 ->
  cache_ok version cache p [x] ups ->
  updates_to version s0 p (apply_updates version [x] ups)
    (batch_update_subtree_with_existing_leaf fuel (mkNodeKey v (pack p)) version x ups (Z.of_nat (length p)) cache)
    no_stale.
Proof.
  intros Hfr. induction fuel as [|fuel IH]; intros p v x ups Hl Hfu Hp Hups Hne Hx Hb Hc.
  - (* at the bottom the only key is that of the leaf *)
    destruct ups as [|[k w] [|u2 ups]]; [done| |apply ups_two_len in Hups; lia].
    pose proof Hups as [_ Hk]. rewrite Forall_singleton in Hk. cbn [fst] in Hk.
    assert (k = account_key x) as -> by (apply (starts_64 p); [lia|done|done]).
    intros b Hu. cbn [batch_update_subtree_with_existing_leaf]. rewrite bool_decide_true by done.
    rewrite apply_same. destruct w as [[vh sk]|].
    + eexists _, b, [], []. split_and!; [done|by apply adds_refl|apply updated_leaf|constructor].
    + eexists _, b, [], []. split_and!; [done|by apply adds_refl|apply updated_none|constructor].
  - assert (Hsplit : (length p < 64)%nat ->
      updates_to version s0 p (apply_updates version [x] ups) (fun b =>
        ranges ← nibble_ranges ups (Z.of_nat (length p));
        r ← update_ranges (fun child_index sub batch =>
                 child_node_key ← gen_child_node_key (mkNodeKey v (pack p)) version child_index;
                 if nib (account_key x) (length p) =? child_index
                 then batch_update_subtree_with_existing_leaf fuel child_node_key version x sub
                        (Z.of_nat (length p) + 1) cache batch
                 else batch_update_subtree fuel child_node_key version sub (Z.of_nat (length p) + 1) cache batch)
              ups (Z.of_nat (length p)) ranges b;
        let '(vis, batch) := r in
        let isolated_existing_leaf := negb (existsb (fun y => nib (account_key x) (length p) =? fst y) vis) in
        let children := if isolated_existing_leaf
          then sort_by_key (pushed vis ++ [(nib (account_key x) (length p), Node_Leaf x)]) else pushed vis in
        node_of_children (mkNodeKey v (pack p)) version (Z.of_nat (length p)) cache children batch) no_stale).
    { intros Hlt. apply existing_step; try done; [lia|]. intros i Hi Hrne b0 Hb0.
      rewrite gen_child_node_key_pack, obind_Ok by done. pose proof (run_length (length p) i ups).
      replace (Z.of_nat (length p) + 1) with (Z.of_nat (length (p ++ [i]))) by (rewrite length_app; cbn; lia).
      pose proof (cache_ok_child version cache p i [x] ups Hlt Hi Hc) as Hci. unfold group in Hci. rewrite filter_cons in Hci.
      rewrite apply_one_group in *.
      destruct (decide (nib (account_key x) (length p) = i)) as [E|E].
      - rewrite (proj2 (Z.eqb_eq _ _) E).
        apply IH; [rewrite length_app; cbn; lia|rewrite length_app; cbn; lia|by apply nibbles_snoc|by apply ups_run_ok
          |done|by apply starts_snoc|lia|done|done].
      - rewrite (proj2 (Z.eqb_neq _ _) E).
        apply bus_spec; [done|rewrite length_app; cbn; lia|rewrite length_app; cbn; lia|by apply nibbles_snoc
          |by apply ups_run_ok|done|lia|done|done]. }
    intros b Hu. destruct ups as [|[k w] ups]; [done|].
    destruct (decide (ups = [] /\ k = account_key x)) as [[-> ->]|Hother].
    + cbn [batch_update_subtree_with_existing_leaf]. rewrite bool_decide_true by done. rewrite apply_same.
      destruct w as [[vh sk]|].
      * eexists _, b, [], []. split_and!; [done|by apply adds_refl|apply updated_leaf|constructor].
      * eexists _, b, [], []. split_and!; [done|by apply adds_refl|apply updated_none|constructor].
    + assert (Hlt : (length p < 64)%nat).
      { destruct ups as [|u2 ups]; [|by apply ups_two_len in Hups].
        destruct (decide (length p < 64)%nat) as [|Hge]; [done|]. exfalso. apply Hother. split; [done|].
        pose proof Hups as [_ Hk]. rewrite Forall_singleton in Hk. apply (starts_64 p); [lia|done|done]. }
      destruct (Hsplit Hlt b Hu) as (o & b' & new & st & E & Hrest).
      exists o, b', new, st. split; [|done]. rewrite <- E.
      cbn [batch_update_subtree_with_existing_leaf].
      rewrite hv_get_nibble_nib, obind_Ok by done.
      destruct ups as [|u2 ups]; [|done]. rewrite bool_decide_false; [done|]. tauto.
Qed.
End Updates.
