(* ===== verification/JellyfishInsert.v ===== *)
(** * Updating a stored subtree

    [batch_insert_at] on a stored subtree gives a subtree for the updated leaves;
    what it marks as stale was stored before. *)
From stdpp Require Import base list numbers strings option gmap sorting.
From Stdlib Require Import ZArith Lia Bool Sorted.
From S2P Require Import Prelude Hash SparseMerkleProof SparseSpec SparseFacts NibblePath NibblePathFacts ByteCodec JellyfishNode JellyfishNodeFacts JellyfishHash JellyfishSpec JellyfishTree JellyfishRead JellyfishRuns JellyfishBatch JellyfishUpdate.

Section Insert.
Context {HV : Type} `{HashValueOps HV} `{HashValueBits HV} `{!HashValueLaws HV} `{CryptoHasher HV}
  `{LeafHasher HV} `{HashValueKeys HV} `{!HashValueKeysLaws HV} `{Itertools} `{!ItertoolsLaws} {K : Type}.
Implicit Types (cs : list (Z * Child HV)) (c : Child HV) (lvs L : list (LeafNode HV K))
  (x : LeafNode HV K) (key : HV) (p : list Z) (version : Z) (n : Node HV K)
  (b : TreeUpdateBatch HV K) (new : list (NodeKey * Node HV K)) (st : list StaleNodeIndex)
  (s : @store HV K) (ups : list (HV * option (HV * K))) (cache : option (gmap NibblePath HV))
  (rs : list (@cres HV K)).

(** ** Merging old children and results *)
Definition old_or_new : Type := EitherOrBoth (Z * Child HV) (Z * option (Node HV K)).

Definition entry_child version p L (e : old_or_new) : option (Z * Child HV) :=
  match e with
  | EB_Left y => Some y
  | EB_Right (i, Some n) | EB_Both _ (i, Some n) => Some (i, new_child version p L i n)
  | _ => None
  end.

Definition entry_new (e : old_or_new) : option (Z * Node HV K) :=
  match e with
  | EB_Right (i, Some n) | EB_Both _ (i, Some n) => Some (i, n)
  | _ => None
  end.

Definition merge cs rs : list old_or_new := merge_join_by (fun y z => fst y ?= fst z) cs (visited rs).

Definition merged version p L cs rs (M : list old_or_new) : Prop :=
  sorted_by fst (omap (entry_child version p L) M) /\
  (forall i c, (i, c) ∈ omap (entry_child version p L) M <->
     ((i, c) ∈ cs /\ i ∉ map cr_index rs) \/ (exists n, (i, n) ∈ ents rs /\ c = new_child version p L i n)) /\
  omap entry_new M = ents rs.

(** An index in the merged children comes from either side. *)
Lemma merged_bound version p L cs rs M (lo : Z) : merged version p L cs rs M ->
  Forall (fun y => lo < fst y) cs -> Forall (fun r => lo < cr_index r) rs ->
  Forall (fun y => lo < fst y) (omap (entry_child version p L) M).
Proof.
  intros (_ & Hel & _) Hc Hr. apply Forall_forall. intros [i c] Hi. apply Hel in Hi as [[Hi _]|(n & Hi & _)].
  - rewrite Forall_forall in Hc. by apply (Hc (i, c)).
  - apply ents_elem in Hi as (r & Hr' & <- & _). rewrite Forall_forall in Hr. by apply Hr.
Qed.

Lemma omap_cons_Some {A B} (g : A -> option B) a l y : g a = Some y -> omap g (a :: l) = y :: omap g l.
Proof. intros E. cbn. by rewrite E. Qed.

Lemma omap_cons_None {A B} (g : A -> option B) a l : g a = None -> omap g (a :: l) = omap g l.
Proof. intros E. cbn. by rewrite E. Qed.

Lemma merge_merged version p L : forall cs rs, sorted_by fst cs -> sorted_by cr_index rs ->
  merged version p L cs rs (merge cs rs).
Proof.
  unfold merge. induction cs as [|[i c] cs IHc].
  - intros rs _ Hr. rewrite merge_join_nil_l.
    assert (E : omap (entry_child version p L) (map EB_Right (visited rs)) = new_children version p L (ents rs)).
    { clear Hr. induction rs as [|r rs IH]; [done|]. rewrite ents_cons. cbn [visited map].
      destruct (cr_node r) as [n|].
      - rewrite (omap_cons_Some _ _ _ (cr_index r, new_child version p L (cr_index r) n)) by done.
        cbn [new_children map fst snd]. f_equal. apply IH.
      - rewrite omap_cons_None by done. apply IH. }
    unfold merged. rewrite E. split_and!.
    + unfold sorted_by. rewrite idx_new_children. by apply ents_sorted.
    + intros i c. unfold new_children. rewrite list_elem_of_fmap. split.
      * intros ([j n] & [= -> ->] & Hj). right. by exists n.
      * intros [[Hi _]|(n & Hi & ->)]; [by apply not_elem_of_nil in Hi|]. by exists (i, n).
    + clear Hr E. induction rs as [|r rs IH]; [done|]. rewrite ents_cons. cbn [visited map].
      destruct (cr_node r) as [n|].
      * rewrite (omap_cons_Some _ _ _ (cr_index r, n)) by done. f_equal. apply IH.
      * rewrite omap_cons_None by done. apply IH.
  - intros rs Hs. pose proof Hs as Hs'. apply sorted_by_cons in Hs' as [Hs' Hf]. cbn [fst] in Hf.
    induction rs as [|r rs IHr]; intros Hr.
    + cbn [visited map]. rewrite merge_join_nil_r.
      assert (E : omap (entry_child version p L) (map EB_Left ((i, c) :: cs)) = (i, c) :: cs).
      { generalize ((i, c) :: cs). intros l. induction l as [|y l IH]; [done|]. cbn [map].
        rewrite (omap_cons_Some _ _ _ y) by done. by rewrite IH. }
      unfold merged. rewrite E. split_and!; [done| |].
      * intros j e. split; [intros Hj; left; split; [done|apply not_elem_of_nil]|].
        intros [[? _]|(n & Hn & _)]; [done|by apply not_elem_of_nil in Hn].
      * generalize ((i, c) :: cs). intros l. induction l as [|y l IH]; [done|]. cbn [map].
        by rewrite omap_cons_None.
    + pose proof Hr as Hr'. apply sorted_by_cons in Hr' as [Hr' Hfr].
      change (visited (r :: rs)) with ((cr_index r, cr_node r) :: visited rs).
      rewrite merge_join_cons. cbn [fst]. destruct (i ?= cr_index r) eqn:Ec.
      * (* replaced or deleted *)
        apply Z.compare_eq in Ec. specialize (IHc rs Hs' Hr').
        pose proof (merged_bound _ _ _ _ _ _ i IHc Hf) as Hb. rewrite <- Ec in Hfr. specialize (Hb Hfr).
        destruct IHc as (Ha & Hel & Hnew). unfold merged. rewrite ents_cons. rewrite <- Ec.
        assert (Hni : i ∉ map cr_index rs).
        { intros Hin. apply list_elem_of_fmap in Hin as (r' & E & Hr''). rewrite Forall_forall in Hfr.
          apply Hfr in Hr''. lia. }
        assert (Hnc : forall e, (i, e) ∉ cs).
        { intros e He. rewrite Forall_forall in Hf. apply Hf in He. cbn in He. lia. }
        destruct (cr_node r) as [n|].
        -- rewrite (omap_cons_Some _ _ _ (i, new_child version p L i n)) by done.
           rewrite (omap_cons_Some entry_new _ _ (i, n)) by done. split_and!.
           ++ by apply sorted_by_cons.
           ++ intros j e. cbn [map]. rewrite <- Ec. rewrite !elem_of_cons, Hel. split.
              ** intros [[= -> ->]|[[Hj Hn]|(m & Hm & ->)]].
                 --- right. exists n. split; [rewrite ?elem_of_cons; by left|done].
                 --- left. split; [by right|]. rewrite ?elem_of_cons; intros [->|Hin]; [by apply (Hnc e)|done].
                 --- right. exists m. split; [rewrite ?elem_of_cons; by right|done].
              ** intros [[[[= -> ->]|Hj] Hn]|(m & Hm & ->)].
                 --- destruct Hn. rewrite ?elem_of_cons. by left.
                 --- right. left. split; [done|]. intros Hin. apply Hn. rewrite ?elem_of_cons. by right.
                 --- rewrite ?elem_of_cons in Hm; destruct Hm as [[= -> ->]|Hm]; [by left|]. right. right. by exists m.
           ++ by rewrite Hnew.
        -- rewrite omap_cons_None by done. rewrite (omap_cons_None entry_new) by done. split_and!; [done| |done].
           intros j e. cbn [map]. rewrite Hel, elem_of_cons, <- Ec. split.
           ++ intros [[Hj Hn]|Hm]; [left|by right]. split; [by right|]. rewrite ?elem_of_cons; intros [->|Hin]; [by apply (Hnc e)|done].
           ++ intros [[[[= -> ->]|Hj] Hn]|Hm]; [destruct Hn; left| |by right].
              left. split; [done|]. intros Hin. apply Hn. by right.
      * (* an old child before the next result *)
        change (i < cr_index r) in Ec. specialize (IHc (r :: rs) Hs' Hr).
        change ((cr_index r, cr_node r) :: visited rs) with (visited (r :: rs)).
        pose proof (merged_bound _ _ _ _ _ _ i IHc Hf) as Hb.
        assert (Hfi : Forall (fun r => i < cr_index r) (r :: rs)).
        { constructor; [done|]. eapply Forall_impl; [exact Hfr|]. cbn. lia. }
        specialize (Hb Hfi). destruct IHc as (Ha & Hel & Hnew). unfold merged.
        rewrite (omap_cons_Some _ _ _ (i, c)) by done. rewrite (omap_cons_None entry_new) by done.
        assert (Hni : i ∉ map cr_index (r :: rs)).
        { intros Hin. apply list_elem_of_fmap in Hin as (r' & E & Hr''). rewrite Forall_forall in Hfi.
          apply Hfi in Hr''. lia. }
        split_and!; [by apply sorted_by_cons| |done].
        intros j e. rewrite !elem_of_cons, Hel. split.
        -- intros [[= -> ->]|[[Hj Hn]|Hm]]; [left; split; [by left|done]|left; split; [by right|done]|by right].
        -- intros [[[[= -> ->]|Hj] Hn]|Hm]; [by left|right; by left|right; by right].
      * (* a result before the next old child *)
        apply Z.compare_gt_iff in Ec. specialize (IHr Hr').
        pose proof (merged_bound _ _ _ _ _ _ (cr_index r) IHr) as Hb.
        assert (Hfc : Forall (fun y => cr_index r < fst y) ((i, c) :: cs)).
        { constructor; [done|]. eapply Forall_impl; [exact Hf|]. cbn. lia. }
        specialize (Hb Hfc Hfr). destruct IHr as (Ha & Hel & Hnew). unfold merged. rewrite ents_cons.
        assert (Hnc : forall e, (cr_index r, e) ∉ (i, c) :: cs).
        { intros e He. rewrite Forall_forall in Hfc. apply Hfc in He. cbn in He. lia. }
        destruct (cr_node r) as [n|].
        -- rewrite (omap_cons_Some _ _ _ (cr_index r, new_child version p L (cr_index r) n)) by done.
           rewrite (omap_cons_Some entry_new _ _ (cr_index r, n)) by done. split_and!.
           ++ by apply sorted_by_cons.
           ++ intros j e. cbn [map]. rewrite (elem_of_cons _ (j, e) (_, new_child _ _ _ _ _)) || rewrite elem_of_cons.
              rewrite Hel. split.
              ** intros [[= -> ->]|[[Hj Hn]|(m & Hm & ->)]].
                 --- right. exists n. split; [rewrite ?elem_of_cons; by left|done].
                 --- left. split; [done|]. rewrite ?elem_of_cons; intros [->|Hin]; [by apply (Hnc e)|done].
                 --- right. exists m. split; [rewrite ?elem_of_cons; by right|done].
              ** intros [[Hj Hn]|(m & Hm & ->)].
                 --- right. left. split; [done|]. intros Hin. apply Hn. rewrite ?elem_of_cons. by right.
                 --- rewrite ?elem_of_cons in Hm; destruct Hm as [[= -> ->]|Hm]; [by left|]. right. right. by exists m.
           ++ by rewrite Hnew.
        -- rewrite omap_cons_None by done. rewrite (omap_cons_None entry_new) by done. split_and!; [done| |done].
           intros j e. cbn [map]. rewrite Hel. split.
           ++ intros [[Hj Hn]|Hm]; [left|by right]. split; [done|]. rewrite ?elem_of_cons; intros [->|Hin]; [by apply (Hnc e)|done].
           ++ intros [[Hj Hn]|Hm]; [left|by right]. split; [done|]. intros Hin. apply Hn. by right.
Qed.


(** ** Rebuilding the children *)

(** Deleted entries give no child. *)
Lemma kept_children version p L (M : list old_or_new) :
  omap (entry_child version p L) (List.filter not_deleted M) = omap (entry_child version p L) M /\
  omap entry_new (List.filter not_deleted M) = omap entry_new M.
Proof.
  induction M as [|e M [IH1 IH2]]; [done|]. cbn [List.filter].
  destruct e as [y|[i [n|]]|y [i [n|]]]; cbn [not_deleted]; split; cbn; rewrite ?IH1, ?IH2; done.
Qed.

Lemma kept_ok (M : list old_or_new) : Forall (fun e => not_deleted e = true) (List.filter not_deleted M).
Proof. apply Forall_forall. intros e He. apply list_elem_of_In, filter_In in He. tauto. Qed.

Lemma rebuild_children_spec version cache v p L : Forall nibble_ok p -> (length p < 64)%nat ->
  forall (M : list old_or_new) b, usable b -> Forall (fun e : old_or_new => not_deleted e = true) M ->
  (forall i n, (i, n) ∈ omap entry_new M -> nibble_ok i /\
     node_get_hash (child_node_key version p i) n cache =
     Ok (hash_at (S (length p)) (group (length p) i L))) ->
  exists b', rebuild_children (mkNodeKey v (pack p)) version cache M b =
      Ok (omap (entry_child version p L) M, b') /\
    adds b b' (child_nodes version p (omap entry_new M)) [].
Proof.
  intros Hp Hl. induction M as [|e M IH]; intros b Hb Hok Hh.
  - exists b. split; [done|]. by apply adds_refl.
  - apply Forall_cons in Hok as [He Hok].
    assert (Hnew : forall i n, entry_new e = Some (i, n) ->
      entry_child version p L e = Some (i, new_child version p L i n) ->
      exists b', (child_key ← gen_child_node_key (mkNodeKey v (pack p)) version i;
                  batch ← put_node b child_key n;
                  child ← Child_for_node (mkNodeKey v (pack p)) i n cache version;
                  r ← rebuild_children (mkNodeKey v (pack p)) version cache M batch;
                  let '(rest, batch) := r in Ok ((i, child) :: rest, batch)) =
          Ok (omap (entry_child version p L) (e :: M), b') /\
        adds b b' (child_nodes version p (omap entry_new (e :: M))) []).
    { intros i n En Ec. rewrite (omap_cons_Some _ _ M _ En) in Hh |- *. rewrite (omap_cons_Some _ _ _ _ Ec).
      destruct (Hh i n ltac:(left)) as [Hi Eh]. unfold Child_for_node.
      rewrite !gen_child_node_key_pack, !obind_Ok by done.
      unfold child_node_key in Eh. rewrite Eh, obind_Ok.
      destruct (put_node_adds b (child_node_key version p i) n Hb) as (b1 & Hput & Ha1).
      unfold child_node_key in Hput. rewrite Hput, !obind_Ok.
      destruct (IH b1) as (b' & -> & Ha'); [by destruct Ha1|done|intros j m Hj; apply Hh; by right|].
      rewrite obind_Ok. exists b'. split; [done|]. by apply (adds_trans b b1 b' [_] [] _ []). }
    destruct e as [[i c]|[i [n|]]|y [i [n|]]]; try done; cbn [rebuild_children expect]; rewrite ?obind_Ok.
    + rewrite (omap_cons_None entry_new) in * by done.
      rewrite (omap_cons_Some (entry_child _ _ _) _ _ (i, c)) by done.
      destruct (IH b Hb Hok Hh) as (b' & -> & Ha'). rewrite obind_Ok. exists b'. done.
    + by apply Hnew.
    + by apply Hnew.
Qed.

(** ** Merging the updates into an internal node *)
Definition stale_ok version s0 (e : StaleNodeIndex) : Prop :=
  stale_since_version e = version /\ exists n, s0 (stale_node_key e) = Some n.

(** Replacing the visited children of a stored node. *)
Lemma merged_assembly version s0 p lvs L cs rs (M : list old_or_new) (sub : Z -> Node HV K) :
  fresh version s0 -> Forall nibble_ok p -> (length p < 64)%nat -> stand_for (length p) cs lvs ->
  (forall i c, (i, c) ∈ cs -> s0 (child_key p (i, c)) = Some (sub i)) ->
  (forall i c, (i, c) ∈ cs -> represents s0 (p ++ [i]) (group (length p) i lvs) (sub i)) ->
  (forall i c, (i, c) ∈ cs -> child_node_type c = Node_node_type (sub i)) ->
  sorted_by cr_index rs -> Forall (fun r => nibble_ok (cr_index r)) rs ->
  (forall r, r ∈ rs ->
     updated version s0 (p ++ [cr_index r]) (group (length p) (cr_index r) L) (cr_node r) (cr_new r)
       (cr_stale r)) ->
  (forall i, i ∉ map cr_index rs -> group (length p) i L = group (length p) i lvs) ->
  merged version p L cs rs M ->
  assembly version s0 p L rs (filter (fun y => fst y ∉ map cr_index rs) cs) (omap (entry_child version p L) M).
Proof.
  intros Hfr Hp Hl Hst Hs Hr Ht Hsort Hnib Hup Hsame (Ha & Hel & _).
  pose proof Hst as ([Hcs Hcn] & Hcov & Hch & _). split; try done.
  - intros i c Hi. apply list_elem_of_filter in Hi as [Hn Hi]. cbn [fst] in Hn. split; [done|].
    rewrite Forall_forall in Hcn. split; [by apply (Hcn (i, c))|]. rewrite Hsame by done.
    exists (sub i). split_and!; [by apply Hs|by eapply Hr|by eapply Ht|by apply Hch].
  - clear -Hcs. induction cs as [|y cs IH]; [constructor|]. apply sorted_by_cons in Hcs as [Hcs Hf].
    rewrite filter_cons. case_decide; [|by apply IH]. apply sorted_by_cons. split; [by apply IH|].
    apply Forall_forall. intros z Hz. apply list_elem_of_filter in Hz as [_ Hz].
    rewrite Forall_forall in Hf. by apply Hf.
  - intros i Hi Hg. destruct (decide (i ∈ map cr_index rs)) as [|Hn]; [by left|right].
    rewrite Hsame in Hg by done. apply Hcov in Hg as [c Hc]; [|done]. exists c. by apply list_elem_of_filter.
  - intros i c. rewrite Hel, list_elem_of_filter. cbn [fst]. tauto.
Qed.


Lemma kept_child version p L (e : old_or_new) : not_deleted e = true ->
  exists y, entry_child version p L e = Some y.
Proof. destruct e as [y|[i [n|]]|y [i [n|]]]; intros He; try done; by eexists. Qed.

(** A leaf that is left alone is pushed up; otherwise nothing happens. *)
Lemma push_up_many reader node_key version (e e' : old_or_new) M b :
  push_up_leaf reader node_key version (e :: e' :: M) b = Ok (None, b).
Proof. by destruct e as [[? ?]|[? ?]|? [? ?]]. Qed.

Section MergeChildren.
Variables (reader : TreeReader HV K) (version : Z) (cache : option (gmap NibblePath HV)) (s0 : @store HV K)
  (v : Z) (p : list Z) (L : list (LeafNode HV K)) (rs : list (@cres HV K)) (old : list (Z * Child HV))
  (M : list old_or_new).
Hypothesis A : assembly version s0 p L rs old (omap (entry_child version p L) M).
Hypothesis Hreads : reads reader s0.
Hypothesis Hbound : Z.of_nat (length L) < U64.
Hypothesis Hcache : (2 <= length L)%nat -> forall i, i ∈ map cr_index rs -> nibble_ok i -> group (length p) i L <> [] -> cached cache p L i.
Hypothesis Hents : omap entry_new M = ents rs.
Hypothesis Hkept : Forall (fun e : old_or_new => not_deleted e = true) M.

Definition merge_result (f : TreeUpdateBatch HV K -> outcome (option (Node HV K) * TreeUpdateBatch HV K)) : Prop :=
  forall b, usable b -> exists o b' new st, f b = Ok (o, b') /\ adds b b' new st /\
    updated version s0 p L o (concat (map cr_new rs) ++ new) (concat (map cr_stale rs) ++ st) /\
    Forall (stale_ok version s0) st.

Lemma merge_news_ok : new_ok version p (concat (map cr_new rs) ++ []).
Proof.
  destruct (all_news_ok version p rs (as_sorted _ _ _ _ _ _ _ A)) as [Hnd Hbel].
  { intros r Hr. apply (as_updated _ _ _ _ _ _ _ A r Hr). }
  rewrite app_nil_r. split; [done|]. intros k n Hk. apply Hbel in Hk as (r & _ & Hk).
  by apply below_child in Hk as [? _].
Qed.

Lemma merge_rebuild : omap (entry_child version p L) M <> [] ->
  single_leaf (omap (entry_child version p L) M) = false ->
  merge_result (fun b =>
    r ← rebuild_children (mkNodeKey v (pack p)) version cache M b;
    let '(children, batch) := r in
    new_internal_node ← InternalNode_new (from_sorted children);
    Ok (Some (Node_Internal new_internal_node), batch)).
Proof.
  intros Hne Hsl b Hu.
  assert (Hmany : (2 <= length L)%nat).
  { eapply stand_for_many; [apply (as_len _ _ _ _ _ _ _ A)|apply (assembly_stand_for _ _ _ _ _ _ _ A)|done|done]. }
  destruct (rebuild_children_spec version cache v p L (as_path _ _ _ _ _ _ _ A) (as_len _ _ _ _ _ _ _ A)
              M b Hu Hkept) as (b' & -> & Ha).
  - intros i n Hi. rewrite Hents in Hi.
    destruct (result_hash _ _ _ _ _ _ _ i n A Hi) as (Hi' & Hg & Hh). split; [done|].
    apply Hcache; [done| |done|done|done]. apply ents_elem in Hi as (r & Hr & <- & _). by apply list_elem_of_fmap_2.
  - rewrite obind_Ok. destruct (assembly_internal _ _ _ _ _ _ _ A Hne (or_introl Hsl) Hbound) as (node & -> & Hup).
    rewrite obind_Ok. rewrite Hents in Ha. eexists _, b', _, []. split_and!; [done|exact Ha|by rewrite app_nil_r|constructor].
Qed.

(** The only child is a leaf. *)
Lemma merge_single i c : omap (entry_child version p L) M = [(i, c)] -> Child_is_leaf c = true ->
  exists x, L = [x] /\ sub_node s0 p rs old i = Node_Leaf x /\
    forall st, Forall (fun e => at_below p (stale_node_key e)) st ->
      updated version s0 p L (Some (Node_Leaf x)) (concat (map cr_new rs) ++ []) (concat (map cr_stale rs) ++ st).
Proof.
  intros E Hlf. destruct (assembly_leaf _ _ _ _ _ _ _ A i c E Hlf) as (_ & x & EL & Es).
  exists x. split_and!; [done|done|]. intros st Hst.
  split_and!; [apply merge_news_ok|apply Forall_app; split; [apply (all_stale_below _ _ _ _ _ _ _ A)|done]|]. intros s _ _. rewrite EL. constructor.
Qed.

Lemma merge_step : merge_result (fun b =>
  match M with
  | [] => Ok (None, b)
  | _ =>
      r ← push_up_leaf reader (mkNodeKey v (pack p)) version M b;
      let '(leaf, batch) := r in
      match leaf with
      | Some node => Ok (Some node, batch)
      | None =>
          r ← rebuild_children (mkNodeKey v (pack p)) version cache M batch;
          let '(children, batch) := r in
          new_internal_node ← InternalNode_new (from_sorted children);
          Ok (Some (Node_Internal new_internal_node), batch)
      end
  end).
Proof.
  intros b Hu. pose proof merge_rebuild as Hre. pose proof merge_single as Hone.
  pose proof Hkept as Hk. pose proof merge_news_ok as Hnews. pose proof Hents as He'.
  destruct M as [|e [|e' M']].
  - exists None, b, [], []. split_and!; [done|by apply adds_refl| |constructor].
    split_and!; [exact Hnews|rewrite app_nil_r; apply (all_stale_below _ _ _ _ _ _ _ A)|]. by apply (assembly_empty _ _ _ _ _ _ _ A).
  - rewrite Forall_singleton in Hk.
    assert (Hnew : forall i n, entry_new e = Some (i, n) ->
      entry_child version p L e = Some (i, new_child version p L i n) ->
      exists o b' new st,
        (if Node_is_leaf n then Ok (Some n, b)
         else r ← rebuild_children (mkNodeKey v (pack p)) version cache [e] b;
              let '(children, batch) := r in
              new_internal_node ← InternalNode_new (from_sorted children);
              Ok (Some (Node_Internal new_internal_node), batch)) = Ok (o, b') /\ adds b b' new st /\
        updated version s0 p L o (concat (map cr_new rs) ++ new) (concat (map cr_stale rs) ++ st) /\
        Forall (stale_ok version s0) st).
    { intros i n En Ec. rewrite (omap_cons_Some _ _ _ _ Ec) in Hre, Hone. rewrite (omap_cons_Some _ _ _ _ En) in He'.
      destruct (Node_is_leaf n) eqn:El.
      - destruct (Hone i _ eq_refl) as (x & EL & Es & Hup); [by rewrite new_child_is_leaf|].
        rewrite (sub_node_new _ _ _ _ _ _ _ A i n) in Es by (rewrite <- He'; left). subst n.
        exists (Some (Node_Leaf x)), b, [], []. split_and!; [done|by apply adds_refl|by apply Hup|constructor].
      - apply Hre; [done| |done]. cbn [omap list_omap single_leaf]. by rewrite new_child_is_leaf. }
    destruct e as [[i c]|[i [n|]]|y [i [n|]]]; try done; cbn [push_up_leaf expect]; rewrite ?obind_Ok.
    + destruct (Child_is_leaf c) eqn:El.
      * destruct (Hone i c eq_refl El) as (x & EL & Es & Hup).
        assert (Hold : (i, c) ∈ old).
        { destruct (proj1 (as_elem _ _ _ _ _ _ _ A i c) ltac:(left)) as [|(n & Hn & _)]; [done|].
          rewrite <- He' in Hn. by apply not_elem_of_nil in Hn. }
        destruct (as_old _ _ _ _ _ _ _ A i c Hold) as (_ & Hi & sub & Hs & _).
        rewrite (sub_node_old _ _ _ _ _ _ _ A i c sub Hold Hs) in Es. subst sub.
        rewrite gen_child_node_key_pack, obind_Ok
          by (apply (as_path _ _ _ _ _ _ _ A) || apply (as_len _ _ _ _ _ _ _ A) || done).
        rewrite (reads_node _ s0 _ _ (Node_Leaf x)), obind_Ok by done.
        destruct (put_stale_adds b (child_key p (i, c)) version Hu) as (b' & Hput & Ha).
        unfold child_key in Hput. cbn [fst snd] in Hput. rewrite Hput, !obind_Ok.
        exists (Some (Node_Leaf x)), b', [], [mkStaleNodeIndex version (child_key p (i, c))].
        split_and!; [done|done| |rewrite Forall_singleton; split; [done|by eexists]].
        apply Hup. rewrite Forall_singleton. exists [i]. cbn [stale_node_key child_key nk_nibble_path fst].
        rewrite unpack_pack; [done|]. apply nibbles_snoc; [apply (as_path _ _ _ _ _ _ _ A)|done].
      * rewrite obind_Ok. apply Hre; done.
    + destruct (Hnew i n eq_refl eq_refl) as (o & b' & new & st & E & Hrest). exists o, b', new, st.
      split; [|done]. rewrite <- E. by destruct (Node_is_leaf n).
    + destruct (Hnew i n eq_refl eq_refl) as (o & b' & new & st & E & Hrest). exists o, b', new, st.
      split; [|done]. rewrite <- E. by destruct (Node_is_leaf n).
  - rewrite push_up_many, obind_Ok. apply Forall_cons in Hk as [Hk1 Hk]. apply Forall_cons in Hk as [Hk2 _].
    destruct (kept_child version p L e Hk1) as [y Ey], (kept_child version p L e' Hk2) as [y' Ey'].
    rewrite (omap_cons_Some _ _ _ _ Ey), (omap_cons_Some _ _ _ _ Ey') in Hre.
    apply Hre; [done| |done]. by destruct y.
Qed.
End MergeChildren.

(** ** [batch_insert_at] *)
Lemma updates_to_weaken version s0 p L f good good' : (forall e, good e -> good' e) ->
  updates_to (K := K) version s0 p L f good -> updates_to version s0 p L f good'.
Proof.
  intros Hg Hf b Hu. destruct (Hf b Hu) as (o & b' & new & st & E & Ha & Hup & Hst).
  exists o, b', new, st. split_and!; [done|done|done|]. by eapply Forall_impl.
Qed.

(** Marking a stored node as stale before the update. *)
Lemma updates_to_stale version s0 p L f v n : fresh version s0 -> Forall nibble_ok p ->
  s0 (mkNodeKey v (pack p)) = Some n ->
  updates_to (K := K) version s0 p L f (stale_ok version s0) ->
  updates_to version s0 p L (fun b => b1 ← put_stale_node b (mkNodeKey v (pack p)) version; f b1)
    (stale_ok version s0).
Proof.
  intros Hfr Hp Hk Hf b Hu. set (k := mkNodeKey v (pack p)) in *. destruct (put_stale_adds b k version Hu) as (b1 & -> & Ha1). rewrite obind_Ok.
  destruct (Hf b1) as (o & b' & new & st & E & Ha & Hup & Hst); [by destruct Ha1|].
  exists o, b', new, (mkStaleNodeIndex version k :: st).
  split_and!; [done|by apply (adds_trans b b1 b' [] [_] new st)| |constructor; [split; [done|by exists n]|done]].
  destruct Hup as (Hnew & Hbel & Hrep).
  split_and!; [done|constructor; [by apply at_below_pack|done]|]. destruct o as [m|]; [|done].
  intros s Hkeep Hh. (* put the node back; it is not below its own path *)
  set (s' := fun k' => if decide (k' = k) then s0 k' else s k').
  apply (represents_local s').
  - apply Hrep.
    + intros k' m' Hk' Hb Hns. unfold s'. case_decide as Ek; [done|]. apply Hkeep; [done|done|].
      cbn [map]. apply not_elem_of_cons. by split.
    + intros k' m' Hin. unfold s'. case_decide as Ek; [|by apply Hh]. subst k'.
      destruct Hnew as [_ Hv]. destruct (Hv _ _ Hin) as [Ev _]. by destruct (Hfr k n Hk).
  - done.
  - intros k' m' Hk' (q & Hq & E'). unfold s' in Hk'. case_decide as Ek; [|done]. exfalso. subst k'.
    unfold k in E'. cbn [nk_nibble_path] in E'. rewrite unpack_pack in E' by done.
    rewrite <- (app_nil_r p) in E' at 1. apply app_inv_head in E'. by subst q.
Qed.

Lemma visits_same version s0 p lvs ups good rs i :
  visits version s0 p (apply_updates version lvs ups) ups good rs -> i ∉ map cr_index rs ->
  group (length p) i (apply_updates version lvs ups) = group (length p) i lvs.
Proof.
  intros (_ & _ & _ & _ & Hidx) Hi. rewrite group_apply.
  destruct (run_of (length p) i ups) eqn:E; [by rewrite apply_nil|].
  destruct Hi. apply Hidx. by rewrite E.
Qed.

(** The children of a stored internal node after the updates. *)
Lemma internal_step reader version cache s0 v p lvs cs ups (sub : Z -> Node HV K) at_child :
  reads reader s0 -> fresh version s0 -> Forall nibble_ok p -> (length p < 64)%nat ->
  stand_for (length p) cs lvs ->
  (forall i c, (i, c) ∈ cs -> s0 (child_key p (i, c)) = Some (sub i)) ->
  (forall i c, (i, c) ∈ cs -> represents s0 (p ++ [i]) (group (length p) i lvs) (sub i)) ->
  (forall i c, (i, c) ∈ cs -> child_node_type c = Node_node_type (sub i)) ->
  placed p lvs -> ups_ok p ups -> Z.of_nat (length lvs + length ups) < U64 ->
  cache_ok version cache p lvs ups ->
  (forall i, nibble_ok i -> run_of (length p) i ups <> [] ->
     updates_to version s0 (p ++ [i]) (group (length p) i (apply_updates version lvs ups))
       (at_child i (run_of (length p) i ups)) (stale_ok version s0)) ->
  updates_to version s0 p (apply_updates version lvs ups) (fun b =>
    ranges ← nibble_ranges ups (Z.of_nat (length p));
    r ← (if Z.of_nat (length p) <=? MAX_PARALLELIZABLE_DEPTH then
           rs ← update_ranges_par at_child ups (Z.of_nat (length p)) ranges;
           Ok (map fst rs, foldl TreeUpdateBatch_combine b (map snd rs))
         else update_ranges at_child ups (Z.of_nat (length p)) ranges b);
    let '(vis, batch) := r in
    merge_children reader (mkNodeKey v (pack p)) version cache
      (mkInternalNode cs (Z.of_nat (length lvs))) vis batch) (stale_ok version s0).
Proof.
  intros Hrd Hfr Hp Hl Hst Hs Hr Ht Hpl Hups Hb Hc Hat b Hu.
  set (L := apply_updates version lvs ups) in *.
  assert (exists rs b1, (ranges ← nibble_ranges ups (Z.of_nat (length p));
      (if Z.of_nat (length p) <=? MAX_PARALLELIZABLE_DEPTH then
           rs ← update_ranges_par at_child ups (Z.of_nat (length p)) ranges;
           Ok (map fst rs, foldl TreeUpdateBatch_combine b (map snd rs))
         else update_ranges at_child ups (Z.of_nat (length p)) ranges b)) = Ok (visited rs, b1) /\
      adds b b1 (concat (map cr_new rs)) (concat (map cr_stale rs)) /\
      visits version s0 p L ups (stale_ok version s0) rs) as (rs & b1 & Evis & Ha1 & Hv).
  { destruct (_ <=? _).
    - destruct (visit_par version s0 p L ups _ at_child Hl Hups Hat b Hu) as (ranges & rs & l & -> & E & Ef & Ha & Hv).
      rewrite obind_Ok, E, obind_Ok, Ef. by exists rs, (foldl TreeUpdateBatch_combine b (map snd l)).
    - destruct (visit_seq version s0 p L ups _ at_child Hl Hups Hat b Hu) as (ranges & rs & b1 & -> & E & Ha & Hv).
      rewrite obind_Ok, E. by exists rs, b1. }
  destruct (nibble_ranges ups (Z.of_nat (length p))) as [ranges| |]; [|done..].
  rewrite obind_Ok in Evis. rewrite obind_Ok, Evis, obind_Ok. pose proof Hv as (Hsort & Hnib & Hup & Hstale & Hidx).
  pose proof (merge_merged version p L cs rs (proj1 (proj1 Hst)) Hsort) as Hm.
  pose proof (merged_assembly version s0 p lvs L cs rs _ sub Hfr Hp Hl Hst Hs Hr Ht Hsort Hnib Hup
    ltac:(intros i Hi; by eapply visits_same) Hm) as A.
  destruct (kept_children version p L (merge cs rs)) as [E1 E2]. rewrite <- E1 in A.
  destruct Hm as (_ & _ & Hn). rewrite <- E2 in Hn.
  destruct (merge_step reader version cache s0 v p L rs _ _ A Hrd) with (b := b1)
    as (o & b' & new & st & E & Ha & Hupd & Hst'); [| |done|apply kept_ok|by destruct Ha1|].
  - pose proof (apply_length version lvs ups). unfold L. lia.
  - intros H2l i Hin Hi Hg. apply (cache_cached version cache p lvs ups i); try done.
    + apply apply_placed; [done|by apply ups_NoDup, Hups|apply Hups].
    + left. apply Hidx in Hin. destruct (run_of (length p) i ups) as [|kv run] eqn:Er; [done|]. exists kv.
      assert (Hkv : kv ∈ run_of (length p) i ups) by (rewrite Er; left). apply list_elem_of_filter in Hkv as [Hki Hkv].
      split; [done|]. apply starts_snoc; [done|]. destruct Hups as [_ Hst2]. rewrite Forall_forall in Hst2. split; [by apply Hst2|done].
  - exists o, b', (concat (map cr_new rs) ++ new), (concat (map cr_stale rs) ++ st).
    split_and!; [exact E|by eapply adds_trans|done|by apply Forall_app].
Qed.

Lemma insert_spec reader version cache s0 : fresh version s0 -> reads reader s0 -> forall fuel p v lvs node ups,
  (1 <= length p <= 64)%nat -> (64 <= length p + fuel)%nat -> Forall nibble_ok p ->
  s0 (mkNodeKey v (pack p)) = Some node -> represents s0 p lvs node -> placed p lvs -> ups_ok p ups ->
  Z.of_nat (length lvs + length ups) < U64 -> cache_ok version cache p lvs ups ->
  updates_to version s0 p (apply_updates version lvs ups)
    (batch_insert_at fuel reader (mkNodeKey v (pack p)) version ups (Z.of_nat (length p)) cache)
    (stale_ok version s0).
Proof.
  intros Hfr Hrd. induction fuel as [fuel IH] using (well_founded_induction lt_wf).
  intros p v lvs node ups Hl Hfu Hp Hnode Hrep Hpl Hups Hb Hc.
  assert (Hbody : updates_to version s0 p (apply_updates version lvs ups) (fun b =>
      match ups with
      | [] => Ok (Some node, b)
      | _ =>
          match node with
          | Node_Internal internal_node =>
              ranges ← nibble_ranges ups (Z.of_nat (length p));
              match fuel with
              | O => Panic "out of fuel"
              | S fuel =>
                  let at_child := insert_at_child (fun nk sub batch =>
                    batch_insert_at fuel reader nk version sub (Z.of_nat (length p) + 1) cache batch)
                    (mkNodeKey v (pack p)) internal_node version (Z.of_nat (length p)) cache in
                  r ← (if Z.of_nat (length p) <=? MAX_PARALLELIZABLE_DEPTH then
                         rs ← update_ranges_par at_child ups (Z.of_nat (length p)) ranges;
                         Ok (map fst rs, foldl TreeUpdateBatch_combine b (map snd rs))
                       else update_ranges at_child ups (Z.of_nat (length p)) ranges b);
                  let '(vis, batch) := r in
                  merge_children reader (mkNodeKey v (pack p)) version cache internal_node vis batch
              end
          | Node_Leaf x =>
              batch_update_subtree_with_existing_leaf 64 (mkNodeKey v (pack p)) version x ups
                (Z.of_nat (length p)) cache b
          | Node_Null => Panic "internal error: entered unreachable code"
          end
      end) (stale_ok version s0)).
  { destruct (decide (ups = [])) as [->|Hne].
    - intros b Hu. rewrite apply_nil. exists (Some node), b, [], [].
      split_and!; [done|by apply adds_refl| |constructor]. split_and!; [apply new_ok_nil|constructor|].
      intros s He _. apply (represents_local s0); [done|done|]. intros k m Hk (q & _ & E).
      apply He; [done|by exists q|apply not_elem_of_nil].
    - destruct Hrep as [p x|p lvs cs sub Hlt _ Hst Hs Hr Ht].
      + assert (Hx : starts p (account_key x)) by (destruct Hpl as [_ Hx]; by rewrite Forall_singleton in Hx).
        destruct ups as [|u ups]; [done|]. apply (updates_to_weaken _ _ _ _ _ no_stale); [done|].
        apply existing_spec; try done. lia.
      + destruct fuel as [|fuel]; [lia|].
        pose proof (internal_step reader version cache s0 v p lvs cs ups sub
          (insert_at_child (fun nk sub batch =>
             batch_insert_at fuel reader nk version sub (Z.of_nat (length p) + 1) cache batch)
             (mkNodeKey v (pack p)) (mkInternalNode cs (Z.of_nat (length lvs))) version (Z.of_nat (length p)) cache)
          Hrd Hfr Hp Hlt Hst Hs Hr Ht Hpl Hups Hb Hc) as Hstep.
        destruct ups as [|u ups]; [done|]. apply Hstep. clear Hstep. intros i Hi Hrne b0 Hb0.
        pose proof Hst as ([Hcs _] & Hcov & _).
        pose proof (run_length (length p) i (u :: ups)) as Hlr.
        pose proof (length_filter (fun x => nib (account_key x) (length p) = i) lvs) as Hlg.
        fold (group (length p) i lvs) in Hlg.
        pose proof (cache_ok_child version cache p i lvs (u :: ups) Hlt Hi Hc) as Hci.
        rewrite group_apply in *. unfold insert_at_child, InternalNode_child. cbn [in_children].
        rewrite Children_get_assoc, obind_Ok by done.
        assert (Hl' : length (p ++ [i]) = S (length p)) by (rewrite length_app; cbn; lia).
        replace (Z.of_nat (length p) + 1) with (Z.of_nat (length (p ++ [i]))) by lia.
        destruct (assoc i cs) as [c|] eqn:Eas.
        * apply assoc_elem_of in Eas. rewrite gen_child_node_key_pack, obind_Ok by done.
          apply (IH fuel ltac:(lia) (p ++ [i]) _ _ (sub i)); try done;
            [lia|lia|by apply nibbles_snoc|by apply (Hs i c)|by apply (Hr i c)|by apply group_placed
            |by apply ups_run_ok|lia].
        * rewrite gen_child_node_key_pack, obind_Ok by done.
          assert (E0 : group (length p) i lvs = []).
          { destruct (group (length p) i lvs) eqn:E; [done|]. destruct (proj2 (Hcov i Hi)) as [c Hc']; [by rewrite E|].
            by rewrite (assoc_sorted i cs c Hcs Hc') in Eas. }
          rewrite E0 in *. apply (updates_to_weaken _ _ _ _ _ no_stale); [done| |done].
          apply bus_spec; (done || lia || (by apply nibbles_snoc) || by apply ups_run_ok). }
  intros b Hu. destruct (updates_to_stale _ _ _ _ _ _ node Hfr Hp Hnode Hbody b Hu) as (o & b' & new & st & E & Hrest).
  exists o, b', new, st. split; [|done]. rewrite <- E.
  destruct fuel; cbn [batch_insert_at]; rewrite (Hrd _ _ _ Hnode), obind_Ok; by destruct ups, node.
Qed.
End Insert.
