(* ===== verification/JellyfishCommit.v ===== *)
(** * Committing a version

    A batch of updates is sorted and deduplicated, split into 16 shards, put shard by
    shard, and the top level is built from the shard roots. *)
From stdpp Require Import base list numbers strings option gmap sorting.
From Stdlib Require Import ZArith Lia Bool Sorted.
From S2P Require Import Prelude Hash SparseMerkleProof SparseSpec SparseFacts NibblePath NibblePathFacts ByteCodec JellyfishNode JellyfishNodeFacts JellyfishHash JellyfishSpec JellyfishTree JellyfishRead JellyfishRuns JellyfishBatch JellyfishUpdate JellyfishInsert.

(** ** The order of keys *)
Lemma lex_nibbles xs : forall ys, Forall byte_ok xs -> Forall byte_ok ys ->
  lex_compare (bytes_nibbles xs) (bytes_nibbles ys) = lex_compare xs ys.
Proof.
  induction xs as [|x xs IH]; intros [|y ys] Hx Hy; [done..|].
  apply Forall_cons in Hx as [Hx Hxs], Hy as [Hy Hys].
  cbn [bytes_nibbles flat_map byte_nibbles app lex_compare]. rewrite IH by done.
  pose proof (Z.div_mod x 16 ltac:(lia)) as Ex. pose proof (Z.div_mod y 16 ltac:(lia)) as Ey.
  pose proof (Z.mod_pos_bound x 16 ltac:(lia)). pose proof (Z.mod_pos_bound y 16 ltac:(lia)).
  destruct (x / 16 ?= y / 16) eqn:E1;
    [apply Z.compare_eq in E1|change (x / 16 < y / 16) in E1|apply Z.compare_gt_iff in E1].
  - destruct (x mod 16 ?= y mod 16) eqn:E2;
      [apply Z.compare_eq in E2|change (x mod 16 < y mod 16) in E2|apply Z.compare_gt_iff in E2].
    + by replace y with x by lia; rewrite Z.compare_refl.
    + by rewrite (proj2 (Z.compare_lt_iff x y)) by lia.
    + by rewrite (proj2 (Z.compare_gt_iff x y)) by lia.
  - by rewrite (proj2 (Z.compare_lt_iff x y)) by lia.
  - by rewrite (proj2 (Z.compare_gt_iff x y)) by lia.
Qed.

Lemma lex_first_difference xs : forall ys, length xs = length ys ->
  match lex_compare xs ys with
  | Eq => xs = ys
  | Lt => exists m, (m < length xs)%nat /\ take m xs = take m ys /\ nth m xs 0 < nth m ys 0
  | Gt => exists m, (m < length xs)%nat /\ take m xs = take m ys /\ nth m ys 0 < nth m xs 0
  end.
Proof.
  induction xs as [|x xs IH]; intros [|y ys] Hl; try done. cbn in Hl. injection Hl as Hl. cbn [lex_compare].
  destruct (x ?= y) eqn:E; [apply Z.compare_eq in E|change (x < y) in E|apply Z.compare_gt_iff in E].
  - subst y. specialize (IH ys Hl). destruct (lex_compare xs ys).
    + by rewrite IH.
    + destruct IH as (m & Hm & Et & Hlt). exists (S m). cbn. split_and!; [lia|by rewrite Et|done].
    + destruct IH as (m & Hm & Et & Hlt). exists (S m). cbn. split_and!; [lia|by rewrite Et|done].
  - exists 0%nat. cbn. split_and!; [lia|done|done].
  - exists 0%nat. cbn. split_and!; [lia|done|done].
Qed.

Section Order.
Context {HV : Type} `{HashValueOps HV} `{HashValueBits HV} `{!HashValueLaws HV}
  `{HashValueKeys HV} `{!HashValueKeysLaws HV}.
Implicit Types (a b k : HV).

Lemma take_nib a b m : take m (key_nibbles a) = take m (key_nibbles b) ->
  forall i, (i < m)%nat -> nib a i = nib b i.
Proof.
  intros E i Hi. unfold nib. rewrite !nth_lookup, <- (lookup_take_lt (key_nibbles a) m i),
    <- (lookup_take_lt (key_nibbles b) m i) by done. by rewrite E.
Qed.

Lemma hv_cmp_cases a b :
  match hv_cmp a b with Eq => a = b | Lt => klt a b | Gt => klt b a end.
Proof.
  rewrite hv_cmp_spec, <- lex_nibbles by apply hv_bytes_ok.
  fold (key_nibbles a) (key_nibbles b).
  pose proof (lex_first_difference (key_nibbles a) (key_nibbles b)) as Hc.
  rewrite !key_nibbles_length in Hc. specialize (Hc eq_refl).
  destruct (lex_compare _ _).
  - apply hv_bytes_inj.
    rewrite <- (pack_bytes_nibbles (hv_bytes a)), <- (pack_bytes_nibbles (hv_bytes b)) by apply hv_bytes_ok.
    unfold key_nibbles in Hc. by rewrite Hc.
  - destruct Hc as (m & Hm & Et & Hlt). exists m. split_and!; [done|by apply take_nib|done].
  - destruct Hc as (m & Hm & Et & Hlt). exists m. split_and!; [done|by apply take_nib|done].
Qed.

Lemma klt_trans a b c : klt a b -> klt b c -> klt a c.
Proof.
  intros (m & Hm & E & Hlt) (m' & Hm' & E' & Hlt'). exists (Nat.min m m'). split_and!; [lia| |].
  - intros i Hi. rewrite E, E' by lia. done.
  - destruct (Nat.lt_trichotomy m m') as [Hc|[->|Hc]].
    + rewrite Nat.min_l by lia. rewrite <- (E' m) by done. done.
    + rewrite Nat.min_id. lia.
    + rewrite Nat.min_r by lia. rewrite (E m') by done. done.
Qed.

Lemma klt_asym a b : klt a b -> ~ klt b a.
Proof. intros Ha Hb. eapply klt_irrefl, klt_trans; done. Qed.

Lemma hv_cmp_lt a b : klt a b -> hv_cmp a b = Lt.
Proof.
  intros Hlt. pose proof (hv_cmp_cases a b) as Hc. destruct (hv_cmp a b); [subst; by apply klt_irrefl in Hlt|done|].
  by apply klt_asym in Hc.
Qed.

Lemma hv_cmp_gt a b : klt b a -> hv_cmp a b = Gt.
Proof.
  intros Hlt. pose proof (hv_cmp_cases a b) as Hc. destruct (hv_cmp a b); [subst; by apply klt_irrefl in Hlt| |done].
  by apply klt_asym in Hc.
Qed.

Lemma hv_cmp_refl a : hv_cmp a a = Eq.
Proof.
  pose proof (hv_cmp_cases a a) as Hc. destruct (hv_cmp a a); [done|by apply klt_irrefl in Hc..].
Qed.

(** ** [BTreeMap] *)
Context {V : Type}.
Implicit Types (m kvs : list (HV * V)).

Lemma btree_insert_lookup k v m k' v' : keys_sorted m ->
  (k', v') ∈ btree_insert k v m <-> (k' = k /\ v' = v) \/ (k' <> k /\ (k', v') ∈ m).
Proof.
  intros Hs. induction Hs as [|[k1 v1] m Hs IH Hf]; cbn [btree_insert].
  - rewrite list_elem_of_singleton. split; [intros [= -> ->]; by left|].
    intros [[-> ->]|[_ Hn]]; [done|by apply not_elem_of_nil in Hn].
  - pose proof (hv_cmp_cases k k1) as Hc. rewrite Forall_forall in Hf.
    assert (Hne : forall k0 v0, (k0, v0) ∈ m -> k0 <> k1).
    { intros k0 v0 Hin ->. specialize (Hf _ Hin). cbn in Hf. by apply klt_irrefl in Hf. }
    destruct (hv_cmp k k1).
    + subst k1. rewrite !elem_of_cons. split.
      * intros [[= -> ->]|Hin]; [by left|]. right. split; [by eapply Hne|by right].
      * intros [[-> ->]|[Hn [[= -> ->]|Hin]]]; [by left|done|by right].
    + rewrite !elem_of_cons. split.
      * intros [[= -> ->]|Hin]; [by left|right]. split; [|done]. intros ->.
        destruct Hin as [[= -> ->]|Hin]; [by apply klt_irrefl in Hc|].
        specialize (Hf _ Hin). cbn in Hf. by apply klt_asym in Hf.
      * intros [[-> ->]|[Hn Hin]]; [by left|by right].
    + rewrite !elem_of_cons, IH. split.
      * intros [[= -> ->]|[[-> ->]|[Hn Hin]]]; [right; split; [intros ->; by apply klt_irrefl in Hc|by left]|by left|].
        right. split; [done|by right].
      * intros [[-> ->]|[Hn [[= -> ->]|Hin]]]; [right; by left|by left|right; right; done].
Qed.

Lemma btree_insert_sorted k v m : keys_sorted m -> keys_sorted (btree_insert k v m).
Proof.
  intros Hs. pose proof Hs as Hs'. unfold keys_sorted in *.
  induction Hs as [|[k1 v1] m Hs IH Hf]; cbn [btree_insert]; [by repeat constructor|].
  pose proof (hv_cmp_cases k k1) as Hc. destruct (hv_cmp k k1).
  - subst k1. by constructor.
  - constructor; [done|]. constructor; [done|]. eapply Forall_impl; [exact Hf|]. intros [k2 v2]. cbn.
    by apply klt_trans.
  - constructor; [by apply IH|]. apply Forall_forall. intros [k2 v2] Hin.
    apply btree_insert_lookup in Hin as [[-> ->]|[_ Hin]]; [done| |done].
    rewrite Forall_forall in Hf. by apply (Hf (k2, v2)).
Qed.

(** The value a list of pairs gives a key: the last one. *)
Definition last_of (kvs : list (HV * V)) (k : HV) : option V :=
  foldl (fun o kv => if bool_decide (fst kv = k) then Some (snd kv) else o) None kvs.

Lemma last_of_snoc kvs k v k' :
  last_of (kvs ++ [(k, v)]) k' = if bool_decide (k = k') then Some v else last_of kvs k'.
Proof. unfold last_of. by rewrite foldl_app. Qed.

Lemma btree_of_snoc kvs k v : btree_of (kvs ++ [(k, v)]) = btree_insert k v (btree_of kvs).
Proof. unfold btree_of. by rewrite fold_left_app. Qed.

Lemma btree_of_spec kvs : keys_sorted (btree_of kvs) /\
  forall k v, (k, v) ∈ btree_of kvs <-> last_of kvs k = Some v.
Proof.
  induction kvs as [|[k1 v1] kvs [IHs IH]] using rev_ind.
  - split; [constructor|]. intros k v. split; [intros Hn; by apply not_elem_of_nil in Hn|done].
  - rewrite btree_of_snoc. split; [by apply btree_insert_sorted|]. intros k v.
    rewrite btree_insert_lookup, IH, last_of_snoc by done.
    destruct (decide (k1 = k)) as [->|Hn]; [rewrite bool_decide_true by done|rewrite bool_decide_false by done];
      naive_solver.
Qed.

(** Two sorted lists with the same pairs are equal. *)
Lemma keys_sorted_ext m m' : keys_sorted m -> keys_sorted m' ->
  (forall kv, kv ∈ m <-> kv ∈ m') -> m = m'.
Proof.
  intros Hs. revert m'. induction Hs as [|[k v] m Hs IH Hf]; intros m' Hs' Hel.
  - destruct m' as [|kv m']; [done|]. exfalso. apply (not_elem_of_nil kv), Hel. left.
  - destruct Hs' as [|[k' v'] m' Hs' Hf']; [exfalso; apply (not_elem_of_nil (k, v)), Hel; left|].
    rewrite Forall_forall in Hf. rewrite Forall_forall in Hf'.
    assert (E : (k, v) = (k', v')).
    { destruct (proj1 (elem_of_cons _ _ _) (proj1 (Hel (k, v)) ltac:(left))) as [|Hin]; [done|].
      destruct (proj1 (elem_of_cons _ _ _) (proj2 (Hel (k', v')) ltac:(left))) as [|Hin']; [done|].
      apply Hf' in Hin. apply Hf in Hin'. cbn in *. by apply klt_asym in Hin. }
    injection E as <- <-. f_equal. apply IH; [done|]. intros kv. split; intros Hin.
    + destruct (proj1 (elem_of_cons _ _ _) (proj1 (Hel kv) ltac:(by right))) as [->|]; [|done].
      apply Hf in Hin. by apply klt_irrefl in Hin.
    + destruct (proj1 (elem_of_cons _ _ _) (proj2 (Hel kv) ltac:(by right))) as [->|]; [|done].
      apply Hf' in Hin. by apply klt_irrefl in Hin.
Qed.

Lemma keys_sorted_filter (P : HV * V -> Prop) `{!forall kv, Decision (P kv)} m :
  keys_sorted m -> keys_sorted (filter P m).
Proof.
  unfold keys_sorted. induction 1 as [|a l _ IH Hf]; [constructor|].
  rewrite filter_cons. case_decide; [|done]. constructor; [done|]. rewrite Forall_forall in *.
  intros y Hy. apply list_elem_of_filter in Hy as [_ Hy]. by apply Hf.
Qed.

(** Splitting by a property of the key and sorting commute. *)
Lemma last_of_filter (P : HV -> Prop) `{!forall k, Decision (P k)} kvs k :
  last_of (filter (fun kv => P (fst kv)) kvs) k = if decide (P k) then last_of kvs k else None.
Proof.
  induction kvs as [|[k1 v1] kvs IH] using rev_ind; [by case_decide|].
  rewrite filter_app, last_of_snoc, filter_cons. cbn [fst].
  destruct (decide (P k1)) as [Hp|Hp].
  - rewrite filter_nil, last_of_snoc, IH. repeat case_bool_decide; repeat case_decide; subst; done.
  - rewrite filter_nil, app_nil_r, IH. repeat case_bool_decide; repeat case_decide; subst; done.
Qed.

Lemma btree_of_filter (P : HV -> Prop) `{!forall k, Decision (P k)} kvs :
  btree_of (filter (fun kv => P (fst kv)) kvs) = filter (fun kv => P (fst kv)) (btree_of kvs).
Proof.
  destruct (btree_of_spec kvs) as [Hs He], (btree_of_spec (filter (fun kv => P (fst kv)) kvs)) as [Hs' He'].
  apply keys_sorted_ext; [done|by apply keys_sorted_filter|]. intros [k v].
  rewrite He', last_of_filter, list_elem_of_filter, He. cbn [fst]. case_decide; naive_solver.
Qed.
End Order.

Section Commit.
Context {HV : Type} `{HashValueOps HV} `{HashValueBits HV} `{!HashValueLaws HV} `{CryptoHasher HV}
  `{LeafHasher HV} `{HashValueKeys HV} `{!HashValueKeysLaws HV} `{Itertools} `{!ItertoolsLaws} {K : Type}.
Implicit Types (cs : list (Z * Child HV)) (c : Child HV) (lvs L : list (LeafNode HV K))
  (x : LeafNode HV K) (key : HV) (p : list Z) (version : Z) (n : Node HV K)
  (b : TreeUpdateBatch HV K) (new : list (NodeKey * Node HV K)) (st : list StaleNodeIndex)
  (s : @store HV K) (ups kvs : list (HV * option (HV * K))) (cache : option (gmap NibblePath HV))
  (r : @cres HV K) (rs : list (@cres HV K)) (pv : option Version).

(** ** The leaves after a batch *)
Definition update_all version lvs kvs : list (LeafNode HV K) := apply_updates version lvs (btree_of kvs).

Lemma btree_of_length kvs : (length (btree_of kvs) <= length kvs)%nat.
Proof.
  induction kvs as [|[k v] kvs IH] using rev_ind; [done|]. rewrite btree_of_snoc, length_app. cbn [length].
  assert (Hi : forall m : list (HV * option (HV * K)), (length (btree_insert k v m) <= S (length m))%nat).
  { induction m as [|[k1 v1] m IHm]; [done|]. cbn [btree_insert]. destruct (hv_cmp k k1); cbn [length]; lia. }
  specialize (Hi (btree_of kvs)). lia.
Qed.

Lemma ins_filter version key ups :
  filter (fun x => account_key x = key) (ins version ups) = ins version (filter (fun kv => fst kv = key) ups).
Proof.
  induction ups as [|[k [v|]] ups IH]; [done|..]; rewrite (filter_cons _ (k, _)); cbn [fst].
  - rewrite ins_write, filter_cons, IH. cbn [account_key]. by case_decide.
  - rewrite ins_delete, IH. by case_decide.
Qed.

(** A key has the last value written to it, no value when it was deleted last, and its
    old value otherwise. *)
Lemma value_at_update version lvs kvs key :
  value_at (update_all version lvs kvs) key =
  match last_of kvs key with
  | Some (Some (h, k)) => Some (h, (k, version))
  | Some None => None
  | None => value_at lvs key
  end.
Proof.
  destruct (btree_of_spec kvs) as [Hs He]. unfold value_at, update_all, apply_updates.
  rewrite filter_app, list_filter_filter, ins_filter. destruct (last_of kvs key) as [w|] eqn:El.
  - rewrite filter_none.
    + assert (E : filter (fun kv => fst kv = key) (btree_of kvs) = [(key, w)]).
      { apply keys_sorted_ext; [by apply keys_sorted_filter|by repeat constructor|]. intros [k v].
        rewrite list_elem_of_filter, list_elem_of_singleton, He. cbn [fst].
        split; [intros [-> Hk]; congruence|]. by intros [= -> ->]. }
      rewrite E. by destruct w as [[h k]|].
    + apply Forall_forall. intros x _ [Ek Hn]. apply Hn. apply He in El. rewrite Ek.
      by apply (list_elem_of_fmap_2 fst _ (key, w)).
  - assert (Hno : key ∉ map fst (btree_of kvs)).
    { intros Hin. apply list_elem_of_fmap in Hin as ([k v] & -> & Hin). apply He in Hin. cbn [fst] in El. rewrite El in Hin. done. }
    rewrite (filter_none (fun kv => fst kv = key)).
    + cbn [ins omap list_omap]. rewrite app_nil_r.
      rewrite (list_filter_iff _ (fun x => account_key x = key)); [done|]. intros x. split; [tauto|].
      intros <-. by split.
    + apply Forall_forall. intros kv Hin E. apply Hno. rewrite <- E. by apply list_elem_of_fmap_2.
Qed.

(** ** One shard *)

(** The root of shard [i] of version [v]. *)
Definition shard_at s (v : Version) (i : Z) lvs : Prop :=
  match s (mkNodeKey v (pack [i])) with
  | Some node => represents s [i] lvs node
  | None => lvs = []
  end.

(** The same of a store [s] that is part of what the reader has. *)
Definition shard_served (reader : TreeReader HV K) s (v : Version) (i : Z) lvs : Prop :=
  shard_at s v i lvs /\
  (s (mkNodeKey v (pack [i])) = None -> get_node_option reader (mkNodeKey v (pack [i])) "commit" = Ok None).

Lemma shard_path i : nibble_ok i -> new_odd [Z.land (Z.shiftl i 4) 255] = Ok (pack [i]).
Proof.
  intros Hi. unfold nibble_ok in Hi.
  assert (Hc : forallb (fun i => match new_odd [Z.land (Z.shiftl i 4) 255] with
     | Ok q => bool_decide (q = pack [i]) | _ => false end) (seqZ 0 16) = true) by (by vm_compute).
  rewrite forallb_forall in Hc. specialize (Hc i). rewrite <- list_elem_of_In, elem_of_seqZ in Hc.
  specialize (Hc ltac:(lia)). destruct (new_odd _) as [q| |]; [|done..]. by apply bool_decide_eq_true in Hc as ->.
Qed.

Lemma starts_one i key : starts [i] key <-> nib key 0 = i.
Proof.
  rewrite <- (app_nil_l [i]), starts_snoc by (cbn; lia). cbn [length]. split; [tauto|]. done.
Qed.

Lemma nibble_0 key : nibble key 0 = nib key 0.
Proof.
  pose proof (nibble_spec key 0 ltac:(lia)) as Hn. cbn in Hn. fold (key_nibbles key) in Hn.
  rewrite nib_lookup in Hn by lia. by injection Hn.
Qed.

Lemma assert_shard_Ok i kvs : Forall (fun kv => nib (fst kv) 0 = i) kvs -> assert_shard i kvs = Ok tt.
Proof.
  induction 1 as [|kv kvs Hk _ IH]; [done|]. cbn [assert_shard]. rewrite nibble_0, Hk, Z.eqb_refl.
  cbn [assert]. by rewrite obind_Ok.
Qed.

Lemma last_of_elem kvs k v : last_of kvs k = Some v -> (k, v) ∈ kvs.
Proof.
  induction kvs as [|[k1 v1] kvs IH] using rev_ind; [done|]. rewrite last_of_snoc, elem_of_app, list_elem_of_singleton.
  case_bool_decide as E; [intros [= ->]; right; by rewrite E|]. intros Hl. left. by apply IH.
Qed.

Lemma btree_ups_ok p kvs : Forall (fun kv => starts p (fst kv)) kvs -> ups_ok p (btree_of kvs).
Proof.
  intros Hf. destruct (btree_of_spec kvs) as [Hs He]. split; [done|]. apply Forall_forall. intros [k v] Hin.
  apply He, last_of_elem in Hin. rewrite Forall_forall in Hf. by apply (Hf (k, v)).
Qed.

Definition shard_node r : Node HV K := default Node_Null (cr_node r).
Definition shard_nodes version r : list (NodeKey * Node HV K) :=
  cr_new r ++ match cr_node r with Some n => [(child_node_key version [] (cr_index r), n)] | None => [] end.

(** A missing node of the top levels. *)
Lemma insert_at_none fuel reader nk version ups cache b :
  get_node_option reader nk "commit" = Ok None ->
  batch_insert_at fuel reader nk version ups 1 cache b =
  match ups with [] => Ok (None, b) | _ => batch_update_subtree 64 nk version ups 1 cache b end.
Proof.
  intros E. destruct fuel; cbn [batch_insert_at]; rewrite E, !obind_Ok; destruct ups; reflexivity.
Qed.

(** Updating the leaves below a shard root, stored or not. *)
Lemma shard_update reader version cache s0 i lvs ups pv : fresh version s0 -> reads reader s0 ->
  nibble_ok i -> placed [i] lvs ->
  match pv with Some v => shard_served reader s0 v i lvs | None => lvs = [] end -> ups_ok [i] ups ->
  Z.of_nat (length lvs + length ups) < U64 -> cache_ok version cache [i] lvs ups ->
  updates_to version s0 [i] (apply_updates version lvs ups) (fun b =>
    match pv with
    | Some v => batch_insert_at 64 reader (mkNodeKey v (pack [i])) version ups 1 cache b
    | None => batch_update_subtree 64 (mkNodeKey version (pack [i])) version ups 1 cache b
    end) (stale_ok version s0).
Proof.
  intros Hfr Hrd Hi Hpl Hpv Hups Hb Hc.
  assert (Hn : Forall nibble_ok [i]) by (by rewrite Forall_singleton).
  assert (Hnew : forall v, lvs = [] -> updates_to version s0 [i] (apply_updates version lvs ups)
    (batch_update_subtree 64 (mkNodeKey v (pack [i])) version ups 1 cache) (stale_ok version s0)).
  { intros v ->. destruct (decide (ups = [])) as [->|Hne].
    - intros b Hu. exists None, b, [], []. split_and!; [done|by apply adds_refl|apply updated_none|constructor].
    - apply (updates_to_weaken _ _ _ _ _ no_stale); [done|].
      apply (bus_spec version cache s0 Hfr 64 [i] v ups); cbn [length] in *; (done || lia). }
  destruct pv as [v|]; [|by apply Hnew]. destruct Hpv as [Hpv Hnone]. unfold shard_at in Hpv.
  destruct (s0 (mkNodeKey v (pack [i]))) as [node|] eqn:En.
  - by apply (insert_spec reader version cache s0 Hfr Hrd 64 [i] v lvs node ups); try (cbn [length]; lia).
  - intros b Hu. destruct (Hnew v Hpv b Hu) as (o & b' & new & st & E & Hrest).
    rewrite insert_at_none by (by apply Hnone). destruct ups as [|u ups]; [|by exists o, b', new, st].
    rewrite apply_nil in *. subst lvs. exists None, b, [], [].
    split_and!; [done|by apply adds_refl|apply updated_none|constructor].
Qed.

Lemma shard_spec reader version cache s0 i lvs kvs pv : fresh version s0 -> reads reader s0 ->
  nibble_ok i -> placed [i] lvs ->
  match pv with Some v => shard_served reader s0 v i lvs | None => lvs = [] end ->
  Forall (fun kv => nib (fst kv) 0 = i) kvs ->
  Z.of_nat (length lvs + length kvs) < U64 -> cache_ok version cache [i] lvs (btree_of kvs) ->
  exists r b, batch_put_value_set_for_shard reader i kvs cache pv version = Ok (shard_node r, b) /\
    cr_index r = i /\ adds TreeUpdateBatch_new b (shard_nodes version r) (cr_stale r) /\
    updated version s0 [i] (update_all version lvs kvs) (cr_node r) (cr_new r) (cr_stale r) /\
    Forall (stale_ok version s0) (cr_stale r).
Proof.
  intros Hfr Hrd Hi Hpl Hpv Hk Hb Hc. unfold batch_put_value_set_for_shard.
  rewrite assert_shard_Ok, obind_Ok, shard_path, obind_Ok by done. cbv zeta.
  assert (Hups : ups_ok [i] (btree_of kvs)).
  { apply btree_ups_ok. eapply Forall_impl; [exact Hk|]. intros kv. cbn. by rewrite starts_one. }
  pose proof (btree_of_length kvs) as Hlen.
  destruct (shard_update reader version cache s0 i lvs (btree_of kvs) pv Hfr Hrd Hi Hpl Hpv Hups ltac:(lia) Hc
    TreeUpdateBatch_new usable_new) as (o & b' & new & st & E & Ha & Hup & Hst).
  rewrite E, obind_Ok. exists (mkCres i o new st). unfold shard_node, shard_nodes.
  cbn [cr_index cr_node cr_new cr_stale]. destruct o as [n|]; cbn [default].
  - destruct (put_node_adds b' (child_node_key version [] i) n) as (b'' & Hput & Ha'); [by destruct Ha|].
    unfold child_node_key in Hput. cbn [app] in Hput. rewrite Hput, obind_Ok. exists b''.
    split_and!; [done|done| |done|done]. rewrite <- (app_nil_r st). by eapply adds_trans.
  - exists b'. rewrite app_nil_r. done.
Qed.

(** ** The top level *)

(** The results of the 16 shards. *)
Definition shard_results version s0 L rs : Prop :=
  map cr_index rs = seqZ 0 16 /\
  forall r, r ∈ rs -> updated version s0 [cr_index r] (group 0 (cr_index r) L) (cr_node r) (cr_new r) (cr_stale r).

Lemma seqZ_sorted m (n : Z) : StronglySorted Z.lt (seqZ m n).
Proof.
  destruct (decide (0 <= n)) as [Hn|Hn]; [|rewrite seqZ_nil by lia; constructor].
  revert m. pattern n. apply natlike_ind; [intros m; rewrite seqZ_nil by lia; constructor| |done].
  intros k Hk IH m. rewrite seqZ_cons by lia. rewrite Z.pred_succ. constructor; [apply IH|].
  apply Forall_forall. intros j Hj. apply elem_of_seqZ in Hj. lia.
Qed.

Lemma shard_results_index version s0 L rs r : shard_results version s0 L rs -> r ∈ rs -> nibble_ok (cr_index r).
Proof.
  intros [E _] Hr. assert (Hi : cr_index r ∈ map cr_index rs) by (by apply list_elem_of_fmap_2).
  rewrite E in Hi. apply elem_of_seqZ in Hi. unfold nibble_ok. lia.
Qed.

Lemma shard_assembly version s0 L rs : fresh version s0 -> shard_results version s0 L rs ->
  assembly version s0 [] L rs [] (new_children version [] L (ents rs)).
Proof.
  intros Hfr Hsr. pose proof Hsr as [E Hup]. apply fresh_assembly.
  - split_and!; [done|constructor|cbn; lia|unfold sorted_by; rewrite E; apply seqZ_sorted| |done].
    apply Forall_forall. intros r Hr. by eapply shard_results_index.
  - intros i Hi _. rewrite E. apply elem_of_seqZ. unfold nibble_ok in Hi. lia.
Qed.

Lemma shard_children_spec version s0 L : fresh version s0 -> forall rs i,
  (exists m, 0 <= i /\ i + m <= 16 /\ map cr_index rs = seqZ i m) ->
  (forall r, r ∈ rs -> updated version s0 [cr_index r] (group 0 (cr_index r) L) (cr_node r) (cr_new r) (cr_stale r)) ->
  shard_children i (map shard_node rs) version = Ok (new_children version [] L (ents rs)).
Proof.
  intros Hfr. induction rs as [|r rs IH]; intros i (m & H0i & H16 & E) Hup; [done|].
  assert (Hm : 0 < m) by (destruct (decide (0 < m)) as [|Hm]; [done|]; rewrite seqZ_nil in E by lia; done).
  rewrite seqZ_cons in E by done. cbn [map] in E. injection E as Ei E.
  assert (IH' : shard_children (i + 1) (map shard_node rs) version = Ok (new_children version [] L (ents rs))).
  { apply IH; [|intros r' Hr'; apply Hup; by right]. exists (Z.pred m). rewrite Z.add_1_r. split_and!; [lia|lia|done]. }
  cbn [map shard_children]. rewrite ents_cons. pose proof (Hup r ltac:(left)) as Hur.
  assert (Esn : shard_node r = default Node_Null (cr_node r)) by done. rewrite Esn. clear Esn.
  destruct (cr_node r) as [n|] eqn:En; [|done]. change (default Node_Null (Some n)) with n.
  destruct (updated_represents _ _ _ _ _ _ _ Hfr Hur) as (s & Hrep).
  pose proof (represents_hash _ _ _ _ Hrep) as Hh. pose proof (represents_type _ _ _ _ Hrep) as Ht.
  assert (Hstep : (index ← nibble_from_u8 (i mod 256);
      hash ← Node_hash n;
      rest ← shard_children (i + 1) (map shard_node rs) version;
      Ok ((index, mkChild hash version (Node_node_type n)) :: rest)) =
      Ok (new_children version [] L ((cr_index r, n) :: ents rs))).
  { rewrite Z.mod_small by lia. rewrite nibble_from_u8_Ok, obind_Ok by (unfold nibble_ok; lia).
    rewrite Hh, obind_Ok, IH', obind_Ok. cbn [new_children map fst snd]. by rewrite Ei. }
  revert Ht Hstep. by destruct (Node_node_type n).
Qed.

Lemma all_shard_nodes version rs : concat (map (shard_nodes version) rs) ≡ₚ all_new version [] rs.
Proof.
  unfold all_new. induction rs as [|r rs IH]; [done|]. cbn [map concat]. rewrite ents_cons, IH. clear IH.
  unfold shard_nodes. destruct (cr_node r) as [n|].
  - cbn [map fst snd]. rewrite <- !app_assoc. apply Permutation_app_head. cbn [app].
    by rewrite Permutation_middle.
  - by rewrite app_nil_r, app_assoc.
Qed.

Definition root_key version : NodeKey := mkNodeKey version (pack []).

Lemma Node_hash_Null : Node_hash (@Node_Null HV K) = Ok (smt_root (@nil (SparseMerkleLeafNode HV))).
Proof. done. Qed.

(** The root over the shards, and its hash. *)
Lemma top_root version s0 L rs : fresh version s0 -> shard_results version s0 L rs ->
  Z.of_nat (length L) < U64 ->
  exists root, (children ← shard_children 0 (map shard_node rs) version;
      (if Children_is_empty children then Ok Node_Null
       else n ← InternalNode_new children; Ok (Node_Internal n))) = Ok root /\
    Node_hash root = Ok (smt_root (sl L)) /\
    new_ok version [] (all_new version [] rs) /\
    forall s, keeps [] s0 (concat (map cr_stale rs)) s -> holds s (all_new version [] rs) ->
      (L = [] /\ root = Node_Null) \/ represents s [] L root.
Proof.
  intros Hfr Hsr Hb. pose proof (shard_assembly version s0 L rs Hfr Hsr) as A. destruct Hsr as [E Hup].
  rewrite (shard_children_spec version s0 L Hfr rs 0) by (done || by exists 16).
  rewrite obind_Ok. pose proof (all_new_ok _ _ _ _ _ _ _ A) as Hok.
  destruct (Children_is_empty (new_children version [] L (ents rs))) eqn:Ec.
  - destruct (new_children version [] L (ents rs)) eqn:En; [|done].
    pose proof (assembly_empty _ _ _ _ _ _ _ A eq_refl) as ->.
    exists Node_Null. split_and!; [done|apply Node_hash_Null|done|]. intros s _ _. by left.
  - destruct (assembly_internal _ _ _ _ _ _ _ A) as (node & Hn & _ & _ & Hr);
      [by destruct (new_children version [] L (ents rs))|by right|done|].
    unfold from_sorted in Hn. rewrite Hn, obind_Ok. exists (Node_Internal node).
    split_and!; [done| |done|].
    + destruct (assembly_store _ _ _ _ _ _ _ A) as (s & He & Hh). specialize (Hr s He Hh).
      apply represents_hash in Hr. cbn [length] in Hr. by rewrite hash_at_root in Hr.
    + intros s He Hh. right. by apply Hr.
Qed.

(** What is stale at the top: the persisted root. *)
Definition stale_root pv version : list StaleNodeIndex :=
  match pv with Some v => [mkStaleNodeIndex version (root_key v)] | None => [] end.

Lemma top_spec version s0 L rs pv : fresh version s0 -> shard_results version s0 L rs ->
  NoDup (map account_key L) -> Z.of_nat (length L) < U64 ->
  exists root b, put_top_levels_nodes (map shard_node rs) pv version = Ok (smt_root (sl L), b) /\
    adds TreeUpdateBatch_new b [(root_key version, root)] (stale_root pv version) /\
    new_ok version [] (all_new version [] rs) /\
    forall s, keeps [] s0 (concat (map cr_stale rs) ++ stale_root pv version) s ->
      holds s (all_new version [] rs ++ [(root_key version, root)]) -> tree_at s version L.
Proof.
  intros Hfr Hsr Hnd Hb. unfold put_top_levels_nodes.
  assert (Hlen : length (map shard_node rs) = 16%nat).
  { rewrite length_map. destruct Hsr as [E _]. apply (f_equal length) in E. by rewrite length_map in E. }
  rewrite Hlen. cbn [ensure]. change (Z.of_nat 16 =? 16) with true. cbn [ensure]. rewrite obind_Ok.
  destruct (top_root version s0 L rs Hfr Hsr Hb) as (root & Eroot & Hhash & Hok & Hrep).
  destruct (shard_children 0 (map shard_node rs) version) as [children| |]; [|done..].
  rewrite obind_Ok in *. rewrite obind_Ok in Eroot. rewrite Eroot, obind_Ok, Hhash, obind_Ok. cbv zeta.
  exists root.
  assert (Hst : exists b0, match pv with
      | Some v => k ← new_empty_path v; put_stale_node (@TreeUpdateBatch_new HV K) k version
      | None => Ok TreeUpdateBatch_new end = Ok b0 /\ adds TreeUpdateBatch_new b0 [] (stale_root pv version)).
  { destruct pv as [v|].
    - rewrite new_empty_path_pack, obind_Ok.
      destruct (put_stale_adds (@TreeUpdateBatch_new HV K) (root_key v) version usable_new) as (b0 & E & Ha). eauto.
    - eexists. split; [done|]. apply adds_refl, usable_new. }
  destruct Hst as (b0 & -> & Ha0). rewrite obind_Ok, new_empty_path_pack, obind_Ok.
  destruct (put_node_adds b0 (root_key version) root) as (b1 & Hput & Ha1); [by destruct Ha0|].
  unfold root_key in Hput. rewrite Hput, obind_Ok. exists b1. split_and!; [done| |done|].
  { rewrite <- (app_nil_r (stale_root pv version)). apply (adds_trans _ b0 b1 [] _ _ []); done. }
  intros s Hkeep Hh. split; [done|]. exists root. split; [apply Hh, elem_of_app; right; left|].
  (* put the old roots back; nothing is below another root *)
  set (s' := fun k => if decide (unpack (nk_nibble_path k) = [] /\ nk_version k <> version) then s0 k else s k).
  assert (Hs' : (L = [] /\ root = Node_Null) \/ represents s' [] L root).
  { apply Hrep.
    - intros k n Hk Hbel Hns. unfold s'. case_decide as Ed; [done|]. apply Hkeep; [done|done|].
      rewrite map_app. intros Hin. apply elem_of_app in Hin as [|Hin]; [done|]. destruct pv as [v|]; cbn [stale_root map] in Hin.
      + apply list_elem_of_singleton in Hin as ->. apply Ed. split; [done|]. by apply (Hfr _ n).
      + by apply not_elem_of_nil in Hin.
    - intros k n Hin. unfold s'. destruct Hok as [_ Hbel]. destruct (Hbel _ _ Hin) as [Ev _].
      rewrite decide_False by (intros [_ ?]; done). apply Hh, elem_of_app. by left. }
  destruct Hs' as [|Hs']; [by left|right]. apply (represents_local s'); [done|constructor|].
  intros k m Hk (q & Hq & E). unfold s' in Hk. rewrite decide_False in Hk; [done|]. intros [E' _].
  rewrite E' in E. by destruct q.
Qed.

(** ** All shards *)
Lemma group_update version i lvs kvs :
  group 0 i (update_all version lvs kvs) =
  update_all version (group 0 i lvs) (filter (fun kv => nib (fst kv) 0 = i) kvs).
Proof.
  unfold update_all. rewrite group_apply. f_equal. symmetry.
  exact (btree_of_filter (V := option (HV * K)) (fun k : HV => nib k 0 = i) kvs).
Qed.

(** The cache of a shard is about its leaves and updates only. *)
Lemma cache_ok_shard version cache i lvs kvs : cache_ok version cache [i] lvs (btree_of kvs) ->
  cache_ok version cache [i] (group 0 i lvs) (btree_of (filter (fun kv => nib (fst kv) 0 = i) kvs)).
Proof.
  intros Hc. destruct cache as [m|]; [|done]. intros q j Hq Hj Hlen Hw. cbv zeta.
  assert (Eu : apply_updates version (group 0 i lvs) (btree_of (filter (fun kv => nib (fst kv) 0 = i) kvs)) =
    group 0 i (apply_updates version lvs (btree_of kvs))) by (symmetry; apply group_update).
  assert (Eg : forall l (L : list (LeafNode HV K)), under (([i] ++ l)) (group 0 i L) = under ([i] ++ l) L)
    by (intros l L; apply (under_group [] i l); cbn; lia).
  unfold writes in Hw. rewrite Eu, !Eg in Hw. rewrite Eu. change (([i] ++ q) ++ [j]) with ([i] ++ (q ++ [j])). rewrite Eg.
  apply (Hc q j Hq Hj Hlen). split; [by destruct Hw|]. destruct Hw as [_ [(kv & Hkv & Hs)|Hle]]; [left|by right].
  exists kv. split; [|done]. pose proof (btree_of_filter (V := option (HV * K)) (fun k : HV => nib k 0 = i) kvs) as Ef.
  cbn beta in Ef. rewrite Ef in Hkv. by apply list_elem_of_filter in Hkv as [_ ?].
Qed.

Lemma shard_filter i kvs :
  List.filter (fun kv => nibble (fst kv) 0 =? i) kvs = filter (fun kv => nib (fst kv) 0 = i) kvs.
Proof.
  induction kvs as [|kv kvs IH]; [done|]. cbn [List.filter]. rewrite filter_cons, IH, nibble_0.
  case_decide as E; [by rewrite (proj2 (Z.eqb_eq _ _) E)|by rewrite (proj2 (Z.eqb_neq _ _) E)].
Qed.

Lemma shard_placed i lvs : NoDup (map account_key lvs) -> placed [i] (group 0 i lvs).
Proof.
  intros Hnd. apply (group_placed [] i lvs); [cbn; lia|]. split; [done|]. by apply Forall_forall.
Qed.

(** Shard [i] is put on its version [pvs i], with the cached hashes [caches i]. *)
Fixpoint put_shards_at (reader : TreeReader HV K) kvs version (pvs : Z -> option Version)
    (caches : Z -> option (gmap NibblePath HV)) (shards : list Z) b
  : outcome (list (Node HV K) * TreeUpdateBatch HV K) :=
  match shards with
  | [] => Ok ([], b)
  | i :: shards =>
      r ← batch_put_value_set_for_shard reader i (filter (fun kv => nib (fst kv) 0 = i) kvs) (caches i) (pvs i) version;
      r' ← put_shards_at reader kvs version pvs caches shards (TreeUpdateBatch_combine b (snd r));
      Ok (fst r :: fst r', snd r')
  end.

(** All shards and the top level, whose root is at version [base]. *)
Definition put_at (reader : TreeReader HV K) kvs version base pvs caches : outcome (HV * TreeUpdateBatch HV K) :=
  r ← put_shards_at reader kvs version pvs caches (seqZ 0 16) TreeUpdateBatch_new;
  r' ← put_top_levels_nodes (fst r) base version;
  Ok (fst r', TreeUpdateBatch_combine (snd r) (snd r')).

Definition before version : option Version := if 1 <=? version then Some (version - 1) else None.

Lemma put_test_at (reader : TreeReader HV K) kvs version :
  put_value_set_test reader kvs version =
  put_at reader kvs version (before version) (fun _ => before version) (fun _ => None).
Proof.
  assert (E : forall shards b, put_shards reader kvs version shards b =
    put_shards_at reader kvs version (fun _ => before version) (fun _ => None) shards b).
  { induction shards as [|i shards IH]; intros b; [done|]. cbn [put_shards put_shards_at]. rewrite shard_filter.
    fold (before version). destruct (batch_put_value_set_for_shard _ _ _ _ _ _) as [[n b1]| |]; [|done..].
    rewrite !obind_Ok, IH. cbn [snd]. by destruct (put_shards_at _ _ _ _ _ _ _) as [[ns b2]| |]. }
  unfold put_value_set_test, put_at. rewrite E. fold (before version).
  destruct (put_shards_at _ _ _ _ _ _ _) as [[ns b1]| |]; [|done..]. rewrite !obind_Ok. cbn [fst snd].
  by destruct (put_top_levels_nodes ns (before version) version) as [[h b2]| |].
Qed.

Section Shards.
Variables (reader : TreeReader HV K) (version : Version) (s0 : @store HV K) (lvs : list (LeafNode HV K))
  (kvs : list (HV * option (HV * K))) (pvs : Z -> option Version) (caches : Z -> option (gmap NibblePath HV)).
Hypothesis Hfresh : fresh version s0.
Hypothesis Hreads : reads reader s0.
Hypothesis Hnodup : NoDup (map account_key lvs).
Hypothesis Hbound : Z.of_nat (length lvs + length kvs) < U64.

(** The store has the leaves of every shard at its persisted version. *)
Definition persisted : Prop := forall i, nibble_ok i ->
  match pvs i with
  | Some v => shard_served reader s0 v i (group 0 i lvs)
  | None => group 0 i lvs = []
  end.

(** The cached hashes of a shard are those of the nodes that the updates write. *)
Definition caches_ok : Prop := forall i, nibble_ok i -> cache_ok version (caches i) [i] lvs (btree_of kvs).

Hypothesis Hpersisted : persisted.
Hypothesis Hcaches : caches_ok.

Lemma shard_put i : nibble_ok i ->
  exists r b, batch_put_value_set_for_shard reader i (filter (fun kv => nib (fst kv) 0 = i) kvs) (caches i) (pvs i) version =
      Ok (shard_node r, b) /\
    cr_index r = i /\ adds TreeUpdateBatch_new b (shard_nodes version r) (cr_stale r) /\
    updated version s0 [i] (group 0 i (update_all version lvs kvs)) (cr_node r) (cr_new r) (cr_stale r) /\
    Forall (stale_ok version s0) (cr_stale r).
Proof.
  intros Hi. pose proof (length_filter (fun kv => nib (fst kv) 0 = i) kvs) as Hlf.
  pose proof (length_filter (fun x => nib (account_key x) 0 = i) lvs) as Hlg. fold (group 0 i lvs) in Hlg.
  rewrite group_update.
  apply (shard_spec reader version (caches i) s0 i (group 0 i lvs) (filter (fun kv => nib (fst kv) 0 = i) kvs) (pvs i));
    [done|done|done|by apply shard_placed|by apply Hpersisted| |lia|].
  - apply Forall_forall. intros kv Hkv. by apply list_elem_of_filter in Hkv as [? _].
  - by apply cache_ok_shard, Hcaches.
Qed.

Lemma put_shards_spec : forall shards b, Forall nibble_ok shards -> usable b ->
  exists rs b', put_shards_at reader kvs version pvs caches shards b = Ok (map shard_node rs, b') /\
    map cr_index rs = shards /\
    adds b b' (concat (map (shard_nodes version) rs)) (concat (map cr_stale rs)) /\
    (forall r, r ∈ rs -> updated version s0 [cr_index r] (group 0 (cr_index r) (update_all version lvs kvs))
       (cr_node r) (cr_new r) (cr_stale r)) /\
    Forall (stale_ok version s0) (concat (map cr_stale rs)).
Proof.
  induction shards as [|i shards IH]; intros b Hs Hu.
  - exists [], b. split_and!; [done|done|by apply adds_refl| |constructor]. intros r Hr. by apply not_elem_of_nil in Hr.
  - apply Forall_cons in Hs as [Hi Hs]. cbn [put_shards_at].
    destruct (shard_put i Hi) as (r & b1 & E & Er & Ha & Hup & Hst).
    rewrite E, obind_Ok. cbn [fst snd]. pose proof (combine_adds b b1 _ _ Hu Ha) as Hc.
    destruct (IH (TreeUpdateBatch_combine b b1) Hs) as (rs & b' & -> & Ei & Ha' & Hup' & Hst'); [by destruct Hc|].
    rewrite obind_Ok. exists (r :: rs), b'. cbn [map concat].
    split_and!; [done|by rewrite Er, Ei|by eapply adds_trans| |by apply Forall_app].
    intros r' Hr'. apply elem_of_cons in Hr' as [->|Hr']; [|by apply Hup']. by rewrite Er.
Qed.
End Shards.

(** ** Writing a batch, pruning *)
Definition write_batch s0 b : store := overlay s0 (nodes_of b).
Definition prune s st : store := fun k => if decide (k ∈ map stale_node_key st) then None else s k.

(** A tree whose 16 shard roots all have the version of the root. *)
Definition sharded_at s (v : Version) lvs : Prop :=
  tree_at s v lvs /\ forall i, nibble_ok i -> shard_at s v i (group 0 i lvs).

Lemma write_batch_perm s0 b new : NoDup (map fst new) -> nodes_of b ≡ₚ new ->
  forall k, write_batch s0 b k = overlay s0 new k.
Proof.
  intros Hnd Hp k. unfold write_batch, overlay.
  by rewrite (list_to_map_proper (M := gmap NodeKey) (nodes_of b) new); [|by rewrite Hp|].
Qed.

Section Written.
Variables (version : Version) (s0 : @store HV K) (L : list (LeafNode HV K)) (rs : list (@cres HV K))
  (pv : option Version) (root : Node HV K) (b : TreeUpdateBatch HV K).
Hypothesis Hfresh : fresh version s0.
Hypothesis Hsr : shard_results version s0 L rs.
Hypothesis Hnodes : nodes_of b ≡ₚ all_new version [] rs ++ [(root_key version, root)].
Hypothesis Hok : new_ok version [] (all_new version [] rs).

Lemma root_not_below : root_key version ∉ map fst (all_new version [] rs).
Proof.
  intros Hin. apply list_elem_of_fmap in Hin as ([k n] & E & Hin). cbn [fst] in E. subst k.
  destruct Hok as [_ Hb]. destruct (Hb _ _ Hin) as (_ & q & Hq & Hn & _ & E). cbn [app root_key nk_nibble_path] in E.
  apply (f_equal unpack) in E. rewrite !unpack_pack in E by (done || constructor). by subst q.
Qed.

Lemma written_NoDup : NoDup (map fst (all_new version [] rs ++ [(root_key version, root)])).
Proof.
  rewrite map_app. apply NoDup_app. split_and!; [apply Hok| |apply NoDup_singleton].
  intros k Hk Hk'. apply list_elem_of_singleton in Hk' as ->. by apply root_not_below.
Qed.

Lemma written_version k n : (k, n) ∈ all_new version [] rs ++ [(root_key version, root)] -> nk_version k = version.
Proof.
  intros Hin. apply elem_of_app in Hin as [Hin|Hin]; [by apply Hok in Hin as [? _]|].
  by apply list_elem_of_singleton in Hin as [= -> _].
Qed.

Lemma written_holds : holds (write_batch s0 b) (all_new version [] rs ++ [(root_key version, root)]).
Proof.
  intros k n Hin. rewrite (write_batch_perm _ _ _ written_NoDup Hnodes). by apply overlay_holds; [apply written_NoDup|].
Qed.

Lemma written_extends : extends s0 (write_batch s0 b).
Proof.
  intros k n Hk. rewrite (write_batch_perm _ _ _ written_NoDup Hnodes).
  apply (overlay_extends version); [done|by apply written_version|done].
Qed.

(** Nothing else has the new version. *)
Lemma written_new k m : write_batch s0 b k = Some m -> nk_version k = version ->
  (k, m) ∈ all_new version [] rs ++ [(root_key version, root)].
Proof.
  intros Em Ev. rewrite (write_batch_perm _ _ _ written_NoDup Hnodes) in Em. unfold overlay in Em.
  destruct (list_to_map _ !! _) as [m'|] eqn:El; [|by apply Hfresh in Em].
  injection Em as ->. by apply elem_of_list_to_map_2.
Qed.

(** The shard roots of the new version, in any store with the new nodes and the old
    ones that are not stale. *)
Lemma written_shard s i : nibble_ok i -> keeps [i] s0 (concat (map cr_stale rs)) s ->
  holds s (all_new version [] rs) -> (forall k m, s k = Some m -> write_batch s0 b k = Some m) ->
  shard_at s version i (group 0 i L).
Proof.
  intros Hi Hkeep Hh Hsub. pose proof (shard_assembly version s0 L rs Hfresh Hsr) as A. destruct Hsr as [E Hup].
  assert (Hin : i ∈ map cr_index rs) by (rewrite E; apply elem_of_seqZ; unfold nibble_ok in Hi; lia).
  apply list_elem_of_fmap in Hin as (r & -> & Hr). pose proof (Hup r Hr) as (_ & _ & Hu). unfold shard_at.
  destruct (cr_node r) as [n|] eqn:En.
  - assert (Hk : s (child_node_key version [] (cr_index r)) = Some n).
    { apply Hh. unfold all_new. apply elem_of_app. right.
      apply (list_elem_of_fmap_2 (fun y => (child_node_key version [] (fst y), snd y)) _ (cr_index r, n)).
      apply ents_elem. eauto. }
    unfold child_node_key in Hk. cbn [app] in Hk. rewrite Hk. apply Hu.
    + intros k m Hm Hbel Hns. apply Hkeep; [done|done|]. intros Hin'.
      destruct (all_stale_child _ _ _ _ _ _ _ A (cr_index r) k Hbel Hin') as (r' & Hr' & Ei & Hk').
      by rewrite (result_unique _ _ _ _ _ _ _ A r' r Hr' Hr Ei) in Hk'.
    + intros k m Hkm. apply Hh. unfold all_new. apply elem_of_app. left. apply list_elem_of_In, in_concat.
      exists (cr_new r). split; [by apply list_elem_of_In, list_elem_of_fmap_2|by apply list_elem_of_In].
  - destruct (s (mkNodeKey version (pack [cr_index r]))) as [m|] eqn:Em; [|done]. exfalso.
    apply Hsub, written_new in Em as El; [|done]. apply elem_of_app in El as [El|El].
    + unfold all_new in El. apply elem_of_app in El as [El|El].
      * destruct (all_news_ok version [] rs (as_sorted _ _ _ _ _ _ _ A)) as [_ Hb].
        { intros r' Hr'. apply (as_updated _ _ _ _ _ _ _ A r' Hr'). }
        apply Hb in El as (r' & _ & Hbl). apply below_child in Hbl as (_ & _ & Hlen).
        cbn [nk_nibble_path] in Hlen. rewrite unpack_pack in Hlen by (by rewrite Forall_singleton). cbn in Hlen. lia.
      * apply list_elem_of_fmap in El as ([j n] & E' & Hj). apply (f_equal (fun z => unpack (nk_nibble_path (fst z)))) in E'.
        cbn [fst child_node_key nk_nibble_path] in E'.
        apply ents_elem in Hj as (r' & Hr' & Ej & En').
        pose proof (shard_results_index _ _ _ _ r' Hsr Hr') as Hj. rewrite Ej in Hj.
        rewrite !unpack_pack in E' by (cbn [app]; by rewrite Forall_singleton).
        cbn [app] in E'. injection E' as E'. rewrite <- Ej in E'.
        rewrite (result_unique _ _ _ _ _ _ _ A r r' Hr Hr' E') in En. congruence.
    + apply list_elem_of_singleton, (f_equal (fun z => unpack (nk_nibble_path (fst z)))) in El.
      cbn [fst root_key nk_nibble_path] in El.
      rewrite !unpack_pack in El by (done || constructor || by rewrite Forall_singleton). done.
Qed.
End Written.

(** ** Putting a version *)

(** What the reader and the part [s0] of its store have before version [version] is
    put on the root at [base] and the shards at [pvs]. *)
Definition ready (reader : TreeReader HV K) s0 version base pvs lvs : Prop :=
  reads reader s0 /\ fresh version s0 /\ NoDup (map account_key lvs) /\
  match base with Some v => exists n, s0 (root_key v) = Some n | None => True end /\
  persisted reader s0 lvs pvs.

Lemma commit_spec reader s0 version base pvs caches lvs kvs : ready reader s0 version base pvs lvs ->
  caches_ok version lvs kvs caches -> Z.of_nat (length lvs + length kvs) < U64 ->
  exists b, put_at reader kvs version base pvs caches = Ok (smt_root (sl (update_all version lvs kvs)), b) /\
    NoDup (map fst (nodes_of b)) /\ (forall k n, (k, n) ∈ nodes_of b -> nk_version k = version) /\
    Forall (stale_ok version s0) (stale_of b) /\ extends s0 (write_batch s0 b) /\
    sharded_at (write_batch s0 b) version (update_all version lvs kvs) /\
    sharded_at (prune (write_batch s0 b) (stale_of b)) version (update_all version lvs kvs).
Proof.
  intros (Hrd & Hfr & Hnd & Hpre & Hper) Hcaches Hb. set (L := update_all version lvs kvs). unfold put_at.
  destruct (put_shards_spec reader version s0 lvs kvs pvs caches Hfr Hrd Hnd Hb Hper Hcaches (seqZ 0 16) TreeUpdateBatch_new)
    as (rs & b1 & -> & Ei & Ha1 & Hup & Hst); [|apply usable_new|].
  { apply Forall_forall. intros i Hi. apply elem_of_seqZ in Hi. unfold nibble_ok. lia. }
  rewrite obind_Ok. assert (Hsr : shard_results version s0 L rs) by (by split).
  assert (HndL : NoDup (map account_key L)).
  { apply apply_NoDup; [done|]. apply ups_NoDup. apply (btree_of_spec kvs). }
  destruct (top_spec version s0 L rs base Hfr Hsr HndL) as (root & b2 & E & Ha2 & Hok & Htree).
  { pose proof (apply_length version lvs (btree_of kvs)). pose proof (btree_of_length kvs). unfold L, update_all. lia. }
  cbn [fst snd]. rewrite E, obind_Ok. cbn [fst snd]. set (b := TreeUpdateBatch_combine b1 b2). exists b.
  pose proof (combine_adds b1 b2 _ _ ltac:(by destruct Ha1) Ha2) as Hc. fold b in Hc.
  pose proof (adds_trans _ _ _ _ _ _ _ Ha1 Hc) as (_ & Hnodes & Hstale). rewrite all_shard_nodes in Hnodes.
  change (nodes_of (@TreeUpdateBatch_new HV K)) with (@nil (NodeKey * Node HV K)) in Hnodes.
  change (stale_of (@TreeUpdateBatch_new HV K)) with (@nil StaleNodeIndex) in Hstale. cbn [app] in Hnodes, Hstale.
  assert (Hstok : Forall (stale_ok version s0) (stale_of b)).
  { rewrite Hstale. apply Forall_app. split; [done|]. unfold stale_root. destruct base as [v|]; [|constructor].
    rewrite Forall_singleton. by split. }
  pose proof (written_holds version s0 rs root b Hnodes Hok) as Hh.
  pose proof (written_extends version s0 rs root b Hfr Hnodes Hok) as He.
  assert (Hsh : forall s, keeps [] s0 (stale_of b) s -> holds s (all_new version [] rs ++ [(root_key version, root)]) ->
    (forall k m, s k = Some m -> write_batch s0 b k = Some m) -> sharded_at s version L).
  { intros s Hk Hhs Hsub. split; [apply Htree; [intros k n Hk'; rewrite <- Hstale; by apply Hk|done]|].
    intros i Hi. apply (written_shard version s0 L rs root b); try done.
    - intros k n Hk' [q Hq] Hns. apply Hk; [done|by eexists|]. rewrite Hstale, map_app. intros Hin.
      apply elem_of_app in Hin as [|Hin]; [done|]. unfold stale_root in Hin. destruct base as [v|].
      + apply list_elem_of_singleton in Hin as ->. done.
      + by apply not_elem_of_nil in Hin.
    - intros k n Hin. apply Hhs, elem_of_app. by left. }
  split_and!; [done| | |done|done| |].
  - change (NoDup (fst <$> nodes_of b)). rewrite Hnodes. by apply written_NoDup.
  - intros k n Hin. rewrite Hnodes in Hin. by eapply written_version.
  - apply Hsh; [by apply extends_keeps|done|done].
  - assert (Hpr : forall k n, write_batch s0 b k = Some n -> k ∉ map stale_node_key (stale_of b) ->
      prune (write_batch s0 b) (stale_of b) k = Some n).
    { intros k n Hk Hns. unfold prune. by rewrite decide_False. }
    apply Hsh.
    + intros k n Hk _ Hns. apply Hpr; [by apply He|done].
    + intros k n Hin. apply Hpr; [by apply Hh|]. intros Hs. apply list_elem_of_fmap in Hs as (e & -> & He').
      rewrite Forall_forall in Hstok. destruct (Hstok e He') as [_ [m Hm]].
      apply (written_version version rs root Hok) in Hin. by apply Hfr in Hm.
    + intros k m Hk. unfold prune in Hk. by case_decide.
Qed.
End Commit.
