(* ===== verification/JellyfishHistory.v ===== *)
(** * The versions of a tree over time

    A store in which versions are put one after the other while stale nodes are
    deleted: every version that is not older than the pruned ones stays intact. *)
From stdpp Require Import base list numbers strings option gmap sorting.
From Stdlib Require Import ZArith Lia Bool Sorted.
From S2P Require Import Prelude Hash SparseMerkleProof SparseSpec SparseFacts NibblePath NibblePathFacts ByteCodec JellyfishNode JellyfishNodeFacts JellyfishHash JellyfishSpec JellyfishTree JellyfishRead JellyfishRuns JellyfishBatch JellyfishUpdate JellyfishInsert JellyfishCommit.

Section History.
Context {HV : Type} `{HashValueOps HV} `{HashValueBits HV} `{!HashValueLaws HV} `{CryptoHasher HV}
  `{LeafHasher HV} `{HashValueKeys HV} `{!HashValueKeysLaws HV} `{Itertools} `{!ItertoolsLaws} {K : Type}.
Implicit Types (lvs L : list (LeafNode HV K)) (version v m : Z) (b : TreeUpdateBatch HV K)
  (st : list StaleNodeIndex) (s : @store HV K) (kvs : list (HV * option (HV * K))).

(** A reader of a store. *)
Definition reader_of s : TreeReader HV K := mkTreeReader (fun k _ => Ok (s k)) (fun _ => Ok None).

Lemma reads_of s : reads (reader_of s) s.
Proof. intros k tag n Hn. cbn. by rewrite Hn. Qed.

(** A reader that sees a store: its nodes, and that the root of a shard is missing. *)
Definition sees (reader : TreeReader HV K) s : Prop := reads reader s /\
  forall v i tag, nibble_ok i -> s (mkNodeKey v (pack [i])) = None ->
    get_node_option reader (mkNodeKey v (pack [i])) tag = Ok None.

Lemma sees_of s : sees (reader_of s) s.
Proof. split; [apply reads_of|]. intros v i tag _ E. cbn. by rewrite E. Qed.

(** [get_shard_persisted_versions] finds the versions of the shard roots. *)
Lemma persisted_versions_found reader s v lvs cs c : reads reader s ->
  s (root_key v) = Some (Node_Internal (mkInternalNode cs c)) ->
  represents s [] lvs (Node_Internal (mkInternalNode cs c)) ->
  exists pvs, get_shard_persisted_versions reader (Some v) = Ok pvs /\ length pvs = 16%nat /\
    forall i pv, pvs !! i = Some pv ->
      match pv with
      | Some w => exists node, s (mkNodeKey w (pack [Z.of_nat i])) = Some node /\
          represents s [Z.of_nat i] (group 0 (Z.of_nat i) lvs) node
      | None => group 0 (Z.of_nat i) lvs = []
      end.
Proof.
  intros Hrd Hs Hrep. unfold get_shard_persisted_versions. rewrite new_empty_path_pack, obind_Ok. unfold root_key in Hs.
  rewrite (reads_node _ s _ _ _ Hrd Hs), obind_Ok.
  pose proof Hrep as Hrep'. inversion Hrep' as [|p lvs' cs' sub _ _ Hst _ _ _]; subst. cbn [length] in Hst.
  pose proof Hst as ([Hcs _] & Hcov & _).
  set (f := fun i : Z => option_map child_version (assoc i cs)).
  assert (Hm : forall l, Forall nibble_ok l -> mapM (fun shard_id =>
      nibble ← nibble_from_u8 shard_id;
      c0 ← InternalNode_child (mkInternalNode cs (Z.of_nat (length lvs))) nibble;
      Ok (option_map child_version c0)) l = Ok (map f l)).
  { induction 1 as [|i l Hi _ IH]; [done|]. cbn [mapM]. rewrite nibble_from_u8_Ok, obind_Ok by done.
    rewrite IH. unfold InternalNode_child. cbn [in_children]. by rewrite Children_get_assoc, !obind_Ok by done. }
  exists (map f (seqZ 0 16)). split_and!; [apply Hm|done|].
  - apply Forall_forall. intros i Hi. apply elem_of_seqZ in Hi. unfold nibble_ok. lia.
  - intros i pv Hi. change (map f ?l) with (f <$> l) in Hi. apply list_lookup_fmap_Some in Hi as (j & -> & Hj).
    apply lookup_seqZ in Hj as [-> Hj]. rewrite Z.add_0_l in *. unfold f.
    destruct (assoc (Z.of_nat i) cs) as [ch|] eqn:Ea; cbn [option_map].
    + apply assoc_elem_of in Ea. destruct (represents_child _ _ _ _ _ _ _ Hrep Ea) as (sub' & Hs' & Hr' & _).
      exists sub'. split; [exact Hs'|exact Hr'].
    + destruct (group 0 (Z.of_nat i) lvs) eqn:Eg; [done|].
      destruct (proj2 (Hcov (Z.of_nat i) ltac:(unfold nibble_ok; lia))) as [ch Hin]; [by rewrite Eg|].
      by rewrite (assoc_sorted _ _ _ Hcs Hin) in Ea.
Qed.

(** The nodes, the stale index, the versions put so far with their leaves, and the
    entries of the stale index that were deleted with their nodes. *)
Record tree_db := mkTreeDb {
  td_nodes : @store HV K;
  td_stale : list StaleNodeIndex;
  td_versions : list (Version * list (LeafNode HV K));
  td_pruned : list StaleNodeIndex;
}.
Implicit Types (db : tree_db).

Definition last_version db : option Version := fst <$> list.last (td_versions db).
Definition latest db : list (LeafNode HV K) := default [] (snd <$> list.last (td_versions db)).

(** The first version that can be put. *)
Definition next_version db : Z := match last_version db with Some v => v + 1 | None => 0 end.

(** The versions of the shards a put is based on: those found at the root, or the
    version of the root for all of them. *)
Definition shards_based (reader : TreeReader HV K) (base : option Version) (pvs : Z -> option Version) : Prop :=
  (forall i, nibble_ok i -> pvs i = base) \/
  exists l, get_shard_persisted_versions reader base = Ok l /\ forall i, nibble_ok i -> l !! Z.to_nat i = Some (pvs i).

(** The next database: the nodes and the stale index of the batch are written. *)
Definition put_db db version kvs b : tree_db :=
  mkTreeDb (write_batch (td_nodes db) b) (td_stale db ++ stale_of b)
    (td_versions db ++ [(version, update_all version (latest db) kvs)]) (td_pruned db).

(** A version is kept when no node was deleted that it has: one that is not newer and
    that became stale later. *)
Definition kept db v : Prop :=
  Forall (fun e => stale_since_version e <= v \/ v < nk_version (stale_node_key e)) (td_pruned db).

(** Steps: a version is put on the last one, with its nodes and its stale index written
    to the database; or some of the entries of the stale index are deleted, each with its
    node. *)
Inductive db_step : tree_db -> tree_db -> Prop :=
| step_put db reader kvs version pvs caches root b :
    Z.of_nat (length (latest db) + length kvs) < U64 -> sees reader (td_nodes db) ->
    next_version db <= version -> shards_based reader (last_version db) pvs ->
    caches_ok version (latest db) kvs caches ->
    put_at reader kvs version (last_version db) pvs caches = Ok (root, b) ->
    db_step db (put_db db version kvs b)
| step_prune db st rest :
    td_stale db ≡ₚ st ++ rest ->
    db_step db (mkTreeDb (prune (td_nodes db) st) rest (td_versions db) (td_pruned db ++ st)).

Inductive db_reachable : tree_db -> Prop :=
| reach_empty : db_reachable (mkTreeDb (fun _ => None) [] [] [])
| reach_step db db' : db_reachable db -> db_step db db' -> db_reachable db'.

(** ** The invariant *)
Definition stale_by v st : list StaleNodeIndex := filter (fun e => stale_since_version e <= v) st.

(** The nodes up to version [v]. *)
Definition upto v s : store := fun k => if decide (nk_version k <= v) then s k else None.

Record db_inv db : Prop := {
  inv_nonneg : 0 <= next_version db;
  inv_below : forall v lvs, (v, lvs) ∈ td_versions db -> 0 <= v < next_version db;
  inv_versions : forall k n, td_nodes db k = Some n -> 0 <= nk_version k < next_version db;
  inv_stale : Forall (fun e => nk_version (stale_node_key e) < stale_since_version e < next_version db)
    (td_stale db);
  inv_pruned : Forall (fun e => stale_since_version e < next_version db) (td_pruned db);
  inv_trees : forall v lvs, (v, lvs) ∈ td_versions db -> kept db v ->
    tree_at (prune (upto v (td_nodes db)) (stale_by v (td_stale db))) v lvs;
  inv_latest : forall v, last_version db = Some v ->
    NoDup (map account_key (latest db)) /\
    tree_at (prune (td_nodes db) (td_stale db)) v (latest db) /\
    forall i, nibble_ok i -> shard_at (prune (td_nodes db) (td_stale db)) v i (group 0 i (latest db));
}.

Lemma latest_none db : last_version db = None -> latest db = [].
Proof. unfold last_version, latest. by destruct (list.last (td_versions db)) as [[]|]. Qed.

Lemma last_version_put db version kvs b : last_version (put_db db version kvs b) = Some version /\
  latest (put_db db version kvs b) = update_all version (latest db) kvs /\
  next_version (put_db db version kvs b) = version + 1.
Proof. unfold next_version, last_version, latest. cbn [put_db td_versions]. by rewrite last_snoc. Qed.

Lemma prune_Some s st k n : prune s st k = Some n <-> s k = Some n /\ k ∉ map stale_node_key st.
Proof. unfold prune. case_decide; naive_solver. Qed.

Lemma upto_Some v s k n : upto v s k = Some n <-> s k = Some n /\ nk_version k <= v.
Proof. unfold upto. case_decide; naive_solver. Qed.

Lemma tree_at_mono s s' v lvs : extends s s' -> tree_at s v lvs -> tree_at s' v lvs.
Proof.
  intros He (Hnd & node & Hn & Hr). split; [done|]. exists node. split; [by apply He|].
  destruct Hr as [|Hr]; [by left|right]. by eapply represents_mono.
Qed.

Lemma stale_by_elem v st k : k ∈ map stale_node_key (stale_by v st) -> k ∈ map stale_node_key st.
Proof.
  intros Hin. apply list_elem_of_fmap in Hin as (e & -> & He). apply list_elem_of_filter in He as [_ He].
  by apply list_elem_of_fmap_2.
Qed.

(** What is stale now was not stored under the next version. *)
Lemma inv_fresh db s : db_inv db -> (forall k n, s k = Some n -> td_nodes db k = Some n) ->
  fresh (next_version db) s.
Proof. intros Hi Hs k n Hk. apply Hs, (inv_versions _ Hi) in Hk. lia. Qed.

(** The shards of the last version, where a put finds them. *)
Lemma inv_persisted db reader pvs : db_inv db -> sees reader (td_nodes db) ->
  shards_based reader (last_version db) pvs -> persisted reader (prune (td_nodes db) (td_stale db)) (latest db) pvs.
Proof.
  intros Hi [Hrd Hmiss] Hpvs. set (s1 := prune (td_nodes db) (td_stale db)).
  assert (Hserve : reads reader s1) by (intros k tag n Hk; apply prune_Some in Hk as [Hk _]; by apply Hrd).
  destruct (last_version db) as [v|] eqn:Ev.
  2:{ intros i Hni. rewrite (latest_none db Ev). destruct Hpvs as [Hpvs|(l & El & Hl)]; [by rewrite Hpvs|].
      assert (l = replicate 16 None) as -> by (change (Ok (replicate 16 (@None Version)) = Ok l) in El; congruence).
      specialize (Hl i Hni). apply lookup_replicate in Hl as [-> _]. done. }
  destruct (inv_latest _ Hi v Ev) as (_ & (_ & node & Hroot & Hrep) & Hsh).
  destruct Hpvs as [Hpvs|(l & El & Hl)].
  - intros i Hni. rewrite (Hpvs i Hni). split; [by apply Hsh|]. intros Hnone. apply Hmiss; [done|].
    destruct (td_nodes db (mkNodeKey v (pack [i]))) as [n|] eqn:En; [|done].
    exfalso. unfold s1, prune in Hnone. case_decide as Hin; [|congruence].
    apply list_elem_of_fmap in Hin as (e & Ee & He). pose proof (inv_stale _ Hi) as Hst.
    rewrite Forall_forall in Hst. specialize (Hst e He). rewrite <- Ee in Hst. cbn [nk_version] in Hst.
    unfold next_version in Hst. rewrite Ev in Hst. lia.
  - assert (Hint : exists cs c, node = Node_Internal (mkInternalNode cs c)).
    { unfold get_shard_persisted_versions in El. rewrite new_empty_path_pack, obind_Ok, (reads_node _ s1 _ _ _ Hserve Hroot), obind_Ok in El.
      destruct node as [[cs c]| |]; [eauto|discriminate El..]. }
    destruct Hint as (cs & c & ->). destruct Hrep as [[_ [=]]|Hrep].
    destruct (persisted_versions_found reader s1 v (latest db) cs c Hserve Hroot Hrep) as (l' & El' & _ & Hl').
    rewrite El in El'. injection El' as <-. intros i Hni. specialize (Hl' _ _ (Hl i Hni)).
    rewrite Z2Nat.id in Hl' by (unfold nibble_ok in Hni; lia). destruct (pvs i) as [w|]; [|done].
    destruct Hl' as (n & Hn & Hr). unfold shard_served, shard_at. fold s1. rewrite Hn. by split.
Qed.

Lemma inv_ready db reader version pvs : db_inv db -> sees reader (td_nodes db) -> next_version db <= version ->
  shards_based reader (last_version db) pvs ->
  ready reader (prune (td_nodes db) (td_stale db)) version (last_version db) pvs (latest db).
Proof.
  intros Hi Hsee Hv Hpvs. split_and!; [| | | |by apply inv_persisted].
  - intros k tag n Hk. apply prune_Some in Hk as [Hk _]. by apply Hsee.
  - intros k n Hk. apply prune_Some in Hk as [Hk _]. apply (inv_versions _ Hi) in Hk. lia.
  - destruct (last_version db) as [v|] eqn:Ev; [by apply (inv_latest _ Hi v)|]. rewrite (latest_none db Ev). constructor.
  - destruct (last_version db) as [v|] eqn:Ev; [|done].
    destruct (inv_latest _ Hi v Ev) as (_ & (_ & node & Hroot & _) & _). by exists node.
Qed.

(** Writing a batch over a part of a store, or over all of it. *)
Lemma write_batch_extends s s' b : NoDup (map fst (nodes_of b)) -> extends s s' ->
  extends (write_batch s b) (write_batch s' b).
Proof.
  intros Hnd He k n. unfold write_batch, overlay. destruct (list_to_map _ !! _); [done|]. apply He.
Qed.

Lemma write_batch_cases s b k n : write_batch s b k = Some n -> (k, n) ∈ nodes_of b \/ s k = Some n.
Proof.
  unfold write_batch, overlay. destruct (list_to_map _ !! _) as [m|] eqn:E; [|by right].
  intros [= ->]. left. by apply elem_of_list_to_map_2.
Qed.

Lemma put_inv db reader kvs w pvs caches root b : db_inv db -> Z.of_nat (length (latest db) + length kvs) < U64 ->
  sees reader (td_nodes db) -> next_version db <= w -> shards_based reader (last_version db) pvs ->
  caches_ok w (latest db) kvs caches -> put_at reader kvs w (last_version db) pvs caches = Ok (root, b) ->
  db_inv (put_db db w kvs b).
Proof.
  intros Hi Hb Hsee Hnext Hpvs Hca Hput. set (s1 := prune (td_nodes db) (td_stale db)).
  set (L := update_all w (latest db) kvs).
  assert (Hw : 0 <= w) by (pose proof (inv_nonneg _ Hi); lia).
  assert (Hsub : extends s1 (td_nodes db)) by (intros k n Hk; by apply prune_Some in Hk as [? _]).
  destruct (commit_spec _ s1 w (last_version db) pvs caches (latest db) kvs (inv_ready db reader w pvs Hi Hsee Hnext Hpvs) Hca Hb)
    as (b' & E & Hnd & Hver & Hst & He & _ & Hsh).
  rewrite E in Hput. injection Hput as _ ->. rewrite Forall_forall in Hst.
  pose proof (inv_stale _ Hi) as Hold. rewrite Forall_forall in Hold.
  (* the pruned part of the new store is in the pruned new store *)
  assert (Hext : extends (prune (write_batch s1 b) (stale_of b))
      (prune (write_batch (td_nodes db) b) (td_stale db ++ stale_of b))).
  { intros k n Hk. apply prune_Some in Hk as [Hk Hns]. apply prune_Some.
    split; [by apply (write_batch_extends s1)|]. rewrite map_app. intros Hin.
    apply elem_of_app in Hin as [Hin|]; [|done]. apply write_batch_cases in Hk as [Hk|Hk].
    - apply Hver in Hk. apply list_elem_of_fmap in Hin as (e & -> & Hin). apply Hold in Hin. lia.
    - apply prune_Some in Hk as [_ Hk]. done. }
  destruct (last_version_put db w kvs b) as (Elast & Elatest & Enext). fold L in Elatest.
  split; rewrite ?Elatest, ?Enext; cbn [put_db td_nodes td_stale td_versions td_pruned].
  - lia.
  - intros v lvs Hv. apply elem_of_app in Hv as [Hv|Hv]; [apply (inv_below _ Hi) in Hv; lia|].
    apply list_elem_of_singleton in Hv as [= -> _]. lia.
  - intros k n Hk. apply write_batch_cases in Hk as [Hk|Hk]; [apply Hver in Hk; lia|].
    apply (inv_versions _ Hi) in Hk. lia.
  - apply Forall_forall. intros e Hin. apply elem_of_app in Hin as [Hin|Hin].
    + apply Hold in Hin. lia.
    + destruct (Hst e Hin) as [Es [n Hn]]. apply Hsub, (inv_versions _ Hi) in Hn. lia.
  - eapply Forall_impl; [apply (inv_pruned _ Hi)|]. cbn. lia.
  - intros v lvs Hv Hm. apply elem_of_app in Hv as [Hv|Hv].
    + pose proof (inv_below _ Hi _ _ Hv) as Hlt. eapply tree_at_mono; [|by apply (inv_trees _ Hi)].
      intros k n Hk. apply prune_Some in Hk as [Hk Hns]. apply upto_Some in Hk as [Hk Hkv].
      apply prune_Some. rewrite upto_Some. split_and!; [|done|].
      * unfold write_batch, overlay. destruct (list_to_map (nodes_of b) !! k) as [n'|] eqn:En; [|done].
        apply elem_of_list_to_map_2, Hver in En. lia.
      * unfold stale_by. rewrite filter_app, map_app. intros Hin. apply elem_of_app in Hin as [|Hin]; [done|].
        apply list_elem_of_fmap in Hin as (e & _ & Hin). apply list_elem_of_filter in Hin as [Hle Hin].
        destruct (Hst e Hin) as [Es _]. lia.
    + apply list_elem_of_singleton in Hv as [= -> ->].
      eapply tree_at_mono; [|apply (proj1 Hsh)]. intros k n Hk. apply Hext, prune_Some in Hk as [Hk Hns].
      apply prune_Some. rewrite upto_Some. split_and!; [done| |intros Hin; by apply stale_by_elem in Hin].
      apply write_batch_cases in Hk as [Hk|Hk]; [apply Hver in Hk; lia|apply (inv_versions _ Hi) in Hk; lia].
  - rewrite Elast. intros v [= <-].
    pose proof Hsh as [Ht Hshard]. split_and!; [by destruct Ht as [? _]|by eapply tree_at_mono|].
    intros i Hni. specialize (Hshard i Hni). unfold shard_at in *.
    destruct (prune (write_batch s1 b) (stale_of b) (mkNodeKey w (pack [i]))) as [n|] eqn:En.
    + rewrite (Hext _ _ En). by eapply represents_mono.
    + destruct (prune (write_batch (td_nodes db) b) _ (mkNodeKey w (pack [i]))) as [n|] eqn:En'; [|done].
      exfalso. apply prune_Some in En' as [En' Hns]. rewrite map_app in Hns. apply not_elem_of_app in Hns as [_ Hns].
      apply write_batch_cases in En' as [En'|En'].
      * assert (Hh : write_batch s1 b (mkNodeKey w (pack [i])) = Some n) by (by apply overlay_holds).
        rewrite (proj2 (prune_Some _ _ _ n)) in En; [done|]. split; [exact Hh|done].
      * apply (inv_versions _ Hi) in En'. cbn in En'. lia.
Qed.

Lemma prune_inv db st rest : db_inv db -> td_stale db ≡ₚ st ++ rest ->
  db_inv (mkTreeDb (prune (td_nodes db) st) rest (td_versions db) (td_pruned db ++ st)).
Proof.
  intros Hi Hp. pose proof (inv_stale _ Hi) as Hf. rewrite Hp in Hf. apply Forall_app in Hf as [Hf1 Hf2].
  split; try (change (next_version (mkTreeDb _ _ _ _)) with (next_version db)); cbn [td_nodes td_stale td_versions td_pruned].
  - apply (inv_nonneg _ Hi).
  - apply (inv_below _ Hi).
  - intros k n Hk. apply prune_Some in Hk as [Hk _]. by apply (inv_versions _ Hi) in Hk.
  - done.
  - apply Forall_app. split; [apply (inv_pruned _ Hi)|]. eapply Forall_impl; [exact Hf1|]. cbn. lia.
  - intros v lvs Hv Hk. unfold kept in Hk. cbn [td_pruned] in Hk. apply Forall_app in Hk as [Hk Hks].
    rewrite Forall_forall in Hks. eapply tree_at_mono; [|by apply (inv_trees _ Hi)].
    intros k n Hn. apply prune_Some in Hn as [Hn Hns]. apply upto_Some in Hn as [Hn Hkv].
    assert (Hno : forall e, e ∈ st ++ rest -> stale_since_version e <= v -> k <> stale_node_key e).
    { intros e He Hle' ->. apply Hns. apply list_elem_of_fmap_2, list_elem_of_filter. by rewrite Hp. }
    rewrite prune_Some, upto_Some, prune_Some. split_and!; [done| |done|]; intros Hin;
      apply list_elem_of_fmap in Hin as (e & Ek & Hin).
    + destruct (Hks e Hin) as [Hle|Hlt]; [|subst k; lia]. eapply Hno; [apply elem_of_app; by left|done|done].
    + apply list_elem_of_filter in Hin as [Hle' Hin]. eapply Hno; [apply elem_of_app; by right|done|done].
  - change (last_version (mkTreeDb _ _ _ _)) with (last_version db). change (latest (mkTreeDb _ _ _ _)) with (latest db).
    intros v Hlast. destruct (inv_latest _ Hi v Hlast) as (Hnd & Ht & Hsh).
    assert (E : forall k, prune (prune (td_nodes db) st) rest k = prune (td_nodes db) (td_stale db) k).
    { intros k. destruct (prune (td_nodes db) (td_stale db) k) as [n|] eqn:Ek.
      - apply prune_Some in Ek as [Ek Hns]. rewrite Hp, map_app in Hns. apply not_elem_of_app in Hns as [??].
        apply prune_Some. split; [by apply prune_Some|done].
      - destruct (prune (prune (td_nodes db) st) rest k) as [n|] eqn:Ek'; [|done].
        apply prune_Some in Ek' as [Ek' Hr]. apply prune_Some in Ek' as [Ek' Hs].
        rewrite (proj2 (prune_Some _ _ _ n)) in Ek; [done|]. split; [done|]. rewrite Hp, map_app.
        by apply not_elem_of_app. }
    assert (He : extends (prune (td_nodes db) (td_stale db)) (prune (prune (td_nodes db) st) rest))
      by (intros k n Hk; by rewrite E).
    split_and!; [done|by eapply tree_at_mono|]. intros i Hni. specialize (Hsh i Hni). unfold shard_at in *.
    rewrite E. destruct (prune (td_nodes db) (td_stale db) _); [|done]. by eapply represents_mono.
Qed.

Lemma reachable_inv db : db_reachable db -> db_inv db.
Proof.
  induction 1 as [|db db' _ IH Hs].
  - split; try done; intros v lvs Hv; by apply not_elem_of_nil in Hv.
  - destruct Hs; [by eapply put_inv|by eapply prune_inv].
Qed.

(** No two entries of the stale index have the same node. *)
Lemma reachable_unique db e f : db_reachable db -> e ∈ td_stale db -> f ∈ td_stale db -> stale_node_key e = stale_node_key f -> e = f.
Proof.
  intros Hr. revert e f. induction Hr as [|db db' Hr IH Hs]; intros e f; [by intros He%not_elem_of_nil|]. apply reachable_inv in Hr.
  destruct Hs as [db reader kvs w pvs caches root b Hb Hsee Hnext Hpvs Hca Hput|db st rest Hp]; cbn [put_db td_stale].
  - destruct (commit_spec _ _ w (last_version db) pvs caches (latest db) kvs (inv_ready db reader w pvs Hr Hsee Hnext Hpvs) Hca Hb)
      as (b' & E & _ & _ & Hst & _). rewrite E in Hput. injection Hput as _ ->. rewrite Forall_forall in Hst.
    assert (Hnew : forall g h, g ∈ stale_of b -> h ∈ td_stale db -> stale_node_key g <> stale_node_key h).
    { intros g h Hg Hh Ek. apply Hst in Hg as [_ [n Hn]]. apply prune_Some in Hn as [_ Hn]. apply Hn. rewrite Ek. by apply list_elem_of_fmap_2. }
    rewrite !elem_of_app. intros [He|He] [Hf|Hf] Ek; [exact (IH e f He Hf Ek)|destruct (Hnew f e Hf He (eq_sym Ek))|destruct (Hnew e f He Hf Ek)|].
    apply Hst in He as [He _], Hf as [Hf _]. destruct e as [se ke], f as [sf kf]. cbn [stale_since_version stale_node_key] in *. by rewrite He, Hf, Ek.
  - intros He Hf. apply IH; rewrite Hp, elem_of_app; by right.
Qed.

(** Every version that is kept is intact. *)
Lemma reachable_tree db v lvs : db_reachable db -> (v, lvs) ∈ td_versions db -> kept db v ->
  tree_at (td_nodes db) v lvs.
Proof.
  intros Hr Hv Hm. apply reachable_inv in Hr. eapply tree_at_mono; [|by apply (inv_trees _ Hr)].
  intros k n Hk. by apply prune_Some in Hk as [[? _]%upto_Some _].
Qed.

(** The last version is always kept. *)
Lemma last_kept db v : db_inv db -> last_version db = Some v -> kept db v.
Proof.
  intros Hi Hv. eapply Forall_impl; [apply (inv_pruned _ Hi)|]. intros e. unfold next_version. rewrite Hv. cbn. lia.
Qed.

(** The next version is right after the last one. *)
Lemma before_next db : db_inv db -> before (next_version db) = last_version db.
Proof.
  intros Hi. unfold before, next_version, last_version. destruct (list.last (td_versions db)) as [[v lvs]|] eqn:E; [|done].
  cbn. apply last_Some_elem_of, (inv_below _ Hi) in E. rewrite (proj2 (Z.leb_le _ _)) by lia. f_equal. lia.
Qed.

(** Putting a version: the batch, and the step. *)
Lemma put_step db reader kvs version pvs caches : db_inv db -> Z.of_nat (length (latest db) + length kvs) < U64 ->
  sees reader (td_nodes db) -> next_version db <= version -> shards_based reader (last_version db) pvs ->
  caches_ok version (latest db) kvs caches ->
  exists b, put_at reader kvs version (last_version db) pvs caches = Ok (smt_root (sl (update_all version (latest db) kvs)), b) /\
    db_step db (put_db db version kvs b).
Proof.
  intros Hi Hb Hsee Hv Hpvs Hca.
  destruct (commit_spec _ _ version _ pvs caches _ kvs (inv_ready db reader version pvs Hi Hsee Hv Hpvs) Hca Hb) as (b & E & _).
  exists b. split; [done|]. by eapply step_put.
Qed.

Lemma no_caches version lvs kvs : caches_ok version lvs kvs (fun _ => None).
Proof. intros i _. done. Qed.

(** [put_value_set_test] puts the next version. *)
Lemma put_test_step db reader kvs : db_inv db -> Z.of_nat (length (latest db) + length kvs) < U64 ->
  sees reader (td_nodes db) ->
  exists b, put_value_set_test reader kvs (next_version db) =
      Ok (smt_root (sl (update_all (next_version db) (latest db) kvs)), b) /\
    db_step db (put_db db (next_version db) kvs b).
Proof.
  intros Hi Hb Hsee. rewrite put_test_at, (before_next db Hi).
  apply put_step; [done|done|done|lia|by left|apply no_caches].
Qed.

Lemma step_put_test db reader kvs root b : db_reachable db -> Z.of_nat (length (latest db) + length kvs) < U64 ->
  sees reader (td_nodes db) -> put_value_set_test reader kvs (next_version db) = Ok (root, b) ->
  db_reachable (put_db db (next_version db) kvs b).
Proof.
  intros Hr Hb Hsee E. destruct (put_test_step db reader kvs (reachable_inv db Hr) Hb Hsee) as (b' & E' & Hs).
  rewrite E in E'. injection E' as _ ->. by eapply reach_step.
Qed.
End History.
