(* ===== verification/JellyfishTruncate.v ===== *)
(** * Going back to a version

    The last versions of a store are removed again: its nodes and stale entries up to a
    version are those of a store in which nothing later was put. *)
From stdpp Require Import base list numbers strings option gmap sorting.
From Stdlib Require Import ZArith Lia Bool Sorted.
From S2P Require Import Prelude Hash SparseMerkleProof SparseSpec SparseFacts NibblePath NibblePathFacts ByteCodec JellyfishNode JellyfishNodeFacts JellyfishHash JellyfishSpec JellyfishTree JellyfishRead JellyfishRuns JellyfishBatch JellyfishUpdate JellyfishInsert JellyfishCommit JellyfishHistory.

Section Truncate.
Context {HV : Type} `{HashValueOps HV} `{HashValueBits HV} `{!HashValueLaws HV} `{CryptoHasher HV}
  `{LeafHasher HV} `{HashValueKeys HV} `{!HashValueKeysLaws HV} `{Itertools} `{!ItertoolsLaws} {K : Type}.
Implicit Types (db td : tree_db (HV := HV) (K := K)) (e : StaleNodeIndex) (st : list StaleNodeIndex) (v w : Version).

(** What a put writes is of its version. *)
Lemma put_writes td reader kvs version pvs caches root b : db_reachable td ->
  Z.of_nat (length (latest td) + length kvs) < U64 -> sees reader (td_nodes td) -> next_version td <= version ->
  shards_based reader (last_version td) pvs -> caches_ok version (latest td) kvs caches ->
  put_at reader kvs version (last_version td) pvs caches = Ok (root, b) ->
  (forall k n, (k, n) ∈ nodes_of b -> nk_version k = version) /\ (forall e, e ∈ stale_of b -> stale_since_version e = version).
Proof.
  intros Hr Hb Hsee Hv Hpvs Hca E. pose proof (reachable_inv _ Hr) as Hi.
  destruct (commit_spec _ _ version _ pvs caches _ kvs (inv_ready td reader version pvs Hi Hsee Hv Hpvs) Hca Hb) as (b' & E' & _ & Hver & Hst & _).
  rewrite E in E'. injection E' as -> <-. split; [done|]. intros e He. rewrite Forall_forall in Hst. by apply Hst in He as [? _].
Qed.

(** Versions, and what nodes and entries are of. *)
Record versioned td : Prop := {
  vd_sorted : StronglySorted Z.lt (map fst (td_versions td));
  vd_nodes : forall k n, td_nodes td k = Some n -> nk_version k ∈ map fst (td_versions td);
  vd_stale : forall e, e ∈ td_stale td -> stale_since_version e ∈ map fst (td_versions td);
}.

Lemma sorted_snoc (l : list Z) x : StronglySorted Z.lt l -> Forall (fun y => y < x) l -> StronglySorted Z.lt (l ++ [x]).
Proof.
  induction 1 as [|y l Hs IH Hy]; intros Hx; [repeat constructor|]. apply Forall_cons in Hx as [Hyx Hx].
  cbn. constructor; [by apply IH|]. apply Forall_app. by rewrite Forall_singleton.
Qed.

Lemma reachable_versioned td : db_reachable td -> versioned td.
Proof.
  induction 1 as [|td td' Hr [Hs Hn Ht] Hstep].
  - split; [constructor|done|]. intros e He. by apply not_elem_of_nil in He.
  - pose proof (reachable_inv _ Hr) as Hi. destruct Hstep as [td reader kvs version pvs caches root b Hb Hsee Hv Hpvs Hca E|td st rest Hp].
    + destruct (put_writes td reader kvs version pvs caches root b Hr Hb Hsee Hv Hpvs Hca E) as [Wn Ws].
      split; cbn [put_db td_versions td_nodes td_stale]; rewrite map_app; cbn [map fst].
      * apply sorted_snoc; [done|]. apply Forall_forall. intros w Hw. apply list_elem_of_fmap in Hw as ([w' lvs] & -> & Hw).
        apply (inv_below _ Hi) in Hw. cbn [fst]. lia.
      * intros k n Hk. apply elem_of_app. apply write_batch_cases in Hk as [Hk|Hk]; [right|left; by eapply Hn].
        apply Wn in Hk as ->. left.
      * intros e He. apply elem_of_app. apply elem_of_app in He as [He|He]; [left; by apply Ht|right]. apply Ws in He as ->. left.
    + split; cbn [td_versions td_nodes td_stale]; [done| |].
      * intros k n Hk. apply prune_Some in Hk as [Hk _]. by eapply Hn.
      * intros e He. apply Ht. rewrite Hp. apply elem_of_app. by right.
Qed.

(** [td'] is [td] without what came after version [v]. *)
Record truncated td v td' : Prop := {
  tr_reachable : db_reachable td';
  tr_nodes : forall k, td_nodes td' k = upto v (td_nodes td) k;
  tr_stale : td_stale td' ≡ₚ stale_by v (td_stale td);
  tr_versions : td_versions td' = filter (fun vl => fst vl <= v) (td_versions td);
  tr_pruned : td_pruned td' = stale_by v (td_pruned td);
}.

Lemma stale_by_all v st : Forall (fun e => stale_since_version e <= v) st -> stale_by v st = st.
Proof. apply filter_all. Qed.

Lemma truncated_self td v : db_reachable td -> next_version td <= v + 1 -> truncated td v td.
Proof.
  intros Hr Hv. pose proof (reachable_inv _ Hr) as Hi. split; [done|..].
  - intros k. unfold upto. case_decide; [done|]. destruct (td_nodes td k) as [n|] eqn:En; [|done]. apply (inv_versions _ Hi) in En. lia.
  - rewrite stale_by_all; [done|]. eapply Forall_impl; [apply (inv_stale _ Hi)|]. intros e. cbn. lia.
  - symmetry. apply filter_all, Forall_forall. intros [w lvs] Hw. apply (inv_below _ Hi) in Hw. cbn [fst]. lia.
  - symmetry. apply stale_by_all. eapply Forall_impl; [apply (inv_pruned _ Hi)|]. intros e. cbn. lia.
Qed.

(** A put after [v] leaves no trace. *)
Lemma truncated_put td v td' version kvs b : truncated td v td' -> v < version ->
  (forall k n, (k, n) ∈ nodes_of b -> nk_version k = version) -> (forall e, e ∈ stale_of b -> stale_since_version e = version) ->
  truncated (put_db td version kvs b) v td'.
Proof.
  intros [Hr Hn Hs Hv Hp] Hlt Wn Ws. split; cbn [put_db td_nodes td_stale td_versions td_pruned]; [done|..|done].
  - intros k. rewrite Hn. unfold upto. case_decide as Hk; [|done]. unfold write_batch, overlay.
    destruct (list_to_map _ !! k) as [n|] eqn:E; [|done]. apply elem_of_list_to_map_2, Wn in E. lia.
  - rewrite Hs. unfold stale_by. rewrite filter_app, (filter_none _ (stale_of b)), app_nil_r; [done|].
    apply Forall_forall. intros e He. apply Ws in He. lia.
  - rewrite Hv, filter_app, (filter_none _ [_]), app_nil_r; [done|]. apply Forall_singleton. cbn. lia.
Qed.

(** Deleting stale nodes, of which a kept version has none. *)
Lemma truncated_prune td v td' st rest : truncated td v td' -> td_stale td ≡ₚ st ++ rest ->
  Forall (fun e => stale_since_version e <= v \/ v < nk_version (stale_node_key e)) st ->
  exists td1, truncated (mkTreeDb (prune (td_nodes td) st) rest (td_versions td) (td_pruned td ++ st)) v td1.
Proof.
  intros [Hr Hn Hs Hv Hp] Est Hk. rewrite Forall_forall in Hk.
  assert (Est' : td_stale td' ≡ₚ stale_by v st ++ stale_by v rest).
  { rewrite Hs. unfold stale_by. by rewrite Est, filter_app. }
  eexists (mkTreeDb (prune (td_nodes td') (stale_by v st)) (stale_by v rest) (td_versions td') (td_pruned td' ++ stale_by v st)).
  split; cbn [td_nodes td_stale td_versions td_pruned]; [eapply reach_step; [done|by constructor]| |done|done|].
  - intros k. unfold prune, upto. rewrite Hn. unfold upto. destruct (decide (nk_version k <= v)) as [Hle|]; [|by case_decide].
    apply decide_ext. split; [apply stale_by_elem|]. intros Hin. apply list_elem_of_fmap in Hin as (e & -> & He).
    apply list_elem_of_fmap_2. apply list_elem_of_filter. split; [|done]. destruct (Hk e He); [done|lia].
  - rewrite Hp. unfold stale_by. by rewrite filter_app.
Qed.

(** Going back to a version that is kept. *)
Lemma reachable_truncated td v : db_reachable td -> kept td v -> exists td', truncated td v td'.
Proof.
  induction 1 as [|td td' Hr IH Hstep]; intros Hk.
  - exists (mkTreeDb (fun _ => None) [] [] []). split; try done; [constructor|]. intros k. unfold upto. by case_decide.
  - pose proof Hstep as Hstep'. destruct Hstep' as [td reader kvs version pvs caches root b Hb Hsee Hv Hpvs Hca E|td st rest Hp].
    + destruct (put_writes td reader kvs version pvs caches root b Hr Hb Hsee Hv Hpvs Hca E) as [Wn Ws].
      destruct (Z.le_gt_cases version v) as [Hle|Hlt].
      * exists (put_db td version kvs b). apply truncated_self; [by eapply reach_step|].
        destruct (last_version_put td version kvs b) as (_ & _ & ->). lia.
      * destruct (IH Hk) as (td1 & Ht). exists td1. by apply truncated_put.
    + unfold kept in Hk. cbn [td_pruned] in Hk. apply Forall_app in Hk as [Hk1 Hk2]. destruct (IH Hk1) as (td1 & Ht). by eapply truncated_prune.
Qed.

(** Going back further. *)
Lemma truncated_again td v td1 w td2 : truncated td v td1 -> w <= v -> truncated td1 w td2 -> truncated td w td2.
Proof.
  intros [_ Hn Hs Hv Hp] Hle [Hr Hn' Hs' Hv' Hp'].
  assert (Hby : forall st, stale_by w (stale_by v st) = stale_by w st).
  { intros st. unfold stale_by. rewrite list_filter_filter. apply list_filter_iff. intros e. lia. }
  split; [done|..].
  - intros k. rewrite Hn'. unfold upto. case_decide; [|done]. rewrite Hn. unfold upto. by rewrite decide_True by lia.
  - rewrite Hs'. unfold stale_by at 1. rewrite Hs. fold (stale_by w (stale_by v (td_stale td))). by rewrite Hby.
  - rewrite Hv', Hv, list_filter_filter. apply list_filter_iff. intros [u lvs]. cbn [fst]. lia.
  - by rewrite Hp', Hp, Hby.
Qed.
End Truncate.
