(* ===== verification/JellyfishTheorems.v ===== *)
(** * The Jellyfish Merkle tree: the properties *)
From stdpp Require Import base list numbers strings option gmap sorting.
From Stdlib Require Import ZArith Lia Bool Sorted.
From S2P Require Import Prelude Hash SparseMerkleProof SparseSpec SparseFacts NibblePath NibblePathFacts ByteCodec JellyfishNode JellyfishNodeFacts JellyfishHash JellyfishCodec JellyfishSpec JellyfishTree JellyfishRead JellyfishRuns JellyfishBatch JellyfishUpdate JellyfishInsert JellyfishCommit JellyfishHistory ToyHash SparseTheorems.

Section TreeTheorems.
Context {HV : Type} `{HashValueOps HV} `{HashValueBits HV} `{!HashValueLaws HV} `{CryptoHasher HV}
  `{LeafHasher HV} `{HashValueKeys HV} `{!HashValueKeysLaws HV} `{Itertools} `{!ItertoolsLaws} {K : Type}.
Implicit Types (lvs : list (LeafNode HV K)) (key : HV) (s : @store HV K) (n : Node HV K)
  (reader : TreeReader HV K) (db : @tree_db HV K) (kvs : list (HV * option (HV * K))).

(** C1: after any interleaving of puts and of deletions of stale nodes, every version
    none of whose nodes was deleted can be read in full -- a version is [kept] unless an
    entry was deleted of a node that is not newer and became stale later: [get_with_proof]
    returns the value of every key, [get_root_hash] the root of the reference tree,
    and the proof verifies against it; the leaf count is right. *)
Theorem db_versions_intact db v lvs key : db_reachable db ->
  (v, lvs) ∈ td_versions db -> kept db v ->
  let reader := reader_of (td_nodes db) in
  exists proof root,
    get_with_proof reader key v = Ok (value_at lvs key, proof) /\
    jmt_get_root_hash reader v = Ok root /\ root = smt_root (sl lvs) /\
    verify_by_hash proof root key (option_map fst (value_at lvs key)) = Ok tt /\
    get_leaf_count reader v = Ok (Z.of_nat (length lvs)).
Proof.
  intros Hr Hv Hm reader. pose proof (reachable_tree db v lvs Hr Hv Hm) as Ht.
  exists (sparse_proof_of (sl lvs) key), (smt_root (sl lvs)).
  split_and!; [by eapply get_with_proof_spec; [apply reads_of|]|by eapply jmt_root_hash_spec; [apply reads_of|]|done| |
    by eapply get_leaf_count_spec; [apply reads_of|]].
  rewrite <- value_of_at. apply verify_root_complete. rewrite sl_keys. by destruct Ht.
Qed.

(** A batch can always be put on top of what is there, as long as the leaves can
    be counted: the result is the root hash of the leaves in which every key has the
    last value written to it, the deleted keys are gone and the others keep theirs. *)
Theorem db_put_progress db kvs : db_reachable db ->
  Z.of_nat (length (latest db) + length kvs) < U64 ->
  exists b, let w := next_version db in let lvs := update_all w (latest db) kvs in
    put_value_set_test (reader_of (td_nodes db)) kvs w = Ok (smt_root (sl lvs), b) /\
    db_step db (mkTreeDb (write_batch (td_nodes db) b) (td_stale db ++ stale_of b)
                  (td_versions db ++ [(w, lvs)]) (td_pruned db)) /\
    forall key, value_at lvs key =
      match last_of kvs key with
      | Some (Some (h, k)) => Some (h, (k, w))
      | Some None => None
      | None => value_at (latest db) key
      end.
Proof.
  intros Hr Hb. destruct (put_test_step db _ kvs (reachable_inv db Hr) Hb (sees_of _)) as (b & E & Hs). exists b. cbv zeta.
  split_and!; [done|exact Hs|]. intros key. apply value_at_update.
Qed.

(** C18: [batch_put_value_set_for_shard] on a stored shard, with or without cached
    hashes, returns the root of the updated shard: the nodes of the batch together
    with the old nodes that it does not mark as stale represent the updated leaves, in
    every store that has them. *)
Theorem shard_put_refines reader version cache s0 i lvs kvs pv :
  fresh version s0 -> reads reader s0 -> nibble_ok i -> placed [i] lvs ->
  match pv with Some v => shard_served reader s0 v i lvs | None => lvs = [] end ->
  Forall (fun kv => nib (fst kv) 0 = i) kvs -> Z.of_nat (length lvs + length kvs) < U64 ->
  cache_ok version cache [i] lvs (btree_of kvs) ->
  exists node b, batch_put_value_set_for_shard reader i kvs cache pv version = Ok (node, b) /\
    Forall (stale_ok version s0) (stale_of b) /\
    (update_all version lvs kvs = [] -> node = Node_Null) /\
    (update_all version lvs kvs <> [] -> forall s, keeps [i] s0 (stale_of b) s -> holds s (nodes_of b) ->
       s (mkNodeKey version (pack [i])) = Some node /\ represents s [i] (update_all version lvs kvs) node).
Proof.
  intros Hfr Hrd Hi Hpl Hpv Hk Hb Hc.
  destruct (shard_spec reader version cache s0 i lvs kvs pv Hfr Hrd Hi Hpl Hpv Hk Hb Hc)
    as (r & b & E & Ei & (_ & Hn & Hst) & Hup & Hok). exists (shard_node r), b.
  change (nodes_of TreeUpdateBatch_new) with (@nil (NodeKey * Node HV K)) in Hn.
  change (stale_of TreeUpdateBatch_new) with (@nil StaleNodeIndex) in Hst. cbn [app] in Hn, Hst.
  unfold shard_nodes, shard_node in *. split_and!; [done|by rewrite Hst| |].
  - intros E0. destruct (cr_node r) as [n|] eqn:En; [|done].
    destruct (updated_represents _ _ _ _ _ _ _ Hfr Hup) as (s & Hrep). by apply represents_nonempty in Hrep.
  - intros Hne s Hkeep Hh. destruct (cr_node r) as [n|] eqn:En; [|by destruct Hup as (_ & _ & ?)].
    cbn [default id]. rewrite Ei in Hn. split.
    + apply Hh. rewrite Hn. apply elem_of_app. right. left.
    + apply Hup; [intros k m Hk' Hb' Hns; apply Hkeep; [done|done|by rewrite Hst]|].
      intros k m Hin. apply Hh. rewrite Hn. apply elem_of_app. by left.
Qed.

(** C27: the hash of a stored node, computed from the bitmaps of its children, is the
    hash of the binary sparse Merkle tree over the leaves below it. *)
Theorem node_hash_reference s p lvs n : represents s p lvs n ->
  Node_hash n = Ok (smt (256 - 4 * length p) (4 * length p) (sl lvs)).
Proof. apply represents_hash. Qed.

(** A range proof for a key in the tree exists and verifies, for the leaf of the
    key and the left siblings of its path, against the root hash. *)
Theorem jmt_range_proof_verifies reader s v lvs x : reads reader s -> tree_at s v lvs -> x ∈ lvs ->
  let leaf := sparse_leaf_from x in
  let key := account_key x in
  exists proof left,
    jmt_get_range_proof reader key v = Ok proof /\
    left = left_siblings (smp_siblings (sparse_proof_of (sl lvs) key)) (iter_bits key) /\
    SparseMerkleRangeProof_verify proof (smt_root (sl lvs)) leaf left = Ok tt.
Proof.
  intros Hrd Ht Hx leaf key. unfold jmt_get_range_proof.
  rewrite (get_with_proof_spec reader s v lvs key Hrd Ht), obind_Ok.
  assert (Hval : exists y, value_at lvs key = Some y).
  { unfold value_at. destruct (filter _ lvs) as [|y l] eqn:E; [|by eexists].
    assert (Hin : x ∈ filter (fun x => account_key x = key) lvs) by (by apply list_elem_of_filter).
    rewrite E in Hin. by apply not_elem_of_nil in Hin. }
  destruct Hval as [y ->]. cbn [ensure]. rewrite obind_Ok. eexists _, _. split; [done|]. split; [done|].
  apply (sparse_range_verify_complete (sl lvs) leaf); [rewrite sl_keys; by destruct Ht|].
  by apply list_elem_of_fmap_2.
Qed.

(** A proof below a subtree root at nibble depth [r / 4] leaves out the siblings
    above it: [get_with_proof_ext] returns the value and the siblings from bit depth
    [r] on, as leaves or as hashes. *)
Theorem jmt_partial_proof reader s v lvs key r : reads reader s -> tree_at s v lvs -> 0 <= r ->
  lvs <> [] \/ r = 0 ->
  exists siblings,
    get_with_proof_ext reader key v r =
      Ok (value_at lvs key, new_partial (smp_leaf (sparse_proof_of (sl lvs) key)) siblings r) /\
    map NodeInProof_hash siblings = drop (Z.to_nat r) (smp_siblings (sparse_proof_of (sl lvs) key)).
Proof. apply get_with_proof_ext_spec. Qed.

(** The ranges of [NibbleRangeIterator] over sorted pairs are the runs of equal
    nibbles at the depth, in order: they have the nibble of their first pair, and
    together they cover the pairs. *)
Theorem nibble_ranges_partition {V} (kvs : list (HV * V)) (d : nat) p : length p = d -> (d < 64)%nat ->
  keys_sorted kvs -> Forall (fun kv => starts p (fst kv)) kvs ->
  exists ranges rns, nibble_ranges kvs (Z.of_nat d) = Ok ranges /\
    Forall2 (range_is d kvs) ranges rns /\ concat (map snd rns) = kvs /\ sorted_by fst rns /\
    forall i g, (i, g) ∈ rns -> g <> [] /\ g = filter (fun kv => nib (fst kv) d = i) kvs.
Proof.
  intros <- Hd Hs Hp. pose proof (keys_nib_sorted p kvs Hs Hp) as Hns.
  destruct (nibble_ranges_spec (length p) kvs Hd Hns) as (ranges & E & Hr).
  exists ranges, (runs (length p) kvs). split_and!; [done|done|apply runs_concat|by apply runs_sorted|].
  intros i g. by apply runs_elem.
Qed.

(** C39: [get_shard_persisted_versions] finds the versions of the shard roots of a tree
    with leaves, and panics on the root of an empty tree, which [put_top_levels_nodes]
    writes when the last leaf is deleted. *)
Theorem shard_versions reader s v lvs : reads reader s ->
  (forall cs c, s (mkNodeKey v (pack [])) = Some (Node_Internal (mkInternalNode cs c)) ->
     represents s [] lvs (Node_Internal (mkInternalNode cs c)) ->
     exists pvs, get_shard_persisted_versions reader (Some v) = Ok pvs /\ length pvs = 16%nat /\
       forall i pv, pvs !! i = Some pv ->
         match pv with
         | Some w => exists node, s (mkNodeKey w (pack [Z.of_nat i])) = Some node /\
             represents s [Z.of_nat i] (group 0 (Z.of_nat i) lvs) node
         | None => group 0 (Z.of_nat i) lvs = []
         end) /\
  (s (mkNodeKey v (pack [])) = Some Node_Null ->
     get_shard_persisted_versions reader (Some v) = Panic "Assume the db doesn't have exactly 1 state.").
Proof.
  intros Hrd. split.
  - intros cs c. by apply persisted_versions_found.
  - intros Hs. unfold get_shard_persisted_versions. rewrite new_empty_path_pack, obind_Ok.
    by rewrite (reads_node _ s _ _ _ Hrd Hs), obind_Ok.
Qed.
End TreeTheorems.

Section CodecTheorems.
Context {HV : Type} `{HashValueOps HV} `{HashValueBits HV} `{!HashValueLaws HV} `{CryptoHasher HV}
  `{ByteOrder} `{!ByteOrderLaws} {K : Type} `{LeafBcs HV K}.

(** C32: node keys are encoded without loss, decoding accepts only encodings of
    well-formed keys, and the byte order of encodings is the order of keys: by version,
    then by the length of the path, then by the path. *)
Theorem node_key_codec (a b : NodeKey) (val : list Z) : key_ok a -> key_ok b -> Forall byte_ok val ->
  NodeKey_decode (NodeKey_encode a) = Ok a /\
  (forall k, NodeKey_decode val = Ok k -> key_ok k /\ NodeKey_encode k = val) /\
  lex_compare (NodeKey_encode a) (NodeKey_encode b) = NodeKey_compare a b.
Proof.
  intros Ha Hb Hv. split_and!; [by apply NodeKey_decode_encode| |by apply NodeKey_encode_order].
  intros k. by apply NodeKey_encode_decode.
Qed.

(** C33: every node is encoded, the tag first, and decoded to itself: the children of an
    internal node survive the bitmaps and the variable-length integers. *)
Theorem node_codec_roundtrip `{!LeafBcsLaws} (n : Node HV K) :
  match n with Node_Internal i => node_ok i | _ => True end ->
  exists bs, Node_encode n = Ok bs /\ Node_decode bs = Ok n.
Proof. apply Node_roundtrip. Qed.
End CodecTheorems.

(** *** Instances *)
#[export] Instance toy_keys : HashValueKeys bytes32 := {|
  nibble := fun h i => nth (Z.to_nat i) (bytes_nibbles (b32 h)) 0;
  hv_cmp := fun a b => lex_compare (b32 a) (b32 b);
|}.

#[export] Instance toy_keys_laws : HashValueKeysLaws bytes32.
Proof.
  split; [|done]. intros h i Hi. unfold nibble, toy_keys. change (hv_bytes h) with (b32 h). rewrite nth_lookup.
  destruct (lookup_lt_is_Some_2 (bytes_nibbles (b32 h)) (Z.to_nat i)) as [x ->]; [|done].
  rewrite bytes_nibbles_length. pose proof (hv_bytes_length h) as Hl. cbn in Hl. rewrite Hl. lia.
Qed.

Fixpoint ref_merge_join {A B} (cmp : A -> B -> comparison) (xs : list A) {struct xs}
  : list B -> list (EitherOrBoth A B) :=
  match xs with
  | [] => map EB_Right
  | x :: xs' =>
      fix go ys :=
        match ys with
        | [] => map EB_Left xs
        | y :: ys' =>
            match cmp x y with
            | Lt => EB_Left x :: ref_merge_join cmp xs' ys
            | Eq => EB_Both x y :: ref_merge_join cmp xs' ys'
            | Gt => EB_Right y :: go ys'
            end
        end
  end.

#[export] Instance ref_itertools : Itertools := {| merge_join_by := @ref_merge_join |}.

#[export] Instance ref_itertools_laws : ItertoolsLaws.
Proof. split; [done| |done]. intros A B cmp [|x xs]; done. Qed.

(** Two keys of the same shard, a deletion, and a key of another shard. *)
Definition toy_updates : list (bytes32 * option (bytes32 * Z)) :=
  [(toy_key 17, Some (of_num 5, 1)); (toy_key 18, Some (of_num 6, 2)); (toy_key 200, Some (of_num 7, 3));
   (toy_key 18, None); (toy_key 19, Some (of_num 8, 4))].

Definition toy_empty : @tree_db bytes32 Z := mkTreeDb (fun _ => None) [] [] [].

Lemma db_put_progress_witness :
  exists b, let lvs := update_all 0 [] toy_updates in
    put_value_set_test (reader_of (fun _ => None)) toy_updates 0 = Ok (smt_root (sl lvs), b) /\
    forall key, value_at lvs key =
      match last_of toy_updates key with
      | Some (Some (h, k)) => Some (h, (k, 0))
      | _ => None
      end.
Proof.
  destruct (db_put_progress toy_empty toy_updates reach_empty) as (b & E & _ & Hval); [by vm_compute|].
  exists b. split; [exact E|]. intros key. etransitivity; [exact (Hval key)|].
  by destruct (last_of toy_updates key) as [[[h k]|]|].
Defined.

Definition toy_lvs : list (LeafNode bytes32 Z) := update_all 0 [] toy_updates.

(** A version that was put and read back. *)
Lemma db_versions_intact_witness :
  exists db : @tree_db bytes32 Z, td_versions db = [(0, toy_lvs)] /\
    exists proof root,
      get_with_proof (reader_of (td_nodes db)) (toy_key 19) 0 = Ok (value_at toy_lvs (toy_key 19), proof) /\
      jmt_get_root_hash (reader_of (td_nodes db)) 0 = Ok root /\ root = smt_root (sl toy_lvs) /\
      verify_by_hash proof root (toy_key 19) (option_map fst (value_at toy_lvs (toy_key 19))) = Ok tt /\
      get_leaf_count (reader_of (td_nodes db)) 0 = Ok (Z.of_nat (length toy_lvs)).
Proof.
  destruct (put_test_step toy_empty (reader_of (fun _ => None)) toy_updates (reachable_inv _ reach_empty)) as (b & E & Hs).
  - by vm_compute.
  - apply sees_of.
  - exists (put_db toy_empty 0 toy_updates b). split; [done|].
    refine (db_versions_intact (put_db toy_empty 0 toy_updates b) 0 toy_lvs (toy_key 19) _ _ _).
    + by eapply reach_step; [apply reach_empty|].
    + left.
    + constructor.
Defined.

Definition toy_leaf (n : Z) : LeafNode bytes32 Z := mkLeafNode (toy_key n) (of_num n) (n, 0).
Definition toy_store : @store bytes32 Z := fun k =>
  if decide (k = mkNodeKey 0 (pack [])) then Some (Node_Leaf (toy_leaf 17)) else None.

Lemma toy_store_tree : tree_at toy_store 0 [toy_leaf 17].
Proof.
  split; [apply NoDup_singleton|]. exists (Node_Leaf (toy_leaf 17)). split; [done|]. right. constructor.
Qed.

Lemma shard_put_refines_witness :
  exists node b, batch_put_value_set_for_shard (reader_of (fun _ => None)) 1
      [(toy_key 17, Some (of_num 5, 1)); (toy_key 18, None)] None None 3 = Ok (node, b) /\
    Forall (stale_ok (HV := bytes32) (K := Z) 3 (fun _ => None)) (stale_of b).
Proof.
  destruct (shard_put_refines (reader_of (fun _ => None)) 3 None (fun _ => None) 1 []
    [(toy_key 17, Some (of_num 5, 1)); (toy_key 18, None)] None) as (node & b & E & Hst & _).
  - intros k n Hk. discriminate Hk.
  - intros k tag n Hk. discriminate Hk.
  - unfold nibble_ok. lia.
  - split; constructor.
  - reflexivity.
  - apply Forall_cons. split; [vm_compute; reflexivity|]. apply Forall_cons.
    split; [vm_compute; reflexivity|constructor].
  - vm_compute. reflexivity.
  - exact I.
  - exists node, b. split; [exact E|exact Hst].
Defined.

Lemma node_hash_reference_witness :
  Node_hash (Node_Leaf (toy_leaf 17)) = Ok (smt (256 - 4 * 0) (4 * 0) (sl [toy_leaf 17])).
Proof. apply (node_hash_reference toy_store []). constructor. Defined.

Lemma jmt_range_proof_verifies_witness :
  exists proof left, jmt_get_range_proof (reader_of toy_store) (toy_key 17) 0 = Ok proof /\
    SparseMerkleRangeProof_verify proof (smt_root (sl [toy_leaf 17])) (sparse_leaf_from (toy_leaf 17)) left = Ok tt.
Proof.
  destruct (jmt_range_proof_verifies (reader_of toy_store) toy_store 0 [toy_leaf 17] (toy_leaf 17))
    as (proof & ls & E & _ & Hv); [apply reads_of|apply toy_store_tree|apply list_elem_of_here|].
  exists proof, ls. split; [exact E|exact Hv].
Defined.

Lemma jmt_partial_proof_witness :
  exists siblings,
    get_with_proof_ext (reader_of toy_store) (toy_key 17) 0 8 =
      Ok (value_at [toy_leaf 17] (toy_key 17),
          new_partial (smp_leaf (sparse_proof_of (sl [toy_leaf 17]) (toy_key 17))) siblings 8) /\
    map NodeInProof_hash siblings =
      drop (Z.to_nat 8) (smp_siblings (sparse_proof_of (sl [toy_leaf 17]) (toy_key 17))).
Proof.
  apply (jmt_partial_proof (reader_of toy_store) toy_store); [apply reads_of|apply toy_store_tree|done|by left].
Defined.

Lemma nibble_ranges_partition_witness :
  exists ranges (rns : list (Z * list (bytes32 * Z))), nibble_ranges [(toy_key 17, 1); (toy_key 18, 2); (toy_key 200, 3)] (Z.of_nat 0) = Ok ranges /\
    concat (map snd rns) = [(toy_key 17, 1); (toy_key 18, 2); (toy_key 200, 3)].
Proof.
  destruct (nibble_ranges_partition [(toy_key 17, 1); (toy_key 18, 2); (toy_key 200, 3)] 0 [])
    as (ranges & rns & E & _ & Hc & _); [done|lia| |by repeat constructor|by exists ranges, rns].
  assert (Hlt : forall a b : bytes32, hv_cmp a b = Lt -> klt a b).
  { intros a b E. pose proof (hv_cmp_cases a b) as Hc. by rewrite E in Hc. }
  repeat constructor; apply Hlt; by vm_compute.
Defined.

Lemma shard_versions_witness :
  get_shard_persisted_versions (reader_of (fun _ => Some (@Node_Null bytes32 Z))) (Some 4) =
  Panic "Assume the db doesn't have exactly 1 state.".
Proof.
  apply (shard_versions (reader_of (fun _ => Some (@Node_Null bytes32 Z))) (fun _ => Some Node_Null) 4 []);
    [apply reads_of|reflexivity].
Defined.

#[local] Existing Instances ref_byteorder ref_byteorder_laws.

Lemma node_key_codec_witness :
  let a := mkNodeKey 3 (pack [1; 2; 3]) in
  NodeKey_decode (NodeKey_encode a) = Ok a.
Proof.
  apply (node_key_codec (mkNodeKey 3 (pack [1; 2; 3])) (mkNodeKey 3 (pack [1])) []);
    [| |constructor]; (split; [done|apply pack_path_ok; [repeat constructor; unfold nibble_ok; lia|cbn; lia]]).
Defined.

(** A codec of leaves: key, value hash, and the value index. *)
#[local] Instance toy_bcs : LeafBcs bytes32 Z := {|
  bcs_to_bytes := fun l => Ok (b32 (account_key l) ++ b32 (value_hash l) ++ [fst (value_index l); snd (value_index l)]);
  bcs_from_bytes := fun bs =>
    match slice32 (take 32 bs), slice32 (take 32 (drop 32 bs)), drop 64 bs with
    | Some k, Some h, [i; v] => Ok (mkLeafNode k h (i, v))
    | _, _, _ => Err "bcs"
    end;
|}.

Lemma slice32_b32 h : slice32 (b32 h) = Some h.
Proof.
  unfold slice32. destruct (decide (bytes32_ok (b32 h) = true)) as [E|E]; [f_equal; by apply b32_inj|].
  destruct E. apply b32_ok.
Qed.

#[local] Instance toy_bcs_laws : LeafBcsLaws (HV := bytes32) (K := Z).
Proof.
  intros [k h [i v]]. eexists. split; [reflexivity|]. cbn [bcs_from_bytes toy_bcs account_key value_hash value_index fst snd].
  pose proof (hv_bytes_length k) as Hk. pose proof (hv_bytes_length h) as Hh.
  change (hv_bytes k) with (b32 k) in Hk. change (hv_bytes h) with (b32 h) in Hh.
  rewrite take_app_length', drop_app_length', take_app_length' by done.
  rewrite app_assoc, drop_app_length' by (rewrite length_app, Hk, Hh; done). by rewrite !slice32_b32.
Qed.

(** An internal node with two leaves below it. *)
Definition toy_internal : InternalNode bytes32 :=
  mkInternalNode [(1, mkChild (of_num 5) 3 NodeType_Leaf); (14, mkChild (of_num 6) 300 (NodeType_Internal 130))] 131.

Lemma node_codec_roundtrip_witness :
  exists bs, Node_encode (Node_Internal toy_internal : Node bytes32 Z) = Ok bs /\
    Node_decode bs = Ok (Node_Internal toy_internal : Node bytes32 Z).
Proof.
  apply (node_codec_roundtrip (Node_Internal toy_internal : Node bytes32 Z)).
  split_and!; [split| | |vm_compute; reflexivity]; try discriminate;
    repeat constructor; unfold nibble_ok, u64_ok, U64; cbn; lia.
Defined.
