(* ===== verification/JellyfishStored.v ===== *)
(** * What is stored is well typed

    The nodes of a version that is kept have keys and fields in their ranges, so that the
    bytes they are stored as decode to them. *)
From stdpp Require Import base list numbers strings option gmap sorting.
From Stdlib Require Import ZArith Lia Bool Sorted.
From S2P Require Import Prelude Hash ToyHash SparseMerkleProof SparseSpec SparseFacts SparseTheorems NibblePath NibblePathFacts ByteCodec JellyfishNode JellyfishNodeFacts JellyfishHash JellyfishCodec JellyfishSpec JellyfishTree JellyfishRead JellyfishRuns JellyfishBatch JellyfishUpdate JellyfishInsert JellyfishCommit JellyfishHistory JellyfishTheorems.

Section Stored.
Context {HV : Type} `{HashValueOps HV} `{HashValueBits HV} `{!HashValueLaws HV} `{CryptoHasher HV}
  `{LeafHasher HV} `{HashValueKeys HV} `{!HashValueKeysLaws HV} `{Itertools} `{!ItertoolsLaws} {K : Type}
  `{ByteOrder} `{!ByteOrderLaws} `{LeafBcs HV K} `{!LeafBcsLaws}.
Implicit Types (td : tree_db (HV := HV) (K := K)) (s : @store HV K) (k : NodeKey) (v : Version) (c : Child HV).

(** The keys that are visited from a root: a child is under the key its parent gives it. *)
Inductive visited s (root : NodeKey) : NodeKey -> Prop :=
| visited_root : visited s root root
| visited_child k node i c k' : visited s root k -> s k = Some (Node_Internal node) ->
    (i, c) ∈ in_children node -> gen_child_node_key k (child_version c) i = Ok k' -> visited s root k'.

(** What is found there is a part of the tree. *)
Lemma visited_represents s v lvs k : tree_at s v lvs -> visited s (mkNodeKey v (pack [])) k ->
  exists p n, nk_nibble_path k = pack p /\ Forall nibble_ok p /\ (length p <= 64)%nat /\ s k = Some n /\
    (n = Node_Null \/ exists L, (length L <= length lvs)%nat /\ represents s p L n).
Proof.
  intros [_ (root & Hroot & Hrep)]. induction 1 as [|k node i c k' Hv (p & n & Ep & Hp & Hl & Hk & Hn) Hs Hin E].
  - exists [], root. split_and!; [done|constructor|cbn; lia|done|]. destruct Hrep as [[_ ->]|Hrep]; [by left|right]. by exists lvs.
  - rewrite Hs in Hk. injection Hk as <-. destruct Hn as [[=]|(L & HL & Hr)]. destruct k as [w path]. cbn [nk_nibble_path] in Ep. subst path.
    inversion Hr as [|? ? cs sub Hlen _ Hst Hsub Hrec _]; subst. cbn [in_children] in Hin. pose proof Hst as ((_ & Hf) & _).
    assert (Hi : nibble_ok i) by (rewrite Forall_forall in Hf; by apply (Hf (i, c))).
    rewrite gen_child_node_key_pack in E by done. injection E as <-. exists (p ++ [i]), (sub i).
    split_and!; [done|by apply Forall_app; rewrite Forall_singleton|rewrite length_app; cbn; lia|by apply (Hsub i c)|right].
    exists (group (length p) i L). split; [|by eapply Hrec]. unfold group. etransitivity; [apply length_filter|done].
Qed.

(** An internal node of the tree has its fields in their ranges. *)
Lemma represents_ok s p L n : represents s p L n -> Z.of_nat (length L) < U64 ->
  (forall k n', s k = Some n' -> u64_ok (nk_version k)) -> match n with Node_Internal i => node_ok i | _ => True end.
Proof.
  intros Hr HL Hver. destruct n as [[cs m]| |]; [|done..]. destruct (represents_internal _ _ _ _ _ Hr) as (Hp & Hst & -> & Hne).
  assert (Hlen : forall i, (length (group (length p) i L) <= length L)%nat) by (intros i; apply length_filter).
  assert (Hch : forall i c, (i, c) ∈ cs -> child_ok c /\ Child_leaf_count c = Ok (Z.of_nat (length (group (length p) i L)))).
  { intros i c Hin. destruct (represents_child _ _ _ _ _ _ _ Hr Hin) as (sub & Hs & Hsub & Ht & _).
    pose proof (Hver _ _ Hs) as Hu. pose proof (represents_type _ _ _ _ Hsub) as Hty. pose proof (Hlen i).
    unfold child_ok, Child_leaf_count. rewrite Ht. destruct (Node_node_type sub); [by rewrite Hty|done|destruct Hty as [-> _]].
    split; [split; [done|unfold u64_ok; lia]|done]. }
  split_and!; cbn [in_children in_leaf_count].
  - by destruct Hst.
  - intros ->. destruct L as [|x L]; [destruct Hne as [Hl|[_ Hl]]; [cbn in Hl; lia|done]|].
    destruct Hst as (_ & Hcov & _). destruct (proj2 (Hcov (nib (account_key x) (length p)) (nib_ok _ _ Hp))) as [c Hc]; [|by apply not_elem_of_nil in Hc].
    unfold group. by rewrite filter_cons_True.
  - apply Forall_forall. intros [i c] Hin. by apply (Hch i c).
  - apply (sum_leaf_counts_spec (length p)); [done..|]. intros i c Hin. by apply Hch.
Qed.

(** The numbers of leaves fit their counters. *)
Lemma reachable_bound td v lvs : db_reachable td -> (v, lvs) ∈ td_versions td -> Z.of_nat (length lvs) < U64.
Proof.
  induction 1 as [|td td' Hr IH Hstep]; [by intros ?%not_elem_of_nil|].
  destruct Hstep as [td reader kvs version pvs caches root b Hb _ _ _ _ _|td st rest _]; [|done].
  cbn [put_db td_versions]. intros [Hin|Hin]%elem_of_app; [by apply IH|]. apply list_elem_of_singleton in Hin. injection Hin as -> ->.
  pose proof (apply_length version (latest td) (btree_of kvs)). pose proof (btree_of_length kvs). unfold update_all. lia.
Qed.

(** C26: The nodes of a version that is kept are well typed: over any interleaving of puts
    and deletions, every key that is visited from the root of the version has a node; the
    key has a path in its packed form and a version in its range, and both the key and
    the node are what the bytes they are stored as decode to. *)
Theorem stored_nodes_typed td v lvs k : db_reachable td -> next_version td <= U64 ->
  (v, lvs) ∈ td_versions td -> kept td v -> visited (td_nodes td) (mkNodeKey v (pack [])) k ->
  exists n bs, td_nodes td k = Some n /\ key_ok k /\ NodeKey_decode (NodeKey_encode k) = Ok k /\
    match n with Node_Internal i => node_ok i | _ => True end /\ Node_encode n = Ok bs /\ Node_decode bs = Ok n.
Proof.
  intros Hr Hu Hv Hk Hvis. pose proof (reachable_inv _ Hr) as Hi.
  assert (Hver : forall k n, td_nodes td k = Some n -> u64_ok (nk_version k)).
  { intros k' n' Hn'. apply (inv_versions _ Hi) in Hn'. unfold u64_ok. lia. }
  destruct (visited_represents _ _ _ _ (reachable_tree _ _ _ Hr Hv Hk) Hvis) as (p & n & Ep & Hp & Hl & Hn & Hrep).
  assert (Hko : key_ok k) by (split; [by eapply Hver|rewrite Ep; by apply pack_path_ok]).
  assert (Hno : match n with Node_Internal i => node_ok i | _ => True end).
  { destruct Hrep as [->|(L & HL & Hrep)]; [done|]. eapply represents_ok; [done| |done].
    pose proof (reachable_bound _ _ _ Hr Hv). lia. }
  destruct (Node_roundtrip n Hno) as (bs & E & D). exists n, bs. by split_and!; [|exact Hko|apply NodeKey_decode_encode| | |].
Qed.
End Stored.

(** ** Witness *)
Section StoredWitness.
#[local] Existing Instances ref_byteorder ref_byteorder_laws toy_bcs toy_bcs_laws.

(** The root of a version with three leaves. *)
Lemma stored_nodes_typed_witness :
  exists (td : @tree_db bytes32 Z) n bs, td_versions td = [(0, toy_lvs)] /\ td_nodes td (mkNodeKey 0 (pack [])) = Some n /\
    Node_encode n = Ok bs /\ Node_decode bs = Ok n.
Proof.
  destruct (put_test_step toy_empty (reader_of (fun _ => None)) toy_updates (reachable_inv _ reach_empty)) as (b & E & Hs).
  - by vm_compute.
  - apply sees_of.
  - destruct (stored_nodes_typed (put_db toy_empty 0 toy_updates b) 0 toy_lvs (mkNodeKey 0 (pack []))) as (n & bs & Hn & _ & _ & _ & He & Hd).
    + by eapply reach_step; [apply reach_empty|].
    + destruct (last_version_put toy_empty 0 toy_updates b) as (_ & _ & ->). unfold U64. lia.
    + left.
    + constructor.
    + constructor.
    + exists (put_db toy_empty 0 toy_updates b), n, bs. exact (conj eq_refl (conj Hn (conj He Hd))).
Defined.
End StoredWitness.
