(* ===== verification/JellyfishIterator.v ===== *)
(** * Iterating over a version

    Model of [storage/jellyfish-merkle/src/iterator/mod.rs]: a depth-first traversal
    that yields the leaves of a version in the order of their keys, from a starting key
    or from an index on. *)
From stdpp Require Import base list numbers strings option gmap.
From Stdlib Require Import ZArith Lia Bool.
From S2P Require Import Prelude Hash SparseMerkleProof NibblePath ByteCodec JellyfishNode JellyfishTree.

(** [x << 1] on [u16] *)
Definition shl16_1 (x : Z) : Z := Z.land (Z.shiftl x 1) 65535.

Section Iterator.
Context {HV : Type} `{HashValueOps HV} `{HashValueBits HV} `{CryptoHasher HV} `{LeafHasher HV}
  `{HashValueKeys HV}.
Context {K : Type}.

(** ** [NodeVisitInfo] *)
Record NodeVisitInfo := mkNodeVisitInfo {
  nvi_node_key : NodeKey;
  nvi_node : InternalNode HV;
  children_bitmap : Z;
  next_child_to_visit : Z;
}.

Definition NodeVisitInfo_new (node_key : NodeKey) (node : InternalNode HV) : outcome NodeVisitInfo :=
  r ← generate_bitmaps node;
  let children_bitmap := fst r in
  _ ← assert (negb (children_bitmap =? 0)) "assertion failed: children_bitmap != 0";
  next ← bit16 (trailing_zeros 16 children_bitmap);
  Ok (mkNodeVisitInfo node_key node children_bitmap next).

(** [while next_child_to_visit & children_bitmap == 0 { next_child_to_visit <<= 1; }]: a
    bit leaves a 16-bit word after 16 shifts. *)
Fixpoint skip_missing (fuel : nat) (next_child_to_visit children_bitmap : Z) : outcome Z :=
  if Z.land next_child_to_visit children_bitmap =? 0 then
    match fuel with
    | O => Panic "out of fuel"
    | S fuel => skip_missing fuel (shl16_1 next_child_to_visit) children_bitmap
    end
  else Ok next_child_to_visit.

Definition new_next_child_to_visit (node_key : NodeKey) (node : InternalNode HV)
    (next_child_to_visit : Nibble) : outcome NodeVisitInfo :=
  r ← generate_bitmaps node;
  let children_bitmap := fst r in
  next ← bit16 next_child_to_visit;
  _ ← assert (next <=? children_bitmap) "assertion failed: children_bitmap >= next_child_to_visit";
  next ← skip_missing 16 next children_bitmap;
  Ok (mkNodeVisitInfo node_key node children_bitmap next).

Definition is_rightmost (self : NodeVisitInfo) : outcome bool :=
  let a := leading_zeros 16 (next_child_to_visit self) in
  let b := leading_zeros 16 (children_bitmap self) in
  _ ← assert (b <=? a)
        "assertion failed: self.next_child_to_visit.leading_zeros() >= self.children_bitmap.leading_zeros()";
  Ok (a =? b).

Definition advance (self : NodeVisitInfo) : outcome NodeVisitInfo :=
  rightmost ← is_rightmost self;
  _ ← assert (negb rightmost) "Advancing past rightmost child.";
  next ← skip_missing 16 (shl16_1 (next_child_to_visit self)) (children_bitmap self);
  Ok (mkNodeVisitInfo (nvi_node_key self) (nvi_node self) (children_bitmap self) next).

(** ** [JellyfishMerkleIterator] *)

(** The top of the stack is the head of the list. *)
Record JellyfishMerkleIterator := mkJellyfishMerkleIterator {
  jmi_version : Version;
  parent_stack : list NodeVisitInfo;
  jmi_done : bool;
}.

Fixpoint cleanup_stack (parent_stack : list NodeVisitInfo) : outcome (list NodeVisitInfo) :=
  match parent_stack with
  | [] => Ok []
  | info :: rest =>
      rightmost ← is_rightmost info;
      if (rightmost : bool) then cleanup_stack rest
      else info ← advance info; Ok (info :: rest)
  end.

(** The loop of [new]: the node at [current_node_key] is not internal, or the iterator
    is ready. *)
Fixpoint jmi_descend (fuel : nat) (reader : TreeReader HV K) (version : Version)
    (current_node_key : NodeKey) (nibble_iter : NibbleIterator) (parent_stack : list NodeVisitInfo)
  : outcome (NodeKey * list NodeVisitInfo + JellyfishMerkleIterator) :=
  n ← get_node reader current_node_key;
  match n with
  | Node_Internal internal_node =>
      match fuel with
      | O => Panic "out of fuel"
      | S fuel =>
          r ← NibbleIterator_next nibble_iter;
          let '(child_index, nibble_iter) := r in
          child_index ← expect child_index "Should have enough nibbles.";
          c ← InternalNode_child internal_node child_index;
          match c with
          | Some child =>
              info ← new_next_child_to_visit current_node_key internal_node child_index;
              key ← gen_child_node_key current_node_key (child_version child) child_index;
              jmi_descend fuel reader version key nibble_iter (info :: parent_stack)
          | None =>
              r ← generate_bitmaps internal_node;
              lz ← sub64 15 (leading_zeros 16 (fst r));
              stack ← (if child_index <? lz then
                         info ← new_next_child_to_visit current_node_key internal_node child_index;
                         Ok (info :: parent_stack)
                       else cleanup_stack parent_stack);
              Ok (inr (mkJellyfishMerkleIterator version stack false))
          end
      end
  | _ => Ok (inl (current_node_key, parent_stack))
  end.

(** What [new] does at the end of its loop. *)
Definition jmi_bottom (reader : TreeReader HV K) (version : Version) (starting_key : HV)
    (current_node_key : NodeKey) (parent_stack : list NodeVisitInfo) : outcome JellyfishMerkleIterator :=
  n ← get_node reader current_node_key;
  match n with
  | Node_Internal _ => Panic "Should have reached the bottom of the tree."
  | Node_Leaf leaf_node =>
      match hv_cmp (account_key leaf_node) starting_key with
      | Lt =>
          stack ← cleanup_stack parent_stack;
          Ok (mkJellyfishMerkleIterator version stack (match stack with [] => true | _ => false end))
      | _ => Ok (mkJellyfishMerkleIterator version parent_stack false)
      end
  | Node_Null => Ok (mkJellyfishMerkleIterator version parent_stack true)
  end.

Definition jmi_new (reader : TreeReader HV K) (version : Version) (starting_key : HV)
  : outcome JellyfishMerkleIterator :=
  current_node_key ← new_empty_path version;
  nibble_path ← new_even (hv_bytes starting_key);
  nibble_iter ← nibbles nibble_path;
  r ← jmi_descend 65 reader version current_node_key nibble_iter [];
  match r with
  | inr it => Ok it
  | inl (current_node_key, parent_stack) =>
      jmi_bottom reader version starting_key current_node_key parent_stack
  end.

(** The child that has the leaf at [target_leaf_idx], and how many leaves are skipped. *)
Fixpoint skip_leaves (children : list (Z * Child HV)) (leaves_skipped target_leaf_idx : Z)
  : outcome ((Z * Child HV) * Z) :=
  match children with
  | [] => Err "Bug: Internal node has less leaves than expected."
  | (nibble, child) :: children =>
      child_leaf_count ← Child_leaf_count child;
      n ← add64 leaves_skipped child_leaf_count;
      if n <=? target_leaf_idx then skip_leaves children n target_leaf_idx
      else Ok ((nibble, child), leaves_skipped)
  end.

(** The loop of [new_by_index], [n] rounds left. *)
Fixpoint jmi_descend_by_index (n : nat) (reader : TreeReader HV K) (version : Version) (start_idx : Z)
    (current_node_key : NodeKey) (current_node : Node HV K) (leaves_skipped : Z)
    (parent_stack : list NodeVisitInfo) : outcome JellyfishMerkleIterator :=
  match n with
  | O => Err "Bug: potential infinite loop."
  | S n =>
      match current_node with
      | Node_Leaf _ =>
          _ ← ensure (leaves_skipped =? start_idx) "Bug: The leaf should be the exact one we are looking for.";
          Ok (mkJellyfishMerkleIterator version parent_stack false)
      | Node_Internal internal_node =>
          r ← skip_leaves (children_sorted internal_node) leaves_skipped start_idx;
          let '((nibble, child), leaves_skipped) := r in
          next_node_key ← gen_child_node_key current_node_key (child_version child) nibble;
          info ← new_next_child_to_visit current_node_key internal_node nibble;
          current_node ← get_node reader next_node_key;
          jmi_descend_by_index n reader version start_idx next_node_key current_node leaves_skipped
            (info :: parent_stack)
      | Node_Null => Panic "Null node has leaf count 0 so here is unreachable"
      end
  end.

Definition jmi_new_by_index (reader : TreeReader HV K) (version : Version) (start_idx : Z)
  : outcome JellyfishMerkleIterator :=
  current_node_key ← new_empty_path version;
  current_node ← get_node reader current_node_key;
  if Node_leaf_count current_node <=? start_idx
  then Ok (mkJellyfishMerkleIterator version [] true)
  else jmi_descend_by_index 65 reader version start_idx current_node_key current_node 0 [].

(** An item of the iterator: a key with its value index, or an error. *)
Abbreviation Item := (HV * (K * Version) + string)%type (only parsing).

Definition item_of (leaf_node : LeafNode HV K) : HV * (K * Version) :=
  (account_key leaf_node, value_index leaf_node).

(** The loop of [next]; every round goes one level down. *)
Fixpoint jmi_next_loop (fuel : nat) (reader : TreeReader HV K) (version : Version)
    (parent_stack : list NodeVisitInfo) : outcome (option Item * JellyfishMerkleIterator) :=
  match parent_stack with
  | [] => Panic "We have checked that self.parent_stack is not empty."
  | last_visited_node_info :: _ =>
      child_index ← nibble_from_u8 (trailing_zeros 16 (next_child_to_visit last_visited_node_info));
      c ← InternalNode_child (nvi_node last_visited_node_info) child_index;
      child ← expect c "Child should exist.";
      node_key ← gen_child_node_key (nvi_node_key last_visited_node_info) (child_version child) child_index;
      match get_node reader node_key with
      | Ok (Node_Internal internal_node) =>
          match fuel with
          | O => Panic "out of fuel"
          | S fuel =>
              visit_info ← NodeVisitInfo_new node_key internal_node;
              jmi_next_loop fuel reader version (visit_info :: parent_stack)
          end
      | Ok (Node_Leaf leaf_node) =>
          stack ← cleanup_stack parent_stack;
          Ok (Some (inl (item_of leaf_node)), mkJellyfishMerkleIterator version stack false)
      | Ok Node_Null => Panic "When tree is empty, done should be already set to true"
      | Err err => Ok (Some (inr err), mkJellyfishMerkleIterator version parent_stack false)
      | Panic e => Panic e
      end
  end.

Definition jmi_next (reader : TreeReader HV K) (self : JellyfishMerkleIterator)
  : outcome (option Item * JellyfishMerkleIterator) :=
  if jmi_done self then Ok (None, self)
  else
    match parent_stack self with
    | [] =>
        root_node_key ← new_empty_path (jmi_version self);
        match get_node reader root_node_key with
        | Ok (Node_Leaf leaf_node) =>
            Ok (Some (inl (item_of leaf_node)), mkJellyfishMerkleIterator (jmi_version self) [] true)
        | Ok (Node_Internal _) => Ok (None, self)
        | Ok Node_Null => Panic "When tree is empty, done should be already set to true"
        | Err err => Ok (Some (inr err), self)
        | Panic e => Panic e
        end
    | stack => jmi_next_loop 64 reader (jmi_version self) stack
    end.

(** The items of an iterator, [fuel] of them at most. *)
Fixpoint jmi_collect (fuel : nat) (reader : TreeReader HV K) (self : JellyfishMerkleIterator)
  : outcome (list Item) :=
  r ← jmi_next reader self;
  match r with
  | (None, _) => Ok []
  | (Some x, self) =>
      match fuel with
      | O => Panic "out of fuel"
      | S fuel => rest ← jmi_collect fuel reader self; Ok (x :: rest)
      end
  end.
End Iterator.
