(* ===== verification/JellyfishIterate.v ===== *)
(** * The leaves an iterator yields

    The stack of an iterator stands for the leaves that are still to come: below the
    next child of its top node and the children after it, and after the current child
    of every node below the top.  [next] yields the first of them, and an iterator
    started at a key (at an index) stands for the leaves from that key (index) on. *)
From stdpp Require Import base list numbers strings option gmap sorting.
From Stdlib Require Import ZArith Lia Bool Sorted.
From S2P Require Import Prelude Hash SparseMerkleProof SparseSpec SparseFacts NibblePath NibblePathFacts ByteCodec JellyfishNode JellyfishNodeFacts JellyfishHash JellyfishSpec JellyfishTree JellyfishRead JellyfishRuns JellyfishBatch JellyfishUpdate JellyfishInsert JellyfishCommit JellyfishIterator.

(** ** Words with one bit *)
Lemma land_bit_bitmap j l : 0 <= j -> Forall (fun i => 0 <= i) l ->
  (Z.land (2 ^ j) (bitmap l) =? 0) = negb (bool_decide (j ∈ l)).
Proof.
  intros Hj Hl. rewrite Z.land_comm. replace (2 ^ j) with (pow2 (Z.to_nat j)) by (unfold pow2; by rewrite Z2Nat.id).
  by rewrite land_pow2_eq0, Z2Nat.id, testbit_bitmap by done.
Qed.

Lemma shl16_1_pow j : 0 <= j < 15 -> shl16_1 (2 ^ j) = 2 ^ (j + 1).
Proof.
  intros Hj. unfold shl16_1. rewrite Z.shiftl_mul_pow2 by lia. change 65535 with (Z.ones 16).
  rewrite Z.land_ones, <- Z.pow_add_r by lia. apply Z.mod_small.
  split; [lia|]. apply Z.pow_lt_mono_r; lia.
Qed.

(** The index of the highest bit. *)
Lemma log2_bitmap l : Forall (fun i => 0 <= i) l -> l <> [] ->
  0 < bitmap l /\ Z.log2 (bitmap l) ∈ l /\ forall i, i ∈ l -> i <= Z.log2 (bitmap l).
Proof.
  intros Hl Hne. pose proof (bitmap_nonneg l Hl) as Hn.
  assert (Hp : 0 < bitmap l).
  { pose proof (bitmap_eq0 l Hl) as E. rewrite bool_decide_false in E by done. apply Z.eqb_neq in E. lia. }
  split; [done|]. split.
  - pose proof (Z.bit_log2 (bitmap l) Hp) as E. rewrite testbit_bitmap in E by (done || apply Z.log2_nonneg).
    by apply bool_decide_eq_true in E.
  - intros i Hi. destruct (Z.le_gt_cases i (Z.log2 (bitmap l))) as [|Hgt]; [done|].
    apply Z.bits_above_log2 in Hgt; [|done]. rewrite Forall_forall in Hl. rewrite testbit_bitmap in Hgt;
      [|by apply Forall_forall|by apply Hl]. by apply bool_decide_eq_false in Hgt.
Qed.

Lemma skip_missing_spec l i : Forall nibble_ok l -> i ∈ l -> forall fuel j, 0 <= j <= i ->
  i - j <= Z.of_nat fuel ->
  exists j', skip_missing fuel (2 ^ j) (bitmap l) = Ok (2 ^ j') /\ j <= j' /\ j' ∈ l /\
    forall k, k ∈ l -> j <= k -> j' <= k.
Proof.
  intros Hl Hi. assert (H0 : Forall (fun i => 0 <= i) l) by (eapply Forall_impl; [exact Hl|unfold nibble_ok; lia]).
  assert (Hi15 : i < 16) by (rewrite Forall_forall in Hl; apply Hl in Hi; unfold nibble_ok in Hi; lia).
  induction fuel as [|fuel IH]; intros j Hj Hf; cbn [skip_missing]; rewrite land_bit_bitmap by (lia || done);
    (destruct (decide (j ∈ l)) as [Hin|Hin];
      [rewrite bool_decide_true by done; exists j; cbn [negb]; split_and!; [done|lia|done|done]|
       rewrite bool_decide_false by done; cbn [negb]]).
  - assert (j = i) as -> by lia. done.
  - assert (j <> i) by (by intros ->). rewrite shl16_1_pow by lia.
    destruct (IH (j + 1) ltac:(lia) ltac:(lia)) as (j' & -> & Hj' & Hin' & Hmin). exists j'.
    split_and!; [done|lia|done|]. intros k Hk Hjk. apply Hmin; [done|].
    destruct (decide (k = j)) as [->|]; [done|lia].
Qed.

Section Iterate.
Context {HV : Type} `{HashValueOps HV} `{HashValueBits HV} `{!HashValueLaws HV} `{CryptoHasher HV}
  `{LeafHasher HV} `{HashValueKeys HV} `{!HashValueKeysLaws HV} {K : Type}.
Implicit Types (cs : list (Z * Child HV)) (lvs L : list (LeafNode HV K)) (x y : LeafNode HV K)
  (p : list Z) (s : store (HV := HV) (K := K)) (st : list (NodeVisitInfo (HV := HV))).

(** ** Leaves in the order of their keys *)
Definition by_key x y : Prop := klt (account_key x) (account_key y).

Definition key_le x y : Prop := hv_cmp (account_key x) (account_key y) <> Gt.

#[export] Instance key_le_dec x y : Decision (key_le x y).
Proof. unfold key_le. apply _. Defined.

Definition in_order lvs : list (LeafNode HV K) := merge_sort key_le lvs.

Lemma key_le_cases x y : key_le x y <-> by_key x y \/ account_key x = account_key y.
Proof.
  unfold key_le, by_key. pose proof (hv_cmp_cases (account_key x) (account_key y)) as Hc.
  destruct (hv_cmp _ _); split; try done; auto.
  intros [Hk|E]; [by apply klt_asym in Hk|rewrite E in Hc; by apply klt_irrefl in Hc].
Qed.

#[local] Instance key_le_trans : Transitive key_le.
Proof.
  intros x y z. rewrite !key_le_cases. unfold by_key.
  intros [Hx|Hx] [Hy|Hy]; [left; by eapply klt_trans|left; congruence|left; congruence|right; congruence].
Qed.

#[local] Instance key_le_total : Total key_le.
Proof.
  intros x y. unfold key_le. pose proof (hv_cmp_cases (account_key x) (account_key y)) as Hc.
  destruct (hv_cmp _ _) eqn:E; [left; done|left; done|right]. by rewrite (hv_cmp_lt _ _ Hc).
Qed.

Lemma in_order_perm lvs : in_order lvs ≡ₚ lvs.
Proof. apply merge_sort_Permutation. Qed.

Lemma in_order_sorted lvs : NoDup (map account_key lvs) -> StronglySorted by_key (in_order lvs).
Proof.
  intros Hnd. assert (Hs : StronglySorted key_le (in_order lvs)) by (apply StronglySorted_merge_sort; apply _).
  rewrite <- (in_order_perm lvs) in Hnd. induction Hs as [|x l Hs IH Hf]; [constructor|].
  cbn [map] in Hnd. apply NoDup_cons in Hnd as [Hx Hnd]. constructor; [by apply IH|].
  rewrite Forall_forall in *. intros y Hy. destruct (proj1 (key_le_cases x y) (Hf y Hy)) as [|E]; [done|].
  exfalso. apply Hx. rewrite E. by apply (list_elem_of_fmap_2 account_key).
Qed.

Lemma ordered_unique L M : StronglySorted by_key L -> StronglySorted by_key M -> L ≡ₚ M -> L = M.
Proof.
  assert (AntiSymm (=) by_key).
  { intros x y Hx Hy. by apply klt_asym in Hx. }
  intros HL HM Hp. by apply (StronglySorted_unique by_key).
Qed.

Lemma in_order_app lvs A B : NoDup (map account_key lvs) -> lvs ≡ₚ A ++ B ->
  (forall x y, x ∈ A -> y ∈ B -> by_key x y) -> in_order lvs = in_order A ++ in_order B.
Proof.
  intros Hnd Hp Hlt. assert (Hab : NoDup (map account_key A) /\ NoDup (map account_key B)).
  { rewrite Hp, map_app in Hnd. by apply NoDup_app in Hnd as (? & _ & ?). }
  destruct Hab as [Ha Hb]. apply ordered_unique; [by apply in_order_sorted| |by rewrite !in_order_perm].
  pose proof (in_order_sorted _ Ha) as Sa. pose proof (in_order_sorted _ Hb) as Sb.
  assert (Hab : Forall (fun x => Forall (by_key x) (in_order B)) (in_order A)).
  { apply Forall_forall. intros x Hx. apply Forall_forall. intros y Hy.
    rewrite in_order_perm in Hx. rewrite in_order_perm in Hy. by apply Hlt. }
  induction Sa as [|x l Sa IH Hf]; [done|]. apply Forall_cons in Hab as [Hx Hab]. cbn [app].
  constructor; [by apply IH|]. by apply Forall_app.
Qed.

(** ** The leaves below the children from [j] on *)
Definition at_least (d : nat) (j : Z) lvs : list (LeafNode HV K) :=
  filter (fun x => j <= nib (account_key x) d) lvs.

Lemma starts_klt p (a b : HV) : starts p a -> starts p b -> (length p < 64)%nat ->
  nib a (length p) < nib b (length p) -> klt a b.
Proof. intros Ha Hb Hp Hlt. exists (length p). split_and!; [done| |done]. intros i Hi. by eapply starts_nib. Qed.

Lemma placed_filter p lvs (P : LeafNode HV K -> Prop) `{!forall x, Decision (P x)} :
  placed p lvs -> placed p (filter P lvs).
Proof.
  intros [Hnd Hf]. split.
  - eapply sublist_NoDup; [exact Hnd|]. apply fmap_sublist, sublist_filter.
  - apply Forall_forall. intros x Hx. apply list_elem_of_filter in Hx as [_ Hx]. rewrite Forall_forall in Hf. by apply Hf.
Qed.

Lemma filter_split (P Q R : LeafNode HV K -> Prop) `{!forall x, Decision (P x)} `{!forall x, Decision (Q x)}
    `{!forall x, Decision (R x)} lvs : (forall x, x ∈ lvs -> P x <-> Q x \/ R x) -> (forall x, Q x -> ~ R x) ->
  filter P lvs ≡ₚ filter Q lvs ++ filter R lvs.
Proof.
  intros E Hd. induction lvs as [|x lvs IH]; [done|]. rewrite !filter_cons.
  assert (IH' : filter P lvs ≡ₚ filter Q lvs ++ filter R lvs) by (apply IH; intros; apply E; by right).
  specialize (E x ltac:(left)). specialize (Hd x). clear IH.
  destruct (decide (P x)), (decide (Q x)), (decide (R x)); try tauto.
  - by rewrite IH'.
  - by rewrite IH', Permutation_middle.
Qed.

(** Leaves split by their nibble at the depth of the node. *)
Lemma in_order_nibble p lvs (P Q R : LeafNode HV K -> Prop) `{!forall x, Decision (P x)}
    `{!forall x, Decision (Q x)} `{!forall x, Decision (R x)} : (length p < 64)%nat -> placed p lvs ->
  (forall x, x ∈ lvs -> P x <-> Q x \/ R x) ->
  (forall x y, Q x -> R y -> nib (account_key x) (length p) < nib (account_key y) (length p)) ->
  in_order (filter P lvs) = in_order (filter Q lvs) ++ in_order (filter R lvs).
Proof.
  intros Hp Hpl E Hlt. apply in_order_app.
  - by apply (placed_filter p lvs P).
  - apply filter_split; [done|]. intros x HQ HR. specialize (Hlt x x HQ HR). lia.
  - destruct Hpl as [_ Hf]. rewrite Forall_forall in Hf. intros x y Hx Hy.
    apply list_elem_of_filter in Hx as [HQ Hx], Hy as [HR Hy].
    apply (starts_klt p); [by apply Hf|by apply Hf|done|by apply Hlt].
Qed.

Lemma in_order_at_least p lvs j : (length p < 64)%nat -> placed p lvs ->
  in_order (at_least (length p) j lvs) =
  in_order (group (length p) j lvs) ++ in_order (at_least (length p) (j + 1) lvs).
Proof. intros Hp Hpl. apply (in_order_nibble p); [done|done|intros x _; lia|intros x y ? ?; lia]. Qed.

(** No leaf has a nibble between two children. *)
Lemma at_least_next d cs lvs j j' : (d < 64)%nat -> stand_for d cs lvs -> j <= j' ->
  (forall i, i ∈ idx cs -> j <= i -> j' <= i) -> at_least d j lvs = at_least d j' lvs.
Proof.
  intros Hd Hst Hj Hmin. unfold at_least. rewrite <- (filter_all (fun x => nib (account_key x) d ∈ idx cs) lvs).
  - rewrite !list_filter_filter. apply list_filter_iff. intros x. split; [|intuition lia].
    intros [Hx Hin]. split; [by apply Hmin|done].
  - apply Forall_forall. intros x Hx. destruct Hst as (_ & Hg & _).
    destruct (proj2 (Hg (nib (account_key x) d) (nib_ok _ _ Hd))) as [c Hc].
    + intros En. assert (Hxg : x ∈ group d (nib (account_key x) d) lvs) by (by apply list_elem_of_filter).
      rewrite En in Hxg. by apply not_elem_of_nil in Hxg.
    + by apply (list_elem_of_fmap_2 fst) in Hc.
Qed.

Lemma at_least_all d cs lvs j : (d < 64)%nat -> stand_for d cs lvs ->
  (forall i, i ∈ idx cs -> j <= i) -> at_least d j lvs = lvs.
Proof.
  intros Hd Hst Hmin. destruct (Z.le_gt_cases j 0).
  - apply filter_all, Forall_forall. intros x _. pose proof (nib_ok (account_key x) d Hd). unfold nibble_ok in *. lia.
  - rewrite <- (at_least_next d cs lvs 0 j) by (done || lia || auto).
    apply filter_all, Forall_forall. intros x _. pose proof (nib_ok (account_key x) d Hd). unfold nibble_ok in *. lia.
Qed.

Lemma at_least_none d cs lvs j : (d < 64)%nat -> stand_for d cs lvs ->
  (forall i, i ∈ idx cs -> i < j) -> at_least d j lvs = [].
Proof.
  intros Hd Hst Hmax. rewrite (at_least_next d cs lvs j (Z.max j 16)); [|done|done|lia|].
  - apply filter_none, Forall_forall. intros x _. pose proof (nib_ok (account_key x) d Hd). unfold nibble_ok in *. lia.
  - intros i Hi Hj. specialize (Hmax i Hi). lia.
Qed.

(** ** The stack *)

(** An entry of the stack: the node at [p], whose next child is [j]. *)
Inductive frame s p lvs (j : Z) : NodeVisitInfo (HV := HV) -> Prop :=
| frame_intro cs n v :
    Forall nibble_ok p -> placed p lvs -> represents s p lvs (Node_Internal (mkInternalNode cs n)) ->
    j ∈ idx cs ->
    frame s p lvs j (mkNodeVisitInfo (mkNodeKey v (pack p)) (mkInternalNode cs n) (bitmap (idx cs)) (2 ^ j)).

(** The leaves after the current child of every entry. *)
Inductive pending s : list (NodeVisitInfo (HV := HV)) -> list (LeafNode HV K) -> Prop :=
| pending_nil : pending s [] []
| pending_cons f st p lvs j L : frame s p lvs j f -> pending s st L ->
    pending s (f :: st) (in_order (at_least (length p) (j + 1) lvs) ++ L).

(** The leaves from the next child of the top entry on. *)
Inductive coming s : list (NodeVisitInfo (HV := HV)) -> list (LeafNode HV K) -> Prop :=
| coming_nil : coming s [] []
| coming_cons f st p lvs j L : frame s p lvs j f -> pending s st L ->
    coming s (f :: st) (in_order (at_least (length p) j lvs) ++ L).

Lemma idx_bounds cs : children_ok cs -> Forall nibble_ok (idx cs) /\ Forall (fun i => 0 <= i) (idx cs).
Proof. intros [_ Hf]. split; [by apply Forall_map|by apply idx_nonneg]. Qed.

Lemma frame_rightmost s p lvs j f : frame s p lvs j f ->
  exists m, m ∈ idx (in_children (nvi_node f)) /\ (forall i, i ∈ idx (in_children (nvi_node f)) -> i <= m) /\
    is_rightmost f = Ok (j =? m).
Proof.
  intros [cs n v Hp Hpl Hr Hj]. destruct (represents_internal _ _ _ _ _ Hr) as (Hd & Hst & _).
  pose proof Hst as (Hc & _). destruct (idx_bounds cs Hc) as [Hb H0']. cbn [nvi_node in_children].
  destruct (log2_bitmap (idx cs) H0') as (Hpos & Hm & Hmax); [by intros E; rewrite E in Hj; apply not_elem_of_nil in Hj|].
  exists (Z.log2 (bitmap (idx cs))). split_and!; [done|done|]. unfold is_rightmost. cbn [next_child_to_visit children_bitmap].
  assert (Hj0 : 0 <= j) by (rewrite Forall_forall in H0'; by apply H0').
  unfold leading_zeros. rewrite (proj2 (Z.eqb_neq _ 0)) by (apply Z.pow_nonzero; lia).
  rewrite (proj2 (Z.eqb_neq (bitmap _) 0)) by lia. rewrite Z.log2_pow2 by done.
  pose proof (Hmax j Hj). rewrite assert_true, obind_Ok by (apply Z.leb_le; lia). f_equal.
  destruct (j =? _) eqn:E; [apply Z.eqb_eq in E|apply Z.eqb_neq in E]; [apply Z.eqb_eq|apply Z.eqb_neq]; lia.
Qed.

Lemma frame_advance s p lvs j f : frame s p lvs j f -> is_rightmost f = Ok false ->
  exists f' j', advance f = Ok f' /\ frame s p lvs j' f' /\
    at_least (length p) (j + 1) lvs = at_least (length p) j' lvs.
Proof.
  intros Hf Hrm. destruct (frame_rightmost s p lvs j f Hf) as (m & Hm & Hmax & E). rewrite Hrm in E.
  injection E as E. symmetry in E. apply Z.eqb_neq in E. unfold advance. rewrite Hrm, obind_Ok, assert_true, obind_Ok by done.
  destruct Hf as [cs n v Hp Hpl Hr Hj]. cbn [nvi_node_key nvi_node in_children children_bitmap next_child_to_visit] in *.
  destruct (represents_internal _ _ _ _ _ Hr) as (Hd & Hst & _).
  pose proof Hst as (Hc & _). destruct (idx_bounds cs Hc) as [Hb H0'].
  pose proof (Hmax j Hj). rewrite Forall_forall in Hb. pose proof (Hb j Hj) as Hjn. pose proof (Hb m Hm) as Hmn.
  unfold nibble_ok in Hjn, Hmn. rewrite shl16_1_pow by lia.
  destruct (skip_missing_spec (idx cs) m ltac:(by apply Forall_forall) Hm 16 (j + 1) ltac:(lia) ltac:(lia))
    as (j' & -> & Hj' & Hin & Hmin).
  rewrite obind_Ok. eexists _, j'. split; [done|]. split; [by constructor|].
  by apply (at_least_next _ cs).
Qed.

Lemma cleanup_stack_spec s st L : pending s st L ->
  exists st', cleanup_stack st = Ok st' /\ coming s st' L.
Proof.
  induction 1 as [|f st p lvs j L Hf Hst IH]; [exists []; split; [done|constructor]|].
  destruct (frame_rightmost s p lvs j f Hf) as (m & Hm & Hmax & E). cbn [cleanup_stack]. rewrite E, obind_Ok.
  destruct (j =? m) eqn:Ejm.
  - apply Z.eqb_eq in Ejm as ->. destruct IH as (st' & -> & Hc). exists st'. split; [done|].
    destruct Hf as [cs n v Hp Hpl Hr Hj]. destruct (represents_internal _ _ _ _ _ Hr) as (Hd & Hsf & _).
    cbn [nvi_node in_children] in *. rewrite (at_least_none _ cs); [done|done|done|].
    intros i Hi. specialize (Hmax i Hi). lia.
  - destruct (frame_advance s p lvs j f Hf E) as (f' & j' & -> & Hf' & ->). rewrite obind_Ok.
    exists (f' :: st). split; [done|by constructor].
Qed.

(** An entry made for a node. *)
Lemma NodeVisitInfo_new_spec s p lvs v cs n : Forall nibble_ok p -> placed p lvs ->
  represents s p lvs (Node_Internal (mkInternalNode cs n)) ->
  exists f j, NodeVisitInfo_new (mkNodeKey v (pack p)) (mkInternalNode cs n) = Ok f /\ frame s p lvs j f /\
    at_least (length p) j lvs = lvs.
Proof.
  intros Hp Hpl Hr. destruct (represents_internal _ _ _ _ _ Hr) as (Hd & Hst & _).
  pose proof Hst as (Hc & _). destruct (idx_bounds cs Hc) as [Hb H0'].
  assert (Hne : cs <> []).
  { intros ->. apply stand_for_nil in Hst; [|done]. by apply represents_nonempty in Hr. }
  destruct cs as [|[j c] cs]; [done|]. unfold NodeVisitInfo_new.
  rewrite generate_bitmaps_spec, obind_Ok by apply Hc. unfold bitmaps_of. cbn [in_children fst].
  rewrite bitmap_eq0, bool_decide_false by done. rewrite assert_true, obind_Ok by done.
  destruct Hc as [Hs Hcn]. assert (Hss : StronglySorted Z.lt (j :: idx cs)) by exact Hs.
  cbn [idx map fst] in *. apply Forall_cons in H0' as [Hj0 _]. apply Forall_cons in Hb as [Hj _].
  rewrite trailing_zeros_bitmap by done. unfold bit16, nibble_ok in *. rewrite (proj2 (Z.ltb_lt _ _)) by lia.
  rewrite obind_Ok, Z.shiftl_1_l. eexists _, j. split; [done|]. split.
  - constructor; [done|done|done|left].
  - apply (at_least_all _ ((j, c) :: cs)); [done|done|]. intros i Hi. cbn [idx map fst] in Hi.
    apply elem_of_cons in Hi as [->|Hi]; [lia|]. apply StronglySorted_inv in Hss as [_ Hf].
    rewrite Forall_forall in Hf. specialize (Hf i Hi). lia.
Qed.

Lemma new_next_child_spec s p lvs v cs n i m : Forall nibble_ok p -> placed p lvs ->
  represents s p lvs (Node_Internal (mkInternalNode cs n)) -> nibble_ok i -> m ∈ idx cs -> i <= m ->
  exists f j, new_next_child_to_visit (mkNodeKey v (pack p)) (mkInternalNode cs n) i = Ok f /\ frame s p lvs j f /\
    at_least (length p) i lvs = at_least (length p) j lvs /\ (i ∈ idx cs -> j = i).
Proof.
  intros Hp Hpl Hr Hi Hm Him. destruct (represents_internal _ _ _ _ _ Hr) as (Hd & Hst & _).
  pose proof Hst as (Hc & _). destruct (idx_bounds cs Hc) as [Hb H0'].
  destruct (log2_bitmap (idx cs) H0') as (Hpos & _ & Hmax); [by intros E; rewrite E in Hm; apply not_elem_of_nil in Hm|].
  pose proof (Hmax m Hm) as Hml. pose proof (Z.log2_spec _ Hpos) as [Hlo _].
  assert (Hmn : nibble_ok m) by (rewrite Forall_forall in Hb; by apply Hb).
  unfold new_next_child_to_visit. rewrite generate_bitmaps_spec, obind_Ok by apply Hc.
  unfold bitmaps_of, bit16, nibble_ok in *. cbn [in_children fst]. rewrite (proj2 (Z.ltb_lt _ _)) by lia.
  rewrite obind_Ok, Z.shiftl_1_l. rewrite assert_true, obind_Ok.
  2:{ apply Z.leb_le. etrans; [|exact Hlo]. apply Z.pow_le_mono_r; lia. }
  destruct (skip_missing_spec (idx cs) m Hb Hm 16 i ltac:(lia) ltac:(lia)) as (j & -> & Hj & Hin & Hmin).
  rewrite obind_Ok. eexists _, j. split; [done|]. split; [by constructor|]. split.
  - by apply (at_least_next _ cs).
  - intros Hii. specialize (Hmin i Hii ltac:(lia)). lia.
Qed.

(** ** [next] *)
Lemma child_at cs n j : children_ok cs -> j ∈ idx cs ->
  exists c, (j, c) ∈ cs /\ InternalNode_child (mkInternalNode cs n) j = Ok (Some c).
Proof.
  intros [Hs _] Hj. apply list_elem_of_fmap in Hj as ([i c] & E & Hc). cbn [fst] in E. subst j. exists c. split; [done|].
  unfold InternalNode_child. cbn [in_children]. rewrite Children_get_assoc by done. f_equal. by apply assoc_sorted.
Qed.

Lemma child_missing cs n j : children_ok cs -> j ∉ idx cs ->
  InternalNode_child (mkInternalNode cs n) j = Ok None.
Proof.
  intros [Hs _] Hj. unfold InternalNode_child. cbn [in_children]. rewrite Children_get_assoc by done. f_equal.
  apply assoc_None, Forall_forall. intros [i c] Hi E. cbn [fst] in E. subst j. apply Hj. by apply (list_elem_of_fmap_2 fst) in Hi.
Qed.

Lemma path_snoc_ok p i : Forall nibble_ok p -> nibble_ok i -> Forall nibble_ok (p ++ [i]).
Proof. intros Hp Hi. apply Forall_app. by rewrite Forall_singleton. Qed.

Lemma get_node_reads (reader : TreeReader HV K) s k n : reads reader s -> s k = Some n -> get_node reader k = Ok n.
Proof. intros Hr E. by eapply reads_node. Qed.

(** Yield the leftmost leaf below the next child. *)
Lemma next_loop_spec (reader : TreeReader HV K) s v : reads reader s -> forall fuel f st p lvs j L,
  (63 <= length p + fuel)%nat -> frame s p lvs j f -> pending s st L ->
  exists x L' st', in_order (at_least (length p) j lvs) ++ L = x :: L' /\ coming s st' L' /\
    jmi_next_loop fuel reader v (f :: st) = Ok (Some (inl (item_of x)), mkJellyfishMerkleIterator v st' false).
Proof.
  intros Hrd. induction fuel as [|fuel IH]; intros f st p lvs j L Hfu Hf Hpe;
    pose proof (pending_cons s f st p lvs j L Hf Hpe) as Hpf; destruct Hf as [cs n w Hp Hpl Hr Hj];
    destruct (represents_internal _ _ _ _ _ Hr) as (Hd & Hst & _); pose proof Hst as (Hc & _);
    destruct (child_at cs n j Hc Hj) as (c & Hin & Ec);
    destruct (represents_child _ _ _ _ _ _ _ Hr Hin) as (sub & Hs & Hsub & _ & Hjn);
    assert (Ej : nibble_from_u8 (trailing_zeros 16 (2 ^ j)) = Ok j)
      by (pose proof (trailing_zeros_bitmap 16 j [] (proj1 Hjn) ltac:(repeat constructor)) as Et;
          cbn [bitmap foldr] in Et; rewrite Z.lor_0_r in Et; by rewrite Et, nibble_from_u8_Ok);
    unfold child_key in Hs; cbn [fst snd] in Hs;
    cbn [jmi_next_loop next_child_to_visit nvi_node nvi_node_key];
    rewrite Ej, obind_Ok, Ec, obind_Ok; cbn [expect]; rewrite obind_Ok;
    rewrite gen_child_node_key_pack, obind_Ok by done; rewrite (get_node_reads _ _ _ _ Hrd Hs);
    rewrite in_order_at_least by done; rewrite <- app_assoc;
    (destruct sub as [[cs' n']|x|]; [| |by inversion Hsub]).
  - apply represents_internal in Hsub as (Hlen & _). rewrite length_app in Hlen. cbn in Hlen. lia.
  - destruct (cleanup_stack_spec _ _ _ Hpf) as (st' & -> & Hco). rewrite obind_Ok.
    assert (Eg : group (length p) j lvs = [x]) by (by inversion Hsub). rewrite Eg.
    by exists x, (in_order (at_least (length p) (j + 1) lvs) ++ L), st'.
  - destruct (NodeVisitInfo_new_spec s (p ++ [j]) (group (length p) j lvs) (child_version c) cs' n')
      as (f' & j' & E' & Hf' & Eall); [by apply path_snoc_ok|by apply group_placed|done|].
    rewrite E', obind_Ok. pose proof (IH f' _ (p ++ [j]) _ _ _ ltac:(rewrite length_app; cbn; lia) Hf' Hpf) as Hn.
    rewrite Eall in Hn. exact Hn.
  - destruct (cleanup_stack_spec _ _ _ Hpf) as (st' & -> & Hco). rewrite obind_Ok.
    assert (Eg : group (length p) j lvs = [x]) by (by inversion Hsub). rewrite Eg.
    by exists x, (in_order (at_least (length p) (j + 1) lvs) ++ L), st'.
Qed.

(** An iterator that has the leaves [L] left. *)
Inductive has_left s (v : Version) : JellyfishMerkleIterator (HV := HV) -> list (LeafNode HV K) -> Prop :=
| left_done st : has_left s v (mkJellyfishMerkleIterator v st true) []
| left_one x : s (mkNodeKey v (pack [])) = Some (Node_Leaf x) ->
    has_left s v (mkJellyfishMerkleIterator v [] false) [x]
| left_stack st L node : s (mkNodeKey v (pack [])) = Some (Node_Internal node) -> coming s st L ->
    has_left s v (mkJellyfishMerkleIterator v st false) L.

Lemma jmi_next_spec (reader : TreeReader HV K) s v it L : reads reader s -> has_left s v it L ->
  match L with
  | [] => jmi_next reader it = Ok (None, it)
  | x :: L' => exists it', jmi_next reader it = Ok (Some (inl (item_of x)), it') /\ has_left s v it' L'
  end.
Proof.
  intros Hrd [st|x Hs|st L' node Hs Hco]; unfold jmi_next; cbn [jmi_done parent_stack jmi_version].
  - done.
  - rewrite new_empty_path_pack, obind_Ok, (get_node_reads _ _ _ _ Hrd Hs). eexists. split; [done|constructor].
  - destruct Hco as [|f st p lvs j L1 Hf Hpe].
    + by rewrite new_empty_path_pack, obind_Ok, (get_node_reads _ _ _ _ Hrd Hs).
    + destruct (next_loop_spec reader s v Hrd 64 f st p lvs j L1 ltac:(lia) Hf Hpe) as (x & L2 & st' & -> & Hco & ->).
      eexists. split; [done|]. by eapply left_stack.
Qed.

Lemma jmi_collect_spec (reader : TreeReader HV K) s v L : reads reader s -> forall fuel it,
  has_left s v it L -> (length L <= fuel)%nat ->
  jmi_collect fuel reader it = Ok (map (fun x => inl (item_of x)) L).
Proof.
  intros Hrd. induction L as [|x L IH]; intros fuel it Hl Hf; pose proof (jmi_next_spec reader s v it _ Hrd Hl) as Hn.
  - destruct fuel; cbn [jmi_collect]; by rewrite Hn, obind_Ok.
  - destruct Hn as (it' & En & Hl'). destruct fuel as [|fuel]; [cbn in Hf; lia|]. cbn [jmi_collect].
    rewrite En, obind_Ok, (IH fuel it' Hl') by (cbn in Hf; lia). by rewrite obind_Ok.
Qed.

(** ** [new] *)

(** The leaves from a key on. *)
Definition from_key (start : HV) lvs : list (LeafNode HV K) :=
  filter (fun x => hv_cmp (account_key x) start <> Lt) lvs.

Lemma from_key_split p lvs (start : HV) : (length p < 64)%nat -> placed p lvs -> starts p start ->
  in_order (from_key start lvs) =
  in_order (from_key start (group (length p) (nib start (length p)) lvs)) ++
  in_order (at_least (length p) (nib start (length p) + 1) lvs).
Proof.
  intros Hp Hpl Hst. unfold from_key, group. rewrite list_filter_filter.
  apply (in_order_nibble p); [done|done| |intros x y [_ ?] ?; lia].
  intros x Hx. destruct Hpl as [_ Hf]. rewrite Forall_forall in Hf. specialize (Hf x Hx).
  destruct (Z.lt_trichotomy (nib (account_key x) (length p)) (nib start (length p))) as [Hlt|[E|Hgt]].
  - apply (starts_klt p) in Hlt as Hk; [|done..]. rewrite (hv_cmp_lt _ _ Hk). split; [done|intros [[? _]|?]; [done|lia]].
  - rewrite E. split; [intros ?; by left|intros [[? _]|?]; [done|lia]].
  - apply (starts_klt p) in Hgt as Hk; [|done..]. rewrite (hv_cmp_gt _ _ Hk). split; [intros _; right; lia|done].
Qed.

(** The state of the loop of [new] and [new_by_index] at the node at [p]. *)
Record at_node s (v0 v : Version) p lvs (node : Node HV K) st L : Prop := {
  an_path : Forall nibble_ok p;
  an_len : (length p <= 64)%nat;
  an_placed : placed p lvs;
  an_stored : s (mkNodeKey v (pack p)) = Some node;
  an_represents : represents s p lvs node;
  an_pending : pending s st L;
  an_coming : st = [] \/ coming s st (in_order lvs ++ L);
  an_root : (st = [] /\ p = [] /\ v = v0) \/
    (st <> [] /\ exists node, s (mkNodeKey v0 (pack [])) = Some (Node_Internal node));
}.

Lemma at_node_root s v0 v p lvs node st L : at_node s v0 v p lvs (Node_Internal node) st L ->
  exists node, s (mkNodeKey v0 (pack [])) = Some (Node_Internal node).
Proof.
  intros Ha. destruct (an_root _ _ _ _ _ _ _ _ Ha) as [(_ & -> & ->)|[_ ?]]; [|done].
  eexists. by apply (an_stored _ _ _ _ _ _ _ _ Ha).
Qed.

(** One step down. *)
Lemma at_node_child s v0 v p lvs cs n st L i c : at_node s v0 v p lvs (Node_Internal (mkInternalNode cs n)) st L ->
  (i, c) ∈ cs ->
  exists f sub, new_next_child_to_visit (mkNodeKey v (pack p)) (mkInternalNode cs n) i = Ok f /\
    gen_child_node_key (mkNodeKey v (pack p)) (child_version c) i = Ok (child_key p (i, c)) /\
    at_node s v0 (child_version c) (p ++ [i]) (group (length p) i lvs) sub (f :: st)
      (in_order (at_least (length p) (i + 1) lvs) ++ L).
Proof.
  intros Ha Hin. pose proof (at_node_root _ _ _ _ _ _ _ _ Ha) as Hroot.
  destruct Ha as [Hp Hlen Hpl Hs Hr Hpe _ _].
  destruct (represents_internal _ _ _ _ _ Hr) as (Hd & Hst & _).
  destruct (represents_child _ _ _ _ _ _ _ Hr Hin) as (sub & Hsub & Hrep & _ & Hi).
  assert (Hii : i ∈ idx cs) by (by apply (list_elem_of_fmap_2 fst) in Hin).
  destruct (new_next_child_spec s p lvs v cs n i i Hp Hpl Hr Hi Hii ltac:(lia)) as (f & j & Ef & Hf & _ & Ej).
  specialize (Ej Hii). subst j. exists f, sub. split; [done|]. split; [by rewrite gen_child_node_key_pack|].
  constructor.
  - by apply path_snoc_ok.
  - rewrite length_app. cbn. lia.
  - by apply group_placed.
  - exact Hsub.
  - done.
  - by constructor.
  - right. rewrite app_assoc, <- in_order_at_least by done. by constructor.
  - by right.
Qed.

Lemma jmi_bottom_spec (reader : TreeReader HV K) s v0 v p lvs x st L start : reads reader s ->
  at_node s v0 v p lvs (Node_Leaf x) st L ->
  exists it, jmi_bottom reader v0 start (mkNodeKey v (pack p)) st = Ok it /\
    has_left s v0 it (in_order (from_key start lvs) ++ L).
Proof.
  intros Hrd [_ _ _ Hs Hr Hpe Hco Hroot]. unfold jmi_bottom. rewrite (get_node_reads _ _ _ _ Hrd Hs), obind_Ok.
  assert (lvs = [x]) as -> by (by inversion Hr).
  assert (Hge : hv_cmp (account_key x) start <> Lt ->
    has_left s v0 (mkJellyfishMerkleIterator v0 st false) (in_order (from_key start [x]) ++ L)).
  { intros Hc. unfold from_key. rewrite filter_cons, decide_True, filter_nil by done.
    destruct Hroot as [(-> & -> & ->)|[Hne [node Hn]]].
    - inversion Hpe; subst. by constructor.
    - destruct Hco as [|Hco]; [done|]. by eapply left_stack. }
  destruct (hv_cmp (account_key x) start) eqn:Ec; [by eexists; split; [|apply Hge]| |by eexists; split; [|apply Hge]].
  destruct (cleanup_stack_spec _ _ _ Hpe) as (st' & Est & Hc'). rewrite Est, obind_Ok. eexists. split; [done|].
  unfold from_key. rewrite filter_cons, decide_False by (by intros []). rewrite filter_nil. cbn [app].
  change (in_order []) with (@nil (LeafNode HV K)). cbn [app].
  destruct st' as [|f st']; [inversion Hc'; constructor|].
  destruct Hroot as [(-> & _)|[_ [node Hn]]]; [done|]. by eapply left_stack.
Qed.

Lemma at_least_skip p lvs i : (length p < 64)%nat -> placed p lvs -> group (length p) i lvs = [] ->
  in_order (at_least (length p) i lvs) = in_order (at_least (length p) (i + 1) lvs).
Proof. intros Hp Hpl Eg. by rewrite in_order_at_least, Eg by done. Qed.

Lemma jmi_descend_spec (reader : TreeReader HV K) s v0 start : reads reader s ->
  forall fuel v p lvs node st L, (64 <= length p + fuel)%nat -> at_node s v0 v p lvs node st L -> starts p start ->
  exists it,
    (r ← jmi_descend fuel reader v0 (mkNodeKey v (pack p)) (nib_it (key_nibbles start) 0 64 (length p)) st;
     match r with
     | inr it => Ok it
     | inl (k, st) => jmi_bottom reader v0 start k st
     end) = Ok it /\ has_left s v0 it (in_order (from_key start lvs) ++ L).
Proof.
  intros Hrd. induction fuel as [|fuel IH]; intros v p lvs node st L Hfu Ha Hsp; cbn [jmi_descend];
    rewrite (get_node_reads _ _ _ _ Hrd (an_stored _ _ _ _ _ _ _ _ Ha)), obind_Ok;
    pose proof (an_represents _ _ _ _ _ _ _ _ Ha) as Hr;
    (destruct node as [[cs n]|x|]; [|rewrite obind_Ok; by eapply jmi_bottom_spec|by inversion Hr]);
    destruct (represents_internal _ _ _ _ _ Hr) as (Hd & Hst & _); [lia|].
  destruct (nib_it_next (key_nibbles start) 0 64 (length p) (nib start (length p)) (key_nibbles_ok start) Hd
    (nib_lookup start _ Hd)) as [_ ->]. rewrite obind_Ok. cbn [expect]. rewrite obind_Ok.
  set (i := nib start (length p)). assert (Hi : nibble_ok i) by by apply nib_ok.
  pose proof Hst as (Hc & Hg & _). pose proof (an_placed _ _ _ _ _ _ _ _ Ha) as Hpl.
  pose proof (from_key_split p lvs start Hd Hpl Hsp) as Esplit. fold i in Esplit.
  destruct (decide (i ∈ idx cs)) as [Hin|Hin].
  - destruct (child_at cs n i Hc Hin) as (c & Hic & ->). rewrite obind_Ok.
    destruct (at_node_child _ _ _ _ _ _ _ _ _ i c Ha Hic) as (f & sub & -> & -> & Ha'). rewrite !obind_Ok.
    replace (S (length p)) with (length (p ++ [i])) by (rewrite length_app; cbn; lia).
    destruct (IH _ (p ++ [i]) _ _ _ _ ltac:(rewrite length_app; cbn; lia) Ha') as (it & E & Hl).
    + unfold starts. rewrite length_app. cbn [length]. rewrite Nat.add_1_r.
      rewrite (take_S_r _ _ i) by (by apply nib_lookup). by rewrite Hsp.
    + exists it. split; [exact E|]. rewrite Esplit, <- app_assoc. exact Hl.
  - rewrite child_missing, obind_Ok by done. rewrite generate_bitmaps_spec, obind_Ok by apply Hc.
    destruct (idx_bounds cs Hc) as [Hb H0']. unfold bitmaps_of. cbn [in_children fst].
    assert (Hne : idx cs <> []).
    { intros E. apply represents_nonempty in Hr. apply Hr. apply (stand_for_nil (length p)); [done|].
      by destruct cs. }
    destruct (log2_bitmap (idx cs) H0' Hne) as (Hpos & Hm & Hmax). set (m := Z.log2 (bitmap (idx cs))) in *.
    unfold leading_zeros. rewrite (proj2 (Z.eqb_neq _ 0)) by lia. fold m.
    assert (Hm0 : 0 <= m) by (rewrite Forall_forall in H0'; by apply H0').
    rewrite sub64_Ok, obind_Ok by lia.
    assert (Eg : group (length p) i lvs = []).
    { destruct (decide (group (length p) i lvs = [])) as [|Hgn]; [done|].
      destruct (proj2 (Hg i Hi) Hgn) as [c Hc']. by apply (list_elem_of_fmap_2 fst) in Hc'. }
    rewrite Eg in Esplit. change (in_order (from_key start [])) with (@nil (LeafNode HV K)) in Esplit.
    cbn [app] in Esplit. rewrite Esplit. destruct (at_node_root _ _ _ _ _ _ _ _ Ha) as [node Hroot].
    destruct (i <? 15 - (16 - 1 - m)) eqn:Eim; [apply Z.ltb_lt in Eim|apply Z.ltb_ge in Eim].
    + destruct (new_next_child_spec s p lvs v cs n i m (an_path _ _ _ _ _ _ _ _ Ha) Hpl Hr Hi Hm ltac:(lia))
        as (f & j & -> & Hf & Ej & _). rewrite !obind_Ok. eexists. split; [done|].
      eapply left_stack; [done|]. rewrite <- at_least_skip, Ej by done.
      constructor; [done|]. apply (an_pending _ _ _ _ _ _ _ _ Ha).
    + rewrite (at_least_none _ cs); [|done|done|intros k Hk; specialize (Hmax k Hk); lia].
      destruct (cleanup_stack_spec _ _ _ (an_pending _ _ _ _ _ _ _ _ Ha)) as (st' & -> & Hco).
      rewrite !obind_Ok. eexists. split; [done|]. by eapply left_stack.
Qed.

Lemma at_node_start s v lvs node : NoDup (map account_key lvs) -> s (mkNodeKey v (pack [])) = Some node ->
  represents s [] lvs node -> at_node s v v [] lvs node [] [].
Proof.
  intros Hnd Hs Hr. constructor; [constructor|cbn; lia| |done|done|constructor|by left|by left].
  split; [done|]. by apply Forall_forall.
Qed.

Lemma jmi_new_spec (reader : TreeReader HV K) s v lvs start : reads reader s -> tree_at s v lvs ->
  exists it, jmi_new reader v start = Ok it /\ has_left s v it (in_order (from_key start lvs)).
Proof.
  intros Hrd (Hnd & node & Hs & Hnode). unfold jmi_new.
  rewrite new_empty_path_pack, obind_Ok, key_path, obind_Ok.
  assert (Eit : nibbles (pack (key_nibbles start)) = Ok (nib_it (key_nibbles start) 0 64 0)).
  { unfold nibbles. rewrite np_num_pack, key_nibbles_length. reflexivity. }
  rewrite Eit, obind_Ok. destruct Hnode as [[-> ->]|Hrep].
  - cbn [jmi_descend]. unfold jmi_bottom. rewrite (get_node_reads _ _ _ _ Hrd Hs), !obind_Ok.
    rewrite (get_node_reads _ _ _ _ Hrd Hs), obind_Ok. eexists. split; [done|constructor].
  - rewrite <- (app_nil_r (in_order _)).
    apply (jmi_descend_spec reader s v start Hrd 65 v [] lvs node [] []); [cbn; lia|by apply at_node_start|done].
Qed.

(** ** [new_by_index] *)

(** The leaves below a list of children. *)
Definition below (d : nat) lvs cs : list (LeafNode HV K) :=
  concat (map (fun ic => in_order (group d (fst ic) lvs)) cs).

Lemma below_at_least p lvs cs : (length p < 64)%nat -> placed p lvs -> forall j, sorted_by fst cs ->
  (forall x, x ∈ lvs -> j <= nib (account_key x) (length p) -> nib (account_key x) (length p) ∈ idx cs) ->
  (forall k, k ∈ idx cs -> j <= k) ->
  below (length p) lvs cs = in_order (at_least (length p) j lvs).
Proof.
  intros Hp Hpl. induction cs as [|[i c] cs IH]; intros j Hs Hcov Hge.
  - unfold at_least. rewrite filter_none; [done|]. apply Forall_forall. intros x Hx Hj.
    apply (Hcov x Hx) in Hj. by apply not_elem_of_nil in Hj.
  - apply sorted_by_cons in Hs as [Hs Hlt]. change (idx ((i, c) :: cs)) with (i :: idx cs) in *.
    assert (Hi : forall k, k ∈ idx cs -> i < k).
    { intros k Hk. apply list_elem_of_fmap in Hk as (ic & -> & Hy). rewrite Forall_forall in Hlt. by apply Hlt. }
    specialize (Hge i ltac:(left)).
    assert (Hcov' : forall x, x ∈ lvs -> j <= nib (account_key x) (length p) ->
      nib (account_key x) (length p) = i \/ nib (account_key x) (length p) ∈ idx cs).
    { intros x Hx Hj. specialize (Hcov x Hx Hj). by apply elem_of_cons in Hcov. }
    change (below (length p) lvs ((i, c) :: cs))
      with (in_order (group (length p) i lvs) ++ below (length p) lvs cs).
    rewrite (IH (i + 1) Hs).
    + symmetry. apply (in_order_nibble p); [done|done| |intros x y ? ?; lia].
      intros x Hx. split; [|intros [?|?]; lia]. intros Hj.
      destruct (Hcov' x Hx Hj) as [|Hin]; [by left|right]. apply Hi in Hin. lia.
    + intros x Hx Hj. destruct (Hcov' x Hx ltac:(lia)); [lia|done].
    + intros k Hk. apply Hi in Hk. lia.
Qed.

Lemma child_leaf_count_spec s p lvs cs n i c : represents s p lvs (Node_Internal (mkInternalNode cs n)) ->
  (i, c) ∈ cs -> Child_leaf_count c = Ok (Z.of_nat (length (in_order (group (length p) i lvs)))).
Proof.
  intros Hr Hin. destruct (represents_child _ _ _ _ _ _ _ Hr Hin) as (sub & _ & Hsub & Ht & _).
  unfold Child_leaf_count. rewrite Ht, (Permutation_length (in_order_perm _)). by inversion Hsub.
Qed.

Lemma skip_leaves_spec d lvs cs : forall sk target : Z,
  (forall i c, (i, c) ∈ cs -> Child_leaf_count c = Ok (Z.of_nat (length (in_order (group d i lvs))))) ->
  sk <= target < sk + Z.of_nat (length (below d lvs cs)) -> sk + Z.of_nat (length (below d lvs cs)) < U64 ->
  exists a i c b sk', cs = a ++ (i, c) :: b /\ skip_leaves cs sk target = Ok ((i, c), sk') /\
    sk' <= target < sk' + Z.of_nat (length (in_order (group d i lvs))) /\
    sk' + Z.of_nat (length (in_order (group d i lvs))) < U64 /\
    drop (Z.to_nat (target - sk)) (below d lvs cs) =
      drop (Z.to_nat (target - sk')) (in_order (group d i lvs)) ++ below d lvs b.
Proof.
  induction cs as [|[i c] cs IH]; intros sk target Hcnt Ht Hu; [cbn in Ht; lia|].
  change (below d lvs ((i, c) :: cs)) with (in_order (group d i lvs) ++ below d lvs cs) in *.
  rewrite length_app in *. cbn [skip_leaves]. rewrite (Hcnt i c) by left. rewrite obind_Ok, add64_Ok, obind_Ok by lia.
  set (G := in_order (group d i lvs)) in *.
  destruct (sk + Z.of_nat (length G) <=? target) eqn:E; [apply Z.leb_le in E|apply Z.leb_gt in E].
  - destruct (IH (sk + Z.of_nat (length G)) target) as (a & i' & c' & b & sk' & -> & -> & Hsk & Hu' & Ed).
    + intros i' c' Hin. apply Hcnt. by right.
    + lia.
    + lia.
    + exists ((i, c) :: a), i', c', b, sk'. split_and!; [done|done|lia|lia|lia|]. rewrite <- Ed.
      rewrite drop_app_ge by lia. f_equal. lia.
  - exists [], i, c, cs, sk. fold G. split_and!; [done|done|lia|lia|lia|]. by rewrite drop_app_le by lia.
Qed.

(** The leaves of a node, child by child. *)
Lemma node_below s p lvs cs n : placed p lvs -> represents s p lvs (Node_Internal (mkInternalNode cs n)) ->
  below (length p) lvs cs = in_order lvs /\
  forall a i c b, cs = a ++ (i, c) :: b -> below (length p) lvs b = in_order (at_least (length p) (i + 1) lvs).
Proof.
  intros Hpl Hr. destruct (represents_internal _ _ _ _ _ Hr) as (Hd & Hst & _). pose proof Hst as ((Hs & Hf) & Hg & _).
  assert (Hcov : forall x, x ∈ lvs -> nib (account_key x) (length p) ∈ idx cs).
  { intros x Hx. destruct (proj2 (Hg (nib (account_key x) (length p)) (nib_ok _ _ Hd))) as [c Hc].
    - intros En. assert (Hxg : x ∈ group (length p) (nib (account_key x) (length p)) lvs) by (by apply list_elem_of_filter).
      rewrite En in Hxg. by apply not_elem_of_nil in Hxg.
    - by apply (list_elem_of_fmap_2 fst) in Hc. }
  assert (Hge : forall k, k ∈ idx cs -> 0 <= k).
  { pose proof (idx_nonneg cs Hf) as H0'. by rewrite Forall_forall in H0'. }
  split.
  - rewrite (below_at_least p lvs cs Hd Hpl 0) by (auto || done). by rewrite (at_least_all _ cs).
  - intros a i c b ->. unfold sorted_by in Hs. rewrite map_app in Hs. apply StronglySorted_app in Hs as (Hab & _ & Hb).
    cbn [map fst] in *. apply StronglySorted_inv in Hb as [Hb Hlt]. rewrite Forall_forall in Hlt.
    apply below_at_least; [done|done|done| |].
    + intros x Hx Hj. specialize (Hcov x Hx). unfold idx in Hcov. rewrite map_app in Hcov. cbn [map fst] in Hcov.
      apply elem_of_app in Hcov as [Ha|Hin].
      * exfalso. specialize (Hab _ i Ha ltac:(left)). lia.
      * apply elem_of_cons in Hin as [E|Hin]; [lia|done].
    + intros k Hk. specialize (Hlt k Hk). lia.
Qed.

Lemma descend_by_index_spec (reader : TreeReader HV K) s v0 (target : Z) : reads reader s ->
  forall n v p lvs node st L sk, (65 <= length p + n)%nat -> at_node s v0 v p lvs node st L ->
  sk <= target < sk + Z.of_nat (length lvs) -> sk + Z.of_nat (length lvs) < U64 ->
  exists it, jmi_descend_by_index n reader v0 target (mkNodeKey v (pack p)) node sk st = Ok it /\
    has_left s v0 it (drop (Z.to_nat (target - sk)) (in_order lvs) ++ L).
Proof.
  intros Hrd. induction n as [|n IH]; intros v p lvs node st L sk Hn Ha Ht Hu.
  { pose proof (an_len _ _ _ _ _ _ _ _ Ha). lia. }
  pose proof (an_represents _ _ _ _ _ _ _ _ Ha) as Hr. cbn [jmi_descend_by_index].
  destruct node as [[cs m]|x|]; [| |by inversion Hr].
  - destruct (node_below _ _ _ _ _ (an_placed _ _ _ _ _ _ _ _ Ha) Hr) as [Eall Erest].
    destruct (skip_leaves_spec (length p) lvs cs sk target) as (a & i & c & b & sk' & Ecs & Esk & Hsk & Hu' & Ed).
    + intros i c Hin. by eapply child_leaf_count_spec.
    + rewrite Eall, (Permutation_length (in_order_perm _)). lia.
    + rewrite Eall, (Permutation_length (in_order_perm _)). lia.
    + cbn [children_sorted in_children]. rewrite Esk, obind_Ok.
      assert (Hin : (i, c) ∈ cs) by (rewrite Ecs; apply elem_of_app; right; left).
      destruct (at_node_child _ _ _ _ _ _ _ _ _ i c Ha Hin) as (f & sub & -> & -> & Ha'). rewrite !obind_Ok.
      unfold child_key. cbn [fst snd].
      rewrite (get_node_reads _ _ _ _ Hrd (an_stored _ _ _ _ _ _ _ _ Ha')), obind_Ok.
      rewrite (Permutation_length (in_order_perm _)) in Hsk, Hu'.
      destruct (IH _ (p ++ [i]) _ _ _ _ sk' ltac:(rewrite length_app; cbn; lia) Ha' Hsk Hu') as (it & E & Hl).
      exists it. split; [exact E|]. rewrite <- Eall, Ed, (Erest a i c b Ecs), <- app_assoc. exact Hl.
  - assert (lvs = [x]) as -> by (by inversion Hr). cbn [length] in Ht.
    rewrite ensure_true, obind_Ok by (apply Z.eqb_eq; lia). eexists. split; [done|].
    replace (target - sk) with 0 by lia. change (Z.to_nat 0) with 0%nat. rewrite drop_0.
    destruct (an_root _ _ _ _ _ _ _ _ Ha) as [(-> & -> & ->)|[Hne [node Hroot]]].
    + pose proof (an_pending _ _ _ _ _ _ _ _ Ha) as Hpe. inversion Hpe; subst.
      constructor. apply (an_stored _ _ _ _ _ _ _ _ Ha).
    + destruct (an_coming _ _ _ _ _ _ _ _ Ha) as [|Hco]; [done|]. by eapply left_stack.
Qed.

Lemma jmi_new_by_index_spec (reader : TreeReader HV K) s v lvs (start_idx : nat) : reads reader s -> tree_at s v lvs ->
  Z.of_nat (length lvs) < U64 ->
  exists it, jmi_new_by_index reader v (Z.of_nat start_idx) = Ok it /\
    has_left s v it (drop start_idx (in_order lvs)).
Proof.
  intros Hrd (Hnd & node & Hs & Hnode) Hu. unfold jmi_new_by_index.
  rewrite new_empty_path_pack, obind_Ok, (get_node_reads _ _ _ _ Hrd Hs), obind_Ok.
  assert (Ec : Node_leaf_count node = Z.of_nat (length lvs)).
  { destruct Hnode as [[-> ->]|Hrep]; [done|]. by inversion Hrep. }
  rewrite Ec. destruct (Z.of_nat (length lvs) <=? Z.of_nat start_idx) eqn:E; [apply Z.leb_le in E|apply Z.leb_gt in E].
  - eexists. split; [done|]. rewrite drop_ge; [constructor|]. rewrite (Permutation_length (in_order_perm _)). lia.
  - destruct Hnode as [[-> ->]|Hrep]; [cbn in E; lia|].
    destruct (descend_by_index_spec reader s v (Z.of_nat start_idx) Hrd 65 v [] lvs node [] [] 0 ltac:(cbn; lia)
      (at_node_start s v lvs node Hnd Hs Hrep) ltac:(lia) ltac:(lia)) as (it & Eit & Hl).
    exists it. split; [exact Eit|]. rewrite app_nil_r, Z.sub_0_r, Nat2Z.id in Hl. exact Hl.
Qed.
End Iterate.
