(* ===== verification/JellyfishIteratorTheorems.v ===== *)
(** * Iteration: theorems

    Iterating over a version that is kept in storage yields its leaves in the order of
    their keys, from a starting key or from an index on. *)
From stdpp Require Import base list numbers strings option gmap sorting.
From Stdlib Require Import ZArith Lia Bool Sorted.
From S2P Require Import Prelude Hash ToyHash SparseMerkleProof SparseSpec SparseFacts SparseTheorems NibblePath NibblePathFacts ByteCodec JellyfishNode JellyfishNodeFacts JellyfishHash JellyfishSpec JellyfishTree JellyfishRead JellyfishRuns JellyfishBatch JellyfishUpdate JellyfishInsert JellyfishCommit JellyfishHistory JellyfishIterator JellyfishIterate JellyfishTheorems.

Section IteratorTheorems.
Context {HV : Type} `{HashValueOps HV} `{HashValueBits HV} `{!HashValueLaws HV} `{CryptoHasher HV}
  `{LeafHasher HV} `{HashValueKeys HV} `{!HashValueKeysLaws HV} `{Itertools} `{!ItertoolsLaws} {K : Type}.
Implicit Types (lvs : list (LeafNode HV K)) (db : tree_db (HV := HV) (K := K)).

Lemma in_order_length lvs : length (in_order lvs) = length lvs.
Proof. apply Permutation_length, in_order_perm. Qed.

(** C19: At every version a reachable database keeps, an iterator started at a key can be
    made, and the items it yields are exactly the leaves of that version whose key is not
    below the starting key, each once, in the order of their keys, without an error. *)
Theorem db_iterate_from_key db v lvs start : db_reachable db -> (v, lvs) ∈ td_versions db ->
  kept db v ->
  exists it L, jmi_new (reader_of (td_nodes db)) v start = Ok it /\
    jmi_collect (length lvs) (reader_of (td_nodes db)) it = Ok (map (fun x => inl (item_of x)) L) /\
    StronglySorted (fun x y => klt (account_key x) (account_key y)) L /\
    L ≡ₚ filter (fun x => hv_cmp (account_key x) start <> Lt) lvs.
Proof.
  intros Hr Hv Ho. pose proof (reachable_tree db v lvs Hr Hv Ho) as Ht. pose proof Ht as [Hnd _].
  destruct (jmi_new_spec (reader_of (td_nodes db)) (td_nodes db) v lvs start (reads_of _) Ht) as (it & E & Hl).
  exists it, (in_order (from_key start lvs)). split; [done|]. split.
  - eapply jmi_collect_spec; [apply reads_of|done|]. rewrite in_order_length. apply length_filter.
  - split; [|apply in_order_perm]. apply in_order_sorted. eapply sublist_NoDup; [exact Hnd|].
    apply fmap_sublist, sublist_filter.
Qed.

(** An iterator started at an index yields the leaves of the version in the order of
    their keys, less as many at the front as the index says; an index past the last leaf
    yields nothing. *)
Theorem db_iterate_from_index db v (idx : nat) lvs : db_reachable db -> (v, lvs) ∈ td_versions db ->
  kept db v -> Z.of_nat (length lvs) < U64 ->
  exists it L, jmi_new_by_index (reader_of (td_nodes db)) v (Z.of_nat idx) = Ok it /\
    jmi_collect (length lvs) (reader_of (td_nodes db)) it = Ok (map (fun x => inl (item_of x)) (drop idx L)) /\
    StronglySorted (fun x y => klt (account_key x) (account_key y)) L /\ L ≡ₚ lvs.
Proof.
  intros Hr Hv Ho Hu. pose proof (reachable_tree db v lvs Hr Hv Ho) as Ht. pose proof Ht as [Hnd _].
  destruct (jmi_new_by_index_spec (reader_of (td_nodes db)) (td_nodes db) v lvs idx (reads_of _) Ht Hu)
    as (it & E & Hl).
  exists it, (in_order lvs). split; [done|]. split.
  - eapply jmi_collect_spec; [apply reads_of|done|]. rewrite length_drop, in_order_length. lia.
  - split; [by apply in_order_sorted|apply in_order_perm].
Qed.
End IteratorTheorems.

(** A version with three keys. *)
Lemma toy_db_exists : exists db : @tree_db bytes32 Z,
  db_reachable db /\ (0, toy_lvs) ∈ td_versions db /\ kept db 0.
Proof.
  destruct (put_test_step toy_empty (reader_of (fun _ => None)) toy_updates (reachable_inv _ reach_empty)) as (b & E & Hs).
  - by vm_compute.
  - apply sees_of.
  - exists (put_db toy_empty 0 toy_updates b). split; [by eapply reach_step; [apply reach_empty|]|].
    split; [left|constructor].
Qed.

(** Three leaves, two of them from key 18 on. *)
Lemma db_iterate_from_key_witness : exists (db : @tree_db bytes32 Z) it L,
  jmi_new (reader_of (td_nodes db)) 0 (toy_key 18) = Ok it /\
  jmi_collect 3 (reader_of (td_nodes db)) it = Ok (map (fun x => inl (item_of x)) L) /\ length L = 2%nat.
Proof.
  destruct toy_db_exists as (db & Hr & Hv & Ho).
  destruct (db_iterate_from_key db 0 toy_lvs (toy_key 18) Hr Hv Ho) as (it & L & E & Ec & _ & Hp).
  exists db, it, L. split; [exact E|]. split; [exact Ec|].
  rewrite (Permutation_length Hp). vm_compute. reflexivity.
Defined.

Lemma db_iterate_from_index_witness : exists (db : @tree_db bytes32 Z) it L,
  jmi_new_by_index (reader_of (td_nodes db)) 0 1 = Ok it /\
  jmi_collect 3 (reader_of (td_nodes db)) it = Ok (map (fun x => inl (item_of x)) (drop 1 L)) /\ length L = 3%nat.
Proof.
  destruct toy_db_exists as (db & Hr & Hv & Ho).
  destruct (db_iterate_from_index db 0 1 toy_lvs Hr Hv Ho) as (it & L & E & Ec & _ & Hp);
    [vm_compute; reflexivity|].
  exists db, it, L. split; [exact E|]. split; [exact Ec|].
  rewrite (Permutation_length Hp). vm_compute. reflexivity.
Defined.
