(* ===== verification/JellyfishRestore.v ===== *)
(** * Restoring a tree

    Model of [storage/jellyfish-merkle/src/restore/mod.rs]: a tree is rebuilt from chunks
    of its leaves, which come in the order of their keys with a proof that they are all up
    to the last one.  The nodes to the left of the last leaf are complete; they are frozen
    and written, and those on the way to it are kept in memory.

    The storage is a [TreeStore]: a reader, and a writer of batches of nodes.  A batch that
    is handed to the thread pool is written, at the latest, when its result is received;
    nothing is read from the storage in between. *)
From stdpp Require Import base list numbers strings option gmap.
From Stdlib Require Import ZArith Lia Bool.
From S2P Require Import Prelude Hash AccumulatorProof SparseMerkleProof NibblePath ByteCodec JellyfishNode JellyfishTree.

(** [CryptoHash::hash] of the keys. *)
Class KeyHash (HV K : Type) := { key_hash : K -> HV }.

(** [D: TreeReader<K> + TreeWriter<K>] *)
Class TreeStore (HV K ST : Type) := {
  tree_reader : ST -> TreeReader HV K;
  write_node_batch : gmap NodeKey (Node HV K) -> prog ST unit;
}.

(** [find_position], of which only the index is used. *)
Fixpoint find_position {A} (f : A -> bool) (l : list A) : option nat :=
  match l with
  | [] => None
  | x :: l => if f x then Some O else S <$> find_position f l
  end.

(** [Iterator::rposition] *)
Definition rposition {A} (f : A -> bool) (l : list A) : option nat :=
  (fun i => (length l - 1 - i)%nat) <$> find_position f (rev l).

Section Restore.
Context {HV : Type} `{HashValueOps HV} `{HashValueBits HV} `{CryptoHasher HV} `{LeafHasher HV}
  `{HashValueKeys HV} {K : Type} `{KeyHash HV K}.

(** ** [ChildInfo] and [InternalInfo] *)
Inductive ChildInfo :=
| ChildInfo_Internal (hash : option HV) (leaf_count : option Z)
| ChildInfo_Leaf (node : LeafNode HV K).

Definition into_child (self : ChildInfo) (version : Version) : outcome (Child HV) :=
  match self with
  | ChildInfo_Internal hash leaf_count =>
      hash ← expect hash "Must have been initialized.";
      leaf_count ← expect leaf_count "Must be complete already.";
      Ok (mkChild hash version (NodeType_Internal leaf_count))
  | ChildInfo_Leaf node => Ok (mkChild (LeafNode_hash node) version NodeType_Leaf)
  end.

Record InternalInfo := mkInternalInfo {
  ii_node_key : NodeKey;
  ii_children : list (option ChildInfo);
}.

Definition InternalInfo_new_empty (node_key : NodeKey) : InternalInfo := mkInternalInfo node_key (replicate 16 None).

(** [&self.children[index]] *)
Definition child_slot (self : InternalInfo) (index : Z) : outcome (option ChildInfo) :=
  expect (ii_children self !! Z.to_nat index) "index out of bounds".

Definition set_child (self : InternalInfo) (index : Z) (child_info : ChildInfo) : outcome InternalInfo :=
  _ ← child_slot self index;
  Ok (mkInternalInfo (ii_node_key self) (<[Z.to_nat index := Some child_info]> (ii_children self))).

Fixpoint take_children (index : Z) (children : list (option ChildInfo)) (version : Version) : outcome (list (Z * Child HV)) :=
  match children with
  | [] => Ok []
  | None :: children => take_children (index + 1) children version
  | Some child_info :: children =>
      child ← into_child child_info version;
      rest ← take_children (index + 1) children version;
      Ok ((expect_nibble index, child) :: rest)
  end.

Definition into_internal_node (self : InternalInfo) (version : Version) : outcome (NodeKey * InternalNode HV) :=
  children ← take_children 0 (ii_children self) version;
  node ← InternalNode_new (from_sorted children);
  Ok (ii_node_key self, node).

(** ** [JellyfishMerkleRestore]

    [async_commit_result] is the batch whose result is to be received. *)
Record JellyfishMerkleRestore := mkRestore {
  jr_version : Version;
  partial_nodes : list InternalInfo;
  frozen_nodes : gmap NodeKey (Node HV K);
  previous_leaf : option (LeafNode HV K);
  num_keys_received : Z;
  expected_root_hash : HV;
  finished : bool;
  async_commit : bool;
  async_commit_result : option (gmap NodeKey (Node HV K));
}.
Implicit Types (self : JellyfishMerkleRestore).

Definition with_partial_nodes self (nodes : list InternalInfo) : JellyfishMerkleRestore :=
  mkRestore (jr_version self) nodes (frozen_nodes self) (previous_leaf self) (num_keys_received self)
    (expected_root_hash self) (finished self) (async_commit self) (async_commit_result self).

Definition with_frozen_nodes self (nodes : gmap NodeKey (Node HV K)) : JellyfishMerkleRestore :=
  mkRestore (jr_version self) (partial_nodes self) nodes (previous_leaf self) (num_keys_received self)
    (expected_root_hash self) (finished self) (async_commit self) (async_commit_result self).

Definition with_previous_leaf self (leaf : option (LeafNode HV K)) : JellyfishMerkleRestore :=
  mkRestore (jr_version self) (partial_nodes self) (frozen_nodes self) leaf (num_keys_received self)
    (expected_root_hash self) (finished self) (async_commit self) (async_commit_result self).

Definition with_num_keys_received self (n : Z) : JellyfishMerkleRestore :=
  mkRestore (jr_version self) (partial_nodes self) (frozen_nodes self) (previous_leaf self) n
    (expected_root_hash self) (finished self) (async_commit self) (async_commit_result self).

Definition with_async_commit_result self (r : option (gmap NodeKey (Node HV K))) : JellyfishMerkleRestore :=
  mkRestore (jr_version self) (partial_nodes self) (frozen_nodes self) (previous_leaf self) (num_keys_received self)
    (expected_root_hash self) (finished self) (async_commit self) r.

(** ** Recovery *)

(** The first ancestor that is not in storage. *)
Fixpoint skip_stored (fuel : nat) (store : TreeReader HV K) (node_key : NodeKey) : outcome NodeKey :=
  node ← get_node_option store node_key "restore";
  match node with
  | None => Ok node_key
  | Some _ =>
      match fuel with
      | O => Panic "out of fuel"
      | S fuel => parent ← gen_parent_node_key node_key; skip_stored fuel store parent
      end
  end.

(** The children at the positions [positions] that are in storage. *)
Fixpoint scan_children (store : TreeReader HV K) (version : Version) (node_key : NodeKey) (positions : list Z)
    (internal_info : InternalInfo) : outcome InternalInfo :=
  match positions with
  | [] => Ok internal_info
  | i :: positions =>
      n ← nibble_from_u8 i;
      child_node_key ← gen_child_node_key node_key version n;
      node ← get_node_option store child_node_key "restore";
      internal_info ←
        match node with
        | Some (Node_Internal internal_node) =>
            hash ← InternalNode_hash internal_node;
            set_child internal_info i (ChildInfo_Internal (Some hash) (Some (in_leaf_count internal_node)))
        | Some (Node_Leaf leaf_node) => set_child internal_info i (ChildInfo_Leaf leaf_node)
        | Some Node_Null => Panic "Child cannot be Null"
        | None => Ok internal_info
        end;
      scan_children store version node_key positions internal_info
  end.

(** The loop to the root; the nodes come from the bottom. *)
Fixpoint rebuild_partial_nodes (fuel : nat) (store : TreeReader HV K) (version : Version) (node_key : NodeKey)
    (previous_child_index : option Z) (partial_nodes : list InternalInfo) : outcome (list InternalInfo) :=
  internal_info ← scan_children store version node_key (seqZ 0 (default 16 previous_child_index)) (InternalInfo_new_empty node_key);
  internal_info ←
    match previous_child_index with
    | Some index => set_child internal_info index (ChildInfo_Internal None None)
    | None => Ok internal_info
    end;
  let partial_nodes := partial_nodes ++ [internal_info] in
  if NibblePath_is_empty (nk_nibble_path node_key) then Ok partial_nodes
  else
    match fuel with
    | O => Panic "out of fuel"
    | S fuel =>
        last ← NibblePath_last (nk_nibble_path node_key);
        parent ← gen_parent_node_key node_key;
        rebuild_partial_nodes fuel store version parent last partial_nodes
    end.

(** A path has at most 64 nibbles, one of which goes in every round. *)
Definition recover_partial_nodes (store : TreeReader HV K) (version : Version) (rightmost_leaf_node_key : NodeKey)
  : outcome (list InternalInfo) :=
  _ ← ensure (negb (NibblePath_is_empty (nk_nibble_path rightmost_leaf_node_key)))
        "Root node would not be written until entire restoration process has completed successfully.";
  parent ← gen_parent_node_key rightmost_leaf_node_key;
  node_key ← skip_stored 64 store parent;
  partial_nodes ← rebuild_partial_nodes 64 store version node_key None [];
  Ok (rev partial_nodes).

Definition Restore_new (store : TreeReader HV K) (version : Version) (expected_root_hash : HV) (async_commit : bool)
  : outcome JellyfishMerkleRestore :=
  root_key ← new_empty_path version;
  root ← get_node_option store root_key "restore";
  r ←
    match root with
    | Some root_node =>
        hash ← Node_hash root_node;
        _ ← ensure (bool_decide (hash = expected_root_hash)) "Previous completed restore has another root hash";
        Ok (true, [], None)
    | None =>
        rightmost ← get_rightmost_leaf store version;
        match rightmost with
        | Some (node_key, leaf_node) =>
            nodes ← recover_partial_nodes store version node_key;
            Ok (false, nodes, Some leaf_node)
        | None => Ok (false, [InternalInfo_new_empty root_key], None)
        end
    end;
  let '(finished, partial_nodes, previous_leaf) := r in
  Ok (mkRestore version partial_nodes ∅ previous_leaf 0 expected_root_hash finished async_commit None).

Definition new_overwrite (version : Version) (expected_root_hash : HV) : outcome JellyfishMerkleRestore :=
  root_key ← new_empty_path version;
  Ok (mkRestore version [InternalInfo_new_empty root_key] ∅ None 0 expected_root_hash false false None).

(** [HashValue::new([0xFF; 32])] is the argument. *)
Definition previous_key_hash (all_ones : HV) self : option HV :=
  if finished self then Some all_ones else account_key <$> previous_leaf self.

(** ** Freezing *)
Definition is_some {A} (o : option A) : bool := match o with Some _ => true | None => false end.

Definition freeze_previous_leaf self : outcome JellyfishMerkleRestore :=
  if num_keys_received self =? 0 then Ok self
  else
    last_node ← expect (list.last (partial_nodes self)) "Must have at least one partial node.";
    rightmost_child_index ← expect (rposition is_some (ii_children last_node)) "Must have at least one child.";
    child ← child_slot last_node (Z.of_nat rightmost_child_index);
    match child with
    | Some (ChildInfo_Leaf node) =>
        n ← nibble_from_u8 (Z.of_nat rightmost_child_index);
        child_node_key ← gen_child_node_key (ii_node_key last_node) (jr_version self) n;
        Ok (with_frozen_nodes self (<[child_node_key := Node_Leaf node]> (frozen_nodes self)))
    | _ => Panic "Must have at least one child and must not have further internal nodes."
    end.

(** The parent gets the hash and the number of leaves of its last child. *)
Definition complete_child (parent_node : InternalInfo) (node_hash : HV) (node_leaf_count : Z) : outcome InternalInfo :=
  rightmost_child_index ← expect (rposition is_some (ii_children parent_node)) "Must have at least one child.";
  child ← child_slot parent_node (Z.of_nat rightmost_child_index);
  match child with
  | Some (ChildInfo_Internal hash leaf_count) =>
      _ ← assert (negb (is_some hash)) "hash.replace(node_hash) == None";
      _ ← assert (negb (is_some leaf_count)) "leaf_count.replace(node_leaf_count) == None";
      set_child parent_node (Z.of_nat rightmost_child_index) (ChildInfo_Internal (Some node_hash) (Some node_leaf_count))
  | _ => Panic "Must have at least one child and the rightmost child must not be a leaf."
  end.

(** One round of [freeze_internal_nodes]. *)
Definition freeze_last_node self : outcome JellyfishMerkleRestore :=
  r ← expect (vec_pop (partial_nodes self)) "This node must exist.";
  let '(last_node, rest) := r in
  r ← into_internal_node last_node (jr_version self);
  let '(node_key, internal_node) := r in
  node_hash ← InternalNode_hash internal_node;
  let node_leaf_count := in_leaf_count internal_node in
  let self := with_frozen_nodes self (<[node_key := Node_Internal internal_node]> (frozen_nodes self)) in
  match vec_pop rest with
  | Some (parent_node, above) =>
      parent_node ← complete_child parent_node node_hash node_leaf_count;
      Ok (with_partial_nodes self (above ++ [parent_node]))
  | None => Ok (with_partial_nodes self rest)
  end.

Fixpoint freeze_internal_loop (rounds : nat) self : outcome JellyfishMerkleRestore :=
  match rounds with
  | O => Ok self
  | S rounds => self ← freeze_last_node self; freeze_internal_loop rounds self
  end.

(** Every round takes one node off. *)
Definition freeze_internal_nodes self (num_remaining_nodes : nat) : outcome JellyfishMerkleRestore :=
  freeze_internal_loop (length (partial_nodes self) - num_remaining_nodes) self.

Definition freeze self (num_remaining_partial_nodes : nat) : outcome JellyfishMerkleRestore :=
  self ← freeze_previous_leaf self;
  freeze_internal_nodes self num_remaining_partial_nodes.

(** ** Adding a leaf *)

(** [self.partial_nodes[i].set_child(..)] *)
Definition set_child_of self (i : nat) (index : Z) (child_info : ChildInfo) : outcome JellyfishMerkleRestore :=
  node ← expect (partial_nodes self !! i) "index out of bounds";
  node ← set_child node index child_info;
  Ok (with_partial_nodes self (<[i := node]> (partial_nodes self))).

(** [remaining_nibbles.visited_nibbles().collect()] *)
Definition visited_path (it : NibbleIterator) : outcome NibblePath :=
  it ← visited_nibbles it;
  ns ← collect_nibbles it;
  from_iter ns.

(** The internal nodes with a single child on the common prefix. *)
Fixpoint push_common_nodes (rounds : nat) self (remaining : NibbleIterator) : outcome (JellyfishMerkleRestore * NibbleIterator) :=
  match rounds with
  | O => Ok (self, remaining)
  | S rounds =>
      path ← visited_path remaining;
      r ← NibbleIterator_next remaining;
      next_nibble ← expect (fst r) "This nibble must exist.";
      internal_info ← set_child (InternalInfo_new_empty (mkNodeKey (jr_version self) path)) next_nibble (ChildInfo_Internal None None);
      push_common_nodes rounds (with_partial_nodes self (partial_nodes self ++ [internal_info])) (snd r)
  end.

Definition insert_at_leaf self (child_index : Z) (existing_leaf : LeafNode HV K) (new_key : K) (new_value_hash : HV)
    (remaining : NibbleIterator) : outcome JellyfishMerkleRestore :=
  let num_existing_partial_nodes := length (partial_nodes self) in
  self ← set_child_of self (num_existing_partial_nodes - 1) child_index (ChildInfo_Internal None None);
  let new_hashed_key := key_hash new_key in
  let common_prefix_len := common_prefix_nibbles_len (account_key existing_leaf) new_hashed_key in
  r ← push_common_nodes (Z.to_nat common_prefix_len - num_existing_partial_nodes) self remaining;
  let '(self, remaining) := r in
  path ← visited_path remaining;
  let internal_info := InternalInfo_new_empty (mkNodeKey (jr_version self) path) in
  existing_child_index ← hv_get_nibble (account_key existing_leaf) common_prefix_len;
  internal_info ← set_child internal_info existing_child_index (ChildInfo_Leaf existing_leaf);
  let self := with_partial_nodes self (partial_nodes self ++ [internal_info]) in
  self ← freeze self (length (partial_nodes self));
  new_child_index ← hv_get_nibble new_hashed_key common_prefix_len;
  _ ← assert (existing_child_index <? new_child_index) "New leaf must be on the right.";
  set_child_of self (length (partial_nodes self) - 1) new_child_index
    (ChildInfo_Leaf (mkLeafNode new_hashed_key new_value_hash (new_key, jr_version self))).

(** The loop over the nibbles; [rounds] are left of [ROOT_NIBBLE_HEIGHT]. *)
Fixpoint add_one_loop (rounds : nat) (i : nat) self (new_key : K) (new_value_hash : HV) (nibbles : NibbleIterator)
  : outcome JellyfishMerkleRestore :=
  match rounds with
  | O => Ok self
  | S rounds =>
      r ← NibbleIterator_next nibbles;
      let nibbles := snd r in
      child_index ← expect (fst r) "This nibble must exist.";
      _ ← assert (i <? length (partial_nodes self))%nat "i < self.partial_nodes.len()";
      node ← expect (partial_nodes self !! i) "index out of bounds";
      child ← child_slot node child_index;
      match child with
      | Some (ChildInfo_Leaf existing_leaf) =>
          _ ← assert (i =? length (partial_nodes self) - 1)%nat
                "If we see a leaf, there will be no more partial internal nodes on lower level, since they would have been frozen.";
          insert_at_leaf self child_index existing_leaf new_key new_value_hash nibbles
      | Some (ChildInfo_Internal _ _) => add_one_loop rounds (S i) self new_key new_value_hash nibbles
      | None =>
          self ← freeze self (S i);
          set_child_of self i child_index
            (ChildInfo_Leaf (mkLeafNode (key_hash new_key) new_value_hash (new_key, jr_version self)))
      end
  end.

Definition add_one self (new_key : K) (new_value_hash : HV) : outcome JellyfishMerkleRestore :=
  nibble_path ← new_even (hv_bytes (key_hash new_key));
  it ← nibbles nibble_path;
  add_one_loop (Z.to_nat ROOT_NIBBLE_HEIGHT) 0 self new_key new_value_hash it.

(** ** Verification *)

(** A slice of [2^k] children is halved [k] times, [k <= 4]. *)
Fixpoint compute_left_sibling_impl (fuel : nat) (children : list (option ChildInfo)) : outcome (HV * bool) :=
  _ ← assert (negb (length children =? 0)%nat) "!children.is_empty()";
  let num_children := Z.of_nat (length children) in
  _ ← assert (count_ones num_children =? 1) "num_children.is_power_of_two()";
  match children with
  | [child] =>
      match child with
      | Some (ChildInfo_Internal hash _) => hash ← expect hash "The hash must be known."; Ok (hash, false)
      | Some (ChildInfo_Leaf node) => Ok (LeafNode_hash node, true)
      | None => Ok (SPARSE_MERKLE_PLACEHOLDER_HASH, true)
      end
  | _ =>
      match fuel with
      | O => Panic "out of fuel"
      | S fuel =>
          left ← compute_left_sibling_impl fuel (take (length children / 2) children);
          right ← compute_left_sibling_impl fuel (drop (length children / 2) children);
          let '(left_hash, left_is_leaf) := left in
          let '(right_hash, right_is_leaf) := right in
          if bool_decide (left_hash = SPARSE_MERKLE_PLACEHOLDER_HASH) && right_is_leaf then Ok (right_hash, true)
          else if left_is_leaf && bool_decide (right_hash = SPARSE_MERKLE_PLACEHOLDER_HASH) then Ok (left_hash, true)
          else Ok (hash_node left_hash right_hash, false)
      end
  end.

Definition compute_left_sibling (partial_node : InternalInfo) (n : Nibble) (height : Z) : outcome HV :=
  _ ← assert (height <? 4) "height < 4";
  let width := Z.shiftl 1 height in
  let start := snd (get_child_and_sibling_half_start n height) in
  _ ← assert (start + width <=? Z.of_nat (length (ii_children partial_node))) "range end index out of range";
  r ← compute_left_sibling_impl 4 (take (Z.to_nat width) (drop (Z.to_nat start) (ii_children partial_node)));
  Ok (fst r).

(** The siblings on the left of the path of [previous_key] from bit [i] on, and the number
    of those on the right. *)
Fixpoint collect_left_siblings self (previous_key : HV) (i : Z) (bits : list bool) (left_siblings : list HV)
    (num_visited_right_siblings : Z) : outcome (list HV * Z) :=
  match bits with
  | [] => Ok (left_siblings, num_visited_right_siblings)
  | true :: bits =>
      sibling ←
        (if Z.of_nat (length (partial_nodes self)) * 4 <=? i then Ok SPARSE_MERKLE_PLACEHOLDER_HASH
         else
           node ← expect (partial_nodes self !! Z.to_nat (i / 4)) "index out of bounds";
           n ← hv_get_nibble previous_key (i / 4);
           compute_left_sibling node n (3 - i mod 4));
      collect_left_siblings self previous_key (i + 1) bits (left_siblings ++ [sibling]) num_visited_right_siblings
  | false :: bits => collect_left_siblings self previous_key (i + 1) bits left_siblings (num_visited_right_siblings + 1)
  end.

(** The placeholders at the bottom are removed; [bits] come from the bottom. *)
Fixpoint trim_left_siblings (bits : list bool) (left_siblings : list HV) (num_visited num_right : Z) : outcome (list HV) :=
  match bits with
  | [] => Ok left_siblings
  | true :: bits =>
      r ← expect (vec_pop left_siblings) "This sibling must exist.";
      if bool_decide (fst r = SPARSE_MERKLE_PLACEHOLDER_HASH) then trim_left_siblings bits (snd r) num_visited num_right
      else Ok left_siblings
  | false :: bits =>
      if num_right <? num_visited then trim_left_siblings bits left_siblings (num_visited - 1) num_right
      else Ok left_siblings
  end.

Definition Restore_verify self (proof : SparseMerkleRangeProof HV) : outcome unit :=
  previous_leaf ← expect (previous_leaf self) "The previous leaf must exist.";
  let previous_key := account_key previous_leaf in
  r ← collect_left_siblings self previous_key 0 (iter_bits previous_key) [] 0;
  let '(left_siblings, num_visited_right_siblings) := r in
  let num_right := Z.of_nat (length (srp_right_siblings proof)) in
  _ ← ensure (num_right <=? num_visited_right_siblings) "Too many right siblings in the proof.";
  left_siblings ← trim_left_siblings (rev (iter_bits previous_key)) left_siblings num_visited_right_siblings num_right;
  SparseMerkleRangeProof_verify proof (expected_root_hash self)
    (mkSparseMerkleLeafNode previous_key (value_hash previous_leaf)) (rev left_siblings).

(** ** Chunks *)
Section Storage.
Context {ST : Type} `{TreeStore HV K ST}.
Implicit Types (w : ST * JellyfishMerkleRestore).

(** A step that does not touch the storage; after a panic the object is gone. *)
Definition update_restore (f : JellyfishMerkleRestore -> outcome JellyfishMerkleRestore) : prog (ST * JellyfishMerkleRestore) unit := fun w =>
  match f (snd w) with
  | Ok self => ((fst w, self), Ok tt)
  | Err e => (w, Err e)
  | Panic e => (w, Panic e)
  end.

(** [self.store.write_node_batch(..)] *)
Definition write_nodes (batch : gmap NodeKey (Node HV K)) : prog (ST * JellyfishMerkleRestore) unit := fun w =>
  let '(st, r) := write_node_batch batch (fst w) in ((st, snd w), r).

Definition wait_for_async_commit : prog (ST * JellyfishMerkleRestore) unit := fun w =>
  match async_commit_result (snd w) with
  | Some batch => write_nodes batch (fst w, with_async_commit_result (snd w) None)
  | None => (w, Ok tt)
  end.

(** [Drop]: the result of the last batch is unwrapped. *)
Definition Restore_drop : prog (ST * JellyfishMerkleRestore) unit :=
  pexpect wait_for_async_commit "called `Result::unwrap()` on an `Err` value".

(** The part of the chunk after the previous leaf. *)
Definition skip_known self (chunk : list (K * HV)) : list (K * HV) :=
  match previous_leaf self with
  | Some prev_leaf =>
      match find_position (fun kv => match hv_cmp (key_hash (fst kv)) (account_key prev_leaf) with Gt => true | _ => false end) chunk with
      | None => []
      | Some num_to_skip => drop num_to_skip chunk
      end
  | None => chunk
  end.

(** The loop over the chunk. *)
Fixpoint add_leaves (chunk : list (K * HV)) : prog (ST * JellyfishMerkleRestore) unit :=
  match chunk with
  | [] => pret tt
  | (key, value_hash) :: chunk =>
      let hashed_key := key_hash key in
      _ <~ reading (fun w =>
             match previous_leaf (snd w) with
             | Some prev_leaf =>
                 ensure (match hv_cmp hashed_key (account_key prev_leaf) with Gt => true | _ => false end)
                   "State keys must come in increasing order."
             | None => Ok tt
             end);
      _ <~ update_restore (fun self =>
             Ok (with_previous_leaf self (Some (mkLeafNode hashed_key value_hash (key, jr_version self)))));
      _ <~ update_restore (fun self => add_one self key value_hash);
      _ <~ update_restore (fun self =>
             n ← add64 (num_keys_received self) 1; Ok (with_num_keys_received self n));
      add_leaves chunk
  end.

(** The frozen nodes are handed to the writer, after the last batch, or written. *)
Definition flush_frozen : prog (ST * JellyfishMerkleRestore) unit := fun w =>
  if async_commit (snd w) then
    (_ <~ wait_for_async_commit;
     update_restore (fun self => Ok (with_frozen_nodes (with_async_commit_result self (Some (frozen_nodes self))) ∅))) w
  else
    (_ <~ write_nodes (frozen_nodes (snd w));
     update_restore (fun self => Ok (with_frozen_nodes self ∅))) w.

Definition add_chunk_impl (chunk : list (K * HV)) (proof : SparseMerkleRangeProof HV) : prog (ST * JellyfishMerkleRestore) unit := fun w =>
  if finished (snd w) then (w, Ok tt)
  else
    let chunk := skip_known (snd w) chunk in
    match chunk with
    | [] => (w, Ok tt)
    | _ => (_ <~ add_leaves chunk; _ <~ reading (fun w => Restore_verify (snd w) proof); flush_frozen) w
    end.

(** The children of the root, and the last of them that is a leaf. *)
Definition count_children (children : list (option ChildInfo)) : nat * option (LeafNode HV K) :=
  fold_left (fun '(num_children, leaf) child =>
    match child with
    | Some (ChildInfo_Leaf node) => (S num_children, Some node)
    | Some _ => (S num_children, leaf)
    | None => (num_children, leaf)
    end) children (O, None).

(** The tree is a single node. *)
Definition finish_single (node : Node HV K) : prog (ST * JellyfishMerkleRestore) unit := fun w =>
  (_ <~ update_restore (fun self =>
          node_key ← new_empty_path (jr_version self);
          _ ← assert (bool_decide (frozen_nodes self = ∅)) "self.frozen_nodes.is_empty()";
          Ok (with_frozen_nodes self (<[node_key := node]> (frozen_nodes self))));
   fun w => write_nodes (frozen_nodes (snd w)) w) w.

Definition finish_impl : prog (ST * JellyfishMerkleRestore) unit :=
  _ <~ wait_for_async_commit;
  fun w =>
    let rest := (_ <~ update_restore (fun self => freeze self 0);
                 fun w => write_nodes (frozen_nodes (snd w)) w) in
    match partial_nodes (snd w) with
    | [node] =>
        match count_children (ii_children node) with
        | (O, _) => finish_single Node_Null w
        | (1%nat, Some leaf) => finish_single (Node_Leaf leaf) w
        | _ => rest w
        end
    | _ => rest w
    end.
End Storage.
End Restore.
Arguments ChildInfo : clear implicits.
Arguments InternalInfo : clear implicits.
Arguments JellyfishMerkleRestore : clear implicits.
