(* ===== verification/JellyfishRestoreFacts.v ===== *)
(** * Restoring a tree: the nodes

    The partial nodes are those on the way to the last leaf; what is to the left of them
    is complete and stands for the leaves that were added.  Freezing completes the lowest
    of them, and adding a leaf keeps this form. *)
From stdpp Require Import base list numbers strings option gmap sorting.
From Stdlib Require Import ZArith Lia Bool Sorted.
From S2P Require Import Prelude Hash AccumulatorProof SparseMerkleProof SparseSpec SparseFacts NibblePath NibblePathFacts ByteCodec JellyfishNode JellyfishNodeFacts JellyfishHash JellyfishSpec JellyfishTree JellyfishRead JellyfishRuns JellyfishBatch JellyfishUpdate JellyfishCommit JellyfishIterate JellyfishRestore.

(** ** Positions in a list *)
Lemma lookup_rev {A} (l : list A) i : (i < length l)%nat -> rev l !! i = l !! (length l - 1 - i)%nat.
Proof. intros Hi. rewrite rev_alt. fold (reverse l). rewrite reverse_lookup by done. f_equal. lia. Qed.

Lemma find_position_spec {A} (f : A -> bool) (l : list A) i x : l !! i = Some x -> f x = true ->
  (forall j y, (j < i)%nat -> l !! j = Some y -> f y = false) -> find_position f l = Some i.
Proof.
  revert i. induction l as [|a l IH]; intros i Hi Hx Hb; [done|]. cbn [find_position]. destruct i as [|i]; [by injection Hi as ->; rewrite Hx|].
  rewrite (Hb O a) by (done || lia). rewrite (IH i); [done..|]. intros j y Hj Hy. apply (Hb (S j)); [lia|done].
Qed.

Lemma rposition_spec {A} (f : A -> bool) (l : list A) i x : l !! i = Some x -> f x = true ->
  (forall j y, (i < j)%nat -> l !! j = Some y -> f y = false) -> rposition f l = Some i.
Proof.
  intros Hi Hx Hb. assert (Hlt : (i < length l)%nat) by (by eapply lookup_lt_Some). unfold rposition.
  rewrite (find_position_spec f (rev l) (length l - 1 - i) x); [cbn; f_equal; lia| |done|].
  - rewrite lookup_rev by lia. rewrite <- Hi. f_equal. lia.
  - intros j y Hj Hy. assert (Hl := lookup_lt_Some _ _ _ Hy). rewrite length_rev in Hl.
    rewrite lookup_rev in Hy by lia. eapply Hb; [|exact Hy]. lia.
Qed.

Lemma snoc_lookup {A} (l : list A) x : (l ++ [x]) !! length l = Some x.
Proof. by apply list_lookup_middle. Qed.

Section RestoreNodes.
Context {HV : Type} `{HashValueOps HV} `{HashValueBits HV} `{!HashValueLaws HV} `{CryptoHasher HV}
  `{LeafHasher HV} `{HashValueKeys HV} `{!HashValueKeysLaws HV} {K : Type} `{KeyHash HV K}.
Context (v : Version).
Implicit Types (s : store (HV := HV) (K := K)) (p : list Z) (L g : list (LeafNode HV K)) (x y : LeafNode HV K)
  (c : option (ChildInfo HV K)) (info : InternalInfo HV K) (P : list (InternalInfo HV K)) (key : HV).

Definition pkey p : NodeKey := mkNodeKey v (pack p).

Definition put_at_key s (k : NodeKey) (n : Node HV K) : store := fun j => if decide (j = k) then Some n else s j.

(** A child that is complete and stored, for the leaves [g] below [p]. *)
Definition frozen_child s p g c : Prop :=
  match c with
  | None => g = []
  | Some (ChildInfo_Leaf x) => g = [x] /\ s (pkey p) = Some (Node_Leaf x)
  | Some (ChildInfo_Internal h n) =>
      exists node, s (pkey p) = Some (Node_Internal node) /\ represents s p g (Node_Internal node) /\
        (2 <= length g)%nat /\ h = Some (hash_at (length p) g) /\ n = Some (Z.of_nat (length g))
  end.

(** The children of the node at [p] are complete, but for the one at [j]. *)
Definition node_at s L p (j : option Z) info : Prop :=
  ii_node_key info = pkey p /\ length (ii_children info) = 16%nat /\
  forall i c, nibble_ok i -> Some i <> j -> ii_children info !! Z.to_nat i = Some c ->
    frozen_child s (p ++ [i]) (under (p ++ [i]) L) c.

(** The nodes on the way to [key]: a node above the last one has the next one for its last
    child. *)
Record skeleton s L key P : Prop := {
  sk_len : (1 <= length P <= 64)%nat;
  sk_node : forall d info, P !! d = Some info ->
    node_at s L (take d (key_nibbles key)) (if (S d <? length P)%nat then Some (nib key d) else None) info;
  sk_hole : forall d info, P !! d = Some info -> (S d < length P)%nat ->
    ii_children info !! Z.to_nat (nib key d) = Some (Some (ChildInfo_Internal None None));
  sk_right : forall d i, (d < length P)%nat -> nibble_ok i -> nib key d < i -> under (take d (key_nibbles key) ++ [i]) L = [];
}.

(** Below the root, they have several leaves. *)
Definition many L key (n : nat) : Prop := forall d, (0 < d < n)%nat -> (2 <= length (under (take d (key_nibbles key)) L))%nat.

Definition spine s L key P : Prop := skeleton s L key P /\ many L key (length P).

(** ** Paths *)
Lemma path_length key d : (d <= 64)%nat -> length (take d (key_nibbles key)) = d.
Proof. intros Hd. rewrite length_take, key_nibbles_length. lia. Qed.

Lemma path_ok_take key d : Forall nibble_ok (take d (key_nibbles key)).
Proof. apply Forall_take, key_nibbles_ok. Qed.

Lemma path_snoc key d : (d < 64)%nat -> take (S d) (key_nibbles key) = take d (key_nibbles key) ++ [nib key d].
Proof. intros Hd. apply take_S_r. by apply nib_lookup. Qed.

Lemma under_under p q L : under (p ++ q) (under p L) = under (p ++ q) L.
Proof.
  unfold under. rewrite list_filter_filter. apply list_filter_iff. intros x. split; [tauto|]. intros Hs. split; [done|]. by eapply starts_app.
Qed.

Lemma under_all_placed p L : NoDup (map account_key L) -> placed p (under p L).
Proof.
  intros Hnd. split.
  - eapply sublist_NoDup; [exact Hnd|]. apply fmap_sublist, sublist_filter.
  - apply Forall_forall. intros x Hx. by apply list_elem_of_filter in Hx as [Hs _].
Qed.

Lemma group_under p i L : (length p < 64)%nat -> NoDup (map account_key L) -> group (length p) i (under p L) = under (p ++ [i]) L.
Proof. intros Hp Hnd. rewrite <- under_child, under_under by (done || by apply under_all_placed). done. Qed.

Lemma under_nil L : under [] L = L.
Proof. unfold under. apply filter_all, Forall_forall. by intros x _. Qed.

Lemma pkey_inj p q : Forall nibble_ok p -> Forall nibble_ok q -> pkey p = pkey q -> p = q.
Proof. intros Hp Hq E. apply (f_equal (fun k => unpack (nk_nibble_path k))) in E. cbn in E. by rewrite !unpack_pack in E. Qed.

(** ** Other nodes are written *)
Lemma frozen_local s s' p g c : Forall nibble_ok p -> (forall k m, s k = Some m -> at_below p k -> s' k = Some m) ->
  frozen_child s p g c -> frozen_child s' p g c.
Proof.
  intros Hp Hag. destruct c as [[h n|x]|]; cbn [frozen_child]; [|intros [-> E]; split; [done|]|done].
  - intros (node & E & Hr & Hl). exists node. split_and!; [|eapply represents_local|..]; try apply Hl; try done.
    + apply Hag; [done|]. by apply at_below_pack.
    + intros k m Hk (q & _ & Eq). apply Hag; [done|]. by exists q.
  - apply Hag; [done|]. by apply at_below_pack.
Qed.

Lemma put_elsewhere s p q n k m : Forall nibble_ok q -> ~ p `prefix_of` q -> s k = Some m -> at_below p k -> put_at_key s (pkey q) n k = Some m.
Proof.
  intros Hq Hne Hk [r E]. unfold put_at_key. rewrite decide_False; [done|]. intros ->. apply Hne. exists r.
  cbn [pkey nk_nibble_path] in E. by rewrite unpack_pack in E.
Qed.

Lemma node_at_put s L p j info q n : Forall nibble_ok p -> Forall nibble_ok q -> node_at s L p j info ->
  (forall i, nibble_ok i -> Some i <> j -> ~ (p ++ [i]) `prefix_of` q) -> node_at (put_at_key s (pkey q) n) L p j info.
Proof.
  intros Hp Hq (Ek & Hl & Hc) Hne. split_and!; [done..|]. intros i c Hi Hj E.
  eapply frozen_local; [by apply path_snoc_ok| |by apply Hc]. intros k m Hk Hb. apply (put_elsewhere s (p ++ [i])); [done|by apply Hne|done..].
Qed.

(** ** A node that is complete *)
Lemma into_child_frozen s p g ci : frozen_child s p g (Some ci) ->
  exists node h, s (pkey p) = Some node /\ represents s p g node /\ h = hash_at (length p) g /\
    into_child ci v = Ok (mkChild h v (Node_node_type node)).
Proof.
  destruct ci as [h n|x]; cbn [frozen_child into_child].
  - intros (node & E & Hr & _ & -> & ->). exists (Node_Internal node), (hash_at (length p) g). split_and!; [done..|]. cbn [expect]. rewrite !obind_Ok.
    pose proof (represents_type _ _ _ _ Hr) as Ht. cbn [Node_node_type] in *. unfold InternalNode_node_type in *. by destruct Ht as [-> _].
  - intros [-> E]. exists (Node_Leaf x), (LeafNode_hash x). split_and!; [done|constructor| |done]. unfold hash_at, sl. cbn [map]. by rewrite smt_one.
Qed.

Lemma take_children_spec (cs : list (option (ChildInfo HV K))) : forall j, 0 <= j -> j + Z.of_nat (length cs) <= 16 ->
  (forall i ci, cs !! i = Some (Some ci) -> exists ch, into_child ci v = Ok ch) ->
  exists l, take_children j cs v = Ok l /\ sorted_by fst l /\ Forall (fun z => j <= fst z < 16) l /\
    forall i ch, (i, ch) ∈ l <-> exists ci, j <= i /\ cs !! Z.to_nat (i - j) = Some (Some ci) /\ into_child ci v = Ok ch.
Proof.
  induction cs as [|o cs IH]; intros j Hj Hlen Hok; cbn [take_children length] in *.
  - exists []. split_and!; [done|constructor|constructor|]. intros i ch. split; [by intros ?%not_elem_of_nil|]. by intros (ci & _ & E & _).
  - destruct (IH (j + 1) ltac:(lia) ltac:(lia)) as (l & E & Hs & Hf & Hl); [intros i ci Hi; by apply (Hok (S i))|].
    assert (Hrest : forall i ch, (i, ch) ∈ l <-> exists ci, j < i /\ (o :: cs) !! Z.to_nat (i - j) = Some (Some ci) /\ into_child ci v = Ok ch).
    { intros i ch. rewrite Hl. split; intros (ci & Hi & Ei & Ec); exists ci; (split_and!; [lia| |done]).
      - replace (Z.to_nat (i - j)) with (S (Z.to_nat (i - (j + 1)))) by lia. done.
      - replace (Z.to_nat (i - j)) with (S (Z.to_nat (i - (j + 1)))) in Ei by lia. done. }
    assert (Hf' : Forall (fun z => j <= fst z < 16) l) by (eapply Forall_impl; [exact Hf|]; cbn; intros z; lia).
    destruct o as [ci|].
    + destruct (Hok O ci eq_refl) as [ch Ech]. rewrite Ech, obind_Ok, E, obind_Ok. unfold expect_nibble. rewrite Z.mod_small by lia.
      exists ((j, ch) :: l). split_and!; [done| |by constructor; [cbn; lia|]|].
      * apply sorted_by_cons. split; [done|]. eapply Forall_impl; [exact Hf|]. cbn. intros z. lia.
      * intros i ch'. rewrite elem_of_cons, Hrest. split.
        -- intros [[= -> ->]|(ci' & Hi & Ei & Ec)]; [exists ci; rewrite Z.sub_diag; done|exists ci'; split_and!; [lia|done..]].
        -- intros (ci' & Hi & Ei & Ec). destruct (decide (i = j)) as [->|]; [left|right; exists ci'; split_and!; [lia|done..]].
           rewrite Z.sub_diag in Ei. injection Ei as <-. congruence.
    + exists l. split_and!; [done..|]. intros i ch. rewrite Hrest. split; intros (ci & Hi & Ei & Ec); exists ci; (split; [|done]); [lia|].
      destruct (decide (i = j)) as [->|]; [by rewrite Z.sub_diag in Ei|lia].
Qed.

Lemma under_elem p L x : x ∈ under p L <-> starts p (account_key x) /\ x ∈ L.
Proof. unfold under. by rewrite list_elem_of_filter. Qed.

(** A complete node is converted to the internal node of the leaves below it. *)
Lemma complete_node s L p info : Forall nibble_ok p -> (length p < 64)%nat -> NoDup (map account_key L) -> Z.of_nat (length L) < U64 ->
  node_at s L p None info -> (2 <= length (under p L))%nat \/ (p = [] /\ L <> []) ->
  exists node, into_internal_node info v = Ok (pkey p, node) /\ represents s p (under p L) (Node_Internal node) /\
    InternalNode_hash node = Ok (hash_at (length p) (under p L)) /\ in_leaf_count node = Z.of_nat (length (under p L)).
Proof.
  intros Hp Hlen Hnd Hb (Ek & Hl & Hc) Hne. set (g := under p L) in *.
  assert (Hne' : (2 <= length g)%nat \/ (p = [] /\ g <> [])).
  { destruct Hne as [|[-> HL]]; [by left|right]. split; [done|]. by rewrite (under_nil L : g = L). }
  assert (Hnc : forall i ci, ii_children info !! Z.to_nat i = Some (Some ci) -> nibble_ok i ->
    frozen_child s (p ++ [i]) (group (length p) i g) (Some ci)).
  { intros i ci Hi Hn. unfold g. rewrite group_under by done. by apply Hc. }
  destruct (take_children_spec (ii_children info) 0 ltac:(lia) ltac:(lia)) as (cs & Et & Hs & Hf & Hcs).
  { intros i ci Hi. pose proof (lookup_lt_Some _ _ _ Hi) as Hi16. rewrite <- (Nat2Z.id i) in Hi.
    apply Hnc in Hi; [|unfold nibble_ok; lia]. destruct (into_child_frozen _ _ _ _ Hi) as (n & h & _ & _ & _ & E). by eexists. }
  assert (Hch : forall i ch, (i, ch) ∈ cs -> exists node, s (child_key p (i, ch)) = Some node /\ represents s (p ++ [i]) (group (length p) i g) node /\
    ch = mkChild (hash_at (S (length p)) (group (length p) i g)) v (Node_node_type node)).
  { intros i ch Hi. assert (Hn : nibble_ok i) by (rewrite Forall_forall in Hf; specialize (Hf (i, ch) Hi); cbn in Hf; unfold nibble_ok; lia).
    apply Hcs in Hi as (ci & _ & Ei & Ec). rewrite Z.sub_0_r in Ei. destruct (into_child_frozen _ _ _ _ (Hnc i ci Ei Hn)) as (node & h & En & Hr & -> & E).
    rewrite E in Ec. injection Ec as <-. exists node. rewrite length_app, Nat.add_comm. by split_and!. }
  assert (Hst : stand_for (length p) cs g).
  { split_and!.
    - split; [done|]. eapply Forall_impl; [exact Hf|]. cbn. intros z. unfold nibble_ok. lia.
    - intros i Hi. split.
      + intros [ch Hin]. destruct (Hch i ch Hin) as (node & _ & Hr & _). by eapply represents_nonempty.
      + intros Hg. destruct (lookup_lt_is_Some_2 (ii_children info) (Z.to_nat i)) as [[ci|] Ei]; [unfold nibble_ok in Hi; lia| |].
        * destruct (into_child_frozen _ _ _ _ (Hnc i ci Ei Hi)) as (node & h & _ & _ & _ & E). eexists. apply Hcs. exists ci.
          rewrite Z.sub_0_r. split_and!; [unfold nibble_ok in Hi; lia|done..].
        * apply Hc in Ei; [|done..]. cbn [frozen_child] in Ei. rewrite <- group_under in Ei by done. done.
    - intros i ch Hin. by destruct (Hch i ch Hin) as (node & _ & _ & ->).
    - intros i ch Hin. destruct (Hch i ch Hin) as (node & _ & Hr & ->). by eapply child_is_leaf. }
  assert (Hsum : sum_leaf_counts 0 cs = Ok (Z.of_nat (length g))).
  { apply (sum_leaf_counts_spec (length p)); [done..| |].
    - pose proof (length_filter (fun x => starts p (account_key x)) L). unfold g, under. lia.
    - intros i ch Hin. destruct (Hch i ch Hin) as (node & _ & Hr & ->). by eapply child_leaf_count. }
  assert (Hcsne : cs <> []).
  { intros ->. apply (stand_for_nil _ _ Hlen) in Hst. rewrite Hst in Hne'. destruct Hne' as [Hl'|[_ Hg]]; [cbn in Hl'; lia|done]. }
  set (node := mkInternalNode cs (Z.of_nat (length g))). exists node.
  assert (Hr : represents s p g (Node_Internal node)).
  { apply (rep_internal s p g cs (fun i => default Node_Null (s (pkey (p ++ [i]))))); try done.
    all: intros i ch Hin; destruct (Hch i ch Hin) as (n & En & Hr & ->); unfold child_key, pkey in *; cbn [fst snd child_version child_node_type] in *; by rewrite En. }
  split_and!; [|done|by apply represents_hash in Hr|done].
  unfold into_internal_node. rewrite Et, obind_Ok. unfold InternalNode_new, new_impl, from_sorted.
  assert (Hem : Children_is_empty cs = false) by (by destruct cs). rewrite Hem. cbn [negb ensure].
  rewrite obind_Ok, Hsum, obind_Ok. cbn [expect_res]. by rewrite obind_Ok, Ek.
Qed.

(** ** Freezing *)

(** The storage with the nodes that are to be written. *)
Definition seen s (fz : gmap NodeKey (Node HV K)) : store := fun k => match fz !! k with Some n => Some n | None => s k end.

Lemma seen_insert s fz k n j : seen s (<[k := n]> fz) j = put_at_key (seen s fz) k n j.
Proof.
  unfold seen, put_at_key. case_decide as E; [subst; by rewrite lookup_insert_eq|]. by rewrite lookup_insert_ne.
Qed.

Lemma node_at_mono s s' L p j info : Forall nibble_ok p -> (forall k m, s k = Some m -> s' k = Some m) ->
  node_at s L p j info -> node_at s' L p j info.
Proof.
  intros Hp Hm (Ek & Hl & Hc). split_and!; [done..|]. intros i c Hi Hj E. eapply frozen_local; [by apply path_snoc_ok| |by apply Hc].
  intros k m Hk _. by apply Hm.
Qed.

Lemma skeleton_mono s s' L key P : (forall k m, s k = Some m -> s' k = Some m) -> skeleton s L key P -> skeleton s' L key P.
Proof.
  intros Hm [Hl Hn Hh Hr]. split; [done| |done..]. intros d info Hd. eapply node_at_mono; [apply path_ok_take|done|by apply Hn].
Qed.

Lemma spine_mono s s' L key P : (forall k m, s k = Some m -> s' k = Some m) -> spine s L key P -> spine s' L key P.
Proof. intros Hm [Hsk Hmany]. split; [by eapply skeleton_mono|done]. Qed.

Lemma not_on_path key d m i : (d < m <= 64)%nat -> i <> nib key d -> ~ (take d (key_nibbles key) ++ [i]) `prefix_of` take m (key_nibbles key).
Proof.
  intros Hd Hi [r E]. apply Hi. apply (f_equal (.!! d)) in E. rewrite lookup_take_lt, nib_lookup in E by lia.
  rewrite <- app_assoc, lookup_app_r in E by (rewrite path_length; lia). rewrite path_length, Nat.sub_diag in E by lia. by injection E.
Qed.

Lemma frozen_none s p c : frozen_child s p [] c -> c = None.
Proof. destruct c as [[h n|x]|]; [intros (node & _ & _ & Hl & _); cbn in Hl; lia|by intros [? _]|done]. Qed.

(** The child on the path is the last one. *)
Lemma spine_rposition s L key P d info ci : skeleton s L key P -> P !! d = Some info ->
  ii_children info !! Z.to_nat (nib key d) = Some (Some ci) -> rposition is_some (ii_children info) = Some (Z.to_nat (nib key d)).
Proof.
  intros [Hl Hn _ Hr] Hd Hc. pose proof (lookup_lt_Some _ _ _ Hd) as Hdl. destruct (Hn d info Hd) as (_ & H16 & Hf).
  pose proof (nib_ok key d ltac:(lia)) as Hni. eapply rposition_spec; [exact Hc|done|].
  intros j o Hj Ho. pose proof (lookup_lt_Some _ _ _ Ho) as Hj16. unfold nibble_ok in Hni.
  rewrite <- (Nat2Z.id j) in Ho. apply Hf in Ho; [|unfold nibble_ok; lia|case_match; [intros E; injection E as E; lia|done]].
  rewrite Hr in Ho; [|done|unfold nibble_ok; lia|lia]. by apply frozen_none in Ho as ->.
Qed.

Lemma set_child_spec info (i : Z) ci : (Z.to_nat i < length (ii_children info))%nat ->
  set_child info i ci = Ok (mkInternalInfo (ii_node_key info) (<[Z.to_nat i := Some ci]> (ii_children info))).
Proof. intros Hi. apply lookup_lt_is_Some_2 in Hi as [o Ho]. unfold set_child, child_slot. by rewrite Ho. Qed.

Lemma node_at_insert s L p j info i ci : nibble_ok i -> node_at s L p (Some i) info -> j = Some i \/ frozen_child s (p ++ [i]) (under (p ++ [i]) L) (Some ci) ->
  node_at s L p j (mkInternalInfo (ii_node_key info) (<[Z.to_nat i := Some ci]> (ii_children info))).
Proof.
  intros Hi (Ek & Hl & Hc) Hor. split_and!; [done|by cbn; rewrite length_insert|]. cbn [ii_children].
  intros i' c Hi' Hj E. destruct (decide (i' = i)) as [->|Hne].
  - rewrite list_lookup_insert_eq in E by (unfold nibble_ok in Hi; lia). injection E as <-. destruct Hor as [->|]; done.
  - rewrite list_lookup_insert_ne in E by (unfold nibble_ok in Hi, Hi'; lia). apply Hc; [done|congruence|done].
Qed.

Lemma freeze_last_spec s L key P info (self : JellyfishMerkleRestore HV K) : NoDup (map account_key L) -> Z.of_nat (length L) < U64 ->
  jr_version self = v -> partial_nodes self = P ++ [info] -> P <> [] -> spine (seen s (frozen_nodes self)) L key (P ++ [info]) ->
  exists node P', length P' = length P /\
    let fz := <[pkey (take (length P) (key_nibbles key)) := Node_Internal node]> (frozen_nodes self) in
    freeze_last_node self = Ok (with_partial_nodes (with_frozen_nodes self fz) P') /\ spine (seen s fz) L key P'.
Proof.
  intros Hnd Hb Ev EP HP Hsp. destruct P as [|par P0 _] using rev_ind; [done|]. clear HP. pose proof Hsp as [Hsk Hmany]. pose proof Hsk as [Hl Hn Hh Hr].
  assert (Hm1 : length (P0 ++ [par]) = S (length P0)) by (rewrite length_app; cbn; lia). rewrite Hm1.
  assert (Hm2 : length ((P0 ++ [par]) ++ [info]) = S (S (length P0))) by (rewrite length_app, Hm1; cbn; lia). rewrite Hm2 in Hl, Hn, Hh, Hr.
  assert (Hinfo : ((P0 ++ [par]) ++ [info]) !! S (length P0) = Some info) by (rewrite <- Hm1; apply snoc_lookup).
  pose proof (Hn _ _ Hinfo) as Hcomp. rewrite (proj2 (Nat.ltb_ge _ _)) in Hcomp by lia. set (m := S (length P0)) in *. set (q := take m (key_nibbles key)) in *.
  assert (Hqlen : length q = m) by (unfold q; apply path_length; lia).
  destruct (complete_node _ L q info (path_ok_take key m) ltac:(lia) Hnd Hb Hcomp) as (node & Ei & Hrep & Eh & Ec); [left; apply Hmany; rewrite Hm2; lia|].
  assert (Epar : ((P0 ++ [par]) ++ [info]) !! length P0 = Some par) by (rewrite <- app_assoc; by apply list_lookup_middle).
  assert (Hd64 : (length P0 < 64)%nat) by lia. pose proof (nib_ok key _ Hd64) as Hni.
  assert (Hhole := Hh _ _ Epar ltac:(lia)). pose proof (Hn _ _ Epar) as Hpar. rewrite (proj2 (Nat.ltb_lt _ _)) in Hpar by lia.
  set (par' := mkInternalInfo (ii_node_key par) (<[Z.to_nat (nib key (length P0)) := Some (ChildInfo_Internal (Some (hash_at m (under q L))) (Some (Z.of_nat (length (under q L)))))]> (ii_children par))).
  exists node, (P0 ++ [par']). split; [rewrite length_app; cbn; lia|]. cbn zeta.
  assert (Eq : q = take (length P0) (key_nibbles key) ++ [nib key (length P0)]) by (by apply path_snoc). split.
  - unfold freeze_last_node. rewrite EP, vec_pop_snoc. cbn [expect]. rewrite obind_Ok. rewrite Ev, Ei, obind_Ok, Eh, obind_Ok, vec_pop_snoc.
    unfold complete_child. rewrite (spine_rposition _ _ _ _ _ _ _ Hsk Epar Hhole). cbn [expect]. rewrite obind_Ok.
    unfold child_slot. rewrite Nat2Z.id, Hhole. cbn [expect]. rewrite obind_Ok. cbn [is_some negb assert]. rewrite !obind_Ok.
    unfold nibble_ok in Hni. rewrite Z2Nat.id by lia. rewrite set_child_spec by (destruct Hpar as (_ & -> & _); lia). rewrite obind_Ok.
    rewrite Hqlen, Ec. done.
  - assert (Hput : forall d info', (d < m)%nat -> node_at (seen s (frozen_nodes self)) L (take d (key_nibbles key)) (Some (nib key d)) info' ->
      node_at (seen s (<[pkey q := Node_Internal node]> (frozen_nodes self))) L (take d (key_nibbles key)) (Some (nib key d)) info').
    { intros d info' Hd Hna. eapply node_at_mono; [apply path_ok_take|intros k' n' Ek; rewrite seen_insert; exact Ek|].
      apply node_at_put; [apply path_ok_take..|done|]. intros i Hi Hne. apply not_on_path; [lia|congruence]. }
    assert (Elen : length (P0 ++ [par']) = m) by (rewrite length_app; cbn; lia).
    split; [|intros d Hd; rewrite Elen in Hd; apply Hmany; rewrite Hm2; lia]. split; rewrite ?Elen; [lia| | |intros d i Hd; apply Hr; lia].
    + intros d info' Hd. destruct (decide (d = length P0)) as [->|Hne].
      * rewrite snoc_lookup in Hd. injection Hd as <-. rewrite (proj2 (Nat.ltb_ge _ _)) by lia.
        apply node_at_insert; [done|by apply Hput; [lia|]|right]. rewrite <- Eq. exists node.
        rewrite seen_insert. unfold put_at_key at 1. rewrite decide_True by done. split_and!; [done| |apply Hmany; rewrite Hm2; lia|by rewrite Hqlen|done].
        eapply represents_local; [exact Hrep|apply path_ok_take|]. intros k' n' Ek (r & Hr' & Er). rewrite seen_insert. unfold put_at_key.
        rewrite decide_False; [done|]. intros ->. cbn [pkey nk_nibble_path] in Er. rewrite unpack_pack in Er by apply path_ok_take.
        apply (f_equal length) in Er. rewrite length_app in Er. destruct r; [done|cbn in Er; lia].
      * apply lookup_app_Some in Hd as [Hd|[Hd1 Hd]]; [|by destruct (d - length P0)%nat as [|n'] eqn:En; [lia|]].
        pose proof (lookup_lt_Some _ _ _ Hd) as Hdl. rewrite (proj2 (Nat.ltb_lt _ _)) by lia. apply Hput; [lia|].
        specialize (Hn d info'). rewrite (proj2 (Nat.ltb_lt _ _)) in Hn by lia. apply Hn. rewrite <- app_assoc. by apply lookup_app_l_Some.
    + intros d info' Hd HS. apply lookup_app_Some in Hd as [Hd|[Hd1 Hd]]; [|by lia]. apply Hh; [|lia].
      rewrite <- app_assoc. by apply lookup_app_l_Some.
Qed.

(** The nodes that were frozen are internal nodes on the path, at depths from [n] to [m]. *)
Definition froze s (fz fz' : gmap NodeKey (Node HV K)) key (n m : nat) : Prop :=
  forall k node, seen s fz' k = Some node ->
    seen s fz k = Some node \/ exists d i, (n <= d < m)%nat /\ k = pkey (take d (key_nibbles key)) /\ node = Node_Internal i.

Lemma freeze_internal_spec s L key : NoDup (map account_key L) -> Z.of_nat (length L) < U64 -> forall rounds (self : JellyfishMerkleRestore HV K),
  jr_version self = v -> (rounds < length (partial_nodes self))%nat -> spine (seen s (frozen_nodes self)) L key (partial_nodes self) ->
  exists fz P', (length P' + rounds = length (partial_nodes self))%nat /\
    freeze_internal_loop rounds self = Ok (with_partial_nodes (with_frozen_nodes self fz) P') /\ spine (seen s fz) L key P' /\
    froze s (frozen_nodes self) fz key (length P') (length (partial_nodes self)).
Proof.
  intros Hnd Hb. induction rounds as [|rounds IH]; intros self Ev Hlt Hsp; cbn [freeze_internal_loop].
  - exists (frozen_nodes self), (partial_nodes self). split_and!; [lia|by destruct self|done|]. intros k node E. by left.
  - destruct (partial_nodes self) as [|info P _] eqn:EP using rev_ind; [cbn in Hlt; lia|]. rewrite length_app in Hlt. cbn [length] in Hlt.
    assert (HP : P <> []) by (intros ->; cbn in Hlt; lia).
    destruct (freeze_last_spec s L key P info self Hnd Hb Ev EP HP Hsp) as (node & P' & El & E & Hsp'). cbn zeta in *.
    set (fz := <[_ := _]> _) in *. rewrite E, obind_Ok.
    destruct (IH (with_partial_nodes (with_frozen_nodes self fz) P')) as (fz' & P'' & El' & E' & Hsp'' & Hg); [done|cbn; lia|done|].
    exists fz', P''. cbn [with_partial_nodes with_frozen_nodes partial_nodes frozen_nodes] in *. rewrite length_app. cbn [length].
    split_and!; [lia|by rewrite E'|done|]. intros k n Hk. destruct (Hg k n Hk) as [Hk'|(d & i & Hd & -> & ->)].
    + unfold fz in Hk'. rewrite seen_insert in Hk'. unfold put_at_key in Hk'. case_decide as Ek; [|by left].
      right. injection Hk' as <-. exists (length P), node. split_and!; [lia..|done|done].
    + right. exists d, i. split_and!; [lia..|done|done].
Qed.

(** ** The previous leaf *)

(** The last leaf is known, and is not yet in its place. *)
Record waiting s L x P : Prop := {
  wt_last : list.last L = Some x;
  wt_child : exists P0 info, P = P0 ++ [info] /\ ii_children info !! Z.to_nat (nib (account_key x) (length P0)) = Some (Some (ChildInfo_Leaf x));
  wt_spine : spine (put_at_key s (pkey (take (length P) (key_nibbles (account_key x)))) (Node_Leaf x)) L (account_key x) P;
}.

(** Before the next leaf: nothing was added since the start, or the last leaf waits. *)
Definition ready s L key (self : JellyfishMerkleRestore HV K) : Prop :=
  let s' := seen s (frozen_nodes self) in
  (num_keys_received self = 0 /\ spine s' L key (partial_nodes self)) \/
  (num_keys_received self <> 0 /\ exists x, account_key x = key /\ waiting s' L x (partial_nodes self)).

Definition leaf_frozen (fz : gmap NodeKey (Node HV K)) L P : gmap NodeKey (Node HV K) :=
  match list.last L with
  | Some x => <[pkey (take (length P) (key_nibbles (account_key x))) := Node_Leaf x]> fz
  | None => fz
  end.

Definition after_leaf L (self : JellyfishMerkleRestore HV K) : gmap NodeKey (Node HV K) :=
  if num_keys_received self =? 0 then frozen_nodes self else leaf_frozen (frozen_nodes self) L (partial_nodes self).

Lemma freeze_leaf_spec s L x P0 info (self : JellyfishMerkleRestore HV K) : jr_version self = v -> num_keys_received self <> 0 ->
  partial_nodes self = P0 ++ [info] -> skeleton s L (account_key x) (P0 ++ [info]) ->
  ii_children info !! Z.to_nat (nib (account_key x) (length P0)) = Some (Some (ChildInfo_Leaf x)) ->
  freeze_previous_leaf self = Ok (with_frozen_nodes self (<[pkey (take (S (length P0)) (key_nibbles (account_key x))) := Node_Leaf x]> (frozen_nodes self))).
Proof.
  intros Ev Hnum EP Hsp Hc. unfold freeze_previous_leaf. rewrite (proj2 (Z.eqb_neq _ _)) by done.
  rewrite EP, last_snoc. cbn [expect]. rewrite obind_Ok. pose proof (sk_len _ _ _ _ Hsp) as Hl. rewrite length_app in Hl. cbn [length] in Hl.
  rewrite (spine_rposition _ _ _ _ _ _ _ Hsp (snoc_lookup P0 info) Hc). cbn [expect]. rewrite obind_Ok. unfold child_slot. rewrite Nat2Z.id, Hc. cbn [expect]. rewrite obind_Ok.
  pose proof (nib_ok (account_key x) (length P0) ltac:(lia)) as Hn. rewrite Z2Nat.id by (unfold nibble_ok in Hn; lia).
  rewrite nibble_from_u8_Ok, obind_Ok by done. destruct (sk_node _ _ _ _ Hsp _ _ (snoc_lookup P0 info)) as (Ek & _).
  rewrite Ek, Ev. unfold pkey. rewrite gen_child_node_key_pack, obind_Ok by (try apply path_ok_take; try rewrite path_length; done || lia).
  by rewrite path_snoc by lia.
Qed.

Lemma ready_settle s L key (self : JellyfishMerkleRestore HV K) : jr_version self = v -> ready s L key self ->
  freeze_previous_leaf self = Ok (with_frozen_nodes self (after_leaf L self)) /\ spine (seen s (after_leaf L self)) L key (partial_nodes self).
Proof.
  intros Ev [[Hnum Hsp]|(Hnum & x & <- & Hw)]; unfold after_leaf.
  - rewrite Hnum. cbn. split; [|done]. unfold freeze_previous_leaf. rewrite Hnum. by destruct self.
  - rewrite (proj2 (Z.eqb_neq _ _)) by done. destruct Hw as [Hlast (P0 & info & EP & Hc) Hsp]. unfold leaf_frozen. rewrite Hlast. split.
    { rewrite (freeze_leaf_spec _ _ _ _ _ self Ev Hnum EP ltac:(rewrite <- EP; apply Hsp) Hc), EP, length_app, Nat.add_1_r. done. } eapply spine_mono; [|exact Hsp]. intros k n Hk. by rewrite seen_insert.
Qed.

Lemma freeze_spec s L key (self : JellyfishMerkleRestore HV K) n : NoDup (map account_key L) -> Z.of_nat (length L) < U64 ->
  jr_version self = v -> ready s L key self -> (1 <= n <= length (partial_nodes self))%nat ->
  exists fz P', freeze self n = Ok (with_partial_nodes (with_frozen_nodes self fz) P') /\ length P' = n /\ spine (seen s fz) L key P' /\
    froze s (after_leaf L self) fz key n (length (partial_nodes self)).
Proof.
  intros Hnd Hb Ev Hr Hn. destruct (ready_settle s L key self Ev Hr) as [E Hsp]. unfold freeze. rewrite E, obind_Ok. unfold freeze_internal_nodes.
  destruct (freeze_internal_spec s L key Hnd Hb (length (partial_nodes self) - n) (with_frozen_nodes self (after_leaf L self))) as (fz & P' & El & E' & Hsp' & Hg); [done|cbn; lia|done|].
  cbn [with_frozen_nodes partial_nodes frozen_nodes] in *. assert (length P' = n) as <- by lia. exists fz, P'. by split_and!.
Qed.

(** ** Keys that agree on a prefix *)
Lemma take_same_nibbles (a b : HV) d : (d <= 64)%nat -> (forall i, (i < d)%nat -> nib a i = nib b i) -> take d (key_nibbles a) = take d (key_nibbles b).
Proof.
  intros Hd He. apply list_eq. intros i. destruct (decide (i < d)%nat) as [Hi|Hi].
  - rewrite !lookup_take_lt, !nib_lookup by lia. by rewrite He.
  - by rewrite !lookup_take_ge by lia.
Qed.

Lemma under_snoc p L y : under p (L ++ [y]) = under p L ++ if decide (starts p (account_key y)) then [y] else [].
Proof. unfold under. rewrite filter_app, filter_cons, filter_nil. by case_decide. Qed.

Lemma starts_own key d : (d <= 64)%nat -> starts (take d (key_nibbles key)) key.
Proof. intros Hd. unfold starts. by rewrite path_length. Qed.

Lemma starts_child key d i : (d < 64)%nat -> starts (take d (key_nibbles key) ++ [i]) key -> i = nib key d.
Proof. intros Hd Hs. apply starts_snoc in Hs as [_ Hs]; rewrite path_length in * by lia; [done|lia]. Qed.

(** Nothing is to the right of the largest key. *)
Lemma under_right L y d i : (d < 64)%nat -> Forall (fun x => klt (account_key x) (account_key y)) L -> nib (account_key y) d < i ->
  under (take d (key_nibbles (account_key y)) ++ [i]) L = [].
Proof.
  intros Hd Hall Hi. apply filter_none, Forall_forall. intros x Hx Hs. rewrite Forall_forall in Hall.
  apply starts_snoc in Hs as [Hs En]; rewrite path_length in * by lia; [|lia].
  eapply klt_asym; [by apply (Hall x)|]. eapply (starts_klt (take d (key_nibbles (account_key y)))); [apply starts_own; lia|done|rewrite path_length; lia|].
  rewrite path_length by lia. lia.
Qed.

(** ** A new leaf next to the others *)

(** The nodes above the place of a new leaf do not change. *)
Lemma node_at_new s L y d info q n : (d < 64)%nat -> (forall i, nibble_ok i -> i <> nib (account_key y) d -> ~ (take d (key_nibbles (account_key y)) ++ [i]) `prefix_of` q) ->
  Forall nibble_ok q -> node_at s L (take d (key_nibbles (account_key y))) (Some (nib (account_key y) d)) info ->
  node_at (put_at_key s (pkey q) n) (L ++ [y]) (take d (key_nibbles (account_key y))) (Some (nib (account_key y) d)) info.
Proof.
  intros Hd Hq Hqn Hn. destruct (node_at_put s L _ _ info q n (path_ok_take _ _) Hqn Hn) as (Ek & Hl & Hc); [intros i Hi Hne; apply Hq; [done|congruence]|].
  split_and!; [done..|]. intros i c Hi Hne E. rewrite under_snoc, decide_False, app_nil_r; [by apply Hc|].
  intros Hs. apply starts_child in Hs; [congruence|done].
Qed.

Lemma node_at_weaken s L p j info : node_at s L p None info -> node_at s L p j info.
Proof. intros (Ek & Hl & Hc). split_and!; [done..|]. intros i c Hi _. by apply Hc. Qed.

Lemma sibling_spec s L key y P0 info : skeleton s L key (P0 ++ [info]) -> many (L ++ [y]) (account_key y) (S (length P0)) ->
  (forall i, (i < length P0)%nat -> nib key i = nib (account_key y) i) -> under (take (S (length P0)) (key_nibbles (account_key y))) L = [] ->
  Forall (fun x => klt (account_key x) (account_key y)) L ->
  waiting s (L ++ [y]) y (P0 ++ [mkInternalInfo (ii_node_key info) (<[Z.to_nat (nib (account_key y) (length P0)) := Some (ChildInfo_Leaf y)]> (ii_children info))]).
Proof.
  intros [Hl Hn Hh Hr] Hm He Hnone Hall. set (ky := account_key y) in *. set (c := length P0) in *. rewrite length_app in *. cbn [length] in *. fold c in Hl.
  assert (Et : forall d, (d <= c)%nat -> take d (key_nibbles key) = take d (key_nibbles ky)) by (intros d Hd; apply take_same_nibbles; [lia|intros i Hi; apply He; lia]).
  pose proof (nib_ok ky c ltac:(lia)) as Hni. destruct (Hn c info (snoc_lookup P0 info)) as (_ & H16 & _).
  set (info' := mkInternalInfo _ _).
  assert (El : length (P0 ++ [info']) = S c) by (rewrite length_app; cbn; lia).
  assert (Hown : starts (take (S c) (key_nibbles ky)) ky) by (apply starts_own; lia).
  split; [by rewrite last_snoc| |].
  { exists P0, info'. split; [done|]. cbn [info' ii_children]. apply list_lookup_insert_eq. unfold nibble_ok in Hni. lia. }
  rewrite El. fold ky. split; [|by rewrite El]. split; rewrite ?El; [lia|..].
  - intros d info1 Hd. destruct (decide (d = c)) as [->|Hne].
    + rewrite (snoc_lookup P0) in Hd. injection Hd as <-. rewrite (proj2 (Nat.ltb_ge _ _)) by lia.
      specialize (Hn c info (snoc_lookup P0 info)). rewrite (proj2 (Nat.ltb_ge _ _)), Et in Hn by lia.
      apply node_at_insert; [done| |right].
      * apply node_at_new; [lia| |apply path_ok_take|by apply node_at_weaken]. intros i Hi Hne. apply not_on_path; [lia|done].
      * rewrite <- path_snoc by lia. cbn [frozen_child]. rewrite under_snoc, Hnone, decide_True by done. split; [done|].
        unfold put_at_key. by rewrite decide_True.
    + apply lookup_app_Some in Hd as [Hd|[Hd1 Hd]]; [|by destruct (d - length P0)%nat as [|n'] eqn:En; [lia|]].
      pose proof (lookup_lt_Some _ _ _ Hd) as Hdl. fold c in Hdl. rewrite (proj2 (Nat.ltb_lt _ _)) by lia.
      assert (Hold : (P0 ++ [info]) !! d = Some info1) by (by apply lookup_app_l_Some).
      specialize (Hn d info1 Hold). rewrite (proj2 (Nat.ltb_lt _ _)), Et, He in Hn by lia.
      apply node_at_new; [lia| |apply path_ok_take|done]. intros i Hi Hne'. apply not_on_path; [lia|done].
  - intros d info1 Hd HS. apply lookup_app_Some in Hd as [Hd|[Hd1 Hd]]; [|fold c in Hd1; lia].
    fold ky. rewrite <- He by lia. apply Hh; [by apply lookup_app_l_Some|lia].
  - intros d i Hd Hi Hlt. rewrite under_snoc, decide_False, app_nil_r by (intros Hs; apply starts_child in Hs; [unfold ky in *; lia|lia]).
    apply (under_right L y); [lia|done|done].
Qed.

(** ** A new leaf in the place of the previous one *)

(** The node at depth [d] on the path of [key], with its only child. *)
Definition lone_node key (d : nat) (ci : ChildInfo HV K) : InternalInfo HV K :=
  mkInternalInfo (pkey (take d (key_nibbles key))) (<[Z.to_nat (nib key d) := Some ci]> (replicate 16 None)).

Lemma lone_child key d ci : (d < 64)%nat -> ii_children (lone_node key d ci) !! Z.to_nat (nib key d) = Some (Some ci).
Proof.
  intros Hd. pose proof (nib_ok key d Hd) as Hn. unfold nibble_ok in Hn. cbn [lone_node ii_children].
  apply list_lookup_insert_eq. rewrite length_replicate. lia.
Qed.

Lemma lone_node_at s L key d ci j : (d < 64)%nat -> (forall i, nibble_ok i -> i <> nib key d -> under (take d (key_nibbles key) ++ [i]) L = []) ->
  j = Some (nib key d) \/ frozen_child s (take (S d) (key_nibbles key)) (under (take (S d) (key_nibbles key)) L) (Some ci) ->
  node_at s L (take d (key_nibbles key)) j (lone_node key d ci).
Proof.
  intros Hd Hnone Hor. pose proof (nib_ok key d Hd) as Hni. split_and!; [done|unfold lone_node; cbn [ii_children]; by rewrite length_insert|]. intros i c Hi Hj E. destruct (decide (i = nib key d)) as [->|Hne].
  - destruct Hor as [->|Hor]; [done|]. rewrite lone_child in E by done. injection E as <-. by rewrite <- path_snoc.
  - cbn [lone_node ii_children] in E. unfold nibble_ok in *. rewrite list_lookup_insert_ne, lookup_replicate_2 in E by lia. injection E as <-.
    apply Hnone; [unfold nibble_ok; lia|done].
Qed.

Definition split_nodes x P0 info (c : nat) : list (InternalInfo HV K) :=
  P0 ++ mkInternalInfo (ii_node_key info) (<[Z.to_nat (nib (account_key x) (length P0)) := Some (ChildInfo_Internal None None)]> (ii_children info)) ::
  map (fun d => lone_node (account_key x) d (ChildInfo_Internal None None)) (seq (S (length P0)) (c - S (length P0))).

Lemma split_nodes_lookup x P0 info (c d : nat) info' : split_nodes x P0 info c !! d = Some info' ->
  (d < length P0)%nat /\ P0 !! d = Some info' \/
  d = length P0 /\ info' = mkInternalInfo (ii_node_key info) (<[Z.to_nat (nib (account_key x) d) := Some (ChildInfo_Internal None None)]> (ii_children info)) \/
  (length P0 < d < c)%nat /\ info' = lone_node (account_key x) d (ChildInfo_Internal None None).
Proof.
  unfold split_nodes. intros [Hd|[Hge Hd]]%lookup_app_Some; [left; split; [by eapply lookup_lt_Some|done]|right].
  destruct (d - length P0)%nat as [|e] eqn:Ee; [left; injection Hd as <-; by assert (d = length P0) as -> by lia|right].
  cbn in Hd. change (map ?f ?l) with (f <$> l) in Hd. apply list_lookup_fmap_Some in Hd as (d' & -> & Hd). apply lookup_seq in Hd as [-> Hlt].
  split; [lia|]. f_equal. lia.
Qed.

Lemma split_nodes_length x P0 info (c : nat) : (length P0 < c)%nat -> length (split_nodes x P0 info c) = c.
Proof. intros Hc. unfold split_nodes. rewrite length_app. cbn. rewrite length_map, length_seq. lia. Qed.

(** The previous leaf alone below its place. *)
Lemma alone_below L x m d i : (m <= d < 64)%nat -> under (take m (key_nibbles (account_key x))) L = [x] ->
  under (take d (key_nibbles (account_key x)) ++ [i]) L = if decide (i = nib (account_key x) d) then [x] else [].
Proof.
  intros Hd Ex. assert (Epre : take d (key_nibbles (account_key x)) ++ [i] =
    take m (key_nibbles (account_key x)) ++ (drop m (take d (key_nibbles (account_key x))) ++ [i])).
  { rewrite app_assoc. f_equal. rewrite <- (take_drop m (take d (key_nibbles (account_key x)))) at 1. by rewrite take_take, Nat.min_l by lia. }
  rewrite Epre, <- under_under, Ex, <- Epre. unfold under. rewrite filter_cons, filter_nil. case_decide as Es.
  - apply starts_child in Es; [|lia]. by rewrite decide_True.
  - rewrite decide_False; [done|]. intros ->. apply Es. rewrite <- path_snoc by lia. apply starts_own. lia.
Qed.

Lemma alone_path L x m d : (m <= d <= 64)%nat -> under (take m (key_nibbles (account_key x))) L = [x] -> under (take d (key_nibbles (account_key x))) L = [x].
Proof.
  intros Hd Ex. destruct (decide (d = m)) as [->|]; [done|]. destruct d as [|d]; [lia|]. rewrite path_snoc, (alone_below L x m) by (done || lia). by rewrite decide_True.
Qed.

Lemma waiting_alone s L x P0 info : waiting s L x (P0 ++ [info]) -> under (take (S (length P0)) (key_nibbles (account_key x))) L = [x].
Proof.
  intros [_ (P0' & info' & E & Hc) [[Hl Hn _ _] _]]. apply app_inj_tail in E as [<- <-]. rewrite length_app in Hl. cbn [length] in Hl.
  destruct (Hn _ _ (snoc_lookup P0 info)) as (_ & _ & Hf). rewrite length_app, (proj2 (Nat.ltb_ge _ _)) in Hf by (cbn; lia).
  specialize (Hf _ _ (nib_ok (account_key x) (length P0) ltac:(lia)) ltac:(done) Hc). cbn [frozen_child] in Hf. rewrite <- path_snoc in Hf by lia. by destruct Hf.
Qed.

Lemma split_skeleton s L x P0 info (c : nat) : waiting s L x (P0 ++ [info]) -> (S (length P0) <= c < 64)%nat ->
  skeleton (put_at_key s (pkey (take (S c) (key_nibbles (account_key x)))) (Node_Leaf x)) L (account_key x)
    (split_nodes x P0 info c ++ [lone_node (account_key x) c (ChildInfo_Leaf x)]).
Proof.
  intros Hw Hc. pose proof (waiting_alone _ _ _ _ _ Hw) as Ex. destruct Hw as [_ _ [[Hl Hn Hh Hr] _]]. set (kx := account_key x) in *. set (m := length P0) in *.
  rewrite length_app in *. cbn [length] in *. fold m in Hl, Hn, Hh, Hr.
  assert (El : length (split_nodes x P0 info c) = c) by (apply split_nodes_length; unfold m in *; lia).
  assert (Eall : length (split_nodes x P0 info c ++ [lone_node kx c (ChildInfo_Leaf x)]) = S c) by (rewrite length_app, El; cbn; lia).
  assert (Hold : forall d info', (d <= m)%nat -> (P0 ++ [info]) !! d = Some info' ->
    node_at (put_at_key s (pkey (take (S c) (key_nibbles kx))) (Node_Leaf x)) L (take d (key_nibbles kx)) (Some (nib kx d)) info').
  { intros d info' Hd Hi. specialize (Hn d info' Hi). assert (Hn' : node_at (put_at_key s (pkey (take (m + 1) (key_nibbles kx))) (Node_Leaf x)) L (take d (key_nibbles kx)) (Some (nib kx d)) info')
      by (case_match; [done|by apply node_at_weaken]). clear Hn. apply node_at_put; [apply path_ok_take..| |].
    - destruct Hn' as (Ek & H16 & Hf). split_and!; [done..|]. intros i ci Hi' Hj E. eapply frozen_local; [apply path_snoc_ok; [apply path_ok_take|done]| |by apply Hf].
      intros k n Hk [r Er]. unfold put_at_key in Hk. case_decide as Ek'; [|done]. subst k. cbn [pkey nk_nibble_path] in Er. rewrite unpack_pack in Er by apply path_ok_take.
      exfalso. eapply (not_on_path kx d (m + 1) i); [lia|congruence|by exists r].
    - intros i Hi' Hne. apply not_on_path; [lia|congruence]. }
  split; rewrite ?Eall; [lia|..].
  - intros d info' Hd. apply lookup_app_Some in Hd as [Hd|[Hge Hd]].
    + pose proof (lookup_lt_Some _ _ _ Hd) as Hdc. rewrite El in Hdc. rewrite (proj2 (Nat.ltb_lt _ _)) by lia.
      apply split_nodes_lookup in Hd as [[Hlt Hd]|[[-> ->]|[Hlt ->]]].
      * fold m in Hlt. apply Hold; [lia|]. by apply lookup_app_l_Some.
      * apply node_at_insert; [apply nib_ok; unfold m in *; lia|apply Hold; [unfold m; lia|apply snoc_lookup]|by left].
      * fold m in Hlt. apply lone_node_at; [lia| |by left]. intros i Hi Hne. rewrite (alone_below L x (S m)) by (done || lia). by rewrite decide_False.
    + rewrite El in Hge, Hd. destruct (d - c)%nat as [|e] eqn:Ee; [|done]. injection Hd as <-. assert (d = c) as -> by lia.
      rewrite (proj2 (Nat.ltb_ge _ _)) by lia. apply lone_node_at; [lia| |right].
      * intros i Hi Hne. rewrite (alone_below L x (S m)) by (done || lia). by rewrite decide_False.
      * cbn [frozen_child]. rewrite (alone_path L x (S m)) by (done || lia). split; [done|]. unfold put_at_key. by rewrite decide_True.
  - intros d info' Hd HS. apply lookup_app_Some in Hd as [Hd|[Hge Hd]]; [|lia].
    apply split_nodes_lookup in Hd as [[Hlt Hd]|[[-> ->]|[Hlt ->]]].
    + fold m in Hlt. apply Hh; [by apply lookup_app_l_Some|lia].
    + cbn [ii_children]. apply list_lookup_insert_eq. destruct (Hn m info (snoc_lookup P0 info)) as (_ & -> & _).
      pose proof (nib_ok kx m ltac:(lia)) as Hni. unfold nibble_ok, m, kx in *. lia.
    + apply lone_child. lia.
  - intros d i Hd Hi Hlt. destruct (decide (d < m + 1)%nat) as [Hlt'|Hge]; [by apply Hr|]. rewrite (alone_below L x (S m)) by (done || lia). rewrite decide_False by (fold kx; lia). done.
Qed.
End RestoreNodes.
