(* ===== verification/JellyfishRestoreAdd.v ===== *)
(** * Restoring a tree: adding a leaf

    A leaf with a key larger than the ones before takes its place, next to the others or
    deeper in the place of the previous leaf; the nodes that are then complete are
    frozen. *)
From stdpp Require Import base list numbers strings option gmap sorting.
From Stdlib Require Import ZArith Lia Bool Sorted.
From S2P Require Import Prelude Hash AccumulatorProof SparseMerkleProof SparseSpec SparseFacts NibblePath NibblePathFacts ByteCodec JellyfishNode JellyfishNodeFacts JellyfishHash JellyfishSpec JellyfishTree JellyfishRead JellyfishRuns JellyfishBatch JellyfishUpdate JellyfishCommit JellyfishIterate JellyfishRestore JellyfishRestoreFacts.

Lemma common_prefix_len_le {A} `{EqDecision A} : forall (xs ys : list A) i a b, xs !! i = Some a -> ys !! i = Some b -> a <> b ->
  (common_prefix_len xs ys <= i)%nat.
Proof.
  induction xs as [|x xs IH]; intros [|y ys] i a b Ha Hb Hne; [done..|]. cbn [common_prefix_len]. destruct (decide (x = y)) as [->|]; [|lia].
  destruct i as [|i]; cbn in Ha, Hb; [congruence|]. specialize (IH ys i a b Ha Hb Hne). lia.
Qed.

Section RestoreAdd.
Context {HV : Type} `{HashValueOps HV} `{HashValueBits HV} `{!HashValueLaws HV} `{CryptoHasher HV}
  `{LeafHasher HV} `{HashValueKeys HV} `{!HashValueKeysLaws HV} {K : Type} `{KeyHash HV K}.
Context (v : Version).
Implicit Types (s : store (HV := HV) (K := K)) (p : list Z) (L g : list (LeafNode HV K)) (x y z : LeafNode HV K)
  (info : InternalInfo HV K) (P : list (InternalInfo HV K)) (key : HV) (self : JellyfishMerkleRestore HV K).

(** ** The first nibble at which two keys differ *)
Lemma nib_bits_differ (a b : HV) c : (c < 64)%nat -> nib a c <> nib b c -> exists k, (k <= 3)%nat /\ key_bit a (4 * c + 3 - k) <> key_bit b (4 * c + 3 - k).
Proof.
  intros Hc Hne. pose proof (nib_ok a c Hc) as Ha. pose proof (nib_ok b c Hc) as Hb. unfold nibble_ok in *.
  assert (Hex : exists k, (k <= 3)%nat /\ Z.testbit (nib a c) (Z.of_nat k) <> Z.testbit (nib b c) (Z.of_nat k)).
  { destruct (decide (Exists (fun k => Z.testbit (nib a c) (Z.of_nat k) <> Z.testbit (nib b c) (Z.of_nat k)) (seq 0 4))) as [Hex|Hno].
    - apply Exists_exists in Hex as (k & Hk & Hd). apply elem_of_seq in Hk. exists k. split; [lia|done].
    - exfalso. apply Hne. apply Z.bits_inj'. intros i Hi. destruct (Z.lt_ge_cases i 4) as [Hlt|Hge].
      + destruct (decide (Z.testbit (nib a c) i = Z.testbit (nib b c) i)) as [|Hd]; [done|]. exfalso. apply Hno, Exists_exists.
        exists (Z.to_nat i). rewrite Z2Nat.id by done. split; [apply elem_of_seq; lia|done].
      + rewrite !(testbit_high 4) by (change (pow2 4) with 16; lia). done. }
  destruct Hex as (k & Hk & Hd). exists k. split; [done|]. by rewrite !key_bit_nib by done.
Qed.

Lemma common_prefix_nibbles (a b : HV) c : (c < 64)%nat -> (forall i, (i < c)%nat -> nib a i = nib b i) -> nib a c <> nib b c ->
  common_prefix_nibbles_len a b = Z.of_nat c.
Proof.
  intros Hc He Hne. unfold common_prefix_nibbles_len. rewrite common_prefix_bits_len_spec.
  assert (Hlo : (4 * c <= common_prefix_len (iter_bits a) (iter_bits b))%nat).
  { apply (common_prefix_len_ge false); rewrite ?iter_bits_length; [lia..|]. intros i Hi. change (key_bit a i = key_bit b i).
    pose proof (Nat.div_mod_eq i 4) as Ei. pose proof (Nat.mod_upper_bound i 4 ltac:(lia)) as Hm.
    replace i with (4 * (i / 4) + 3 - (3 - i mod 4))%nat by lia. rewrite !key_bit_nib by lia. by rewrite He by lia. }
  destruct (nib_bits_differ a b c Hc Hne) as (k & Hk & Hd).
  assert (Hhi : (common_prefix_len (iter_bits a) (iter_bits b) <= 4 * c + 3 - k)%nat).
  { unfold key_bit in Hd. rewrite !nth_lookup in Hd.
    destruct (lookup_lt_is_Some_2 (iter_bits a) (4 * c + 3 - k)) as [ba Ea]; [rewrite iter_bits_length; lia|].
    destruct (lookup_lt_is_Some_2 (iter_bits b) (4 * c + 3 - k)) as [bb Eb]; [rewrite iter_bits_length; lia|].
    rewrite Ea, Eb in Hd. by eapply common_prefix_len_le. }
  symmetry. apply Z.div_unique with (Z.of_nat (common_prefix_len (iter_bits a) (iter_bits b)) - 4 * Z.of_nat c); lia.
Qed.

(** ** Walking down *)
Lemma visited_path_spec key (j : nat) : (j <= 64)%nat -> visited_path (nib_it (key_nibbles key) 0 64 j) = Ok (pack (take j (key_nibbles key))).
Proof.
  intros Hj. unfold visited_path, visited_nibbles, NibbleIterator_new. cbn [nib_it ni_path ni_start ni_pos_start]. rewrite root_nibble_height.
  rewrite (assert_true (Z.of_nat 0 <=? Z.of_nat j)), (assert_true (Z.of_nat 0 <=? 64)), (assert_true (Z.of_nat j <=? 64)) by (apply Z.leb_le; lia). rewrite !obind_Ok. change (mkNibbleIterator (pack (key_nibbles key)) (Z.of_nat 0) (Z.of_nat j) (Z.of_nat 0)) with (nib_it (key_nibbles key) 0 j 0).
  rewrite collect_nib_it by (try apply key_nibbles_ok; rewrite ?key_nibbles_length; lia). rewrite obind_Ok, drop_0, Nat.sub_0_r.
  apply from_iter_pack; [apply path_ok_take|rewrite path_length; lia].
Qed.

Lemma nibble_next key (j : nat) : (j < 64)%nat -> NibbleIterator_next (nib_it (key_nibbles key) 0 64 j) = Ok (Some (nib key j), nib_it (key_nibbles key) 0 64 (S j)).
Proof. intros Hj. apply nib_it_next; [apply key_nibbles_ok|done|by apply nib_lookup]. Qed.

Lemma push_common_spec key : forall r (j : nat) self, jr_version self = v -> (j + r <= 64)%nat ->
  push_common_nodes r self (nib_it (key_nibbles key) 0 64 j) =
  Ok (with_partial_nodes self (partial_nodes self ++ map (fun d => lone_node v key d (ChildInfo_Internal None None)) (seq j r)), nib_it (key_nibbles key) 0 64 (j + r)).
Proof.
  induction r as [|r IH]; intros j self Ev Hj; cbn [push_common_nodes seq map].
  - rewrite app_nil_r, Nat.add_0_r. by destruct self.
  - rewrite visited_path_spec, obind_Ok by lia. rewrite nibble_next, obind_Ok by lia. cbn [fst snd expect]. rewrite obind_Ok.
    pose proof (nib_ok key j ltac:(lia)) as Hn. rewrite set_child_spec by (cbn; unfold nibble_ok in Hn; lia). rewrite obind_Ok.
    rewrite Ev, IH by (done || lia). cbn [with_partial_nodes partial_nodes]. rewrite <- app_assoc. cbn [app]. do 2 f_equal. f_equal. lia.
Qed.

Lemma walk_down key nk vh self : forall k (i : nat) rounds, (i + k <= 64)%nat ->
  (forall j, (i <= j < i + k)%nat -> exists info h n, partial_nodes self !! j = Some info /\
     ii_children info !! Z.to_nat (nib key j) = Some (Some (ChildInfo_Internal h n))) ->
  add_one_loop (k + rounds) i self nk vh (nib_it (key_nibbles key) 0 64 i) =
  add_one_loop rounds (i + k) self nk vh (nib_it (key_nibbles key) 0 64 (i + k)).
Proof.
  induction k as [|k IH]; intros i rounds Hi Hc; [by rewrite Nat.add_0_r|]. cbn [Nat.add add_one_loop].
  rewrite nibble_next, obind_Ok by lia. cbn [fst snd expect]. rewrite obind_Ok. destruct (Hc i ltac:(lia)) as (info & h & n & Hp & Hch).
  rewrite (assert_true (i <? length (partial_nodes self))%nat), obind_Ok by (apply Nat.ltb_lt; by eapply lookup_lt_Some). rewrite Hp. cbn [expect]. rewrite obind_Ok.
  unfold child_slot. rewrite Hch. cbn [expect]. rewrite obind_Ok, IH; [by rewrite Nat.add_succ_comm|lia|]. intros j Hj. apply Hc. lia.
Qed.

(** ** The two ways to take a place *)
Definition leaf_of (nk : K) (vh : HV) : LeafNode HV K := mkLeafNode (key_hash nk) vh (nk, v).

Lemma insert_snoc {A} (l : list A) (a b : A) : <[length l := b]> (l ++ [a]) = l ++ [b].
Proof. rewrite <- (Nat.add_0_r (length l)). by rewrite insert_app_r. Qed.

Lemma set_child_of_last self P0 info (i : Z) ci : partial_nodes self = P0 ++ [info] -> (Z.to_nat i < length (ii_children info))%nat ->
  set_child_of self (length P0) i ci =
  Ok (with_partial_nodes self (P0 ++ [mkInternalInfo (ii_node_key info) (<[Z.to_nat i := Some ci]> (ii_children info))])).
Proof.
  intros EP Hi. unfold set_child_of. rewrite EP, snoc_lookup. cbn [expect]. rewrite obind_Ok, set_child_spec, obind_Ok by done. by rewrite insert_snoc.
Qed.

Lemma with_partial_nodes_twice self P P' : with_partial_nodes (with_partial_nodes self P) P' = with_partial_nodes self P'.
Proof. done. Qed.

(** Below the previous leaf. *)
Lemma insert_at_leaf_spec s L x nk vh self P0 info (c : nat) : let y := leaf_of nk vh in
  jr_version self = v -> num_keys_received self <> 0 -> partial_nodes self = P0 ++ [info] ->
  waiting v (seen s (frozen_nodes self)) L x (P0 ++ [info]) -> (S (length P0) <= c < 64)%nat ->
  (forall i, (i < c)%nat -> nib (account_key x) i = nib (account_key y) i) -> nib (account_key x) c < nib (account_key y) c ->
  under (take (S c) (key_nibbles (account_key y))) L = [] -> Forall (fun z => klt (account_key z) (account_key y)) L ->
  let fz := <[pkey v (take (S c) (key_nibbles (account_key x))) := Node_Leaf x]> (frozen_nodes self) in
  exists P', insert_at_leaf self (nib (account_key y) (length P0)) x nk vh (nib_it (key_nibbles (account_key y)) 0 64 (S (length P0))) =
      Ok (with_partial_nodes (with_frozen_nodes self fz) P') /\
    waiting v (seen s fz) (L ++ [y]) y P'.
Proof.
  intros y Ev Hnum EP Hw Hc He Hlt Hnone Hall fz. set (kx := account_key x) in *. set (ky := account_key y) in *.
  assert (Etk : take c (key_nibbles kx) = take c (key_nibbles ky)) by (apply take_same_nibbles; [lia|done]).
  pose proof (split_skeleton v _ L x P0 info c Hw Hc) as Hsk. pose proof (waiting_alone v _ _ _ _ _ Hw) as Ex.
  pose proof (nib_ok kx c ltac:(lia)) as Hnx. pose proof (nib_ok ky c ltac:(lia)) as Hny.
  assert (H16 : length (ii_children info) = 16%nat) by (destruct Hw as [_ _ [[_ Hn _ _] _]]; by destruct (Hn _ _ (snoc_lookup P0 info)) as (_ & -> & _)).
  unfold insert_at_leaf. rewrite EP. rewrite length_app. cbn [length]. replace (length P0 + 1 - 1)%nat with (length P0) by lia.
  pose proof (nib_ok ky (length P0) ltac:(lia)) as Hn0.
  rewrite (set_child_of_last self P0 info) by (done || unfold nibble_ok in Hn0; lia). rewrite obind_Ok.
  change (key_hash nk) with ky. fold kx. rewrite (common_prefix_nibbles kx ky c), Nat2Z.id by (done || lia).
  rewrite push_common_spec, obind_Ok by (done || lia). cbn [with_partial_nodes partial_nodes jr_version frozen_nodes].
  replace (S (length P0) + (c - (length P0 + 1)))%nat with c by lia. rewrite visited_path_spec, obind_Ok by lia.
  rewrite (hv_get_nibble_nib kx c), obind_Ok by lia. rewrite set_child_spec, obind_Ok by (cbn; unfold nibble_ok in Hnx; lia).
  assert (Ebot : mkInternalInfo (ii_node_key (InternalInfo_new_empty (HV := HV) (K := K) (mkNodeKey (jr_version self) (pack (take c (key_nibbles ky))))))
    (<[Z.to_nat (nib kx c) := Some (ChildInfo_Leaf x)]> (ii_children (InternalInfo_new_empty (mkNodeKey (jr_version self) (pack (take c (key_nibbles ky))))))) =
    lone_node v kx c (ChildInfo_Leaf x)) by (rewrite <- Etk, Ev; done). rewrite Ebot.
  assert (Eup : (P0 ++ [mkInternalInfo (ii_node_key info) (<[Z.to_nat (nib ky (length P0)) := Some (ChildInfo_Internal None None)]> (ii_children info))]) ++
    map (fun d => lone_node v ky d (ChildInfo_Internal None None)) (seq (S (length P0)) (c - (length P0 + 1))) = split_nodes v x P0 info c).
  { unfold split_nodes. rewrite <- app_assoc. cbn [app]. fold kx. rewrite <- He, Nat.add_1_r by lia. f_equal. f_equal. apply map_ext_in.
    intros d Hd. apply in_seq in Hd. unfold lone_node. rewrite (He d) by lia. by rewrite (take_same_nibbles kx ky d) by (lia || intros i Hi; apply He; lia). }
  rewrite Eup, !with_partial_nodes_twice. set (self1 := with_partial_nodes self _).
  assert (El : length (split_nodes v x P0 info c) = c) by (apply split_nodes_length; lia).
  unfold freeze. rewrite (freeze_leaf_spec v _ L x (split_nodes v x P0 info c) (lone_node v kx c (ChildInfo_Leaf x)) self1 Ev Hnum eq_refl Hsk) by (rewrite El; apply lone_child; lia).
  rewrite obind_Ok. unfold freeze_internal_nodes. change (partial_nodes (with_frozen_nodes self1 _)) with (partial_nodes self1). rewrite Nat.sub_diag. cbn [freeze_internal_loop]. rewrite obind_Ok.
  rewrite (hv_get_nibble_nib ky c), obind_Ok by lia. rewrite assert_true, obind_Ok by (apply Z.ltb_lt; done).
  assert (Epn : forall f, partial_nodes (with_frozen_nodes self1 f) = split_nodes v x P0 info c ++ [lone_node v kx c (ChildInfo_Leaf x)]) by done.
  rewrite Epn, length_app. cbn [length]. replace (length (split_nodes v x P0 info c) + 1 - 1)%nat with (length (split_nodes v x P0 info c)) by lia.
  erewrite set_child_of_last; [|apply Epn|unfold lone_node; cbn [ii_children]; rewrite length_insert, length_replicate; unfold nibble_ok in Hny; lia].
  rewrite El. change (jr_version (with_frozen_nodes self1 _)) with (jr_version self). rewrite Ev.
  change (mkLeafNode ky vh (nk, v)) with y.
  eexists. split; [reflexivity|].
  pose proof (sibling_spec v (seen s fz) L kx y (split_nodes v x P0 info c) (lone_node v kx c (ChildInfo_Leaf x))) as Hs. rewrite El in Hs.
  apply Hs; [|clear Hs|done..].
  - eapply skeleton_mono; [|exact Hsk]. intros k n Hk. unfold fz. by rewrite seen_insert.
  - intros d Hd. fold ky. assert (Etd : take d (key_nibbles kx) = take d (key_nibbles ky)) by (apply take_same_nibbles; [lia|intros i Hi; apply He; lia]).
    rewrite under_snoc, decide_True, length_app, <- Etd by (apply starts_own; lia). cbn [length]. destruct (decide (d < S (length P0))%nat) as [Hlt'|Hge].
    + destruct Hw as [_ _ [_ Hmany]]. specialize (Hmany d). rewrite length_app in Hmany. cbn [length] in Hmany. specialize (Hmany ltac:(lia)). fold kx in Hmany. lia.
    + unfold kx. rewrite (alone_path L x (S (length P0))) by (done || lia). cbn. lia.
Qed.

(** ** Nothing else is stored

    The nodes of the version are those of the leaves that were added, leaves are stored
    once, and of the path of [key] nothing is stored above depth [n]. *)
Definition leaf_place L p z : Prop := z ∈ under p L /\ forall q i, p = q ++ [i] -> q = [] \/ (2 <= length (under q L))%nat.

Record tidy s L key (n : nat) : Prop := {
  td_place : forall k node, nk_version k = v -> s k = Some node -> exists p, Forall nibble_ok p /\ k = pkey v p /\ under p L <> [] /\
    forall z, node = Node_Leaf z -> leaf_place L p z;
  td_path : forall d, (d < n)%nat -> s (pkey v (take d (key_nibbles key))) = None;
}.

Lemma tidy_empty s L key n p : tidy s L key n -> Forall nibble_ok p -> under p L = [] -> s (pkey v p) = None.
Proof.
  intros [Ht _] Hp Hu. destruct (s (pkey v p)) as [node|] eqn:E; [|done]. destruct (Ht (pkey v p) _ eq_refl E) as (q & Hq & Ek & Hne & _).
  by apply pkey_inj in Ek as <-.
Qed.

Lemma under_snoc_ne p L y : under p L <> [] -> under p (L ++ [y]) <> [].
Proof. intros Hne E. rewrite under_snoc in E. by apply app_eq_nil in E as [? _]. Qed.

Lemma leaf_place_snoc p L y z : leaf_place L p z -> leaf_place (L ++ [y]) p z.
Proof.
  intros [Hz Hm]. split; [rewrite under_snoc; apply elem_of_app; by left|]. intros q i E. destruct (Hm q i E) as [|Hl]; [by left|right].
  rewrite under_snoc, length_app. lia.
Qed.

Lemma tidy_snoc s L key y n : tidy s L key n -> (forall d, (d < 65)%nat -> (n <= d)%nat -> under (take d (key_nibbles (account_key y))) L = []) ->
  (forall d, (d < n)%nat -> take d (key_nibbles key) = take d (key_nibbles (account_key y))) -> tidy s (L ++ [y]) (account_key y) 65.
Proof.
  intros Ht Hd He. split.
  - intros k node Hk E. destruct (td_place _ _ _ _ Ht k node Hk E) as (p & Hp & -> & Hne & Hl). exists p.
    split_and!; [done..|by apply under_snoc_ne|]. intros z Ez. by apply leaf_place_snoc, Hl.
  - intros d Hlt. destruct (decide (d < n)%nat) as [Hdn|Hdn]; [rewrite <- He by done; by apply (td_path _ _ _ _ Ht)|].
    eapply tidy_empty; [exact Ht|apply path_ok_take|apply Hd; lia].
Qed.

Lemma pkey_path_inj (a b : HV) (d e : nat) : (d <= 64)%nat -> (e <= 64)%nat ->
  pkey v (take d (key_nibbles a)) = pkey v (take e (key_nibbles b)) -> d = e /\ take d (key_nibbles a) = take e (key_nibbles b).
Proof.
  intros Hd He E. apply pkey_inj in E; [|apply path_ok_take..]. split; [|done]. apply (f_equal length) in E. by rewrite !path_length in E.
Qed.

Lemma froze_tidy s L key fz fz' (n m m' : nat) : tidy (seen s fz) L key m' -> froze v s fz fz' key n m -> (n <= m <= 64)%nat -> (n <= m')%nat ->
  (forall d, (n <= d < m)%nat -> under (take d (key_nibbles key)) L <> []) -> tidy (seen s fz') L key n.
Proof.
  intros Ht Hf Hn Hm' Hu. split.
  - intros k node Hk E. destruct (Hf k node E) as [E'|(d & i & Hd & -> & ->)]; [by apply (td_place _ _ _ _ Ht)|].
    exists (take d (key_nibbles key)). split_and!; [apply path_ok_take|done|by apply Hu|done].
  - intros d Hd. destruct (seen s fz' (pkey v (take d (key_nibbles key)))) as [node|] eqn:E; [|done].
    destruct (Hf _ _ E) as [E'|(d' & i & Hd' & Ek & _)]; [by rewrite (td_path _ _ _ _ Ht) in E' by lia|].
    apply pkey_path_inj in Ek as [-> _]; lia.
Qed.

Lemma tidy_put s L key (n m : nat) p z fz : tidy (seen s fz) L key n -> Forall nibble_ok p -> leaf_place L p z -> (m <= n)%nat ->
  (forall d, (d < m)%nat -> p <> take d (key_nibbles key)) -> tidy (seen s (<[pkey v p := Node_Leaf z]> fz)) L key m.
Proof.
  intros Ht Hp Hz Hm Hne. split.
  - intros k node Hk. rewrite seen_insert. unfold put_at_key. case_decide as Ek; [intros [= <-]|by apply (td_place _ _ _ _ Ht)].
    exists p. subst k. split_and!; [done..| |by intros z' [= <-]]. destruct Hz as [Hz _]. intros E. rewrite E in Hz. by apply not_elem_of_nil in Hz.
  - intros d Hd. rewrite seen_insert. unfold put_at_key. rewrite decide_False; [apply (td_path _ _ _ _ Ht); lia|].
    intros E. apply pkey_inj in E; [|apply path_ok_take|done]. by apply (Hne d Hd).
Qed.

(** The store of a state that is ready for the next leaf. *)
Definition ready_tidy s L key self : Prop :=
  tidy (seen s (frozen_nodes self)) L key (if num_keys_received self =? 0 then length (partial_nodes self) else 65).

Lemma last_under L x d : list.last L = Some x -> (d <= 64)%nat -> x ∈ under (take d (key_nibbles (account_key x))) L.
Proof.
  intros Hl Hd. apply under_elem. split; [by apply starts_own|]. apply last_Some in Hl as [L' ->]. apply elem_of_app. right. left.
Qed.

Lemma waiting_place s L x P : waiting v s L x P -> leaf_place L (take (length P) (key_nibbles (account_key x))) x.
Proof.
  intros [Hl _ [[Hlen _ _ _] Hmany]]. split; [by apply last_under; [|lia]|]. intros q i E. destruct (length P) as [|n] eqn:En; [by destruct q|].
  rewrite path_snoc in E by lia. apply app_inj_tail in E as [<- _]. destruct n as [|n]; [by left|right]. apply Hmany. lia.
Qed.

Lemma after_leaf_tidy s L key self : ready v s L key self -> ready_tidy s L key self -> tidy (seen s (after_leaf v L self)) L key (length (partial_nodes self)).
Proof.
  unfold ready_tidy, after_leaf. intros [[Hnum Hsp]|(Hnum & x & <- & Hw)].
  - by rewrite Hnum.
  - rewrite (proj2 (Z.eqb_neq _ _)) by done. intros Ht. pose proof (waiting_place _ _ _ _ Hw) as Hp. unfold leaf_frozen. destruct Hw as [-> _ [[Hlen _ _ _] _]].
    eapply tidy_put; [exact Ht|apply path_ok_take|done|lia|]. intros d Hd E. apply (f_equal length) in E. rewrite !path_length in E; lia.
Qed.

(** ** Adding a leaf *)
Lemma add_one_start nk vh self : add_one self nk vh = add_one_loop 64 0 self nk vh (nib_it (key_nibbles (key_hash nk)) 0 64 0).
Proof.
  unfold add_one. rewrite key_path, obind_Ok. unfold nibbles, NibbleIterator_new. rewrite np_num_pack, key_nibbles_length, root_nibble_height.
  by rewrite !assert_true by done.
Qed.

(** The nodes on the way that are not the last one have a child that is not complete. *)
Lemma spine_walk s L key P (a : HV) (c : nat) : spine v s L key P -> (c < length P)%nat -> (forall i, (i < c)%nat -> nib key i = nib a i) ->
  forall j, (0 <= j < 0 + c)%nat -> exists info h n, P !! j = Some info /\ ii_children info !! Z.to_nat (nib a j) = Some (Some (ChildInfo_Internal h n)).
Proof.
  intros [[_ _ Hh _] _] Hc He j Hj. destruct (lookup_lt_is_Some_2 P j) as [info Hi]; [lia|]. exists info, None, None. split; [done|].
  rewrite <- He by lia. apply Hh; [done|lia].
Qed.

Lemma under_below p q L : under p L = [] -> under (p ++ q) L = [].
Proof. intros E. by rewrite <- under_under, E. Qed.

Lemma under_deeper (a : HV) L (c d : nat) : (c <= d <= 64)%nat -> under (take c (key_nibbles a)) L = [] -> under (take d (key_nibbles a)) L = [].
Proof.
  intros Hd E. rewrite <- (take_drop c (take d (key_nibbles a))), take_take, Nat.min_l by lia. by apply under_below.
Qed.

(** Next to the others. *)
Lemma add_sibling s L key nk vh self (c : nat) : let y := leaf_of nk vh in
  NoDup (map account_key L) -> Z.of_nat (length L) < U64 -> jr_version self = v -> ready v s L key self ->
  (c < length (partial_nodes self))%nat -> (forall i, (i < c)%nat -> nib key i = nib (account_key y) i) ->
  S c = length (partial_nodes self) \/ nib key c <> nib (account_key y) c ->
  under (take (S c) (key_nibbles (account_key y))) L = [] -> Forall (fun z => klt (account_key z) (account_key y)) L ->
  exists fz P', add_one self nk vh = Ok (with_partial_nodes (with_frozen_nodes self fz) P') /\ waiting v (seen s fz) (L ++ [y]) y P' /\
    (ready_tidy s L key self -> tidy (seen s fz) (L ++ [y]) (account_key y) 65).
Proof.
  intros y Hnd Hb Ev Hr Hc He Hor Hnone Hall. set (ky := account_key y) in *. destruct (ready_settle v s L key self Ev Hr) as [_ Hsp].
  pose proof (sk_len _ _ _ _ _ (proj1 Hsp)) as Hl. destruct (lookup_lt_is_Some_2 (partial_nodes self) c) as [info Hinfo]; [lia|].
  pose proof (nib_ok ky c ltac:(lia)) as Hny.
  assert (Et : forall d, (d <= c)%nat -> take d (key_nibbles key) = take d (key_nibbles ky)) by (intros d Hd; apply take_same_nibbles; [lia|intros i Hi; apply He; lia]).
  destruct (sk_node _ _ _ _ _ (proj1 Hsp) c info Hinfo) as (_ & H16 & Hf).
  assert (Hslot : ii_children info !! Z.to_nat (nib ky c) = Some None).
  { destruct (lookup_lt_is_Some_2 (ii_children info) (Z.to_nat (nib ky c))) as [o Ho]; [unfold nibble_ok in Hny; lia|]. rewrite Ho. f_equal.
    apply (Hf _ _ Hny) in Ho; [|case_match eqn:E; [apply Nat.ltb_lt in E; destruct Hor as [|Hne]; [lia|congruence]|done]].
    rewrite Et, <- path_snoc, Hnone in Ho by lia. by eapply frozen_none. }
  destruct (freeze_spec v s L key self (S c) Hnd Hb Ev Hr ltac:(lia)) as (fz & P' & Efr & El & Hsp' & Hfroze).
  destruct P' as [|info' P0 _] using rev_ind; [done|]. rewrite length_app in El. cbn [length] in El. assert (length P0 = c) as Ec by lia.
  destruct (sk_node _ _ _ _ _ (proj1 Hsp') _ _ (snoc_lookup P0 info')) as (_ & H16' & _).
  exists fz. eexists. split_and!.
  - rewrite add_one_start. change (key_hash nk) with ky. replace 64%nat with (c + S (63 - c))%nat at 1 by lia.
    rewrite (walk_down ky nk vh self c 0 (S (63 - c))) by (lia || by eapply spine_walk). cbn [Nat.add add_one_loop].
    rewrite nibble_next, obind_Ok by lia. cbn [fst snd expect]. rewrite obind_Ok.
    rewrite (assert_true (c <? length (partial_nodes self))%nat), obind_Ok by (by apply Nat.ltb_lt). rewrite Hinfo. cbn [expect]. rewrite obind_Ok.
    unfold child_slot. rewrite Hslot. cbn [expect]. rewrite obind_Ok, Efr, obind_Ok. rewrite <- Ec.
    rewrite (set_child_of_last _ P0 info') by (done || unfold nibble_ok in Hny; rewrite Ec; lia). rewrite with_partial_nodes_twice.
    change (jr_version (with_partial_nodes (with_frozen_nodes self fz) (P0 ++ [info']))) with (jr_version self). rewrite Ev. reflexivity.
  - rewrite Ec. pose proof (sibling_spec v (seen s fz) L key y P0 info' (proj1 Hsp')) as Hs. rewrite Ec in Hs. apply Hs; [|done..].
    intros d Hd. rewrite under_snoc, length_app. fold ky. rewrite <- Et by lia. pose proof (proj2 Hsp' d) as Hm. rewrite length_app in Hm. specialize (Hm ltac:(cbn; lia)). lia.
  - intros Ht. apply (after_leaf_tidy _ _ _ _ Hr) in Ht. eapply (tidy_snoc _ L key y (S c)).
    + eapply froze_tidy; [exact Ht|exact Hfroze|lia..|]. intros d Hd E. pose proof (proj2 Hsp d ltac:(lia)) as Hm. rewrite E in Hm. cbn in Hm. lia.
    + intros d Hd Hd'. eapply under_deeper; [|exact Hnone]. lia.
    + intros d Hd. apply Et. lia.
Qed.

(** Two keys part at depth [c]. *)
Definition parts (a b : HV) (c : nat) : Prop := (forall i, (i < c)%nat -> nib a i = nib b i) /\ nib a c < nib b c.

(** In the place of the previous leaf. *)
Lemma add_below s L x nk vh self (c : nat) : let y := leaf_of nk vh in
  jr_version self = v -> num_keys_received self <> 0 -> waiting v (seen s (frozen_nodes self)) L x (partial_nodes self) ->
  (length (partial_nodes self) <= c < 64)%nat -> parts (account_key x) (account_key y) c ->
  under (take (S c) (key_nibbles (account_key y))) L = [] -> Forall (fun z => klt (account_key z) (account_key y)) L ->
  exists fz P', add_one self nk vh = Ok (with_partial_nodes (with_frozen_nodes self fz) P') /\ waiting v (seen s fz) (L ++ [y]) y P' /\
    (ready_tidy s L (account_key x) self -> tidy (seen s fz) (L ++ [y]) (account_key y) 65).
Proof.
  intros y Ev Hnum Hw Hc [He Hlt] Hnone Hall. set (ky := account_key y) in *. set (kx := account_key x) in *.
  destruct (wt_child _ _ _ _ _ Hw) as (P0 & info & EP & Hch). rewrite EP in Hw, Hc. pose proof (wt_spine _ _ _ _ _ Hw) as Hsp.
  rewrite length_app in Hc. cbn [length] in Hc.
  destruct (insert_at_leaf_spec s L x nk vh self P0 info c Ev Hnum EP Hw ltac:(lia) He Hlt Hnone Hall) as (P' & E & Hw').
  eexists _, P'. split_and!; [|exact Hw'|].
  - rewrite add_one_start. change (key_hash nk) with ky. replace 64%nat with (length P0 + S (63 - length P0))%nat at 1 by lia.
    rewrite (walk_down ky nk vh self (length P0) 0 (S (63 - length P0))); [|lia|].
    2:{ rewrite EP. eapply spine_walk; [exact Hsp|rewrite length_app; cbn; lia|]. intros i Hi. apply He. lia. }
    cbn [Nat.add add_one_loop]. rewrite nibble_next, obind_Ok by lia. cbn [fst snd expect]. rewrite obind_Ok.
    rewrite EP, snoc_lookup, length_app. cbn [length]. rewrite (assert_true (length P0 <? length P0 + 1)%nat), obind_Ok by (apply Nat.ltb_lt; lia).
    cbn [expect]. rewrite obind_Ok. unfold child_slot. assert (En : nib ky (length P0) = nib kx (length P0)) by (symmetry; apply He; lia). fold kx in Hch. rewrite En, Hch. cbn [expect]. rewrite obind_Ok.
    rewrite assert_true, obind_Ok by (apply Nat.eqb_eq; lia). rewrite <- En. exact E.
  - unfold ready_tidy. rewrite (proj2 (Z.eqb_neq _ _)) by done. intros Ht. fold kx in Ht.
    assert (Htk : forall d, (d <= c)%nat -> take d (key_nibbles kx) = take d (key_nibbles ky)) by (intros d Hd; apply take_same_nibbles; [lia|intros i Hi; apply He; lia]).
    pose proof (waiting_alone v _ _ _ _ _ Hw) as Ex. fold kx in Ex.
    assert (Hlast := wt_last _ _ _ _ _ Hw). assert (Hxin := last_under L x (S c) Hlast ltac:(lia)). fold kx in Hxin.
    assert (Ht' : tidy (seen s (frozen_nodes self)) (L ++ [y]) ky 65).
    { eapply (tidy_snoc _ L kx y (S c)); [by split; [apply (td_place _ _ _ _ Ht)|intros d Hd; apply (td_path _ _ _ _ Ht); lia]| |].
      - intros d Hd Hd'. eapply under_deeper; [|exact Hnone]. lia.
      - intros d Hd. apply Htk. lia. }
    eapply tidy_put; [exact Ht'|apply path_ok_take| |done|].
    + split; [rewrite under_snoc; apply elem_of_app; by left|]. intros q i Eq. rewrite path_snoc in Eq by lia. apply app_inj_tail in Eq as [<- _]. right.
      assert (Hst : starts (take c (key_nibbles ky)) ky) by (apply starts_own; lia).
      fold kx. rewrite (Htk c), under_snoc, decide_True by (done || lia). rewrite <- (Htk c), length_app by lia.
      unfold kx. rewrite (alone_path L x (S (length P0))) by (done || lia). cbn. lia.
    + intros d Hd Eq. assert (d = S c) as -> by (apply (f_equal length) in Eq; rewrite !path_length in Eq; lia).
      fold kx in Eq. rewrite !path_snoc in Eq by lia. apply app_inj_tail in Eq as [_ Eq]. lia.
Qed.

Lemma sorted_last L x z : StronglySorted by_key L -> list.last L = Some x -> z ∈ L -> z = x \/ klt (account_key z) (account_key x).
Proof.
  intros Hs Hl Hz. apply last_Some in Hl as [L' ->]. apply elem_of_app in Hz as [Hz|Hz]; [right|left; by apply list_elem_of_singleton in Hz].
  apply StronglySorted_app in Hs as (Hs & _). by apply (Hs z x Hz); left.
Qed.

(** Nothing is yet where two keys part. *)
Lemma under_new L x y (c : nat) : StronglySorted by_key L -> list.last L = Some x -> (c < 64)%nat -> parts (account_key x) (account_key y) c ->
  under (take (S c) (key_nibbles (account_key y))) L = [].
Proof.
  intros Hs Hl Hc [He Hlt]. apply filter_none, Forall_forall. intros z Hz Hst. rewrite path_snoc in Hst by done.
  apply starts_snoc in Hst as [Hst Hn]; rewrite path_length in * by lia; [|lia].
  assert (Hxz : klt (account_key x) (account_key z)).
  { exists c. split_and!; [done| |lia]. intros i Hi. rewrite He by done. eapply (starts_nib (take c (key_nibbles (account_key y)))); [apply starts_own; lia|done|rewrite path_length; lia]. }
  destruct (sorted_last L x z Hs Hl Hz) as [->|Hzx]; [by eapply klt_irrefl|by eapply klt_asym].
Qed.

Lemma sorted_NoDup_keys L : StronglySorted by_key L -> NoDup (map account_key L).
Proof.
  induction 1 as [|x L Hs IH Hf]; [constructor|]. cbn. apply NoDup_cons. split; [|done]. intros Hin. apply list_elem_of_fmap in Hin as (z & E & Hz).
  rewrite Forall_forall in Hf. apply Hf in Hz. unfold by_key in Hz. rewrite E in Hz. by eapply klt_irrefl.
Qed.

(** A leaf whose key is larger than the others is added; the last leaf before a restart
    must part from it where the nodes are not complete. *)
Lemma add_one_spec s L key nk vh self : let y := leaf_of nk vh in
  StronglySorted by_key L -> Z.of_nat (length L) < U64 -> jr_version self = v -> ready v s L key self ->
  (forall x, list.last L = Some x -> key = account_key x) -> Forall (fun z => klt (account_key z) (account_key y)) L ->
  (num_keys_received self = 0 -> forall x c, list.last L = Some x -> parts (account_key x) (account_key y) c -> (c < length (partial_nodes self))%nat) ->
  exists fz P', add_one self nk vh = Ok (with_partial_nodes (with_frozen_nodes self fz) P') /\ waiting v (seen s fz) (L ++ [y]) y P' /\
    (ready_tidy s L key self -> tidy (seen s fz) (L ++ [y]) (account_key y) 65).
Proof.
  intros y Hs Hb Ev Hr Hkey Hall Hnext. pose proof (sorted_NoDup_keys L Hs) as Hnd. destruct (list.last L) as [x|] eqn:El.
  - specialize (Hkey x eq_refl). subst key. assert (Hx : x ∈ L) by (apply last_Some in El as [L' ->]; apply elem_of_app; right; left).
    rewrite Forall_forall in Hall. destruct (Hall x Hx) as (c & Hc & He & Hlt). rewrite <- Forall_forall in Hall.
    assert (Hp : parts (account_key x) (account_key y) c) by done. pose proof (under_new L x y c Hs El Hc Hp) as Hnone.
    destruct (decide (c < length (partial_nodes self))%nat) as [Hin|Hout].
    + apply (add_sibling s L (account_key x) nk vh self c); try done. right. fold y. lia.
    + destruct Hr as [[Hnum Hsp]|(Hnum & x' & Ex & Hw)]; [exfalso; apply Hout; by apply (Hnext Hnum x c)|].
      assert (x' = x) as -> by (pose proof (wt_last _ _ _ _ _ Hw); congruence). apply (add_below s L x nk vh self c); try done. lia.
  - assert (L = []) as -> by (by apply last_None). pose proof Hr as Hr'. apply ready_settle in Hr' as [_ [[Hl _ _ _] Hmany]]; [|done].
    assert (Hlen : length (partial_nodes self) = 1%nat).
    { destruct (decide (length (partial_nodes self) = 1%nat)) as [|Hne]; [done|]. specialize (Hmany 1%nat ltac:(lia)). cbn in Hmany. lia. }
    apply (add_sibling s [] key nk vh self 0); try done; [lia|intros i Hi; lia|left; lia].
Qed.
End RestoreAdd.
