(* ===== verification/JellyfishRestoreVerify.v ===== *)
(** * Restoring a tree: the verification of a chunk

    The hashes on the left of the path of the last leaf are those of the leaves that were
    added.  A proof is accepted for the leaves of the tree up to a key, and only for them
    unless hashes clash. *)
From stdpp Require Import base list numbers strings option gmap sorting.
From Stdlib Require Import ZArith Lia Bool Sorted.
From S2P Require Import Prelude Hash AccumulatorProof SparseMerkleProof SparseSpec SparseFacts SparseClash NibblePath NibblePathFacts ByteCodec JellyfishNode JellyfishNodeFacts JellyfishHash JellyfishSpec JellyfishTree JellyfishRead JellyfishRuns JellyfishBatch JellyfishUpdate JellyfishCommit JellyfishIterate JellyfishRestore JellyfishRestoreFacts JellyfishRestoreAdd.

Section RestoreVerify.
Context {HV : Type} `{HashValueOps HV} `{HashValueBits HV} `{!HashValueLaws HV} `{CryptoHasher HV}
  `{LeafHasher HV} `{HashValueKeys HV} `{!HashValueKeysLaws HV} {K : Type} `{KeyHash HV K}.
Context (v : Version).
Implicit Types (s : store (HV := HV) (K := K)) (p : list Z) (L g T : list (LeafNode HV K)) (x y z : LeafNode HV K)
  (info : InternalInfo HV K) (P : list (InternalInfo HV K)) (key : HV) (self : JellyfishMerkleRestore HV K)
  (kvs : list (SparseMerkleLeafNode HV)) (hs : list (hashed HV)).

(** ** Only nothing hashes to the placeholder *)
Definition solid hs : Prop := Forall (fun h => h = Hashed_Nothing \/ hash_of h <> SPARSE_MERKLE_PLACEHOLDER_HASH) hs.

#[global] Instance solid_dec hs : Decision (solid hs).
Proof. unfold solid. apply _. Defined.

Lemma solid_sub hs hs' : hs ⊆ hs' -> solid hs' -> solid hs.
Proof. intros Hs Hf. unfold solid in *. rewrite Forall_forall in *. intros h Hh. by apply Hf, Hs. Qed.

(** Something else hashes to the placeholder. *)
Definition placeholder_clash hs : Prop := exists h, h ∈ hs /\ h <> Hashed_Nothing /\ hash_of h = SPARSE_MERKLE_PLACEHOLDER_HASH.

Lemma not_solid_clash hs : ~ solid hs -> placeholder_clash hs.
Proof.
  intros Hn. unfold solid in Hn. apply not_Forall_Exists in Hn; [|apply _]. apply Exists_exists in Hn as (h & Hh & Hne).
  exists h. split_and!; [done|intros ->; apply Hne; by left|]. destruct (decide (hash_of h = SPARSE_MERKLE_PLACEHOLDER_HASH)) as [|Hd]; [done|].
  destruct Hne. by right.
Qed.

Lemma not_solid hs : ~ solid hs -> clash (Hashed_Nothing :: hs).
Proof.
  intros (h & Hh & Hne & E)%not_solid_clash. exists h, Hashed_Nothing. split_and!; [by right|left|done|exact E].
Qed.

Lemma solid_no_clash hs : solid hs -> ~ placeholder_clash hs.
Proof. unfold solid. rewrite Forall_forall. intros Hs (h & Hh & Hne & E). by destruct (Hs h Hh). Qed.

Lemma solid_empty (fuel d : nat) kvs : solid (things fuel d kvs) -> (d + fuel = 256)%nat -> alike d kvs ->
  smt fuel d kvs = SPARSE_MERKLE_PLACEHOLDER_HASH -> kvs = [].
Proof.
  intros Hs Hd Ha E. rewrite smt_thing in E. unfold solid in Hs. rewrite Forall_forall in Hs. destruct (Hs _ (root_thing_in fuel d kvs)) as [Er|Hne]; [|done].
  destruct kvs as [|x [|y kvs]]; [done..|]. destruct fuel as [|fuel]; [|done]. rewrite Nat.add_0_r in Hd. subst d. apply alike_256 in Ha. cbn in Ha. lia.
Qed.

Lemma solid_side (fuel d : nat) b kvs : solid (things (S fuel) d kvs) -> solid (things fuel (S d) (side d b kvs)).
Proof.
  intros Hs. destruct (decide (2 <= length kvs)%nat) as [Hl|Hl]; [eapply solid_sub; [by apply things_side|done]|].
  assert (Hn : solid (things fuel (S d) [])) by (destruct fuel; constructor; [by left|constructor|by left|constructor]).
  destruct kvs as [|x [|y kvs]]; [done| |cbn in Hl; lia]. unfold side. rewrite filter_cons, filter_nil. case_decide; [|done].
  assert (E : things fuel (S d) [x] = things (S fuel) d [x]) by (by destruct fuel). by rewrite E.
Qed.

(** ** The hash of a part of a node *)

(** The leaves whose nibble at depth [d] is in [a, a + 2^k). *)
Definition between (d : nat) (a : Z) (k : nat) g : list (LeafNode HV K) := filter (fun x => a <= nib (account_key x) d < a + 2 ^ Z.of_nat k) g.

Lemma between_half d a k (b : bool) g : aligned a (S k) ->
  lhalf d k b (between d a (S k) g) = between d (a + if b then 2 ^ Z.of_nat k else 0) k g.
Proof.
  intros Ha. unfold lhalf, between. rewrite list_filter_filter. apply list_filter_iff. intros x. set (i := nib (account_key x) d).
  assert (Hp : 2 ^ Z.of_nat (S k) = 2 * 2 ^ Z.of_nat k) by (rewrite Nat2Z.inj_succ, Z.pow_succ_r by lia; done).
  assert (0 < 2 ^ Z.of_nat k) by lia. split.
  - intros [Hb Hi]. rewrite (testbit_range a k i) in Hb by done. destruct b; [apply negb_true_iff, Z.ltb_ge in Hb|apply negb_false_iff, Z.ltb_lt in Hb]; lia.
  - intros Hi. assert (Hi' : a <= i < a + 2 ^ Z.of_nat (S k)) by (destruct b; lia). split; [|done].
    rewrite (testbit_range a k i) by done. destruct b; [apply negb_true_iff, Z.ltb_ge|apply negb_false_iff, Z.ltb_lt]; lia.
Qed.

Lemma alike_placed p g : placed p g -> (length p <= 64)%nat -> alike (4 * length p) (sl g).
Proof.
  intros [Hnd Hp] Hl. split; [by rewrite sl_keys|]. intros a b Ha Hb i Hi.
  apply list_elem_of_fmap in Ha as (x & -> & Hx), Hb as (y & -> & Hy). cbn [sparse_leaf_from leaf_key]. rewrite Forall_forall in Hp.
  pose proof (Nat.div_mod_eq i 4) as Ei. pose proof (Nat.mod_upper_bound i 4 ltac:(lia)) as Hm.
  replace i with (4 * (i / 4) + 3 - (3 - i mod 4))%nat by lia. rewrite !key_bit_nib by lia. f_equal.
  eapply starts_nib; [by apply Hp|by apply Hp|lia].
Qed.

Lemma between_alike p a (k : nat) g : placed p g -> (length p < 64)%nat -> aligned a k -> alike (4 * length p + 4 - k) (sl (between (length p) a k g)).
Proof.
  intros Hp Hl. destruct Hp as [Hnd Hp]. intros Ha. split.
  - rewrite sl_keys. eapply sublist_NoDup; [exact Hnd|]. apply fmap_sublist, sublist_filter.
  - revert a Ha. assert (Hk : forall j a, (j <= 4)%nat -> aligned a (4 - j) -> forall x y, x ∈ between (length p) a (4 - j) g -> y ∈ between (length p) a (4 - j) g ->
      forall i, (i < j)%nat -> Z.testbit (nib (account_key x) (length p)) (Z.of_nat (3 - i)) = Z.testbit (nib (account_key y) (length p)) (Z.of_nat (3 - i))).
    { intros j a Hj (_ & Ha0 & Hm & Hb) x y Hx Hy i Hi. apply list_elem_of_filter in Hx as [Hx _], Hy as [Hy _].
      apply Z.mod_divide in Hm as [q ->]; [|lia]. set (w := 2 ^ Z.of_nat (4 - j)) in *.
      assert (E : forall n, q * w <= n < q * w + w -> Z.testbit n (Z.of_nat (3 - i)) = Z.testbit q (Z.of_nat (3 - i - (4 - j)))).
      { intros n Hn. replace q with (n / w) by (symmetry; apply Z.div_unique_pos with (n - q * w); lia). unfold w. rewrite <- Z.shiftr_div_pow2 by lia.
        rewrite Z.shiftr_spec by lia. f_equal. lia. }
      by rewrite (E _ Hx), (E _ Hy). }
    intros a Ha u w Hu Hw i Hi. apply list_elem_of_fmap in Hu as (x & -> & Hx), Hw as (y & -> & Hy). cbn [sparse_leaf_from leaf_key].
    pose proof Ha as (Hk4 & _). destruct (decide (i < 4 * length p)%nat) as [Hlt|Hge].
    + assert (Hx' := proj2 (proj1 (list_elem_of_filter _ _ _) Hx)). assert (Hy' := proj2 (proj1 (list_elem_of_filter _ _ _) Hy)).
      apply (proj2 (alike_placed p g (conj Hnd Hp) ltac:(lia)) (sparse_leaf_from x) (sparse_leaf_from y)); [by apply list_elem_of_fmap_2..|done].
    + replace i with (4 * length p + 3 - (3 - (i - 4 * length p)))%nat by lia. rewrite !key_bit_nib by lia.
      specialize (Hk (4 - k)%nat a ltac:(lia)). replace (4 - (4 - k))%nat with k in Hk by lia. apply (Hk Ha x y Hx Hy). lia.
Qed.

Lemma smt_split (fuel d : nat) kvs : (2 <= length kvs)%nat -> smt (S fuel) d kvs = hash_node (smt fuel (S d) (side d false kvs)) (smt fuel (S d) (side d true kvs)).
Proof. intros Hl. by destruct kvs as [|a [|b kvs]]; [cbn in Hl; lia..|]. Qed.

(** The rule by which two halves are combined. *)
Lemma combine_halves (fuel d : nat) kvs : (d + S fuel = 256)%nat -> alike d kvs -> solid (things (S fuel) d kvs) ->
  let A := side d false kvs in let B := side d true kvs in
  let left_hash := smt fuel (S d) A in let right_hash := smt fuel (S d) B in
  (if bool_decide (left_hash = SPARSE_MERKLE_PLACEHOLDER_HASH) && bool_decide (length B <= 1)%nat then Ok (right_hash, true)
   else if bool_decide (length A <= 1)%nat && bool_decide (right_hash = SPARSE_MERKLE_PLACEHOLDER_HASH) then Ok (left_hash, true)
   else Ok (hash_node left_hash right_hash, false)) = Ok (smt (S fuel) d kvs, bool_decide (length kvs <= 1)%nat).
Proof.
  intros Hd Ha Hs A B left_hash right_hash. pose proof (sides_perm d kvs) as Hp. fold A B in Hp. pose proof (Permutation_length Hp) as Hlen. rewrite length_app in Hlen.
  assert (HA : left_hash = SPARSE_MERKLE_PLACEHOLDER_HASH <-> A = []).
  { split; [apply solid_empty; [by apply solid_side|lia|by apply alike_side]|]. intros E. unfold left_hash. by rewrite E, smt_nil. }
  assert (HB : right_hash = SPARSE_MERKLE_PLACEHOLDER_HASH <-> B = []).
  { split; [apply solid_empty; [by apply solid_side|lia|by apply alike_side]|]. intros E. unfold right_hash. by rewrite E, smt_nil. }
  assert (Hsmall : forall C, (length kvs <= 1)%nat -> kvs ≡ₚ C -> smt fuel (S d) C = smt (S fuel) d kvs).
  { intros C Hl HC. destruct kvs as [|a [|b kvs']]; [apply Permutation_nil in HC as ->; by rewrite !smt_nil| |cbn in Hl; lia].
    apply Permutation_singleton_l in HC as <-. by rewrite !smt_one. }
  destruct (decide (length kvs <= 1)%nat) as [Hl|Hl].
  - rewrite (bool_decide_true (length kvs <= 1)%nat), (bool_decide_true (length B <= 1)%nat), (bool_decide_true (length A <= 1)%nat) by lia.
    rewrite andb_true_r, andb_true_l. destruct (decide (A = [])) as [E|Hne].
    + rewrite bool_decide_true by (by apply HA). do 2 f_equal. apply Hsmall; [done|]. by rewrite E in Hp.
    + rewrite bool_decide_false by (by rewrite HA). assert (EB : B = []) by (destruct A; [done|]; cbn in Hlen; destruct B; [done|cbn in Hlen; lia]).
      rewrite bool_decide_true by (by apply HB). do 2 f_equal. apply Hsmall; [done|]. by rewrite EB, app_nil_r in Hp.
  - rewrite (bool_decide_false (length kvs <= 1)%nat) by done. rewrite smt_split by lia. fold A B left_hash right_hash.
    assert (E1 : bool_decide (left_hash = SPARSE_MERKLE_PLACEHOLDER_HASH) && bool_decide (length B <= 1)%nat = false).
    { apply andb_false_iff. destruct (decide (A = [])) as [E|Hne]; [right; apply bool_decide_false; rewrite E in Hlen; cbn in Hlen; lia|left; apply bool_decide_false; by rewrite HA]. }
    assert (E2 : bool_decide (length A <= 1)%nat && bool_decide (right_hash = SPARSE_MERKLE_PLACEHOLDER_HASH) = false).
    { apply andb_false_iff. destruct (decide (B = [])) as [E|Hne]; [left; apply bool_decide_false; rewrite E in Hlen; cbn in Hlen; lia|right; apply bool_decide_false; by rewrite HB]. }
    by rewrite E1, E2.
Qed.

Lemma left_impl_spec s p g : placed p g -> (length p < 64)%nat -> forall (k : nat) a (cs : list (option (ChildInfo HV K))) fuel, aligned a k -> (k <= fuel)%nat ->
  length cs = (2 ^ k)%nat ->
  (forall j c, cs !! j = Some c -> frozen_child v s (p ++ [a + Z.of_nat j]) (group (length p) (a + Z.of_nat j) g) c) ->
  solid (things (252 - 4 * length p + k) (4 * length p + 4 - k) (sl (between (length p) a k g))) ->
  compute_left_sibling_impl fuel cs =
  Ok (smt (252 - 4 * length p + k) (4 * length p + 4 - k) (sl (between (length p) a k g)), bool_decide (length (sl (between (length p) a k g)) <= 1)%nat).
Proof.
  intros Hp Hl. set (d := length p) in *. induction k as [|k IH]; intros a cs fuel Ha Hf Hlen Hc Hs.
  - destruct cs as [|c [|]]; [done| |done]. specialize (Hc O c eq_refl). cbn [Z.of_nat] in Hc. rewrite Z.add_0_r in Hc.
    assert (Eg : between d a 0 g = group d a g) by (apply list_filter_iff; intros x; cbn; lia). rewrite Eg, Nat.add_0_r, Nat.sub_0_r. clear Eg Hs.
    assert (E : forall fuel', compute_left_sibling_impl fuel' [c] = match c with
      | Some (ChildInfo_Internal hash _) => hash ← expect hash "The hash must be known."; Ok (hash, false)
      | Some (ChildInfo_Leaf node) => Ok (LeafNode_hash node, true)
      | None => Ok (SPARSE_MERKLE_PLACEHOLDER_HASH, true) end) by (intros [|fuel']; by destruct c as [[]|]).
    rewrite E. destruct c as [[h n|y]|]; cbn [frozen_child] in Hc.
    + destruct Hc as (node & _ & _ & H2l & -> & _). cbn [expect]. rewrite obind_Ok. rewrite bool_decide_false by (rewrite sl_length; lia).
      unfold hash_at. rewrite length_app. cbn [length]. fold d. do 3 f_equal; lia.
    + destruct Hc as [-> _]. cbn [sl map]. by rewrite smt_one, bool_decide_true by (cbn; lia).
    + rewrite Hc. cbn [sl map]. by rewrite smt_nil.
  - destruct fuel as [|fuel]; [lia|]. assert (Hk3 : (k <= 3)%nat) by (destruct Ha; lia).
    assert (Hside : forall b : bool, side (4 * d + 4 - S k) b (sl (between d a (S k) g)) = sl (between d (a + if b then 2 ^ Z.of_nat k else 0) k g)).
    { intros b. replace (4 * d + 4 - S k)%nat with (4 * d + 3 - k)%nat by lia. rewrite side_sl, between_half by done. done. }
    assert (Hsol : forall b : bool, solid (things (252 - 4 * d + k) (4 * d + 4 - k) (sl (between d (a + if b then 2 ^ Z.of_nat k else 0) k g)))).
    { intros b. rewrite <- Hside. replace (252 - 4 * d + S k)%nat with (S (252 - 4 * d + k)) in Hs by lia. apply (solid_side _ _ b) in Hs.
      replace (S (4 * d + 4 - S k))%nat with (4 * d + 4 - k)%nat in Hs by lia. done. }
    assert (Hpow : (2 ^ S k = 2 ^ k + 2 ^ k)%nat) by (cbn; lia). assert (Hz : Z.of_nat (2 ^ k) = 2 ^ Z.of_nat k) by (by rewrite Nat2Z.inj_pow).
    assert (Hdiv : (length cs / 2 = 2 ^ k)%nat) by (rewrite Hlen, Hpow; symmetry; apply Nat.div_unique with 0%nat; lia).
    assert (El : compute_left_sibling_impl fuel (take (2 ^ k) cs) = Ok (smt (252 - 4 * d + k) (4 * d + 4 - k) (sl (between d (a + 0) k g)), bool_decide (length (sl (between d (a + 0) k g)) <= 1)%nat)).
    { apply IH; [apply (aligned_half a k false Ha)|lia|rewrite length_take; lia| |apply (Hsol false)]. intros j c Hj. apply lookup_take_Some in Hj as [Hj _]. rewrite Z.add_0_r. by apply Hc. }
    assert (Er : compute_left_sibling_impl fuel (drop (2 ^ k) cs) = Ok (smt (252 - 4 * d + k) (4 * d + 4 - k) (sl (between d (a + 2 ^ Z.of_nat k) k g)), bool_decide (length (sl (between d (a + 2 ^ Z.of_nat k) k g)) <= 1)%nat)).
    { apply IH; [apply (aligned_half a k true Ha)|lia|rewrite length_drop; lia| |apply (Hsol true)]. intros j c Hj. rewrite lookup_drop in Hj. apply Hc in Hj.
      rewrite Nat2Z.inj_add, Hz, Z.add_assoc in Hj. done. }
    assert (Hpos : (0 < 2 ^ k)%nat) by (apply Nat.neq_0_lt_0, Nat.pow_nonzero; lia).
    assert (Hones : count_ones (Z.of_nat (length cs)) = 1) by (rewrite Hlen; clear -Hk3; do 4 (destruct k as [|k]; [done|]); lia).
    pose proof (combine_halves (252 - 4 * d + k) (4 * d + 4 - S k) (sl (between d a (S k) g))) as Hcomb.
    replace (S (252 - 4 * d + k)) with (252 - 4 * d + S k)%nat in Hcomb by lia. replace (S (4 * d + 4 - S k)) with (4 * d + 4 - k)%nat in Hcomb by lia.
    rewrite !Hside in Hcomb. rewrite <- Hcomb by (lia || done || by apply between_alike). clear Hcomb.
    destruct cs as [|c1 [|c2 cs']]; [cbn in Hlen; lia..|]. cbn [compute_left_sibling_impl]. set (l := c1 :: c2 :: cs') in *.
    rewrite (assert_true (negb (length l =? 0)%nat)), obind_Ok by done. rewrite Hones. rewrite (assert_true (1 =? 1)), obind_Ok by done.
    rewrite Hdiv, El, obind_Ok, Er, obind_Ok. done.
Qed.

(** ** The siblings on the left of a path *)
Lemma path_is_filter key : forall n d kvs, path d n key kvs = filter (fun u => Forall (fun i => key_bit (leaf_key u) i = key_bit key i) (seq d n)) kvs.
Proof.
  induction n as [|n IH]; intros d kvs; cbn [path seq]; [symmetry; apply filter_all, Forall_forall; constructor|].
  rewrite IH. unfold side. rewrite list_filter_filter. apply list_filter_iff. intros u. rewrite Forall_cons. tauto.
Qed.

Lemma sl_filter (Q : SparseMerkleLeafNode HV -> Prop) `{!forall u, Decision (Q u)} L : filter Q (sl L) = sl (filter (fun x => Q (sparse_leaf_from x)) L).
Proof. unfold sl. induction L as [|x L IH]; [done|]. cbn [map]. rewrite !filter_cons, IH. by case_decide. Qed.

Lemma nibble_left (n m : Z) (h : nat) : nibble_ok n -> nibble_ok m -> (h <= 3)%nat -> Z.testbit n (Z.of_nat h) = true ->
  start_of n (S h) <= m < start_of n (S h) + 2 ^ Z.of_nat h <->
  (forall k, (h < k <= 3)%nat -> Z.testbit m (Z.of_nat k) = Z.testbit n (Z.of_nat k)) /\ Z.testbit m (Z.of_nat h) = false.
Proof.
  intros Hn Hm Hh Ht.
  assert (Hall : forallb (fun n => forallb (fun m => forallb (fun h => implb (Z.testbit n (Z.of_nat h))
    (eqb ((start_of n (S h) <=? m) && (m <? start_of n (S h) + 2 ^ Z.of_nat h))
       (forallb (fun k => eqb (Z.testbit m (Z.of_nat k)) (Z.testbit n (Z.of_nat k))) (seq (S h) (3 - h)) && negb (Z.testbit m (Z.of_nat h))))) (seq 0 4)) (seqZ 0 16)) (seqZ 0 16) = true)
    by (vm_compute; reflexivity).
  rewrite forallb_forall in Hall. specialize (Hall n ltac:(apply list_elem_of_In, elem_of_seqZ; unfold nibble_ok in Hn; lia)).
  rewrite forallb_forall in Hall. specialize (Hall m ltac:(apply list_elem_of_In, elem_of_seqZ; unfold nibble_ok in Hm; lia)).
  rewrite forallb_forall in Hall. specialize (Hall h ltac:(apply in_seq; lia)). rewrite Ht in Hall. cbn [implb] in Hall. apply eqb_prop in Hall.
  rewrite <- negb_true_iff. assert (Hf : (forall k, (h < k <= 3)%nat -> Z.testbit m (Z.of_nat k) = Z.testbit n (Z.of_nat k)) <->
    forallb (fun k => eqb (Z.testbit m (Z.of_nat k)) (Z.testbit n (Z.of_nat k))) (seq (S h) (3 - h)) = true).
  { rewrite forallb_forall. split.
    - intros Hk k Hin. apply in_seq in Hin. rewrite Hk by lia. apply eqb_reflx.
    - intros Hk k Hin. apply eqb_prop, Hk, in_seq. lia. }
  rewrite Hf, <- andb_true_iff, <- Hall, andb_true_iff, Z.leb_le, Z.ltb_lt. done.
Qed.

Lemma starts_bits key (a : HV) (d : nat) : (d <= 64)%nat -> starts (take d (key_nibbles key)) a <-> forall i, (i < 4 * d)%nat -> key_bit a i = key_bit key i.
Proof.
  intros Hd. split.
  - intros Hs i Hi. pose proof (Nat.div_mod_eq i 4) as Ei. pose proof (Nat.mod_upper_bound i 4 ltac:(lia)) as Hm.
    replace i with (4 * (i / 4) + 3 - (3 - i mod 4))%nat by lia. rewrite !key_bit_nib by lia. f_equal.
    eapply starts_nib; [exact Hs|apply starts_own; lia|rewrite path_length; lia].
  - intros Hb. unfold starts. rewrite path_length by done. apply take_same_nibbles; [done|]. intros i Hi.
    destruct (decide (nib a i = nib key i)) as [|Hne]; [done|]. destruct (nib_bits_differ a key i ltac:(lia) Hne) as (k & Hk & Hd'). exfalso. apply Hd', Hb. lia.
Qed.

Lemma beside_between L key (d h : nat) : (d < 64)%nat -> (h <= 3)%nat -> key_bit key (4 * d + 3 - h) = true ->
  beside 0 key (4 * d + 3 - h) (sl L) = sl (between d (start_of (nib key d) (S h)) h (under (take d (key_nibbles key)) L)).
Proof.
  intros Hd Hh Hbit. unfold beside. rewrite Nat.add_0_l, Hbit. cbn [negb]. rewrite path_is_filter. unfold side. rewrite list_filter_filter, sl_filter.
  unfold between, under. rewrite list_filter_filter. f_equal. apply list_filter_iff. intros x. cbn [sparse_leaf_from leaf_key].
  rewrite key_bit_nib in Hbit by done. rewrite (nibble_left (nib key d) (nib (account_key x) d) h) by (done || by apply nib_ok).
  rewrite starts_bits by lia. rewrite Forall_forall. rewrite (key_bit_nib (account_key x)) by done. split.
  - intros [H0b Hall]. split_and!; [|done|].
    + intros k Hk. rewrite <- !key_bit_nib by lia. apply Hall, elem_of_seq. lia.
    + intros i Hi. apply Hall, elem_of_seq. lia.
  - intros [[Hk H0b] Hlow]. split; [done|]. intros i Hi. apply elem_of_seq in Hi. destruct (decide (i < 4 * d)%nat) as [|Hge]; [by apply Hlow|].
    replace i with (4 * d + 3 - (3 - (i - 4 * d)))%nat by lia. rewrite !key_bit_nib by lia. apply Hk. lia.
Qed.

Lemma solid_path key n : forall (fuel d : nat) kvs, (n <= fuel)%nat -> solid (things fuel d kvs) -> solid (things (fuel - n) (d + n) (path d n key kvs)).
Proof.
  induction n as [|n IH]; intros fuel d kvs Hn Hs; cbn [path]; [by rewrite Nat.sub_0_r, Nat.add_0_r|].
  destruct fuel as [|fuel]; [lia|]. cbn [Nat.sub]. rewrite <- Nat.add_succ_comm. apply IH; [lia|]. by apply solid_side.
Qed.

Lemma solid_beside key (i : nat) kvs : (i < 256)%nat -> solid (things 256 0 kvs) -> solid (things (255 - i) (S i) (beside 0 key i kvs)).
Proof.
  intros Hi Hs. unfold beside. rewrite Nat.add_0_l. apply solid_side. replace (S (255 - i)) with (256 - i)%nat by lia. apply (solid_path key i 256 0); [lia|done].
Qed.

(** The hash on the left of bit [i] of the path, and those up to bit [n]. *)
Definition left_hash L key (i : nat) : HV := smt (255 - i) (S i) (beside 0 key i (sl L)).

Lemma compute_left_sibling_spec s L key P (d h : nat) info : NoDup (map account_key L) -> skeleton v s L key P -> P !! d = Some info -> (h <= 3)%nat ->
  key_bit key (4 * d + 3 - h) = true -> solid (things 256 0 (sl L)) ->
  compute_left_sibling info (nib key d) (Z.of_nat h) = Ok (left_hash L key (4 * d + 3 - h)).
Proof.
  intros Hnd [Hl Hn _ _] Hi Hh Hbit Hs. pose proof (lookup_lt_Some _ _ _ Hi) as Hd. pose proof (nib_ok key d ltac:(lia)) as Hni.
  destruct (Hn d info Hi) as (_ & H16 & Hf). pose proof Hbit as Hbit'. rewrite key_bit_nib in Hbit' by lia.
  destruct (half_starts (nib key d) h Hni Hh) as [E1 E2]. cbn zeta in E1, E2. rewrite Hbit' in E1, E2.
  set (a := start_of (nib key d) (S h)) in *. rewrite Z.add_0_r in E1.
  assert (Ha : aligned a h) by (pose proof (aligned_half _ h false (aligned_start (nib key d) (S h) Hni ltac:(lia))) as Ha; by rewrite Z.add_0_r in Ha).
  pose proof Ha as (_ & Ha0 & _ & Ha16). assert (Hw : 0 < 2 ^ Z.of_nat h) by lia.
  assert (Hlen : length (take d (key_nibbles key)) = d) by (apply path_length; lia).
  unfold compute_left_sibling. rewrite (assert_true (Z.of_nat h <? 4)), obind_Ok by (apply Z.ltb_lt; lia). rewrite E1. cbn [snd]. rewrite Z.shiftl_1_l.
  rewrite (assert_true (a + 2 ^ Z.of_nat h <=? _)), obind_Ok by (apply Z.leb_le; lia).
  assert (Etn : Z.to_nat (2 ^ Z.of_nat h) = (2 ^ h)%nat) by (pose proof (Nat2Z.inj_pow 2 h) as Ez; change (Z.of_nat 2) with 2 in Ez; lia).
  assert (Hw16 : (Z.to_nat a + 2 ^ h <= 16)%nat) by (rewrite <- Etn; lia).
  rewrite Etn. rewrite (left_impl_spec s (take d (key_nibbles key)) (under (take d (key_nibbles key)) L) (under_all_placed _ _ Hnd) ltac:(lia) h a); [| |lia|..].
  - rewrite obind_Ok, Hlen. cbn [fst]. unfold left_hash. rewrite beside_between by (done || lia). fold a. do 2 f_equal; lia.
  - done.
  - rewrite length_take, length_drop. lia.
  - intros j c Hj. apply lookup_take_Some in Hj as [Hj Hjl]. rewrite lookup_drop in Hj. rewrite group_under by (done || lia). unfold start_of in E2.
    apply Hf; [unfold nibble_ok; lia| |by replace (Z.to_nat (a + Z.of_nat j)) with (Z.to_nat a + j)%nat by lia].
    assert (Hlt : a + Z.of_nat j < nib key d).
    { assert (Hle : nib key d / 2 ^ Z.of_nat h * 2 ^ Z.of_nat h <= nib key d) by (rewrite Z.mul_comm; apply Z.mul_div_le; lia). lia. }
    case_match; [intros E; injection E as E; lia|done].
  - rewrite Hlen. replace (252 - 4 * d + h)%nat with (255 - (4 * d + 3 - h))%nat by lia. replace (4 * d + 4 - h)%nat with (S (4 * d + 3 - h)) by lia.
    unfold a. rewrite <- beside_between by (done || lia). apply solid_beside; [lia|done].
Qed.

Definition lefts_from L key (i n : nat) : list HV := omap (fun j => if key_bit key j then Some (left_hash L key j) else None) (seq i n).
Definition lefts L key (n : nat) : list HV := lefts_from L key 0 n.
Definition zeros_from key (i n : nat) : nat := length (filter (fun j => key_bit key j = false) (seq i n)).
Definition zeros key (n : nat) : nat := zeros_from key 0 n.

Lemma beside_elem key (i : nat) kvs u : u ∈ beside 0 key i kvs <-> u ∈ kvs /\ (forall j, (j < i)%nat -> key_bit (leaf_key u) j = key_bit key j) /\ key_bit (leaf_key u) i = negb (key_bit key i).
Proof.
  unfold beside. rewrite Nat.add_0_l. unfold side. rewrite list_elem_of_filter, path_is_filter, list_elem_of_filter, Forall_forall. split.
  - intros (Hb & Ha & Hu). split_and!; [done| |done]. intros j Hj. apply Ha, elem_of_seq. lia.
  - intros (Hu & Ha & Hb). split_and!; [done| |done]. intros j Hj. apply Ha. apply elem_of_seq in Hj. lia.
Qed.

Lemma beside_alone L x (m i : nat) : (m <= 64)%nat -> (4 * m <= i)%nat -> under (take m (key_nibbles (account_key x))) L = [x] -> beside 0 (account_key x) i (sl L) = [].
Proof.
  intros Hm Hi Hx. destruct (beside 0 (account_key x) i (sl L)) as [|u l] eqn:E; [done|]. exfalso.
  assert (Hu : u ∈ beside 0 (account_key x) i (sl L)) by (rewrite E; left). apply beside_elem in Hu as (Hu & Ha & Hb).
  apply list_elem_of_fmap in Hu as (z & -> & Hz). cbn [sparse_leaf_from leaf_key] in *.
  assert (Hin : z ∈ under (take m (key_nibbles (account_key x))) L).
  { apply under_elem. split; [|done]. apply starts_bits; [lia|]. intros j Hj. apply Ha. lia. }
  rewrite Hx in Hin. apply list_elem_of_singleton in Hin as ->. by destruct (key_bit (account_key x) i).
Qed.

Lemma left_hash_alone L x (m i : nat) : (m <= 64)%nat -> (4 * m <= i)%nat -> under (take m (key_nibbles (account_key x))) L = [x] ->
  left_hash L (account_key x) i = SPARSE_MERKLE_PLACEHOLDER_HASH.
Proof. intros Hm Hi Hx. unfold left_hash. by rewrite (beside_alone L x m), smt_nil. Qed.

Lemma drop_bits key (i : nat) : (i < 256)%nat -> drop i (iter_bits key) = key_bit key i :: drop (S i) (iter_bits key).
Proof.
  intros Hi. apply drop_S. unfold key_bit. rewrite nth_lookup. destruct (lookup_lt_is_Some_2 (iter_bits key) i) as [b Hb]; [rewrite iter_bits_length; done|]. by rewrite Hb.
Qed.

(** The state at the end of a chunk, with the last leaf [x]. *)
Lemma collect_spec s L x self : NoDup (map account_key L) -> waiting v s L x (partial_nodes self) -> solid (things 256 0 (sl L)) ->
  forall n (i : nat) acc zc, (i + n = 256)%nat ->
  collect_left_siblings self (account_key x) (Z.of_nat i) (drop i (iter_bits (account_key x))) acc zc =
  Ok (acc ++ lefts_from L (account_key x) i n, zc + Z.of_nat (zeros_from (account_key x) i n)).
Proof.
  intros Hnd Hw Hs. set (key := account_key x). pose proof (wt_spine _ _ _ _ _ Hw) as [Hsk _]. pose proof (sk_len _ _ _ _ _ Hsk) as Hl.
  assert (Hx : under (take (length (partial_nodes self)) (key_nibbles key)) L = [x]).
  { destruct (wt_child _ _ _ _ _ Hw) as (P0 & info & EP & _). rewrite EP in *. rewrite length_app, Nat.add_1_r. by eapply waiting_alone. }
  induction n as [|n IH]; intros i acc zc Hi.
  - rewrite (drop_ge (iter_bits key)) by (rewrite iter_bits_length; lia). cbn [collect_left_siblings]. unfold lefts_from, zeros_from. cbn. by rewrite app_nil_r, Z.add_0_r.
  - rewrite drop_bits by lia. unfold lefts_from, zeros_from. cbn [seq omap list_omap]. rewrite filter_cons.
    replace (Z.of_nat i + 1) with (Z.of_nat (S i)) in * by lia. destruct (key_bit key i) eqn:Hbit; cbn [collect_left_siblings].
    + assert (Esib : (if Z.of_nat (length (partial_nodes self)) * 4 <=? Z.of_nat i then Ok SPARSE_MERKLE_PLACEHOLDER_HASH
        else (node ← expect (partial_nodes self !! Z.to_nat (Z.of_nat i / 4)) "index out of bounds"; n0 ← hv_get_nibble key (Z.of_nat i / 4); compute_left_sibling node n0 (3 - Z.of_nat i mod 4))) =
        Ok (left_hash L key i)).
      { destruct (Z.leb_spec (Z.of_nat (length (partial_nodes self)) * 4) (Z.of_nat i)) as [Hge|Hlt].
        - f_equal. symmetry. apply (left_hash_alone L x (length (partial_nodes self))); [lia|lia|done].
        - assert (Edm := Z.div_mod (Z.of_nat i) 4 ltac:(lia)). assert (Hmod := Z.mod_pos_bound (Z.of_nat i) 4 ltac:(lia)).
          set (d := Z.to_nat (Z.of_nat i / 4)). assert (Ed : Z.of_nat i / 4 = Z.of_nat d) by (subst d; pose proof (Z.div_pos (Z.of_nat i) 4); lia).
          set (h := Z.to_nat (3 - Z.of_nat i mod 4)). assert (Eh : 3 - Z.of_nat i mod 4 = Z.of_nat h) by (subst h; lia).
          destruct (lookup_lt_is_Some_2 (partial_nodes self) d) as [info Hinfo]; [lia|]. rewrite Hinfo. cbn [expect]. rewrite obind_Ok, Ed, hv_get_nibble_nib, obind_Ok by lia.
          assert (Ei : i = (4 * d + 3 - h)%nat) by lia. rewrite Eh, (compute_left_sibling_spec _ L key (partial_nodes self) d h info Hnd Hsk Hinfo) by (done || lia || by rewrite <- Ei). by rewrite <- Ei. }
      rewrite Esib, obind_Ok. replace (Z.of_nat i + 1) with (Z.of_nat (S i)) by lia. rewrite IH by lia. rewrite decide_False by done. by rewrite <- app_assoc.
    + replace (Z.of_nat i + 1) with (Z.of_nat (S i)) by lia. rewrite IH by lia. rewrite decide_True by done. cbn [length]. do 2 f_equal. unfold zeros_from. lia.
Qed.
End RestoreVerify.
