(* ===== verification/JellyfishRestoreSound.v ===== *)
(** * Restoring a tree: what an accepted proof shows

    The leaves so far are those of the tree up to the last one, unless hashes clash; and
    the proof that the tree gives for that leaf is accepted. *)
From stdpp Require Import base list numbers strings option gmap sorting.
From Stdlib Require Import ZArith Lia Bool Sorted.
From S2P Require Import Prelude Hash AccumulatorProof SparseMerkleProof SparseSpec SparseFacts SparseClash NibblePath NibblePathFacts ByteCodec JellyfishNode JellyfishNodeFacts JellyfishHash JellyfishSpec JellyfishTree JellyfishRead JellyfishRuns JellyfishBatch JellyfishUpdate JellyfishCommit JellyfishIterate JellyfishRestore JellyfishRestoreFacts JellyfishRestoreAdd JellyfishRestoreVerify.

Section RestoreSound.
Context {HV : Type} `{HashValueOps HV} `{HashValueBits HV} `{!HashValueLaws HV} `{CryptoHasher HV}
  `{LeafHasher HV} `{HashValueKeys HV} `{!HashValueKeysLaws HV} {K : Type} `{KeyHash HV K}.
Context (v : Version).
Implicit Types (s : store (HV := HV) (K := K)) (L T : list (LeafNode HV K)) (x y z : LeafNode HV K)
  (P : list (InternalInfo HV K)) (key : HV) (self : JellyfishMerkleRestore HV K)
  (kvs : list (SparseMerkleLeafNode HV)) (hs : list (hashed HV)) (R : list HV).

(** ** What is hashed below a part of the tree *)
Lemma things_below fuel d b kvs : things fuel (S d) (side d b kvs) ⊆ things (S fuel) d kvs.
Proof.
  destruct (decide (2 <= length kvs)%nat) as [Hl|Hl]; [by apply things_side|]. destruct kvs as [|u [|w kvs]]; [|  |cbn in Hl; lia].
  - destruct fuel; cbn; set_solver.
  - unfold side. rewrite filter_cons, filter_nil. case_decide; destruct fuel; cbn; set_solver.
Qed.

Lemma things_path key n : forall (fuel d : nat) kvs, (n <= fuel)%nat -> things (fuel - n) (d + n) (path d n key kvs) ⊆ things fuel d kvs.
Proof.
  induction n as [|n IH]; intros fuel d kvs Hn; cbn [path]; [by rewrite Nat.sub_0_r, Nat.add_0_r|].
  destruct fuel as [|fuel]; [lia|]. cbn [Nat.sub]. rewrite <- Nat.add_succ_comm. etrans; [apply IH; lia|apply things_below].
Qed.

Lemma things_beside key (i : nat) kvs : (i < 256)%nat -> things (255 - i) (S i) (beside 0 key i kvs) ⊆ things 256 0 kvs.
Proof.
  intros Hi. unfold beside. rewrite Nat.add_0_l. etrans; [apply things_below|]. replace (S (255 - i)) with (256 - i)%nat by lia. by apply (things_path key i 256 0); lia.
Qed.

Lemma alike_path key n : forall (d : nat) kvs, alike d kvs -> alike (d + n) (path d n key kvs).
Proof.
  induction n as [|n IH]; intros d kvs Ha; cbn [path]; [by rewrite Nat.add_0_r|]. rewrite <- Nat.add_succ_comm. apply IH. by apply alike_side.
Qed.

Lemma alike_root kvs : NoDup (map leaf_key kvs) -> alike 0 kvs.
Proof. intros Hnd. split; [done|]. intros a b _ _ i Hi. lia. Qed.

Lemma alike_beside key (i : nat) kvs : NoDup (map leaf_key kvs) -> alike (S i) (beside 0 key i kvs).
Proof. intros Hnd. unfold beside. apply alike_side. apply (alike_path key i 0). by apply alike_root. Qed.

(** ** The order of the keys, by bits *)
Lemma nibble_lt (n m : Z) : nibble_ok n -> nibble_ok m -> n < m <->
  Exists (fun h => Forall (fun k => Z.testbit n (Z.of_nat k) = Z.testbit m (Z.of_nat k)) (seq (S h) (3 - h)) /\ Z.testbit n (Z.of_nat h) = false /\ Z.testbit m (Z.of_nat h) = true) (seq 0 4).
Proof.
  intros Hn Hm. assert (Hall : forallb (fun n => forallb (fun m => bool_decide (n < m <->
    Exists (fun h => Forall (fun k => Z.testbit n (Z.of_nat k) = Z.testbit m (Z.of_nat k)) (seq (S h) (3 - h)) /\ Z.testbit n (Z.of_nat h) = false /\ Z.testbit m (Z.of_nat h) = true) (seq 0 4)))
    (seqZ 0 16)) (seqZ 0 16) = true) by (vm_compute; reflexivity).
  rewrite forallb_forall in Hall. specialize (Hall n ltac:(apply list_elem_of_In, elem_of_seqZ; unfold nibble_ok in Hn; lia)).
  rewrite forallb_forall in Hall. specialize (Hall m ltac:(apply list_elem_of_In, elem_of_seqZ; unfold nibble_ok in Hm; lia)). by apply bool_decide_eq_true in Hall.
Qed.

Lemma nib_eq_bits (a b : HV) (c : nat) : (c < 64)%nat -> (forall i, (4 * c <= i < 4 * c + 4)%nat -> key_bit a i = key_bit b i) -> nib a c = nib b c.
Proof.
  intros Hc Hb. destruct (decide (nib a c = nib b c)) as [|Hne]; [done|]. destruct (nib_bits_differ a b c Hc Hne) as (k & Hk & Hd). exfalso. apply Hd, Hb. lia.
Qed.

Lemma klt_bits (a b : HV) : klt a b <-> exists i, (i < 256)%nat /\ agree i a b /\ key_bit a i = false /\ key_bit b i = true.
Proof.
  split.
  - intros (c & Hc & He & Hlt). apply nibble_lt in Hlt; [|by apply nib_ok..]. apply Exists_exists in Hlt as (h & Hh & Hk & Ha & Hb).
    apply elem_of_seq in Hh. rewrite Forall_forall in Hk. exists (4 * c + 3 - h)%nat. rewrite !key_bit_nib by lia. split_and!; [lia| |done|done].
    intros i Hi. destruct (decide (i < 4 * c)%nat) as [Hlt|Hge].
    + pose proof (Nat.div_mod_eq i 4) as Ei. pose proof (Nat.mod_upper_bound i 4 ltac:(lia)) as Hm.
      replace i with (4 * (i / 4) + 3 - (3 - i mod 4))%nat by lia. rewrite !key_bit_nib by lia. by rewrite He by lia.
    + replace i with (4 * c + 3 - (3 - (i - 4 * c)))%nat by lia. rewrite !key_bit_nib by lia. apply Hk, elem_of_seq. lia.
  - intros (i & Hi & Ha & Eb1 & Eb2). pose proof (Nat.div_mod_eq i 4) as Ei. pose proof (Nat.mod_upper_bound i 4 ltac:(lia)) as Hm.
    exists (i / 4)%nat. split_and!; [lia| |].
    + intros c Hc. apply nib_eq_bits; [lia|]. intros j Hj. apply Ha. lia.
    + apply nibble_lt; [apply nib_ok; lia..|]. apply Exists_exists. exists (3 - i mod 4)%nat. split; [apply elem_of_seq; lia|].
      rewrite <- !key_bit_nib by lia. replace (4 * (i / 4) + 3 - (3 - i mod 4))%nat with i by lia. split_and!; [|done|done].
      apply Forall_forall. intros k Hk. apply elem_of_seq in Hk. rewrite <- !key_bit_nib by lia. apply Ha. lia.
Qed.

(** The leaves up to a key, and the leaves before it, by the siblings on the left. *)
Definition upto key kvs : list (SparseMerkleLeafNode HV) := filter (fun u => hv_cmp (leaf_key u) key <> Gt) kvs.

Lemma upto_elem key kvs u : u ∈ upto key kvs <-> u ∈ kvs /\ (leaf_key u = key \/ klt (leaf_key u) key).
Proof.
  unfold upto. rewrite list_elem_of_filter. pose proof (hv_cmp_cases (leaf_key u) key) as Hc. destruct (hv_cmp (leaf_key u) key) eqn:E.
  - split; intros [Ha Hb]; auto.
  - split; intros [Ha Hb]; auto.
  - split; [by intros [Ha Hb]|]. intros [Ha [Hb|Hb]]; exfalso; [rewrite Hb in Hc; by apply klt_irrefl in Hc|by eapply klt_asym].
Qed.

Lemma before_beside key kvs u : u ∈ kvs -> klt (leaf_key u) key <-> exists i, (i < 256)%nat /\ key_bit key i = true /\ u ∈ beside 0 key i kvs.
Proof.
  intros Hu. rewrite klt_bits. split; intros (i & Hi & Hr); exists i; (split; [done|]).
  - destruct Hr as (Ha & Eb1 & Eb2). split; [done|]. apply beside_elem. rewrite Eb2. by split_and!.
  - destruct Hr as (Eb & Hb). apply beside_elem in Hb as (_ & Ha & Eb'). rewrite Eb in Eb'. by split_and!.
Qed.

(** ** The siblings that are left after the placeholders *)
Lemma lefts_S L key n : lefts L key (S n) = lefts L key n ++ if key_bit key n then [left_hash L key n] else [].
Proof. unfold lefts, lefts_from. rewrite seq_S, omap_app. cbn [omap list_omap Nat.add]. by destruct (key_bit key n). Qed.

Lemma zeros_S key n : zeros key (S n) = (zeros key n + if key_bit key n then 0 else 1)%nat.
Proof. unfold zeros, zeros_from. rewrite seq_S, filter_app, length_app, Nat.add_0_l, filter_cons, filter_nil. by destruct (key_bit key n). Qed.

Lemma lefts_zeros L key n : (length (lefts L key n) + zeros key n = n)%nat.
Proof. induction n as [|n IH]; [done|]. rewrite lefts_S, zeros_S, length_app. destruct (key_bit key n); cbn; lia. Qed.

Lemma zeros_mono key n m : (n <= m)%nat -> (zeros key n <= zeros key m)%nat.
Proof. induction 1 as [|m Hm IH]; [done|]. rewrite zeros_S. lia. Qed.

Lemma rev_take_bits key n : (n < 256)%nat -> rev (take (S n) (iter_bits key)) = key_bit key n :: rev (take n (iter_bits key)).
Proof.
  intros Hn. destruct (lookup_lt_is_Some_2 (iter_bits key) n) as [b Hb]; [rewrite iter_bits_length; done|].
  rewrite (take_S_r _ _ _ Hb), rev_app_distr. unfold key_bit. by rewrite nth_lookup, Hb.
Qed.

(** The siblings are cut at depth [m], where one is missing or a right one is due. *)
Record cut L key (r n m : nat) : Prop := {
  cut_le : (m <= n)%nat;
  cut_right : (r <= zeros key m)%nat;
  cut_off : forall i, (m <= i < n)%nat -> if key_bit key i then left_hash L key i = SPARSE_MERKLE_PLACEHOLDER_HASH else (r < zeros key (S i))%nat;
  cut_stop : forall i, m = S i -> if key_bit key i then left_hash L key i <> SPARSE_MERKLE_PLACEHOLDER_HASH else zeros key m = r;
}.

Lemma trim_spec L key (r : nat) : forall n, (n <= 256)%nat -> (r <= zeros key n)%nat ->
  exists m, trim_left_siblings (rev (take n (iter_bits key))) (lefts L key n) (Z.of_nat (zeros key n)) (Z.of_nat r) = Ok (lefts L key m) /\ cut L key r n m.
Proof.
  induction n as [|n IH]; intros Hn Hr.
  - exists O. split; [done|]. split; [done|done|intros; lia|done].
  - rewrite rev_take_bits by lia.
    assert (Hext : forall m, cut L key r n m -> (if key_bit key n then left_hash L key n = SPARSE_MERKLE_PLACEHOLDER_HASH else (r < zeros key (S n))%nat) -> cut L key r (S n) m).
    { intros m [Hle Hrm Hoff Hstop] Hnew. split; [lia|done| |done]. intros i Hi. destruct (decide (i = n)) as [->|]; [done|]. apply Hoff. lia. }
    assert (Hhere : (if key_bit key n then left_hash L key n <> SPARSE_MERKLE_PLACEHOLDER_HASH else zeros key (S n) = r) -> cut L key r (S n) (S n)).
    { intros Hs. split; [done|done|intros; lia|]. intros i [= <-]. done. }
    rewrite lefts_S. rewrite zeros_S in *. destruct (key_bit key n) eqn:Eb; cbn [trim_left_siblings].
    + rewrite vec_pop_snoc. cbn [expect]. rewrite obind_Ok. cbn [fst snd]. rewrite Nat.add_0_r in *. case_bool_decide as Eh.
      * destruct (IH ltac:(lia) Hr) as (m & E & Hc). exists m. split; [done|]. by apply Hext.
      * exists (S n). split; [|by apply Hhere]. by rewrite lefts_S, Eb, ?app_nil_r.
    + rewrite app_nil_r. destruct (Z.ltb_spec (Z.of_nat r) (Z.of_nat (zeros key n + 1))) as [Hlt|Hge].
      * replace (Z.of_nat (zeros key n + 1) - 1) with (Z.of_nat (zeros key n)) by lia. destruct (IH ltac:(lia) ltac:(lia)) as (m & E & Hc). exists m. split; [done|]. apply Hext; [done|lia].
      * exists (S n). split; [|apply Hhere; lia]. by rewrite lefts_S, Eb, ?app_nil_r.
Qed.

(** ** What [verify] computes *)
Lemma verify_runs s L x self (proof : SparseMerkleRangeProof HV) : NoDup (map account_key L) -> waiting v s L x (partial_nodes self) ->
  solid (things 256 0 (sl L)) -> previous_leaf self = Some x ->
  let key := account_key x in let R := srp_right_siblings proof in
  if decide (length R <= zeros key 256)%nat
  then exists m, cut L key (length R) 256 m /\
    Restore_verify self proof = SparseMerkleRangeProof_verify proof (expected_root_hash self) (sparse_leaf_from x) (rev (lefts L key m))
  else exists e, Restore_verify self proof = Err e.
Proof.
  intros Hnd Hw Hs Ex key R. unfold Restore_verify. rewrite Ex. cbn [expect]. rewrite obind_Ok. fold key.
  assert (Ec : collect_left_siblings self key 0 (iter_bits key) [] 0 = Ok (lefts L key 256, Z.of_nat (zeros key 256))).
  { unfold lefts, zeros. pose proof (collect_spec v s L x self Hnd Hw Hs 256 0 [] 0 eq_refl) as Ec. rewrite drop_0, app_nil_l, Z.add_0_l in Ec. exact Ec. }
  rewrite Ec, obind_Ok. fold R. case_decide as Hr.
  - destruct (trim_spec L key (length R) 256 ltac:(lia) Hr) as (m & E & Hc). rewrite take_ge in E by (rewrite iter_bits_length; lia).
    exists m. split; [done|]. rewrite ensure_true, obind_Ok by (apply Z.leb_le; lia). by rewrite E, obind_Ok.
  - eexists. unfold ensure. by rewrite (proj2 (Z.leb_gt _ _)) by lia.
Qed.

Lemma merge_rights : forall bits (ls rs : list HV), length (merge_siblings bits ls rs) = length bits ->
  (length (filter (fun b => b = false) bits) <= length rs)%nat.
Proof.
  induction bits as [|[] bits IH]; intros ls rs E; cbn [merge_siblings] in E; [cbn; lia|..]; rewrite filter_cons.
  - rewrite decide_False by done. destruct ls as [|l ls]; [done|]. apply IH with ls. cbn in E. lia.
  - rewrite decide_True by done. cbn [length]. destruct rs as [|r rs]; [done|]. cbn in E |- *. apply le_n_S, IH with ls. lia.
Qed.

Lemma zeros_bits key n : (n <= 256)%nat -> length (filter (fun b => b = false) (rev (take n (iter_bits key)))) = zeros key n.
Proof.
  induction n as [|n IH]; intros Hn; [done|]. rewrite rev_take_bits, filter_cons, zeros_S by lia. rewrite <- IH by lia.
  destruct (key_bit key n); [rewrite decide_False by done; lia|rewrite decide_True by done; cbn; lia].
Qed.

Lemma lefts_mono L key n m : (n <= m)%nat -> (length (lefts L key n) <= length (lefts L key m))%nat.
Proof. induction 1 as [|m Hm IH]; [done|]. rewrite lefts_S, length_app. lia. Qed.

(** An accepted proof has a right sibling for every zero bit above the cut. *)
Lemma accepted_rights L x root proof m : let key := account_key x in let R := srp_right_siblings proof in
  cut L key (length R) 256 m -> SparseMerkleRangeProof_verify proof root (sparse_leaf_from x) (rev (lefts L key m)) = Ok tt -> zeros key m = length R.
Proof.
  intros key R [Hle Hr _ Hstop] Hv. apply range_verify_climb in Hv as (El & Hl & _). cbn [sparse_leaf_from leaf_key] in *. fold key R in El, Hl.
  unfold range_siblings in El. rewrite !length_rev in El. set (n := (length (lefts L key m) + length R)%nat) in *.
  pose proof (lefts_zeros L key m) as Elz. assert (Hnm : (n <= m)%nat) by lia.
  assert (Hm : length (merge_siblings (rev (take n (iter_bits key))) (rev (lefts L key m)) R) = length (rev (take n (iter_bits key)))).
  { rewrite El, length_rev, length_take, iter_bits_length. lia. }
  apply merge_rights in Hm. rewrite zeros_bits in Hm by lia. pose proof (lefts_zeros L key n) as Eln.
  destruct (decide (n = m)) as [|Hne]; [lia|]. destruct m as [|i]; [lia|]. specialize (Hstop i eq_refl). destruct (key_bit key i) eqn:Eb; [|done].
  exfalso. pose proof (lefts_mono L key n i ltac:(lia)) as Hmono. assert (En : n = (length (lefts L key (S i)) + length R)%nat) by done. clearbody n. rewrite lefts_S, Eb, length_app in En. cbn [length] in En. lia.
Qed.

(** The siblings of the path, from the top. *)
Definition sibs_of L key R (m : nat) : list HV := rev (merge_siblings (rev (take m (iter_bits key))) (rev (lefts L key m)) R).

Lemma sibs_of_spec L key : forall m R, (m <= 256)%nat -> length R = zeros key m ->
  length (sibs_of L key R m) = m /\
  forall i, (i < m)%nat -> exists h, sibs_of L key R m !! i = Some h /\ if key_bit key i then h = left_hash L key i else h ∈ R.
Proof.
  induction m as [|m IH]; intros R Hm HR; [split; [done|intros; lia]|]. unfold sibs_of. rewrite rev_take_bits, lefts_S by lia. rewrite zeros_S in HR.
  destruct (key_bit key m) eqn:Eb.
  - rewrite rev_app_distr. cbn [rev app merge_siblings]. destruct (IH R ltac:(lia) ltac:(lia)) as [El Hi]. unfold sibs_of in El, Hi.
    rewrite length_app, El. split; [cbn; lia|]. intros i Hlt. destruct (decide (i = m)) as [->|].
    + exists (left_hash L key m). rewrite Eb. by rewrite lookup_app_r, El, Nat.sub_diag by lia.
    + rewrite lookup_app_l by lia. apply Hi. lia.
  - rewrite app_nil_r. destruct R as [|r0 R]; [cbn in HR; lia|]. cbn [merge_siblings rev]. destruct (IH R ltac:(lia) ltac:(cbn in HR; lia)) as [El Hi]. unfold sibs_of in El, Hi.
    rewrite length_app, El. split; [cbn; lia|]. intros i Hlt. destruct (decide (i = m)) as [->|].
    + exists r0. rewrite Eb, lookup_app_r, El, Nat.sub_diag by lia. split; [done|left].
    + rewrite lookup_app_l by lia. destruct (Hi i ltac:(lia)) as (h & Hh & Hcase). exists h. split; [done|]. destruct (key_bit key i); [done|by right].
Qed.

(** ** Soundness *)

(** What the verifier hashes for a path of [m] siblings. *)
Definition checked L x R (m : nat) : list (hashed HV) :=
  Hashed_Leaf (sparse_leaf_from x) ::
  map (fun p => Hashed_Inner (fst p) (snd p))
    (climb_pairs 0 (account_key x) (sibs_of L (account_key x) R m) (SparseMerkleLeafNode_hash (sparse_leaf_from x))).

Lemma smt_root_eq kvs : smt_root kvs = smt 256 0 kvs.
Proof. reflexivity. Qed.

(** The leaves on the left of the path are the same in both trees. *)
Lemma same_lefts L x R kvs m : let key := account_key x in
  NoDup (map account_key L) -> NoDup (map leaf_key kvs) -> solid (things 256 0 (sl L)) -> cut L key (length R) 256 m -> zeros key m = length R ->
  climb 0 key (sibs_of L key R m) (SparseMerkleLeafNode_hash (sparse_leaf_from x)) = smt_root kvs ->
  ~ clash (things 256 0 kvs ++ things 256 0 (sl L) ++ checked L x R m) ->
  path 0 m key kvs = [sparse_leaf_from x] /\ (forall i, (i < 256)%nat -> key_bit key i = true -> beside 0 key i (sl L) ≡ₚ beside 0 key i kvs) /\
  forall i, (i < m)%nat -> key_bit key i = false -> smt (255 - i) (S i) (beside 0 key i kvs) ∈ R.
Proof.
  intros key HndL Hnd Hs Hcut Hz Hc Hno. rewrite smt_root_eq in Hc. destruct Hcut as [Hm _ Hoff _].
  assert (Hno' : forall hs, hs ⊆ things 256 0 kvs ++ things 256 0 (sl L) ++ checked L x R m -> ~ clash hs) by (intros hs Hsub Hcl; apply Hno; by eapply clash_mono).
  destruct (sibs_of_spec L key m R Hm (eq_sym Hz)) as [Elen Hof].
  destruct (climb_determines key (sparse_leaf_from x) (sibs_of L key R m) 256 0 kvs ltac:(lia) Hc) as [[Hsib Hbot]|Hcl].
  2:{ exfalso. eapply Hno'; [|exact Hcl]. intros a Ha. apply elem_of_app in Ha as [Ha|Ha]; rewrite !elem_of_app; [by left|right; right; exact Ha]. }
  rewrite Elen, Nat.add_0_l in Hbot. set (xs := sparse_leaf_from x) in *.
  assert (Hpath : [xs] ≡ₚ path 0 m key kvs).
  { destruct (smt_inj (256 - m) m [xs] (path 0 m key kvs)) as [Hp|Hcl]; [lia| |by apply (alike_path key m 0), alike_root|by rewrite smt_one| |].
    - split; [apply NoDup_singleton|]. intros a b Ha Hb. apply list_elem_of_singleton in Ha as ->, Hb as ->. by intros i Hi.
    - done.
    - exfalso. eapply Hno'; [|exact Hcl]. intros a Ha. rewrite !elem_of_app. apply elem_of_app in Ha as [Ha|Ha].
      + unfold things in Ha. rewrite elem_of_cons, elem_of_app in Ha. destruct Ha as [->|[Ha|Ha]]; [left; left| |by destruct (256 - m)%nat; apply not_elem_of_nil in Ha].
        apply list_elem_of_singleton in Ha as ->. right. right. left.
      + left. pose proof (things_path key m 256 0 kvs ltac:(lia)) as Hsub. rewrite Nat.add_0_l in Hsub. by apply Hsub. }
  symmetry in Hpath. apply Permutation_singleton_r in Hpath. assert (Hsib' : forall i h, sibs_of L key R m !! i = Some h -> h = smt (255 - i) (S i) (beside 0 key i kvs)).
  { intros i h Hi. apply Hsib in Hi. rewrite Nat.add_0_l in Hi. by replace (256 - S i)%nat with (255 - i)%nat in Hi by lia. }
  split_and!; [done| |intros i Hi Eb; destruct (Hof i Hi) as (h & Hh & Hcase); rewrite Eb in Hcase; by rewrite <- (Hsib' i h Hh)].
  intros i Hi Eb. destruct (decide (i < m)%nat) as [Hlt|Hge].
  - destruct (Hof i Hlt) as (h & Hh & Hcase). rewrite Eb in Hcase. apply Hsib' in Hh. rewrite Hcase in Hh. unfold left_hash in Hh.
    destruct (smt_inj (255 - i) (S i) (beside 0 key i (sl L)) (beside 0 key i kvs)) as [Hp|Hcl]; [lia|apply alike_beside; by rewrite sl_keys|by apply alike_beside|done|done|].
    exfalso. eapply Hno'; [|exact Hcl]. intros a Ha. rewrite !elem_of_app. apply elem_of_app in Ha as [Ha|Ha]; [right; left|left]; eapply things_beside; eauto.
  - specialize (Hoff i ltac:(lia)). rewrite Eb in Hoff. unfold left_hash in Hoff.
    rewrite (solid_empty _ _ _ (solid_beside key i (sl L) Hi Hs) ltac:(lia) (alike_beside key i (sl L) ltac:(by rewrite sl_keys)) Hoff).
    destruct (beside 0 key i kvs) as [|u l] eqn:Ebs; [done|]. exfalso. assert (Hu : u ∈ beside 0 key i kvs) by (rewrite Ebs; left).
    apply beside_elem in Hu as (Hu & Ha & Hbu). assert (Hin : u ∈ path 0 m key kvs).
    { rewrite path_is_filter. apply list_elem_of_filter. split; [|done]. apply Forall_forall. intros j Hj. apply elem_of_seq in Hj. apply Ha. lia. }
    rewrite Hpath in Hin. apply list_elem_of_singleton in Hin as ->. cbn [xs sparse_leaf_from leaf_key] in Hbu. fold key in Hbu. rewrite Eb in Hbu. done.
Qed.

(** Nothing is on the right of a path whose right siblings are all empty. *)
Lemma upto_all key kvs m : (m <= 256)%nat -> (forall i, (i < m)%nat -> key_bit key i = false -> beside 0 key i kvs = []) ->
  (forall u, u ∈ path 0 m key kvs -> ~ klt key (leaf_key u)) -> upto key kvs = kvs.
Proof.
  intros Hm Hright Hbot. apply filter_all, Forall_forall. intros u Hu Hgt. pose proof (hv_cmp_cases (leaf_key u) key) as Hc. rewrite Hgt in Hc.
  pose proof Hc as (i & Hi & Ha & Eb & Eu)%klt_bits. destruct (decide (i < m)%nat) as [Hlt|Hge].
  - assert (Hin : u ∈ beside 0 key i kvs) by (apply beside_elem; rewrite Eb; split_and!; [done|intros j Hj; symmetry; by apply Ha|done]).
    rewrite (Hright i Hlt Eb) in Hin. by apply not_elem_of_nil in Hin.
  - apply (Hbot u); [|done]. rewrite path_is_filter. apply list_elem_of_filter. split; [|done]. apply Forall_forall. intros j Hj. apply elem_of_seq in Hj. symmetry. apply Ha. lia.
Qed.

(** Only placeholders on the right: [StateValueChunkWithProof::is_last_chunk]. *)
Definition no_rights R : Prop := Forall (fun h => h = SPARSE_MERKLE_PLACEHOLDER_HASH) R.

Lemma verify_sound s L x self (proof : SparseMerkleRangeProof HV) kvs : StronglySorted by_key L -> waiting v s L x (partial_nodes self) ->
  previous_leaf self = Some x -> NoDup (map leaf_key kvs) -> expected_root_hash self = smt_root kvs -> Restore_verify self proof = Ok tt ->
  (sl L ≡ₚ upto (account_key x) kvs /\ (no_rights (srp_right_siblings proof) -> upto (account_key x) kvs = kvs)) \/
  exists m, (m <= 256)%nat /\ clash (things 256 0 kvs ++ things 256 0 (sl L) ++ checked L x (srp_right_siblings proof) m).
Proof.
  intros Hsort Hw Ex Hnd Er Hv. pose proof (sorted_NoDup_keys L Hsort) as HndL.
  destruct (decide (solid (things 256 0 (sl L)))) as [Hs|Hns].
  2:{ right. exists O. split; [lia|]. eapply clash_mono; [|apply (not_solid _ Hns)]. intros a Ha. rewrite !elem_of_app. apply elem_of_cons in Ha as [->|Ha]; [left; left|by right; left]. }
  pose proof (verify_runs s L x self proof HndL Hw Hs Ex) as Hrun. cbn zeta in Hrun. set (key := account_key x) in *. set (R := srp_right_siblings proof) in *.
  case_decide as Hr; [|destruct Hrun as [e E]; congruence]. destruct Hrun as (m & Hcut & E). rewrite E, Er in Hv.
  pose proof (accepted_rights L x _ proof m Hcut Hv) as Hz. pose proof (lefts_zeros L key m) as Elz. fold key R in Hz.
  apply range_verify_climb in Hv as (_ & _ & Hc). cbn [sparse_leaf_from leaf_key] in Hc. fold key R (sparse_leaf_from x) in Hc.
  unfold range_siblings in Hc. rewrite length_rev, <- Hz, Elz in Hc. fold (sibs_of L key R m) in Hc.
  destruct (decide (clash (things 256 0 kvs ++ things 256 0 (sl L) ++ checked L x R m))) as [Hcl|Hno]; [right; exists m; split; [apply Hcut|done]|left].
  destruct (same_lefts L x R kvs m HndL Hnd Hs Hcut Hz Hc Hno) as (Hpath & Hsame & Hrights). fold key in Hsame, Hpath, Hrights. pose proof (wt_last _ _ _ _ _ Hw) as Hlast.
  assert (HxL : x ∈ L) by (apply last_Some in Hlast as [L' ->]; apply elem_of_app; right; left).
  assert (Hin : sparse_leaf_from x ∈ kvs) by (apply (path_subset key m 0); rewrite Hpath; left). split.
  2:{ intros ER. assert (Hsk : solid (things 256 0 kvs)).
      { destruct (decide (solid (things 256 0 kvs))) as [|Hn]; [done|]. exfalso. apply Hno. eapply clash_mono; [|apply (not_solid _ Hn)].
        intros a Ha. apply elem_of_app. left. apply elem_of_cons in Ha as [->|Ha]; [left|done]. }
      apply (upto_all key kvs m); [exact (cut_le _ _ _ _ _ Hcut)| |].
      - intros i Hi Eb. pose proof (Hrights i Hi Eb) as Hin'. pose proof (cut_le _ _ _ _ _ Hcut). unfold no_rights in ER. rewrite Forall_forall in ER. apply ER in Hin'.
        eapply solid_empty; [apply solid_beside; [lia|exact Hsk]|lia|by apply alike_beside|exact Hin'].
      - intros u Hu Hlt. rewrite Hpath in Hu. apply list_elem_of_singleton in Hu as ->. by apply klt_irrefl in Hlt. }
  apply NoDup_Permutation; [apply (NoDup_fmap_1 leaf_key); change (NoDup (map leaf_key (sl L))); by rewrite sl_keys|apply NoDup_filter; by apply (NoDup_fmap_1 leaf_key)|].
  intros u. rewrite upto_elem. split.
  - intros Hu. assert (Hle : leaf_key u = key \/ klt (leaf_key u) key).
    { apply list_elem_of_fmap in Hu as (z & -> & Hz'). destruct (sorted_last L x z Hsort Hlast Hz') as [->|Hlt]; [by left|by right]. }
    split; [|done]. destruct Hle as [Ek|Hlt].
    + apply list_elem_of_fmap in Hu as (z & -> & Hz'). cbn [sparse_leaf_from leaf_key] in Ek.
      destruct (sorted_last L x z Hsort Hlast Hz') as [->|Hlt]; [done|]. exfalso. unfold key in Ek. rewrite Ek in Hlt. by apply klt_irrefl in Hlt.
    + apply (before_beside key (sl L) u Hu) in Hlt as (i & Hi & Eb & Hbs). rewrite (Hsame i Hi Eb) in Hbs. by apply beside_elem in Hbs as [? _].
  - intros [Hu [Ek|Hlt]].
    + assert (u = sparse_leaf_from x) as ->; [|by apply (list_elem_of_fmap_2 sparse_leaf_from)].
      apply list_elem_of_lookup in Hu as [a Ha], Hin as [b Hb]. assert (a = b) as ->; [|congruence].
      eapply (NoDup_lookup (leaf_key <$> kvs)); [exact Hnd|rewrite list_lookup_fmap, Ha; cbn; rewrite Ek; done|rewrite list_lookup_fmap, Hb; done].
    + apply (before_beside key kvs u Hu) in Hlt as (i & Hi & Eb & Hbs). rewrite <- (Hsame i Hi Eb) in Hbs. by apply beside_elem in Hbs as [? _].
Qed.

(** ** Completeness *)
Lemma smt_perm : forall fuel d kvs kvs', kvs ≡ₚ kvs' -> smt fuel d kvs = smt fuel d kvs'.
Proof.
  induction fuel as [|fuel IH]; intros d A B Hp; pose proof (Permutation_length Hp) as Hl;
    (destruct A as [|a [|a' A]], B as [|b [|b' B]]; try done; try (by apply Permutation_singleton_inj in Hp as ->)).
  set (A' := a :: a' :: A) in *. set (B' := b :: b' :: B) in *. assert (Hs : forall c, side d c A' ≡ₚ side d c B') by (intros c; unfold side; by rewrite Hp).
  change (hash_node (smt fuel (S d) (side d false A')) (smt fuel (S d) (side d true A')) = hash_node (smt fuel (S d) (side d false B')) (smt fuel (S d) (side d true B'))).
  by rewrite (IH _ _ _ (Hs false)), (IH _ _ _ (Hs true)).
Qed.

Lemma path_S key n : forall d kvs, path d (S n) key kvs = side (d + n) (key_bit key (d + n)) (path d n key kvs).
Proof.
  induction n as [|n IH]; intros d kvs; [by rewrite Nat.add_0_r|].
  change (path d (S (S n)) key kvs) with (path (S d) (S n) key (side d (key_bit key d) kvs)). rewrite IH. cbn [path]. by rewrite Nat.add_succ_comm.
Qed.

Lemma prove_sibs key : forall fuel d kvs (i : nat) h, snd (smt_prove fuel d key kvs) !! i = Some h ->
  h = smt (fuel - S i) (d + S i) (beside d key i kvs) /\ (2 <= length (path d i key kvs))%nat.
Proof.
  induction fuel as [|fuel IH]; intros d kvs i h Hi; (destruct kvs as [|a [|b kvs]]; [by destruct i..|]); [by destruct i|]. set (l := a :: b :: kvs) in *.
  assert (E : snd (smt_prove (S fuel) d key l) = smt fuel (S d) (side d (negb (key_bit key d)) l) :: snd (smt_prove fuel (S d) key (side d (key_bit key d) l))).
  { change (smt_prove (S fuel) d key l) with (let '(leaf, sibs) := smt_prove fuel (S d) key (side d (key_bit key d) l) in (leaf, smt fuel (S d) (side d (negb (key_bit key d)) l) :: sibs)).
    by destruct (smt_prove fuel (S d) key (side d (key_bit key d) l)). }
  rewrite E in Hi. destruct i as [|i]; cbn [lookup list_lookup] in Hi.
  - injection Hi as <-. unfold beside. rewrite Nat.add_0_r, Nat.add_1_r. cbn [Nat.sub path]. rewrite Nat.sub_0_r. split; [done|cbn; lia].
  - apply IH in Hi as [-> Hl]. split; [|exact Hl]. unfold beside. cbn [path Nat.sub]. by rewrite !Nat.add_succ_comm.
Qed.

(** The path of a leaf ends at it. *)
Lemma prove_bottom kvs u : NoDup (map leaf_key kvs) -> u ∈ kvs -> let sibs := smp_siblings (sparse_proof_of kvs (leaf_key u)) in
  (length sibs <= 256)%nat /\ path 0 (length sibs) (leaf_key u) kvs = [u].
Proof.
  intros Hnd Hu. unfold sparse_proof_of. cbn [smp_siblings]. destruct (smt_prove 256 0 (leaf_key u) kvs) as [lf sb] eqn:Epr. cbn [snd].
  destruct (smt_prove_spec (leaf_key u) 256 0 kvs lf sb eq_refl (under_root (leaf_key u) kvs Hnd) Epr) as (Hlen & Hpath & _). split; [done|].
  assert (Hl : u ∈ path 0 (length sb) (leaf_key u) kvs) by (by apply path_keeps). rewrite Hpath in Hl |- *. destruct lf as [u'|]; [|by apply not_elem_of_nil in Hl].
  by apply list_elem_of_singleton in Hl as <-.
Qed.

Lemma prove_perm key : forall fuel d kvs kvs', kvs ≡ₚ kvs' -> snd (smt_prove fuel d key kvs) = snd (smt_prove fuel d key kvs').
Proof.
  induction fuel as [|fuel IH]; intros d A B Hp; pose proof (Permutation_length Hp) as Hl;
    (destruct A as [|a [|a' A]], B as [|b [|b' B]]; try done).
  set (A' := a :: a' :: A) in *. set (B' := b :: b' :: B) in *. assert (Hs : forall c, side d c A' ≡ₚ side d c B') by (intros c; unfold side; by rewrite Hp).
  assert (E : forall l, (2 <= length l)%nat -> snd (smt_prove (S fuel) d key l) = smt fuel (S d) (side d (negb (key_bit key d)) l) :: snd (smt_prove fuel (S d) key (side d (key_bit key d) l))).
  { intros [|y [|z l]] Hl2; [cbn in Hl2; lia..|]. cbn [smt_prove]. by destruct (smt_prove fuel (S d) key (side d (key_bit key d) (y :: z :: l))). }
  rewrite !E by (cbn; lia). by rewrite (smt_perm _ _ _ _ (Hs (negb (key_bit key d)))), (IH _ _ _ (Hs (key_bit key d))).
Qed.

Lemma combine_seq {A} (a : A) : forall (l : list A) (bits : list bool), (length l <= length bits)%nat ->
  combine l bits = map (fun i => (nth i l a, nth i bits false)) (seq 0 (length l)).
Proof.
  induction l as [|y l IH]; intros [|b bits] Hl; cbn in Hl |- *; [done|done|lia|]. rewrite IH, <- seq_shift, map_map by lia. done.
Qed.

Lemma omap_map {A B C} (f : A -> B) (g : B -> option C) (l : list A) : omap g (map f l) = omap (fun i => g (f i)) l.
Proof. induction l as [|a l IH]; [done|]. cbn. by rewrite IH. Qed.

Lemma omap_ext_in {A B} (f g : A -> option B) (l : list A) : (forall a, a ∈ l -> f a = g a) -> omap f l = omap g l.
Proof. induction l as [|a l IH]; intros Hf; [done|]. cbn. rewrite Hf, IH by set_solver. done. Qed.

Lemma zeros_rights key R n : length R = n -> (n <= 256)%nat -> length (right_siblings R (iter_bits key)) = zeros key n.
Proof.
  intros <- Hl. unfold right_siblings. rewrite length_rev. destruct R as [|r R]; [done|]. rewrite (combine_seq r) by (rewrite iter_bits_length; done). rewrite omap_map.
  unfold zeros, zeros_from. generalize (seq 0 (length (r :: R))) as l. induction l as [|i l IH]; [done|]. cbn [omap list_omap fst snd]. rewrite filter_cons.
  change (nth i (iter_bits key) false) with (key_bit key i). destruct (key_bit key i); [rewrite decide_False by done; done|rewrite decide_True by done; cbn [length]; by rewrite <- IH].
Qed.

Lemma rights_elem key (sibs : list HV) h : (length sibs <= 256)%nat -> h ∈ right_siblings sibs (iter_bits key) <-> exists i, sibs !! i = Some h /\ key_bit key i = false.
Proof.
  intros Hl. unfold right_siblings. rewrite <- Permutation_rev. destruct sibs as [|h0 sibs']; [split; [by intros ?%not_elem_of_nil|by intros (i & ? & _)]|].
  set (sibs := h0 :: sibs') in *. rewrite (combine_seq h0) by (rewrite iter_bits_length; done). rewrite omap_map, list_elem_of_omap. cbn [fst snd]. split.
  - intros (i & Hi & E). apply elem_of_seq in Hi. change (nth i (iter_bits key) false) with (key_bit key i) in E. destruct (key_bit key i) eqn:Eb; [done|].
    exists i. split; [|done]. destruct (lookup_lt_is_Some_2 sibs i) as [h' Hh]; [lia|]. rewrite (nth_lookup_Some _ _ _ _ Hh) in E. by injection E as <-.
  - intros (i & Hi & Eb). exists i. split; [apply elem_of_seq; pose proof (lookup_lt_Some _ _ _ Hi); lia|]. change (nth i (iter_bits key) false) with (key_bit key i). rewrite Eb.
    by rewrite (nth_lookup_Some _ _ _ _ Hi).
Qed.

Lemma upto_beside key kvs kvs' : NoDup (map leaf_key kvs) -> kvs' ≡ₚ upto key kvs ->
  forall i, (i < 256)%nat -> key_bit key i = true -> beside 0 key i kvs' ≡ₚ beside 0 key i kvs.
Proof.
  intros Hnd Hp i Hi Eb. assert (Hnd' : NoDup kvs) by (by apply (NoDup_fmap_1 leaf_key)).
  assert (Hb : forall l, NoDup l -> NoDup (beside 0 key i l)) by (intros l Hl; unfold beside, side; apply NoDup_filter; rewrite path_is_filter; by apply NoDup_filter).
  apply NoDup_Permutation; [apply Hb; rewrite Hp; by apply NoDup_filter|by apply Hb|]. intros u. rewrite !beside_elem, Hp, upto_elem. split; [tauto|].
  intros (Hu & Ha & Ebu). split_and!; [done| |done|done]. right. apply klt_bits. exists i. rewrite Eb in Ebu. by split_and!.
Qed.

Lemma cut_exact L x kvs R m n : let key := account_key x in NoDup (map account_key L) -> NoDup (map leaf_key kvs) -> solid (things 256 0 (sl L)) ->
  sl L ≡ₚ upto key kvs -> (n <= 256)%nat -> length R = zeros key n -> path 0 n key kvs = [sparse_leaf_from x] ->
  (forall i, n = S i -> (2 <= length (path 0 i key kvs))%nat) -> cut L key (length R) 256 m -> m = n.
Proof.
  intros key HndL Hnd Hs Hp Hn HR Hpath Htwo [Hm Hr Hoff Hstop]. pose proof (upto_beside key kvs (sl L) Hnd Hp) as Hsame.
  assert (Hmn : (m <= n)%nat).
  { destruct (decide (m <= n)%nat) as [|Hgt]; [done|]. destruct m as [|i]; [lia|]. specialize (Hstop i eq_refl). pose proof (zeros_mono key n i ltac:(lia)) as Hz.
    destruct (key_bit key i) eqn:Eb; [|rewrite zeros_S, Eb in Hstop; lia]. exfalso. apply Hstop. unfold left_hash. rewrite (smt_perm _ _ _ _ (Hsame i ltac:(lia) Eb)).
    destruct (beside 0 key i kvs) as [|u l] eqn:Ebs; [by rewrite smt_nil|]. exfalso. assert (Hu : u ∈ beside 0 key i kvs) by (rewrite Ebs; left).
    apply beside_elem in Hu as (Hu & Ha & Hbu). assert (Hin : u ∈ path 0 n key kvs).
    { rewrite path_is_filter. apply list_elem_of_filter. split; [|done]. apply Forall_forall. intros j Hj. apply elem_of_seq in Hj. apply Ha. lia. }
    rewrite Hpath in Hin. apply list_elem_of_singleton in Hin as ->. cbn [sparse_leaf_from leaf_key] in Hbu. fold key in Hbu. by rewrite Eb in Hbu. }
  destruct (decide (m = n)) as [|Hne]; [done|]. exfalso. destruct n as [|i]; [lia|]. specialize (Hoff i ltac:(lia)). destruct (key_bit key i) eqn:Eb; [|lia].
  unfold left_hash in Hoff. apply solid_empty in Hoff; [|apply solid_beside; [lia|done]|lia|apply alike_beside; by rewrite sl_keys].
  assert (Ebs : beside 0 key i kvs = []) by (apply Permutation_nil; rewrite <- (Hsame i ltac:(lia) Eb), Hoff; done).
  rewrite path_S, Nat.add_0_l, Eb in Hpath. unfold beside in Ebs. rewrite Nat.add_0_l, Eb in Ebs. cbn [negb] in Ebs.
  pose proof (Permutation_length (sides_perm i (path 0 i key kvs))) as Hlen. rewrite length_app, Ebs, Hpath in Hlen. specialize (Htwo i eq_refl). cbn in Hlen. lia.
Qed.

(** The proof that the tree gives for the last leaf is accepted. *)
Lemma verify_complete s L x self kvs : let key := account_key x in
  StronglySorted by_key L -> waiting v s L x (partial_nodes self) -> previous_leaf self = Some x -> NoDup (map leaf_key kvs) ->
  expected_root_hash self = smt_root kvs -> solid (things 256 0 (sl L)) -> sl L ≡ₚ upto key kvs ->
  Restore_verify self (mkSparseMerkleRangeProof (right_siblings (smp_siblings (sparse_proof_of kvs key)) (iter_bits key))) = Ok tt.
Proof.
  intros key Hsort Hw Ex Hnd Er Hs Hp. pose proof (sorted_NoDup_keys L Hsort) as HndL. pose proof (wt_last _ _ _ _ _ Hw) as Hlast.
  assert (Hxin : sparse_leaf_from x ∈ kvs).
  { assert (HxL : x ∈ L) by (apply last_Some in Hlast as [L' ->]; apply elem_of_app; right; left).
    apply (list_elem_of_fmap_2 sparse_leaf_from) in HxL. change (sparse_leaf_from x ∈ sl L) in HxL. rewrite Hp, upto_elem in HxL. apply HxL. }
  pose proof (sparse_range_verify_complete kvs (sparse_leaf_from x) Hnd Hxin) as Hver. cbn zeta in Hver. cbn [sparse_leaf_from leaf_key] in Hver. fold key (sparse_leaf_from x) in Hver.
  set (sibs := smp_siblings (sparse_proof_of kvs key)) in *. set (proof := mkSparseMerkleRangeProof (right_siblings sibs (iter_bits key))) in *.
  assert (Hprove : forall i h, sibs !! i = Some h -> h = smt (255 - i) (S i) (beside 0 key i kvs) /\ (2 <= length (path 0 i key kvs))%nat).
  { intros i h Hi. apply prove_sibs in Hi as [-> Hl]. split; [|done]. rewrite Nat.add_0_l. by replace (256 - S i)%nat with (255 - i)%nat by lia. }
  pose proof (prove_bottom kvs (sparse_leaf_from x) Hnd Hxin) as Hbot. cbn zeta in Hbot. cbn [sparse_leaf_from leaf_key] in Hbot. fold key sibs (sparse_leaf_from x) in Hbot.
  destruct Hbot as [Hlen Hpath]. assert (HR : length (srp_right_siblings proof) = zeros key (length sibs)) by (by apply zeros_rights).
  pose proof (verify_runs s L x self proof HndL Hw Hs Ex) as Hrun. cbn zeta in Hrun. fold key in Hrun.
  rewrite decide_True in Hrun by (rewrite HR; apply zeros_mono; lia). destruct Hrun as (m & Hcut & ->). rewrite Er.
  assert (m = length sibs) as ->.
  { apply (cut_exact L x kvs (srp_right_siblings proof)); try done. intros i Ei. destruct (lookup_lt_is_Some_2 sibs i) as [h Hh]; [lia|]. by apply Hprove in Hh as [_ ?]. }
  rewrite <- Hver. f_equal. unfold left_siblings. f_equal. destruct sibs as [|h0 sibs'] eqn:Esibs; [done|]. rewrite <- Esibs in *.
  rewrite (combine_seq h0) by (rewrite iter_bits_length; lia). rewrite omap_map. unfold lefts, lefts_from. apply omap_ext_in. intros i Hi. apply elem_of_seq in Hi. cbn [fst snd].
  change (nth i (iter_bits key) false) with (key_bit key i). destruct (key_bit key i) eqn:Eb; [|done]. f_equal.
  destruct (lookup_lt_is_Some_2 sibs i) as [h Hh]; [lia|]. rewrite (nth_lookup_Some _ _ _ _ Hh). apply Hprove in Hh as [-> _].
  unfold left_hash. apply smt_perm. apply upto_beside; [done..|lia|done].
Qed.

(** The proof for a leaf has only placeholders on the right if it is the last one. *)
Lemma last_rights kvs u : let key := leaf_key u in NoDup (map leaf_key kvs) -> u ∈ kvs -> solid (things 256 0 kvs) ->
  no_rights (right_siblings (smp_siblings (sparse_proof_of kvs key)) (iter_bits key)) <-> upto key kvs = kvs.
Proof.
  intros key Hnd Hu Hs. pose proof (prove_bottom kvs u Hnd Hu) as [Hlen Hpath]. fold key in Hlen, Hpath. set (sibs := smp_siblings (sparse_proof_of kvs key)) in *.
  assert (Hprove : forall i h, sibs !! i = Some h -> h = smt (255 - i) (S i) (beside 0 key i kvs)).
  { intros i h Hi. apply prove_sibs in Hi as [-> _]. rewrite Nat.add_0_l. by replace (256 - S i)%nat with (255 - i)%nat by lia. }
  unfold no_rights. rewrite Forall_forall. split.
  - intros Hr. apply (upto_all key kvs (length sibs)); [done| |].
    + intros i Hi Eb. destruct (lookup_lt_is_Some_2 sibs i Hi) as [h Hh]. eapply solid_empty; [apply solid_beside; [lia|exact Hs]|lia|by apply alike_beside|].
      rewrite <- (Hprove i h Hh). apply Hr, rights_elem; [done|]. by exists i.
    + intros y Hy. rewrite Hpath in Hy. apply list_elem_of_singleton in Hy as ->. apply klt_irrefl.
  - intros Hall h Hh. apply rights_elem in Hh as (i & Hi & Eb); [|done]. rewrite (Hprove i h Hi).
    destruct (beside 0 key i kvs) as [|y l] eqn:Ebs; [by rewrite smt_nil|]. exfalso. assert (Hy : y ∈ beside 0 key i kvs) by (rewrite Ebs; left).
    apply beside_elem in Hy as (Hy & Ha & Eby). rewrite Eb in Eby. rewrite <- Hall in Hy. apply upto_elem in Hy as [_ Hle].
    assert (Hlt : klt key (leaf_key y)) by (apply klt_bits; exists i; pose proof (lookup_lt_Some _ _ _ Hi); split_and!; [lia|intros j Hj; symmetry; by apply Ha|done|done]).
    destruct Hle as [E|Hle]; [rewrite E in Hlt; by apply klt_irrefl in Hlt|by eapply klt_asym].
Qed.
End RestoreSound.
