(* ===== verification/JellyfishRestoreChunks.v ===== *)
(** * Restoring a tree: chunks

    The state between two chunks: the nodes that are written, or handed to the writer, are
    those of the leaves received so far, and the last leaf waits for the next one.  Every
    chunk that is accepted keeps it. *)
From stdpp Require Import base list numbers strings option gmap sorting.
From Stdlib Require Import ZArith Lia Bool Sorted.
From S2P Require Import Prelude Hash AccumulatorProof SparseMerkleProof SparseSpec SparseFacts SparseClash NibblePath NibblePathFacts ByteCodec JellyfishNode JellyfishNodeFacts JellyfishHash JellyfishSpec JellyfishTree JellyfishRead JellyfishRuns JellyfishBatch JellyfishUpdate JellyfishCommit JellyfishIterate JellyfishRestore JellyfishRestoreFacts JellyfishRestoreAdd JellyfishRestoreVerify JellyfishRestoreSound.

(** What the restore relies on of its storage: a node that is stored is read; a batch that
    is written replaces the nodes it has; after a failure each of them may be written or
    not. *)
Class TreeStoreLaws (HV K ST : Type) `{TreeStore HV K ST} := {
  stored : ST -> NodeKey -> option (Node HV K);
  stored_reads : forall st, reads (tree_reader st) (stored st);
  write_node_batch_spec : forall batch st,
    let '(st', r) := write_node_batch batch st in
    match r with
    | Ok _ => forall k, stored st' k = match batch !! k with Some n => Some n | None => stored st k end
    | _ => forall k, stored st' k = stored st k \/ (stored st' k = batch !! k /\ is_Some (batch !! k))
    end;
}.

Section RestoreChunks.
Context {HV : Type} `{HashValueOps HV} `{HashValueBits HV} `{!HashValueLaws HV} `{CryptoHasher HV}
  `{LeafHasher HV} `{HashValueKeys HV} `{!HashValueKeysLaws HV} {K : Type} `{KeyHash HV K}
  {ST : Type} `{TreeStore HV K ST} `{!TreeStoreLaws HV K ST}.
Context (v : Version).
Implicit Types (s : store (HV := HV) (K := K)) (L T : list (LeafNode HV K)) (x y z : LeafNode HV K)
  (P : list (InternalInfo HV K)) (key : HV) (self : JellyfishMerkleRestore HV K) (w : ST * JellyfishMerkleRestore HV K)
  (chunk : list (K * HV)) (kvs : list (SparseMerkleLeafNode HV)).

(** ** Stores that have the same nodes *)
Lemma put_sub s s' k n : extends s s' -> extends (put_at_key s k n) (put_at_key s' k n).
Proof. intros Hs j m. unfold put_at_key. case_decide; [done|]. apply Hs. Qed.

Lemma seen_sub s s' (fz : gmap NodeKey (Node HV K)) : extends s s' -> extends (seen s fz) (seen s' fz).
Proof. intros Hs k n. unfold seen. case_match; [done|]. apply Hs. Qed.

Lemma waiting_mono s s' L x P : extends s s' -> waiting v s L x P -> waiting v s' L x P.
Proof. intros Hs [Hl Hc Hsp]. split; [done|done|]. eapply spine_mono; [|exact Hsp]. by apply put_sub. Qed.

Lemma ready_mono s s' L key self self' : extends (seen s (frozen_nodes self)) (seen s' (frozen_nodes self')) ->
  partial_nodes self' = partial_nodes self -> num_keys_received self' = num_keys_received self -> ready v s L key self -> ready v s' L key self'.
Proof.
  intros Hs EP En [[Hn Hsp]|(Hn & x & Hx & Hw)]; unfold ready; rewrite EP, En; [left|right]; (split; [done|]).
  - by eapply spine_mono.
  - exists x. split; [done|]. by eapply waiting_mono.
Qed.

Lemma tidy_ext s s' L key n : extends s' s -> tidy v s L key n -> tidy v s' L key n.
Proof.
  intros Hs [Hp Hd]. split.
  - intros k node Hk E. apply Hp; [done|by apply Hs].
  - intros d Hlt. destruct (s' (pkey v (take d (key_nibbles key)))) as [node|] eqn:E; [|done]. apply Hs in E. by rewrite Hd in E.
Qed.

(** ** The state between two chunks *)

(** The nodes that are written, with those that were handed to the writer. *)
Definition disk w : store :=
  match async_commit_result (snd w) with
  | Some batch => seen (stored (fst w)) batch
  | None => stored (fst w)
  end.

(** The key of the last leaf; any key when there is none. *)
Definition last_key L : HV := default SPARSE_MERKLE_PLACEHOLDER_HASH (account_key <$> list.last L).

Lemma last_key_eq L x : list.last L = Some x -> last_key L = account_key x.
Proof. intros E. unfold last_key. by rewrite E. Qed.

Lemma last_key_snoc L x : last_key (L ++ [x]) = account_key x.
Proof. apply last_key_eq, last_snoc. Qed.

Record received L w : Prop := {
  rc_sorted : StronglySorted by_key L;
  rc_bound : Z.of_nat (length L) < U64;
  rc_version : jr_version (snd w) = v;
  rc_open : finished (snd w) = false;
  rc_previous : previous_leaf (snd w) = list.last L;
  rc_num : 0 <= num_keys_received (snd w) <= Z.of_nat (length L);
  rc_ready : ready v (disk w) L (last_key L) (snd w);
  rc_sync : async_commit_result (snd w) = None \/ async_commit (snd w) = true;
}.

(** Nothing else of the version is written. *)
Definition tidied L w : Prop := ready_tidy v (disk w) L (last_key L) (snd w).

(** After a restart, the next leaf must not be below a node that is complete. *)
Definition fits L self y : Prop :=
  num_keys_received self = 0 -> forall x c, list.last L = Some x -> parts (account_key x) (account_key y) c -> (c < length (partial_nodes self))%nat.

Lemma by_key_trans x y z : by_key x y -> by_key y z -> by_key x z.
Proof. unfold by_key. apply klt_trans. Qed.

Lemma leaves_sorted_snoc L y : StronglySorted by_key L -> (forall x, list.last L = Some x -> by_key x y) ->
  StronglySorted by_key (L ++ [y]) /\ Forall (fun z => klt (account_key z) (account_key y)) L.
Proof.
  intros Hs Hl. assert (Hall : Forall (fun z => klt (account_key z) (account_key y)) L).
  { apply Forall_forall. intros z Hz. destruct (list.last L) as [x|] eqn:El; [|apply last_None in El as ->; by apply not_elem_of_nil in Hz].
    specialize (Hl x eq_refl). destruct (sorted_last L x z Hs El Hz) as [->|Hlt]; [done|]. by eapply klt_trans. }
  split; [|done]. clear Hl. induction Hs as [|x L Hs IH Hf]; cbn; [by repeat constructor|]. apply Forall_cons in Hall as [Hx Hall].
  constructor; [by apply IH|]. apply Forall_app. split; [done|]. by repeat constructor.
Qed.

Lemma ensure_after key (x : option (LeafNode HV K)) :
  match x with
  | Some prev => ensure (match hv_cmp key (account_key prev) with Gt => true | _ => false end) "State keys must come in increasing order."
  | None => Ok tt
  end = Ok tt <-> (forall y, x = Some y -> klt (account_key y) key).
Proof.
  destruct x as [y|]; [|by split]. split.
  - intros E%ensure_Ok z [= <-]. pose proof (hv_cmp_cases key (account_key y)) as Hc. by destruct (hv_cmp key (account_key y)).
  - intros Hy. by rewrite (hv_cmp_gt _ _ (Hy y eq_refl)).
Qed.

(** One round of the loop. *)
Lemma add_leaf_spec L w nk vh chunk : let y := leaf_of v nk vh in
  received L w -> Z.of_nat (length L) + 1 < U64 -> (forall x, list.last L = Some x -> by_key x y) -> fits L (snd w) y ->
  exists self', add_leaves ((nk, vh) :: chunk) w = add_leaves chunk (fst w, self') /\ received (L ++ [y]) (fst w, self') /\
    num_keys_received self' = num_keys_received (snd w) + 1 /\ expected_root_hash self' = expected_root_hash (snd w) /\
    async_commit self' = async_commit (snd w) /\ async_commit_result self' = async_commit_result (snd w) /\
    (tidied L w -> tidied (L ++ [y]) (fst w, self')).
Proof.
  intros y [Hs Hb Ev Ho Ep Hn Hr Hsync] Hb' Hlast Hfit. destruct w as [st self]. cbn [fst snd] in *.
  destruct (leaves_sorted_snoc L y Hs Hlast) as [Hs' Hall].
  set (self1 := with_previous_leaf self (Some y)).
  destruct (add_one_spec v (disk (st, self)) L (last_key L) nk vh self1 Hs Hb Ev Hr (last_key_eq L) Hall Hfit) as (fz & P' & E & Hw & Ht). fold y in Hw, Ht.
  set (self' := with_num_keys_received (with_partial_nodes (with_frozen_nodes self1 fz) P') (num_keys_received self + 1)).
  exists self'. split_and!; [| |done..|].
  - cbn [add_leaves]. erewrite pbind_Ok; [|unfold reading; cbn [snd]; rewrite Ep; rewrite (proj2 (ensure_after (key_hash nk) (list.last L))) by exact Hlast; reflexivity].
    erewrite pbind_Ok; [|unfold update_restore; cbn [fst snd]; rewrite Ev; fold (leaf_of v nk vh) y self1; reflexivity].
    erewrite pbind_Ok; [|unfold update_restore; cbn [fst snd]; rewrite E; reflexivity].
    erewrite pbind_Ok; [|unfold update_restore; cbn [fst snd with_partial_nodes with_frozen_nodes num_keys_received]; rewrite add64_Ok by (cbn; lia); rewrite obind_Ok; reflexivity].
    reflexivity.
  - split; cbn [fst snd]; [done|rewrite length_app; cbn; lia|done|done| |rewrite length_app; cbn; lia| |done].
    + cbn. by rewrite last_snoc.
    + rewrite last_key_snoc. right. split; [cbn; lia|]. exists y. split; [done|exact Hw].
  - unfold tidied. rewrite last_key_snoc. intros Htd. unfold ready_tidy. cbn [snd self' with_num_keys_received frozen_nodes num_keys_received with_partial_nodes with_frozen_nodes].
    rewrite (proj2 (Z.eqb_neq _ _)) by lia. by apply Ht.
Qed.

(** ** The loop over a chunk *)
Definition chunk_leaves chunk : list (LeafNode HV K) := map (fun kv => leaf_of v (fst kv) (snd kv)) chunk.

Definition first_fits L self chunk : Prop := forall y, head (chunk_leaves chunk) = Some y -> fits L self y.

(** What the loop leaves alone. *)
Definition same_frame self self' : Prop :=
  expected_root_hash self' = expected_root_hash self /\ async_commit self' = async_commit self /\
  async_commit_result self' = async_commit_result self.

Lemma started_fits L self chunk : num_keys_received self <> 0 -> first_fits L self chunk.
Proof. by intros Hn y _ Hz. Qed.

Lemma sorted_next L y T : StronglySorted by_key (L ++ y :: T) -> forall x, list.last L = Some x -> by_key x y.
Proof. intros Hs x Hl. apply StronglySorted_app in Hs as (Hs & _). apply Hs; [|left]. apply last_Some in Hl as [L' ->]. apply elem_of_app. right. left. Qed.

Lemma add_leaves_spec : forall chunk L w, received L w -> Z.of_nat (length L + length chunk) < U64 ->
  StronglySorted by_key (L ++ chunk_leaves chunk) -> first_fits L (snd w) chunk ->
  exists self', add_leaves chunk w = ((fst w, self'), Ok tt) /\ received (L ++ chunk_leaves chunk) (fst w, self') /\
    num_keys_received self' = num_keys_received (snd w) + Z.of_nat (length chunk) /\ same_frame (snd w) self' /\
    (tidied L w -> tidied (L ++ chunk_leaves chunk) (fst w, self')).
Proof.
  induction chunk as [|[nk vh] chunk IH]; intros L w Hrc Hb Hs Hf.
  - exists (snd w). cbn [chunk_leaves map add_leaves]. rewrite app_nil_r. unfold pret. destruct w. cbn. split_and!; [done|done|lia|done|done].
  - cbn [chunk_leaves map] in *. fold (chunk_leaves chunk) in *. cbn [length] in Hb. pose proof (rc_num _ _ Hrc) as Hn.
    destruct (add_leaf_spec L w nk vh chunk Hrc ltac:(lia) (sorted_next _ _ _ Hs) (Hf _ eq_refl)) as (self1 & E & Hrc1 & En & Er & Ea & Ec & Ht).
    cbn [fst snd] in *. set (y := leaf_of v nk vh) in *.
    assert (El : L ++ y :: chunk_leaves chunk = (L ++ [y]) ++ chunk_leaves chunk) by (by rewrite <- app_assoc). rewrite El in *.
    destruct (IH (L ++ [y]) (fst w, self1) Hrc1) as (self' & E' & Hrc' & En' & (Er' & Ea' & Ec') & Ht'); cbn [fst snd] in *.
    + rewrite length_app. cbn. lia.
    + done.
    + apply started_fits. lia.
    + exists self'. rewrite E, E'. split_and!; [done|done|cbn; lia| |by auto]. split_and!; congruence.
Qed.

Lemma add_leaves_sorted : forall chunk L w w', received L w -> Z.of_nat (length L + length chunk) < U64 -> first_fits L (snd w) chunk ->
  add_leaves chunk w = (w', Ok tt) -> StronglySorted by_key (L ++ chunk_leaves chunk).
Proof.
  induction chunk as [|[nk vh] chunk IH]; intros L w w' Hrc Hb Hf E; cbn [chunk_leaves map].
  - rewrite app_nil_r. apply Hrc.
  - cbn [length] in Hb. fold (chunk_leaves chunk). pose proof (rc_num _ _ Hrc) as Hn.
    assert (Hlast : forall x, list.last L = Some x -> by_key x (leaf_of v nk vh)).
    { cbn [add_leaves] in E. apply pbind_inv in E as [(w1 & a & E1 & _)|[(e & _ & ?)|(e & _ & ?)]]; [|done..].
      unfold reading in E1. injection E1 as _ E1. destruct a. rewrite (rc_previous _ _ Hrc) in E1. exact (proj1 (ensure_after (key_hash nk) _) E1). }
    destruct (add_leaf_spec L w nk vh chunk Hrc ltac:(lia) Hlast (Hf _ eq_refl)) as (self1 & E' & Hrc1 & En & _).
    rewrite E' in E. set (y := leaf_of v nk vh) in *. assert (El : L ++ y :: chunk_leaves chunk = (L ++ [y]) ++ chunk_leaves chunk) by (by rewrite <- app_assoc).
    cbn [fst snd]. fold y. rewrite El. eapply IH; [exact Hrc1|rewrite length_app; cbn; lia|apply started_fits; cbn [snd]; lia|exact E].
Qed.

(** ** Writing *)
Definition writes_work : Prop := forall (batch : gmap NodeKey (Node HV K)) (st : ST), exists st', write_node_batch batch st = (st', Ok tt).

(** [w'] has the same leaves as [w], and no frozen nodes that are not handed to the writer. *)
Record flushed w w' : Prop := {
  fl_empty : frozen_nodes (snd w') = ∅;
  fl_disk : forall k, disk w' k = seen (disk w) (frozen_nodes (snd w)) k;
  fl_partial : partial_nodes (snd w') = partial_nodes (snd w);
  fl_previous : previous_leaf (snd w') = previous_leaf (snd w);
  fl_num : num_keys_received (snd w') = num_keys_received (snd w);
  fl_version : jr_version (snd w') = jr_version (snd w);
  fl_finished : finished (snd w') = finished (snd w);
  fl_root : expected_root_hash (snd w') = expected_root_hash (snd w);
  fl_async : async_commit (snd w') = async_commit (snd w);
  fl_sync : async_commit_result (snd w') = None \/ async_commit (snd w') = true;
}.

Lemma write_nodes_inv batch w w' : write_nodes batch w = (w', Ok tt) ->
  snd w' = snd w /\ forall k, stored (fst w') k = seen (stored (fst w)) batch k.
Proof.
  unfold write_nodes. pose proof (write_node_batch_spec batch (fst w)) as Hw. destruct (write_node_batch batch (fst w)) as [st r].
  intros [= <- ->]. split; [done|exact Hw].
Qed.

Lemma wait_inv w w' : wait_for_async_commit w = (w', Ok tt) ->
  snd w' = with_async_commit_result (snd w) None /\ forall k, stored (fst w') k = disk w k.
Proof.
  unfold wait_for_async_commit, disk. destruct (async_commit_result (snd w)) as [batch|] eqn:E.
  - intros Hw. apply write_nodes_inv in Hw as [E1 E2]. cbn [fst snd] in *. done.
  - intros [= <-]. split; [|done]. destruct w as [st [? ? ? ? ? ? ? ? ?]]. cbn in *. by rewrite E.
Qed.

Lemma seen_ext s s' (fz : gmap NodeKey (Node HV K)) k : s k = s' k -> seen s fz k = seen s' fz k.
Proof. unfold seen. by case_match. Qed.

Lemma flush_inv w w' : async_commit_result (snd w) = None \/ async_commit (snd w) = true -> flush_frozen w = (w', Ok tt) -> flushed w w'.
Proof.
  intros Hsync E. unfold flush_frozen in E. destruct (async_commit (snd w)) eqn:Ea.
  - apply pbind_inv in E as [(w1 & [] & E1 & E2)|[(e & _ & ?)|(e & _ & ?)]]; [|done..]. apply wait_inv in E1 as [E1 Ed]. injection E2 as <-.
    cbn [fst snd]. split; cbn [fst snd]; rewrite ?E1; try done; [|by right]. intros k. unfold disk at 1. cbn. by apply seen_ext.
  - destruct Hsync as [Hnone|]; [|done].
    apply pbind_inv in E as [(w1 & [] & E1 & E2)|[(e & _ & ?)|(e & _ & ?)]]; [|done..]. apply write_nodes_inv in E1 as [E1 Ed]. injection E2 as <-.
    cbn [fst snd]. split; cbn [fst snd]; rewrite ?E1; try done; [|by left]. intros k. unfold disk. cbn. rewrite Hnone. apply Ed.
Qed.

Lemma flush_works w : writes_work -> exists w', flush_frozen w = (w', Ok tt).
Proof.
  intros Hw. unfold flush_frozen, wait_for_async_commit, write_nodes. destruct (async_commit (snd w)).
  - destruct (async_commit_result (snd w)) as [batch|] eqn:E.
    + destruct (Hw batch (fst w)) as [st' Ew]. eexists. erewrite pbind_Ok; [reflexivity|]. rewrite E. cbn [fst snd]. by rewrite Ew.
    + eexists. erewrite pbind_Ok; [reflexivity|]. by rewrite E.
  - destruct (Hw (frozen_nodes (snd w)) (fst w)) as [st' Ew]. eexists. erewrite pbind_Ok; [reflexivity|]. by rewrite Ew.
Qed.

Lemma seen_empty s k : seen s (∅ : gmap NodeKey (Node HV K)) k = s k.
Proof. unfold seen. by rewrite lookup_empty. Qed.

Lemma flushed_store w w' k : flushed w w' -> seen (disk w') (frozen_nodes (snd w')) k = seen (disk w) (frozen_nodes (snd w)) k.
Proof. intros Hf. rewrite (fl_empty _ _ Hf), seen_empty. apply Hf. Qed.

Lemma flushed_received L w w' : flushed w w' -> received L w -> received L w'.
Proof.
  intros Hf [Hs Hb Ev Ho Ep Hn Hr _]. pose proof Hf as [E0 Ed E1 E2 E3 E4 E5 E6 E7 E8]. split; [done|done|congruence|congruence|congruence|by rewrite E3| |done].
  eapply ready_mono; [|exact E1|exact E3|exact Hr]. intros k n. by rewrite (flushed_store _ _ _ Hf).
Qed.

Lemma flushed_tidied L w w' : flushed w w' -> tidied L w -> tidied L w'.
Proof.
  intros Hf. unfold tidied, ready_tidy. rewrite (fl_num _ _ Hf), (fl_partial _ _ Hf). apply tidy_ext. intros k n. by rewrite (flushed_store _ _ _ Hf).
Qed.

(** ** A chunk *)

(** A proof was accepted for the leaves [M]. *)
Definition accepted M (proof : SparseMerkleRangeProof HV) (root : HV) : Prop :=
  exists s self x, waiting v s M x (partial_nodes self) /\ previous_leaf self = Some x /\ expected_root_hash self = root /\ Restore_verify self proof = Ok tt.

Lemma accepted_sound M proof kvs : StronglySorted by_key M -> NoDup (map leaf_key kvs) -> accepted M proof (smt_root kvs) ->
  exists x, list.last M = Some x /\
    ((sl M ≡ₚ upto (account_key x) kvs /\ (no_rights (srp_right_siblings proof) -> upto (account_key x) kvs = kvs)) \/
     exists m, (m <= 256)%nat /\ clash (things 256 0 kvs ++ things 256 0 (sl M) ++ checked M x (srp_right_siblings proof) m)).
Proof. intros Hs Hnd (s & self & x & Hw & Ex & Er & Hv). exists x. split; [apply Hw|]. by eapply verify_sound. Qed.

(** The state when the leaves of the chunk are added. *)
Lemma received_waiting L w : received L w -> num_keys_received (snd w) <> 0 ->
  exists x, list.last L = Some x /\ previous_leaf (snd w) = Some x /\ waiting v (seen (disk w) (frozen_nodes (snd w))) L x (partial_nodes (snd w)).
Proof.
  intros Hrc Hn. destruct (rc_ready _ _ Hrc) as [[Hz _]|(_ & x & _ & Hw)]; [done|]. pose proof (wt_last _ _ _ _ _ Hw) as Hl.
  exists x. rewrite (rc_previous _ _ Hrc). done.
Qed.

Lemma add_chunk_runs L w chunk proof : let c := skip_known (snd w) chunk in let M := L ++ chunk_leaves c in
  received L w -> c <> [] -> Z.of_nat (length L + length c) < U64 -> StronglySorted by_key M -> first_fits L (snd w) c ->
  exists self', received M (fst w, self') /\ num_keys_received self' <> 0 /\ same_frame (snd w) self' /\ (tidied L w -> tidied M (fst w, self')) /\
    add_chunk_impl chunk proof w =
    match Restore_verify self' proof with
    | Ok _ => flush_frozen (fst w, self')
    | Err e => ((fst w, self'), Err e)
    | Panic e => ((fst w, self'), Panic e)
    end.
Proof.
  intros c M Hrc Hc Hb Hs Hf. destruct (add_leaves_spec c L w Hrc Hb Hs Hf) as (self' & E & Hrc' & En & Hfr & Ht). fold M in Hrc', Ht.
  exists self'. pose proof (rc_num _ _ Hrc) as Hn. assert (Hl : (0 < length c)%nat) by (destruct c; [done|cbn; lia]). split_and!; [done|lia|done|done|].
  unfold add_chunk_impl. rewrite (rc_open _ _ Hrc). fold c. destruct c as [|kv c']; [done|]. rewrite (pbind_Ok _ _ _ _ _ E).
  unfold pbind, reading. cbn [snd]. by destruct (Restore_verify self' proof).
Qed.

Lemma add_chunk_received L w chunk proof w' : let c := skip_known (snd w) chunk in let M := L ++ chunk_leaves c in
  received L w -> Z.of_nat (length L + length c) < U64 -> first_fits L (snd w) c -> add_chunk_impl chunk proof w = (w', Ok tt) ->
  (c = [] /\ w' = w) \/
  (c <> [] /\ received M w' /\ num_keys_received (snd w') <> 0 /\ frozen_nodes (snd w') = ∅ /\
   expected_root_hash (snd w') = expected_root_hash (snd w) /\ async_commit (snd w') = async_commit (snd w) /\
   (tidied L w -> tidied M w') /\ accepted M proof (expected_root_hash (snd w))).
Proof.
  intros c M Hrc Hb Hf E. destruct (decide (c = [])) as [Hc|Hc].
  { left. split; [done|]. unfold add_chunk_impl in E. rewrite (rc_open _ _ Hrc) in E. fold c in E. rewrite Hc in E. by injection E as <-. }
  right. split; [done|]. assert (Hs : StronglySorted by_key M).
  { unfold add_chunk_impl in E. rewrite (rc_open _ _ Hrc) in E. fold c in E. destruct c as [|kv c'] eqn:Ec; [done|]. rewrite <- Ec in *.
    apply pbind_inv in E as [(w1 & [] & E1 & _)|[(e & _ & ?)|(e & _ & ?)]]; [|done..]. unfold M. rewrite <- Ec. by eapply add_leaves_sorted. }
  destruct (add_chunk_runs L w chunk proof Hrc Hc Hb Hs Hf) as (self' & Hrc' & Hn & (Er & Ea & Ec) & Ht & Erun). fold c M in Hrc', Ht.
  rewrite Erun in E. destruct (Restore_verify self' proof) as [[]|e|e] eqn:Ev; [|done..].
  apply flush_inv in E; [|apply (rc_sync _ _ Hrc')]. pose proof E as [E0 _ _ _ E3 _ _ E6 E7 _]. cbn [fst snd] in *.
  destruct (received_waiting M (fst w, self') Hrc' Hn) as (x & _ & Ex & Hw).
  split_and!; [by eapply flushed_received|by rewrite E3|done|congruence|congruence|intros Htd; eapply flushed_tidied; [done|by apply Ht]|].
  exists (seen (disk (fst w, self')) (frozen_nodes self')), self', x. by split_and!.
Qed.
End RestoreChunks.
