(* ===== verification/JellyfishRestoreFinish.v ===== *)
(** * Restoring a tree: the end

    The nodes that are left are frozen, and the root with them; a tree with one leaf, or
    none, is a single node. *)
From stdpp Require Import base list numbers strings option gmap sorting.
From Stdlib Require Import ZArith Lia Bool Sorted.
From S2P Require Import Prelude Hash AccumulatorProof SparseMerkleProof SparseSpec SparseFacts SparseClash NibblePath NibblePathFacts ByteCodec JellyfishNode JellyfishNodeFacts JellyfishHash JellyfishSpec JellyfishTree JellyfishRead JellyfishRuns JellyfishBatch JellyfishUpdate JellyfishCommit JellyfishHistory JellyfishIterate JellyfishRestore JellyfishRestoreFacts JellyfishRestoreAdd JellyfishRestoreVerify JellyfishRestoreSound JellyfishRestoreChunks.

Section RestoreFinish.
Context {HV : Type} `{HashValueOps HV} `{HashValueBits HV} `{!HashValueLaws HV} `{CryptoHasher HV}
  `{LeafHasher HV} `{HashValueKeys HV} `{!HashValueKeysLaws HV} {K : Type} `{KeyHash HV K}
  {ST : Type} `{TreeStore HV K ST} `{!TreeStoreLaws HV K ST}.
Context (v : Version).
Implicit Types (s : store (HV := HV) (K := K)) (L T : list (LeafNode HV K)) (x y z : LeafNode HV K)
  (P : list (InternalInfo HV K)) (info : InternalInfo HV K) (key : HV) (self : JellyfishMerkleRestore HV K) (w : ST * JellyfishMerkleRestore HV K)
  (chunk : list (K * HV)) (kvs : list (SparseMerkleLeafNode HV)).

(** ** The children of the root *)
Lemma count_fold : forall (cs : list (option (ChildInfo HV K))) (n : nat) (l : option (LeafNode HV K)),
  let r := fold_left (fun '(num_children, leaf) child =>
    match child with
    | Some (ChildInfo_Leaf node) => (S num_children, Some node)
    | Some _ => (S num_children, leaf)
    | None => (num_children, leaf)
    end) cs (n, l) in
  (n <= fst r)%nat /\ (fst r = n -> snd r = l /\ forall j c, cs !! j = Some c -> c = None) /\
  (fst r = S n -> exists i ci, cs !! i = Some (Some ci) /\ (forall j c, cs !! j = Some c -> j <> i -> c = None) /\
    snd r = match ci with ChildInfo_Leaf y => Some y | _ => l end).
Proof.
  induction cs as [|c cs IH]; intros n l; cbn [fold_left].
  - cbn. split_and!; [lia|by intros _|lia].
  - destruct c as [ci|].
    + assert (E : exists l1, match ci with ChildInfo_Leaf node => (S n, Some node) | _ => (S n, l) end = (S n, l1) /\ l1 = match ci with ChildInfo_Leaf y => Some y | _ => l end) by (destruct ci; eauto).
      destruct E as (l1 & E & El). rewrite E. destruct (IH (S n) l1) as (Hle & Hz & _). split_and!; [lia|lia|]. intros E1. destruct (Hz E1) as [E2 Hnone].
      exists O, ci. split_and!; [done| |congruence]. intros [|j] c Hj Hne; [done|]. by apply (Hnone j).
    + destruct (IH n l) as (Hle & Hz & Ho). split_and!; [done| |].
      * intros E. destruct (Hz E) as [E2 Hnone]. split; [done|]. intros [|j] c Hj; [by injection Hj as <-|by apply (Hnone j)].
      * intros E. destruct (Ho E) as (i & ci & Hi & Hne & E2). exists (S i), ci. split_and!; [done| |done].
        intros [|j] c Hj Hd; [by injection Hj as <-|]. apply (Hne j); [done|congruence].
Qed.

(** A leaf is below a child of the root. *)
Lemma root_child s L info z : node_at v s L [] None info -> z ∈ L ->
  exists ci, ii_children info !! Z.to_nat (nib (account_key z) 0) = Some (Some ci) /\
    frozen_child v s [nib (account_key z) 0] (under [nib (account_key z) 0] L) (Some ci).
Proof.
  intros (_ & H16 & Hc) Hz. pose proof (nib_ok (account_key z) 0 ltac:(lia)) as Hn.
  destruct (lookup_lt_is_Some_2 (ii_children info) (Z.to_nat (nib (account_key z) 0))) as [c Ec]; [unfold nibble_ok in Hn; lia|].
  pose proof (Hc _ c Hn ltac:(done) Ec) as Hf. cbn [app] in Hf. destruct c as [ci|]; [by exists ci|]. exfalso. cbn [frozen_child] in Hf.
  assert (Hin : z ∈ under [nib (account_key z) 0] L) by (apply under_elem; split; [|done]; pose proof (starts_own (account_key z) 1 ltac:(lia)) as Hs; by rewrite path_snoc in Hs by lia).
  rewrite Hf in Hin. by apply not_elem_of_nil in Hin.
Qed.

Lemma count_none s L info : node_at v s L [] None info -> fst (count_children (ii_children info)) = O -> L = [].
Proof.
  intros Hn Hc. destruct (count_fold (ii_children info) 0 None) as (_ & Hz & _). destruct (Hz Hc) as [_ Hnone]. destruct L as [|z L]; [done|].
  destruct (root_child _ _ _ z Hn ltac:(left)) as (ci & Hi & _). by apply Hnone in Hi.
Qed.

Lemma count_empty s info : node_at v s [] [] None info -> fst (count_children (ii_children info)) = O.
Proof.
  intros (_ & H16 & Hf). assert (Hnone : forall c, c ∈ ii_children info -> c = None).
  { intros c Hc. apply list_elem_of_lookup in Hc as [i Hi]. pose proof (lookup_lt_Some _ _ _ Hi) as Hlt. specialize (Hf (Z.of_nat i) c). rewrite Nat2Z.id in Hf.
    eapply frozen_none. by apply Hf; [unfold nibble_ok; lia| |]. }
  unfold count_children. clear H16 Hf. induction (ii_children info) as [|c cs IH]; [done|]. rewrite (Hnone c ltac:(left)). cbn [fold_left]. apply IH. intros c' Hc'. apply Hnone. by right.
Qed.

Lemma count_one s L info y : node_at v s L [] None info -> count_children (ii_children info) = (1%nat, Some y) -> L = [y].
Proof.
  intros Hn Hc. destruct (count_fold (ii_children info) 0 None) as (_ & _ & Ho). unfold count_children in Hc. rewrite Hc in Ho.
  destruct (Ho eq_refl) as (i & ci & Hi & Hne & Ey). cbn [snd] in Ey. destruct ci as [|y']; [done|]. injection Ey as ->.
  assert (HL : L <> []).
  { intros ->. pose proof (lookup_lt_Some _ _ _ Hi) as Hlt. destruct Hn as (_ & H16 & Hf). specialize (Hf (Z.of_nat i) (Some (ChildInfo_Leaf y'))).
    rewrite Nat2Z.id in Hf. by destruct Hf as [? _]; [unfold nibble_ok; lia|done|done|]. }
  assert (Hall : forall z, z ∈ L -> under [nib (account_key z) 0] L = [y'] /\ Z.to_nat (nib (account_key z) 0) = i).
  { intros z Hz. destruct (root_child _ _ _ z Hn Hz) as (ci & Hci & Hf). destruct (decide (Z.to_nat (nib (account_key z) 0) = i)) as [E|E]; [|by apply Hne in Hci].
    rewrite E, Hi in Hci. injection Hci as <-. cbn [frozen_child] in Hf. by destruct Hf as [-> _]. }
  destruct L as [|z L]; [done|]. destruct (Hall z ltac:(left)) as [<- Ez]. symmetry. apply filter_all, Forall_forall. intros u Hu. destruct (Hall u Hu) as [_ Eu].
  pose proof (nib_ok (account_key z) 0 ltac:(lia)) as Hz0. pose proof (nib_ok (account_key u) 0 ltac:(lia)) as Hu0. unfold nibble_ok in *.
  replace (nib (account_key z) 0) with (nib (account_key u) 0) by lia. pose proof (starts_own (account_key u) 1 ltac:(lia)) as Hs. by rewrite path_snoc in Hs by lia.
Qed.

(** ** Freezing everything *)
Lemma freeze_loop_app self : forall n m, freeze_internal_loop (n + m) self = (self' ← freeze_internal_loop n self; freeze_internal_loop m self').
Proof.
  intros n. revert self. induction n as [|n IH]; intros self m; cbn [Nat.add freeze_internal_loop]; [by rewrite obind_Ok|].
  destruct (freeze_last_node self) as [self'|e|e]; [|done..]. rewrite !obind_Ok. apply IH.
Qed.

Lemma freeze_root_spec s L key info self : NoDup (map account_key L) -> Z.of_nat (length L) < U64 -> L <> [] ->
  jr_version self = v -> partial_nodes self = [info] -> spine v (seen s (frozen_nodes self)) L key [info] ->
  exists fz, freeze_last_node self = Ok (with_partial_nodes (with_frozen_nodes self fz) []) /\ tree_at (seen s fz) v L.
Proof.
  intros Hnd Hb HL Ev EP [[_ Hn _ _] _]. specialize (Hn O info eq_refl). cbn in Hn.
  destruct (complete_node v _ L [] info (Forall_nil_2 _) ltac:(cbn; lia) Hnd Hb Hn ltac:(by right)) as (node & Ei & Hrep & Eh & _). rewrite under_nil in Hrep.
  exists (<[pkey v [] := Node_Internal node]> (frozen_nodes self)). split.
  - unfold freeze_last_node. rewrite EP. change [info] with ([] ++ [info]). rewrite vec_pop_snoc. cbn [expect]. rewrite obind_Ok, Ev, Ei, obind_Ok, Eh, obind_Ok. done.
  - split; [done|]. exists (Node_Internal node). change (mkNodeKey v (pack [])) with (pkey v []). rewrite seen_insert. unfold put_at_key at 1. rewrite decide_True by done. split; [done|]. right.
    eapply represents_local; [exact Hrep|constructor|]. intros k n Ek (r & Hr & Er). rewrite seen_insert. unfold put_at_key. rewrite decide_False; [done|].
    intros ->. cbn [pkey nk_nibble_path] in Er. rewrite unpack_pack in Er by constructor. by destruct r.
Qed.

Lemma freeze_all_spec s L key self : NoDup (map account_key L) -> Z.of_nat (length L) < U64 -> L <> [] -> jr_version self = v -> ready v s L key self ->
  exists fz, freeze self 0 = Ok (with_partial_nodes (with_frozen_nodes self fz) []) /\ tree_at (seen s fz) v L.
Proof.
  intros Hnd Hb HL Ev Hr. destruct (ready_settle v s L key self Ev Hr) as [E Hsp]. pose proof Hsp as [[Hlen _ _ _] _]. unfold freeze. rewrite E, obind_Ok. unfold freeze_internal_nodes.
  cbn [with_frozen_nodes partial_nodes]. rewrite Nat.sub_0_r. replace (length (partial_nodes self)) with (length (partial_nodes self) - 1 + 1)%nat by lia. rewrite freeze_loop_app.
  destruct (freeze_internal_spec v s L key Hnd Hb (length (partial_nodes self) - 1) (with_frozen_nodes self (after_leaf v L self))) as (fz & P' & El & E' & Hsp' & _); [done|cbn; lia|done|].
  rewrite E', obind_Ok. cbn [with_frozen_nodes partial_nodes] in El. destruct P' as [|info [|]]; [cbn in El; lia| |cbn in El; lia].
  destruct (freeze_root_spec s L key info (with_partial_nodes (with_frozen_nodes (with_frozen_nodes self (after_leaf v L self)) fz) [info])) as (fz' & E2 & Ht); try done.
  exists fz'. split; [|done]. cbn [freeze_internal_loop]. rewrite E2, obind_Ok. done.
Qed.

(** ** [finish_impl] *)
Lemma finish_single_runs node w : jr_version (snd w) = v -> frozen_nodes (snd w) = ∅ ->
  exists self', finish_single node w = write_nodes {[pkey v [] := node]} (fst w, self').
Proof.
  intros Ev Ez. eexists. unfold finish_single. erewrite pbind_Ok.
  2:{ unfold update_restore. rewrite Ev, new_empty_path_pack, obind_Ok, Ez, assert_true, obind_Ok by (by apply bool_decide_eq_true). reflexivity. }
  cbn [fst snd with_frozen_nodes frozen_nodes]. by rewrite insert_empty.
Qed.

Lemma single_tree s L (node : Node HV K) : (L = [] /\ node = Node_Null) \/ (exists y, L = [y] /\ node = Node_Leaf y) ->
  tree_at (seen s {[pkey v [] := node]}) v L.
Proof.
  intros Hn. split; [destruct Hn as [[-> _]|(y & -> & _)]; [constructor|apply NoDup_singleton]|]. exists node. unfold seen. change (mkNodeKey v (pack [])) with (pkey v []).
  rewrite lookup_singleton_eq. split; [done|]. destruct Hn as [[-> ->]|(y & -> & ->)]; [by left|right; constructor].
Qed.

(** After the last batch is written, one more batch is, with the root. *)
Lemma finish_runs L w : received v L w -> frozen_nodes (snd w) = ∅ \/ (2 <= length L)%nat -> async_commit_result (snd w) = None ->
  exists batch self', finish_impl w = write_nodes batch (fst w, self') /\ tree_at (seen (stored (fst w)) batch) v L.
Proof.
  intros [Hs Hb Ev _ _ _ Hr _] Ez Er. pose proof (sorted_NoDup_keys L Hs) as Hnd. assert (Ed : disk w = stored (fst w)) by (unfold disk; by rewrite Er). rewrite Ed in Hr.
  assert (Hrest : L <> [] -> exists batch self', (_ <~ update_restore (fun self => freeze self 0); fun w => write_nodes (frozen_nodes (snd w)) w) w = write_nodes batch (fst w, self') /\
    tree_at (seen (stored (fst w)) batch) v L).
  { intros HL. destruct (freeze_all_spec (stored (fst w)) L (last_key L) (snd w) Hnd Hb HL Ev Hr) as (fz & E & Ht). exists fz. eexists. split; [|exact Ht].
    erewrite pbind_Ok; [|unfold update_restore; rewrite E; reflexivity]. reflexivity. }
  pose proof (ready_settle v (stored (fst w)) L (last_key L) (snd w) Ev Hr) as [_ Hsp]. pose proof Hsp as [Hsk Hmany].
  assert (Hroot : forall info, partial_nodes (snd w) = [info] -> node_at v (seen (stored (fst w)) (after_leaf v L (snd w))) L [] None info).
  { intros info EP. rewrite EP in Hsk. apply (sk_node _ _ _ _ _ Hsk O info). done. }
  assert (Hmore : length (partial_nodes (snd w)) <> 1%nat -> L <> []).
  { intros Hl ->. pose proof (sk_len _ _ _ _ _ Hsk). specialize (Hmany 1%nat ltac:(lia)). cbn in Hmany. lia. }
  unfold finish_impl. erewrite pbind_Ok; [|unfold wait_for_async_commit; rewrite Er; reflexivity].
  destruct (partial_nodes (snd w)) as [|info [|info' P]] eqn:EP; [apply Hrest, Hmore; done| |apply Hrest, Hmore; done].
  specialize (Hroot info eq_refl). destruct (count_children (ii_children info)) as [[|[|n]] l] eqn:Ec.
  - rewrite (count_none _ _ _ Hroot) in Ez |- * by (by rewrite Ec). destruct Ez as [Ez|Hl]; [|cbn in Hl; lia]. destruct (finish_single_runs Node_Null w Ev Ez) as [self' E]. eexists _, self'. split; [exact E|]. apply single_tree. by left.
  - destruct l as [y|].
    + rewrite (count_one _ _ _ _ Hroot Ec) in Ez |- *. destruct Ez as [Ez|Hl]; [|cbn in Hl; lia]. destruct (finish_single_runs (Node_Leaf y) w Ev Ez) as [self' E]. eexists _, self'. split; [exact E|]. apply single_tree. right. by exists y.
    + apply Hrest. intros ->. pose proof (count_empty _ _ Hroot) as E. rewrite Ec in E. done.
  - apply Hrest. intros ->. pose proof (count_empty _ _ Hroot) as E. rewrite Ec in E. done.
Qed.

Lemma wait_received L w w' : received v L w -> wait_for_async_commit w = (w', Ok tt) ->
  received v L w' /\ frozen_nodes (snd w') = frozen_nodes (snd w) /\ async_commit_result (snd w') = None.
Proof.
  intros [Hs Hb Ev Ho Ep Hn Hr Hsync] E. apply wait_inv in E as [E Ed]. assert (En : async_commit_result (snd w') = None) by (by rewrite E).
  split_and!; [|by rewrite E|done]. split; rewrite ?E; try done; [|by left]. eapply ready_mono; [|done|done|exact Hr].
  intros k n. cbn [with_async_commit_result frozen_nodes]. rewrite (seen_ext (disk w) (disk w')); [done|]. rewrite <- Ed. unfold disk. by rewrite En.
Qed.

Lemma finish_after_wait w w' : wait_for_async_commit w = (w', Ok tt) -> async_commit_result (snd w') = None -> finish_impl w = finish_impl w'.
Proof.
  intros E En. unfold finish_impl. etrans; [apply (pbind_Ok _ _ _ _ _ E)|]. symmetry. refine (pbind_Ok _ _ _ _ _ _). unfold wait_for_async_commit. by rewrite En.
Qed.

Lemma finish_tree L w w' : received v L w -> frozen_nodes (snd w) = ∅ \/ (2 <= length L)%nat -> finish_impl w = (w', Ok tt) ->
  tree_at (stored (fst w')) v L.
Proof.
  intros Hrc Ez E. assert (Hwait : exists w1, wait_for_async_commit w = (w1, Ok tt)).
  { unfold finish_impl in E. apply pbind_inv in E as [(w1 & [] & E1 & _)|[(e & _ & ?)|(e & _ & ?)]]; [by exists w1|done..]. }
  destruct Hwait as [w1 E1]. destruct (wait_received L w w1 Hrc E1) as (Hrc1 & Ez1 & En1). rewrite (finish_after_wait w w1 E1 En1) in E.
  destruct (finish_runs L w1 Hrc1 ltac:(by rewrite Ez1) En1) as (batch & self' & Er & Ht). rewrite Er in E. apply write_nodes_inv in E as [_ Ew]. cbn [fst] in Ew.
  eapply tree_at_mono; [|exact Ht]. intros k n Hk. by rewrite Ew.
Qed.

Lemma finish_works L w : received v L w -> frozen_nodes (snd w) = ∅ \/ (2 <= length L)%nat -> writes_work (HV := HV) (K := K) (ST := ST) -> exists w', finish_impl w = (w', Ok tt).
Proof.
  intros Hrc Ez Hw. assert (Hwait : exists w1, wait_for_async_commit w = (w1, Ok tt)).
  { unfold wait_for_async_commit, write_nodes. destruct (async_commit_result (snd w)) as [batch|]; [|by eexists]. cbn [fst]. destruct (Hw batch (fst w)) as [st' ->]. by eexists. }
  destruct Hwait as [w1 E1]. destruct (wait_received L w w1 Hrc E1) as (Hrc1 & Ez1 & En1). rewrite (finish_after_wait w w1 E1 En1).
  destruct (finish_runs L w1 Hrc1 ltac:(by rewrite Ez1) En1) as (batch & self' & Er & _). rewrite Er. unfold write_nodes. cbn [fst]. destruct (Hw batch (fst w1)) as [st' ->]. by eexists.
Qed.
End RestoreFinish.
