(* ===== verification/JellyfishRestoreRun.v ===== *)
(** * Restoring a tree: whole runs

    The states that are reached by chunks that were accepted, and the chunks of a tree
    that is backed up, in order, perhaps with leaves that were received before. *)
From stdpp Require Import base list numbers strings option gmap sorting.
From Stdlib Require Import ZArith Lia Bool Sorted.
From S2P Require Import Prelude Hash AccumulatorProof SparseMerkleProof SparseSpec SparseFacts SparseClash NibblePath NibblePathFacts ByteCodec JellyfishNode JellyfishNodeFacts JellyfishHash JellyfishSpec JellyfishTree JellyfishRead JellyfishRuns JellyfishBatch JellyfishUpdate JellyfishCommit JellyfishHistory JellyfishIterate JellyfishRestore JellyfishRestoreFacts JellyfishRestoreAdd JellyfishRestoreVerify JellyfishRestoreSound JellyfishRestoreChunks JellyfishRestoreFinish.

Lemma find_position_none {A} (f : A -> bool) (l : list A) : (forall x, x ∈ l -> f x = false) -> find_position f l = None.
Proof. induction l as [|x l IH]; intros Hf; [done|]. cbn. rewrite Hf by left. rewrite IH; [done|]. intros y Hy. apply Hf. by right. Qed.

Section RestoreRun.
Context {HV : Type} `{HashValueOps HV} `{HashValueBits HV} `{!HashValueLaws HV} `{CryptoHasher HV}
  `{LeafHasher HV} `{HashValueKeys HV} `{!HashValueKeysLaws HV} {K : Type} `{KeyHash HV K}
  {ST : Type} `{TreeStore HV K ST} `{!TreeStoreLaws HV K ST}.
Context (v : Version).
Implicit Types (s : store (HV := HV) (K := K)) (L T : list (LeafNode HV K)) (x y z : LeafNode HV K)
  (key root : HV) (self : JellyfishMerkleRestore HV K) (w : ST * JellyfishMerkleRestore HV K)
  (chunk tkv : list (K * HV)) (kvs : list (SparseMerkleLeafNode HV)) (proof : SparseMerkleRangeProof HV).

(** ** The start *)
Definition start_state root (async : bool) : JellyfishMerkleRestore HV K :=
  mkRestore v [InternalInfo_new_empty (pkey v [])] ∅ None 0 root false async None.

Lemma new_overwrite_start root : new_overwrite v root = Ok (start_state root false).
Proof. unfold new_overwrite. by rewrite new_empty_path_pack, obind_Ok. Qed.

(** Nothing of the version is found in the storage. *)
Lemma Restore_new_start (store : TreeReader HV K) root async :
  get_node_option store (pkey v []) "restore" = Ok None -> get_rightmost_leaf store v = Ok None ->
  Restore_new store v root async = Ok (start_state root async).
Proof. intros Er El. unfold Restore_new. rewrite new_empty_path_pack, obind_Ok. change (mkNodeKey v (pack [])) with (pkey v []). by rewrite Er, obind_Ok, El, !obind_Ok. Qed.

Lemma start_spine s key : spine v s [] key [InternalInfo_new_empty (pkey v [])].
Proof.
  split; [|intros d Hd; cbn in Hd; lia]. split; [cbn; lia| |intros d info Hd Hl; cbn in Hl; lia|intros d i _ _ _; reflexivity].
  intros [|d] info Hd; [|done]. injection Hd as <-. cbn. split_and!; [done|done|]. intros i c Hi _ Hc. change (replicate 16 (None : option (ChildInfo HV K)) !! Z.to_nat i = Some c) in Hc. apply lookup_replicate_1 in Hc as [-> _]. done.
Qed.

Lemma start_received st root async : received v [] (st, start_state root async).
Proof.
  split; cbn; [constructor|unfold U64; lia|done|done|done|lia| |by left]. left. split; [done|]. apply start_spine.
Qed.

(** ** The states that are reached *)

(** The last proof that was accepted, the leaves received, and the state. *)
Inductive restoring : option (SparseMerkleRangeProof HV) -> list (LeafNode HV K) -> ST * JellyfishMerkleRestore HV K -> Prop :=
| restoring_start st root async : restoring None [] (st, start_state root async)
| restoring_chunk pr L w chunk proof w' : restoring pr L w ->
    let c := skip_known (snd w) chunk in
    Z.of_nat (length L + length c) < U64 -> add_chunk_impl chunk proof w = (w', Ok tt) ->
    restoring (match c with [] => pr | _ => Some proof end) (L ++ chunk_leaves v c) w'.

Lemma skip_known_length self chunk : (length (skip_known self chunk) <= length chunk)%nat.
Proof. unfold skip_known. destruct (previous_leaf self) as [x|]; [|done]. destruct (find_position _ _); [rewrite length_drop; lia|cbn; lia]. Qed.

Lemma restoring_inv pr L w : restoring pr L w -> received v L w /\ frozen_nodes (snd w) = ∅ /\ (num_keys_received (snd w) = 0 -> L = []) /\
  match pr with Some proof => accepted v L proof (expected_root_hash (snd w)) | None => L = [] end.
Proof.
  induction 1 as [st root async|pr L w chunk proof w' _ IH c Hb E].
  - split_and!; [apply start_received|done|done|done].
  - destruct IH as (Hrc & Ez & Hz & Hpr).
    assert (Hf : first_fits v L (snd w) c) by (intros y _ Hn x d Hx; rewrite (Hz Hn) in Hx; done).
    destruct (add_chunk_received v L w chunk proof w' Hrc Hb Hf E) as [[Ec ->]|(Ec & Hrc' & Hn & Ez' & Er & _ & _ & Hacc)]; fold c in Ec.
    + rewrite Ec. cbn [chunk_leaves map]. rewrite app_nil_r. done.
    + fold c in Hrc', Hacc. split_and!; [done|done|intros E0; contradiction|]. destruct c; [done|]. by rewrite Er.
Qed.

Lemma restoring_next pr L w chunk proof c : restoring pr L w -> skip_known (snd w) chunk = c -> Z.of_nat (length L + length c) < U64 ->
  snd (add_chunk_impl chunk proof w) = Ok tt -> c <> [] ->
  restoring (Some proof) (L ++ chunk_leaves v c) (fst (add_chunk_impl chunk proof w)).
Proof.
  intros Hr Ec Hb E Hne. assert (E' : add_chunk_impl chunk proof w = (fst (add_chunk_impl chunk proof w), Ok tt)) by (by rewrite <- E, <- surjective_pairing).
  pose proof (restoring_chunk pr L w chunk proof (fst (add_chunk_impl chunk proof w)) Hr) as Hn. cbn zeta in Hn. rewrite Ec in Hn. specialize (Hn Hb E'). by destruct c.
Qed.

(** ** The chunks of a backup *)
Definition slice {A} (a b : nat) (l : list A) : list A := take (b - a) (drop a l).

(** The proof that goes with a chunk that ends at [key]. *)
Definition range_proof_of kvs key : SparseMerkleRangeProof HV :=
  mkSparseMerkleRangeProof (right_siblings (smp_siblings (sparse_proof_of kvs key)) (iter_bits key)).

Lemma sorted_lookup T (i j : nat) x y : StronglySorted by_key T -> T !! i = Some x -> T !! j = Some y -> (i < j)%nat -> by_key x y.
Proof.
  intros Hs Hi Hj Hlt. rewrite <- (take_drop (S i) T) in Hs. apply StronglySorted_app in Hs as (Hs & _). apply Hs.
  - apply list_elem_of_lookup. exists i. by rewrite lookup_take_lt by lia.
  - apply list_elem_of_lookup. exists (j - S i)%nat. rewrite lookup_drop. by replace (S i + (j - S i))%nat with j by lia.
Qed.

Lemma upto_take T n x : StronglySorted by_key T -> T !! n = Some x -> sl (take (S n) T) = upto (account_key x) (sl T).
Proof.
  intros Hs Hx. unfold upto. rewrite sl_filter. f_equal. cbn [sparse_leaf_from leaf_key]. rewrite <- (take_drop (S n) T) at 2. rewrite filter_app.
  rewrite (filter_all _ (take (S n) T)), (filter_none _ (drop (S n) T)), app_nil_r; [done| |].
  - apply Forall_forall. intros y Hy. apply list_elem_of_lookup in Hy as [i Hi]. rewrite lookup_drop in Hi.
    pose proof (sorted_lookup T n (S n + i) x y Hs Hx Hi ltac:(lia)) as Hlt. rewrite (hv_cmp_gt _ _ Hlt). intros Hc. by apply Hc.
  - apply Forall_forall. intros y Hy. apply list_elem_of_lookup in Hy as [i Hi]. apply lookup_take_Some in Hi as [Hi Hlt].
    destruct (decide (i = n)) as [->|]; [rewrite Hx in Hi; injection Hi as <-; by rewrite hv_cmp_refl|].
    rewrite (hv_cmp_lt _ _ (sorted_lookup T i n y x Hs Hi Hx ltac:(lia))). done.
Qed.

(** A chunk that overlaps what was received gives the rest. *)
Lemma skip_slice tkv n a b self : let T := chunk_leaves v tkv in StronglySorted by_key T -> (a <= n <= length tkv)%nat -> (b <= length tkv)%nat ->
  previous_leaf self = list.last (take n T) -> skip_known self (slice a b tkv) = slice n b tkv.
Proof.
  intros T Hs Ha Hb Hp. unfold skip_known. rewrite Hp. destruct n as [|n]; [assert (a = O) as -> by lia; done|].
  assert (HlenT : length T = length tkv) by apply length_map.
  destruct (lookup_lt_is_Some_2 T n) as [x Hx]; [lia|]. rewrite (take_S_r _ _ _ Hx), last_snoc. set (f := fun kv : K * HV => _).
  assert (Hf : forall i kv, slice a b tkv !! i = Some kv -> f kv = (S n <=? a + i)%nat).
  { intros i kv Hi. unfold slice in Hi. apply lookup_take_Some in Hi as [Hi Hlt]. rewrite lookup_drop in Hi.
    assert (HT : T !! (a + i)%nat = Some (leaf_of v (fst kv) (snd kv))) by (unfold T, chunk_leaves; rewrite list_lookup_fmap, Hi; done).
    unfold f. change (key_hash (fst kv)) with (account_key (leaf_of v (fst kv) (snd kv))). set (y := leaf_of v (fst kv) (snd kv)) in *.
    destruct (Nat.leb_spec (S n) (a + i)) as [Hle|Hgt].
    - by rewrite (hv_cmp_gt _ _ (sorted_lookup T n (a + i) x y Hs Hx HT ltac:(lia))).
    - destruct (decide (a + i = n)%nat) as [E|Hne]; [rewrite E, Hx in HT; injection HT as <-; by rewrite hv_cmp_refl|].
      by rewrite (hv_cmp_lt _ _ (sorted_lookup T (a + i) n y x Hs HT Hx ltac:(lia))). }
  assert (Hlen : length (slice a b tkv) = (b - a)%nat) by (unfold slice; rewrite length_take, length_drop; lia).
  destruct (decide (S n < b)%nat) as [Hlt|Hge].
  - destruct (lookup_lt_is_Some_2 (slice a b tkv) (S n - a)) as [kv Hkv]; [lia|].
    rewrite (find_position_spec f (slice a b tkv) (S n - a) kv Hkv).
    + unfold slice. rewrite drop_take_drop_2 || (rewrite skipn_firstn_comm, drop_drop). f_equal; [lia|f_equal; lia].
    + rewrite (Hf _ _ Hkv). apply Nat.leb_le. lia.
    + intros j kv' Hj Hkv'. rewrite (Hf _ _ Hkv'). apply Nat.leb_gt. lia.
  - rewrite find_position_none; [unfold slice; by replace (b - S n)%nat with O by lia|]. intros kv Hkv. apply list_elem_of_lookup in Hkv as [i Hi].
    pose proof (lookup_lt_Some _ _ _ Hi) as Hil. rewrite (Hf _ _ Hi). apply Nat.leb_gt. lia.
Qed.

Lemma chunk_leaves_slice a b tkv : chunk_leaves v (slice a b tkv) = slice a b (chunk_leaves v tkv).
Proof. unfold slice, chunk_leaves. by rewrite <- firstn_map, <- skipn_map. Qed.

Lemma take_slice {A} (n b : nat) (l : list A) : (n <= b)%nat -> take n l ++ slice n b l = take b l.
Proof. intros Hn. unfold slice. replace b with (n + (b - n))%nat at 2 by lia. by rewrite take_take_drop. Qed.

(** What is kept from one chunk to the next. *)
Definition progressed n m w w' : Prop :=
  frozen_nodes (snd w') = ∅ /\ expected_root_hash (snd w') = expected_root_hash (snd w) /\ ((n < m)%nat -> num_keys_received (snd w') <> 0).

(** All the chunks. *)
Fixpoint add_chunks (chunks : list (list (K * HV) * SparseMerkleRangeProof HV)) : prog (ST * JellyfishMerkleRestore HV K) unit :=
  match chunks with
  | [] => pret tt
  | (chunk, proof) :: chunks => _ <~ add_chunk_impl chunk proof; add_chunks chunks
  end.

(** And the end. *)
Definition restore_all (chunks : list (list (K * HV) * SparseMerkleRangeProof HV)) : prog (ST * JellyfishMerkleRestore HV K) unit :=
  _ <~ add_chunks chunks; finish_impl.
Section Backup.
Context tkv (Hlen : Z.of_nat (length tkv) < U64).
Let T := chunk_leaves v tkv.
Context (Hsorted : StronglySorted by_key T).

(** The leaves [a] to [b] of the tree, with the proof of the last one. *)
Definition backup_chunk (ab : nat * nat) : list (K * HV) * SparseMerkleRangeProof HV :=
  (slice (fst ab) (snd ab) tkv, range_proof_of (sl T) (last_key (take (snd ab) T))).

(** No hash of the tree over the first [n] leaves is the placeholder; or one is. *)
Definition solid_to (n : nat) : Prop := solid (things 256 0 (sl (take n T))).
Definition clash_at (n : nat) : Prop := placeholder_clash (things 256 0 (sl (take n T))).

Lemma solid_or_clash ns : Forall solid_to ns \/ exists n, n ∈ ns /\ clash_at n.
Proof.
  destruct (decide (Forall solid_to ns)) as [Hs|Hn]; [by left|right]. apply not_Forall_Exists in Hn; [|unfold solid_to; apply _].
  apply Exists_exists in Hn as (n & Hin & Hns). exists n. split; [done|]. by apply not_solid_clash.
Qed.

Lemma honest_chunk n a b w : writes_work (HV := HV) (K := K) (ST := ST) -> received v (take n T) w -> frozen_nodes (snd w) = ∅ ->
  expected_root_hash (snd w) = smt_root (sl T) -> (a <= n <= length tkv)%nat -> (a < b <= length tkv)%nat -> solid_to b ->
  first_fits v (take n T) (snd w) (slice n b tkv) ->
  exists w', add_chunk_impl (fst (backup_chunk (a, b))) (snd (backup_chunk (a, b))) w = (w', Ok tt) /\
    received v (take (n `max` b) T) w' /\ progressed n b w w' /\ (tidied v (take n T) w -> tidied v (take (n `max` b) T) w').
Proof.
  intros Hw Hrc Ez Er Ha Hb Hs Hf. cbn [fst snd backup_chunk]. assert (HlenT : length T = length tkv) by apply length_map.
  pose proof (skip_slice tkv n a b (snd w) Hsorted Ha ltac:(lia) (rc_previous _ _ _ Hrc)) as Hskip. destruct (decide (n < b)%nat) as [Hlt|Hge].
  2:{ exists w. rewrite Nat.max_l by lia. split_and!; [|done|split_and!; [done|done|lia]|done]. unfold add_chunk_impl. rewrite (rc_open _ _ _ Hrc), Hskip. unfold slice. by replace (b - n)%nat with O by lia. }
  rewrite Nat.max_r by lia. set (proof := range_proof_of _ _).
  assert (Hc : length (slice n b tkv) = (b - n)%nat) by (unfold slice; rewrite length_take, length_drop; lia).
  assert (EM : take n T ++ chunk_leaves v (slice n b tkv) = take b T) by (rewrite chunk_leaves_slice; apply take_slice; lia).
  assert (Hb64 : Z.of_nat (length (take n T) + length (slice n b tkv)) < U64) by (rewrite length_take, Hc; lia).
  assert (HsM : StronglySorted by_key (take b T)) by (rewrite <- (take_drop b T) in Hsorted; by apply StronglySorted_app in Hsorted as (_ & ? & _)).
  destruct (add_chunk_runs v (take n T) w (slice a b tkv) proof) as (self' & Hrc' & Hn & (Er' & Ea & Ec) & Ht & E); rewrite ?Hskip, ?EM in *; try done.
  { intros E. rewrite E in Hc. cbn in Hc. lia. }
  destruct (received_waiting v (take b T) (fst w, self') Hrc' Hn) as (x & Hlast & Ex & Hwait). cbn [fst snd] in *.
  assert (Hx : T !! (b - 1)%nat = Some x).
  { destruct (lookup_lt_is_Some_2 T (b - 1)) as [x' Hx']; [lia|]. replace b with (S (b - 1)) in Hlast by lia. rewrite (take_S_r _ _ _ Hx'), last_snoc in Hlast. congruence. }
  assert (Hv : Restore_verify self' proof = Ok tt).
  { unfold proof. rewrite (last_key_eq _ _ Hlast). eapply verify_complete; [exact HsM|exact Hwait|done| |congruence|exact Hs|].
    - rewrite sl_keys. by apply sorted_NoDup_keys.
    - replace b with (S (b - 1)) by lia. by rewrite (upto_take T (b - 1) x Hsorted Hx). }
  rewrite Hv in E. destruct (flush_works (fst w, self') Hw) as [w' Ef]. rewrite Ef in E. exists w'.
  apply flush_inv in Ef; [|apply (rc_sync _ _ _ Hrc')]. pose proof Ef as [E0 _ _ _ E3 _ _ E6 _ _]. cbn [fst snd] in *.
  split_and!; [done|by eapply flushed_received|split_and!; [done|congruence|by rewrite E3]|intros Htd; eapply flushed_tidied; [done|by apply Ht]].
Qed.

(** The chunks from the first [n] leaves on cover the others. *)
Fixpoint covers (n : nat) (cuts : list (nat * nat)) : Prop :=
  match cuts with
  | [] => n = length tkv
  | (a, b) :: cuts => (a <= n /\ a < b <= length tkv)%nat /\ covers (n `max` b) cuts
  end.

Lemma honest_run : writes_work (HV := HV) (K := K) (ST := ST) -> forall cuts n w, received v (take n T) w -> frozen_nodes (snd w) = ∅ ->
  expected_root_hash (snd w) = smt_root (sl T) -> (n <= length tkv)%nat -> covers n cuts -> Forall (fun ab => solid_to (snd ab)) cuts ->
  (forall m, (n < m)%nat -> first_fits v (take n T) (snd w) (slice n m tkv)) ->
  exists w', add_chunks (map backup_chunk cuts) w = (w', Ok tt) /\ received v T w' /\ frozen_nodes (snd w') = ∅.
Proof.
  intros Hw. assert (HlenT : length T = length tkv) by apply length_map.
  induction cuts as [|[a b] cuts IH]; intros n w Hrc Ez Er Hn Hcov Hsol Hf.
  - cbn in Hcov. subst n. rewrite <- HlenT, firstn_all in Hrc. by exists w.
  - destruct Hcov as ([Ha Hb] & Hcov). apply Forall_cons in Hsol as [Hs Hsol]. cbn [snd] in Hs. assert (Hf' : first_fits v (take n T) (snd w) (slice n b tkv)).
    { destruct (decide (n < b)%nat) as [Hlt|Hge]; [by apply Hf|]. unfold slice. replace (b - n)%nat with O by lia. by intros y. }
    destruct (honest_chunk n a b w Hw Hrc Ez Er (conj Ha Hn) Hb Hs Hf') as (w1 & E1 & Hrc1 & (Ez1 & Er1 & Hnum1) & _).
    destruct (IH (n `max` b)%nat w1 Hrc1 Ez1 ltac:(congruence) ltac:(lia) Hcov Hsol) as (w' & E' & Hw').
    { intros m Hm. destruct (decide (n < b)%nat) as [Hlt|Hge]; [apply started_fits; by apply Hnum1|].
      rewrite Nat.max_l in * by lia. assert (w1 = w) as ->; [|by apply Hf]. cbn [fst snd backup_chunk] in E1. unfold add_chunk_impl in E1.
      rewrite (rc_open _ _ _ Hrc), (skip_slice tkv n a b (snd w) Hsorted (conj Ha Hn) ltac:(lia) (rc_previous _ _ _ Hrc)) in E1. unfold slice in E1.
      replace (b - n)%nat with O in E1 by lia. by injection E1 as ->. }
    exists w'. split; [|done]. cbn [map add_chunks]. destruct (backup_chunk (a, b)) as [chunk proof]. cbn [fst snd] in E1. by rewrite (pbind_Ok _ _ _ _ _ E1).
Qed.

Lemma honest_restore cuts st async : writes_work (HV := HV) (K := K) (ST := ST) -> covers 0 cuts -> Forall (fun ab => solid_to (snd ab)) cuts ->
  exists w', restore_all (map backup_chunk cuts) (st, start_state (smt_root (sl T)) async) = (w', Ok tt) /\ tree_at (stored (fst w')) v T.
Proof.
  intros Hw Hcov Hsol. destruct (honest_run Hw cuts 0 (st, start_state (smt_root (sl T)) async)) as (w1 & E1 & Hrc & Ez);
    [apply start_received|done|done|lia|done|done|by intros m _ y _ _ x|].
  destruct (finish_works v T w1 Hrc ltac:(by left) Hw) as [w' E']. exists w'. unfold restore_all. rewrite (pbind_Ok _ _ _ _ _ E1). split; [done|].
  exact (finish_tree v T w1 w' Hrc ltac:(by left) E').
Qed.
End Backup.
End RestoreRun.
