(* ===== verification/JellyfishRestoreTheorems.v ===== *)
(** * Restoring a tree: the properties

    A chunk that is accepted is a part of the tree with the expected root hash; the tree
    that is written at the end has the leaves that were received; the chunks of a tree are
    all accepted.  But a chunk that is rejected stays in the restore, and the chunk that
    should replace it is skipped. *)
From stdpp Require Import base list numbers strings option gmap sorting.
From Stdlib Require Import ZArith Lia Bool Sorted.
From S2P Require Import Prelude Hash ToyHash AccumulatorProof SparseMerkleProof SparseSpec SparseFacts SparseClash SparseTheorems NibblePath NibblePathFacts ByteCodec JellyfishNode JellyfishNodeFacts JellyfishHash JellyfishSpec JellyfishTree JellyfishRead JellyfishRuns JellyfishBatch JellyfishUpdate JellyfishCommit JellyfishHistory JellyfishTheorems JellyfishIterate JellyfishRestore JellyfishRestoreFacts JellyfishRestoreAdd JellyfishRestoreVerify JellyfishRestoreSound JellyfishRestoreChunks JellyfishRestoreFinish JellyfishRestoreRun.

Section RestoreTheorems.
Context {HV : Type} `{HashValueOps HV} `{HashValueBits HV} `{!HashValueLaws HV} `{CryptoHasher HV}
  `{LeafHasher HV} `{HashValueKeys HV} `{!HashValueKeysLaws HV} {K : Type} `{KeyHash HV K}
  {ST : Type} `{TreeStore HV K ST} `{!TreeStoreLaws HV K ST}.
Context (v : Version).
Implicit Types (L T : list (LeafNode HV K)) (x : LeafNode HV K) (w : ST * JellyfishMerkleRestore HV K)
  (chunk tkv : list (K * HV)) (kvs : list (SparseMerkleLeafNode HV)) (proof : SparseMerkleRangeProof HV).

(** C8: whatever chunks were accepted, the leaves received are those of the tree with the
    expected root hash up to the last of them; all of them, when the last proof has only
    placeholders on the right; unless two things that the tree, the restore or the verifier
    hash have the same hash. *)
Theorem restore_sound pr L w kvs : restoring v pr L w -> NoDup (map leaf_key kvs) -> expected_root_hash (snd w) = smt_root kvs ->
  match pr with
  | None => L = []
  | Some proof => exists x, list.last L = Some x /\
      ((sl L ≡ₚ upto (account_key x) kvs /\ (no_rights (srp_right_siblings proof) -> upto (account_key x) kvs = kvs)) \/
       exists m, (m <= 256)%nat /\ clash (things 256 0 kvs ++ things 256 0 (sl L) ++ checked L x (srp_right_siblings proof) m))
  end.
Proof.
  intros Hr Hnd Er. destruct (restoring_inv v pr L w Hr) as (Hrc & _ & _ & Hpr). destruct pr as [proof|]; [|done]. rewrite Er in Hpr.
  by apply (accepted_sound v); [apply Hrc| |].
Qed.

(** C9: the end of a restore writes a tree with the leaves received, whose root hash is that
    of the sparse Merkle tree over them. *)
Theorem restore_builds pr L w w' : restoring v pr L w -> finish_impl w = (w', Ok tt) ->
  tree_at (stored (fst w')) v L /\ jmt_get_root_hash (tree_reader (fst w')) v = Ok (smt_root (sl L)).
Proof.
  intros Hr E. destruct (restoring_inv v pr L w Hr) as (Hrc & Ez & _ & _). pose proof (finish_tree v L w w' Hrc ltac:(by left) E) as Ht.
  split; [done|]. by eapply jmt_root_hash_spec; [apply stored_reads|].
Qed.

(** C10: if the storage works, the chunks of a tree, in order and with any overlaps, with the
    proofs that the tree gives, are all accepted, and the restore ends with that tree;
    unless a leaf or a node of the tree over the leaves up to the end of some chunk has the
    placeholder, the hash of an empty tree, for its hash. *)
Theorem restore_completes tkv cuts st async : Z.of_nat (length tkv) < U64 -> StronglySorted by_key (chunk_leaves v tkv) ->
  writes_work (HV := HV) (K := K) (ST := ST) -> covers tkv 0 cuts ->
  let T := chunk_leaves v tkv in
  (exists w', restore_all (map (backup_chunk v tkv) cuts) (st, start_state v (smt_root (sl T)) async) = (w', Ok tt) /\
    tree_at (stored (fst w')) v T /\ jmt_get_root_hash (tree_reader (fst w')) v = Ok (smt_root (sl T))) \/
  exists ab, ab ∈ cuts /\ placeholder_clash (things 256 0 (sl (take (snd ab) T))).
Proof.
  intros Hlen Hs Hw Hcov T. destruct (solid_or_clash v tkv (map snd cuts)) as [Hsol|(n & Hn & Hc)].
  - left. destruct (honest_restore v tkv Hlen Hs cuts st async Hw Hcov) as (w' & E & Ht); [by rewrite List.Forall_map in Hsol|].
    exists w'. split; [done|]. split; [done|]. by eapply jmt_root_hash_spec; [apply stored_reads|].
  - right. apply list_elem_of_fmap in Hn as (ab & -> & Hab). by exists ab.
Qed.

(** C14: a chunk whose proof is rejected stays in the restore: any chunk with keys that were
    received, the right one for the same keys included, is then skipped without a check,
    and the end writes the tree with the leaves that were rejected. *)
Theorem rejected_chunk_kept pr L w bad p w' e : let M := L ++ chunk_leaves v (skip_known (snd w) bad) in
  restoring v pr L w -> Z.of_nat (length L + length bad) < U64 -> StronglySorted by_key M -> (2 <= length M)%nat ->
  writes_work (HV := HV) (K := K) (ST := ST) -> add_chunk_impl bad p w = (w', Err e) ->
  (forall good p', Forall (fun kv => key_hash (fst kv) ∈ map account_key M) good -> add_chunk_impl good p' w' = (w', Ok tt)) /\
  exists w'', finish_impl w' = (w'', Ok tt) /\ tree_at (stored (fst w'')) v M.
Proof.
  intros M Hr Hb Hs Htwo Hw E. destruct (restoring_inv v pr L w Hr) as (Hrc & Ez & Hz & _). pose proof (skip_known_length (snd w) bad) as Hl.
  assert (Hne : skip_known (snd w) bad <> []) by (intros Ec; unfold add_chunk_impl in E; rewrite (rc_open _ _ _ Hrc), Ec in E; done).
  assert (Hf : first_fits v L (snd w) (skip_known (snd w) bad)) by (intros y _ Hn x d Hx; rewrite (Hz Hn) in Hx; done).
  destruct (add_chunk_runs v L w bad p Hrc Hne ltac:(lia) Hs Hf) as (self' & Hrc' & Hn & _ & _ & E'). fold M in Hrc'. rewrite E' in E.
  assert (Ew : w' = (fst w, self')).
  { destruct (Restore_verify self' p); [|by injection E as <-|done]. destruct (flush_works (fst w, self') Hw) as [w1 Ef]. by rewrite Ef in E. }
  rewrite Ew. split.
  - intros good p' Hg. pose proof (rc_open _ _ _ Hrc') as Eo. pose proof (rc_previous _ _ _ Hrc') as Ep. cbn [snd] in Eo, Ep.
    unfold add_chunk_impl, skip_known. cbn [snd]. rewrite Eo, Ep. destruct (list.last M) as [x|] eqn:Ex; [|apply last_None in Ex; rewrite Ex in Htwo; cbn in Htwo; lia].
    rewrite find_position_none; [done|]. intros kv Hkv. rewrite Forall_forall in Hg. apply Hg in Hkv. apply list_elem_of_fmap in Hkv as (z & -> & Hz').
    destruct (sorted_last M x z Hs Ex Hz') as [->|Hlt]; [by rewrite hv_cmp_refl|by rewrite (hv_cmp_lt _ _ Hlt)].
  - destruct (finish_works v M (fst w, self') Hrc' ltac:(by right) Hw) as [w'' E'']. exists w''. split; [done|]. by eapply finish_tree; [exact Hrc'|right|].
Qed.
End RestoreTheorems.

(** ** A storage in memory *)
Abbreviation memory_nodes := (gmap NodeKey (Node bytes32 Z)).

#[export] Instance toy_key_hash : KeyHash bytes32 Z := {| key_hash := toy_key |}.

(** The stored leaf of the version with the largest key. *)
Definition larger_leaf (v : Version) (k : NodeKey) (n : Node bytes32 Z) (best : option (NodeKey * LeafNode bytes32 Z)) : option (NodeKey * LeafNode bytes32 Z) :=
  match n, best with
  | Node_Leaf x, None => if nk_version k =? v then Some (k, x) else None
  | Node_Leaf x, Some (k', y) =>
      if (nk_version k =? v) && match hv_cmp (account_key x) (account_key y) with Gt => true | _ => false end then Some (k, x) else best
  | _, _ => best
  end.

#[export] Instance memory_tree : TreeStore bytes32 Z memory_nodes := {|
  tree_reader := fun m => mkTreeReader (fun k _ => Ok (m !! k)) (fun v => Ok (map_fold (larger_leaf v) None m));
  write_node_batch := fun batch m => (batch ∪ m, Ok tt);
|}.

#[export] Instance memory_tree_laws : TreeStoreLaws bytes32 Z memory_nodes.
Proof.
  refine {| stored := fun m k => m !! k |}.
  - intros m k tag n Hk. exact (f_equal Ok Hk).
  - intros batch m k. cbn. rewrite lookup_union. by destruct (batch !! k), (m !! k).
Defined.

Lemma memory_writes_work : writes_work (HV := bytes32) (K := Z) (ST := memory_nodes).
Proof. intros batch m. by eexists. Qed.

(** ** Witnesses *)
Definition toy_tkv : list (Z * bytes32) := map (fun n => (n, of_num (n + 1))) [1; 17; 200].
Definition toy_tree_leaves : list (LeafNode bytes32 Z) := chunk_leaves 7 toy_tkv.

Lemma toy_tree_sorted : StronglySorted by_key toy_tree_leaves.
Proof. assert (E : toy_tree_leaves = in_order toy_tree_leaves) by (vm_compute; reflexivity). rewrite E. apply in_order_sorted. apply (bool_decide_unpack _). vm_compute. exact I. Qed.

(** The state after the first two leaves. *)
Definition toy_start : memory_nodes * JellyfishMerkleRestore bytes32 Z := (∅, start_state 7 (smt_root (sl toy_tree_leaves)) false).
Definition toy_part : list (Z * bytes32) * SparseMerkleRangeProof bytes32 := backup_chunk 7 toy_tkv (0%nat, 2%nat).
Definition toy_state : memory_nodes * JellyfishMerkleRestore bytes32 Z := fst (add_chunk_impl (fst toy_part) (snd toy_part) toy_start).

Lemma toy_restoring : restoring 7 (Some (snd toy_part)) (chunk_leaves 7 (take 2 toy_tkv)) toy_state.
Proof.
  change (chunk_leaves 7 (take 2 toy_tkv)) with ([] ++ chunk_leaves 7 (take 2 toy_tkv)). unfold toy_state.
  refine (restoring_next 7 None [] toy_start (fst toy_part) (snd toy_part) (take 2 toy_tkv) _ _ _ _ _).
  - exact (restoring_start 7 ∅ (smt_root (sl toy_tree_leaves)) false).
  - vm_compute. reflexivity.
  - vm_compute. reflexivity.
  - vm_compute. reflexivity.
  - done.
Qed.

Lemma toy_tree_NoDup : NoDup (map leaf_key (sl toy_tree_leaves)).
Proof. rewrite sl_keys. apply sorted_NoDup_keys, toy_tree_sorted. Qed.

Lemma restore_sound_witness : let L := chunk_leaves 7 (take 2 toy_tkv) in let R := srp_right_siblings (snd toy_part) in
  exists x, list.last L = Some x /\
    ((sl L ≡ₚ upto (account_key x) (sl toy_tree_leaves) /\ (no_rights R -> upto (account_key x) (sl toy_tree_leaves) = sl toy_tree_leaves)) \/
     exists m, (m <= 256)%nat /\ clash (things 256 0 (sl toy_tree_leaves) ++ things 256 0 (sl L) ++ checked L x R m)).
Proof. apply (restore_sound 7 (Some (snd toy_part)) _ toy_state (sl toy_tree_leaves) toy_restoring toy_tree_NoDup). vm_compute. reflexivity. Defined.

Lemma restore_builds_witness : let w' := fst (finish_impl toy_state) in
  tree_at (stored (fst w')) 7 (chunk_leaves 7 (take 2 toy_tkv)) /\
  jmt_get_root_hash (tree_reader (fst w')) 7 = Ok (smt_root (sl (chunk_leaves 7 (take 2 toy_tkv)))).
Proof. apply (restore_builds 7 _ _ toy_state _ toy_restoring). vm_compute. reflexivity. Defined.

Definition toy_cuts : list (nat * nat) := [(0%nat, 2%nat); (0%nat, 1%nat); (1%nat, 3%nat)].

Lemma toy_solid n : solid_to 7 toy_tkv n.
Proof.
  assert (Hall : forallb (fun n => bool_decide (solid_to 7 toy_tkv n)) [0; 1; 2; 3]%nat = true) by (vm_compute; reflexivity).
  rewrite forallb_forall in Hall. assert (Hs : forall n, n ∈ [0; 1; 2; 3]%nat -> solid_to 7 toy_tkv n).
  { intros m Hm. apply (bool_decide_unpack _). rewrite (Hall m) by (by apply list_elem_of_In). exact I. }
  destruct (decide (n < 3)%nat) as [Hn|Hn]; [apply Hs; destruct n as [|[|[|n]]]; [set_solver..|lia]|].
  assert (H3 : solid_to 7 toy_tkv 3) by (apply Hs; set_solver). unfold solid_to in *. rewrite (take_ge _ n) by (cbn; lia). exact H3.
Qed.

Lemma toy_covers : covers toy_tkv 0 toy_cuts.
Proof. cbn. lia. Qed.

Lemma toy_no_clash n : ~ placeholder_clash (things 256 0 (sl (take n toy_tree_leaves))).
Proof. apply solid_no_clash, toy_solid. Qed.

Lemma restore_completes_witness :
  exists w', restore_all (map (backup_chunk 7 toy_tkv) toy_cuts) toy_start = (w', Ok tt) /\
    tree_at (stored (fst w')) 7 toy_tree_leaves /\ jmt_get_root_hash (tree_reader (fst w')) 7 = Ok (smt_root (sl toy_tree_leaves)).
Proof.
  destruct (restore_completes 7 toy_tkv toy_cuts ∅ false) as [Hw|(ab & _ & Hc)]; [by vm_compute|apply toy_tree_sorted|apply memory_writes_work|apply toy_covers|exact Hw|].
  destruct (toy_no_clash _ Hc).
Defined.

(** The last leaf comes with a wrong value; the right one is then skipped. *)
Definition toy_bad : list (Z * bytes32) := [(200, of_num 5)].
Definition toy_bad_leaves : list (LeafNode bytes32 Z) := chunk_leaves 7 (take 2 toy_tkv) ++ chunk_leaves 7 toy_bad.
Definition toy_good : list (Z * bytes32) * SparseMerkleRangeProof bytes32 := backup_chunk 7 toy_tkv (2%nat, 3%nat).
Definition toy_rejected : memory_nodes * JellyfishMerkleRestore bytes32 Z := fst (add_chunk_impl toy_bad (snd toy_good) toy_state).

Lemma toy_rejects : add_chunk_impl toy_bad (snd toy_good) toy_state = (toy_rejected, Err "SparseMerkleRangeProof: Root hashes do not match.").
Proof. vm_compute. reflexivity. Qed.

Lemma toy_bad_skip : skip_known (snd toy_state) toy_bad = toy_bad.
Proof. vm_compute. reflexivity. Qed.

Lemma toy_bad_sorted : StronglySorted by_key toy_bad_leaves.
Proof.
  assert (EM : toy_bad_leaves = in_order toy_bad_leaves) by (vm_compute; reflexivity). rewrite EM. apply in_order_sorted.
  apply (bool_decide_unpack _). vm_compute. exact I.
Qed.

Lemma toy_bad_root : smt_root (sl toy_bad_leaves) <> smt_root (sl toy_tree_leaves).
Proof. apply (bool_decide_unpack _). vm_compute. exact I. Qed.

Lemma toy_good_keys : Forall (fun kv => key_hash (fst kv) ∈ map account_key toy_bad_leaves) (fst toy_good).
Proof. apply (bool_decide_unpack _). vm_compute. exact I. Qed.

Lemma rejected_chunk_kept_witness :
  add_chunk_impl (fst toy_good) (snd toy_good) toy_rejected = (toy_rejected, Ok tt) /\
  exists w'', finish_impl toy_rejected = (w'', Ok tt) /\ tree_at (stored (fst w'')) 7 toy_bad_leaves /\
    smt_root (sl toy_bad_leaves) <> smt_root (sl toy_tree_leaves).
Proof.
  pose proof (rejected_chunk_kept 7 _ _ toy_state toy_bad (snd toy_good) toy_rejected "SparseMerkleRangeProof: Root hashes do not match." toy_restoring) as Hr.
  rewrite toy_bad_skip in Hr. fold toy_bad_leaves in Hr.
  destruct (Hr eq_refl toy_bad_sorted (le_S _ _ (le_n _)) memory_writes_work toy_rejects) as [Hskip (w'' & E & Ht)].
  exact (conj (Hskip _ _ toy_good_keys) (ex_intro _ w'' (conj E (conj Ht toy_bad_root)))).
Defined.
