(* ===== verification/StateMerkleDb.v ===== *)
(** * The database of the state tree

    Model of what the commit and the pruning of the state tree share
    ([storage/aptosdb/src/state_merkle_db.rs], the schemas of the stale node index and
    [schema/db_metadata]): one RocksDB database for the root and the metadata, one for
    each of the 16 shards, and the byte format of the stale node index.

    A database is an abstract type with the operations of [schemadb] on RocksDB; what is
    known of them is in the class [SchemaDbLaws]. *)
From stdpp Require Import base list numbers strings option gmap.
From Stdlib Require Import ZArith Lia Bool Sorted.
From S2P Require Import Prelude Hash SparseMerkleProof NibblePath ByteCodec JellyfishNode JellyfishTree.

(** ** Keys of the metadata *)
Inductive DbMetadataKey :=
| LedgerPrunerProgress
| StateMerklePrunerProgress
| EpochEndingStateMerklePrunerProgress
| StateKvPrunerProgress
| StateSnapshotKvRestoreProgress (version : Version)
| LedgerCommitProgress
| StateKvCommitProgress
| OverallCommitProgress
| StateKvShardCommitProgress (shard_id : Z)
| StateMerkleCommitProgress
| StateMerkleShardCommitProgress (shard_id : Z)
| EventPrunerProgress
| TransactionAccumulatorPrunerProgress
| TransactionInfoPrunerProgress
| TransactionPrunerProgress
| WriteSetPrunerProgress
| StateMerkleShardPrunerProgress (shard_id : Z)
| EpochEndingStateMerkleShardPrunerProgress (shard_id : Z)
| StateKvShardPrunerProgress (shard_id : Z)
| StateMerkleShardRestoreProgress (shard_id : Z) (version : Version)
| TransactionAuxiliaryDataPrunerProgress.

#[export] Instance DbMetadataKey_eq_dec : EqDecision DbMetadataKey.
Proof. solve_decision. Defined.

(** ** The stale node index *)
Inductive StaleSchema := StaleNodeIndexSchema | StaleNodeIndexCrossEpochSchema.

#[export] Instance StaleSchema_eq_dec : EqDecision StaleSchema.
Proof. solve_decision. Defined.

#[export] Instance StaleNodeIndex_eq_dec : EqDecision StaleNodeIndex.
Proof. solve_decision. Defined.

(** [StaleNodeIndexSchemaTrait] *)
Definition progress_metadata_key (sch : StaleSchema) (shard_id : option Z) : DbMetadataKey :=
  match sch, shard_id with
  | StaleNodeIndexSchema, Some shard_id => StateMerkleShardPrunerProgress shard_id
  | StaleNodeIndexSchema, None => StateMerklePrunerProgress
  | StaleNodeIndexCrossEpochSchema, Some shard_id => EpochEndingStateMerkleShardPrunerProgress shard_id
  | StaleNodeIndexCrossEpochSchema, None => EpochEndingStateMerklePrunerProgress
  end.

Definition ensure_slice_len_gt (data : list Z) (len : Z) : outcome unit :=
  ensure (len <? blen data) "Unexpected data len".

Definition StaleNodeIndex_encode_key `{ByteOrder} (self : StaleNodeIndex) : list Z :=
  write_u64_be (stale_since_version self) ++ NodeKey_encode (stale_node_key self).

Definition StaleNodeIndex_decode_key `{ByteOrder} (data : list Z) : outcome StaleNodeIndex :=
  _ ← ensure_slice_len_gt data 8;
  r ← read_u64_be (take 8 data);
  node_key ← NodeKey_decode (drop 8 data);
  Ok (mkStaleNodeIndex (fst r) node_key).

Section Db.
Context {HV K : Type}.

(** One entry of a [SchemaBatch]. *)
Inductive BatchOp :=
| Put_node (node_key : NodeKey) (node : Node HV K)
| Delete_node (node_key : NodeKey)
| Put_stale (sch : StaleSchema) (index : StaleNodeIndex)
| Delete_stale (sch : StaleSchema) (index : StaleNodeIndex)
| Put_version (key : DbMetadataKey) (version : Version)
| Delete_version (key : DbMetadataKey).

(** [DB] of [schemadb]: reads of nodes and of versions in the metadata, the items of an
    iterator over a stale node index from a key on, and the write of a batch. *)
Class SchemaDb (DB : Type) := {
  db_get_node : DB -> NodeKey -> outcome (option (Node HV K));
  db_get_version : DB -> DbMetadataKey -> outcome (option Version);
  db_stale_from : StaleSchema -> DB -> list Z -> outcome (list (outcome StaleNodeIndex));
  write_schemas : list BatchOp -> prog DB unit;
}.

(** What a database holds. *)
Record db_view := mkDbView {
  dv_node : NodeKey -> option (Node HV K);
  dv_stale : StaleSchema -> list StaleNodeIndex;
  dv_version : DbMetadataKey -> option Version;
}.

Definition apply_op (d : db_view) (op : BatchOp) : db_view :=
  match op with
  | Put_node k n => mkDbView (fun j => if decide (j = k) then Some n else dv_node d j) (dv_stale d) (dv_version d)
  | Delete_node k => mkDbView (fun j => if decide (j = k) then None else dv_node d j) (dv_stale d) (dv_version d)
  | Put_stale sch e =>
      mkDbView (dv_node d)
        (fun sch' => if decide (sch' = sch) then e :: filter (fun x => x <> e) (dv_stale d sch') else dv_stale d sch')
        (dv_version d)
  | Delete_stale sch e =>
      mkDbView (dv_node d)
        (fun sch' => if decide (sch' = sch) then filter (fun x => x <> e) (dv_stale d sch') else dv_stale d sch')
        (dv_version d)
  | Put_version k v =>
      mkDbView (dv_node d) (dv_stale d) (fun j => if decide (j = k) then Some v else dv_version d j)
  | Delete_version k =>
      mkDbView (dv_node d) (dv_stale d) (fun j => if decide (j = k) then None else dv_version d j)
  end.

Definition apply_ops (d : db_view) (batch : list BatchOp) : db_view := fold_left apply_op batch d.

(** The same contents, whatever the order of the index. *)
Definition same_view (d d' : db_view) : Prop :=
  (forall k, dv_node d k = dv_node d' k) /\
  (forall sch e, e ∈ dv_stale d sch <-> e ∈ dv_stale d' sch) /\
  (forall k, dv_version d k = dv_version d' k).

(** The items an iterator yields: the entries in the order of their bytes, up to an
    error if there is one. *)
Definition yields {A} (l : list A) (items : list (outcome A)) : Prop :=
  items = map Ok l \/ exists l' l'' e rest, l = l' ++ l'' /\ items = map Ok l' ++ Err e :: rest.

(** The documented behaviour of RocksDB: reads see what was written, an iterator yields
    the keys from the given one on in byte order, and a batch is written as a whole or
    not at all. *)
Class SchemaDbLaws (DB : Type) `{SchemaDb DB} `{ByteOrder} := {
  view : DB -> db_view;
  db_get_node_spec db k o : db_get_node db k = Ok o -> o = dv_node (view db) k;
  db_get_version_spec db k o : db_get_version db k = Ok o -> o = dv_version (view db) k;
  db_stale_from_spec sch db seek items : db_stale_from sch db seek = Ok items ->
    exists l, yields l items /\
      StronglySorted (fun a b => lex_compare (StaleNodeIndex_encode_key a) (StaleNodeIndex_encode_key b) <> Gt) l /\
      forall e, e ∈ l <-> e ∈ dv_stale (view db) sch /\ lex_compare (StaleNodeIndex_encode_key e) seek <> Lt;
  write_schemas_spec batch db db' r : write_schemas batch db = (db', r) ->
    match r with
    | Ok _ => same_view (view db') (apply_ops (view db) batch)
    | _ => view db' = view db
    end;
}.

(** A database that never fails. *)
Definition db_works (DB : Type) `{SchemaDb DB} `{ByteOrder} `{!SchemaDbLaws DB} : Prop :=
  (forall db k, is_ok (db_get_node db k) = true) /\
  (forall db k, is_ok (db_get_version db k) = true) /\
  (forall sch db seek, exists l, db_stale_from sch db seek = Ok (map Ok l)) /\
  (forall batch db, is_ok (snd (write_schemas batch db)) = true).

(** ** [StateMerkleDb], with its caches turned off

    The databases in a list.  Without sharding, all shards are the same database as the
    metadata. *)
Context {DB : Type} `{SchemaDb DB}.

Record StateMerkleDb := mkStateMerkleDb {
  smdb_dbs : list DB;
  enable_sharding : bool;
}.

Definition NUM_STATE_SHARDS : Z := 16.

(** Where the database of a shard is: an index of [smdb_dbs]. *)
Definition slot (self : StateMerkleDb) (shard_id : option Z) : nat :=
  match shard_id with
  | None => 0
  | Some shard_id => if enable_sharding self then S (Z.to_nat shard_id) else 0
  end.

Definition smdb_db (self : StateMerkleDb) (shard_id : option Z) : outcome DB :=
  expect (smdb_dbs self !! slot self shard_id) "index out of bounds".

(** A program that runs on one of the databases. *)
Definition on_db {A} (shard_id : option Z) (m : prog DB A) : prog StateMerkleDb A := fun self =>
  match smdb_db self shard_id with
  | Ok db =>
      let '(db, r) := m db in
      (mkStateMerkleDb (<[slot self shard_id := db]> (smdb_dbs self)) (enable_sharding self), r)
  | Err e => (self, Err e)
  | Panic e => (self, Panic e)
  end.

Definition db_by_key (self : StateMerkleDb) (node_key : NodeKey) : outcome DB :=
  shard_id ← NodeKey_get_shard_id node_key;
  smdb_db self shard_id.

(** [TreeReader::get_node_option] *)
Definition smdb_get_node_option (self : StateMerkleDb) (node_key : NodeKey) : outcome (option (Node HV K)) :=
  db ← db_by_key self node_key;
  db_get_node db node_key.

(** The database as a [TreeReader]; [get_rightmost_leaf] is used by restore only. *)
Definition smdb_reader (rightmost : Version -> outcome (option (NodeKey * LeafNode HV K))) (self : StateMerkleDb)
  : TreeReader HV K :=
  mkTreeReader (fun k _ => smdb_get_node_option self k) rightmost.

(** [get_progress] *)
Definition get_progress (db : DB) (progress_key : DbMetadataKey) : outcome (option Version) :=
  db_get_version db progress_key.

Definition write_pruner_progress (version : Version) : prog StateMerkleDb unit :=
  on_db None (write_schemas [Put_version StateMerklePrunerProgress version]).
End Db.
Arguments BatchOp HV K : clear implicits.
Arguments db_view HV K : clear implicits.
Arguments SchemaDb HV K DB : clear implicits.
Arguments SchemaDbLaws HV K DB {_ _}.
Arguments StateMerkleDb DB : clear implicits.
