(* ===== verification/StateMerklePruner.v ===== *)
(** * Pruning the state tree

    Model of [storage/aptosdb/src/pruner]: [state_merkle_pruner/mod.rs],
    [state_merkle_metadata_pruner.rs], [state_merkle_shard_pruner.rs],
    [state_merkle_pruner_manager.rs], and what they use of [pruner_utils.rs],
    [db_pruner.rs] and [pruner_worker.rs]. *)
From stdpp Require Import base list numbers strings option gmap.
From Stdlib Require Import ZArith Lia Bool.
From S2P Require Import Prelude Hash SparseMerkleProof NibblePath ByteCodec JellyfishNode JellyfishTree StateMerkleDb.

Section Pruner.
Context {HV K DB : Type} `{SchemaDb HV K DB} `{ByteOrder}.
(** The index that is pruned: [StaleNodeIndexSchema] or [StaleNodeIndexCrossEpochSchema]. *)
Context (sch : StaleSchema).

(** The loop of [get_stale_node_indices] over the items of the iterator. *)
Fixpoint collect_stale (target_version : Version) (items : list (outcome StaleNodeIndex))
    (indices : list StaleNodeIndex) (next_version : option Version)
  : outcome (list StaleNodeIndex * option Version) :=
  match items with
  | [] => Ok (indices, next_version)
  | item :: items =>
      index ← item;
      let next_version := Some (stale_since_version index) in
      if stale_since_version index <=? target_version
      then collect_stale target_version items (indices ++ [index]) next_version
      else Ok (indices, next_version)
  end.

Definition get_stale_node_indices (state_merkle_db_shard : DB) (start_version target_version : Version)
  : outcome (list StaleNodeIndex * option Version) :=
  node_key ← new_empty_path 0;
  items ← db_stale_from sch state_merkle_db_shard
            (StaleNodeIndex_encode_key (mkStaleNodeIndex start_version node_key));
  collect_stale target_version items [] None.

(** The deletions of the entries and their nodes. *)
Definition delete_indices (indices : list StaleNodeIndex) : list (BatchOp HV K) :=
  flat_map (fun index => [Delete_node (stale_node_key index); Delete_stale sch index]) indices.

(** ** [StateMerkleShardPruner] *)

(** The loop of [prune]: after a round, nothing up to the target is left. *)
Fixpoint shard_prune_loop (fuel : nat) (shard_id : Z) (current_progress target_version : Version)
  : prog DB unit :=
  r <~ reading (fun db => get_stale_node_indices db current_progress target_version);
  let '(indices, next_version) := r in
  let done :=
    match next_version with
    | Some next_version => negb (next_version <=? target_version)
    | None => true
    end in
  _ <~ write_schemas
        (delete_indices indices ++
         if done then [Put_version (progress_metadata_key sch (Some shard_id)) target_version] else []);
  if (done : bool) then pret tt
  else
    match fuel with
    | O => fun db => (db, Panic "out of fuel")
    | S fuel => shard_prune_loop fuel shard_id current_progress target_version
    end.

Definition shard_prune (shard_id : Z) (current_progress target_version : Version) : prog DB unit :=
  shard_prune_loop 1 shard_id current_progress target_version.

(** [pruner_utils::get_or_initialize_subpruner_progress] *)
Definition get_or_initialize_subpruner_progress (progress_key : DbMetadataKey) (metadata_progress : Version)
  : prog DB Version :=
  v <~ reading (fun db => db_get_version db progress_key);
  match v with
  | Some v => pret v
  | None => _ <~ write_schemas [Put_version progress_key metadata_progress]; pret metadata_progress
  end.

Definition StateMerkleShardPruner_new (shard_id : Z) (metadata_progress : Version) : prog DB unit :=
  progress <~ get_or_initialize_subpruner_progress (progress_metadata_key sch (Some shard_id)) metadata_progress;
  shard_prune shard_id progress metadata_progress.

(** ** [StateMerklePruner] *)

(** The atomic versions of the pruner and of its metadata pruner, and the ids of the
    shard pruners. *)
Record StateMerklePruner := mkStateMerklePruner {
  smp_target_version : Version;
  smp_progress : Version;
  smp_next_version : Version;
  shard_pruners : list Z;
}.

(** [StateMerkleMetadataPruner::progress] *)
Definition metadata_pruner_progress (db : DB) : outcome Version :=
  v ← get_progress db (progress_metadata_key sch None);
  Ok (default 0 v).

Fixpoint new_shard_pruners (shards : list Z) (metadata_progress : Version) : prog (StateMerkleDb DB) (list Z) :=
  match shards with
  | [] => pret []
  | shard_id :: shards =>
      _ <~ on_db (Some shard_id) (StateMerkleShardPruner_new shard_id metadata_progress);
      rest <~ new_shard_pruners shards metadata_progress;
      pret (shard_id :: rest)
  end.

Definition StateMerklePruner_new : prog (StateMerkleDb DB) StateMerklePruner :=
  metadata_progress <~ on_db None (reading metadata_pruner_progress);
  sharding_enabled <~ reading (fun self => Ok (enable_sharding self));
  shard_pruners <~ (if (sharding_enabled : bool) then new_shard_pruners (seqZ 0 NUM_STATE_SHARDS) metadata_progress
                   else pret []);
  pret (mkStateMerklePruner metadata_progress metadata_progress 0 shard_pruners).

(** The databases and the pruner. *)
Abbreviation World := (StateMerkleDb DB * StateMerklePruner)%type (only parsing).

Definition with_db {A} (m : prog (StateMerkleDb DB) A) : prog World A := fun w =>
  let '(db, r) := m (fst w) in ((db, snd w), r).
Definition with_pruner (f : StateMerklePruner -> StateMerklePruner) : prog World unit := fun w =>
  ((fst w, f (snd w)), Ok tt).

Definition set_next_version (v : Version) (p : StateMerklePruner) : StateMerklePruner :=
  mkStateMerklePruner (smp_target_version p) (smp_progress p) v (shard_pruners p).
(** [record_progress] *)
Definition record_progress (v : Version) (p : StateMerklePruner) : StateMerklePruner :=
  mkStateMerklePruner (smp_target_version p) v (smp_next_version p) (shard_pruners p).
(** [set_target_version] *)
Definition set_target_version (v : Version) (p : StateMerklePruner) : StateMerklePruner :=
  mkStateMerklePruner v (smp_progress p) (smp_next_version p) (shard_pruners p).

(** [StateMerkleMetadataPruner::maybe_prune_single_version] *)
Definition maybe_prune_single_version (current_progress target_version : Version) : prog World (option Version) :=
  next_version <~ reading (fun w => Ok (smp_next_version (snd w)));
  let target_version_for_this_round := Z.max next_version current_progress in
  if target_version <? target_version_for_this_round then pret None
  else
    r <~ with_db (on_db None
          (reading (fun db => get_stale_node_indices db current_progress target_version_for_this_round)));
    let '(indices, next_version) := r in
    _ <~ with_db (on_db None (write_schemas
          (delete_indices indices ++
           [Put_version (progress_metadata_key sch None) target_version_for_this_round])));
    _ <~ with_pruner (set_next_version (default target_version next_version));
    pret (Some target_version_for_this_round).

(** [prune_shards]: every shard pruner works on its own database; the first error is
    returned. *)
Fixpoint prune_shards (shards : list Z) (current_progress target_version : Version)
  : prog (StateMerkleDb DB) unit :=
  match shards with
  | [] => pret tt
  | shard_id :: shards =>
      _ <~ on_db (Some shard_id) (shard_prune shard_id current_progress target_version);
      prune_shards shards current_progress target_version
  end.

(** The loop of [prune]. *)
Fixpoint smp_prune_loop (fuel : nat) (progress target_version : Version) : prog World unit :=
  if progress <? target_version then
    round <~ maybe_prune_single_version progress target_version;
    match round with
    | Some target_version_for_this_round =>
        shards <~ reading (fun w => Ok (shard_pruners (snd w)));
        _ <~ with_db (prune_shards shards progress target_version_for_this_round);
        _ <~ with_pruner (record_progress target_version_for_this_round);
        match fuel with
        | O => fun w => (w, Panic "out of fuel")
        | S fuel => smp_prune_loop fuel target_version_for_this_round target_version
        end
    | None => with_pruner (record_progress target_version)
    end
  else pret tt.

(** A version takes at most three rounds of the loop. *)
Definition prune_fuel (progress target_version : Version) : nat := Z.to_nat (3 * (target_version - progress) + 3).

Definition smp_prune : prog World Version :=
  progress <~ reading (fun w => Ok (smp_progress (snd w)));
  target_version <~ reading (fun w => Ok (smp_target_version (snd w)));
  if target_version <=? progress then pret progress
  else
    _ <~ smp_prune_loop (prune_fuel progress target_version) progress target_version;
    pret target_version.

(** [DBPruner::is_pruning_pending] *)
Definition is_pruning_pending (self : StateMerklePruner) : bool := smp_progress self <? smp_target_version self.

(** ** [StateMerklePrunerManager] *)
Record StateMerklePrunerManager := mkStateMerklePrunerManager {
  prune_window : Version;
  pruner_worker : option StateMerklePruner;
  min_readable_version : Version;
}.

Definition is_pruner_enabled (self : StateMerklePrunerManager) : bool :=
  match pruner_worker self with Some _ => true | None => false end.

(** [pruner_utils::get_state_merkle_pruner_progress] *)
Definition get_state_merkle_pruner_progress (self : StateMerkleDb DB) : outcome Version :=
  db ← smdb_db self None;
  v ← get_progress db (progress_metadata_key sch None);
  Ok (default 0 v).

(** [new], with the fields [enable] and [prune_window] of the configuration. *)
Definition StateMerklePrunerManager_new (enable : bool) (prune_window : Version)
  : prog (StateMerkleDb DB) StateMerklePrunerManager :=
  pruner_worker <~ (if enable then
                     p <~ pexpect StateMerklePruner_new "Failed to create state merkle pruner.";
                     pret (Some p)
                   else pret None);
  min_readable_version <~ reading (fun self => expect_res (get_state_merkle_pruner_progress self) "Must succeed.");
  pret (mkStateMerklePrunerManager prune_window pruner_worker min_readable_version).

Definition save_min_readable_version (min_readable_version : Version)
  : prog (StateMerkleDb DB * StateMerklePrunerManager) unit := fun w =>
  let self := mkStateMerklePrunerManager (prune_window (snd w)) (pruner_worker (snd w)) min_readable_version in
  let '(db, r) := write_pruner_progress min_readable_version (fst w) in ((db, self), r).

(** [PrunerWorker::set_target_db_version] *)
Definition set_target_db_version (target_db_version : Version) (pruner : StateMerklePruner) : StateMerklePruner :=
  if smp_target_version pruner <? target_db_version then set_target_version target_db_version pruner else pruner.

Definition set_pruner_target_db_version (latest_version : Version) (self : StateMerklePrunerManager)
  : outcome StateMerklePrunerManager :=
  pruner ← expect (pruner_worker self) "assertion failed: self.pruner_worker.is_some()";
  let min_readable_version := Z.max 0 (latest_version - prune_window self) in
  Ok (mkStateMerklePrunerManager (prune_window self)
        (Some (set_target_db_version min_readable_version pruner)) min_readable_version).

Definition maybe_set_pruner_target_db_version (latest_version : Version) (self : StateMerklePrunerManager)
  : outcome StateMerklePrunerManager :=
  match pruner_worker self with
  | None => Ok self
  | Some _ =>
      bound ← add64 (min_readable_version self) (prune_window self);
      if bound <=? latest_version then set_pruner_target_db_version latest_version self else Ok self
  end.
End Pruner.
