(* ===== verification/StateMerklePrunerFacts.v ===== *)
(** * Pruning deletes stale nodes only

    A run of the pruner, also one that fails on the way, is a sequence of deletions of
    entries of the stale node index that are not newer than the target version, each
    with its node: steps of the database of versions. *)
From stdpp Require Import base list numbers strings option gmap sorting.
From Stdlib Require Import ZArith Lia Bool Sorted.
From S2P Require Import Prelude Hash SparseMerkleProof SparseSpec SparseFacts NibblePath NibblePathFacts ByteCodec JellyfishNode JellyfishNodeFacts JellyfishHash JellyfishSpec JellyfishTree JellyfishRead JellyfishRuns JellyfishBatch JellyfishUpdate JellyfishInsert JellyfishCommit JellyfishHistory StateMerkleDb StateMerklePruner.

(** ** The order of the index *)
Section Order.
Context `{ByteOrderLaws}.
Implicit Types (e f : StaleNodeIndex).

Definition index_ok e : Prop := u64_ok (stale_since_version e) /\ key_ok (stale_node_key e).

Lemma encode_key_order e f : index_ok e -> index_ok f ->
  lex_compare (StaleNodeIndex_encode_key e) (StaleNodeIndex_encode_key f) =
  match stale_since_version e ?= stale_since_version f with
  | Eq => NodeKey_compare (stale_node_key e) (stale_node_key f)
  | c => c
  end.
Proof.
  intros [He Hke] [Hf Hkf]. unfold StaleNodeIndex_encode_key. rewrite !write_u64_be_spec by done.
  rewrite lex_compare_be by (rewrite ?be_bytes_length; done || apply be_bytes_ok).
  rewrite !be_value_bytes by done. by rewrite NodeKey_encode_order.
Qed.

Lemma StaleNodeIndex_roundtrip e : index_ok e -> StaleNodeIndex_decode_key (StaleNodeIndex_encode_key e) = Ok e.
Proof.
  intros [Hs Hk]. unfold StaleNodeIndex_decode_key, StaleNodeIndex_encode_key, ensure_slice_len_gt.
  rewrite write_u64_be_spec by done. set (a := be_bytes 8 (stale_since_version e)).
  assert (Ha : length a = 8%nat) by apply be_bytes_length.
  rewrite take_app_length', drop_app_length' by done. rewrite ensure_true, obind_Ok.
  - rewrite <- (app_nil_r a). unfold a. rewrite read_u64_be_bytes, obind_Ok, NodeKey_decode_encode, obind_Ok by done.
    by destruct e.
  - apply Z.ltb_lt. unfold blen. rewrite length_app, Ha, NodeKey_encode_bytes, length_app, be_bytes_length by done. cbn. lia.
Qed.

(** The entries are read from the first one of the start version on. *)
Lemma seek_start e start : index_ok e -> u64_ok start ->
  lex_compare (StaleNodeIndex_encode_key e)
    (StaleNodeIndex_encode_key (mkStaleNodeIndex start (mkNodeKey 0 (pack [])))) <> Lt <->
  start <= stale_since_version e.
Proof.
  intros He Hs. rewrite encode_key_order; [|done|].
  2:{ split; [done|]. split; [done|]. apply pack_path_ok; [constructor|cbn; lia]. }
  destruct He as [_ [[Hv _] (Hn & _)]]. cbn [stale_since_version stale_node_key].
  assert (E : NodeKey_compare (stale_node_key e) (mkNodeKey 0 (pack [])) <> Lt).
  { unfold NodeKey_compare, NibblePath_compare. cbn [nk_version nk_nibble_path]. rewrite np_num_pack, np_bytes_pack. cbn [pack_bytes length].
    destruct (nk_version (stale_node_key e) ?= 0) eqn:E1; [|change (nk_version (stale_node_key e) < 0) in E1; lia|done].
    destruct (_ ?= Z.of_nat 0) eqn:E2; [by destruct (np_bytes _)| |done].
    change (np_num_nibbles (nk_nibble_path (stale_node_key e)) < Z.of_nat 0) in E2. lia. }
  destruct (Z.compare_spec (stale_since_version e) start) as [->|Hlt|Hgt]; [|split; [done|lia]|split; [lia|done]].
  split; [lia|done].
Qed.

Lemma encode_key_since e f : index_ok e -> index_ok f ->
  lex_compare (StaleNodeIndex_encode_key e) (StaleNodeIndex_encode_key f) <> Gt ->
  stale_since_version e <= stale_since_version f.
Proof.
  intros He Hf. rewrite encode_key_order by done.
  destruct (Z.compare_spec (stale_since_version e) (stale_since_version f)); lia || done.
Qed.
End Order.

Section PrunerFacts.
Context {HV : Type} `{HashValueOps HV} `{HashValueBits HV} `{!HashValueLaws HV} `{CryptoHasher HV}
  `{LeafHasher HV} `{HashValueKeys HV} `{!HashValueKeysLaws HV} `{Itertools} `{!ItertoolsLaws} {K : Type}.
Context {DB : Type} `{SchemaDb HV K DB} `{HB : ByteOrder} `{!ByteOrderLaws} `{!SchemaDbLaws HV K DB}.
Context (sch : StaleSchema).
Implicit Types (db : DB) (d : db_view HV K) (e : StaleNodeIndex) (self : StateMerkleDb DB)
  (td : tree_db (HV := HV) (K := K)).

Definition stale_ok_view d : Prop := forall s e, e ∈ dv_stale d s -> index_ok e.

(** ** Reading the index *)
Definition found_upto (l : list StaleNodeIndex) (start target : Z) (indices : list StaleNodeIndex)
    (next : option Z) : Prop :=
  (forall e, e ∈ indices <-> e ∈ l /\ start <= stale_since_version e <= target) /\
  match next with
  | None => forall e, e ∈ l -> stale_since_version e < start
  | Some v => start <= v /\ (exists e, e ∈ l /\ stale_since_version e = v) /\
      forall e, e ∈ l -> start <= stale_since_version e -> target < stale_since_version e -> target < v <= stale_since_version e
  end.

Lemma collect_stale_spec target items : forall acc next0 indices next l,
  collect_stale target items acc next0 = Ok (indices, next) -> yields l items ->
  exists l1 l2, l = l1 ++ l2 /\ indices = acc ++ l1 /\ Forall (fun e => stale_since_version e <= target) l1 /\
    match l2 with
    | [] => next = match list.last l1 with Some e => Some (stale_since_version e) | None => next0 end
    | f :: _ => target < stale_since_version f /\ next = Some (stale_since_version f)
    end.
Proof.
  induction items as [|item items IH]; intros acc next0 indices next l E Hy.
  - assert (l = []) as ->.
    { destruct Hy as [Hm|(l' & l'' & e & rest & -> & Hm)]; [by destruct l; [|discriminate Hm]|by destruct l'; discriminate Hm]. }
    injection E as <- <-. exists [], []. rewrite (app_nil_r acc). split_and!; [done|done|constructor|done].
  - cbn [collect_stale] in E. destruct item as [e| |]; [rewrite obind_Ok in E|discriminate E|discriminate E].
    assert (Hl : exists l', l = e :: l' /\ yields l' items).
    { destruct Hy as [Hm|(l' & l'' & e' & rest & -> & Hm)].
      - destruct l as [|e' l]; [done|]. injection Hm as -> ->. exists l. split; [done|by left].
      - destruct l' as [|e1 l']; [done|]. injection Hm as -> ->. exists (l' ++ l''). split; [done|].
        right. by exists l', l'', e', rest. }
    destruct Hl as (l' & -> & Hy'). destruct (stale_since_version e <=? target) eqn:Ele.
    + apply Z.leb_le in Ele. destruct (IH _ _ _ _ l' E Hy') as (l1 & l2 & -> & -> & Hf & Hn).
      exists (e :: l1), l2. rewrite <- app_assoc. split_and!; [done|done|by constructor|].
      destruct l2 as [|f l2]; [|done]. rewrite Hn. rewrite last_cons. by destruct (list.last l1).
    + apply Z.leb_gt in Ele. injection E as <- <-. exists [], (e :: l'). rewrite (app_nil_r acc). split_and!; [done|done|constructor|done|done].
Qed.

Lemma get_stale_spec db start target indices next : stale_ok_view (view db) -> u64_ok start ->
  get_stale_node_indices sch db start target = Ok (indices, next) ->
  found_upto (dv_stale (view db) sch) start target indices next.
Proof.
  intros Hok Hs E. unfold get_stale_node_indices in E. rewrite new_empty_path_pack, obind_Ok in E.
  apply bind_Ok in E as (items & Ei & E).
  destruct (db_stale_from_spec _ _ _ _ Ei) as (l & Hy & Hsort & Hl).
  destruct (collect_stale_spec _ _ _ _ _ _ _ E Hy) as (l1 & l2 & -> & -> & Hf & Hn). clear E Ei Hy.
  assert (Hin : forall e, e ∈ l1 ++ l2 <-> e ∈ dv_stale (view db) sch /\ start <= stale_since_version e).
  { intros e. rewrite Hl. split; intros [He Hc]; (split; [done|]); apply (seek_start e start); eauto. }
  assert (Hle : forall e f, e ∈ l1 ++ l2 -> f ∈ l1 ++ l2 ->
    lex_compare (StaleNodeIndex_encode_key e) (StaleNodeIndex_encode_key f) <> Gt ->
    stale_since_version e <= stale_since_version f).
  { intros e f He Hf'. apply Hin in He as [He _], Hf' as [Hf' _]. apply encode_key_since; eauto. }
  rewrite Forall_forall in Hf. cbn [app]. unfold found_upto.
  destruct l2 as [|f l2].
  - rewrite app_nil_r in *. split.
    + intros e. rewrite Hin. split; [|tauto]. intros [He Hge]. split; [done|]. split; [done|]. apply Hf, Hin. done.
    + subst next. destruct (list.last l1) as [e|] eqn:El.
      * assert (He : e ∈ l1) by (by apply last_Some_elem_of). apply Hin in He as He'. destruct He' as [He' Hge].
        split; [done|]. split; [by exists e|]. intros g Hg Hgs Hgt. assert (g ∈ l1) by (by apply Hin).
        specialize (Hf g ltac:(done)). lia.
      * apply last_None in El. subst l1. intros e He.
        destruct (Z.lt_ge_cases (stale_since_version e) start) as [|Hge]; [done|].
        assert (Habs : e ∈ @nil StaleNodeIndex) by (by apply Hin). by apply not_elem_of_nil in Habs.
  - destruct Hn as [Hgt ->]. assert (Hff : f ∈ l1 ++ f :: l2) by (apply elem_of_app; right; left).
    assert (Htail : forall e, e ∈ l2 -> stale_since_version f <= stale_since_version e).
    { intros e He. apply Hle; [done|apply elem_of_app; right; by right|].
      apply StronglySorted_app in Hsort as (_ & _ & Hs2). apply StronglySorted_inv in Hs2 as [_ Hs2].
      rewrite Forall_forall in Hs2. by apply Hs2. }
    split.
    + intros e. split.
      * intros He. assert (He' : e ∈ l1 ++ f :: l2) by (apply elem_of_app; by left). apply Hin in He' as [??].
        split; [done|]. split; [done|by apply Hf].
      * intros [He Hr]. assert (He' : e ∈ l1 ++ f :: l2) by (apply Hin; split; [done|lia]).
        apply elem_of_app in He' as [|He']; [done|]. apply elem_of_cons in He' as [->|He']; [lia|].
        apply Htail in He'. lia.
    + apply Hin in Hff as [Hff Hfs]. split; [done|]. split; [by exists f|]. intros e He Hes Het.
      assert (He' : e ∈ l1 ++ f :: l2) by (by apply Hin). apply elem_of_app in He' as [He'|He'].
      * apply Hf in He'. lia.
      * apply elem_of_cons in He' as [->|He']; [lia|]. apply Htail in He'. lia.
Qed.

(** What is found is in the index and not newer than the target, wherever the search
    starts. *)
Lemma get_stale_upto db start target indices next : get_stale_node_indices sch db start target = Ok (indices, next) ->
  forall e, e ∈ indices -> e ∈ dv_stale (view db) sch /\ stale_since_version e <= target.
Proof.
  intros E e He. unfold get_stale_node_indices in E. rewrite new_empty_path_pack, obind_Ok in E. apply bind_Ok in E as (items & Ei & E).
  destruct (db_stale_from_spec _ _ _ _ Ei) as (l & Hy & _ & Hl). destruct (collect_stale_spec _ _ _ _ _ _ _ E Hy) as (l1 & l2 & -> & -> & Hf & _).
  cbn [app] in He. rewrite Forall_forall in Hf. split; [|by apply Hf]. apply (Hl e). apply elem_of_app. by left.
Qed.

(** ** Deleting entries *)

(** [d'] is [d] without some entries not newer than [m], and without their nodes. *)
Definition pruned (m : Z) d d' : Prop :=
  exists idx, (forall e, e ∈ idx -> e ∈ dv_stale d sch /\ stale_since_version e <= m) /\
    (forall k, dv_node d' k = if decide (k ∈ map stale_node_key idx) then None else dv_node d k) /\
    (forall s e, e ∈ dv_stale d' s <-> e ∈ dv_stale d s /\ ~ (s = sch /\ e ∈ idx)).

Lemma pruned_refl m d : pruned m d d.
Proof.
  exists []. split_and!; [intros e He; by apply not_elem_of_nil in He| |].
  - intros k. rewrite decide_False; [done|apply not_elem_of_nil].
  - intros s e. split; [|tauto]. intros He. split; [done|]. intros [_ Hn]. by apply not_elem_of_nil in Hn.
Qed.

Lemma pruned_trans m1 m2 m d d1 d2 : m1 <= m -> m2 <= m -> pruned m1 d d1 -> pruned m2 d1 d2 -> pruned m d d2.
Proof.
  intros Hm1 Hm2 (i1 & Hi1 & Hn1 & Hs1) (i2 & Hi2 & Hn2 & Hs2). exists (i1 ++ i2). split_and!.
  - intros e He. apply elem_of_app in He as [He|He]; [apply Hi1 in He as [??]; split; [done|lia]|].
    apply Hi2 in He as [He ?]. apply Hs1 in He as [??]. split; [done|lia].
  - intros k. rewrite Hn2, Hn1, map_app. destruct (decide (k ∈ map _ i1 ++ _)) as [Hin|Hin].
    + apply elem_of_app in Hin as [Hin|Hin]; repeat case_decide; done.
    + apply not_elem_of_app in Hin as [Hin1 Hin2]. by rewrite !decide_False.
  - intros s e. rewrite Hs2, Hs1, elem_of_app. naive_solver.
Qed.

Lemma pruned_ok m d d' : pruned m d d' -> stale_ok_view d -> stale_ok_view d'.
Proof. intros (idx & _ & _ & Hs) Hok s e He. apply Hs in He as [He _]. by eapply Hok. Qed.

Lemma pruned_same m d d' d'' : same_view d'' d' -> pruned m d d' -> pruned m d d''.
Proof.
  intros (Hn & Hs & _) (idx & Hi & Hn' & Hs'). exists idx. split_and!; [done| |].
  - intros k. by rewrite Hn, Hn'.
  - intros s e. by rewrite Hs, Hs'.
Qed.

Lemma apply_versions d vs : Forall (fun op => exists k v, op = Put_version (HV := HV) (K := K) k v) vs ->
  dv_node (apply_ops d vs) = dv_node d /\ dv_stale (apply_ops d vs) = dv_stale d.
Proof.
  intros Hf. revert d. induction Hf as [|op vs (k & v & ->) _ IH]; intros d; [done|].
  unfold apply_ops. cbn [fold_left]. fold (apply_ops (apply_op d (Put_version k v)) vs).
  destruct (IH (apply_op d (Put_version k v))) as [-> ->]. done.
Qed.

Lemma apply_deletes d idx vs : Forall (fun op => exists k v, op = Put_version (HV := HV) (K := K) k v) vs ->
  let d' := apply_ops d (delete_indices sch idx ++ vs) in
  (forall k, dv_node d' k = if decide (k ∈ map stale_node_key idx) then None else dv_node d k) /\
  (forall s e, e ∈ dv_stale d' s <-> e ∈ dv_stale d s /\ ~ (s = sch /\ e ∈ idx)).
Proof.
  intros Hvs. revert d. induction idx as [|f idx IH]; intros d; cbn zeta.
  - cbn [delete_indices flat_map app]. destruct (apply_versions d vs Hvs) as [-> ->]. split.
    + intros k. rewrite decide_False; [done|apply not_elem_of_nil].
    + intros s e. split; [|tauto]. intros He. split; [done|]. intros [_ Hn]. by apply not_elem_of_nil in Hn.
  - set (d1 := apply_op (apply_op d (Delete_node (stale_node_key f))) (Delete_stale sch f)).
    destruct (IH d1) as [Hn Hs].
    change (apply_ops d (delete_indices sch (f :: idx) ++ vs)) with (apply_ops d1 (delete_indices sch idx ++ vs)).
    split.
    + intros k. rewrite Hn. cbn [map]. subst d1. cbn [apply_op dv_node].
      destruct (decide (k ∈ stale_node_key f :: _)) as [Hin|Hin].
      * apply elem_of_cons in Hin as [->|Hin]; repeat case_decide; done.
      * apply not_elem_of_cons in Hin as [Hne Hin]. by rewrite !decide_False.
    + intros s e. rewrite Hs, elem_of_cons. subst d1. cbn [apply_op dv_stale]. case_decide as Es.
      * subst s. rewrite list_elem_of_filter. naive_solver.
      * naive_solver.
Qed.

(** A batch of deletions is written, or nothing is. *)
Lemma write_deletes db db' r idx vs m : Forall (fun op => exists k v, op = Put_version (HV := HV) (K := K) k v) vs ->
  (forall e, e ∈ idx -> e ∈ dv_stale (view db) sch /\ stale_since_version e <= m) ->
  write_schemas (delete_indices sch idx ++ vs) db = (db', r) -> pruned m (view db) (view db').
Proof.
  intros Hvs Hi Hw. apply write_schemas_spec in Hw. destruct r as [u| |]; [|rewrite Hw; apply pruned_refl..].
  eapply pruned_same; [exact Hw|]. destruct (apply_deletes (view db) idx vs Hvs) as [Hn Hs]. by exists idx.
Qed.

Lemma version_puts (b : bool) k v :
  Forall (fun op => exists k v, op = Put_version (HV := HV) (K := K) k v) (if b then [Put_version k v] else []).
Proof. destruct b; repeat constructor; eauto. Qed.

(** ** A shard *)
Lemma shard_prune_loop_safe fuel shard_id cur target : forall db db' r, stale_ok_view (view db) ->
  shard_prune_loop sch fuel shard_id cur target db = (db', r) -> pruned target (view db) (view db').
Proof.
  induction fuel as [|fuel IH]; intros db db' r Hok E; cbn [shard_prune_loop] in E;
    (apply pbind_inv in E as [(s1 & [indices next] & Eg & E)|[(err & Eg & ->)|(err & Eg & ->)]];
      [|injection Eg as <- _; apply pruned_refl..]);
    injection Eg as <- Eg; pose proof (get_stale_upto _ _ _ _ _ Eg) as Hi';
    (apply pbind_inv in E as [(db1 & [] & Ew & E)|[(err & Ew & ->)|(err & Ew & ->)]];
      [|by eapply write_deletes; [apply version_puts|exact Hi'|exact Ew]..]);
    (assert (Hp : pruned target (view db) (view db1))
      by (eapply write_deletes; [apply version_puts|exact Hi'|exact Ew]));
    (destruct (match next with Some _ => _ | None => true end); [by injection E as <- _|]).
  - by injection E as <- _.
  - apply (pruned_trans target target target _ (view db1)); [lia|lia|exact Hp|]. eapply IH; [|exact E]. by eapply pruned_ok.
Qed.

Lemma get_or_initialize_safe key m db db' r (t : Z) : get_or_initialize_subpruner_progress key m db = (db', r) ->
  pruned t (view db) (view db').
Proof.
  unfold get_or_initialize_subpruner_progress. intros E.
  apply pbind_inv in E as [(s1 & o & Eg & E)|[(err & Eg & ->)|(err & Eg & ->)]];
    injection Eg as <- Eg; [|apply pruned_refl..].
  destruct o as [v|]; [injection E as <- _; apply pruned_refl|].
  assert (Hw : forall db1 r1, write_schemas [Put_version key m] db = (db1, r1) -> pruned t (view db) (view db1)).
  { intros db1 r1 Ew. change [Put_version key m] with (delete_indices (HV := HV) (K := K) sch [] ++ [Put_version key m]) in Ew.
    eapply write_deletes; [apply (version_puts true)| |exact Ew]. intros e He. by apply not_elem_of_nil in He. }
  apply pbind_inv in E as [(db1 & [] & Ew & E)|[(err & Ew & ->)|(err & Ew & ->)]]; [|by eapply Hw..].
  injection E as <- _. by eapply Hw.
Qed.

(** ** The databases hold a database of versions *)
Definition shard_of (k : NodeKey) : option Z :=
  match NodeKey_get_shard_id k with Ok o => o | _ => None end.

(** Keys as the tree makes them. *)
Definition path_good (k : NodeKey) : Prop :=
  exists q, Forall nibble_ok q /\ (length q <= 64)%nat /\ nk_nibble_path k = pack q.

Lemma shard_id_good k q : Forall nibble_ok q -> nk_nibble_path k = pack q -> NodeKey_get_shard_id k = Ok (head q).
Proof.
  intros Hq E. unfold NodeKey_get_shard_id, get_shard_id. rewrite E, np_num_pack. destruct q as [|i q]; [done|].
  rewrite (proj2 (Z.ltb_lt _ _)) by (cbn [length]; lia).
  change 0 with (Z.of_nat 0) at 1. rewrite (get_nibble_pack (i :: q) 0 i) by done. by rewrite obind_Ok.
Qed.

(** The databases [self] hold the nodes [s] and the stale index [st]. *)
Record stored self (s : store (HV := HV) (K := K)) (st : list StaleNodeIndex) : Prop := {
  so_len : length (smdb_dbs self) = if enable_sharding self then 17%nat else 1%nat;
  so_keys : forall k n, s k = Some n -> path_good k;
  so_nodes : forall k db, smdb_dbs self !! slot self (shard_of k) = Some db -> s k = dv_node (view db) k;
  so_stale : forall e, e ∈ st <-> exists j db s, smdb_dbs self !! j = Some db /\ e ∈ dv_stale (view db) s;
  so_place : forall j db s e, smdb_dbs self !! j = Some db -> e ∈ dv_stale (view db) s ->
    index_ok e /\ slot self (shard_of (stale_node_key e)) = j;
  so_once : forall j db s s' e, smdb_dbs self !! j = Some db -> e ∈ dv_stale (view db) s ->
    e ∈ dv_stale (view db) s' -> s = s';
  so_only : forall j db k n, smdb_dbs self !! j = Some db -> dv_node (view db) k = Some n -> slot self (shard_of k) = j;
}.

Definition stores self td : Prop := stored self (td_nodes td) (td_stale td).

(** The database of a key. *)
Lemma stored_db self s st k : stored self s st -> path_good k ->
  exists db, db_by_key self k = Ok db /\ smdb_dbs self !! slot self (shard_of k) = Some db.
Proof.
  intros Hs (q & Hq & _ & E). pose proof (shard_id_good k q Hq E) as Ek. unfold db_by_key, smdb_db, shard_of.
  rewrite Ek, obind_Ok. assert (Hlt : (slot self (head q) < length (smdb_dbs self))%nat).
  { rewrite (so_len _ _ _ Hs). unfold slot. destruct q as [|i q]; cbn [head]; destruct (enable_sharding self); try lia.
    apply Forall_cons in Hq as [Hi _]. unfold nibble_ok in Hi. lia. }
  destruct (lookup_lt_is_Some_2 _ _ Hlt) as [db Hdb]. exists db. by rewrite Hdb.
Qed.

(** The entries of an index. *)
Definition entry (sch' : StaleSchema) self e : Prop :=
  exists j db, smdb_dbs self !! j = Some db /\ e ∈ dv_stale (view db) sch'.

(** [self'] with [td'] is reached from [self] with [td] by deleting entries of the index
    that are not newer than version [m]. *)
Definition deletes (m : Z) self td self' td' : Prop :=
  db_reachable td' /\ td_versions td' = td_versions td /\ (forall s e, entry s self' e -> entry s self e) /\
  exists st, td_pruned td' = td_pruned td ++ st /\ forall e, e ∈ st -> stale_since_version e <= m /\ entry sch self e.

Lemma deletes_refl m self td : db_reachable td -> deletes m self td self td.
Proof.
  intros Hr. split_and!; [done|done|done|]. exists []. rewrite app_nil_r. split; [done|].
  intros e He. by apply not_elem_of_nil in He.
Qed.

Lemma deletes_trans m1 m2 m self td self1 td1 self2 td2 : m1 <= m -> m2 <= m -> deletes m1 self td self1 td1 ->
  deletes m2 self1 td1 self2 td2 -> deletes m self td self2 td2.
Proof.
  intros H1' H2' (_ & V1 & S1 & st1 & O1 & P1) (R2 & V2 & S2 & st2 & O2 & P2).
  split_and!; [done|congruence|intros s e He; by apply S1, S2|]. exists (st1 ++ st2).
  split; [by rewrite O2, O1, app_assoc|]. intros e He. apply elem_of_app in He as [He|He].
  - apply P1 in He as [??]. split; [lia|done].
  - apply P2 in He as [??]. split; [lia|by apply S1].
Qed.

(** Versions from [m] on are kept. *)
Lemma deletes_kept m self td self' td' v : deletes m self td self' td' -> m <= v -> kept td v -> kept td' v.
Proof.
  intros (_ & _ & _ & st & O & P) Hm Hk. unfold kept. rewrite O. apply Forall_app. split; [done|].
  apply Forall_forall. intros e He. apply P in He as [??]. lia.
Qed.

Definition set_db self (j : nat) db : StateMerkleDb DB := mkStateMerkleDb (<[j := db]> (smdb_dbs self)) (enable_sharding self).

Lemma slot_set_db self j db o : slot (set_db self j db) o = slot self o.
Proof. done. Qed.

Lemma set_db_lookup self j db db' j' db1 : smdb_dbs self !! j = Some db -> smdb_dbs (set_db self j db') !! j' = Some db1 ->
  (j' = j /\ db1 = db') \/ (j' <> j /\ smdb_dbs self !! j' = Some db1).
Proof.
  intros Hj E. cbn in E. destruct (decide (j = j')) as [->|Hne].
  - rewrite list_lookup_insert_eq in E by (by eapply lookup_lt_Some). injection E as <-. by left.
  - rewrite list_lookup_insert_ne in E by done. right. by split; [intros ->|].
Qed.

Lemma filter_complement {A} (P : A -> Prop) `{!forall x, Decision (P x)} (l : list A) :
  l ≡ₚ filter P l ++ filter (fun x => ~ P x) l.
Proof.
  induction l as [|x l IH]; [done|]. rewrite !filter_cons. destruct (decide (P x)) as [Hp|Hp].
  - rewrite decide_False by tauto. cbn [app]. by constructor.
  - rewrite decide_True by done. by rewrite <- Permutation_middle, <- IH.
Qed.

Lemma stores_pruned m self td j db db' : db_reachable td -> stores self td -> smdb_dbs self !! j = Some db ->
  pruned m (view db) (view db') -> exists td', deletes m self td (set_db self j db') td' /\ stores (set_db self j db') td'.
Proof.
  intros Hr Hh Hj (idx & Hi & Hn & Hs).
  set (st := filter (fun e => e ∈ idx) (td_stale td)). set (rest := filter (fun e => ~ e ∈ idx) (td_stale td)).
  assert (Hidx : forall e, e ∈ idx -> e ∈ td_stale td /\ slot self (shard_of (stale_node_key e)) = j).
  { intros e He. apply Hi in He as [He _]. split; [apply (so_stale _ _ _ Hh); by exists j, db, sch|].
    by eapply (so_place _ _ _ Hh). }
  assert (Hst : forall e, e ∈ st <-> e ∈ idx).
  { intros e. unfold st. rewrite list_elem_of_filter. split; [tauto|]. intros He. split; [done|by apply Hidx]. }
  exists (mkTreeDb (prune (td_nodes td) st) rest (td_versions td) (td_pruned td ++ st)). split.
  - split_and!; [|done| |].
    + eapply reach_step; [exact Hr|]. apply step_prune, filter_complement.
    + intros s e (j1 & db1 & Hj1 & He). destruct (set_db_lookup _ _ _ _ _ _ Hj Hj1) as [[-> ->]|[_ Hj1']]; [|by exists j1, db1].
      exists j, db. split; [done|]. by apply Hs in He as [? _].
    + exists st. split; [done|]. intros e He. apply Hst, Hi in He as [??]. split; [done|by exists j, db].
  - split; cbn [td_nodes td_stale].
    + cbn. rewrite length_insert. apply (so_len _ _ _ Hh).
    + intros k n Hk. apply prune_Some in Hk as [Hk _]. by apply (so_keys _ _ _ Hh) in Hk.
    + intros k db1 Hk. rewrite slot_set_db in Hk. unfold prune.
      assert (Hkin : k ∈ map stale_node_key st <-> k ∈ map stale_node_key idx).
      { split; intros Hin; apply list_elem_of_fmap in Hin as (e & -> & He); apply list_elem_of_fmap_2; by apply Hst. }
      destruct (set_db_lookup _ _ _ _ _ _ Hj Hk) as [[Ej ->]|[Hne Hk']].
      * rewrite Hn. rewrite <- (so_nodes _ _ _ Hh k db) by (by rewrite Ej). by repeat case_decide; try tauto.
      * rewrite decide_False; [by apply (so_nodes _ _ _ Hh)|]. intros Hin. apply Hkin in Hin.
        apply list_elem_of_fmap in Hin as (e & -> & He). apply Hidx in He as [_ He]. done.
    + intros e. unfold rest. rewrite list_elem_of_filter, (so_stale _ _ _ Hh). split.
      * intros (Hni & j1 & db1 & s & Hj1 & He). destruct (decide (j1 = j)) as [->|Hne].
        -- assert (db1 = db) as -> by congruence. exists j, db', s. split.
           ++ cbn. apply list_lookup_insert_eq. by eapply lookup_lt_Some.
           ++ apply Hs. split; [done|tauto].
        -- exists j1, db1, s. split; [|done]. cbn. by rewrite list_lookup_insert_ne.
      * intros (j1 & db1 & s & Hj1 & He). destruct (set_db_lookup _ _ _ _ _ _ Hj Hj1) as [[-> ->]|[Hne Hj1']].
        -- apply Hs in He as [He Hnot]. split; [|by exists j, db, s]. intros Hin. apply Hnot. split; [|done].
           apply Hi in Hin as [Hin _]. by eapply (so_once _ _ _ Hh).
        -- split; [|by exists j1, db1, s]. intros Hin. apply Hidx in Hin as [_ Hin].
           destruct (so_place _ _ _ Hh _ _ _ _ Hj1' He) as [_ Hp]. congruence.
    + intros j1 db1 s e Hj1 He. rewrite slot_set_db. destruct (set_db_lookup _ _ _ _ _ _ Hj Hj1) as [[-> ->]|[Hne Hj1']].
      * apply Hs in He as [He _]. by eapply (so_place _ _ _ Hh).
      * by eapply (so_place _ _ _ Hh).
    + intros j1 db1 s s' e Hj1 He He'. destruct (set_db_lookup _ _ _ _ _ _ Hj Hj1) as [[-> ->]|[Hne Hj1']].
      * apply Hs in He as [He _], He' as [He' _]. by eapply (so_once _ _ _ Hh).
      * by eapply (so_once _ _ _ Hh).
    + intros j1 db1 k n Hj1 Hk. rewrite slot_set_db. destruct (set_db_lookup _ _ _ _ _ _ Hj Hj1) as [[-> ->]|[Hne Hj1']].
      * rewrite Hn in Hk. case_decide; [done|]. by eapply (so_only _ _ _ Hh).
      * by eapply (so_only _ _ _ Hh).
Qed.

(** ** Programs that only delete what is stale at version [m] *)
Definition safe {A} (m : Z) (P : prog (StateMerkleDb DB) A) : Prop := forall self td self' r,
  db_reachable td -> stores self td -> P self = (self', r) -> exists td', deletes m self td self' td' /\ stores self' td'.

Lemma safe_ret {A} m (a : A) : safe m (pret a).
Proof. intros self td self' r Hr Hh E. injection E as <- _. exists td. split; [by apply deletes_refl|done]. Qed.

Lemma safe_bind {A B} m (P : prog (StateMerkleDb DB) A) (Q : A -> prog (StateMerkleDb DB) B) :
  safe m P -> (forall a, safe m (Q a)) -> safe m (pbind P Q).
Proof.
  intros HP HQ self td self' r Hr Hh E.
  apply pbind_inv in E as [(s1 & a & E1 & E2)|[(err & E1 & ->)|(err & E1 & ->)]]; [|by eapply HP..].
  destruct (HP _ _ _ _ Hr Hh E1) as (td1 & Hk1 & Hh1). pose proof Hk1 as (Hr1 & _).
  destruct (HQ a _ _ _ _ Hr1 Hh1 E2) as (td2 & Hk2 & Hh2). exists td2. split; [|done].
  eapply (deletes_trans m m); [lia|lia|done|done].
Qed.

Lemma safe_reading {A} m (f : StateMerkleDb DB -> outcome A) : safe m (reading f).
Proof. intros self td self' r Hr Hh E. injection E as <- _. exists td. split; [by apply deletes_refl|done]. Qed.

(** A program on one database. *)
Lemma on_db_inv {A} sid (P : prog DB A) self self' r : on_db sid P self = (self', r) ->
  self' = self \/ exists db db', smdb_dbs self !! slot self sid = Some db /\ P db = (db', r) /\
    self' = set_db self (slot self sid) db'.
Proof.
  unfold on_db, smdb_db, expect. destruct (smdb_dbs self !! slot self sid) as [db|] eqn:Edb.
  - destruct (P db) as [db' r'] eqn:EP. intros E. injection E as <- <-. right. by exists db, db'.
  - intros E. injection E as <- _. by left.
Qed.

Lemma stores_ok self td j db : stores self td -> smdb_dbs self !! j = Some db -> stale_ok_view (view db).
Proof. intros Hh Hj s e He. by apply (so_place _ _ _ Hh j db s e). Qed.

Lemma safe_on_db {A} m sid (P : prog DB A) :
  (forall db db' r, stale_ok_view (view db) -> P db = (db', r) -> pruned m (view db) (view db')) ->
  safe m (on_db sid P).
Proof.
  intros HP self td self' r Hr Hh E. apply on_db_inv in E as [->|(db & db' & Hdb & E & ->)].
  - exists td. split; [by apply deletes_refl|done].
  - eapply stores_pruned; [done|done|done|]. eapply HP; [by eapply stores_ok|done].
Qed.

Lemma safe_prune_shards shards cur target : safe target (prune_shards sch shards cur target).
Proof.
  induction shards as [|i shards IH]; cbn [prune_shards]; [apply safe_ret|].
  apply safe_bind; [|done]. apply safe_on_db. intros db db' r Hok E. by eapply shard_prune_loop_safe.
Qed.

Lemma u64_le (a b : Z) : 0 <= a <= b -> u64_ok b -> u64_ok a.
Proof. unfold u64_ok. lia. Qed.

Lemma safe_on_db_reading {A} m sid (f : DB -> outcome A) : safe m (on_db sid (reading f)).
Proof. apply safe_on_db. intros db db' r _ E. injection E as <- _. apply pruned_refl. Qed.

(** Catching up the shards deletes up to the progress of the metadata. *)
Lemma safe_new_shard i m : safe m (on_db (Some i) (StateMerkleShardPruner_new sch i m)).
Proof.
  apply safe_on_db. intros db db' r Hok E. unfold StateMerkleShardPruner_new in E.
  apply pbind_inv in E as [(db1 & v & E1 & E2)|[(err & E1 & ->)|(err & E1 & ->)]];
    [|by eapply get_or_initialize_safe..].
  pose proof (get_or_initialize_safe _ _ _ _ _ m E1) as Hp1.
  apply (pruned_trans m m m _ (view db1)); [lia|lia|done|].
  eapply shard_prune_loop_safe; [|exact E2]. by eapply pruned_ok.
Qed.

Lemma safe_new_shards shards m : safe m (new_shard_pruners sch shards m).
Proof.
  induction shards as [|i shards IH]; cbn [new_shard_pruners]; [apply safe_ret|].
  apply safe_bind; [apply safe_new_shard|]. intros _. apply safe_bind; [done|]. intros l. apply safe_ret.
Qed.

(** ** The whole pruner *)
Abbreviation World := (StateMerkleDb DB * StateMerklePruner)%type (only parsing).
Implicit Types (w : World).

Lemma with_db_inv {A} (P : prog (StateMerkleDb DB) A) w w' r : with_db P w = (w', r) ->
  exists self', P (fst w) = (self', r) /\ w' = (self', snd w).
Proof. unfold with_db. destruct (P (fst w)) as [self' r'] eqn:E. intros [= <- <-]. by exists self'. Qed.

Lemma on_db_reading {A} sid (f : DB -> outcome A) self self' a :
  on_db sid (reading f) self = (self', Ok a) ->
  self' = self /\ exists db, smdb_dbs self !! slot self sid = Some db /\ f db = Ok a.
Proof.
  unfold on_db, smdb_db, expect, reading. destruct (smdb_dbs self !! slot self sid) as [db|] eqn:Edb; [|done].
  intros [= <- Ef]. split; [|by exists db]. rewrite list_insert_id by done. by destruct self.
Qed.

Lemma maybe_prune_safe cur target w td w' r : db_reachable td -> stores (fst w) td ->
  maybe_prune_single_version sch cur target w = (w', r) ->
  (exists td', deletes target (fst w) td (fst w') td' /\ stores (fst w') td') /\
  smp_target_version (snd w') = smp_target_version (snd w) /\ shard_pruners (snd w') = shard_pruners (snd w) /\
  (forall v, r = Ok (Some v) -> cur <= v <= target).
Proof.
  intros Hr Hh E. unfold maybe_prune_single_version in E.
  apply pbind_inv in E as [(w1 & nv & E1 & E)|[(err & E1 & ->)|(err & E1 & ->)]]; [|done..].
  injection E1 as <- _. destruct (target <? Z.max nv cur) eqn:Et.
  { injection E as <- <-. split; [exists td; split; [by apply deletes_refl|done]|done]. }
  apply Z.ltb_ge in Et. set (t := Z.max nv cur) in *.
  assert (Hsame : exists td', deletes target (fst w) td (fst w) td' /\ stores (fst w) td')
    by (exists td; split; [by apply deletes_refl|done]).
  apply pbind_inv in E as [(w1 & [indices next] & E1 & E)|[(err & E1 & ->)|(err & E1 & ->)]].
  2,3: apply with_db_inv in E1 as (self' & E1 & ->); split; [|done]; by eapply (safe_on_db_reading target).
  apply with_db_inv in E1 as (self1 & E1 & ->). apply on_db_reading in E1 as (-> & db & Hdb & Eg).
  pose proof (get_stale_upto _ _ _ _ _ Eg) as Hi.
  assert (Hwr : forall w2 r2, with_db (on_db None (write_schemas (delete_indices sch indices ++
      [Put_version (progress_metadata_key sch None) t]))) (fst w, snd w) = (w2, r2) ->
      (exists td', deletes target (fst w) td (fst w2) td' /\ stores (fst w2) td') /\ snd w2 = snd w).
  { intros w2 r2 Ew. apply with_db_inv in Ew as (self2 & Ew & ->). cbn [fst snd] in *. split; [|done].
    apply on_db_inv in Ew as [->|(db1 & db' & Hdb1 & Ew & ->)]; [done|].
    assert (db1 = db) as -> by congruence. eapply stores_pruned; [done|done|done|].
    eapply write_deletes; [apply (version_puts true)| |exact Ew]. intros e He. apply Hi in He as [??]. split; [done|lia]. }
  apply pbind_inv in E as [(w2 & [] & E2 & E)|[(err & E2 & ->)|(err & E2 & ->)]].
  2,3: apply Hwr in E2 as [? E2]; rewrite E2; done.
  apply Hwr in E2 as [Hk E2]. injection E as <- <-. cbn [fst snd]. rewrite E2. split_and!; [done|done|done|].
  intros v [= <-]. lia.
Qed.

Lemma prune_loop_safe target : forall fuel cur w td w' r, db_reachable td -> stores (fst w) td -> smp_prune_loop sch fuel cur target w = (w', r) ->
  exists td', deletes target (fst w) td (fst w') td' /\ stores (fst w') td'.
Proof.
  induction fuel as [|fuel IH]; intros cur w td w' r Hr Hh E; cbn [smp_prune_loop] in E;
    (destruct (cur <? target) eqn:Ecur;
      [apply Z.ltb_lt in Ecur|injection E as <- _; exists td; split; [by apply deletes_refl|done]]);
    (apply pbind_inv in E as [(w1 & o & E1 & E)|[(err & E1 & ->)|(err & E1 & ->)]];
      [|by destruct (maybe_prune_safe _ _ _ _ _ _ Hr Hh E1)..]);
    destruct (maybe_prune_safe _ _ _ _ _ _ Hr Hh E1) as ((td1 & Hk1 & Hh1) & _ & Hsp & Hv);
    pose proof Hk1 as (Hr1 & _);
    (destruct o as [v|]; [|injection E as <- _; by exists td1]);
    specialize (Hv v eq_refl);
    (apply pbind_inv in E as [(w2 & shards & E2 & E)|[(err & E2 & ->)|(err & E2 & ->)]]; [|done..]);
    injection E2 as <- _;
    (apply pbind_inv in E as [(w3 & [] & E3 & E)|[(err & E3 & ->)|(err & E3 & ->)]];
      apply with_db_inv in E3 as (self3 & E3 & ->);
      destruct (safe_prune_shards shards cur v _ _ _ _ Hr1 Hh1 E3) as (td3 & Hk3 & Hh3);
      (assert (Hk : deletes target (fst w) td self3 td3) by (eapply (deletes_trans target v); [lia|lia|exact Hk1|exact Hk3]));
      [|by exists td3..]);
    pose proof Hk as (Hr3 & _);
    (apply pbind_inv in E as [(w4 & [] & E4 & E)|[(err & E4 & ->)|(err & E4 & ->)]]; [|done..]);
    injection E4 as <-.
  - injection E as <- _. by exists td3.
  - destruct (IH v (self3, record_progress v (snd w1)) td3 _ _ Hr3 Hh3 E) as (td4 & Hk4 & Hh4). exists td4. split; [|done].
    eapply (deletes_trans target target); [lia|lia|exact Hk|exact Hk4].
Qed.

Lemma smp_prune_safe w td w' r : db_reachable td -> stores (fst w) td -> smp_prune sch w = (w', r) ->
  exists td', deletes (smp_target_version (snd w)) (fst w) td (fst w') td' /\ stores (fst w') td'.
Proof.
  intros Hr Hh E. unfold smp_prune, pbind at 1, reading at 1 in E. unfold pbind at 1, reading at 1 in E.
  destruct (smp_target_version (snd w) <=? smp_progress (snd w)).
  - injection E as <- _. exists td. split; [by apply deletes_refl|done].
  - apply pbind_inv in E as [(w1 & [] & E1 & E)|[(err & E1 & ->)|(err & E1 & ->)]];
      [injection E as <- _|..]; by eapply prune_loop_safe.
Qed.

(** A new pruner catches the shards up with the progress of the metadata. *)
Lemma smp_new_safe self td self' r : db_reachable td -> stores self td -> StateMerklePruner_new sch self = (self', r) ->
  exists m td', deletes m self td self' td' /\ stores self' td' /\
    (m = 0 \/ exists db, smdb_dbs self !! 0%nat = Some db /\ dv_version (view db) (progress_metadata_key sch None) = Some m) /\
    forall p, r = Ok p -> smp_target_version p = m /\ smp_progress p = m.
Proof.
  intros Hr Hh E. unfold StateMerklePruner_new in E.
  assert (Hsame : exists m td', deletes m self td self td' /\ stores self td' /\ (m = 0 \/ exists db, smdb_dbs self !! 0%nat = Some db /\
    dv_version (view db) (progress_metadata_key sch None) = Some m)).
  { exists 0, td. split_and!; [by apply deletes_refl|done|by left]. }
  apply pbind_inv in E as [(s1 & m & E1 & E)|[(err & E1 & ->)|(err & E1 & ->)]].
  2,3: apply on_db_inv in E1 as [->|(db & db' & Hdb & E1 & ->)];
    [|injection E1 as <- _; unfold set_db; rewrite list_insert_id by done; replace (mkStateMerkleDb _ _) with self by (by destruct self)];
    destruct Hsame as (m & td' & Hk & Hh' & Hm); by exists m, td'.
  apply on_db_reading in E1 as (-> & db & Hdb & Ep). unfold metadata_pruner_progress, get_progress in Ep.
  apply bind_Ok in Ep as (o & Eo & [= <-]). set (m := default 0 o) in *.
  assert (Hm : m = 0 \/ exists db, smdb_dbs self !! 0%nat = Some db /\ dv_version (view db) (progress_metadata_key sch None) = Some m).
  { destruct o as [v|]; [|by left]. right. exists db. split; [exact Hdb|]. by apply db_get_version_spec in Eo. }
  unfold pbind at 1, reading at 1 in E.
  assert (Hsafe : safe m (if enable_sharding self then new_shard_pruners sch (seqZ 0 NUM_STATE_SHARDS) m else pret []))
    by (destruct (enable_sharding self); [apply safe_new_shards|apply safe_ret]).
  apply pbind_inv in E as [(s2 & sp & E2 & E)|[(err & E2 & ->)|(err & E2 & ->)]];
    destruct (Hsafe _ _ _ _ Hr Hh E2) as (td' & Hk & Hh'); exists m, td';
    [|split; [exact Hk|]; by split_and!..].
  injection E as <- <-. split; [exact Hk|]. split_and!; [done|done|]. intros p Hp. by injection Hp as <-.
Qed.

(** ** Reading through the databases *)
Lemma smdb_sees rl self s st : (forall db k, is_ok (db_get_node db k) = true) -> stored self s st ->
  sees (smdb_reader rl self) s.
Proof.
  intros Hok Hh.
  assert (Hget : forall k, path_good k -> smdb_get_node_option self k = Ok (s k)).
  { intros k Hk. destruct (stored_db _ _ _ _ Hh Hk) as (db & E & Hdb). unfold smdb_get_node_option. rewrite E, obind_Ok.
    rewrite (so_nodes _ _ _ Hh k db Hdb). specialize (Hok db k). destruct (db_get_node db k) as [o| |] eqn:Eg; [|discriminate Hok..].
    by rewrite (db_get_node_spec _ _ _ Eg). }
  split.
  - intros k tag n Hn. cbn [smdb_reader get_node_option]. rewrite Hget, Hn by (by eapply (so_keys _ _ _ Hh)). done.
  - intros v i tag Hi Hn. cbn [smdb_reader get_node_option]. rewrite Hget, Hn; [done|].
    exists [i]. split_and!; [by rewrite Forall_singleton|cbn; lia|done].
Qed.

(** What is read of a version: the value of every key, with a proof. *)
Definition readable rl self (v : Z) (lvs : list (LeafNode HV K)) (key : HV) : Prop :=
  exists proof root, get_with_proof (smdb_reader rl self) key v = Ok (value_at lvs key, proof) /\
    jmt_get_root_hash (smdb_reader rl self) v = Ok root /\
    verify_by_hash proof root key (option_map fst (value_at lvs key)) = Ok tt.

Lemma stored_readable rl self s st v lvs key : (forall db k, is_ok (db_get_node db k) = true) -> stored self s st ->
  tree_at s v lvs -> readable rl self v lvs key.
Proof.
  intros Hget Hst Htree. destruct (smdb_sees rl self s st Hget Hst) as [Hrd _].
  exists (sparse_proof_of (sl lvs) key), (smt_root (sl lvs)).
  split_and!; [by eapply get_with_proof_spec|by eapply jmt_root_hash_spec|].
  rewrite <- value_of_at. apply verify_root_complete. rewrite sl_keys. by destruct Htree.
Qed.
End PrunerFacts.
