(* ===== verification/StateMerklePrunerProgress.v ===== *)
(** * Pruning makes progress

    On databases that do not fail, the loops of the pruner end, and exactly the entries
    of the index between the progress and the target are deleted, provided the metadata
    database has an entry for every version for which a shard has one.  Without that, the
    progress can pass an entry of a shard ([PassedOver]): what keeps such an entry. *)
From stdpp Require Import base list numbers strings option gmap sorting.
From Stdlib Require Import ZArith Lia Bool Sorted.
From S2P Require Import Prelude Hash SparseMerkleProof SparseSpec SparseFacts NibblePath NibblePathFacts ByteCodec JellyfishNode JellyfishNodeFacts JellyfishHash JellyfishSpec JellyfishTree JellyfishRead JellyfishRuns JellyfishBatch JellyfishUpdate JellyfishInsert JellyfishCommit JellyfishHistory StateMerkleDb StateMerklePruner StateMerklePrunerFacts.

Section Progress.
Context {HV K DB : Type} `{SchemaDb HV K DB} `{HB : ByteOrder} `{!ByteOrderLaws} `{!SchemaDbLaws HV K DB}.
Context (sch : StaleSchema).
Hypothesis Hworks : db_works DB.
Implicit Types (db : DB) (e : StaleNodeIndex) (self : StateMerkleDb DB).

Definition between (lo hi : Z) e : Prop := lo <= stale_since_version e <= hi.

Lemma get_stale_works db start target : stale_ok_view (view db) -> u64_ok start ->
  exists indices next, get_stale_node_indices sch db start target = Ok (indices, next) /\
    found_upto (dv_stale (view db) sch) start target indices next.
Proof.
  intros Hok Hs. destruct Hworks as (_ & _ & Hi & _).
  assert (E : exists x, get_stale_node_indices sch db start target = Ok x).
  { unfold get_stale_node_indices. rewrite new_empty_path_pack, obind_Ok.
    destruct (Hi sch db (StaleNodeIndex_encode_key (mkStaleNodeIndex start (mkNodeKey 0 (pack []))))) as (l & ->).
    rewrite obind_Ok. generalize (@nil StaleNodeIndex) (@None Version).
    induction l as [|e l IH]; intros acc next0; cbn [map collect_stale]; [by eexists|].
    rewrite obind_Ok. destruct (_ <=? _); [apply IH|by eexists]. }
  destruct E as [[indices next] E]. exists indices, next. split; [done|]. by apply get_stale_spec.
Qed.

Lemma write_works batch db : exists db', write_schemas batch db = (db', Ok tt) /\
  same_view (view db') (apply_ops (view db) batch).
Proof.
  destruct Hworks as (_ & _ & _ & Hw). specialize (Hw batch db).
  destruct (write_schemas batch db) as [db' [[]| |]] eqn:E; [|discriminate Hw..].
  exists db'. split; [done|]. by apply write_schemas_spec in E.
Qed.

(** The deletion of all entries of a range. *)
Lemma delete_range db lo hi indices next (b : bool) k v : found_upto (dv_stale (view db) sch) lo hi indices next ->
  exists db', write_schemas (delete_indices sch indices ++ if b then [Put_version k v] else []) db = (db', Ok tt) /\
    (forall s e, e ∈ dv_stale (view db') s <-> e ∈ dv_stale (view db) s /\ ~ (s = sch /\ between lo hi e)) /\
    (b = true -> dv_version (view db') k = Some v).
Proof.
  intros [Hi _].
  destruct (write_works (delete_indices sch indices ++ if b then [Put_version k v] else []) db) as (db' & E & Hn & Hs & Hv).
  exists db'. split; [done|].
  destruct (apply_deletes sch (view db) indices _ (version_puts b k v)) as [_ Hd]. split.
  - intros s e. rewrite Hs, Hd. split; intros [He Hno]; (split; [done|]); intros [-> He2]; apply Hno; (split; [done|]).
    + by apply Hi.
    + apply Hi in He2 as [_ ?]. done.
  - intros ->. rewrite Hv. unfold apply_ops. rewrite fold_left_app. cbn. by rewrite decide_True.
Qed.

(** ** A shard *)
Lemma shard_prune_works i lo hi db : stale_ok_view (view db) -> u64_ok lo ->
  exists db', shard_prune sch i lo hi db = (db', Ok tt) /\
    (forall s e, e ∈ dv_stale (view db') s <-> e ∈ dv_stale (view db) s /\ ~ (s = sch /\ between lo hi e)) /\
    dv_version (view db') (progress_metadata_key sch (Some i)) = Some hi.
Proof.
  intros Hok Hlo. unfold shard_prune. cbn [shard_prune_loop].
  destruct (get_stale_works db lo hi Hok Hlo) as (idx & next & E & Hf). rewrite (pbind_Ok _ _ _ db (idx, next)) by (by unfold reading; rewrite E).
  set (done := match next with Some _ => _ | None => true end).
  destruct (delete_range db lo hi idx next done (progress_metadata_key sch (Some i)) hi Hf) as (db1 & E1 & Hs1 & Hv1).
  rewrite (pbind_Ok _ _ _ db1 tt) by done. destruct done eqn:Ed; [exists db1; split; [done|]; split; [done|by apply Hv1]|].
  assert (Hok1 : stale_ok_view (view db1)) by (intros s e He; apply Hs1 in He as [He _]; by eapply Hok).
  destruct (get_stale_works db1 lo hi Hok1 Hlo) as (idx2 & next2 & E2 & Hf2).
  rewrite (pbind_Ok _ _ _ db1 (idx2, next2)) by (by unfold reading; rewrite E2).
  assert (Hnone : next2 = None).
  { destruct next2 as [v2|]; [|done]. exfalso. destruct Hf2 as [_ (Hv2 & (e & He & <-) & _)].
    apply Hs1 in He as [He Hno]. destruct next as [v|]; [|discriminate Ed]. destruct Hf as [_ (_ & _ & Hlast)].
    subst done. apply negb_false_iff, Z.leb_le in Ed. destruct (Z.le_gt_cases (stale_since_version e) hi).
    - apply Hno. split; [done|]. unfold between. lia.
    - specialize (Hlast e He Hv2 ltac:(lia)). lia. }
  subst next2. cbn iota.
  destruct (delete_range db1 lo hi idx2 None true (progress_metadata_key sch (Some i)) hi Hf2) as (db2 & E3 & Hs2 & Hv2).
  rewrite (pbind_Ok _ _ _ db2 tt) by done. exists db2. split; [done|]. split; [|by apply Hv2].
  intros s e. rewrite Hs2, Hs1. tauto.
Qed.

(** ** All databases *)
Definition stale_at self (j : nat) e : Prop := exists db, smdb_dbs self !! j = Some db /\ e ∈ dv_stale (view db) sch.

Definition all_ok self : Prop := forall j db, smdb_dbs self !! j = Some db -> stale_ok_view (view db).

(** [self'] is [self] without the entries between [lo] and [hi] of the databases [J]. *)
Definition without self (J : nat -> Prop) (lo hi : Z) self' : Prop :=
  enable_sharding self' = enable_sharding self /\ length (smdb_dbs self') = length (smdb_dbs self) /\
  all_ok self' /\ forall j e, stale_at self' j e <-> stale_at self j e /\ ~ (J j /\ between lo hi e).

Lemma without_db self j db db' lo hi : all_ok self -> smdb_dbs self !! j = Some db ->
  (forall s e, e ∈ dv_stale (view db') s <-> e ∈ dv_stale (view db) s /\ ~ (s = sch /\ between lo hi e)) ->
  without self (fun j' => j' = j) lo hi (set_db self j db').
Proof.
  intros Hok Hj Hs. split_and!; [done|cbn; by rewrite length_insert| |].
  - intros j1 db1 Hj1. destruct (set_db_lookup _ _ _ _ _ _ Hj Hj1) as [[-> ->]|[_ Hj1']]; [|by eapply Hok].
    intros s e He. apply Hs in He as [He _]. by eapply Hok.
  - intros j1 e. split.
    + intros (db1 & Hj1 & He). destruct (set_db_lookup _ _ _ _ _ _ Hj Hj1) as [[-> ->]|[Hne Hj1']].
      * apply Hs in He as [He Hno]. split; [by exists db|]. intros [_ Hb]. by apply Hno.
      * split; [by exists db1|]. by intros [-> _].
    + intros [(db1 & Hj1 & He) Hno]. destruct (decide (j1 = j)) as [->|Hne].
      * assert (db1 = db) as -> by congruence. exists db'. split.
        -- cbn. apply list_lookup_insert_eq. by eapply lookup_lt_Some.
        -- apply Hs. split; [done|]. intros [_ Hb]. by apply Hno.
      * exists db1. split; [|done]. cbn. by rewrite list_lookup_insert_ne.
Qed.

Lemma slot_same self self' o : enable_sharding self' = enable_sharding self -> slot self' o = slot self o.
Proof. intros E. unfold slot. by rewrite E. Qed.

Lemma prune_shards_works lo hi : u64_ok lo -> forall shards self, all_ok self ->
  Forall (fun i => (slot self (Some i) < length (smdb_dbs self))%nat) shards ->
  exists self', prune_shards sch shards lo hi self = (self', Ok tt) /\
    without self (fun j => exists i, i ∈ shards /\ slot self (Some i) = j) lo hi self'.
Proof.
  intros Hlo. induction shards as [|i shards IH]; intros self Hok Hf; cbn [prune_shards].
  - exists self. split; [done|]. split_and!; [done|done|done|]. intros j e. split; [|tauto]. intros Hs. split; [done|].
    intros [(i & Hi & _) _]. by apply not_elem_of_nil in Hi.
  - apply Forall_cons in Hf as [Hi Hf]. destruct (lookup_lt_is_Some_2 _ _ Hi) as [db Hdb].
    destruct (shard_prune_works i lo hi db (Hok _ _ Hdb) Hlo) as (db' & E & Hs & _).
    assert (Eon : on_db (Some i) (shard_prune sch i lo hi) self = (set_db self (slot self (Some i)) db', Ok tt)).
    { unfold on_db, smdb_db. rewrite Hdb. cbn [expect]. by rewrite E. }
    rewrite (pbind_Ok _ _ _ _ _ Eon).
    destruct (without_db self _ db db' lo hi Hok Hdb Hs) as (Es & El & Hok1 & Hst).
    destruct (IH (set_db self (slot self (Some i)) db') Hok1) as (self2 & E2 & Es2 & El2 & Hok2 & Hst2).
    { eapply Forall_impl; [exact Hf|]. intros i' Hi'. cbn beta. rewrite El. exact Hi'. }
    exists self2. split; [exact E2|]. split_and!; [by rewrite Es2|by rewrite El2, El|done|].
    intros j e. rewrite Hst2, Hst. split.
    + intros [[Hs1 Hn1] Hn2]. split; [done|]. intros [(i' & Hi' & Hj) Hb]. apply elem_of_cons in Hi' as [->|Hi'].
      * by apply Hn1.
      * apply Hn2. split; [|done]. by exists i'.
    + intros [Hs1 Hn]. split; [split; [done|]|].
      * intros [-> Hb]. apply Hn. split; [|done]. exists i. split; [left|done].
      * intros [(i' & Hi' & Hj) Hb]. apply Hn. split; [|done]. exists i'. split; [by right|done].
Qed.

Lemma without_trans self self1 self2 (J1 J2 : nat -> Prop) lo hi lo' hi' :
  without self J1 lo hi self1 -> without self1 J2 lo' hi' self2 ->
  enable_sharding self2 = enable_sharding self /\ length (smdb_dbs self2) = length (smdb_dbs self) /\ all_ok self2 /\
  forall j e, stale_at self2 j e <-> stale_at self j e /\ ~ (J1 j /\ between lo hi e) /\ ~ (J2 j /\ between lo' hi' e).
Proof.
  intros (S1 & L1 & _ & H1') (S2 & L2 & O2 & H2'). split_and!; [congruence|congruence|done|].
  intros j e. rewrite H2', H1'. tauto.
Qed.

(** ** A round of the metadata pruner *)
Lemma maybe_prune_works cur target self p : u64_ok cur -> all_ok self -> (0 < length (smdb_dbs self))%nat ->
  let t := Z.max (smp_next_version p) cur in t <= target ->
  exists self' nv', maybe_prune_single_version sch cur target (self, p) = ((self', set_next_version nv' p), Ok (Some t)) /\
    without self (fun j => j = 0%nat) cur t self' /\
    (forall e, stale_at self' 0 e -> t <= stale_since_version e -> nv' <= stale_since_version e) /\
    (t < nv' \/ forall e, stale_at self' 0 e -> stale_since_version e < t) /\
    ((forall e, stale_at self 0 e -> stale_since_version e < cur) -> nv' = target).
Proof.
  intros Hc Hok Hlen t Ht. destruct (lookup_lt_is_Some_2 _ _ Hlen) as [db Hdb].
  destruct (get_stale_works db cur t (Hok _ _ Hdb) Hc) as (idx & next & E & Hf).
  destruct (delete_range db cur t idx next true (progress_metadata_key sch None) t Hf) as (db' & Ew & Hs & _).
  assert (Ef : forall A (m : prog DB A) db1 r, m db = (db1, r) -> with_db (on_db None m) (self, p) = ((set_db self 0 db1, p), r)).
  { intros A m db1 r Em. unfold with_db, on_db, smdb_db. cbn [fst snd slot]. rewrite Hdb. cbn [expect]. by rewrite Em. }
  assert (Eid : set_db self 0 db = self) by (unfold set_db; rewrite list_insert_id by done; by destruct self).
  exists (set_db self 0 db'), (default target next). split.
  { unfold maybe_prune_single_version. rewrite (pbind_Ok _ _ _ (self, p) (smp_next_version p)) by done. fold t.
    rewrite (proj2 (Z.ltb_ge _ _)) by done.
    rewrite (pbind_Ok _ _ _ (self, p) (idx, next)) by (rewrite (Ef _ _ db (Ok (idx, next))), Eid; [done|]; unfold reading; by rewrite E).
    rewrite (pbind_Ok _ _ _ (set_db self 0 db', p) tt) by (by apply Ef).
    by rewrite (pbind_Ok _ _ _ (set_db self 0 db', set_next_version (default target next) p) tt). }
  pose proof (without_db self 0 db db' cur t Hok Hdb Hs) as Hw. split; [exact Hw|].
  pose proof Hw as (_ & _ & _ & Hat).
  assert (Hst : forall e, stale_at self 0 e <-> e ∈ dv_stale (view db) sch).
  { intros e. split; [intros (db1 & E1 & He)|intros He; by exists db]. by assert (db1 = db) as <- by congruence. }
  destruct Hf as [_ Hn]. assert (Hct : cur <= t) by (unfold t; lia).
  assert (Hin : forall e, stale_at (set_db self 0 db') 0 e -> e ∈ dv_stale (view db) sch /\ ~ between cur t e).
  { intros e He. apply Hat in He as [He Hno]. split; [by apply Hst|]. intros Hb. by apply Hno. }
  unfold between in Hin. destruct next as [v|]; cbn [from_option]; unfold id.
  - destruct Hn as (Hv & (f & Hf' & Ef') & Hlast). split_and!.
    + intros e He Hte. apply Hin in He as [He Hno]. assert (t < stale_since_version e) by lia.
      specialize (Hlast e He ltac:(lia) ltac:(lia)). lia.
    + destruct (Z.le_gt_cases v t) as [Hvt|Hvt]; [right|left; lia]. intros e He. apply Hin in He as [He Hno].
      destruct (Z.lt_ge_cases (stale_since_version e) t) as [|Hge]; [done|]. exfalso.
      specialize (Hlast e He ltac:(lia) ltac:(lia)). lia.
    + intros Hnone. apply Hst in Hf'. specialize (Hnone f Hf'). lia.
  - split_and!; [| |done].
    + intros e He Hte. apply Hin in He as [He _]. specialize (Hn e He). lia.
    + right. intros e He. apply Hin in He as [He _]. specialize (Hn e He). lia.
Qed.

(** ** The loop *)
Definition end_version (cur target : Z) : Z := if cur <? target then target else cur - 1.

(** The databases the pruner works on. *)
Definition handled self (shards : list Z) (j : nat) : Prop := j = 0%nat \/ exists i, i ∈ shards /\ slot self (Some i) = j.

(** Where a shard has an entry, so has the metadata database. *)
Definition covered self (shards : list Z) (lo hi : Z) : Prop := forall i e, i ∈ shards ->
  stale_at self (slot self (Some i)) e -> between lo hi e ->
  exists f, stale_at self 0 f /\ stale_since_version f = stale_since_version e.

Lemma prune_loop_works target : u64_ok target -> forall fuel cur self p, 0 <= cur <= target -> all_ok self ->
  (0 < length (smdb_dbs self))%nat ->
  Forall (fun i => (slot self (Some i) < length (smdb_dbs self))%nat) (shard_pruners p) ->
  (forall e, stale_at self 0 e -> cur <= stale_since_version e -> smp_next_version p <= stale_since_version e) ->
  covered self (shard_pruners p) cur target ->
  3 * (target - cur) + 2 <= Z.of_nat fuel \/
  (3 * (target - cur) + 1 <= Z.of_nat fuel /\ forall e, stale_at self 0 e -> stale_since_version e < cur) \/
  (3 * (target - cur) <= Z.of_nat fuel /\ cur < smp_next_version p) ->
  exists self' p', smp_prune_loop sch fuel cur target (self, p) = ((self', p'), Ok tt) /\
    (cur < target -> smp_progress p' = target) /\
    without self (handled self (shard_pruners p)) cur (end_version cur target) self'.
Proof.
  intros Htu. induction fuel as [|fuel IH]; intros cur self p Hc Hok Hlen Hsh Hnv Hcov Hfuel.
  all: assert (Hcu : u64_ok cur) by (eapply u64_le; [|exact Htu]; lia).
  all: destruct (Z.lt_ge_cases cur target) as [Hlt|Hge].
  2,4: exists self, p; cbn [smp_prune_loop]; unfold end_version; rewrite (proj2 (Z.ltb_ge cur target)) by lia;
    (split; [done|]); (split; [lia|]); (split_and!; [done|done|done|]); intros j e;
    (split; [|tauto]); intros Hs; (split; [done|]); intros [_ Hb]; unfold between in Hb; lia.
  1: lia.
  cbn [smp_prune_loop]. unfold end_version. rewrite (proj2 (Z.ltb_lt cur target)) by lia.
  set (t := Z.max (smp_next_version p) cur). destruct (Z.lt_ge_cases target t) as [Htt|Htt].
  - exists self, (record_progress target p). split; [|split; [done|]].
    + unfold maybe_prune_single_version. unfold pbind at 1. unfold pbind at 1. unfold reading at 1. cbn [snd]. fold t.
      by rewrite (proj2 (Z.ltb_lt target t)) by lia.
    + split_and!; [done|done|done|]. intros j e. split; [|tauto]. intros Hs. split; [done|].
      assert (H0' : forall f, stale_at self 0 f -> ~ between cur target f).
      { intros f Hf Hb. unfold between in Hb. specialize (Hnv f Hf ltac:(lia)). lia. }
      intros [[->|(i & Hi & <-)] Hb]; [by apply (H0' e)|].
      destruct (Hcov i e Hi Hs Hb) as (f & Hf & Ef). apply (H0' f Hf). unfold between in *. lia.
  - destruct (maybe_prune_works cur target self p Hcu Hok Hlen Htt) as (self1 & nv & E1 & Hw1 & Hnv1 & Hph & Hend).
    fold t in E1, Hw1, Hnv1, Hph. rewrite (pbind_Ok _ _ _ _ _ E1). pose proof Hw1 as (Es1 & El1 & Hok1 & Hst1).
    rewrite (pbind_Ok _ _ _ (self1, set_next_version nv p) (shard_pruners p)) by done.
    destruct (prune_shards_works cur t Hcu (shard_pruners p) self1 Hok1) as (self2 & E2 & Hw2).
    { eapply Forall_impl; [exact Hsh|]. intros i Hi. cbn beta in *. by rewrite (slot_same self), El1. }
    pose proof (without_trans _ _ _ _ _ _ _ _ _ Hw1 Hw2) as (Es2 & El2 & Hok2 & Hst2).
    rewrite (pbind_Ok _ _ _ (self2, set_next_version nv p) tt) by (unfold with_db; cbn [fst snd]; by rewrite E2).
    rewrite (pbind_Ok _ _ _ (self2, record_progress t (set_next_version nv p)) tt) by done.
    assert (Hct : cur <= t) by (unfold t; lia).
    assert (Hgone : forall j e, stale_at self2 j e -> handled self (shard_pruners p) j -> ~ between cur t e).
    { intros j e He Hj Hb. apply Hst2 in He as (_ & Hn1 & Hn2). destruct Hj as [->|(i & Hi & Hj)]; [by apply Hn1|].
      apply Hn2. split; [|done]. exists i. split; [done|]. by rewrite (slot_same self). }
    assert (Hsub : forall j e, stale_at self2 j e -> stale_at self j e) by (intros j e He; by apply Hst2 in He as (? & _)).
    assert (Hsub1 : forall e, stale_at self2 0 e -> stale_at self1 0 e).
    { intros e He. pose proof Hw2 as (_ & _ & _ & Hst'). by apply Hst' in He as [? _]. }
    destruct (IH t self2 (record_progress t (set_next_version nv p))) as (self3 & p3 & E3 & Hp3 & Hw3).
    + lia.
    + done.
    + by rewrite El2.
    + eapply Forall_impl; [exact Hsh|]. intros i Hi. cbn beta in *. by rewrite (slot_same self), El2.
    + intros e He Hte. by apply Hnv1, Hte; apply Hsub1.
    + intros i e Hi He Hb. cbn [shard_pruners record_progress set_next_version] in Hi.
      rewrite (slot_same self) in He by done.
      assert (Hbt : t < stale_since_version e).
      { unfold between in Hb. destruct (Z.le_gt_cases (stale_since_version e) t); [|lia]. exfalso.
        apply (Hgone _ e He); [right; by exists i|]. unfold between. lia. }
      destruct (Hcov i e Hi (Hsub _ _ He)) as (f & Hf & Ef); [unfold between in *; lia|].
      exists f. split; [|done]. apply Hst2. split_and!; [done|intros [_ Hb']|intros [_ Hb']]; unfold between in *; lia.
    + cbn [smp_next_version record_progress set_next_version].
      destruct (Z.lt_ge_cases cur t) as [Hadv|Hsame].
      * left. lia.
      * assert (Ect : t = cur) by lia. rewrite Ect in *.
        destruct Hfuel as [Hfu|[[Hfu Hno]|[Hfu Hn]]]; [|right; right; split; [lia|]; rewrite (Hend Hno); lia|lia].
        destruct Hph as [Hph|Hph]; [right; right; split; lia|]. right. left. split; [lia|].
        intros e He. by apply Hph, Hsub1.
    + exists self3, p3. split; [exact E3|]. split.
      * intros _. destruct (Z.lt_ge_cases t target) as [Htl|Hte]; [by apply Hp3|].
        assert (t = target) as -> by lia. destruct fuel; cbn [smp_prune_loop] in E3;
          rewrite (proj2 (Z.ltb_ge target target)) in E3 by lia; by injection E3 as _ <-.
      * destruct Hw3 as (Es3 & El3 & Hok3 & Hst3). split_and!; [congruence|congruence|done|].
        intros j e. rewrite Hst3. split.
        -- intros [He Hno]. split; [by apply Hsub|]. intros [Hj Hb].
           destruct (Z.le_gt_cases (stale_since_version e) t) as [Hle|Hgt].
           ++ apply (Hgone j e He Hj). unfold between in *. lia.
           ++ apply Hno. split.
              ** destruct Hj as [->|(i & Hi & Hj)]; [by left|right]. exists i. split; [done|]. by rewrite (slot_same self).
              ** unfold between, end_version in *. rewrite (proj2 (Z.ltb_lt t target)) by lia. lia.
        -- intros [He Hno]. split.
           ++ apply Hst2. split_and!; [done| |]; intros [Hj Hb]; apply Hno; (split; [|unfold between in *; lia]).
              ** by left.
              ** right. destruct Hj as (i & Hi & Hj). exists i. split; [done|]. rewrite <- Hj. symmetry. by apply slot_same.
           ++ intros [Hj Hb]. apply Hno. split.
              ** destruct Hj as [->|(i & Hi & Hj)]; [by left|right]. exists i. split; [done|]. rewrite <- Hj. symmetry. by apply slot_same.
              ** unfold between, end_version in *. destruct (t <? target); lia.
Qed.
End Progress.

(** ** Entries that are passed over

    The progress of a pruner can pass an entry of a shard that is still there.  From then
    on the pruner seeks behind it: no run deletes the entry, and once the progress is
    saved no start of the node does. *)
Section PassedOver.
Context {HV K DB : Type} `{SchemaDb HV K DB} `{HB : ByteOrder} `{!ByteOrderLaws} `{!SchemaDbLaws HV K DB}.
Context (sch : StaleSchema) (i : Z) (e : StaleNodeIndex).
Implicit Types (db : DB) (d : db_view HV K) (f : StaleNodeIndex) (self : StateMerkleDb DB) (s : StaleSchema) (sid : option Z).

(** The entry and its node are there, and no other entry has this node. *)
Definition has_entry d : Prop := e ∈ dv_stale d sch /\ (exists n, dv_node d (stale_node_key e) = Some n) /\
  forall s f, f ∈ dv_stale d s -> stale_node_key f = stale_node_key e -> s = sch /\ f = e.

(** The saved progress is past the entry. *)
Definition past sid d : Prop := exists v, dv_version d (progress_metadata_key sch sid) = Some v /\ stale_since_version e < v /\ u64_ok v.

(** A change that leaves the entry behind. *)
Definition mild d d' : Prop := stale_ok_view d' /\ (has_entry d -> has_entry d') /\ forall sid, past sid d -> past sid d'.

Lemma mild_refl d : stale_ok_view d -> mild d d.
Proof. by intros. Qed.

Lemma mild_trans d d1 d2 : mild d d1 -> mild d1 d2 -> mild d d2.
Proof. intros (_ & H1' & P1) (O2 & H2' & P2). split_and!; [done|auto|auto]. Qed.

Lemma mild_same d d1 d2 : same_view d2 d1 -> mild d d1 -> mild d d2.
Proof.
  intros (Vn & Vs & Vv) (Hok & Hh & Hp). split_and!.
  - intros s f Hf. apply Vs in Hf. by eapply Hok.
  - intros Hd. destruct (Hh Hd) as (He & Hn & Hu). split_and!; [by apply Vs|by rewrite Vn|]. intros s f Hf. apply Vs in Hf. by apply Hu.
  - intros sid Hd. destruct (Hp sid Hd) as (v & Hv & Hlt). exists v. by rewrite Vv.
Qed.

Definition mildly {A} (P : prog DB A) : Prop := forall db db' r, stale_ok_view (view db) -> P db = (db', r) -> mild (view db) (view db').

Lemma mildly_ret {A} (a : A) : mildly (pret a).
Proof. intros db db' r Hok E. injection E as <- _. by apply mild_refl. Qed.

Lemma mildly_reading {A} (g : DB -> outcome A) : mildly (reading g).
Proof. intros db db' r Hok E. injection E as <- _. by apply mild_refl. Qed.

Lemma mildly_bind {A B} (P : prog DB A) (Q : A -> prog DB B) : mildly P -> (forall a, mildly (Q a)) -> mildly (pbind P Q).
Proof.
  intros HP HQ db db' r Hok E. apply pbind_inv in E as [(db1 & a & E1 & E)|[(err & E1 & ->)|(err & E1 & ->)]]; [|by eapply HP..].
  pose proof (HP _ _ _ Hok E1) as Hm. eapply mild_trans; [exact Hm|]. eapply HQ; [apply Hm|exact E].
Qed.

Lemma mildly_write batch : (forall db, stale_ok_view (view db) -> mild (view db) (apply_ops (view db) batch)) -> mildly (write_schemas batch).
Proof.
  intros Hb db db' r Hok E. apply write_schemas_spec in E. destruct r as [u| |]; [|rewrite E; by apply mild_refl..].
  eapply mild_same; [exact E|by apply Hb].
Qed.

(** *** Additions *)

(** What a commit writes: other entries, and no progress of a pruner. *)
Definition adds_only (op : BatchOp HV K) : Prop :=
  match op with
  | Put_node _ _ => True
  | Put_stale _ f => index_ok f /\ stale_node_key f <> stale_node_key e
  | Put_version key _ => forall s sid, key <> progress_metadata_key s sid
  | _ => False
  end.

Lemma adds_only_mild batch : Forall adds_only batch -> forall d, stale_ok_view d -> mild d (apply_ops d batch).
Proof.
  induction 1 as [|op batch Hop _ IH]; intros d Hok; [by apply mild_refl|].
  assert (Hm : mild d (apply_op d op)); [|by eapply mild_trans; [exact Hm|]; apply IH; apply Hm].
  destruct op as [k n|k|s f|s f|k v|k]; cbn [adds_only] in Hop; try done.
  - split_and!; [done| |done]. intros (He & [n' Hn] & Hu). split_and!; [done| |done]. cbn [apply_op dv_node]. case_decide; [by exists n|by exists n'].
  - destruct Hop as [Hf Hne]. assert (Hin : forall s' g, g ∈ dv_stale (apply_op d (Put_stale s f)) s' <-> (s' = s /\ g = f) \/ g ∈ dv_stale d s').
    { intros s' g. cbn [apply_op dv_stale]. case_decide as Es; [|naive_solver]. subst s'. rewrite elem_of_cons, list_elem_of_filter.
      destruct (decide (g = f)); naive_solver. }
    split_and!; [|intros (He & Hn & Hu)|done].
    + intros s' g Hg. apply Hin in Hg as [[_ ->]|Hg]; [done|by eapply Hok].
    + split_and!; [apply Hin; by right|done|]. intros s' g Hg. apply Hin in Hg as [[-> ->]|Hg]; [done|by apply Hu].
  - split_and!; [done|done|]. intros sid (w & Hw & Hlt). exists w. split; [|done]. cbn [apply_op dv_version]. rewrite decide_False; [done|]. intros E. by apply (Hop sch sid).
Qed.

(** *** Deletions *)
Lemma delete_versions idx s : forall d, dv_version (apply_ops d (delete_indices s idx)) = dv_version d.
Proof.
  induction idx as [|f idx IH]; intros d; [done|].
  change (apply_ops d (delete_indices s (f :: idx)))
    with (apply_ops (apply_op (apply_op d (Delete_node (stale_node_key f))) (Delete_stale s f)) (delete_indices s idx)).
  by rewrite IH.
Qed.

Lemma delete_put_version idx s (b : bool) key v d k : dv_version (apply_ops d (delete_indices s idx ++ if b then [Put_version key v] else [])) k =
  if decide (b = true /\ k = key) then Some v else dv_version d k.
Proof.
  unfold apply_ops. rewrite fold_left_app. fold (apply_ops d (delete_indices s idx)). destruct b; cbn [fold_left apply_op dv_version]; rewrite delete_versions.
  - repeat case_decide; naive_solver.
  - by rewrite decide_False by naive_solver.
Qed.

Lemma progress_key_inj s s' sid sid' : progress_metadata_key s sid = progress_metadata_key s' sid' -> s = s' /\ sid = sid'.
Proof. by destruct s, s', sid, sid'; intros [=]; subst. Qed.

(** A batch of a pruner of the index [s]; of the same index, it is past the entry. *)
Lemma deletes_mild idx s (b : bool) sid v d : stale_ok_view d -> (forall f, f ∈ idx -> f ∈ dv_stale d s /\ (s = sch -> f <> e)) ->
  (s = sch -> stale_since_version e < v /\ u64_ok v) ->
  mild d (apply_ops d (delete_indices s idx ++ if b then [Put_version (progress_metadata_key s sid) v] else [])).
Proof.
  intros Hok Hidx Hv. destruct (apply_deletes s d idx _ (version_puts b (progress_metadata_key s sid) v)) as [Hn Hs]. split_and!.
  - intros s' f Hf. apply Hs in Hf as [Hf _]. by eapply Hok.
  - intros (He & Hnode & Hu). split_and!.
    + apply Hs. split; [done|]. intros [<- Hin]. by apply Hidx in Hin as [_ Hin]; apply Hin.
    + rewrite Hn, decide_False; [done|]. intros Hk. apply list_elem_of_fmap in Hk as (f & Ek & Hf). apply Hidx in Hf as [Hf Hne].
      destruct (Hu s f Hf (eq_sym Ek)) as [-> ->]. by apply Hne.
    + intros s' f Hf. apply Hs in Hf as [Hf _]. by apply Hu.
  - intros sid' (w & Hw & Hlt). unfold past. setoid_rewrite delete_put_version. case_decide as Hc; [|by exists w].
    destruct Hc as [_ Hc]. apply progress_key_inj in Hc as [<- _]. exists v. split; [done|by apply Hv].
Qed.

(** The entries a pruner finds from [start] on. *)
Lemma found_ahead s db start target indices next : stale_ok_view (view db) -> (s = sch -> u64_ok start /\ stale_since_version e < start) ->
  get_stale_node_indices s db start target = Ok (indices, next) -> forall f, f ∈ indices -> f ∈ dv_stale (view db) s /\ (s = sch -> f <> e).
Proof.
  intros Hok Hs E f Hf. split; [by apply (get_stale_upto _ _ _ _ _ _ E)|]. intros Es ->. destruct (Hs Es) as [Hu Hlt].
  destruct (get_stale_spec _ _ _ _ _ _ Hok Hu E) as [Hi _]. apply Hi in Hf as [_ Hf]. lia.
Qed.

Lemma write_deletes_mild s idx (b : bool) sid v db db' r : stale_ok_view (view db) -> (forall f, f ∈ idx -> f ∈ dv_stale (view db) s /\ (s = sch -> f <> e)) ->
  (s = sch -> stale_since_version e < v /\ u64_ok v) ->
  write_schemas (delete_indices s idx ++ if b then [Put_version (progress_metadata_key s sid) v] else []) db = (db', r) -> mild (view db) (view db').
Proof.
  intros Hok Hidx Hv E. apply write_schemas_spec in E. destruct r as [u| |]; [|rewrite E; by apply mild_refl..].
  eapply mild_same; [exact E|by apply deletes_mild].
Qed.

(** What the pruner of the same index starts from and goes to. *)
Definition ahead s (cur target : Version) : Prop := s = sch -> stale_since_version e < cur /\ u64_ok cur /\ stale_since_version e < target /\ u64_ok target.

Lemma shard_prune_mild fuel s j cur target : ahead s cur target -> mildly (shard_prune_loop s fuel j cur target).
Proof.
  unfold ahead. intros Hs. induction fuel as [|fuel IH]; intros db db' r Hok E; cbn [shard_prune_loop] in E.
  all: apply pbind_inv in E as [(s1 & [indices next] & Eg & E)|[(err & Eg & ->)|(err & Eg & ->)]]; [|injection Eg as <- _; by apply mild_refl..].
  all: injection Eg as <- Eg; pose proof (found_ahead s db cur target indices next Hok ltac:(tauto) Eg) as Hidx.
  all: apply pbind_inv in E as [(db1 & [] & Ew & E)|[(err & Ew & ->)|(err & Ew & ->)]];
    apply write_deletes_mild in Ew; try done; try tauto.
  all: destruct (match next with Some _ => _ | None => true end); [by injection E as <- _|].
  - by injection E as <- _.
  - eapply mild_trans; [exact Ew|]. eapply IH; [apply Ew|exact E].
Qed.

(** A shard that is pruned saves the target. *)
Lemma shard_prune_saves fuel s j cur target db db' : shard_prune_loop s fuel j cur target db = (db', Ok tt) ->
  dv_version (view db') (progress_metadata_key s (Some j)) = Some target.
Proof.
  revert db. induction fuel as [|fuel IH]; intros db E; cbn [shard_prune_loop] in E;
    (apply pbind_inv in E as [(s1 & [indices next] & Eg & E)|[(err & _ & [=])|(err & _ & [=])]]); injection Eg as <- Eg;
    set (done := match next with Some _ => _ | None => true end) in *;
    (apply pbind_inv in E as [(db1 & [] & Ew & E)|[(err & _ & [=])|(err & _ & [=])]]); destruct done; try (by injection E as <-); try (by eapply IH); try done.
  all: injection E as <-; apply write_schemas_spec in Ew as (_ & _ & Vv); rewrite Vv; pose proof (delete_put_version indices s true (progress_metadata_key s (Some j)) target (view db)) as Ed;
    cbn iota in Ed; rewrite Ed, decide_True by done; done.
Qed.

(** *** All databases *)

(** The shard [i] has the entry; its progress and that of the metadata may be saved. *)
Record kept_entry (sh md : bool) self : Prop := {
  ke_sharding : enable_sharding self = true;
  ke_ok : all_ok self;
  ke_shard : exists db, smdb_dbs self !! slot self (Some i) = Some db /\ has_entry (view db) /\ (sh = true -> past (Some i) (view db));
  ke_metadata : md = true -> exists db, smdb_dbs self !! 0%nat = Some db /\ past None (view db);
}.

Lemma set_db_at self j db' : is_Some (smdb_dbs self !! j) -> smdb_dbs (set_db self j db') !! j = Some db'.
Proof. intros [db Hj]. cbn. apply list_lookup_insert_eq. by eapply lookup_lt_Some. Qed.

Lemma all_ok_set self j db db' : all_ok self -> smdb_dbs self !! j = Some db -> stale_ok_view (view db') -> all_ok (set_db self j db').
Proof. intros Hok Hj Hdb j1 db1 Hj1. by destruct (set_db_lookup _ _ _ _ _ _ Hj Hj1) as [[_ ->]|[_ Hj1']]; [|eapply Hok]. Qed.

Lemma kept_on_this {A} sh md sid (P : prog DB A) self self' r : kept_entry sh md self -> on_db sid P self = (self', r) ->
  (forall db db' r, smdb_dbs self !! slot self sid = Some db -> P db = (db', r) -> mild (view db) (view db')) -> kept_entry sh md self'.
Proof.
  intros [Hsh Hok (dbi & Hi & Hent & Hpi) Hm] E HP. apply on_db_inv in E as [->|(db & db' & Hdb & E & ->)]; [split; [done..|by exists dbi|done]|].
  pose proof (HP _ _ _ Hdb E) as (Hok' & He' & Hp'). split; [done|by eapply all_ok_set| |].
  - rewrite slot_set_db. destruct (decide (slot self (Some i) = slot self sid)) as [Es|Hne].
    + exists db'. rewrite Es in Hi |- *. rewrite Hi in Hdb. injection Hdb as <-. split_and!; [by apply set_db_at|auto|auto].
    + exists dbi. split; [|done]. cbn. by rewrite list_lookup_insert_ne.
  - intros Emd. destruct (Hm Emd) as (db0 & H0' & Hp0). destruct (decide (0%nat = slot self sid)) as [Es|Hne].
    + exists db'. rewrite Es in H0' |- *. rewrite H0' in Hdb. injection Hdb as <-. split; [by apply set_db_at|auto].
    + exists db0. split; [|done]. cbn. by rewrite list_lookup_insert_ne.
Qed.

Lemma kept_on_db {A} sh md sid (P : prog DB A) self self' r : mildly P -> kept_entry sh md self -> on_db sid P self = (self', r) -> kept_entry sh md self'.
Proof. intros HP Hk E. eapply kept_on_this; [exact Hk|exact E|]. intros db db' r' Hdb Ep. eapply HP; [by eapply (ke_ok _ _ _ Hk)|exact Ep]. Qed.

(** The database of another shard does not matter. *)
Lemma kept_elsewhere {A} sh md j (P : prog DB A) self self' r : 0 <= i -> 0 <= j -> j <> i ->
  (forall db db' r, stale_ok_view (view db) -> P db = (db', r) -> stale_ok_view (view db')) ->
  kept_entry sh md self -> on_db (Some j) P self = (self', r) -> kept_entry sh md self'.
Proof.
  intros Hi0 Hj0 Hji HP [Hsh Hok (dbi & Hi & Hent) Hm] E. apply on_db_inv in E as [->|(db & db' & Hdb & E & ->)]; [split; [done..|by exists dbi|done]|].
  assert (Hslot : slot self (Some j) <> 0%nat /\ slot self (Some j) <> slot self (Some i)) by (unfold slot; rewrite Hsh; lia).
  split; [done|eapply all_ok_set; [done|exact Hdb|]; eapply HP; [by eapply Hok|exact E]| |].
  - exists dbi. split; [|done]. rewrite slot_set_db. cbn. rewrite list_lookup_insert_ne; [done|tauto].
  - intros Emd. destruct (Hm Emd) as (db0 & H0' & Hp0). exists db0. split; [|done]. cbn. rewrite list_lookup_insert_ne; [done|tauto].
Qed.

Lemma on_db_Ok {A} sid (P : prog DB A) self self' a : on_db sid P self = (self', Ok a) ->
  exists db db', smdb_dbs self !! slot self sid = Some db /\ P db = (db', Ok a) /\ self' = set_db self (slot self sid) db'.
Proof.
  unfold on_db, smdb_db, expect. destruct (smdb_dbs self !! slot self sid) as [db|] eqn:Edb; [|done].
  destruct (P db) as [db' r] eqn:EP. intros E. injection E as <- ->. by exists db, db'.
Qed.

Lemma prune_shards_kept s shards cur target sh md : ahead s cur target -> forall self self' r, kept_entry sh md self ->
  prune_shards s shards cur target self = (self', r) -> kept_entry sh md self'.
Proof.
  intros Ha. induction shards as [|j shards IH]; intros self self' r Hk E; cbn [prune_shards] in E; [by injection E as <- _|].
  apply pbind_inv in E as [(self1 & [] & E1 & E)|[(err & E1 & ->)|(err & E1 & ->)]];
    apply (kept_on_db sh md) in E1; try done; try by apply shard_prune_mild. by eapply IH.
Qed.

(** When all shards are pruned, the progress of shard [i] is saved. *)
Lemma prune_shards_saves shards cur target sh md : i ∈ shards -> ahead sch cur target -> forall self self', kept_entry sh md self ->
  prune_shards sch shards cur target self = (self', Ok tt) -> kept_entry true md self'.
Proof.
  intros Hin Ha. induction shards as [|j shards IH]; intros self self' Hk E; [by apply not_elem_of_nil in Hin|]. cbn [prune_shards] in E.
  apply pbind_inv in E as [(self1 & [] & E1 & E)|[(err & _ & [=])|(err & _ & [=])]].
  pose proof (kept_on_db sh md _ _ _ _ _ (shard_prune_mild _ _ _ _ _ Ha) Hk E1) as Hk1.
  destruct (decide (j = i)) as [->|Hne]; [|apply elem_of_cons in Hin as [->|Hin]; [done|by eapply IH]].
  eapply prune_shards_kept; [exact Ha| |exact E]. destruct Hk1 as [Hsh1 Hok1 (db1 & Hdb1 & Hent1 & _) Hm1]. split; [done|done| |done].
  exists db1. split_and!; [done|done|]. intros _. destruct (Ha eq_refl) as (_ & _ & Ht). exists target. split; [|exact Ht].
  apply on_db_Ok in E1 as (db & db' & Hdb & E1 & ->). rewrite slot_set_db, set_db_at in Hdb1 by (by eexists). injection Hdb1 as <-.
  by eapply shard_prune_saves.
Qed.

(** *** The pruner *)
Definition passed (p : StateMerklePruner) : Prop := stale_since_version e < smp_progress p /\ u64_ok (smp_progress p) /\ u64_ok (smp_target_version p).

Lemma maybe_prune_kept s cur target sh md w w' r : ahead s cur target -> kept_entry sh md (fst w) ->
  maybe_prune_single_version s cur target w = (w', r) ->
  kept_entry sh md (fst w') /\ smp_progress (snd w') = smp_progress (snd w) /\ smp_target_version (snd w') = smp_target_version (snd w) /\
  shard_pruners (snd w') = shard_pruners (snd w) /\
  (r = Ok None -> target < Z.max (smp_next_version (snd w)) cur) /\
  forall t, r = Ok (Some t) -> cur <= t <= target /\ (s = sch -> kept_entry sh true (fst w')).
Proof.
  intros Ha Hk E. unfold maybe_prune_single_version in E.
  apply pbind_inv in E as [(w1 & nv & E1 & E)|[(err & E1 & ->)|(err & E1 & ->)]]; [|done..]. injection E1 as <- <-.
  destruct (target <? Z.max (smp_next_version (snd w)) cur) eqn:Et; [apply Z.ltb_lt in Et; injection E as <- <-; by split_and!|]. apply Z.ltb_ge in Et.
  set (t := Z.max (smp_next_version (snd w)) cur) in *.
  assert (Hat : ahead s cur t).
  { intros Es. destruct (Ha Es) as (H1' & H2' & H3' & H4'). split_and!; [done|done|lia|]. unfold u64_ok in *. lia. }
  apply pbind_inv in E as [(w1 & [indices next] & E1 & E)|[(err & E1 & ->)|(err & E1 & ->)]].
  2,3: apply with_db_inv in E1 as (self' & E1 & ->); split_and!; try done; eapply kept_on_db; [apply mildly_reading|exact Hk|exact E1].
  apply with_db_inv in E1 as (self1 & E1 & ->). apply on_db_reading in E1 as (-> & db & Hdb & Eg).
  pose proof (found_ahead s db cur t indices next (ke_ok _ _ _ Hk _ _ Hdb) ltac:(unfold ahead in Hat; tauto) Eg) as Hidx.
  set (batch := delete_indices s indices ++ _) in E.
  assert (Hk2 : forall self2 r2, on_db None (write_schemas batch) (fst w) = (self2, r2) -> kept_entry sh md self2).
  { intros self2 r2 Ew. eapply kept_on_this; [exact Hk|exact Ew|]. intros db1 db2 r1 Hdb1 Ew1. assert (db1 = db) as -> by congruence.
    eapply (write_deletes_mild s indices true None t); [by eapply (ke_ok _ _ _ Hk)|done|unfold ahead in Hat; tauto|exact Ew1]. }
  apply pbind_inv in E as [(w2 & [] & E2 & E)|[(err & E2 & ->)|(err & E2 & ->)]]; apply with_db_inv in E2 as (self2 & E2 & ->); pose proof (Hk2 _ _ E2) as Hk3; cbn [fst snd] in *.
  2,3: by split_and!.
  injection E as <- <-. cbn [fst snd]. split_and!; [done..|]. intros t' E. injection E as <-. split; [unfold t; lia|]. intros Es. destruct Hk3 as [Hsh3 Hok3 Hent3 _].
  split; [done..|]. intros _. apply on_db_Ok in E2 as (db1 & db2 & Hdb1 & E2 & ->). exists db2. split; [by apply set_db_at; eexists|].
  apply write_schemas_spec in E2 as (_ & _ & Vv). exists t. unfold ahead in Hat. split; [|tauto]. rewrite Vv. subst s.
  pose proof (delete_put_version indices sch true (progress_metadata_key sch None) t (view db1)) as Ed. cbn iota in Ed. unfold batch. by rewrite Ed, decide_True.
Qed.

(** A loop of rounds: the progress stays past the entry; a first round saves it. *)
Lemma prune_loop_kept s target sh md : (s = sch -> u64_ok target) -> forall fuel cur w w' r, (s = sch -> stale_since_version e < cur /\ u64_ok cur) ->
  kept_entry sh md (fst w) -> smp_prune_loop s fuel cur target w = (w', r) ->
  kept_entry sh md (fst w') /\ smp_target_version (snd w') = smp_target_version (snd w) /\ (s = sch -> passed (snd w) -> passed (snd w')) /\
  (s = sch -> r = Ok tt -> cur < target -> smp_next_version (snd w) <= target -> i ∈ shard_pruners (snd w) -> kept_entry true true (fst w')).
Proof.
  intros Ht. revert sh md. assert (Hlt : forall cur, (s = sch -> stale_since_version e < cur /\ u64_ok cur) -> cur < target -> ahead s cur target).
  { intros cur Hc Hct Es. destruct (Hc Es). specialize (Ht Es). split_and!; [done|done|lia|done]. }
  intros sh md fuel. revert sh md. induction fuel as [|fuel IH]; intros sh md cur w w' r Hc Hk E; cbn [smp_prune_loop] in E.
  all: destruct (cur <? target) eqn:Ect; [apply Z.ltb_lt in Ect|apply Z.ltb_ge in Ect; injection E as <- <-; split_and!; try done; lia].
  all: specialize (Hlt cur Hc Ect); apply pbind_inv in E as [(w1 & o & E1 & E)|[(err & E1 & ->)|(err & E1 & ->)]];
    destruct (maybe_prune_kept s cur target sh md w _ _ Hlt Hk E1) as (Hk1 & Epr & Etg & Esp & Hnone & Hsome).
  2,3,5,6: split_and!; [done|done|intros _; unfold passed; by rewrite Epr, Etg|done].
  all: destruct o as [t|].
  2,4: injection E as <- <-; split_and!; [done|done|intros Es (Hp1 & Hp2 & Hp3); destruct (Hlt Es) as (_ & _ & ? & ?); unfold passed; cbn; by rewrite Etg|intros _ _ _ Hn; specialize (Hnone eq_refl); lia].
  all: destruct (Hsome t eq_refl) as [Htt Hmd]; assert (Hat : ahead s cur t) by (intros Es; destruct (Hlt Es) as (? & ? & ? & ?); unfold u64_ok in *; split_and!; lia).
  all: apply pbind_inv in E as [(w2 & shards & E2 & E)|[(err & E2 & ->)|(err & E2 & ->)]]; [|done..]; injection E2 as <- <-.
  all: apply pbind_inv in E as [(w3 & [] & E3 & E)|[(err & E3 & ->)|(err & E3 & ->)]]; apply with_db_inv in E3 as (self3 & E3 & ->);
    pose proof (prune_shards_kept _ _ _ _ _ _ Hat _ _ _ Hk1 E3) as Hk3; cbn [fst snd] in *.
  2,3,5,6: split_and!; [done|done|intros _; unfold passed; by rewrite Epr, Etg|done].
  all: assert (Hk4 : s = sch -> i ∈ shard_pruners (snd w) -> kept_entry true true self3)
    by (intros -> Hin; rewrite <- Esp in Hin; eapply prune_shards_saves; [exact Hin|exact Hat|by apply Hmd|exact E3]).
  all: apply pbind_inv in E as [(w4 & [] & E4 & E)|[(err & E4 & ->)|(err & E4 & ->)]]; [|done..]; injection E4 as <-.
  all: assert (Hpass : s = sch -> passed (snd w) -> passed (record_progress t (snd w1)))
    by (intros Es (Hp1 & Hp2 & Hp3); destruct (Hat Es) as (_ & _ & ? & ?); unfold passed; cbn; by rewrite Etg).
  - injection E as <- <-. split_and!; [done|done|done|]. intros _ [=].
  - assert (Hct : s = sch -> stale_since_version e < t /\ u64_ok t) by (intros Es; by destruct (Hat Es) as (_ & _ & ? & ?)).
    destruct (IH sh md t (self3, record_progress t (snd w1)) _ _ Hct Hk3 E) as (Hk5 & Etg5 & Hp5 & _). split_and!; [done|by rewrite Etg5|intros Es Hp; by apply Hp5, Hpass|].
    intros Es _ _ _ Hin. by destruct (IH true true t (self3, record_progress t (snd w1)) _ _ Hct (Hk4 Es Hin) E) as (Hk6 & _).
Qed.

(** A run, also one that fails. *)
Lemma prune_kept s sh md self p self' p' r : (s = sch -> passed p) -> kept_entry sh md self -> smp_prune s (self, p) = ((self', p'), r) ->
  kept_entry sh md self' /\ (s = sch -> passed p').
Proof.
  intros Hp Hk E. unfold smp_prune, pbind at 1, reading at 1 in E. unfold pbind at 1, reading at 1 in E. cbn [snd] in E.
  destruct (smp_target_version p <=? smp_progress p); [injection E as <- <- _; done|].
  assert (Ht : s = sch -> u64_ok (smp_target_version p)) by (intros Es; by destruct (Hp Es) as (_ & _ & ?)).
  assert (Hc : s = sch -> stale_since_version e < smp_progress p /\ u64_ok (smp_progress p)) by (intros Es; by destruct (Hp Es) as (? & ? & _)).
  apply pbind_inv in E as [(w1 & [] & E1 & E)|[(err & E1 & ->)|(err & E1 & ->)]]; [injection E as -> _|..];
    by destruct (prune_loop_kept s _ sh md Ht _ _ (self, p) _ _ Hc Hk E1) as (Hk1 & _ & Hp1 & _); split; [|intros Es; apply Hp1; [|apply Hp]].
Qed.

(** A run that ends, with a round, saves the progress. *)
Lemma prune_saves self p w' v : passed p -> kept_entry false false self -> i ∈ shard_pruners p ->
  smp_progress p < smp_target_version p -> smp_next_version p <= smp_target_version p ->
  smp_prune sch (self, p) = (w', Ok v) -> kept_entry true true (fst w') /\ passed (snd w').
Proof.
  intros Hp Hk Hin Hlt Hn E. pose proof Hp as (Hp1 & Hp2 & Hp3). unfold smp_prune, pbind at 1, reading at 1 in E. unfold pbind at 1, reading at 1 in E. cbn [snd] in E.
  rewrite (proj2 (Z.leb_gt _ _)) in E by done. apply pbind_inv in E as [(w1 & [] & E1 & E)|[(err & _ & [=])|(err & _ & [=])]]. injection E as -> _.
  destruct (prune_loop_kept sch _ false false (fun _ => Hp3) _ _ (self, p) _ _ (fun _ => conj Hp1 Hp2) Hk E1) as (_ & _ & Hp' & Hs). split; [by apply Hs|by apply Hp'].
Qed.

(** A run up to before the next version of the metadata does nothing but count. *)
Lemma prune_passes self p : smp_progress p < smp_target_version p < smp_next_version p ->
  smp_prune sch (self, p) = ((self, record_progress (smp_target_version p) p), Ok (smp_target_version p)).
Proof.
  intros Hb. unfold smp_prune, pbind at 1, reading at 1. unfold pbind at 1, reading at 1. cbn [snd]. rewrite (proj2 (Z.leb_gt _ _)) by lia.
  assert (El : forall fuel, smp_prune_loop sch fuel (smp_progress p) (smp_target_version p) (self, p) = ((self, record_progress (smp_target_version p) p), Ok tt)).
  { intros fuel. assert (Em : maybe_prune_single_version sch (smp_progress p) (smp_target_version p) (self, p) = ((self, p), Ok None)).
    { unfold maybe_prune_single_version, pbind at 1, reading at 1. cbn [snd]. by rewrite (proj2 (Z.ltb_lt _ _)) by lia. }
    destruct fuel; cbn [smp_prune_loop]; rewrite (proj2 (Z.ltb_lt (smp_progress p) _)) by lia; by rewrite (pbind_Ok _ _ _ _ _ Em). }
  by rewrite (pbind_Ok _ _ _ _ _ (El _)).
Qed.

(** *** A start of the node *)
Lemma initialize_mild s key_sid m : s <> sch -> mildly (get_or_initialize_subpruner_progress (progress_metadata_key s key_sid) m).
Proof.
  intros Hne. apply mildly_bind; [apply mildly_reading|]. intros [v|]; [apply mildly_ret|]. apply mildly_bind; [|intros _; apply mildly_ret].
  intros db db' r Hok E. eapply (write_deletes_mild s [] true key_sid m); [done|by intros f Hf%not_elem_of_nil|done|exact E].
Qed.

Lemma new_shard_mild s j m : s <> sch -> mildly (StateMerkleShardPruner_new s j m).
Proof. intros Hne. apply mildly_bind; [by apply initialize_mild|]. intros v. by apply shard_prune_mild. Qed.

(** A saved progress is taken as it is. *)
Lemma new_shard_past j m db db' r : stale_since_version e < m -> u64_ok m -> stale_ok_view (view db) -> past (Some j) (view db) ->
  StateMerkleShardPruner_new sch j m db = (db', r) -> mild (view db) (view db').
Proof.
  intros Hm Hmu Hok (v & Hv & Hlt & Hu) E. unfold StateMerkleShardPruner_new, get_or_initialize_subpruner_progress in E.
  unfold pbind at 1, pbind at 1, reading at 1 in E. destruct (db_get_version db _) as [o| |] eqn:Eo; [|injection E as <- _; by apply mild_refl..].
  apply db_get_version_spec in Eo. rewrite Hv in Eo. subst o. change (shard_prune sch j v m db = (db', r)) in E.
  by apply (shard_prune_mild 1 sch j v m (fun _ => conj Hlt (conj Hu (conj Hm Hmu)))) in E.
Qed.

Lemma new_shard_ok s j m db db' r : stale_ok_view (view db) -> StateMerkleShardPruner_new s j m db = (db', r) -> stale_ok_view (view db').
Proof.
  intros Hok E. unfold StateMerkleShardPruner_new in E. apply pbind_inv in E as [(db1 & v & E1 & E)|[(err & E1 & ->)|(err & E1 & ->)]];
    pose proof (get_or_initialize_safe s _ _ _ _ _ m E1) as Hp; apply pruned_ok in Hp; try done.
  apply (shard_prune_loop_safe s) in E; [|done]. by eapply pruned_ok.
Qed.

Lemma new_shards_kept s shards m : 0 <= i -> Forall (Z.le 0) shards -> (s = sch -> stale_since_version e < m /\ u64_ok m) ->
  forall self self' r, kept_entry true true self -> new_shard_pruners s shards m self = (self', r) -> kept_entry true true self'.
Proof.
  intros Hi Hshards Hm. induction Hshards as [|j shards Hj _ IH]; intros self self' r Hk E; cbn [new_shard_pruners] in E; [by injection E as <- _|].
  assert (H1' : forall self1 r1, on_db (Some j) (StateMerkleShardPruner_new s j m) self = (self1, r1) -> kept_entry true true self1).
  { intros self1 r1 E1. destruct (decide (s = sch)) as [->|Hne]; [|by eapply kept_on_db; [apply new_shard_mild|exact Hk|exact E1]].
    destruct (decide (j = i)) as [->|Hji]; [|by eapply kept_elsewhere; [exact Hi|exact Hj|exact Hji|intros *; apply new_shard_ok|exact Hk|exact E1]].
    eapply kept_on_this; [exact Hk|exact E1|]. intros db db' r' Hdb Ep. destruct (Hm eq_refl). destruct (ke_shard _ _ _ Hk) as (db1 & Hdb1 & _ & Hp).
    assert (db1 = db) as -> by congruence. eapply new_shard_past; [done|done|by eapply (ke_ok _ _ _ Hk)|by apply Hp|exact Ep]. }
  apply pbind_inv in E as [(self1 & [] & E1 & E)|[(err & E1 & ->)|(err & E1 & ->)]]; [|by eapply H1'..]. apply H1' in E1.
  apply pbind_inv in E as [(self2 & l & E2 & E)|[(err & E2 & ->)|(err & E2 & ->)]]; [injection E as <- _|..]; by eapply IH.
Qed.

(** The pruners of a start leave the entry, once its progress is saved. *)
Lemma new_pruner_kept s self self' r : 0 <= i -> kept_entry true true self -> StateMerklePruner_new s self = (self', r) ->
  kept_entry true true self' /\ forall p, s = sch -> r = Ok p -> passed p.
Proof.
  intros Hi Hk E. unfold StateMerklePruner_new in E. apply pbind_inv in E as [(self1 & m & E1 & E)|[(err & E1 & ->)|(err & E1 & ->)]].
  2,3: split; [|done]; eapply kept_on_db; [apply mildly_reading|exact Hk|exact E1].
  apply on_db_reading in E1 as (-> & db & Hdb & Em). unfold metadata_pruner_progress, get_progress in Em. apply bind_Ok in Em as (o & Eo & Em).
  injection Em as <-. apply db_get_version_spec in Eo.
  assert (Hm : s = sch -> stale_since_version e < default 0 o /\ u64_ok (default 0 o)).
  { intros ->. destruct (ke_metadata _ _ _ Hk eq_refl) as (db0 & Hdb0 & v & Hv & Hlt & Hu). change (slot self None) with 0%nat in Hdb.
    assert (db0 = db) as -> by congruence. rewrite Hv in Eo. by subst o. }
  unfold pbind at 1, reading at 1 in E.
  assert (Hs : forall self2 r2, (if enable_sharding self then new_shard_pruners s (seqZ 0 NUM_STATE_SHARDS) (default 0 o) else pret []) self = (self2, r2) ->
    kept_entry true true self2).
  { intros self2 r2 E2. rewrite (ke_sharding _ _ _ Hk) in E2. eapply new_shards_kept; [done| |exact Hm|exact Hk|exact E2].
    apply Forall_forall. intros j Hj. apply elem_of_seqZ in Hj. lia. }
  apply pbind_inv in E as [(self2 & l & E2 & E)|[(err & E2 & ->)|(err & E2 & ->)]]; apply Hs in E2; [|done..].
  injection E as <- <-. split; [done|]. intros p Es Ep. injection Ep as <-. destruct (Hm Es). by split_and!.
Qed.
End PassedOver.
