(* ===== verification/StateMerklePrunerTheorems.v ===== *)
(** * Pruning: theorems

    Safety, completeness, the managers, and what is saved for the next start; with a
    database in memory for the witnesses.  What an incomplete run leaves behind is in
    [NodeRestartTheorems]. *)
From stdpp Require Import base list numbers strings option gmap sorting.
From Stdlib Require Import ZArith Lia Bool Sorted.
From S2P Require Import Prelude Hash ToyHash SparseMerkleProof SparseSpec SparseFacts SparseTheorems NibblePath NibblePathFacts ByteCodec JellyfishNode JellyfishNodeFacts JellyfishHash JellyfishSpec JellyfishTree JellyfishRead JellyfishRuns JellyfishBatch JellyfishUpdate JellyfishInsert JellyfishCommit JellyfishHistory JellyfishTheorems StateMerkleDb StateMerklePruner StateMerklePrunerFacts StateMerklePrunerProgress.

Section PrunerTheorems.
Context {HV : Type} `{HashValueOps HV} `{HashValueBits HV} `{!HashValueLaws HV} `{CryptoHasher HV}
  `{LeafHasher HV} `{HashValueKeys HV} `{!HashValueKeysLaws HV} `{Itertools} `{!ItertoolsLaws} {K : Type}.
Context {DB : Type} `{SchemaDb HV K DB} `{HB : ByteOrder} `{!ByteOrderLaws} `{!SchemaDbLaws HV K DB}.
Implicit Types (sch : StaleSchema) (self : StateMerkleDb DB) (p : StateMerklePruner) (td : tree_db (HV := HV) (K := K)).

(** C20: Whatever the outcome of a run of the pruner, also when a database fails on the
    way, the databases then hold a reachable database with the same versions, and every
    version from the target version on can be read from them: the value of every key,
    the root hash, and a proof that verifies. *)
Theorem pruner_keeps_versions sch self p td w' r rl : (forall (db : DB) k, is_ok (db_get_node db k) = true) ->
  db_reachable td -> stores self td -> smp_prune sch (self, p) = (w', r) ->
  exists td', db_reachable td' /\ stores (fst w') td' /\ td_versions td' = td_versions td /\
    forall v lvs key, (v, lvs) ∈ td_versions td -> kept td v -> smp_target_version p <= v ->
      readable rl (fst w') v lvs key.
Proof.
  intros Hget Hr Hh E. destruct (smp_prune_safe sch (self, p) td w' r Hr Hh E) as (td' & Hd & Hh').
  pose proof Hd as (Hr' & Hv & _).
  exists td'. split_and!; [done|done|done|]. intros v lvs key Hlv Hold Htv. cbn [snd] in *.
  eapply stored_readable; [done|exact Hh'|]. apply reachable_tree; [done|by rewrite Hv|by eapply deletes_kept].
Qed.

(** C21: On databases that do not fail, the loops of the pruner end and [prune] returns
    the target version; of the index being pruned, exactly the entries from the progress
    up to the target are deleted, in the metadata database and in every shard -- provided
    the metadata database has an entry of every version of which a shard has one. *)
Theorem pruner_completes sch self p : db_works DB -> all_ok self -> (0 < length (smdb_dbs self))%nat ->
  Forall (fun i => (slot self (Some i) < length (smdb_dbs self))%nat) (shard_pruners p) ->
  0 <= smp_progress p < smp_target_version p -> u64_ok (smp_target_version p) ->
  (forall e, stale_at sch self 0 e -> smp_progress p <= stale_since_version e ->
    smp_next_version p <= stale_since_version e) ->
  covered sch self (shard_pruners p) (smp_progress p) (smp_target_version p) ->
  exists self' p', smp_prune sch (self, p) = ((self', p'), Ok (smp_target_version p)) /\
    smp_progress p' = smp_target_version p /\
    forall j e, stale_at sch self' j e <-> stale_at sch self j e /\
      ~ (handled self (shard_pruners p) j /\ smp_progress p <= stale_since_version e <= smp_target_version p).
Proof.
  intros Hw Hok Hlen Hsh Hpt Htu Hnv Hcov.
  destruct (prune_loop_works sch Hw (smp_target_version p) Htu (prune_fuel (smp_progress p) (smp_target_version p))
    (smp_progress p) self p) as (self' & p' & E & Hp' & _ & _ & _ & Hst); [lia|done|done|done|done|done| |].
  { left. unfold prune_fuel. lia. }
  exists self', p'. split_and!.
  - unfold smp_prune. rewrite (pbind_Ok _ _ _ (self, p) (smp_progress p)) by done.
    rewrite (pbind_Ok _ _ _ (self, p) (smp_target_version p)) by done. rewrite (proj2 (Z.leb_gt _ _)) by lia.
    by rewrite (pbind_Ok _ _ _ (self', p') tt).
  - apply Hp'. lia.
  - intros j e. rewrite Hst. unfold between, end_version. by rewrite (proj2 (Z.ltb_lt _ _)) by lia.
Qed.

(** The manager sets the target to the latest version less the window, never back,
    and only when the pruner is enabled; a pruner whose target is within the window stays
    so, and then keeps the versions of the window readable. *)
Theorem manager_keeps_window (m m' : StateMerklePrunerManager) latest p' :
  0 <= latest -> 0 <= prune_window m ->
  maybe_set_pruner_target_db_version latest m = Ok m' -> pruner_worker m' = Some p' ->
  exists p, pruner_worker m = Some p /\ smp_target_version p <= smp_target_version p' /\ smp_progress p' = smp_progress p /\
    (smp_target_version p <= Z.max 0 (latest - prune_window m) ->
      smp_target_version p' <= Z.max 0 (latest - prune_window m)) /\
    (min_readable_version m + prune_window m <= latest ->
      min_readable_version m' = latest - prune_window m \/ latest < prune_window m /\ min_readable_version m' = 0) /\
    (latest < min_readable_version m + prune_window m -> m' = m).
Proof.
  intros Hl Hwin E Hw. unfold maybe_set_pruner_target_db_version in E.
  destruct (pruner_worker m) as [p|] eqn:Ep; [|injection E as <-; congruence].
  apply bind_Ok in E as (bound & Eb & E). unfold add64 in Eb. destruct (_ <? U64); [|done]. injection Eb as <-.
  exists p. split; [done|].
  destruct (min_readable_version m + prune_window m <=? latest) eqn:Ele; [apply Z.leb_le in Ele|apply Z.leb_gt in Ele].
  - unfold set_pruner_target_db_version in E. rewrite Ep in E. cbn [expect] in E. rewrite obind_Ok in E.
    injection E as <-. cbn [pruner_worker min_readable_version prune_window] in *. injection Hw as <-.
    unfold set_target_db_version. destruct (smp_target_version p <? _) eqn:Et;
      [apply Z.ltb_lt in Et|apply Z.ltb_ge in Et]; cbn [set_target_version smp_target_version smp_progress];
      split_and!; try done; lia.
  - injection E as <-. assert (p' = p) as -> by congruence. split_and!; done || lia.
Qed.

(** C37: [save_min_readable_version] sets the first readable version of the manager and
    saves it under the key of the state pruner, also for the epoch snapshot pruner: a
    restart finds what the state pruner saved, but of the epoch snapshot pruner what was
    there before. *)
Theorem saved_for_state_pruner_only sch self (m : StateMerklePrunerManager) version self' m' v0 v :
  save_min_readable_version version (self, m) = ((self', m'), Ok tt) ->
  get_state_merkle_pruner_progress sch self = Ok v0 -> get_state_merkle_pruner_progress sch self' = Ok v ->
  min_readable_version m' = version /\
  v = match sch with StaleNodeIndexSchema => version | StaleNodeIndexCrossEpochSchema => v0 end.
Proof.
  intros E E0 Ev. unfold save_min_readable_version in E. cbn [fst snd] in E.
  destruct (write_pruner_progress version self) as [self1 r] eqn:Ew. injection E as <- <- ->. split; [done|].
  unfold get_state_merkle_pruner_progress, get_progress in E0, Ev.
  apply bind_Ok in E0 as (db0 & Ed0 & E0), Ev as (db & Ed & Ev).
  apply bind_Ok in E0 as (o0 & Eo0%db_get_version_spec & [= <-]), Ev as (o & Eo%db_get_version_spec & [= <-]).
  unfold write_pruner_progress in Ew. unfold on_db in Ew. rewrite Ed0 in Ew.
  destruct (write_schemas _ db0) as [db1 r] eqn:Es. injection Ew as <- ->. apply write_schemas_spec in Es as (_ & _ & Vv).
  unfold smdb_db, expect in Ed0, Ed. cbn [slot smdb_dbs] in Ed0, Ed. destruct (smdb_dbs self !! 0%nat) eqn:Ej; [|done].
  rewrite list_lookup_insert_eq in Ed by (by eapply lookup_lt_Some). injection Ed as <-. injection Ed0 as ->.
  rewrite Eo, Vv, Eo0. by destruct sch.
Qed.

(** One database without sharding, with one index. *)
Lemma one_db_stores (db : DB) td : (forall k, td_nodes td k = dv_node (view db) k) ->
  (forall sch e, e ∈ dv_stale (view db) sch <-> sch = StaleNodeIndexSchema /\ e ∈ td_stale td) ->
  (forall k n, td_nodes td k = Some n -> path_good k) ->
  Forall index_ok (td_stale td) -> stores (mkStateMerkleDb [db] false) td.
Proof.
  intros Hn Hs Hkeys Hok. rewrite Forall_forall in Hok.
  assert (Hj : forall j db1, [db] !! j = Some db1 -> j = 0%nat /\ db1 = db).
  { intros [|j] db1 E; [by injection E as <-|]. by rewrite lookup_cons, lookup_nil in E. }
  assert (Hslot : forall o, slot (mkStateMerkleDb [db] false) o = 0%nat) by (by intros [|]).
  split; cbn [smdb_dbs].
  - done.
  - done.
  - intros k db1 Hk. by apply Hj in Hk as [_ ->].
  - intros e. split.
    + intros He. exists 0%nat, db, StaleNodeIndexSchema. split; [done|]. by apply Hs.
    + intros (j & db1 & s & Hjd & He). apply Hj in Hjd as [-> ->]. by apply Hs in He as [_ ?].
  - intros j db1 s e Hjd He. apply Hj in Hjd as [-> ->]. rewrite Hslot. split; [|done]. apply Hs in He as [_ He]. by apply Hok.
  - intros j db1 s s' e Hjd He He'. apply Hj in Hjd as [-> ->]. apply Hs in He as [-> _], He' as [-> _]. done.
  - intros j db1 k n Hjd _. apply Hj in Hjd as [-> _]. apply Hslot.
Qed.
End PrunerTheorems.

(** ** A database in memory *)
Lemma lex_compare_antisym xs : forall ys, lex_compare ys xs = CompOpp (lex_compare xs ys).
Proof.
  induction xs as [|x xs IH]; intros [|y ys]; try done. cbn [lex_compare]. rewrite (Z.compare_antisym x y), IH.
  by destruct (x ?= y).
Qed.

Lemma lex_compare_trans xs : forall ys zs, lex_compare xs ys <> Gt -> lex_compare ys zs <> Gt -> lex_compare xs zs <> Gt.
Proof.
  induction xs as [|x xs IH]; intros [|y ys] [|z zs]; try done. cbn [lex_compare].
  intros H1 H2. destruct (Z.compare_spec x y) as [->|Hxy|Hxy]; [| |done].
  - destruct (y ?= z); [by eapply IH|done|done].
  - destruct (Z.compare_spec y z) as [->|Hyz|Hyz]; [| |done]; by rewrite (proj2 (Z.compare_lt_iff x z)) by lia.
Qed.

Section MemoryDb.
#[local] Existing Instances ref_byteorder ref_byteorder_laws.

Definition bytes_le (a b : StaleNodeIndex) : Prop :=
  lex_compare (StaleNodeIndex_encode_key a) (StaleNodeIndex_encode_key b) <> Gt.

#[local] Instance bytes_le_dec a b : Decision (bytes_le a b).
Proof. unfold bytes_le. apply _. Defined.

#[local] Instance bytes_le_trans : Transitive bytes_le.
Proof. intros a b c. apply lex_compare_trans. Qed.

#[local] Instance bytes_le_total : Total bytes_le.
Proof.
  intros a b. unfold bytes_le. rewrite (lex_compare_antisym (StaleNodeIndex_encode_key a)).
  destruct (lex_compare _ _); [by left..|by right].
Qed.

Definition bytes_from (seek : list Z) (e : StaleNodeIndex) : Prop := lex_compare (StaleNodeIndex_encode_key e) seek <> Lt.

#[local] Instance bytes_from_dec seek e : Decision (bytes_from seek e).
Proof. unfold bytes_from. apply _. Defined.

Definition memory_from (sch : StaleSchema) (d : db_view bytes32 Z) (seek : list Z) : list StaleNodeIndex :=
  merge_sort bytes_le (filter (bytes_from seek) (dv_stale d sch)).

#[local] Instance memory_db : SchemaDb bytes32 Z (db_view bytes32 Z) := {|
  db_get_node := fun d k => Ok (dv_node d k);
  db_get_version := fun d k => Ok (dv_version d k);
  db_stale_from := fun sch d seek => Ok (map Ok (memory_from sch d seek));
  write_schemas := fun batch d => (apply_ops d batch, Ok tt);
|}.

#[local] Instance memory_db_laws : SchemaDbLaws bytes32 Z (db_view bytes32 Z).
Proof.
  refine {| view := id |}; unfold id.
  - intros db k o [= <-]. done.
  - intros db k o [= <-]. done.
  - intros sch db seek items [= <-]. exists (memory_from sch db seek). split; [by left|]. split.
    + apply StronglySorted_merge_sort; apply _.
    + intros e. unfold memory_from. rewrite merge_sort_Permutation, list_elem_of_filter. unfold bytes_from; tauto.
  - intros batch db db' r [= <- <-]. done.
Defined.

Lemma memory_works : db_works (db_view bytes32 Z).
Proof. split_and!; try done. intros sch db seek. by exists (memory_from sch db seek). Qed.

(** The metadata database has entries since versions 1 and 8, shard 0 one since version 3. *)
Definition toy_stale (v : Z) (path : list Z) : StaleNodeIndex := mkStaleNodeIndex v (mkNodeKey 0 (pack path)).

Definition toy_view (l : list StaleNodeIndex) : db_view bytes32 Z :=
  mkDbView (fun k => if decide (k ∈ map stale_node_key l) then Some Node_Null else None)
    (fun s => match s with StaleNodeIndexCrossEpochSchema => l | _ => [] end) (fun _ => None).

Definition toy_smdb : StateMerkleDb (db_view bytes32 Z) :=
  mkStateMerkleDb (toy_view [toy_stale 1 []; toy_stale 8 []] :: toy_view [toy_stale 3 [0]] ::
    replicate 15 (toy_view [])) true.

Definition toy_pruner (target : Z) : StateMerklePruner := mkStateMerklePruner target 0 0 (seqZ 0 16).

(** ** Witnesses *)

(** Two versions in one database without sharding. *)
Definition result_of {A} (d : A) (o : outcome A) : A := match o with Ok a => a | _ => d end.

Lemma result_of_Ok {A} (d : A) o : is_ok o = true -> o = Ok (result_of d o).
Proof. by destruct o. Qed.

Definition toy_put (s : @store bytes32 Z) (kvs : list (bytes32 * option (bytes32 * Z))) (v : Z) :=
  result_of (of_num 0, TreeUpdateBatch_new) (put_value_set_test (reader_of s) kvs v).

Definition toy_updates2 : list (bytes32 * option (bytes32 * Z)) := [(toy_key 17, Some (of_num 9, 5)); (toy_key 200, None)].

Definition toy_b0 : TreeUpdateBatch bytes32 Z := snd (toy_put (fun _ => None) toy_updates 0).
Definition toy_s0 : @store bytes32 Z := write_batch (fun _ => None) toy_b0.
Definition toy_b1 : TreeUpdateBatch bytes32 Z := snd (toy_put toy_s0 toy_updates2 1).
Definition toy_lvs2 : list (LeafNode bytes32 Z) := update_all 1 toy_lvs toy_updates2.
Definition toy_td0 : @tree_db bytes32 Z := put_db toy_empty 0 toy_updates toy_b0.
Definition toy_td : @tree_db bytes32 Z := put_db toy_td0 1 toy_updates2 toy_b1.

Lemma toy_td_reachable : db_reachable toy_td.
Proof.
  assert (E0 : put_value_set_test (reader_of (fun _ => None)) toy_updates 0 = Ok (toy_put (fun _ => None) toy_updates 0))
    by (apply result_of_Ok; vm_compute; reflexivity).
  assert (E1 : put_value_set_test (reader_of toy_s0) toy_updates2 1 = Ok (toy_put toy_s0 toy_updates2 1))
    by (apply result_of_Ok; vm_compute; reflexivity).
  rewrite (surjective_pairing (toy_put (fun _ => None) toy_updates 0)) in E0.
  rewrite (surjective_pairing (toy_put toy_s0 toy_updates2 1)) in E1.
  assert (R0 : db_reachable toy_td0).
  { refine (step_put_test toy_empty _ toy_updates _ _ reach_empty _ (sees_of _) E0). vm_compute. reflexivity. }
  refine (step_put_test toy_td0 _ toy_updates2 _ _ R0 _ (sees_of _) E1). vm_compute. reflexivity.
Qed.

#[local] Strategy 1000 [toy_lvs toy_lvs2 toy_b0 toy_b1].

Definition path_goodb (k : NodeKey) : bool :=
  let q := unpack (nk_nibble_path k) in
  bool_decide (nk_nibble_path k = pack q) && forallb (fun n => (0 <=? n) && (n <? 16)) q && (length q <=? 64)%nat.

Definition index_okb (e : StaleNodeIndex) : bool :=
  let k := stale_node_key e in
  (0 <=? stale_since_version e) && (stale_since_version e <? U64) && (0 <=? nk_version k) && (nk_version k <? U64) &&
  path_goodb k.

Lemma path_goodb_ok k : path_goodb k = true -> path_good k.
Proof.
  unfold path_goodb. rewrite !andb_true_iff. intros [[H5 H6] H7].
  apply bool_decide_eq_true in H5. rewrite forallb_forall in H6. apply Nat.leb_le in H7.
  exists (unpack (nk_nibble_path k)). split_and!; [|done|done].
  apply Forall_forall. intros n Hn. apply list_elem_of_In, H6 in Hn. unfold nibble_ok. lia.
Qed.

Lemma index_okb_ok e : index_okb e = true -> index_ok e.
Proof.
  unfold index_okb. rewrite !andb_true_iff. intros [(((H1 & H2) & H3) & H4) H5].
  apply path_goodb_ok in H5 as (q & Hq & Hl & E).
  split; [unfold u64_ok; lia|]. split; [unfold u64_ok; lia|]. rewrite E. by apply pack_path_ok.
Qed.

Lemma forallb_elem {A} (f : A -> bool) l x : forallb f l = true -> x ∈ l -> f x = true.
Proof. rewrite forallb_forall. intros Hf Hx. by apply Hf, list_elem_of_In. Qed.

(** All of it in one database. *)
Definition one_db (td : @tree_db bytes32 Z) : db_view bytes32 Z :=
  mkDbView (td_nodes td) (fun s => match s with StaleNodeIndexSchema => td_stale td | _ => [] end) (fun _ => None).

Definition toy_smdb2 : StateMerkleDb (db_view bytes32 Z) := mkStateMerkleDb [one_db toy_td] false.

Lemma one_db_index td sch e : e ∈ dv_stale (one_db td) sch <-> sch = StaleNodeIndexSchema /\ e ∈ td_stale td.
Proof.
  destruct sch; cbn [one_db dv_stale]; [by split; [|intros [_ ?]]|].
  split; [intros He; by apply not_elem_of_nil in He|by intros [[=] _]].
Qed.

Lemma toy_td_keys k n : td_nodes toy_td k = Some n -> path_good k.
Proof.
  intros Hk.
  assert (Hall : forallb (fun kn => path_goodb (fst kn)) (nodes_of toy_b0 ++ nodes_of toy_b1) = true)
    by (vm_compute; reflexivity).
  apply path_goodb_ok. refine (forallb_elem _ _ (k, n) Hall _). apply elem_of_app.
  change (write_batch toy_s0 toy_b1 k = Some n) in Hk. apply write_batch_cases in Hk as [Hk|Hk]; [right; exact Hk|].
  change (write_batch (fun _ => None) toy_b0 k = Some n) in Hk. apply write_batch_cases in Hk as [Hk|Hk]; [left; exact Hk|discriminate Hk].
Qed.

Lemma toy_td_index : Forall index_ok (td_stale toy_td).
Proof.
  assert (Hall : forallb index_okb (td_stale toy_td) = true) by (vm_compute; reflexivity).
  apply Forall_forall. intros e He. apply index_okb_ok. exact (forallb_elem _ _ e Hall He).
Qed.

Lemma toy_stores : stores toy_smdb2 toy_td.
Proof. apply one_db_stores; [reflexivity|apply one_db_index|exact toy_td_keys|exact toy_td_index]. Qed.

(** The nodes of version 0 that version 1 replaced are deleted; version 1 is read. *)
Lemma pruner_keeps_versions_witness :
  exists (w' : StateMerkleDb (db_view bytes32 Z) * StateMerklePruner) proof root,
    smp_prune StaleNodeIndexSchema (toy_smdb2, mkStateMerklePruner 1 0 0 []) = (w', Ok 1) /\
    get_with_proof (smdb_reader (fun _ => Ok None) (fst w')) (toy_key 17) 1 = Ok (value_at toy_lvs2 (toy_key 17), proof) /\
    verify_by_hash proof root (toy_key 17) (option_map fst (value_at toy_lvs2 (toy_key 17))) = Ok tt.
Proof.
  destruct (smp_prune StaleNodeIndexSchema (toy_smdb2, mkStateMerklePruner 1 0 0 [])) as [w' r] eqn:E.
  assert (Er : r = Ok 1).
  { apply (f_equal snd) in E. cbn [snd] in E. rewrite <- E. vm_compute. reflexivity. }
  destruct (pruner_keeps_versions StaleNodeIndexSchema toy_smdb2 (mkStateMerklePruner 1 0 0 []) toy_td w' r (fun _ => Ok None))
    as (td' & _ & _ & _ & Hv).
  - intros db k. reflexivity.
  - exact toy_td_reachable.
  - exact toy_stores.
  - exact E.
  - destruct (Hv 1 toy_lvs2 (toy_key 17)) as (proof & root & Hg & _ & Hver).
    + right. left.
    + constructor.
    + cbn. lia.
    + exists w', proof, root. rewrite Er. split; [reflexivity|]. split; [exact Hg|exact Hver].
Defined.

(** The metadata has an entry of every version. *)
Definition toy_smdb3 : StateMerkleDb (db_view bytes32 Z) :=
  mkStateMerkleDb (toy_view [toy_stale 1 []; toy_stale 3 []; toy_stale 8 []] :: toy_view [toy_stale 3 [0]] ::
    replicate 15 (toy_view [])) true.

Lemma toy_stale_at3 j e : stale_at StaleNodeIndexCrossEpochSchema toy_smdb3 j e ->
  (j = 0%nat /\ e ∈ [toy_stale 1 []; toy_stale 3 []; toy_stale 8 []]) \/ (j = 1%nat /\ e = toy_stale 3 [0]).
Proof.
  intros (db & Hj & He). destruct j as [|[|j]].
  - injection Hj as <-. by left.
  - injection Hj as <-. right. split; [done|]. by apply list_elem_of_singleton in He.
  - cbn [toy_smdb3 smdb_dbs] in Hj. change (replicate 15 (toy_view []) !! j = Some db) in Hj.
    apply lookup_replicate in Hj as [-> _]. by apply not_elem_of_nil in He.
Qed.

Lemma pruner_completes_witness : exists self' p',
  smp_prune StaleNodeIndexCrossEpochSchema (toy_smdb3, toy_pruner 5) = ((self', p'), Ok 5) /\
  ~ stale_at StaleNodeIndexCrossEpochSchema self' 1 (toy_stale 3 [0]).
Proof.
  destruct (pruner_completes StaleNodeIndexCrossEpochSchema toy_smdb3 (toy_pruner 5)) as (self' & p' & E & _ & Hs).
  - exact memory_works.
  - intros j db Hj s e He. apply index_okb_ok. destruct s; [exfalso|].
    + assert (Hd : db ∈ smdb_dbs toy_smdb3) by (by eapply list_elem_of_lookup_2). cbn [toy_smdb3 smdb_dbs] in Hd.
      apply elem_of_cons in Hd as [->|Hd]; [by apply not_elem_of_nil in He|].
      apply elem_of_cons in Hd as [->|Hd]; [by apply not_elem_of_nil in He|].
      apply elem_of_replicate_inv in Hd as ->. by apply not_elem_of_nil in He.
    + assert (Hat : stale_at StaleNodeIndexCrossEpochSchema toy_smdb3 j e) by (by exists db).
      apply toy_stale_at3 in Hat as [[_ Hin]|[_ ->]]; [|vm_compute; reflexivity].
      repeat (apply elem_of_cons in Hin as [->|Hin]; [vm_compute; reflexivity|]). by apply not_elem_of_nil in Hin.
  - cbn. lia.
  - apply Forall_forall. intros i Hi. apply elem_of_seqZ in Hi. cbn. lia.
  - cbn. lia.
  - unfold u64_ok, U64. cbn. lia.
  - intros e He _. cbn. apply toy_stale_at3 in He as [[_ Hin]|[_ ->]]; [|cbn; lia].
    repeat (apply elem_of_cons in Hin as [->|Hin]; [cbn; lia|]). by apply not_elem_of_nil in Hin.
  - intros i e Hi He _. apply toy_stale_at3 in He as [[Ej _]|[_ ->]]; [discriminate Ej|].
    exists (toy_stale 3 []). split; [|reflexivity]. eexists. split; [reflexivity|]. right. left.
  - exists self', p'. split; [exact E|]. intros Hat. apply Hs in Hat as [_ Hno]. apply Hno.
    split; [right; exists 0; split; [change (0 ∈ seqZ 0 16); apply elem_of_seqZ; lia|reflexivity]|cbn; lia].
Defined.
(** After a restore at version 50. *)
Lemma saved_for_state_pruner_only_witness : let '((self', m'), _) := save_min_readable_version 50 (toy_smdb, mkStateMerklePrunerManager 10 None 0) in
  min_readable_version m' = 50 /\ get_state_merkle_pruner_progress StaleNodeIndexCrossEpochSchema self' = Ok 0.
Proof.
  pose proof (saved_for_state_pruner_only StaleNodeIndexCrossEpochSchema toy_smdb (mkStateMerklePrunerManager 10 None 0) 50 _ _ 0 0
    eq_refl eq_refl eq_refl) as [Hm _]. split; [exact Hm|reflexivity].
Defined.
End MemoryDb.

Lemma manager_keeps_window_witness :
  exists m', maybe_set_pruner_target_db_version 100 (mkStateMerklePrunerManager 10 (Some (toy_pruner 0)) 0) = Ok m' /\
    min_readable_version m' = 90.
Proof.
  destruct (manager_keeps_window (mkStateMerklePrunerManager 10 (Some (toy_pruner 0)) 0)
    (mkStateMerklePrunerManager 10 (Some (toy_pruner 90)) 90) 100 (toy_pruner 90)) as (p & _ & _ & _ & _ & Hm & _);
    [lia|cbn; lia|reflexivity|reflexivity|].
  exists (mkStateMerklePrunerManager 10 (Some (toy_pruner 90)) 90). split; [reflexivity|].
  destruct (Hm ltac:(cbn; lia)) as [E|[E _]]; [exact E|cbn in E; lia].
Defined.
