(* ===== verification/StateMerkleCommit.v ===== *)
(** * Committing to the database of the state tree

    Model of the writing half of [storage/aptosdb/src/state_merkle_db.rs]: a batch of
    values is merklized shard by shard, the top level is built from the shard roots, and
    the batches are written, the shards first. *)
From stdpp Require Import base list numbers strings option gmap.
From Stdlib Require Import ZArith Lia Bool.
From S2P Require Import Prelude Hash SparseMerkleProof NibblePath ByteCodec JellyfishNode JellyfishTree StateMerkleDb.

Section Commit.
Context {HV : Type} `{HashValueOps HV} `{HashValueBits HV} `{CryptoHasher HV} `{LeafHasher HV}
  `{HashValueKeys HV} `{Itertools} {K : Type}.
Context {DB : Type} `{SchemaDb HV K DB}.
Context (rightmost : Version -> outcome (option (NodeKey * LeafNode HV K))).
Implicit Types (self : StateMerkleDb DB).

Abbreviation Update := (HV * option (HV * K))%type (only parsing).

(** [get_state_shard_id] *)
Definition get_state_shard_id (key : HV) : Z := nibble key 0.

Definition put_progress (version : option Version) (shard_id : option Z) : list (BatchOp HV K) :=
  let key :=
    match shard_id with
    | Some shard_id => StateMerkleShardCommitProgress shard_id
    | None => StateMerkleCommitProgress
    end in
  match version with
  | Some version => [Put_version key version]
  | None => [Delete_version key]
  end.

(** [ensure!(node_key.get_shard_id() == shard_id, ..)] *)
Definition ensure_shard (node_key : NodeKey) (shard_id : option Z) : outcome unit :=
  id ← NodeKey_get_shard_id node_key;
  ensure (bool_decide (id = shard_id)) "shard_id mismatch".

Fixpoint node_ops (shard_id : option Z) (node_batch : list (NodeKey * Node HV K)) : outcome (list (BatchOp HV K)) :=
  match node_batch with
  | [] => Ok []
  | (node_key, node) :: node_batch =>
      _ ← ensure_shard node_key shard_id;
      ops ← node_ops shard_id node_batch;
      Ok (Put_node node_key node :: ops)
  end.

(** The index an entry goes to. *)
Definition stale_schema (previous_epoch_ending_version : option Version) (row : StaleNodeIndex) : StaleSchema :=
  match previous_epoch_ending_version with
  | Some v => if nk_version (stale_node_key row) <=? v then StaleNodeIndexCrossEpochSchema else StaleNodeIndexSchema
  | None => StaleNodeIndexSchema
  end.

Fixpoint stale_ops (shard_id : option Z) (previous_epoch_ending_version : option Version)
    (stale_node_index_batch : list StaleNodeIndex) : outcome (list (BatchOp HV K)) :=
  match stale_node_index_batch with
  | [] => Ok []
  | row :: stale_node_index_batch =>
      _ ← ensure_shard (stale_node_key row) shard_id;
      ops ← stale_ops shard_id previous_epoch_ending_version stale_node_index_batch;
      Ok (Put_stale (stale_schema previous_epoch_ending_version row) row :: ops)
  end.

Definition create_jmt_commit_batch_for_shard (version : Version) (shard_id : option Z)
    (tree_update_batch : TreeUpdateBatch HV K) (previous_epoch_ending_version : option Version)
  : outcome (list (BatchOp HV K)) :=
  nodes ← node_ops shard_id (concat (node_batch tree_update_batch));
  stale ← stale_ops shard_id previous_epoch_ending_version (concat (stale_node_index_batch tree_update_batch));
  Ok (nodes ++ stale ++ put_progress (Some version) shard_id).

Definition merklize_value_set_for_shard self (shard_id : Z) (value_set : list Update)
    (node_hashes : option (gmap NibblePath HV)) (version : Version)
    (base_version shard_persisted_version previous_epoch_ending_version : option Version)
  : outcome (Node HV K * list (BatchOp HV K)) :=
  _ ← match shard_persisted_version with
      | Some shard_persisted_version =>
          base_version ← expect base_version "Must have base version.";
          assert (shard_persisted_version <=? base_version) "assertion failed: shard_persisted_version <= base_version"
      | None => Ok tt
      end;
  r ← batch_put_value_set_for_shard (smdb_reader rightmost self) shard_id value_set node_hashes
        shard_persisted_version version;
  let '(shard_root_node, tree_update_batch) := r in
  batch ← create_jmt_commit_batch_for_shard version (Some shard_id) tree_update_batch previous_epoch_ending_version;
  Ok (shard_root_node, batch).

Definition calculate_top_levels (shard_root_nodes : list (Node HV K)) (version : Version)
    (base_version previous_epoch_ending_version : option Version) : outcome (HV * list (BatchOp HV K)) :=
  _ ← assert (Z.of_nat (length shard_root_nodes) =? 16) "assertion failed: shard_root_nodes.len() == 16";
  r ← put_top_levels_nodes shard_root_nodes base_version version;
  let '(root_hash, tree_update_batch) := r in
  batch ← create_jmt_commit_batch_for_shard version None tree_update_batch previous_epoch_ending_version;
  Ok (root_hash, batch).

(** [Result::unwrap] *)
Definition unwrap {A} (o : outcome A) : outcome A :=
  match o with Err e => Panic e | o => o end.

(** The loop of [merklize_value_set] over the shards. *)
Fixpoint merklize_shards self (value_set : list Update) (version : Version)
    (base_version previous_epoch_ending_version : option Version) (shards : list Z)
  : outcome (list (Node HV K) * list (list (BatchOp HV K))) :=
  match shards with
  | [] => Ok ([], [])
  | shard_id :: shards =>
      r ← unwrap (merklize_value_set_for_shard self shard_id
            (List.filter (fun kv => get_state_shard_id (fst kv) =? shard_id) value_set) None version
            base_version base_version previous_epoch_ending_version);
      let '(node, batch) := r in
      r ← merklize_shards self value_set version base_version previous_epoch_ending_version shards;
      let '(nodes, batches) := r in
      Ok (node :: nodes, batch :: batches)
  end.

Definition merklize_value_set self (value_set : list Update) (version : Version)
    (base_version previous_epoch_ending_version : option Version)
  : outcome (list (BatchOp HV K) * list (list (BatchOp HV K)) * HV) :=
  r ← merklize_shards self value_set version base_version previous_epoch_ending_version (seqZ 0 16);
  let '(shard_root_nodes, sharded_batches) := r in
  r ← calculate_top_levels shard_root_nodes version base_version previous_epoch_ending_version;
  let '(root_hash, top_levels_batch) := r in
  Ok (top_levels_batch, sharded_batches, root_hash).

(** ** Writing

    The batches of the shards are written by a pool of threads, each as a whole: a run is
    a sequence of the writes in some order.  A failed write is a panic, after which the
    pool may not get to the shards that are left. *)
Fixpoint commit_jobs (jobs : list (Z * list (BatchOp HV K))) : prog (StateMerkleDb DB) bool :=
  match jobs with
  | [] => pret true
  | (shard_id, batch) :: jobs =>
      ok <~ (fun self => let '(self, r) := on_db (Some shard_id) (write_schemas batch) self in (self, Ok (is_ok r)));
      oks <~ commit_jobs jobs;
      pret (ok && oks)
  end.

(** The enumerated batches, in the order [order] in which the pool gets to them. *)
Definition enumerated (order : list nat) (batches_for_shards : list (list (BatchOp HV K)))
  : list (Z * list (BatchOp HV K)) :=
  omap (fun shard_id => (fun batch => (Z.of_nat shard_id, batch)) <$> batches_for_shards !! shard_id) order.

Definition commit_top_levels (batch : list (BatchOp HV K)) : prog (StateMerkleDb DB) unit :=
  on_db None (write_schemas batch).

Definition smdb_commit (order : list nat) (top_levels_batch : list (BatchOp HV K))
    (batches_for_shards : list (list (BatchOp HV K))) : prog (StateMerkleDb DB) unit :=
  _ <~ reading (fun _ => ensure (Z.of_nat (length batches_for_shards) =? NUM_STATE_SHARDS) "Shard count mismatch.");
  ok <~ commit_jobs (enumerated order batches_for_shards);
  _ <~ reading (fun _ => assert ok "Failed to commit state merkle shard");
  commit_top_levels top_levels_batch.
End Commit.
