(* ===== verification/StateMerkleCommitFacts.v ===== *)
(** * A commit writes the next version

    The batches a commit writes to the databases are the nodes and the stale index of
    the tree update, each in the database of its shard: the databases then hold the next
    version on top of the ones they had. *)
From stdpp Require Import base list numbers strings option gmap sorting.
From Stdlib Require Import ZArith Lia Bool Sorted.
From S2P Require Import Prelude Hash SparseMerkleProof SparseSpec SparseFacts NibblePath NibblePathFacts ByteCodec JellyfishNode JellyfishNodeFacts JellyfishHash JellyfishSpec JellyfishTree JellyfishRead JellyfishRuns JellyfishBatch JellyfishUpdate JellyfishInsert JellyfishCommit JellyfishHistory StateMerkleDb StateMerklePruner StateMerklePrunerFacts StateMerklePrunerProgress StateMerkleCommit.

Section CommitFacts.
Context {HV : Type} `{HashValueOps HV} `{HashValueBits HV} `{!HashValueLaws HV} `{CryptoHasher HV}
  `{LeafHasher HV} `{HashValueKeys HV} `{!HashValueKeysLaws HV} `{Itertools} `{!ItertoolsLaws} {K : Type}.
Context {DB : Type} `{SchemaDb HV K DB} `{HB : ByteOrder} `{!ByteOrderLaws} `{!SchemaDbLaws HV K DB}.
Implicit Types (db : DB) (d : db_view HV K) (e : StaleNodeIndex) (self : StateMerkleDb DB)
  (s : store (HV := HV) (K := K)) (nb : list (NodeKey * Node HV K)) (sb st : list StaleNodeIndex) (sid : option Z)
  (td : tree_db (HV := HV) (K := K)) (b : TreeUpdateBatch HV K).

(** ** The operations of a batch *)
Definition put_nodes nb : list (BatchOp HV K) := map (fun kn => Put_node (fst kn) (snd kn)) nb.
Definition put_stales (prev : option Version) sb : list (BatchOp HV K) := map (fun e => Put_stale (stale_schema prev e) e) sb.
Definition batch_of version prev sid nb sb : list (BatchOp HV K) :=
  put_nodes nb ++ put_stales prev sb ++ put_progress (Some version) sid.

Lemma ensure_shard_Ok k sid : NodeKey_get_shard_id k = Ok sid -> ensure_shard k sid = Ok tt.
Proof. intros E. unfold ensure_shard. rewrite E, obind_Ok. by rewrite bool_decide_true. Qed.

Lemma create_batch_Ok version prev sid b :
  Forall (fun kn => NodeKey_get_shard_id (fst kn) = Ok sid) (nodes_of b) ->
  Forall (fun e => NodeKey_get_shard_id (stale_node_key e) = Ok sid) (stale_of b) ->
  create_jmt_commit_batch_for_shard version sid b prev = Ok (batch_of version prev sid (nodes_of b) (stale_of b)).
Proof.
  intros Hn Hs. unfold create_jmt_commit_batch_for_shard. fold (nodes_of b) (stale_of b).
  assert (E1 : node_ops sid (nodes_of b) = Ok (put_nodes (nodes_of b))).
  { induction Hn as [|[k n] nb Hk _ IH]; [done|]. cbn [node_ops]. rewrite ensure_shard_Ok, obind_Ok by done.
    rewrite IH, obind_Ok. done. }
  assert (E2 : stale_ops sid prev (stale_of b) = Ok (put_stales prev (stale_of b))).
  { induction Hs as [|e sb Hk _ IH]; [done|]. cbn [stale_ops]. rewrite ensure_shard_Ok, obind_Ok by done.
    rewrite IH, obind_Ok. done. }
  by rewrite E1, obind_Ok, E2, obind_Ok.
Qed.

Lemma overlay_cons s k n nb : k ∉ map fst nb -> forall j,
  overlay (fun j => if decide (j = k) then Some n else s j) nb j = overlay s ((k, n) :: nb) j.
Proof.
  intros Hk j. unfold overlay.
  change (list_to_map ((k, n) :: nb)) with (<[k := n]> (list_to_map nb) : gmap NodeKey (Node HV K)).
  destruct (decide (j = k)) as [->|Hne].
  - rewrite lookup_insert_eq. by rewrite (not_elem_of_list_to_map_1 nb k Hk).
  - by rewrite lookup_insert_ne.
Qed.

Lemma overlay_ext s s' nb : (forall k, s k = s' k) -> forall k, overlay s nb k = overlay s' nb k.
Proof. intros E k. unfold overlay. by rewrite E. Qed.

Lemma overlay_app s nb nb' : (forall k, k ∈ map fst nb -> k ∉ map fst nb') -> forall k, overlay (overlay s nb) nb' k = overlay s (nb ++ nb') k.
Proof.
  intros Hd k. unfold overlay. rewrite list_to_map_app, lookup_union.
  destruct (list_to_map nb' !! k) as [n|] eqn:E; [|by destruct (list_to_map nb !! k)].
  rewrite (not_elem_of_list_to_map_1 nb k); [done|]. intros Hin. apply (Hd k Hin). apply elem_of_list_to_map_2 in E. by apply (list_elem_of_fmap_2 fst) in E.
Qed.

Lemma apply_put_nodes nb : NoDup (map fst nb) -> forall d,
  (forall k, dv_node (apply_ops d (put_nodes nb)) k = overlay (dv_node d) nb k) /\
  dv_stale (apply_ops d (put_nodes nb)) = dv_stale d.
Proof.
  induction nb as [|[k n] nb IH]; intros Hnd d; [done|]. cbn [map fst] in Hnd. apply NoDup_cons in Hnd as [Hk Hnd].
  change (apply_ops d (put_nodes ((k, n) :: nb))) with (apply_ops (apply_op d (Put_node k n)) (put_nodes nb)).
  destruct (IH Hnd (apply_op d (Put_node k n))) as [E1 E2]. split; [|by rewrite E2].
  intros j. rewrite E1. cbn [apply_op dv_node]. by apply overlay_cons.
Qed.

Lemma apply_put_stales prev sb : forall d,
  dv_node (apply_ops d (put_stales prev sb)) = dv_node d /\
  forall sch e, e ∈ dv_stale (apply_ops d (put_stales prev sb)) sch <->
    e ∈ dv_stale d sch \/ (e ∈ sb /\ stale_schema prev e = sch).
Proof.
  induction sb as [|f sb IH]; intros d.
  - split; [done|]. intros s e. split; [by left|]. intros [He|[He _]]; [done|by apply not_elem_of_nil in He].
  - change (apply_ops d (put_stales prev (f :: sb)))
      with (apply_ops (apply_op d (Put_stale (stale_schema prev f) f)) (put_stales prev sb)).
    destruct (IH (apply_op d (Put_stale (stale_schema prev f) f))) as [E1 E2]. split; [by rewrite E1|].
    intros sch e. rewrite E2, elem_of_cons. cbn [apply_op dv_stale]. case_decide as Es.
    + subst sch. rewrite elem_of_cons, list_elem_of_filter. destruct (decide (e = f)) as [->|]; naive_solver.
    + destruct (decide (e = f)) as [->|]; naive_solver.
Qed.

Lemma apply_batch version prev sid nb sb d : NoDup (map fst nb) ->
  let d' := apply_ops d (batch_of version prev sid nb sb) in
  (forall k, dv_node d' k = overlay (dv_node d) nb k) /\
  (forall sch e, e ∈ dv_stale d' sch <-> e ∈ dv_stale d sch \/ (e ∈ sb /\ stale_schema prev e = sch)).
Proof.
  intros Hnd. cbn zeta. unfold batch_of, apply_ops. rewrite !fold_left_app.
  fold (apply_ops d (put_nodes nb)). fold (apply_ops (apply_ops d (put_nodes nb)) (put_stales prev sb)).
  set (d2 := apply_ops (apply_ops d (put_nodes nb)) (put_stales prev sb)).
  fold (apply_ops d2 (put_progress (Some version) sid)).
  destruct (apply_versions d2 (put_progress (Some version) sid)) as [-> ->].
  { unfold put_progress. repeat constructor. eauto. }
  destruct (apply_put_nodes nb Hnd d) as [En Es]. destruct (apply_put_stales prev sb (apply_ops d (put_nodes nb))) as [En' Es'].
  split; [intros k; unfold d2; by rewrite En', En|]. intros s e. unfold d2. by rewrite Es', Es.
Qed.

(** ** One database *)

(** The nodes and entries of a batch belong to the shard, and the entries are new. *)
Definition part_ok st sid nb sb : Prop :=
  (forall k n, (k, n) ∈ nb -> path_good k /\ NodeKey_get_shard_id k = Ok sid) /\
  (forall e, e ∈ sb -> index_ok e /\ NodeKey_get_shard_id (stale_node_key e) = Ok sid /\ e ∉ st).

Lemma stored_ext self s s' st st' : (forall k, s k = s' k) -> (forall e, e ∈ st <-> e ∈ st') ->
  stored self s st -> stored self s' st'.
Proof.
  intros Es Est [H1' H2' H3' H4' H5' H6' H7']. split; [done| | | |done|done|done].
  - intros k n. rewrite <- Es. apply H2'.
  - intros k db. rewrite <- Es. apply H3'.
  - intros e. rewrite <- Est. apply H4'.
Qed.

Lemma stored_write version prev self s st sid nb sb db db' : stored self s st -> part_ok st sid nb sb ->
  NoDup (map fst nb) -> smdb_dbs self !! slot self sid = Some db ->
  same_view (view db') (apply_ops (view db) (batch_of version prev sid nb sb)) ->
  stored (set_db self (slot self sid) db') (overlay s nb) (st ++ sb).
Proof.
  intros Hst [Hnb Hsb] Hnd Hdb (Vn & Vs & _).
  destruct (apply_batch version prev sid nb sb (view db) Hnd) as [Wn Ws].
  assert (Hshard : forall k o, NodeKey_get_shard_id k = Ok o -> shard_of k = o) by (intros k o E; unfold shard_of; by rewrite E).
  assert (Hnew : smdb_dbs (set_db self (slot self sid) db') !! slot self sid = Some db').
  { cbn. apply list_lookup_insert_eq. by eapply lookup_lt_Some. }
  split.
  - cbn. rewrite length_insert. apply (so_len _ _ _ Hst).
  - intros k n Hk. unfold overlay in Hk. destruct (list_to_map nb !! k) as [m|] eqn:E.
    + apply elem_of_list_to_map_2 in E. by apply (Hnb k m).
    + by eapply (so_keys _ _ _ Hst).
  - intros k db1 Hk. rewrite slot_set_db in Hk. destruct (set_db_lookup _ _ _ _ _ _ Hdb Hk) as [[Ej ->]|[Hne Hk']].
    + rewrite Vn, Wn. unfold overlay. destruct (list_to_map nb !! k); [done|]. apply (so_nodes _ _ _ Hst). by rewrite Ej.
    + unfold overlay. destruct (list_to_map nb !! k) as [m|] eqn:E; [|by apply (so_nodes _ _ _ Hst)].
      exfalso. apply elem_of_list_to_map_2, Hnb in E as [_ E]. by rewrite (Hshard _ _ E) in Hne.
  - intros e. rewrite elem_of_app, (so_stale _ _ _ Hst). split.
    + intros [(j & db1 & s1 & Hj & He)|He].
      * destruct (decide (j = slot self sid)) as [->|Hne].
        -- assert (db1 = db) as -> by congruence. exists (slot self sid), db', s1. split; [done|]. apply Vs, Ws. by left.
        -- exists j, db1, s1. split; [|done]. cbn. by rewrite list_lookup_insert_ne.
      * exists (slot self sid), db', (stale_schema prev e). split; [done|]. apply Vs, Ws. by right.
    + intros (j & db1 & s1 & Hj & He). destruct (set_db_lookup _ _ _ _ _ _ Hdb Hj) as [[-> ->]|[Hne Hj']].
      * apply Vs, Ws in He as [He|[He _]]; [left|by right]. by exists (slot self sid), db, s1.
      * left. by exists j, db1, s1.
  - intros j db1 s1 e Hj He. rewrite slot_set_db.
    destruct (set_db_lookup _ _ _ _ _ _ Hdb Hj) as [[-> ->]|[Hne Hj']]; [|by eapply (so_place _ _ _ Hst)].
    apply Vs, Ws in He as [He|[He _]]; [by eapply (so_place _ _ _ Hst)|].
    apply Hsb in He as (Hok & E & _). by rewrite (Hshard _ _ E).
  - intros j db1 s1 s2 e Hj He1 He2.
    destruct (set_db_lookup _ _ _ _ _ _ Hdb Hj) as [[-> ->]|[Hne Hj']]; [|by eapply (so_once _ _ _ Hst)].
    assert (Hold : forall sch, e ∈ dv_stale (view db) sch -> e ∈ st).
    { intros sch He. apply (so_stale _ _ _ Hst). by exists (slot self sid), db, sch. }
    apply Vs, Ws in He1 as [He1|[He1 E1]], He2 as [He2|[He2 E2]].
    + by eapply (so_once _ _ _ Hst).
    + apply Hold in He1. by apply Hsb in He2 as (_ & _ & ?).
    + apply Hold in He2. by apply Hsb in He1 as (_ & _ & ?).
    + congruence.
  - intros j db1 k n Hj Hk. rewrite slot_set_db.
    destruct (set_db_lookup _ _ _ _ _ _ Hdb Hj) as [[-> ->]|[Hne Hj']]; [|by eapply (so_only _ _ _ Hst)].
    rewrite Vn, Wn in Hk. unfold overlay in Hk. destruct (list_to_map nb !! k) as [m|] eqn:E.
    + apply elem_of_list_to_map_2, Hnb in E as [_ E]. by rewrite (Hshard _ _ E).
    + by eapply (so_only _ _ _ Hst).
Qed.

(** ** The batches of a version *)
Record part := mkPart { pt_shard : Z; pt_node : Node HV K; pt_batch : TreeUpdateBatch HV K }.
Implicit Types (pt : part) (pts : list part).

Definition part_nodes pts : list (NodeKey * Node HV K) := concat (map (fun pt => nodes_of (pt_batch pt)) pts).
Definition part_stale pts : list StaleNodeIndex := concat (map (fun pt => stale_of (pt_batch pt)) pts).
Definition part_ops version prev pt : list (BatchOp HV K) :=
  batch_of version prev (Some (pt_shard pt)) (nodes_of (pt_batch pt)) (stale_of (pt_batch pt)).

Definition part_job version prev pt : Z * list (BatchOp HV K) := (pt_shard pt, part_ops version prev pt).

Lemma stored_same self s st j db db' : stored self s st -> smdb_dbs self !! j = Some db -> view db' = view db ->
  stored (set_db self j db') s st.
Proof.
  intros Hst Hj Ev.
  assert (Hl : forall j1 db1, smdb_dbs (set_db self j db') !! j1 = Some db1 ->
    exists db2, smdb_dbs self !! j1 = Some db2 /\ view db1 = view db2).
  { intros j1 db1 Hj1. destruct (set_db_lookup _ _ _ _ _ _ Hj Hj1) as [[-> ->]|[_ Hj']]; eauto. }
  assert (Hl' : forall j1 db1, smdb_dbs self !! j1 = Some db1 ->
    exists db2, smdb_dbs (set_db self j db') !! j1 = Some db2 /\ view db2 = view db1).
  { intros j1 db1 Hj1. destruct (decide (j1 = j)) as [->|Hne].
    - assert (db1 = db) as -> by congruence. exists db'. split; [|done]. cbn. apply list_lookup_insert_eq. by eapply lookup_lt_Some.
    - exists db1. split; [|done]. cbn. by rewrite list_lookup_insert_ne. }
  split.
  - cbn. rewrite length_insert. apply (so_len _ _ _ Hst).
  - apply (so_keys _ _ _ Hst).
  - intros k db1 Hk. apply Hl in Hk as (db2 & Hk & ->). by apply (so_nodes _ _ _ Hst).
  - intros e. rewrite (so_stale _ _ _ Hst). split; intros (j1 & db1 & sch & Hj1 & He).
    + apply Hl' in Hj1 as (db2 & Hj1 & E). exists j1, db2, sch. by rewrite E.
    + apply Hl in Hj1 as (db2 & Hj1 & E). exists j1, db2, sch. by rewrite <- E.
  - intros j1 db1 sch e Hj1. apply Hl in Hj1 as (db2 & Hj1 & ->). by apply (so_place _ _ _ Hst).
  - intros j1 db1 sch sch' e Hj1. apply Hl in Hj1 as (db2 & Hj1 & ->). by apply (so_once _ _ _ Hst j1).
  - intros j1 db1 k n Hj1. apply Hl in Hj1 as (db2 & Hj1 & ->). by apply (so_only _ _ _ Hst).
Qed.

Definition part_fits st pt : Prop :=
  0 <= pt_shard pt < 16 /\ NoDup (map fst (nodes_of (pt_batch pt))) /\
  part_ok st (Some (pt_shard pt)) (nodes_of (pt_batch pt)) (stale_of (pt_batch pt)).

(** Parts of different shards have different keys. *)
Lemma part_nodes_shard st pts k : (forall pt, pt ∈ pts -> part_fits st pt) -> k ∈ map fst (part_nodes pts) ->
  exists pt, pt ∈ pts /\ NodeKey_get_shard_id k = Ok (Some (pt_shard pt)).
Proof.
  intros Hf Hk. apply list_elem_of_fmap in Hk as ([k' n] & -> & Hin). unfold part_nodes in Hin.
  apply list_elem_of_In, in_concat in Hin as (l & Hl & Hin). apply in_map_iff in Hl as (pt & <- & Hpt).
  apply list_elem_of_In in Hpt, Hin. exists pt. split; [done|]. destruct (Hf pt Hpt) as (_ & _ & Hn & _). by apply Hn in Hin as [_ ?].
Qed.

Lemma part_stale_shard st pts e : (forall pt, pt ∈ pts -> part_fits st pt) -> e ∈ part_stale pts ->
  exists pt, pt ∈ pts /\ NodeKey_get_shard_id (stale_node_key e) = Ok (Some (pt_shard pt)).
Proof.
  intros Hf Hin. unfold part_stale in Hin.
  apply list_elem_of_In, in_concat in Hin as (l & Hl & Hin). apply in_map_iff in Hl as (pt & <- & Hpt).
  apply list_elem_of_In in Hpt, Hin. exists pt. split; [done|]. destruct (Hf pt Hpt) as (_ & _ & _ & Hs). by apply Hs in Hin as (_ & ? & _).
Qed.

(** One write, of the nodes and entries of a part or of none. *)
Lemma commit_job version prev self s st pt : stored self s st -> part_fits st pt ->
  let '(self', r) := on_db (Some (pt_shard pt)) (write_schemas (part_ops version prev pt)) self in
  if is_ok r then stored self' (overlay s (nodes_of (pt_batch pt))) (st ++ stale_of (pt_batch pt)) else stored self' s st.
Proof.
  intros Hst (Hi & Hnd & Hok).
  assert (Hslot : (slot self (Some (pt_shard pt)) < length (smdb_dbs self))%nat).
  { rewrite (so_len _ _ _ Hst). unfold slot. destruct (enable_sharding self); lia. }
  apply lookup_lt_is_Some_2 in Hslot as [db Hdb]. unfold on_db, smdb_db, expect. rewrite Hdb.
  destruct (write_schemas (part_ops version prev pt) db) as [db' r] eqn:Ew. apply write_schemas_spec in Ew.
  destruct r as [[]| |]; cbn [is_ok]; [|by eapply stored_same..]. by eapply stored_write.
Qed.

(** Whatever the outcome, the parts that were written are stored. *)
Lemma commit_jobs_spec version prev : forall pts self s st, stored self s st -> NoDup (map pt_shard pts) ->
  (forall pt, pt ∈ pts -> part_fits st pt) ->
  exists self' ok pts1, commit_jobs (map (part_job version prev) pts) self = (self', Ok ok) /\
    (forall pt, pt ∈ pts1 -> pt ∈ pts) /\ (ok = true -> pts1 = pts) /\
    stored self' (overlay s (part_nodes pts1)) (st ++ part_stale pts1).
Proof.
  induction pts as [|pt pts IH]; intros self s st Hst Hnd Hok.
  - exists self, true, []. split_and!; [done|done|done|]. unfold part_stale. rewrite app_nil_r. by eapply stored_ext; [| |exact Hst].
  - cbn [map] in Hnd. apply NoDup_cons in Hnd as [Hni Hnd].
    pose proof (commit_job version prev self s st pt Hst (Hok pt (list_elem_of_here _ _))) as Hjob.
    destruct (Hok pt (list_elem_of_here _ _)) as (_ & _ & Hn & Hs).
    cbn [map commit_jobs part_job]. unfold part_job at 1.
    destruct (on_db (Some (pt_shard pt)) (write_schemas (part_ops version prev pt)) self) as [self1 r] eqn:Eon.
    rewrite (pbind_Ok _ _ self self1 (is_ok r)) by (by rewrite Eon).
    assert (Hdiff : forall pt', pt' ∈ pts -> pt_shard pt' <> pt_shard pt).
    { intros pt' Hpt' E. apply Hni. rewrite <- E. by apply list_elem_of_fmap_2. }
    destruct (is_ok r) eqn:Er.
    + destruct (IH self1 _ _ Hjob Hnd) as (self' & ok & pts1 & E & Hsub & Hall & Hst').
      { intros pt' Hpt'. destruct (Hok pt' (list_elem_of_further _ _ _ Hpt')) as (Hi' & Hnd' & Hn' & Hs').
        split_and!; [lia|lia|done|]. split; [done|]. intros e He. destruct (Hs' e He) as (He1 & He2 & He3).
        split_and!; [done|done|]. apply not_elem_of_app. split; [done|]. intros He'. apply Hs in He' as (_ & He' & _).
        rewrite He2 in He'. injection He' as E'. by eapply Hdiff. }
      exists self', ok, (pt :: pts1). split_and!.
      * rewrite (pbind_Ok _ _ self1 self' ok) by done. done.
      * intros pt' Hpt'. apply elem_of_cons in Hpt' as [->|Hpt']; [left|right; by apply Hsub].
      * intros Eok. by rewrite (Hall Eok).
      * eapply stored_ext; [| |exact Hst'].
        -- intros k. unfold part_nodes. cbn [map concat]. apply overlay_app. intros k' Hk' Hk''.
           apply (part_nodes_shard st) in Hk'' as (pt' & Hpt' & E');
             [|intros pt' Hpt'; apply Hok; right; by apply Hsub].
           apply list_elem_of_fmap in Hk' as ([k1 n1] & -> & Hin). apply Hn in Hin as [_ Hin]. cbn [fst] in E'.
           rewrite Hin in E'. injection E' as E'. eapply Hdiff; [by apply Hsub|done].
        -- intros e. unfold part_stale. cbn [map concat]. by rewrite app_assoc.
    + destruct (IH self1 _ _ Hjob Hnd) as (self' & ok & pts1 & E & Hsub & Hall & Hst').
      { intros pt' Hpt'. apply Hok. by right. }
      exists self', false, pts1. split_and!; [|intros pt' Hpt'; right; by apply Hsub|done|done].
      rewrite (pbind_Ok _ _ self1 self' ok) by done. done.
Qed.

(** The batch of the top level is the root. *)
Lemma put_top_inv nodes pv version root b : put_top_levels_nodes nodes pv version = Ok (root, b) ->
  usable b /\ (exists n, nodes_of b = [(root_key version, n)] /\ Node_is_leaf n = false) /\ stale_of b = stale_root pv version.
Proof.
  intros E. unfold put_top_levels_nodes in E. apply bind_Ok in E as (_ & _ & E). apply bind_Ok in E as (cs & _ & E).
  apply bind_Ok in E as (n & En & E). apply bind_Ok in E as (h & _ & E). cbv zeta in E.
  assert (Hleaf : Node_is_leaf n = false).
  { destruct (Children_is_empty cs); [by injection En as <-|]. by apply bind_Ok in En as (i & _ & [= <-]). }
  apply bind_Ok in E as (b0 & E0 & E). rewrite new_empty_path_pack, obind_Ok in E.
  apply bind_Ok in E as (b1 & E1 & E). injection E as <- <-.
  destruct pv as [v|].
  - rewrite new_empty_path_pack, obind_Ok in E0. injection E0 as <-. injection E1 as <-.
    split_and!; [done|by exists n|done].
  - injection E0 as <-. injection E1 as <-. split_and!; [done|by exists n|done].
Qed.

Lemma key_of_shard k i q : Forall nibble_ok (i :: q) -> nk_nibble_path k = pack (i :: q) -> NodeKey_get_shard_id k = Ok (Some i).
Proof. intros Hq E. by rewrite (shard_id_good k (i :: q)). Qed.

(** The nodes of a shard belong to it. *)
Lemma shard_nodes_good version s0 L r k n : nibble_ok (cr_index r) ->
  updated version s0 [cr_index r] L (cr_node r) (cr_new r) (cr_stale r) ->
  (k, n) ∈ shard_nodes version r -> path_good k /\ NodeKey_get_shard_id k = Ok (Some (cr_index r)).
Proof.
  intros Hi ((_ & Hb) & _) Hin. unfold shard_nodes in Hin. apply elem_of_app in Hin as [Hin|Hin].
  - apply Hb in Hin as (_ & q & _ & Hq & Hl & E). split; [by exists ([cr_index r] ++ q)|]. by apply (key_of_shard _ _ q).
  - destruct (cr_node r) as [m|]; [|by apply not_elem_of_nil in Hin]. apply list_elem_of_singleton in Hin as [= -> _].
    unfold child_node_key. cbn [app]. assert (Hf : Forall nibble_ok [cr_index r]) by (by rewrite Forall_singleton).
    split; [exists [cr_index r]; split_and!; [done|cbn; lia|done]|]. by apply (key_of_shard _ _ []).
Qed.

(** What is stale in a shard is stored below its root. *)
Lemma shard_stale_good (s : store (HV := HV) (K := K)) i k n : (forall k n, s k = Some n -> path_good k) ->
  s k = Some n -> at_below [i] k -> NodeKey_get_shard_id k = Ok (Some i).
Proof.
  intros Hs Hk [q Hq]. destruct (Hs _ _ Hk) as (q' & Hq' & _ & E). rewrite E, unpack_pack in Hq by done. subst q'.
  by apply (key_of_shard _ _ q).
Qed.

Definition combine_all b pts : TreeUpdateBatch HV K := fold_left TreeUpdateBatch_combine (map pt_batch pts) b.

Lemma combine_nodes b b' : nodes_of (TreeUpdateBatch_combine b b') = nodes_of b ++ nodes_of b' /\
  stale_of (TreeUpdateBatch_combine b b') = stale_of b ++ stale_of b'.
Proof. unfold nodes_of, stale_of. cbn [TreeUpdateBatch_combine node_batch stale_node_index_batch]. by rewrite !concat_app. Qed.

Lemma combine_all_nodes pts : forall b,
  nodes_of (combine_all b pts) = nodes_of b ++ part_nodes pts /\ stale_of (combine_all b pts) = stale_of b ++ part_stale pts.
Proof.
  induction pts as [|pt pts IH]; intros b.
  - unfold part_nodes, part_stale. cbn [map concat]. by rewrite !app_nil_r.
  - change (combine_all b (pt :: pts)) with (combine_all (TreeUpdateBatch_combine b (pt_batch pt)) pts).
    destruct (IH (TreeUpdateBatch_combine b (pt_batch pt))) as [-> ->], (combine_nodes b (pt_batch pt)) as [-> ->].
    unfold part_nodes, part_stale. cbn [map concat]. by rewrite !app_assoc.
Qed.

Section Merklize.
Variables (rl : Version -> outcome (option (NodeKey * LeafNode HV K))) (self : StateMerkleDb DB) (version : Version)
  (prev base : option Version) (pvs : Z -> option Version) (caches : Z -> option (gmap NibblePath HV))
  (s0 : store (HV := HV) (K := K)) (lvs : list (LeafNode HV K)) (kvs : list (HV * option (HV * K))).
Hypothesis Hready : ready (smdb_reader rl self) s0 version base pvs lvs.
Hypothesis Hcaches : caches_ok version lvs kvs caches.
Hypothesis Hbound : Z.of_nat (length lvs + length kvs) < U64.
Hypothesis Hkeys : forall k n, s0 k = Some n -> path_good k.
Hypothesis Hbase : forall i v, nibble_ok i -> pvs i = Some v -> exists w, base = Some w /\ v <= w.

Definition part_good pt : Prop :=
  (forall k n, (k, n) ∈ nodes_of (pt_batch pt) -> path_good k /\ NodeKey_get_shard_id k = Ok (Some (pt_shard pt))) /\
  (forall e, e ∈ stale_of (pt_batch pt) -> stale_ok version s0 e /\ NodeKey_get_shard_id (stale_node_key e) = Ok (Some (pt_shard pt))).

(** The part of a shard is what [merklize_value_set_for_shard] makes of its updates. *)
Definition part_made pt : Prop :=
  merklize_value_set_for_shard rl self (pt_shard pt) (filter (fun kv => nib (fst kv) 0 = pt_shard pt) kvs)
    (caches (pt_shard pt)) version base (pvs (pt_shard pt)) prev = Ok (pt_node pt, part_ops version prev pt).

Lemma shard_part i : nibble_ok i -> exists pt, pt_shard pt = i /\ part_good pt /\ part_made pt /\
  batch_put_value_set_for_shard (smdb_reader rl self) i (filter (fun kv => nib (fst kv) 0 = i) kvs) (caches i) (pvs i) version =
    Ok (pt_node pt, pt_batch pt).
Proof.
  destruct Hready as (Hrd & Hfr & Hnd & _ & Hper). intros Hi.
  destruct (shard_put _ version s0 lvs kvs pvs caches Hfr Hrd Hnd Hbound Hper Hcaches i Hi)
    as (r & b1 & E & Er & (_ & Hn & Hst) & Hup & Hstok).
  set (pt := mkPart i (shard_node r) b1). exists pt.
  assert (Hpt : part_good pt).
  { subst i. split; cbn [pt pt_shard pt_batch].
    - intros k n Hin. rewrite Hn in Hin. by eapply shard_nodes_good.
    - intros e Hin. rewrite Hst in Hin. rewrite Forall_forall in Hstok. split; [by apply Hstok|].
      destruct (Hstok e Hin) as [_ [n En]]. destruct Hup as (_ & Hbel & _). rewrite Forall_forall in Hbel.
      by eapply shard_stale_good; [exact Hkeys|exact En|apply Hbel]. }
  split; [done|]. split; [exact Hpt|]. split; [|exact E].
  assert (Eb : create_jmt_commit_batch_for_shard version (Some i) b1 prev = Ok (part_ops version prev pt)).
  { destruct Hpt as [Hp1 Hp2]. apply create_batch_Ok.
    - apply Forall_forall. intros [k n] Hin. by apply Hp1 in Hin as [_ ?].
    - apply Forall_forall. intros e Hin. by apply Hp2 in Hin as [_ ?]. }
  unfold part_made, merklize_value_set_for_shard. cbn [pt pt_shard pt_node].
  assert (Ea : (match pvs i with Some v => w ← expect base "Must have base version.";
      assert (v <=? w) "assertion failed: shard_persisted_version <= base_version" | None => Ok tt end) = Ok tt).
  { destruct (pvs i) as [v|] eqn:Ev; [|done]. destruct (Hbase i v Hi Ev) as (w & -> & Hle). cbn [expect].
    rewrite obind_Ok. by rewrite (proj2 (Z.leb_le _ _)). }
  by rewrite Ea, obind_Ok, E, obind_Ok, Eb, obind_Ok.
Qed.

(** The parts of all shards are those a put combines. *)
Lemma shard_parts shards : Forall nibble_ok shards -> exists pts, map pt_shard pts = shards /\
  (forall pt, pt ∈ pts -> part_good pt /\ part_made pt) /\
  forall b, put_shards_at (smdb_reader rl self) kvs version pvs caches shards b = Ok (map pt_node pts, combine_all b pts).
Proof.
  induction 1 as [|i shards Hi _ (pts & <- & Hpts & Eput)].
  - exists []. split_and!; [done| |done]. intros pt Hpt. by apply not_elem_of_nil in Hpt.
  - destruct (shard_part i Hi) as (pt & <- & Hg & Hm & E). exists (pt :: pts). split_and!; [done| |].
    + intros pt' Hpt'. apply elem_of_cons in Hpt' as [->|Hpt']; [done|by apply Hpts].
    + intros b. cbn [put_shards_at]. rewrite E, obind_Ok. cbn [fst snd]. by rewrite Eput, obind_Ok.
Qed.
End Merklize.

(** On databases that can be written, all jobs are done. *)
Lemma commit_jobs_works (jobs : list (Z * list (BatchOp HV K))) : (forall batch db, is_ok (snd (write_schemas batch db)) = true) ->
  forall self, Forall (fun job => (slot self (Some (fst job)) < length (smdb_dbs self))%nat) jobs ->
  exists self', commit_jobs jobs self = (self', Ok true) /\ length (smdb_dbs self') = length (smdb_dbs self).
Proof.
  intros Hw. induction jobs as [|[i batch] jobs IH]; intros self Hlt; [by exists self|]. apply Forall_cons in Hlt as [Hi Hlt].
  cbn [commit_jobs fst] in *. apply lookup_lt_is_Some_2 in Hi as [db Hdb].
  assert (Eon : on_db (Some i) (write_schemas batch) self =
    (set_db self (slot self (Some i)) (fst (write_schemas batch db)), snd (write_schemas batch db))).
  { unfold on_db, smdb_db, expect. rewrite Hdb. by destruct (write_schemas batch db). }
  rewrite (pbind_Ok _ _ self (set_db self (slot self (Some i)) (fst (write_schemas batch db))) true)
    by (by rewrite Eon, Hw).
  destruct (IH (set_db self (slot self (Some i)) (fst (write_schemas batch db)))) as (self' & E & Hl).
  - eapply Forall_impl; [exact Hlt|]. intros job. cbn. by rewrite length_insert.
  - exists self'. split; [by rewrite (pbind_Ok _ _ _ self' true)|]. rewrite Hl. cbn. by rewrite length_insert.
Qed.

Lemma key_ok_good td k n : db_inv td -> (forall k n, td_nodes td k = Some n -> path_good k) -> u64_ok (next_version td) ->
  td_nodes td k = Some n -> key_ok k.
Proof.
  intros Hi Hkeys Hu Hk. apply (inv_versions _ Hi) in Hk as Hv. apply Hkeys in Hk as (q & Hq & Hl & E).
  split; [unfold u64_ok in *; lia|]. rewrite E. by apply pack_path_ok.
Qed.

(** What is stale at a new version is an entry the database does not have. *)
Lemma new_stale td version s0 e : db_inv td -> (forall k n, td_nodes td k = Some n -> path_good k) -> u64_ok version ->
  next_version td <= version -> extends s0 (td_nodes td) -> stale_ok version s0 e -> index_ok e /\ e ∉ td_stale td.
Proof.
  intros Hi Hkeys Hu Hv Hsub [Ev [n Hn]]. split.
  - split; [by rewrite Ev|]. eapply key_ok_good; [done|done|unfold u64_ok in *; pose proof (inv_nonneg _ Hi); lia|by apply Hsub].
  - intros Hin. pose proof (inv_stale _ Hi) as Hst. rewrite Forall_forall in Hst. apply Hst in Hin. lia.
Qed.

(** The batches of a version put on the last one: the parts of the shards, and the root. *)
Definition top_ops td version prev (n : Node HV K) : list (BatchOp HV K) :=
  batch_of version prev None [(root_key version, n)] (stale_root (last_version td) version).

Record next_batches rl self td kvs version pvs caches prev (b : TreeUpdateBatch HV K) pts (n : Node HV K) : Prop := {
  nb_put : put_at (smdb_reader rl self) kvs version (last_version td) pvs caches =
    Ok (smt_root (sl (update_all version (latest td) kvs)), b);
  nb_made : forall pt, pt ∈ pts -> part_made rl self version prev (last_version td) pvs caches kvs pt;
  nb_tops : calculate_top_levels (map pt_node pts) version (last_version td) prev =
    Ok (smt_root (sl (update_all version (latest td) kvs)), top_ops td version prev n);
  nb_shards : map pt_shard pts = seqZ 0 16;
  nb_fits : forall pt, pt ∈ pts -> part_fits (td_stale td) pt;
  nb_top : part_ok (td_stale td) None [(root_key version, n)] (stale_root (last_version td) version);
  nb_nodes : nodes_of b = part_nodes pts ++ [(root_key version, n)];
  nb_stale : stale_of b = part_stale pts ++ stale_root (last_version td) version;
  nb_NoDup : NoDup (map fst (nodes_of b));
  nb_version : forall k m, (k, m) ∈ nodes_of b -> nk_version k = version;
  nb_since : forall e, e ∈ stale_of b -> stale_since_version e = version;
}.
#[global] Arguments nb_put {_ _ _ _ _ _ _ _ _ _ _} _.
#[global] Arguments nb_made {_ _ _ _ _ _ _ _ _ _ _} _.
#[global] Arguments nb_tops {_ _ _ _ _ _ _ _ _ _ _} _.
#[global] Arguments nb_shards {_ _ _ _ _ _ _ _ _ _ _} _.
#[global] Arguments nb_fits {_ _ _ _ _ _ _ _ _ _ _} _.
#[global] Arguments nb_top {_ _ _ _ _ _ _ _ _ _ _} _.
#[global] Arguments nb_nodes {_ _ _ _ _ _ _ _ _ _ _} _.
#[global] Arguments nb_stale {_ _ _ _ _ _ _ _ _ _ _} _.
#[global] Arguments nb_NoDup {_ _ _ _ _ _ _ _ _ _ _} _.
#[global] Arguments nb_version {_ _ _ _ _ _ _ _ _ _ _} _.
#[global] Arguments nb_since {_ _ _ _ _ _ _ _ _ _ _} _.

Lemma NoDup_part pts pt : NoDup (map fst (part_nodes pts)) -> pt ∈ pts -> NoDup (map fst (nodes_of (pt_batch pt))).
Proof.
  intros Hnd Hpt. apply list_elem_of_split in Hpt as (l1 & l2 & ->). unfold part_nodes in Hnd.
  rewrite map_app, concat_app, !map_app in Hnd. apply NoDup_app in Hnd as (_ & _ & Hnd).
  cbn [map concat] in Hnd. rewrite map_app in Hnd. by apply NoDup_app in Hnd as (? & _).
Qed.

(** A persisted shard is not newer than the last version. *)
Lemma shards_not_newer td reader pvs i v : db_inv td -> sees reader (td_nodes td) ->
  shards_based reader (last_version td) pvs -> nibble_ok i -> pvs i = Some v ->
  exists w, last_version td = Some w /\ v <= w.
Proof.
  intros Hi Hsee [Hb|(l & El & Hl)] Hni Ev.
  - rewrite Hb in Ev by done. by exists v.
  - assert (Hsub : reads reader (prune (td_nodes td) (td_stale td))).
    { intros k tag n Hk. apply prune_Some in Hk as [Hk _]. by apply Hsee. }
    destruct (last_version td) as [w|] eqn:Ew.
    2:{ change (Ok (replicate 16 (@None Version)) = Ok l) in El. assert (l = replicate 16 None) as -> by congruence.
        specialize (Hl i Hni). apply lookup_replicate in Hl as [Hl _]. congruence. }
    destruct (inv_latest _ Hi w Ew) as (_ & (_ & node & Hroot & Hrep) & _). exists w. split; [done|].
    destruct node as [[cs c]| |]; [destruct Hrep as [[_ [=]]|Hrep]| |];
      [|unfold get_shard_persisted_versions in El;
        rewrite new_empty_path_pack, obind_Ok, (reads_node _ _ _ _ _ Hsub Hroot), obind_Ok in El; discriminate El..].
    destruct (persisted_versions_found _ _ w (latest td) cs c Hsub Hroot Hrep) as (l' & El' & _ & Hl').
    rewrite El in El'. injection El' as <-. specialize (Hl' _ _ (Hl i Hni)). rewrite Ev in Hl'. destruct Hl' as (n & Hn & _).
    apply prune_Some in Hn as [Hn _]. apply (inv_versions _ Hi) in Hn. cbn [nk_version] in Hn.
    unfold next_version in Hn. rewrite Ew in Hn. lia.
Qed.

Lemma root_key_good v : path_good (root_key v) /\ NodeKey_get_shard_id (root_key v) = Ok None.
Proof.
  split; [exists []; split_and!; [constructor|cbn; lia|done]|]. by apply (shard_id_good _ []); [constructor|].
Qed.

Lemma next_batches_exist rl self td kvs version pvs caches prev : (forall (db : DB) k, is_ok (db_get_node db k) = true) ->
  db_reachable td -> stores self td -> u64_ok version -> next_version td <= version ->
  Z.of_nat (length (latest td) + length kvs) < U64 -> shards_based (smdb_reader rl self) (last_version td) pvs ->
  caches_ok version (latest td) kvs caches ->
  exists b pts n, next_batches rl self td kvs version pvs caches prev b pts n.
Proof.
  intros Hget Hr Hh Hu Hnext Hb Hpvs Hca. pose proof (reachable_inv _ Hr) as Hi.
  pose proof (smdb_sees rl self _ _ Hget Hh) as Hsee.
  pose proof (inv_ready td _ version pvs Hi Hsee Hnext Hpvs) as Hready. set (s0 := prune (td_nodes td) (td_stale td)) in *.
  assert (Hsub : extends s0 (td_nodes td)) by (intros k n Hk; by apply prune_Some in Hk as [? _]).
  assert (Hkeys : forall k n, s0 k = Some n -> path_good k) by (intros k n Hk; eapply (so_keys _ _ _ Hh); by apply Hsub).
  destruct (commit_spec _ s0 version (last_version td) pvs caches (latest td) kvs Hready Hca Hb) as (b & Eput & Hnd & Hver & Hstok & _).
  destruct (shard_parts rl self version prev (last_version td) pvs caches s0 (latest td) kvs Hready Hca Hb Hkeys) with (shards := seqZ 0 16)
    as (pts & Eseq & Hpts & Eps).
  { intros i v Hni Ev. by eapply shards_not_newer. }
  { apply Forall_forall. intros i Hi'. apply elem_of_seqZ in Hi'. unfold nibble_ok. lia. }
  pose proof Eput as Eput'. unfold put_at in Eput'. rewrite Eps, obind_Ok in Eput'. cbn [fst snd] in Eput'.
  apply bind_Ok in Eput' as ([root b2] & Etop & Eb). cbn [fst snd] in Eb. injection Eb as -> <-.
  destruct (put_top_inv _ _ _ _ _ Etop) as (_ & (n & En & Hleaf) & Est).
  destruct (combine_all_nodes pts TreeUpdateBatch_new) as [Ec1 Ec2].
  destruct (combine_nodes (combine_all TreeUpdateBatch_new pts) b2) as [E1 E2].
  rewrite Ec1, En in E1. rewrite Ec2, Est in E2.
  change (nodes_of (@TreeUpdateBatch_new HV K)) with (@nil (NodeKey * Node HV K)) in E1.
  change (stale_of (@TreeUpdateBatch_new HV K)) with (@nil StaleNodeIndex) in E2. cbn [app] in E1, E2.
  assert (Hnew : forall e, stale_ok version s0 e -> index_ok e /\ e ∉ td_stale td)
    by (intros e He; eapply new_stale; [done|apply (so_keys _ _ _ Hh)|done|done|done|done]).
  rewrite Forall_forall in Hstok.
  assert (Htop : part_ok (td_stale td) None [(root_key version, n)] (stale_root (last_version td) version)).
  { split.
    - intros k m Hin. apply list_elem_of_singleton in Hin as [= -> _]. apply root_key_good.
    - intros e He. assert (Hok : stale_ok version s0 e) by (apply Hstok; rewrite E2; apply elem_of_app; by right).
      apply Hnew in Hok as [Hok1 Hok2]. split_and!; [done..| |done]. unfold stale_root in He.
      destruct (last_version td) as [v|]; [|by apply not_elem_of_nil in He]. apply list_elem_of_singleton in He as ->. apply root_key_good. }
  exists (TreeUpdateBatch_combine (combine_all TreeUpdateBatch_new pts) b2), pts, n. split; try done.
  - intros pt Hpt. by apply Hpts.
  - unfold calculate_top_levels.
    assert (Hlen : Z.of_nat (length (map pt_node pts)) = 16).
    { apply (f_equal length) in Eseq. rewrite !length_map in *. rewrite Eseq. done. }
    rewrite Hlen. change (assert (16 =? 16) _) with (Ok tt). rewrite obind_Ok, Etop, obind_Ok.
    rewrite (create_batch_Ok version prev None b2), obind_Ok.
    + by rewrite En, Est.
    + rewrite En, Forall_singleton. apply root_key_good.
    + rewrite Est. apply Forall_forall. intros e He. by apply Htop in He as (_ & ? & _).
  - intros pt Hpt. split_and!.
    1,2: assert (Hin : pt_shard pt ∈ map pt_shard pts) by (by apply list_elem_of_fmap_2);
      rewrite Eseq in Hin; apply elem_of_seqZ in Hin; lia.
    + apply (NoDup_part pts); [|done]. rewrite E1, map_app in Hnd. by apply NoDup_app in Hnd as (? & _).
    + destruct (Hpts pt Hpt) as [[Hg1 Hg2] _]. split; [done|]. intros e He. destruct (Hg2 e He) as [Hok Hid].
      apply Hnew in Hok as [??]. done.
  - intros e He. by apply Hstok in He as [? _].
Qed.

(** The test helper makes the same batches. *)
Lemma merklize_shards_made rl self kvs version base prev pts :
  (forall pt, pt ∈ pts -> part_made rl self version prev base (fun _ => base) (fun _ => None) kvs pt) ->
  merklize_shards rl self kvs version base prev (map pt_shard pts) = Ok (map pt_node pts, map (part_ops version prev) pts).
Proof.
  induction pts as [|pt pts IH]; intros Hm; [done|]. cbn [map merklize_shards]. unfold get_state_shard_id. rewrite shard_filter.
  pose proof (Hm pt (list_elem_of_here _ _)) as Hpt. unfold part_made in Hpt. rewrite Hpt. cbn [unwrap]. rewrite obind_Ok.
  rewrite IH, obind_Ok; [done|]. intros pt' Hpt'. apply Hm. by right.
Qed.

Lemma merklize_value_set_made rl self td kvs version prev b pts n :
  next_batches rl self td kvs version (fun _ => last_version td) (fun _ => None) prev b pts n ->
  merklize_value_set rl self kvs version (last_version td) prev =
  Ok (top_ops td version prev n, map (part_ops version prev) pts, smt_root (sl (update_all version (latest td) kvs))).
Proof.
  intros Hnb. unfold merklize_value_set. rewrite <- (nb_shards Hnb), (merklize_shards_made _ _ _ _ _ _ pts (nb_made Hnb)), obind_Ok.
  by rewrite (nb_tops Hnb), obind_Ok.
Qed.

(** ** A run of [commit] *)
Definition chosen (order : list nat) pts : list part := omap (fun i => pts !! i) order.

Section Run.
Variables (version : Version) (prev : option Version) (pts : list part).
Hypothesis Hseq : map pt_shard pts = seqZ 0 16.

Lemma part_index i pt : pts !! i = Some pt -> pt_shard pt = Z.of_nat i.
Proof.
  intros Hi. assert (E : map pt_shard pts !! i = Some (pt_shard pt)) by (change (map pt_shard pts) with (pt_shard <$> pts); by rewrite list_lookup_fmap, Hi).
  rewrite Hseq in E. apply lookup_seqZ in E as [E _]. lia.
Qed.

Lemma enumerated_parts order : enumerated order (map (part_ops version prev) pts) = map (part_job version prev) (chosen order pts).
Proof.
  unfold enumerated, chosen. induction order as [|i order IH]; [done|]. cbn [omap list_omap].
  change (map (part_ops version prev) pts) with (part_ops version prev <$> pts) in *. rewrite list_lookup_fmap.
  destruct (pts !! i) as [pt|] eqn:E; cbn [fmap option_fmap option_map]; [|exact IH].
  cbn [map]. unfold part_job at 1. rewrite (part_index _ _ E). f_equal. exact IH.
Qed.

Lemma chosen_elem order pt : pt ∈ chosen order pts -> pt ∈ pts /\ exists i, i ∈ order /\ pt_shard pt = Z.of_nat i.
Proof.
  intros Hin. apply list_elem_of_omap in Hin as (i & Hi & E). split; [by eapply list_elem_of_lookup_2|].
  exists i. split; [done|by apply part_index].
Qed.

Lemma chosen_NoDup order : NoDup order -> NoDup (map pt_shard (chosen order pts)).
Proof.
  induction order as [|i order IH]; intros Hnd; [constructor|]. apply NoDup_cons in Hnd as [Hi Hnd].
  unfold chosen. cbn [omap list_omap]. fold (chosen order pts). destruct (pts !! i) as [pt|] eqn:E; [|by apply IH].
  cbn [map]. apply NoDup_cons. split; [|by apply IH]. intros Hin. apply list_elem_of_fmap in Hin as (pt' & E' & Hin).
  apply chosen_elem in Hin as [_ (j & Hj & Ej)]. rewrite (part_index _ _ E), Ej in E'. apply Nat2Z.inj in E' as ->. done.
Qed.

Lemma omap_lookup_seq (l : list part) : forall l0, omap (fun i => (l0 ++ l) !! i) (seq (length l0) (length l)) = l.
Proof.
  induction l as [|x l IH]; intros l0; [done|]. cbn [length seq omap list_omap]. rewrite list_lookup_middle by done.
  f_equal. specialize (IH (l0 ++ [x])). rewrite length_app, Nat.add_1_r, <- app_assoc in IH. exact IH.
Qed.

Lemma chosen_all order : order ≡ₚ seq 0 16 -> chosen order pts ≡ₚ pts.
Proof.
  intros Ho. unfold chosen. rewrite Ho. apply (f_equal length) in Hseq. rewrite length_map in Hseq.
  change (length (seqZ 0 16)) with 16%nat in Hseq. rewrite <- Hseq.
  pose proof (omap_lookup_seq pts []) as E. cbn [app length] in E. by rewrite E.
Qed.
End Run.

Lemma part_nodes_perm pts pts' : pts ≡ₚ pts' -> part_nodes pts ≡ₚ part_nodes pts' /\ part_stale pts ≡ₚ part_stale pts'.
Proof. intros E. unfold part_nodes, part_stale. by rewrite E. Qed.

Lemma part_nodes_elem pts pts' x : (forall pt, pt ∈ pts -> pt ∈ pts') -> x ∈ part_nodes pts -> x ∈ part_nodes pts'.
Proof.
  unfold part_nodes. rewrite !list_elem_of_In, !in_concat. intros Hsub (l & Hl & Hx). exists l. split; [|done].
  apply in_map_iff in Hl as (pt & <- & Hpt). apply in_map_iff. exists pt. split; [done|].
  apply list_elem_of_In, Hsub. by apply list_elem_of_In.
Qed.

Lemma part_stale_elem pts pts' e : (forall pt, pt ∈ pts -> pt ∈ pts') -> e ∈ part_stale pts -> e ∈ part_stale pts'.
Proof.
  unfold part_stale. rewrite !list_elem_of_In, !in_concat. intros Hsub (l & Hl & Hx). exists l. split; [|done].
  apply in_map_iff in Hl as (pt & <- & Hpt). apply in_map_iff. exists pt. split; [done|].
  apply list_elem_of_In, Hsub. by apply list_elem_of_In.
Qed.

Lemma root_not_in_parts st pts version n sr : (forall pt, pt ∈ pts -> part_fits st pt) ->
  part_ok st None [(root_key version, n)] sr -> root_key version ∉ map fst (part_nodes pts).
Proof.
  intros Hfits [Ht _] Hin. apply (part_nodes_shard _ _ _ Hfits) in Hin as (pt & _ & Hk).
  destruct (Ht (root_key version) n (list_elem_of_here _ _)) as [_ Ht']. congruence.
Qed.

(** The top level, written after the shards. *)
Lemma commit_top version prev self s st pts n sr :
  stored self (overlay s (part_nodes pts)) (st ++ part_stale pts) -> (forall pt, pt ∈ pts -> part_fits st pt) ->
  part_ok st None [(root_key version, n)] sr ->
  exists self' r, commit_top_levels (batch_of version prev None [(root_key version, n)] sr) self = (self', r) /\
    if is_ok r then stored self' (overlay s (part_nodes pts ++ [(root_key version, n)])) (st ++ part_stale pts ++ sr)
    else stored self' (overlay s (part_nodes pts)) (st ++ part_stale pts).
Proof.
  intros Hst Hfits Htop. unfold commit_top_levels.
  assert (Hslot : (slot self None < length (smdb_dbs self))%nat).
  { rewrite (so_len _ _ _ Hst). unfold slot. destruct (enable_sharding self); lia. }
  apply lookup_lt_is_Some_2 in Hslot as [db Hdb]. unfold on_db, smdb_db, expect. rewrite Hdb.
  destruct (write_schemas _ db) as [db' r] eqn:Ew. apply write_schemas_spec in Ew.
  exists (set_db self (slot self None) db'), r. split; [done|].
  destruct r as [[]| |]; cbn [is_ok]; [|by eapply stored_same..].
  eapply stored_ext; [| |eapply (stored_write version prev self _ _ None [(root_key version, n)] sr db db' Hst)]; [| | |apply NoDup_singleton|done|done].
  - intros k. apply overlay_app. intros k' Hk' Hk''. apply list_elem_of_singleton in Hk'' as ->.
    by eapply root_not_in_parts.
  - intros e. by rewrite app_assoc.
  - destruct Htop as [Ht1 Ht2]. split; [done|]. intros e He. destruct (Ht2 e He) as (He1 & He2 & He3).
    split_and!; [done|done|]. apply not_elem_of_app. split; [done|]. intros He'.
    apply (part_stale_shard _ _ _ Hfits) in He' as (pt & _ & He'). congruence.
Qed.

(** The outcome of a run, in any order of the shards: some of the nodes and entries of
    the next version are written, the root last; all of them when it returns. *)
Lemma commit_run rl self td kvs version pvs caches prev b pts n order : stores self td -> next_batches rl self td kvs version pvs caches prev b pts n -> NoDup order ->
  exists self' r nb sb,
    smdb_commit order (top_ops td version prev n) (map (part_ops version prev) pts) self = (self', r) /\
    stored self' (overlay (td_nodes td) nb) (td_stale td ++ sb) /\ (forall x, x ∈ nb -> x ∈ nodes_of b) /\
    (order ≡ₚ seq 0 16 -> is_ok r = true -> stores self' (put_db td version kvs b)) /\
    (is_ok r = true <-> root_key version ∈ map fst nb).
Proof.
  intros Hh Hnb Hnd. pose proof (nb_shards Hnb) as Hseq.
  assert (Hlen : length pts = 16%nat) by (apply (f_equal length) in Hseq; by rewrite length_map in Hseq).
  assert (Hfits : forall pt, pt ∈ chosen order pts -> part_fits (td_stale td) pt).
  { intros pt Hpt. apply (chosen_elem pts Hseq) in Hpt as [Hpt _]. by apply (nb_fits Hnb). }
  destruct (commit_jobs_spec version prev (chosen order pts) self _ _ Hh (chosen_NoDup pts Hseq order Hnd) Hfits)
    as (self1 & ok & pts1 & E1 & Hsub & Hall & Hst1).
  assert (Hin1 : forall x, x ∈ part_nodes pts1 -> x ∈ nodes_of b).
  { intros x Hx. rewrite (nb_nodes Hnb). apply elem_of_app. left.
    eapply part_nodes_elem; [|exact Hx]. intros pt Hpt. apply Hsub, (chosen_elem pts Hseq) in Hpt as [Hpt _]. done. }
  pose proof (nb_top Hnb) as Htop.
  assert (Hno : root_key version ∉ map fst (part_nodes pts1)) by (eapply root_not_in_parts; [intros pt Hpt; by apply Hfits, Hsub|exact Htop]).
  unfold smdb_commit. rewrite (pbind_Ok _ _ self self tt) by (unfold reading; by rewrite length_map, Hlen).
  rewrite (pbind_Ok _ _ self self1 ok) by (by rewrite (enumerated_parts version prev pts Hseq)).
  destruct ok.
  2:{ exists self1, (Panic "Failed to commit state merkle shard"), (part_nodes pts1), (part_stale pts1). by split_and!; try done. }
  rewrite (pbind_Ok _ _ self1 self1 tt) by done. specialize (Hall eq_refl). subst pts1.
  destruct (commit_top version prev self1 _ _ _ n _ Hst1 Hfits Htop) as (self' & r & E & Hst2).
  exists self', r. destruct (is_ok r); [|exists (part_nodes (chosen order pts)), (part_stale (chosen order pts)); by split_and!; try done].
  eexists _, _. split_and!; [exact E|exact Hst2| | |].
  - intros x Hx. apply elem_of_app in Hx as [Hx|Hx]; [by apply Hin1|]. rewrite (nb_nodes Hnb). apply elem_of_app. by right.
  - intros Ho _. destruct (part_nodes_perm _ _ (chosen_all pts Hseq order Ho)) as [Pn Ps].
    assert (Pb : nodes_of b ≡ₚ part_nodes (chosen order pts) ++ [(root_key version, n)]) by (by rewrite (nb_nodes Hnb), Pn).
    eapply stored_ext; [| |exact Hst2]; cbn [put_db td_nodes td_stale].
    + intros k. symmetry. apply write_batch_perm; [|exact Pb].
      change (NoDup (fst <$> (part_nodes (chosen order pts) ++ [(root_key version, n)]))).
      rewrite <- Pb. apply (nb_NoDup Hnb).
    + intros e. by rewrite (nb_stale Hnb), Ps.
  - split; [intros _|done]. rewrite map_app. apply elem_of_app. right. left.
Qed.

(** On databases that can be written, it returns. *)
Lemma commit_returns rl self td kvs version pvs caches prev b pts n order : stores self td -> next_batches rl self td kvs version pvs caches prev b pts n ->
  (forall batch (db : DB), is_ok (snd (write_schemas batch db)) = true) ->
  forall top, snd (smdb_commit order top (map (part_ops version prev) pts) self) = Ok tt.
Proof.
  intros Hh Hnb Hw top. pose proof (nb_shards Hnb) as Hseq.
  assert (Hlen : length pts = 16%nat) by (apply (f_equal length) in Hseq; by rewrite length_map in Hseq).
  unfold smdb_commit. rewrite (pbind_Ok _ _ self self tt).
  2:{ unfold reading. rewrite length_map, Hlen. done. }
  rewrite (enumerated_parts _ prev pts Hseq). pose proof (so_len _ _ _ Hh) as Hl.
  destruct (commit_jobs_works (map (part_job version prev) (chosen order pts)) Hw self) as (self1 & E & Hl1).
  { apply Forall_forall. intros job Hjob. apply list_elem_of_fmap in Hjob as (pt & -> & Hpt).
    apply (chosen_elem pts Hseq) in Hpt as [Hpt _]. apply (nb_fits Hnb) in Hpt as [Hpt _].
    cbn [part_job fst]. unfold slot. rewrite Hl. destruct (enable_sharding self); lia. }
  rewrite (pbind_Ok _ _ self self1 true) by done. rewrite (pbind_Ok _ _ self1 self1 tt) by done.
  assert (Hlt : (slot self1 None < length (smdb_dbs self1))%nat).
  { rewrite Hl1, Hl. unfold slot. destruct (enable_sharding self); lia. }
  apply lookup_lt_is_Some_2 in Hlt as [db Hdb]. unfold commit_top_levels, on_db, smdb_db, expect. rewrite Hdb.
  specialize (Hw top db). destruct (write_schemas top db) as [db' [[]| |]]; [done|discriminate Hw..].
Qed.

Lemma commit_works rl self td kvs version pvs caches prev b pts n order : stores self td -> next_batches rl self td kvs version pvs caches prev b pts n ->
  (forall batch (db : DB), is_ok (snd (write_schemas batch db)) = true) -> order ≡ₚ seq 0 16 ->
  exists self', smdb_commit order (top_ops td version prev n) (map (part_ops version prev) pts) self = (self', Ok tt) /\
    stores self' (put_db td version kvs b).
Proof.
  intros Hh Hnb Hw Ho. assert (Hnd : NoDup order) by (rewrite Ho; apply NoDup_seq).
  destruct (commit_run rl self td kvs version pvs caches prev b pts n order Hh Hnb Hnd) as (self' & r & nb & sb & E & _ & _ & Hst & _).
  assert (r = Ok tt) as ->.
  { change r with (snd (self', r)). rewrite <- E. by eapply commit_returns. }
  exists self'. split; [exact E|by apply Hst].
Qed.

(** The next version is a step. *)
Lemma next_step rl self td kvs version pvs caches prev b pts n : (forall (db : DB) k, is_ok (db_get_node db k) = true) -> stores self td ->
  next_version td <= version -> Z.of_nat (length (latest td) + length kvs) < U64 ->
  shards_based (smdb_reader rl self) (last_version td) pvs -> caches_ok version (latest td) kvs caches ->
  next_batches rl self td kvs version pvs caches prev b pts n -> db_step td (put_db td version kvs b).
Proof.
  intros Hget Hh Hv Hb Hpvs Hca Hnb. eapply step_put; [done|by eapply smdb_sees|done|done|done|apply (nb_put Hnb)].
Qed.

(** Merklizing on the last version, with all shards at it. *)
Lemma base_batches rl self td kvs version prev : (forall (db : DB) k, is_ok (db_get_node db k) = true) ->
  db_reachable td -> stores self td -> u64_ok version -> next_version td <= version ->
  Z.of_nat (length (latest td) + length kvs) < U64 ->
  exists b pts n, merklize_value_set rl self kvs version (last_version td) prev =
      Ok (top_ops td version prev n, map (part_ops version prev) pts, smt_root (sl (update_all version (latest td) kvs))) /\
    db_step td (put_db td version kvs b) /\
    next_batches rl self td kvs version (fun _ => last_version td) (fun _ => None) prev b pts n.
Proof.
  intros Hget Hr Hh Hu Hv Hb.
  assert (Hpvs : shards_based (smdb_reader rl self) (last_version td) (fun _ => last_version td)) by (by left).
  destruct (next_batches_exist rl self td kvs version _ _ prev Hget Hr Hh Hu Hv Hb Hpvs (no_caches version (latest td) kvs))
    as (b & pts & n & Hnb).
  exists b, pts, n. split_and!; [by eapply merklize_value_set_made| |done].
  eapply next_step; [done|exact Hh|done|done|exact Hpvs|apply no_caches|exact Hnb].
Qed.

(** Some of the nodes of a new version are no harm to the versions before. *)
Lemma partial_keeps td version nb v lvs : db_reachable td -> next_version td <= version ->
  (forall k m, (k, m) ∈ nb -> nk_version k = version) -> (v, lvs) ∈ td_versions td -> kept td v ->
  tree_at (overlay (td_nodes td) nb) v lvs.
Proof.
  intros Hr Hnext Hin Hv Hk. eapply tree_at_mono; [|by apply reachable_tree].
  apply (overlay_extends version); [|done]. intros k m Hm. apply reachable_inv in Hr. apply (inv_versions _ Hr) in Hm. lia.
Qed.

(** A root is not a leaf. *)
Lemma put_root reader kvs version base pvs caches root b m : put_at reader kvs version base pvs caches = Ok (root, b) ->
  NoDup (map fst (nodes_of b)) -> (root_key version, m) ∈ nodes_of b -> Node_is_leaf m = false.
Proof.
  intros E Hnd Hm. unfold put_at in E. apply bind_Ok in E as ([nodes b1] & _ & E). cbn [fst snd] in E.
  apply bind_Ok in E as ([root' b2] & Etop & [= _ <-]). destruct (put_top_inv _ _ _ _ _ Etop) as (_ & (n & En & Hleaf) & _).
  destruct (combine_nodes b1 b2) as [E1 _]. rewrite E1, En in Hnd, Hm. apply elem_of_app in Hm as [Hm|Hm].
  - rewrite map_app in Hnd. apply NoDup_app in Hnd as (_ & Hd & _). apply (list_elem_of_fmap_2 fst) in Hm.
    destruct (Hd _ Hm). left.
  - by apply list_elem_of_singleton in Hm as [= ->].
Qed.

Lemma reachable_roots td v n : db_reachable td -> td_nodes td (root_key v) = Some n -> Node_is_leaf n = false.
Proof.
  intros Hr. revert v n. induction Hr as [|td td' Hr IH Hs]; intros v n Hn; [done|].
  destruct Hs as [td reader kvs version pvs caches root b Hb Hsee Hv Hpvs Hca E|td st rest Hp]; cbn [put_db td_nodes] in Hn.
  - apply write_batch_cases in Hn as [Hn|Hn]; [|by eapply IH]. pose proof (reachable_inv _ Hr) as Hi.
    destruct (commit_spec _ _ version _ pvs caches _ kvs (inv_ready td reader version pvs Hi Hsee Hv Hpvs) Hca Hb) as (b' & E' & Hnd & Hver & _).
    rewrite E in E'. injection E' as -> <-. pose proof (Hver _ _ Hn) as Ev. cbn in Ev. subst v. by eapply put_root.
  - apply prune_Some in Hn as [Hn _]. by eapply IH.
Qed.
End CommitFacts.
