(* ===== verification/StateMerkleCommitTheorems.v ===== *)
(** * Committing: theorems

    A commit writes the next version, whatever the order in which the shards are
    written; a commit that fails leaves the versions before it; and over time, through
    commits and runs of the pruner, the database serves every version that was not
    pruned. *)
From stdpp Require Import base list numbers strings option gmap sorting.
From Stdlib Require Import ZArith Lia Bool Sorted.
From S2P Require Import Prelude Hash ToyHash SparseMerkleProof SparseSpec SparseFacts SparseTheorems NibblePath NibblePathFacts ByteCodec JellyfishNode JellyfishNodeFacts JellyfishHash JellyfishSpec JellyfishTree JellyfishRead JellyfishRuns JellyfishBatch JellyfishUpdate JellyfishInsert JellyfishCommit JellyfishHistory JellyfishTheorems StateMerkleDb StateMerklePruner StateMerklePrunerFacts StateMerklePrunerProgress StateMerklePrunerTheorems StateMerkleCommit StateMerkleCommitFacts.

Section CommitTheorems.
Context {HV : Type} `{HashValueOps HV} `{HashValueBits HV} `{!HashValueLaws HV} `{CryptoHasher HV}
  `{LeafHasher HV} `{HashValueKeys HV} `{!HashValueKeysLaws HV} `{Itertools} `{!ItertoolsLaws} {K : Type}.
Context {DB : Type} `{SchemaDb HV K DB} `{HB : ByteOrder} `{!ByteOrderLaws} `{!SchemaDbLaws HV K DB}.
Implicit Types (sch : StaleSchema) (self : StateMerkleDb DB) (p : StateMerklePruner) (td : tree_db (HV := HV) (K := K))
  (kvs : list (HV * option (HV * K))) (prev : option Version) (order : list nat).

(** C6: On databases that do not fail, merklizing a batch of updates on the last version,
    for any later one, and committing it returns the root hash of the reference tree of
    the updated leaves, and the databases then hold the new version on top of the ones
    they held, each node in the database of its shard and each stale entry in its index
    -- in whatever order the threads write the shards. *)
Theorem commit_adds_version rl self td kvs version prev order : db_works DB -> db_reachable td -> stores self td ->
  u64_ok version -> next_version td <= version -> Z.of_nat (length (latest td) + length kvs) < U64 -> order ≡ₚ seq 0 16 ->
  let lvs := update_all version (latest td) kvs in
  exists top batches self' td',
    merklize_value_set rl self kvs version (last_version td) prev = Ok (top, batches, smt_root (sl lvs)) /\
    smdb_commit order top batches self = (self', Ok tt) /\
    db_step td td' /\ td_versions td' = td_versions td ++ [(version, lvs)] /\ td_pruned td' = td_pruned td /\ stores self' td'.
Proof.
  intros (Hget & _ & _ & Hw) Hr Hh Hu Hv Hb Ho lvs.
  destruct (base_batches rl self td kvs version prev Hget Hr Hh Hu Hv Hb) as (b & pts & n & Em & Hs & Hnb).
  destruct (commit_works rl self td kvs version _ _ prev b pts n order Hh Hnb Hw Ho) as (self' & E & Hst).
  eexists _, _, self', (put_db td version kvs b). split_and!; [exact Em|exact E|exact Hs|done|done|done].
Qed.

(** A commit that fails on the way -- some shards written, the others or the top level
    not -- leaves every version the databases held readable: the value of every key, the
    root hash, and a proof that verifies. *)
Theorem commit_keeps_versions rl self td kvs version prev order top batches root self' r :
  (forall (db : DB) k, is_ok (db_get_node db k) = true) ->
  db_reachable td -> stores self td -> u64_ok version -> next_version td <= version ->
  Z.of_nat (length (latest td) + length kvs) < U64 -> NoDup order ->
  merklize_value_set rl self kvs version (last_version td) prev = Ok (top, batches, root) ->
  smdb_commit order top batches self = (self', r) ->
  forall v lvs key, (v, lvs) ∈ td_versions td -> kept td v -> readable rl self' v lvs key.
Proof.
  intros Hget Hr Hh Hu Hnext Hb Hnd Em E v lvs key Hv Hold.
  destruct (base_batches rl self td kvs version prev Hget Hr Hh Hu Hnext Hb) as (b & pts & n & Em' & _ & Hnb).
  rewrite Em' in Em. injection Em as <- <- _.
  destruct (commit_run rl self td kvs version _ _ prev b pts n order Hh Hnb Hnd) as (self1 & r1 & nb & sb & E1 & Hst & Hin & _ & _).
  rewrite E in E1. injection E1 as <- <-. eapply stored_readable; [done|exact Hst|].
  apply (partial_keeps td version); [done|done| |done|done]. intros k m Hk. by eapply (nb_version Hnb), Hin.
Qed.

(** ** The database over time *)

(** Empty databases. *)
Definition fresh_db self : Prop :=
  length (smdb_dbs self) = (if enable_sharding self then 17%nat else 1%nat) /\
  forall j db, smdb_dbs self !! j = Some db ->
    (forall k, dv_node (view db) k = None) /\ (forall sch e, e ∉ dv_stale (view db) sch).

(** Runs: batches of updates are merklized on the last version, for a later one, and
    committed, the threads writing the shards in any order; in between the pruner of
    either index runs to some target, with any outcome.  The run keeps the versions that
    were committed with their leaves, and the largest target. *)
Inductive smdb_run rl : StateMerkleDb DB -> list (Version * list (LeafNode HV K)) -> Z -> Prop :=
| run_empty self : fresh_db self -> smdb_run rl self [] 0
| run_commit self vs oldest kvs version prev order top batches root self' :
    let base := fst <$> list.last vs in
    let lvs := default [] (snd <$> list.last vs) in
    smdb_run rl self vs oldest -> u64_ok version -> (forall v, base = Some v -> v < version) ->
    Z.of_nat (length lvs + length kvs) < U64 -> order ≡ₚ seq 0 16 ->
    merklize_value_set rl self kvs version base prev = Ok (top, batches, root) ->
    smdb_commit order top batches self = (self', Ok tt) ->
    smdb_run rl self' (vs ++ [(version, update_all version lvs kvs)]) oldest
| run_prune self vs oldest sch p w' r :
    smdb_run rl self vs oldest -> u64_ok (smp_target_version p) -> 0 <= smp_progress p ->
    smp_prune sch (self, p) = (w', r) ->
    smdb_run rl (fst w') vs (Z.max oldest (smp_target_version p)).

Lemma fresh_db_stores self : fresh_db self -> stores self (mkTreeDb (fun _ => None) [] [] []).
Proof.
  intros [Hl Hf]. split; cbn [td_nodes td_stale].
  - done.
  - done.
  - intros k db Hk. by destruct (Hf _ _ Hk) as [-> _].
  - intros e. split; [intros He; by apply not_elem_of_nil in He|]. intros (j & db & sch & Hj & He).
    destruct (Hf _ _ Hj) as [_ Hs]. by apply Hs in He.
  - intros j db sch e Hj He. destruct (Hf _ _ Hj) as [_ Hs]. by apply Hs in He.
  - intros j db sch sch' e Hj He. destruct (Hf _ _ Hj) as [_ Hs]. by apply Hs in He.
  - intros j db k n Hj Hk. destruct (Hf _ _ Hj) as [Hn _]. by rewrite Hn in Hk.
Qed.

Lemma next_version_le td version : 0 <= version -> (forall v, last_version td = Some v -> v < version) ->
  next_version td <= version.
Proof. intros Hz Hv. unfold next_version. destruct (last_version td) as [v|]; [|done]. specialize (Hv v eq_refl). lia. Qed.

(** The databases of a run hold a reachable database with the versions committed. *)
Lemma smdb_run_stores rl self vs oldest : (forall (db : DB) k, is_ok (db_get_node db k) = true) ->
  smdb_run rl self vs oldest ->
  exists td, db_reachable td /\ stores self td /\ td_versions td = vs /\ forall v, oldest <= v -> kept td v.
Proof.
  intros Hget Hrun. induction Hrun as [self Hf|self vs oldest kvs version prev order top batches root self' base lvs _ IH Hu Hlt Hb Ho Em E|
    self vs oldest sch p w' r _ IH Ht Hp E].
  - exists (mkTreeDb (fun _ => None) [] [] []). split_and!; [constructor|by apply fresh_db_stores|done|]. intros v _. constructor.
  - destruct IH as (td & Hr & Hh & <- & Hold). subst lvs base. fold (last_version td) (latest td) in *.
    assert (Hv : next_version td <= version) by (apply next_version_le; [unfold u64_ok in Hu; lia|done]).
    destruct (base_batches rl self td kvs version prev Hget Hr Hh Hu Hv Hb) as (b & pts & n & Em' & Hs & Hnb).
    rewrite Em' in Em. injection Em as <- <- _.
    assert (Hnd : NoDup order) by (rewrite Ho; apply NoDup_seq).
    destruct (commit_run rl self td kvs version _ _ prev b pts n order Hh Hnb Hnd) as (self1 & r1 & nb & sb & E1 & _ & _ & Hst & _).
    rewrite E in E1. injection E1 as <- <-. exists (put_db td version kvs b). split_and!; [|by apply Hst|done|done].
    by eapply reach_step.
  - destruct IH as (td & Hr & Hh & <- & Hold).
    destruct (smp_prune_safe sch (self, p) td w' r Hr Hh E) as (td' & Hd & Hh').
    pose proof Hd as (Hr' & Hv & _). exists td'. split_and!; [done|done|done|]. intros v Hle. cbn [snd] in Hd.
    eapply deletes_kept; [exact Hd|lia|]. apply Hold. lia.
Qed.

(** On databases that do not fail, a run can always go on. *)
Lemma smdb_run_commit rl self vs oldest kvs version prev order : db_works DB -> smdb_run rl self vs oldest ->
  let lvs := default [] (snd <$> list.last vs) in
  u64_ok version -> (forall v, fst <$> list.last vs = Some v -> v < version) ->
  Z.of_nat (length lvs + length kvs) < U64 -> order ≡ₚ seq 0 16 ->
  exists self', smdb_run rl self' (vs ++ [(version, update_all version lvs kvs)]) oldest.
Proof.
  intros (Hget & _ & _ & Hw) Hrun lvs Hu Hlt Hb Ho. destruct (smdb_run_stores rl self vs oldest Hget Hrun) as (td & Hr & Hh & <- & Hold).
  subst lvs. fold (last_version td) (latest td) in *.
  assert (Hv : next_version td <= version) by (apply next_version_le; [unfold u64_ok in Hu; lia|done]).
  destruct (base_batches rl self td kvs version prev Hget Hr Hh Hu Hv Hb) as (b & pts & n & Em & _ & Hnb).
  destruct (commit_works rl self td kvs version _ _ prev b pts n order Hh Hnb Hw Ho) as (self' & E & _). exists self'.
  by eapply run_commit; [exact Hrun|done|done|done|done|exact Em|exact E].
Qed.

(** Through any sequence of commits and of runs of the pruners, from empty databases on,
    every committed version not older than the largest target given to a pruner can be
    read: the value of every key, the root hash, and a proof that verifies. *)
Theorem database_serves_window rl self vs oldest : (forall (db : DB) k, is_ok (db_get_node db k) = true) ->
  smdb_run rl self vs oldest ->
  forall v lvs key, (v, lvs) ∈ vs -> oldest <= v -> readable rl self v lvs key.
Proof.
  intros Hget Hrun v lvs key Hv Hold. destruct (smdb_run_stores rl self vs oldest Hget Hrun) as (td & Hr & Hh & <- & Ho).
  eapply stored_readable; [done|exact Hh|]. apply reachable_tree; [done|done|by apply Ho].
Qed.
End CommitTheorems.

(** ** Witnesses *)
Section Witnesses.
#[local] Existing Instances ref_byteorder ref_byteorder_laws memory_db memory_db_laws.

Definition toy_fresh : StateMerkleDb (db_view bytes32 Z) := mkStateMerkleDb (replicate 17 (toy_view [])) true.

Lemma toy_fresh_db : fresh_db toy_fresh.
Proof.
  split; [reflexivity|]. intros j db Hj. cbn [toy_fresh smdb_dbs] in Hj. apply lookup_replicate in Hj as [-> _]. split.
  - reflexivity.
  - intros [|] e; apply not_elem_of_nil.
Qed.

(** The threads write the shards in descending order. *)
Definition toy_order : list nat := rev (seq 0 16).

Lemma toy_order_all : toy_order ≡ₚ seq 0 16.
Proof. symmetry. apply Permutation_rev. Qed.

Lemma commit_adds_version_witness : exists top batches self' td',
  merklize_value_set (fun _ => Ok None) toy_fresh toy_updates 5 None None = Ok (top, batches, smt_root (sl (update_all 5 [] toy_updates))) /\
  smdb_commit toy_order top batches toy_fresh = (self', Ok tt) /\
  td_versions td' = [(5, update_all 5 [] toy_updates)] /\ stores self' td'.
Proof.
  destruct (commit_adds_version (fun _ => Ok None) toy_fresh (mkTreeDb (fun _ => None) [] [] []) toy_updates 5 None toy_order)
    as (top & batches & self' & td' & Em & Ec & _ & Ev & _ & Hs).
  - exact memory_works.
  - apply reach_empty.
  - apply fresh_db_stores, toy_fresh_db.
  - split; [vm_compute; discriminate|vm_compute; reflexivity].
  - vm_compute. discriminate.
  - vm_compute. reflexivity.
  - exact toy_order_all.
  - exists top, batches, self', td'. split; [exact Em|]. split; [exact Ec|]. split; [exact Ev|exact Hs].
Defined.

Lemma database_serves_window_witness : exists self, readable (fun _ => Ok None) self 1 toy_lvs2 (toy_key 17).
Proof.
  destruct (smdb_run_commit (fun _ => Ok None) toy_fresh [] 0 toy_updates 0 None toy_order memory_works
    (run_empty _ _ toy_fresh_db)) as (self1 & R1);
    [split; [vm_compute; discriminate|vm_compute; reflexivity]|intros v [=]|vm_compute; reflexivity|exact toy_order_all|].
  destruct (smdb_run_commit (fun _ => Ok None) self1 _ 0 toy_updates2 1 (Some 0) toy_order memory_works R1) as (self2 & R2);
    [split; [vm_compute; discriminate|vm_compute; reflexivity]| |vm_compute; reflexivity|exact toy_order_all|].
  { intros v E. change (Some 0 = Some v) in E. assert (v = 0) as -> by congruence. reflexivity. }
  destruct (smp_prune StaleNodeIndexSchema (self2, toy_pruner 1)) as [w r] eqn:Ep.
  assert (R3 := run_prune _ _ _ _ StaleNodeIndexSchema (toy_pruner 1) w r R2 ltac:(unfold u64_ok, U64; cbn; lia) ltac:(cbn; lia) Ep).
  exists (fst w). apply (database_serves_window (fun _ => Ok None) (fst w) _ _ (proj1 memory_works) R3 1 toy_lvs2 (toy_key 17)).
  - right. left.
  - cbn. lia.
Defined.
End Witnesses.

(** ** A database that can be written only so often *)
Section FlakyDb.
#[local] Existing Instances ref_byteorder ref_byteorder_laws.

#[local] Instance flaky_db : SchemaDb bytes32 Z (nat * db_view bytes32 Z) := {|
  db_get_node := fun d k => Ok (dv_node (snd d) k);
  db_get_version := fun d k => Ok (dv_version (snd d) k);
  db_stale_from := fun sch d seek => Ok (map Ok (memory_from sch (snd d) seek));
  write_schemas := fun batch d =>
    match d with
    | (O, _) => (d, Err "No space left on device")
    | (S n, v) => ((n, apply_ops v batch), Ok tt)
    end;
|}.

#[local] Instance flaky_db_laws : SchemaDbLaws bytes32 Z (nat * db_view bytes32 Z).
Proof.
  refine {| view := snd |}.
  - intros db k o [= <-]. done.
  - intros db k o [= <-]. done.
  - intros sch db seek items [= <-]. apply (db_stale_from_spec (SchemaDbLaws := memory_db_laws) sch (snd db) seek). done.
  - intros batch [[|n] v] db' r [= <- <-]; done.
Defined.

Lemma flaky_stores n td : (forall k m, td_nodes td k = Some m -> path_good k) -> Forall index_ok (td_stale td) ->
  stores (mkStateMerkleDb [(n, one_db td)] false) td.
Proof. intros Hk Hi. apply one_db_stores; [done|apply one_db_index|done|done]. Qed.

(** Three shards are written, the fourth is not; version 1 can still be read. *)
Definition toy_flaky : StateMerkleDb (nat * db_view bytes32 Z) := mkStateMerkleDb [(3%nat, one_db toy_td)] false.

Definition toy_batches :=
  result_of ([], [], of_num 0) (merklize_value_set (fun _ => Ok None) toy_flaky toy_updates 2 (Some 1) None).

Lemma commit_keeps_versions_witness : exists self',
  smdb_commit toy_order (fst (fst toy_batches)) (snd (fst toy_batches)) toy_flaky =
    (self', Panic "Failed to commit state merkle shard") /\
  readable (fun _ => Ok None) self' 1 toy_lvs2 (toy_key 17).
Proof.
  destruct (smdb_commit toy_order (fst (fst toy_batches)) (snd (fst toy_batches)) toy_flaky) as [self' r] eqn:E.
  assert (Er : r = Panic "Failed to commit state merkle shard").
  { apply (f_equal snd) in E. cbn [snd] in E. rewrite <- E. vm_compute. reflexivity. }
  exists self'. split; [by rewrite Er|].
  apply (commit_keeps_versions (fun _ => Ok None) toy_flaky toy_td toy_updates 2 None toy_order
    (fst (fst toy_batches)) (snd (fst toy_batches)) (snd toy_batches) self' r).
  - intros db k. reflexivity.
  - exact toy_td_reachable.
  - exact (flaky_stores 3 toy_td toy_td_keys toy_td_index).
  - split; [vm_compute; discriminate|vm_compute; reflexivity].
  - vm_compute. discriminate.
  - vm_compute. reflexivity.
  - rewrite toy_order_all. apply NoDup_seq.
  - change (merklize_value_set (fun _ => Ok None) toy_flaky toy_updates 2 (Some 1) None =
      Ok (fst (fst toy_batches), snd (fst toy_batches), snd toy_batches)).
    rewrite <- !surjective_pairing. apply result_of_Ok. vm_compute. reflexivity.
  - exact E.
  - right. left.
  - constructor.
Defined.
End FlakyDb.
