(* ===== verification/StateMerkleSnapshot.v ===== *)
(** * The last snapshot of the database

    [get_state_snapshot_version_before] of [storage/aptosdb/src/state_merkle_db.rs]: the
    last version before a given one whose root is in the metadata database.  The root is
    written last, so this is the version to which a node goes back after a crash. *)
From stdpp Require Import base list numbers strings option gmap sorting.
From Stdlib Require Import ZArith Lia Bool Sorted.
From S2P Require Import Prelude Hash ToyHash SparseMerkleProof SparseSpec SparseFacts SparseTheorems NibblePath NibblePathFacts ByteCodec JellyfishNode JellyfishNodeFacts JellyfishHash JellyfishSpec JellyfishTree JellyfishRead JellyfishRuns JellyfishBatch JellyfishUpdate JellyfishInsert JellyfishCommit JellyfishHistory JellyfishTheorems StateMerkleDb StateMerklePruner StateMerklePrunerFacts StateMerklePrunerProgress StateMerklePrunerTheorems StateMerkleCommit StateMerkleCommitFacts StateMerkleCommitTheorems.

(** The items of a reverse iterator over the nodes, after [seek_for_prev], and those of an
    iterator from a key on. *)
Class SchemaDbNodes (HV K DB : Type) := {
  db_nodes_before : DB -> list Z -> outcome (list (outcome (NodeKey * Node HV K)));
  db_nodes_from : DB -> list Z -> outcome (list (outcome (NodeKey * Node HV K)));
}.

(** The first item of the reverse iterator is the last key in byte order that is not
    after the given one; the other iterator yields the nodes from the given key on. *)
Class SchemaDbNodesLaws (HV K DB : Type) `{SchemaDb HV K DB} `{ByteOrder} `{!SchemaDbLaws HV K DB}
    `{!SchemaDbNodes HV K DB} := {
  db_nodes_before_spec (db : DB) seek items : db_nodes_before db seek = Ok items ->
    match items with
    | [] => forall k n, dv_node (view db) k = Some n -> lex_compare (NodeKey_encode k) seek = Gt
    | Ok (k, n) :: _ => dv_node (view db) k = Some n /\ lex_compare (NodeKey_encode k) seek <> Gt /\
        forall j m, dv_node (view db) j = Some m -> lex_compare (NodeKey_encode j) seek <> Gt ->
          lex_compare (NodeKey_encode j) (NodeKey_encode k) <> Gt
    | _ => True
    end;
  db_nodes_from_spec (db : DB) seek items : db_nodes_from db seek = Ok items ->
    exists l, yields l items /\
      forall k n, (k, n) ∈ l <-> dv_node (view db) k = Some n /\ lex_compare (NodeKey_encode k) seek <> Lt;
}.

Section Snapshot.
Context {HV K : Type} {DB : Type} `{SchemaDb HV K DB} `{!SchemaDbNodes HV K DB} `{ByteOrder}.
Implicit Types (self : StateMerkleDb DB).

(** The recursion is on smaller and smaller versions. *)
Fixpoint snapshot_version_before (fuel : nat) self (next_version : Version) : outcome (option Version) :=
  if 0 <? next_version then
    let max_possible_version := next_version - 1 in
    db ← smdb_db self None;
    k ← new_empty_path max_possible_version;
    items ← db_nodes_before db (NodeKey_encode k);
    match items with
    | item :: _ =>
        kn ← item;
        let version := nk_version (fst kn) in
        k ← new_empty_path version;
        o ← db_get_node db k;
        match o with
        | Some _ => Ok (Some version)
        | None =>
            match fuel with
            | S fuel => snapshot_version_before fuel self version
            | O => Panic "out of fuel"
            end
        end
    | [] => Ok None
    end
  else Ok None.

Definition get_state_snapshot_version_before self (next_version : Version) : outcome (option Version) :=
  snapshot_version_before (Z.to_nat next_version) self next_version.
End Snapshot.

Section SnapshotFacts.
Context {HV : Type} `{HashValueOps HV} `{HashValueBits HV} `{!HashValueLaws HV} `{CryptoHasher HV}
  `{LeafHasher HV} `{HashValueKeys HV} `{!HashValueKeysLaws HV} `{Itertools} `{!ItertoolsLaws} {K : Type}.
Context {DB : Type} `{SchemaDb HV K DB} `{HB : ByteOrder} `{!ByteOrderLaws} `{!SchemaDbLaws HV K DB}
  `{!SchemaDbNodes HV K DB} `{!SchemaDbNodesLaws HV K DB}.
Implicit Types (self : StateMerkleDb DB) (s : store (HV := HV) (K := K)) (td : tree_db (HV := HV) (K := K))
  (kvs : list (HV * option (HV * K))) (prev : option Version) (order : list nat).

(** Reads and iterators do not fail. *)
Definition reads_work : Prop :=
  (forall (db : DB) k, is_ok (db_get_node db k) = true) /\
  (forall (db : DB) seek, exists l, db_nodes_before db seek = Ok (map Ok l)).

Definition keys_ok s : Prop := forall k n, s k = Some n -> key_ok k.

(** A root is before the other nodes of its version. *)
Lemma root_first version k : key_ok k -> u64_ok version ->
  lex_compare (NodeKey_encode k) (NodeKey_encode (root_key version)) <> Gt ->
  nk_version k < version \/ k = root_key version.
Proof.
  intros Hk Hv. assert (Hr : key_ok (root_key version)).
  { split; [done|]. apply pack_path_ok; [constructor|cbn; lia]. }
  rewrite NodeKey_encode_order by done. unfold NodeKey_compare. cbn [root_key nk_version nk_nibble_path].
  destruct (Z.compare_spec (nk_version k) version) as [E|E|E]; [|by left|done].
  intros Hc. right. destruct k as [v p]. cbn [nk_version nk_nibble_path] in *. subst v. unfold root_key. f_equal.
  destruct Hk as [_ Hp]. cbn [nk_nibble_path] in Hp. rewrite <- (pack_unpack p Hp) in Hc |- *.
  destruct (unpack p) as [|x l]; [done|]. exfalso. apply Hc. unfold NibblePath_compare. rewrite !np_num_pack. done.
Qed.

Lemma root_compare v w : u64_ok v -> u64_ok w ->
  (lex_compare (NodeKey_encode (root_key v)) (NodeKey_encode (root_key w)) <> Gt <-> v <= w).
Proof.
  intros Hv Hw. assert (Hr : forall u, u64_ok u -> key_ok (root_key u)).
  { intros u Hu. split; [done|]. apply pack_path_ok; [constructor|cbn; lia]. }
  rewrite NodeKey_encode_order by auto. unfold NodeKey_compare. cbn [root_key nk_version nk_nibble_path].
  destruct (Z.compare_spec v w) as [->|E|E]; [|split; [lia|done]|split; [done|lia]].
  split; [lia|]. intros _. discriminate.
Qed.

Lemma version_order j k : key_ok j -> key_ok k -> lex_compare (NodeKey_encode j) (NodeKey_encode k) <> Gt ->
  nk_version j <= nk_version k.
Proof.
  intros Hj Hk. rewrite NodeKey_encode_order by done. unfold NodeKey_compare.
  destruct (Z.compare_spec (nk_version j) (nk_version k)); [lia|lia|done].
Qed.

(** The last root of [s] before version [next]. *)
Definition last_root s (next : Version) (o : option Version) : Prop :=
  match o with
  | Some v => 0 <= v < next /\ is_Some (s (root_key v)) /\ forall w, v < w < next -> s (root_key w) = None
  | None => forall w, 0 <= w < next -> s (root_key w) = None
  end.

Lemma last_root_skip s version next o : version < next -> (forall w, version <= w < next -> s (root_key w) = None) ->
  last_root s version o -> last_root s next o.
Proof.
  intros Hlt Hno. destruct o as [v|]; cbn [last_root].
  - intros (Hv & Hs & Hw). split_and!; [lia|lia|done|]. intros w Hw'.
    destruct (Z.lt_ge_cases w version); [apply Hw|apply Hno]; lia.
  - intros Hw w Hw'. destruct (Z.lt_ge_cases w version); [apply Hw|apply Hno]; lia.
Qed.

Lemma last_root_unique s next o o' : last_root s next o -> last_root s next o' -> o = o'.
Proof.
  destruct o as [v|], o' as [v'|]; cbn [last_root]; [| | |done].
  - intros (Hv & [n Hn] & Hw) (Hv' & [n' Hn'] & Hw'). f_equal.
    destruct (Z.lt_trichotomy v v') as [Hlt|[->|Hlt]]; [rewrite Hw in Hn' by lia; done|done|rewrite Hw' in Hn by lia; done].
  - intros (Hv & [n Hn] & _) Hw. by rewrite Hw in Hn by lia.
  - intros Hw (Hv & [n Hn] & _). by rewrite Hw in Hn by lia.
Qed.

(** The metadata database has the roots. *)
Lemma metadata_view self s st : reads_work -> stored self s st -> keys_ok s ->
  exists db, smdb_db self None = Ok db /\ (forall v, dv_node (view db) (root_key v) = s (root_key v)) /\
    (forall k n, dv_node (view db) k = Some n -> key_ok k) /\ forall k, db_get_node db k = Ok (dv_node (view db) k).
Proof.
  intros [Hget _] Hst Hkeys.
  assert (Hlt : (slot self None < length (smdb_dbs self))%nat).
  { rewrite (so_len _ _ _ Hst). unfold slot. destruct (enable_sharding self); lia. }
  apply lookup_lt_is_Some_2 in Hlt as [db Hdb]. exists db. split_and!.
  - unfold smdb_db, expect. by rewrite Hdb.
  - intros v. symmetry. apply (so_nodes _ _ _ Hst). unfold shard_of.
    rewrite (shard_id_good (root_key v) []); [done|constructor|done].
  - intros k n Hk. apply (Hkeys k n). rewrite (so_nodes _ _ _ Hst k db); [done|].
    by rewrite (so_only _ _ _ Hst _ _ _ _ Hdb Hk).
  - intros k. specialize (Hget db k). destruct (db_get_node db k) as [o| |] eqn:Eg; [|discriminate Hget..].
    by rewrite (db_get_node_spec _ _ _ Eg).
Qed.

Lemma snapshot_spec self s st : reads_work -> stored self s st -> keys_ok s ->
  forall fuel next, next < U64 -> (Z.to_nat next <= fuel)%nat ->
  exists o, snapshot_version_before fuel self next = Ok o /\ last_root s next o.
Proof.
  intros Hwork Hst Hkeys. destruct (metadata_view self s st Hwork Hst Hkeys) as (db & Hdb & Hroot & Hnode & Hread).
  destruct Hwork as [_ Hit].
  induction fuel as [|fuel IH]; intros next Hu Hf; cbn [snapshot_version_before];
    (destruct (0 <? next) eqn:En; [apply Z.ltb_lt in En|apply Z.ltb_ge in En; exists None; split; [done|intros w Hw; lia]]);
    [lia|].
  rewrite Hdb, obind_Ok, new_empty_path_pack, obind_Ok. fold (root_key (next - 1)).
  destruct (Hit db (NodeKey_encode (root_key (next - 1)))) as (l & El). rewrite El, obind_Ok.
  apply db_nodes_before_spec in El. assert (Hun : forall w, 0 <= w < next -> u64_ok w) by (unfold u64_ok; lia).
  assert (Hseek : forall w, 0 <= w < next ->
    lex_compare (NodeKey_encode (root_key w)) (NodeKey_encode (root_key (next - 1))) <> Gt).
  { intros w Hw. apply root_compare; [by apply Hun|apply Hun; lia|lia]. }
  destruct l as [|[k n] l]; cbn [map] in El |- *.
  - exists None. split; [done|]. intros w Hw. rewrite <- Hroot. destruct (dv_node (view db) (root_key w)) as [n|] eqn:Ew; [|done].
    apply El in Ew. by apply Hseek in Hw.
  - rewrite obind_Ok. cbn [fst]. destruct El as (Hk & Hle & Hmax). pose proof (Hnode _ _ Hk) as Hok.
    assert (Hv : 0 <= nk_version k < next).
    { destruct Hok as [Hv _]. unfold u64_ok in Hv.
      apply root_first in Hle as [Hle| ->]; [lia|cbn; lia|by eapply Hnode|apply Hun; lia]. }
    assert (Hafter : forall w, nk_version k < w < next -> s (root_key w) = None).
    { intros w Hw. rewrite <- Hroot. destruct (dv_node (view db) (root_key w)) as [m|] eqn:Ew; [|done]. exfalso.
      pose proof (Hmax _ _ Ew (Hseek w ltac:(lia))) as Hc. apply version_order in Hc; [cbn in Hc; lia|by eapply Hnode|done]. }
    rewrite new_empty_path_pack, obind_Ok. fold (root_key (nk_version k)). rewrite Hread, obind_Ok, Hroot.
    destruct (s (root_key (nk_version k))) as [m|] eqn:Em.
    + exists (Some (nk_version k)). split; [done|]. split_and!; [lia|lia|by eexists|done].
    + destruct (IH (nk_version k)) as (o & -> & Ho); [lia|lia|]. exists o. split; [done|].
      eapply last_root_skip; [| |exact Ho]; [lia|]. intros w Hw.
      destruct (decide (w = nk_version k)) as [->|]; [done|apply Hafter; lia].
Qed.

(** The root of the last version is stored. *)
Lemma latest_root td v : db_inv td -> last_version td = Some v ->
  0 <= v < next_version td /\ is_Some (td_nodes td (root_key v)).
Proof.
  intros Hi Hv. destruct (inv_latest _ Hi v Hv) as (_ & (_ & n & Hn & _) & _). apply prune_Some in Hn as [Hn _].
  split; [by apply (inv_versions _ Hi) in Hn|by exists n].
Qed.

(** Of the versions from the last one on, only a new one can have a root. *)
Lemma snapshot_roots td version nb (ok : bool) : db_inv td -> next_version td <= version ->
  (forall k m, (k, m) ∈ nb -> nk_version k = version) -> (ok = true <-> root_key version ∈ map fst nb) ->
  last_root (overlay (td_nodes td) nb) (version + 1) (if ok then Some version else last_version td).
Proof.
  intros Hi Hnext Hver Hroot. pose proof (inv_nonneg _ Hi) as Hz.
  assert (Hnone : forall w, next_version td <= w -> w <> version \/ ok = false -> overlay (td_nodes td) nb (root_key w) = None).
  { intros w Hw Hor. unfold overlay. rewrite (not_elem_of_list_to_map_1 nb).
    - destruct (td_nodes td _) as [m|] eqn:Ek; [|done]. apply (inv_versions _ Hi) in Ek. cbn in Ek. lia.
    - intros Hin. destruct Hor as [Hne| ->].
      + apply list_elem_of_fmap in Hin as ([k m] & Ek & Hin). apply Hver in Hin. cbn [fst] in Ek. subst k. done.
      + destruct (decide (w = version)) as [->|Hne]; [by apply Hroot in Hin|].
        apply list_elem_of_fmap in Hin as ([k m] & Ek & Hin). apply Hver in Hin. cbn [fst] in Ek. subst k. done. }
  destruct ok.
  - split_and!; [lia|lia| |intros w Hw; lia]. unfold overlay. destruct (list_to_map nb !! _) as [m|] eqn:Ek; [by eexists|].
    apply not_elem_of_list_to_map_2 in Ek. by destruct Ek; apply Hroot.
  - destruct (last_version td) as [v|] eqn:Ev; cbn [last_root].
    + destruct (latest_root td v Hi Ev) as [Hv [m Hm]]. split_and!; [lia|lia| |].
      * exists m. apply (overlay_extends version); [|done|done]. intros k x Hk. apply (inv_versions _ Hi) in Hk. lia.
      * intros w Hw. apply Hnone; [|by right]. unfold next_version. rewrite Ev. lia.
    + intros w Hw. apply Hnone; [|by right]. unfold next_version. rewrite Ev. lia.
Qed.

(** The write of the root is the commit point: after a commit, whatever its outcome and
    however many shards were written, the last snapshot is the new version if the commit
    returned and the version before it otherwise. *)
Theorem commit_point rl self td kvs version prev order top batches root self' r : reads_work ->
  db_reachable td -> stores self td -> version + 1 < U64 -> next_version td <= version ->
  Z.of_nat (length (latest td) + length kvs) < U64 -> NoDup order ->
  merklize_value_set rl self kvs version (last_version td) prev = Ok (top, batches, root) ->
  smdb_commit order top batches self = (self', r) ->
  get_state_snapshot_version_before self' (version + 1) = Ok (if is_ok r then Some version else last_version td).
Proof.
  intros Hwork Hr Hh Hu Hnext Hb Hnd Em E. pose proof (reachable_inv _ Hr) as Hi. pose proof (inv_nonneg _ Hi) as Hz.
  destruct (base_batches rl self td kvs version prev (proj1 Hwork) Hr Hh) as (b & pts & n & Em' & _ & Hnb); [unfold u64_ok; lia|done|done|].
  rewrite Em' in Em. injection Em as <- <- _.
  destruct (commit_run rl self td kvs version _ _ prev b pts n order Hh Hnb Hnd) as (self1 & r1 & nb & sb & E1 & Hst & Hin & _ & Hroot).
  rewrite E in E1. injection E1 as <- <-.
  assert (Hnew : forall k m, (k, m) ∈ nb -> nk_version k = version) by (intros k m Hk; by eapply (nb_version Hnb), Hin).
  assert (Hver : forall k m, overlay (td_nodes td) nb k = Some m -> 0 <= nk_version k <= version).
  { intros k m Hk. unfold overlay in Hk. destruct (list_to_map nb !! k) as [m'|] eqn:Ek.
    - apply elem_of_list_to_map_2, Hnew in Ek. lia.
    - apply (inv_versions _ Hi) in Hk. lia. }
  destruct (snapshot_spec self' _ _ Hwork Hst) with (fuel := Z.to_nat (version + 1)) (next := version + 1)
    as (o & Eo & Ho); [|lia|lia|].
  { intros k m Hk. pose proof (Hver k m Hk). apply (so_keys _ _ _ Hst) in Hk as (q & Hq & Hl & Eq).
    split; [unfold u64_ok; lia|]. rewrite Eq. by apply pack_path_ok. }
  unfold get_state_snapshot_version_before. rewrite Eo. f_equal. eapply last_root_unique; [exact Ho|].
  by apply snapshot_roots.
Qed.
End SnapshotFacts.

(** ** Witness: a database in memory with its keys *)
Section MapDb.
#[local] Existing Instances ref_byteorder ref_byteorder_laws.

(** The writes it has left if they are [limited], the nodes, and the rest. *)
Definition map_db (limited : bool) : Type := nat * gmap NodeKey (Node bytes32 Z) * db_view bytes32 Z.

Definition map_view {limited} (db : map_db limited) : db_view bytes32 Z :=
  mkDbView (fun k => snd (fst db) !! k) (dv_stale (snd db)) (dv_version (snd db)).

Definition map_op (m : gmap NodeKey (Node bytes32 Z)) (op : BatchOp bytes32 Z) : gmap NodeKey (Node bytes32 Z) :=
  match op with Put_node k n => <[k := n]> m | Delete_node k => delete k m | _ => m end.

Lemma map_ops batch : forall m d d', (forall k, m !! k = dv_node d' k) -> dv_stale d = dv_stale d' -> dv_version d = dv_version d' ->
  (forall k, fold_left map_op batch m !! k = dv_node (apply_ops d' batch) k) /\
  dv_stale (apply_ops d batch) = dv_stale (apply_ops d' batch) /\ dv_version (apply_ops d batch) = dv_version (apply_ops d' batch).
Proof.
  induction batch as [|op batch IH]; intros m d d' Hm Hs Hv; [done|]. unfold apply_ops. cbn [fold_left].
  apply IH; destruct op; cbn [apply_op map_op dv_node dv_stale dv_version]; rewrite ?Hs, ?Hv; try done.
  - intros k. case_decide as E; [subst; apply lookup_insert_eq|]. by rewrite lookup_insert_ne.
  - intros k. case_decide as E; [subst; apply lookup_delete_eq|]. by rewrite lookup_delete_ne.
Qed.

Lemma lex_compare_refl xs : lex_compare xs xs = Eq.
Proof. induction xs as [|x xs IH]; [done|]. cbn [lex_compare]. by rewrite Z.compare_refl. Qed.

Definition key_ge (a b : NodeKey * Node bytes32 Z) : Prop :=
  lex_compare (NodeKey_encode (fst b)) (NodeKey_encode (fst a)) <> Gt.

#[local] Instance key_ge_dec a b : Decision (key_ge a b).
Proof. unfold key_ge. apply _. Defined.

#[local] Instance key_ge_trans : Transitive key_ge.
Proof. intros a b c Hab Hbc. unfold key_ge in *. by eapply lex_compare_trans. Qed.

#[local] Instance key_ge_total : Total key_ge.
Proof.
  intros a b. unfold key_ge. rewrite (lex_compare_antisym (NodeKey_encode (fst a))).
  destruct (lex_compare _ _); [by left|by right|by left].
Qed.

Definition key_upto (seek : list Z) (a : NodeKey * Node bytes32 Z) : Prop := lex_compare (NodeKey_encode (fst a)) seek <> Gt.

#[local] Instance key_upto_dec seek a : Decision (key_upto seek a).
Proof. unfold key_upto. apply _. Defined.

Definition map_before {limited} (db : map_db limited) (seek : list Z) : list (NodeKey * Node bytes32 Z) :=
  merge_sort key_ge (filter (key_upto seek) (map_to_list (snd (fst db)))).

#[local] Instance map_schema_db limited : SchemaDb bytes32 Z (map_db limited) := {|
  db_get_node := fun d k => Ok (snd (fst d) !! k);
  db_get_version := fun d k => Ok (dv_version (snd d) k);
  db_stale_from := fun sch d seek => Ok (map Ok (memory_from sch (snd d) seek));
  write_schemas := fun batch d =>
    let '(n, m, v) := d in
    match n, limited with
    | O, true => (d, Err "No space left on device")
    | _, _ => ((pred n, fold_left map_op batch m, apply_ops v batch), Ok tt)
    end;
|}.

#[local] Instance map_db_laws limited : SchemaDbLaws bytes32 Z (map_db limited).
Proof.
  refine {| view := map_view |}.
  - intros db k o [= <-]. done.
  - intros db k o [= <-]. done.
  - intros sch db seek items [= <-]. apply (db_stale_from_spec (SchemaDbLaws := memory_db_laws) sch (snd db) seek). done.
  - intros batch [[n m] v] db' r E. cbn [write_schemas map_schema_db] in E.
    destruct (map_ops batch m v (map_view (limited := limited) (n, m, v))) as (Hn & Hs & Hv); [done..|].
    destruct n as [|n], limited; injection E as <- <-; [done|..];
    (split_and!; [exact Hn|intros sch e; cbn [map_view dv_stale snd]; by rewrite Hs|intros k; cbn [map_view dv_version snd]; by rewrite Hv]).
Defined.

#[local] Instance map_db_nodes limited : SchemaDbNodes bytes32 Z (map_db limited) := {|
  db_nodes_before := fun d seek => Ok (map Ok (map_before d seek));
  db_nodes_from := fun d seek =>
    Ok (map Ok (filter (fun a => lex_compare (NodeKey_encode (fst a)) seek <> Lt) (map_to_list (snd (fst d)))));
|}.

#[local] Instance map_db_nodes_laws limited : SchemaDbNodesLaws bytes32 Z (map_db limited).
Proof.
  split; intros db seek items [= <-].
  2:{ eexists. split; [by left|]. intros k n. rewrite list_elem_of_filter, elem_of_map_to_list. cbn [fst]. tauto. }
  assert (Hin : forall k n, (k, n) ∈ map_before db seek <-> snd (fst db) !! k = Some n /\ lex_compare (NodeKey_encode k) seek <> Gt).
  { intros k n. unfold map_before. rewrite merge_sort_Permutation, list_elem_of_filter, elem_of_map_to_list. unfold key_upto. cbn [fst]. tauto. }
  assert (Hs : StronglySorted key_ge (map_before db seek)) by (apply StronglySorted_merge_sort; apply _).
  destruct (map_before db seek) as [|[k n] l]; cbn [map].
  - intros k n Hk. cbn [view map_db_laws map_view dv_node] in Hk. destruct (lex_compare (NodeKey_encode k) seek) eqn:E; [exfalso..|done];
      assert (Hx : (k, n) ∈ @nil (NodeKey * Node bytes32 Z)) by (apply Hin; by rewrite E); by apply not_elem_of_nil in Hx.
  - destruct (proj1 (Hin k n) (list_elem_of_here _ _)) as [Hk Hle]. split_and!; [exact Hk|exact Hle|].
    intros j m Hj Hjs. assert (Hx : (j, m) ∈ (k, n) :: l) by (by apply Hin).
    apply StronglySorted_inv in Hs as [_ Hs]. rewrite Forall_forall in Hs.
    apply elem_of_cons in Hx as [[= -> _]|Hx]; [by rewrite lex_compare_refl|]. by apply Hs in Hx.
Qed.

Lemma map_db_works limited : reads_work (DB := map_db limited).
Proof. split; [done|]. intros db seek. by exists (map_before db seek). Qed.

(** Two versions; three shards of the next one can be written. *)
Definition toy_map : StateMerkleDb (map_db true) :=
  mkStateMerkleDb [(3%nat, list_to_map (nodes_of toy_b1 ++ nodes_of toy_b0), one_db toy_td)] false.

Lemma map_stores n nb td : (forall k, td_nodes td k = (list_to_map nb : gmap NodeKey (Node bytes32 Z)) !! k) ->
  (forall k m, td_nodes td k = Some m -> path_good k) -> Forall index_ok (td_stale td) ->
  stores (mkStateMerkleDb [(n, list_to_map nb, one_db td) : map_db true] false) td.
Proof. intros Hn Hk Hi. apply one_db_stores; [exact Hn|apply one_db_index|exact Hk|exact Hi]. Qed.

Lemma overlay_twice (nb nb' : list (NodeKey * Node bytes32 Z)) k :
  overlay (overlay (fun _ => None) nb) nb' k = (list_to_map (nb' ++ nb) : gmap NodeKey (Node bytes32 Z)) !! k.
Proof.
  unfold overlay. rewrite list_to_map_app, lookup_union. destruct (list_to_map nb' !! k) as [m|]; cbn; [by destruct (list_to_map nb !! k)|].
  by destruct (list_to_map nb !! k).
Qed.

Lemma toy_map_stores : stores toy_map toy_td.
Proof.
  apply map_stores; [|exact toy_td_keys|exact toy_td_index].
  exact (overlay_twice (nodes_of toy_b0) (nodes_of toy_b1)).
Qed.

Definition toy_map_batches :=
  result_of ([], [], of_num 0) (merklize_value_set (fun _ => Ok None) toy_map toy_updates 2 (Some 1) None).

Lemma commit_point_witness : exists self',
  smdb_commit toy_order (fst (fst toy_map_batches)) (snd (fst toy_map_batches)) toy_map =
    (self', Panic "Failed to commit state merkle shard") /\
  get_state_snapshot_version_before self' 3 = Ok (Some 1).
Proof.
  destruct (smdb_commit toy_order (fst (fst toy_map_batches)) (snd (fst toy_map_batches)) toy_map) as [self' r] eqn:E.
  assert (Er : r = Panic "Failed to commit state merkle shard").
  { apply (f_equal snd) in E. cbn [snd] in E. rewrite <- E. vm_compute. reflexivity. }
  subst r. exists self'. split; [reflexivity|].
  assert (Hp := commit_point (fun _ => Ok None) toy_map toy_td toy_updates 2 None toy_order
    (fst (fst toy_map_batches)) (snd (fst toy_map_batches)) (snd toy_map_batches) self'
    (Panic "Failed to commit state merkle shard") (map_db_works true) toy_td_reachable toy_map_stores).
  apply Hp.
  - vm_compute. reflexivity.
  - vm_compute. discriminate.
  - vm_compute. reflexivity.
  - rewrite toy_order_all. apply NoDup_seq.
  - change (merklize_value_set (fun _ => Ok None) toy_map toy_updates 2 (Some 1) None =
      Ok (fst (fst toy_map_batches), snd (fst toy_map_batches), snd toy_map_batches)).
    rewrite <- !surjective_pairing. apply result_of_Ok. vm_compute. reflexivity.
  - exact E.
Defined.
End MapDb.
