(* ===== verification/LedgerMetadata.v ===== *)
(** * Epochs and usage in the ledger database

    Model of [storage/aptosdb/src/ledger_db/ledger_metadata_db.rs] (ledger infos, epochs
    and usage), of the schemas it uses ([schema/epoch_by_version], [schema/version_data])
    and of [types/src/state_store/state_storage_usage.rs].  The commit of a snapshot asks
    it for the end of the previous epoch and for the usage of a version. *)
From stdpp Require Import base list numbers strings option gmap.
From Stdlib Require Import ZArith Lia Bool.
From S2P Require Import Prelude Hash AccumulatorProof ByteCodec NibblePath JellyfishNode JellyfishNodeFacts JellyfishTree StateMerkleDb.

(** ** [StateStorageUsage] *)
Inductive StateStorageUsage :=
| Tracked (items bytes : Z)
| Untracked.

#[export] Instance StateStorageUsage_eq_dec : EqDecision StateStorageUsage.
Proof. solve_decision. Defined.

Module StateStorageUsage.
Definition new (items bytes : Z) : StateStorageUsage := Tracked items bytes.
Definition zero : StateStorageUsage := new 0 0.
Definition new_untracked : StateStorageUsage := Untracked.

Definition is_untracked (self : StateStorageUsage) : bool :=
  match self with Untracked => true | _ => false end.

Definition items (self : StateStorageUsage) : Z :=
  match self with Tracked items _ => items | Untracked => 0 end.

Definition bytes (self : StateStorageUsage) : Z :=
  match self with Tracked _ bytes => bytes | Untracked => 0 end.

Definition add_item (bytes_delta : Z) (self : StateStorageUsage) : outcome StateStorageUsage :=
  match self with
  | Tracked items bytes => items ← add64 items 1; bytes ← add64 bytes bytes_delta; Ok (Tracked items bytes)
  | Untracked => Ok Untracked
  end.

Definition remove_item (bytes_delta : Z) (self : StateStorageUsage) : outcome StateStorageUsage :=
  match self with
  | Tracked items bytes => items ← sub64 items 1; bytes ← sub64 bytes bytes_delta; Ok (Tracked items bytes)
  | Untracked => Ok Untracked
  end.
End StateStorageUsage.

(** ** [VersionData] *)
Record VersionData := mkVersionData { state_items : Z; total_state_bytes : Z }.

Definition VersionData_from (usage : StateStorageUsage) : VersionData :=
  mkVersionData (StateStorageUsage.items usage) (StateStorageUsage.bytes usage).

Definition get_state_storage_usage (self : VersionData) : StateStorageUsage :=
  StateStorageUsage.new (state_items self) (total_state_bytes self).

(** The key of [EpochByVersionSchema] and of [VersionDataSchema]. *)
Definition Version_encode_key (self : Version) : list Z := be_bytes 8 self.

(** ** Ledger infos *)
Section LedgerInfos.
Context {HV ES : Type}.
Implicit Types (self : LedgerInfo HV ES).

Definition LedgerInfo_epoch self : Z := bi_epoch HV ES (li_commit_info self).
Definition next_epoch_state self : option ES := bi_next_epoch_state HV ES (li_commit_info self).
Definition ends_epoch self : bool := match next_epoch_state self with Some _ => true | None => false end.
End LedgerInfos.

(** [LedgerInfoWithV0] *)
Record LedgerInfoWithSignatures (HV ES SG : Type) := mkLedgerInfoWithSignatures {
  ledger_info : LedgerInfo HV ES;
  signatures : SG;
}.
Arguments mkLedgerInfoWithSignatures {HV ES SG} _ _.
Arguments ledger_info {HV ES SG} _.
Arguments signatures {HV ES SG} _.

Section LedgerMetadata.
Context {HV ES SG : Type}.
Abbreviation SignedLedgerInfo := (LedgerInfoWithSignatures HV ES SG) (only parsing).

(** An entry of a batch. *)
Inductive LedgerOp :=
| Put_epoch (version : Version) (epoch : Z)
| Put_ledger_info (epoch : Z) (ledger_info_with_sigs : SignedLedgerInfo)
| Put_version_data (version : Version) (data : VersionData).

(** [DB] of [schemadb]: reads, the items of an iterator after [seek_for_prev], and the
    write of a batch. *)
Class LedgerDb (LDB : Type) := {
  ldb_epoch : LDB -> Version -> outcome (option Z);
  ldb_ledger_info : LDB -> Z -> outcome (option SignedLedgerInfo);
  ldb_version_data : LDB -> Version -> outcome (option VersionData);
  ldb_epochs_for_prev : LDB -> list Z -> outcome (list (outcome (Version * Z)));
  ldb_data_for_prev : LDB -> list Z -> outcome (list (outcome (Version * VersionData)));
  ldb_write_schemas : list LedgerOp -> prog LDB unit;
}.

(** What the database holds. *)
Record ledger_view := mkLedgerView {
  lv_epochs : Version -> option Z;
  lv_infos : Z -> option SignedLedgerInfo;
  lv_data : Version -> option VersionData;
}.

Definition apply_ledger_op (d : ledger_view) (op : LedgerOp) : ledger_view :=
  match op with
  | Put_epoch v e => mkLedgerView (fun w => if decide (w = v) then Some e else lv_epochs d w) (lv_infos d) (lv_data d)
  | Put_ledger_info e li => mkLedgerView (lv_epochs d) (fun f => if decide (f = e) then Some li else lv_infos d f) (lv_data d)
  | Put_version_data v x => mkLedgerView (lv_epochs d) (lv_infos d) (fun w => if decide (w = v) then Some x else lv_data d w)
  end.

Definition same_ledger (d d' : ledger_view) : Prop :=
  (forall v, lv_epochs d v = lv_epochs d' v) /\ (forall e, lv_infos d e = lv_infos d' e) /\
  (forall v, lv_data d v = lv_data d' v).

(** The first item after [seek_for_prev] is the last key in byte order that is not after
    the given one. *)
Definition seeks_prev {A} (m : Version -> option A) (seek : list Z) (items : list (outcome (Version * A))) : Prop :=
  match items with
  | [] => forall v x, m v = Some x -> lex_compare (Version_encode_key v) seek = Gt
  | Ok (v, x) :: _ => m v = Some x /\ lex_compare (Version_encode_key v) seek <> Gt /\
      forall w y, m w = Some y -> lex_compare (Version_encode_key w) seek <> Gt ->
        lex_compare (Version_encode_key w) (Version_encode_key v) <> Gt
  | _ => True
  end.

(** The documented behaviour of RocksDB. *)
Class LedgerDbLaws (LDB : Type) `{LedgerDb LDB} := {
  lview : LDB -> ledger_view;
  lview_epochs_ok db v e : lv_epochs (lview db) v = Some e -> u64_ok v;
  lview_data_ok db v x : lv_data (lview db) v = Some x -> u64_ok v;
  ldb_epoch_spec db v o : ldb_epoch db v = Ok o -> o = lv_epochs (lview db) v;
  ldb_ledger_info_spec db e o : ldb_ledger_info db e = Ok o -> o = lv_infos (lview db) e;
  ldb_version_data_spec db v o : ldb_version_data db v = Ok o -> o = lv_data (lview db) v;
  ldb_epochs_for_prev_spec db seek items : ldb_epochs_for_prev db seek = Ok items -> seeks_prev (lv_epochs (lview db)) seek items;
  ldb_data_for_prev_spec db seek items : ldb_data_for_prev db seek = Ok items -> seeks_prev (lv_data (lview db)) seek items;
  ldb_write_schemas_spec batch db db' r : ldb_write_schemas batch db = (db', r) ->
    match r with
    | Ok _ => same_ledger (lview db') (fold_left apply_ledger_op batch (lview db))
    | _ => lview db' = lview db
    end;
}.

(** ** [LedgerMetadataDb] *)
Context {LDB : Type} `{LedgerDb LDB}.

Record LedgerMetadataDb := mkLedgerMetadataDb {
  lmd_db : LDB;
  latest_ledger_info : option SignedLedgerInfo;
}.
Implicit Types (self : LedgerMetadataDb).

Definition get_latest_ledger_info_option self : option SignedLedgerInfo := latest_ledger_info self.

Definition get_committed_version self : option Version := option_map (fun li => LedgerInfo_version (ledger_info li)) (latest_ledger_info self).

Definition get_latest_ledger_info self : outcome SignedLedgerInfo :=
  ok_or (get_latest_ledger_info_option self) "Genesis LedgerInfo".

Definition get_latest_ledger_info_in_epoch self (epoch : Z) : outcome SignedLedgerInfo :=
  o ← ldb_ledger_info (lmd_db self) epoch;
  ok_or o "Last LedgerInfo of epoch".

Definition get_epoch_state self (epoch : Z) : outcome ES :=
  _ ← ensure (0 <? epoch) "EpochState only queryable for epoch >= 1.";
  o ← ldb_ledger_info (lmd_db self) (epoch - 1);
  ledger_info_with_sigs ← ok_or o "Last LedgerInfo of epoch";
  ok_or (next_epoch_state (ledger_info ledger_info_with_sigs)) "Last LedgerInfo in epoch must carry next_epoch_state.".

(** [iter.next().transpose()?] *)
Definition next_item {A} (items : list (outcome A)) : outcome (option A) :=
  match items with
  | [] => Ok None
  | item :: _ => x ← item; Ok (Some x)
  end.

Definition get_epoch self (version : Version) : outcome Z :=
  items ← ldb_epochs_for_prev (lmd_db self) (Version_encode_key version);
  o ← next_item items;
  match o with
  | None => Ok 0
  | Some (epoch_end_version, epoch) =>
      _ ← ensure (epoch_end_version <=? version) "DB corruption";
      if epoch_end_version <? version then add64 epoch 1 else Ok epoch
  end.

Definition ensure_epoch_ending self (version : Version) : outcome unit :=
  o ← ldb_epoch (lmd_db self) version;
  _ ← ok_or o "Version is not epoch ending.";
  Ok tt.

Definition get_previous_epoch_ending self (version : Version) : outcome (option (Version * Z)) :=
  if version =? 0 then Ok None
  else
    let prev_version := version - 1 in
    items ← ldb_epochs_for_prev (lmd_db self) (Version_encode_key prev_version);
    next_item items.

Definition get_epoch_ending_ledger_info self (version : Version) : outcome SignedLedgerInfo :=
  epoch ← get_epoch self version;
  o ← ldb_ledger_info (lmd_db self) epoch;
  li ← ok_or o "LedgerInfo for epoch.";
  _ ← ensure (LedgerInfo_version (ledger_info li) =? version) "Epoch didn't end at version";
  _ ← ok_or (next_epoch_state (ledger_info li)) "Not an epoch change at version";
  Ok li.

Definition set_latest_ledger_info (ledger_info_with_sigs : SignedLedgerInfo) self : LedgerMetadataDb :=
  mkLedgerMetadataDb (lmd_db self) (Some ledger_info_with_sigs).

(** [put_ledger_info]: the entries added to the batch. *)
Definition put_ledger_info (ledger_info_with_sigs : SignedLedgerInfo) : list LedgerOp :=
  let ledger_info := ledger_info ledger_info_with_sigs in
  (if ends_epoch ledger_info then [Put_epoch (LedgerInfo_version ledger_info) (LedgerInfo_epoch ledger_info)] else []) ++
  [Put_ledger_info (LedgerInfo_epoch ledger_info) ledger_info_with_sigs].

(** [write_schemas] *)
Definition lmd_write_schemas (batch : list LedgerOp) : prog LedgerMetadataDb unit := fun self =>
  let '(db, r) := ldb_write_schemas batch (lmd_db self) in (mkLedgerMetadataDb db (latest_ledger_info self), r).

Definition get_usage self (version : Version) : outcome StateStorageUsage :=
  o ← ldb_version_data (lmd_db self) version;
  data ← ok_or o "VersionData missing for version";
  Ok (get_state_storage_usage data).

Definition put_usage (version : Version) (usage : StateStorageUsage) : prog LedgerMetadataDb unit :=
  lmd_write_schemas [Put_version_data version (VersionData_from usage)].

Definition get_usage_before_or_at self (version : Version) : outcome (Version * StateStorageUsage) :=
  items ← ldb_data_for_prev (lmd_db self) (Version_encode_key version);
  o ← next_item items;
  match o with
  | Some (previous_version, data) => Ok (previous_version, get_state_storage_usage data)
  | None => Err "Unable to find a version before the given version with usage."
  end.
End LedgerMetadata.
Arguments LedgerOp HV ES SG : clear implicits.
Arguments LedgerDb HV ES SG LDB : clear implicits.
Arguments ledger_view HV ES SG : clear implicits.
Arguments LedgerDbLaws HV ES SG LDB {_}.
Arguments LedgerMetadataDb HV ES SG LDB : clear implicits.
