(* ===== verification/LedgerMetadataFacts.v ===== *)
(** * Epochs and usage: facts

    The epoch of a version, the end of the previous epoch, and what is read back. *)
From stdpp Require Import base list numbers strings option gmap sorting.
From Stdlib Require Import ZArith Lia Bool Sorted.
From S2P Require Import Prelude Hash AccumulatorProof ByteCodec NibblePath JellyfishNode JellyfishNodeFacts JellyfishTree StateMerkleDb LedgerMetadata.

Lemma Version_key_order v w : u64_ok v -> u64_ok w ->
  lex_compare (Version_encode_key v) (Version_encode_key w) = (v ?= w).
Proof.
  intros Hv Hw. unfold Version_encode_key. rewrite <- (app_nil_r (be_bytes 8 v)), <- (app_nil_r (be_bytes 8 w)).
  rewrite lex_compare_be by (rewrite ?be_bytes_length; done || apply be_bytes_ok).
  rewrite !be_value_bytes by done. by destruct (v ?= w).
Qed.

(** The last key of [m] up to [w]. *)
Definition last_upto {A} (m : Version -> option A) (w : Version) (o : option (Version * A)) : Prop :=
  match o with
  | Some (v, x) => m v = Some x /\ v <= w /\ forall u y, m u = Some y -> u <= w -> u <= v
  | None => forall v x, m v = Some x -> w < v
  end.

Lemma seeks_prev_last {A} (m : Version -> option A) w items o : (forall v x, m v = Some x -> u64_ok v) -> u64_ok w ->
  seeks_prev m (Version_encode_key w) items -> next_item items = Ok o -> last_upto m w o.
Proof.
  intros Hm Hw Hs E. destruct items as [|[[v x]| |] items]; cbn [next_item seeks_prev] in *; [|injection E as <-|discriminate E..].
  - injection E as <-. intros v x Hv. specialize (Hs v x Hv). rewrite Version_key_order in Hs by eauto. by apply Z.compare_gt_iff.
  - destruct Hs as (Hv & Hle & Hmax). rewrite Version_key_order in Hle by eauto. split_and!; [done|done|].
    intros u y Hu Huw. specialize (Hmax u y Hu). rewrite !Version_key_order in Hmax by eauto. by apply Hmax.
Qed.

Section Facts.
Context {HV ES SG LDB : Type} `{LedgerDb HV ES SG LDB} `{!LedgerDbLaws HV ES SG LDB}.
Implicit Types (self : LedgerMetadataDb HV ES SG LDB) (db : LDB).

(** The versions at which epochs end. *)
Definition epoch_ends self : Version -> option Z := lv_epochs (lview (lmd_db self)).

(** The end of the previous epoch is the last one strictly before the version. *)
Lemma previous_epoch_last self version o : u64_ok version -> get_previous_epoch_ending self version = Ok o ->
  match o with
  | Some (v, e) => epoch_ends self v = Some e /\ v < version /\ forall u f, epoch_ends self u = Some f -> u < version -> u <= v
  | None => forall v e, epoch_ends self v = Some e -> version <= v
  end.
Proof.
  intros Hu E. unfold get_previous_epoch_ending in E. destruct (version =? 0) eqn:Ez.
  - injection E as <-. apply Z.eqb_eq in Ez. subst version. intros v e Hv. by apply lview_epochs_ok in Hv as [? _].
  - apply Z.eqb_neq in Ez. apply bind_Ok in E as (items & Ei & E). unfold u64_ok in Hu.
    apply ldb_epochs_for_prev_spec in Ei.
    assert (Hl : last_upto (epoch_ends self) (version - 1) o).
    { eapply seeks_prev_last; [intros v x; apply lview_epochs_ok|unfold u64_ok; lia|exact Ei|exact E]. }
    destruct o as [[v e]|]; cbn [last_upto] in Hl.
    + destruct Hl as (Hv & Hle & Hmax). split_and!; [done|lia|]. intros u f Hf Hlt. apply (Hmax u f Hf). lia.
    + intros v e Hv. specialize (Hl v e Hv). lia.
Qed.

(** Reads and iterators that do not fail. *)
Definition ledger_reads_work : Prop :=
  (forall db v, is_ok (ldb_epoch db v) = true) /\ (forall db e, is_ok (ldb_ledger_info db e) = true) /\
  (forall db v, is_ok (ldb_version_data db v) = true) /\
  (forall db seek, exists l, ldb_epochs_for_prev db seek = Ok (map Ok l)) /\
  (forall db seek, exists l, ldb_data_for_prev db seek = Ok (map Ok l)).

Lemma next_item_works {A} (l : list A) : next_item (map Ok l) = Ok (head l).
Proof. by destruct l. Qed.

Lemma previous_epoch_works self version : ledger_reads_work -> exists o, get_previous_epoch_ending self version = Ok o.
Proof.
  intros (_ & _ & _ & Hw & _). unfold get_previous_epoch_ending. destruct (version =? 0); [by eexists|].
  destruct (Hw (lmd_db self) (Version_encode_key (version - 1))) as (l & ->). rewrite obind_Ok, next_item_works. by eexists.
Qed.

(** ** The epoch of a version *)

(** The ends of the epochs, in order: epoch [e] ended at the version at index [e]. *)
Definition epochs_are self (ends : list Version) : Prop :=
  StronglySorted Z.lt ends /\ forall v e, epoch_ends self v = Some e <-> 0 <= e /\ ends !! Z.to_nat e = Some v.

Lemma sorted_before (ends : list Version) : StronglySorted Z.lt ends -> forall (i j : nat) v w,
  ends !! i = Some v -> ends !! j = Some w -> (i < j)%nat -> v < w.
Proof.
  induction 1 as [|x ends Hs IH Hx]; intros i j v w Hi Hj Hij; [done|].
  destruct j as [|j]; [lia|]. cbn in Hj. destruct i as [|i]; cbn in Hi.
  - injection Hi as ->. rewrite Forall_forall in Hx. apply Hx. by eapply list_elem_of_lookup_2.
  - eapply (IH i j); [done|done|lia].
Qed.

(** The number of epochs that ended before a version is known from the last end up to it. *)
Lemma count_ends (ends : list Version) (m : Version -> option Z) w o : StronglySorted Z.lt ends ->
  (forall v e, m v = Some e <-> 0 <= e /\ ends !! Z.to_nat e = Some v) -> last_upto m w o ->
  Z.of_nat (length (filter (fun v => v < w) ends)) =
    match o with None => 0 | Some (v, e) => if v <? w then e + 1 else e end.
Proof.
  intros Hs Hm Ho. destruct o as [[v e]|]; cbn [last_upto] in Ho.
  - destruct Ho as (Hv & Hle & Hmax). apply Hm in Hv as [He Hi].
    pose proof (take_drop_middle _ _ _ Hi) as Esplit. rewrite <- Esplit, filter_app, length_app.
    assert (Hlen : (Z.to_nat e < length ends)%nat) by (by eapply lookup_lt_Some).
    rewrite filter_all.
    2:{ apply Forall_forall. intros x Hx. apply list_elem_of_lookup in Hx as (i & Hx). apply lookup_take_Some in Hx as [Hx Hlt].
        pose proof (sorted_before ends Hs i (Z.to_nat e) x v Hx Hi Hlt). lia. }
    rewrite length_take, (proj2 (Nat.min_l_iff _ _)) by lia.
    assert (Hno : filter (fun x => x < w) (drop (S (Z.to_nat e)) ends) = []).
    { apply filter_none, Forall_forall. intros x Hx. apply list_elem_of_lookup in Hx as (i & Hx). rewrite lookup_drop in Hx.
      pose proof (sorted_before ends Hs _ _ v x Hi Hx ltac:(lia)) as Hgt. intros Hlt.
      assert (Hx' : m x = Some (Z.of_nat (S (Z.to_nat e) + i))) by (apply Hm; split; [lia|by rewrite Nat2Z.id]).
      specialize (Hmax x _ Hx'). lia. }
    destruct (Z.ltb_spec v w).
    + rewrite filter_cons_True by done. rewrite Hno. cbn [length]. lia.
    + rewrite filter_cons_False by lia. rewrite Hno. cbn [length]. lia.
  - rewrite filter_none; [done|]. apply Forall_forall. intros x Hx. apply list_elem_of_lookup in Hx as (i & Hx).
    assert (Hx' : m x = Some (Z.of_nat i)) by (apply Hm; split; [lia|by rewrite Nat2Z.id]). apply Ho in Hx'. lia.
Qed.

(** The entry of an epoch that ends. *)
Lemma put_ledger_info_epochs (d : ledger_view HV ES SG) li v :
  lv_epochs (fold_left apply_ledger_op (put_ledger_info li) d) v =
    if ends_epoch (ledger_info li) then (if decide (v = LedgerInfo_version (ledger_info li)) then Some (LedgerInfo_epoch (ledger_info li)) else lv_epochs d v) else lv_epochs d v.
Proof. unfold put_ledger_info. by destruct (ends_epoch (ledger_info li)). Qed.

(** Only the entries of epochs that end change the ends. *)
Lemma write_ledger_info_ends self self' r li : lmd_write_schemas (put_ledger_info li) self = (self', r) ->
  forall v, epoch_ends self' v =
    if is_ok r && ends_epoch (ledger_info li) then (if decide (v = LedgerInfo_version (ledger_info li)) then Some (LedgerInfo_epoch (ledger_info li)) else epoch_ends self v)
    else epoch_ends self v.
Proof.
  intros E v. unfold lmd_write_schemas in E. destruct (ldb_write_schemas _ (lmd_db self)) as [db r'] eqn:Ew.
  injection E as <- ->. apply ldb_write_schemas_spec in Ew. unfold epoch_ends. cbn [lmd_db].
  destruct r as [[]| |]; cbn [is_ok andb]; [|by rewrite Ew..]. destruct Ew as (Ee & _). rewrite Ee. apply put_ledger_info_epochs.
Qed.

Lemma write_usage_ends self self' r version usage : put_usage version usage self = (self', r) ->
  forall v, epoch_ends self' v = epoch_ends self v.
Proof.
  intros E v. unfold put_usage, lmd_write_schemas in E. destruct (ldb_write_schemas _ (lmd_db self)) as [db r'] eqn:Ew.
  injection E as <- ->. apply ldb_write_schemas_spec in Ew. unfold epoch_ends. cbn [lmd_db].
  destruct r as [[]| |]; [|by rewrite Ew..]. destruct Ew as (Ee & _). apply Ee.
Qed.
End Facts.
