(* ===== verification/LedgerMetadataTheorems.v ===== *)
(** * Epochs and usage: theorems *)
From stdpp Require Import base list numbers strings option gmap sorting.
From Stdlib Require Import ZArith Lia Bool Sorted.
From S2P Require Import Prelude Hash ToyHash AccumulatorProof ByteCodec NibblePath JellyfishNode JellyfishNodeFacts JellyfishTree StateMerkleDb LedgerMetadata LedgerMetadataFacts.

Section LedgerTheorems.
Context {HV ES SG LDB : Type} `{LedgerDb HV ES SG LDB} `{!LedgerDbLaws HV ES SG LDB}.
Implicit Types (self : LedgerMetadataDb HV ES SG LDB).

(** C28: The index of the epoch ends gives the epoch of every version: [get_epoch] is the
    number of epochs that ended before it, and [put_ledger_info] of a ledger info that
    ends the next epoch, at a later version, keeps the index so. *)
Theorem epoch_of_version self ends : ledger_reads_work (LDB := LDB) -> epochs_are self ends -> Z.of_nat (length ends) < U64 ->
  (forall version, u64_ok version ->
    get_epoch self version = Ok (Z.of_nat (length (filter (fun v => v < version) ends)))) /\
  (forall li self', lmd_write_schemas (put_ledger_info li) self = (self', Ok tt) -> ends_epoch (ledger_info li) = true ->
    LedgerInfo_epoch (ledger_info li) = Z.of_nat (length ends) -> Forall (fun v => v < LedgerInfo_version (ledger_info li)) ends ->
    epochs_are self' (ends ++ [LedgerInfo_version (ledger_info li)])).
Proof.
  intros (_ & _ & _ & Hw & _) [Hs Hm] Hlen. split.
  - intros version Hu. unfold get_epoch. destruct (Hw (lmd_db self) (Version_encode_key version)) as (l & E).
    rewrite E, obind_Ok, next_item_works, obind_Ok. apply ldb_epochs_for_prev_spec in E.
    assert (Hl : last_upto (epoch_ends self) version (head l)).
    { eapply seeks_prev_last; [intros v x; apply lview_epochs_ok|done|exact E|apply next_item_works]. }
    rewrite (count_ends ends (epoch_ends self) version (head l) Hs Hm Hl). destruct l as [|[v e] l]; cbn [head] in *; [done|].
    destruct Hl as (Hv & Hle & _). apply Hm in Hv as [He Hi]. apply lookup_lt_Some in Hi.
    rewrite (proj2 (Z.leb_le _ _)) by lia. cbn [ensure]. rewrite obind_Ok. destruct (v <? version); [|done].
    apply add64_Ok. lia.
  - intros li self' E Hend He Hbelow. split.
    + clear -Hs Hbelow. induction Hs as [|x ends Hs IH Hx]; cbn [app]; [repeat constructor|].
      apply Forall_cons in Hbelow as [Hx' Hbelow]. constructor; [by apply IH|]. apply Forall_app. by rewrite Forall_singleton.
    + intros v e. rewrite (write_ledger_info_ends _ _ _ _ E), Hend. cbn [is_ok andb]. case_decide as Ev.
      * subst v. split.
        -- intros [= <-]. rewrite He, Nat2Z.id, lookup_app_r, Nat.sub_diag by lia. split; [lia|done].
        -- intros [He0 Hi]. f_equal. apply lookup_app_Some in Hi as [Hi|[Hge Hi]].
           ++ exfalso. rewrite Forall_forall in Hbelow. apply list_elem_of_lookup_2, Hbelow in Hi. lia.
           ++ apply list_lookup_singleton_Some in Hi as [Hi _]. lia.
      * rewrite Hm. split; intros [He0 Hi]; (split; [done|]).
        -- by apply lookup_app_l_Some.
        -- apply lookup_app_Some in Hi as [Hi|[Hge Hi]]; [done|]. apply list_lookup_singleton_Some in Hi as [_ Hi]. congruence.
Qed.

(** The usage of a version is read back as it was written; usage that is not tracked is
    read back as none. *)
Lemma usage_roundtrip self self' version usage : ledger_reads_work (LDB := LDB) ->
  put_usage version usage self = (self', Ok tt) ->
  get_usage self' version = Ok (if StateStorageUsage.is_untracked usage then StateStorageUsage.zero else usage).
Proof.
  intros (_ & _ & Hw & _) E. unfold put_usage, lmd_write_schemas in E.
  destruct (ldb_write_schemas _ (lmd_db self)) as [db r] eqn:Ew. injection E as <- ->.
  apply ldb_write_schemas_spec in Ew as (_ & _ & Ed). specialize (Ed version). cbn in Ed. rewrite decide_True in Ed by done.
  unfold get_usage. cbn [lmd_db]. specialize (Hw db version). destruct (ldb_version_data db version) as [o| |] eqn:Eo; [|discriminate Hw..].
  rewrite obind_Ok, (ldb_version_data_spec _ _ _ Eo), Ed. cbn [ok_or]. rewrite obind_Ok. by destruct usage.
Qed.
End LedgerTheorems.

(** ** A ledger database in memory *)
Section MemoryLedger.
Context {HV ES SG : Type}.

Record memory_ledger := mkMemoryLedger {
  ml_epochs : gmap Z Z;
  ml_infos : gmap Z (LedgerInfoWithSignatures HV ES SG);
  ml_data : gmap Z VersionData;
}.

(** Keys of eight bytes. *)
Definition u64_key {A} (m : gmap Z A) (v : Z) : option A := if (0 <=? v) && (v <? U64) then m !! v else None.

Definition ledger_op (d : memory_ledger) (op : LedgerOp HV ES SG) : memory_ledger :=
  match op with
  | Put_epoch v e => mkMemoryLedger (<[v := e]> (ml_epochs d)) (ml_infos d) (ml_data d)
  | Put_ledger_info e li => mkMemoryLedger (ml_epochs d) (<[e := li]> (ml_infos d)) (ml_data d)
  | Put_version_data v x => mkMemoryLedger (ml_epochs d) (ml_infos d) (<[v := x]> (ml_data d))
  end.

Definition op_key_ok (op : LedgerOp HV ES SG) : bool :=
  match op with Put_epoch v _ | Put_version_data v _ => (0 <=? v) && (v <? U64) | Put_ledger_info _ _ => true end.

(** The last key up to [seek]. *)
Definition key_max {A} (seek : list Z) (m : gmap Z A) : option (Z * A) :=
  fold_right (fun kv best =>
      match u64_key m (fst kv), lex_compare (Version_encode_key (fst kv)) seek with
      | None, _ | _, Gt => best
      | _, _ => match best with Some (w, y) => if w <? fst kv then Some kv else best | None => Some kv end
      end) None (map_to_list m).

#[export] Instance memory_ledger_db : LedgerDb HV ES SG memory_ledger := {|
  ldb_epoch := fun d v => Ok (u64_key (ml_epochs d) v);
  ldb_ledger_info := fun d e => Ok (ml_infos d !! e);
  ldb_version_data := fun d v => Ok (u64_key (ml_data d) v);
  ldb_epochs_for_prev := fun d seek => Ok (map Ok (option_list (key_max seek (ml_epochs d))));
  ldb_data_for_prev := fun d seek => Ok (map Ok (option_list (key_max seek (ml_data d))));
  ldb_write_schemas := fun batch d =>
    if forallb op_key_ok batch then (fold_left ledger_op batch d, Ok tt) else (d, Err "invalid key");
|}.

Lemma u64_key_Some {A} (m : gmap Z A) v x : u64_key m v = Some x <-> u64_ok v /\ m !! v = Some x.
Proof.
  unfold u64_key, u64_ok. destruct (Z.leb_spec 0 v), (Z.ltb_spec v U64); cbn [andb]; [tauto|..];
    (split; [discriminate|intros [? _]; lia]).
Qed.

Lemma key_max_seeks {A} (m : gmap Z A) seek : seeks_prev (u64_key m) seek (map Ok (option_list (key_max seek m))).
Proof.
  unfold key_max.
  assert (Hgen : forall l, (forall kv, kv ∈ l -> m !! fst kv = Some (snd kv)) ->
    match fold_right (fun kv best =>
      match u64_key m (fst kv), lex_compare (Version_encode_key (fst kv)) seek with
      | None, _ | _, Gt => best
      | _, _ => match best with Some (w, y) => if w <? fst kv then Some kv else best | None => Some kv end
      end) None l with
    | Some (v, x) => u64_key m v = Some x /\ lex_compare (Version_encode_key v) seek <> Gt /\
        forall w y, (w, y) ∈ l -> u64_ok w -> lex_compare (Version_encode_key w) seek <> Gt -> w <= v
    | None => forall w y, (w, y) ∈ l -> u64_ok w -> lex_compare (Version_encode_key w) seek = Gt
    end).
  { induction l as [|[k x] l IH]; intros Hl; cbn [fold_right fst].
    - intros w y Hw. by apply not_elem_of_nil in Hw.
    - specialize (IH (fun kv Hkv => Hl kv (list_elem_of_further _ _ _ Hkv))).
      pose proof (Hl (k, x) (list_elem_of_here _ _)) as Hk. cbn [fst snd] in Hk.
      destruct (u64_key m k) as [x'|] eqn:Eu.
      + apply u64_key_Some in Eu as Hu. destruct Hu as [Hu Ex]. assert (x' = x) as -> by congruence.
        destruct (lex_compare (Version_encode_key k) seek) eqn:Ec;
          destruct (fold_right _ None l) as [[w y]|]; try (destruct (Z.ltb_spec w k)).
        all: repeat match goal with Hx : _ /\ _ |- _ => destruct Hx end.
        all: split_and? || idtac.
        all: try congruence.
        all: try (intros w' y' Hin Hu' Hc; apply elem_of_cons in Hin as [[= -> ->]|Hin]; [try lia; congruence|]).
        all: try (match goal with Hx : forall w y, _ -> _ -> _ -> w <= _ |- _ => specialize (Hx _ _ Hin Hu' Hc); lia end).
        all: try (exfalso; match goal with Hx : forall w y, _ -> _ -> _ = Gt |- _ => by specialize (Hx _ _ Hin Hu') end).
        intros w' y' Hin Hu'. apply elem_of_cons in Hin as [[= -> ->]|Hin]; [done|by eapply IH].
      + assert (Hnk : ~ u64_ok k) by (intros Hu; assert (u64_key m k = Some x) by (by apply u64_key_Some); congruence).
        destruct (fold_right _ None l) as [[w y]|].
        * destruct IH as (I1 & I2 & I3). split_and!; [done|done|]. intros w' y' Hin Hu' Hc.
          apply elem_of_cons in Hin as [[= -> ->]|Hin]; [done|by eapply I3].
        * intros w' y' Hin Hu'. apply elem_of_cons in Hin as [[= -> ->]|Hin]; [done|by eapply IH]. }
  specialize (Hgen (map_to_list m)). destruct (fold_right _ None (map_to_list m)) as [[v x]|]; cbn [option_list map seeks_prev].
  - destruct Hgen as (Hv & Hle & Hmax); [intros [k y] Hky; by apply elem_of_map_to_list in Hky|].
    split_and!; [done|done|]. intros w y Hw Hc. apply u64_key_Some in Hw as [Hu Hw], Hv as [Hu' _].
    rewrite Version_key_order by done. apply elem_of_map_to_list in Hw. specialize (Hmax _ _ Hw Hu Hc). unfold Z.le in Hmax. done.
  - intros w y Hw. apply u64_key_Some in Hw as [Hu Hw]. apply elem_of_map_to_list in Hw.
    eapply Hgen; [intros [k z] Hkz; by apply elem_of_map_to_list in Hkz|exact Hw|done].
Qed.

Definition memory_lview (d : memory_ledger) : ledger_view HV ES SG :=
  mkLedgerView (u64_key (ml_epochs d)) (fun e => ml_infos d !! e) (u64_key (ml_data d)).

Lemma u64_key_insert {A} (m : gmap Z A) v x w : (0 <=? v) && (v <? U64) = true ->
  u64_key (<[v := x]> m) w = if decide (w = v) then Some x else u64_key m w.
Proof.
  intros Hv. unfold u64_key. case_decide as E; [subst w; by rewrite Hv, lookup_insert_eq|]. by rewrite lookup_insert_ne.
Qed.

Lemma ledger_ops_view batch : forall d v, forallb op_key_ok batch = true -> same_ledger (memory_lview d) v ->
  same_ledger (memory_lview (fold_left ledger_op batch d)) (fold_left apply_ledger_op batch v).
Proof.
  induction batch as [|op batch IH]; intros d v Hok (E1 & E2 & E3); [done|]. cbn [forallb] in Hok.
  apply andb_true_iff in Hok as [Hop Hok]. cbn [fold_left]. apply IH; [done|].
  destruct op as [w e|e li|w x]; split_and!; cbn [memory_lview ledger_op apply_ledger_op lv_epochs lv_infos lv_data ml_epochs ml_infos ml_data];
    try done; intros y.
  - rewrite u64_key_insert by done. case_decide; [done|]. apply E1.
  - case_decide as E; [subst y; by rewrite lookup_insert_eq|]. rewrite lookup_insert_ne by done. apply E2.
  - rewrite u64_key_insert by done. case_decide; [done|]. apply E3.
Qed.

#[export] Instance memory_ledger_laws : LedgerDbLaws HV ES SG memory_ledger.
Proof.
  refine {| lview := memory_lview |}.
  - intros db v e Hv. by apply u64_key_Some in Hv as [? _].
  - intros db v e Hv. by apply u64_key_Some in Hv as [? _].
  - intros db v o [= <-]. done.
  - intros db v o [= <-]. done.
  - intros db v o [= <-]. done.
  - intros db seek items [= <-]. apply key_max_seeks.
  - intros db seek items [= <-]. apply key_max_seeks.
  - intros batch db db' r E. cbn [ldb_write_schemas memory_ledger_db] in E. destruct (forallb op_key_ok batch) eqn:Hok; injection E as <- <-.
    + by apply ledger_ops_view.
    + done.
Defined.

Lemma memory_ledger_works : ledger_reads_work (LDB := memory_ledger).
Proof. split_and!; try done; intros db seek; by eexists. Qed.
End MemoryLedger.
Arguments memory_ledger HV ES SG : clear implicits.

(** The end of an epoch. *)
Definition toy_ledger_info (epoch version : Z) : LedgerInfoWithSignatures bytes32 unit unit :=
  mkLedgerInfoWithSignatures (mkLedgerInfo (mkBlockInfo epoch 0 (of_num 0) (of_num 0) version 0 (Some tt)) (of_num 0)) tt.

(** Epoch 0 ended at version 0 and epoch 1 at version 7; epoch 2 ends at version 12. *)
Definition toy_ledger : LedgerMetadataDb bytes32 unit unit (memory_ledger bytes32 unit unit) :=
  mkLedgerMetadataDb (mkMemoryLedger (<[7 := 1]> (<[0 := 0]> ∅)) ∅ ∅) None.

Lemma toy_ledger_epochs : epochs_are toy_ledger [0; 7].
Proof.
  split; [repeat constructor|]. intros v e. unfold epoch_ends. cbn [lview memory_ledger_laws memory_lview lv_epochs toy_ledger lmd_db ml_epochs].
  rewrite u64_key_Some. split.
  - intros [_ Hv]. destruct (decide (v = 7)) as [->|]; [rewrite lookup_insert_eq in Hv; by injection Hv as <-|].
    rewrite lookup_insert_ne in Hv by done. destruct (decide (v = 0)) as [->|]; [rewrite lookup_insert_eq in Hv; by injection Hv as <-|].
    by rewrite lookup_insert_ne, lookup_empty in Hv.
  - intros [He Hi]. destruct (Z.to_nat e) as [|[|i]] eqn:Ei; cbn in Hi; [| |done]; injection Hi as <-.
    + assert (e = 0) as -> by lia. split; [unfold u64_ok, U64; lia|done].
    + assert (e = 1) as -> by lia. split; [unfold u64_ok, U64; lia|done].
Qed.

Lemma epoch_of_version_witness : get_epoch toy_ledger 9 = Ok 2 /\ exists self' : LedgerMetadataDb bytes32 unit unit (memory_ledger bytes32 unit unit), epochs_are self' [0; 7; 12].
Proof.
  destruct (epoch_of_version toy_ledger [0; 7] memory_ledger_works toy_ledger_epochs ltac:(unfold U64; cbn; lia)) as [Hg Hp]. split.
  - exact (Hg 9 ltac:(unfold u64_ok, U64; lia)).
  - eexists. exact (Hp (toy_ledger_info 2 12) _ eq_refl eq_refl eq_refl ltac:(repeat constructor)).
Defined.
