(* ===== verification/StateRestore.v ===== *)
(** * Restoring the state: the tree and the values

    Model of [storage/aptosdb/src/state_restore/mod.rs]: a snapshot of the state comes in
    chunks of keys and values; the values go to the key-value database, with a record of
    the last key, and their hashes to the restore of the tree.  The chunks come from
    [get_value_chunk_with_proof] of [storage/aptosdb/src/state_store/mod.rs].

    The two parts of a chunk run in parallel; they work on different databases, so their
    order does not matter. *)
From stdpp Require Import base list numbers strings option gmap.
From Stdlib Require Import ZArith Lia Bool.
From S2P Require Import Prelude Hash AccumulatorProof SparseMerkleProof NibblePath ByteCodec JellyfishNode JellyfishTree JellyfishIterator JellyfishRestore LedgerMetadata.

(** [Value]: its size and its hash; [Key::key_size]. *)
Class StateValueOps (HV K V : Type) := {
  key_size : K -> Z;
  value_size : V -> Z;
  hash_of_value : V -> HV;
}.

(** [StateSnapshotProgress] *)
Record StateSnapshotProgress (HV : Type) := mkStateSnapshotProgress {
  sp_key_hash : HV;
  sp_usage : StateStorageUsage;
}.
Arguments mkStateSnapshotProgress {HV}.
Arguments sp_key_hash {HV}.
Arguments sp_usage {HV}.

(** [StateValueWriter] *)
Class StateValueWriter (HV K V KS : Type) `{Countable K} := {
  write_kv_batch : Version -> gmap (K * Version) (option V) -> StateSnapshotProgress HV -> prog KS unit;
  kv_finish : Version -> StateStorageUsage -> prog KS unit;
  kv_get_progress : KS -> Version -> outcome (option (StateSnapshotProgress HV));
}.

(** [get_state_value_by_version] of [DbReader] *)
Class StateValueReader (K V SV : Type) := {
  get_state_value_by_version : SV -> K -> Version -> outcome (option V);
}.

Inductive StateSnapshotRestoreMode := RestoreMode_Default | RestoreMode_KvOnly | RestoreMode_TreeOnly.

Section StateRestore.
Context {HV : Type} `{HashValueOps HV} `{HashValueBits HV} `{CryptoHasher HV} `{LeafHasher HV}
  `{HashValueKeys HV} {K : Type} `{Countable K} `{KeyHash HV K} {V : Type} `{!StateValueOps HV K V}.

(** ** [StateValueRestore] *)
Section Values.
Context {KS : Type} `{!StateValueWriter HV K V KS}.

(** The part of the chunk after the last key that was written. *)
Definition skip_overlap (progress_opt : option (StateSnapshotProgress HV)) (chunk : list (K * V)) : list (K * V) :=
  match progress_opt with
  | Some progress =>
      let idx := default (length chunk)
        (find_position (fun kv => match hv_cmp (key_hash (fst kv)) (sp_key_hash progress) with Gt => true | _ => false end) chunk) in
      drop idx chunk
  | None => chunk
  end.

(** The sizes of the keys and values are added up. *)
Fixpoint add_usage (chunk : list (K * V)) (usage : StateStorageUsage) : outcome StateStorageUsage :=
  match chunk with
  | [] => Ok usage
  | (k, v) :: chunk =>
      n ← add64 (key_size k) (value_size v);
      usage ← StateStorageUsage.add_item n usage;
      add_usage chunk usage
  end.

(** Of two entries for the same key, the last one is kept. *)
Definition kv_batch_of (version : Version) (chunk : list (K * V)) : gmap (K * Version) (option V) :=
  fold_left (fun batch kv => <[(fst kv, version) := Some (snd kv)]> batch) chunk ∅.

Definition kv_add_chunk (version : Version) (chunk : list (K * V)) : prog KS unit :=
  progress_opt <~ reading (fun db => kv_get_progress db version);
  let chunk := skip_overlap progress_opt chunk in
  match list.last chunk with
  | None => pret tt
  | Some (last_key, _) =>
      let usage := match progress_opt with Some p => sp_usage p | None => StateStorageUsage.zero end in
      usage <~ reading (fun _ => add_usage chunk usage);
      write_kv_batch version (kv_batch_of version chunk) (mkStateSnapshotProgress (key_hash last_key) usage)
  end.

Definition kv_restore_finish (version : Version) : prog KS unit :=
  progress <~ reading (fun db => kv_get_progress db version);
  kv_finish version (match progress with Some p => sp_usage p | None => StateStorageUsage.zero end).

Definition kv_previous_key_hash (version : Version) (db : KS) : outcome (option HV) :=
  progress ← kv_get_progress db version;
  Ok (option_map sp_key_hash progress).
End Values.

(** ** [StateSnapshotRestore] *)
Section Snapshot.
Context {KS : Type} `{!StateValueWriter HV K V KS} {ST : Type} `{TreeStore HV K ST}.

(** The key-value database, and the tree database with the restore of the tree. *)
Definition restore_world : Type := KS * (ST * JellyfishMerkleRestore HV K).

Definition in_kv {A} (m : prog KS A) : prog restore_world A := fun w =>
  let '(ks, r) := m (fst w) in ((ks, snd w), r).

Definition in_tree {A} (m : prog (ST * JellyfishMerkleRestore HV K) A) : prog restore_world A := fun w =>
  let '(ts, r) := m (snd w) in ((fst w, ts), r).

(** [IO_POOL.join]: both are run; a panic of one is passed on. *)
Definition io_join {A B} (f : prog KS A) (g : prog (ST * JellyfishMerkleRestore HV K) B) : prog restore_world (outcome A * outcome B) := fun w =>
  let '(ks, r1) := f (fst w) in
  let '(ts, r2) := g (snd w) in
  ((ks, ts),
   match r1, r2 with
   | Panic e, _ => Panic e
   | _, Panic e => Panic e
   | _, _ => Ok (r1, r2)
   end).

(** The chunk for the tree: the keys with the hashes of the values. *)
Definition hashed_chunk (chunk : list (K * V)) : list (K * HV) := map (fun kv => (fst kv, hash_of_value (snd kv))) chunk.

Definition ssr_add_chunk (mode : StateSnapshotRestoreMode) (version : Version) (chunk : list (K * V)) (proof : SparseMerkleRangeProof HV) : prog restore_world unit :=
  let kv_fn := kv_add_chunk version chunk in
  let tree_fn := add_chunk_impl (hashed_chunk chunk) proof in
  match mode with
  | RestoreMode_KvOnly => in_kv kv_fn
  | RestoreMode_TreeOnly => in_tree tree_fn
  | RestoreMode_Default =>
      rs <~ io_join kv_fn tree_fn;
      _ <~ reading (fun _ => fst rs);
      reading (fun _ => snd rs)
  end.

Definition ssr_finish (mode : StateSnapshotRestoreMode) (version : Version) : prog restore_world unit :=
  match mode with
  | RestoreMode_KvOnly => in_kv (kv_restore_finish version)
  | RestoreMode_TreeOnly => in_tree finish_impl
  | RestoreMode_Default => _ <~ in_kv (kv_restore_finish version); in_tree finish_impl
  end.

(** [std::cmp::min] *)
Definition hv_min (a b : HV) : HV := match hv_cmp b a with Lt => b | _ => a end.

Definition ssr_previous_key_hash (all_ones : HV) (version : Version) (w : restore_world) : outcome (option HV) :=
  kv ← kv_previous_key_hash version (fst w);
  Ok (match kv, previous_key_hash all_ones (snd (snd w)) with
      | None, hash_opt => hash_opt
      | hash_opt, None => hash_opt
      | Some hash1, Some hash2 => Some (hv_min hash1 hash2)
      end).

Definition ssr_wait_for_async_commit : prog restore_world unit := in_tree wait_for_async_commit.
End Snapshot.

(** ** The chunks that are served *)
Section Serving.
Context {SV : Type} `{!StateValueReader K V SV}.

Definition expect_value_by_version (db : SV) (state_key : K) (version : Version) : outcome V :=
  o ← get_state_value_by_version db state_key version;
  ok_or o "State Value is missing for key by version".

(** [StateValueChunkWithProof] *)
Record StateValueChunkWithProof := mkStateValueChunkWithProof {
  sc_first_index : Z;
  sc_last_index : Z;
  sc_first_key : HV;
  sc_last_key : HV;
  sc_raw_values : list (K * V);
  sc_proof : SparseMerkleRangeProof HV;
  sc_root_hash : HV;
}.

Definition is_last_chunk (self : StateValueChunkWithProof) : bool :=
  forallb (fun sibling => bool_decide (sibling = SPARSE_MERKLE_PLACEHOLDER_HASH)) (srp_right_siblings (sc_proof self)).

(** The next [n] leaves with their values; the first error ends it. *)
Fixpoint take_values (n : nat) (reader : TreeReader HV K) (db : SV) (iter : JellyfishMerkleIterator (HV := HV)) : outcome (list (K * V)) :=
  match n with
  | O => Ok []
  | S n =>
      r ← jmi_next reader iter;
      match fst r with
      | None => Ok []
      | Some (inr e) => Err e
      | Some (inl (_, (key, version))) =>
          value ← expect_value_by_version db key version;
          rest ← take_values n reader db (snd r);
          Ok ((key, value) :: rest)
      end
  end.

Definition get_value_chunk_with_proof (reader : TreeReader HV K) (db : SV) (version : Version) (first_index chunk_size : Z)
  : outcome StateValueChunkWithProof :=
  result_iter ← jmi_new_by_index reader version first_index;
  state_key_values ← take_values (Z.to_nat chunk_size) reader db result_iter;
  _ ← ensure (negb (length state_key_values =? 0)%nat) "State chunk starting at";
  last_index ← add64 (Z.of_nat (length state_key_values) - 1) first_index;
  first ← expect (head state_key_values) "checked to exist";
  last ← expect (list.last state_key_values) "checked to exist";
  let last_key := key_hash (fst last) in
  proof ← jmt_get_range_proof reader last_key version;
  root_hash ← jmt_get_root_hash reader version;
  Ok (mkStateValueChunkWithProof first_index last_index (key_hash (fst first)) last_key state_key_values proof root_hash).
End Serving.
End StateRestore.
Arguments StateValueChunkWithProof : clear implicits.
