(* ===== verification/StateRestoreFacts.v ===== *)
(** * Restoring the state: lemmas

    What the key-value database holds after the chunks so far; the tree and the values
    advance together; the chunks that a node serves are those of its tree, in the order of
    the keys, with the proof of the last key, and the last chunk is the one that ends at the
    last key. *)
From stdpp Require Import base list numbers strings option gmap sorting.
From Stdlib Require Import ZArith Lia Bool Sorted.
From S2P Require Import Prelude Hash AccumulatorProof SparseMerkleProof SparseSpec SparseFacts SparseClash NibblePath NibblePathFacts ByteCodec JellyfishNode JellyfishNodeFacts JellyfishHash JellyfishSpec JellyfishTree JellyfishRead JellyfishRuns JellyfishBatch JellyfishUpdate JellyfishCommit JellyfishHistory JellyfishIterator JellyfishIterate JellyfishRestore JellyfishRestoreFacts JellyfishRestoreAdd JellyfishRestoreVerify JellyfishRestoreSound JellyfishRestoreChunks JellyfishRestoreFinish JellyfishRestoreRun LedgerMetadata StateRestore.

(** What the restore relies on of the key-value database: a batch is written with its
    progress; after a failure each value may be written or not, and the progress is not;
    what is read is what was written. *)
Class StateValueWriterLaws (HV K V KS : Type) `{StateValueWriter HV K V KS} := {
  kv_values : KS -> K * Version -> option (option V);
  kv_progress : KS -> Version -> option (StateSnapshotProgress HV);
  kv_usage : KS -> Version -> option StateStorageUsage;
  kv_get_progress_spec : forall ks v o, kv_get_progress ks v = Ok o -> o = kv_progress ks v;
  write_kv_batch_spec : forall v batch p ks,
    let '(ks', r) := write_kv_batch v batch p ks in
    match r with
    | Ok _ => (forall k, kv_values ks' k = match batch !! k with Some o => Some o | None => kv_values ks k end) /\
        (forall u, kv_progress ks' u = if decide (u = v) then Some p else kv_progress ks u)
    | _ => (forall k, kv_values ks' k = kv_values ks k \/ (kv_values ks' k = batch !! k /\ is_Some (batch !! k))) /\
        (forall u, kv_progress ks' u = kv_progress ks u)
    end;
  kv_finish_spec : forall v usage ks,
    let '(ks', r) := kv_finish v usage ks in
    (forall k, kv_values ks' k = kv_values ks k) /\
    (r = Ok tt -> kv_usage ks' v = Some usage);
}.

Section StateRestoreFacts.
Context {HV : Type} `{HashValueOps HV} `{HashValueBits HV} `{!HashValueLaws HV} `{CryptoHasher HV}
  `{LeafHasher HV} `{HashValueKeys HV} `{!HashValueKeysLaws HV} {K : Type} `{Countable K} `{KeyHash HV K}
  {V : Type} `{!StateValueOps HV K V} {KS : Type} `{!StateValueWriter HV K V KS} `{!StateValueWriterLaws HV K V KS}.
Context (v : Version).
Implicit Types (items chunk c : list (K * V)) (ks : KS).

(** ** The values *)
Definition size_of chunk : Z := foldr (fun kv n => key_size (fst kv) + value_size (snd kv) + n) 0 chunk.

Definition usage_of items : StateStorageUsage := Tracked (Z.of_nat (length items)) (size_of items).

Definition progress_of items : option (StateSnapshotProgress HV) :=
  match list.last items with
  | None => None
  | Some kv => Some (mkStateSnapshotProgress (key_hash (fst kv)) (usage_of items))
  end.

Record kv_received items ks : Prop := {
  kr_values : forall k x, (k, x) ∈ items -> kv_values ks (k, v) = Some (Some x);
  kr_progress : kv_progress ks v = progress_of items;
}.

Lemma size_of_app a b : size_of (a ++ b) = size_of a + size_of b.
Proof. induction a as [|kv a IH]; [done|]. cbn. unfold size_of in *. lia. Qed.

Lemma size_nonneg items : Forall (fun kv => 0 <= key_size (fst kv) /\ 0 <= value_size (snd kv)) items -> 0 <= size_of items.
Proof. induction 1 as [|kv l [Hk Hx] _ IHl]; [done|]. unfold size_of in *. cbn. lia. Qed.

Lemma add_usage_app : forall chunk items u, add_usage chunk (usage_of items) = Ok u -> u = usage_of (items ++ chunk).
Proof.
  induction chunk as [|[k x] chunk IH]; intros items u E; cbn [add_usage] in E.
  - injection E as <-. by rewrite app_nil_r.
  - apply bind_Ok in E as (n & En & E). apply bind_Ok in E as (u1 & E1 & E). unfold add64 in En. destruct (_ <? U64); [|done]. injection En as <-.
    unfold usage_of at 1, StateStorageUsage.add_item in E1. apply bind_Ok in E1 as (n1 & En1 & E1). apply bind_Ok in E1 as (n2 & En2 & E1). injection E1 as <-.
    unfold add64 in En1, En2. destruct (Z.of_nat (length items) + 1 <? U64); [|done]. injection En1 as <-. destruct (_ <? U64); [|done]. injection En2 as <-.
    assert (Eu : Tracked (Z.of_nat (length items) + 1) (size_of items + (key_size k + value_size x)) = usage_of (items ++ [(k, x)])).
    { unfold usage_of. rewrite length_app, size_of_app. cbn. f_equal; lia. }
    rewrite Eu in E. apply IH in E. by rewrite <- app_assoc in E.
Qed.

Lemma add_usage_works : forall chunk items, Forall (fun kv => 0 <= key_size (fst kv) /\ 0 <= value_size (snd kv)) (items ++ chunk) ->
  Z.of_nat (length items + length chunk) < U64 -> size_of (items ++ chunk) < U64 -> add_usage chunk (usage_of items) = Ok (usage_of (items ++ chunk)).
Proof.
  intros chunk items Hpos Hl Hs. assert (Hex : exists u, add_usage chunk (usage_of items) = Ok u); [|destruct Hex as [u E]; rewrite E; f_equal; by apply add_usage_app].
  revert items Hpos Hl Hs. induction chunk as [|[k x] chunk IH]; intros items Hpos Hl Hs; cbn [add_usage]; [by eexists|].
  pose proof Hpos as [Hpi Hpc]%Forall_app. pose proof Hpc as [[Hk Hx] Hpc']%Forall_cons. cbn [fst snd] in *. pose proof (size_nonneg _ Hpi) as Hi0. pose proof (size_nonneg _ Hpc') as Hc0.
  rewrite size_of_app in Hs. assert (Es : size_of ((k, x) :: chunk) = key_size k + value_size x + size_of chunk) by done. rewrite Es in Hs. cbn [length] in Hl.
  rewrite add64_Ok, obind_Ok by lia. cbn [StateStorageUsage.add_item usage_of].
  rewrite (add64_Ok (Z.of_nat (length items))), obind_Ok by lia. rewrite (add64_Ok (size_of items)), !obind_Ok by lia.
  replace (Tracked (Z.of_nat (length items) + 1) (size_of items + (key_size k + value_size x))) with (usage_of (items ++ [(k, x)])).
  2:{ unfold usage_of. rewrite length_app, size_of_app. cbn. f_equal; lia. }
  apply IH; [by rewrite <- app_assoc|rewrite length_app; cbn; lia|]. rewrite <- app_assoc, size_of_app. cbn [app]. rewrite Es. lia.
Qed.

Lemma kv_batch_lookup : forall chunk (batch : gmap (K * Version) (option V)) k x, NoDup (map fst chunk) ->
  (k, x) ∈ chunk -> fold_left (fun batch kv => <[(fst kv, v) := Some (snd kv)]> batch) chunk batch !! (k, v) = Some (Some x).
Proof.
  induction chunk as [|[k0 x0] chunk IH]; intros batch k x Hnd Hin; [by apply not_elem_of_nil in Hin|]. cbn [map fst] in Hnd. apply NoDup_cons in Hnd as [Hk Hnd]. cbn [fold_left fst snd].
  apply elem_of_cons in Hin as [[= -> ->]|Hin]; [|by apply IH].
  assert (Hskip : forall l (b : gmap (K * Version) (option V)), k0 ∉ map fst l -> fold_left (fun batch kv => <[(fst kv, v) := Some (snd kv)]> batch) l b !! (k0, v) = b !! (k0, v)).
  { induction l as [|[k1 x1] l IHl]; intros b Hn; [done|]. cbn [fold_left fst snd]. cbn [map fst] in Hn. apply not_elem_of_cons in Hn as [Hne Hn]. rewrite IHl by done. by apply lookup_insert_ne; intros [= ->]. }
  rewrite Hskip by done. by rewrite lookup_insert_eq.
Qed.

Lemma kv_batch_other : forall chunk (batch : gmap (K * Version) (option V)) k, k ∉ map fst chunk ->
  fold_left (fun batch kv => <[(fst kv, v) := Some (snd kv)]> batch) chunk batch !! (k, v) = batch !! (k, v).
Proof.
  induction chunk as [|[k1 x1] l IHl]; intros b k Hn; [done|]. cbn [fold_left fst snd]. cbn [map fst] in Hn. apply not_elem_of_cons in Hn as [Hne Hn]. rewrite IHl by done. by apply lookup_insert_ne; intros [= ->].
Qed.

(** A chunk that is written follows the values so far. *)
Lemma kv_add_chunk_inv items chunk ks ks' : let c := skip_overlap (progress_of items) chunk in
  kv_received items ks -> NoDup (map fst (items ++ c)) -> kv_add_chunk v chunk ks = (ks', Ok tt) -> kv_received (items ++ c) ks'.
Proof.
  intros c [Hv Hp] Hnd E. unfold kv_add_chunk in E. apply pbind_inv in E as [(ks1 & o & E1 & E)|[(e & _ & ?)|(e & _ & ?)]]; [|done..].
  unfold reading in E1. injection E1 as <- E1. apply kv_get_progress_spec in E1. rewrite Hp in E1. subst o. fold c in E.
  destruct (list.last c) as [[last_key last_value]|] eqn:El.
  2:{ apply last_None in El. rewrite El, app_nil_r. injection E as <-. by split. }
  assert (Eu : match progress_of items with Some p => sp_usage p | None => StateStorageUsage.zero end = usage_of items).
  { unfold progress_of. destruct (list.last items) eqn:Ei; [done|]. by apply last_None in Ei as ->. }
  rewrite Eu in E. apply pbind_inv in E as [(ks2 & u & E2 & E)|[(e & _ & ?)|(e & _ & ?)]]; [|done..]. unfold reading in E2. injection E2 as <- E2. apply add_usage_app in E2 as ->.
  pose proof (write_kv_batch_spec v (kv_batch_of v c) (mkStateSnapshotProgress (key_hash last_key) (usage_of (items ++ c))) ks) as Hw. rewrite E in Hw. destruct Hw as [Hwv Hwp].
  rewrite map_app in Hnd. apply NoDup_app in Hnd as (_ & Hdis & Hndc). split.
  - intros k x [Hin|Hin]%elem_of_app; rewrite Hwv; unfold kv_batch_of.
    + rewrite kv_batch_other; [rewrite lookup_empty; by apply Hv|]. apply Hdis. apply (list_elem_of_fmap_2 fst) in Hin. exact Hin.
    + by rewrite (kv_batch_lookup c ∅ k x Hndc Hin).
  - rewrite Hwp, decide_True by done. unfold progress_of. rewrite last_app, El. done.
Qed.

Lemma kv_add_chunk_works items chunk ks : let c := skip_overlap (progress_of items) chunk in
  (forall ks u, exists o, kv_get_progress ks u = Ok o) -> (forall u batch p ks, exists ks', write_kv_batch u batch p ks = (ks', Ok tt)) ->
  kv_received items ks -> Forall (fun kv => 0 <= key_size (fst kv) /\ 0 <= value_size (snd kv)) (items ++ c) ->
  Z.of_nat (length items + length c) < U64 -> size_of (items ++ c) < U64 -> exists ks', kv_add_chunk v chunk ks = (ks', Ok tt).
Proof.
  intros c Hget Hwr [Hv Hp] Hpos Hl Hs. unfold kv_add_chunk. destruct (Hget ks v) as [o Eo]. pose proof (kv_get_progress_spec ks v o Eo) as Ep. rewrite Hp in Ep. subst o.
  erewrite pbind_Ok; [|unfold reading; rewrite Eo; reflexivity]. fold c. destruct (list.last c) as [[last_key last_value]|]; [|by eexists].
  assert (Eu : match progress_of items with Some p => sp_usage p | None => StateStorageUsage.zero end = usage_of items).
  { unfold progress_of. destruct (list.last items) eqn:Ei; [done|]. by apply last_None in Ei as ->. }
  rewrite Eu. erewrite pbind_Ok; [|unfold reading; rewrite (add_usage_works c items Hpos Hl Hs); reflexivity]. apply Hwr.
Qed.
End StateRestoreFacts.

(** ** Runs *)

Section StateRestoreRun.
Context {HV : Type} `{HashValueOps HV} `{HashValueBits HV} `{!HashValueLaws HV} `{CryptoHasher HV}
  `{LeafHasher HV} `{HashValueKeys HV} `{!HashValueKeysLaws HV} {K : Type} `{Countable K} `{KeyHash HV K}
  {V : Type} `{!StateValueOps HV K V} {KS : Type} `{!StateValueWriter HV K V KS} `{!StateValueWriterLaws HV K V KS}
  {ST : Type} `{TreeStore HV K ST} `{!TreeStoreLaws HV K ST}.
Context (v : Version).
Implicit Types (items chunk c : list (K * V)) (w : restore_world (HV := HV) (K := K) (KS := KS) (ST := ST)) (proof : SparseMerkleRangeProof HV).

(** The leaves for the keys and values. *)
Definition item_leaves items : list (LeafNode HV K) := chunk_leaves v (hashed_chunk items).

Lemma item_leaves_app a b : item_leaves (a ++ b) = item_leaves a ++ item_leaves b.
Proof. unfold item_leaves, chunk_leaves, hashed_chunk. by rewrite !map_app. Qed.

Lemma item_leaves_keys items : map account_key (item_leaves items) = map (fun kv => key_hash (fst kv)) items.
Proof. unfold item_leaves, chunk_leaves, hashed_chunk. by rewrite !map_map. Qed.

Lemma item_leaves_last items : list.last (item_leaves items) = (fun kv => leaf_of v (fst kv) (hash_of_value (snd kv))) <$> list.last items.
Proof. unfold item_leaves, chunk_leaves, hashed_chunk. rewrite map_map. apply fmap_last. Qed.

Lemma find_position_map {A B} (g : A -> B) (f : B -> bool) (l : list A) : find_position f (map g l) = find_position (fun a => f (g a)) l.
Proof. induction l as [|a l IH]; [done|]. cbn. by rewrite IH. Qed.

(** Both skip the same part of a chunk. *)
Lemma skip_same items chunk (self : JellyfishMerkleRestore HV K) : previous_leaf self = list.last (item_leaves items) ->
  skip_known self (hashed_chunk chunk) = hashed_chunk (skip_overlap (progress_of items) chunk).
Proof.
  intros Hp. unfold skip_known. rewrite Hp, item_leaves_last. unfold progress_of. destruct (list.last items) as [[k x]|]; [|done]. cbn [fmap option_fmap option_map skip_overlap].
  unfold hashed_chunk. rewrite find_position_map. cbn [fst snd leaf_of account_key sp_key_hash]. destruct (find_position _ chunk) as [i|]; cbn [default].
  - by rewrite skipn_map.
  - by rewrite drop_all.
Qed.

(** Known keys are skipped. *)
Lemma skip_all items chunk : StronglySorted by_key (item_leaves items) -> items <> [] ->
  Forall (fun kv : K * V => key_hash (fst kv) ∈ map (fun kv : K * V => key_hash (fst kv)) items) chunk -> skip_overlap (progress_of items) chunk = [].
Proof.
  intros Hs Hne Hk. unfold progress_of. pose proof (item_leaves_last items) as Hl. destruct (list.last items) as [[k x]|] eqn:Ei; [|by apply last_None in Ei].
  cbn [fmap option_fmap option_map fst snd] in Hl. cbn [skip_overlap sp_key_hash fst]. rewrite find_position_none; [by rewrite drop_ge|]. intros kv Hkv. rewrite Forall_forall in Hk. apply Hk in Hkv.
  rewrite <- item_leaves_keys in Hkv. apply list_elem_of_fmap in Hkv as (z & -> & Hz). destruct (sorted_last _ _ z Hs Hl Hz) as [->|Hlt]; [by rewrite hv_cmp_refl|]. by rewrite (hv_cmp_lt _ _ Hlt).
Qed.

Lemma hashed_chunk_length chunk : length (hashed_chunk chunk) = length chunk.
Proof. apply length_map. Qed.

Lemma distinct_keys items : StronglySorted by_key (item_leaves items) -> NoDup (map fst items).
Proof.
  intros Hs. apply sorted_NoDup_keys in Hs. rewrite item_leaves_keys in Hs. apply (NoDup_fmap_1 key_hash).
  change (NoDup (map key_hash (map fst items))). by rewrite map_map.
Qed.

(** ** Both parts of a chunk *)
Lemma join_inv chunk proof w w' : ssr_add_chunk RestoreMode_Default v chunk proof w = (w', Ok tt) ->
  kv_add_chunk v chunk (fst w) = (fst w', Ok tt) /\ add_chunk_impl (hashed_chunk chunk) proof (snd w) = (snd w', Ok tt).
Proof.
  unfold ssr_add_chunk, io_join, pbind, reading. destruct (kv_add_chunk v chunk (fst w)) as [ks r1]. destruct (add_chunk_impl (hashed_chunk chunk) proof (snd w)) as [ts r2].
  destruct r1 as [[]|e1|e1], r2 as [[]|e2|e2]; cbn; intros E; try done. injection E as <-. done.
Qed.

Lemma join_works chunk proof w ks ts : kv_add_chunk v chunk (fst w) = (ks, Ok tt) -> add_chunk_impl (hashed_chunk chunk) proof (snd w) = (ts, Ok tt) ->
  ssr_add_chunk RestoreMode_Default v chunk proof w = ((ks, ts), Ok tt).
Proof. intros E1 E2. unfold ssr_add_chunk, io_join, pbind, reading. by rewrite E1, E2. Qed.

(** The last proof that was accepted, the keys and values received, and the state. *)
Inductive snapshot_restoring : option (SparseMerkleRangeProof HV) -> list (K * V) -> KS * (ST * JellyfishMerkleRestore HV K) -> Prop :=
| snapshot_start ks st root async : kv_progress ks v = None -> snapshot_restoring None [] (ks, (st, start_state v root async))
| snapshot_chunk pr items w chunk proof w' : snapshot_restoring pr items w ->
    let c := skip_overlap (progress_of items) chunk in
    Z.of_nat (length items + length c) < U64 -> ssr_add_chunk RestoreMode_Default v chunk proof w = (w', Ok tt) ->
    snapshot_restoring (match c with [] => pr | _ => Some proof end) (items ++ c) w'.

Lemma snapshot_inv pr items w : snapshot_restoring pr items w -> restoring v pr (item_leaves items) (snd w) /\ kv_received v items (fst w).
Proof.
  induction 1 as [ks st root async Hp|pr items w chunk proof w' _ [IHt IHk] c Hb E].
  - split; [apply restoring_start|]. split; [by intros k x Hin%not_elem_of_nil|done].
  - apply join_inv in E as [Ek Et]. destruct (restoring_inv v _ _ _ IHt) as (Hrc & _). pose proof (skip_same items chunk (snd (snd w)) (rc_previous _ _ _ Hrc)) as Hskip. fold c in Hskip.
    assert (Hb' : Z.of_nat (length (item_leaves items) + length (hashed_chunk c)) < U64) by (unfold item_leaves, chunk_leaves; rewrite length_map, !hashed_chunk_length; done).
    pose proof (restoring_chunk v _ _ _ (hashed_chunk chunk) proof (snd w') IHt) as Hr. cbn zeta in Hr. rewrite Hskip in Hr. specialize (Hr Hb' Et). fold (item_leaves c) in Hr. rewrite <- item_leaves_app in Hr.
    assert (Hr' : restoring v (match c with [] => pr | _ => Some proof end) (item_leaves (items ++ c)) (snd w')) by (destruct c; exact Hr).
    split; [done|]. eapply kv_add_chunk_inv; [exact IHk| |exact Ek]. fold c.
    apply distinct_keys. destruct (restoring_inv v _ _ _ Hr') as (Hrc' & _). apply Hrc'.
Qed.
End StateRestoreRun.

(** ** The serving side *)

Section StateRestoreServe.
Context {HV : Type} `{HashValueOps HV} `{HashValueBits HV} `{!HashValueLaws HV} `{CryptoHasher HV}
  `{LeafHasher HV} `{HashValueKeys HV} `{!HashValueKeysLaws HV} {K : Type} `{Countable K} `{KeyHash HV K}
  {V : Type} `{!StateValueOps HV K V} {SV : Type} `{!StateValueReader K V SV}.
Context (v : Version).
Implicit Types (items : list (K * V)) (L lvs : list (LeafNode HV K)) (s : store (HV := HV) (K := K)) (reader : TreeReader HV K) (db : SV).

(** The item of a leaf: its key, and the value that is stored for it. *)
Record item_at db (x : LeafNode HV K) (kv : K * V) : Prop := {
  ia_key : account_key x = key_hash (fst kv);
  ia_hash : value_hash x = hash_of_value (snd kv);
  ia_index : fst (value_index x) = fst kv;
  ia_value : get_state_value_by_version db (fst (value_index x)) (snd (value_index x)) = Ok (Some (snd kv));
}.

(** The items of the tree, in the order of the keys. *)
Definition holds db lvs items : Prop := Forall2 (item_at db) (in_order lvs) items.

Lemma items_sl db L items : Forall2 (item_at db) L items -> sl (item_leaves v items) = sl L.
Proof.
  induction 1 as [|x [k y] L items [Ek Eh _ _] _ IH]; [done|]. unfold sl, item_leaves, chunk_leaves, hashed_chunk in *. cbn [map] in *. rewrite IH. f_equal.
  unfold sparse_leaf_from, leaf_of. cbn [fst snd account_key value_hash] in *. by rewrite Ek, Eh.
Qed.

Lemma take_values_spec reader s db : reads reader s -> forall n L items it, has_left s v it L -> Forall2 (item_at db) L items ->
  take_values n reader db it = Ok (take n items).
Proof.
  intros Hrd. induction n as [|n IH]; intros L items it Hl Hi; [done|]. cbn [take_values]. pose proof (jmi_next_spec reader s v it L Hrd Hl) as Hn.
  destruct Hi as [|x [k y] L items [_ _ Ei Ev] Hi]; [by rewrite Hn, obind_Ok|]. destruct Hn as (it' & -> & Hl'). rewrite obind_Ok. cbn [fst snd].
  unfold item_of. destruct (value_index x) as [k' u]. cbn [fst snd] in Ei, Ev. subst k'. unfold expect_value_by_version. rewrite Ev, obind_Ok. cbn [ok_or]. rewrite obind_Ok.
  by rewrite (IH L items it' Hl' Hi), obind_Ok.
Qed.

Lemma sorted_keys : forall L L' : list (LeafNode HV K), map account_key L = map account_key L' -> StronglySorted by_key L -> StronglySorted by_key L'.
Proof.
  induction L as [|x L IH]; intros [|x' L'] E Hs; [constructor|done|done|]. injection E as Ex E. apply StronglySorted_inv in Hs as [Hs Hf]. constructor; [by apply IH|].
  rewrite Forall_forall in Hf |- *. intros y Hy. apply (list_elem_of_fmap_2 account_key) in Hy. change (account_key y ∈ map account_key L') in Hy. rewrite <- E in Hy.
  apply list_elem_of_fmap in Hy as (z & Ez & Hz). unfold by_key. rewrite Ez, <- Ex. by apply Hf.
Qed.

Section Served.
Context reader s db lvs items (Hrd : reads reader s) (Ht : tree_at s v lvs) (Hu : Z.of_nat (length lvs) < U64) (Hh : holds db lvs items).

Lemma items_length : length items = length lvs.
Proof. rewrite <- (Forall2_length _ _ _ Hh). apply Permutation_length, in_order_perm. Qed.

Lemma items_tree : sl (item_leaves v items) ≡ₚ sl lvs.
Proof. rewrite (items_sl _ _ _ Hh). unfold sl. by rewrite in_order_perm. Qed.

Lemma items_sorted : StronglySorted by_key (item_leaves v items).
Proof.
  pose proof Ht as [Hnd _]. apply (sorted_keys (in_order lvs)); [|by apply in_order_sorted]. rewrite <- !sl_keys. f_equal. symmetry. by apply (items_sl db).
Qed.

Lemma items_root : smt_root (sl (item_leaves v items)) = smt_root (sl lvs).
Proof. unfold smt_root. apply smt_perm, items_tree. Qed.

Lemma items_proof key : range_proof_of (sl (item_leaves v items)) key = range_proof_of (sl lvs) key.
Proof. unfold range_proof_of, sparse_proof_of. cbn [smp_siblings]. by rewrite (prove_perm key 256 0 _ _ items_tree). Qed.

(** The chunk from [a] to [b]. *)
Definition served (a b : nat) : StateValueChunkWithProof HV K V :=
  mkStateValueChunkWithProof (Z.of_nat a) (Z.of_nat b - 1) (last_key (take (S a) (item_leaves v items))) (last_key (take b (item_leaves v items)))
    (slice a b items) (range_proof_of (sl lvs) (last_key (take b (item_leaves v items)))) (smt_root (sl lvs)).

Lemma items_last_key (b : nat) kv : items !! b = Some kv -> last_key (take (S b) (item_leaves v items)) = key_hash (fst kv).
Proof.
  intros Hb. assert (Hl : item_leaves v items !! b = Some (leaf_of v (fst kv) (hash_of_value (snd kv)))).
  { unfold item_leaves, chunk_leaves, hashed_chunk. rewrite map_map, list_lookup_fmap, Hb. done. }
  by rewrite (take_S_r _ _ _ Hl), last_key_snoc.
Qed.

(** A chunk of [n] items from [a] on. *)
Lemma get_value_chunk_spec (a n : nat) : (a < length items)%nat -> (0 < n)%nat ->
  get_value_chunk_with_proof reader db v (Z.of_nat a) (Z.of_nat n) = Ok (served a ((a + n) `min` length items)).
Proof.
  intros Ha Hn. pose proof items_length as Hlen. set (b := ((a + n) `min` length items)%nat). unfold get_value_chunk_with_proof.
  destruct (jmi_new_by_index_spec reader s v lvs a Hrd Ht Hu) as (it & -> & Hl). rewrite obind_Ok, Nat2Z.id.
  rewrite (take_values_spec reader s db Hrd n _ (drop a items) it Hl) by (by apply Forall2_drop). rewrite obind_Ok.
  assert (Es : take n (drop a items) = slice a b items).
  { unfold slice, b. destruct (decide (a + n <= length items)%nat); [f_equal; lia|]. rewrite !take_ge by (rewrite length_drop; lia). done. }
  rewrite Es. assert (Hls : length (slice a b items) = (b - a)%nat) by (unfold slice; rewrite length_take, length_drop; lia).
  rewrite Hls. replace (negb (b - a =? 0)%nat) with true by (symmetry; apply negb_true_iff, Nat.eqb_neq; lia). cbn [ensure]. rewrite obind_Ok.
  rewrite add64_Ok, obind_Ok by lia.
  destruct (lookup_lt_is_Some_2 items a Ha) as [kv0 Hkv0]. destruct (lookup_lt_is_Some_2 items (b - 1) ltac:(lia)) as [kv1 Hkv1].
  assert (Eh : head (slice a b items) = Some kv0).
  { rewrite head_lookup. unfold slice. rewrite lookup_take_lt by lia. by rewrite lookup_drop, Nat.add_0_r. }
  assert (El : list.last (slice a b items) = Some kv1).
  { rewrite last_lookup, Hls. unfold slice. rewrite lookup_take_lt by lia. rewrite lookup_drop. by replace (a + pred (b - a))%nat with (b - 1)%nat by lia. }
  rewrite Eh, El. cbn [expect]. rewrite !obind_Ok. unfold jmt_get_range_proof. rewrite (get_with_proof_spec reader s v lvs _ Hrd Ht), obind_Ok.
  assert (Hval : exists u, value_at lvs (key_hash (fst kv1)) = Some u).
  { pose proof (Forall2_lookup_r _ _ _ _ _ Hh Hkv1) as (x & Hx & Hix). unfold value_at. destruct (filter _ lvs) as [|y l] eqn:Ef; [|by eexists].
    exfalso. apply (not_elem_of_nil x). rewrite <- Ef. apply list_elem_of_filter. split; [apply (ia_key _ _ _ Hix)|]. rewrite <- in_order_perm. by eapply list_elem_of_lookup_2. }
  destruct Hval as [u ->]. cbn [ensure]. rewrite !obind_Ok, (jmt_root_hash_spec reader s v lvs Hrd Ht), obind_Ok. unfold served.
  rewrite (items_last_key a kv0 Hkv0). assert (Elk : last_key (take b (item_leaves v items)) = key_hash (fst kv1)) by (rewrite <- (items_last_key (b - 1) kv1 Hkv1); by replace (S (b - 1)) with b by lia).
  rewrite Elk. f_equal. f_equal. lia.
Qed.

(** It is a chunk of the backup of the items. *)
Lemma served_backup (a b : nat) : (hashed_chunk (sc_raw_values (served a b)), sc_proof (served a b)) = backup_chunk v (hashed_chunk items) (a, b).
Proof.
  unfold served, backup_chunk. cbn [sc_raw_values sc_proof fst snd]. fold (item_leaves v items). rewrite items_proof. f_equal. unfold hashed_chunk, slice. by rewrite skipn_map, firstn_map.
Qed.

(** The last chunk is recognised. *)
Lemma served_last (a b : nat) : (0 < b <= length items)%nat -> solid (things 256 0 (sl (item_leaves v items))) ->
  is_last_chunk (served a b) = bool_decide (b = length items).
Proof.
  intros Hb Hs. set (T := item_leaves v items) in *. assert (HlenT : length T = length items) by (unfold T, item_leaves, chunk_leaves; rewrite length_map; apply hashed_chunk_length).
  destruct (lookup_lt_is_Some_2 T (b - 1) ltac:(lia)) as [x Hx]. assert (Elk : last_key (take b T) = account_key x).
  { replace b with (S (b - 1)) by lia. by rewrite (take_S_r _ _ _ Hx), last_key_snoc. }
  assert (Hnd : NoDup (map leaf_key (sl T))) by (rewrite sl_keys; apply sorted_NoDup_keys, items_sorted).
  assert (Hin : sparse_leaf_from x ∈ sl T) by (apply (list_elem_of_fmap_2 sparse_leaf_from); by eapply list_elem_of_lookup_2).
  pose proof (last_rights (sl T) (sparse_leaf_from x) Hnd Hin Hs) as Hlast. cbn zeta in Hlast. cbn [sparse_leaf_from leaf_key] in Hlast. fold (sparse_leaf_from x) in Hlast.
  pose proof (upto_take T (b - 1) x items_sorted Hx) as Hup. replace (S (b - 1)) with b in Hup by lia.
  unfold is_last_chunk, served. cbn [sc_proof]. fold T. rewrite Elk. unfold T. rewrite <- items_proof. fold T. unfold range_proof_of. cbn [srp_right_siblings].
  apply eq_true_iff_eq. rewrite forallb_forall, bool_decide_eq_true. transitivity (upto (account_key x) (sl T) = sl T).
  - rewrite <- Hlast. unfold no_rights. rewrite Forall_forall. split; intros Hr h Hh'; [apply (bool_decide_eq_true_1 _), Hr; by apply list_elem_of_In|apply bool_decide_eq_true_2, Hr; by apply list_elem_of_In].
  - rewrite <- Hup. split; intros E.
    + apply (f_equal length) in E. unfold sl in E. rewrite !length_map, length_take in E. lia.
    + rewrite E, <- HlenT, firstn_all. done.
Qed.
End Served.
End StateRestoreServe.
