(* ===== verification/StateSync.v ===== *)
(** * Syncing the state from other nodes

    Model of how a new node fetches a snapshot of the state:
    - the progress that is kept in [state-sync/state-sync-driver/src/metadata_storage.rs];
    - the receiver of the chunks in [storage_synchronizer.rs], which restores them;
    - the part of [bootstrapper.rs] that asks for the chunks and checks them.

    The bootstrapper and the receiver are two tasks; the queue of chunks between them and
    the count of the pending chunks are part of the state.  The rest of the node (the
    ledger, the executor, the streams and the notifications) is an interface. *)
From stdpp Require Import base list numbers strings option gmap.
From Stdlib Require Import ZArith Lia Bool.
From S2P Require Import Prelude Hash AccumulatorProof SparseMerkleProof NibblePath ByteCodec JellyfishNode JellyfishTree JellyfishIterator JellyfishRestore LedgerMetadata StateRestore.

(** [TransactionInfo], of which the sync reads the hash of the state. *)
Record TransactionInfo (HV : Type) := mkTransactionInfo { state_checkpoint_hash : option HV }.
Arguments mkTransactionInfo {HV}.
Arguments state_checkpoint_hash {HV}.

Definition ensure_state_checkpoint_hash {HV} (self : TransactionInfo HV) : outcome HV :=
  ok_or (state_checkpoint_hash self) "State checkpoint hash not present in TransactionInfo".

(** [TransactionOutputListWithProof]: the transaction infos of its proof, and the rest. *)
Record TransactionOutputList (HV OUT : Type) := mkTransactionOutputList {
  tl_transaction_infos : list (TransactionInfo HV);
  tl_transactions_and_outputs : OUT;
}.
Arguments mkTransactionOutputList {HV OUT}.
Arguments tl_transaction_infos {HV OUT}.
Arguments tl_transactions_and_outputs {HV OUT}.

(** The version of a [LedgerInfoWithSignatures]. *)
Class LedgerInfoOps (LI : Type) := li_version : LI -> Version.

(** ** The progress of the sync *)

(** [StateSnapshotProgress] of [metadata_storage.rs] *)
Record SyncProgress (LI : Type) := mkSyncProgress {
  target_ledger_info : LI;
  last_persisted_state_value_index : Z;
  snapshot_sync_completed : bool;
}.
Arguments mkSyncProgress {LI}.
Arguments target_ledger_info {LI}.
Arguments last_persisted_state_value_index {LI}.
Arguments snapshot_sync_completed {LI}.

(** The database: the value of [MetadataKey::StateSnapshotSync]. *)
Class MetadataDb (LI MS : Type) := {
  md_get : MS -> outcome (option (SyncProgress LI));
  md_put : SyncProgress LI -> prog MS unit;
}.

(** The streams that the bootstrapper opens. *)
Inductive StreamRequest := AllTransactionOutputs (start_version end_version proof_version : Version) | AllStateValues (version : Version) (start_index : option Z).

(** The rest of the node. *)
Class SyncNode (LI HV OUT NS : Type) := {
  finalize_state_snapshot : Version -> TransactionOutputList HV OUT -> list LI -> prog NS unit;
  chunk_executor_reset : prog NS unit;
  send_commit_notification : OUT -> Z -> Version -> prog NS unit;
  initialize_sync_gauges : NS -> outcome unit;
  open_stream : StreamRequest -> prog NS unit;
  terminate_stream : option Z -> prog NS unit;
  notify_bootstrap_listener : prog NS unit;
  finish_chunk_executor : prog NS unit;
  fallback_to_outputs : prog NS unit;
}.

Section Metadata.
Context {LI : Type} `{EqDecision LI} {MS : Type} `{!MetadataDb LI MS}.

Definition get_snapshot_progress (db : MS) : outcome (option (SyncProgress LI)) := md_get db.

Definition get_snapshot_progress_at_target (db : MS) (target : LI) : outcome (SyncProgress LI) :=
  o ← get_snapshot_progress db;
  match o with
  | Some snapshot_progress =>
      if bool_decide (target_ledger_info snapshot_progress <> target) then Err "Expected a snapshot progress for target"
      else Ok snapshot_progress
  | None => Err "No state snapshot progress was found!"
  end.

Definition commit_key_value (value : SyncProgress LI) : prog MS unit := md_put value.

Definition is_snapshot_sync_complete (db : MS) (target : LI) : outcome bool :=
  p ← get_snapshot_progress_at_target db target;
  Ok (snapshot_sync_completed p).

Definition get_last_persisted_state_value_index (db : MS) (target : LI) : outcome Z :=
  p ← get_snapshot_progress_at_target db target;
  Ok (last_persisted_state_value_index p).

Definition previous_snapshot_sync_target (db : MS) : outcome (option LI) :=
  o ← get_snapshot_progress db;
  Ok (option_map target_ledger_info o).

Definition update_last_persisted_state_value_index (target : LI) (index : Z) (completed : bool) : prog MS unit :=
  o <~ reading get_snapshot_progress;
  _ <~ reading (fun _ =>
         match o with
         | Some snapshot_progress => ensure (bool_decide (target = target_ledger_info snapshot_progress)) "Failed to update the last persisted state value index!"
         | None => Ok tt
         end);
  commit_key_value (mkSyncProgress target index completed).
End Metadata.

Section StateSync.
Context {HV : Type} `{HashValueOps HV} `{HashValueBits HV} `{CryptoHasher HV} `{LeafHasher HV}
  `{HashValueKeys HV} {K : Type} `{Countable K} `{KeyHash HV K} {V : Type} `{!StateValueOps HV K V}
  {KS : Type} `{!StateValueWriter HV K V KS} {ST : Type} `{TreeStore HV K ST}
  {LI : Type} `{EqDecision LI} `{!LedgerInfoOps LI} {OUT MS NS : Type} `{!MetadataDb LI MS} `{!SyncNode LI HV OUT NS}.

(** ** The state *)

(** What the task of the receiver holds. *)
Record SnapshotReceiver := mkSnapshotReceiver {
  sr_restore : JellyfishMerkleRestore HV K;
  sr_epoch_change_proofs : list LI;
  sr_target : LI;
  sr_output : TransactionOutputList HV OUT;
}.

(** The databases, the task (if it runs), the chunks sent to it, the errors that it
    reported, and [pending_data_chunks]. *)
Record SyncWorld := mkSyncWorld {
  sw_kv : KS;
  sw_tree : ST;
  sw_metadata : MS;
  sw_node : NS;
  sw_receiver : option SnapshotReceiver;
  sw_queue : list (Z * StateValueChunkWithProof HV K V);
  sw_errors : list (Z * string);
  sw_pending : Z;
}.

Definition with_receiver (w : SyncWorld) (r : option SnapshotReceiver) : SyncWorld :=
  mkSyncWorld (sw_kv w) (sw_tree w) (sw_metadata w) (sw_node w) r (sw_queue w) (sw_errors w) (sw_pending w).

Definition with_queue (w : SyncWorld) (q : list (Z * StateValueChunkWithProof HV K V)) : SyncWorld :=
  mkSyncWorld (sw_kv w) (sw_tree w) (sw_metadata w) (sw_node w) (sw_receiver w) q (sw_errors w) (sw_pending w).

Definition on_metadata {A} (m : prog MS A) : prog SyncWorld A := fun w =>
  let '(s, r) := m (sw_metadata w) in
  (mkSyncWorld (sw_kv w) (sw_tree w) s (sw_node w) (sw_receiver w) (sw_queue w) (sw_errors w) (sw_pending w), r).

Definition on_node {A} (m : prog NS A) : prog SyncWorld A := fun w =>
  let '(s, r) := m (sw_node w) in
  (mkSyncWorld (sw_kv w) (sw_tree w) (sw_metadata w) s (sw_receiver w) (sw_queue w) (sw_errors w) (sw_pending w), r).

(** The snapshot receiver works on the two databases. *)
Definition on_restore {A} (r : SnapshotReceiver) (m : prog (restore_world (HV := HV) (K := K) (KS := KS) (ST := ST)) A) : prog SyncWorld A := fun w =>
  let '((ks, (st, rs)), a) := m (sw_kv w, (sw_tree w, sr_restore r)) in
  (mkSyncWorld ks st (sw_metadata w) (sw_node w)
     (Some (mkSnapshotReceiver rs (sr_epoch_change_proofs r) (sr_target r) (sr_output r))) (sw_queue w) (sw_errors w) (sw_pending w), a).

Definition send_storage_synchronizer_error (notification_id : Z) (error : string) : prog SyncWorld unit := fun w =>
  (mkSyncWorld (sw_kv w) (sw_tree w) (sw_metadata w) (sw_node w) (sw_receiver w) (sw_queue w)
     (sw_errors w ++ [(notification_id, error)]) (sw_pending w), Ok tt).

(** [fetch_add] and [fetch_sub] wrap around. *)
Definition increment_pending_data_chunks : prog SyncWorld unit := fun w =>
  (mkSyncWorld (sw_kv w) (sw_tree w) (sw_metadata w) (sw_node w) (sw_receiver w) (sw_queue w) (sw_errors w) ((sw_pending w + 1) mod U64), Ok tt).

Definition decrement_pending_data_chunks : prog SyncWorld unit := fun w =>
  (mkSyncWorld (sw_kv w) (sw_tree w) (sw_metadata w) (sw_node w) (sw_receiver w) (sw_queue w) (sw_errors w) ((sw_pending w - 1) mod U64), Ok tt).

Definition pending_storage_data (w : SyncWorld) : bool := 0 <? sw_pending w.

(** An error becomes a report; a panic stays one. *)
Definition reporting (notification_id : Z) (m : prog SyncWorld unit) : prog SyncWorld unit := fun w =>
  match m w with
  | (w', Err e) => send_storage_synchronizer_error notification_id e w'
  | (w', r) => (w', r)
  end.

(** ** The receiver *)

(** [get_snapshot_receiver] of the state store: the commits are not asynchronous. *)
Definition get_snapshot_receiver (version : Version) (expected_root_hash : HV) (st : ST) : outcome (JellyfishMerkleRestore HV K) :=
  Restore_new (tree_reader st) version expected_root_hash false.

(** The start of [spawn_state_snapshot_receiver], as [initialize_state_synchronizer] calls it.
    The task starts at once.  What it does not get, it expects: the panic ends the task, and
    the caller, which does not wait for it, goes on without one. *)
Definition initialize_state_synchronizer (epoch_change_proofs : list LI) (target : LI) (output : TransactionOutputList HV OUT) : prog SyncWorld unit := fun w =>
  match (info ← expect (head (tl_transaction_infos output)) "Target transaction info should exist!";
         root ← expect (state_checkpoint_hash info) "Must be at state checkpoint.";
         expect_res (get_snapshot_receiver (li_version target) root (sw_tree w)) "Failed to initialize the state snapshot receiver!") with
  | Ok restore => (with_queue (with_receiver w (Some (mkSnapshotReceiver restore epoch_change_proofs target output))) [], Ok tt)
  | _ => (with_queue (with_receiver w None) [], Ok tt)
  end.

Definition finalize_storage_and_send_commit (r : SnapshotReceiver) (last_committed_state_index : Z) : prog SyncWorld unit :=
  let version := li_version (sr_target r) in
  _ <~ on_restore r (ssr_finish RestoreMode_Default version);
  _ <~ on_node (finalize_state_snapshot version (sr_output r) (sr_epoch_change_proofs r));
  _ <~ on_metadata (update_last_persisted_state_value_index (sr_target r) last_committed_state_index true);
  _ <~ on_node chunk_executor_reset;
  _ <~ on_node (send_commit_notification (tl_transactions_and_outputs (sr_output r)) last_committed_state_index version);
  on_node (reading initialize_sync_gauges).

(** The receiver after a chunk was added: the task ends after the last one. *)
Definition chunk_added (notification_id : Z) (states_with_proof : StateValueChunkWithProof HV K V) : prog SyncWorld unit := fun w =>
  match sw_receiver w with
  | None => (w, Ok tt)
  | Some r =>
      let last_committed_state_index := sc_last_index states_with_proof in
      if negb (is_last_chunk states_with_proof)
      then (_ <~ reporting notification_id (on_metadata (update_last_persisted_state_value_index (sr_target r) last_committed_state_index false));
            decrement_pending_data_chunks)%prog w
      else (_ <~ reporting notification_id (finalize_storage_and_send_commit r last_committed_state_index);
            _ <~ (fun w => (with_receiver w None, Ok tt));
            decrement_pending_data_chunks)%prog w
  end.

(** The task takes the next chunk. *)
Definition receive_chunk : prog SyncWorld unit := fun w =>
  match sw_receiver w, sw_queue w with
  | Some r, (notification_id, states_with_proof) :: queue =>
      let '(w', result) := on_restore r (ssr_add_chunk RestoreMode_Default (li_version (sr_target r)) (sc_raw_values states_with_proof) (sc_proof states_with_proof))
                             (with_queue w queue) in
      match result with
      | Ok _ => chunk_added notification_id states_with_proof w'
      | Err error =>
          (_ <~ send_storage_synchronizer_error notification_id ("Failed to commit state value chunk! Error: " +:+ error);
           decrement_pending_data_chunks)%prog w'
      | Panic e => (w', Panic e)
      end
  | _, _ => (w, Ok tt)
  end.

(** The chunk is refused if the task was not started or has ended. *)
Definition save_state_values (notification_id : Z) (chunk : StateValueChunkWithProof HV K V) : prog SyncWorld unit := fun w =>
  match sw_receiver w with
  | None => (w, Err "Failed to send storage data chunk to state snapshot listener")
  | Some _ => increment_pending_data_chunks (with_queue w (sw_queue w ++ [(notification_id, chunk)]))
  end.

(** ** The bootstrapper *)

(** [StateValueSyncer] *)
Record StateValueSyncer := mkStateValueSyncer {
  initialized_state_snapshot_receiver : bool;
  ledger_info_to_sync : option LI;
  next_state_index_to_process : Z;
  transaction_output_to_sync : option (TransactionOutputList HV OUT);
}.

Definition StateValueSyncer_new : StateValueSyncer := mkStateValueSyncer false None 0 None.

Definition set_ledger_info_to_sync (self : StateValueSyncer) (li : LI) : StateValueSyncer :=
  mkStateValueSyncer (initialized_state_snapshot_receiver self) (Some li) (next_state_index_to_process self) (transaction_output_to_sync self).

Definition set_transaction_output_to_sync (self : StateValueSyncer) (output : TransactionOutputList HV OUT) : StateValueSyncer :=
  mkStateValueSyncer (initialized_state_snapshot_receiver self) (ledger_info_to_sync self) (next_state_index_to_process self) (Some output).

Definition update_next_state_index_to_process (self : StateValueSyncer) (index : Z) : StateValueSyncer :=
  mkStateValueSyncer (initialized_state_snapshot_receiver self) (ledger_info_to_sync self) index (transaction_output_to_sync self).

Definition set_initialized (self : StateValueSyncer) : StateValueSyncer :=
  mkStateValueSyncer true (ledger_info_to_sync self) (next_state_index_to_process self) (transaction_output_to_sync self).

(** [BootstrappingMode] of the configuration *)
Inductive BootstrappingMode := ApplyTransactionOutputsFromGenesis | DownloadLatestStates | ExecuteTransactionsFromGenesis | ExecuteOrApplyFromGenesis.

Definition is_fast_sync (mode : BootstrappingMode) : bool := match mode with DownloadLatestStates => true | _ => false end.

(** The bootstrapper with the rest of the node: whether it has a stream, a listener and has
    ended; the mode and the epochs that were verified do not change here. *)
Record Bootstrapper := mkBootstrapper {
  bs_mode : BootstrappingMode;
  bs_should_fetch_epoch_ending_ledger_infos : bool;
  bs_epoch_ending_ledger_infos : list LI;
  bs_num_versions_to_skip_snapshot_sync : Z;
  bs_bootstrapped : bool;
  bs_listener : bool;
  bs_active_data_stream : bool;
  state_value_syncer : StateValueSyncer;
  bs_world : SyncWorld;
}.

Definition with_stream (self : Bootstrapper) (b : bool) : Bootstrapper :=
  mkBootstrapper (bs_mode self) (bs_should_fetch_epoch_ending_ledger_infos self) (bs_epoch_ending_ledger_infos self)
    (bs_num_versions_to_skip_snapshot_sync self) (bs_bootstrapped self) (bs_listener self) b (state_value_syncer self) (bs_world self).

Definition with_syncer (self : Bootstrapper) (x : StateValueSyncer) : Bootstrapper :=
  mkBootstrapper (bs_mode self) (bs_should_fetch_epoch_ending_ledger_infos self) (bs_epoch_ending_ledger_infos self)
    (bs_num_versions_to_skip_snapshot_sync self) (bs_bootstrapped self) (bs_listener self) (bs_active_data_stream self) x (bs_world self).

Definition with_world (self : Bootstrapper) (w : SyncWorld) : Bootstrapper :=
  mkBootstrapper (bs_mode self) (bs_should_fetch_epoch_ending_ledger_infos self) (bs_epoch_ending_ledger_infos self)
    (bs_num_versions_to_skip_snapshot_sync self) (bs_bootstrapped self) (bs_listener self) (bs_active_data_stream self) (state_value_syncer self) w.

Definition with_bootstrapped (self : Bootstrapper) (bootstrapped listener : bool) : Bootstrapper :=
  mkBootstrapper (bs_mode self) (bs_should_fetch_epoch_ending_ledger_infos self) (bs_epoch_ending_ledger_infos self)
    (bs_num_versions_to_skip_snapshot_sync self) bootstrapped listener (bs_active_data_stream self) (state_value_syncer self) (bs_world self).

Definition on_world {A} (m : prog SyncWorld A) : prog Bootstrapper A := fun self =>
  let '(w, r) := m (bs_world self) in (with_world self w, r).

Definition updating (f : Bootstrapper -> Bootstrapper) : prog Bootstrapper unit := fun self => (f self, Ok tt).

(** The notification that is given as a reason, if there is one. *)
Definition reset_active_stream (notification : option Z) : prog Bootstrapper unit :=
  active <~ reading (fun self => Ok (bs_active_data_stream self));
  _ <~ (if active : bool then on_world (on_node (terminate_stream notification)) else pret tt);
  updating (fun self => with_stream self false).

(** The stream is reset, then the error is returned. *)
Definition reset_and_fail {A} (notification_id : Z) (error : string) : prog Bootstrapper A :=
  _ <~ reset_active_stream (Some notification_id);
  reading (fun _ => Err error).

Definition handle_storage_synchronizer_error (notification_id : Z) : prog Bootstrapper unit :=
  _ <~ reset_active_stream (Some notification_id);
  mode <~ reading (fun self => Ok (bs_mode self));
  match mode with
  | ExecuteOrApplyFromGenesis => on_world (on_node fallback_to_outputs)
  | _ => pret tt
  end.

Definition notify_listeners_if_bootstrapped : prog Bootstrapper unit := fun self =>
  if bs_bootstrapped self
  then (_ <~ (fun self => if bs_listener self
                          then on_world (on_node notify_bootstrap_listener) (with_bootstrapped self (bs_bootstrapped self) false)
                          else (self, Ok tt));
        _ <~ reset_active_stream None;
        on_world (on_node finish_chunk_executor))%prog self
  else (self, Ok tt).

Definition bootstrapping_complete : prog Bootstrapper unit :=
  _ <~ updating (fun self => with_bootstrapped self true (bs_listener self));
  notify_listeners_if_bootstrapped.

Definition fetch_missing_state_values (target : LI) (existing_snapshot_progress : bool) : prog Bootstrapper unit :=
  syncer <~ reading (fun self => Ok (state_value_syncer self));
  _ <~ match ledger_info_to_sync syncer with
       | Some li => reading (fun _ => ensure (bool_decide (li = target)) "Mismatch in ledger info to sync!")
       | None => updating (fun self => with_syncer self (set_ledger_info_to_sync (state_value_syncer self) target))
       end;
  let version := li_version target in
  _ <~ match transaction_output_to_sync syncer with
       | None => on_world (on_node (open_stream (AllTransactionOutputs version version version)))
       | Some _ =>
           index <~ (if existing_snapshot_progress
                     then reading (fun self => get_last_persisted_state_value_index (sw_metadata (bs_world self)) target)
                     else pret 0);
           _ <~ updating (fun self => with_syncer self (update_next_state_index_to_process (state_value_syncer self) index));
           on_world (on_node (open_stream (AllStateValues version (Some index))))
       end;
  updating (fun self => with_stream self true).

Definition fetch_missing_state_snapshot_data (highest_synced_version : Version) (highest_known_ledger_info : LI) : prog Bootstrapper unit :=
  if highest_synced_version =? 0
  then
    previous <~ reading (fun self => previous_snapshot_sync_target (sw_metadata (bs_world self)));
    match previous with
    | Some target =>
        complete <~ reading (fun self => is_snapshot_sync_complete (sw_metadata (bs_world self)) target);
        if complete : bool
        then if li_version target =? 0 then bootstrapping_complete
             else reading (fun _ => Err "The snapshot sync for the target was marked as complete but the highest synced version is genesis!")
        else fetch_missing_state_values target true
    | None => fetch_missing_state_values highest_known_ledger_info false
    end
  else
    behind <~ reading (fun _ => if highest_synced_version <=? li_version highest_known_ledger_info
                                then Ok (li_version highest_known_ledger_info - highest_synced_version)
                                else Err "The number of versions behind has overflown!");
    max <~ reading (fun self => Ok (bs_num_versions_to_skip_snapshot_sync self));
    if behind <? max then bootstrapping_complete else reading (fun _ => Panic "You are currently too many versions behind the latest snapshot version").

Definition verify_states_values_indices (notification_id : Z) (chunk : StateValueChunkWithProof HV K V) : prog Bootstrapper unit :=
  expected_start_index <~ reading (fun self => Ok (next_state_index_to_process (state_value_syncer self)));
  if negb (expected_start_index =? sc_first_index chunk)
  then reset_and_fail notification_id "The start index of the state values was invalid!"
  else
    expected_num_state_values <~ reading (fun _ =>
      if sc_last_index chunk <? sc_first_index chunk then Err "The expected number of state values has overflown!"
      else if U64 <=? sc_last_index chunk - sc_first_index chunk + 1 then Err "The expected number of state values has overflown!"
      else Ok (sc_last_index chunk - sc_first_index chunk + 1));
    if negb (expected_num_state_values =? Z.of_nat (length (sc_raw_values chunk)))
    then reset_and_fail notification_id "The expected number of state values was invalid!"
    else pret tt.

Definition process_state_values_payload (notification_id : Z) (chunk : StateValueChunkWithProof HV K V) : prog Bootstrapper unit :=
  unexpected <~ reading (fun self => Ok (bs_should_fetch_epoch_ending_ledger_infos self || negb (is_fast_sync (bs_mode self))));
  if unexpected : bool then reset_and_fail notification_id "Received an unexpected state values payload!"
  else
  syncer <~ reading (fun self => Ok (state_value_syncer self));
  target <~ reading (fun _ => ok_or (ledger_info_to_sync syncer) "The ledger info to sync is missing!");
  output <~ reading (fun _ => ok_or (transaction_output_to_sync syncer) "The transaction output to sync is missing!");
  _ <~ (if initialized_state_snapshot_receiver syncer then pret tt
        else
          proofs <~ reading (fun self => Ok (if li_version target =? 0 then [target] else bs_epoch_ending_ledger_infos self));
          _ <~ on_world (initialize_state_synchronizer proofs target output);
          updating (fun self => with_syncer self (set_initialized (state_value_syncer self))));
  _ <~ verify_states_values_indices notification_id chunk;
  first_transaction_info <~ reading (fun _ => ok_or (head (tl_transaction_infos output)) "Target transaction info does not exist!");
  expected_root_hash <~ reading (fun _ => ensure_state_checkpoint_hash first_transaction_info);
  if negb (bool_decide (sc_root_hash chunk = expected_root_hash))
  then reset_and_fail notification_id "The states chunk with proof root hash didn't match the expected hash!"
  else
  _ <~ (fun self =>
          match on_world (save_state_values notification_id chunk) self with
          | (self, Err _) => reset_and_fail notification_id "The states chunk with proof was invalid!" self
          | r => r
          end);
  index <~ reading (fun _ => if sc_last_index chunk + 1 <? U64 then Ok (sc_last_index chunk + 1)
                             else Err "The next state value index to process has overflown!");
  updating (fun self => with_syncer self (update_next_state_index_to_process (state_value_syncer self) index)).
End StateSync.
Arguments SnapshotReceiver : clear implicits.
Arguments SyncWorld : clear implicits.
Arguments StateValueSyncer : clear implicits.
Arguments Bootstrapper : clear implicits.
