(* ===== verification/StateSyncFacts.v ===== *)
(** * Syncing the state: lemmas

    What a step of the receiver does to the databases and to the progress; then a node that
    serves a tree and a new node that syncs it, round by round, where the stream may be
    reset before any round. *)
From stdpp Require Import base list numbers strings option gmap sorting.
From Stdlib Require Import ZArith Lia Bool Sorted.
From S2P Require Import Prelude Hash AccumulatorProof SparseMerkleProof SparseSpec SparseFacts SparseClash NibblePath NibblePathFacts ByteCodec JellyfishNode JellyfishNodeFacts JellyfishHash JellyfishSpec JellyfishTree JellyfishRead JellyfishRuns JellyfishBatch JellyfishUpdate JellyfishCommit JellyfishHistory JellyfishIterator JellyfishIterate JellyfishRestore JellyfishRestoreFacts JellyfishRestoreAdd JellyfishRestoreVerify JellyfishRestoreSound JellyfishRestoreChunks JellyfishRestoreFinish JellyfishRestoreRun LedgerMetadata StateRestore StateRestoreFacts StateSync.

(** What is read of the progress is what was written last; after a failure it may be the
    old one. *)
Class MetadataDbLaws (LI MS : Type) `{MetadataDb LI MS} := {
  md_stored : MS -> option (SyncProgress LI);
  md_get_spec : forall ms o, md_get ms = Ok o -> o = md_stored ms;
  md_put_spec : forall p ms, let '(ms', r) := md_put p ms in
    match r with
    | Ok _ => md_stored ms' = Some p
    | _ => md_stored ms' = md_stored ms \/ md_stored ms' = Some p
    end;
}.

Section StateSyncFacts.
Context {HV : Type} `{HashValueOps HV} `{HashValueBits HV} `{!HashValueLaws HV} `{CryptoHasher HV}
  `{LeafHasher HV} `{HashValueKeys HV} `{!HashValueKeysLaws HV} {K : Type} `{Countable K} `{KeyHash HV K}
  {V : Type} `{!StateValueOps HV K V} {KS : Type} `{!StateValueWriter HV K V KS} `{!StateValueWriterLaws HV K V KS}
  {ST : Type} `{TreeStore HV K ST} `{!TreeStoreLaws HV K ST}
  {LI : Type} `{EqDecision LI} `{!LedgerInfoOps LI} {OUT MS NS : Type} `{!MetadataDb LI MS} `{!MetadataDbLaws LI MS} `{!SyncNode LI HV OUT NS}.
Implicit Types (items chunk : list (K * V)) (w : SyncWorld HV K V KS ST LI OUT MS NS) (r : SnapshotReceiver HV K LI OUT)
  (c : StateValueChunkWithProof HV K V) (proof : SparseMerkleRangeProof HV) (target : LI).

(** ** The end of the restore *)
Section Finish.
Context (v : Version).

Definition restored items (ks : KS) (st : ST) : Prop :=
  tree_at (stored st) v (item_leaves v items) /\ (forall k x, (k, x) ∈ items -> kv_values ks (k, v) = Some (Some x)) /\ kv_usage ks v = Some (usage_of items).

Lemma usage_of_progress items : match progress_of items with Some p => sp_usage p | None => StateStorageUsage.zero end = usage_of items.
Proof. unfold progress_of. destruct (list.last items) eqn:E; [done|]. by apply last_None in E as ->. Qed.

Lemma ssr_finish_inv pr items rw rw' : snapshot_restoring v pr items rw -> ssr_finish RestoreMode_Default v rw = (rw', Ok tt) -> restored items (fst rw') (fst (snd rw')).
Proof.
  intros Hr E. destruct (snapshot_inv v pr items rw Hr) as [Ht [Hv Hp]]. destruct (restoring_inv v _ _ _ Ht) as (Hrc & Ez & _).
  unfold ssr_finish, in_kv, in_tree, kv_restore_finish, pbind, reading in E. destruct (kv_get_progress (fst rw) v) as [o| |] eqn:Eo; [|done..]. apply kv_get_progress_spec in Eo. rewrite Hp in Eo. subst o.
  rewrite usage_of_progress in E. pose proof (kv_finish_spec v (usage_of items) (fst rw)) as Hf. destruct (kv_finish v (usage_of items) (fst rw)) as [ks [[]|e|e]]; [|done..].
  cbn [fst snd] in E. destruct (finish_impl (snd rw)) as [ts r2] eqn:Ef. injection E as <- ->. destruct Hf as [Hkeep Hus]. cbn [fst snd]. split_and!.
  - eapply finish_tree; [exact Hrc|by left|]. by rewrite Ef.
  - intros k x Hin. rewrite Hkeep. by apply Hv.
  - by apply Hus.
Qed.

Lemma ssr_finish_works pr items rw : snapshot_restoring v pr items rw -> (forall ks u, exists o, kv_get_progress ks u = Ok o) ->
  (forall u usage ks, exists ks', kv_finish u usage ks = (ks', Ok tt)) -> writes_work (HV := HV) (K := K) (ST := ST) ->
  exists rw', ssr_finish RestoreMode_Default v rw = (rw', Ok tt).
Proof.
  intros Hr Hget Hfin Hw. destruct (snapshot_inv v pr items rw Hr) as [Ht _]. destruct (restoring_inv v _ _ _ Ht) as (Hrc & Ez & _).
  unfold ssr_finish, in_kv, in_tree, kv_restore_finish, pbind, reading. destruct (Hget (fst rw) v) as [o ->]. destruct (Hfin v (match o with Some p => sp_usage p | None => StateStorageUsage.zero end) (fst rw)) as [ks ->].
  cbn [fst snd]. destruct (finish_works v _ (snd rw) Hrc ltac:(by left) Hw) as [ts ->]. by eexists.
Qed.
End Finish.

(** ** The progress *)
Lemma update_progress_inv target (i : Z) b (ms ms' : MS) : update_last_persisted_state_value_index target i b ms = (ms', Ok tt) ->
  md_stored ms' = Some (mkSyncProgress target i b).
Proof.
  unfold update_last_persisted_state_value_index, commit_key_value, pbind, reading. destruct (get_snapshot_progress ms) as [o| |]; [|done..].
  destruct (match o with Some p => _ | None => _ end) as [u| |]; [|done..]. intros E. pose proof (md_put_spec (mkSyncProgress target i b) ms) as Hp. by rewrite E in Hp.
Qed.

(** No sync to another target was started. *)
Definition same_target target (ms : MS) : Prop := match md_stored ms with Some p => target_ledger_info p = target | None => True end.

Lemma update_progress_works target (i : Z) b (ms : MS) : (forall ms, exists o, md_get ms = Ok o) -> (forall p ms, exists ms', md_put p ms = (ms', Ok tt)) ->
  same_target target ms -> exists ms', update_last_persisted_state_value_index target i b ms = (ms', Ok tt) /\ md_stored ms' = Some (mkSyncProgress target i b).
Proof.
  intros Hget Hput Hs. assert (Hex : exists ms', update_last_persisted_state_value_index target i b ms = (ms', Ok tt)).
  { unfold update_last_persisted_state_value_index, commit_key_value, pbind, reading, get_snapshot_progress. destruct (Hget ms) as [o Eo]. rewrite Eo. apply md_get_spec in Eo. subst o.
    unfold same_target in Hs. destruct (md_stored ms) as [p|]; [|apply Hput]. rewrite bool_decide_eq_true_2 by done. apply Hput. }
  destruct Hex as [ms' E]. exists ms'. split; [done|]. by apply update_progress_inv in E.
Qed.

(** ** The receiver *)

(** The task runs, with these keys and values accepted. *)
Record syncing (pr : option (SparseMerkleRangeProof HV)) items r w : Prop := {
  sy_receiver : sw_receiver w = Some r;
  sy_restore : snapshot_restoring (li_version (sr_target r)) pr items (sw_kv w, (sw_tree w, sr_restore r));
}.

Lemma syncing_queue pr items r w q : syncing pr items r w -> syncing pr items r (with_queue w q).
Proof. by intros [Hr Hs]. Qed.

Definition moved r (rs : JellyfishMerkleRestore HV K) : SnapshotReceiver HV K LI OUT := mkSnapshotReceiver rs (sr_epoch_change_proofs r) (sr_target r) (sr_output r).

(** The target of [w] was synced, with these keys and values. *)
Definition synced target items (index : Z) w : Prop :=
  sw_receiver w = None /\ restored (li_version target) items (sw_kv w) (sw_tree w) /\ md_stored (sw_metadata w) = Some (mkSyncProgress target index true).

Lemma finalize_inv pr items r i w w' : syncing pr items r w -> finalize_storage_and_send_commit r i w = (w', Ok tt) ->
  restored (li_version (sr_target r)) items (sw_kv w') (sw_tree w') /\ md_stored (sw_metadata w') = Some (mkSyncProgress (sr_target r) i true) /\ sw_errors w' = sw_errors w.
Proof.
  intros [_ Hr] E. unfold finalize_storage_and_send_commit in E.
  apply pbind_inv in E as [(w1 & [] & E1 & E)|[(e & _ & ?)|(e & _ & ?)]]; [|done..]. apply pbind_inv in E as [(w2 & [] & E2 & E)|[(e & _ & ?)|(e & _ & ?)]]; [|done..].
  apply pbind_inv in E as [(w3 & [] & E3 & E)|[(e & _ & ?)|(e & _ & ?)]]; [|done..]. apply pbind_inv in E as [(w4 & [] & E4 & E)|[(e & _ & ?)|(e & _ & ?)]]; [|done..].
  apply pbind_inv in E as [(w5 & [] & E5 & E)|[(e & _ & ?)|(e & _ & ?)]]; [|done..].
  unfold on_restore in E1. destruct (ssr_finish _ _ _) as [[ks [st rs]] a] eqn:Ef. injection E1 as <- ->. apply (ssr_finish_inv _ _ _ _ _ Hr) in Ef. cbn [fst snd] in Ef.
  unfold on_metadata in E3. unfold on_node in E2, E4, E5, E.
  destruct (finalize_state_snapshot _ _ _ _) in E2. injection E2 as <- ->. destruct (update_last_persisted_state_value_index _ _ _ _) as [ms a3] eqn:Em in E3. injection E3 as <- ->. apply update_progress_inv in Em.
  destruct (chunk_executor_reset _) in E4. injection E4 as <- ->. destruct (send_commit_notification _ _ _ _) in E5. injection E5 as <- ->. unfold reading in E. injection E as <- _. done.
Qed.

Lemma add_keeps_root v pr items rw rw' chunk proof : snapshot_restoring v pr items rw ->
  Z.of_nat (length items + length (skip_overlap (progress_of items) chunk)) < U64 ->
  ssr_add_chunk RestoreMode_Default v chunk proof rw = (rw', Ok tt) -> expected_root_hash (snd (snd rw')) = expected_root_hash (snd (snd rw)).
Proof.
  intros Hr Hb E. destruct (snapshot_inv v pr items rw Hr) as [Ht _]. apply join_inv in E as [_ E]. destruct (restoring_inv v _ _ _ Ht) as (Hrc & Ez & Hz & _).
  pose proof (skip_same v items chunk (snd (snd rw)) (rc_previous _ _ _ Hrc)) as Hl. apply (f_equal length) in Hl. rewrite hashed_chunk_length in Hl.
  assert (HlL : length (item_leaves v items) = length items) by (unfold item_leaves, chunk_leaves; rewrite length_map; apply hashed_chunk_length).
  assert (Hf : first_fits v (item_leaves v items) (snd (snd rw)) (skip_known (snd (snd rw)) (hashed_chunk chunk))) by (intros y _ Hn x d Hx; rewrite (Hz Hn) in Hx; done).
  assert (Hb' : Z.of_nat (length (item_leaves v items) + length (skip_known (snd (snd rw)) (hashed_chunk chunk))) < U64) by lia.
  destruct (add_chunk_received v _ _ _ _ _ Hrc Hb' Hf E) as [[_ ->]|(_ & _ & _ & _ & Er & _)]; [done|exact Er].
Qed.

Lemma receive_accepted pr items r w id c q ks st rs : syncing pr items r w -> sw_queue w = (id, c) :: q -> Z.of_nat (length items + length (skip_overlap (progress_of items) (sc_raw_values c))) < U64 ->
  ssr_add_chunk RestoreMode_Default (li_version (sr_target r)) (sc_raw_values c) (sc_proof c) (sw_kv w, (sw_tree w, sr_restore r)) = ((ks, (st, rs)), Ok tt) ->
  let new := skip_overlap (progress_of items) (sc_raw_values c) in
  let w1 := mkSyncWorld ks st (sw_metadata w) (sw_node w) (Some (moved r rs)) q (sw_errors w) (sw_pending w) in
  syncing (match new with [] => pr | _ => Some (sc_proof c) end) (items ++ new) (moved r rs) w1 /\ expected_root_hash rs = expected_root_hash (sr_restore r) /\
  receive_chunk w = chunk_added id c w1.
Proof.
  intros [Hrv Hr] Eq Hb E new w1. split_and!.
  - split; [done|]. by eapply snapshot_chunk.
  - by apply (add_keeps_root _ _ _ _ _ _ _ Hr Hb) in E.
  - unfold receive_chunk. rewrite Hrv, Eq. unfold on_restore. cbn [sw_kv sw_tree with_queue]. by rewrite E.
Qed.

(** The task ends without an error only after the last chunk was accepted. *)
Lemma receive_last pr items r w id c q w' : syncing pr items r w -> sw_queue w = (id, c) :: q -> Z.of_nat (length items + length (skip_overlap (progress_of items) (sc_raw_values c))) < U64 ->
  receive_chunk w = (w', Ok tt) -> sw_receiver w' = None -> sw_errors w' = sw_errors w ->
  let new := skip_overlap (progress_of items) (sc_raw_values c) in
  is_last_chunk c = true /\ synced (sr_target r) (items ++ new) (sc_last_index c) w' /\
  exists w1 rs, syncing (match new with [] => pr | _ => Some (sc_proof c) end) (items ++ new) (moved r rs) w1 /\ expected_root_hash rs = expected_root_hash (sr_restore r).
Proof.
  intros Hs Eq Hb E Hnone Herr new. pose proof (sy_receiver _ _ _ _ Hs) as Hrv.
  destruct (ssr_add_chunk RestoreMode_Default (li_version (sr_target r)) (sc_raw_values c) (sc_proof c) (sw_kv w, (sw_tree w, sr_restore r))) as [[ks [st rs]] a] eqn:Ea.
  destruct a as [[]|e|e].
  2: { exfalso. unfold receive_chunk in E. rewrite Hrv, Eq in E. unfold on_restore in E. cbn [sw_kv sw_tree with_queue] in E. rewrite Ea in E. by injection E as <-. }
  2: { exfalso. unfold receive_chunk in E. rewrite Hrv, Eq in E. unfold on_restore in E. cbn [sw_kv sw_tree with_queue] in E. by rewrite Ea in E. }
  destruct (receive_accepted _ _ _ _ _ _ _ _ _ _ Hs Eq Hb Ea) as (Hs1 & Er & Ec). fold new in Hs1. rewrite Ec in E. clear Ec. set (w1 := mkSyncWorld _ _ _ _ _ _ _ _) in *.
  unfold chunk_added in E. cbn [sw_receiver w1] in E. fold w1 in E. destruct (is_last_chunk c); cbn [negb] in E.
  2:{ exfalso. unfold pbind, reporting, on_metadata in E. destruct (update_last_persisted_state_value_index _ _ _ _) as [ms [[]|e|e]]; cbn in E; [by injection E as <-|by injection E as <-|done]. }
  split; [done|]. split; [|by exists w1, rs]. unfold pbind, reporting in E. destruct (finalize_storage_and_send_commit (moved r rs) (sc_last_index c) w1) as [w2 [[]|e|e]] eqn:Ef; cbn in E; [| |done].
  - apply (finalize_inv _ _ _ _ _ _ Hs1) in Ef as (Hre & Hm & _). injection E as <-. done.
  - exfalso. injection E as <-. cbn in Herr. assert (Hge : exists es, sw_errors w2 = sw_errors w1 ++ es).
    { clear -Ef. unfold finalize_storage_and_send_commit, on_restore, on_node, on_metadata, reading, pbind in Ef.
      destruct (ssr_finish _ _ _) as [[? [? ?]] [[]|?|?]]; [|by injection Ef as <- _; exists []; rewrite app_nil_r|done]. cbn [sw_node sw_metadata sw_errors] in Ef.
      destruct (finalize_state_snapshot _ _ _ _) as [? [[]|?|?]]; [|by injection Ef as <- _; exists []; rewrite app_nil_r|done]. cbn [sw_node sw_metadata sw_errors] in Ef.
      destruct (update_last_persisted_state_value_index _ _ _ _) as [? [[]|?|?]]; [|by injection Ef as <- _; exists []; rewrite app_nil_r|done]. cbn [sw_node sw_metadata sw_errors] in Ef.
      destruct (chunk_executor_reset _) as [? [[]|?|?]]; [|by injection Ef as <- _; exists []; rewrite app_nil_r|done]. cbn [sw_node sw_metadata sw_errors] in Ef.
      destruct (send_commit_notification _ _ _ _) as [? [[]|?|?]]; [|by injection Ef as <- _; exists []; rewrite app_nil_r|done].
      by injection Ef as <- _; exists []; rewrite app_nil_r. }
    destruct Hge as [es Hes]. rewrite Hes in Herr. cbn [sw_errors w1] in Herr. apply (f_equal length) in Herr. rewrite !length_app in Herr. cbn in Herr. lia.
Qed.

(** ** When nothing fails *)
Record sync_works : Prop := {
  ok_kv_get : forall (ks : KS) u, exists o, kv_get_progress ks u = Ok o;
  ok_kv_write : forall u batch p (ks : KS), exists ks', write_kv_batch u batch p ks = (ks', Ok tt);
  ok_kv_finish : forall u usage (ks : KS), exists ks', kv_finish u usage ks = (ks', Ok tt);
  ok_tree : writes_work (HV := HV) (K := K) (ST := ST);
  ok_md_get : forall ms : MS, exists o, md_get ms = Ok o;
  ok_md_put : forall p (ms : MS), exists ms', md_put p ms = (ms', Ok tt);
  ok_finalize : forall u (output : TransactionOutputList HV OUT) (proofs : list LI) (ns : NS), exists ns', finalize_state_snapshot u output proofs ns = (ns', Ok tt);
  ok_reset : forall ns : NS, exists ns', chunk_executor_reset ns = (ns', Ok tt);
  ok_commit : forall (o : OUT) i u (ns : NS), exists ns', send_commit_notification o i u ns = (ns', Ok tt);
  ok_gauges : forall ns : NS, initialize_sync_gauges ns = Ok tt;
  ok_open : forall q (ns : NS), exists ns', open_stream q ns = (ns', Ok tt);
  ok_terminate : forall q (ns : NS), exists ns', terminate_stream q ns = (ns', Ok tt);
}.

Lemma chunk_added_more id c w r : sync_works -> sw_receiver w = Some r -> is_last_chunk c = false -> same_target (sr_target r) (sw_metadata w) ->
  exists ms', chunk_added id c w =
    (mkSyncWorld (sw_kv w) (sw_tree w) ms' (sw_node w) (sw_receiver w) (sw_queue w) (sw_errors w) ((sw_pending w - 1) mod U64), Ok tt) /\
    md_stored ms' = Some (mkSyncProgress (sr_target r) (sc_last_index c) false).
Proof.
  intros Hw Er El Hs. unfold chunk_added. rewrite Er, El. cbn [negb]. unfold pbind, reporting, on_metadata.
  destruct (update_progress_works (sr_target r) (sc_last_index c) false (sw_metadata w) (ok_md_get Hw) (ok_md_put Hw) Hs) as (ms' & -> & Hm). exists ms'. split; [|done]. by rewrite <- Er.
Qed.

Lemma finalize_works pr items r i w : sync_works -> syncing pr items r w -> same_target (sr_target r) (sw_metadata w) ->
  exists w', finalize_storage_and_send_commit r i w = (w', Ok tt).
Proof.
  intros Hw [_ Hr] Hs. unfold finalize_storage_and_send_commit, pbind, on_restore, on_node, on_metadata, reading.
  destruct (ssr_finish_works _ _ _ _ Hr (ok_kv_get Hw) (ok_kv_finish Hw) (ok_tree Hw)) as [[ks [st rs]] ->]. cbn [sw_node sw_metadata sw_kv sw_tree].
  destruct (ok_finalize Hw (li_version (sr_target r)) (sr_output r) (sr_epoch_change_proofs r) (sw_node w)) as [n1 ->]. cbn [sw_node sw_metadata].
  destruct (update_progress_works (sr_target r) i true (sw_metadata w) (ok_md_get Hw) (ok_md_put Hw) Hs) as (ms' & -> & _). cbn [sw_node sw_metadata].
  destruct (ok_reset Hw n1) as [n2 ->]. cbn [sw_node]. destruct (ok_commit Hw (tl_transactions_and_outputs (sr_output r)) i (li_version (sr_target r)) n2) as [n3 ->]. cbn [sw_node].
  rewrite (ok_gauges Hw). by eexists.
Qed.

Lemma chunk_added_last pr items r w id c : sync_works -> syncing pr items r w -> is_last_chunk c = true -> same_target (sr_target r) (sw_metadata w) ->
  exists w', chunk_added id c w = (w', Ok tt) /\ synced (sr_target r) items (sc_last_index c) w' /\ sw_errors w' = sw_errors w.
Proof.
  intros Hw Hs El Ht. pose proof (sy_receiver _ _ _ _ Hs) as Er. destruct (finalize_works pr items r (sc_last_index c) w Hw Hs Ht) as [w1 Ef].
  unfold chunk_added. rewrite Er, El. cbn [negb]. unfold pbind, reporting. rewrite Ef. eexists. split; [done|]. apply (finalize_inv _ _ _ _ _ _ Hs) in Ef as (Hre & Hm & He). done.
Qed.
End StateSyncFacts.

(** ** Whole runs *)

Section StateSyncRun.
Context {HV : Type} `{HashValueOps HV} `{HashValueBits HV} `{!HashValueLaws HV} `{CryptoHasher HV}
  `{LeafHasher HV} `{HashValueKeys HV} `{!HashValueKeysLaws HV} {K : Type} `{Countable K} `{KeyHash HV K}
  {V : Type} `{!StateValueOps HV K V} {KS : Type} `{!StateValueWriter HV K V KS} `{!StateValueWriterLaws HV K V KS}
  {ST : Type} `{TreeStore HV K ST} `{!TreeStoreLaws HV K ST}
  {LI : Type} `{EqDecision LI} `{!LedgerInfoOps LI} {OUT MS NS : Type} `{!MetadataDb LI MS} `{!MetadataDbLaws LI MS} `{!SyncNode LI HV OUT NS}
  {SV : Type} `{!StateValueReader K V SV}.
Implicit Types (items chunk : list (K * V)) (w : SyncWorld HV K V KS ST LI OUT MS NS) (r : SnapshotReceiver HV K LI OUT)
  (b : Bootstrapper HV K V KS ST LI OUT MS NS) (c : StateValueChunkWithProof HV K V).

(** ** The rounds *)

(** A round: the stream may be reset after an error and opened again; then one chunk is
    fetched, checked and received. *)
Definition sync_round (reader : TreeReader HV K) (db : SV) (target : LI) (round : bool * nat) : prog (Bootstrapper HV K V KS ST LI OUT MS NS) unit :=
  _ <~ (if fst round then (_ <~ handle_storage_synchronizer_error 0; fetch_missing_state_snapshot_data 0 target)%prog else pret tt);
  index <~ reading (fun b => Ok (next_state_index_to_process (state_value_syncer b)));
  chunk <~ reading (fun _ => get_value_chunk_with_proof reader db (li_version target) index (Z.of_nat (snd round)));
  _ <~ process_state_values_payload 0 chunk;
  on_world receive_chunk.

(** Rounds, until the receiver has ended. *)
Fixpoint sync_rounds (reader : TreeReader HV K) (db : SV) (target : LI) (rounds : list (bool * nat)) : prog (Bootstrapper HV K V KS ST LI OUT MS NS) unit :=
  match rounds with
  | [] => pret tt
  | round :: rounds =>
      _ <~ sync_round reader db target round;
      running <~ reading (fun b => Ok (match sw_receiver (bs_world b) with Some _ => true | None => false end));
      if running : bool then sync_rounds reader db target rounds else pret tt
  end.

(** A chunk with the right indices and the root hash that is expected is sent to the task. *)
Lemma process_sent id b b1 r c tgt out : bs_mode b = DownloadLatestStates -> bs_should_fetch_epoch_ending_ledger_infos b = false ->
  ledger_info_to_sync (state_value_syncer b) = Some tgt -> transaction_output_to_sync (state_value_syncer b) = Some out ->
  (if initialized_state_snapshot_receiver (state_value_syncer b) then pret tt
   else (proofs <~ reading (fun self => Ok (if li_version tgt =? 0 then [tgt] else bs_epoch_ending_ledger_infos self));
     _ <~ on_world (initialize_state_synchronizer proofs tgt out);
     updating (fun self => with_syncer self (set_initialized (state_value_syncer self)))))%prog b = (b1, Ok tt) ->
  sw_receiver (bs_world b1) = Some r -> next_state_index_to_process (state_value_syncer b1) = sc_first_index c -> (1 <= length (sc_raw_values c))%nat ->
  sc_last_index c = sc_first_index c + Z.of_nat (length (sc_raw_values c)) - 1 -> 0 <= sc_first_index c -> sc_last_index c + 1 < U64 ->
  (info ← ok_or (head (tl_transaction_infos out)) ""; ensure_state_checkpoint_hash info) = Ok (sc_root_hash c) ->
  let w := with_queue (bs_world b1) (sw_queue (bs_world b1) ++ [(id, c)]) in
  process_state_values_payload id c b =
    (with_syncer (with_world b1 (fst (increment_pending_data_chunks w))) (update_next_state_index_to_process (state_value_syncer b1) (sc_last_index c + 1)), Ok tt).
Proof.
  intros Hm1 Hm2 Htg Ho E1 Hrv Hnx Hl1 Hla Hf Hu64 Hrt w. unfold process_state_values_payload.
  erewrite pbind_Ok; [|unfold reading; rewrite Hm1, Hm2; reflexivity]. cbn [is_fast_sync orb negb]. erewrite pbind_Ok; [|reflexivity]. rewrite Htg, Ho. erewrite pbind_Ok; [|reflexivity]. erewrite pbind_Ok; [|reflexivity].
  erewrite pbind_Ok; [|exact E1]. assert (Hidx : verify_states_values_indices id c b1 = (b1, Ok tt)).
  { unfold verify_states_values_indices, pbind, reading. rewrite Hnx, Z.eqb_refl. cbn [negb]. rewrite (proj2 (Z.ltb_ge _ _)) by lia. rewrite (proj2 (Z.leb_gt _ _)) by lia.
    replace (sc_last_index c - sc_first_index c + 1) with (Z.of_nat (length (sc_raw_values c))) by lia. by rewrite Z.eqb_refl. }
  erewrite pbind_Ok; [|exact Hidx]. destruct (head (tl_transaction_infos out)) as [info|]; [|done]. cbn [ok_or] in Hrt |- *. rewrite obind_Ok in Hrt.
  erewrite pbind_Ok; [|reflexivity]. rewrite Hrt. erewrite pbind_Ok; [|reflexivity]. rewrite bool_decide_eq_true_2 by done. cbn [negb].
  unfold save_state_values, on_world, pbind, reading, updating. rewrite Hrv. unfold increment_pending_data_chunks at 1. by rewrite (proj2 (Z.ltb_lt _ _)) by lia.
Qed.

(** Later leaves than the last are all of them. *)
Lemma solid_all v items (m : nat) : length items = m -> Forall (solid_to v (hashed_chunk items)) (seq 0 (S m)) -> forall n, solid_to v (hashed_chunk items) n.
Proof.
  intros Hm Hs n. rewrite Forall_forall in Hs. destruct (decide (n <= m)%nat) as [Hn|Hn]; [apply Hs, elem_of_seq; lia|].
  specialize (Hs m ltac:(apply elem_of_seq; lia)). unfold solid_to in *. assert (El : length (chunk_leaves v (hashed_chunk items)) = m) by (unfold chunk_leaves; by rewrite length_map, hashed_chunk_length).
  rewrite take_ge in Hs |- * by lia. exact Hs.
Qed.

Section Client.
Context (s : store (HV := HV) (K := K)) (reader : TreeReader HV K) (db : SV) (target : LI) (output : TransactionOutputList HV OUT) (lvs : list (LeafNode HV K)) (items : list (K * V)).
Let v := li_version target.
Let T := item_leaves v items.
Context (Hrd : reads reader s) (Ht : tree_at s v lvs) (Hu : Z.of_nat (length lvs) < U64) (Hh : holds db lvs items).
Context (Hroot : (info ← ok_or (head (tl_transaction_infos output)) ""; ensure_state_checkpoint_hash info) = Ok (smt_root (sl lvs))).
Context (Hsizes : Forall (fun kv : K * V => 0 <= key_size (fst kv) /\ 0 <= value_size (snd kv)) items) (Hsum : size_of items < U64).
Context (Hsolid : forall n, solid_to v (hashed_chunk items) n).
Context (Hworks : sync_works (HV := HV) (K := K) (V := V) (KS := KS) (ST := ST) (LI := LI) (OUT := OUT) (MS := MS) (NS := NS)).

(** The task of the receiver before the first chunk, and after [n] keys. *)
Definition receiving (n : nat) b : Prop :=
  let w := bs_world b in
  if initialized_state_snapshot_receiver (state_value_syncer b)
  then exists pr r, syncing pr (take n items) r w /\ sr_target r = target /\ expected_root_hash (sr_restore r) = smt_root (sl lvs)
  else n = O /\ kv_progress (sw_kv w) v = None /\ get_node_option (tree_reader (sw_tree w)) (pkey v []) "restore" = Ok None /\
    get_rightmost_leaf (tree_reader (sw_tree w)) v = Ok None.

(** The first [n] keys are received, and the one at [a] is asked for next. *)
Record synced_to (a n : nat) b : Prop := {
  st_mode : bs_mode b = DownloadLatestStates /\ bs_should_fetch_epoch_ending_ledger_infos b = false;
  st_target : ledger_info_to_sync (state_value_syncer b) = Some target;
  st_output : transaction_output_to_sync (state_value_syncer b) = Some output;
  st_next : next_state_index_to_process (state_value_syncer b) = Z.of_nat a;
  st_queue : sw_queue (bs_world b) = [];
  st_persisted : md_stored (sw_metadata (bs_world b)) = match n with O => None | S m => Some (mkSyncProgress target (Z.of_nat m) false) end;
  st_receiver : receiving n b;
}.

Lemma receiving_same n b b' : receiving n b -> initialized_state_snapshot_receiver (state_value_syncer b') = initialized_state_snapshot_receiver (state_value_syncer b) ->
  sw_kv (bs_world b') = sw_kv (bs_world b) -> sw_tree (bs_world b') = sw_tree (bs_world b) -> sw_receiver (bs_world b') = sw_receiver (bs_world b) -> receiving n b'.
Proof.
  unfold receiving. intros Hr -> Ek Et Er. rewrite Ek, Et. destruct (initialized_state_snapshot_receiver _); [|exact Hr].
  destruct Hr as (pr & r & [Hrv Hs] & Hr). exists pr, r. split; [|exact Hr]. split; [by rewrite Er|by rewrite Ek, Et].
Qed.

Lemma skip_overlap_slice (n a c : nat) (rs : JellyfishMerkleRestore HV K) : previous_leaf rs = list.last (item_leaves v (take n items)) ->
  (a <= n <= length items)%nat -> (c <= length items)%nat -> skip_overlap (progress_of (take n items)) (slice a c items) = slice n c items.
Proof.
  intros Hp Ha Hc. pose proof (items_sorted v s db lvs items Ht Hh) as Hsort.
  assert (ET : item_leaves v (take n items) = take n T) by (unfold T, item_leaves, chunk_leaves, hashed_chunk; by rewrite !map_map, firstn_map).
  rewrite ET in Hp. assert (Hsk : skip_known rs (slice a c (hashed_chunk items)) = slice n c (hashed_chunk items)).
  { apply (skip_slice v (hashed_chunk items) n a c rs Hsort); rewrite ?hashed_chunk_length; done. }
  assert (Esl : forall i j, slice i j (hashed_chunk items) = hashed_chunk (slice i j items)) by (intros i j; unfold slice, hashed_chunk; by rewrite skipn_map, firstn_map).
  rewrite !Esl in Hsk. rewrite (skip_same v (take n items)) in Hsk by (by rewrite ET). apply (f_equal length) in Hsk. rewrite !hashed_chunk_length in Hsk.
  assert (Hd : forall l : list (K * V), exists k, skip_overlap (progress_of (take n items)) l = drop k l) by (intros l; destruct (progress_of (take n items)); cbn [skip_overlap]; [by eexists|by exists O]).
  destruct (Hd (slice a c items)) as [k Ek]. rewrite Ek in Hsk |- *. assert (En : slice n c items = drop (n - a) (slice a c items)).
  { unfold slice. rewrite skipn_firstn_comm, drop_drop. f_equal; [lia|f_equal; lia]. }
  rewrite En in Hsk |- *. rewrite !length_drop in Hsk. assert (Hl : length (slice a c items) = (c - a)%nat) by (unfold slice; rewrite length_take, length_drop; lia). rewrite Hl in Hsk.
  destruct (decide (k <= c - a)%nat) as [Hk|Hk]; [destruct (decide (n - a <= c - a)%nat); [f_equal; lia|]|]; rewrite !drop_ge by lia; done.
Qed.

(** ** One chunk *)

(** A chunk that was asked for is accepted, and the task goes on from its last key. *)
Lemma chunk_accepted (n a c : nat) r w pr id q : syncing pr (take n items) r w -> sr_target r = target -> expected_root_hash (sr_restore r) = smt_root (sl lvs) ->
  (a <= n)%nat -> (a < c <= length items)%nat -> (n <= c)%nat -> sw_queue w = (id, served v lvs items a c) :: q ->
  exists ks st rs pr', let w1 := mkSyncWorld ks st (sw_metadata w) (sw_node w) (Some (moved r rs)) q (sw_errors w) (sw_pending w) in
    syncing pr' (take c items) (moved r rs) w1 /\ expected_root_hash rs = smt_root (sl lvs) /\ receive_chunk w = chunk_added id (served v lvs items a c) w1.
Proof.
  intros Hs Etg Er Ha Hc Hnc Eq. pose proof Hs as [_ Hr]. rewrite Etg in Hr. fold v in Hr. destruct (snapshot_inv v _ _ _ Hr) as [Hrt Hk]. destruct (restoring_inv v _ _ _ Hrt) as (Hrc & Ez & Hz & _).
  pose proof (items_sorted v s db lvs items Ht Hh) as Hsort. pose proof (items_length db lvs items Hh) as Hlen.
  assert (ET : item_leaves v (take n items) = take n T) by (unfold T, item_leaves, chunk_leaves, hashed_chunk; by rewrite !map_map, firstn_map).
  pose proof (skip_overlap_slice n a c (sr_restore r) (rc_previous _ _ _ Hrc) ltac:(lia) ltac:(lia)) as Hskip. rewrite ET in Hrc, Hz.
  destruct (honest_chunk v (hashed_chunk items) ltac:(rewrite hashed_chunk_length; lia) Hsort n a c (sw_tree w, sr_restore r) (ok_tree Hworks) Hrc Ez) as (w' & Ea & _).
  1: etrans; [exact Er|symmetry; exact (items_root v db lvs items Hh)].
  1,2: rewrite hashed_chunk_length; lia.
  1: apply Hsolid.
  1: intros y _ Hn x d Hx; specialize (Hz Hn); unfold T, item_leaves in Hz; by rewrite Hz in Hx.
  rewrite <- (served_backup v db lvs items Hh a c) in Ea. cbn [fst snd] in Ea. set (ch := served v lvs items a c) in *.
  assert (Eraw : sc_raw_values ch = slice a c items) by done.
  assert (Etake : take n items ++ slice n c items = take c items) by (apply take_slice; lia).
  assert (Hlc : length (slice n c items) = (c - n)%nat) by (unfold slice; rewrite length_take, length_drop; lia).
  destruct (kv_add_chunk_works v (take n items) (sc_raw_values ch) (sw_kv w) (ok_kv_get Hworks) (ok_kv_write Hworks) Hk) as [ks Ek];
    rewrite ?Eraw, ?Hskip, ?Etake; [by apply Forall_take|rewrite length_take, Hlc; lia| |].
  { rewrite <- (take_drop c items), size_of_app in Hsum. pose proof (size_nonneg (drop c items) ltac:(by apply Forall_drop)). lia. }
  destruct w' as [st rs]. pose proof (join_works v (sc_raw_values ch) (sc_proof ch) (sw_kv w, (sw_tree w, sr_restore r)) ks (st, rs) Ek Ea) as Ej.
  assert (Ev : v = li_version (sr_target r)) by (by rewrite Etg). rewrite Ev in Ej. assert (Hb : Z.of_nat (length (take n items) + length (skip_overlap (progress_of (take n items)) (sc_raw_values ch))) < U64) by (rewrite Eraw, Hskip, length_take, Hlc; lia).
  destruct (receive_accepted _ _ _ _ _ ch _ _ _ _ Hs Eq Hb Ej) as (Hs1 & Er1 & Erc). rewrite Eraw, Hskip, Etake in Hs1.
  exists ks, st, rs. eexists. cbn zeta. split; [exact Hs1|]. split; [congruence|exact Erc].
Qed.

(** ** The bootstrapper *)
Lemma fetch_works a n b : synced_to a n b -> exists b', fetch_missing_state_snapshot_data 0 target b = (b', Ok tt) /\ synced_to (pred n) n b'.
Proof.
  intros [Hm Htg Ho Hn Hq Hp Hr]. unfold fetch_missing_state_snapshot_data. cbn [Z.eqb]. destruct (ok_md_get Hworks (sw_metadata (bs_world b))) as [o Eo]. pose proof (md_get_spec _ _ Eo) as Es. rewrite Hp in Es. subst o.
  assert (Hf : exists b', fetch_missing_state_values target (match n with O => false | S _ => true end) b = (b', Ok tt) /\ synced_to (pred n) n b').
  { unfold fetch_missing_state_values, pbind, reading, updating, on_world, on_node. rewrite Htg, bool_decide_eq_true_2 by done. cbn [ensure]. rewrite Ho. destruct n as [|m].
    - cbn [bs_world with_syncer]. unfold pret. destruct (ok_open Hworks (AllStateValues (li_version target) (Some 0)) (sw_node (bs_world b))) as [ns ->]. eexists. split; [done|]. split; try done; by eapply receiving_same.
    - unfold get_last_persisted_state_value_index, get_snapshot_progress_at_target, get_snapshot_progress. rewrite Eo, obind_Ok. cbn [target_ledger_info].
      rewrite bool_decide_eq_false_2 by (intros Hne; by apply Hne). rewrite obind_Ok. cbn [last_persisted_state_value_index bs_world with_syncer].
      destruct (ok_open Hworks (AllStateValues (li_version target) (Some (Z.of_nat m))) (sw_node (bs_world b))) as [ns ->]. eexists. split; [done|]. split; try done; by eapply receiving_same. }
  unfold pbind at 1, reading at 1, previous_snapshot_sync_target, get_snapshot_progress. rewrite Eo, obind_Ok. destruct n as [|m]; cbn [option_map target_ledger_info]; [exact Hf|].
  unfold pbind at 1, reading at 1, is_snapshot_sync_complete, get_snapshot_progress_at_target, get_snapshot_progress. rewrite Eo, obind_Ok. cbn [target_ledger_info].
  rewrite bool_decide_eq_false_2 by (intros Hne; by apply Hne). rewrite obind_Ok. exact Hf.
Qed.

Lemma reset_works a n b : synced_to a n b -> exists b', handle_storage_synchronizer_error 0 b = (b', Ok tt) /\ synced_to a n b'.
Proof.
  intros [Hm Htg Ho Hn Hq Hp Hr]. unfold handle_storage_synchronizer_error, reset_active_stream, pbind, reading, updating, on_world, on_node, pret. pose proof Hm as [Hmode _]. destruct (bs_active_data_stream b).
  - destruct (ok_terminate Hworks (Some 0) (sw_node (bs_world b))) as [ns ->]. cbn [bs_mode with_stream with_world]. rewrite Hmode. eexists. split; [done|]. split; try done; by eapply receiving_same.
  - cbn [bs_mode with_stream]. rewrite Hmode. eexists. split; [done|]. split; try done; by eapply receiving_same.
Qed.

(** The task runs once the first chunk is there. *)
Lemma initialize_works n b proofs : receiving n b -> initialized_state_snapshot_receiver (state_value_syncer b) = false ->
  exists r pr, initialize_state_synchronizer proofs target output (bs_world b) = (with_queue (with_receiver (bs_world b) (Some r)) [], Ok tt) /\
    syncing pr (take n items) r (with_queue (with_receiver (bs_world b) (Some r)) []) /\ sr_target r = target /\ expected_root_hash (sr_restore r) = smt_root (sl lvs).
Proof.
  unfold receiving. intros Hr Ei. rewrite Ei in Hr. destruct Hr as (-> & Hk & Hroot0 & Hright). unfold initialize_state_synchronizer.
  destruct (head (tl_transaction_infos output)) as [info|]; [|done]. cbn [ok_or] in Hroot. rewrite obind_Ok in Hroot. unfold ensure_state_checkpoint_hash in Hroot.
  cbn [expect]. rewrite obind_Ok. destruct (state_checkpoint_hash info) as [h|]; [|done]. injection Hroot as ->. cbn [expect]. rewrite obind_Ok.
  unfold get_snapshot_receiver. rewrite (Restore_new_start v (tree_reader (sw_tree (bs_world b))) _ false Hroot0 Hright).
  eexists _, None. split; [done|]. split; [|done]. split; [done|]. by apply snapshot_start.
Qed.

Lemma syncer_eta (x : StateValueSyncer HV LI OUT) :
  x = mkStateValueSyncer (initialized_state_snapshot_receiver x) (ledger_info_to_sync x) (next_state_index_to_process x) (transaction_output_to_sync x).
Proof. by destruct x. Qed.

(** A chunk that was asked for passes the checks and is sent to the task. *)
Lemma process_works a n (c : nat) b : synced_to a n b -> (a < c <= length items)%nat -> let ch := served v lvs items a c in
  exists b' r pr, process_state_values_payload 0 ch b = (b', Ok tt) /\ syncing pr (take n items) r (bs_world b') /\ sr_target r = target /\
    expected_root_hash (sr_restore r) = smt_root (sl lvs) /\ sw_queue (bs_world b') = [(0, ch)] /\ sw_metadata (bs_world b') = sw_metadata (bs_world b) /\
    (bs_mode b' = DownloadLatestStates /\ bs_should_fetch_epoch_ending_ledger_infos b' = false) /\
    state_value_syncer b' = mkStateValueSyncer true (Some target) (Z.of_nat c) (Some output).
Proof.
  intros [[Hm1 Hm2] Htg Ho Hn Hq Hp Hr] Hc ch. pose proof (items_length db lvs items Hh) as Hlen.
  assert (Hinit : exists b1 r pr, (if initialized_state_snapshot_receiver (state_value_syncer b) then pret tt
        else (proofs <~ reading (fun self => Ok (if li_version target =? 0 then [target] else bs_epoch_ending_ledger_infos self));
          _ <~ on_world (initialize_state_synchronizer proofs target output);
          updating (fun self => with_syncer self (set_initialized (state_value_syncer self)))))%prog b = (b1, Ok tt) /\
      syncing pr (take n items) r (bs_world b1) /\ sr_target r = target /\ expected_root_hash (sr_restore r) = smt_root (sl lvs) /\ sw_queue (bs_world b1) = [] /\
      sw_metadata (bs_world b1) = sw_metadata (bs_world b) /\ (bs_mode b1 = DownloadLatestStates /\ bs_should_fetch_epoch_ending_ledger_infos b1 = false) /\
      state_value_syncer b1 = mkStateValueSyncer true (Some target) (Z.of_nat a) (Some output)).
  { destruct (initialized_state_snapshot_receiver (state_value_syncer b)) eqn:Ei.
    - unfold receiving in Hr. rewrite Ei in Hr. destruct Hr as (pr & r & Hs & Hr1 & Hr2). exists b, r, pr. split_and!; try done. rewrite (syncer_eta (state_value_syncer b)). by rewrite Ei, Htg, Hn, Ho.
    - destruct (initialize_works n b (if li_version target =? 0 then [target] else bs_epoch_ending_ledger_infos b) Hr Ei) as (r & pr & E & Hs & Hr1 & Hr2).
      unfold pbind, reading, on_world, updating. rewrite E. eexists _, r, pr. split; [done|]. split_and!; try done. cbn. unfold set_initialized. by rewrite Htg, Ho, Hn. }
  destruct Hinit as (b1 & r & pr & E1 & Hs & Hr1 & Hr2 & Hq1 & Hm & Hmode & Hsy).
  assert (Hls : length (sc_raw_values ch) = (c - a)%nat) by (cbn [ch served sc_raw_values]; unfold slice; rewrite length_take, length_drop; lia).
  pose proof (process_sent 0 b b1 r ch target output Hm1 Hm2 Htg Ho E1 (sy_receiver _ _ _ _ Hs)) as E. cbn zeta in E. rewrite Hls in E. change (sc_last_index ch) with (Z.of_nat c - 1) in E.
  change (sc_first_index ch) with (Z.of_nat a) in E. specialize (E ltac:(by rewrite Hsy) ltac:(lia) ltac:(lia) ltac:(lia) ltac:(lia) Hroot).
  eexists _, r, pr. split; [exact E|]. split_and!; try done; [by destruct Hs; split|cbn; by rewrite Hq1|cbn; tauto..|].
  cbn [with_syncer with_world state_value_syncer]. unfold update_next_state_index_to_process. rewrite Hsy. cbn. f_equal. lia.
Qed.

(** ** Rounds *)

(** A round that brings new keys, wherever it starts: after a reset, the last key that was
    received is asked for again. *)
Definition productive (round : bool * nat) : Prop := fst round = false \/ (2 <= snd round)%nat.

#[global] Instance productive_dec round : Decision (productive round).
Proof. unfold productive. apply _. Defined.

(** A round; the task ends with the last keys. *)
Lemma round_works n b (reset : bool) (size : nat) : synced_to n n b -> (n < length items)%nat -> (1 <= size)%nat ->
  exists (c : nat) b', (n <= c <= length items)%nat /\ (0 < c)%nat /\ (productive (reset, size) -> (n < c)%nat) /\ sync_round reader db target (reset, size) b = (b', Ok tt) /\
    if decide (c = length items) then synced target items (Z.of_nat (length items) - 1) (bs_world b') else synced_to c c b'.
Proof.
  intros Hs Hn Hsz. pose proof (items_length db lvs items Hh) as Hlen.
  assert (Hreset : exists a b1, (if reset then (_ <~ handle_storage_synchronizer_error 0; fetch_missing_state_snapshot_data 0 target)%prog else pret tt) b = (b1, Ok tt) /\
      (a <= n <= a + size)%nat /\ (productive (reset, size) -> (n < a + size)%nat) /\ synced_to a n b1).
  { unfold productive. cbn [fst snd]. destruct reset; [|exists n, b; split_and!; [done|lia..|done]]. destruct (reset_works n n b Hs) as (b0 & E0 & Hs0). destruct (fetch_works n n b0 Hs0) as (b1 & E1 & Hs1).
    exists (pred n), b1. split_and!; [by rewrite (pbind_Ok _ _ _ _ _ E0)|lia|lia|intros [|]; [done|lia]|done]. }
  destruct Hreset as (a & b1 & E1 & Ha & Hp & Hs1). set (c := ((a + size) `min` length items)%nat). assert (Hc : (n <= c <= length items)%nat) by (unfold c; lia).
  assert (Hac : (a < c)%nat) by (unfold c; lia). assert (Hprod : productive (reset, size) -> (n < c)%nat) by (intros Hpr%Hp; unfold c; lia).
  destruct (process_works a n c b1 Hs1 ltac:(lia)) as (b2 & r & pr & E2 & Hsy & Htg & Her & Hq & Hm & Hmode & Hsyn). set (ch := served v lvs items a c) in *.
  destruct (chunk_accepted n a c r (bs_world b2) pr 0 [] Hsy Htg Her ltac:(lia) ltac:(lia) ltac:(lia) Hq) as (ks & st & rs & pr' & Hsy' & Her' & E3). cbn zeta in Hsy', E3. fold ch in E3. set (w3 := mkSyncWorld _ _ _ _ _ _ _ _) in *.
  assert (Hround : sync_round reader db target (reset, size) b = on_world receive_chunk b2).
  { unfold sync_round. cbn [fst snd]. rewrite (pbind_Ok _ _ _ _ _ E1). erewrite pbind_Ok; [|unfold reading; rewrite (st_next _ _ _ Hs1); reflexivity].
    pose proof (get_value_chunk_spec (li_version target) reader s db lvs items Hrd Ht Hu Hh a size ltac:(lia) ltac:(lia)) as Eg. fold c in Eg. fold v in Eg. fold ch in Eg.
    cbv beta. erewrite pbind_Ok; [|exact (f_equal (pair b1) Eg)]. change (served (li_version target) lvs items a c) with ch. by rewrite (pbind_Ok _ _ _ _ _ E2). }
  exists c. rewrite Hround. unfold on_world. rewrite E3. assert (Hlast : is_last_chunk ch = bool_decide (c = length items)).
  { apply (served_last v s db lvs items Ht Hh a c); [lia|]. specialize (Hsolid (length items)). unfold solid_to in Hsolid. rewrite take_ge in Hsolid; [exact Hsolid|]. unfold chunk_leaves. by rewrite length_map, hashed_chunk_length. }
  assert (Hsame : same_target (sr_target (moved r rs)) (sw_metadata w3)).
  { unfold same_target. cbn [sw_metadata w3 sr_target moved]. rewrite Hm, (st_persisted _ _ _ Hs1), Htg. by destruct n. }
  destruct (decide (c = length items)) as [Ec|Hne].
  - rewrite bool_decide_eq_true_2 in Hlast by done. destruct (chunk_added_last pr' (take c items) (moved r rs) w3 0 ch Hworks Hsy' Hlast Hsame) as (w4 & -> & Hsynced & _).
    eexists. split_and!; [lia|lia|lia|done|done|]. rewrite Ec, firstn_all in Hsynced. cbn [sr_target moved] in Hsynced. rewrite Htg in Hsynced.
    replace (Z.of_nat (length items) - 1) with (sc_last_index ch); [exact Hsynced|]. change (sc_last_index ch) with (Z.of_nat c - 1). by rewrite Ec.
  - rewrite bool_decide_eq_false_2 in Hlast by done. destruct (chunk_added_more 0 ch w3 (moved r rs) Hworks (sy_receiver _ _ _ _ Hsy') Hlast Hsame) as (ms & -> & Hms).
    eexists. split_and!; [lia|lia|lia|done|done|]. split; try done.
    + cbn [with_world state_value_syncer]. by rewrite Hsyn.
    + cbn [with_world state_value_syncer]. by rewrite Hsyn.
    + cbn [with_world state_value_syncer]. by rewrite Hsyn.
    + cbn [with_world bs_world sw_metadata]. rewrite Hms. cbn [sr_target moved]. rewrite Htg. change (sc_last_index ch) with (Z.of_nat c - 1). destruct c as [|m]; [lia|]. do 2 f_equal. lia.
    + unfold receiving. cbn [with_world state_value_syncer bs_world]. rewrite Hsyn. cbn [initialized_state_snapshot_receiver]. exists pr', (moved r rs). split; [|done].
      destruct Hsy' as [Hr1 Hr2]. by split.
Qed.

Lemma rounds_work : forall rounds n b, synced_to n n b -> (n < length items)%nat -> (length items <= n + length (filter productive rounds))%nat -> Forall (fun round => (1 <= snd round)%nat) rounds ->
  exists b', sync_rounds reader db target rounds b = (b', Ok tt) /\ synced target items (Z.of_nat (length items) - 1) (bs_world b').
Proof.
  induction rounds as [|[reset size] rounds IH]; intros n b Hs Hn Hl Hsz; [cbn in Hl; lia|]. apply Forall_cons in Hsz as [Hsize Hsz]. cbn [snd] in Hsize. rewrite filter_cons in Hl.
  destruct (round_works n b reset size Hs Hn Hsize) as (c & b1 & Hc & Hc0 & Hprod & E1 & Hb1). cbn [sync_rounds]. rewrite (pbind_Ok _ _ _ _ _ E1). unfold pbind, reading. destruct (decide (c = length items)) as [Ec|Hne].
  - pose proof Hb1 as [-> _]. by exists b1.
  - assert (Hrv : exists r, sw_receiver (bs_world b1) = Some r).
    { pose proof (st_receiver _ _ _ Hb1) as Hr. unfold receiving in Hr. destruct (initialized_state_snapshot_receiver _); [destruct Hr as (pr & r & [Hr _] & _); by exists r|]. destruct Hr as [-> _]. lia. }
    destruct Hrv as [r ->]. apply (IH c); [done|lia| |done]. case_decide as Hpr; [specialize (Hprod Hpr)|]; cbn [length] in Hl; lia.
Qed.
End Client.
End StateSyncRun.
