(* ===== verification/StateSyncTheorems.v ===== *)
(** * Syncing the state: the properties

    A node that serves a tree and one that syncs it end with the same root hash, whatever
    the sizes of the chunks, of at least one key, and the resets of the stream, if the
    rounds that bring something new are enough.  What is synced is never more
    than the state with the expected root hash; but it can be less: a chunk with only known
    keys is accepted unchecked, and ends the sync if its proof has no right siblings. *)
From stdpp Require Import base list numbers strings option gmap sorting.
From Stdlib Require Import ZArith Lia Bool Sorted.
From S2P Require Import Prelude Hash ToyHash AccumulatorProof SparseMerkleProof SparseSpec SparseFacts SparseClash SparseTheorems NibblePath NibblePathFacts ByteCodec JellyfishNode JellyfishNodeFacts JellyfishHash JellyfishSpec JellyfishTree JellyfishRead JellyfishRuns JellyfishBatch JellyfishUpdate JellyfishCommit JellyfishHistory JellyfishTheorems JellyfishIterator JellyfishIterate JellyfishRestore JellyfishRestoreFacts JellyfishRestoreAdd JellyfishRestoreVerify JellyfishRestoreSound JellyfishRestoreChunks JellyfishRestoreFinish JellyfishRestoreRun JellyfishRestoreTheorems LedgerMetadata StateRestore StateRestoreFacts StateSync StateSyncFacts.

Section StateSyncTheorems.
Context {HV : Type} `{HashValueOps HV} `{HashValueBits HV} `{!HashValueLaws HV} `{CryptoHasher HV}
  `{LeafHasher HV} `{HashValueKeys HV} `{!HashValueKeysLaws HV} {K : Type} `{Countable K} `{KeyHash HV K}
  {V : Type} `{!StateValueOps HV K V} {KS : Type} `{!StateValueWriter HV K V KS} `{!StateValueWriterLaws HV K V KS}
  {ST : Type} `{TreeStore HV K ST} `{!TreeStoreLaws HV K ST}
  {LI : Type} `{EqDecision LI} `{!LedgerInfoOps LI} {OUT MS NS : Type} `{!MetadataDb LI MS} `{!MetadataDbLaws LI MS} `{!SyncNode LI HV OUT NS}
  {SV : Type} `{!StateValueReader K V SV}.
Implicit Types (items chunk : list (K * V)) (w : SyncWorld HV K V KS ST LI OUT MS NS) (r : SnapshotReceiver HV K LI OUT)
  (b : Bootstrapper HV K V KS ST LI OUT MS NS) (c : StateValueChunkWithProof HV K V).

(** C11: if the task of the receiver ends without an error, then the tree that is written has
    the keys that were accepted, with the hashes of the values that were stored, and is the
    tree with the expected root hash up to the last of these keys; it is all of that tree
    if the last chunk had a new key; unless there is a clash of hashes. *)
Theorem sync_sound pr items r w id c q w' kvs : let new := skip_overlap (progress_of items) (sc_raw_values c) in
  syncing pr items r w -> sw_queue w = (id, c) :: q -> Z.of_nat (length items + length new) < U64 ->
  receive_chunk w = (w', Ok tt) -> sw_receiver w' = None -> sw_errors w' = sw_errors w ->
  NoDup (map leaf_key kvs) -> expected_root_hash (sr_restore r) = smt_root kvs ->
  let all := items ++ new in let L := item_leaves (li_version (sr_target r)) all in
  synced (sr_target r) all (sc_last_index c) w' /\
  match match new with [] => pr | _ => Some (sc_proof c) end with
  | None => all = []
  | Some proof => exists x, list.last L = Some x /\
      ((sl L ≡ₚ upto (account_key x) kvs /\ (new <> [] -> upto (account_key x) kvs = kvs)) \/
       exists m, (m <= 256)%nat /\ clash (things 256 0 kvs ++ things 256 0 (sl L) ++ checked L x (srp_right_siblings proof) m))
  end.
Proof.
  intros new Hs Eq Hb E Hnone Herr Hnd Er all L. destruct (receive_last pr items r w id c q w' Hs Eq Hb E Hnone Herr) as (Hlast & Hsy & w1 & rs & Hs1 & Er1). fold new all in Hsy, Hs1.
  split; [done|]. destruct Hs1 as [_ Hr]. destruct (snapshot_inv _ _ _ _ Hr) as [Ht _]. destruct (restoring_inv _ _ _ _ Ht) as (Hrc & _ & _ & Hpr). cbn [sr_target moved sr_restore snd] in Hrc, Hpr. fold L in Hrc, Hpr.
  destruct (match new with [] => pr | _ => Some (sc_proof c) end) as [proof|] eqn:Ep.
  - rewrite Er1, Er in Hpr. destruct (accepted_sound (li_version (sr_target r)) L proof kvs (rc_sorted _ _ _ Hrc) Hnd Hpr) as (x & Hx & Hor).
    exists x. split; [done|]. destruct Hor as [[Hp Hn]|Hc]; [left|by right]. split; [done|]. intros Hne. apply Hn. destruct new; [done|]. injection Ep as <-.
    unfold no_rights. rewrite Forall_forall. intros h Hh. unfold is_last_chunk in Hlast. rewrite forallb_forall in Hlast. apply (bool_decide_eq_true_1 _), Hlast. by apply list_elem_of_In.
  - apply (f_equal length) in Hpr. unfold L, item_leaves, chunk_leaves in Hpr. rewrite length_map, hashed_chunk_length in Hpr. by apply nil_length_inv in Hpr.
Qed.

(** C12: a node that is asked for the chunks of its tree, which is not empty, from wherever the new node goes on,
    and a new node that checks and restores them and may reset its stream before each of
    them, end with the tree, the values and the usage of the state, if nothing fails.  The
    chunks have at least one key.  A round that resets the stream and then gets a single
    key brings nothing new, since the last key received is asked for again; there are at
    least as many other rounds as keys.  The one exception is that a leaf or a node of the
    tree over some of the first leaves has the placeholder, the hash of an empty tree, for
    its hash. *)
Theorem sync_completes s reader (db : SV) target output lvs items rounds b : reads reader s -> tree_at s (li_version target) lvs -> Z.of_nat (length lvs) < U64 -> holds db lvs items ->
  (info ← ok_or (head (tl_transaction_infos output)) ""; ensure_state_checkpoint_hash info) = Ok (smt_root (sl lvs)) ->
  Forall (fun kv : K * V => 0 <= key_size (fst kv) /\ 0 <= value_size (snd kv)) items -> size_of items < U64 ->
  sync_works (HV := HV) (K := K) (V := V) (KS := KS) (ST := ST) (LI := LI) (OUT := OUT) (MS := MS) (NS := NS) ->
  synced_to target output lvs items 0 0 b -> lvs <> [] -> (length lvs <= length (filter productive rounds))%nat -> Forall (fun round => (1 <= snd round)%nat) rounds ->
  (exists b', sync_rounds reader db target rounds b = (b', Ok tt) /\ synced target items (Z.of_nat (length lvs) - 1) (bs_world b') /\
    jmt_get_root_hash (tree_reader (sw_tree (bs_world b'))) (li_version target) = Ok (smt_root (sl lvs))) \/
  exists n, (n <= length lvs)%nat /\ placeholder_clash (things 256 0 (sl (take n (item_leaves (li_version target) items)))).
Proof.
  intros Hrd Ht Hu Hh Hroot Hsz Hsum Hw Hs Hne Hl Hr. pose proof (items_length db lvs items Hh) as Hlen. assert (Hpos : (0 < length lvs)%nat) by (destruct lvs; [done|cbn; lia]).
  destruct (solid_or_clash (li_version target) (hashed_chunk items) (seq 0 (S (length lvs)))) as [Hsol|(n & Hn & Hc)]; [left|right; exists n; split; [apply elem_of_seq in Hn; lia|exact Hc]].
  pose proof (solid_all (li_version target) items (length lvs) Hlen Hsol) as Hsolid.
  destruct (rounds_work s reader db target output lvs items Hrd Ht Hu Hh Hroot Hsz Hsum Hsolid Hw rounds 0 b Hs) as (b' & E & Hsy); [lia|lia|done|]. rewrite Hlen in Hsy.
  exists b'. split; [done|]. split; [done|]. destruct Hsy as (_ & (Htr & _) & _).
  rewrite (jmt_root_hash_spec _ _ _ _ (stored_reads _) Htr). f_equal. exact (items_root _ db lvs items Hh).
Qed.

(** C13: but once some keys are received, a chunk with only these keys and with a proof that
    has no right siblings passes the checks of the bootstrapper and is accepted without a
    look at its values and its proof; it ends the sync, marked as complete, with the part
    of the state that was received. *)
Theorem sync_cut_short pr items r target output b id c : bs_mode b = DownloadLatestStates -> bs_should_fetch_epoch_ending_ledger_infos b = false ->
  let syncer := state_value_syncer b in
  initialized_state_snapshot_receiver syncer = true -> ledger_info_to_sync syncer = Some target -> transaction_output_to_sync syncer = Some output ->
  syncing pr items r (bs_world b) -> sr_target r = target -> sw_queue (bs_world b) = [] -> same_target target (sw_metadata (bs_world b)) ->
  sync_works (HV := HV) (K := K) (V := V) (KS := KS) (ST := ST) (LI := LI) (OUT := OUT) (MS := MS) (NS := NS) ->
  next_state_index_to_process syncer = sc_first_index c -> (1 <= length (sc_raw_values c))%nat ->
  sc_last_index c = sc_first_index c + Z.of_nat (length (sc_raw_values c)) - 1 -> 0 <= sc_first_index c -> sc_last_index c + 1 < U64 ->
  (info ← ok_or (head (tl_transaction_infos output)) ""; ensure_state_checkpoint_hash info) = Ok (sc_root_hash c) ->
  items <> [] ->
  Forall (fun kv : K * V => key_hash (fst kv) ∈ map (fun kv : K * V => key_hash (fst kv)) items) (sc_raw_values c) -> is_last_chunk c = true ->
  exists b1 b2, process_state_values_payload id c b = (b1, Ok tt) /\ on_world receive_chunk b1 = (b2, Ok tt) /\
    sw_errors (bs_world b2) = sw_errors (bs_world b) /\ synced target items (sc_last_index c) (bs_world b2).
Proof.
  intros Hm1 Hm2 syncer Hi Htg Ho Hs Et Hq Hsame Hw Hnx Hl1 Hla Hf Hu64 Hroot Hne Hkeys Hlast.
  pose proof (process_sent id b b r c target output Hm1 Hm2 Htg Ho) as E. fold syncer in E. rewrite Hi in E. specialize (E eq_refl (sy_receiver _ _ _ _ Hs) Hnx Hl1 Hla Hf Hu64 Hroot). cbn zeta in E.
  set (b1 := with_syncer _ _) in E. exists b1. assert (Hs1 : syncing pr items r (bs_world b1)) by (destruct Hs; by split). assert (Hq1 : sw_queue (bs_world b1) = [(id, c)]) by (cbn; by rewrite Hq).
  destruct Hs as [_ Hr]. destruct (snapshot_inv _ _ _ _ Hr) as [Ht Hk]. destruct (restoring_inv _ _ _ _ Ht) as (Hrc & _).
  pose proof (skip_all (li_version (sr_target r)) items (sc_raw_values c) (rc_sorted _ _ _ Hrc) Hne Hkeys) as Hskip.
  assert (Ek : kv_add_chunk (li_version (sr_target r)) (sc_raw_values c) (sw_kv (bs_world b)) = (sw_kv (bs_world b), Ok tt)).
  { unfold kv_add_chunk. destruct (ok_kv_get Hw (sw_kv (bs_world b)) (li_version (sr_target r))) as [o Eo]. erewrite pbind_Ok; [|unfold reading; by rewrite Eo].
    apply kv_get_progress_spec in Eo. pose proof (kr_progress _ _ _ Hk) as Hkp. cbn [fst] in Hkp. rewrite Hkp in Eo. subst o. by rewrite Hskip. }
  assert (Ea : add_chunk_impl (hashed_chunk (sc_raw_values c)) (sc_proof c) (sw_tree (bs_world b), sr_restore r) = ((sw_tree (bs_world b), sr_restore r), Ok tt)).
  { unfold add_chunk_impl. pose proof (rc_open _ _ _ Hrc) as Eopen. cbn [snd] in Eopen |- *. rewrite Eopen, (skip_same _ items _ _ (rc_previous _ _ _ Hrc)), Hskip. done. }
  pose proof (join_works (li_version (sr_target r)) _ _ (sw_kv (bs_world b), (sw_tree (bs_world b), sr_restore r)) _ _ Ek Ea) as Ej.
  assert (Hb : Z.of_nat (length items + length (skip_overlap (progress_of items) (sc_raw_values c))) < U64).
  { rewrite Hskip, Nat.add_0_r. pose proof (rc_bound _ _ _ Hrc) as Hb. unfold item_leaves, chunk_leaves in Hb. by rewrite length_map, hashed_chunk_length in Hb. }
  destruct (receive_accepted _ _ _ _ _ _ _ _ _ _ Hs1 Hq1 Hb Ej) as (Hs2 & _ & Erc). rewrite Hskip, app_nil_r in Hs2.
  destruct (chunk_added_last _ _ _ _ id c Hw Hs2 Hlast) as (w3 & E3 & Hsy & Herr); [by cbn; rewrite Et|]. exists (with_world b1 w3). split; [exact E|].
  unfold on_world. rewrite Erc, E3. cbn [sr_target moved] in Hsy. rewrite Et in Hsy. done.
Qed.
End StateSyncTheorems.

(** ** A node in memory *)
Record memory_values := mkMemoryValues {
  mv_values : gmap (Z * Version) (option bytes32);
  mv_progress : gmap Version (StateSnapshotProgress bytes32);
  mv_usage : gmap Version StateStorageUsage;
}.

#[export] Instance toy_value_ops : StateValueOps bytes32 Z bytes32 := {| key_size := fun _ => 8; value_size := fun _ => 32; hash_of_value := fun x => x |}.

#[export] Instance memory_value_writer : StateValueWriter bytes32 Z bytes32 memory_values := {|
  write_kv_batch := fun v batch p m => (mkMemoryValues (batch ∪ mv_values m) (<[v := p]> (mv_progress m)) (mv_usage m), Ok tt);
  kv_finish := fun v usage m => (mkMemoryValues (mv_values m) (mv_progress m) (<[v := usage]> (mv_usage m)), Ok tt);
  kv_get_progress := fun m v => Ok (mv_progress m !! v);
|}.

#[export] Instance memory_value_laws : StateValueWriterLaws bytes32 Z bytes32 memory_values.
Proof.
  refine {| kv_values := fun m k => mv_values m !! k; kv_progress := fun m v => mv_progress m !! v; kv_usage := fun m v => mv_usage m !! v |}.
  - intros m v o E. by injection E as <-.
  - intros v batch p m. cbn. split; [intros k; rewrite lookup_union; by destruct (batch !! k), (mv_values m !! k)|].
    intros u. destruct (decide (u = v)) as [->|Hne]; [by rewrite lookup_insert_eq|by rewrite lookup_insert_ne].
  - intros v usage m. cbn. split; [done|]. intros _. by rewrite lookup_insert_eq.
Defined.

(** Ledger infos are versions. *)
#[export] Instance toy_ledger_infos : LedgerInfoOps Z := fun v => v.

#[export] Instance memory_progress : MetadataDb Z (option (SyncProgress Z)) := {| md_get := fun m => Ok m; md_put := fun p _ => (Some p, Ok tt) |}.

#[export] Instance memory_progress_laws : MetadataDbLaws Z (option (SyncProgress Z)).
Proof. refine {| md_stored := fun m => m |}; [by intros m o [= <-]|done]. Defined.

#[export] Instance toy_sync_node : SyncNode Z bytes32 unit unit := {|
  finalize_state_snapshot := fun _ _ _ n => (n, Ok tt);
  chunk_executor_reset := fun n => (n, Ok tt);
  send_commit_notification := fun _ _ _ n => (n, Ok tt);
  initialize_sync_gauges := fun _ => Ok tt;
  open_stream := fun _ n => (n, Ok tt);
  terminate_stream := fun _ n => (n, Ok tt);
  notify_bootstrap_listener := fun n => (n, Ok tt);
  finish_chunk_executor := fun n => (n, Ok tt);
  fallback_to_outputs := fun n => (n, Ok tt);
|}.

Abbreviation toy_world := (SyncWorld bytes32 Z bytes32 memory_values memory_nodes Z unit (option (SyncProgress Z)) unit).
Abbreviation toy_bootstrapper := (Bootstrapper bytes32 Z bytes32 memory_values memory_nodes Z unit (option (SyncProgress Z)) unit).

Lemma memory_sync_works : sync_works (HV := bytes32) (K := Z) (V := bytes32) (KS := memory_values) (ST := memory_nodes) (LI := Z) (OUT := unit) (MS := option (SyncProgress Z)) (NS := unit).
Proof. split; intros; cbn; try (by eexists); try done. Qed.

(** The node that serves: the nodes of the tree, and the values. *)
Definition toy_items : list (Z * bytes32) := toy_tkv.

#[export] Instance toy_value_reader : StateValueReader Z bytes32 (list (Z * bytes32)) := {|
  get_state_value_by_version := fun db k _ => Ok (option_map (fun ikv => snd (snd ikv)) (list_find (fun kv => fst kv = k) db));
|}.

Definition toy_server : memory_nodes := fst (fst (restore_all (map (backup_chunk 7 toy_tkv) toy_cuts) toy_start)).

Lemma toy_server_tree : tree_at (stored toy_server) 7 toy_tree_leaves.
Proof.
  destruct (honest_restore 7 toy_tkv ltac:(by vm_compute) toy_tree_sorted toy_cuts ∅ false memory_writes_work toy_covers) as (w' & E & Ht); [apply Forall_forall; intros ab _; apply toy_solid|].
  unfold toy_server. change toy_start with ((∅ : memory_nodes), start_state (K := Z) 7 (smt_root (sl toy_tree_leaves)) false). unfold toy_tree_leaves in *. by rewrite E.
Qed.

Lemma toy_holds : holds toy_items toy_tree_leaves toy_items.
Proof.
  unfold holds. assert (E : in_order toy_tree_leaves = toy_tree_leaves) by (vm_compute; reflexivity). rewrite E.
  repeat (apply Forall2_cons; split; [split; vm_compute; reflexivity|]). apply Forall2_nil. exact I.
Qed.

Definition toy_output : TransactionOutputList bytes32 unit := mkTransactionOutputList [mkTransactionInfo (Some (smt_root (sl toy_tree_leaves)))] tt.

(** The new node, when it knows what to sync. *)
Definition toy_new_world : toy_world := mkSyncWorld (mkMemoryValues ∅ ∅ ∅) ∅ None tt None [] [] 0.
Definition toy_new_node : toy_bootstrapper :=
  mkBootstrapper DownloadLatestStates false [] 0 false false true (mkStateValueSyncer false (Some 7) 0 (Some toy_output)) toy_new_world.

Lemma toy_new_synced : synced_to 7 toy_output toy_tree_leaves toy_items 0 0 toy_new_node.
Proof. split; [done|reflexivity..|]. split_and!; [done|reflexivity|vm_compute; reflexivity|vm_compute; reflexivity]. Qed.

(** The second round asks again for the key that the first one has brought. *)
Definition toy_rounds : list (bool * nat) := [(false, 1%nat); (true, 1%nat); (false, 1%nat); (true, 2%nat); (false, 2%nat)].

Lemma sync_completes_witness :
  exists b', sync_rounds (tree_reader toy_server) toy_items 7 toy_rounds toy_new_node = (b', Ok tt) /\ synced 7 toy_items (Z.of_nat (length toy_tree_leaves) - 1) (bs_world b') /\
    jmt_get_root_hash (tree_reader (sw_tree (bs_world b'))) (li_version 7) = Ok (smt_root (sl toy_tree_leaves)).
Proof.
  destruct (sync_completes (stored toy_server) (tree_reader toy_server) toy_items 7 toy_output toy_tree_leaves toy_items toy_rounds toy_new_node) as [Hw|(n & _ & Hc)].
  - apply stored_reads.
  - exact toy_server_tree.
  - vm_compute. reflexivity.
  - exact toy_holds.
  - reflexivity.
  - repeat constructor; discriminate.
  - vm_compute. reflexivity.
  - exact memory_sync_works.
  - exact toy_new_synced.
  - discriminate.
  - vm_compute. lia.
  - repeat constructor.
  - exact Hw.
  - destruct (toy_no_clash n Hc).
Defined.

(** The new node after the first chunk, which has two of the three keys. *)
Definition toy_chunk (a b : nat) : StateValueChunkWithProof bytes32 Z bytes32 := served 7 toy_tree_leaves toy_items a b.
Definition toy_first : restore_world (HV := bytes32) (K := Z) (KS := memory_values) (ST := memory_nodes) * outcome unit :=
  ssr_add_chunk RestoreMode_Default 7 (sc_raw_values (toy_chunk 0 2)) (sc_proof (toy_chunk 0 2))
    (mkMemoryValues ∅ ∅ ∅, ((∅ : memory_nodes), start_state 7 (smt_root (sl toy_tree_leaves)) false)).
Definition toy_running : SnapshotReceiver bytes32 Z Z unit := mkSnapshotReceiver (snd (snd (fst toy_first))) [] 7 toy_output.
Definition toy_after : toy_bootstrapper :=
  mkBootstrapper DownloadLatestStates false [] 0 false false true (mkStateValueSyncer true (Some 7) 2 (Some toy_output))
    (mkSyncWorld (fst (fst toy_first)) (fst (snd (fst toy_first))) (Some (mkSyncProgress 7 1 false)) tt (Some toy_running) [] [] 0).

Lemma toy_first_works : snd toy_first = Ok tt /\ expected_root_hash (sr_restore toy_running) = smt_root (sl toy_tree_leaves).
Proof. vm_compute. split; reflexivity. Qed.

Lemma result_parts {A B C D} (p : (A * (B * C)) * outcome D) d : snd p = Ok d -> p = ((fst (fst p), (fst (snd (fst p)), snd (snd (fst p)))), Ok d).
Proof. by destruct p as [[a [b c]] r]; intros [= ->]. Qed.

Lemma toy_first_chunk : toy_first = ((fst (fst toy_first), (fst (snd (fst toy_first)), snd (snd (fst toy_first)))), Ok tt).
Proof. exact (result_parts toy_first tt (proj1 toy_first_works)). Qed.

Lemma toy_syncing : syncing (Some (sc_proof (toy_chunk 0 2))) (take 2 toy_items) toy_running (bs_world toy_after).
Proof.
  split; [reflexivity|]. cbn [toy_running sr_target sr_restore toy_after bs_world sw_kv sw_tree]. change (li_version 7) with 7.
  refine (snapshot_chunk 7 None [] _ (sc_raw_values (toy_chunk 0 2)) (sc_proof (toy_chunk 0 2)) _ (snapshot_start 7 (mkMemoryValues ∅ ∅ ∅) ∅ (smt_root (sl toy_tree_leaves)) false _) _ toy_first_chunk); vm_compute; reflexivity.
Qed.

(** The last chunk arrives. *)
Definition toy_last_world : toy_world := with_queue (bs_world toy_after) [(1, toy_chunk 1 3)].
Definition toy_done : toy_world := fst (receive_chunk toy_last_world).

Lemma toy_last_syncing : syncing (Some (sc_proof (toy_chunk 0 2))) (take 2 toy_items) toy_running toy_last_world.
Proof. apply syncing_queue, toy_syncing. Qed.

Lemma toy_last_result : let '(w, r) := receive_chunk toy_last_world in (r, match sw_receiver w with None => true | Some _ => false end, sw_errors w) = (Ok tt, true, []).
Proof. vm_compute. reflexivity. Qed.

Lemma toy_last_received : receive_chunk toy_last_world = (toy_done, Ok tt) /\ sw_receiver toy_done = None /\ sw_errors toy_done = [].
Proof.
  pose proof toy_last_result as E. unfold toy_done. destruct (receive_chunk toy_last_world) as [w r]. injection E as -> Er Ee. cbn [fst]. by destruct (sw_receiver w).
Qed.

Lemma toy_last_queue : sw_queue toy_last_world = [(1, toy_chunk 1 3)].
Proof. unfold toy_last_world. by cbn [with_queue sw_queue]. Qed.

Definition toy_new : list (Z * bytes32) := skip_overlap (progress_of (take 2 toy_items)) (sc_raw_values (toy_chunk 1 3)).

Lemma toy_last_bound : Z.of_nat (length (take 2 toy_items) + length toy_new) < U64.
Proof. vm_compute. reflexivity. Qed.

Lemma sync_sound_witness : synced (sr_target toy_running) (take 2 toy_items ++ toy_new) (sc_last_index (toy_chunk 1 3)) toy_done.
Proof.
  destruct toy_last_received as (E & Hn & Herr).
  pose proof (sync_sound (Some (sc_proof (toy_chunk 0 2))) (take 2 toy_items) toy_running toy_last_world 1 (toy_chunk 1 3) [] toy_done (sl toy_tree_leaves)) as Hsound.
  cbv zeta in Hsound. fold toy_new in Hsound. exact (proj1 (Hsound toy_last_syncing toy_last_queue toy_last_bound E Hn Herr toy_tree_NoDup (proj2 toy_first_works))).
Defined.

(** A peer sends the first key again, with another value, as the last chunk. *)
Definition toy_short : StateValueChunkWithProof bytes32 Z bytes32 :=
  mkStateValueChunkWithProof 2 2 (toy_key 1) (toy_key 1) [(1, of_num 99)] (mkSparseMerkleRangeProof []) (smt_root (sl toy_tree_leaves)).

Lemma toy_part_root : smt_root (sl (item_leaves 7 (take 2 toy_items))) <> smt_root (sl toy_tree_leaves).
Proof. apply (bool_decide_unpack _). vm_compute. exact I. Qed.

Lemma toy_short_bound : sc_last_index toy_short + 1 < U64.
Proof. vm_compute. reflexivity. Qed.

Lemma toy_output_root : (info ← ok_or (head (tl_transaction_infos toy_output)) ""; ensure_state_checkpoint_hash info) = Ok (sc_root_hash toy_short).
Proof. vm_compute. reflexivity. Qed.

Lemma toy_part_items : take 2 toy_items <> [].
Proof. discriminate. Qed.

Lemma toy_short_keys : Forall (fun kv : Z * bytes32 => key_hash (fst kv) ∈ map (fun kv : Z * bytes32 => key_hash (HV := bytes32) (fst kv)) (take 2 toy_items)) (sc_raw_values toy_short).
Proof. apply (bool_decide_unpack _). vm_compute. exact I. Qed.

Lemma sync_cut_short_witness :
  (exists b1 b2, process_state_values_payload 1 toy_short toy_after = (b1, Ok tt) /\ on_world receive_chunk b1 = (b2, Ok tt) /\
    sw_errors (bs_world b2) = sw_errors (bs_world toy_after) /\ synced 7 (take 2 toy_items) 2 (bs_world b2)) /\
  smt_root (sl (item_leaves 7 (take 2 toy_items))) <> smt_root (sl toy_tree_leaves).
Proof.
  split; [|exact toy_part_root].
  pose proof (sync_cut_short (Some (sc_proof (toy_chunk 0 2))) (take 2 toy_items) toy_running 7 toy_output toy_after 1 toy_short eq_refl eq_refl) as Hcut.
  cbv zeta in Hcut. cbn [state_value_syncer toy_after initialized_state_snapshot_receiver ledger_info_to_sync transaction_output_to_sync next_state_index_to_process] in Hcut.
  exact (Hcut eq_refl eq_refl eq_refl toy_syncing eq_refl eq_refl eq_refl memory_sync_works eq_refl (le_n _) eq_refl Z.le_0_2 toy_short_bound toy_output_root toy_part_items toy_short_keys eq_refl).
Defined.
