(* ===== verification/StateMerkleTruncation.v ===== *)
(** * Truncation of the state Merkle database

    Model of the part of [storage/aptosdb/src/utils/truncation_helper.rs] about the state
    tree, of [StateMerkleDb::new] and [open] on databases that were opened, and of what
    [StateStore::sync_commit_progress] ([state_store/mod.rs]) does with the state tree.
    After a crash they remove what a commit wrote before it was cut short, and the versions
    after the last one of the ledger. *)
From stdpp Require Import base list numbers strings option gmap.
From Stdlib Require Import ZArith Lia Bool.
From S2P Require Import Prelude Hash AccumulatorProof NibblePath ByteCodec JellyfishNode JellyfishTree StateMerkleDb StateMerklePruner StateMerkleCommit StateMerkleSnapshot LedgerMetadata.

Section Truncation.
Context {HV K : Type} {DB : Type} `{SchemaDb HV K DB} `{!SchemaDbNodes HV K DB} `{ByteOrder}
  {ES SG LDB : Type} `{LedgerDb HV ES SG LDB}.
Implicit Types (self : StateMerkleDb DB) (db : DB).

(** [SeekKeyCodec::encode_seek_key] of both stale node indices. *)
Definition Version_encode_seek_key (self : Version) : list Z := be_bytes 8 self.

Definition get_state_merkle_commit_progress self : outcome (option Version) :=
  db ← smdb_db self None;
  get_progress db StateMerkleCommitProgress.

Definition hack_num_real_shards self : Z := if enable_sharding self then NUM_STATE_SHARDS else 1.

(** ** Deletions *)

(** The loop over the items of a stale node index. *)
Fixpoint delete_stale_items (sch : StaleSchema) (version : Version) (items : list (outcome StaleNodeIndex))
  : outcome (list (BatchOp HV K)) :=
  match items with
  | [] => Ok []
  | item :: items =>
      index ← item;
      _ ← assert (version <=? stale_since_version index) "assertion failed: index.stale_since_version >= version";
      batch ← delete_stale_items sch version items;
      Ok (Delete_stale sch index :: batch)
  end.

Definition delete_stale_node_index_at_or_after_version (sch : StaleSchema) db (version : Version)
  : outcome (list (BatchOp HV K)) :=
  items ← db_stale_from sch db (Version_encode_seek_key version);
  delete_stale_items sch version items.

(** The loop over the nodes. *)
Fixpoint delete_node_items (items : list (outcome (NodeKey * Node HV K))) : outcome (list (BatchOp HV K)) :=
  match items with
  | [] => Ok []
  | item :: items =>
      kn ← item;
      batch ← delete_node_items items;
      Ok (Delete_node (fst kn) :: batch)
  end.

Definition delete_nodes_and_stale_indices_at_or_after_version db (version : Version) (shard_id : option Z)
  : outcome (list (BatchOp HV K)) :=
  stale ← delete_stale_node_index_at_or_after_version StaleNodeIndexSchema db version;
  cross ← delete_stale_node_index_at_or_after_version StaleNodeIndexCrossEpochSchema db version;
  k ← new_empty_path version;
  items ← db_nodes_from db (NodeKey_encode k);
  nodes ← delete_node_items items;
  Ok (stale ++ cross ++ nodes ++ put_progress (if version =? 0 then None else Some (version - 1)) shard_id).

(** ** Shards *)
Definition truncate_state_merkle_db_single_shard (shard_id : Z) (target_version : Version)
  : prog (StateMerkleDb DB) unit :=
  batch <~ reading (fun self =>
    db ← smdb_db self (Some shard_id);
    version ← add64 target_version 1;
    delete_nodes_and_stale_indices_at_or_after_version db version (Some shard_id));
  on_db (Some shard_id) (write_schemas batch).

(** The shards one after the other; the first error is returned.  Every shard has a
    database of its own, so this is what threads in parallel can do. *)
Fixpoint truncate_shards_in_order (shards : list Z) (target_version : Version) : prog (StateMerkleDb DB) unit :=
  match shards with
  | [] => pret tt
  | shard_id :: shards =>
      _ <~ truncate_state_merkle_db_single_shard shard_id target_version;
      truncate_shards_in_order shards target_version
  end.

(** [order] is the order in which the threads get to the shards. *)
Definition truncate_state_merkle_db_shards (order : list nat) (target_version : Version)
  : prog (StateMerkleDb DB) unit :=
  shards <~ reading (fun self => Ok (omap (fun i => seqZ 0 (hack_num_real_shards self) !! i) order));
  truncate_shards_in_order shards target_version.

(** [StateMerkleDb::open] on the databases, once they are opened. *)
Definition smdb_open (readonly : bool) (order : list nat) : prog (StateMerkleDb DB) unit :=
  if negb readonly then
    progress <~ reading get_state_merkle_commit_progress;
    match progress with
    | Some overall_state_merkle_commit_progress =>
        truncate_state_merkle_db_shards order overall_state_merkle_commit_progress
    | None => pret tt
    end
  else pret tt.

(** [StateMerkleDb::new]: a database without shards is used as it is. *)
Definition smdb_new (readonly : bool) (order : list nat) : prog (StateMerkleDb DB) unit :=
  sharding <~ reading (fun self => Ok (enable_sharding self));
  if negb sharding then pret tt else smdb_open readonly order.

(** ** The last version *)
Definition find_closest_node_version_at_or_before db (version : Version) : outcome (option Version) :=
  k ← new_empty_path version;
  items ← db_nodes_before db (NodeKey_encode k);
  o ← next_item items;
  Ok (option_map (fun item => nk_version (fst item)) o).

Definition root_exists_at_version self (version : Version) : outcome bool :=
  db ← smdb_db self None;
  k ← new_empty_path version;
  o ← db_get_node db k;
  Ok (match o with Some _ => true | None => false end).

Definition VERSION_MAX : Version := U64 - 1.

Definition get_current_version_in_state_merkle_db self : outcome (option Version) :=
  db ← smdb_db self None;
  find_closest_node_version_at_or_before db VERSION_MAX.

(** The loop over the shards. *)
Fixpoint max_shard_version self (shards : list Z) (version : option Version) : outcome (option Version) :=
  match shards with
  | [] => Ok version
  | shard_id :: shards =>
      db ← smdb_db self (Some shard_id);
      shard_version ← find_closest_node_version_at_or_before db VERSION_MAX;
      let version :=
        match version, shard_version with
        | None, _ => shard_version
        | Some v, Some w => if v <? w then Some w else Some v
        | Some v, None => Some v
        end in
      max_shard_version self shards version
  end.

Definition get_max_version_in_state_merkle_db self : outcome (option Version) :=
  version ← get_current_version_in_state_merkle_db self;
  let num_real_shards := hack_num_real_shards self in
  if 1 <? num_real_shards then max_shard_version self (seqZ 0 num_real_shards) version else Ok version.

Definition find_tree_root_at_or_before (ledger_metadata_db : LedgerMetadataDb HV ES SG LDB) self (version : Version)
  : outcome (option Version) :=
  db ← smdb_db self None;
  o ← find_closest_node_version_at_or_before db version;
  match o with
  | None => Ok None
  | Some closest_version =>
      found ← root_exists_at_version self closest_version;
      if (found : bool) then Ok (Some closest_version)
      else if version =? 0 then Ok None
      else
        o ← find_closest_node_version_at_or_before db (version - 1);
        match o with
        | None => Ok None
        | Some closest_version =>
            found ← root_exists_at_version self closest_version;
            if (found : bool) then Ok (Some closest_version)
            else
              items ← ldb_epochs_for_prev (lmd_db ledger_metadata_db) (Version_encode_key version);
              o ← next_item items;
              match o with
              | None => Ok None
              | Some (closest_epoch_version, _) =>
                  found ← root_exists_at_version self closest_epoch_version;
                  if (found : bool) then Ok (Some closest_epoch_version) else Ok None
              end
        end
  end.

(** ** Truncation to a version *)

(** The loop: the last version is removed, until it is the target; [orders] has an order
    of the shards for every round. *)
Fixpoint truncate_state_merkle_db (orders : list (list nat)) (target_version : Version)
  : prog (StateMerkleDb DB) unit :=
  current_version <~ reading (fun self =>
    o ← get_current_version_in_state_merkle_db self;
    expect o "Current version of state merkle db must exist.");
  _ <~ reading (fun _ => assert (target_version <=? current_version) "assertion failed: current_version >= target_version");
  if current_version =? target_version then pret tt
  else
    version_before <~ reading (fun self =>
      db ← smdb_db self None;
      version ← sub64 current_version 1;
      o ← find_closest_node_version_at_or_before db version;
      expect o "Must exist.");
    top_levels_batch <~ reading (fun self =>
      db ← smdb_db self None;
      delete_nodes_and_stale_indices_at_or_after_version db current_version None);
    _ <~ commit_top_levels top_levels_batch;
    match orders with
    | [] => fun self => (self, Panic "out of fuel")
    | order :: orders =>
        _ <~ truncate_state_merkle_db_shards order version_before;
        truncate_state_merkle_db orders target_version
    end.

Definition MAX_COMMIT_PROGRESS_DIFFERENCE : Z := 1000000.

(** [sync_commit_progress], from [get_max_version_in_state_merkle_db] on. *)
Definition sync_state_merkle (ledger_metadata_db : LedgerMetadataDb HV ES SG LDB) (orders : list (list nat))
    (overall_commit_progress : Version) (crash_if_difference_is_too_large : bool) : prog (StateMerkleDb DB) unit :=
  state_merkle_max_version <~ reading (fun self =>
    o ← expect_res (get_max_version_in_state_merkle_db self) "Failed to get state merkle max version.";
    expect o "State merkle max version cannot be None.");
  _ <~ reading (fun _ =>
    if (overall_commit_progress <? state_merkle_max_version) && crash_if_difference_is_too_large
    then assert (state_merkle_max_version - overall_commit_progress <=? MAX_COMMIT_PROGRESS_DIFFERENCE)
           "assertion failed: difference <= MAX_COMMIT_PROGRESS_DIFFERENCE"
    else Ok tt);
  state_merkle_target_version <~ reading (fun self =>
    o ← expect_res (find_tree_root_at_or_before ledger_metadata_db self overall_commit_progress) "DB read failed.";
    expect o "Could not find a valid root");
  if state_merkle_target_version <? state_merkle_max_version
  then pexpect (truncate_state_merkle_db orders state_merkle_target_version) "Failed to truncate state merkle db."
  else pret tt.
End Truncation.
