(* ===== verification/StateMerkleTruncationFacts.v ===== *)
(** * Truncation: facts

    What the deletions leave in one database and in all of them, and that a database of
    versions from which the last versions are removed is one again. *)
From stdpp Require Import base list numbers strings option gmap sorting.
From Stdlib Require Import ZArith Lia Bool Sorted.
From S2P Require Import Prelude Hash AccumulatorProof SparseMerkleProof SparseSpec SparseFacts NibblePath NibblePathFacts ByteCodec JellyfishNode JellyfishNodeFacts JellyfishHash JellyfishSpec JellyfishTree JellyfishRead JellyfishRuns JellyfishBatch JellyfishUpdate JellyfishInsert JellyfishCommit JellyfishHistory JellyfishTruncate StateMerkleDb StateMerklePruner StateMerklePrunerFacts StateMerklePrunerProgress StateMerkleCommit StateMerkleCommitFacts StateMerkleSnapshot LedgerMetadata LedgerMetadataFacts StateMerkleTruncation.

Section Seek.
Context `{HB : ByteOrder} `{!ByteOrderLaws}.

(** An index is read from the entries of a version on. *)
Lemma seek_version e start : index_ok e -> u64_ok start ->
  lex_compare (StaleNodeIndex_encode_key e) (Version_encode_seek_key start) <> Lt <-> start <= stale_since_version e.
Proof.
  intros [He _] Hs. unfold StaleNodeIndex_encode_key, Version_encode_seek_key. rewrite write_u64_be_spec by done.
  rewrite <- (app_nil_r (be_bytes 8 start)).
  rewrite lex_compare_be by (rewrite ?be_bytes_length; done || apply be_bytes_ok). rewrite !be_value_bytes by done.
  destruct (Z.compare_spec (stale_since_version e) start) as [->|Hlt|Hgt]; [|split; [done|lia]|split; [lia|done]].
  split; [lia|]. by destruct (NodeKey_encode _).
Qed.

(** Nodes are read from the root of a version on. *)
Lemma seek_root k v : key_ok k -> u64_ok v ->
  lex_compare (NodeKey_encode k) (NodeKey_encode (root_key v)) <> Lt <-> v <= nk_version k.
Proof.
  intros Hk Hv. assert (Hr : key_ok (root_key v)) by (split; [done|]; apply pack_path_ok; [constructor|cbn; lia]).
  rewrite NodeKey_encode_order by done. destruct Hk as [_ (Hn & _)]. unfold NodeKey_compare, NibblePath_compare.
  cbn [root_key nk_version nk_nibble_path]. rewrite np_num_pack, np_bytes_pack. cbn [pack_bytes length].
  destruct (Z.compare_spec (nk_version k) v) as [->|Hlt|Hgt]; [|split; [done|lia]|split; [lia|done]].
  split; [lia|]. intros _. destruct (_ ?= Z.of_nat 0) eqn:E; [by destruct (np_bytes _)| |done].
  change (np_num_nibbles (nk_nibble_path k) < Z.of_nat 0) in E. lia.
Qed.
End Seek.

Section OneDb.
Context {HV : Type} `{HashValueOps HV} `{HashValueBits HV} `{!HashValueLaws HV} `{CryptoHasher HV}
  `{LeafHasher HV} `{HashValueKeys HV} `{!HashValueKeysLaws HV} `{Itertools} `{!ItertoolsLaws} {K : Type}.
Context {DB : Type} `{SchemaDb HV K DB} `{HB : ByteOrder} `{!ByteOrderLaws} `{!SchemaDbLaws HV K DB}
  `{!SchemaDbNodes HV K DB} `{!SchemaDbNodesLaws HV K DB}.
Implicit Types (db : DB) (d : db_view HV K) (e : StaleNodeIndex) (self : StateMerkleDb DB)
  (s : store (HV := HV) (K := K)) (st : list StaleNodeIndex) (sid : option Z) (td : tree_db (HV := HV) (K := K)).

(** ** The batch of deletions *)
Lemma yields_Ok {A B} (f : list (outcome A) -> outcome B) l items b :
  (forall l' err rest, f (map Ok l' ++ Err err :: rest) <> Ok b) -> yields l items -> f items = Ok b -> items = map Ok l.
Proof. intros Hf [->|(l' & l'' & err & rest & _ & ->)] E; [done|]. by apply Hf in E. Qed.

Lemma delete_stale_spec sch version l items batch : yields l items -> delete_stale_items sch version items = Ok batch ->
  batch = map (Delete_stale (HV := HV) (K := K) sch) l.
Proof.
  intros Hy E. assert (items = map Ok l) as ->.
  { eapply (yields_Ok (delete_stale_items sch version)); [|exact Hy|exact E]. clear. intros l. revert batch.
    induction l as [|x l IH]; intros batch e rest; cbn; [done|]. intros E. apply bind_Ok in E as ([] & _ & E).
    apply bind_Ok in E as (b & E & _). by eapply IH. }
  clear Hy. revert batch E. induction l as [|e l IH]; intros batch E; cbn [map delete_stale_items] in E; [by injection E as <-|].
  rewrite obind_Ok in E. apply bind_Ok in E as ([] & _ & E). apply bind_Ok in E as (b & E & [= <-]). by rewrite (IH b).
Qed.

Lemma delete_nodes_spec (l : list (NodeKey * Node HV K)) items batch : yields l items -> delete_node_items items = Ok batch ->
  batch = map (fun kn => Delete_node (fst kn)) l.
Proof.
  intros Hy E. assert (items = map Ok l) as ->.
  { eapply (yields_Ok delete_node_items); [|exact Hy|exact E]. clear. intros l. revert batch.
    induction l as [|x l IH]; intros batch e rest; cbn; [done|]. intros E. apply bind_Ok in E as (b & E & _). by eapply IH. }
  clear Hy. revert batch E. induction l as [|e l IH]; intros batch E; cbn [map delete_node_items] in E; [by injection E as <-|].
  rewrite obind_Ok in E. apply bind_Ok in E as (b & E & [= <-]). by rewrite (IH b).
Qed.

Lemma apply_delete_stales sch l : forall d, let d' := apply_ops d (map (Delete_stale sch) l) in
  dv_node d' = dv_node d /\ dv_version d' = dv_version d /\
  forall sch' e, e ∈ dv_stale d' sch' <-> e ∈ dv_stale d sch' /\ ~ (sch' = sch /\ e ∈ l).
Proof.
  induction l as [|f l IH]; intros d; cbn zeta.
  - split_and!; [done|done|]. intros sch' e. split; [|tauto]. intros He. split; [done|]. intros [_ Hn]. by apply not_elem_of_nil in Hn.
  - change (apply_ops d (map (Delete_stale sch) (f :: l))) with (apply_ops (apply_op d (Delete_stale sch f)) (map (Delete_stale sch) l)).
    destruct (IH (apply_op d (Delete_stale sch f))) as (E1 & E2 & E3). split_and!; [by rewrite E1|by rewrite E2|].
    intros sch' e. rewrite E3, elem_of_cons. cbn [apply_op dv_stale]. case_decide as Es; [|tauto].
    subst sch'. rewrite list_elem_of_filter. destruct (decide (e = f)) as [->|]; tauto.
Qed.

Lemma apply_delete_nodes (l : list (NodeKey * Node HV K)) : forall d, let d' := apply_ops d (map (fun kn => Delete_node (fst kn)) l) in
  dv_stale d' = dv_stale d /\ dv_version d' = dv_version d /\
  forall k, dv_node d' k = if decide (k ∈ map fst l) then None else dv_node d k.
Proof.
  induction l as [|[k n] l IH]; intros d; cbn zeta.
  - split_and!; [done|done|]. intros k. case_decide as Hk; [by apply not_elem_of_nil in Hk|done].
  - change (apply_ops d (map (fun kn : NodeKey * Node HV K => Delete_node (fst kn)) ((k, n) :: l)))
      with (apply_ops (apply_op d (Delete_node k)) (map (fun kn : NodeKey * Node HV K => Delete_node (fst kn)) l)).
    destruct (IH (apply_op d (Delete_node k))) as (E1 & E2 & E3). split_and!; [by rewrite E1|by rewrite E2|].
    intros j. rewrite E3. cbn [apply_op dv_node map fst]. destruct (decide (j = k)) as [->|Hne].
    + rewrite (decide_True (P := k ∈ k :: _)) by left. by case_decide.
    + case_decide as Hj; [by rewrite decide_True by (by right)|]. rewrite decide_False; [done|]. by apply not_elem_of_cons.
Qed.

(** The key of the progress of a shard. *)
Definition progress_key sid : DbMetadataKey :=
  match sid with Some i => StateMerkleShardCommitProgress i | None => StateMerkleCommitProgress end.

(** The nodes and the entries from version [v] on are gone. *)
Definition cut_view (v : Version) sid d d' : Prop :=
  (forall k, dv_node d' k = if decide (v <= nk_version k) then None else dv_node d k) /\
  (forall sch e, e ∈ dv_stale d' sch <-> e ∈ dv_stale d sch /\ stale_since_version e < v) /\
  (forall key, key <> progress_key sid -> dv_version d' key = dv_version d key).

Definition keys_view d : Prop := forall k n, dv_node d k = Some n -> key_ok k.

Lemma cut_same v sid d d1 d2 : same_view d2 d1 -> cut_view v sid d d1 -> cut_view v sid d d2.
Proof.
  intros (Vn & Vs & Vv) (En & Es & Ev). split_and!.
  - intros k. by rewrite Vn.
  - intros sch e. by rewrite Vs.
  - intros key Hk. by rewrite Vv, Ev.
Qed.

Lemma delete_cuts db v sid batch : keys_view (view db) -> stale_ok_view (view db) -> u64_ok v ->
  delete_nodes_and_stale_indices_at_or_after_version db v sid = Ok batch ->
  cut_view v sid (view db) (apply_ops (view db) batch).
Proof.
  intros Hk Hs Hv E. unfold delete_nodes_and_stale_indices_at_or_after_version, delete_stale_node_index_at_or_after_version in E.
  apply bind_Ok in E as (b1 & E1 & E). apply bind_Ok in E1 as (i1 & E1 & B1).
  apply bind_Ok in E as (b2 & E2 & E). apply bind_Ok in E2 as (i2 & E2 & B2).
  rewrite new_empty_path_pack, obind_Ok in E. fold (root_key v) in E.
  apply bind_Ok in E as (i3 & E3 & E). apply bind_Ok in E as (b3 & B3 & [= <-]).
  apply db_stale_from_spec in E1 as (l1 & Y1 & _ & L1), E2 as (l2 & Y2 & _ & L2). apply db_nodes_from_spec in E3 as (l3 & Y3 & L3).
  rewrite (delete_stale_spec _ _ _ _ _ Y1 B1), (delete_stale_spec _ _ _ _ _ Y2 B2), (delete_nodes_spec _ _ _ Y3 B3).
  clear B1 B2 B3 Y1 Y2 Y3. unfold apply_ops. rewrite !fold_left_app.
  fold (apply_ops (view db) (map (Delete_stale StaleNodeIndexSchema) l1)).
  destruct (apply_delete_stales StaleNodeIndexSchema l1 (view db)) as (N1 & V1 & S1).
  set (d1 := apply_ops (view db) _) in *. fold (apply_ops d1 (map (Delete_stale StaleNodeIndexCrossEpochSchema) l2)).
  destruct (apply_delete_stales StaleNodeIndexCrossEpochSchema l2 d1) as (N2 & V2 & S2).
  set (d2 := apply_ops d1 _) in *. fold (apply_ops d2 (map (fun kn => Delete_node (fst kn)) l3)).
  destruct (apply_delete_nodes l3 d2) as (S3 & V3 & N3). set (d3 := apply_ops d2 _) in *.
  set (d4 := fold_left apply_op _ d3).
  assert (Ed4 : dv_node d4 = dv_node d3 /\ dv_stale d4 = dv_stale d3 /\ forall key, key <> progress_key sid -> dv_version d4 key = dv_version d3 key).
  { unfold d4, put_progress. destruct (v =? 0), sid; cbn [fold_left apply_op dv_node dv_stale dv_version progress_key];
      (split_and!; [done|done|]; intros key Hkey; by rewrite decide_False). }
  destruct Ed4 as (N4 & S4 & V4). split_and!.
  - intros k. rewrite N4, N3, N2, N1. destruct (dv_node (view db) k) as [n|] eqn:En; [|by repeat case_decide].
    apply decide_ext. pose proof (seek_root k v (Hk _ _ En) Hv) as Hseek. split.
    + intros Hin. apply list_elem_of_fmap in Hin as ([k' n'] & -> & Hin). apply L3 in Hin as [_ Hin]. by apply Hseek.
    + intros Hle. apply (list_elem_of_fmap_2 fst l3 (k, n)), L3. split; [done|]. by apply Hseek.
  - intros sch e. rewrite S4, S3, S2, S1. split.
    + intros ((He & Hn1) & Hn2). split; [done|]. apply Z.nle_gt. intros Hle. pose proof (seek_version e v (Hs _ _ He) Hv) as Hseek.
      destruct sch; [apply Hn1|apply Hn2]; (split; [done|]); [apply L1|apply L2]; (split; [done|by apply Hseek]).
    + intros [He Hlt]. pose proof (seek_version e v (Hs _ _ He) Hv) as Hseek. split_and!; [done|..]; intros [-> Hin];
        [apply L1 in Hin as [_ Hin]|apply L2 in Hin as [_ Hin]]; apply Hseek in Hin; lia.
  - intros key Hkey. by rewrite V4, V3, V2, V1.
Qed.

(** ** All databases *)

(** The nodes and the entries from version [v] on are gone in the databases [js]. *)
Definition cut self (js : list nat) (v : Version) s : store := fun k =>
  if decide (slot self (shard_of k) ∈ js /\ v <= nk_version k) then None else s k.

Definition cut_stale self (js : list nat) (v : Version) st : list StaleNodeIndex :=
  filter (fun e => ~ (slot self (shard_of (stale_node_key e)) ∈ js /\ v <= stale_since_version e)) st.

Lemma stored_cut self s st j db db' v sid : stored self s st -> smdb_dbs self !! j = Some db ->
  cut_view v sid (view db) (view db') -> stored (set_db self j db') (cut self [j] v s) (cut_stale self [j] v st).
Proof.
  intros Hst Hj (Vn & Vs & _).
  assert (Hone : forall o, slot self o ∈ [j] <-> slot self o = j) by (intros o; apply list_elem_of_singleton).
  assert (Hnew : smdb_dbs (set_db self j db') !! j = Some db').
  { cbn. apply list_lookup_insert_eq. by eapply lookup_lt_Some. }
  split.
  - cbn. rewrite length_insert. apply (so_len _ _ _ Hst).
  - intros k n Hk. unfold cut in Hk. case_decide; [done|]. by eapply (so_keys _ _ _ Hst).
  - intros k db1 Hk. rewrite slot_set_db in Hk. unfold cut. destruct (set_db_lookup _ _ _ _ _ _ Hj Hk) as [[Ej ->]|[Hne Hk']].
    + rewrite Vn. assert (Ek : s k = dv_node (view db) k) by (apply (so_nodes _ _ _ Hst); by rewrite Ej). rewrite Ek.
      apply decide_ext. rewrite Hone. tauto.
    + rewrite decide_False; [by apply (so_nodes _ _ _ Hst)|]. rewrite Hone. tauto.
  - intros e. unfold cut_stale. rewrite list_elem_of_filter, (so_stale _ _ _ Hst), Hone. split.
    + intros (Hno & j1 & db1 & sch & Hj1 & He). pose proof (so_place _ _ _ Hst _ _ _ _ Hj1 He) as [_ Hp].
      destruct (decide (j1 = j)) as [->|Hne].
      * assert (db1 = db) as -> by congruence. exists j, db', sch. split; [done|]. apply Vs. split; [done|].
        apply Z.nle_gt. intros Hle. by apply Hno.
      * exists j1, db1, sch. split; [|done]. cbn. by rewrite list_lookup_insert_ne.
    + intros (j1 & db1 & sch & Hj1 & He). destruct (set_db_lookup _ _ _ _ _ _ Hj Hj1) as [[-> ->]|[Hne Hj']].
      * apply Vs in He as [He Hlt]. split; [intros [_ Hle]; lia|]. by exists j, db, sch.
      * pose proof (so_place _ _ _ Hst _ _ _ _ Hj' He) as [_ Hp]. split; [intros [Hs _]; congruence|]. by exists j1, db1, sch.
  - intros j1 db1 sch e Hj1 He. rewrite slot_set_db.
    destruct (set_db_lookup _ _ _ _ _ _ Hj Hj1) as [[-> ->]|[Hne Hj']]; [apply Vs in He as [He _]|]; by eapply (so_place _ _ _ Hst).
  - intros j1 db1 sch sch' e Hj1 He1 He2. destruct (set_db_lookup _ _ _ _ _ _ Hj Hj1) as [[-> ->]|[Hne Hj']];
      [apply Vs in He1 as [He1 _], He2 as [He2 _]|]; by eapply (so_once _ _ _ Hst).
  - intros j1 db1 k n Hj1 Hk. rewrite slot_set_db.
    destruct (set_db_lookup _ _ _ _ _ _ Hj Hj1) as [[-> ->]|[Hne Hj']]; [|by eapply (so_only _ _ _ Hst)].
    rewrite Vn in Hk. case_decide; [done|]. by eapply (so_only _ _ _ Hst).
Qed.

Lemma stored_keys self s st j db : stored self s st -> keys_ok s -> smdb_dbs self !! j = Some db -> keys_view (view db).
Proof.
  intros Hst Hk Hj k n Hn. apply (Hk k n). rewrite (so_nodes _ _ _ Hst k db); [done|].
  by rewrite (so_only _ _ _ Hst _ _ _ _ Hj Hn).
Qed.

Lemma stored_index self s st j db : stored self s st -> smdb_dbs self !! j = Some db -> stale_ok_view (view db).
Proof. intros Hst Hj sch e He. by apply (so_place _ _ _ Hst j db sch e). Qed.

(** A batch of deletions that is written to one of the databases. *)
Lemma delete_written self s st sid db v batch self' : stored self s st -> keys_ok s -> u64_ok v ->
  smdb_db self sid = Ok db -> delete_nodes_and_stale_indices_at_or_after_version db v sid = Ok batch ->
  on_db sid (write_schemas batch) self = (self', Ok tt) ->
  stored self' (cut self [slot self sid] v s) (cut_stale self [slot self sid] v st) /\
  (exists db', self' = set_db self (slot self sid) db' /\ cut_view v sid (view db) (view db')).
Proof.
  intros Hst Hk Hv Edb Eb Ew. unfold on_db in Ew. rewrite Edb in Ew.
  destruct (write_schemas batch db) as [db' r] eqn:E. injection Ew as <- ->. apply write_schemas_spec in E.
  unfold smdb_db, expect in Edb. destruct (smdb_dbs self !! slot self sid) as [db0|] eqn:Ej; [|done]. injection Edb as ->.
  assert (Hc : cut_view v sid (view db) (view db')).
  { eapply cut_same; [exact E|]. eapply delete_cuts; [by eapply stored_keys|by eapply stored_index|done|exact Eb]. }
  split; [by eapply stored_cut|by exists db'].
Qed.

Lemma cut_keys self js v s : keys_ok s -> keys_ok (cut self js v s).
Proof. intros Hk k n Hn. unfold cut in Hn. case_decide; [done|]. by eapply Hk. Qed.

Lemma cut_app self js js' v s k : cut self js' v (cut self js v s) k = cut self (js ++ js') v s k.
Proof. unfold cut. repeat case_decide; set_solver. Qed.

Lemma cut_stale_app self js js' v st e : e ∈ cut_stale self js' v (cut_stale self js v st) <-> e ∈ cut_stale self (js ++ js') v st.
Proof. unfold cut_stale. rewrite !list_elem_of_filter, elem_of_app. tauto. Qed.

Lemma truncate_single_spec self s st i target self' : stored self s st -> keys_ok s -> 0 <= target ->
  truncate_state_merkle_db_single_shard i target self = (self', Ok tt) ->
  stored self' (cut self [slot self (Some i)] (target + 1) s) (cut_stale self [slot self (Some i)] (target + 1) st) /\
  (exists db', self' = set_db self (slot self (Some i)) db').
Proof.
  intros Hst Hk Ht E. unfold truncate_state_merkle_db_single_shard in E.
  apply pbind_inv in E as [(self1 & batch & E1 & E)|[(err & _ & [=])|(err & _ & [=])]]. injection E1 as <- E1.
  apply bind_Ok in E1 as (db & Edb & E1). apply bind_Ok in E1 as (version & Ev & E1). unfold add64 in Ev.
  destruct (Z.ltb_spec (target + 1) U64); [|done]. injection Ev as <-.
  destruct (delete_written self s st (Some i) db (target + 1) batch self' Hst Hk) as [Hst' (db' & Hdb' & _)]; [split; lia|done|done|done|].
  split; [done|by exists db'].
Qed.

(** The databases of the shards, when there are shards. *)
Lemma truncate_shards_spec target : 0 <= target -> forall shards self s st self', stored self s st -> keys_ok s ->
  truncate_shards_in_order shards target self = (self', Ok tt) ->
  let js := map (fun i => slot self (Some i)) shards in
  stored self' (cut self js (target + 1) s) (cut_stale self js (target + 1) st) /\
  enable_sharding self' = enable_sharding self /\ forall j, j ∉ js -> smdb_dbs self' !! j = smdb_dbs self !! j.
Proof.
  intros Ht. induction shards as [|i shards IH]; intros self s st self' Hst Hk E; cbn [truncate_shards_in_order] in E; cbn zeta.
  - injection E as <-. split_and!; [|done|done]. cbn [map]. eapply stored_ext; [| |exact Hst].
    + intros k. unfold cut. rewrite decide_False; [done|]. intros [Hin _]. by apply not_elem_of_nil in Hin.
    + intros e. unfold cut_stale. rewrite list_elem_of_filter. split; [|tauto]. intros He. split; [|done].
      intros [Hin _]. by apply not_elem_of_nil in Hin.
  - apply pbind_inv in E as [(self1 & [] & E1 & E)|[(err & _ & [=])|(err & _ & [=])]].
    destruct (truncate_single_spec self s st i target self1 Hst Hk Ht E1) as [Hst1 (db' & ->)].
    destruct (IH _ _ _ _ Hst1 (cut_keys _ _ _ _ Hk) E) as (Hst' & Hsh & Hother). split_and!; [|done|].
    + eapply stored_ext; [| |exact Hst'].
      * intros k. apply (cut_app self [slot self (Some i)]).
      * intros e. apply (cut_stale_app self [slot self (Some i)]).
    + intros j Hj. cbn [map] in Hj. apply not_elem_of_cons in Hj as [Hne Hj]. rewrite Hother by done. cbn.
      by rewrite list_lookup_insert_ne.
Qed.
End OneDb.

Section Interrupted.
Context {HV : Type} `{HashValueOps HV} `{HashValueBits HV} `{!HashValueLaws HV} `{CryptoHasher HV}
  `{LeafHasher HV} `{HashValueKeys HV} `{!HashValueKeysLaws HV} `{Itertools} `{!ItertoolsLaws} {K : Type}.
Context {DB : Type} `{SchemaDb HV K DB} `{HB : ByteOrder} `{!ByteOrderLaws} `{!SchemaDbLaws HV K DB}
  `{!SchemaDbNodes HV K DB} `{!SchemaDbNodesLaws HV K DB}.
Implicit Types (db : DB) (d : db_view HV K) (e : StaleNodeIndex) (self : StateMerkleDb DB)
  (s : store (HV := HV) (K := K)) (st : list StaleNodeIndex) (sid : option Z) (td : tree_db (HV := HV) (K := K)) (order : list nat).

(** A commit that does not get to its end: a write fails, or the process dies after some
    of the shards. *)
Inductive interrupted order (top : list (BatchOp HV K)) (batches : list (list (BatchOp HV K))) self self' : Prop :=
| write_failed r : smdb_commit order top batches self = (self', r) -> is_ok r = false -> interrupted order top batches self self'
| process_died r : commit_jobs (enumerated order batches) self = (self', r) -> interrupted order top batches self self'.

(** The progress that the metadata database has. *)
Definition commit_progress self : option Version :=
  match smdb_dbs self !! 0%nat with Some db => dv_version (view db) StateMerkleCommitProgress | None => None end.

Lemma commit_progress_read self o : get_state_merkle_commit_progress self = Ok o -> o = commit_progress self.
Proof.
  unfold get_state_merkle_commit_progress, commit_progress, smdb_db, expect, get_progress. cbn [slot].
  destruct (smdb_dbs self !! 0%nat); [|done]. rewrite obind_Ok. apply db_get_version_spec.
Qed.

Lemma commit_jobs_metadata jobs : forall self self' r, commit_jobs jobs self = (self', r) ->
  enable_sharding self' = enable_sharding self /\ (enable_sharding self = true -> smdb_dbs self' !! 0%nat = smdb_dbs self !! 0%nat).
Proof.
  induction jobs as [|[i batch] jobs IH]; intros self self' r E; cbn [commit_jobs] in E; [by injection E as <- _|].
  destruct (on_db (Some i) (write_schemas batch) self) as [self1 r1] eqn:E1.
  rewrite (pbind_Ok _ _ self self1 (is_ok r1)) in E by (by rewrite E1).
  assert (H1' : enable_sharding self1 = enable_sharding self /\ (enable_sharding self = true -> smdb_dbs self1 !! 0%nat = smdb_dbs self !! 0%nat)).
  { apply on_db_inv in E1 as [->|(db & db' & _ & _ & ->)]; [done|]. split; [done|]. intros Hsh. cbn. apply list_lookup_insert_ne.
    unfold slot. by rewrite Hsh. }
  destruct H1' as [Hsh1 Hm1]. assert (Hrec : enable_sharding self' = enable_sharding self1 /\ (enable_sharding self1 = true -> smdb_dbs self' !! 0%nat = smdb_dbs self1 !! 0%nat)).
  { apply pbind_inv in E as [(self2 & ok & E2 & E)|[(err & E2 & ->)|(err & E2 & ->)]]; [injection E as <- _|..]; by eapply IH. }
  destruct Hrec as [Hsh2 Hm2]. split; [congruence|]. intros Hsh. rewrite Hm2 by congruence. by apply Hm1.
Qed.

(** What is left of a commit that was interrupted: nodes and entries of its version, in
    the databases of the shards, when there are shards. *)
Lemma interrupted_run rl self td kvs version pvs caches prev b pts n order self' : stores self td ->
  next_batches rl self td kvs version pvs caches prev b pts n -> NoDup order ->
  interrupted order (top_ops td version prev n) (map (part_ops version prev) pts) self self' ->
  enable_sharding self' = enable_sharding self /\ (enable_sharding self = true -> commit_progress self' = commit_progress self) /\
  exists pts', stored self' (overlay (td_nodes td) (part_nodes pts')) (td_stale td ++ part_stale pts') /\ pts' ⊆ pts.
Proof.
  intros Hh Hnb Hnd Hint. pose proof (nb_shards Hnb) as Hseq.
  assert (Hlen : length pts = 16%nat) by (apply (f_equal length) in Hseq; by rewrite length_map in Hseq).
  assert (Hfits : forall pt, pt ∈ chosen order pts -> part_fits (td_stale td) pt).
  { intros pt Hpt. apply (chosen_elem pts Hseq) in Hpt as [Hpt _]. by apply (nb_fits Hnb). }
  destruct (commit_jobs_spec version prev (chosen order pts) self _ _ Hh (chosen_NoDup pts Hseq order Hnd) Hfits)
    as (self1 & ok & pts' & E1 & Hsub & _ & Hst1). rewrite <- (enumerated_parts version prev pts Hseq) in E1.
  destruct (commit_jobs_metadata _ _ _ _ E1) as [Hsh1 Hm].
  assert (Hp1 : enable_sharding self = true -> commit_progress self1 = commit_progress self) by (intros Hsh; unfold commit_progress; by rewrite Hm).
  assert (Hsub' : pts' ⊆ pts) by (intros pt Hpt; by apply Hsub, (chosen_elem pts Hseq) in Hpt as [Hpt _]).
  destruct Hint as [r E Hr|r E]; [|rewrite E1 in E; injection E as <- _; split_and!; [done|done|by exists pts']].
  unfold smdb_commit in E. rewrite (pbind_Ok _ _ self self tt) in E by (unfold reading; by rewrite length_map, Hlen).
  rewrite (pbind_Ok _ _ self self1 ok) in E by done. destruct ok; [|injection E as <- _; split_and!; [done|done|by exists pts']].
  rewrite (pbind_Ok _ _ self1 self1 tt) in E by done. unfold commit_top_levels in E.
  apply on_db_inv in E as [->|(db & db' & Hdb & E & ->)]; [split_and!; [done|done|by exists pts']|].
  apply write_schemas_spec in E. assert (Ev : view db' = view db) by (by destruct r). split_and!; [done| |].
  - intros Hsh. rewrite <- Hp1 by done. unfold commit_progress. cbn [slot] in Hdb. cbn. rewrite list_lookup_insert_eq by (by eapply lookup_lt_Some). by rewrite Hdb, Ev.
  - exists pts'. split; [by eapply stored_same|done].
Qed.

Lemma key_path_good k : key_ok k -> path_good k.
Proof.
  intros [_ Hp]. pose proof (pack_unpack _ Hp) as E. exists (unpack (nk_nibble_path k)). split_and!; [|apply (f_equal np_num_nibbles) in E|done].
  - destruct Hp as (_ & Hb & _). apply Forall_take, bytes_nibbles_ok. exact Hb.
  - destruct Hp as (Hn & _). rewrite np_num_pack in E. rewrite root_nibble_height in Hn. lia.
Qed.

(** Every shard is among those that are truncated. *)
Lemma shards_cover self order k : order ≡ₚ seq 0 16 -> path_good k -> slot self (shard_of k) <> 0%nat ->
  slot self (shard_of k) ∈ map (fun i => slot self (Some i)) (omap (fun i => seqZ 0 (hack_num_real_shards self) !! i) order).
Proof.
  intros Ho (q & Hq & _ & Eq) Hne. unfold shard_of in *. rewrite (shard_id_good k q Hq Eq) in *. destruct q as [|i q]; [done|].
  cbn [head] in *. apply (list_elem_of_fmap_2 (fun i => slot self (Some i))). unfold hack_num_real_shards.
  unfold slot in Hne. destruct (enable_sharding self); [|done]. rewrite Ho.
  change (omap (fun i => seqZ 0 NUM_STATE_SHARDS !! i) (seq 0 16)) with (seqZ 0 16). rewrite elem_of_seqZ.
  apply Forall_cons in Hq as [Hi _]. unfold nibble_ok in Hi. lia.
Qed.

Lemma real_shards self order : Forall (fun i => 0 <= i < 16) (omap (fun i => seqZ 0 (hack_num_real_shards self) !! i) order).
Proof.
  apply Forall_forall. intros i Hi. apply list_elem_of_omap in Hi as (j & _ & Hj). apply list_elem_of_lookup_2, elem_of_seqZ in Hj.
  unfold hack_num_real_shards, NUM_STATE_SHARDS in Hj. destruct (enable_sharding self); lia.
Qed.

Lemma entry_good self s st e : stored self s st -> e ∈ st -> path_good (stale_node_key e).
Proof.
  intros Hst He. apply (so_stale _ _ _ Hst) in He as (j & db & sch & Hj & He). apply key_path_good.
  by apply (so_place _ _ _ Hst _ _ _ _ Hj He).
Qed.

(** Databases without shards, or without a commit, are left as they are. *)
Lemma open_skips self order self' : (enable_sharding self = true -> commit_progress self = None) ->
  smdb_new false order self = (self', Ok tt) -> self' = self.
Proof.
  intros Hp E. unfold smdb_new in E. rewrite (pbind_Ok _ _ self self (enable_sharding self)) in E by done.
  destruct (enable_sharding self); [|by injection E as <-]. specialize (Hp eq_refl). cbn [negb] in E. unfold smdb_open in E. cbn [negb] in E.
  apply pbind_inv in E as [(self1 & o & E1 & E)|[(err & _ & [=])|(err & _ & [=])]]. injection E1 as <- E1.
  apply commit_progress_read in E1. rewrite Hp in E1. subst o. by injection E as <-.
Qed.

(** Opening the databases with shards. *)
Lemma open_cuts self s st order self' p : stored self s st -> keys_ok s -> enable_sharding self = true ->
  commit_progress self = Some p -> 0 <= p -> order ≡ₚ seq 0 16 -> smdb_new false order self = (self', Ok tt) ->
  stored self' (fun k => if decide (slot self (shard_of k) <> 0%nat /\ p + 1 <= nk_version k) then None else s k)
    (filter (fun e => ~ (slot self (shard_of (stale_node_key e)) <> 0%nat /\ p + 1 <= stale_since_version e)) st) /\
  enable_sharding self' = true /\ commit_progress self' = Some p.
Proof.
  intros Hst Hk Hsh Hp H0' Ho E. unfold smdb_new in E. rewrite (pbind_Ok _ _ self self true) in E by (unfold reading; by rewrite Hsh).
  cbn [negb] in E. unfold smdb_open in E. cbn [negb] in E.
  apply pbind_inv in E as [(self1 & o & E1 & E)|[(err & _ & [=])|(err & _ & [=])]]. injection E1 as <- E1.
  apply commit_progress_read in E1. rewrite Hp in E1. subst o. unfold truncate_state_merkle_db_shards, hack_num_real_shards in E.
  apply pbind_inv in E as [(self1 & shards & E1 & E)|[(err & _ & [=])|(err & _ & [=])]]. injection E1 as <- <-. rewrite Hsh in E.
  destruct (truncate_shards_spec p H0' _ _ _ _ _ Hst Hk E) as (Hst' & Hsh' & Hother).
  set (js := map _ _) in *. rewrite Hsh in Hsh'.
  assert (Hlen : length (smdb_dbs self) = 17%nat) by (rewrite (so_len _ _ _ Hst), Hsh; done).
  assert (Hjs0 : 0%nat ∉ js).
  { intros Hin. apply list_elem_of_fmap in Hin as (i & E0 & _). unfold slot in E0. by rewrite Hsh in E0. }
  assert (Hjs : forall k, path_good k -> slot self (shard_of k) ∈ js <-> slot self (shard_of k) <> 0%nat).
  { intros k Hg. split; [intros Hin E0; by rewrite E0 in Hin|]. intros Hne. unfold js.
    pose proof (shards_cover self order k Ho Hg Hne) as Hc. unfold hack_num_real_shards in Hc. by rewrite Hsh in Hc. }
  split_and!; [|done|].
  - eapply stored_ext; [| |exact Hst'].
    + intros k. unfold cut. destruct (s k) as [m|] eqn:Ek; [|by repeat case_decide]. apply decide_ext.
      by rewrite (Hjs k (so_keys _ _ _ Hst _ _ Ek)).
    + intros e. unfold cut_stale. rewrite !list_elem_of_filter. destruct (decide (e ∈ st)) as [He|]; [|tauto].
      by rewrite (Hjs (stale_node_key e) (entry_good _ _ _ _ Hst He)).
  - unfold commit_progress in *. by rewrite Hother.
Qed.
End Interrupted.

(** ** Going back, on databases that do not fail *)
Section GoingBack.
Context {HV : Type} `{HashValueOps HV} `{HashValueBits HV} `{!HashValueLaws HV} `{CryptoHasher HV}
  `{LeafHasher HV} `{HashValueKeys HV} `{!HashValueKeysLaws HV} `{Itertools} `{!ItertoolsLaws} {K : Type}.
Context {DB : Type} `{SchemaDb HV K DB} `{HB : ByteOrder} `{!ByteOrderLaws} `{!SchemaDbLaws HV K DB}
  `{!SchemaDbNodes HV K DB} `{!SchemaDbNodesLaws HV K DB}.
Implicit Types (db : DB) (d : db_view HV K) (e : StaleNodeIndex) (self : StateMerkleDb DB)
  (s : store (HV := HV) (K := K)) (st : list StaleNodeIndex) (sid : option Z) (td : tree_db (HV := HV) (K := K)) (order : list nat).

Definition truncation_works : Prop := db_works DB /\ reads_work (DB := DB) /\
  forall db seek, exists l, db_nodes_from db seek = Ok (map Ok l).

Context (Hwork : truncation_works).

Lemma yields_map {A} (l l' : list A) : yields l (map Ok l') -> l = l'.
Proof.
  intros [E|(l1 & l2 & err & rest & _ & E)].
  - revert l E. induction l' as [|x l' IH]; intros [|y l] [=]; [done|]. subst. f_equal. by apply IH.
  - exfalso. revert l1 E. induction l' as [|x l' IH]; intros [|y l1] [=]. by eapply IH.
Qed.

Lemma delete_stale_works sch db v : stale_ok_view (view db) -> u64_ok v ->
  exists batch, delete_stale_node_index_at_or_after_version sch db v = Ok batch.
Proof.
  intros Hs Hv. destruct Hwork as [(_ & _ & Hit & _) _]. unfold delete_stale_node_index_at_or_after_version.
  destruct (Hit sch db (Version_encode_seek_key v)) as (l & E). rewrite E, obind_Ok. apply db_stale_from_spec in E as (l' & Hy & _ & Hl).
  apply yields_map in Hy as ->. assert (Hge : Forall (fun e => v <= stale_since_version e) l).
  { apply Forall_forall. intros e He. apply Hl in He as [He Hseek]. apply seek_version in Hseek; [done|by eapply Hs|done]. }
  clear Hl. induction Hge as [|e l He _ (batch & E)]; [by eexists|]. cbn [map delete_stale_items].
  rewrite obind_Ok, assert_true, obind_Ok, E, obind_Ok by (by apply Z.leb_le). by eexists.
Qed.

Lemma delete_works db v sid : stale_ok_view (view db) -> u64_ok v ->
  exists batch, delete_nodes_and_stale_indices_at_or_after_version db v sid = Ok batch.
Proof.
  intros Hs Hv. unfold delete_nodes_and_stale_indices_at_or_after_version.
  destruct (delete_stale_works StaleNodeIndexSchema db v Hs Hv) as (b1 & ->).
  destruct (delete_stale_works StaleNodeIndexCrossEpochSchema db v Hs Hv) as (b2 & ->). rewrite !obind_Ok, new_empty_path_pack, obind_Ok.
  destruct Hwork as (_ & _ & Hit). destruct (Hit db (NodeKey_encode (mkNodeKey v (pack [])))) as (l & ->). rewrite obind_Ok.
  assert (E : exists b3, delete_node_items (map Ok l) = Ok b3).
  { induction l as [|kn l (b3 & E)]; [by eexists|]. cbn [map delete_node_items]. rewrite obind_Ok, E, obind_Ok. by eexists. }
  destruct E as (b3 & ->). rewrite obind_Ok. by eexists.
Qed.

Lemma on_db_works self sid db batch : smdb_db self sid = Ok db -> exists self', on_db sid (write_schemas batch) self = (self', Ok tt).
Proof.
  intros Edb. destruct Hwork as [(_ & _ & _ & Hw) _]. unfold on_db. rewrite Edb. specialize (Hw batch db).
  destruct (write_schemas batch db) as [db' [[]| |]]; [by eexists|discriminate Hw..].
Qed.

Lemma stored_slot self s st sid : stored self s st -> (forall i, sid = Some i -> 0 <= i < 16) ->
  exists db, smdb_db self sid = Ok db /\ smdb_dbs self !! slot self sid = Some db.
Proof.
  intros Hst Hi. assert (Hlt : (slot self sid < length (smdb_dbs self))%nat).
  { rewrite (so_len _ _ _ Hst). unfold slot. destruct sid as [i|]; destruct (enable_sharding self); try lia. specialize (Hi i eq_refl). lia. }
  apply lookup_lt_is_Some_2 in Hlt as [db Hdb]. exists db. unfold smdb_db. by rewrite Hdb.
Qed.

Lemma truncate_shards_works target : 0 <= target < U64 - 1 -> forall shards self s st, stored self s st -> keys_ok s ->
  Forall (fun i => 0 <= i < 16) shards -> exists self', truncate_shards_in_order shards target self = (self', Ok tt).
Proof.
  intros Ht. induction shards as [|i shards IH]; intros self s st Hst Hk Hi; cbn [truncate_shards_in_order]; [by eexists|].
  apply Forall_cons in Hi as [Hi Hsh]. destruct (stored_slot self s st (Some i) Hst) as (db & Edb & Hj); [by intros ? [= <-]|].
  destruct (delete_works db (target + 1) (Some i)) as (batch & Eb); [by eapply stored_index|split; lia|].
  destruct (on_db_works self (Some i) db batch Edb) as (self1 & Ew).
  assert (E1 : truncate_state_merkle_db_single_shard i target self = (self1, Ok tt)).
  { unfold truncate_state_merkle_db_single_shard. rewrite (pbind_Ok _ _ self self batch); [done|].
    unfold reading. by rewrite Edb, obind_Ok, add64_Ok, obind_Ok, Eb by lia. }
  rewrite (pbind_Ok _ _ self self1 tt) by done.
  destruct (truncate_single_spec self s st i target self1 Hst Hk (proj1 Ht) E1) as [Hst1 _].
  eapply IH; [exact Hst1|by apply cut_keys|done].
Qed.

(** Opening the databases returns. *)
Lemma open_works self s st order : stored self s st -> keys_ok s ->
  (enable_sharding self = true -> forall p, commit_progress self = Some p -> 0 <= p < U64 - 1) ->
  exists self', smdb_new false order self = (self', Ok tt).
Proof.
  intros Hst Hk Hb. unfold smdb_new, smdb_open. rewrite (pbind_Ok _ _ self self (enable_sharding self)) by done.
  destruct (enable_sharding self) eqn:Hsh; cbn [negb]; [|by eexists]. specialize (Hb eq_refl).
  destruct (stored_slot self s st None Hst) as (db & Edb & Hj); [done|]. cbn [slot] in Hj.
  rewrite (pbind_Ok _ _ self self (commit_progress self)).
  2:{ unfold reading, get_state_merkle_commit_progress, get_progress. rewrite Edb, obind_Ok. destruct Hwork as [(_ & Hv & _) _].
      specialize (Hv db StateMerkleCommitProgress). destruct (db_get_version db _) as [o| |] eqn:E; [|discriminate Hv..].
      apply db_get_version_spec in E. unfold commit_progress. rewrite Hj. by rewrite E. }
  destruct (commit_progress self) as [p|] eqn:Hp; [|by eexists].
  unfold truncate_state_merkle_db_shards. rewrite (pbind_Ok _ _ self self (omap (fun i => seqZ 0 (hack_num_real_shards self) !! i) order)) by done.
  eapply truncate_shards_works; [by apply Hb|exact Hst|done|apply real_shards].
Qed.

(** The closest version with a node. *)
Lemma find_closest_works db v : keys_view (view db) -> u64_ok v ->
  exists o, find_closest_node_version_at_or_before db v = Ok o /\
    (forall w, o = Some w -> w <= v /\ exists k n, dv_node (view db) k = Some n /\ nk_version k = w) /\
    (forall u n, dv_node (view db) (root_key u) = Some n -> u <= v -> exists w, o = Some w /\ u <= w).
Proof.
  intros Hk Hv. unfold find_closest_node_version_at_or_before. rewrite new_empty_path_pack, obind_Ok. fold (root_key v).
  destruct Hwork as (_ & (_ & Hit) & _). destruct (Hit db (NodeKey_encode (root_key v))) as (l & E). rewrite E, obind_Ok, next_item_works, obind_Ok.
  apply db_nodes_before_spec in E. eexists. split; [done|]. destruct l as [|[k n] l]; cbn [head option_map fst map] in *.
  - split; [done|]. intros u n Hn Hle. pose proof (Hk _ _ Hn) as [Hu _]. cbn in Hu. apply E in Hn. by apply root_compare in Hle.
  - destruct E as (Hn & Hle & Hmax). split.
    + intros w [= <-]. split; [|by exists k, n]. apply root_first in Hle as [Hle| ->]; [lia|cbn; lia|by eapply Hk|done].
    + intros u m Hm Hu. exists (nk_version k). split; [done|]. pose proof (Hk _ _ Hm) as Hkm. pose proof Hkm as [Hu' _]. cbn in Hu'.
      specialize (Hmax _ _ Hm (proj2 (root_compare u v Hu' Hv) Hu)). apply version_order in Hmax; [exact Hmax|done|by eapply Hk].
Qed.

(** The root of a version that is kept. *)
Lemma kept_root td v : db_reachable td -> v ∈ map fst (td_versions td) -> kept td v -> is_Some (td_nodes td (root_key v)).
Proof.
  intros Hr Hv Hk. apply list_elem_of_fmap in Hv as ([v' lvs] & -> & Hv). destruct (reachable_tree td v' lvs Hr Hv Hk) as (_ & n & Hn & _). by exists n.
Qed.

Lemma later_kept td target v : Forall (fun e => stale_since_version e <= target) (td_pruned td) -> target <= v -> kept td v.
Proof. intros Hp Hv. eapply Forall_impl; [exact Hp|]. intros e He. cbn in He. left. lia. Qed.

(** Without the last version: what is not before it is of it. *)
Lemma cut_truncated self self1 td td' cur before order : stores self td -> db_reachable td -> truncated td before td' -> order ≡ₚ seq 0 16 ->
  enable_sharding self1 = enable_sharding self -> (forall u, u ∈ map fst (td_versions td) -> before < u -> cur <= u) -> before < cur ->
  let js := map (fun i => slot self1 (Some i)) (omap (fun i => seqZ 0 (hack_num_real_shards self1) !! i) order) in
  (forall k, cut self1 js (before + 1) (cut self [0%nat] cur (td_nodes td)) k = td_nodes td' k) /\
  (forall e, e ∈ cut_stale self1 js (before + 1) (cut_stale self [0%nat] cur (td_stale td)) <-> e ∈ td_stale td').
Proof.
  intros Hst Hr Ht Ho Hsh Hgap Hlt js. pose proof (reachable_versioned _ Hr) as Hvd.
  assert (Hslot : forall o, slot self1 o = slot self o) by (intros [i|]; unfold slot; by rewrite ?Hsh).
  split.
  - intros k. rewrite (tr_nodes _ _ _ Ht). unfold cut, upto. destruct (td_nodes td k) as [n|] eqn:En; [|by repeat case_decide].
    pose proof (vd_nodes _ Hvd _ _ En) as Hv. pose proof (so_keys _ _ _ Hst _ _ En) as Hg. specialize (Hgap _ Hv).
    destruct (decide (nk_version k <= before)) as [Hle|Hgt].
    + rewrite !decide_False by (intros [_ ?]; lia). done.
    + destruct (decide (slot self (shard_of k) = 0%nat)) as [E0|Hne].
      * case_decide; [done|]. rewrite decide_True; [done|]. rewrite E0. split; [left|]. apply Hgap. lia.
      * rewrite decide_True; [done|]. split; [|lia]. apply shards_cover; [done|done|by rewrite Hslot].
  - intros e. rewrite (tr_stale _ _ _ Ht). unfold cut_stale, stale_by. rewrite !list_elem_of_filter.
    destruct (decide (e ∈ td_stale td)) as [He|]; [|tauto]. specialize (Hgap _ (vd_stale _ Hvd _ He)).
    pose proof (entry_good _ _ _ _ Hst He) as Hg. split.
    + intros (Hno & Hno' & _). split; [|done]. apply Z.nlt_ge. intros Hgt. destruct (decide (slot self (shard_of (stale_node_key e)) = 0%nat)) as [E0|Hne].
      * apply Hno'. rewrite E0. split; [left|]. by apply Hgap.
      * apply Hno. split; [|lia]. apply shards_cover; [done|done|by rewrite Hslot].
    + intros [Hle _]. split_and!; [intros [_ ?]; lia|intros [_ ?]; lia|done].
Qed.

Lemma td_keys_ok self td v : stores self td -> db_reachable td -> last_version td = Some v -> u64_ok v -> keys_ok (td_nodes td).
Proof.
  intros Hst Hr Hl Hu k n Hn. pose proof (reachable_inv _ Hr) as Hi. split.
  - apply (inv_versions _ Hi) in Hn. unfold next_version in Hn. rewrite Hl in Hn. unfold u64_ok in *. lia.
  - apply (so_keys _ _ _ Hst) in Hn as (q & Hq & Hlen & ->). by apply pack_path_ok.
Qed.

(** The version before the last one. *)
Lemma version_before self td cur target db : stores self td -> db_reachable td -> last_version td = Some cur -> u64_ok cur ->
  smdb_db self None = Ok db -> (forall v, dv_node (view db) (root_key v) = td_nodes td (root_key v)) ->
  (forall k n, dv_node (view db) k = Some n -> td_nodes td k = Some n) ->
  target ∈ map fst (td_versions td) -> target < cur -> Forall (fun e => stale_since_version e <= target) (td_pruned td) ->
  exists before, find_closest_node_version_at_or_before db (cur - 1) = Ok (Some before) /\ target <= before < cur /\
    before ∈ map fst (td_versions td) /\ (forall u, u ∈ map fst (td_versions td) -> before < u -> cur <= u).
Proof.
  intros Hst Hr Hl Hu Edb Hroot Hsub Ht Hlt Hp. pose proof (reachable_versioned _ Hr) as Hvd. pose proof (reachable_inv _ Hr) as Hi.
  assert (Hbelow : forall u, u ∈ map fst (td_versions td) -> 0 <= u).
  { intros u Hin. apply list_elem_of_fmap in Hin as ([u' lvs] & -> & Hin). by apply (inv_below _ Hi) in Hin as [? _]. }
  pose proof (Hbelow _ Ht) as Ht0. unfold u64_ok in Hu.
  destruct (find_closest_works db (cur - 1)) as (o & E & Hsound & Hfind); [|split; lia|].
  { intros k n Hk. eapply (td_keys_ok self td cur); [done|done|done|done|by apply Hsub]. }
  assert (Hfound : forall u, u ∈ map fst (td_versions td) -> target <= u < cur -> exists w, o = Some w /\ u <= w).
  { intros u Hin Hlu. destruct (kept_root td u Hr Hin) as [n Hn]; [eapply later_kept; [exact Hp|lia]|].
    eapply Hfind; [by rewrite Hroot|lia]. }
  destruct (Hfound target Ht ltac:(lia)) as (before & -> & Hle). destruct (Hsound before eq_refl) as (Hlt' & k & n & Hk & Ek).
  exists before. split_and!; [done|lia|lia|rewrite <- Ek; by eapply (vd_nodes _ Hvd), Hsub|].
  intros u Hin Hbu. destruct (Z.lt_ge_cases u cur) as [Hc|]; [|done]. destruct (Hfound u Hin ltac:(lia)) as (w & [= <-] & ?). lia.
Qed.
End GoingBack.
