(* ===== verification/StateMerkleTruncationTheorems.v ===== *)
(** * Truncation: theorems

    A commit is atomic over a crash: when the databases are opened again they hold the
    new version, or what they held before -- exactly that, when they are sharded and an
    earlier commit has left its progress; otherwise with nodes of the new version that no
    root leads to. *)
From stdpp Require Import base list numbers strings option gmap sorting.
From Stdlib Require Import ZArith Lia Bool Sorted.
From S2P Require Import Prelude Hash ToyHash AccumulatorProof SparseMerkleProof SparseSpec SparseFacts SparseTheorems NibblePath NibblePathFacts ByteCodec JellyfishNode JellyfishNodeFacts JellyfishHash JellyfishSpec JellyfishTree JellyfishRead JellyfishRuns JellyfishBatch JellyfishUpdate JellyfishInsert JellyfishCommit JellyfishHistory JellyfishTruncate JellyfishTheorems StateMerkleDb StateMerklePruner StateMerklePrunerFacts StateMerklePrunerProgress StateMerklePrunerTheorems StateMerkleCommit StateMerkleCommitFacts StateMerkleCommitTheorems StateMerkleSnapshot LedgerMetadata LedgerMetadataFacts LedgerMetadataTheorems StateMerkleTruncation StateMerkleTruncationFacts.

Section CrashTheorems.
Context {HV : Type} `{HashValueOps HV} `{HashValueBits HV} `{!HashValueLaws HV} `{CryptoHasher HV}
  `{LeafHasher HV} `{HashValueKeys HV} `{!HashValueKeysLaws HV} `{Itertools} `{!ItertoolsLaws} {K : Type}.
Context {DB : Type} `{SchemaDb HV K DB} `{HB : ByteOrder} `{!ByteOrderLaws} `{!SchemaDbLaws HV K DB}
  `{!SchemaDbNodes HV K DB} `{!SchemaDbNodesLaws HV K DB} {ES SG LDB : Type} `{LedgerDb HV ES SG LDB}.
Implicit Types (self : StateMerkleDb DB) (s : store (HV := HV) (K := K)) (st : list StaleNodeIndex) (e : StaleNodeIndex)
  (td : tree_db (HV := HV) (K := K)) (kvs : list (HV * option (HV * K))) (prev : option Version) (order : list nat).

(** ** How a commit ends *)
Inductive commit_ends order (top : list (BatchOp HV K)) (batches : list (list (BatchOp HV K))) self : StateMerkleDb DB -> bool -> Prop :=
| ends_returned self' : order ≡ₚ seq 0 16 -> smdb_commit order top batches self = (self', Ok tt) -> commit_ends order top batches self self' true
| ends_interrupted self' : NoDup order -> interrupted order top batches self self' -> commit_ends order top batches self self' false.

Lemma stored_keys_ok self s st : stored self s st -> (forall k n, s k = Some n -> u64_ok (nk_version k)) -> keys_ok s.
Proof.
  intros Hst Hv k n Hk. split; [by eapply Hv|]. apply (so_keys _ _ _ Hst) in Hk as (q & Hq & Hl & ->). by apply pack_path_ok.
Qed.

(** Opening databases whose shards have nothing after the progress. *)
Lemma open_same self td order self' p : stores self td -> db_reachable td -> enable_sharding self = true ->
  commit_progress self = Some p -> next_version td <= p + 1 -> u64_ok p -> order ≡ₚ seq 0 16 ->
  smdb_new false order self = (self', Ok tt) -> stores self' td /\ enable_sharding self' = true /\ commit_progress self' = Some p.
Proof.
  intros Hst Hr Hsh Hp Hn Hu Ho E. pose proof (reachable_inv _ Hr) as Hi. unfold u64_ok in Hu.
  assert (Hk : keys_ok (td_nodes td)).
  { eapply stored_keys_ok; [exact Hst|]. intros k n Hk. apply (inv_versions _ Hi) in Hk. unfold u64_ok. lia. }
  destruct (open_cuts self _ _ order self' p Hst Hk Hsh Hp (proj1 Hu) Ho E) as (Hst' & Hsh' & Hp'). split_and!; [|done|done].
  eapply stored_ext; [| |exact Hst'].
  - intros k. cbv beta. case_decide as Hc; [|done]. destruct (td_nodes td k) as [n|] eqn:En; [|done].
    apply (inv_versions _ Hi) in En. lia.
  - intros e. rewrite list_elem_of_filter. split; [tauto|]. intros He. split; [|done]. intros [_ Hle].
    pose proof (inv_stale _ Hi) as Hs. rewrite Forall_forall in Hs. apply Hs in He. lia.
Qed.

(** After a commit that returned, the progress is its version. *)
Lemma commit_returned_progress order version prev nb sr batches self self' : 
  smdb_commit order (batch_of version prev None nb sr) batches self = (self', Ok tt) ->
  commit_progress self' = Some version /\ enable_sharding self' = enable_sharding self.
Proof.
  intros E. unfold smdb_commit in E. apply pbind_inv in E as [(self1 & [] & E1 & E)|[(err & _ & [=])|(err & _ & [=])]]. injection E1 as <- _.
  apply pbind_inv in E as [(self1 & ok & E1 & E)|[(err & _ & [=])|(err & _ & [=])]]. destruct (commit_jobs_metadata _ _ _ _ E1) as [Hsh1 _].
  apply pbind_inv in E as [(self2 & [] & E2 & E)|[(err & _ & [=])|(err & _ & [=])]]. injection E2 as <- _.
  unfold commit_top_levels, on_db in E. destruct (smdb_db self1 None) as [db| |] eqn:Edb; [|done..].
  destruct (write_schemas _ db) as [db' r] eqn:Ew. injection E as <- ->. split; [|done].
  apply write_schemas_spec in Ew as (_ & _ & Vv). unfold smdb_db, expect in Edb. cbn [slot] in *.
  destruct (smdb_dbs self1 !! 0%nat) eqn:Ej; [|done]. unfold commit_progress. cbn. rewrite list_lookup_insert_eq by (by eapply lookup_lt_Some).
  rewrite Vv. unfold batch_of, apply_ops. by rewrite !fold_left_app.
Qed.

(** What an interrupted commit has written: nodes of its version, not the root, and entries
    since this version. *)
Definition partly_written (version : Version) (nb : list (NodeKey * Node HV K)) (sb : list StaleNodeIndex) : Prop :=
  (forall k m, (k, m) ∈ nb -> nk_version k = version /\ k <> root_key version) /\ forall e, e ∈ sb -> stale_since_version e = version.

Definition in_shards self (nb : list (NodeKey * Node HV K)) (sb : list StaleNodeIndex) : Prop :=
  (forall k m, (k, m) ∈ nb -> slot self (shard_of k) <> 0%nat) /\ forall e, e ∈ sb -> slot self (shard_of (stale_node_key e)) <> 0%nat.

Lemma interrupted_left rl self td kvs version pvs caches prev b pts n order self1 : stores self td -> db_reachable td ->
  next_version td <= version -> next_batches rl self td kvs version pvs caches prev b pts n -> NoDup order ->
  interrupted order (top_ops td version prev n) (map (part_ops version prev) pts) self self1 -> u64_ok version ->
  enable_sharding self1 = enable_sharding self /\ (enable_sharding self = true -> commit_progress self1 = commit_progress self) /\
  exists nb sb, stored self1 (overlay (td_nodes td) nb) (td_stale td ++ sb) /\ keys_ok (overlay (td_nodes td) nb) /\
    partly_written version nb sb /\ (enable_sharding self = true -> in_shards self1 nb sb).
Proof.
  intros Hst Hr Hn Hnb Hnd Hint Hu. pose proof (reachable_inv _ Hr) as Hi.
  destruct (interrupted_run rl self td kvs version pvs caches prev b pts n order self1 Hst Hnb Hnd Hint) as (Hsh1 & Hp1 & pts' & Hst1 & Hsub).
  assert (Hfits : forall pt, pt ∈ pts' -> part_fits (td_stale td) pt) by (intros pt Hpt; by apply (nb_fits Hnb), Hsub).
  assert (Hver : forall k m, (k, m) ∈ part_nodes pts' -> nk_version k = version).
  { intros k m Hk. apply (nb_version Hnb k m). rewrite (nb_nodes Hnb). apply elem_of_app. left. by eapply part_nodes_elem. }
  split_and!; [done|done|]. exists (part_nodes pts'), (part_stale pts'). split_and!; [done| | |].
  - eapply stored_keys_ok; [exact Hst1|]. intros k m Hk. unfold overlay in Hk. destruct (list_to_map _ !! k) as [m'|] eqn:Ek.
    + apply elem_of_list_to_map_2, Hver in Ek as ->. done.
    + apply (inv_versions _ Hi) in Hk. unfold u64_ok in *. lia.
  - split.
    + intros k m Hk. split; [by eapply Hver|]. intros ->. apply (list_elem_of_fmap_2 fst) in Hk.
      by eapply root_not_in_parts; [exact Hfits|exact (nb_top Hnb)|].
    + intros e He. apply (nb_since Hnb e). rewrite (nb_stale Hnb). apply elem_of_app. left. by eapply part_stale_elem.
  - intros Hsh. assert (Hslot : forall o (i : Z), o = Ok (Some i) -> slot self1 (match o with Ok o => o | _ => None end) <> 0%nat).
    { intros o i ->. unfold slot. by rewrite Hsh1, Hsh. } split.
    + intros k m Hk. apply (list_elem_of_fmap_2 fst), (part_nodes_shard _ _ _ Hfits) in Hk as (pt & _ & Hk). eapply Hslot, Hk.
    + intros e He. apply (part_stale_shard _ _ _ Hfits) in He as (pt & _ & He). eapply Hslot, He.
Qed.

(** Opening removes it. *)
Lemma open_undoes self1 td nb sb version order self2 p : db_reachable td ->
  stored self1 (overlay (td_nodes td) nb) (td_stale td ++ sb) -> keys_ok (overlay (td_nodes td) nb) ->
  partly_written version nb sb -> in_shards self1 nb sb ->
  enable_sharding self1 = true -> commit_progress self1 = Some p -> next_version td <= p + 1 -> 0 <= p < version -> order ≡ₚ seq 0 16 ->
  smdb_new false order self1 = (self2, Ok tt) ->
  stores self2 td /\ enable_sharding self2 = true /\ commit_progress self2 = Some p.
Proof.
  intros Hr Hst1 Hk [Hnode Hent] [Hnshard Heshard] Hsh1 Hp1 Hn Hpv Ho E. pose proof (reachable_inv _ Hr) as Hi.
  destruct (open_cuts self1 _ _ order self2 p Hst1 Hk Hsh1 Hp1 (proj1 Hpv) Ho E) as (Hst2 & Hsh2 & Hp2). split_and!; [|done|done].
  eapply stored_ext; [| |exact Hst2].
  - intros k. unfold overlay. destruct (list_to_map nb !! k) as [m|] eqn:Ek.
    + apply elem_of_list_to_map_2 in Ek. pose proof (Hnshard _ _ Ek) as Hs. apply Hnode in Ek as [Ev _]. rewrite decide_True by (split; [done|lia]).
      destruct (td_nodes td k) as [m'|] eqn:En; [|done]. apply (inv_versions _ Hi) in En. lia.
    + case_decide as Hc; [|done]. destruct (td_nodes td k) as [m'|] eqn:En; [|done]. apply (inv_versions _ Hi) in En. lia.
  - intros e. rewrite list_elem_of_filter, elem_of_app. split.
    + intros [Hno [He|He]]; [done|]. pose proof (Heshard _ He) as Hs. apply Hent in He as Ev. exfalso. apply Hno. split; [done|lia].
    + intros He. split; [|by left]. intros [_ Hle]. pose proof (inv_stale _ Hi) as Hs. rewrite Forall_forall in Hs. apply Hs in He. lia.
Qed.

(** After the databases are opened again: the new version; or what was there before; or,
    where opening removes nothing, what was there before and a part of the new version. *)
Definition reopened rl self td kvs version self2 (ok : bool) : Prop :=
  if ok then exists td', db_reachable td' /\ stores self2 td' /\ commit_progress self2 = Some version /\
    td_versions td' = td_versions td ++ [(version, update_all version (latest td) kvs)]
  else match enable_sharding self, commit_progress self with
  | true, Some p => stores self2 td /\ commit_progress self2 = Some p
  | _, _ => exists nb sb, partly_written version nb sb /\ stored self2 (overlay (td_nodes td) nb) (td_stale td ++ sb) /\
      forall v lvs key, (v, lvs) ∈ td_versions td -> kept td v -> readable rl self2 v lvs key
  end.

Lemma returned_reopened rl self td kvs version prev b pts n order order' self1 self2 : db_reachable td -> stores self td -> u64_ok version ->
  next_batches rl self td kvs version (fun _ => last_version td) (fun _ => None) prev b pts n -> db_step td (put_db td version kvs b) ->
  order ≡ₚ seq 0 16 -> smdb_commit order (top_ops td version prev n) (map (part_ops version prev) pts) self = (self1, Ok tt) ->
  order' ≡ₚ seq 0 16 -> smdb_new false order' self1 = (self2, Ok tt) -> enable_sharding self2 = enable_sharding self /\ reopened rl self td kvs version self2 true.
Proof.
  intros Hr Hst Hu Hnb Hstep Ho Ec Ho' E. assert (Hnd : NoDup order) by (rewrite Ho; apply NoDup_seq).
  destruct (commit_run rl self td kvs version _ _ prev b pts n order Hst Hnb Hnd) as (self1' & r & nb & sb & Ec' & _ & _ & Hst1 & _).
  rewrite Ec in Ec'. injection Ec' as <- <-. specialize (Hst1 Ho eq_refl).
  destruct (commit_returned_progress _ _ _ _ _ _ _ _ Ec) as [Hp1 Hsh1]. assert (Hr1 : db_reachable (put_db td version kvs b)) by (by eapply reach_step).
  destruct (last_version_put td version kvs b) as (_ & _ & Hn1). destruct (enable_sharding self) eqn:Hsh.
  - destruct (open_same self1 _ order' self2 version Hst1 Hr1 Hsh1 Hp1 ltac:(lia) Hu Ho' E) as (Hst2 & Hsh2 & Hp2).
    split; [done|]. by exists (put_db td version kvs b).
  - apply open_skips in E as ->; [|by rewrite Hsh1]. split; [done|]. by exists (put_db td version kvs b).
Qed.

(** C3: A commit is atomic over a crash.  However it ends -- it returns, a write fails, or
    the process dies with some of the shards written -- once the databases are opened
    again they hold all of the new version, if the commit returned.  If not, and the
    databases are sharded and an earlier commit has left its progress, they hold exactly
    the nodes and entries they held before.  Without shards, and before the first commit
    that returned, opening removes nothing: there are also nodes of the new version
    without its root, and entries since it; every version from before is read as before.
    The progress, if there is one, is not before the last version and before the new one;
    reads of nodes do not fail.  On databases that do not fail at all then, opening them
    returns. *)
Theorem commit_atomic rl self td kvs version prev order top batches root self1 ok :
  (forall (db : DB) k, is_ok (db_get_node db k) = true) -> db_reachable td -> stores self td ->
  (forall p, commit_progress self = Some p -> 0 <= p < version /\ next_version td <= p + 1) ->
  next_version td <= version -> version + 1 < U64 -> Z.of_nat (length (latest td) + length kvs) < U64 ->
  merklize_value_set rl self kvs version (last_version td) prev = Ok (top, batches, root) -> commit_ends order top batches self self1 ok ->
  (forall order' self2, order' ≡ₚ seq 0 16 -> smdb_new false order' self1 = (self2, Ok tt) ->
    enable_sharding self2 = enable_sharding self /\ reopened rl self td kvs version self2 ok) /\
  (truncation_works (DB := DB) -> forall order', exists self2, smdb_new false order' self1 = (self2, Ok tt)).
Proof.
  intros Hget Hr Hst Hp Hn Hu' Hb Em Hends. pose proof (reachable_inv _ Hr) as Hi. pose proof (inv_nonneg _ Hi) as H0'.
  assert (Hu : u64_ok version) by (unfold u64_ok; lia).
  destruct (base_batches rl self td kvs version prev Hget Hr Hst Hu Hn Hb) as (b & pts & n & Em' & Hstep & Hnb).
  rewrite Em in Em'. injection Em' as -> -> _. destruct Hends as [self1 Ho1 Ec|self1 Hnd Hint].
  - split; [intros order' self2 Ho E; exact (returned_reopened rl self td kvs version prev b pts n order order' self1 self2 Hr Hst Hu Hnb Hstep Ho1 Ec Ho E)|]. intros Hwork order'. assert (Hnd : NoDup order) by (rewrite Ho1; apply NoDup_seq).
    destruct (commit_run rl self td kvs version _ _ prev b pts n order Hst Hnb Hnd) as (self1' & r & nb & sb & Ec' & _ & _ & Hst1 & _).
    rewrite Ec in Ec'. injection Ec' as <- <-. specialize (Hst1 Ho1 eq_refl). destruct (last_version_put td version kvs b) as (Hl1 & _ & Hn1).
    destruct (commit_returned_progress _ _ _ _ _ _ _ _ Ec) as [Hp1 _]. eapply (open_works Hwork); [exact Hst1|eapply td_keys_ok; [exact Hst1|by eapply reach_step|exact Hl1|done]|].
    intros _ p E. rewrite Hp1 in E. injection E as <-. lia.
  - destruct (interrupted_left rl self td kvs version _ _ prev b pts n order self1 Hst Hr Hn Hnb Hnd Hint Hu)
      as (Hsh1 & Hp1 & nb & sb & Hst1 & Hk & Hpart & Hplace). split.
    + intros order' self2 Ho E. unfold reopened. destruct (enable_sharding self) eqn:Hsh; [destruct (commit_progress self) as [p|] eqn:Ep|].
      * destruct (Hp p eq_refl) as [Hpv Hpn].
        destruct (open_undoes self1 td nb sb version order' self2 p Hr Hst1 Hk Hpart (Hplace eq_refl) Hsh1 (Hp1 eq_refl) Hpn Hpv Ho E) as (Hst2 & Hsh2 & Hp2). done.
      * apply open_skips in E as ->; [|by intros _; apply Hp1]. split; [done|]. exists nb, sb. split_and!; [done|done|]. intros v lvs key Hv Hkept.
        eapply stored_readable; [done|exact Hst1|]. eapply partial_keeps; [done|exact Hn|by intros k m Hkm; apply Hpart in Hkm as [? _]|done|done].
      * apply open_skips in E as ->; [|by rewrite Hsh1]. split; [done|]. exists nb, sb. split_and!; [done|done|]. intros v lvs key Hv Hkept.
        eapply stored_readable; [done|exact Hst1|]. eapply partial_keeps; [done|exact Hn|by intros k m Hkm; apply Hpart in Hkm as [? _]|done|done].
    + intros Hwork order'. eapply (open_works Hwork); [exact Hst1|exact Hk|]. intros Hsh p Ep. rewrite Hsh1 in Hsh. rewrite (Hp1 Hsh) in Ep. apply Hp in Ep. lia.
Qed.

(** ** Going back to a version *)

Lemma last_in td v : last_version td = Some v -> v ∈ map fst (td_versions td).
Proof.
  unfold last_version. destruct (list.last (td_versions td)) as [[v' lvs]|] eqn:E; [|done]. intros [= ->].
  apply last_Some in E as [l E]. rewrite E, map_app. apply elem_of_app. right. left.
Qed.

Lemma last_max td u v : db_reachable td -> last_version td = Some v -> u ∈ map fst (td_versions td) -> 0 <= u <= v.
Proof.
  intros Hr Hl Hu. apply list_elem_of_fmap in Hu as ([u' lvs] & -> & Hu). apply (inv_below _ (reachable_inv _ Hr)) in Hu.
  unfold next_version in Hu. rewrite Hl in Hu. cbn [fst]. lia.
Qed.

(** The last version of a database that went back. *)
Lemma truncated_last td v td' : truncated td v td' -> v ∈ map fst (td_versions td) ->
  v ∈ map fst (td_versions td') /\ last_version td' = Some v.
Proof.
  intros [Hr _ _ Hv _] Hin. assert (Hin' : v ∈ map fst (td_versions td')).
  { apply list_elem_of_fmap in Hin as ([v' lvs] & -> & Hin). rewrite Hv. apply list_elem_of_fmap_2.
    apply list_elem_of_filter. split; [cbn; lia|done]. }
  split; [done|]. destruct (last_version td') as [u|] eqn:El.
  - f_equal. pose proof (last_max td' v u Hr El Hin') as Hle. apply last_in in El. rewrite Hv in El.
    apply list_elem_of_fmap in El as ([u' lvs] & -> & El). apply list_elem_of_filter in El as [El _]. cbn [fst] in *. lia.
  - unfold last_version in El. apply list_elem_of_fmap in Hin' as (x & _ & Hin').
    destruct (list.last (td_versions td')) eqn:E; [done|]. apply last_None in E. rewrite E in Hin'. by apply not_elem_of_nil in Hin'.
Qed.

(** The metadata database: the roots, and nodes of the tree. *)
Lemma metadata_nodes self td v : reads_work (DB := DB) -> stores self td -> db_reachable td -> last_version td = Some v -> u64_ok v ->
  exists db, smdb_db self None = Ok db /\ smdb_dbs self !! 0%nat = Some db /\ keys_view (view db) /\
    (forall v, dv_node (view db) (root_key v) = td_nodes td (root_key v)) /\
    (forall k n, dv_node (view db) k = Some n -> td_nodes td k = Some n).
Proof.
  intros Hw Hst Hr Hl Hu. destruct (metadata_view self _ _ Hw Hst (td_keys_ok self td v Hst Hr Hl Hu)) as (db & Edb & Hroot & Hk & _).
  exists db. pose proof Edb as Ej. unfold smdb_db, expect in Ej. cbn [slot] in Ej. destruct (smdb_dbs self !! 0%nat) as [db0|] eqn:E0; [|done].
  injection Ej as ->. split_and!; try done. intros k n Hn. rewrite (so_nodes _ _ _ Hst k db); [done|]. by rewrite (so_only _ _ _ Hst _ _ _ _ E0 Hn).
Qed.

(** The last version that the loop finds. *)
Lemma current_version self td v : truncation_works (DB := DB) -> stores self td -> db_reachable td -> last_version td = Some v -> u64_ok v ->
  get_current_version_in_state_merkle_db self = Ok (Some v).
Proof.
  intros Hwork Hst Hr Hl Hu. pose proof Hwork as (_ & Hrd & _).
  destruct (metadata_nodes self td v Hrd Hst Hr Hl Hu) as (db & Edb & _ & Hk & Hroot & Hsub). unfold get_current_version_in_state_merkle_db.
  rewrite Edb, obind_Ok. unfold u64_ok in Hu.
  destruct (find_closest_works Hwork db VERSION_MAX Hk) as (o & -> & Hsound & Hfind); [unfold u64_ok, VERSION_MAX; lia|].
  destruct (latest_root td v (reachable_inv _ Hr) Hl) as [_ [n Hn]].
  destruct (Hfind v n) as (w & -> & Hle); [by rewrite Hroot|unfold VERSION_MAX; lia|]. do 2 f_equal.
  destruct (Hsound w eq_refl) as (_ & k & m & Hkm & <-). apply Hsub, (vd_nodes _ (reachable_versioned _ Hr)) in Hkm.
  pose proof (last_max td _ v Hr Hl Hkm). lia.
Qed.

(** A round of the loop. *)
Lemma truncate_round self td cur target order : truncation_works (DB := DB) -> stores self td -> db_reachable td ->
  last_version td = Some cur -> u64_ok cur -> target ∈ map fst (td_versions td) -> target < cur ->
  Forall (fun e => stale_since_version e <= target) (td_pruned td) -> order ≡ₚ seq 0 16 ->
  exists db before batch self1 self2 td', smdb_db self None = Ok db /\
    find_closest_node_version_at_or_before db (cur - 1) = Ok (Some before) /\
    delete_nodes_and_stale_indices_at_or_after_version db cur None = Ok batch /\
    commit_top_levels batch self = (self1, Ok tt) /\ truncate_state_merkle_db_shards order before self1 = (self2, Ok tt) /\
    target <= before < cur /\ before ∈ map fst (td_versions td) /\ truncated td before td' /\ stores self2 td'.
Proof.
  intros Hwork Hst Hr Hl Hu Ht Hlt Hp Ho. pose proof Hwork as (_ & Hrd & _). pose proof (td_keys_ok self td cur Hst Hr Hl Hu) as Hk.
  destruct (metadata_nodes self td cur Hrd Hst Hr Hl Hu) as (db & Edb & Hj & _ & Hroot & Hsub).
  destruct (version_before Hwork self td cur target db Hst Hr Hl Hu Edb Hroot Hsub Ht Hlt Hp) as (before & Eb & Hb & Hbin & Hgap).
  pose proof (last_max td target cur Hr Hl Ht) as Ht0. pose proof Hu as [_ Hcu].
  destruct (delete_works Hwork db cur None) as (batch & Ebt); [by eapply stored_index|done|].
  destruct (on_db_works Hwork self None db batch Edb) as (self1 & Ew).
  destruct (delete_written self _ _ None db cur batch self1 Hst Hk Hu Edb Ebt Ew) as [Hst1 (db' & -> & _)]. cbn [slot] in *.
  set (self1 := set_db self 0 db') in *.
  destruct (truncate_shards_works Hwork before ltac:(lia) (omap (fun i => seqZ 0 (hack_num_real_shards self1) !! i) order) self1 _ _ Hst1
    (cut_keys _ _ _ _ Hk) (real_shards self1 order)) as (self2 & E2).
  destruct (truncate_shards_spec before ltac:(lia) _ _ _ _ _ Hst1 (cut_keys _ _ _ _ Hk) E2) as (Hst2 & _ & _).
  destruct (reachable_truncated td before Hr) as (td' & Htr); [eapply later_kept; [exact Hp|lia]|].
  destruct (cut_truncated self self1 td td' cur before order Hst Hr Htr Ho eq_refl Hgap ltac:(lia)) as [Cn Cs].
  exists db, before, batch, self1, self2, td'. split_and!; try done; try lia.
  eapply stored_ext; [exact Cn|exact Cs|exact Hst2].
Qed.

(** [truncate_state_merkle_db] ends, and leaves exactly the nodes and the stale entries of
    the versions up to the target. *)
Lemma truncate_goes_back orders self td cur target : truncation_works (DB := DB) -> stores self td -> db_reachable td ->
  last_version td = Some cur -> u64_ok cur -> target ∈ map fst (td_versions td) ->
  Forall (fun e => stale_since_version e <= target) (td_pruned td) ->
  Forall (fun order => order ≡ₚ seq 0 16) orders -> cur - target <= Z.of_nat (length orders) ->
  exists self' td', truncate_state_merkle_db orders target self = (self', Ok tt) /\ truncated td target td' /\ stores self' td'.
Proof.
  intros Hwork. revert self td cur. induction orders as [|order orders IH]; intros self td cur Hst Hr Hl Hu Ht Hp Hos Hlen;
    pose proof (last_max td target cur Hr Hl Ht) as Hle; cbn [truncate_state_merkle_db];
    rewrite (pbind_Ok _ _ self self cur) by (unfold reading; by rewrite (current_version self td cur Hwork Hst Hr Hl Hu), obind_Ok);
    rewrite (pbind_Ok _ _ self self tt) by (unfold reading; by rewrite assert_true by (apply Z.leb_le; lia));
    destruct (Z.eqb_spec cur target) as [<-|Hne].
  1,3: exists self, td; split_and!; [done| |done]; apply truncated_self; [done|]; unfold next_version; rewrite Hl; lia.
  - cbn in Hlen. lia.
  - apply Forall_cons in Hos as [Ho Hos]. cbn [length] in Hlen.
    destruct (truncate_round self td cur target order Hwork Hst Hr Hl Hu Ht ltac:(lia) Hp Ho)
      as (db & before & batch & self1 & self2 & td' & Edb & Eb & Ebt & Ew & E2 & Hb & Hbin & Htr & Hst2).
    rewrite (pbind_Ok _ _ self self before) by (unfold reading; by rewrite Edb, obind_Ok, sub64_Ok, obind_Ok, Eb, obind_Ok by lia).
    rewrite (pbind_Ok _ _ self self batch) by (unfold reading; by rewrite Edb, obind_Ok, Ebt).
    rewrite (pbind_Ok _ _ self self1 tt) by done. rewrite (pbind_Ok _ _ self1 self2 tt) by done.
    destruct (truncated_last td before td' Htr Hbin) as [_ Hl'].
    destruct (IH self2 td' before Hst2 (tr_reachable _ _ _ Htr) Hl') as (self' & td2 & E & Htr2 & Hst'); [unfold u64_ok in *; lia|..|done|lia|].
    + rewrite (tr_versions _ _ _ Htr). apply list_elem_of_fmap in Ht as ([t lvs] & -> & Ht). apply list_elem_of_fmap_2, list_elem_of_filter.
      split; [cbn in *; lia|done].
    + rewrite (tr_pruned _ _ _ Htr). rewrite Forall_forall in Hp |- *. intros e He. apply list_elem_of_filter in He as [_ He]. by apply Hp.
    + exists self', td2. split_and!; [done| |done]. eapply truncated_again; [exact Htr|lia|done].
Qed.

(** ** At the start of the node *)

(** No shard has a later version than the root. *)
Lemma max_version self td cur : truncation_works (DB := DB) -> stores self td -> db_reachable td -> last_version td = Some cur -> u64_ok cur ->
  get_max_version_in_state_merkle_db self = Ok (Some cur).
Proof.
  intros Hwork Hst Hr Hl Hu. unfold get_max_version_in_state_merkle_db. rewrite (current_version self td cur Hwork Hst Hr Hl Hu), obind_Ok.
  destruct (1 <? hack_num_real_shards self); [|done].
  assert (Hi : Forall (fun i => 0 <= i < 16) (seqZ 0 (hack_num_real_shards self))).
  { apply Forall_forall. intros i Hi. apply elem_of_seqZ in Hi. unfold hack_num_real_shards, NUM_STATE_SHARDS in Hi. destruct (enable_sharding self); lia. }
  induction Hi as [|i shards Hi _ IH]; [done|]. cbn [max_shard_version].
  destruct (stored_slot self _ _ (Some i) Hst) as (db & Edb & Hj); [by intros ? [= <-]|]. rewrite Edb, obind_Ok.
  destruct (find_closest_works Hwork db VERSION_MAX) as (o & -> & Hsound & _);
    [eapply stored_keys; [exact Hst|by eapply td_keys_ok|done]|unfold u64_ok, VERSION_MAX, U64; lia|].
  rewrite obind_Ok. destruct o as [w|]; [|done]. destruct (Hsound w eq_refl) as (_ & k & n & Hn & <-).
  rewrite (proj2 (Z.ltb_ge _ _)); [done|].
  assert (En : td_nodes td k = Some n) by (rewrite (so_nodes _ _ _ Hst k db); [done|]; by rewrite (so_only _ _ _ Hst _ _ _ _ Hj Hn)).
  apply (vd_nodes _ (reachable_versioned _ Hr)) in En. pose proof (last_max td _ cur Hr Hl En). lia.
Qed.

(** The last version up to [version]. *)
Definition last_upto_version td (version target : Version) : Prop :=
  target ∈ map fst (td_versions td) /\ target <= version /\
  forall u, u ∈ map fst (td_versions td) -> u <= version -> u <= target.

Lemma root_found ledger self td cur version target : truncation_works (DB := DB) -> stores self td -> db_reachable td ->
  last_version td = Some cur -> u64_ok cur -> u64_ok version -> last_upto_version td version target ->
  Forall (fun e => stale_since_version e <= target) (td_pruned td) ->
  find_tree_root_at_or_before (ledger : LedgerMetadataDb HV ES SG LDB) self version = Ok (Some target).
Proof.
  intros Hwork Hst Hr Hl Hu Hv (Hin & Hle & Hmax) Hp. pose proof Hwork as (_ & Hrd & _).
  destruct (metadata_nodes self td cur Hrd Hst Hr Hl Hu) as (db & Edb & _ & Hk & Hroot & Hsub).
  destruct (kept_root td target Hr Hin) as [n Hn]; [by eapply later_kept|].
  unfold find_tree_root_at_or_before. rewrite Edb, obind_Ok.
  destruct (find_closest_works Hwork db version Hk Hv) as (o & -> & Hsound & Hfind). rewrite obind_Ok.
  destruct (Hfind target n) as (w & -> & Hw); [by rewrite Hroot|done|]. destruct (Hsound w eq_refl) as (Hwv & k & m & Hkm & Ek).
  assert (w = target) as ->.
  { apply Hsub, (vd_nodes _ (reachable_versioned _ Hr)) in Hkm. rewrite Ek in Hkm. specialize (Hmax w Hkm Hwv). lia. }
  unfold root_exists_at_version. rewrite Edb, obind_Ok, new_empty_path_pack, obind_Ok. fold (root_key target).
  destruct Hrd as [Hget _]. specialize (Hget db (root_key target)). destruct (db_get_node db (root_key target)) as [o| |] eqn:Eg; [|discriminate Hget..].
  by rewrite obind_Ok, (db_get_node_spec _ _ _ Eg), Hroot, Hn.
Qed.

(** C7: At the start of the node, the state tree goes back to the last version that is not
    after the progress of the ledger: on databases that do not fail, the sync ends and
    leaves exactly the nodes and the stale entries of the versions up to that one, as
    if nothing later had been put -- unless something that became stale later was pruned,
    or the difference is too large. *)
Theorem sync_goes_back (ledger : LedgerMetadataDb HV ES SG LDB) orders crash self td cur progress target : truncation_works (DB := DB) ->
  stores self td -> db_reachable td -> last_version td = Some cur -> u64_ok cur -> u64_ok progress -> last_upto_version td progress target ->
  Forall (fun e => stale_since_version e <= target) (td_pruned td) ->
  Forall (fun order => order ≡ₚ seq 0 16) orders -> cur - target <= Z.of_nat (length orders) ->
  (crash = true -> cur - progress <= MAX_COMMIT_PROGRESS_DIFFERENCE) ->
  exists self' td', sync_state_merkle ledger orders progress crash self = (self', Ok tt) /\ stores self' td' /\ truncated td target td'.
Proof.
  intros Hwork Hst Hr Hl Hu Hup Ht Hp Hos Hlen Hdiff. unfold sync_state_merkle.
  rewrite (pbind_Ok _ _ self self cur) by (unfold reading; by rewrite (max_version self td cur Hwork Hst Hr Hl Hu)).
  rewrite (pbind_Ok _ _ self self tt).
  2:{ unfold reading. destruct (progress <? cur), crash; cbn [andb]; try done. rewrite assert_true; [done|]. apply Z.leb_le. by apply Hdiff. }
  rewrite (pbind_Ok _ _ self self target) by (unfold reading; by rewrite (root_found ledger self td cur progress target Hwork Hst Hr Hl Hu Hup Ht Hp)).
  destruct (Z.ltb_spec target cur) as [Hlt|Hge].
  - destruct Ht as (Hin & _). destruct (truncate_goes_back orders self td cur target Hwork Hst Hr Hl Hu Hin Hp Hos Hlen) as (self' & td' & E & Htr & Hst').
    exists self', td'. unfold pexpect. by rewrite E.
  - exists self, td. split_and!; [done|done|]. apply truncated_self; [done|]. unfold next_version. rewrite Hl. lia.
Qed.
End CrashTheorems.

(** ** Witnesses *)
Section CrashWitnesses.
#[local] Existing Instances ref_byteorder ref_byteorder_laws map_schema_db map_db_laws map_db_nodes map_db_nodes_laws.

Lemma map_truncation_works : truncation_works (DB := map_db false).
Proof.
  split_and!; [|apply map_db_works|intros db seek; by eexists]. split_and!; [done|done|intros sch db seek; by eexists|].
  intros batch [[n m] v]. by destruct n.
Qed.

(** Seventeen empty databases. *)
Definition toy_sharded : StateMerkleDb (map_db false) :=
  mkStateMerkleDb (replicate 17 (0%nat, ∅, mkDbView (fun _ => None) (fun _ => []) (fun _ => None))) true.

Abbreviation toy_rl := (fun _ : Version => Ok (@None (NodeKey * LeafNode bytes32 Z))).

Definition toy_batches (self : StateMerkleDb (map_db false)) (kvs : list (bytes32 * option (bytes32 * Z))) (version : Version) (base : option Version) :=
  result_of ([], [], of_num 0) (merklize_value_set toy_rl self kvs version base None).

Definition toy_commit (self : StateMerkleDb (map_db false)) (kvs : list (bytes32 * option (bytes32 * Z))) (version : Version) (base : option Version) : StateMerkleDb (map_db false) :=
  fst (smdb_commit toy_order (fst (fst (toy_batches self kvs version base))) (snd (fst (toy_batches self kvs version base))) self).

(** A database with the next version. *)
Lemma toy_next self td kvs version : db_reachable td -> stores self td -> enable_sharding self = true -> u64_ok version -> next_version td <= version ->
  Z.of_nat (length (latest td) + length kvs) < U64 ->
  let self' := toy_commit self kvs version (last_version td) in
  exists td', db_reachable td' /\ stores self' td' /\ enable_sharding self' = true /\ commit_progress self' = Some version /\
    td_versions td' = td_versions td ++ [(version, update_all version (latest td) kvs)] /\ td_pruned td' = td_pruned td.
Proof.
  intros Hr Hst Hsh Hu Hv Hb. pose proof map_truncation_works as [(Hget & _ & _ & Hw) _].
  destruct (base_batches toy_rl self td kvs version None Hget Hr Hst Hu Hv Hb) as (b & pts & n & Em & Hstep & Hnb).
  destruct (commit_works toy_rl self td kvs version _ _ None b pts n toy_order Hst Hnb Hw toy_order_all) as (self' & E & Hst').
  unfold toy_commit, toy_batches. rewrite Em. cbn [result_of fst snd]. rewrite E. cbn [fst].
  destruct (commit_returned_progress _ _ _ _ _ _ _ _ E) as [Hp Hsh']. exists (put_db td version kvs b).
  split_and!; [by eapply reach_step|done|congruence|done|done|done].
Qed.

Definition toy_empty_td : tree_db (HV := bytes32) (K := Z) := mkTreeDb (fun _ => None) [] [] [].
Definition toy_sharded1 := toy_commit toy_sharded toy_updates 0 None.
Definition toy_sharded2 := toy_commit toy_sharded1 toy_updates2 1 (Some 0).

Lemma toy_sharded_stores1 : exists td, db_reachable td /\ stores toy_sharded1 td /\ enable_sharding toy_sharded1 = true /\
  commit_progress toy_sharded1 = Some 0 /\ td_versions td = [(0, update_all 0 [] toy_updates)] /\ td_pruned td = [].
Proof.
  apply (toy_next toy_sharded toy_empty_td toy_updates 0); [constructor| |done|unfold u64_ok, U64; lia|done|done].
  apply fresh_db_stores. split; [done|]. intros j db Hj. apply list_elem_of_lookup_2, elem_of_replicate in Hj as [-> _]. cbn.
  split; [done|]. intros sch e. apply not_elem_of_nil.
Qed.

(** The process dies when three shards of version 1 are written. *)
Definition toy_died : StateMerkleDb (map_db false) :=
  fst (commit_jobs (enumerated [1%nat; 12%nat; 3%nat] (snd (fst (toy_batches toy_sharded1 toy_updates2 1 (Some 0))))) toy_sharded1).

Lemma commit_atomic_witness : exists td self2, stores toy_sharded1 td /\
  smdb_new false toy_order toy_died = (self2, Ok tt) /\ stores self2 td.
Proof.
  destruct toy_sharded_stores1 as (td & Hr & Hst & Hsh & Hp & Hv & _).
  assert (Hl : last_version td = Some 0) by (unfold last_version; by rewrite Hv).
  assert (Elat : latest td = update_all 0 [] toy_updates) by (unfold latest; by rewrite Hv).
  assert (Em : merklize_value_set toy_rl toy_sharded1 toy_updates2 1 (Some 0) None = Ok (toy_batches toy_sharded1 toy_updates2 1 (Some 0))).
  { apply result_of_Ok. vm_compute. reflexivity. }
  rewrite (surjective_pairing (toy_batches _ _ _ _)), (surjective_pairing (fst (toy_batches _ _ _ _))) in Em.
  assert (Hb : Z.of_nat (length (latest td) + length toy_updates2) < U64) by (rewrite Elat; vm_compute; reflexivity).
  assert (Hends : commit_ends [1%nat; 12%nat; 3%nat] (fst (fst (toy_batches toy_sharded1 toy_updates2 1 (Some 0))))
    (snd (fst (toy_batches toy_sharded1 toy_updates2 1 (Some 0)))) toy_sharded1 toy_died false).
  { apply ends_interrupted; [apply (bool_decide_unpack _); vm_compute; exact I|]. eapply process_died. apply surjective_pairing. }
  assert (Hprog : forall p, commit_progress toy_sharded1 = Some p -> 0 <= p < 1 /\ next_version td <= p + 1).
  { intros p E. rewrite Hp in E. injection E as <-. unfold next_version. rewrite Hl. lia. }
  assert (Hn : next_version td <= 1) by (unfold next_version; rewrite Hl; lia).
  rewrite <- Hl in Em, Hends.
  destruct (commit_atomic toy_rl toy_sharded1 td toy_updates2 1 None [1%nat; 12%nat; 3%nat] _ _ _ toy_died false
    (proj1 (proj1 map_truncation_works)) Hr Hst Hprog Hn ltac:(unfold U64; lia) Hb Em Hends) as [Hopen Hret].
  destruct (Hret map_truncation_works toy_order) as (self2 & E). destruct (Hopen toy_order self2 toy_order_all E) as [_ Hre].
  unfold reopened in Hre. rewrite Hsh, Hp in Hre. exists td, self2. exact (conj Hst (conj E (proj1 Hre))).
Defined.

(** Version 1 is not in the ledger. *)
Lemma sync_goes_back_witness : exists td self' td', stores toy_sharded2 td /\ last_version td = Some 1 /\
  sync_state_merkle toy_ledger [toy_order] 0 true toy_sharded2 = (self', Ok tt) /\ stores self' td' /\ truncated td 0 td'.
Proof.
  destruct toy_sharded_stores1 as (td1 & Hr1 & Hst1 & Hsh1 & _ & Hv1 & Hp1).
  assert (Hl1 : last_version td1 = Some 0) by (unfold last_version; by rewrite Hv1).
  assert (Elat : latest td1 = update_all 0 [] toy_updates) by (unfold latest; by rewrite Hv1).
  destruct (toy_next toy_sharded1 td1 toy_updates2 1 Hr1 Hst1 Hsh1) as (td & Hr & Hst & _ & _ & Hv & Hp).
  { unfold u64_ok, U64. lia. }
  { unfold next_version. by rewrite Hl1. }
  { rewrite Elat. vm_compute. reflexivity. }
  assert (Hst2 : stores toy_sharded2 td) by (unfold toy_sharded2; rewrite <- Hl1; exact Hst). rewrite Hv1 in Hv. rewrite Hp1 in Hp.
  assert (Hl : last_version td = Some 1) by (unfold last_version; by rewrite Hv).
  destruct (sync_goes_back toy_ledger [toy_order] true toy_sharded2 td 1 0 0 map_truncation_works Hst2 Hr Hl) as (self' & td' & E & Hst' & Ht).
  - unfold u64_ok, U64. lia.
  - unfold u64_ok, U64. lia.
  - split_and!; [rewrite Hv; left|lia|]. intros u _ Hu. exact Hu.
  - rewrite Hp. constructor.
  - constructor; [exact toy_order_all|constructor].
  - cbn. lia.
  - intros _. unfold MAX_COMMIT_PROGRESS_DIFFERENCE. lia.
  - exists td, self', td'. exact (conj Hst2 (conj Hl (conj E (conj Hst' Ht)))).
Defined.
End CrashWitnesses.
