(* ===== verification/SnapshotCommitter.v ===== *)
(** * Committing snapshots of the state

    Model of the two threads that persist the state,
    [storage/aptosdb/src/state_store/state_snapshot_committer.rs] and
    [state_merkle_batch_committer.rs], and of the check before a read,
    [error_if_state_merkle_pruned] of [db/include/aptosdb_internal.rs].

    A snapshot in memory ([StateWithSummary]) is an abstract type with the operations the
    threads call; [SnapshotTheorems] states what they rely on. *)
From stdpp Require Import base list numbers strings option gmap.
From Stdlib Require Import ZArith Lia Bool.
From S2P Require Import Prelude Hash AccumulatorProof SparseMerkleProof NibblePath ByteCodec JellyfishNode JellyfishTree StateMerkleDb StateMerklePruner StateMerkleCommit LedgerMetadata.

(** [StateUpdate] *)
Record StateUpdate (SV : Type) := mkStateUpdate { su_version : Version; su_value : option SV }.
Arguments mkStateUpdate {SV} _ _.
Arguments su_version {SV} _.
Arguments su_value {SV} _.

(** [StateWithSummary]: the version and the usage, the root hash of its sparse Merkle
    tree, the updates since another snapshot in each shard, and the hashes of the tree
    nodes of a shard that are new since another snapshot. *)
Class StateSnapshot (HV K SV SN : Type) := {
  sn_next_version : SN -> Version;
  sn_usage : SN -> StateStorageUsage;
  sn_root_hash : SN -> HV;
  sn_make_delta : SN -> SN -> outcome (list (list (K * StateUpdate SV)));
  sn_new_node_hashes_since : SN -> SN -> Z -> outcome (gmap NibblePath HV);
}.

(** [CryptoHash::hash] of keys and values. *)
Class StateHash (HV K SV : Type) := { hash_key : K -> HV; hash_value : SV -> HV }.

Section Committer.
Context {HV : Type} `{HashValueOps HV} `{HashValueBits HV} `{CryptoHasher HV} `{LeafHasher HV}
  `{HashValueKeys HV} `{Itertools} {K SV SN : Type} `{StateSnapshot HV K SV SN} `{!StateHash HV K SV}.
Context {DB : Type} `{SchemaDb HV K DB} {ES SG LDB : Type} `{LedgerDb HV ES SG LDB}.
Context (rightmost : Version -> outcome (option (NodeKey * LeafNode HV K))).

(** [State::version] *)
Definition sn_version (self : SN) : option Version :=
  if 0 <? sn_next_version self then Some (sn_next_version self - 1) else None.

(** [StateDb] *)
Record StateDb := mkStateDb {
  ledger_db : LedgerMetadataDb HV ES SG LDB;
  state_merkle_db : StateMerkleDb DB;
  state_merkle_pruner : StateMerklePrunerManager;
  epoch_snapshot_pruner : StateMerklePrunerManager;
}.
Implicit Types (st : StateDb).

Record StateMerkleBatch := mkStateMerkleBatch {
  top_levels_batch : list (BatchOp HV K);
  batches_for_shards : list (list (BatchOp HV K));
  smb_snapshot : SN;
}.

(** ** [StateSnapshotCommitter] *)

(** The updates of a shard, hashed. *)
Definition hash_jmt_updates (updates : list (K * StateUpdate SV)) : list (HV * option (HV * K)) :=
  map (fun kw => (hash_key (fst kw), option_map (fun v => (hash_value v, fst kw)) (su_value (snd kw)))) updates.

(** The closure that [run] maps over the shards. *)
Definition merklize_shard st (last_snapshot snapshot : SN) (version : Version)
    (base_version previous_epoch_ending_version : option Version) (shard_persisted_versions : list (option Version))
    (shard : Z * list (K * StateUpdate SV)) : outcome (Node HV K * list (BatchOp HV K)) :=
  let '(shard_id, updates) := shard in
  node_hashes ← sn_new_node_hashes_since snapshot last_snapshot shard_id;
  shard_persisted_version ← expect (shard_persisted_versions !! Z.to_nat shard_id) "index out of bounds";
  merklize_value_set_for_shard rightmost (state_merkle_db st) shard_id (hash_jmt_updates updates)
    (Some node_hashes) version base_version shard_persisted_version previous_epoch_ending_version.

(** [run] on [CommitMessage::Data(snapshot)]: the batch that is sent on. *)
Definition merklize_snapshot st (last_snapshot snapshot : SN) : outcome StateMerkleBatch :=
  version ← expect (sn_version snapshot) "Cannot be empty";
  let base_version := sn_version last_snapshot in
  previous ← unwrap (get_previous_epoch_ending (ledger_db st) version);
  let previous_epoch_ending_version := option_map fst previous in
  shard_persisted_versions ←
    unwrap (get_shard_persisted_versions (smdb_reader rightmost (state_merkle_db st)) base_version);
  shards ← sn_make_delta snapshot last_snapshot;
  parts ← expect_res (mapM (merklize_shard st last_snapshot snapshot version base_version
              previous_epoch_ending_version shard_persisted_versions)
            (zip (seqZ 0 (Z.of_nat (length shards))) shards))
          "Error calculating StateMerkleBatch for shards.";
  let shard_root_nodes := map fst parts in
  let batches_for_shards := map snd parts in
  r ← expect_res (calculate_top_levels shard_root_nodes version base_version previous_epoch_ending_version)
        "Error calculating StateMerkleBatch for top levels.";
  let '(root_hash, top_levels_batch) := r in
  _ ← assert (bool_decide (root_hash = sn_root_hash snapshot)) "root hash mismatch";
  Ok (mkStateMerkleBatch top_levels_batch batches_for_shards snapshot).

(** ** [StateMerkleBatchCommitter] *)
Definition check_usage_consistency st (state : SN) : outcome unit :=
  version ← ok_or (sn_version state) "Committing without version.";
  usage_from_ledger_db ← get_usage (ledger_db st) version;
  db ← smdb_db (state_merkle_db st) None;
  k ← new_empty_path version;
  node ← db_get_node db k;
  node ← ok_or node "Root node missing";
  let leaf_count_from_jmt := Node_leaf_count node in
  _ ← ensure (StateStorageUsage.items usage_from_ledger_db =? leaf_count_from_jmt) "State item count inconsistent";
  let usage_from_in_mem_state := sn_usage state in
  if negb (StateStorageUsage.is_untracked usage_from_in_mem_state)
  then ensure (bool_decide (usage_from_in_mem_state = usage_from_ledger_db)) "State storage usage info inconsistent."
  else Ok tt.

(** What the two threads share and keep: the databases, the last snapshot that was
    merklized and the one that was persisted. *)
Record Committer := mkCommitter {
  state_db : StateDb;
  last_snapshot : SN;
  persisted_state : SN;
}.

Definition set_state_db st (c : Committer) : Committer := mkCommitter st (last_snapshot c) (persisted_state c).

(** [state_merkle_db.commit(..).expect(..)] *)
Definition commit_nodes (order : list nat) (b : StateMerkleBatch) : prog Committer unit := fun c =>
  let '(db, r) := pexpect (smdb_commit order (top_levels_batch b) (batches_for_shards b))
                    "State merkle nodes commit failed." (state_merkle_db (state_db c)) in
  (set_state_db (mkStateDb (ledger_db (state_db c)) db (state_merkle_pruner (state_db c))
                   (epoch_snapshot_pruner (state_db c))) c, r).

(** [maybe_set_pruner_target_db_version] of both pruners. *)
Definition set_pruner_targets (current_version : Version) : prog Committer unit := fun c =>
  let st := state_db c in
  match maybe_set_pruner_target_db_version current_version (state_merkle_pruner st) with
  | Ok m =>
      let st := mkStateDb (ledger_db st) (state_merkle_db st) m (epoch_snapshot_pruner st) in
      match maybe_set_pruner_target_db_version current_version (epoch_snapshot_pruner st) with
      | Ok m => (set_state_db (mkStateDb (ledger_db st) (state_merkle_db st) (state_merkle_pruner st) m) c, Ok tt)
      | Err e => (set_state_db st c, Err e)
      | Panic e => (set_state_db st c, Panic e)
      end
  | Err e => (c, Err e)
  | Panic e => (c, Panic e)
  end.

(** [run] on [CommitMessage::Data(state_merkle_batch)]. *)
Definition commit_batch (order : list nat) (b : StateMerkleBatch) : prog Committer unit :=
  current_version <~ reading (fun _ => expect (sn_version (smb_snapshot b)) "Current version should not be None");
  _ <~ commit_nodes order b;
  _ <~ set_pruner_targets current_version;
  _ <~ reading (fun c => unwrap (check_usage_consistency (state_db c) (smb_snapshot b)));
  fun c => (mkCommitter (state_db c) (last_snapshot c) (smb_snapshot b), Ok tt).

(** A snapshot on its way through both threads. *)
Definition commit_snapshot (order : list nat) (snapshot : SN) : prog Committer unit :=
  b <~ reading (fun c => merklize_snapshot (state_db c) (last_snapshot c) snapshot);
  _ <~ (fun c => (mkCommitter (state_db c) snapshot (persisted_state c), Ok tt));
  commit_batch order b.

(** [CommitMessage] *)
Inductive CommitMessage := Data (snapshot : SN) | Sync | Exit.

(** The messages in the order of the channel, each with the order in which the threads
    of its commit write the shards; the number of [Sync] messages that were answered. *)
Fixpoint committer_run (msgs : list (CommitMessage * list nat)) : prog Committer nat :=
  match msgs with
  | [] => pret 0%nat
  | (Data snapshot, order) :: msgs => _ <~ commit_snapshot order snapshot; committer_run msgs
  | (Sync, _) :: msgs => n <~ committer_run msgs; pret (S n)
  | (Exit, _) :: _ => pret 0%nat
  end.

(** ** Reads *)

(** [error_if_state_merkle_pruned] *)
Definition error_if_state_merkle_pruned st (version : Version) : outcome unit :=
  let min_readable := min_readable_version (state_merkle_pruner st) in
  if min_readable <=? version then Ok tt
  else
    let min_readable_epoch_snapshot_version := min_readable_version (epoch_snapshot_pruner st) in
    if min_readable_epoch_snapshot_version <=? version then ensure_epoch_ending (ledger_db st) version
    else Err "pruned".
End Committer.
Arguments StateDb HV DB ES SG LDB : clear implicits.
Arguments StateMerkleBatch HV K SN : clear implicits.
Arguments Committer HV SN DB ES SG LDB : clear implicits.
Arguments CommitMessage SN : clear implicits.
