(* ===== verification/SnapshotFacts.v ===== *)
(** * Committing snapshots: facts

    What a snapshot promises to the threads that commit it, what they make of it, and
    what they leave of the indices and of the pruners. *)
From stdpp Require Import base list numbers strings option gmap sorting.
From Stdlib Require Import ZArith Lia Bool Sorted.
From S2P Require Import Prelude Hash AccumulatorProof SparseMerkleProof SparseSpec SparseFacts NibblePath NibblePathFacts ByteCodec JellyfishNode JellyfishNodeFacts JellyfishHash JellyfishSpec JellyfishTree JellyfishRead JellyfishRuns JellyfishBatch JellyfishUpdate JellyfishInsert JellyfishCommit JellyfishHistory StateMerkleDb StateMerklePruner StateMerklePrunerFacts StateMerklePrunerProgress StateMerklePrunerTheorems StateMerkleCommit StateMerkleCommitFacts StateMerkleCommitTheorems LedgerMetadata LedgerMetadataFacts SnapshotCommitter.

Section SnapshotFacts.
Context {HV : Type} `{HashValueOps HV} `{HashValueBits HV} `{!HashValueLaws HV} `{CryptoHasher HV}
  `{LeafHasher HV} `{HashValueKeys HV} `{!HashValueKeysLaws HV} `{Itertools} `{!ItertoolsLaws} {K : Type}.
Context {DB : Type} `{SchemaDb HV K DB} `{HB : ByteOrder} `{!ByteOrderLaws} `{!SchemaDbLaws HV K DB}.
Implicit Types (sch : StaleSchema) (self : StateMerkleDb DB) (e : StaleNodeIndex) (td : tree_db (HV := HV) (K := K))
  (kvs : list (HV * option (HV * K))) (prev : option Version) (order : list nat) (pt : part (HV := HV) (K := K))
  (pts : list (part (HV := HV) (K := K))).

(** ** The indices after a commit *)

(** An entry of [self'] was there before or is one of [sb], in the index it goes to. *)
Definition grown prev (sb : list StaleNodeIndex) self self' : Prop :=
  forall sch e, entry sch self' e -> entry sch self e \/ (e ∈ sb /\ stale_schema prev e = sch).

Lemma grown_refl prev sb self : grown prev sb self self.
Proof. intros sch e He. by left. Qed.

Lemma grown_trans prev sb sb1 sb2 self self1 self2 : sb1 ⊆ sb -> sb2 ⊆ sb -> grown prev sb1 self self1 -> grown prev sb2 self1 self2 ->
  grown prev sb self self2.
Proof.
  intros Hs1 Hs2 Hg1 Hg2 sch e He. apply Hg2 in He as [He|[He Es]]; [|right; split; [by apply Hs2|done]].
  apply Hg1 in He as [He|[He Es]]; [by left|right; split; [by apply Hs1|done]].
Qed.

Lemma grown_write version prev sid nb sb self self' r : NoDup (map fst nb) ->
  on_db sid (write_schemas (batch_of version prev sid nb sb)) self = (self', r) -> grown prev sb self self'.
Proof.
  intros Hnd E. apply on_db_inv in E as [->|(db & db' & Hdb & E & ->)]; [apply grown_refl|].
  intros sch e (j & db1 & Hj & He). destruct (set_db_lookup _ _ _ _ _ _ Hdb Hj) as [[-> ->]|[_ Hj']]; [|left; by exists j, db1].
  apply write_schemas_spec in E. destruct r as [[]| |]; [|left; exists (slot self sid), db; by rewrite <- E..].
  destruct E as (_ & Vs & _). apply Vs, (apply_batch version prev sid nb sb (view db) Hnd) in He as [He|He]; [left|by right].
  by exists (slot self sid), db.
Qed.

Lemma commit_jobs_grown version prev pts : forall self self' r, (forall pt, pt ∈ pts -> NoDup (map fst (nodes_of (pt_batch pt)))) ->
  commit_jobs (map (part_job version prev) pts) self = (self', r) -> grown prev (part_stale pts) self self'.
Proof.
  induction pts as [|pt pts IH]; intros self self' r Hnd E; cbn [map commit_jobs] in E; [injection E as <- _; apply grown_refl|].
  unfold part_job at 1 in E. destruct (on_db (Some (pt_shard pt)) (write_schemas (part_ops version prev pt)) self) as [self1 r1] eqn:E1.
  rewrite (pbind_Ok _ _ self self1 (is_ok r1)) in E by (by rewrite E1).
  apply (grown_write version) in E1; [|by apply Hnd; left].
  assert (Hg : forall self2 r2, commit_jobs (map (part_job version prev) pts) self1 = (self2, r2) ->
    grown prev (part_stale (pt :: pts)) self self2).
  { intros self2 r2 E2. eapply grown_trans; [| |exact E1|eapply IH; [|exact E2]].
    - intros e He. unfold part_stale. cbn [map concat]. apply elem_of_app. by left.
    - intros e He. unfold part_stale. cbn [map concat]. apply elem_of_app. by right.
    - intros pt' Hpt'. apply Hnd. by right. }
  apply pbind_inv in E as [(self2 & ok & E2 & E)|[(err & E2 & ->)|(err & E2 & ->)]]; [injection E as <- _|..]; by eapply Hg.
Qed.

Lemma commit_grown rl self td kvs version pvs caches prev b pts n order self' r :
  next_batches rl self td kvs version pvs caches prev b pts n ->
  smdb_commit order (top_ops td version prev n) (map (part_ops version prev) pts) self = (self', r) ->
  grown prev (stale_of b) self self'.
Proof.
  intros Hnb E. pose proof (nb_shards Hnb) as Hseq. unfold smdb_commit in E.
  assert (Hch : forall pt, pt ∈ chosen order pts -> pt ∈ pts) by (intros pt Hpt; by apply (chosen_elem pts Hseq) in Hpt as [? _]).
  assert (Hsub : part_stale (chosen order pts) ⊆ stale_of b).
  { intros e He. rewrite (nb_stale Hnb). apply elem_of_app. left. by eapply part_stale_elem. }
  apply pbind_inv in E as [(self1 & [] & E1 & E)|[(err & E1 & ->)|(err & E1 & ->)]];
    injection E1 as <- E1; [|apply grown_refl..].
  rewrite (enumerated_parts version prev pts Hseq) in E.
  assert (Hj : forall self2 r2, commit_jobs (map (part_job version prev) (chosen order pts)) self = (self2, r2) ->
    grown prev (stale_of b) self self2).
  { intros self2 r2 E2. eapply grown_trans; [exact Hsub|reflexivity|eapply commit_jobs_grown; [|exact E2]|apply grown_refl].
    intros pt Hpt. apply Hch, (nb_fits Hnb) in Hpt as (_ & ? & _). done. }
  apply pbind_inv in E as [(self2 & ok & E2 & E)|[(err & E2 & ->)|(err & E2 & ->)]]; [|by eapply Hj..]. apply Hj in E2.
  apply pbind_inv in E as [(self3 & [] & E3 & E)|[(err & E3 & ->)|(err & E3 & ->)]]; injection E3 as <- _; [|done..].
  unfold commit_top_levels, top_ops in E. apply grown_write in E; [|apply NoDup_singleton].
  eapply grown_trans; [reflexivity| |exact E2|exact E]. intros e He. rewrite (nb_stale Hnb). apply elem_of_app. by right.
Qed.

(** ** An entry that is passed over, in a commit *)
Lemma batch_adds_only e st version prev sid nb sb : part_ok st sid nb sb -> (forall f, f ∈ sb -> stale_node_key f <> stale_node_key e) ->
  Forall (adds_only (HV := HV) (K := K) e) (batch_of version prev sid nb sb).
Proof.
  intros [_ Hs] Hne. unfold batch_of. rewrite !Forall_app. split_and!; [by apply Forall_fmap, Forall_true| |].
  - apply Forall_fmap, Forall_forall. intros f Hf. split; [by apply Hs|by apply Hne].
  - destruct sid; constructor; try constructor; by intros [|] [|].
Qed.

Lemma commit_jobs_kept sch i e sh md version prev pts : (forall pt, pt ∈ pts -> Forall (adds_only (HV := HV) (K := K) e) (part_ops version prev pt)) ->
  forall self self' r, kept_entry sch i e sh md self -> commit_jobs (map (part_job version prev) pts) self = (self', r) -> kept_entry sch i e sh md self'.
Proof.
  induction pts as [|pt pts IH]; intros Had self self' r Hk E; cbn [map commit_jobs] in E; [by injection E as <- _|].
  unfold part_job at 1 in E. destruct (on_db (Some (pt_shard pt)) (write_schemas (part_ops version prev pt)) self) as [self1 r1] eqn:E1.
  rewrite (pbind_Ok _ _ self self1 (is_ok r1)) in E by (by rewrite E1).
  assert (Hk1 : kept_entry sch i e sh md self1).
  { eapply kept_on_db; [|exact Hk|exact E1]. apply mildly_write. intros db. apply adds_only_mild, Had. left. }
  assert (Had' : forall pt', pt' ∈ pts -> Forall (adds_only (HV := HV) (K := K) e) (part_ops version prev pt')) by (intros pt' Hpt'; apply Had; by right).
  apply pbind_inv in E as [(self2 & ok & E2 & E)|[(err & E2 & ->)|(err & E2 & ->)]]; [injection E as <- _|..]; by eapply (IH Had').
Qed.

(** The new entries are of other nodes. *)
Lemma commit_kept sch i e sh md rl self td kvs version pvs caches prev b pts n order self' r : db_reachable (put_db td version kvs b) -> e ∈ td_stale td ->
  next_batches rl self td kvs version pvs caches prev b pts n -> kept_entry sch i e sh md self ->
  smdb_commit order (top_ops td version prev n) (map (part_ops version prev) pts) self = (self', r) -> kept_entry sch i e sh md self'.
Proof.
  intros Hr He Hnb Hk E. pose proof (nb_shards Hnb) as Hseq. unfold smdb_commit in E.
  assert (Hne : forall f, f ∈ stale_of b -> f ∉ td_stale td -> stale_node_key f <> stale_node_key e).
  { intros f Hf Hno Ek. assert (f = e) as ->; [|done]. eapply reachable_unique; [exact Hr| | |exact Ek]; cbn [put_db td_stale]; apply elem_of_app; [by right|by left]. }
  assert (Hch : forall pt, pt ∈ chosen order pts -> Forall (adds_only (HV := HV) (K := K) e) (part_ops version prev pt)).
  { intros pt Hpt. apply (chosen_elem pts Hseq) in Hpt as [Hpt _]. pose proof (nb_fits Hnb _ Hpt) as (_ & _ & Hok). eapply batch_adds_only; [exact Hok|].
    intros f Hf. apply Hne; [|by apply Hok]. rewrite (nb_stale Hnb). apply elem_of_app. left. apply (part_stale_elem [pt]); [by intros pt' ->%list_elem_of_singleton|].
    unfold part_stale. cbn [map concat]. by rewrite app_nil_r. }
  apply pbind_inv in E as [(self1 & [] & E1 & E)|[(err & E1 & ->)|(err & E1 & ->)]]; injection E1 as <- E1; [|done..].
  rewrite (enumerated_parts version prev pts Hseq) in E.
  apply pbind_inv in E as [(self2 & ok & E2 & E)|[(err & E2 & ->)|(err & E2 & ->)]]; apply (commit_jobs_kept sch i e sh md) in E2; try done.
  apply pbind_inv in E as [(self3 & [] & E3 & E)|[(err & E3 & ->)|(err & E3 & ->)]]; injection E3 as <- _; [|done..].
  eapply kept_on_db; [|exact E2|exact E]. apply mildly_write. intros db. apply adds_only_mild. eapply batch_adds_only; [apply (nb_top Hnb)|].
  intros f Hf. apply Hne; [|by apply (nb_top Hnb)]. rewrite (nb_stale Hnb). apply elem_of_app. by right.
Qed.

(** ** What a run of a pruner keeps of the pruner *)

(** The target stays, the progress is a version, and the result is one of [Q]. *)
Definition steady {A} (P : prog (StateMerkleDb DB * StateMerklePruner) A) (Q : A -> Prop) : Prop := forall w w' r,
  0 <= smp_progress (snd w) -> P w = (w', r) ->
  smp_target_version (snd w') = smp_target_version (snd w) /\ 0 <= smp_progress (snd w') /\ forall a, r = Ok a -> Q a.

Lemma steady_bind {A B} (P : prog _ A) (f : A -> prog _ B) (Q : A -> Prop) (R : B -> Prop) :
  steady P Q -> (forall a, Q a -> steady (f a) R) -> steady (pbind P f) R.
Proof.
  intros HP Hf w w' r Hw E. apply pbind_inv in E as [(w1 & a & E1 & E)|[(err & E1 & ->)|(err & E1 & ->)]];
    destruct (HP _ _ _ Hw E1) as (Ht & Hp & Hq); [|done..].
  destruct (Hf a (Hq a eq_refl) _ _ _ Hp E) as (Ht' & ? & ?). by rewrite Ht', Ht.
Qed.

Lemma steady_ret {A} (a : A) (Q : A -> Prop) : Q a -> steady (pret a) Q.
Proof. intros Ha w w' r Hw E. injection E as <- <-. split_and!; [done|done|]. by intros a' [= <-]. Qed.

Lemma steady_reading {A} (f : _ -> outcome A) (Q : A -> Prop) : (forall w a, 0 <= smp_progress (snd w) -> f w = Ok a -> Q a) -> steady (reading f) Q.
Proof. intros Hf w w' r Hw E. injection E as <- <-. split_and!; [done|done|]. intros a Ea. by eapply Hf. Qed.

Lemma steady_with_db {A} (P : prog (StateMerkleDb DB) A) : steady (with_db P) (fun _ => True).
Proof. intros w w' r Hw E. apply with_db_inv in E as (self & _ & ->). done. Qed.

Lemma steady_with_pruner (f : StateMerklePruner -> StateMerklePruner) :
  (forall p, 0 <= smp_progress p -> smp_target_version (f p) = smp_target_version p /\ 0 <= smp_progress (f p)) ->
  steady (with_pruner f) (fun _ => True).
Proof. intros Hf w w' r Hw E. injection E as <- <-. cbn [snd]. destruct (Hf (snd w) Hw). done. Qed.

Lemma maybe_prune_steady sch cur target : steady (maybe_prune_single_version sch cur target)
  (fun o => forall v, o = Some v -> cur <= v).
Proof.
  unfold maybe_prune_single_version. eapply steady_bind; [by apply (steady_reading _ (fun _ => True))|]. intros next _.
  destruct (target <? Z.max next cur); [by apply steady_ret|].
  eapply steady_bind; [apply steady_with_db|]. intros [indices nv] _.
  eapply steady_bind; [apply steady_with_db|]. intros [] _.
  eapply steady_bind; [by apply steady_with_pruner|]. intros [] _. apply steady_ret. intros v [= <-]. lia.
Qed.

Lemma prune_loop_steady sch target : forall fuel cur, 0 <= cur -> steady (smp_prune_loop sch fuel cur target) (fun _ => True).
Proof.
  induction fuel as [|fuel IH]; intros cur Hc; cbn [smp_prune_loop]; (destruct (cur <? target) eqn:Ec; [apply Z.ltb_lt in Ec|by apply steady_ret]);
    (eapply steady_bind; [apply maybe_prune_steady|]; intros [v|] Hv; [specialize (Hv v eq_refl)|apply steady_with_pruner; intros p _; cbn; lia]);
    (eapply steady_bind; [by apply (steady_reading _ (fun _ => True))|]; intros shards _);
    (eapply steady_bind; [apply steady_with_db|]; intros [] _);
    (eapply steady_bind; [apply steady_with_pruner; intros p _; cbn; lia|]; intros [] _).
  - intros w w' r Hw E. by injection E as <- <-.
  - apply IH. lia.
Qed.

Lemma smp_prune_steady sch : steady (smp_prune sch) (fun _ => True).
Proof.
  unfold smp_prune. eapply steady_bind; [by apply (steady_reading _ (fun v => 0 <= v)); intros w a Hw [= <-]|]. intros cur Hc.
  eapply steady_bind; [by apply (steady_reading _ (fun _ => True))|]. intros target _.
  destruct (target <=? cur); [by apply steady_ret|].
  eapply steady_bind; [by apply prune_loop_steady|]. intros [] _. by apply steady_ret.
Qed.

(** ** The managers *)

(** The pruner of a manager has not been told to go past the first readable version,
    which is not past the window of the last version. *)
Record manager_ok (m : StateMerklePrunerManager) (last : Version) : Prop := {
  mo_window : u64_ok (prune_window m);
  mo_min : 0 <= min_readable_version m <= Z.max 0 (last - prune_window m);
  mo_worker : forall p, pruner_worker m = Some p ->
    0 <= smp_target_version p <= min_readable_version m /\ 0 <= smp_progress p;
}.

Lemma manager_ok_mono m last last' : last <= last' -> manager_ok m last -> manager_ok m last'.
Proof. intros Hl [Hw Hm Hp]. split; [done|lia|done]. Qed.

(** After a commit at [last']. *)
Lemma manager_set m m' last last' : manager_ok m last -> 0 <= last <= last' -> maybe_set_pruner_target_db_version last' m = Ok m' ->
  manager_ok m' last' /\ prune_window m' = prune_window m /\ is_pruner_enabled m' = is_pruner_enabled m /\
  min_readable_version m <= min_readable_version m' /\ (is_pruner_enabled m = true -> last' - prune_window m <= min_readable_version m').
Proof.
  intros [[Hw Hwu] Hm Hp] Hl E. unfold maybe_set_pruner_target_db_version in E. unfold is_pruner_enabled.
  destruct (pruner_worker m) as [p|] eqn:Ep.
  2:{ injection E as <-. rewrite Ep. split_and!; [split; [done|lia|by rewrite Ep]|done|done|lia|done]. }
  specialize (Hp p eq_refl). apply bind_Ok in E as (bound & Eb & E). unfold add64 in Eb. destruct (_ <? U64); [|done]. injection Eb as <-.
  destruct (Z.leb_spec (min_readable_version m + prune_window m) last').
  - unfold set_pruner_target_db_version in E. rewrite Ep in E. cbn [expect] in E. rewrite obind_Ok in E. injection E as <-.
    cbn [pruner_worker min_readable_version prune_window]. split_and!; [|done|done|lia|lia].
    split; cbn [pruner_worker min_readable_version prune_window]; [done|lia|]. intros p' [= <-].
    unfold set_target_db_version. destruct (Z.ltb_spec (smp_target_version p) (Z.max 0 (last' - prune_window m)));
      cbn [set_target_version smp_target_version smp_progress]; lia.
  - injection E as <-. rewrite Ep. split_and!; [split; [done|lia|]|done|done|lia|intros _; lia].
    intros p' Ep'. by assert (p' = p) as -> by congruence.
Qed.

(** It does not overflow. *)
Lemma manager_set_works m last last' : manager_ok m last -> u64_ok last -> exists m', maybe_set_pruner_target_db_version last' m = Ok m'.
Proof.
  intros [[Hw Hwu] Hm _] Hl. unfold maybe_set_pruner_target_db_version. destruct (pruner_worker m) as [p|] eqn:Ep; [|by eexists].
  unfold u64_ok in Hl. rewrite add64_Ok, obind_Ok by lia. destruct (_ <=? last'); [|by eexists].
  unfold set_pruner_target_db_version. rewrite Ep. cbn [expect]. rewrite obind_Ok. by eexists.
Qed.

(** After a run of the pruner. *)
Definition with_worker (m : StateMerklePrunerManager) (p : StateMerklePruner) : StateMerklePrunerManager :=
  mkStateMerklePrunerManager (prune_window m) (Some p) (min_readable_version m).

Lemma manager_pruned sch m last p self w' r : manager_ok m last -> pruner_worker m = Some p ->
  smp_prune sch (self, p) = (w', r) -> manager_ok (with_worker m (snd w')) last.
Proof.
  intros [Hw Hm Hp] Ep E. destruct (Hp p Ep) as [Ht Hpr].
  destruct (smp_prune_steady sch (self, p) w' r Hpr E) as (Ht' & Hp' & _). split; cbn [with_worker prune_window min_readable_version pruner_worker];
    [done|done|]. intros p' [= <-]. cbn [snd] in Ht'. split; [lia|done].
Qed.
End SnapshotFacts.

Section Merklize.
Context {HV : Type} `{HashValueOps HV} `{HashValueBits HV} `{!HashValueLaws HV} `{CryptoHasher HV}
  `{LeafHasher HV} `{HashValueKeys HV} `{!HashValueKeysLaws HV} `{Itertools} `{!ItertoolsLaws} {K SV SN : Type}
  `{StateSnapshot HV K SV SN} `{!StateHash HV K SV}.
Context {DB : Type} `{SchemaDb HV K DB} `{HB : ByteOrder} `{!ByteOrderLaws} `{!SchemaDbLaws HV K DB}
  {ES SG LDB : Type} `{LedgerDb HV ES SG LDB} `{!LedgerDbLaws HV ES SG LDB}.
Implicit Types (td : tree_db (HV := HV) (K := K)) (kvs : list (HV * option (HV * K))) (prev : option Version)
  (order : list nat) (pts : list (part (HV := HV) (K := K))) (last snapshot : SN) (st : StateDb HV DB ES SG LDB).

(** ** What a snapshot promises

    The updates since the last snapshot are in the shard of their key, and the hashes of
    the new tree nodes are those of the tree with the updates. *)
Definition snapshot_delta (version : Version) (lvs : list (LeafNode HV K)) last snapshot kvs : Prop :=
  exists shards hashes, sn_make_delta snapshot last = Ok shards /\ length shards = 16%nat /\
    (forall i ups kw, shards !! i = Some ups -> kw ∈ ups -> nib (hash_key (fst kw)) 0 = Z.of_nat i) /\
    (forall i, nibble_ok i -> sn_new_node_hashes_since snapshot last i = Ok (hashes i)) /\
    kvs = concat (map hash_jmt_updates shards) /\ caches_ok version lvs kvs (fun i => Some (hashes i)).

(** The updates of a shard are those of its keys. *)
Lemma delta_shard (shards : list (list (K * StateUpdate SV))) :
  forall d, (forall i ups kw, shards !! i = Some ups -> kw ∈ ups -> nib (hash_key (fst kw)) 0 = d + Z.of_nat i) ->
  forall i ups, shards !! i = Some ups ->
  filter (fun kv => nib (fst kv) 0 = d + Z.of_nat i) (concat (map hash_jmt_updates shards)) = hash_jmt_updates ups.
Proof.
  assert (Hother : forall (l : list (K * StateUpdate SV)) j, (forall kw, kw ∈ l -> nib (hash_key (fst kw)) 0 <> j) ->
    filter (fun kv => nib (fst kv) 0 = j) (hash_jmt_updates l) = []).
  { intros l j Hl. apply filter_none, Forall_forall. intros kv Hkv. apply list_elem_of_fmap in Hkv as (kw & -> & Hkw). by apply Hl. }
  assert (Hrest : forall (l : list (list (K * StateUpdate SV))) d j, (forall i ups kw, l !! i = Some ups -> kw ∈ ups -> nib (hash_key (fst kw)) 0 = d + Z.of_nat i) ->
    j < d -> filter (fun kv => nib (fst kv) 0 = j) (concat (map hash_jmt_updates l)) = []).
  { induction l as [|x l IH]; intros d j Hl Hj; [done|]. cbn [map concat]. rewrite filter_app, Hother, (IH (d + 1)); [done| |lia|].
    - intros i ups kw Hi Hkw. rewrite (Hl (S i) ups kw Hi Hkw). lia.
    - intros kw Hkw. rewrite (Hl 0%nat x kw eq_refl Hkw). lia. }
  induction shards as [|x shards IH]; intros d Hd i ups Hi; [done|]. cbn [map concat]. rewrite filter_app.
  assert (Hd' : forall j ups kw, shards !! j = Some ups -> kw ∈ ups -> nib (hash_key (fst kw)) 0 = d + 1 + Z.of_nat j).
  { intros j ups' kw Hj Hkw. rewrite (Hd (S j) ups' kw Hj Hkw). lia. }
  destruct i as [|i]; cbn in Hi.
  - injection Hi as ->. rewrite (Hrest shards (d + 1)); [|done|lia]. rewrite app_nil_r. apply filter_all, Forall_forall.
    intros kv Hkv. apply list_elem_of_fmap in Hkv as (kw & -> & Hkw). cbn [fst]. by apply (Hd 0%nat ups kw).
  - rewrite Hother; [|intros kw Hkw; rewrite (Hd 0%nat x kw eq_refl Hkw); lia]. cbn [app].
    replace (d + Z.of_nat (S i)) with (d + 1 + Z.of_nat i) by lia. by apply IH.
Qed.

Lemma mapM_parts {A} (f : Z * A -> outcome (Node HV K * list (BatchOp HV K))) version prev : forall pts (l : list A),
  length l = length pts ->
  (forall i pt x, pts !! i = Some pt -> l !! i = Some x -> f (pt_shard pt, x) = Ok (pt_node pt, part_ops version prev pt)) ->
  mapM f (zip (map pt_shard pts) l) = Ok (map (fun pt => (pt_node pt, part_ops version prev pt)) pts).
Proof.
  induction pts as [|pt pts IH]; intros [|x l] Hl Hf; try done. cbn [map zip mapM]. cbn in Hl.
  change (zip_with pair (map pt_shard pts) l) with (zip (map pt_shard pts) l).
  rewrite (Hf 0%nat pt x eq_refl eq_refl), obind_Ok, IH, obind_Ok; [done|lia|]. intros i pt' x' Hi Hx. by apply (Hf (S i)).
Qed.

Lemma persisted_versions_length (reader : TreeReader HV K) base l : get_shard_persisted_versions reader base = Ok l -> length l = 16%nat.
Proof.
  intros E. destruct base as [v|]; cbn [get_shard_persisted_versions] in E.
  - apply bind_Ok in E as (k & _ & E). apply bind_Ok in E as (n & _ & E). destruct n as [n| |]; [|done..].
    assert (Hm : forall {A B} (f : A -> outcome B) xs ys, mapM f xs = Ok ys -> length ys = length xs).
    { intros A B f xs. induction xs as [|x xs IH]; intros ys Ex; cbn [mapM] in Ex; [by injection Ex as <-|].
      apply bind_Ok in Ex as (y & _ & Ex). apply bind_Ok in Ex as (ys' & Ey & [= <-]). cbn [length]. by rewrite (IH ys'). }
    by apply Hm in E.
  - by injection E as <-.
Qed.

(** [merklize_snapshot] makes the batches of the next version, and compares the root. *)
Lemma merklize_snapshot_made rl td st last snapshot kvs version previous l :
  (forall (db : DB) k, is_ok (db_get_node db k) = true) -> db_reachable td -> stores (state_merkle_db st) td ->
  u64_ok version -> next_version td <= version -> Z.of_nat (length (latest td) + length kvs) < U64 ->
  sn_version snapshot = Some version -> sn_version last = last_version td -> snapshot_delta version (latest td) last snapshot kvs ->
  get_previous_epoch_ending (ledger_db st) version = Ok previous ->
  get_shard_persisted_versions (smdb_reader rl (state_merkle_db st)) (last_version td) = Ok l ->
  let prev := option_map fst previous in
  let root := smt_root (sl (update_all version (latest td) kvs)) in
  exists pvs caches b pts n, next_batches rl (state_merkle_db st) td kvs version pvs caches prev b pts n /\
    db_step td (put_db td version kvs b) /\
    merklize_snapshot rl st last snapshot =
      if decide (root = sn_root_hash snapshot)
      then Ok (mkStateMerkleBatch (top_ops td version prev n) (map (part_ops version prev) pts) snapshot)
      else Panic "root hash mismatch".
Proof.
  intros Hget Hr Hh Hu Hv Hb Esn Elast (shards & hashes & Ed & Hlen & Hshard & Hhash & -> & Hca) Eprev El prev root.
  pose proof (persisted_versions_length _ _ _ El) as Hl16. set (pvs := fun i : Z => default None (l !! Z.to_nat i)).
  assert (Hpvs : forall i, nibble_ok i -> l !! Z.to_nat i = Some (pvs i)).
  { intros i Hi. unfold pvs, nibble_ok in *. destruct (lookup_lt_is_Some_2 l (Z.to_nat i)) as [o Ho]; [lia|]. by rewrite Ho. }
  assert (Hbased : shards_based (smdb_reader rl (state_merkle_db st)) (last_version td) pvs) by (right; by exists l).
  destruct (next_batches_exist rl _ td _ version pvs _ prev Hget Hr Hh Hu Hv Hb Hbased Hca) as (b & pts & n & Hnb).
  exists pvs, (fun i => Some (hashes i)), b, pts, n. split_and!; [done|by eapply next_step|].
  unfold merklize_snapshot. rewrite Esn. cbn [expect]. rewrite obind_Ok, Eprev. cbn [unwrap]. rewrite obind_Ok, Elast, El.
  cbn [unwrap]. rewrite obind_Ok, Ed, obind_Ok. cbv zeta. fold prev. rewrite Hlen. change (Z.of_nat 16) with 16. rewrite <- (nb_shards Hnb).
  rewrite (mapM_parts _ version prev).
  - set (parts := map (fun pt => (pt_node pt, part_ops version prev pt)) pts).
    assert (E1 : map fst parts = map pt_node pts) by (unfold parts; by rewrite map_map).
    assert (E2 : map snd parts = map (part_ops version prev) pts) by (unfold parts; by rewrite map_map).
    cbn [expect_res]. rewrite obind_Ok, E1, E2, (nb_tops Hnb). cbn [expect_res]. rewrite obind_Ok. fold root.
    destruct (decide (root = sn_root_hash snapshot)) as [E|E]; [by rewrite bool_decide_true|by rewrite bool_decide_false].
  - rewrite Hlen. pose proof (f_equal length (nb_shards Hnb)) as E. rewrite length_map in E. by rewrite E.
  - intros i pt ups Hi Hups. pose proof (part_index pts (nb_shards Hnb) i pt Hi) as Ei.
    assert (Hni : nibble_ok (pt_shard pt)) by (apply lookup_lt_Some in Hups; unfold nibble_ok; lia).
    unfold merklize_shard. rewrite (Hhash _ Hni), obind_Ok, (Hpvs _ Hni). cbn [expect]. rewrite obind_Ok.
    apply list_elem_of_lookup_2, (nb_made Hnb) in Hi. unfold part_made in Hi. rewrite <- Hi. f_equal.
    rewrite Ei. symmetry. by apply (delta_shard shards 0).
Qed.
End Merklize.
