(* ===== verification/SnapshotTheorems.v ===== *)
(** * Committing snapshots: theorems

    The state database over time, as the node uses it: snapshots are committed by the two
    threads, epochs end, and the pruners of both indices run under their managers.  What
    the check before a read lets through can be read. *)
From stdpp Require Import base list numbers strings option gmap sorting.
From Stdlib Require Import ZArith Lia Bool Sorted.
From S2P Require Import Prelude Hash ToyHash AccumulatorProof SparseMerkleProof SparseSpec SparseFacts SparseTheorems NibblePath NibblePathFacts ByteCodec JellyfishNode JellyfishNodeFacts JellyfishHash JellyfishSpec JellyfishTree JellyfishRead JellyfishRuns JellyfishBatch JellyfishUpdate JellyfishInsert JellyfishCommit JellyfishHistory JellyfishTheorems StateMerkleDb StateMerklePruner StateMerklePrunerFacts StateMerklePrunerProgress StateMerklePrunerTheorems StateMerkleCommit StateMerkleCommitFacts StateMerkleCommitTheorems StateMerkleSnapshot LedgerMetadata LedgerMetadataFacts LedgerMetadataTheorems SnapshotCommitter SnapshotFacts.

Section NodeRuns.
Context {HV : Type} `{HashValueOps HV} `{HashValueBits HV} `{!HashValueLaws HV} `{CryptoHasher HV}
  `{LeafHasher HV} `{HashValueKeys HV} `{!HashValueKeysLaws HV} `{Itertools} `{!ItertoolsLaws} {K SV SN : Type}
  `{StateSnapshot HV K SV SN} `{!StateHash HV K SV}.
Context {DB : Type} `{SchemaDb HV K DB} `{HB : ByteOrder} `{!ByteOrderLaws} `{!SchemaDbLaws HV K DB}
  {ES SG LDB : Type} `{LedgerDb HV ES SG LDB} `{!LedgerDbLaws HV ES SG LDB}.
Context (rl : Version -> outcome (option (NodeKey * LeafNode HV K))).
Implicit Types (td : tree_db (HV := HV) (K := K)) (kvs : list (HV * option (HV * K))) (order : list nat) (snapshot : SN)
  (st : StateDb HV DB ES SG LDB) (c : Committer HV SN DB ES SG LDB) (vs : list (Version * list (LeafNode HV K))) (e : StaleNodeIndex).

(** ** Runs *)

(** A manager at its first start. *)
Definition fresh_manager (m : StateMerklePrunerManager) : Prop :=
  u64_ok (prune_window m) /\ min_readable_version m = 0 /\
  forall p, pruner_worker m = Some p -> smp_target_version p = 0 /\ smp_progress p = 0.

(** Epoch snapshots are kept at least as long as the other ones. *)
Definition windows_ordered st : Prop := is_pruner_enabled (epoch_snapshot_pruner st) = true ->
  is_pruner_enabled (state_merkle_pruner st) = true /\
  prune_window (state_merkle_pruner st) <= prune_window (epoch_snapshot_pruner st).

Definition with_ledger c (ledger : LedgerMetadataDb HV ES SG LDB) : Committer HV SN DB ES SG LDB :=
  set_state_db (mkStateDb ledger (state_merkle_db (state_db c)) (state_merkle_pruner (state_db c)) (epoch_snapshot_pruner (state_db c))) c.

Definition with_pruned c (sch : StaleSchema) (w : StateMerkleDb DB * StateMerklePruner) : Committer HV SN DB ES SG LDB :=
  let st := state_db c in
  set_state_db
    (match sch with
     | StaleNodeIndexSchema => mkStateDb (ledger_db st) (fst w) (with_worker (state_merkle_pruner st) (snd w)) (epoch_snapshot_pruner st)
     | StaleNodeIndexCrossEpochSchema => mkStateDb (ledger_db st) (fst w) (state_merkle_pruner st) (with_worker (epoch_snapshot_pruner st) (snd w))
     end) c.

Definition manager_of st (sch : StaleSchema) : StateMerklePrunerManager :=
  match sch with StaleNodeIndexSchema => state_merkle_pruner st | StaleNodeIndexCrossEpochSchema => epoch_snapshot_pruner st end.

(** From empty databases on: ledger infos are written, for versions not before the last
    snapshot, and usages; a snapshot is committed; a pruner runs, with any outcome.  The
    run keeps the versions that were committed with their leaves. *)
Inductive node_run : Committer HV SN DB ES SG LDB -> list (Version * list (LeafNode HV K)) -> Prop :=
| node_start c : fresh_db (state_merkle_db (state_db c)) -> fresh_manager (state_merkle_pruner (state_db c)) ->
    fresh_manager (epoch_snapshot_pruner (state_db c)) -> windows_ordered (state_db c) ->
    sn_version (last_snapshot c) = None -> node_run c []
| node_ledger_info c vs li ledger r : node_run c vs ->
    (forall v, fst <$> list.last vs = Some v -> v <= LedgerInfo_version (ledger_info li)) ->
    lmd_write_schemas (put_ledger_info li) (ledger_db (state_db c)) = (ledger, r) ->
    node_run (with_ledger c ledger) vs
| node_usage c vs version usage ledger r : node_run c vs ->
    put_usage version usage (ledger_db (state_db c)) = (ledger, r) ->
    node_run (with_ledger c ledger) vs
| node_commit c vs snapshot order kvs version c' :
    let lvs := default [] (snd <$> list.last vs) in
    node_run c vs -> sn_version snapshot = Some version -> u64_ok version ->
    (forall v, fst <$> list.last vs = Some v -> v < version) -> Z.of_nat (length lvs + length kvs) < U64 ->
    snapshot_delta version lvs (last_snapshot c) snapshot kvs -> order ≡ₚ seq 0 16 ->
    commit_snapshot rl order snapshot c = (c', Ok tt) ->
    node_run c' (vs ++ [(version, update_all version lvs kvs)])
| node_prune c vs sch p w' r : node_run c vs -> pruner_worker (manager_of (state_db c) sch) = Some p ->
    smp_prune sch (state_merkle_db (state_db c), p) = (w', r) ->
    node_run (with_pruned c sch w') vs.

(** ** The invariant *)

(** Deleting the node of an entry does not touch the snapshot at the end of an epoch. *)
Definition epoch_safe (ledger : LedgerMetadataDb HV ES SG LDB) e : Prop :=
  forall v n, epoch_ends ledger v = Some n -> stale_since_version e <= v \/ v < nk_version (stale_node_key e).

Definition last_or_0 td : Version := default 0 (last_version td).

Record node_inv c td : Prop := {
  ni_reach : db_reachable td;
  ni_stores : stores (state_merkle_db (state_db c)) td;
  ni_last : sn_version (last_snapshot c) = last_version td;
  ni_u64 : u64_ok (last_or_0 td);
  ni_managers : forall sch, manager_ok (manager_of (state_db c) sch) (last_or_0 td);
  ni_windows : windows_ordered (state_db c);
  ni_order : min_readable_version (epoch_snapshot_pruner (state_db c)) <= min_readable_version (state_merkle_pruner (state_db c));
  ni_safe : forall e, entry StaleNodeIndexSchema (state_merkle_db (state_db c)) e -> epoch_safe (ledger_db (state_db c)) e;
  ni_pruned : Forall (fun e =>
      (stale_since_version e <= min_readable_version (state_merkle_pruner (state_db c)) /\ epoch_safe (ledger_db (state_db c)) e) \/
      stale_since_version e <= min_readable_version (epoch_snapshot_pruner (state_db c))) (td_pruned td);
}.

Lemma entry_stale sch self td e : stores self td -> entry sch self e -> e ∈ td_stale td.
Proof. intros Hh (j & db & Hj & He). apply (so_stale _ _ _ Hh). by exists j, db, sch. Qed.

Lemma next_upto td w : last_version td = Some w -> next_version td = w + 1.
Proof. unfold next_version. by intros ->. Qed.

Lemma last_mono td version : next_version td <= version -> 0 <= version -> last_or_0 td <= version.
Proof. unfold last_or_0, next_version. destruct (last_version td); cbn; lia. Qed.

(** *** The ledger: new ends of epochs are not before the last version *)
Lemma ledger_inv c td ledger : node_inv c td ->
  (forall v n, epoch_ends ledger v = Some n -> epoch_ends (ledger_db (state_db c)) v = Some n \/
     forall w, last_version td = Some w -> w <= v) ->
  node_inv (with_ledger c ledger) td.
Proof.
  intros Hi Hends. pose proof (reachable_inv _ (ni_reach _ _ Hi)) as Hdb.
  assert (Hsafe : forall e, stale_since_version e < next_version td ->
    epoch_safe (ledger_db (state_db c)) e -> epoch_safe ledger e).
  { intros e He Hs v n Hv. pose proof (lview_epochs_ok _ _ _ Hv) as [Hv0 _]. apply Hends in Hv as [Hv|Hv]; [by eapply Hs|]. left.
    unfold next_version in He. destruct (last_version td) as [w|]; [specialize (Hv w eq_refl)|]; lia. }
  destruct Hi as [Hr Hst Hlast Hu Hman Hwin Hord Hns Hnp]. split; try done.
  - intros e He. apply Hsafe; [|by apply Hns]. pose proof (inv_stale _ Hdb) as Hs. rewrite Forall_forall in Hs.
    apply (entry_stale _ _ td) in He; [|done]. apply Hs in He. lia.
  - pose proof (inv_pruned _ Hdb) as Hp. rewrite Forall_forall in Hp, Hnp. apply Forall_forall. intros e He.
    destruct (Hnp e He) as [[Hle Hs]|Hle]; [left|by right]. split; [done|]. apply Hsafe; [by apply Hp|done].
Qed.

(** *** A run of a pruner *)
Lemma prune_inv_node c td sch p w' r : node_inv c td -> pruner_worker (manager_of (state_db c) sch) = Some p ->
  smp_prune sch (state_merkle_db (state_db c), p) = (w', r) ->
  exists td', node_inv (with_pruned c sch w') td' /\ td_versions td' = td_versions td.
Proof.
  intros Hi Ep E. pose proof Hi as [Hr Hst Hlast Hu Hman Hwin Hord Hns Hnp].
  destruct (mo_worker _ _ (Hman sch) p Ep) as [Ht Hp]. pose proof (mo_min _ _ (Hman sch)) as Hmin. destruct (mo_window _ _ (Hman sch)) as [Hw Hwu].
  assert (Htu : u64_ok (smp_target_version p)) by (unfold u64_ok in *; lia).
  destruct (smp_prune_safe sch (_, p) td w' r Hr Hst E) as (td' & Hd & Hst'). exists td'.
  pose proof Hd as (Hr' & Hv & Hent & st & Hpr & Hdel). cbn [fst snd] in *.
  assert (El : last_version td' = last_version td) by (unfold last_version; by rewrite Hv).
  assert (Eo : last_or_0 td' = last_or_0 td) by (unfold last_or_0; by rewrite El).
  pose proof (manager_pruned sch _ _ p _ _ _ (Hman sch) Ep E) as Hman'.
  assert (Hen : is_pruner_enabled (manager_of (state_db c) sch) = true) by (unfold is_pruner_enabled; by rewrite Ep).
  split; [|done]. split; rewrite ?El, ?Eo; try done.
  - by destruct sch.
  - intros sch'. destruct sch, sch'; cbn [with_pruned set_state_db manager_of state_db state_merkle_pruner epoch_snapshot_pruner]; try done.
    + exact (Hman StaleNodeIndexCrossEpochSchema).
    + exact (Hman StaleNodeIndexSchema).
  - unfold windows_ordered in *. destruct sch; cbn [manager_of] in Hen; rewrite Hen in Hwin; exact Hwin.
  - by destruct sch.
  - intros e He. replace (ledger_db _) with (ledger_db (state_db c)) by (by destruct sch). apply Hns, Hent. by destruct sch.
  - rewrite Hpr. rewrite Forall_forall in Hnp. apply Forall_forall. intros e He. apply elem_of_app in He as [He|He].
    + destruct sch; exact (Hnp e He).
    + apply Hdel in He as [Hle He]. destruct sch; cbn [manager_of] in *; [left; split; [cbn; lia|by apply Hns]|right; cbn; lia].
Qed.

(** *** A commit *)
Lemma unwrap_Ok {A} (o : outcome A) a : unwrap o = Ok a -> o = Ok a.
Proof. by destruct o. Qed.

(** What a commit that returns has done. *)
Lemma commit_snapshot_inv order snapshot c c' : commit_snapshot rl order snapshot c = (c', Ok tt) ->
  exists b version db m1 m2, merklize_snapshot rl (state_db c) (last_snapshot c) snapshot = Ok b /\
    sn_version (smb_snapshot b) = Some version /\
    smdb_commit order (top_levels_batch b) (batches_for_shards b) (state_merkle_db (state_db c)) = (db, Ok tt) /\
    maybe_set_pruner_target_db_version version (state_merkle_pruner (state_db c)) = Ok m1 /\
    maybe_set_pruner_target_db_version version (epoch_snapshot_pruner (state_db c)) = Ok m2 /\
    c' = mkCommitter (mkStateDb (ledger_db (state_db c)) db m1 m2) snapshot (smb_snapshot b) /\
    check_usage_consistency (state_db c') (smb_snapshot b) = Ok tt.
Proof.
  intros E. unfold commit_snapshot in E. apply pbind_inv in E as [(c1 & b & E1 & E)|[(err & _ & [=])|(err & _ & [=])]].
  injection E1 as <- Eb. apply pbind_inv in E as [(c1 & [] & E1 & E)|[(err & _ & [=])|(err & _ & [=])]]. injection E1 as <-.
  unfold commit_batch in E. apply pbind_inv in E as [(c2 & version & E2 & E)|[(err & _ & [=])|(err & _ & [=])]]. injection E2 as <- Ev.
  apply pbind_inv in E as [(c3 & [] & E3 & E)|[(err & _ & [=])|(err & _ & [=])]]. unfold commit_nodes, pexpect in E3. cbn [state_db] in E3.
  destruct (smdb_commit _ _ _ _) as [db rc] eqn:Ec. injection E3 as <- Erc.
  apply pbind_inv in E as [(c4 & [] & E4 & E)|[(err & _ & [=])|(err & _ & [=])]]. unfold set_pruner_targets in E4.
  cbn [set_state_db state_db state_merkle_pruner epoch_snapshot_pruner] in E4.
  destruct (maybe_set_pruner_target_db_version version (state_merkle_pruner _)) as [m1| |] eqn:Em1; [|done..].
  destruct (maybe_set_pruner_target_db_version version (epoch_snapshot_pruner _)) as [m2| |] eqn:Em2; [|done..].
  injection E4 as <-. apply pbind_inv in E as [(c5 & [] & E5 & E)|[(err & _ & [=])|(err & _ & [=])]]. injection E5 as <- E5.
  injection E as <-. exists b, version, db, m1, m2. split_and!; try done.
  - unfold expect in Ev. destruct (sn_version (smb_snapshot b)); [by injection Ev as ->|done].
  - rewrite Ec. by destruct rc as [[]| |].
  - by apply unwrap_Ok.
Qed.

Lemma merklize_snapshot_inv st last snapshot version b : merklize_snapshot rl st last snapshot = Ok b -> sn_version snapshot = Some version ->
  (exists previous, get_previous_epoch_ending (ledger_db st) version = Ok previous) /\
  exists l, get_shard_persisted_versions (smdb_reader rl (state_merkle_db st)) (sn_version last) = Ok l.
Proof.
  intros E Ev. unfold merklize_snapshot in E. rewrite Ev in E. cbn [expect] in E. rewrite obind_Ok in E.
  apply bind_Ok in E as (previous & Ep%unwrap_Ok & E). apply bind_Ok in E as (l & El%unwrap_Ok & _). split; by eexists.
Qed.

(** An entry that goes to the index of the state pruner is not of a snapshot at the end
    of an epoch. *)
Lemma new_entry_safe ledger version previous e : u64_ok version -> get_previous_epoch_ending ledger version = Ok previous ->
  stale_since_version e = version -> stale_schema (option_map fst previous) e = StaleNodeIndexSchema -> epoch_safe ledger e.
Proof.
  intros Hu Ep Es Esch v n Hv. rewrite Es. destruct (Z.le_gt_cases version v) as [|Hlt]; [by left|right].
  pose proof (previous_epoch_last ledger version previous Hu Ep) as Hp. destruct previous as [[w f]|]; cbn [option_map fst stale_schema] in *.
  - destruct Hp as (_ & _ & Hmax). specialize (Hmax v n Hv Hlt). destruct (nk_version (stale_node_key e) <=? w) eqn:Ek; [done|].
    apply Z.leb_gt in Ek. lia.
  - specialize (Hp v n Hv). lia.
Qed.

Lemma commit_inv_node c td snapshot order kvs version c' : (forall (db : DB) k, is_ok (db_get_node db k) = true) ->
  node_inv c td -> sn_version snapshot = Some version -> u64_ok version -> next_version td <= version ->
  Z.of_nat (length (latest td) + length kvs) < U64 -> snapshot_delta version (latest td) (last_snapshot c) snapshot kvs ->
  order ≡ₚ seq 0 16 -> commit_snapshot rl order snapshot c = (c', Ok tt) ->
  exists td', node_inv c' td' /\ td_versions td' = td_versions td ++ [(version, update_all version (latest td) kvs)].
Proof.
  intros Hget Hi Ev Hu Hnext Hb Hdelta Ho E. pose proof Hi as [Hr Hst Hlast Hul Hman Hwin Hord Hns Hnp].
  apply commit_snapshot_inv in E as (batch & version' & db & m1 & m2 & Em & Ev' & Ec & E1 & E2 & -> & _).
  destruct (merklize_snapshot_inv _ _ _ _ _ Em Ev) as ((previous & Ep) & l & El). rewrite Hlast in El.
  destruct (merklize_snapshot_made rl td (state_db c) (last_snapshot c) snapshot kvs version previous l Hget Hr Hst Hu Hnext Hb Ev Hlast Hdelta Ep El)
    as (pvs & caches & b & pts & n & Hnb & Hstep & Em'). rewrite Em in Em'. destruct (decide _) as [_|]; [|done]. injection Em' as ->.
  cbn [smb_snapshot top_levels_batch batches_for_shards] in *. assert (version' = version) as -> by congruence.
  assert (Hnd : NoDup order) by (rewrite Ho; apply NoDup_seq).
  destruct (commit_run rl _ td kvs version pvs caches _ b pts n order Hst Hnb Hnd) as (db1 & r1 & nb & sb & Ec1 & _ & _ & Hst' & _).
  rewrite Ec in Ec1. injection Ec1 as <- <-. specialize (Hst' Ho eq_refl). pose proof (commit_grown _ _ _ _ _ _ _ _ _ _ _ _ _ _ Hnb Ec) as Hgrow.
  exists (put_db td version kvs b). split; [|done]. destruct (last_version_put td version kvs b) as (Elast & _ & _).
  assert (El0 : last_or_0 (put_db td version kvs b) = version) by (unfold last_or_0; by rewrite Elast).
  assert (Hle : last_or_0 td <= version) by (apply last_mono; [done|unfold u64_ok in Hu; lia]).
  assert (Hl0 : 0 <= last_or_0 td <= version) by (unfold u64_ok in Hul; lia).
  destruct (manager_set _ m1 _ version (Hman StaleNodeIndexSchema) Hl0 E1) as (Hm1 & Ew1 & En1 & Hge1 & Hlo1). cbn [manager_of] in *.
  destruct (manager_set _ m2 _ version (Hman StaleNodeIndexCrossEpochSchema) Hl0 E2) as (Hm2 & Ew2 & En2 & Hge2 & _). cbn [manager_of] in *.
  split; rewrite ?El0, ?Elast; cbn [state_db state_merkle_db state_merkle_pruner epoch_snapshot_pruner ledger_db last_snapshot put_db td_pruned];
    [by eapply reach_step|done|done|done|by intros [|]| | | |].
  - unfold windows_ordered in *. cbn [state_merkle_pruner epoch_snapshot_pruner]. by rewrite En1, En2, Ew1, Ew2.
  - unfold windows_ordered in Hwin. pose proof (mo_min _ _ Hm2) as Hmin2. rewrite Ew2 in Hmin2. pose proof (mo_min _ _ Hm1) as Hmin1.
    destruct (is_pruner_enabled (epoch_snapshot_pruner (state_db c))) eqn:Een.
    + destruct (Hwin eq_refl) as [Hen Hww]. specialize (Hlo1 Hen). lia.
    + assert (m2 = epoch_snapshot_pruner (state_db c)) as ->; [|lia].
      unfold is_pruner_enabled in Een. unfold maybe_set_pruner_target_db_version in E2.
      destruct (pruner_worker (epoch_snapshot_pruner (state_db c))); [done|]. by injection E2.
  - intros e He. apply Hgrow in He as [He|[He Esch]]; [by apply Hns|]. by eapply new_entry_safe; [|exact Ep|apply (nb_since Hnb)|].
  - eapply Forall_impl; [exact Hnp|]. intros e [[Hle' Hs]|Hle']; [left; split; [lia|done]|right; lia].
Qed.

Lemma start_inv c : fresh_db (state_merkle_db (state_db c)) -> fresh_manager (state_merkle_pruner (state_db c)) ->
  fresh_manager (epoch_snapshot_pruner (state_db c)) -> windows_ordered (state_db c) -> sn_version (last_snapshot c) = None ->
  node_inv c (mkTreeDb (fun _ => None) [] [] []).
Proof.
  intros Hf Hm1 Hm2 Hwin Hs.
  assert (Hman : forall m, fresh_manager m -> manager_ok m 0).
  { intros m (Hw & Emin & Hp). split; [done|unfold u64_ok in Hw; lia|]. intros p Hp'. destruct (Hp p Hp'). lia. }
  split; try done.
  - constructor.
  - by apply fresh_db_stores.
  - intros [|]; by apply Hman.
  - destruct Hm1 as (_ & -> & _), Hm2 as (_ & -> & _). done.
  - intros e (j & db & Hj & He). destruct Hf as [_ Hf]. destruct (Hf _ _ Hj) as [_ Hno]. by apply Hno in He.
Qed.

Lemma node_run_inv c vs : (forall (db : DB) k, is_ok (db_get_node db k) = true) -> node_run c vs ->
  exists td, node_inv c td /\ td_versions td = vs.
Proof.
  intros Hget. induction 1 as [c Hf Hm1 Hm2 Hwin Hs|c vs li ledger r _ (td & Hi & <-) Hv E|c vs version usage ledger r _ (td & Hi & <-) E|
    c vs snapshot order kvs version c' lvs _ (td & Hi & <-) Ev Hu Hlt Hb Hd Ho E|c vs sch p w' r _ (td & Hi & <-) Ep E].
  - exists (mkTreeDb (fun _ => None) [] [] []). split; [by apply start_inv|done].
  - exists td. split; [|done]. apply ledger_inv; [done|]. intros v n Hn. rewrite (write_ledger_info_ends _ _ _ _ E) in Hn.
    destruct (is_ok r && ends_epoch (ledger_info li)); [|by left]. case_decide as Ed; [subst v; by right|by left].
  - exists td. split; [|done]. apply ledger_inv; [done|]. intros v n Hn. left. by rewrite <- (write_usage_ends _ _ _ _ _ E).
  - subst lvs. fold (latest td) (last_version td) in *. eapply commit_inv_node; try done.
    apply next_version_le; [unfold u64_ok in Hu; lia|done].
  - by eapply prune_inv_node.
Qed.

(** ** Reads *)

(** A version that the check lets through was not touched by the pruners. *)
Lemma checked_kept c td v : node_inv c td -> error_if_state_merkle_pruned (state_db c) v = Ok tt -> kept td v.
Proof.
  intros Hi E. pose proof (ni_order _ _ Hi) as Hord. pose proof (ni_pruned _ _ Hi) as Hp. unfold error_if_state_merkle_pruned in E.
  destruct (Z.leb_spec (min_readable_version (state_merkle_pruner (state_db c))) v) as [Hle|Hgt].
  - eapply Forall_impl; [exact Hp|]. intros e [[He _]|He]; lia.
  - destruct (Z.leb_spec (min_readable_version (epoch_snapshot_pruner (state_db c))) v) as [Hle|]; [|done].
    unfold ensure_epoch_ending in E. apply bind_Ok in E as (o & Eo & E). apply ldb_epoch_spec in Eo. destruct o as [n|]; [|done].
    eapply Forall_impl; [exact Hp|]. intros e [[_ He]|He]; [|left; lia]. by apply (He v n).
Qed.

(** C2: Whatever the node has done -- snapshots committed at any versions, epochs ended,
    pruners of both indices run to the targets of their managers, with any outcome --
    a committed version for which [error_if_state_merkle_pruned] returns can be read from
    the databases: the value of every key, the root hash, and a proof that verifies. *)
Theorem node_serves c vs v lvs key : (forall (db : DB) k, is_ok (db_get_node db k) = true) -> node_run c vs ->
  error_if_state_merkle_pruned (state_db c) v = Ok tt -> (v, lvs) ∈ vs ->
  readable rl (state_merkle_db (state_db c)) v lvs key.
Proof.
  intros Hget Hrun E Hv. destruct (node_run_inv c vs Hget Hrun) as (td & Hi & <-).
  eapply stored_readable; [done|apply (ni_stores _ _ Hi)|].
  apply reachable_tree; [apply (ni_reach _ _ Hi)|done|by eapply checked_kept].
Qed.

(** The check lets through every version in the window of the state pruner before the
    last version, and the versions at the end of an epoch in the larger window of the
    epoch snapshot pruner. *)
Theorem node_windows c vs last v : (forall (db : DB) k, is_ok (db_get_node db k) = true) -> ledger_reads_work (LDB := LDB) ->
  node_run c vs -> fst <$> list.last vs = Some last -> 0 <= v ->
  last - prune_window (state_merkle_pruner (state_db c)) <= v \/
  (is_Some (epoch_ends (ledger_db (state_db c)) v) /\ last - prune_window (epoch_snapshot_pruner (state_db c)) <= v) ->
  error_if_state_merkle_pruned (state_db c) v = Ok tt.
Proof.
  intros Hget (Hep & _) Hrun El Hv Hor. destruct (node_run_inv c vs Hget Hrun) as (td & Hi & <-).
  assert (Elast : last_or_0 td = last) by (unfold last_or_0, last_version; by rewrite El).
  pose proof (mo_min _ _ (ni_managers _ _ Hi StaleNodeIndexSchema)) as M1. pose proof (mo_min _ _ (ni_managers _ _ Hi StaleNodeIndexCrossEpochSchema)) as M2.
  rewrite Elast in M1, M2. cbn [manager_of] in M1, M2. unfold error_if_state_merkle_pruned.
  destruct (Z.leb_spec (min_readable_version (state_merkle_pruner (state_db c))) v) as [|Hgt]; [done|].
  destruct Hor as [Hle|[[n Hn] Hle]]; [lia|]. rewrite (proj2 (Z.leb_le _ _)) by lia. unfold ensure_epoch_ending.
  specialize (Hep (lmd_db (ledger_db (state_db c))) v). destruct (ldb_epoch _ v) as [o| |] eqn:Eo; [|discriminate Hep..].
  apply ldb_epoch_spec in Eo. rewrite obind_Ok. unfold epoch_ends in Hn. by rewrite Eo, Hn.
Qed.

(** ** Commits *)
Lemma tree_leaf_count s v (lvs : list (LeafNode HV K)) node : tree_at s v lvs -> s (root_key v) = Some node ->
  Node_leaf_count node = Z.of_nat (length lvs).
Proof.
  intros (_ & node' & Hn & Hrep) Hs. unfold root_key in Hs. rewrite Hs in Hn. injection Hn as <-.
  destruct Hrep as [[-> ->]|Hrep]; [done|]. by inversion Hrep.
Qed.

(** The versions of the shards are found, unless the last version is empty. *)
Lemma persisted_works self td : (forall (db : DB) k, is_ok (db_get_node db k) = true) -> db_reachable td -> stores self td ->
  (is_Some (last_version td) -> latest td <> []) ->
  exists l, get_shard_persisted_versions (smdb_reader rl self) (last_version td) = Ok l.
Proof.
  intros Hget Hr Hst Hne. destruct (last_version td) as [v|] eqn:Ev; [|by eexists].
  pose proof (reachable_inv _ Hr) as Hi. destruct (inv_latest _ Hi v Ev) as (_ & (_ & node & Hs & Hrep) & _).
  apply prune_Some in Hs as Hs'. destruct Hs' as [Hs' _]. pose proof (reachable_roots td v node Hr Hs') as Hleaf.
  destruct Hrep as [[E _]|Hrep]; [by destruct Hne|]. destruct node as [[cs c]| |]; [|done|inversion Hrep].
  assert (Hrd : reads (smdb_reader rl self) (prune (td_nodes td) (td_stale td))).
  { intros k tag n Hk. apply prune_Some in Hk as [Hk _]. by apply (smdb_sees rl self _ _ Hget Hst). }
  destruct (persisted_versions_found _ _ v (latest td) cs c Hrd Hs Hrep) as (l & El & _). by exists l.
Qed.

(** The check of the usage passes when the ledger has the number of leaves. *)
Lemma usage_works st td version lvs snapshot usage : (forall (db : DB) k, is_ok (db_get_node db k) = true) ->
  stores (state_merkle_db st) td -> tree_at (td_nodes td) version lvs -> sn_version snapshot = Some version ->
  get_usage (ledger_db st) version = Ok usage -> StateStorageUsage.items usage = Z.of_nat (length lvs) ->
  sn_usage snapshot = Untracked \/ sn_usage snapshot = usage -> check_usage_consistency st snapshot = Ok tt.
Proof.
  intros Hget Hst Ht Ev Eu Hitems Hus. unfold check_usage_consistency. rewrite Ev. cbn [ok_or]. rewrite obind_Ok, Eu, obind_Ok.
  destruct (root_key_good version) as [Hg Hid]. destruct (stored_db _ _ _ _ Hst Hg) as (db & Edb & Hdb).
  unfold db_by_key in Edb. rewrite Hid, obind_Ok in Edb. rewrite Edb, obind_Ok, new_empty_path_pack, obind_Ok.
  pose proof Ht as (_ & node & Hn & _). fold (root_key version) in *.
  specialize (Hget db (root_key version)). destruct (db_get_node db (root_key version)) as [o| |] eqn:Eo; [|discriminate Hget..].
  apply db_get_node_spec in Eo. rewrite <- (so_nodes _ _ _ Hst (root_key version) db Hdb) in Eo. rewrite Hn in Eo. subst o.
  rewrite obind_Ok. cbn [ok_or]. rewrite obind_Ok, (tree_leaf_count _ _ _ _ Ht Hn), Hitems, Z.eqb_refl. cbn [ensure]. rewrite obind_Ok.
  destruct Hus as [->| ->]; [done|]. destruct (StateStorageUsage.is_untracked usage); [done|]. cbn [negb]. by rewrite bool_decide_true.
Qed.

(** The steps of a commit, put together. *)
Lemma commit_snapshot_steps order snapshot c version top batches db m1 m2 :
  let st := mkStateDb (ledger_db (state_db c)) db m1 m2 in
  merklize_snapshot rl (state_db c) (last_snapshot c) snapshot = Ok (mkStateMerkleBatch top batches snapshot) ->
  sn_version snapshot = Some version -> smdb_commit order top batches (state_merkle_db (state_db c)) = (db, Ok tt) ->
  maybe_set_pruner_target_db_version version (state_merkle_pruner (state_db c)) = Ok m1 ->
  maybe_set_pruner_target_db_version version (epoch_snapshot_pruner (state_db c)) = Ok m2 ->
  check_usage_consistency st snapshot = Ok tt ->
  commit_snapshot rl order snapshot c = (mkCommitter st snapshot snapshot, Ok tt).
Proof.
  intros st Em Ev Ec E1 E2 Eus. unfold commit_snapshot, pbind at 1, reading. rewrite Em. unfold pbind at 1.
  unfold commit_batch. unfold pbind at 1, reading. cbn [smb_snapshot]. rewrite Ev. cbn [expect].
  unfold pbind at 1, commit_nodes, pexpect. cbn [top_levels_batch batches_for_shards state_db]. rewrite Ec. cbn [expect_res].
  unfold pbind at 1, set_pruner_targets. cbn [set_state_db state_db state_merkle_pruner epoch_snapshot_pruner]. rewrite E1, E2.
  unfold pbind, reading. cbn [set_state_db state_db ledger_db state_merkle_db state_merkle_pruner last_snapshot]. fold st. by rewrite Eus.
Qed.

Section OneCommit.
Variables (c : Committer HV SN DB ES SG LDB) (vs : list (Version * list (LeafNode HV K))) (snapshot : SN) (order : list nat)
  (kvs : list (HV * option (HV * K))) (version : Version).
Let lvs : list (LeafNode HV K) := default [] (snd <$> list.last vs).
Let new : list (LeafNode HV K) := update_all version lvs kvs.

(** A snapshot of a later version with its updates, on a tree with leaves. *)
Record committable : Prop := {
  cm_run : node_run c vs;
  cm_version : sn_version snapshot = Some version;
  cm_u64 : u64_ok version;
  cm_later : forall v, fst <$> list.last vs = Some v -> v < version;
  cm_leaves : vs <> [] -> lvs <> [];
  cm_bound : Z.of_nat (length lvs + length kvs) < U64;
  cm_delta : snapshot_delta version lvs (last_snapshot c) snapshot kvs;
}.

Lemma node_merklizes : (forall (db : DB) k, is_ok (db_get_node db k) = true) -> ledger_reads_work (LDB := LDB) -> committable ->
  exists td prev pvs caches b pts n, node_inv c td /\ latest td = lvs /\
    next_batches rl (state_merkle_db (state_db c)) td kvs version pvs caches prev b pts n /\ db_step td (put_db td version kvs b) /\
    merklize_snapshot rl (state_db c) (last_snapshot c) snapshot =
      if decide (smt_root (sl new) = sn_root_hash snapshot)
      then Ok (mkStateMerkleBatch (top_ops td version prev n) (map (part_ops version prev) pts) snapshot)
      else Panic "root hash mismatch".
Proof.
  intros Hget Hlw [Hrun Ev Hu Hlt Hne Hb Hd].
  destruct (node_run_inv c vs Hget Hrun) as (td & Hi & Evs). pose proof Hi as [Hr Hst Hlast _ _ _ _ _ _].
  assert (El : last_version td = fst <$> list.last vs) by (unfold last_version; by rewrite Evs).
  assert (Elv : latest td = lvs) by (unfold latest; by rewrite Evs). rewrite <- El in Hlt. rewrite <- Elv in Hb, Hd.
  assert (Hnext : next_version td <= version) by (apply next_version_le; [unfold u64_ok in Hu; lia|done]).
  destruct (previous_epoch_works (ledger_db (state_db c)) version Hlw) as (previous & Ep).
  destruct (persisted_works (state_merkle_db (state_db c)) td Hget Hr Hst) as (l & Epv).
  { rewrite Elv. intros [v Hv]. apply Hne. intros Evn. rewrite Evn in El. by rewrite El in Hv. }
  destruct (merklize_snapshot_made rl td (state_db c) (last_snapshot c) snapshot kvs version previous l Hget Hr Hst Hu Hnext Hb Ev Hlast Hd Ep Epv)
    as (pvs & caches & b & pts & n & Hnb & Hstep & Em). rewrite Elv in Em. by exists td, (option_map fst previous), pvs, caches, b, pts, n.
Qed.
End OneCommit.

(** C4: On databases that do not fail, a snapshot of a later version is committed: with the
    updates since the last snapshot, the root hash of the reference tree of the updated
    leaves, and the number of leaves in the ledger, [commit_snapshot] returns, in
    whatever order the threads write the shards -- unless the last version that was
    committed has no leaves. *)
Theorem node_commits c vs snapshot order kvs version usage : db_works DB -> ledger_reads_work (LDB := LDB) ->
  committable c vs snapshot kvs version ->
  let new := update_all version (default [] (snd <$> list.last vs)) kvs in
  sn_root_hash snapshot = smt_root (sl new) ->
  get_usage (ledger_db (state_db c)) version = Ok usage -> StateStorageUsage.items usage = Z.of_nat (length new) ->
  sn_usage snapshot = Untracked \/ sn_usage snapshot = usage -> order ≡ₚ seq 0 16 ->
  exists c', commit_snapshot rl order snapshot c = (c', Ok tt) /\ persisted_state c' = snapshot /\
    node_run c' (vs ++ [(version, new)]).
Proof.
  intros (Hget & _ & _ & Hwr) Hlw Hcm new Hroot Eu Hitems Hus Ho.
  destruct (node_merklizes c vs snapshot kvs version Hget Hlw Hcm) as (td & prev & pvs & caches & b & pts & n & Hi & Elv & Hnb & Hstep & Em).
  rewrite decide_True in Em by done. pose proof Hi as [Hr Hst _ Hul Hman _ _ _ _].
  destruct (commit_works rl _ td kvs version pvs caches prev b pts n order Hst Hnb Hwr Ho) as (db & Ec & Hst').
  destruct (manager_set_works _ _ version (Hman StaleNodeIndexSchema) Hul) as (m1 & E1).
  destruct (manager_set_works _ _ version (Hman StaleNodeIndexCrossEpochSchema) Hul) as (m2 & E2). cbn [manager_of] in E1, E2.
  destruct Hcm as [Hrun Ev Hu Hlt _ Hb Hd].
  assert (Eus : check_usage_consistency (mkStateDb (ledger_db (state_db c)) db m1 m2) snapshot = Ok tt).
  { apply (usage_works _ (put_db td version kvs b) version new snapshot usage); try done.
    assert (Hr' : db_reachable (put_db td version kvs b)) by (by eapply reach_step).
    destruct (last_version_put td version kvs b) as (El' & _). apply reachable_tree; [done| |].
    - cbn [put_db td_versions]. apply elem_of_app. right. rewrite Elv. left.
    - apply last_kept; [by apply reachable_inv|done]. }
  pose proof (commit_snapshot_steps order snapshot c version _ _ db m1 m2 Em Ev Ec E1 E2 Eus) as E.
  eexists. split_and!; [exact E|done|].
  eapply node_commit; [exact Hrun|exact Ev|exact Hu|exact Hlt|exact Hb|exact Hd|exact Ho|exact E].
Qed.

(** C5: A snapshot whose root hash is not that of the tree with its updates is refused:
    the thread panics and nothing is written. *)
Theorem node_refuses_root c vs snapshot order kvs version : db_works DB -> ledger_reads_work (LDB := LDB) ->
  committable c vs snapshot kvs version ->
  sn_root_hash snapshot <> smt_root (sl (update_all version (default [] (snd <$> list.last vs)) kvs)) ->
  commit_snapshot rl order snapshot c = (c, Panic "root hash mismatch").
Proof.
  intros (Hget & _) Hlw Hcm Hroot.
  destruct (node_merklizes c vs snapshot kvs version Hget Hlw Hcm) as (td & prev & pvs & caches & b & pts & n & _ & _ & _ & _ & Em).
  rewrite decide_False in Em by (by intros E; apply Hroot). unfold commit_snapshot, pbind at 1, reading. by rewrite Em.
Qed.
End NodeRuns.

(** ** Witnesses *)
Section NodeWitnesses.
#[local] Existing Instances ref_byteorder ref_byteorder_laws memory_db memory_db_laws.

(** A snapshot with its difference to the one before, and its leaves. *)
Record toy_snapshot := mkToySnapshot {
  tn_next_version : Version;
  tn_usage : StateStorageUsage;
  tn_root_hash : bytes32;
  tn_delta : list (Z * StateUpdate Z);
  tn_leaves : list (LeafNode bytes32 Z);
}.

Definition toy_shard (d : list (Z * StateUpdate Z)) (i : Z) : list (Z * StateUpdate Z) :=
  List.filter (fun kw => nib (toy_key (fst kw)) 0 =? i) d.

(** The hashes of the children of the root of a shard. *)
Definition toy_hashes (L : list (LeafNode bytes32 Z)) (i : Z) : gmap NibblePath bytes32 :=
  list_to_map (map (fun j => (pack [i; j], hash_at 2 (under [i; j] L))) (seqZ 0 16)).

#[local] Instance toy_state_snapshot : StateSnapshot bytes32 Z Z toy_snapshot := {|
  sn_next_version := tn_next_version;
  sn_usage := tn_usage;
  sn_root_hash := tn_root_hash;
  sn_make_delta := fun sn _ => Ok (map (toy_shard (tn_delta sn)) (seqZ 0 16));
  sn_new_node_hashes_since := fun sn _ i => Ok (toy_hashes (tn_leaves sn) i);
|}.

#[local] Instance toy_state_hash : StateHash bytes32 Z Z := {| hash_key := toy_key; hash_value := of_num |}.

Definition toy_put (k v version : Z) : Z * StateUpdate Z := (k, mkStateUpdate version (Some v)).

Definition toy_jmt (d : list (Z * StateUpdate Z)) : list (bytes32 * option (bytes32 * Z)) :=
  concat (map hash_jmt_updates (map (toy_shard d) (seqZ 0 16))).

(** Key 17 is in shard 1 and key 200 in shard 12. *)
Definition toy_delta1 : list (Z * StateUpdate Z) := [toy_put 17 1 5; toy_put 200 2 5].
Definition toy_delta2 : list (Z * StateUpdate Z) := [toy_put 17 3 9].
Definition toy_leaves1 : list (LeafNode bytes32 Z) := update_all 5 [] (toy_jmt toy_delta1).
Definition toy_leaves2 : list (LeafNode bytes32 Z) := update_all 9 toy_leaves1 (toy_jmt toy_delta2).

Definition toy_sn0 : toy_snapshot := mkToySnapshot 0 Untracked (of_num 0) [] [].
Definition toy_sn1 : toy_snapshot := mkToySnapshot 6 (Tracked 2 20) (smt_root (sl toy_leaves1)) toy_delta1 toy_leaves1.
Definition toy_sn2 : toy_snapshot := mkToySnapshot 10 Untracked (smt_root (sl toy_leaves2)) toy_delta2 toy_leaves2.

(** The keys of a shard differ in their second nibble: no node is written below its
    children. *)
Definition toy_shallow (L : list (LeafNode bytes32 Z)) : bool :=
  forallb (fun i => forallb (fun j => (length (under [i; j] L) <=? 1)%nat) (seqZ 0 16)) (seqZ 0 16).

Lemma toy_shallow_under L i j : toy_shallow L = true -> nibble_ok i -> nibble_ok j -> (length (under [i; j] L) <= 1)%nat.
Proof.
  assert (Hin : forall i, nibble_ok i -> i ∈ seqZ 0 16) by (intros n Hn; apply elem_of_seqZ; unfold nibble_ok in Hn; lia).
  intros Hs Hi Hj. apply Nat.leb_le. refine (forallb_elem (fun j => (length (under [i; j] L) <=? 1)%nat) _ j _ (Hin j Hj)).
  exact (forallb_elem _ _ i Hs (Hin i Hi)).
Qed.

Lemma toy_hashes_at L i j : nibble_ok i -> nibble_ok j -> toy_hashes L i !! pack [i; j] = Some (hash_at 2 (under [i; j] L)).
Proof.
  intros Hi Hj. apply elem_of_list_to_map_1.
  - rewrite map_map. cbn [fst]. apply NoDup_fmap_2_strong; [|apply NoDup_seqZ]. intros a b Ha Hb E. apply elem_of_seqZ in Ha, Hb.
    assert (Ht : forall n, 0 <= n < 0 + 16 -> Forall nibble_ok [i; n]) by (intros n Hn; repeat constructor; unfold nibble_ok in *; lia).
    apply (f_equal unpack) in E. rewrite !unpack_pack in E by auto. by injection E.
  - apply list_elem_of_fmap. exists j. split; [done|]. apply elem_of_seqZ. unfold nibble_ok in Hj. lia.
Qed.

Lemma toy_caches version lvs kvs : let L := update_all version lvs kvs in toy_shallow L = true ->
  caches_ok (HV := bytes32) (K := Z) version lvs kvs (fun i => Some (toy_hashes L i)).
Proof.
  intros L Hs i Hi q j Hq Hj _ [H2l _]. fold (update_all version lvs kvs) in *. fold L in H2l |- *. intros L' _. subst L'. destruct q as [|a q]; [by apply toy_hashes_at|exfalso].
  apply Forall_cons in Hq as [Ha _]. pose proof (toy_shallow_under L i a Hs Hi Ha) as Hle.
  assert (Hsub : under ([i] ++ a :: q) L = under ([i] ++ a :: q) (under [i; a] L)).
  { unfold under. rewrite list_filter_filter. apply list_filter_iff. intros x. split; [|tauto]. intros Hx. split; [done|]. by apply (starts_app [i; a] q). }
  rewrite Hsub in H2l. unfold under at 1 in H2l.
  pose proof (length_filter (fun x => starts ([i] ++ a :: q) (account_key x)) (under [i; a] L)). lia.
Qed.

Lemma toy_delta_ok version lvs last sn : tn_leaves sn = update_all version lvs (toy_jmt (tn_delta sn)) -> toy_shallow (tn_leaves sn) = true ->
  snapshot_delta version lvs last sn (toy_jmt (tn_delta sn)).
Proof.
  intros EL Hs. exists (map (toy_shard (tn_delta sn)) (seqZ 0 16)), (toy_hashes (tn_leaves sn)). split_and!; [done|done| |done|done|].
  2:{ rewrite EL in *. by apply toy_caches. }
  intros i ups kw Hi Hkw. change (map ?f ?l) with (f <$> l) in Hi. apply list_lookup_fmap_Some in Hi as (j & -> & Hj).
  apply lookup_seqZ in Hj as [-> _]. apply list_elem_of_In, filter_In in Hkw as [_ Hkw]. apply Z.eqb_eq in Hkw. rewrite Z.add_0_l in Hkw. exact Hkw.
Qed.

(** The ledger has the usage of both versions; versions are kept for one more version,
    snapshots at the end of an epoch for a hundred. *)
Definition toy_ledger_db : LedgerMetadataDb bytes32 unit unit (memory_ledger bytes32 unit unit) :=
  mkLedgerMetadataDb (mkMemoryLedger ∅ ∅ (<[5 := mkVersionData 2 20]> (<[9 := mkVersionData 2 20]> ∅))) None.

Definition toy_manager (window : Z) : StateMerklePrunerManager := mkStateMerklePrunerManager window (Some (toy_pruner 0)) 0.

Definition toy_c0 : Committer bytes32 toy_snapshot (db_view bytes32 Z) unit unit (memory_ledger bytes32 unit unit) :=
  mkCommitter (mkStateDb toy_ledger_db toy_fresh (toy_manager 1) (toy_manager 100)) toy_sn0 toy_sn0.

Abbreviation toy_rl := (fun _ : Version => Ok (@None (NodeKey * LeafNode bytes32 Z))).

Lemma toy_start : node_run toy_rl toy_c0 [].
Proof.
  assert (Hm : forall w, 0 <= w < 1000 -> fresh_manager (toy_manager w)).
  { intros w Hw. split_and!; [unfold u64_ok, U64; cbn; lia|done|]. intros p [= <-]. done. }
  constructor; [exact toy_fresh_db|apply Hm; lia|apply Hm; lia|intros _; split; [done|cbn; lia]|done].
Qed.

Lemma toy_commit1 : committable toy_rl toy_c0 [] toy_sn1 (toy_jmt toy_delta1) 5.
Proof.
  split.
  - exact toy_start.
  - reflexivity.
  - unfold u64_ok, U64. lia.
  - intros v [=].
  - intros Hn. by destruct Hn.
  - vm_compute. reflexivity.
  - apply (toy_delta_ok 5 [] toy_sn0 toy_sn1); [reflexivity|vm_compute; reflexivity].
Qed.

Lemma node_commits_witness : exists c', commit_snapshot toy_rl toy_order toy_sn1 toy_c0 = (c', Ok tt) /\
  persisted_state c' = toy_sn1 /\ node_run toy_rl c' [(5, toy_leaves1)].
Proof.
  apply (node_commits toy_rl toy_c0 [] toy_sn1 toy_order (toy_jmt toy_delta1) 5 (Tracked 2 20)).
  - exact memory_works.
  - exact memory_ledger_works.
  - exact toy_commit1.
  - reflexivity.
  - reflexivity.
  - vm_compute. reflexivity.
  - right. reflexivity.
  - exact toy_order_all.
Defined.

Lemma node_refuses_root_witness :
  commit_snapshot toy_rl toy_order (mkToySnapshot 6 Untracked (of_num 0) toy_delta1 toy_leaves1) toy_c0 = (toy_c0, Panic "root hash mismatch").
Proof.
  apply (node_refuses_root toy_rl toy_c0 [] _ toy_order (toy_jmt toy_delta1) 5).
  - exact memory_works.
  - exact memory_ledger_works.
  - destruct toy_commit1 as [H1 _ H3 H4 H5 H6 _]. split; [exact H1|reflexivity|exact H3|exact H4|exact H5|exact H6|].
    apply (toy_delta_ok 5 [] toy_sn0 (mkToySnapshot 6 Untracked (of_num 0) toy_delta1 toy_leaves1)); [reflexivity|vm_compute; reflexivity].
  - vm_compute. intros E. discriminate E.
Defined.

(** Version 5 ends an epoch; after the commit of version 9, the state pruner runs. *)
Definition toy_c1 := fst (commit_snapshot toy_rl toy_order toy_sn1 toy_c0).
Definition toy_c2 := with_ledger toy_c1 (fst (lmd_write_schemas (put_ledger_info (toy_ledger_info 0 5)) (ledger_db (state_db toy_c1)))).
Definition toy_c3 := fst (commit_snapshot toy_rl toy_order toy_sn2 toy_c2).
Definition toy_worker3 : StateMerklePruner := default (toy_pruner 0) (pruner_worker (state_merkle_pruner (state_db toy_c3))).
Definition toy_c4 := with_pruned toy_c3 StaleNodeIndexSchema
  (fst (smp_prune StaleNodeIndexSchema (state_merkle_db (state_db toy_c3), toy_worker3))).

Lemma toy_run4 : node_run toy_rl toy_c4 [(5, toy_leaves1); (9, toy_leaves2)].
Proof.
  assert (E1 : commit_snapshot toy_rl toy_order toy_sn1 toy_c0 = (toy_c1, Ok tt)).
  { rewrite (surjective_pairing (commit_snapshot _ _ _ _)). apply pair_equal_spec. split; [reflexivity|vm_compute; reflexivity]. }
  assert (E3 : commit_snapshot toy_rl toy_order toy_sn2 toy_c2 = (toy_c3, Ok tt)).
  { rewrite (surjective_pairing (commit_snapshot _ _ _ _)). apply pair_equal_spec. split; [reflexivity|vm_compute; reflexivity]. }
  assert (R1 : node_run toy_rl toy_c1 ([] ++ [(5, toy_leaves1)])).
  { destruct toy_commit1 as [H1 H2 H3 H4 _ H6 H7]. exact (node_commit toy_rl toy_c0 [] toy_sn1 toy_order _ 5 toy_c1 H1 H2 H3 H4 H6 H7 toy_order_all E1). }
  assert (R2 : node_run toy_rl toy_c2 [(5, toy_leaves1)]).
  { refine (node_ledger_info toy_rl toy_c1 _ (toy_ledger_info 0 5) _ _ R1 _ (surjective_pairing _)). intros v E. change (Some 5 = Some v) in E.
    assert (v = 5) as -> by congruence. done. }
  assert (R3 : node_run toy_rl toy_c3 ([(5, toy_leaves1)] ++ [(9, toy_leaves2)])).
  { refine (node_commit toy_rl toy_c2 _ toy_sn2 toy_order (toy_jmt toy_delta2) 9 toy_c3 R2 eq_refl _ _ _ _ toy_order_all E3).
    - unfold u64_ok, U64. lia.
    - intros v E. change (Some 5 = Some v) in E. assert (v = 5) as -> by congruence. lia.
    - vm_compute. reflexivity.
    - apply (toy_delta_ok 9 toy_leaves1 (last_snapshot toy_c2) toy_sn2); [reflexivity|vm_compute; reflexivity]. }
  refine (node_prune toy_rl toy_c3 _ StaleNodeIndexSchema toy_worker3 _ _ R3 _ (surjective_pairing _)). vm_compute. reflexivity.
Qed.

(** Version 5 is out of the window of the state pruner, and can be read. *)
Lemma node_serves_witness : min_readable_version (state_merkle_pruner (state_db toy_c4)) = 8 /\
  readable toy_rl (state_merkle_db (state_db toy_c4)) 5 toy_leaves1 (toy_key 17).
Proof.
  split; [vm_compute; reflexivity|].
  apply (node_serves toy_rl toy_c4 [(5, toy_leaves1); (9, toy_leaves2)] 5 toy_leaves1 (toy_key 17)).
  - exact (proj1 memory_works).
  - exact toy_run4.
  - vm_compute. reflexivity.
  - left.
Defined.

Lemma node_windows_witness : error_if_state_merkle_pruned (state_db toy_c4) 5 = Ok tt.
Proof.
  apply (node_windows toy_rl toy_c4 [(5, toy_leaves1); (9, toy_leaves2)] 9 5).
  - exact (proj1 memory_works).
  - exact memory_ledger_works.
  - exact toy_run4.
  - reflexivity.
  - lia.
  - right. split; [exists 0; vm_compute; reflexivity|vm_compute; discriminate].
Defined.
End NodeWitnesses.
