(* ===== verification/NodeRestart.v ===== *)
(** * The start of the node over its databases

    Model of what [AptosDB::new_with_dbs] ([db/include/aptosdb_internal.rs]),
    [StateStore::new] and [create_buffered_state_from_latest_snapshot]
    ([state_store/mod.rs]) do with the state tree: the managers of the pruners read their
    progress and catch up the shards, the tree goes back to the progress of the ledger,
    and the last snapshot is looked up.  The states replayed from the ledger after it are
    not part of the tree. *)
From stdpp Require Import base list numbers strings option gmap.
From Stdlib Require Import ZArith Lia Bool.
From S2P Require Import Prelude Hash AccumulatorProof SparseMerkleProof NibblePath ByteCodec JellyfishNode JellyfishTree StateMerkleDb StateMerklePruner StateMerkleCommit StateMerkleSnapshot LedgerMetadata StateMerkleTruncation SnapshotCommitter.

(** The fields of [PrunerConfig] that the managers of the state tree use. *)
Record PrunerConfig := mkPrunerConfig {
  state_merkle_enable : bool;
  state_merkle_prune_window : Version;
  epoch_snapshot_enable : bool;
  epoch_snapshot_prune_window : Version;
}.

Section Restart.
Context {HV : Type} `{HashValueOps HV} `{HashValueBits HV} `{CryptoHasher HV} `{LeafHasher HV} {K : Type}.
Context {DB : Type} `{SchemaDb HV K DB} `{!SchemaDbNodes HV K DB} `{ByteOrder} {ES SG LDB : Type} `{LedgerDb HV ES SG LDB}.
Context (rightmost : Version -> outcome (option (NodeKey * LeafNode HV K))).
Implicit Types (self : StateMerkleDb DB) (ledger : LedgerMetadataDb HV ES SG LDB).

(** The managers, in [new_with_dbs]. *)
Definition new_managers (config : PrunerConfig)
  : prog (StateMerkleDb DB) (StateMerklePrunerManager * StateMerklePrunerManager) :=
  state_merkle_pruner <~ StateMerklePrunerManager_new StaleNodeIndexSchema
                          (state_merkle_enable config) (state_merkle_prune_window config);
  epoch_snapshot_pruner <~ StateMerklePrunerManager_new StaleNodeIndexCrossEpochSchema
                            (epoch_snapshot_enable config) (epoch_snapshot_prune_window config);
  pret (state_merkle_pruner, epoch_snapshot_pruner).

(** [open_internal], [new_with_dbs] and [StateStore::new] up to the [StateDb]: the progress
    of the ledger is given, if there is one. *)
Definition open_state_db (config : PrunerConfig) (order : list nat) (orders : list (list nat))
    (overall_commit_progress : option Version) ledger : prog (StateMerkleDb DB) (StateMerklePrunerManager * StateMerklePrunerManager) :=
  _ <~ smdb_new false order;
  managers <~ new_managers config;
  _ <~ match overall_commit_progress with
       | Some progress => sync_state_merkle ledger orders progress true
       | None => pret tt
       end;
  pret managers.

(** [StateDb::get_state_storage_usage] *)
Definition StateDb_get_state_storage_usage (skip_usage : bool) ledger (version : option Version) : outcome StateStorageUsage :=
  match version with
  | None => Ok StateStorageUsage.zero
  | Some version =>
      match get_usage ledger version with
      | Err _ =>
          _ ← ensure skip_usage "VersionData is missing.";
          Ok StateStorageUsage.new_untracked
      | data => data
      end
  end.

(** The snapshot from which [create_buffered_state_from_latest_snapshot] starts: its
    version, root hash and usage. *)
Definition latest_snapshot self (skip_usage : bool) ledger : outcome (option Version * HV * StateStorageUsage) :=
  latest_snapshot_version ← expect_res (get_state_snapshot_version_before self VERSION_MAX)
    "Failed to query latest node on initialization.";
  latest_snapshot_root_hash ←
    match latest_snapshot_version with
    | Some version =>
        expect_res (jmt_get_root_hash (smdb_reader rightmost self) version)
          "Failed to query latest checkpoint root hash on initialization."
    | None => Ok SPARSE_MERKLE_PLACEHOLDER_HASH
    end;
  usage ← StateDb_get_state_storage_usage skip_usage ledger latest_snapshot_version;
  Ok (latest_snapshot_version, latest_snapshot_root_hash, usage).
End Restart.
