(* ===== verification/NodeRestartTheorems.v ===== *)
(** * The start of the node: theorems

    What a pruner leaves behind, over whatever the node goes on to do, its restarts
    included; and what a restart lets through that is pruned.  Both have runs of a node
    over databases in memory ([toy_run]), from empty databases on. *)
From stdpp Require Import base list numbers strings option gmap sorting.
From Stdlib Require Import ZArith Lia Bool Sorted.
From S2P Require Import Prelude Hash ToyHash AccumulatorProof SparseMerkleProof SparseSpec SparseFacts SparseTheorems NibblePath NibblePathFacts ByteCodec JellyfishNode JellyfishNodeFacts JellyfishHash JellyfishSpec JellyfishTree JellyfishRead JellyfishRuns JellyfishBatch JellyfishUpdate JellyfishInsert JellyfishCommit JellyfishHistory JellyfishTruncate JellyfishTheorems StateMerkleDb StateMerklePruner StateMerklePrunerFacts StateMerklePrunerProgress StateMerklePrunerTheorems StateMerkleCommit StateMerkleCommitFacts StateMerkleCommitTheorems StateMerkleSnapshot LedgerMetadata LedgerMetadataFacts LedgerMetadataTheorems StateMerkleTruncation StateMerkleTruncationFacts StateMerkleTruncationTheorems SnapshotCommitter SnapshotFacts SnapshotTheorems NodeRestart.

(** ** Entries that a pruner passed over *)
Section PassedOver.
Context {HV : Type} `{HashValueOps HV} `{HashValueBits HV} `{!HashValueLaws HV} `{CryptoHasher HV}
  `{LeafHasher HV} `{HashValueKeys HV} `{!HashValueKeysLaws HV} `{Itertools} `{!ItertoolsLaws} {K SV SN : Type}
  `{StateSnapshot HV K SV SN} `{!StateHash HV K SV}.
Context {DB : Type} `{SchemaDb HV K DB} `{HB : ByteOrder} `{!ByteOrderLaws} `{!SchemaDbLaws HV K DB}
  {ES SG LDB : Type} `{LedgerDb HV ES SG LDB} `{!LedgerDbLaws HV ES SG LDB}.
Context (rl : Version -> outcome (option (NodeKey * LeafNode HV K))) (sch : StaleSchema) (i : Z).
Implicit Types (td : tree_db (HV := HV) (K := K)) (kvs : list (HV * option (HV * K))) (order : list nat) (snapshot : SN)
  (c : Committer HV SN DB ES SG LDB) (vs : list (Version * list (LeafNode HV K))) (e : StaleNodeIndex) (p : StateMerklePruner)
  (self : StateMerkleDb DB) (m : StateMerklePrunerManager) (saved : bool).

(** A run of the pruner that returns after a round with shard [i]: the progress is saved. *)
Definition saves p (r : outcome Version) : bool :=
  is_ok r && (smp_progress p <? smp_target_version p) && (smp_next_version p <=? smp_target_version p) && bool_decide (i ∈ shard_pruners p).

(** A start over the databases; one that fails leaves them to the next. *)
Definition restarted c self (r : outcome (StateMerklePrunerManager * StateMerklePrunerManager)) : Committer HV SN DB ES SG LDB :=
  let st := state_db c in
  set_state_db
    (match r with
     | Ok (m1, m2) => mkStateDb (ledger_db st) self m1 m2
     | _ => mkStateDb (ledger_db st) self (state_merkle_pruner st) (epoch_snapshot_pruner st)
     end) c.

(** What the node does from [c0] on: the ledger is written, snapshots are committed and
    the pruners of both indices run, with any outcome; and, once the pruner of the index
    saved its progress, the node is started again and its managers are made anew.  (What
    else a start does to the tree, going back to the progress of the ledger, removes
    versions that are newer than that, and is not a step here.) *)
Inductive node_goes_on (c0 : Committer HV SN DB ES SG LDB) (vs0 : list (Version * list (LeafNode HV K)))
  : bool -> Committer HV SN DB ES SG LDB -> list (Version * list (LeafNode HV K)) -> Prop :=
| goes_on_here : node_goes_on c0 vs0 false c0 vs0
| goes_on_ledger saved c vs ledger : node_goes_on c0 vs0 saved c vs -> node_goes_on c0 vs0 saved (with_ledger c ledger) vs
| goes_on_commit saved c vs snapshot order kvs version c' :
    let lvs := default [] (snd <$> list.last vs) in
    node_goes_on c0 vs0 saved c vs -> sn_version snapshot = Some version -> u64_ok version ->
    (forall v, fst <$> list.last vs = Some v -> v < version) -> Z.of_nat (length lvs + length kvs) < U64 ->
    snapshot_delta version lvs (last_snapshot c) snapshot kvs -> order ≡ₚ seq 0 16 ->
    commit_snapshot rl order snapshot c = (c', Ok tt) ->
    node_goes_on c0 vs0 saved c' (vs ++ [(version, update_all version lvs kvs)])
| goes_on_prune saved c vs s p w' r :
    node_goes_on c0 vs0 saved c vs -> pruner_worker (manager_of (state_db c) s) = Some p ->
    smp_prune s (state_merkle_db (state_db c), p) = (w', r) ->
    node_goes_on c0 vs0 (saved || bool_decide (s = sch) && saves p r) (with_pruned c s w') vs
| goes_on_restart c vs config self r :
    node_goes_on c0 vs0 true c vs -> 0 <= state_merkle_prune_window config -> 0 <= epoch_snapshot_prune_window config ->
    new_managers config (state_merkle_db (state_db c)) = (self, r) ->
    node_goes_on c0 vs0 true (restarted c self r) vs.

(** The manager of the index: its pruner is past the entry. *)
Definition manager_past e m : Prop := 0 <= prune_window m /\ forall p, pruner_worker m = Some p -> passed e p.

Record goes_inv e saved c vs td : Prop := {
  go_reach : db_reachable td;
  go_stores : stores (state_merkle_db (state_db c)) td;
  go_last : sn_version (last_snapshot c) = last_version td;
  go_versions : td_versions td = vs;
  go_kept : kept_entry sch i e saved saved (state_merkle_db (state_db c));
  go_manager : manager_past e (manager_of (state_db c) sch);
}.

Lemma kept_stale e sh md self td : stores self td -> kept_entry sch i e sh md self -> e ∈ td_stale td.
Proof. intros Hh Hk. destruct (ke_shard _ _ _ _ _ _ Hk) as (db & Hdb & (He & _) & _). apply (so_stale _ _ _ Hh). by exists (slot self (Some i)), db, sch. Qed.

(** A new target is not before the progress. *)
Lemma manager_past_set e m m' version : u64_ok version -> manager_past e m -> maybe_set_pruner_target_db_version version m = Ok m' -> manager_past e m'.
Proof.
  intros Hu [Hw Hp] E. unfold maybe_set_pruner_target_db_version in E. destruct (pruner_worker m) as [p|] eqn:Ep; [|injection E as <-; split; [done|by rewrite Ep]].
  apply bind_Ok in E as (bound & _ & E). destruct (bound <=? version); [|injection E as <-; split; [done|by rewrite Ep]].
  unfold set_pruner_target_db_version in E. rewrite Ep in E. cbn [expect] in E. rewrite obind_Ok in E. injection E as <-.
  split; [done|]. cbn [pruner_worker]. intros p' Ep'. injection Ep' as <-. destruct (Hp p eq_refl) as (H1' & H2' & H3').
  unfold set_target_db_version. destruct (smp_target_version p <? _); [|done]. split_and!; [done|done|]. cbn. unfold u64_ok in *. lia.
Qed.

Lemma goes_commit e saved c vs td snapshot order kvs version c' : (forall (db : DB) k, is_ok (db_get_node db k) = true) ->
  let lvs := default [] (snd <$> list.last vs) in
  goes_inv e saved c vs td -> sn_version snapshot = Some version -> u64_ok version ->
  (forall v, fst <$> list.last vs = Some v -> v < version) -> Z.of_nat (length lvs + length kvs) < U64 ->
  snapshot_delta version lvs (last_snapshot c) snapshot kvs -> order ≡ₚ seq 0 16 -> commit_snapshot rl order snapshot c = (c', Ok tt) ->
  exists td', goes_inv e saved c' (vs ++ [(version, update_all version lvs kvs)]) td'.
Proof.
  intros Hget lvs [Hr Hst Hlast <- Hk Hman] Ev Hu Hlt Hb Hdelta Ho E. subst lvs. fold (latest td) (last_version td) in *.
  assert (Hnext : next_version td <= version) by (apply next_version_le; [unfold u64_ok in Hu; lia|done]).
  apply commit_snapshot_inv in E as (batch & version' & db & m1 & m2 & Em & Ev' & Ec & E1 & E2 & -> & _).
  destruct (merklize_snapshot_inv _ _ _ _ _ _ Em Ev) as ((previous & Ep) & l & El). rewrite Hlast in El.
  destruct (merklize_snapshot_made rl td (state_db c) (last_snapshot c) snapshot kvs version previous l Hget Hr Hst Hu Hnext Hb Ev Hlast Hdelta Ep El)
    as (pvs & caches & b & pts & n & Hnb & Hstep & Em'). rewrite Em in Em'. destruct (decide _) as [_|]; [|done]. injection Em' as ->.
  cbn [smb_snapshot top_levels_batch batches_for_shards] in *. assert (version' = version) as -> by congruence.
  assert (Hnd : NoDup order) by (rewrite Ho; apply NoDup_seq).
  destruct (commit_run rl _ td kvs version pvs caches _ b pts n order Hst Hnb Hnd) as (db1 & r1 & nb & sb & Ec1 & _ & _ & Hst' & _).
  rewrite Ec in Ec1. injection Ec1 as <- <-. specialize (Hst' Ho eq_refl).
  assert (Hr' : db_reachable (put_db td version kvs b)) by (by eapply reach_step).
  exists (put_db td version kvs b). destruct (last_version_put td version kvs b) as (Elast & _ & _).
  split; [done|done|by rewrite Elast|done| |].
  - eapply commit_kept; [exact Hr'|by eapply kept_stale|exact Hnb|exact Hk|exact Ec].
  - destruct sch; [by eapply (manager_past_set e (state_merkle_pruner (state_db c)))|by eapply (manager_past_set e (epoch_snapshot_pruner (state_db c)))].
Qed.

Lemma kept_weaken e sh md self : kept_entry sch i e sh md self -> kept_entry sch i e false false self.
Proof. intros [? ? (db & Hdb & He & _) _]. split; [done|done|by exists db|done]. Qed.

Lemma goes_prune e saved c vs td s p w' r : goes_inv e saved c vs td -> pruner_worker (manager_of (state_db c) s) = Some p ->
  smp_prune s (state_merkle_db (state_db c), p) = (w', r) ->
  exists td', goes_inv e (saved || bool_decide (s = sch) && saves p r) (with_pruned c s w') vs td'.
Proof.
  intros [Hr Hst Hlast <- Hk Hman] Ep E. destruct (smp_prune_safe s (_, p) td w' r Hr Hst E) as (td' & Hd & Hst').
  pose proof Hd as (Hr' & Hv & _). exists td'.
  assert (El : last_version td' = last_version td) by (unfold last_version; by rewrite Hv).
  assert (Hp : s = sch -> passed e p) by (intros ->; by apply Hman).
  destruct w' as [self' p']. destruct (prune_kept sch i e s saved saved _ _ _ _ _ Hp Hk E) as [Hk' Hp'].
  split; [done|by destruct s|by rewrite El; destruct s|done| |].
  - replace (state_merkle_db (state_db (with_pruned c s (self', p')))) with self' by (by destruct s).
    destruct saved; [done|]. cbn [orb]. destruct (bool_decide (s = sch)) eqn:Es; [|done]. apply bool_decide_eq_true in Es as ->.
    destruct (saves p r) eqn:Esv; [|done]. unfold saves in Esv. rewrite !andb_true_iff in Esv. destruct Esv as [[[Eok Elt] Ele] Ein].
    destruct r as [v| |]; [|done..]. apply (prune_saves sch i e _ p (self', p') v (Hp eq_refl) Hk); [|lia|lia|done]. by apply bool_decide_eq_true in Ein.
  - destruct Hman as [Hw Hm]. destruct s, sch; cbn [with_pruned set_state_db state_db manager_of with_worker state_merkle_pruner epoch_snapshot_pruner] in *;
      (split; [done|]); try done; intros q Eq; injection Eq as <-; by apply Hp'.
Qed.

(** *** A start of the node *)
Lemma new_manager_goes e s (enable : bool) window self td self' r : 0 <= i -> 0 <= window -> db_reachable td -> stores self td ->
  kept_entry sch i e true true self -> StateMerklePrunerManager_new s enable window self = (self', r) ->
  exists td', db_reachable td' /\ td_versions td' = td_versions td /\ stores self' td' /\ kept_entry sch i e true true self' /\
    forall m, s = sch -> r = Ok m -> manager_past e m.
Proof.
  intros Hi Hw Hr Hst Hk E. unfold StateMerklePrunerManager_new in E.
  assert (Hnew : forall self1 r1, StateMerklePruner_new s self = (self1, r1) ->
    exists td', db_reachable td' /\ td_versions td' = td_versions td /\ stores self1 td' /\ kept_entry sch i e true true self1 /\
      forall p, s = sch -> r1 = Ok p -> passed e p).
  { intros self1 r1 E1. destruct (smp_new_safe s self td self1 r1 Hr Hst E1) as (m & td' & (Hr' & Hv & _) & Hst' & _).
    exists td'. split; [done|]. split; [done|]. split; [done|]. by eapply new_pruner_kept. }
  assert (H1' : forall self1 r1, (if enable then p <~ pexpect (StateMerklePruner_new s) "Failed to create state merkle pruner."; pret (Some p) else pret None) self = (self1, r1) ->
    exists td', db_reachable td' /\ td_versions td' = td_versions td /\ stores self1 td' /\ kept_entry sch i e true true self1 /\
      forall p, s = sch -> r1 = Ok (Some p) -> passed e p).
  { intros self1 r1 E1. destruct enable; [|injection E1 as <- <-; by exists td]. unfold pbind, pexpect in E1.
    destruct (StateMerklePruner_new s self) as [self2 r2] eqn:E2. destruct (Hnew _ _ eq_refl) as (td' & Hr' & Hv' & Hst' & Hk' & Hp').
    exists td'. destruct r2 as [p2| |]; injection E1 as <- <-; (split_and!; [done..|]); intros p Es Ep; [|done..]. injection Ep as <-. by apply Hp'. }
  apply pbind_inv in E as [(self1 & o & E1 & E)|[(err & E1 & ->)|(err & E1 & ->)]]; destruct (H1' _ _ E1) as (td' & Hr' & Hv' & Hst' & Hk' & Hp');
    exists td'; [|by split_and!..].
  apply pbind_inv in E as [(self2 & v & E2 & E)|[(err & E2 & ->)|(err & E2 & ->)]]; injection E2 as <- _; [|by split_and!..].
  injection E as <- <-. split_and!; [done..|]. intros m Es Em. injection Em as <-. split; [done|]. intros p Ep. cbn in Ep. subst o. by apply Hp'.
Qed.

Lemma goes_restart e c vs td config self r : 0 <= i -> goes_inv e true c vs td ->
  0 <= state_merkle_prune_window config -> 0 <= epoch_snapshot_prune_window config ->
  new_managers config (state_merkle_db (state_db c)) = (self, r) -> exists td', goes_inv e true (restarted c self r) vs td'.
Proof.
  intros Hi [Hr Hst Hlast <- Hk Hman] Hw1 Hw2 E. unfold new_managers in E.
  assert (Hfail : forall self1 td1, db_reachable td1 -> td_versions td1 = td_versions td -> stores self1 td1 -> kept_entry sch i e true true self1 ->
    forall r1, is_ok r1 = false -> goes_inv e true (restarted c self1 r1) (td_versions td) td1).
  { intros self1 td1 Hr1 Hv1 Hst1 Hk1 r1 Hno. assert (El : last_version td1 = last_version td) by (unfold last_version; by rewrite Hv1).
    destruct r1 as [[]| |]; [done|..]; (split; [done|done|by rewrite El|done|done|by destruct sch]). }
  apply pbind_inv in E as [(self1 & m1 & E1 & E)|[(err & E1 & ->)|(err & E1 & ->)]];
    destruct (new_manager_goes e _ _ _ _ td _ _ Hi Hw1 Hr Hst Hk E1) as (td1 & Hr1 & Hv1 & Hst1 & Hk1 & Hm1); [|by exists td1; apply Hfail..].
  apply pbind_inv in E as [(self2 & m2 & E2 & E)|[(err & E2 & ->)|(err & E2 & ->)]];
    destruct (new_manager_goes e _ _ _ _ td1 _ _ Hi Hw2 Hr1 Hst1 Hk1 E2) as (td2 & Hr2 & Hv2 & Hst2 & Hk2 & Hm2); rewrite Hv1 in Hv2;
    [|by exists td2; apply Hfail..].
  injection E as <- <-. exists td2. assert (El : last_version td2 = last_version td) by (unfold last_version; by rewrite Hv2).
  split; [done|done|by rewrite El|done|done|]. destruct sch; [by apply Hm1|by apply Hm2].
Qed.

Lemma goes_on_inv e c0 vs0 saved c vs : (forall (db : DB) k, is_ok (db_get_node db k) = true) -> 0 <= i ->
  (exists td, goes_inv e false c0 vs0 td) -> node_goes_on c0 vs0 saved c vs -> exists td, goes_inv e saved c vs td.
Proof.
  intros Hget Hi H0' Hgo. induction Hgo as [|saved c vs ledger _ [td IH]|saved c vs snapshot order kvs version c' lvs _ [td IH]|
    saved c vs s p w' r _ [td IH] Ep E|c vs config self r _ [td IH] Hw1 Hw2 E].
  - done.
  - exists td. by destruct IH.
  - by eapply goes_commit.
  - by eapply goes_prune.
  - by eapply goes_restart.
Qed.

(** The entry before it is passed over. *)
Lemma node_kept c vs p e db n : (forall (db : DB) k, is_ok (db_get_node db k) = true) -> node_run rl c vs ->
  pruner_worker (manager_of (state_db c) sch) = Some p -> enable_sharding (state_merkle_db (state_db c)) = true ->
  smdb_dbs (state_merkle_db (state_db c)) !! S (Z.to_nat i) = Some db -> e ∈ dv_stale (view db) sch ->
  dv_node (view db) (stale_node_key e) = Some n -> stale_since_version e < smp_target_version p ->
  exists td, goes_inv e false (with_pruned c sch (state_merkle_db (state_db c), record_progress (smp_target_version p) p)) vs td.
Proof.
  intros Hget Hrun Ep Hsh Hdb He Hn Hlt. destruct (node_run_inv rl c vs Hget Hrun) as (td & Hi & <-).
  pose proof Hi as [Hr Hst Hlast Hu Hman _ _ _ _]. destruct (Hman sch) as [[Hw _] Hmin Hwk]. destruct (Hwk p Ep) as [Ht _].
  exists td. split; [done|by destruct sch|by destruct sch|done| |].
  - replace (state_merkle_db (state_db (with_pruned _ _ _))) with (state_merkle_db (state_db c)) by (by destruct sch).
    split; [done|intros j1 db1 Hj1; by eapply stores_ok| |done]. exists db. split; [unfold slot; by rewrite Hsh|]. split; [|done].
    split; [done|]. split; [by exists n|]. intros s f Hf Ek.
    assert (Hin : forall g s', g ∈ dv_stale (view db) s' -> g ∈ td_stale td) by (intros g s' Hg; apply (so_stale _ _ _ Hst); by eexists _, db, s').
    assert (f = e) as -> by (by eapply reachable_unique; [exact Hr|by eapply Hin|by eapply Hin|]).
    split; [|done]. by eapply (so_once _ _ _ Hst).
  - assert (Hpast : passed e (record_progress (smp_target_version p) p)) by (unfold u64_ok in *; split_and!; unfold u64_ok; cbn; lia).
    destruct sch; (split; [done|]); intros q Eq; by injection Eq as <-.
Qed.

End PassedOver.

Section LaggingPruner.
#[local] Existing Instances ref_byteorder ref_byteorder_laws memory_db memory_db_laws toy_state_snapshot toy_state_hash.

Abbreviation toy_rl := (fun _ : Version => Ok (@None (NodeKey * LeafNode bytes32 Z))).

(** *** Runs of a node over databases in memory *)
Abbreviation toy_node := (Committer bytes32 toy_snapshot (db_view bytes32 Z) unit unit (memory_ledger bytes32 unit unit)).
Abbreviation toy_versions := (list (Version * list (LeafNode bytes32 Z))).
Implicit Types (x : toy_node * toy_versions).

Inductive toy_event :=
| ToyCommit (version : Version) (usage : StateStorageUsage) (delta : list (Z * StateUpdate Z))
| ToyEpoch (li : LedgerInfoWithSignatures bytes32 unit unit)
| ToyPrune (s : StaleSchema).

Definition toy_latest (vs : toy_versions) : list (LeafNode bytes32 Z) := default [] (snd <$> list.last vs).
Definition toy_snap (vs : toy_versions) (version : Version) (usage : StateStorageUsage) (delta : list (Z * StateUpdate Z)) : toy_snapshot :=
  let L := update_all version (toy_latest vs) (toy_jmt delta) in mkToySnapshot (version + 1) usage (smt_root (sl L)) delta L.
Definition toy_worker (c : toy_node) (s : StaleSchema) : StateMerklePruner := default (toy_pruner 0) (pruner_worker (manager_of (state_db c) s)).

Definition toy_do x (ev : toy_event) : toy_node * toy_versions :=
  let '(c, vs) := x in
  match ev with
  | ToyCommit version usage delta =>
      (fst (commit_snapshot toy_rl toy_order (toy_snap vs version usage delta) c), vs ++ [(version, update_all version (toy_latest vs) (toy_jmt delta))])
  | ToyEpoch li => (with_ledger c (fst (lmd_write_schemas (put_ledger_info li) (ledger_db (state_db c)))), vs)
  | ToyPrune s => (with_pruned c s (fst (smp_prune s (state_merkle_db (state_db c), toy_worker c s))), vs)
  end.

(** The premises of a step, as a check. *)
Definition toy_allowed x (ev : toy_event) : bool :=
  let '(c, vs) := x in
  let before (v : Z) := match list.last vs with Some w => fst w <? v | None => true end in
  match ev with
  | ToyCommit version usage delta =>
      let sn := toy_snap vs version usage delta in
      bool_decide (sn_version sn = Some version) && (0 <=? version) && (version <? 1000) && before version &&
      (Z.of_nat (length (toy_latest vs) + length (toy_jmt delta)) <? U64) && toy_shallow (tn_leaves sn) &&
      is_ok (snd (commit_snapshot toy_rl toy_order sn c))
  | ToyEpoch li => before (LedgerInfo_version (ledger_info li) + 1)
  | ToyPrune s => is_pruner_enabled (manager_of (state_db c) s)
  end.

Fixpoint toy_run x (evs : list toy_event) : toy_node * toy_versions :=
  match evs with
  | [] => x
  | ev :: evs => toy_run (toy_do x ev) evs
  end.

(** All steps are allowed, and then [k] holds. *)
Fixpoint toy_run_allowed x (evs : list toy_event) (k : toy_node * toy_versions -> bool) : bool :=
  match evs with
  | [] => k x
  | ev :: evs => toy_allowed x ev && toy_run_allowed (toy_do x ev) evs k
  end.

Lemma toy_before (vs : toy_versions) v w : match list.last vs with Some w => fst w <? v | None => true end = true -> fst <$> list.last vs = Some w -> w < v.
Proof. destruct (list.last vs) as [[u l]|]; [|done]. intros Hlt E. injection E as <-. by apply Z.ltb_lt in Hlt. Qed.

(** What the check of a commit gives. *)
Lemma toy_commit_run (c : toy_node) vs version usage delta : toy_allowed (c, vs) (ToyCommit version usage delta) = true ->
  let sn := toy_snap vs version usage delta in
  commit_snapshot toy_rl toy_order sn c = (fst (commit_snapshot toy_rl toy_order sn c), Ok tt) /\
  sn_version sn = Some version /\ u64_ok version /\ (forall v, fst <$> list.last vs = Some v -> v < version) /\
  Z.of_nat (length (toy_latest vs) + length (toy_jmt delta)) < U64 /\ snapshot_delta version (toy_latest vs) (last_snapshot c) sn (toy_jmt delta).
Proof.
  unfold toy_allowed. cbv zeta. set (sn := toy_snap _ _ _ _). rewrite !andb_true_iff. intros ((((((H1 & H2) & H3) & H4) & H5) & H6) & H7). split_and!.
  - rewrite (surjective_pairing (commit_snapshot toy_rl toy_order sn c)) at 1. by destruct (snd _) as [[]| |].
  - by apply bool_decide_eq_true in H1.
  - unfold u64_ok, U64. lia.
  - intros v. by apply toy_before.
  - by apply Z.ltb_lt in H5.
  - by apply (toy_delta_ok version (toy_latest vs) (last_snapshot c) sn).
Qed.

Lemma toy_do_run x ev : node_run toy_rl (fst x) (snd x) -> toy_allowed x ev = true -> node_run toy_rl (fst (toy_do x ev)) (snd (toy_do x ev)).
Proof.
  destruct x as [c vs]. intros Hrun Hok. destruct ev as [version usage delta|li|s].
  - destruct (toy_commit_run c vs version usage delta Hok) as (E & Ev & Hu & Hlt & Hb & Hd). exact (node_commit toy_rl c vs _ toy_order _ _ _ Hrun Ev Hu Hlt Hb Hd toy_order_all E).
  - refine (node_ledger_info toy_rl c vs li _ _ Hrun _ (surjective_pairing _)). intros v E. pose proof (toy_before vs _ v Hok E). lia.
  - refine (node_prune toy_rl c vs s _ _ _ Hrun _ (surjective_pairing _)). cbn [toy_allowed] in Hok. unfold is_pruner_enabled in Hok. unfold toy_worker.
    by destruct (pruner_worker _).
Qed.

Lemma toy_run_run evs k : forall x, node_run toy_rl (fst x) (snd x) -> toy_run_allowed x evs k = true ->
  node_run toy_rl (fst (toy_run x evs)) (snd (toy_run x evs)) /\ k (toy_run x evs) = true.
Proof.
  induction evs as [|ev evs IH]; intros x Hrun Hok; [done|]. cbn [toy_run_allowed] in Hok. apply andb_true_iff in Hok as [Hok1 Hok2].
  apply IH; [by apply toy_do_run|done].
Qed.

(** Versions 5, 6 and 9, of which 5 ends an epoch. *)
Definition toy_delta6 : list (Z * StateUpdate Z) := [toy_put 17 3 6].
Definition toy_delta9 : list (Z * StateUpdate Z) := [toy_put 17 4 9].
Definition toy_leaves6 : list (LeafNode bytes32 Z) := update_all 6 toy_leaves1 (toy_jmt toy_delta6).
Definition toy_leaves9 : list (LeafNode bytes32 Z) := update_all 9 toy_leaves6 (toy_jmt toy_delta9).
Definition toy_sn6 : toy_snapshot := mkToySnapshot 7 Untracked (smt_root (sl toy_leaves6)) toy_delta6 toy_leaves6.
Definition toy_sn9 : toy_snapshot := mkToySnapshot 10 Untracked (smt_root (sl toy_leaves9)) toy_delta9 toy_leaves9.

Definition toy_ledger_db3 : LedgerMetadataDb bytes32 unit unit (memory_ledger bytes32 unit unit) :=
  mkLedgerMetadataDb (mkMemoryLedger ∅ ∅ (<[5 := mkVersionData 2 20]> (<[6 := mkVersionData 2 20]> (<[9 := mkVersionData 2 20]> ∅)))) None.

(** The state pruner keeps one more version, the epoch snapshot pruner two. *)
Definition toy_config : PrunerConfig := mkPrunerConfig true 1 true 2.
Definition toy_p0 : Committer bytes32 toy_snapshot (db_view bytes32 Z) unit unit (memory_ledger bytes32 unit unit) :=
  mkCommitter (mkStateDb toy_ledger_db3 toy_fresh (toy_manager 1) (toy_manager 2)) toy_sn0 toy_sn0.
Definition toy_p1 := fst (commit_snapshot toy_rl toy_order toy_sn1 toy_p0).
Definition toy_p2 := with_ledger toy_p1 (fst (lmd_write_schemas (put_ledger_info (toy_ledger_info 0 5)) (ledger_db (state_db toy_p1)))).
Definition toy_p3 := fst (commit_snapshot toy_rl toy_order toy_sn6 toy_p2).
Definition toy_p4 := fst (commit_snapshot toy_rl toy_order toy_sn9 toy_p3).

(** The epoch snapshot pruner runs, the state pruner does not get to it. *)
Definition toy_epoch_worker : StateMerklePruner := default (toy_pruner 0) (pruner_worker (epoch_snapshot_pruner (state_db toy_p4))).
Definition toy_p5 := with_pruned toy_p4 StaleNodeIndexCrossEpochSchema
  (fst (smp_prune StaleNodeIndexCrossEpochSchema (state_merkle_db (state_db toy_p4), toy_epoch_worker))).

(** The managers of the next start, over the same databases. *)
Definition toy_managers : StateMerkleDb (db_view bytes32 Z) * outcome (StateMerklePrunerManager * StateMerklePrunerManager) :=
  new_managers (HV := bytes32) (K := Z) toy_config (state_merkle_db (state_db toy_p5)).
Definition toy_restarted : StateDb bytes32 (db_view bytes32 Z) unit unit (memory_ledger bytes32 unit unit) :=
  mkStateDb (ledger_db (state_db toy_p5)) (fst toy_managers)
    (fst (result_of (toy_manager 0, toy_manager 0) (snd toy_managers))) (snd (result_of (toy_manager 0, toy_manager 0) (snd toy_managers))).

Lemma toy_p_start : node_run toy_rl toy_p0 [].
Proof.
  assert (Hm : forall w, 0 <= w < 1000 -> fresh_manager (toy_manager w)).
  { intros w Hw. split_and!; [unfold u64_ok, U64; cbn; lia|done|]. intros p [= <-]. done. }
  constructor; [exact toy_fresh_db|apply Hm; lia|apply Hm; lia|intros _; split; [done|cbn; lia]|done].
Qed.

Lemma toy_p_run : node_run toy_rl toy_p5 [(5, toy_leaves1); (6, toy_leaves6); (9, toy_leaves9)].
Proof.
  refine (proj1 (toy_run_run [ToyCommit 5 (Tracked 2 20) toy_delta1; ToyEpoch (toy_ledger_info 0 5); ToyCommit 6 Untracked toy_delta6;
      ToyCommit 9 Untracked toy_delta9; ToyPrune StaleNodeIndexCrossEpochSchema] (fun _ => true) (toy_p0, []) toy_p_start _)).
  vm_compute. reflexivity.
Qed.

(** C36: A node can let through a version that is pruned, after a restart.  Here is a run
    over databases that do not fail, of which version 5 ends an epoch, in which the epoch
    snapshot pruner has caught up and the state pruner has not.  The node refuses to read
    version 5, out of both windows.  The managers of the next start take what the
    progress of their pruners is for the first version that can be read; that of the
    state pruner lets version 5 through, whose root is gone. *)
Theorem restart_lets_pruned_through :
  node_run toy_rl toy_p5 [(5, toy_leaves1); (6, toy_leaves6); (9, toy_leaves9)] /\
  is_ok (error_if_state_merkle_pruned (state_db toy_p5) 5) = false /\
  is_ok (snd toy_managers) = true /\
  error_if_state_merkle_pruned toy_restarted 5 = Ok tt /\
  get_with_proof (smdb_reader toy_rl (state_merkle_db toy_restarted)) (toy_key 17) 5 = Err "MissingRootError".
Proof.
  split; [exact toy_p_run|]. split; [vm_compute; reflexivity|]. split; [vm_compute; reflexivity|].
  split; [vm_compute; reflexivity|]. vm_compute. reflexivity.
Qed.

(** *** An entry that is passed over

    Versions 5 and 7 end epochs.  The leaf of key 18, of version 5, is replaced in version
    7, and goes to the index of the epoch snapshots; the root, of version 6, does not. *)
Definition toy_ledger_db4 : LedgerMetadataDb bytes32 unit unit (memory_ledger bytes32 unit unit) :=
  mkLedgerMetadataDb (mkMemoryLedger ∅ ∅ (list_to_map (map (fun v => (v, mkVersionData 3 30)) [5; 6; 7; 9; 11; 12]))) None.
Definition toy_q0 : toy_node := mkCommitter (mkStateDb toy_ledger_db4 toy_fresh (toy_manager 1) (toy_manager 3)) toy_sn0 toy_sn0.
Definition toy_events : list toy_event :=
  [ToyCommit 5 Untracked [toy_put 17 1 5; toy_put 18 2 5; toy_put 200 2 5]; ToyEpoch (toy_ledger_info 0 5);
   ToyCommit 6 Untracked [toy_put 17 3 6]; ToyCommit 7 Untracked [toy_put 18 4 7]; ToyEpoch (toy_ledger_info 1 7);
   ToyCommit 9 Untracked [toy_put 17 5 9]; ToyPrune StaleNodeIndexCrossEpochSchema; ToyCommit 11 Untracked [toy_put 17 6 11]].
Definition toy_q11 := toy_run (toy_q0, []) toy_events.
Definition toy_passed : StaleNodeIndex := mkStaleNodeIndex 7 (mkNodeKey 5 (pack [1; 2])).

(** What the theorem asks for of the pruner and of shard 1. *)
Definition toy_passes (c : toy_node) : bool :=
  let p := toy_worker c StaleNodeIndexCrossEpochSchema in
  is_pruner_enabled (epoch_snapshot_pruner (state_db c)) && enable_sharding (state_merkle_db (state_db c)) &&
  (smp_progress p <? smp_target_version p) && (smp_target_version p <? smp_next_version p) && (7 <? smp_target_version p) &&
  match smdb_dbs (state_merkle_db (state_db c)) !! 2%nat with
  | Some db => bool_decide (toy_passed ∈ dv_stale db StaleNodeIndexCrossEpochSchema) && bool_decide (is_Some (dv_node db (stale_node_key toy_passed)))
  | None => false
  end.

(** Then the pruner runs, and once more after the next commit, which saves its progress;
    and the node is started again. *)
Definition toy_q11_pruned := toy_do toy_q11 (ToyPrune StaleNodeIndexCrossEpochSchema).
Definition toy_commit12 : toy_event := ToyCommit 12 Untracked [toy_put 17 7 12].
Definition toy_q12 := toy_do toy_q11_pruned toy_commit12.
Definition toy_q12_pruned := toy_do toy_q12 (ToyPrune StaleNodeIndexCrossEpochSchema).
Definition toy_config3 : PrunerConfig := mkPrunerConfig true 1 true 3.

Definition toy_saves (c : toy_node) : bool :=
  let p := toy_worker c StaleNodeIndexCrossEpochSchema in
  let '(w, r) := smp_prune StaleNodeIndexCrossEpochSchema (state_merkle_db (state_db c), p) in
  is_pruner_enabled (epoch_snapshot_pruner (state_db c)) && saves 1 p r && is_ok (snd (new_managers (HV := bytes32) (K := Z) toy_config3 (fst w))).

Lemma toy_q0_start : node_run toy_rl toy_q0 [].
Proof.
  assert (Hm : forall w, 0 <= w < 1000 -> fresh_manager (toy_manager w)).
  { intros w Hw. split_and!; [unfold u64_ok, U64; cbn; lia|done|]. intros p [= <-]. done. }
  constructor; [exact toy_fresh_db|apply Hm; lia|apply Hm; lia|intros _; split; [done|cbn; lia]|done].
Qed.

Lemma toy_q_ok : toy_run_allowed (toy_q0, []) toy_events (fun x => toy_passes (fst x) &&
  toy_run_allowed (toy_do x (ToyPrune StaleNodeIndexCrossEpochSchema)) [toy_commit12] (fun y => toy_saves (fst y))) = true.
Proof. vm_compute. reflexivity. Qed.

Lemma toy_worker_some (c : toy_node) s : is_pruner_enabled (manager_of (state_db c) s) = true -> pruner_worker (manager_of (state_db c) s) = Some (toy_worker c s).
Proof. unfold is_pruner_enabled, toy_worker. by destruct (pruner_worker _). Qed.

Lemma toy_q_facts : node_run toy_rl (fst toy_q11) (snd toy_q11) /\ toy_passes (fst toy_q11) = true /\
  toy_allowed toy_q11_pruned toy_commit12 = true /\ toy_saves (fst toy_q12) = true.
Proof.
  destruct (toy_run_run _ _ (toy_q0, []) toy_q0_start toy_q_ok) as [Hrun Hk]. fold toy_q11 in Hrun, Hk. apply andb_true_iff in Hk as [Hp Hk].
  cbn [toy_run_allowed] in Hk. apply andb_true_iff in Hk as [Hc Hs].
  split; [exact Hrun|]. split; [exact Hp|]. split; [exact Hc|exact Hs].
Qed.

#[local] Opaque toy_q11 toy_q12.

(** The history of the theorem, up to a start of the node. *)
Lemma toy_goes_on : toy_saves (fst toy_q12) = true -> toy_allowed toy_q11_pruned toy_commit12 = true ->
  exists self managers, new_managers (HV := bytes32) (K := Z) toy_config3 (state_merkle_db (state_db (fst toy_q12_pruned))) = (self, Ok managers) /\
    node_goes_on toy_rl StaleNodeIndexCrossEpochSchema 1 (fst toy_q11_pruned) (snd toy_q11_pruned) true (restarted (fst toy_q12_pruned) self (Ok managers)) (snd toy_q12_pruned).
Proof.
  intros Hsv Hc. assert (Hgo : node_goes_on toy_rl StaleNodeIndexCrossEpochSchema 1 (fst toy_q11_pruned) (snd toy_q11_pruned) false (fst toy_q12) (snd toy_q12)).
  { change toy_q12 with (toy_do toy_q11_pruned toy_commit12). destruct toy_q11_pruned as [c vs]. destruct (toy_commit_run c vs 12 Untracked [toy_put 17 7 12] Hc) as (E & Ev & Hu & Hlt & Hb & Hd).
    exact (goes_on_commit _ _ _ c vs false c vs _ toy_order _ _ _ (goes_on_here _ _ _ c vs) Ev Hu Hlt Hb Hd toy_order_all E). }
  unfold toy_saves in Hsv. unfold toy_q12_pruned. destruct toy_q12 as [c vs]. cbn [fst snd toy_do] in *.
  destruct (smp_prune _ _) as [w r] eqn:E. rewrite !andb_true_iff in Hsv. destruct Hsv as [[Hen Hsv] Hm]. cbn [fst].
  pose proof (goes_on_prune _ _ _ _ _ false c vs _ _ w r Hgo (toy_worker_some c StaleNodeIndexCrossEpochSchema Hen) E) as Hgo2.
  rewrite Hsv in Hgo2. change (node_goes_on toy_rl StaleNodeIndexCrossEpochSchema 1 (fst toy_q11_pruned) (snd toy_q11_pruned) true
    (with_pruned c StaleNodeIndexCrossEpochSchema w) vs) in Hgo2.
  cbn [with_pruned set_state_db state_db state_merkle_db]. destruct (new_managers toy_config3 (fst w)) as [self [managers| |]] eqn:Em; [|discriminate Hm..].
  exists self, managers. split; [done|]. eapply goes_on_restart; [exact Hgo2| | |exact Em]; cbn; lia.
Qed.

End LaggingPruner.
