(* ===== verification/MessageQueue.v ===== *)
(** * Per-key message queues

    Model of [crates/channel/src/message_queues.rs]: bounded queues of messages per
    key, served in a round-robin fashion among the keys. *)
From stdpp Require Import base list numbers strings option gmap sets.
From Stdlib Require Import ZArith Lia Bool.
From S2P Require Import Prelude.

Definition POPS_PER_GC : Z := 50.

Inductive QueueStyle := FIFO | LIFO | KLAST.

#[export] Instance QueueStyle_eq_dec : EqDecision QueueStyle.
Proof. solve_decision. Defined.

Section PerKeyQueue.
Context {K : Type} `{Countable K} {T : Type}.

(** [counters] is the list of labels that were counted, when there are counters. *)
Record PerKeyQueue := mkPerKeyQueue {
  queue_style : QueueStyle;
  per_key_queue : gmap K (list T);
  round_robin_queue : list K;
  max_queue_size : Z;
  num_popped_since_gc : Z;
  counters : option (list string);
}.

Definition PerKeyQueue_new (style : QueueStyle) (max_queue_size_per_key : Z)
    (counters : option (list string)) : PerKeyQueue :=
  mkPerKeyQueue style ∅ [] max_queue_size_per_key 0 counters.

(** [c.with_label_values(&[label]).inc()] *)
Definition count (c : option (list string)) (label : string) : option (list string) :=
  option_map (fun labels => labels ++ [label]) c.

(** [pop_front], [pop_back] *)
Definition pop_front {A} (q : list A) : option A * list A :=
  match q with [] => (None, []) | x :: q => (Some x, q) end.
Definition pop_back {A} (q : list A) : option A * list A := (list.last q, removelast q).
Definition is_empty {A} (q : list A) : bool := match q with [] => true | _ => false end.

Definition pop_from_key_queue (self : PerKeyQueue) (key : K) : (option T * bool) * PerKeyQueue :=
  match per_key_queue self !! key with
  | Some q =>
      let '(retval, q) :=
        match queue_style self with
        | FIFO | KLAST => pop_front q
        | LIFO => pop_back q
        end in
      ((retval, is_empty q),
       mkPerKeyQueue (queue_style self) (<[key := q]> (per_key_queue self)) (round_robin_queue self)
         (max_queue_size self) (num_popped_since_gc self) (counters self))
  | None => ((None, true), self)
  end.

(** The message that was dropped, if any. *)
Definition PerKeyQueue_push (self : PerKeyQueue) (key : K) (message : T) : option T * PerKeyQueue :=
  let cs := count (counters self) "enqueued" in
  let key_message_queue := default [] (per_key_queue self !! key) in
  let rr := if is_empty key_message_queue then round_robin_queue self ++ [key] else round_robin_queue self in
  let finish q cs :=
    mkPerKeyQueue (queue_style self) (<[key := q]> (per_key_queue self)) rr (max_queue_size self)
      (num_popped_since_gc self) cs in
  if max_queue_size self <=? Z.of_nat (length key_message_queue) then
    let cs := count cs "dropped" in
    match queue_style self with
    | FIFO => (Some message, finish key_message_queue cs)
    | LIFO | KLAST =>
        let '(oldest, q) := pop_front key_message_queue in
        (oldest, finish (q ++ [message]) cs)
    end
  else (None, finish (key_message_queue ++ [message]) cs).

Definition remove_empty_queues (self : PerKeyQueue) : PerKeyQueue :=
  mkPerKeyQueue (queue_style self) (filter (fun kq => snd kq <> []) (per_key_queue self))
    (round_robin_queue self) (max_queue_size self) (num_popped_since_gc self) (counters self).

Definition PerKeyQueue_pop (self : PerKeyQueue) : option T * PerKeyQueue :=
  match round_robin_queue self with
  | [] => (None, self)
  | key :: rr =>
      let self := mkPerKeyQueue (queue_style self) (per_key_queue self) rr (max_queue_size self)
                    (num_popped_since_gc self) (counters self) in
      let '((message, is_q_empty), self) := pop_from_key_queue self key in
      let self :=
        if is_q_empty then self
        else mkPerKeyQueue (queue_style self) (per_key_queue self) (round_robin_queue self ++ [key])
               (max_queue_size self) (num_popped_since_gc self) (counters self) in
      match message with
      | Some _ =>
          let n := num_popped_since_gc self + 1 in
          let cs := count (counters self) "dequeued" in
          if POPS_PER_GC <=? n then
            (message, remove_empty_queues
               (mkPerKeyQueue (queue_style self) (per_key_queue self) (round_robin_queue self)
                  (max_queue_size self) 0 cs))
          else
            (message, mkPerKeyQueue (queue_style self) (per_key_queue self) (round_robin_queue self)
                        (max_queue_size self) n cs)
      | None => (message, self)
      end
  end.

Definition PerKeyQueue_clear (self : PerKeyQueue) : PerKeyQueue :=
  mkPerKeyQueue (queue_style self) ∅ [] (max_queue_size self) (num_popped_since_gc self) (counters self).
End PerKeyQueue.
Arguments PerKeyQueue K {_ _} T.
