(* ===== verification/MessageQueueTheorems.v ===== *)
(** * Per-key message queues: the properties

    The queue refines a list of keys with their pending messages, in the order in
    which they are served: the hash map and its garbage collection do not show. *)
From stdpp Require Import base list numbers strings option gmap sets.
From Stdlib Require Import ZArith Lia Bool.
From S2P Require Import Prelude MessageQueue.

Section Spec.
Context {K : Type} `{Countable K} {T : Type}.
Implicit Types (q : PerKeyQueue K T) (k : K) (m : T) (style : QueueStyle) (max : Z) (l : list (K * list T)).

(** ** The specification *)

(** Adding to a bounded queue: what is dropped, what stays. *)
Definition spec_add style max (ms : list T) m : option T * list T :=
  if max <=? Z.of_nat (length ms) then
    match style with
    | FIFO => (Some m, ms)
    | LIFO | KLAST => (head ms, tail ms ++ [m])
    end
  else (None, ms ++ [m]).

Fixpoint spec_push style max l k m : option T * list (K * list T) :=
  match l with
  | [] => (None, [(k, [m])])
  | (k', ms) :: l =>
      if decide (k' = k) then let '(d, ms) := spec_add style max ms m in (d, (k, ms) :: l)
      else let '(d, l) := spec_push style max l k m in (d, (k', ms) :: l)
  end.

Definition spec_take style (ms : list T) : option T * list T :=
  match style with FIFO | KLAST => (head ms, tail ms) | LIFO => (list.last ms, removelast ms) end.

(** The first key is served and goes to the end if it has more. *)
Definition spec_pop style l : option T * list (K * list T) :=
  match l with
  | [] => (None, [])
  | (k, ms) :: l =>
      let '(m, ms) := spec_take style ms in
      (m, match ms with [] => l | _ => l ++ [(k, ms)] end)
  end.

(** ** Abstraction and invariant *)
Definition pending q k : list T := default [] (per_key_queue q !! k).
Definition abs q : list (K * list T) := map (fun k => (k, pending q k)) (round_robin_queue q).

(** Queues left empty in the map. *)
Definition garbage q : nat := size (filter (fun kq : K * list T => snd kq = []) (per_key_queue q)).

Record wf q : Prop := {
  wf_max : 1 <= max_queue_size q;
  wf_nodup : NoDup (round_robin_queue q);
  wf_served : forall k, k ∈ round_robin_queue q <-> pending q k <> [];
  wf_bounded : forall k, Z.of_nat (length (pending q k)) <= max_queue_size q;
  wf_popped : 0 <= num_popped_since_gc q < POPS_PER_GC;
  wf_garbage : Z.of_nat (garbage q) <= num_popped_since_gc q;
}.

Lemma wf_new style max cs : 1 <= max -> wf (PerKeyQueue_new (K := K) (T := T) style max cs).
Proof.
  intros Hm. split; [done|constructor| | |done|].
  - intros k. unfold pending. cbn. rewrite lookup_empty. cbn. split; [intros Hn; by apply not_elem_of_nil in Hn|done].
  - intros k. unfold pending. cbn. rewrite lookup_empty. cbn. lia.
  - unfold garbage. cbn [per_key_queue PerKeyQueue_new]. rewrite map_filter_empty, map_size_empty. cbn. lia.
Qed.

(** ** [push] *)
Lemma spec_push_new style max k m (f : K -> list T) rr : k ∉ rr ->
  spec_push style max (map (fun j => (j, f j)) rr) k m = (None, map (fun j => (j, f j)) rr ++ [(k, [m])]).
Proof.
  induction rr as [|j rr IH]; intros Hn; [done|]. apply not_elem_of_cons in Hn as [Hj Hn]. cbn [map spec_push].
  rewrite decide_False by congruence. by rewrite IH.
Qed.

Lemma map_ext_not_in k (ms : list T) (f : K -> list T) rr : k ∉ rr ->
  map (fun j => (j, if decide (j = k) then ms else f j)) rr = map (fun j => (j, f j)) rr.
Proof.
  intros Hn. apply map_ext_in. intros j Hj. rewrite decide_False; [done|]. intros ->. by apply Hn, list_elem_of_In.
Qed.

Lemma spec_push_old style max k m (f : K -> list T) rr : NoDup rr -> k ∈ rr ->
  spec_push style max (map (fun j => (j, f j)) rr) k m =
  (fst (spec_add style max (f k) m),
   map (fun j => (j, if decide (j = k) then snd (spec_add style max (f k) m) else f j)) rr).
Proof.
  induction rr as [|j rr IH]; intros Hnd Hin; [by apply not_elem_of_nil in Hin|].
  apply NoDup_cons in Hnd as [Hj Hnd]. cbn [map spec_push]. case_decide as E.
  - subst j. rewrite map_ext_not_in by done. by destruct (spec_add style max (f k) m).
  - apply elem_of_cons in Hin as [->|Hin]; [done|]. by rewrite IH.
Qed.

Lemma is_empty_spec {A} (l : list A) : is_empty l = true <-> l = [].
Proof. by destruct l. Qed.

(** [push] adds to the queue of its key. *)
Lemma push_fields q k m : wf q -> exists rr cs,
  PerKeyQueue_push q k m = (fst (spec_add (queue_style q) (max_queue_size q) (pending q k) m),
    mkPerKeyQueue (queue_style q)
      (<[k := snd (spec_add (queue_style q) (max_queue_size q) (pending q k) m)]> (per_key_queue q)) rr
      (max_queue_size q) (num_popped_since_gc q) cs) /\
  rr = (if decide (k ∈ round_robin_queue q) then round_robin_queue q else round_robin_queue q ++ [k]).
Proof.
  intros Hw. unfold PerKeyQueue_push, spec_add. fold (pending q k). pose proof (wf_served q Hw k) as Hs.
  pose proof (wf_max q Hw). exists (if is_empty (pending q k) then round_robin_queue q ++ [k] else round_robin_queue q).
  assert (Err : (if is_empty (pending q k) then round_robin_queue q ++ [k] else round_robin_queue q) =
    (if decide (k ∈ round_robin_queue q) then round_robin_queue q else round_robin_queue q ++ [k])).
  { destruct (pending q k) as [|x ms] eqn:E; cbn [is_empty].
    - rewrite decide_False; [done|]. intros Hin. by apply Hs in Hin.
    - rewrite decide_True; [done|]. by apply Hs. }
  destruct (max_queue_size q <=? Z.of_nat (length (pending q k))) eqn:El.
  - destruct (queue_style q); [by eexists| |];
      (destruct (pending q k) as [|x ms]; [apply Z.leb_le in El; cbn in El; lia|by eexists]).
  - by eexists.
Qed.

Lemma spec_add_bounded style max ms m : 1 <= max -> Z.of_nat (length ms) <= max ->
  Z.of_nat (length (snd (spec_add style max ms m))) <= max /\ snd (spec_add style max ms m) <> [].
Proof.
  intros Hm Hl. unfold spec_add. destruct (max <=? Z.of_nat (length ms)) eqn:E; [apply Z.leb_le in E|apply Z.leb_gt in E].
  - assert (Hne : ms <> []) by (intros ->; cbn in E; lia).
    destruct ms as [|x ms]; [done|]. destruct style; cbn [snd tail]; split; try done; try (by destruct ms).
    all: rewrite length_app; cbn [length] in *; lia.
  - cbn [snd]. rewrite length_app. cbn [length]. split; [lia|]. by destruct ms.
Qed.

Lemma garbage_insert (mp : gmap K (list T)) k ms : ms <> [] ->
  (size (filter (fun kq : K * list T => snd kq = []) (<[k := ms]> mp)) <=
   size (filter (fun kq : K * list T => snd kq = []) mp))%nat.
Proof.
  intros Hne. rewrite map_filter_insert_False by done. apply map_subseteq_size, map_filter_subseteq_mono, delete_subseteq.
Qed.

Lemma push_wf q k m : wf q -> wf (snd (PerKeyQueue_push q k m)).
Proof.
  intros Hw. destruct (push_fields q k m Hw) as (rr & cs & -> & ->). cbn [snd].
  destruct (spec_add_bounded (queue_style q) _ _ m (wf_max q Hw) (wf_bounded q Hw k)) as [Hb Hne].
  set (ms := snd (spec_add (queue_style q) (max_queue_size q) (pending q k) m)) in *.
  split; cbn [max_queue_size round_robin_queue num_popped_since_gc].
  - apply (wf_max q Hw).
  - case_decide as Hin; [apply (wf_nodup q Hw)|]. apply NoDup_app.
    split_and!; [apply (wf_nodup q Hw)| |apply NoDup_singleton].
    intros j Hj Hj'. apply list_elem_of_singleton in Hj' as ->. done.
  - intros j. unfold pending. cbn [per_key_queue]. destruct (decide (j = k)) as [->|Hj].
    + rewrite lookup_insert_eq. cbn. split; [done|]. intros _. case_decide; [done|]. apply elem_of_app. right. left.
    + rewrite lookup_insert_ne by done. fold (pending q j). rewrite <- (wf_served q Hw j). case_decide; [done|].
      rewrite elem_of_app, list_elem_of_singleton. naive_solver.
  - intros j. unfold pending. cbn [per_key_queue]. destruct (decide (j = k)) as [->|Hj].
    + by rewrite lookup_insert_eq.
    + rewrite lookup_insert_ne by done. apply (wf_bounded q Hw).
  - apply (wf_popped q Hw).
  - unfold garbage. cbn [per_key_queue]. pose proof (garbage_insert (per_key_queue q) k ms Hne).
    pose proof (wf_garbage q Hw) as Hg. unfold garbage in Hg. lia.
Qed.

Lemma push_abs q k m : wf q ->
  (fst (PerKeyQueue_push q k m), abs (snd (PerKeyQueue_push q k m))) = spec_push (queue_style q) (max_queue_size q) (abs q) k m.
Proof.
  intros Hw. destruct (push_fields q k m Hw) as (rr & cs & -> & ->). cbn [fst snd]. unfold abs.
  cbn [round_robin_queue]. pose proof (wf_served q Hw k) as Hs.
  assert (Hp : forall ms rr j, pending (mkPerKeyQueue (queue_style q) (<[k := ms]> (per_key_queue q)) rr
    (max_queue_size q) (num_popped_since_gc q) cs) j = if decide (j = k) then ms else pending q j).
  { intros ms rr j. unfold pending. cbn [per_key_queue]. case_decide as E.
    - subst. by rewrite lookup_insert_eq.
    - by rewrite lookup_insert_ne. }
  setoid_rewrite Hp. case_decide as Hin.
  - by rewrite (spec_push_old _ _ _ _ (pending q)) by (done || apply (wf_nodup q Hw)).
  - rewrite (spec_push_new _ _ _ _ (pending q)) by done. rewrite map_app. cbn [map].
    rewrite map_ext_not_in, decide_True by done.
    assert (E0 : pending q k = []) by (destruct (pending q k); [done|]; by destruct Hin; apply Hs).
    rewrite E0. unfold spec_add. cbn [length Z.of_nat].
    rewrite (proj2 (Z.leb_gt _ _)); [done|]. pose proof (wf_max q Hw). lia.
Qed.

(** ** [pop] *)
Lemma spec_take_some style ms : ms <> [] -> exists m, fst (spec_take style ms) = Some m.
Proof.
  intros Hne. unfold spec_take. destruct style; cbn [fst].
  - destruct ms as [|x ms]; [done|]. by exists x.
  - destruct ms as [|x ms _] using rev_ind; [done|]. exists x. apply last_snoc.
  - destruct ms as [|x ms]; [done|]. by exists x.
Qed.

Lemma spec_take_length style ms : (length (snd (spec_take style ms)) <= length ms)%nat.
Proof.
  unfold spec_take. destruct style; cbn [snd]; [destruct ms; cbn; lia| |destruct ms; cbn; lia].
  destruct ms as [|x ms _] using rev_ind; [done|]. rewrite removelast_last, length_app. cbn. lia.
Qed.

Lemma garbage_insert_S (mp : gmap K (list T)) k ms :
  (size (filter (fun kq : K * list T => snd kq = []) (<[k := ms]> mp)) <=
   S (size (filter (fun kq : K * list T => snd kq = []) mp)))%nat.
Proof.
  destruct (decide (ms = [])) as [->|Hne]; [|pose proof (garbage_insert mp k ms Hne); lia].
  rewrite map_filter_insert_True by done.
  destruct (decide (is_Some (filter (fun kq : K * list T => snd kq = []) mp !! k))) as [Hs|Hs].
  - rewrite map_size_insert_Some by done. lia.
  - rewrite map_size_insert_None; [lia|]. by apply eq_None_not_Some.
Qed.

Lemma pop_fields q k rr : wf q -> round_robin_queue q = k :: rr ->
  let ms := snd (spec_take (queue_style q) (pending q k)) in
  exists mp n cs,
    PerKeyQueue_pop q = (fst (spec_take (queue_style q) (pending q k)),
      mkPerKeyQueue (queue_style q) mp (match ms with [] => rr | _ => rr ++ [k] end) (max_queue_size q) n cs) /\
    (forall j, default [] (mp !! j) = if decide (j = k) then ms else pending q j) /\
    0 <= n < POPS_PER_GC /\ Z.of_nat (size (filter (fun kq : K * list T => snd kq = []) mp)) <= n.
Proof.
  intros Hw Err ms. pose proof (wf_served q Hw k) as Hs. rewrite Err in Hs.
  assert (Hne : pending q k <> []) by (apply Hs; left). clear Hs.
  assert (Em : per_key_queue q !! k = Some (pending q k)).
  { unfold pending in *. by destruct (per_key_queue q !! k). }
  destruct (spec_take_some (queue_style q) (pending q k) Hne) as [m Hm].
  assert (Epk : match queue_style q with FIFO | KLAST => pop_front (pending q k) | LIFO => pop_back (pending q k) end =
    (Some m, ms)).
  { unfold ms. rewrite <- Hm. clear -Hne. unfold spec_take. destruct (queue_style q); [by destruct (pending q k)|done|by destruct (pending q k)]. }
  pose proof (wf_popped q Hw) as Hn. pose proof (wf_garbage q Hw) as Hg. unfold garbage in Hg.
  pose proof (garbage_insert_S (per_key_queue q) k ms) as Hgi.
  assert (Hlook : forall j, default [] (<[k := ms]> (per_key_queue q) !! j) = if decide (j = k) then ms else pending q j).
  { intros j. case_decide as E; [subst; by rewrite lookup_insert_eq|by rewrite lookup_insert_ne]. }
  unfold PerKeyQueue_pop. rewrite Err. unfold pop_from_key_queue. cbn [per_key_queue queue_style]. rewrite Em, Epk.
  cbn [per_key_queue queue_style round_robin_queue max_queue_size num_popped_since_gc counters].
  assert (Erq : forall q1 q2 : PerKeyQueue K T, (if is_empty ms then q1 else q2) = match ms with [] => q1 | _ => q2 end)
    by (by destruct ms).
  rewrite !Erq, Hm.
  assert (Hfin : forall n', n' = num_popped_since_gc q + 1 -> exists mp n cs,
    (if POPS_PER_GC <=? n' then
       (Some m, remove_empty_queues (mkPerKeyQueue (queue_style q) (<[k := ms]> (per_key_queue q))
          (match ms with [] => rr | _ => rr ++ [k] end) (max_queue_size q) 0 (count (counters q) "dequeued")))
     else (Some m, mkPerKeyQueue (queue_style q) (<[k := ms]> (per_key_queue q))
          (match ms with [] => rr | _ => rr ++ [k] end) (max_queue_size q) n' (count (counters q) "dequeued"))) =
    (Some m, mkPerKeyQueue (queue_style q) mp (match ms with [] => rr | _ => rr ++ [k] end) (max_queue_size q) n cs) /\
    (forall j, default [] (mp !! j) = if decide (j = k) then ms else pending q j) /\
    0 <= n < POPS_PER_GC /\ Z.of_nat (size (filter (fun kq : K * list T => snd kq = []) mp)) <= n).
  { intros n' En. destruct (POPS_PER_GC <=? n') eqn:El; [apply Z.leb_le in El|apply Z.leb_gt in El].
    - eexists _, _, _. split; [unfold remove_empty_queues; reflexivity|]. cbn [per_key_queue num_popped_since_gc].
      split; [|split; [unfold POPS_PER_GC; lia|]].
      + intros j. rewrite map_lookup_filter, <- Hlook.
        destruct (<[k := ms]> (per_key_queue q) !! j) as [ms'|]; [|done]. cbn. by destruct ms'.
      + match goal with |- Z.of_nat (size ?f) <= _ => assert (Ef : f = ∅) end.
        { apply map_empty. intros j. apply eq_None_not_Some. intros [x Hx].
          apply map_lookup_filter_Some in Hx as [Hx Hx0]. by apply map_lookup_filter_Some in Hx as [_ ?]. }
        rewrite Ef, map_size_empty. cbn. lia.
    - eexists _, _, _. split; [reflexivity|]. split; [done|]. split; lia. }
  specialize (Hfin (num_popped_since_gc q + 1) eq_refl). destruct ms as [|x ms']; exact Hfin.
Qed.

Lemma pop_wf q : wf q -> wf (snd (PerKeyQueue_pop q)).
Proof.
  intros Hw. destruct (round_robin_queue q) as [|k rr] eqn:Err; [unfold PerKeyQueue_pop; by rewrite Err|].
  destruct (pop_fields q k rr Hw Err) as (mp & n & cs & -> & Hp & Hn & Hg). cbn [snd].
  set (ms := snd (spec_take (queue_style q) (pending q k))) in *.
  pose proof (wf_nodup q Hw) as Hnd. rewrite Err in Hnd. apply NoDup_cons in Hnd as [Hk Hnd].
  assert (Hlen : (length ms <= length (pending q k))%nat) by apply spec_take_length.
  assert (Hin : forall j, j ∈ match ms with [] => rr | _ => rr ++ [k] end <-> j ∈ rr \/ (j = k /\ ms <> [])).
  { intros j. destruct ms; [naive_solver|]. rewrite elem_of_app, list_elem_of_singleton. naive_solver. }
  split; cbn [max_queue_size round_robin_queue num_popped_since_gc].
  - apply (wf_max q Hw).
  - destruct ms; [done|]. apply NoDup_app. split_and!; [done| |apply NoDup_singleton].
    intros j Hj Hj'. apply list_elem_of_singleton in Hj' as ->. done.
  - intros j. rewrite Hin. unfold pending at 1. cbn [per_key_queue]. rewrite Hp. case_decide as E.
    + subst j. naive_solver.
    + pose proof (wf_served q Hw j) as Hs. rewrite Err, elem_of_cons in Hs. naive_solver.
  - intros j. unfold pending. cbn [per_key_queue]. rewrite Hp. case_decide.
    + pose proof (wf_bounded q Hw k). lia.
    + apply (wf_bounded q Hw).
  - done.
  - done.
Qed.

Lemma pop_abs q : wf q -> (fst (PerKeyQueue_pop q), abs (snd (PerKeyQueue_pop q))) = spec_pop (queue_style q) (abs q).
Proof.
  intros Hw. unfold abs at 2. destruct (round_robin_queue q) as [|k rr] eqn:Err.
  - unfold PerKeyQueue_pop. rewrite Err. unfold abs. cbn [fst snd]. by rewrite Err.
  - destruct (pop_fields q k rr Hw Err) as (mp & n & cs & -> & Hp & _). cbn [fst snd map spec_pop].
    pose proof (wf_nodup q Hw) as Hnd. rewrite Err in Hnd. apply NoDup_cons in Hnd as [Hk Hnd].
    destruct (spec_take (queue_style q) (pending q k)) as [m ms]. cbn [fst snd] in *. f_equal.
    unfold abs. cbn [round_robin_queue]. unfold pending at 1. cbn [per_key_queue]. setoid_rewrite Hp.
    destruct ms as [|x ms]; [by apply map_ext_not_in|]. rewrite map_app. cbn [map].
    by rewrite map_ext_not_in, decide_True.
Qed.

Lemma clear_wf q : wf q -> wf (PerKeyQueue_clear q).
Proof.
  intros Hw. split; cbn [PerKeyQueue_clear max_queue_size round_robin_queue num_popped_since_gc].
  - apply (wf_max q Hw).
  - constructor.
  - intros k. unfold pending. cbn. rewrite lookup_empty. cbn. split; [intros Hn; by apply not_elem_of_nil in Hn|done].
  - intros k. unfold pending. cbn. rewrite lookup_empty. pose proof (wf_max q Hw). cbn. lia.
  - apply (wf_popped q Hw).
  - unfold garbage. cbn [PerKeyQueue_clear per_key_queue]. rewrite map_filter_empty, map_size_empty. apply (wf_popped q Hw).
Qed.

(** ** Runs *)
Inductive queue_op := OpPush (k : K) (m : T) | OpPop | OpClear.

Definition exec q (op : queue_op) : option T * PerKeyQueue K T :=
  match op with
  | OpPush k m => PerKeyQueue_push q k m
  | OpPop => PerKeyQueue_pop q
  | OpClear => (None, PerKeyQueue_clear q)
  end.

Definition spec_exec style max l (op : queue_op) : option T * list (K * list T) :=
  match op with
  | OpPush k m => spec_push style max l k m
  | OpPop => spec_pop style l
  | OpClear => (None, [])
  end.

Fixpoint exec_all q (ops : list queue_op) : list (option T) * PerKeyQueue K T :=
  match ops with
  | [] => ([], q)
  | op :: ops => let '(r, q) := exec q op in let '(rs, q) := exec_all q ops in (r :: rs, q)
  end.

Fixpoint spec_exec_all style max l (ops : list queue_op) : list (option T) * list (K * list T) :=
  match ops with
  | [] => ([], l)
  | op :: ops =>
      let '(r, l) := spec_exec style max l op in
      let '(rs, l) := spec_exec_all style max l ops in (r :: rs, l)
  end.

Lemma exec_params q op : wf q -> queue_style (snd (exec q op)) = queue_style q /\
  max_queue_size (snd (exec q op)) = max_queue_size q.
Proof.
  intros Hw. destruct op as [k m| |]; cbn [exec]; [| |done].
  - by destruct (push_fields q k m Hw) as (rr & cs & -> & _).
  - destruct (round_robin_queue q) as [|k rr] eqn:Err; [unfold PerKeyQueue_pop; by rewrite Err|].
    by destruct (pop_fields q k rr Hw Err) as (mp & n & cs & -> & _).
Qed.

Lemma exec_refines q op : wf q -> wf (snd (exec q op)) /\
  (fst (exec q op), abs (snd (exec q op))) = spec_exec (queue_style q) (max_queue_size q) (abs q) op.
Proof.
  intros Hw. destruct op as [k m| |]; cbn [exec spec_exec].
  - split; [by apply push_wf|by apply push_abs].
  - split; [by apply pop_wf|by apply pop_abs].
  - split; [by apply clear_wf|done].
Qed.

(** C29: whatever is done to a new queue, what it returns and the messages it holds, in
    the order in which the keys are served, are those of the specification; the map
    holds at most as many empty queues as there were pops since the last collection,
    so fewer than [POPS_PER_GC], and no queue is longer than its bound. *)
Theorem queue_refines style max cs ops : 1 <= max ->
  let q := snd (exec_all (PerKeyQueue_new style max cs) ops) in
  (fst (exec_all (PerKeyQueue_new style max cs) ops), abs q) = spec_exec_all style max [] ops /\
  Z.of_nat (garbage q) <= num_popped_since_gc q < POPS_PER_GC /\
  forall k, Z.of_nat (length (pending q k)) <= max.
Proof.
  intros Hm. cbv zeta.
  assert (G : forall ops q, wf q -> let r := exec_all q ops in
    wf (snd r) /\ max_queue_size (snd r) = max_queue_size q /\
    (fst r, abs (snd r)) = spec_exec_all (queue_style q) (max_queue_size q) (abs q) ops).
  { clear. induction ops as [|op ops IH]; intros q Hw; cbn [exec_all spec_exec_all]; [done|].
    destruct (exec_refines q op Hw) as [Hw' E], (exec_params q op Hw) as [Es Ex].
    destruct (exec q op) as [r q']. cbn [fst snd] in *. rewrite <- E. specialize (IH q' Hw').
    destruct (exec_all q' ops) as [rs q'']. cbn [fst snd] in *. rewrite Es, Ex in IH.
    destruct IH as (Hw'' & Ex'' & E'). rewrite <- E'. done. }
  specialize (G ops _ (wf_new style max cs Hm)). cbv zeta in G. destruct G as (Hw & Ex & E).
  change (abs (PerKeyQueue_new style max cs)) with (@nil (K * list T)) in E. cbn [queue_style max_queue_size PerKeyQueue_new] in E, Ex.
  split_and!; [done|apply (wf_garbage _ Hw)|apply (wf_popped _ Hw)|]. intros k. pose proof (wf_bounded _ Hw k) as Hb. by rewrite Ex in Hb.
Qed.

(** The key that the next pop serves. *)
Definition next_served q : option K := head (round_robin_queue q).

(** The keys served by a run. *)
Fixpoint served q (ops : list queue_op) : list K :=
  match ops with
  | [] => []
  | op :: ops =>
      match op with OpPop => option_list (next_served q) | _ => [] end ++ served (snd (exec q op)) ops
  end.

Definition is_pop (op : queue_op) : Prop := op = OpPop.
Definition is_clear (op : queue_op) : Prop := op = OpClear.

#[export] Instance is_pop_dec op : Decision (is_pop op).
Proof. destruct op; [right|left|right]; done. Defined.

(** C30: no key starves: a key at position [i] of the round-robin queue is served by one
    of the next [i + 1] pops, whatever is pushed in between. *)
Theorem queue_fair q k (i : nat) ops : wf q -> round_robin_queue q !! i = Some k ->
  Forall (fun op => ~ is_clear op) ops -> (i < length (filter is_pop ops))%nat -> k ∈ served q ops.
Proof.
  revert q i. induction ops as [|op ops IH]; intros q i Hw Hi Hc Hlt; [cbn in Hlt; lia|].
  apply Forall_cons in Hc as [Hop Hc]. destruct (exec_refines q op Hw) as [Hw' _]. cbn [served].
  rewrite filter_cons in Hlt. apply elem_of_app. destruct op as [k' m| |]; [| |by destruct Hop].
  - right. rewrite decide_False in Hlt by done. apply (IH _ i Hw'); [|done|done]. cbn [exec].
    destruct (push_fields q k' m Hw) as (rr & cs & -> & ->). cbn [snd round_robin_queue].
    case_decide; [done|]. by apply lookup_app_l_Some.
  - rewrite decide_True in Hlt by done. cbn [length] in Hlt. unfold next_served.
    destruct (round_robin_queue q) as [|k0 rr] eqn:Err; [done|]. destruct i as [|i].
    + injection Hi as ->. left. cbn. by left.
    + right. apply (IH _ i Hw'); [|done|lia]. cbn [exec].
      destruct (pop_fields q k0 rr Hw Err) as (mp & n & cs & -> & _). cbn [snd round_robin_queue].
      cbn in Hi. destruct (snd (spec_take _ _)); [done|]. by apply lookup_app_l_Some.
Qed.
End Spec.

(** *** Instances *)
Definition sample_ops : list (@queue_op Z Z) :=
  [OpPush 1 10; OpPush 2 20; OpPush 1 11; OpPush 1 12; OpPop; OpPop; OpPop; OpPop].

Lemma queue_refines_witness :
  exec_all (PerKeyQueue_new KLAST 2 None) sample_ops =
    ([None; None; None; Some 10; Some 11; Some 20; Some 12; None],
     snd (exec_all (PerKeyQueue_new KLAST 2 None) sample_ops)) /\
  (fst (exec_all (PerKeyQueue_new KLAST 2 None) sample_ops), abs (snd (exec_all (PerKeyQueue_new KLAST 2 None) sample_ops)))
    = spec_exec_all KLAST 2 [] sample_ops.
Proof.
  split; [vm_compute; reflexivity|]. apply (queue_refines KLAST 2 None sample_ops). lia.
Defined.

Lemma queue_fair_witness :
  2 ∈ served (snd (PerKeyQueue_push (snd (PerKeyQueue_push (PerKeyQueue_new FIFO 2 None) 1 10)) 2 20)) [OpPop; OpPush 1 11; OpPop].
Proof.
  apply (queue_fair _ 2 1); [|reflexivity| |apply (bool_decide_unpack _); vm_compute; exact I].
  2: by repeat (apply Forall_cons_2; [intros E; discriminate E|]).
  apply push_wf, push_wf, wf_new. lia.
Defined.

